(* ===== verification/_CoqProject ===== *)
-Q . S2P
Prelude.v
Bytes.v
Params.v
Heap.v
RlpEncode.v
RlpRaw.v
RlpStruct.v
RlpStream.v
RlpStreamProps.v
RlpDecode.v
RlpDecodeProps.v
RlpRoundTrip.v
Common.v
Compress.v
Lru.v
Blake2b.v
KeyValue.v
TrieKeys.v
TrieNode.v
TrieTree.v
Trie.v
TrieProps.v
TrieHash.v
TrieCommit.v
TrieMap.v
TrieProof.v
StackTrie.v
StackTrieProps.v
AccessList.v
EvmWord.v
EvmBase.v
EvmAnalysis.v
Types.v
TxClassify.v
TxOrder.v
StateDB.v
StateEquiv.v
StateRevert.v
StateSteps.v
StateRefine.v
StateFrame.v
StateCommit.v
StateValues.v
Blocks.v
ReceiptCodec.v
DeriveRoot.v
PoolList.v
PoolListProps.v
PoolListRefine.v
PoolAccount.v
PoolPrice.v
PoolPriceProps.v
Pool.v
PoolInv.v
PoolAdd.v
PoolReorg.v
PoolReorgProps.v
PoolTruncate.v
PoolRun.v
PoolSchedule.v
PoolOne.v
TxPool.v
Avl.v
Precompiles.v
EvmState.v
EvmCalls.v
EvmGas.v
EvmOps.v
EvmTables.v
EvmRun.v
EvmSample.v
EvmFrame.v
EvmMeter.v
EvmTerminate.v
Transition.v
TransitionProps.v
Process.v
ProcessProps.v
