(* ===== verification/Prelude.v ===== *)
(** * Pangu: a verification development for the Pangu blockchain node

    Pangu executes blocks whose transactions declare the accounts and slots they access.
    Transactions are grouped by declared resource (core/txclassfy.go), the groups run in
    parallel over one state, and what turns out not to be parallel is run again serially
    (core/process.go).  Around that stand the transaction type and its signatures, the
    state database with its journal, an Ethereum virtual machine that tracks accesses, and
    RLP.  The development translates these parts into Rocq functions and proves what makes
    them correct; where the code does not do what it means to do, a theorem says what it
    does instead.

    ** Conventions

    Machine integers are [Z] with the wrap-around written out ([u64], [%u64] around an
    expression); bytes are [Z] below 256; addresses and hashes are the numbers of their
    bytes.  Code that can panic returns [res], code that returns an error a sum.  A Go map
    is a [gmap]; its iteration order and the result of an unstable sort come from the class
    [GoRuntime], about which only permutation and order are known, so a theorem holds for
    every order.  Code outside src/ is a class with the documented behaviour as laws:
    [Crypto] (Keccak-256, secp256k1), [NativeCrypto] (RIPEMD-160 and the curve operations
    of the precompiled contracts), [Database] (tries and code below the state database),
    [Uint256] (holiman/uint256).  Each has an instance (toy_crypto, mem_database,
    word_model, toy_native, reference_runtime) that the witnesses evaluate.

    ** Files

    - [Prelude], [Bytes], [Params]: Go values, lists, big-endian numbers, gas constants.
    - [RlpEncode], [RlpRaw], [RlpStruct]: src/rlp encode.go, encbuffer.go, raw.go,
      typecache.go and internal/rlpstruct.  The two-pass encoder equals the recursive
      definition of RLP; the splitting functions accept exactly canonical encodings; the
      struct types with a writer have their optional fields at the end.
    - [RlpStream], [RlpDecode]: src/rlp/decode.go, the stream and the decoders of all types.
      [RlpStreamProps], [RlpDecodeProps]: decoding returns for every input, and accepts only
      canonical encodings.  [RlpRoundTrip]: it reads back what the encoder wrote.
    - [Common]: src/common/types.go, src/crypto/crypto.go.
    - [Compress]: src/common/bitutil/compress.go; decompression undoes compression.
    - [Lru]: src/common/lru basiclru.go and blob_lru.go.  The ring of pointers with its map
      refines a list of entries in the order of use.
    - [Blake2b]: src/crypto/blake2b, with the generic compression function.  It is that of
      RFC 7693, and so are the hashes of the digest and of the sums.
    - [KeyValue]: src/ethdb/memorydb and src/core/rawdb/table.go behind a class of
      key-value stores; tables of different prefixes do not see each other.
    - [AccessList]: src/accesslist.  Journal round trip, union, and what conflict
      detection accepts.
    - [Types]: src/core/types transactions and signer.  Signing and recovery, what a
      signature covers, intrinsic gas, fees, the constant transaction hash.
    - [TxClassify]: src/core/txclassfy.go.  The groups partition the transactions; when
      conflict is transitive they are its classes; otherwise they can split a conflict.
    - [TxOrder]: the set of transactions by price and nonce of core/types/transaction.go is
      a greedy merge; it cannot be made of transactions whose sender is cached.
    - [StateDB], [StateCommit]: src/core/state statedb.go, state_object.go, journal.go.
      [StateEquiv], [StateRevert], [StateSteps]: observational equivalence of states and
      the journal as its inverse.  [StateRefine]: the journalled database refines the
      machine that copies the state at every snapshot.  [StateFrame], [StateValues]: what
      the callers need of that.
    - [TrieKeys], [TrieNode], [Trie], [TrieHash], [TrieCommit]: src/trie encoding.go,
      node.go, node_enc.go, trie.go, tracer.go, trie_reader.go, hasher.go, committer.go and
      trienode.  [TrieTree]: the trees that nodes stand for, in the one minimal form a map
      has.  [TrieProps], [TrieMap]: with nodes loaded on demand the trie behaves as a finite
      map; its root hash is a digest of the map; what was committed can be opened again.
      [TrieProof]: Prove and VerifyProof of proof.go; Merkle proofs are sound and complete.
    - [StackTrie], [StackTrieProps]: src/trie/stacktrie.go.  For keys in order it computes
      the root hash of the trie and writes all of its nodes.
    - [Blocks]: src/core/types bloom.go, receipt.go, hashing.go, block.go.  [ReceiptCodec]:
      receipts and logs are read back from their encodings.  [DeriveRoot]: the roots of a
      new block, with the stack trie as the hasher.
    - [Heap]: Go's container/heap, with its correctness.
    - [PoolList], [PoolPrice], [Pool], [PoolReorg]: src/core/txpool/legacypool and
      validation.go: the lists of an account, the price heaps and the lookup, the pool and
      its reorganisation.  [PoolListProps], [PoolListRefine]: a list with its heap, cache
      and caps refines a list in nonce order.  [PoolAccount], [PoolPriceProps], [PoolInv],
      [PoolAdd], [PoolReorgProps], [PoolTruncate], [PoolRun]: every operation returns and
      keeps lists, lookup and heaps in agreement.  [PoolSchedule]: the goroutines around the
      pool as a step relation; the agreement holds in every reachable state, and every
      request is served.  [PoolOne]: with the constant hash the pool holds one transaction.
    - [TxPool]: src/core/txpool/txpool.go over a class of subpools, of which the legacy pool
      is an instance.  [Avl]: avl.go refines a map with sums.
    - [EvmWord], [EvmBase], [EvmState]: words, stack, memory, contracts, and the monad of
      the interpreter.  [EvmAnalysis]: the jump destination bitmap.  [Precompiles],
      [EvmCalls], [EvmGas], [EvmOps], [EvmTables], [EvmRun]: the rest of src/core/evm.
      Calls, instructions and the interpreter are mutually recursive: the instructions take
      the interpreter as an argument, and [Run] ties the knot with a number of rounds.
      [EvmFrame]: a failed call restores the state, by a frame property of every
      instruction.  [EvmMeter], [EvmTerminate]: no instruction creates gas, and in parallel
      mode a number of rounds above the gas is enough.
    - [Transition], [TransitionProps]: src/core/transition.go.
    - [Process], [ProcessProps]: src/core/process.go, process_types.go, pvm.go.  The
      threads of a block run one after another in any order; every transaction ends with
      one receipt or one error.

    ** Bounds and fuel

    Loops are structural recursions where the code iterates over a list.  [Run] and the
    fixpoints of a few inner loops take a number of rounds; the theorems that a result is
    produced say which number is enough (the gas of a call plus one, the number of
    transactions of a thread, the number of ancestors, the bytes of an RLP string, four
    times the length of a trie key, the sizes of the price heaps, the distance of two
    heads).

    ** Not modelled

    Interleavings inside a transaction: the threads of [Process] share the state without
    locks, so a run of the program can have data races that no sequence of complete
    transactions explains.  JSON, logging, metrics, network and disk access.  The curve
    arithmetic of crypto/, which the models take as parameters.  Subscriptions and the
    shutdown of the transaction pool.  Iterators, range proofs and databases of the trie,
    and the snapshots. *)

From stdpp Require Export prelude gmap sets list strings sorting.
From Stdlib Require Export ZArith Lia.

#[global] Open Scope Z_scope.

(** ** Go values

    A [common.Address] is [[20]byte] and a [common.Hash] is [[32]byte]; both are
    modelled by the big-endian number their bytes spell, so that [bytes.Compare] on
    two of them is the order of [Z] and the zero value is [0]. *)

Abbreviation Address := Z (only parsing).
Abbreviation Hash := Z (only parsing).
Abbreviation byte := Z (only parsing).

Definition addr_ok (a : Address) : bool := (0 <=? a) && (a <? 2 ^ 160).
Definition hash_ok (h : Hash) : bool := (0 <=? h) && (h <? 2 ^ 256).
Definition byte_ok (b : byte) : bool := (0 <=? b) && (b <? 256).

(** ** Machine integers

    A [uint64] is a [Z] in [[0, 2^64)].  An expression of sums, differences and products
    in [%u64] wraps once at its end, which is the same number as wrapping at every
    operation. *)

Definition MaxUint64 : Z := 2 ^ 64 - 1.
Definition u64 (x : Z) : Z := x mod 2 ^ 64.
Definition u64_ok (x : Z) : Prop := 0 <= x < 2 ^ 64.

Declare Scope u64_scope.
Delimit Scope u64_scope with u64.
Notation "x + y" := (u64 (Z.add x y)) : u64_scope.
Notation "x - y" := (u64 (Z.sub x y)) : u64_scope.
Notation "x * y" := (u64 (Z.mul x y)) : u64_scope.

Lemma u64_range x : u64_ok (u64 x).
Proof. apply Z.mod_pos_bound. lia. Qed.

Lemma u64_id x : u64_ok x → u64 x = x.
Proof. apply Z.mod_small. Qed.

(** Wrapping once at the end is enough. *)
Lemma u64_add_l x y : u64 (u64 x + y) = u64 (x + y).
Proof. apply Zplus_mod_idemp_l. Qed.
Lemma u64_add_r x y : u64 (x + u64 y) = u64 (x + y).
Proof. apply Zplus_mod_idemp_r. Qed.
Lemma u64_sub_l x y : u64 (u64 x - y) = u64 (x - y).
Proof. apply Zminus_mod_idemp_l. Qed.
Lemma u64_sub_r x y : u64 (x - u64 y) = u64 (x - y).
Proof. apply Zminus_mod_idemp_r. Qed.
Lemma u64_mul_l x y : u64 (u64 x * y) = u64 (x * y).
Proof. apply Zmult_mod_idemp_l. Qed.
Lemma u64_mul_r x y : u64 (x * u64 y) = u64 (x * y).
Proof. apply Zmult_mod_idemp_r. Qed.
Lemma u64_add_mul_l x y z : u64 (x + u64 y * z) = u64 (x + y * z).
Proof. by rewrite <- u64_add_r, u64_mul_l, u64_add_r. Qed.
Lemma u64_u64 x : u64 (u64 x) = u64 x.
Proof. apply Z.mod_mod. lia. Qed.

Ltac u64_norm :=
  repeat first [rewrite u64_add_mul_l | rewrite u64_mul_l | rewrite u64_mul_r | rewrite u64_u64 | rewrite u64_add_l
               | rewrite u64_add_r | rewrite u64_sub_l | rewrite u64_sub_r].

(** An unsigned sum has wrapped exactly when it is below either operand: the test
    [val < offset64] of the source. *)
Lemma u64_add_overflow x y :
  u64_ok x → u64_ok y → ((x + y)%u64 <? x) = (2 ^ 64 <=? x + y).
Proof.
  unfold u64_ok, u64. intros Hx Hy.
  destruct (Z.leb_spec (2 ^ 64) (x + y)).
  - rewrite (Z.mod_eq (x + y)) by lia.
    assert ((x + y) / 2 ^ 64 = 1) as -> by (symmetry; apply Z.div_unique with (x + y - 2 ^ 64); lia).
    apply Z.ltb_lt. lia.
  - rewrite Z.mod_small by lia. apply Z.ltb_ge. lia.
Qed.

(** ** Panics

    A Go run-time panic (index out of range, nil dereference, an explicit [panic])
    is a value of the result type. *)

Inductive res (A : Type) : Type :=
| Ok (a : A)
| Panic (msg : string).
Arguments Ok {A} a.
Arguments Panic {A} msg.

#[global] Instance res_ret : MRet res := @Ok.
#[global] Instance res_bind : MBind res := λ A B f m,
  match m with Ok a => f a | Panic s => Panic s end.
#[global] Instance res_fmap : FMap res := λ A B f m,
  match m with Ok a => Ok (f a) | Panic s => Panic s end.

Definition is_ok {A} (m : res A) : Prop := ∃ a, m = Ok a.

Lemma res_bind_ret {A B} (a : A) (f : A → res B) : Ok a ≫= f = f a.
Proof. done. Qed.

Lemma res_bind_Ok {A B} (m : res A) (f : A → res B) b :
  m ≫= f = Ok b ↔ ∃ a, m = Ok a ∧ f a = Ok b.
Proof. destruct m; simpl; naive_solver. Qed.

Lemma mapM_res_Ok {A B} (f : A → res B) l k :
  mapM f l = Ok k ↔ Forall2 (λ x y, f x = Ok y) l k.
Proof.
  split.
  - revert k. induction l as [|x l IH]; intros k; simpl.
    + intros [= <-]. constructor.
    + destruct (f x) as [y|] eqn:E; simpl; [|done].
      destruct (mapM f l) as [k'|] eqn:E'; simpl; [|done]. intros [= <-]. auto.
  - induction 1 as [|x y l k Hx _ IH]; [done|]. simpl. rewrite Hx. simpl. by rewrite IH.
Qed.

Lemma mapM_res_total {A B} (f : A → res B) l :
  Forall (λ x, ∃ y, f x = Ok y) l → ∃ k, mapM f l = Ok k.
Proof.
  induction 1 as [|x l [y Hy] _ [k IH]]; simpl; [eauto|]. rewrite Hy. simpl. rewrite IH. eauto.
Qed.

(** Reading through a pointer. *)
Definition deref {A} (p : option A) : res A :=
  match p with Some x => Ok x | None => Panic "nil pointer dereference" end.

(** A Go function that returns [(value, error)]: [inr] is a nil error. *)
#[global] Instance err_ret {E} : MRet (sum E) := λ A a, inr a.
#[global] Instance err_bind {E} : MBind (sum E) := λ A B f m,
  match m with inr a => f a | inl e => inl e end.

Lemma err_bind_inr {E A B} (m : E + A) (f : A → E + B) b :
  m ≫= f = inr b ↔ ∃ a, m = inr a ∧ f a = inr b.
Proof. destruct m; simpl; naive_solver. Qed.

(** [l[i]] on a slice: a negative or too large index panics. *)
Definition go_index {A} (l : list A) (i : Z) : res A :=
  if i <? 0 then Panic "index out of range"
  else match l !! Z.to_nat i with
       | Some x => Ok x
       | None => Panic "index out of range"
       end.

(** [l[:n]] on a slice. *)
Definition go_take {A} (l : list A) (n : Z) : res (list A) :=
  if (n <? 0) || (Z.of_nat (length l) <? n) then Panic "slice bounds out of range"
  else Ok (take (Z.to_nat n) l).

Lemma go_index_Ok {A} (l : list A) i x :
  go_index l i = Ok x ↔ 0 <= i ∧ l !! Z.to_nat i = Some x.
Proof.
  unfold go_index. destruct (Z.ltb_spec i 0).
  - split; [done | lia].
  - destruct (l !! Z.to_nat i); naive_solver.
Qed.

(** [sort.Search(n, f)]: binary search for the smallest index at which [f] holds.  The
    interval shrinks in every round, so [n] rounds are enough. *)
Fixpoint search_loop (fuel : nat) (f : nat → bool) (i j : nat) : nat :=
  match fuel with
  | O => i
  | S fuel => if decide (i < j)%nat
              then let h := ((i + j) / 2)%nat in
                   if f h then search_loop fuel f i h else search_loop fuel f (S h) j
              else i
  end.

Definition sort_Search (n : nat) (f : nat → bool) : nat := search_loop n f 0 n.

Lemma search_loop_spec n f fuel i j :
  (∀ h k, h ≤ k → k < n → f h = true → f k = true)%nat →
  (i ≤ j ≤ n)%nat → (j - i ≤ fuel)%nat →
  (∀ h, h < i → f h = false)%nat → (j < n → f j = true)%nat →
  let r := search_loop fuel f i j in
  (r ≤ n ∧ (∀ h, h < r → f h = false) ∧ (r < n → f r = true))%nat.
Proof.
  intros Hmono. revert i j. induction fuel as [|fuel IH]; intros i j Hij Hf Hi Hj; cbn [search_loop].
  - assert (i = j) as -> by lia. split_and!; auto; lia.
  - destruct (decide (i < j)%nat) as [Hlt|Hge].
    2:{ assert (i = j) as -> by lia. split_and!; auto; lia. }
    assert (i ≤ (i + j) / 2 < j)%nat.
    { split; [apply Nat.div_le_lower_bound | apply Nat.Div0.div_lt_upper_bound]; lia. }
    set (h := ((i + j) / 2)%nat) in *. destruct (f h) eqn:E; apply IH; try lia; auto.
    intros k Hk. destruct (f k) eqn:Ek; [|done]. rewrite (Hmono k h) in E; [done|lia|lia|done].
Qed.

(** The first index at which a monotone test holds. *)
Lemma sort_Search_spec n f :
  (∀ h k, h ≤ k → k < n → f h = true → f k = true)%nat →
  (sort_Search n f ≤ n ∧ (∀ h, h < sort_Search n f → f h = false)
   ∧ (sort_Search n f < n → f (sort_Search n f) = true))%nat.
Proof. intros. apply search_loop_spec; auto; lia. Qed.

(** ** Outcomes and the state monad

    A computation returns, panics, or has not returned within its fuel. *)

Inductive outcome (A : Type) : Type :=
| Done (a : A)
| Crash (msg : string)
| OutOfFuel.
Arguments Done {A} a.
Arguments Crash {A} msg.
Arguments OutOfFuel {A}.

Definition of_res {A} (r : res A) : outcome A :=
  match r with Ok a => Done a | Panic msg => Crash msg end.

Definition stm (S A : Type) : Type := S → outcome (A * S).

#[global] Instance stm_ret {S} : MRet (stm S) := λ A a s, Done (a, s).
#[global] Instance stm_bind {S} : MBind (stm S) := λ A B f m s,
  match m s with
  | Done (a, s) => f a s
  | Crash msg => Crash msg
  | OutOfFuel => OutOfFuel
  end.

Definition gets {S A} (f : S → A) : stm S A := λ s, Done (f s, s).
Definition modify {S} (f : S → S) : stm S () := λ s, Done ((), f s).
Definition lift {S A} (r : res A) : stm S A := λ s,
  match r with Ok a => Done (a, s) | Panic msg => Crash msg end.

Lemma stm_bind_Done {S A B} (m : stm S A) (f : A → stm S B) s r :
  (m ≫= f) s = Done r ↔ ∃ a s1, m s = Done (a, s1) ∧ f a s1 = Done r.
Proof.
  unfold mbind, stm_bind. destruct (m s) as [[a s1]| |]; naive_solver.
Qed.

(** Computations that can also return an error, which ends them and keeps the state. *)
Definition etm (S E A : Type) : Type := S → outcome ((E + A) * S).

#[global] Instance etm_ret {S E} : MRet (etm S E) := λ A a s, Done (inr a, s).
#[global] Instance etm_bind {S E} : MBind (etm S E) := λ A B f m s,
  match m s with
  | Done (inr a, s) => f a s
  | Done (inl e, s) => Done (inl e, s)
  | Crash msg => Crash msg
  | OutOfFuel => OutOfFuel
  end.

Definition out_of_fuel {S E A} : etm S E A := λ _, OutOfFuel.
Definition crash {S E A} (msg : string) : etm S E A := λ _, Crash msg.
Definition check {S E A} (r : E + A) : etm S E A := λ s, Done (r, s).
Definition fail {S E A} (e : E) : etm S E A := check (inl e).
Definition effect {S E} (f : S → S) : etm S E () := λ s, Done (inr tt, f s).
Definition try {S E A} (r : res A) : etm S E A := λ s,
  match r with Ok a => Done (inr a, s) | Panic msg => Crash msg end.

Lemma etm_bind_inr {S E A B} (m : etm S E A) (f : A → etm S E B) s a s' :
  m s = Done (inr a, s') → (m ≫= f) s = f a s'.
Proof. unfold mbind, etm_bind. by intros ->. Qed.

Lemma etm_bind_inl {S E A B} (m : etm S E A) (f : A → etm S E B) s e s' :
  m s = Done (inl e, s') → (m ≫= f) s = Done (inl e, s').
Proof. unfold mbind, etm_bind. by intros ->. Qed.

Lemma etm_bind_try {S E A B} (r : res A) a (f : A → etm S E B) s :
  r = Ok a → (try r ≫= f) s = f a s.
Proof. by intros ->. Qed.

(** ** The parts of the Go runtime the language leaves open

    [range] over a map visits the entries in an unspecified order, and [sort.Slice]
    is not stable.  Both are resolved by an instance of this class; every theorem is
    proved for all instances, that is, for every order the runtime may choose. *)

Class GoRuntime := {
  range_map : ∀ {K V : Type} `{Countable K}, gmap K V → list (K * V);
  range_set : ∀ {K : Type} `{Countable K}, gset K → list K;
  sort_slice : ∀ {A : Type} (less : A → A → bool), list A → list A;
  range_map_perm : ∀ {K V : Type} `{Countable K} (m : gmap K V),
    range_map m ≡ₚ map_to_list m;
  range_set_perm : ∀ {K : Type} `{Countable K} (s : gset K),
    range_set s ≡ₚ elements s;
  sort_slice_perm : ∀ {A : Type} (less : A → A → bool) (l : list A),
    sort_slice less l ≡ₚ l;
  (* for a strict weak order no later element is less than an earlier one *)
  sort_slice_sorted : ∀ {A : Type} (less : A → A → bool) (l : list A),
    (∀ x y, less x y = true → less y x = false) →
    (∀ x y z, less x y = false → less y z = false → less x z = false) →
    Sorted (λ x y, less y x = false) (sort_slice less l);
}.

(** The instance that visits maps in the order of [map_to_list] and sorts by merging:
    the laws of the class are satisfiable, and definitions run under it. *)
Definition go_less_rel {A} (less : A → A → bool) (x y : A) : Prop := less y x = false.

#[global] Instance go_less_rel_dec {A} (less : A → A → bool) :
  RelDecision (go_less_rel less).
Proof. unfold go_less_rel. solve_decision. Defined.

Definition reference_runtime : GoRuntime.
Proof.
  refine {| range_map K V _ _ m := map_to_list m;
            range_set K _ _ s := elements s;
            sort_slice A less l := merge_sort (go_less_rel less) l |}.
  - done.
  - done.
  - intros. apply merge_sort_Permutation.
  - intros A less l Hasym _. apply Sorted_merge_sort.
    intros x y. unfold go_less_rel. destruct (less y x) eqn:E; eauto.
Defined.

(** ** Shared lemmas on maps, lists and sums *)

Lemma range_map_elem `{GoRuntime} {K V} `{Countable K} (m : gmap K V) k v :
  (k, v) ∈ range_map m ↔ m !! k = Some v.
Proof. rewrite range_map_perm. apply elem_of_map_to_list. Qed.

Lemma range_map_NoDup `{GoRuntime} {K V} `{Countable K} (m : gmap K V) :
  NoDup (range_map m).*1.
Proof. rewrite range_map_perm. apply NoDup_fst_map_to_list. Qed.

Lemma range_set_elem `{GoRuntime} {K} `{Countable K} (s : gset K) x :
  x ∈ range_set s ↔ x ∈ s.
Proof. rewrite range_set_perm. apply elem_of_elements. Qed.

Lemma range_set_length `{GoRuntime} {K} `{Countable K} (s : gset K) :
  length (range_set s) = size s.
Proof. by rewrite range_set_perm. Qed.

Lemma lookup_snoc_last {A} (l : list A) x : (l ++ [x]) !! length l = Some x.
Proof. apply list_lookup_middle. done. Qed.

Lemma sorted_lookup {A} (R : relation A) l i j x y :
  StronglySorted R l → (i < j)%nat → l !! i = Some x → l !! j = Some y → R x y.
Proof.
  intros Hs. revert i j. induction Hs as [|z l Hs IH Hz]; intros i j Hij Hi Hj; [done|].
  destruct j as [|j]; [lia|]. destruct i as [|i]; simpl in *.
  - injection Hi as ->. by eapply Forall_lookup_1 in Hz.
  - eapply IH; [|done..]. lia.
Qed.

(** ** Automation

    [pangu] is the hint database of the development; [solve_res] closes goals about
    results of the panic monad after the obvious case splits. *)

Create HintDb pangu.
#[export] Hint Resolve u64_range : pangu.

Ltac res_simpl :=
  repeat match goal with
  | H : Ok _ = Ok _ |- _ => injection H as H; subst
  | H : Panic _ = Ok _ |- _ => discriminate H
  | H : Ok _ = Panic _ |- _ => discriminate H
  | H : _ ≫= _ = Ok _ |- _ => apply res_bind_Ok in H; destruct H as (? & ? & ?)
  | H : (_, _) = (_, _) |- _ => injection H as ?; subst
  end.
