(* ===== verification/Bytes.v ===== *)
(** * Byte strings and big-endian numbers

    The byte-level vocabulary of the packages [rlp], [common] and [core/evm]: the
    conversion [byte(x)], big-endian encodings of a number ([be_bytes], and [be_min]
    without leading zeroes) and the number a byte string spells ([be_value]), with
    the lemmas that relate them. *)

From S2P Require Import Prelude.


(** The conversion [byte(x)] of an unsigned integer. *)
Definition byte_of (x : Z) : byte := x mod 256.

Definition bytes_ok (l : list byte) : Prop := Forall (λ b, 0 <= b < 256) l.

(** [bytes_at ks i] is [byte(i>>k1), byte(i>>k2), ...]. *)
Definition bytes_at (ks : list Z) (i : Z) : list byte := map (λ k, byte_of (i ≫ k)) ks.

(** The last [n] bytes of [i], most significant first. *)
Fixpoint be_bytes (n : nat) (i : Z) : list byte :=
  match n with
  | O => []
  | S n => be_bytes n (i / 256) ++ [i mod 256]
  end.

(** The number a byte string spells. *)
Definition be_value (l : list byte) : Z := foldl (λ acc b, acc * 256 + b) 0 l.

(** The number of bytes of [i], and its encoding without leading zeroes. *)
Definition byte_len (i : Z) : nat := if i <=? 0 then 0%nat else S (Z.to_nat (Z.log2 i / 8)).
Definition be_min (i : Z) : list byte := be_bytes (byte_len i) i.

(** [bits.Len] and [big.Int.BitLen]. *)
Definition BitLen (i : Z) : Z := if i =? 0 then 0 else Z.log2 (Z.abs i) + 1.

(** Byte strings in the order of Go's [<]: lexicographic, a proper prefix first. *)
Fixpoint bytes_lt (a b : list byte) : bool :=
  match a, b with
  | _, [] => false
  | [], _ :: _ => true
  | x :: a, y :: b => (x <? y) || ((x =? y) && bytes_lt a b)
  end.

Lemma byte_of_range x : 0 <= byte_of x < 256.
Proof. apply Z.mod_pos_bound. lia. Qed.

Lemma byte_of_id x : 0 <= x < 256 → byte_of x = x.
Proof. apply Z.mod_small. Qed.

Lemma be_bytes_length n i : length (be_bytes n i) = n.
Proof. revert i. induction n; intros; simpl; rewrite ?length_app, ?IHn; simpl; lia. Qed.

Lemma be_bytes_ok n i : bytes_ok (be_bytes n i).
Proof.
  revert i. induction n as [|n IH]; intros; simpl; [constructor|].
  apply Forall_app. split; [apply IH|]. repeat constructor; apply byte_of_range.
Qed.

Lemma be_value_snoc l b : be_value (l ++ [b]) = be_value l * 256 + b.
Proof. unfold be_value. by rewrite foldl_app. Qed.

Lemma be_value_app l k :
  be_value (l ++ k) = be_value l * 256 ^ Z.of_nat (length k) + be_value k.
Proof.
  induction k as [|b k IH] using rev_ind.
  - rewrite app_nil_r. change (be_value []) with 0. simpl. lia.
  - rewrite app_assoc, !be_value_snoc, IH, length_app, Nat2Z.inj_add, Z.pow_add_r by lia.
    simpl. lia.
Qed.

Lemma be_value_cons b l :
  be_value (b :: l) = b * 256 ^ Z.of_nat (length l) + be_value l.
Proof. apply (be_value_app [b]). Qed.

Lemma be_value_range l : bytes_ok l → 0 <= be_value l < 256 ^ Z.of_nat (length l).
Proof.
  induction l as [|b l IH] using rev_ind; intros Hl; [done|].
  apply Forall_app in Hl as [Hl Hb]. rewrite Forall_singleton in Hb.
  rewrite be_value_snoc, length_app, Nat2Z.inj_add, Z.pow_add_r by lia.
  specialize (IH Hl). change (256 ^ Z.of_nat (length [b])) with 256. lia.
Qed.

(** Decoding an encoding gives the number modulo the width. *)
Lemma be_value_be_bytes n i : 0 <= i → be_value (be_bytes n i) = i mod 256 ^ Z.of_nat n.
Proof.
  revert i. induction n as [|n IH]; intros i Hi; simpl be_bytes.
  - by rewrite Z.mod_1_r.
  - rewrite be_value_snoc, IH by (apply Z.div_pos; lia).
    rewrite Nat2Z.inj_succ, Z.pow_succ_r, (Z.rem_mul_r i 256) by lia. lia.
Qed.

(** A byte string is the encoding of the number it spells, at its length. *)
Lemma be_bytes_be_value l : bytes_ok l → be_bytes (length l) (be_value l) = l.
Proof.
  induction l as [|b l IH] using rev_ind; intros Hl; [done|].
  apply Forall_app in Hl as [Hl Hb]. rewrite Forall_singleton in Hb.
  rewrite length_app, Nat.add_comm, be_value_snoc. simpl.
  rewrite Z.div_add_l, (Z.div_small b), Z.add_0_r, IH by (done || lia).
  f_equal. f_equal. rewrite Z.add_comm, Z.mod_add, Z.mod_small by lia. done.
Qed.

Lemma byte_len_spec i :
  0 < i → 256 ^ (Z.of_nat (byte_len i) - 1) <= i < 256 ^ Z.of_nat (byte_len i).
Proof.
  intros Hi. unfold byte_len. destruct (Z.leb_spec i 0); [lia|].
  pose proof (Z.log2_spec i Hi) as [Hl Hu]. pose proof (Z.log2_nonneg i).
  assert (0 <= Z.log2 i / 8) by (apply Z.div_pos; lia).
  rewrite Nat2Z.inj_succ, Z2Nat.id by done.
  change 256 with (2 ^ 8). rewrite <- !Z.pow_mul_r by lia.
  pose proof (Z.div_mod (Z.log2 i) 8). pose proof (Z.mod_pos_bound (Z.log2 i) 8).
  split.
  - etransitivity; [|exact Hl]. apply Z.pow_le_mono_r; lia.
  - eapply Z.lt_le_trans; [exact Hu|]. apply Z.pow_le_mono_r; lia.
Qed.

(** The length is the only one that satisfies [byte_len_spec]. *)
Lemma byte_len_unique i n :
  256 ^ (Z.of_nat n - 1) <= i < 256 ^ Z.of_nat n → 0 < i → byte_len i = n.
Proof.
  intros Hn Hi. pose proof (byte_len_spec i Hi) as Hs.
  destruct (lt_eq_lt_dec (byte_len i) n) as [[Hlt|]|Hlt]; [|done|].
  - assert (256 ^ Z.of_nat (byte_len i) <= 256 ^ (Z.of_nat n - 1))
      by (apply Z.pow_le_mono_r; lia). lia.
  - assert (256 ^ Z.of_nat n <= 256 ^ (Z.of_nat (byte_len i) - 1))
      by (apply Z.pow_le_mono_r; lia). lia.
Qed.

Lemma be_value_be_min i : 0 <= i → be_value (be_min i) = i.
Proof.
  intros Hi. unfold be_min. destruct (decide (i = 0)) as [->|]; [done|].
  rewrite be_value_be_bytes by done. apply Z.mod_small.
  pose proof (byte_len_spec i). lia.
Qed.

Lemma be_min_inj i j : 0 <= i → 0 <= j → be_min i = be_min j → i = j.
Proof. intros Hi Hj E. by rewrite <- (be_value_be_min i), <- (be_value_be_min j), E. Qed.

Lemma be_min_length i : length (be_min i) = byte_len i.
Proof. apply be_bytes_length. Qed.

(** The first byte of a minimal encoding is not zero. *)
Lemma be_min_head i b l : be_min i = b :: l → 0 < b < 256.
Proof.
  intros E. assert (0 < i) as Hi.
  { unfold be_min, byte_len in E. destruct (Z.leb_spec i 0); [done | lia]. }
  pose proof (be_bytes_ok (byte_len i) i) as Hok. fold (be_min i) in Hok. rewrite E in Hok.
  apply Forall_cons in Hok as [Hb Hl]. pose proof (be_value_range l Hl) as Hr.
  pose proof (be_value_be_min i) as Hv. rewrite E, be_value_cons in Hv.
  pose proof (byte_len_spec i Hi) as [Hs _].
  pose proof (be_min_length i) as Hn. rewrite E in Hn. simpl in Hn.
  rewrite <- Hn, Nat2Z.inj_succ, Z.sub_1_r, Z.pred_succ in Hs.
  split; [|lia]. destruct (decide (b = 0)) as [->|]; lia.
Qed.

(** A byte string with no leading zero is the minimal encoding of its number. *)
Lemma be_min_be_value b l : bytes_ok (b :: l) → b ≠ 0 → be_min (be_value (b :: l)) = b :: l.
Proof.
  intros Hok Hb. unfold be_min.
  assert (byte_len (be_value (b :: l)) = length (b :: l)) as ->; [|by apply be_bytes_be_value].
  pose proof (be_value_range _ Hok) as Hr. apply Forall_cons in Hok as [? Hl].
  pose proof (be_value_range l Hl). assert (0 < 256 ^ Z.of_nat (length l)) by lia.
  assert (256 ^ Z.of_nat (length l) <= be_value (b :: l)) by (rewrite be_value_cons; nia).
  apply byte_len_unique; [|lia].
  simpl length in *. rewrite Nat2Z.inj_succ, Z.sub_1_r, Z.pred_succ in *. lia.
Qed.

(** The shift amounts of a big-endian encoding: [8*(n-1); ...; 8; 0]. *)
Fixpoint be_shifts (n : nat) : list Z :=
  match n with O => [] | S n => map (Z.add 8) (be_shifts n) ++ [0] end.

Lemma be_shifts_nonneg n k : In k (be_shifts n) → 0 <= k.
Proof.
  revert k. induction n as [|n IH]; intros k; simpl; [done|].
  rewrite in_app_iff, in_map_iff. intros [(j & <- & Hj)|[<-|[]]]; [|lia].
  specialize (IH j Hj). lia.
Qed.

Lemma be_bytes_at n i : be_bytes n i = bytes_at (be_shifts n) i.
Proof.
  revert i. induction n as [|n IH]; intros i; [done|]. simpl. rewrite IH.
  unfold bytes_at. rewrite map_app, map_map. f_equal.
  apply map_ext_in. intros k Hk%be_shifts_nonneg. unfold byte_of. f_equal.
  change 256 with (2 ^ 8). rewrite <- Z.shiftr_div_pow2, Z.shiftr_shiftr by lia. done.
Qed.

Lemma be_bytes_app m n i :
  be_bytes (m + n) i = be_bytes m (i / 256 ^ Z.of_nat n) ++ be_bytes n i.
Proof.
  revert i. induction n as [|n IH]; intros i.
  - rewrite Nat.add_0_r, app_nil_r. change (256 ^ Z.of_nat 0) with 1. by rewrite Z.div_1_r.
  - rewrite Nat.add_succ_r. simpl be_bytes. rewrite IH, app_assoc. do 3 f_equal.
    pose proof (Z.pow_pos_nonneg 256 (Z.of_nat n)).
    rewrite Z.div_div, Nat2Z.inj_succ, Z.pow_succ_r by lia. done.
Qed.

(** The last [n] bytes do not depend on higher ones. *)
Lemma be_bytes_mod n m i :
  (n <= m)%nat → be_bytes n (i mod 256 ^ Z.of_nat m) = be_bytes n i.
Proof.
  revert m i. induction n as [|n IH]; intros [|m] i Hm; [done|done|lia|]. simpl be_bytes.
  pose proof (Z.pow_pos_nonneg 256 (Z.of_nat m)).
  rewrite Nat2Z.inj_succ, Z.pow_succ_r, Z.rem_mul_r by lia.
  rewrite (Z.add_comm (i mod 256)), (Z.mul_comm 256), Z.div_add_l by lia.
  rewrite (Z.div_small (i mod 256)), Z.add_0_r, IH by (lia || apply Z.mod_pos_bound; lia).
  rewrite Z.add_comm, Z.mod_add, Z.mod_mod by lia. done.
Qed.

(** The length of [big.Int.Bytes]: the bit length rounded up to bytes. *)
Lemma byte_len_BitLen i : 0 < i → Z.of_nat (byte_len i) = (BitLen i + 7) / 8.
Proof.
  intros Hi. unfold byte_len, BitLen.
  destruct (Z.leb_spec i 0), (Z.eqb_spec i 0); try lia. pose proof (Z.log2_nonneg i).
  assert (0 <= Z.log2 i / 8) by (apply Z.div_pos; lia).
  rewrite Nat2Z.inj_succ, Z2Nat.id, Z.abs_eq by lia.
  replace (Z.log2 i + 1 + 7) with (Z.log2 i + 1 * 8) by lia. rewrite Z.div_add; lia.
Qed.

Lemma BitLen_le i n : 0 <= n → 0 <= i → BitLen i <= n ↔ i < 2 ^ n.
Proof.
  intros Hn Hi. unfold BitLen. destruct (Z.eqb_spec i 0) as [->|]; [lia|].
  rewrite Z.abs_eq, Z.log2_lt_pow2 by lia. lia.
Qed.

(** Shifting in a digit: [a<<k | b] is [a*2^k + b] when [b] fits in [k] bits. *)
Lemma lor_shiftl a b k : 0 <= k → 0 <= b < 2 ^ k → Z.lor (a ≪ k) b = a * 2 ^ k + b.
Proof.
  intros Hk Hb. rewrite <- Z.shiftl_mul_pow2 by done. symmetry. apply Z.add_nocarry_lor.
  rewrite <- (Z.mod_small b (2 ^ k)), <- Z.land_ones, (Z.land_comm b), Z.land_assoc by done.
  rewrite Z.land_ones, Z.shiftl_mul_pow2, Z.mod_mul by lia. apply Z.land_0_l.
Qed.

#[export] Hint Resolve be_bytes_ok byte_of_range : pangu.
