(* ===== verification/Params.v ===== *)
(** * Gas constants (params/gas_params.go, core/evm/params/gas_params.go)

    The protocol constants the other files use, with the names of the source.  The two
    files of the source give the same values. *)

From S2P Require Import Prelude.

Definition TxGas : Z := 21000.
Definition TxDataZeroGas : Z := 4.
Definition InitCodeWordGas : Z := 2.
Definition TxDataNonZeroGasEIP2028 : Z := 16.
Definition TxAccessListAddressGas : Z := 2400.
Definition TxAccessListStorageKeyGas : Z := 1900.

(** The constants of the virtual machine are abbreviations of their literals. *)

Abbreviation CallValueTransferGas := 9000 (only parsing).
Abbreviation CallNewAccountGas := 25000 (only parsing).
Abbreviation TxGasContractCreation := 53000 (only parsing).
Abbreviation QuadCoeffDiv := 512 (only parsing).
Abbreviation LogDataGas := 8 (only parsing).
Abbreviation CallStipend := 2300 (only parsing).
Abbreviation Keccak256Gas := 30 (only parsing).
Abbreviation Keccak256WordGas := 6 (only parsing).
Abbreviation NetSstoreNoopGas := 200 (only parsing).
Abbreviation NetSstoreInitGas := 20000 (only parsing).
Abbreviation NetSstoreCleanGas := 5000 (only parsing).
Abbreviation NetSstoreDirtyGas := 200 (only parsing).
Abbreviation NetSstoreClearRefund := 15000 (only parsing).
Abbreviation NetSstoreResetRefund := 4800 (only parsing).
Abbreviation NetSstoreResetClearRefund := 19800 (only parsing).
Abbreviation SstoreSentryGasEIP2200 := 2300 (only parsing).
Abbreviation SstoreSetGasEIP2200 := 20000 (only parsing).
Abbreviation SstoreResetGasEIP2200 := 5000 (only parsing).
Abbreviation SstoreClearsScheduleRefundEIP2200 := 15000 (only parsing).
Abbreviation ColdAccountAccessCostEIP2929 := 2600 (only parsing).
Abbreviation ColdSloadCostEIP2929 := 2100 (only parsing).
Abbreviation WarmStorageReadCostEIP2929 := 100 (only parsing).
Abbreviation SstoreClearsScheduleRefundEIP3529 := (5000 - 2100 + 1900) (only parsing).
Abbreviation JumpdestGas := 1 (only parsing).
Abbreviation CreateDataGas := 200 (only parsing).
Abbreviation CallCreateDepth := 1024 (only parsing).
Abbreviation ExpGas := 10 (only parsing).
Abbreviation LogGas := 375 (only parsing).
Abbreviation CopyGas := 3 (only parsing).
Abbreviation StackLimit := 1024 (only parsing).
Abbreviation LogTopicGas := 375 (only parsing).
Abbreviation CreateGas := 32000 (only parsing).
Abbreviation Create2Gas := 32000 (only parsing).
Abbreviation SelfdestructRefundGas := 24000 (only parsing).
Abbreviation MemoryGas := 3 (only parsing).
Abbreviation TxDataNonZeroGasFrontier := 68 (only parsing).
Abbreviation CallGasFrontier := 40 (only parsing).
Abbreviation CallGasEIP150 := 700 (only parsing).
Abbreviation BalanceGasFrontier := 20 (only parsing).
Abbreviation BalanceGasEIP150 := 400 (only parsing).
Abbreviation BalanceGasEIP1884 := 700 (only parsing).
Abbreviation ExtcodeSizeGasFrontier := 20 (only parsing).
Abbreviation ExtcodeSizeGasEIP150 := 700 (only parsing).
Abbreviation SloadGasFrontier := 50 (only parsing).
Abbreviation SloadGasEIP150 := 200 (only parsing).
Abbreviation SloadGasEIP1884 := 800 (only parsing).
Abbreviation SloadGasEIP2200 := 800 (only parsing).
Abbreviation ExtcodeHashGasConstantinople := 400 (only parsing).
Abbreviation ExtcodeHashGasEIP1884 := 700 (only parsing).
Abbreviation SelfdestructGasEIP150 := 5000 (only parsing).
Abbreviation ExpByteFrontier := 10 (only parsing).
Abbreviation ExpByteEIP158 := 50 (only parsing).
Abbreviation ExtcodeCopyBaseFrontier := 20 (only parsing).
Abbreviation ExtcodeCopyBaseEIP150 := 700 (only parsing).
Abbreviation CreateBySelfdestructGas := 25000 (only parsing).
Abbreviation MaxCodeSize := 24576 (only parsing).
Abbreviation MaxInitCodeSize := (2 * 24576) (only parsing).
Abbreviation EcrecoverGas := 3000 (only parsing).
Abbreviation Sha256BaseGas := 60 (only parsing).
Abbreviation Sha256PerWordGas := 12 (only parsing).
Abbreviation Ripemd160BaseGas := 600 (only parsing).
Abbreviation Ripemd160PerWordGas := 120 (only parsing).
Abbreviation IdentityBaseGas := 15 (only parsing).
Abbreviation IdentityPerWordGas := 3 (only parsing).
Abbreviation Bn256AddGasIstanbul := 150 (only parsing).
Abbreviation Bn256ScalarMulGasIstanbul := 6000 (only parsing).
Abbreviation Bn256PairingBaseGasIstanbul := 45000 (only parsing).
Abbreviation Bn256PairingPerPointGasIstanbul := 34000 (only parsing).
Abbreviation Bls12381G1AddGas := 600 (only parsing).
Abbreviation Bls12381G1MulGas := 12000 (only parsing).
Abbreviation Bls12381G2AddGas := 4500 (only parsing).
Abbreviation Bls12381G2MulGas := 55000 (only parsing).
Abbreviation Bls12381PairingBaseGas := 115000 (only parsing).
Abbreviation Bls12381PairingPerPairGas := 23000 (only parsing).
Abbreviation Bls12381MapG1Gas := 5500 (only parsing).
Abbreviation Bls12381MapG2Gas := 110000 (only parsing).

(** core/evm/gas.go *)
Abbreviation GasQuickStep := 2 (only parsing).
Abbreviation GasFastestStep := 3 (only parsing).
Abbreviation GasFastStep := 5 (only parsing).
Abbreviation GasMidStep := 8 (only parsing).
Abbreviation GasSlowStep := 10 (only parsing).
Abbreviation GasExtStep := 20 (only parsing).
