(* ===== verification/Heap.v ===== *)
(** * Heaps in a slice (Go's container/heap)

    The standard library's heap operations over a slice and a comparison, as the
    transaction pool uses them for nonces and prices, with their correctness: the first
    element is a least one, and the elements stay the same.  [Less] is any strict weak
    order. *)

From stdpp Require Import sorting.
From S2P Require Import Prelude.

Section heap.
Context {A : Type} `{!Inhabited A} (Less : A → A → bool).

Definition Swap (i j : nat) (h : list A) : list A := <[i := h !!! j]> (<[j := h !!! i]> h).

(** The loops of [up] and [down]; the index decreases, or grows up to the length. *)
Fixpoint up_loop (fuel : nat) (h : list A) (j : nat) : list A :=
  match fuel with
  | O => h
  | S fuel =>
      let i := ((j - 1) / 2)%nat in (* parent *)
      if (i =? j)%nat || negb (Less (h !!! j) (h !!! i)) then h
      else up_loop fuel (Swap i j h) i
  end.
Definition up (h : list A) (j : nat) : list A := up_loop (S j) h j.

(** [down]: the slice, and where the element went. *)
Fixpoint down_loop (fuel : nat) (h : list A) (i n : nat) : list A * nat :=
  match fuel with
  | O => (h, i)
  | S fuel =>
      let j1 := (2 * i + 1)%nat in
      if (n <=? j1)%nat then (h, i)
      else
        let j2 := (j1 + 1)%nat in
        let j := if (j2 <? n)%nat && Less (h !!! j2) (h !!! j1) then j2 else j1 in
        if negb (Less (h !!! j) (h !!! i)) then (h, i)
        else down_loop fuel (Swap i j h) j n
  end.
Definition down (h : list A) (i0 n : nat) : list A * bool :=
  let '(h, i) := down_loop (S n) h i0 n in (h, (i0 <? i)%nat).

Definition heap_Init (h : list A) : list A :=
  let n := length h in
  foldr (λ i h, fst (down h i n)) h (seq 0 (n / 2)).

Definition heap_Push (h : list A) (x : A) : list A := up (h ++ [x]) (length h).

(** [Pop] and [Remove] panic on an index that is out of range. *)
Definition heap_Pop (h : list A) : option (A * list A) :=
  match h with
  | [] => None
  | _ =>
      let n := (length h - 1)%nat in
      let h := fst (down (Swap 0 n h) 0 n) in
      Some (h !!! n, take n h)
  end.

Definition heap_Remove (h : list A) (i : nat) : option (A * list A) :=
  if (length h <=? i)%nat then None
  else
    let n := (length h - 1)%nat in
    let h :=
      if (n =? i)%nat then h
      else
        let '(h, moved) := down (Swap i n h) i n in
        if moved then h else up h i in
    Some (h !!! n, take n h).

Definition heap_Fix (h : list A) (i : nat) : list A :=
  let '(h, moved) := down h i (length h) in if moved then h else up h i.

(** ** Swapping *)

Lemma Swap_length i j h : length (Swap i j h) = length h.
Proof. unfold Swap. by rewrite !length_insert. Qed.

Lemma Swap_lookup i j h k :
  (i < length h)%nat → (j < length h)%nat →
  Swap i j h !!! k = if decide (k = i) then h !!! j else if decide (k = j) then h !!! i else h !!! k.
Proof.
  intros Hi Hj. unfold Swap. destruct (decide (k = i)) as [->|].
  - by rewrite list_lookup_total_insert_eq by (rewrite length_insert; done).
  - rewrite list_lookup_total_insert_ne by done. destruct (decide (k = j)) as [->|].
    + by rewrite list_lookup_total_insert_eq.
    + by rewrite list_lookup_total_insert_ne.
Qed.

Lemma Swap_perm i j h : (i < length h)%nat → (j < length h)%nat → Swap i j h ≡ₚ h.
Proof.
  intros Hi Hj. apply Permutation_inj. split; [by rewrite Swap_length|].
  exists (λ k, if decide (k = i) then j else if decide (k = j) then i else k).
  split; [intros a b; repeat case_decide; congruence|]. intros k.
  destruct (decide (k < length h)%nat) as [Hk|Hk].
  - rewrite !list_lookup_lookup_total_lt; [|repeat case_decide; done|by rewrite Swap_length].
    f_equal. rewrite Swap_lookup by done. by repeat case_decide.
  - rewrite lookup_ge_None_2 by (rewrite Swap_length; lia). symmetry. apply lookup_ge_None_2.
    repeat case_decide; lia.
Qed.

(** ** The heap order *)

(** [c] is a child of [p]. *)
Definition edge (p c : nat) : Prop := c = (2 * p + 1)%nat ∨ c = (2 * p + 2)%nat.

Lemma edge_parent c : (0 < c)%nat → edge ((c - 1) / 2) c.
Proof.
  intros Hc. unfold edge. pose proof (Nat.div_mod (c - 1) 2). pose proof (Nat.mod_upper_bound (c - 1) 2). lia.
Qed.
Lemma edge_unique p q c : edge p c → edge q c → p = q.
Proof. unfold edge. lia. Qed.
Lemma edge_lt p c : edge p c → (p < c)%nat.
Proof. unfold edge. lia. Qed.

Definition le (a b : A) : Prop := Less b a = false.

(** The heap order on the first [n] elements, for the edges from [lo] on. *)
Definition heap_lo (h : list A) (n lo : nat) : Prop :=
  ∀ p c, edge p c → (c < n)%nat → (lo <= p)%nat → le (h !!! p) (h !!! c).
Definition heap (h : list A) : Prop := heap_lo h (length h) 0.

(** The order over a missing element: from its parent to its children. *)
Definition bridged (h : list A) (n lo i : nat) : Prop :=
  ∀ p c, edge p i → (lo <= p)%nat → edge i c → (c < n)%nat → le (h !!! p) (h !!! c).

Class StrictWeak := {
  Less_asym : ∀ a b, Less a b = true → Less b a = false;
  le_trans : ∀ a b c, le a b → le b c → le a c;
}.
Context `{!StrictWeak}.

Lemma le_Less a b : Less a b = true → le a b.
Proof. apply Less_asym. Qed.

Lemma le_refl a : le a a.
Proof. unfold le. destruct (Less a a) eqn:E; [|done]. pose proof (Less_asym _ _ E). congruence. Qed.

(** The elements from [n] on, and the elements of both parts, stay the same. *)
Definition rearranged (n : nat) (h h' : list A) : Prop :=
  h' ≡ₚ h ∧ ∀ m, (n <= m)%nat → h' !!! m = h !!! m.

Lemma rearranged_refl n h : rearranged n h h.
Proof. by split. Qed.
Lemma rearranged_trans n h1 h2 h3 : rearranged n h1 h2 → rearranged n h2 h3 → rearranged n h1 h3.
Proof. intros [P1 E1] [P2 E2]. split; [by rewrite P2|]. intros m Hm. by rewrite E2, E1. Qed.
Lemma rearranged_length n h h' : rearranged n h h' → length h' = length h.
Proof. intros [P _]. by rewrite P. Qed.

Lemma Swap_rearranged n i j h : (i < n)%nat → (j < n)%nat → (n <= length h)%nat → rearranged n h (Swap i j h).
Proof.
  intros Hi Hj Hn. split; [apply Swap_perm; lia|]. intros m Hm. rewrite Swap_lookup by lia.
  by rewrite !decide_False by lia.
Qed.

Lemma rearranged_take n h h' : (n <= length h)%nat → rearranged n h h' → take n h' ≡ₚ take n h.
Proof.
  intros Hn [P E]. assert (drop n h' = drop n h) as Ed.
  { apply list_eq. intros k. rewrite !lookup_drop. specialize (E (n + k)%nat ltac:(lia)).
    destruct (decide (n + k < length h)%nat) as [Hk|Hk].
    - rewrite !list_lookup_lookup_total_lt, E by (rewrite ?P; lia). done.
    - by rewrite !lookup_ge_None_2 by (rewrite ?P; lia). }
  apply (Permutation_app_inv_r (drop n h)). rewrite <- Ed at 1. by rewrite !take_drop.
Qed.

Lemma down_loop_spec fuel n lo : ∀ h i,
  (n <= length h)%nat → (lo <= i)%nat → (n <= i + fuel)%nat →
  (∀ p c, edge p c → (c < n)%nat → (lo <= p)%nat → p ≠ i → le (h !!! p) (h !!! c)) → bridged h n lo i →
  let '(h', k) := down_loop fuel h i n in heap_lo h' n lo ∧ rearranged n h h' ∧ (i <= k)%nat.
Proof.
  induction fuel as [|fuel IH]; intros h i Hn Hlo Hf Hedge Hbr; cbn [down_loop].
  { split; [|by split; [apply rearranged_refl|]]. intros p c He Hc Hp. apply Hedge; try done. apply edge_lt in He. lia. }
  set (j := if (2 * i + 1 + 1 <? n)%nat && Less (h !!! (2 * i + 1 + 1)%nat) (h !!! (2 * i + 1)%nat)
            then (2 * i + 1 + 1)%nat else (2 * i + 1)%nat).
  destruct (Nat.leb_spec n (2 * i + 1)) as [Hleaf|Hchild].
  { split; [|by split; [apply rearranged_refl|]]. intros p c He Hc Hp. apply Hedge; try done. unfold edge in He. lia. }
  assert (edge i j ∧ (j < n)%nat ∧ ∀ c, edge i c → (c < n)%nat → le (h !!! j) (h !!! c)) as (Hij & Hj & Hmin).
  { unfold j, edge. destruct (Nat.ltb_spec (2 * i + 1 + 1) n); cbn [andb].
    - destruct (Less _ _) eqn:E; split_and!; try lia; intros c [-> | ->] _.
      + by apply le_Less.
      + replace (2 * i + 1 + 1)%nat with (2 * i + 2)%nat by lia. apply le_refl.
      + apply le_refl.
      + by replace (2 * i + 2)%nat with (2 * i + 1 + 1)%nat by lia.
    - split_and!; try lia. intros c [-> | ->] Hc; [apply le_refl|lia]. }
  destruct (Less (h !!! j) (h !!! i)) eqn:EL; cbn [negb].
  2: { split; [|by split; [apply rearranged_refl|]]. intros p c He Hc Hp. destruct (decide (p = i)) as [->|]; [|by apply Hedge].
       apply (le_trans _ (h !!! j)); [done|by apply Hmin]. }
  pose proof (edge_lt _ _ Hij) as Hlt.
  assert (∀ k, Swap i j h !!! k = if decide (k = i) then h !!! j else if decide (k = j) then h !!! i else h !!! k) as HS
    by (intros; apply Swap_lookup; lia).
  specialize (IH (Swap i j h) j). rewrite Swap_length in IH.
  destruct (down_loop fuel (Swap i j h) j n) as [h' k]. destruct IH as (Hh & Hr & Hk); [done|lia|lia| | |].
  - intros p c He Hc Hp Hpj. rewrite !HS. rewrite (decide_False (P := p = j)) by done.
    destruct (decide (p = i)) as [->|].
    + destruct (decide (c = i)) as [->|]; [apply edge_lt in He; lia|].
      destruct (decide (c = j)) as [->|]; [by apply le_Less|by apply Hmin].
    + destruct (decide (c = i)) as [->|]; [by apply Hbr|].
      destruct (decide (c = j)) as [->|]; [by destruct n0; apply (edge_unique p i j)|by apply Hedge].
  - intros p c He Hp Hjc Hc. rewrite !HS. assert (p = i) as -> by (by apply (edge_unique p i j)).
    rewrite decide_True by done. apply edge_lt in Hjc as Hjc'. rewrite !decide_False by lia. apply Hedge; try done; lia.
  - split; [done|]. split; [|lia]. eapply rearranged_trans; [|done]. apply Swap_rearranged; lia.
Qed.

Lemma up_loop_spec fuel n : ∀ h j,
  (n <= length h)%nat → (j < n)%nat → (j < fuel)%nat →
  (∀ p c, edge p c → (c < n)%nat → c ≠ j → le (h !!! p) (h !!! c)) → bridged h n 0 j →
  heap_lo (up_loop fuel h j) n 0 ∧ rearranged n h (up_loop fuel h j).
Proof.
  induction fuel as [|fuel IH]; intros h j Hn Hj Hf Hedge Hbr; cbn [up_loop]; [lia|].
  set (i := ((j - 1) / 2)%nat). destruct (decide (j = 0)%nat) as [->|Hj0].
  { cbn [Nat.eqb orb]. split; [|apply rearranged_refl]. intros p c He Hc _. apply Hedge; try done.
    apply edge_lt in He. lia. }
  assert (edge i j) as Hij by (apply edge_parent; lia). pose proof (edge_lt _ _ Hij) as Hlt.
  rewrite (proj2 (Nat.eqb_neq i j)) by lia. cbn [orb].
  destruct (Less (h !!! j) (h !!! i)) eqn:EL; cbn [negb].
  2: { split; [|apply rearranged_refl]. intros p c He Hc _. destruct (decide (c = j)) as [->|]; [|by apply Hedge].
       by rewrite (edge_unique p i j). }
  assert (∀ k, Swap i j h !!! k = if decide (k = i) then h !!! j else if decide (k = j) then h !!! i else h !!! k) as HS
    by (intros; apply Swap_lookup; lia).
  destruct (IH (Swap i j h) i) as [Hh Hr]; [by rewrite Swap_length|lia|lia| | |].
  - intros p c He Hc Hci. rewrite !HS. rewrite (decide_False (P := c = i)) by done.
    destruct (decide (p = i)) as [->|Hpi].
    + destruct (decide (c = j)) as [->|Hcj]; [by apply le_Less|].
      apply (le_trans _ (h !!! i)); [by apply le_Less|by apply Hedge].
    + destruct (decide (p = j)) as [->|Hpj].
      * destruct (decide (c = j)) as [->|]; [apply edge_lt in He; lia|]. apply Hbr; (done || lia).
      * destruct (decide (c = j)) as [->|Hcj]; [by destruct Hpi; apply (edge_unique p i j)|by apply Hedge].
  - intros p c He _ Hic Hc. rewrite !HS. apply edge_lt in He as Hpi. apply edge_lt in Hic as Hic'.
    rewrite !(decide_False (P := p = _)) by lia. rewrite (decide_False (P := c = i)) by lia.
    assert (le (h !!! p) (h !!! i)) as Hp by (apply Hedge; try done; lia).
    destruct (decide (c = j)) as [->|]; [done|]. apply (le_trans _ (h !!! i)); [done|by apply Hedge].
  - split; [done|]. eapply rearranged_trans; [|done]. apply Swap_rearranged; lia.
Qed.

Lemma up_spec n h j :
  (n <= length h)%nat → (j < n)%nat →
  (∀ p c, edge p c → (c < n)%nat → c ≠ j → le (h !!! p) (h !!! c)) → bridged h n 0 j →
  heap_lo (up h j) n 0 ∧ rearranged n h (up h j).
Proof. intros Hn Hj. apply up_loop_spec; lia. Qed.

Lemma down_spec n lo h i :
  (n <= length h)%nat → (lo <= i)%nat →
  (∀ p c, edge p c → (c < n)%nat → (lo <= p)%nat → p ≠ i → le (h !!! p) (h !!! c)) → bridged h n lo i →
  heap_lo (fst (down h i n)) n lo ∧ rearranged n h (fst (down h i n)).
Proof.
  intros Hn Hlo Hedge Hbr. unfold down. pose proof (down_loop_spec (S n) n lo h i Hn Hlo ltac:(lia) Hedge Hbr) as Hd.
  destruct (down_loop (S n) h i n) as [h' k]. naive_solver.
Qed.

Lemma down_loop_le fuel n : ∀ h i, (i <= snd (down_loop fuel h i n))%nat.
Proof.
  induction fuel as [|fuel IH]; intros h i; cbn [down_loop]; [cbn; lia|].
  destruct (n <=? 2 * i + 1)%nat; [cbn; lia|].
  set (j := if _ && _ then _ else _). assert (i <= j)%nat by (unfold j; destruct (_ && _); lia).
  clearbody j. destruct (Less _ _); cbn [negb]; [|cbn; lia]. etrans; [|apply IH]. lia.
Qed.

(** [down] moves the element exactly when it has a smaller child. *)
Lemma down_moves h i n c :
  edge i c → (c < n)%nat → Less (h !!! c) (h !!! i) = true → snd (down h i n) = true.
Proof.
  intros He Hc HL. unfold down. cbn [down_loop]. rewrite (proj2 (Nat.leb_gt n _)) by (unfold edge in He; lia).
  set (j := if _ && _ then _ else _).
  assert ((i < j)%nat ∧ le (h !!! j) (h !!! c)) as [Hij Hle].
  { unfold j. destruct He as [-> | ->].
    - destruct (_ <? _)%nat; cbn [andb]; [|split; [lia|apply le_refl]].
      destruct (Less (h !!! (2 * i + 1 + 1)%nat) _) eqn:E; (split; [lia|]); [by apply le_Less|apply le_refl].
    - replace (2 * i + 1 + 1)%nat with (2 * i + 2)%nat by lia. rewrite (proj2 (Nat.ltb_lt _ _) Hc). cbn [andb].
      destruct (Less (h !!! (2 * i + 2)%nat) (h !!! (2 * i + 1)%nat)) eqn:E; (split; [lia|]); [apply le_refl|done]. }
  destruct (Less (h !!! j) (h !!! i)) eqn:E; cbn [negb].
  - pose proof (down_loop_le n n (Swap i j h) j) as Hd. destruct (down_loop n _ j n). cbn [snd] in *.
    apply Nat.ltb_lt. lia.
  - pose proof (le_trans _ _ _ (E : le (h !!! i) (h !!! j)) Hle) as Hic. unfold le in Hic. congruence.
Qed.

Lemma down_stays h i n :
  (∀ c, edge i c → (c < n)%nat → le (h !!! i) (h !!! c)) → down h i n = (h, false).
Proof.
  intros Hc. unfold down. cbn [down_loop]. destruct (Nat.leb_spec n (2 * i + 1)); [by rewrite Nat.ltb_irrefl|].
  set (j := if _ && _ then _ else _).
  assert (le (h !!! i) (h !!! j)) as ->.
  { apply Hc; unfold j, edge; destruct (Nat.ltb_spec (2 * i + 1 + 1) n); cbn [andb]; try destruct (Less _ _); lia. }
  cbn [negb]. by rewrite Nat.ltb_irrefl.
Qed.

(** An element with any value at [i]: one of the two loops puts it in its place. *)
Lemma fix_spec n h i :
  (n <= length h)%nat → (i < n)%nat →
  (∀ p c, edge p c → (c < n)%nat → p ≠ i → c ≠ i → le (h !!! p) (h !!! c)) → bridged h n 0 i →
  let h' := let '(h', moved) := down h i n in if moved then h' else up h' i in
  heap_lo h' n 0 ∧ rearranged n h h'.
Proof.
  intros Hn Hi Hedge Hbr. cbv zeta.
  destruct (decide (Exists (λ c, edge i c ∧ Less (h !!! c) (h !!! i) = true) (seq 0 n))) as [Hsm|Hsm].
  - apply Exists_exists in Hsm as (c & Hc & He & HL). apply elem_of_seq in Hc.
    pose proof (down_moves h i n c He ltac:(lia) HL) as Hm.
    destruct (down_spec n 0 h i Hn ltac:(lia)) as [Hh Hr]; [|done|].
    { intros p c' He' Hc' _ Hp. destruct (decide (c' = i)) as [->|]; [|by apply Hedge].
      apply (le_trans _ (h !!! c)); [|by apply le_Less]. apply Hbr; try done; lia. }
    destruct (down h i n) as [h' m]. cbn [fst snd] in *. by subst m.
  - rewrite down_stays.
    + apply up_spec; try done. intros p c He Hc Hci. destruct (decide (p = i)) as [->|]; [|by apply Hedge].
      unfold le. destruct (Less _ _) eqn:E; [|done]. destruct Hsm. apply Exists_exists. exists c.
      rewrite elem_of_seq. split; [lia|done].
    + intros c He Hc. unfold le. destruct (Less _ _) eqn:E; [|done]. destruct Hsm. apply Exists_exists. exists c.
      rewrite elem_of_seq. split; [lia|done].
Qed.

(** ** The operations *)

Lemma heap_Init_spec h : heap (heap_Init h) ∧ heap_Init h ≡ₚ h.
Proof.
  unfold heap_Init. cbv zeta.
  assert (∀ k g, (k <= length h)%nat → g ≡ₚ h → heap_lo g (length h) k →
    heap_lo (foldr (λ i h0, fst (down h0 i (length h))) g (seq 0 k)) (length h) 0 ∧
    foldr (λ i h0, fst (down h0 i (length h))) g (seq 0 k) ≡ₚ h) as Hloop.
  { induction k as [|k IH]; intros g Hk Hg Hh; [done|]. rewrite seq_S, foldr_app. cbn [foldr Nat.add].
    destruct (down_spec (length h) k g k) as [Hd [Hp _]]; [by rewrite Hg|done| | |].
    - intros p c He Hc Hp Hpk. apply Hh; try done. lia.
    - intros p c He Hp. apply edge_lt in He. lia.
    - apply IH; [lia|by rewrite Hp|done]. }
  destruct (Hloop (length h / 2)%nat h) as [Hh Hp]; [|done| |].
  - apply Nat.Div0.div_le_upper_bound. lia.
  - intros p c He Hc Hp. unfold edge in He. pose proof (Nat.div_mod (length h) 2).
    pose proof (Nat.mod_upper_bound (length h) 2). lia.
  - split; [|done]. unfold heap. by rewrite (Permutation_length Hp).
Qed.

Lemma heap_Push_spec h x : heap h → heap (heap_Push h x) ∧ heap_Push h x ≡ₚ x :: h.
Proof.
  intros Hh. unfold heap_Push. destruct (up_spec (S (length h)) (h ++ [x]) (length h)) as [Hu [Hp _]].
  - rewrite length_app. cbn. lia.
  - lia.
  - intros p c He Hc Hn. apply edge_lt in He as Hlt. rewrite !lookup_total_app_l by lia. apply Hh; try done; lia.
  - intros p c He _ Hi Hc. apply edge_lt in Hi. lia.
  - split; [|rewrite Hp; by rewrite Permutation_app_comm]. unfold heap. rewrite (Permutation_length Hp), length_app. cbn.
    by replace (length h + 1)%nat with (S (length h)) by lia.
Qed.

(** The first element of a heap is a least one. *)
Lemma heap_min h i : heap h → (i < length h)%nat → le (h !!! 0%nat) (h !!! i).
Proof.
  intros Hh. induction (lt_wf i) as [i _ IH]. intros Hi. destruct (decide (i = 0)%nat) as [->|]; [apply le_refl|].
  pose proof (edge_parent i ltac:(lia)) as He. apply edge_lt in He as Hlt.
  apply (le_trans _ (h !!! ((i - 1) / 2)%nat)); [apply IH; lia|]. apply Hh; try done. lia.
Qed.

Lemma heap_min_elem h x : heap h → x ∈ h → le (h !!! 0%nat) x.
Proof.
  intros Hh (i & Hi)%list_elem_of_lookup_1. apply lookup_lt_Some in Hi as Hl.
  rewrite <- (list_lookup_total_correct _ _ _ Hi). by apply heap_min.
Qed.

Lemma take_heap h n : (n <= length h)%nat → heap_lo h n 0 → heap (take n h).
Proof.
  intros Hn Hh p c He Hc Hp. rewrite length_take_le in Hc by done. apply edge_lt in He as Hlt.
  rewrite !list_lookup_total_alt, !lookup_take_lt, <- !list_lookup_total_alt by lia. by apply Hh.
Qed.

(** The last element is taken off after the rearrangement of the others. *)
Lemma take_last h g n :
  length h = S n → rearranged n h g → heap_lo g n 0 → heap (take n g) ∧ g !!! n = h !!! n ∧ g !!! n :: take n g ≡ₚ h.
Proof.
  intros Hl Hr Hh. pose proof (rearranged_length _ _ _ Hr) as Hlg. split; [apply take_heap; [lia|done]|].
  destruct Hr as [Hp He]. split; [by apply He|]. rewrite <- Hp.
  rewrite <- (take_drop n g) at 3. rewrite (drop_S g (g !!! n) n) by (apply list_lookup_lookup_total_lt; lia).
  rewrite drop_ge by lia. by rewrite Permutation_app_comm.
Qed.

(** Moving the last element into place [i]: the order among the other elements. *)
Lemma Swap_last_edges h n i :
  heap h → length h = S n → (i < n)%nat →
  (∀ p c, edge p c → (c < n)%nat → p ≠ i → c ≠ i → le (Swap i n h !!! p) (Swap i n h !!! c)) ∧
  bridged (Swap i n h) n 0 i.
Proof.
  intros Hh Hl Hi. split.
  - intros p c He Hc Hp Hci. apply edge_lt in He as Hlt. rewrite !Swap_lookup by lia. rewrite !decide_False by lia.
    apply Hh; try done; lia.
  - intros p c He _ Hic Hc. apply edge_lt in He as H1. apply edge_lt in Hic as H2.
    rewrite !Swap_lookup by lia. rewrite !decide_False by lia.
    apply (le_trans _ (h !!! i)); apply Hh; try done; lia.
Qed.

Lemma heap_Remove_spec h i :
  heap h → (i < length h)%nat →
  ∃ h', heap_Remove h i = Some (h !!! i, h') ∧ heap h' ∧ h !!! i :: h' ≡ₚ h.
Proof.
  intros Hh Hi. unfold heap_Remove. rewrite (proj2 (Nat.leb_gt _ _) Hi). cbv zeta.
  destruct (length h) as [|n] eqn:Hl; [lia|]. replace (S n - 1)%nat with n by lia.
  destruct (Nat.eqb_spec n i) as [<-|Hne].
  - destruct (take_last h h n Hl (rearranged_refl _ _)) as (H1 & _ & H2); [|by eexists].
    intros p c He Hc Hp. apply Hh; try done. lia.
  - destruct (Swap_last_edges h n i Hh Hl ltac:(lia)) as [Hedge Hbr].
    destruct (fix_spec n (Swap i n h) i) as [Hf Hr]; [rewrite Swap_length; lia|lia|done|done|].
    destruct (take_last (Swap i n h) _ n ltac:(by rewrite Swap_length) Hr Hf) as (H1 & H2 & H3).
    rewrite Swap_lookup in H2 by lia. rewrite decide_False, decide_True in H2 by lia.
    eexists. split; [by rewrite H2|]. split; [done|]. rewrite <- H2 at 1. rewrite H3. apply Swap_perm; lia.
Qed.

(** [Pop] takes a least element. *)
Lemma heap_Pop_spec h :
  heap h → h ≠ [] → ∃ h', heap_Pop h = Some (h !!! 0%nat, h') ∧ heap h' ∧ h !!! 0%nat :: h' ≡ₚ h.
Proof.
  intros Hh Hne. unfold heap_Pop. destruct h as [|x h0] eqn:Eh; [done|]. rewrite <- Eh in *. cbv zeta.
  assert (length h = S (length h0)) as Hl by (by subst). replace (length h - 1)%nat with (length h0) by lia.
  set (n := length h0) in *. clearbody n. clear Eh x h0.
  assert ((0 < n)%nat ∨ n = 0%nat) as [Hn | ->] by lia.
  - destruct (Swap_last_edges h n 0 Hh Hl Hn) as [Hedge Hbr].
    destruct (down_spec n 0 (Swap 0 n h) 0) as [Hf Hr]; [rewrite Swap_length; lia|lia| |done|].
    { intros p c He Hc _ Hp. apply Hedge; try done. apply edge_lt in He. lia. }
    destruct (take_last (Swap 0 n h) _ n ltac:(by rewrite Swap_length) Hr Hf) as (H1 & H2 & H3).
    rewrite Swap_lookup in H2 by lia. rewrite decide_False, decide_True in H2 by lia.
    eexists. split; [by rewrite H2|]. split; [done|]. rewrite <- H2 at 1. rewrite H3. apply Swap_perm; lia.
  - destruct h as [|x [|]]; [done| |done]. eexists. split; [done|]. split; [|done]. intros p c He Hc. cbn in Hc. lia.
Qed.

(** [Fix] after the element at [i] was replaced. *)
Lemma heap_Fix_spec h i x :
  heap h → (i < length h)%nat →
  heap (heap_Fix (<[i := x]> h) i) ∧ heap_Fix (<[i := x]> h) i ≡ₚ <[i := x]> h.
Proof.
  intros Hh Hi.
  assert (∀ k, k ≠ i → <[i := x]> h !!! k = h !!! k) as Hk
    by (intros k Hne; by rewrite !list_lookup_total_alt, list_lookup_insert_ne).
  destruct (fix_spec (length (<[i := x]> h)) (<[i := x]> h) i) as [Hf Hr].
  - done.
  - by rewrite length_insert.
  - intros p c He Hc Hp Hci. rewrite length_insert in Hc. rewrite !Hk by done. apply Hh; try done; lia.
  - intros p c Hp _ Hc Hn. rewrite length_insert in Hn. apply edge_lt in Hp as H1. apply edge_lt in Hc as H2.
    rewrite !Hk by lia. apply (le_trans _ (h !!! i)); apply Hh; try done; lia.
  - unfold heap, heap_Fix. rewrite (rearranged_length _ _ _ Hr). split; [done|apply Hr].
Qed.
End heap.
