(* ===== verification/RlpEncode.v ===== *)
(** * RLP encoding (rlp/encode.go, rlp/encbuffer.go, the size functions of rlp/raw.go)

    The encoder collects string data and list headers in an [encBuffer] and lays the
    headers out at the end.  [GoValue] has one constructor per writer [makeWriter]
    chooses from the Go type; [encode] dispatches to the writers.  The specification
    [rlp_spec] is the recursive definition of RLP; the refinement theorem is that the
    two-pass buffer produces exactly that string. *)

From S2P Require Import Prelude Bytes.

(** ** Integers and headers *)

(** [putint]: the bytes written at the beginning of [b]; their number is the result. *)
Definition putint (i : Z) : list byte :=
  if i <? 1 ≪ 8 then bytes_at [0] i
  else if i <? 1 ≪ 16 then bytes_at [8; 0] i
  else if i <? 1 ≪ 24 then bytes_at [16; 8; 0] i
  else if i <? 1 ≪ 32 then bytes_at [24; 16; 8; 0] i
  else if i <? 1 ≪ 40 then bytes_at [32; 24; 16; 8; 0] i
  else if i <? 1 ≪ 48 then bytes_at [40; 32; 24; 16; 8; 0] i
  else if i <? 1 ≪ 56 then bytes_at [48; 40; 32; 24; 16; 8; 0] i
  else bytes_at [56; 48; 40; 32; 24; 16; 8; 0] i.

(** [intsize] loops until the shifted integer is zero: at most eight rounds for a
    [uint64], which is the fuel. *)
Fixpoint intsize_loop (fuel : nat) (size i : Z) : Z :=
  match fuel with
  | O => size
  | S fuel => let i := i ≫ 8 in if i =? 0 then size else intsize_loop fuel (size + 1) i
  end.
Definition intsize (i : Z) : Z := intsize_loop 8 1 i.

Definition headsize (size : Z) : Z := if size <? 56 then 1 else 1 + intsize size.

(** [puthead]: the bytes of a list or string header. *)
Definition puthead (smalltag largetag : byte) (size : Z) : list byte :=
  if size <? 56 then [byte_of (smalltag + size)]
  else let s := putint size in byte_of (largetag + Z.of_nat (length s)) :: s.

(** [AppendUint64]: the bytes appended to [b]. *)
Definition AppendUint64 (b : list byte) (i : Z) : list byte :=
  if i =? 0 then b ++ [0x80]
  else if i <? 128 then b ++ [byte_of i]
  else if i <? 1 ≪ 8 then b ++ 0x81 :: bytes_at [0] i
  else if i <? 1 ≪ 16 then b ++ 0x82 :: bytes_at [8; 0] i
  else if i <? 1 ≪ 24 then b ++ 0x83 :: bytes_at [16; 8; 0] i
  else if i <? 1 ≪ 32 then b ++ 0x84 :: bytes_at [24; 16; 8; 0] i
  else if i <? 1 ≪ 40 then b ++ 0x85 :: bytes_at [32; 24; 16; 8; 0] i
  else if i <? 1 ≪ 48 then b ++ 0x86 :: bytes_at [40; 32; 24; 16; 8; 0] i
  else if i <? 1 ≪ 56 then b ++ 0x87 :: bytes_at [48; 40; 32; 24; 16; 8; 0] i
  else b ++ 0x88 :: bytes_at [56; 48; 40; 32; 24; 16; 8; 0] i.

(** Sizes of encodings. *)
Definition BytesSize (b : list byte) : Z :=
  match b with
  | [] => 1
  | [x] => if x <=? 0x7f then 1 else 2
  | _ => headsize (Z.of_nat (length b)) + Z.of_nat (length b)
  end.
Definition StringSize (s : list byte) : Z := BytesSize s.
Definition ListSize (contentSize : Z) : Z := (headsize contentSize + contentSize)%u64.
Definition IntSize (x : Z) : Z := if x <? 0x80 then 1 else 1 + intsize x.

(** ** The encoder buffer *)

Record listhead := mkListhead {
  offset : Z; (* index of this header in string data *)
  lh_size : Z; (* total size of encoded data (including list headers) *)
}.

Definition head_encode (head : listhead) : list byte := puthead 0xC0 0xF7 (lh_size head).

Record encBuffer := mkEncBuffer {
  str : list byte; (* string data, contains everything except list headers *)
  lheads : list listhead; (* all list headers *)
  lhsize : Z; (* sum of sizes of all encoded list headers *)
}.

(** [reset]: the buffer [getEncBuffer] hands out. *)
Definition reset : encBuffer := mkEncBuffer [] [] 0.

Definition append_str (buf : encBuffer) (b : list byte) : encBuffer :=
  mkEncBuffer (str buf ++ b) (lheads buf) (lhsize buf).

Definition buf_size (buf : encBuffer) : Z := Z.of_nat (length (str buf)) + lhsize buf.

(** [copyTo]: string data up to the header's offset, the header, and so on. *)
Fixpoint copy_loop (data : list byte) (strpos : Z) (heads : list listhead) : list byte :=
  match heads with
  | [] => drop (Z.to_nat strpos) data
  | head :: heads =>
      let piece := drop (Z.to_nat strpos) (take (Z.to_nat (offset head)) data) in
      piece ++ head_encode head
        ++ copy_loop data (strpos + Z.of_nat (length piece)) heads
  end.
Definition copyTo (buf : encBuffer) : list byte := copy_loop (str buf) 0 (lheads buf).
Definition makeBytes (buf : encBuffer) : list byte := copyTo buf.

(** [writeTo]: the same layout, as writes to [w]; the bytes [w] receives. *)
Fixpoint write_loop (data : list byte) (strpos : Z) (heads : list listhead) : list byte :=
  match heads with
  | [] => if strpos <? Z.of_nat (length data) then drop (Z.to_nat strpos) data else []
  | head :: heads =>
      let piece := if 0 <? offset head - strpos
                   then drop (Z.to_nat strpos) (take (Z.to_nat (offset head)) data) else [] in
      piece ++ head_encode head
        ++ write_loop data (strpos + Z.of_nat (length piece)) heads
  end.
Definition writeTo (buf : encBuffer) : list byte := write_loop (str buf) 0 (lheads buf).

Definition buf_writeBool (buf : encBuffer) (b : bool) : encBuffer :=
  append_str buf (if b then [0x01] else [0x80]).

Definition writeUint64 (buf : encBuffer) (i : Z) : encBuffer :=
  if i =? 0 then append_str buf [0x80]
  else if i <? 128 then append_str buf [byte_of i]
  else let s := putint i in
       append_str buf (byte_of (0x80 + Z.of_nat (length s)) :: s).

Definition encodeStringHeader (buf : encBuffer) (size : Z) : encBuffer :=
  if size <? 56 then append_str buf [byte_of (0x80 + byte_of size)]
  else let s := putint size in
       append_str buf (byte_of (0xB7 + Z.of_nat (length s)) :: s).

Definition buf_writeBytes (buf : encBuffer) (b : list byte) : encBuffer :=
  match b with
  | [x] => if x <=? 0x7F then append_str buf [x]
           else append_str (encodeStringHeader buf 1) b
  | _ => append_str (encodeStringHeader buf (Z.of_nat (length b))) b
  end.

(** [big.Int.Bits]: the little-endian words of the absolute value. *)
Fixpoint big_words (n : nat) (i : Z) : list Z :=
  match n with
  | O => []
  | S n => i mod 2 ^ 64 :: big_words n (i / 2 ^ 64)
  end.
Definition Bits (i : Z) : list Z := big_words (Z.to_nat ((BitLen i + 63) / 64)) (Z.abs i).

(** The loops of [writeBigInt]: the bytes of each word, least significant first, are
    written from the end of the buffer backwards until the buffer is full. *)
Fixpoint fill_word (fuel : nat) (bytesBuf : list byte) (index : nat) (d : Z)
  : list byte * nat :=
  match fuel, index with
  | S fuel, S index => fill_word fuel (<[index := byte_of d]> bytesBuf) index (d ≫ 8)
  | _, _ => (bytesBuf, index)
  end.
Fixpoint fill_words (bytesBuf : list byte) (index : nat) (ws : list Z) : list byte :=
  match ws with
  | [] => bytesBuf
  | d :: ws => let '(b, i) := fill_word 8 bytesBuf index d in fill_words b i ws
  end.

Definition writeBigInt (buf : encBuffer) (i : Z) : encBuffer :=
  let bitlen := BitLen i in
  if bitlen <=? 64 then writeUint64 buf (Z.abs i mod 2 ^ 64)
  else
    let length := (Z.land (bitlen + 7) (-8)) ≫ 3 in
    let buf := encodeStringHeader buf length in
    append_str buf (fill_words (replicate (Z.to_nat length) 0) (Z.to_nat length) (Bits i)).

(** [writeUint256]: the four limbs in big-endian order behind one spare byte, in
    which the header is placed just before the significant bytes. *)
Definition writeUint256 (buf : encBuffer) (z : Z) : encBuffer :=
  let bitlen := BitLen z in
  if bitlen <=? 64 then writeUint64 buf (z mod 2 ^ 64)
  else
    let nBytes := (bitlen + 7) / 8 in
    let limb k := (z ≫ (64 * k)) mod 2 ^ 64 in
    let b := 0 :: be_bytes 8 (limb 3) ++ be_bytes 8 (limb 2)
                ++ be_bytes 8 (limb 1) ++ be_bytes 8 (limb 0) in
    let pos := Z.to_nat (32 - nBytes) in
    append_str buf (drop pos (<[pos := byte_of (0x80 + nBytes)]> b)).

Definition buf_list (buf : encBuffer) : encBuffer * nat :=
  (mkEncBuffer (str buf)
     (lheads buf ++ [mkListhead (Z.of_nat (length (str buf))) (lhsize buf)]) (lhsize buf),
   length (lheads buf)).

Definition listEnd (buf : encBuffer) (index : nat) : encBuffer :=
  match lheads buf !! index with
  | None => buf
  | Some lh =>
      let size := buf_size buf - offset lh - lh_size lh in
      mkEncBuffer (str buf) (<[index := mkListhead (offset lh) size]> (lheads buf))
        (if size <? 56 then lhsize buf + 1 else lhsize buf + (1 + intsize size))
  end.

(** ** Values and their writers *)

Inductive rlp_error :=
| ErrNegativeBigInt | ErrUnexpectedEOF | EOF | EOL | ErrExpectedString | ErrExpectedList
| ErrCanonInt | ErrCanonSize | ErrElemTooLarge | ErrValueTooLarge | ErrMoreThanOneValue
| errNotInList | errNotAtEOL | errUintOverflow | errUint256Large
| errWrongSize | errInvalidBool | errNotSerializable.

#[global] Instance rlp_error_eq_dec : EqDecision rlp_error.
Proof. solve_decision. Defined.

(** A Go value as the encoder sees it: one constructor per case of [makeWriter],
    carrying the value the writer reads.  [VPtr] carries the nil encoding the type
    selects, [VStruct] the index of the first optional field and, with each field,
    reflect's [IsZero].  [VUnsupported] is a value of a kind without a writer (a map, a
    signed integer, a channel): the error is found from the type, before anything is
    written. *)
Inductive GoValue :=
| VRawValue (b : list byte)
| VBigIntPtr (i : option Z)
| VBigInt (i : Z)
| VU256Ptr (i : option Z)
| VU256 (i : Z)
| VPtr (nilEncoding : byte) (v : option GoValue)
| VUint (i : Z)
| VBool (b : bool)
| VString (s : list byte)
| VBytes (b : list byte)
| VByteArray (b : list byte)
| VSlice (tail : bool) (vs : list GoValue)
| VStruct (firstOptionalField : nat) (fields : list (bool * GoValue))
| VInterface (v : option GoValue)
| VUnsupported.

(** The writer of a struct with optional fields: trailing zero ones are dropped. *)
Fixpoint last_field (firstOptional n : nat) (zero : list bool) : nat :=
  match n with
  | O => O
  | S n' => if decide (firstOptional <= n')%nat
            then if default false (zero !! n') then last_field firstOptional n' zero else n
            else n
  end.
Definition struct_count (firstOptional : nat) (fields : list (bool * GoValue)) : nat :=
  if decide (firstOptional = length fields) then length fields
  else last_field firstOptional (length fields) fields.*1.

(** The byte-array writers for lengths zero, one and more. *)
Definition writeByteArray (b : list byte) (buf : encBuffer) : encBuffer :=
  match b with
  | [] => append_str buf [0x80]
  | [x] => if x <=? 0x7f then append_str buf [x] else append_str buf [0x81; x]
  | _ => append_str (encodeStringHeader buf (Z.of_nat (length b))) b
  end.

(** The writer for a big integer refuses a negative one. *)
Definition writeBigInt_checked (i : Z) (buf : encBuffer) : rlp_error + encBuffer :=
  if i <? 0 then inl ErrNegativeBigInt else inr (writeBigInt buf i).

(** The loops of the slice and struct writers over the element writer [enc]. *)
Definition write_elems (enc : GoValue → encBuffer → rlp_error + encBuffer) :=
  fix elems (vs : list GoValue) (buf : encBuffer) : rlp_error + encBuffer :=
    match vs with
    | [] => inr buf
    | v :: vs => buf ← enc v buf; elems vs buf
    end.
Definition write_fields (enc : GoValue → encBuffer → rlp_error + encBuffer) :=
  fix write (fields : list (bool * GoValue)) (n : nat) (buf : encBuffer)
    : rlp_error + encBuffer :=
    match n, fields with
    | S n, (_, v) :: fields => buf ← enc v buf; write fields n buf
    | _, _ => inr buf
    end.

(** [makeWriter] and the writers it returns. *)
Fixpoint encode (v : GoValue) (buf : encBuffer) : rlp_error + encBuffer :=
  match v with
  | VRawValue b => inr (append_str buf b)
  | VBigIntPtr None => inr (append_str buf [0x80])
  | VBigIntPtr (Some i) | VBigInt i => writeBigInt_checked i buf
  | VU256Ptr None => inr (append_str buf [0x80])
  | VU256Ptr (Some i) | VU256 i => inr (writeUint256 buf i)
  | VPtr nilEncoding None => inr (append_str buf [nilEncoding])
  | VPtr _ (Some v) => encode v buf
  | VUint i => inr (writeUint64 buf i)
  | VBool b => inr (buf_writeBool buf b)
  | VString s => inr (buf_writeBytes buf s)
  | VBytes b => inr (buf_writeBytes buf b)
  | VByteArray b => inr (writeByteArray b buf)
  | VSlice tail vs =>
      if tail then write_elems encode vs buf
      else match vs with
           | [] => inr (append_str buf [0xC0])
           | _ => let '(buf, listOffset) := buf_list buf in
                  buf ← write_elems encode vs buf;
                  inr (listEnd buf listOffset)
           end
  | VStruct firstOptional fields =>
      let '(buf, lh) := buf_list buf in
      buf ← write_fields encode fields (struct_count firstOptional fields) buf;
      inr (listEnd buf lh)
  | VInterface None => inr (append_str buf [0xC0])
  | VInterface (Some v) => encode v buf
  | VUnsupported => inl errNotSerializable
  end.

Definition EncodeToBytes (v : GoValue) : rlp_error + list byte :=
  buf ← encode v reset; inr (makeBytes buf).

(** [Encode]: the bytes written to [w] and the error.  A value that cannot be encoded
    writes nothing. *)
Definition Encode (v : GoValue) : list byte * option rlp_error :=
  match encode v reset with
  | inl e => ([], Some e)
  | inr buf => (writeTo buf, None)
  end.

(** ** The specification *)

Definition rlp_head (smalltag largetag : byte) (n : Z) : list byte :=
  if n <? 56 then [smalltag + n]
  else let s := be_min n in largetag + Z.of_nat (length s) :: s.

Definition rlp_string (b : list byte) : list byte :=
  match b with
  | [x] => if x <? 0x80 then b else 0x81 :: b
  | _ => rlp_head 0x80 0xB7 (Z.of_nat (length b)) ++ b
  end.

Definition rlp_list (content : list byte) : list byte :=
  rlp_head 0xC0 0xF7 (Z.of_nat (length content)) ++ content.

Definition rlp_int (i : Z) : list byte := rlp_string (be_min i).

Definition spec_elems (spec : GoValue → rlp_error + list byte) :=
  fix elems (vs : list GoValue) : rlp_error + list byte :=
    match vs with
    | [] => inr []
    | v :: vs => b ← spec v; bs ← elems vs; inr (b ++ bs)
    end.
Definition spec_fields (spec : GoValue → rlp_error + list byte) :=
  fix write (fields : list (bool * GoValue)) (n : nat) : rlp_error + list byte :=
    match n, fields with
    | S n, (_, v) :: fields => b ← spec v; bs ← write fields n; inr (b ++ bs)
    | _, _ => inr []
    end.

(** The encoding of a value, by recursion on it. *)
Fixpoint rlp_spec (v : GoValue) : rlp_error + list byte :=
  match v with
  | VRawValue b => inr b
  | VBigIntPtr None => inr (rlp_string [])
  | VBigIntPtr (Some i) | VBigInt i => if i <? 0 then inl ErrNegativeBigInt else inr (rlp_int i)
  | VU256Ptr None => inr (rlp_string [])
  | VU256Ptr (Some i) | VU256 i | VUint i => inr (rlp_int i)
  | VPtr nilEncoding None => inr [nilEncoding]
  | VPtr _ (Some v) => rlp_spec v
  | VBool b => inr (rlp_int (if b then 1 else 0))
  | VString b | VBytes b | VByteArray b => inr (rlp_string b)
  | VSlice tail vs =>
      content ← spec_elems rlp_spec vs; inr (if tail then content else rlp_list content)
  | VStruct firstOptional fields =>
      content ← spec_fields rlp_spec fields (struct_count firstOptional fields);
      inr (rlp_list content)
  | VInterface None => inr (rlp_list [])
  | VInterface (Some v) => rlp_spec v
  | VUnsupported => inl errNotSerializable
  end.

(** ** Integers: the unrolled routines compute the minimal big-endian encoding *)

Lemma putint_be_min i : 0 < i < 2 ^ 64 → putint i = be_min i.
Proof.
  intros Hi. unfold putint, be_min. rewrite !Z.shiftl_1_l.
  repeat match goal with
  | |- context [if ?i <? ?k then _ else _] => destruct (Z.ltb_spec i k)
  end;
  match goal with
  | |- bytes_at ?ks _ = _ =>
      let n := eval vm_compute in (256 ^ Z.of_nat (length ks)) in
      let m := eval vm_compute in (256 ^ (Z.of_nat (length ks) - 1)) in
      rewrite (byte_len_unique i (length ks));
        [by rewrite be_bytes_at | change (m <= i < n); lia | lia]
  end.
Qed.

Lemma intsize_loop_byte_len fuel size i :
  0 < i < 256 ^ Z.of_nat fuel →
  intsize_loop fuel size i = size + Z.of_nat (byte_len i) - 1.
Proof.
  revert size i. induction fuel as [|fuel IH]; intros size i Hi; [simpl in Hi; lia|].
  cbn [intsize_loop]. rewrite Z.shiftr_div_pow2 by lia. change (2 ^ 8) with 256.
  rewrite Nat2Z.inj_succ, Z.pow_succ_r in Hi by lia.
  destruct (Z.eqb_spec (i / 256) 0) as [E|E].
  - apply Z.div_small_iff in E; [|lia]. rewrite (byte_len_unique i 1) by (simpl; lia). lia.
  - assert (0 < i / 256) as Hd by (pose proof (Z.div_pos i 256); lia).
    rewrite IH by (split; [done | apply Z.div_lt_upper_bound; lia]).
    rewrite (byte_len_unique i (S (byte_len (i / 256)))); [lia| |lia].
    pose proof (byte_len_spec (i / 256) Hd) as [H1 H2].
    rewrite Nat2Z.inj_succ, Z.sub_1_r, Z.pred_succ, Z.pow_succ_r by lia.
    pose proof (Z.div_mod i 256). pose proof (Z.mod_pos_bound i 256).
    assert (256 ^ Z.of_nat (byte_len (i / 256)) =
      256 * 256 ^ (Z.of_nat (byte_len (i / 256)) - 1)) as E'; [|lia].
    rewrite <- Z.pow_succ_r; [f_equal; lia|]. unfold byte_len.
    destruct (Z.leb_spec (i / 256) 0); lia.
Qed.

Lemma intsize_byte_len i : 0 < i < 2 ^ 64 → intsize i = Z.of_nat (byte_len i).
Proof. intros Hi. unfold intsize. rewrite intsize_loop_byte_len by done. lia. Qed.

Lemma byte_len_le8 i : 0 < i < 2 ^ 64 → (1 <= byte_len i <= 8)%nat.
Proof.
  intros Hi. pose proof (byte_len_spec i).
  destruct (decide (byte_len i = 0%nat)) as [E|]; [rewrite E in *; simpl in *; lia|].
  destruct (decide (8 < byte_len i)%nat); [|lia].
  assert (256 ^ 8 <= 256 ^ (Z.of_nat (byte_len i) - 1)) by (apply Z.pow_le_mono_r; lia). lia.
Qed.

Lemma puthead_rlp_head st lt n :
  0 <= st <= 200 → 0 <= lt <= 247 → 0 <= n < 2 ^ 64 → puthead st lt n = rlp_head st lt n.
Proof.
  intros Hs Hl Hn. unfold puthead, rlp_head. destruct (Z.ltb_spec n 56).
  - rewrite byte_of_id by lia. done.
  - rewrite putint_be_min, be_min_length by lia. pose proof (byte_len_le8 n).
    rewrite byte_of_id by lia. done.
Qed.

Lemma rlp_head_length st lt n :
  0 <= n < 2 ^ 64 → Z.of_nat (length (rlp_head st lt n)) = headsize n.
Proof.
  intros Hn. unfold rlp_head, headsize. destruct (Z.ltb_spec n 56); [done|].
  rewrite intsize_byte_len by lia. simpl length. rewrite be_min_length. lia.
Qed.

(** ** The layout of the buffer

    What a writer adds to the buffer is a sequence of pieces: string data and list
    headers in output order.  [extend] is the buffer after the pieces were added. *)

Inductive piece := PStr (b : list byte) | PHead (n : Z).

Definition piece_str (p : piece) : list byte := match p with PStr b => b | PHead _ => [] end.
Definition piece_out (p : piece) : list byte :=
  match p with PStr b => b | PHead n => puthead 0xC0 0xF7 n end.
Definition strs (ps : list piece) : list byte := ps ≫= piece_str.
Definition outs (ps : list piece) : list byte := ps ≫= piece_out.

Fixpoint heads_from (o : Z) (ps : list piece) : list listhead :=
  match ps with
  | [] => []
  | PStr b :: ps => heads_from (o + Z.of_nat (length b)) ps
  | PHead n :: ps => mkListhead o n :: heads_from o ps
  end.

Definition extend (buf : encBuffer) (ps : list piece) : encBuffer :=
  mkEncBuffer (str buf ++ strs ps)
    (lheads buf ++ heads_from (Z.of_nat (length (str buf))) ps)
    (lhsize buf + Z.of_nat (length (outs ps)) - Z.of_nat (length (strs ps))).

Lemma strs_app p q : strs (p ++ q) = strs p ++ strs q.
Proof. apply bind_app. Qed.

Lemma outs_app p q : outs (p ++ q) = outs p ++ outs q.
Proof. apply bind_app. Qed.

Lemma heads_from_app o p q :
  heads_from o (p ++ q) = heads_from o p ++ heads_from (o + Z.of_nat (length (strs p))) q.
Proof.
  revert o. induction p as [|[b|n] p IH]; intros o; simpl; rewrite ?IH.
  - by rewrite Z.add_0_r.
  - unfold strs. simpl. by rewrite length_app, Nat2Z.inj_add, Z.add_assoc.
  - done.
Qed.

Lemma extend_nil buf : extend buf [] = buf.
Proof. destruct buf. unfold extend. simpl. rewrite !app_nil_r. f_equal. lia. Qed.

Lemma extend_app buf p q : extend (extend buf p) q = extend buf (p ++ q).
Proof.
  unfold extend. simpl. rewrite strs_app, outs_app, heads_from_app, !length_app, <- !app_assoc.
  f_equal; [|lia]. do 3 f_equal. lia.
Qed.

Lemma append_extend buf b : append_str buf b = extend buf [PStr b].
Proof.
  unfold append_str, extend, strs, outs. simpl. rewrite !app_nil_r. f_equal. lia.
Qed.

(** Laying out the headers puts the pieces in output order. *)
Lemma copy_loop_outs ps : ∀ pre pend,
  copy_loop (pre ++ pend ++ strs ps) (Z.of_nat (length pre))
    (heads_from (Z.of_nat (length (pre ++ pend))) ps) = pend ++ outs ps.
Proof.
  induction ps as [|[b|n] ps IH]; intros pre pend; simpl.
  - unfold strs, outs. simpl. rewrite !app_nil_r, Nat2Z.id. apply drop_app_length.
  - rewrite <- Nat2Z.inj_add, <- length_app, <- app_assoc.
    change (strs (PStr b :: ps)) with (b ++ strs ps).
    rewrite (app_assoc pend), IH, <- app_assoc. done.
  - rewrite !Nat2Z.id. change (strs (PHead n :: ps)) with (strs ps).
    rewrite (app_assoc pre pend), take_app_length, drop_app_length.
    rewrite <- Nat2Z.inj_add, <- length_app.
    pose proof (IH (pre ++ pend) []) as E. rewrite !app_nil_r in E. simpl in E.
    rewrite E. done.
Qed.

(** Writing to [w] and copying to a slice lay out the same bytes. *)
Lemma write_loop_copy data heads : ∀ strpos,
  0 <= strpos → write_loop data strpos heads = copy_loop data strpos heads.
Proof.
  induction heads as [|h heads IH]; intros strpos Hp; simpl.
  - destruct (Z.ltb_spec strpos (Z.of_nat (length data))); [done|].
    rewrite drop_ge by lia. done.
  - destruct (Z.ltb_spec 0 (offset h - strpos)); [by rewrite IH by lia|].
    rewrite (drop_ge (take _ _)) by (rewrite length_take; lia). simpl. rewrite IH by lia. done.
Qed.

Lemma writeTo_copyTo buf : writeTo buf = copyTo buf.
Proof. by apply write_loop_copy. Qed.

Lemma makeBytes_extend ps : makeBytes (extend reset ps) = outs ps.
Proof. apply (copy_loop_outs ps [] []). Qed.

(** Opening a list, writing its elements and closing it puts one header in front. *)
Lemma listEnd_extend buf ps :
  Z.of_nat (length (outs ps)) < 2 ^ 64 →
  listEnd (extend (fst (buf_list buf)) ps) (snd (buf_list buf))
  = extend buf (PHead (Z.of_nat (length (outs ps))) :: ps).
Proof.
  intros Hn. unfold buf_list, listEnd, extend. simpl fst. simpl snd. cbn [lheads str lhsize].
  rewrite <- app_assoc. cbn [app]. rewrite list_lookup_middle by done.
  unfold buf_size. cbn [offset lh_size str lhsize].
  assert (Z.of_nat (length (str buf ++ strs ps))
     + (lhsize buf + Z.of_nat (length (outs ps)) - Z.of_nat (length (strs ps)))
     - Z.of_nat (length (str buf)) - lhsize buf = Z.of_nat (length (outs ps))) as ->
    by (rewrite length_app; lia).
  change (outs (PHead ?n :: ps)) with (puthead 0xC0 0xF7 n ++ outs ps).
  change (strs (PHead ?n :: ps)) with (strs ps).
  f_equal.
  - rewrite insert_app_r_alt, Nat.sub_diag by done. done.
  - rewrite length_app, puthead_rlp_head, Nat2Z.inj_add, rlp_head_length by lia.
    unfold headsize. destruct (_ <? 56); lia.
Qed.

(** ** The writers of strings and integers *)

Definition single_byte (b : list byte) : bool :=
  match b with [x] => x <? 0x80 | _ => false end.

Lemma rlp_string_head b :
  single_byte b = false → rlp_string b = rlp_head 0x80 0xB7 (Z.of_nat (length b)) ++ b.
Proof. destruct b as [|x [|y b]]; simpl; [done| |done]. by intros ->. Qed.

Lemma append_str_app buf b c : append_str (append_str buf b) c = append_str buf (b ++ c).
Proof. unfold append_str. simpl. by rewrite app_assoc. Qed.

Lemma encodeStringHeader_spec buf n :
  0 <= n < 2 ^ 64 → encodeStringHeader buf n = append_str buf (rlp_head 0x80 0xB7 n).
Proof.
  intros Hn. unfold encodeStringHeader.
  rewrite <- puthead_rlp_head by lia. unfold puthead. destruct (Z.ltb_spec n 56); [|done].
  rewrite (byte_of_id n) by lia. done.
Qed.

Lemma be_min_single i : single_byte (be_min i) = (0 <? i) && (i <? 128).
Proof.
  destruct (Z.ltb_spec 0 i); simpl.
  - pose proof (be_value_be_min i) as Hv.
    destruct (Z.ltb_spec i 128).
      unfold be_min. rewrite (byte_len_unique i 1) by (simpl; lia). simpl.
      rewrite Z.mod_small by lia. apply Z.ltb_lt. lia.
    + destruct (be_min i) as [|x [|y l]]; simpl; [done| |done].
      apply Z.ltb_ge. unfold be_value in Hv. simpl in Hv. lia.
  - unfold be_min, byte_len. destruct (Z.leb_spec i 0); [done|lia].
Qed.

Lemma rlp_int_large i : 128 <= i → rlp_int i = rlp_head 0x80 0xB7 (Z.of_nat (byte_len i)) ++ be_min i.
Proof.
  intros Hi. unfold rlp_int. rewrite <- be_min_length. apply rlp_string_head.
  rewrite be_min_single. destruct (Z.ltb_spec i 128); [lia|]. by rewrite andb_false_r.
Qed.

Lemma rlp_int_small i : 0 < i < 128 → rlp_int i = [i].
Proof.
  intros Hi. unfold rlp_int, be_min. rewrite (byte_len_unique i 1) by (simpl; lia). simpl.
  rewrite Z.mod_small by lia. destruct (Z.ltb_spec i 128); [done|lia].
Qed.

Lemma writeUint64_spec buf i :
  0 <= i < 2 ^ 64 → writeUint64 buf i = append_str buf (rlp_int i).
Proof.
  intros Hi. unfold writeUint64. destruct (Z.eqb_spec i 0) as [->|]; [done|].
  destruct (Z.ltb_spec i 128).
  - rewrite rlp_int_small, byte_of_id by lia. done.
  - rewrite rlp_int_large, putint_be_min, be_min_length by lia.
    pose proof (byte_len_le8 i). rewrite byte_of_id by lia.
    unfold rlp_head. destruct (Z.ltb_spec (Z.of_nat (byte_len i)) 56); [done|lia].
Qed.

(** [AppendUint64] is the same encoding, unrolled once more. *)
Lemma AppendUint64_app b i : AppendUint64 b i = b ++ AppendUint64 [] i.
Proof. unfold AppendUint64. repeat case_match; done. Qed.

Lemma AppendUint64_writeUint64 i :
  0 <= i < 2 ^ 64 → AppendUint64 [] i = str (writeUint64 reset i).
Proof.
  intros Hi. unfold AppendUint64, writeUint64, putint.
  repeat match goal with
  | |- context [if ?b then _ else _] => destruct b eqn:?
  end; done.
Qed.

Lemma buf_writeBytes_spec buf b :
  Z.of_nat (length b) < 2 ^ 64 → buf_writeBytes buf b = append_str buf (rlp_string b).
Proof.
  intros Hn. assert (∀ n, 0 <= n < 2 ^ 64 → append_str (encodeStringHeader buf n) b
    = append_str buf (rlp_head 0x80 0xB7 n ++ b)) as Hh.
  { intros n Hb. by rewrite encodeStringHeader_spec, append_str_app. }
  destruct b as [|x [|y b]]; unfold buf_writeBytes.
  - by rewrite Hh.
  - simpl rlp_string. rewrite Hh by lia.
    destruct (Z.leb_spec x 127), (Z.ltb_spec x 128); done || lia.
  - rewrite Hh by lia. done.
Qed.

Lemma writeByteArray_spec buf b :
  Z.of_nat (length b) < 2 ^ 64 → writeByteArray b buf = append_str buf (rlp_string b).
Proof.
  intros Hn. destruct b as [|x [|y b]]; simpl; [done| |].
  - destruct (Z.leb_spec x 127), (Z.ltb_spec x 128); done || lia.
  - by rewrite encodeStringHeader_spec, append_str_app by (simpl in *; lia).
Qed.

Lemma fill_word_spec fuel : ∀ idx d suffix,
  fill_word fuel (replicate idx 0 ++ suffix) idx d
  = (replicate (idx - fuel) 0 ++ be_bytes (fuel `min` idx) d ++ suffix, (idx - fuel)%nat).
Proof.
  induction fuel as [|fuel IH]; intros idx d suffix.
  - destruct idx; simpl; done.
  - destruct idx as [|idx]; [done|]. cbn [fill_word].
    assert (<[idx := byte_of d]> (replicate (S idx) 0 ++ suffix)
            = replicate idx 0 ++ byte_of d :: suffix) as ->.
    { rewrite replicate_S_end, <- app_assoc. simpl.
      rewrite insert_app_r_alt, length_replicate, Nat.sub_diag by (rewrite length_replicate; done).
      done. }
    rewrite IH. simpl. rewrite Z.shiftr_div_pow2, <- app_assoc by lia. done.
Qed.

Lemma fill_words_spec n : ∀ idx i suffix,
  0 <= i → (idx <= 8 * n)%nat →
  fill_words (replicate idx 0 ++ suffix) idx (big_words n i) = be_bytes idx i ++ suffix.
Proof.
  induction n as [|n IH]; intros idx i suffix Hi Hn.
  - assert (idx = 0%nat) as -> by lia. done.
  - cbn [big_words fill_words]. rewrite fill_word_spec.
    rewrite IH by (try apply Z.div_pos; lia). rewrite app_assoc. f_equal.
    change (2 ^ 64) with (256 ^ Z.of_nat 8).
    rewrite be_bytes_mod by lia. destruct (decide (idx <= 8)%nat).
    + replace (idx - 8)%nat with 0%nat by lia. by rewrite Nat.min_r by lia.
    + rewrite Nat.min_l, <- be_bytes_app by lia. f_equal. lia.
Qed.

Lemma writeBigInt_spec buf i :
  0 <= i → Z.of_nat (byte_len i) < 2 ^ 64 → writeBigInt buf i = append_str buf (rlp_int i).
Proof.
  intros Hi Hn. unfold writeBigInt. destruct (Z.leb_spec (BitLen i) 64) as [Hb|Hb].
  - apply BitLen_le in Hb; [|lia|lia].
    rewrite Z.abs_eq, Z.mod_small, writeUint64_spec by lia. done.
  - assert (2 ^ 64 <= i) by (pose proof (BitLen_le i 64); lia).
    rewrite Z.shiftr_land. change ((-8) ≫ 3) with (-1).
    rewrite Z.land_m1_r, Z.shiftr_div_pow2 by lia. change (2 ^ 3) with 8.
    rewrite <- byte_len_BitLen, encodeStringHeader_spec, append_str_app, Nat2Z.id by lia.
    rewrite rlp_int_large by lia. do 2 f_equal. unfold Bits, be_min.
    rewrite Z.abs_eq by done.
    rewrite <- (app_nil_r (replicate _ _)), fill_words_spec, app_nil_r; [done|done|].
    assert (0 <= (BitLen i + 63) / 64) by (apply Z.div_pos; lia).
    apply Nat2Z.inj_le. rewrite byte_len_BitLen, Nat2Z.inj_mul, Z2Nat.id by lia.
    change (Z.of_nat 8) with 8. apply Z.lt_succ_r, Z.div_lt_upper_bound; [lia|].
    pose proof (Z.div_mod (BitLen i + 63) 64). pose proof (Z.mod_pos_bound (BitLen i + 63) 64).
    lia.
Qed.

(** The four limbs of a 256-bit integer spell its 32 bytes. *)
Lemma limbs_be_bytes z :
  0 <= z < 2 ^ 256 →
  be_bytes 8 ((z ≫ 192) mod 2 ^ 64) ++ be_bytes 8 ((z ≫ 128) mod 2 ^ 64)
    ++ be_bytes 8 ((z ≫ 64) mod 2 ^ 64) ++ be_bytes 8 ((z ≫ 0) mod 2 ^ 64) = be_bytes 32 z.
Proof.
  intros Hz. rewrite !Z.shiftr_div_pow2 by lia. change (2 ^ 64) with (256 ^ Z.of_nat 8).
  rewrite !be_bytes_mod by lia. change (2 ^ 0) with 1. rewrite Z.div_1_r.
  change (be_bytes 32 z) with (be_bytes (8 + 8 + 8 + 8) z).
  rewrite !(be_bytes_app _ 8), !Z.div_div by lia.
  change (2 ^ 192) with (256 ^ 8 * 256 ^ 8 * 256 ^ 8).
  change (2 ^ 128) with (256 ^ 8 * 256 ^ 8). change (Z.of_nat 8) with 8.
  by rewrite <- !app_assoc.
Qed.

Lemma drop_spare (x : byte) h t : ∃ y, drop (length h) (x :: h ++ t) = y :: t.
Proof. revert x. induction h as [|z h IH]; intros x; simpl; eauto. Qed.

Lemma writeUint256_spec buf z :
  0 <= z < 2 ^ 256 → writeUint256 buf z = append_str buf (rlp_int z).
Proof.
  intros Hz. unfold writeUint256. destruct (Z.leb_spec (BitLen z) 64) as [Hb|Hb].
  - apply BitLen_le in Hb; [|lia|lia]. rewrite Z.mod_small, writeUint64_spec by lia. done.
  - assert (2 ^ 64 <= z) by (pose proof (BitLen_le z 64); lia).
    change (64 * 3) with 192. change (64 * 2) with 128. change (64 * 1) with 64.
    change (64 * 0) with 0. rewrite limbs_be_bytes, <- byte_len_BitLen, rlp_int_large by lia.
    f_equal. assert (BitLen z <= 256) by (apply BitLen_le; lia).
    assert (byte_len z <= 32)%nat as Hl.
    { apply Nat2Z.inj_le. rewrite byte_len_BitLen by lia.
      apply Z.lt_succ_r, Z.div_lt_upper_bound; lia. }
    set (n := byte_len z) in *.
    assert (Z.to_nat (32 - Z.of_nat n) = 32 - n)%nat as -> by lia.
    rewrite drop_insert_ge, Nat.sub_diag by lia.
    rewrite byte_of_id by lia. unfold rlp_head.
    destruct (Z.ltb_spec (Z.of_nat n) 56); [|lia]. unfold be_min. fold n.
    replace (be_bytes 32 z) with (be_bytes ((32 - n) + n) z) by (f_equal; lia).
    rewrite be_bytes_app. set (h := be_bytes (32 - n) _).
    assert (length h = 32 - n)%nat as Eh by apply be_bytes_length.
    rewrite <- Eh. destruct (drop_spare 0 h (be_bytes n z)) as [y ->]. done.
Qed.

(** ** The refinement theorem *)

Definition all_of {A} (P : A → Prop) :=
  fix all (l : list A) : Prop := match l with [] => True | x :: l => P x ∧ all l end.

(** The values a Go program can hand to the encoder. *)
Fixpoint value_ok (v : GoValue) : Prop :=
  match v with
  | VUint i => 0 <= i < 2 ^ 64
  | VU256 i | VU256Ptr (Some i) => 0 <= i < 2 ^ 256
  | VPtr _ (Some v) | VInterface (Some v) => value_ok v
  | VSlice _ vs => all_of value_ok vs
  | VStruct _ fields => all_of (λ f, value_ok f.2) fields
  | _ => True
  end.

(** What the writer of [v] does to every buffer, against the result of the
    specification: the same error, or no error and, when the output is shorter than
    [2^64] bytes, the buffer extended with pieces that lay out to that output. *)
Definition writes (w : encBuffer → rlp_error + encBuffer) (r : rlp_error + list byte) : Prop :=
  match r with
  | inl e => ∀ buf, w buf = inl e
  | inr out =>
      (∀ buf, ∃ buf', w buf = inr buf') ∧
      (Z.of_nat (length out) < 2 ^ 64 →
       ∃ ps, outs ps = out ∧ ∀ buf, w buf = inr (extend buf ps))
  end.

Lemma writes_str w out :
  (Z.of_nat (length out) < 2 ^ 64 → ∀ buf, w buf = append_str buf out) →
  writes (λ buf, inr (w buf)) (inr out).
Proof.
  intros Hw. split; [eauto|]. intros Hn.
  exists [PStr out]. split; [unfold outs; simpl; by rewrite app_nil_r|].
  intros buf. by rewrite Hw, append_extend.
Qed.

Lemma writes_ret : writes inr (inr []).
Proof. split; [eauto|]. intros _. exists []. split; [done|]. intros. by rewrite extend_nil. Qed.

Lemma writes_seq w1 w2 r1 r2 :
  writes w1 r1 → writes w2 r2 →
  writes (λ buf, buf ← w1 buf; w2 buf) (b ← r1; bs ← r2; inr (b ++ bs)).
Proof.
  intros H1 H2. destruct r1 as [e|b]; [intros buf; simpl in *; by rewrite H1|].
  destruct H1 as [T1 H1]. destruct r2 as [e|bs]; simpl in *.
  { intros buf. destruct (T1 buf) as [buf' ->]. apply H2. }
  destruct H2 as [T2 H2]. split.
  { intros buf. destruct (T1 buf) as [buf' ->]. apply T2. }
  intros Hn. rewrite length_app in Hn.
  destruct H1 as (p & <- & H1); [lia|]. destruct H2 as (q & <- & H2); [lia|].
  exists (p ++ q). rewrite outs_app. split; [done|]. intros buf.
  by rewrite H1; simpl; rewrite H2, extend_app.
Qed.

Lemma writes_list w r :
  writes w r →
  writes (λ buf, let '(buf, lh) := buf_list buf in buf ← w buf; inr (listEnd buf lh))
    (content ← r; inr (rlp_list content)).
Proof.
  intros H. destruct r as [e|out]; simpl in *; [intros buf; by rewrite H|].
  destruct H as [T H]. split.
  { intros buf. destruct (T (fst (buf_list buf))) as [buf' E]. simpl in E. rewrite E. eauto. }
  unfold rlp_list. intros Hn. rewrite length_app in Hn.
  destruct H as (ps & <- & H); [lia|].
  exists (PHead (Z.of_nat (length (outs ps))) :: ps). split.
  - rewrite <- puthead_rlp_head by lia. done.
  - intros buf. rewrite H. simpl. f_equal. apply (listEnd_extend buf ps). lia.
Qed.

Section value_ind.
Variable P : GoValue → Prop.
Hypothesis Hraw : ∀ b, P (VRawValue b).
Hypothesis Hbigp : ∀ i, P (VBigIntPtr i).
Hypothesis Hbig : ∀ i, P (VBigInt i).
Hypothesis Hu256p : ∀ i, P (VU256Ptr i).
Hypothesis Hu256 : ∀ i, P (VU256 i).
Hypothesis Hptr : ∀ n v, (∀ w, v = Some w → P w) → P (VPtr n v).
Hypothesis Huint : ∀ i, P (VUint i).
Hypothesis Hbool : ∀ b, P (VBool b).
Hypothesis Hstring : ∀ b, P (VString b).
Hypothesis Hbytes : ∀ b, P (VBytes b).
Hypothesis Harray : ∀ b, P (VByteArray b).
Hypothesis Hslice : ∀ t vs, Forall P vs → P (VSlice t vs).
Hypothesis Hstruct : ∀ o fs, Forall (λ f, P f.2) fs → P (VStruct o fs).
Hypothesis Hiface : ∀ v, (∀ w, v = Some w → P w) → P (VInterface v).
Hypothesis Hunsup : P VUnsupported.

(** Induction on values, through the lists of elements and fields. *)
Lemma GoValue_nested_ind : ∀ v, P v.
Proof.
  fix IH 1. intros [ | | | | |n [v|]| | | | | |t vs|o fs|[v|]|];
    first [apply Hraw | apply Hbigp | apply Hbig | apply Hu256p | apply Hu256 | apply Huint
          | apply Hbool | apply Hstring | apply Hbytes | apply Harray
          | apply Hunsup | idtac].
  - apply Hptr. intros w [= <-]. apply IH.
  - apply Hptr. discriminate.
  - apply Hslice. induction vs as [|v vs IHvs]; constructor; [apply IH|apply IHvs].
  - apply Hstruct. induction fs as [|[b v] fs IHfs]; constructor; [apply IH|apply IHfs].
  - apply Hiface. intros w [= <-]. apply IH.
  - apply Hiface. discriminate.
Qed.
End value_ind.

Lemma rlp_string_length b : (length b <= length (rlp_string b))%nat.
Proof.
  destruct b as [|x [|y b]]; unfold rlp_string; [simpl; lia| |rewrite length_app; lia].
  case_match; simpl; lia.
Qed.

Lemma writes_big i : writes (writeBigInt_checked i)
  (if i <? 0 then inl ErrNegativeBigInt else inr (rlp_int i)).
Proof.
  unfold writeBigInt_checked. destruct (Z.ltb_spec i 0); [done|].
  apply writes_str. intros Hn buf. apply writeBigInt_spec; [done|].
  pose proof (rlp_string_length (be_min i)). rewrite be_min_length in *. unfold rlp_int in *. lia.
Qed.

(** The loops of the slice and struct writers. *)
Lemma writes_fields n fs :
  Forall (λ f, value_ok f.2 → writes (encode f.2) (rlp_spec f.2)) fs →
  all_of (λ f, value_ok f.2) fs →
  writes (write_fields encode fs n) (spec_fields rlp_spec fs n).
Proof.
  intros IH. revert n. induction IH as [|[z v] fs Hv _ IH]; intros [|n] Hok;
    try apply writes_ret.
  destruct Hok as [Hok Hoks]. apply writes_seq; [by apply Hv | by apply IH].
Qed.

Lemma writes_elems vs :
  Forall (λ v, value_ok v → writes (encode v) (rlp_spec v)) vs →
  all_of value_ok vs → writes (write_elems encode vs) (spec_elems rlp_spec vs).
Proof.
  intros IH Hok. induction IH as [|v vs Hv _ IH]; [apply writes_ret|].
  destruct Hok as [Hok Hoks]. apply writes_seq; [by apply Hv | by apply IH].
Qed.

(** Every writer writes what the specification says. *)
Lemma encode_writes v : value_ok v → writes (encode v) (rlp_spec v).
Proof.
  induction v as [b|[i|]|i|[i|]|i|n [v|] IH|i|b|b|b|b|t vs IH|o fs IH|[v|] IH|]
    using GoValue_nested_ind; intros Hok; cbn [encode rlp_spec];
    try (apply writes_str; intros Hn buf; try pose proof (rlp_string_length b)).
  - done.
  - apply writes_big.
  - done.
  - apply writes_big.
  - by apply writeUint256_spec.
  - done.
  - by apply writeUint256_spec.
  - by apply IH.
  - done.
  - by apply writeUint64_spec.
  - by destruct b.
  - apply buf_writeBytes_spec. lia.
  - apply buf_writeBytes_spec. lia.
  - apply writeByteArray_spec. lia.
  - pose proof (writes_elems vs IH Hok) as Hw. destruct t.
    + destruct (spec_elems rlp_spec vs); apply Hw.
    + destruct vs; [by apply writes_str | by apply writes_list].
  - by apply writes_list, writes_fields.
  - by apply IH.
  - done.
  - done.
Qed.

(** Both entry points of the encoder, against the specification. *)
Lemma encoder_refines v :
  value_ok v →
  (∀ out, rlp_spec v = inr out → Z.of_nat (length out) < 2 ^ 64) →
  EncodeToBytes v = rlp_spec v ∧
  Encode v = match rlp_spec v with inr out => (out, None) | inl e => ([], Some e) end.
Proof.
  intros Hok Hn. pose proof (encode_writes v Hok) as Hw. unfold EncodeToBytes, Encode.
  destruct (rlp_spec v) as [e|out]; simpl in Hw; [by rewrite Hw|].
  destruct Hw as [_ (ps & <- & Hw)]; [by apply Hn|].
  rewrite Hw. simpl. rewrite writeTo_copyTo. fold (makeBytes (extend reset ps)).
  by rewrite makeBytes_extend.
Qed.

(** C15: the buffered encoder refines the recursive definition of RLP: for every value
    a Go program can pass whose encoding is shorter than 2^64 bytes, [EncodeToBytes]
    returns exactly the specified byte string, or exactly the specified error; and
    [Encode] writes that string to its writer, or nothing when it returns the error. *)
Theorem EncodeToBytes_spec v :
  value_ok v →
  (∀ out, rlp_spec v = inr out → Z.of_nat (length out) < 2 ^ 64) →
  EncodeToBytes v = rlp_spec v ∧
  Encode v = match rlp_spec v with inr out => (out, None) | inl e => ([], Some e) end.
Proof. apply encoder_refines. Qed.

Lemma EncodeToBytes_spec_witness :
  let v := VStruct 3 [(false, VUint 1024); (false, VSlice false [VBytes [1; 2; 3]; VBool true]);
                      (false, VBigIntPtr (Some (2 ^ 70)))] in
  value_ok v ∧
  (EncodeToBytes v = rlp_spec v ∧
   Encode v = match rlp_spec v with inr out => (out, None) | inl e => ([], Some e) end).
Proof.
  split; [vm_compute; intuition congruence|].
  apply EncodeToBytes_spec; [vm_compute; intuition congruence|].
  intros out [= <-]. vm_compute. done.
Defined.
