(* ===== verification/RlpRaw.v ===== *)
(** * Splitting RLP input (rlp/raw.go)

    [readKind], [Split] and the functions built on them read the first value of a byte
    slice.  The theorems state that they invert the encoder on every value followed by
    any bytes, and that they accept nothing else: a slice that is split is the
    canonical encoding of its content followed by the rest. *)

From S2P Require Import Prelude Bytes RlpEncode.

Inductive Kind := Byte | String | List.
#[global] Instance Kind_eq_dec : EqDecision Kind.
Proof. solve_decision. Defined.

(** [uint64(b[0])<<8*(n-1) | ... | uint64(b[n-1])], the cases of the switch of [readSize]. *)
Definition be_or (l : list byte) : Z := foldl (λ s b, Z.lor (s ≪ 8) b) 0 l.

Definition readSize (b : list byte) (slen : Z) : rlp_error + Z :=
  if Z.of_nat (length b) <? slen then inl ErrUnexpectedEOF
  else
    let s := if (1 <=? slen) && (slen <=? 8) then be_or (take (Z.to_nat slen) b) else 0 in
    (* Reject sizes < 56 and sizes with leading zero bytes. *)
    if (s <? 56) || (b !!! 0%nat =? 0) then inl ErrCanonSize else inr s.

(** The switch of [readKind] on the first byte [b] of [buf]. *)
Definition read_tag (b : byte) (buf : list byte) : rlp_error + (Kind * Z * Z) :=
  if b <? 0x80 then inr (Byte, 0, 1)
  else if b <? 0xB8 then
    let contentsize := b - 0x80 in
    (* Reject strings that should've been single bytes. *)
    if (contentsize =? 1) && (1 <? Z.of_nat (length buf)) && (buf !!! 1%nat <? 128)
    then inl ErrCanonSize
    else inr (String, 1, contentsize)
  else if b <? 0xC0 then
    contentsize ← readSize (drop 1 buf) (b - 0xB7);
    inr (String, (b - 0xB7) + 1, contentsize)
  else if b <? 0xF8 then inr (List, 1, b - 0xC0)
  else
    contentsize ← readSize (drop 1 buf) (b - 0xF7);
    inr (List, (b - 0xF7) + 1, contentsize).

Definition readKind (buf : list byte) : rlp_error + (Kind * Z * Z) :=
  match buf with
  | [] => inl ErrUnexpectedEOF
  | b :: _ =>
      '(k, tagsize, contentsize) ← read_tag b buf;
      (* Reject values larger than the input slice. *)
      if (Z.of_nat (length buf) - tagsize)%u64 <? contentsize then inl ErrValueTooLarge
      else inr (k, tagsize, contentsize)
  end.

(** [b[i:j]] and [b[i:]] for the bounds [readKind] returned. *)
Definition slice (b : list byte) (i j : Z) : list byte :=
  take (Z.to_nat (j - i)) (drop (Z.to_nat i) b).
Definition slice_from (b : list byte) (i : Z) : list byte := drop (Z.to_nat i) b.

Definition Split (b : list byte) : rlp_error + (Kind * list byte * list byte) :=
  '(k, ts, cs) ← readKind b; inr (k, slice b ts (ts + cs), slice_from b (ts + cs)).

Definition SplitString (b : list byte) : rlp_error + (list byte * list byte) :=
  '(k, content, rest) ← Split b;
  if decide (k = List) then inl ErrExpectedString else inr (content, rest).

Definition SplitUint64 (b : list byte) : rlp_error + (Z * list byte) :=
  '(content, rest) ← SplitString b;
  match content with
  | [] => inr (0, rest)
  | [x] => if x =? 0 then inl ErrCanonInt else inr (x, rest)
  | _ => if 8 <? Z.of_nat (length content) then inl errUintOverflow
         else match readSize content (Z.of_nat (length content)) with
              | inr x => inr (x, rest)
              | inl _ => inl ErrCanonInt
              end
  end.

Definition SplitList (b : list byte) : rlp_error + (list byte * list byte) :=
  '(k, content, rest) ← Split b;
  if decide (k = List) then inr (content, rest) else inl ErrExpectedList.

(** [CountValues]: each round consumes at least one byte, so the length is enough fuel. *)
Fixpoint count_loop (fuel : nat) (i : Z) (b : list byte) : rlp_error + Z :=
  match b with
  | [] => inr i
  | _ => '(_, tagsize, size) ← readKind b;
         match fuel with
         | O => inr i
         | S fuel => count_loop fuel (i + 1) (slice_from b (tagsize + size))
         end
  end.
Definition CountValues (b : list byte) : rlp_error + Z := count_loop (length b) 0 b.

(** ** Reading a size *)

Lemma be_or_value l : bytes_ok l → be_or l = be_value l.
Proof.
  induction l as [|b l IH] using rev_ind; intros Hl; [done|].
  apply Forall_app in Hl as [Hl Hb]. rewrite Forall_singleton in Hb.
  unfold be_or. rewrite foldl_app. fold (be_or l). simpl. rewrite IH, be_value_snoc by done.
  by rewrite lor_shiftl.
Qed.

(** A size is accepted exactly when it is at least 56 and minimally encoded. *)
Lemma readSize_iff l slen s :
  bytes_ok l → 1 <= slen <= 8 →
  readSize l slen = inr s ↔
  56 <= s ∧ Z.of_nat (byte_len s) = slen ∧ ∃ r, l = be_min s ++ r.
Proof.
  intros Hl Hs. unfold readSize. destruct (Z.ltb_spec (Z.of_nat (length l)) slen) as [Hlt|Hge].
  { split; [done|]. intros (_ & <- & r & ->). rewrite length_app, be_min_length in Hlt. lia. }
  destruct (Z.leb_spec 1 slen), (Z.leb_spec slen 8); try lia. simpl.
  set (h := take (Z.to_nat slen) l).
  assert (bytes_ok h) as Hh by by apply Forall_take.
  assert (length h = Z.to_nat slen) as Lh by (apply length_take_le; lia).
  assert (l = h ++ drop (Z.to_nat slen) l) as El by (symmetry; apply take_drop).
  rewrite be_or_value by done. destruct h as [|x h'] eqn:Eh; [simpl in Lh; lia|].
  assert (l !!! 0%nat = x) as -> by (rewrite El; done).
  destruct (Z.ltb_spec (be_value (x :: h')) 56), (Z.eqb_spec x 0); simpl; split;
    try done; try (intros [= <-]; split_and!; try lia).
  all: try (intros (H56 & Hlen & r & Er);
    assert (x :: h' = be_min s) as E by
      (rewrite El in Er; apply app_inj_1 in Er as [-> _]; [done|]; rewrite be_min_length; lia)).
  - rewrite E, be_value_be_min in *; lia.
  - rewrite E, be_value_be_min in *; lia.
  - symmetry in E. apply be_min_head in E. lia.
  - rewrite <- be_min_length, be_min_be_value, Lh by done. lia.
  - exists (drop (Z.to_nat slen) l). rewrite be_min_be_value by done. done.
  - rewrite E, be_value_be_min by lia. done.
Qed.

(** ** The encodings [readKind] accepts *)

(** The header of a value of kind [k] with [n] bytes of content. *)
Definition kind_head (k : Kind) (n : Z) : list byte :=
  match k with
  | Byte => []
  | String => rlp_head 0x80 0xB7 n
  | List => rlp_head 0xC0 0xF7 n
  end.

(** The contents a value of kind [k] may have. *)
Definition kind_fits (k : Kind) (c : list byte) : bool :=
  match k with Byte => single_byte c | String => negb (single_byte c) | List => true end.

(** What the first bytes tell: the header is the canonical one of its kind and size. *)
Definition tag_ok (k : Kind) (ts cs : Z) (buf : list byte) : Prop :=
  0 <= cs < 2 ^ 64 ∧ ts = Z.of_nat (length (kind_head k cs)) ∧
  ∃ r, buf = kind_head k cs ++ r ∧
    match k with
    | Byte => cs = 1 ∧ ∃ x, head r = Some x ∧ x < 128
    | String => cs = 1 → ∀ x, head r = Some x → 128 <= x
    | List => True
    end.

Ltac tag_cases :=
  repeat match goal with
  | |- context [?x <? ?y] => destruct (Z.ltb_spec x y); try lia
  | |- context [?x =? ?y] => destruct (Z.eqb_spec x y); try lia
  end.

(** A size read from input is below [2^64]: it has at most eight bytes. *)
Lemma readSize_range l slen s :
  bytes_ok l → 1 <= slen <= 8 → readSize l slen = inr s → 56 <= s < 2 ^ 64.
Proof.
  intros Hl Hs (H56 & Hn & _)%readSize_iff; [|done|done]. split; [done|].
  pose proof (byte_len_spec s). assert (256 ^ Z.of_nat (byte_len s) <= 256 ^ 8)
    by (apply Z.pow_le_mono_r; lia). lia.
Qed.

Lemma read_tag_fwd b l k ts cs :
  bytes_ok (b :: l) → read_tag b (b :: l) = inr (k, ts, cs) → tag_ok k ts cs (b :: l).
Proof.
  intros [Hb Hl]%Forall_cons. unfold read_tag. change (drop 1 (b :: l)) with l.
  destruct (Z.ltb_spec b 0x80).
  { intros [= <- <- <-]. split_and!; [lia|lia|done|]. exists (b :: l). simpl. eauto. }
  destruct (Z.ltb_spec b 0xB8).
  { case_match eqn:Ht; [done|]. intros [= <- <- <-].
    assert (kind_head String (b - 0x80) = [b]) as Eh
      by (unfold kind_head, rlp_head; tag_cases; f_equal; lia).
    unfold tag_ok. rewrite Eh. split_and!; [lia|lia|done|]. exists l. split; [done|].
    intros E x. destruct l as [|y l]; [done|]. intros [= ->]. rewrite E in Ht.
    change ((b :: x :: l) !!! 1%nat) with x in Ht.
    destruct (Z.ltb_spec x 128); [|done]. simpl length in Ht.
    destruct (Z.ltb_spec 1 (Z.of_nat (S (S (length l))))); [done|lia]. }
  destruct (Z.ltb_spec b 0xC0); [|destruct (Z.ltb_spec b 0xF8)].
  - intros (s & Hs & [= <- <- <-])%err_bind_inr.
    assert (56 <= s < 2 ^ 64) by (eapply readSize_range, Hs; [done|lia]).
    apply readSize_iff in Hs as (H56 & Hn & r & ->); [|done|lia].
    unfold tag_ok, kind_head, rlp_head. tag_cases. rewrite be_min_length, Hn. simpl length.
    rewrite be_min_length. split_and!; [lia|lia|lia|]. exists r. split; [|lia].
    simpl. f_equal. lia.
  - intros [= <- <- <-]. unfold tag_ok, kind_head, rlp_head. tag_cases.
    split_and!; [lia|lia|done|]. exists l. split; [|done]. simpl. f_equal. lia.
  - intros (s & Hs & [= <- <- <-])%err_bind_inr.
    assert (56 <= s < 2 ^ 64) by (eapply readSize_range, Hs; [done|lia]).
    apply readSize_iff in Hs as (H56 & Hn & r & ->); [|done|lia].
    unfold tag_ok, kind_head, rlp_head. tag_cases. rewrite be_min_length, Hn. simpl length.
    rewrite be_min_length. split_and!; [lia|lia|lia|]. exists r. split; [|done].
    simpl. f_equal. lia.
Qed.

Lemma read_tag_bwd b l k ts cs :
  bytes_ok (b :: l) → tag_ok k ts cs (b :: l) → read_tag b (b :: l) = inr (k, ts, cs).
Proof.
  intros [Hb Hl]%Forall_cons (Hcs & -> & r & E & Hk). unfold read_tag. change (drop 1 (b :: l)) with l.
  destruct k; unfold kind_head, rlp_head in *.
  - destruct Hk as (-> & x & Hx & Hlt). simpl in E. subst r. injection Hx as ->. by tag_cases.
  - destruct (Z.ltb_spec cs 56).
    + injection E as -> ->. replace (0x80 + cs - 0x80) with cs by lia.
      destruct r as [|x r]; simpl length.
      * rewrite (proj2 (Z.ltb_ge 1 (Z.of_nat 1))), andb_false_r by lia. by tag_cases.
      * assert (cs = 1 → 128 <= x) by auto. change ((_ :: x :: r) !!! 1%nat) with x.
        tag_cases; simpl; done || lia.
    + pose proof (byte_len_le8 cs). rewrite be_min_length in *. injection E as -> ->.
      tag_cases. replace (0xB7 + Z.of_nat (byte_len cs) - 0xB7)
        with (Z.of_nat (byte_len cs)) by lia.
      rewrite (proj2 (readSize_iff _ (Z.of_nat (byte_len cs)) cs Hl ltac:(lia))) by eauto. simpl.
      rewrite be_min_length. do 3 f_equal. lia.
  - destruct (Z.ltb_spec cs 56).
    + injection E as -> ->. tag_cases. do 3 f_equal. lia.
    + pose proof (byte_len_le8 cs). rewrite be_min_length in *. injection E as -> ->.
      tag_cases. replace (0xF7 + Z.of_nat (byte_len cs) - 0xF7)
        with (Z.of_nat (byte_len cs)) by lia.
      rewrite (proj2 (readSize_iff _ (Z.of_nat (byte_len cs)) cs Hl ltac:(lia))) by eauto. simpl.
      rewrite be_min_length. do 3 f_equal. lia.
Qed.

(** ** Splitting inverts encoding and accepts nothing else *)

Lemma split_fits k (cs : Z) r :
  0 <= cs <= Z.of_nat (length r) →
  kind_fits k (take (Z.to_nat cs) r) = true ↔
  match k with
  | Byte => cs = 1 ∧ ∃ x, head r = Some x ∧ x < 128
  | String => cs = 1 → ∀ x, head r = Some x → 128 <= x
  | List => True
  end.
Proof.
  intros Hcs.
  assert (single_byte (take (Z.to_nat cs) r) = true ↔ cs = 1 ∧ ∃ x, head r = Some x ∧ x < 128)
    as Hs.
  { destruct r as [|x r]; [rewrite take_nil; simpl in *; naive_solver lia|].
    destruct (Z.to_nat cs) as [|[|n]] eqn:En; simpl.
    - split; [done | intros [-> _]; lia].
    - rewrite Z.ltb_lt. split; [intros; split; [lia|eauto] | intros [_ (y & [= ->] & ?)]; done].
    - destruct r; [simpl in *; lia|]. split; [done | intros [-> _]; lia]. }
  destruct k; simpl; [done| |done]. rewrite negb_true_iff, <- not_true_iff_false, Hs.
  split.
  - intros Hn E x Hx. destruct (Z.lt_ge_cases x 128); [|done]. naive_solver.
  - intros Hn [E (x & Hx & ?)]. specialize (Hn E x Hx). lia.
Qed.

(** The first value of [b] is [c] with kind [k]. *)
Definition first_value (b : list byte) (k : Kind) (c rest : list byte) : Prop :=
  kind_fits k c = true ∧ b = kind_head k (Z.of_nat (length c)) ++ c ++ rest.

Lemma readKind_iff b k ts cs :
  bytes_ok b → Z.of_nat (length b) < 2 ^ 64 →
  readKind b = inr (k, ts, cs) ↔
  ∃ c rest, first_value b k c rest ∧ cs = Z.of_nat (length c) ∧
            ts = Z.of_nat (length (kind_head k cs)).
Proof.
  intros Hok Hlen. unfold readKind, first_value. split.
  - destruct b as [|x l]; [done|]. intros ([[k' ts'] cs'] & Ht & Hc)%err_bind_inr.
    apply read_tag_fwd in Ht as (Hcs & -> & r & E & Hk); [|done].
    case_match eqn:Hlt; [done|]. injection Hc as -> <- ->. apply Z.ltb_ge in Hlt.
    rewrite E, length_app, u64_id in Hlt by (rewrite E, length_app in Hlen; unfold u64_ok; lia).
    exists (take (Z.to_nat cs) r), (drop (Z.to_nat cs) r).
    assert (Z.of_nat (length (take (Z.to_nat cs) r)) = cs) as -> by (rewrite length_take; lia).
    split_and!; [apply split_fits; [lia|done] | by rewrite take_drop | done | done].
  - intros (c & rest & [Hf E] & -> & ->).
    assert (kind_head k (Z.of_nat (length c)) ++ c ++ rest ≠ []) as Hne.
    { destruct k; [destruct c; [done|discriminate]| |];
        unfold kind_head, rlp_head; case_match; discriminate. }
    destruct b as [|x l]; [by destruct Hne|].
    rewrite (read_tag_bwd _ _ k (Z.of_nat (length (kind_head k (Z.of_nat (length c)))))
      (Z.of_nat (length c))); [|done|].
    + cbn [mbind err_bind]. rewrite E, !length_app in Hlen |- *. rewrite u64_id by (unfold u64_ok; lia).
      case_match eqn:Hlt; [|done]. apply Z.ltb_lt in Hlt. lia.
    + rewrite E, !length_app in Hlen. split_and!; [lia|lia|done|]. exists (c ++ rest).
      split; [done|]. apply (split_fits k _ (c ++ rest)); [rewrite length_app; lia|].
      by rewrite Nat2Z.id, take_app_length.
Qed.

Lemma Split_iff b k c rest :
  bytes_ok b → Z.of_nat (length b) < 2 ^ 64 →
  Split b = inr (k, c, rest) ↔ first_value b k c rest.
Proof.
  intros Hok Hlen.
  assert (∀ c' rest', first_value b k c' rest' →
    let ts := Z.of_nat (length (kind_head k (Z.of_nat (length c')))) in
    let cs := Z.of_nat (length c') in
    slice b ts (ts + cs) = c' ∧ slice_from b (ts + cs) = rest') as Hsl.
  { intros c' rest' [_ ->] ts cs. unfold slice, slice_from. subst ts cs.
    rewrite Z.add_simpl_l, <- Nat2Z.inj_add, !Nat2Z.id, drop_app_length, take_app_length.
    split; [done|]. by rewrite <- length_app, app_assoc, drop_app_length. }
  unfold Split. split.
  - intros ([[k' ts] cs] & Hk & [= -> <- <-])%err_bind_inr.
    apply readKind_iff in Hk as (c' & rest' & Hf & -> & ->); [|done|done].
    by destruct (Hsl _ _ Hf) as [-> ->].
  - intros Hf. destruct (Hsl _ _ Hf) as [E1 E2].
    rewrite (proj2 (readKind_iff b k _ _ Hok Hlen)) by eauto 6. simpl. by rewrite E1, E2.
Qed.

Lemma first_value_string b c rest :
  b = rlp_string c ++ rest ↔ first_value b Byte c rest ∨ first_value b String c rest.
Proof.
  unfold first_value. simpl. destruct (single_byte c) eqn:Es; simpl.
  - destruct c as [|x [|y c]]; simpl in *; try done. rewrite Es. naive_solver.
  - rewrite rlp_string_head, <- app_assoc by done. naive_solver.
Qed.

Lemma SplitString_iff b c rest :
  bytes_ok b → Z.of_nat (length b) < 2 ^ 64 →
  SplitString b = inr (c, rest) ↔ b = rlp_string c ++ rest.
Proof.
  intros Hok Hlen. rewrite first_value_string, <- !Split_iff by done. unfold SplitString.
  destruct (Split b) as [e|[[k' c'] rest']]; simpl; [naive_solver|].
  destruct (decide (k' = List)) as [->|]; [naive_solver|]. destruct k'; naive_solver.
Qed.

Lemma SplitString_ok b c rest :
  bytes_ok b → Z.of_nat (length b) < 2 ^ 64 → SplitString b = inr (c, rest) → bytes_ok c.
Proof.
  intros Hok Hlen Hs. apply SplitString_iff in Hs as ->; [|done|done].
  apply Forall_app in Hok as [Hok _]. revert Hok.
  destruct c as [|z [|y c]]; simpl; [constructor| |by intros [_ ?]%Forall_app].
  case_match; [done|]. by intros [_ ?]%Forall_cons.
Qed.

Lemma SplitList_iff b c rest :
  bytes_ok b → Z.of_nat (length b) < 2 ^ 64 →
  SplitList b = inr (c, rest) ↔ b = rlp_list c ++ rest.
Proof.
  intros Hok Hlen. unfold rlp_list. rewrite <- app_assoc.
  assert (first_value b List c rest ↔
    b = rlp_head 0xC0 0xF7 (Z.of_nat (length c)) ++ c ++ rest) as <-
    by (unfold first_value; simpl; naive_solver).
  rewrite <- Split_iff by done. unfold SplitList.
  destruct (Split b) as [e|[[k' c'] rest']]; simpl; [naive_solver|].
  destruct (decide (k' = List)) as [->|]; naive_solver.
Qed.

(** The integer reader on the content of a string. *)
Lemma readSize_whole c x :
  bytes_ok c → (2 <= length c <= 8)%nat →
  readSize c (Z.of_nat (length c)) = inr x ↔ c = be_min x.
Proof.
  intros Hc Hn. rewrite readSize_iff by (done || lia). split.
  - intros (_ & E & r & ->). rewrite length_app, be_min_length in E.
    destruct r; [by rewrite app_nil_r | simpl in E; lia].
  - intros ->. rewrite be_min_length in *. split_and!; [|done|by exists []; rewrite app_nil_r].
    assert (0 < x) as Hx by (unfold byte_len in Hn; destruct (Z.leb_spec x 0); lia).
    pose proof (byte_len_spec x Hx) as [Hs _].
    assert (256 ^ 1 <= 256 ^ (Z.of_nat (byte_len x) - 1)) by (apply Z.pow_le_mono_r; lia). lia.
Qed.

Lemma be_min_one y x : 0 <= x → be_min x = [y] ↔ x = y ∧ 0 < y < 256.
Proof.
  intros Hx. split.
  - intros E. pose proof (be_min_head _ _ _ E). pose proof (be_value_be_min x Hx) as Hv.
    rewrite E in Hv. unfold be_value in Hv. simpl in Hv. lia.
  - intros [-> Hy]. unfold be_min. rewrite (byte_len_unique y 1) by (simpl; lia). simpl.
    by rewrite Z.mod_small by lia.
Qed.

Lemma be_min_le8 x : u64_ok x → (length (be_min x) <= 8)%nat.
Proof.
  unfold u64_ok. intros Hx. rewrite be_min_length.
  destruct (decide (x = 0)) as [->|]; [change (byte_len 0) with 0%nat; lia|]. pose proof (byte_len_le8 x). lia.
Qed.

Lemma be_min_le8_inv c x : 0 <= x → c = be_min x → (length c <= 8)%nat → u64_ok x.
Proof.
  intros Hx -> Hn. destruct (decide (x = 0)) as [->|]; [done|]. pose proof (byte_len_spec x).
  rewrite be_min_length in Hn. assert (256 ^ Z.of_nat (byte_len x) <= 256 ^ 8)
    by (apply Z.pow_le_mono_r; lia). unfold u64_ok. lia.
Qed.

(** [SplitUint64] inverts [AppendUint64] and accepts only its outputs: it returns
    [x] and [rest] exactly when the input is the encoding of the 64-bit integer [x]
    followed by [rest].  Every non-canonical form is rejected. *)
Theorem SplitUint64_canonical b x rest :
  bytes_ok b → Z.of_nat (length b) < 2 ^ 64 → 0 <= x →
  SplitUint64 b = inr (x, rest) ↔ u64_ok x ∧ b = AppendUint64 [] x ++ rest.
Proof.
  intros Hok Hlen Hx.
  assert (u64_ok x ∧ b = AppendUint64 [] x ++ rest ↔ u64_ok x ∧ b = rlp_int x ++ rest) as ->.
  { split; intros [Hu ->]; (split; [done|]).
    all: rewrite AppendUint64_writeUint64, writeUint64_spec by done; done. }
  unfold rlp_int. rewrite <- SplitString_iff by done. unfold SplitUint64.
  destruct (SplitString b) as [e|[c r]] eqn:Es; simpl; [naive_solver|].
  pose proof (SplitString_ok b c r Hok Hlen Es) as Hc.
  assert (∀ y, inr (c, r) = inr (be_min y, rest) :> rlp_error + _ ↔ c = be_min y ∧ r = rest)
    as -> by naive_solver.
  destruct c as [|z [|y c]].
  - split.
    + intros [= <- <-]. done.
    + intros (_ & E & <-). pose proof (be_value_be_min x Hx) as Hv. rewrite <- E in Hv.
      unfold be_value in Hv. simpl in Hv. by subst.
  - apply Forall_cons in Hc as [Hc _].
    assert ([z] = be_min x ↔ x = z ∧ 0 < z < 256) as -> by (rewrite <- be_min_one; naive_solver).
    destruct (Z.eqb_spec z 0); unfold u64_ok; [naive_solver lia|].
    split; [intros [= <- <-]; split_and!; done || lia | intros (_ & (-> & _) & ->); done].
  - destruct (Z.ltb_spec 8 (Z.of_nat (length (z :: y :: c)))) as [Hlt|Hge].
    + split; [done|]. intros (Hu & E & _). apply be_min_le8 in Hu. rewrite <- E in Hu. lia.
    + assert (2 <= length (z :: y :: c) <= 8)%nat as Hn by (simpl in *; lia).
      pose proof (readSize_whole _ x Hc Hn) as Hr.
      destruct (readSize (z :: y :: c) _) as [e|x']; [naive_solver|].
      split.
      * intros [= -> ->]. assert (z :: y :: c = be_min x) as E by by apply Hr.
        split_and!; [|done|done]. eapply be_min_le8_inv; [done|exact E|lia].
      * intros (_ & E & ->). by apply Hr in E as [= ->].
Qed.

Lemma SplitUint64_canonical_witness :
  SplitUint64 [0x82; 0x04; 0x00; 0x07] = inr (1024, [0x07]) ↔
  u64_ok 1024 ∧ [0x82; 0x04; 0x00; 0x07] = AppendUint64 [] 1024 ++ [0x07].
Proof.
  apply (SplitUint64_canonical [0x82; 0x04; 0x00; 0x07] 1024 [0x07]).
  - repeat constructor; done.
  - done.
  - done.
Defined.

(** [Split] inverts the encoder on strings and lists followed by any bytes, and a
    slice it accepts is the canonical encoding of the content it returns: the header
    and the content it reports, followed by the rest, are the input. *)
Theorem Split_canonical b k c rest :
  bytes_ok b → Z.of_nat (length b) < 2 ^ 64 →
  Split b = inr (k, c, rest) ↔
  (k = List ∧ b = rlp_list c ++ rest ∨
   k = String ∧ single_byte c = false ∧ b = rlp_string c ++ rest ∨
   k = Byte ∧ single_byte c = true ∧ b = rlp_string c ++ rest).
Proof.
  intros Hok Hlen. rewrite Split_iff by done. unfold first_value, rlp_list.
  rewrite <- app_assoc. destruct k; simpl.
  - assert (single_byte c = true → rlp_string c = c) as Hc.
    { destruct c as [|x [|y c]]; simpl; try done. by intros ->. }
    split.
    + intros [Hs ->]. right. right. by rewrite Hc.
    + intros [[? _]|[[? _]|(_ & Hs & ->)]]; try done. by rewrite Hc.
  - rewrite negb_true_iff. split.
    + intros [Hs ->]. right. left. by rewrite rlp_string_head, <- app_assoc.
    + intros [[? _]|[(_ & Hs & ->)|[? _]]]; try done.
      by rewrite rlp_string_head, <- app_assoc.
  - naive_solver.
Qed.

Lemma Split_canonical_witness :
  Split [0xC3; 0x01; 0x81; 0x80; 0x05] = inr (List, [0x01; 0x81; 0x80], [0x05]).
Proof.
  apply (Split_canonical [0xC3; 0x01; 0x81; 0x80; 0x05] List).
  - repeat constructor; done.
  - done.
  - left. split; reflexivity.
Defined.

(** ** Encodings are injective *)

Lemma rlp_head_ok st lt n :
  0 <= st <= 200 → 0 <= lt <= 247 → 0 <= n < 2 ^ 64 → bytes_ok (rlp_head st lt n).
Proof.
  intros Hs Hl Hn. unfold rlp_head. destruct (Z.ltb_spec n 56).
  - repeat constructor; lia.
  - pose proof (byte_len_le8 n). rewrite be_min_length.
    constructor; [lia | apply be_bytes_ok].
Qed.

Lemma rlp_head_length_le st lt n : 0 <= n < 2 ^ 64 → (length (rlp_head st lt n) <= 9)%nat.
Proof.
  intros Hn. unfold rlp_head. destruct (Z.ltb_spec n 56); simpl; [lia|].
  pose proof (byte_len_le8 n). rewrite be_min_length. lia.
Qed.

Lemma rlp_string_length_le s :
  Z.of_nat (length s) < 2 ^ 64 → (length (rlp_string s) <= length s + 9)%nat.
Proof.
  intros Hs. destruct (single_byte s) eqn:E.
  - destruct s as [|x [|y s]]; simpl in *; try done. rewrite E. simpl. lia.
  - rewrite rlp_string_head, length_app by done.
    pose proof (rlp_head_length_le 0x80 0xB7 (Z.of_nat (length s))). lia.
Qed.

Lemma rlp_string_ok c : bytes_ok c → Z.of_nat (length c) < 2 ^ 64 → bytes_ok (rlp_string c).
Proof.
  intros Hc Hn. destruct (single_byte c) eqn:Es.
  - destruct c as [|x [|y c]]; simpl in *; try done. by rewrite Es.
  - rewrite rlp_string_head by done. apply Forall_app. split; [|done]. apply rlp_head_ok; lia.
Qed.

Lemma rlp_list_ok c : bytes_ok c → Z.of_nat (length c) < 2 ^ 64 → bytes_ok (rlp_list c).
Proof. intros Hc Hn. apply Forall_app. split; [|done]. apply rlp_head_ok; lia. Qed.

Definition strings_ok (cs : list (list byte)) : Prop :=
  Forall bytes_ok cs ∧ Z.of_nat (length (cs ≫= rlp_string)) < 2 ^ 64.

Lemma strings_ok_bytes cs : strings_ok cs → bytes_ok (cs ≫= rlp_string).
Proof.
  unfold strings_ok. intros [Hok Hlen]. induction Hok as [|c cs Hc _ IH]; [constructor|].
  rewrite bind_cons, length_app in *. pose proof (rlp_string_length c).
  apply Forall_app. split; [apply rlp_string_ok; [done|lia] | apply IH; lia].
Qed.

Lemma rlp_string_not_nil c : rlp_string c ≠ [].
Proof.
  destruct c as [|x [|y c]]; unfold rlp_string; [done|by case_match|].
  unfold rlp_head. by case_match.
Qed.

(** A concatenation of encoded strings determines the strings. *)
Lemma rlp_strings_inj cs ds :
  strings_ok cs → strings_ok ds → cs ≫= rlp_string = ds ≫= rlp_string → cs = ds.
Proof.
  revert ds. induction cs as [|c cs IH]; intros ds Hc Hd E.
  - destruct ds as [|d ds]; [done|]. rewrite bind_cons in E.
    destruct (rlp_string d) eqn:Ed; [by destruct (rlp_string_not_nil d)|done].
  - destruct ds as [|d ds].
    + rewrite bind_cons in E.
      destruct (rlp_string c) eqn:Ed; [by destruct (rlp_string_not_nil c)|done].
    + pose proof (strings_ok_bytes _ Hc) as Hb. destruct Hc as [Hc Hlc], Hd as [Hd Hld].
      rewrite !bind_cons in *.
      assert (SplitString (rlp_string c ++ (cs ≫= rlp_string)) = inr (c, cs ≫= rlp_string)) as S1
        by by apply SplitString_iff.
      assert (SplitString (rlp_string c ++ (cs ≫= rlp_string)) = inr (d, ds ≫= rlp_string)) as S2
        by by apply SplitString_iff.
      rewrite S1 in S2. injection S2 as <- E'. f_equal.
      apply Forall_cons in Hc as [_ Hc], Hd as [_ Hd]. rewrite length_app in *.
      apply IH; [split; [done|lia]..|done].
Qed.

Lemma rlp_list_inj c d :
  bytes_ok c → Z.of_nat (length (rlp_list c)) < 2 ^ 64 → rlp_list c = rlp_list d → c = d.
Proof.
  intros Hc Hn E. assert (Z.of_nat (length c) < 2 ^ 64) by (unfold rlp_list in Hn;
    rewrite length_app in Hn; lia).
  assert (bytes_ok (rlp_list c)) as Hb by by apply rlp_list_ok.
  assert (SplitList (rlp_list c) = inr (c, [])) as S1
    by (apply SplitList_iff; [done|done|by rewrite app_nil_r]).
  assert (SplitList (rlp_list c) = inr (d, [])) as S2
    by (apply SplitList_iff; [done|done|by rewrite app_nil_r]).
  congruence.
Qed.

(** ** Counting values *)

Definition kind_enc (v : Kind * list byte) : list byte :=
  kind_head v.1 (Z.of_nat (length v.2)) ++ v.2.

Lemma kind_enc_nonempty v : kind_fits v.1 v.2 = true → (1 <= length (kind_enc v))%nat.
Proof.
  destruct v as [k c]. unfold kind_enc. cbn [fst snd]. rewrite length_app.
  destruct k; [destruct c; [done | simpl; lia]| |];
    unfold kind_head, rlp_head; case_match; simpl; lia.
Qed.

Lemma first_value_enc b k c rest :
  first_value b k c rest ↔ kind_fits k c = true ∧ b = kind_enc (k, c) ++ rest.
Proof. unfold first_value, kind_enc. by rewrite <- app_assoc. Qed.

Lemma count_loop_cons fuel i b :
  b ≠ [] → count_loop (S fuel) i b
  = '(_, _, rest) ← Split b; count_loop fuel (i + 1) rest.
Proof.
  intros Hb. destruct b as [|x l]; [done|]. cbn [count_loop]. unfold Split.
  by destruct (readKind (x :: l)) as [e|[[k ts] cs]].
Qed.

Lemma count_loop_iff fuel : ∀ i n b,
  bytes_ok b → Z.of_nat (length b) < 2 ^ 64 → (length b <= fuel)%nat →
  count_loop fuel i b = inr n ↔
  ∃ vs, Forall (λ v, kind_fits v.1 v.2 = true) vs ∧ b = vs ≫= kind_enc ∧
        n = i + Z.of_nat (length vs).
Proof.
  assert (∀ vs : list (Kind * list byte), Forall (λ v, kind_fits v.1 v.2 = true) vs →
    [] = vs ≫= kind_enc → vs = []) as Hnil.
  { intros [|v vs] Hv E; [done|]. apply Forall_cons in Hv as [Hv%kind_enc_nonempty _].
    simpl in E. destruct (kind_enc v); [simpl in Hv; lia | done]. }
  induction fuel as [|fuel IH]; intros i n b Hok Hlen Hf.
  all: destruct (decide (b = [])) as [->|Hb];
    [|try (destruct b; simpl in Hf; [done|lia])].
  1,2: split; [intros [= <-]; exists []; simpl; split_and!; [constructor|done|lia]
    | intros (vs & Hv & E & ->); rewrite (Hnil vs Hv E); simpl; f_equal; lia].
  rewrite count_loop_cons by done. split.
  - intros ([[k c] rest] & Hs & Hc)%err_bind_inr.
    apply Split_iff, first_value_enc in Hs as [Hfit ->]; [|done|done].
    pose proof (kind_enc_nonempty (k, c) Hfit). rewrite length_app in *.
    apply Forall_app in Hok as [_ Hok].
    apply IH in Hc as (vs & Hv & -> & ->); [|done|lia|lia].
    exists ((k, c) :: vs). split_and!; [by constructor|done|simpl; lia].
  - intros ([|[k c] vs] & Hv & -> & ->); [done|]. apply Forall_cons in Hv as [Hfit Hv].
    rewrite bind_cons in *. rewrite (proj2 (Split_iff _ k c (vs ≫= kind_enc) Hok Hlen))
      by by apply first_value_enc.
    pose proof (kind_enc_nonempty (k, c) Hfit). rewrite length_app in *.
    apply Forall_app in Hok as [_ Hok].
    cbn [mbind err_bind]. apply IH; [done|lia|lia|]. exists vs.
    split_and!; [done|done|simpl; lia].
Qed.

(** [CountValues] returns [n] exactly on the concatenations of [n] canonical
    encodings, and it always returns (the loop runs at most once per input byte). *)
Theorem CountValues_iff b n :
  bytes_ok b → Z.of_nat (length b) < 2 ^ 64 →
  CountValues b = inr n ↔
  ∃ vs, Forall (λ v, kind_fits v.1 v.2 = true) vs ∧ b = vs ≫= kind_enc ∧
        n = Z.of_nat (length vs).
Proof. intros Hok Hlen. by apply count_loop_iff. Qed.

Lemma CountValues_iff_witness : CountValues [0x01; 0x82; 0x02; 0x03; 0xC0] = inr 3.
Proof.
  apply (CountValues_iff [0x01; 0x82; 0x02; 0x03; 0xC0] 3).
  - repeat constructor; done.
  - done.
  - exists [(Byte, [0x01]); (String, [0x02; 0x03]); (List, [])].
    split_and!; [repeat constructor | reflexivity | reflexivity].
Defined.
