(* ===== verification/RlpStruct.v ===== *)
(** * The struct rules of the RLP codec: rlp/internal/rlpstruct and rlp/typecache.go

    The writer of a Go type is built once, from the type.  This file models the part that
    decides whether a type has a writer at all: the processing of struct fields and their
    [rlp] tags ([ProcessFields], [parseTag]), the conversion of a reflected type
    ([rtypeToStructType]), and the errors of [makeWriter] and the writer constructors it
    calls.  [Encode_typed] is [rlp.Encode] with that check in front of the writers of
    [RlpEncode].  A field's tag is the list of its key/value pairs, as
    [reflect.StructTag.Get] reads them. *)
From S2P Require Import Prelude Bytes RlpEncode.
From stdpp Require Import strings.
From Stdlib Require Import Ascii.

Open Scope Z_scope.

(** ** [reflect.Kind] *)

Module Kind.
Definition Bool : Z := 1.
Definition Uint : Z := 7.
Definition Uint8 : Z := 8.
Definition Uint64 : Z := 11.
Definition Uintptr : Z := 12.
Definition Array : Z := 17.
Definition Interface : Z := 20.
Definition Map : Z := 21.
Definition Ptr : Z := 22.
Definition Slice : Z := 23.
Definition String : Z := 24.
Definition Struct : Z := 25.
End Kind.

(** ** rlpstruct *)

Inductive StructType := mkStructType {
  st_Name : string;
  st_Kind : Z;
  st_IsEncoder : bool; (* whether type implements rlp.Encoder *)
  st_IsDecoder : bool; (* whether type implements rlp.Decoder *)
  st_Elem : option StructType; (* non-nil for Kind values of Ptr, Slice, Array *)
}.

Record Field := mkField {
  fd_Name : string;
  fd_Index : nat;
  fd_Exported : bool;
  fd_Type : StructType;
  fd_Tag : list (string * string);
}.

Definition NilKindString : byte := 0x80.
Definition NilKindList : byte := 0xC0.

Record Tags := mkTags {
  tg_NilKind : byte;
  tg_NilOK : bool;
  tg_Optional : bool;
  tg_Tail : bool;
  tg_Ignored : bool;
}.

Record TagError := mkTagError {
  te_StructType : string;
  te_Field : string;
  te_Tag : string;
  te_Err : string;
}.

Definition isUint (k : Z) : bool := (Kind.Uint <=? k) && (k <=? Kind.Uintptr).
Definition isByte (typ : StructType) : bool := (st_Kind typ =? Kind.Uint8) && negb (st_IsEncoder typ).

(** [isByteArray] dereferences [Elem], which is set for slices and arrays. *)
Definition isByteArray (typ : StructType) : bool :=
  ((st_Kind typ =? Kind.Slice) || (st_Kind typ =? Kind.Array)) &&
  match st_Elem typ with Some e => isByte e | None => false end.

Definition DefaultNilValue (t : StructType) : byte :=
  let k := st_Kind t in
  if isUint k || (k =? Kind.String) || (k =? Kind.Bool) || isByteArray t
  then NilKindString else NilKindList.

(** [strings.Split(s, ",")]: one more piece than there are commas. *)
Fixpoint split_comma (s : string) : list string :=
  match s with
  | EmptyString => [EmptyString]
  | String c s =>
      match split_comma s with
      | [] => [] (* the result is never empty *)
      | t :: ts => if Ascii.eqb c ","%char then EmptyString :: t :: ts else String c t :: ts
      end
  end.

(** [strings.TrimSpace] on ASCII text. *)
Definition is_space (c : ascii) : bool :=
  let n := Z.of_nat (nat_of_ascii c) in (n =? 32) || ((9 <=? n) && (n <=? 13)).
Fixpoint trim_left (s : string) : string :=
  match s with
  | String c s' => if is_space c then trim_left s' else s
  | EmptyString => EmptyString
  end.
Fixpoint trim_right (s : string) : string :=
  match s with
  | String c s' =>
      match trim_right s' with
      | EmptyString => if is_space c then EmptyString else String c EmptyString
      | t => String c t
      end
  | EmptyString => EmptyString
  end.
Definition TrimSpace (s : string) : string := trim_right (trim_left s).

(** [reflect.StructTag.Get]: the value of the first pair with the key, or the empty
    string. *)
Fixpoint tag_Get (tag : list (string * string)) (key : string) : string :=
  match tag with
  | [] => EmptyString
  | (k, v) :: tag => if String.eqb k key then v else tag_Get tag key
  end.

(** The verb [%q] on a plain ASCII name. *)
Definition quote (s : string) : string :=
  let q := String (ascii_of_nat 34) EmptyString in q +:+ s +:+ q.

(** One round of the loop of [parseTag]: the switch on the trimmed tag [t]. *)
Definition parse_one (field : Field) (lastPublic : nat) (t : string) (ts : Tags)
  : TagError + Tags :=
  let fail t msg := inl (mkTagError "" (fd_Name field) t msg) in
  if String.eqb t "" then inr ts
  else if String.eqb t "-" then
    inr (mkTags (tg_NilKind ts) (tg_NilOK ts) (tg_Optional ts) (tg_Tail ts) true)
  else if String.eqb t "nil" || String.eqb t "nilString" || String.eqb t "nilList" then
    if negb (st_Kind (fd_Type field) =? Kind.Ptr) then fail t "field is not a pointer"
    else
      let nk := if String.eqb t "nil" then
                  from_option DefaultNilValue NilKindList (st_Elem (fd_Type field))
                else if String.eqb t "nilString" then NilKindString else NilKindList in
      inr (mkTags nk true (tg_Optional ts) (tg_Tail ts) (tg_Ignored ts))
  else if String.eqb t "optional" then
    if tg_Tail ts then fail t ("also has " +:+ quote "tail" +:+ " tag")
    else inr (mkTags (tg_NilKind ts) (tg_NilOK ts) true (tg_Tail ts) (tg_Ignored ts))
  else if String.eqb t "tail" then
    if negb (Nat.eqb (fd_Index field) lastPublic) then fail t "must be on last field"
    else if tg_Optional ts then fail t ("also has " +:+ quote "optional" +:+ " tag")
    else if negb (st_Kind (fd_Type field) =? Kind.Slice) then fail t "field type is not slice"
    else inr (mkTags (tg_NilKind ts) (tg_NilOK ts) (tg_Optional ts) true (tg_Ignored ts))
  else fail t "unknown tag".

Fixpoint parse_tags (field : Field) (lastPublic : nat) (l : list string) (ts : Tags)
  : TagError + Tags :=
  match l with
  | [] => inr ts
  | t :: l => ts ← parse_one field lastPublic (TrimSpace t) ts; parse_tags field lastPublic l ts
  end.

Definition no_tags : Tags := mkTags 0 false false false false.

Definition parseTag (field : Field) (lastPublic : nat) : TagError + Tags :=
  parse_tags field lastPublic (split_comma (tag_Get (fd_Tag field) "rlp")) no_tags.

Definition lastPublicField (fields : list Field) : nat :=
  foldl (λ last f, if fd_Exported f then fd_Index f else last) 0%nat fields.

(** The first loop of [ProcessFields]: the exported, not ignored fields and their tags. *)
Fixpoint gather_fields (lastPublic : nat) (l : list Field) : TagError + list (Field * Tags) :=
  match l with
  | [] => inr []
  | field :: l =>
      if negb (fd_Exported field) then gather_fields lastPublic l
      else
        ts ← parseTag field lastPublic;
        rest ← gather_fields lastPublic l;
        inr (if tg_Ignored ts then rest else (field, ts) :: rest)
  end.

(** The second loop: every field after an optional one is optional. *)
Definition is_optional (ts : Tags) : bool := tg_Optional ts || tg_Tail ts.
Fixpoint check_optional (anyOptional : bool) (firstOptionalName : string)
    (l : list (Field * Tags)) : option TagError :=
  match l with
  | [] => None
  | (field, ts) :: l =>
      let name := fd_Name field in
      if is_optional ts then
        check_optional true (if negb anyOptional then name else firstOptionalName) l
      else if anyOptional then
        Some (mkTagError "" name ""
          ("must be optional because preceding field " +:+ quote firstOptionalName
             +:+ " is optional"))
      else check_optional anyOptional firstOptionalName l
  end.

Definition ProcessFields (allFields : list Field) : TagError + list (Field * Tags) :=
  fields ← gather_fields (lastPublicField allFields) allFields;
  match check_optional false "" fields with
  | Some e => inl e
  | None => inr fields
  end.

(** ** The type cache *)

(** A reflected type as [makeWriter] looks at it: whether it is one of the types with a
    writer of their own, whether the type and the pointer to it implement [rlp.Encoder] and
    [rlp.Decoder], the element type, and the fields with name, exportedness and tag. *)
Inductive own_writer := OwnRaw | OwnBigPtr | OwnBig | OwnU256Ptr | OwnU256.

Inductive RType := mkRType {
  rt_String : string;
  rt_Kind : Z;
  rt_own : option own_writer;
  rt_IsEncoder : bool;
  rt_IsDecoder : bool;
  rt_PtrIsEncoder : bool;
  rt_PtrIsDecoder : bool;
  rt_Len : nat; (* of an array *)
  rt_NumMethod : nat; (* of an interface *)
  rt_Elem : option RType;
  rt_Field : list (string * bool * list (string * string) * RType);
}.

(** [rtypeToStructType] (a type that contains itself is cut off by a cache there and does
    not occur here). *)
Fixpoint rtypeToStructType (typ : RType) : StructType :=
  mkStructType (rt_String typ) (rt_Kind typ) (rt_IsEncoder typ) (rt_IsDecoder typ)
    (if (rt_Kind typ =? Kind.Array) || (rt_Kind typ =? Kind.Slice) || (rt_Kind typ =? Kind.Ptr)
     then match rt_Elem typ with Some e => Some (rtypeToStructType e) | None => None end
     else None).

Definition typeNilKind (typ : RType) (tags : Tags) : byte :=
  if tg_NilOK tags then tg_NilKind tags else DefaultNilValue (rtypeToStructType typ).

(** The fields of a struct type as [structFields] hands them to [ProcessFields]. *)
Definition all_struct_fields (typ : RType) : list Field :=
  imap (λ i '(name, exported, tag, ft), mkField name i exported (rtypeToStructType ft) tag)
       (rt_Field typ).

(** [structFields]: index, tags of the fields to write; the error carries the struct's
    name. *)
Definition structFields (typ : RType) : TagError + list (nat * Tags) :=
  match ProcessFields (all_struct_fields typ) with
  | inl e => inl (mkTagError (rt_String typ) (te_Field e) (te_Tag e) (te_Err e))
  | inr fields => inr ((λ '(f, ts), (fd_Index f, ts)) <$> fields)
  end.

Fixpoint firstOptionalField (fields : list (nat * Tags)) : nat :=
  match fields with
  | [] => 0
  | (_, ts) :: fields => if tg_Optional ts then 0 else S (firstOptionalField fields)
  end.

(** The errors a writer constructor returns. *)
Inductive writer_error :=
| NotSerializable (typ : string)
| BadTag (e : TagError)
| StructFieldError (typ : string) (field : nat) (err : writer_error).

Definition is_byte_type (typ : RType) : bool :=
  (rt_Kind typ =? Kind.Uint8) && negb (rt_IsEncoder typ).

(** [makeStructWriter]'s check: the first field to write whose type has no writer, from
    the errors of the types of all fields. *)
Definition first_field_error (typ : RType) (fields : list (nat * Tags))
    (errs : list (option writer_error)) : option writer_error :=
  head (omap (λ '(i, _), StructFieldError (rt_String typ) i <$> mjoin (errs !! i)) fields).

(** The error of [makeWriter] on a type, with those of [makePtrWriter],
    [makeSliceWriter] and [makeStructWriter] (the tags only select among writers). *)
Fixpoint makeWriter_err (typ : RType) : option writer_error :=
  let kind := rt_Kind typ in
  let elem_err := match rt_Elem typ with Some e => makeWriter_err e | None => None end in
  match rt_own typ with
  | Some _ => None
  | None =>
      if kind =? Kind.Ptr then elem_err
      else if rt_PtrIsEncoder typ then None
      else if isUint kind || (kind =? Kind.Bool) || (kind =? Kind.String) then None
      else if ((kind =? Kind.Slice) || (kind =? Kind.Array)) &&
              from_option is_byte_type false (rt_Elem typ) then None
      else if (kind =? Kind.Slice) || (kind =? Kind.Array) then elem_err
      else if kind =? Kind.Struct then
        match structFields typ with
        | inl e => Some (BadTag e)
        | inr fields =>
            first_field_error typ fields
              (map (λ '(_, _, _, ft), makeWriter_err ft) (rt_Field typ))
        end
      else if kind =? Kind.Interface then None
      else Some (NotSerializable (rt_String typ))
  end.

(** [rlp.Encode] of a value of type [typ]: [cachedWriter] is asked first. *)
Definition Encode_typed (typ : RType) (v : GoValue) : list byte * option (writer_error + rlp_error) :=
  match makeWriter_err typ with
  | Some e => ([], Some (inl e))
  | None => let '(out, err) := Encode v in (out, inr <$> err)
  end.

(** ** What a struct type with a writer looks like *)

(** The fields before the first optional one, the optional ones, and a final tail. *)
Definition plain (ts : Tags) : Prop := tg_Optional ts = false ∧ tg_Tail ts = false.
Definition only_optional (ts : Tags) : Prop := tg_Optional ts = true ∧ tg_Tail ts = false.
Definition only_tail (ts : Tags) : Prop := tg_Optional ts = false ∧ tg_Tail ts = true.

Definition index_lt (f g : Field) : Prop := (fd_Index f < fd_Index g)%nat.

Lemma all_struct_fields_sorted typ : StronglySorted index_lt (all_struct_fields typ).
Proof.
  unfold all_struct_fields. generalize (rt_Field typ) as l. intros l.
  change (λ i '(name, exported, tag, ft), mkField name i exported (rtypeToStructType ft) tag)
    with (λ i, (λ k '(name, exported, tag, ft),
                  mkField name k exported (rtypeToStructType ft) tag) (0 + i)%nat).
  generalize 0%nat as k. induction l as [|[[[n e] t] ft] l IH]; intros k; simpl; constructor.
  - eapply (eq_ind _ (StronglySorted index_lt) (IH (S k))). apply imap_ext.
    intros i [[[??]?]?] _. simpl. f_equal. lia.
  - apply Forall_forall. intros f (i & [[[??]?]?] & -> & _)%elem_of_lookup_imap_1.
    unfold index_lt. simpl. lia.
Qed.

(** A field tagged as tail: the last exported one, a slice, and not optional. *)
Definition tail_field (f : Field) (lp : nat) (ts : Tags) : Prop :=
  tg_Optional ts = false ∧ fd_Index f = lp ∧ st_Kind (fd_Type f) = Kind.Slice.

Lemma parse_one_tail f lp t ts ts' :
  (tg_Tail ts = true → tail_field f lp ts) →
  parse_one f lp t ts = inr ts' → tg_Tail ts' = true → tail_field f lp ts'.
Proof.
  intros Hts E. unfold parse_one in E.
  repeat match type of E with
  | context [if ?b then _ else _] => destruct b eqn:?
  end; simplify_eq/=; try done; intros Ht; simplify_eq/=; try (by apply Hts).
  split_and!; [done | by apply Nat.eqb_eq, negb_false_iff | by apply Z.eqb_eq, negb_false_iff].
Qed.

Lemma parseTag_tail f lp ts :
  parseTag f lp = inr ts → tg_Tail ts = true → tail_field f lp ts.
Proof.
  unfold parseTag. generalize (split_comma (tag_Get (fd_Tag f) "rlp")) as l.
  assert (tg_Tail no_tags = true → tail_field f lp no_tags) as H by done.
  revert H. generalize no_tags as t0. intros t0 H l. revert t0 H.
  induction l as [|t l IH]; intros t0 H E; simplify_eq/=; [done|].
  destruct (parse_one f lp (TrimSpace t) t0) eqn:E1; simplify_eq/=.
  eapply IH; [|done]. by eapply parse_one_tail.
Qed.

Lemma lastPublicField_max l f :
  StronglySorted index_lt l → f ∈ l → fd_Exported f = true → (fd_Index f <= lastPublicField l)%nat.
Proof.
  intros Hl Hf He. induction l as [|x l IH] using rev_ind; [set_solver|].
  apply StronglySorted_app in Hl as (Hlx & Hl & _).
  unfold lastPublicField in *. rewrite foldl_snoc.
  apply elem_of_app in Hf as [Hf|Hf]; [|apply list_elem_of_singleton in Hf as <-; by rewrite He].
  destruct (fd_Exported x); [|by apply IH].
  assert (index_lt f x) by (apply Hlx; set_solver). unfold index_lt in *. lia.
Qed.

Lemma gather_fields_spec lp l fs :
  gather_fields lp l = inr fs →
  sublist fs.*1 l ∧
  Forall (λ '(f, ts), fd_Exported f = true ∧ parseTag f lp = inr ts ∧ tg_Ignored ts = false) fs.
Proof.
  revert fs. induction l as [|f l IH]; intros fs E; simplify_eq/=; [by split|].
  destruct (fd_Exported f) eqn:He; simpl in E.
  - destruct (parseTag f lp) as [|ts] eqn:Ep; simplify_eq/=.
    destruct (gather_fields lp l) as [|rest]; simplify_eq/=.
    destruct (IH rest eq_refl) as [Hs Hf].
    destruct (tg_Ignored ts) eqn:Ei; [by split; [constructor|]|].
    split; [simpl; by constructor | by constructor].
  - destruct (IH fs E). split; [by constructor | done].
Qed.

Lemma check_optional_true name l :
  check_optional true name l = None ↔ Forall (λ ft, is_optional ft.2 = true) l.
Proof.
  revert name. induction l as [|[f ts] l IH]; intros name; simpl; [done|].
  rewrite Forall_cons. simpl. destruct (is_optional ts); [rewrite IH; naive_solver|].
  split; [done | naive_solver].
Qed.

Lemma check_optional_iff name l :
  check_optional false name l = None ↔
  ∃ req opt, l = req ++ opt ∧ Forall (λ ft, is_optional ft.2 = false) req ∧
    Forall (λ ft, is_optional ft.2 = true) opt.
Proof.
  revert name. induction l as [|[f ts] l IH]; intros name; simpl.
  { split; [by exists [], [] | done]. }
  destruct (is_optional ts) eqn:E.
  - rewrite check_optional_true. split.
    + intros Hl. exists [], ((f, ts) :: l). by repeat constructor.
    + intros ([|[f' ts'] req] & opt & Hl & Hr & Ho); simplify_eq/=.
      { by apply Forall_cons in Ho as [_ ?]. }
      apply Forall_cons in Hr as [Hr _]. simpl in Hr. congruence.
  - rewrite IH. split.
    + intros (req & opt & -> & Hr & Ho). exists ((f, ts) :: req), opt. by repeat constructor.
    + intros ([|[f' ts'] req] & opt & Hl & Hr & Ho); simplify_eq/=.
      { apply Forall_cons in Ho as [Ho _]. simpl in Ho. congruence. }
      exists req, opt. by apply Forall_cons in Hr as [_ ?].
Qed.

(** The optional fields of a struct that passed the check, cut before a final tail. *)
Lemma optional_fields_shape lp (opt : list (Field * Tags)) :
  StronglySorted index_lt opt.*1 →
  Forall (λ '(f, ts), (fd_Index f <= lp)%nat ∧ parseTag f lp = inr ts) opt →
  Forall (λ ft, is_optional ft.2 = true) opt →
  ∃ o t, opt = o ++ t ∧ Forall (λ ft, only_optional ft.2) o ∧
    (length t <= 1)%nat ∧ Forall (λ '(f, ts), only_tail ts ∧ tail_field f lp ts) t.
Proof.
  intros Hs Hp Ho. induction opt as [|[f ts] opt IH].
  { exists [], []. split_and!; [done..| |done]. simpl. lia. }
  rewrite fmap_cons in Hs. apply StronglySorted_inv in Hs as [Hs Hlt].
  apply Forall_cons in Hp as [[Hle Hpt] Hp]. apply Forall_cons in Ho as [Hopt Ho]. simpl in Hopt.
  destruct (tg_Tail ts) eqn:Et.
  - pose proof (parseTag_tail f lp ts Hpt Et) as Htf.
    destruct opt as [|[g tg] opt].
    + exists [], [(f, ts)]. split_and!; [done..|].
      apply Forall_singleton. split; [split; [apply Htf | done] | done].
    + apply Forall_cons in Hp as [[Hg _] _]. simpl in Hlt. apply Forall_cons in Hlt as [Hlt _].
      destruct Htf as (_ & Hi & _). unfold index_lt in Hlt. simpl in *. lia.
  - destruct (IH Hs Hp Ho) as (o & t & -> & Hoo & Hlen & Ht).
    exists ((f, ts) :: o), t. split_and!; [done| |done..].
    constructor; [|done]. unfold only_optional, is_optional in *. simpl.
    rewrite Et, orb_false_r in Hopt. done.
Qed.

Lemma StronglySorted_sublist {A} (R : relation A) l k :
  sublist l k → StronglySorted R k → StronglySorted R l.
Proof.
  induction 1 as [|x l k Hs IH|x l k Hs IH]; intros Hk; [constructor| |];
    apply StronglySorted_inv in Hk as [Hk Hx]; [|by apply IH].
  constructor; [by apply IH|]. apply Forall_forall. intros y Hy.
  rewrite Forall_forall in Hx. apply Hx. by eapply elem_of_sublist.
Qed.

Lemma ProcessFields_shape all fs :
  StronglySorted index_lt all → ProcessFields all = inr fs →
  sublist fs.*1 all ∧ Forall (λ f, fd_Exported f.1 = true) fs ∧
  ∃ req opt tl, fs = req ++ opt ++ tl ∧
    Forall (λ ft, plain ft.2) req ∧ Forall (λ ft, only_optional ft.2) opt ∧
    (length tl <= 1)%nat ∧
    Forall (λ '(f, ts), only_tail ts ∧ tail_field f (lastPublicField all) ts) tl.
Proof.
  intros Hall E. unfold ProcessFields in E.
  destruct (gather_fields _ all) as [|fs'] eqn:Eg; simplify_eq/=.
  destruct (check_optional false "" fs') eqn:Ec; simplify_eq/=.
  apply gather_fields_spec in Eg as [Hsub Hf].
  apply check_optional_iff in Ec as (req & opt & -> & Hr & Ho).
  split; [done|]. split; [by eapply Forall_impl; [exact Hf | intros [f ts] []]|].
  pose proof (StronglySorted_sublist _ _ _ Hsub Hall) as Hsort.
  rewrite fmap_app in Hsort. apply StronglySorted_app in Hsort as (_ & _ & Hsort).
  destruct (optional_fields_shape (lastPublicField all) opt) as (o & t & -> & ? & ? & ?); [done| |done|].
  - apply Forall_app in Hf as [_ Hf]. rewrite Forall_forall in Hf |- *.
    intros [f ts] Hin. destruct (Hf _ Hin) as (He & Hp & _). split; [|done].
    apply lastPublicField_max; [done| |done]. eapply elem_of_sublist; [|exact Hsub].
    apply list_elem_of_fmap. exists (f, ts). set_solver.
  - exists req, o, t. split_and!; [done| |done..].
    eapply Forall_impl; [exact Hr|]. intros [f ts] Hi. by apply orb_false_iff in Hi.
Qed.

Lemma firstOptionalField_shape (req opt : list (nat * Tags)) :
  Forall (λ ft, tg_Optional ft.2 = false) req →
  match opt with [] => True | (_, ts) :: _ => tg_Optional ts = true end →
  firstOptionalField (req ++ opt) = length req.
Proof.
  induction req as [|[i ts] req IH]; simpl; intros Hr Ho.
  - destruct opt as [|[i ts] opt]; [done|]. simpl. by rewrite Ho.
  - apply Forall_cons in Hr as [Hr1 Hr]. simpl in Hr1. rewrite Hr1. f_equal. by apply IH.
Qed.

(** The shape of a struct type the codec accepts.  [structFields] returns fields in
    declaration order, all exported: first the plain ones, then the optional ones, then at
    most one tail, which is the last exported field and a slice; so the index that
    [firstOptionalField] returns splits the list into mandatory and optional fields. *)
Lemma structFields_shape typ fields :
  structFields typ = inr fields →
  StronglySorted lt fields.*1 ∧
  (∀ i, i ∈ fields.*1 → ∃ name tag ft, rt_Field typ !! i = Some (name, true, tag, ft)) ∧
  ∃ req opt tl, fields = req ++ opt ++ tl ∧
    Forall (λ f, plain f.2) req ∧ Forall (λ f, only_optional f.2) opt ∧
    (length tl <= 1)%nat ∧
    Forall (λ f, only_tail f.2 ∧ f.1 = lastPublicField (all_struct_fields typ) ∧
                 rt_Kind <$> (snd <$> rt_Field typ !! f.1) = Some Kind.Slice) tl ∧
    (opt ≠ [] → firstOptionalField fields = length req) ∧
    (opt = [] → firstOptionalField fields = length fields).
Proof.
  unfold structFields. destruct (ProcessFields _) as [|fs] eqn:E; intros; simplify_eq/=.
  pose proof (all_struct_fields_sorted typ) as Hall.
  destruct (ProcessFields_shape _ _ Hall E) as (Hsub & He & req & opt & tl & -> & Hr & Ho & Hlen & Ht).
  assert (∀ ft, ft ∈ req ++ opt ++ tl →
    ∃ name tag rt, rt_Field typ !! fd_Index ft.1 = Some (name, true, tag, rt) ∧
                   rtypeToStructType rt = fd_Type ft.1) as Hin.
  { intros ft Hft. rewrite Forall_forall in He. specialize (He _ Hft).
    assert (ft.1 ∈ all_struct_fields typ) as Hx
      by (eapply elem_of_sublist; [|exact Hsub]; by apply list_elem_of_fmap_2).
    apply elem_of_lookup_imap_1 in Hx as (i & [[[n e] t] rt] & Ef & Hi).
    rewrite Ef in He |- *. simplify_eq/=. eauto. }
  set (g := λ '(f, ts), (fd_Index f, ts)) in *.
  assert ((g <$> (req ++ opt ++ tl)).*1 = fd_Index <$> (req ++ opt ++ tl).*1) as Eidx.
  { rewrite <- !list_fmap_compose. apply list_fmap_ext. by intros i [f ts] _. }
  rewrite Eidx. split_and!.
  - eapply StronglySorted_fmap; [|exact (StronglySorted_sublist _ _ _ Hsub Hall)]. done.
  - intros i (f & -> & ((f' & ts) & -> & Hft)%list_elem_of_fmap)%list_elem_of_fmap.
    destruct (Hin _ Hft) as (n & t & rt & ? & _). eauto.
  - exists (g <$> req), (g <$> opt), (g <$> tl). rewrite !fmap_app.
    assert (∀ (P : Tags → Prop) l, Forall (λ ft, P ft.2) l → Forall (λ ft, P ft.2) (g <$> l)) as Hg.
    { intros P l Hl. apply Forall_fmap. eapply Forall_impl; [exact Hl|]. by intros [??]. }
    split_and!; [done|by apply Hg..|by rewrite length_fmap| | |].
    + apply Forall_fmap, Forall_forall. intros [f ts] Hft.
      rewrite Forall_forall in Ht. destruct (Ht _ Hft) as (? & _ & Hi & Hk).
      split_and!; [done|done|]. destruct (Hin (f, ts)) as (n & t & rt & Hrt & Hty); [set_solver|].
      simpl in *. rewrite Hrt. simpl. f_equal. rewrite <- Hk, <- Hty. by destruct rt.
    + intros Hopt. rewrite firstOptionalField_shape; [by rewrite length_fmap| |].
      * apply (Hg (λ ts, tg_Optional ts = false)). eapply Forall_impl; [exact Hr|]. by intros ? [].
      * destruct opt as [|[f ts] opt]; [done|]. simpl. by apply Forall_cons in Ho as [[? _] _].
    + intros ->%fmap_nil_inv. rewrite fmap_nil, app_nil_l, <- (app_nil_r (_ ++ _)).
      rewrite firstOptionalField_shape; [by rewrite app_nil_r| |done].
      apply Forall_app; split; apply (Hg (λ ts, tg_Optional ts = false)).
      * eapply Forall_impl; [exact Hr|]. by intros ? [].
      * eapply Forall_impl; [exact Ht|]. by intros [??] [[] _].
Qed.
