(* ===== verification/RlpStream.v ===== *)
(** * The RLP input stream (the type Stream of rlp/decode.go)

    A [Stream] reads one value after the other from a byte reader and keeps track of the
    lists it is in.  The reader is a [bytes.Reader] or [bytes.Buffer]: the bytes that have
    not been read yet.  [uintbuf] is left out, because every operation overwrites the part
    of it that it reads; [kind] is [None] where the code has -1; the stack has the
    innermost list first. *)

From S2P Require Import Prelude Bytes RlpEncode RlpRaw.

Open Scope Z_scope.

Record Stream := mkStream {
  s_r : list byte;
  s_remaining : Z; (* number of bytes remaining to be read from r *)
  s_size : Z; (* size of value ahead *)
  s_kinderr : option rlp_error; (* error from last readKind *)
  s_stack : list Z; (* list sizes *)
  s_kind : option Kind; (* kind of value ahead *)
  s_byteval : byte; (* value of single byte in type tag *)
  s_limited : bool; (* true if input limit is in effect *)
}.

Definition set_r (r : list byte) (s : Stream) : Stream :=
  mkStream r (s_remaining s) (s_size s) (s_kinderr s) (s_stack s) (s_kind s) (s_byteval s) (s_limited s).
Definition set_remaining (n : Z) (s : Stream) : Stream :=
  mkStream (s_r s) n (s_size s) (s_kinderr s) (s_stack s) (s_kind s) (s_byteval s) (s_limited s).
Definition set_size (n : Z) (s : Stream) : Stream :=
  mkStream (s_r s) (s_remaining s) n (s_kinderr s) (s_stack s) (s_kind s) (s_byteval s) (s_limited s).
Definition set_kinderr (e : option rlp_error) (s : Stream) : Stream :=
  mkStream (s_r s) (s_remaining s) (s_size s) e (s_stack s) (s_kind s) (s_byteval s) (s_limited s).
Definition set_stack (st : list Z) (s : Stream) : Stream :=
  mkStream (s_r s) (s_remaining s) (s_size s) (s_kinderr s) st (s_kind s) (s_byteval s) (s_limited s).
Definition set_kind (k : option Kind) (s : Stream) : Stream :=
  mkStream (s_r s) (s_remaining s) (s_size s) (s_kinderr s) (s_stack s) k (s_byteval s) (s_limited s).
Definition set_byteval (b : byte) (s : Stream) : Stream :=
  mkStream (s_r s) (s_remaining s) (s_size s) (s_kinderr s) (s_stack s) (s_kind s) b (s_limited s).

Abbreviation sm := (etm Stream rlp_error).

(** [Reset]; [sized] tells whether the reader reports its length (a [bytes.Reader],
    [bytes.Buffer] or [strings.Reader]). *)
Definition Reset (r : list byte) (sized : bool) (inputLimit : Z) (s : Stream) : Stream :=
  let '(remaining, limited) :=
    if 0 <? inputLimit then (inputLimit, true)
    else if sized then (Z.of_nat (length r), true)
    else (s_remaining s, false) in
  mkStream r remaining 0 None [] None 0 limited.

Definition new_Stream : Stream := mkStream [] 0 0 None [] (Some Byte) 0 false.
Definition NewStream (r : list byte) (sized : bool) (inputLimit : Z) : Stream :=
  Reset r sized inputLimit new_Stream.
Definition NewListStream (r : list byte) (sized : bool) (len : Z) : Stream :=
  set_size len (set_kind (Some List) (Reset r sized len new_Stream)).

(** ** Reading bytes *)

(** [listLimit]: [None] outside of lists. *)
Definition listLimit (s : Stream) : option Z := head (s_stack s).

Definition willRead (n : Z) : sm () := λ s,
  let s := set_kind None s in (* rearm Kind *)
  let limited s :=
    if s_limited s then
      if s_remaining s <? n then Done (inl ErrValueTooLarge, s)
      else Done (inr tt, set_remaining (s_remaining s - n) s)
    else Done (inr tt, s) in
  match s_stack s with
  | [] => limited s
  | limit :: st =>
      if limit <? n then Done (inl ErrElemTooLarge, s) else limited (set_stack (limit - n :: st) s)
  end.

(** The reader's [ReadByte], and [Read] until the buffer of [n] bytes is full; a reader that
    ends early has been read to its end. *)
Definition next_byte : sm byte := λ s,
  match s_r s with
  | [] => Done (inl ErrUnexpectedEOF, s)
  | b :: r => Done (inr b, set_r r s)
  end.
Definition next_bytes (n : Z) : sm (list byte) := λ s,
  if Z.of_nat (length (s_r s)) <? n then Done (inl ErrUnexpectedEOF, set_r [] s)
  else Done (inr (take (Z.to_nat n) (s_r s)), set_r (drop (Z.to_nat n) (s_r s)) s).

Definition readByte : sm byte := willRead 1;; next_byte.
Definition readFull (n : Z) : sm (list byte) := willRead n;; next_bytes n.

Definition readUint (size : byte) : sm Z :=
  if size =? 0 then effect (set_kind None);; mret 0
  else if size =? 1 then readByte
  else if 8 <? size then crash "slice bounds out of range"
  else
    buffer ← readFull size;
    match buffer with
    | 0 :: _ => fail ErrCanonSize
    | _ => mret (be_value buffer)
    end.

(** A header whose size follows the tag. *)
Definition read_long (k : Kind) (n : byte) (s : Stream) : outcome (Kind * Z * option rlp_error * Stream) :=
  match readUint n s with
  | Done (inr size, s) => Done (k, size, if size <? 56 then Some ErrCanonSize else None, s)
  | Done (inl e, s) => Done (k, 0, Some e, s)
  | Crash msg => Crash msg
  | OutOfFuel => OutOfFuel
  end.

(** [readKind] returns kind, size and error together. *)
Definition stream_readKind (s : Stream) : outcome (Kind * Z * option rlp_error * Stream) :=
  match readByte s with
  | Done (inl e, s) =>
      let e := match s_stack s, e with
               | [], ErrUnexpectedEOF | [], ErrValueTooLarge => EOF
               | _, _ => e
               end in
      Done (Byte, 0, Some e, s)
  | Done (inr b, s) =>
      let s := set_byteval 0 s in
      if b <? 0x80 then Done (Byte, 0, None, set_byteval b s)
      else if b <? 0xB8 then Done (String, b - 0x80, None, s)
      else if b <? 0xC0 then read_long String (b - 0xB7) s
      else if b <? 0xF8 then Done (List, b - 0xC0, None, s)
      else read_long List (b - 0xF7) s
  | Crash msg => Crash msg
  | OutOfFuel => OutOfFuel
  end.

(** [Kind]; its callers look at kind and size only when there is no error. *)
Definition cached_kind (s : Stream) : rlp_error + (Kind * Z) :=
  match s_kinderr s with
  | Some e => inl e
  | None => inr (default Byte (s_kind s), s_size s)
  end.
Definition stream_Kind : sm (Kind * Z) := λ s,
  match s_kind s with
  | Some _ => Done (cached_kind s, s)
  | None =>
      if bool_decide (listLimit s = Some 0) then Done (inl EOL, s)
      else
        let limit := listLimit s in
        match stream_readKind s with
        | Done (k, size, err, s) =>
            let err :=
              match err with
              | Some e => Some e
              | None =>
                  if match limit with Some l => l <? size | None => false end then Some ErrElemTooLarge
                  else if s_limited s && (s_remaining s <? size) then Some ErrValueTooLarge
                  else None
              end in
            let s := set_kinderr err (set_size size (set_kind (Some k) s)) in
            Done (cached_kind s, s)
        | Crash msg => Crash msg
        | OutOfFuel => OutOfFuel
        end
  end.

(** ** Reading values *)

(** [make([]byte, n)] panics for lengths the address space cannot hold (48 bits). *)
Definition make_bytes (n : Z) : sm () :=
  if n <? 2 ^ 48 then mret tt else crash "makeslice: len out of range".

Definition rearm : sm () := effect (set_kind None).
Definition byteval : sm byte := λ s, Done (inr (s_byteval s), s).

(** The value must have been encoded as a single byte if it can. *)
Definition single_check (size : Z) (b : list byte) : sm () :=
  match b with
  | x :: _ => if (size =? 1) && (x <? 128) then fail ErrCanonSize else mret tt
  | [] => mret tt
  end.

Definition stream_Bytes : sm (list byte) :=
  '(kind, size) ← stream_Kind;
  match kind with
  | Byte => x ← byteval; rearm;; mret [x]
  | String =>
      make_bytes size;;
      b ← readFull size;
      single_check size b;;
      mret b
  | List => fail ErrExpectedString
  end.

(** [ReadBytes] into a buffer of [n] bytes. *)
Definition ReadBytes (n : Z) : sm (list byte) :=
  '(kind, size) ← stream_Kind;
  match kind with
  | Byte => if negb (n =? 1) then fail errWrongSize else x ← byteval; rearm;; mret [x]
  | String =>
      if negb (n =? size) then fail errWrongSize
      else
        b ← readFull size;
        single_check size b;;
        mret b
  | List => fail ErrExpectedString
  end.

Definition Raw : sm (list byte) :=
  '(kind, size) ← stream_Kind;
  match kind with
  | Byte => x ← byteval; rearm;; mret [x]
  | _ =>
      make_bytes (headsize size + size)%u64;;
      b ← readFull size;
      mret ((if decide (kind = String) then puthead 0x80 0xB7 size else puthead 0xC0 0xF7 size) ++ b)
  end.

(** [readUint] for an integer: its error about a size is adjusted. *)
Definition read_int (size : byte) : sm Z := λ s,
  match readUint size s with
  | Done (inl ErrCanonSize, s) => Done (inl ErrCanonInt, s)
  | r => r
  end.

Definition stream_uint (maxbits : Z) : sm Z :=
  '(kind, size) ← stream_Kind;
  match kind with
  | Byte =>
      x ← byteval;
      if x =? 0 then fail ErrCanonInt else rearm;; mret x
  | String =>
      if maxbits / 8 <? size then fail errUintOverflow
      else
        v ← read_int (byte_of size);
        if (0 <? size) && (v <? 128) then fail ErrCanonSize else mret v
  | List => fail ErrExpectedString
  end.
Definition stream_Uint64 : sm Z := stream_uint 64.
Definition stream_Uint32 : sm Z := i ← stream_uint 32; mret (i mod 2 ^ 32).
Definition stream_Uint16 : sm Z := i ← stream_uint 16; mret (i mod 2 ^ 16).
Definition stream_Uint8 : sm Z := i ← stream_uint 8; mret (i mod 2 ^ 8).

Definition stream_Bool : sm bool :=
  num ← stream_uint 8;
  if num =? 0 then mret false else if num =? 1 then mret true else fail errInvalidBool.

Definition stream_List : sm Z :=
  '(kind, size) ← stream_Kind;
  match kind with
  | List =>
      (* Remove size of inner list from outer list before pushing the new size. *)
      effect (λ s,
        let st := match s_stack s with limit :: st => (limit - size)%u64 :: st | [] => [] end in
        set_size 0 (set_kind None (set_stack (size :: st) s)));;
      mret size
  | _ => fail ErrExpectedList
  end.

Definition ListEnd : sm () := λ s,
  match s_stack s with
  | [] => Done (inl errNotInList, s)
  | limit :: st =>
      if 0 <? limit then Done (inl errNotAtEOL, s)
      else Done (inr tt, set_size 0 (set_kind None (set_stack st s)))
  end.

Definition MoreDataInList (s : Stream) : bool :=
  match listLimit s with Some limit => 0 <? limit | None => false end.

(** The cases of [decodeBigInt] and [ReadUint256]: the big-endian bytes of the integer. *)
Definition int_buffer (large : Z → sm (list byte)) : sm (list byte) :=
  '(kind, size) ← stream_Kind;
  match kind with
  | List => fail ErrExpectedString
  | Byte => x ← byteval; rearm;; mret [x]
  | String =>
      if size =? 0 then rearm;; mret []
      else if size <=? 32 then
        b ← readFull size;
        single_check size b;;
        mret b
      else large size
  end.
Definition int_value (buffer : list byte) : sm Z :=
  match buffer with
  | 0 :: _ => fail ErrCanonInt
  | _ => mret (be_value buffer)
  end.

Definition stream_decodeBigInt : sm Z :=
  buffer ← int_buffer (λ size, make_bytes size;; readFull size);
  int_value buffer.
Definition BigInt : sm Z := stream_decodeBigInt.
Definition ReadUint256 : sm Z :=
  buffer ← int_buffer (λ _, fail errUint256Large);
  int_value buffer.
