(* ===== verification/RlpStreamProps.v ===== *)
(** * What the operations of a stream read

    For a stream over a byte slice, as [DecodeBytes] sets it up: every operation returns,
    a value that is returned was read from its canonical encoding, and an operation at the
    beginning of an encoding returns the value. *)

From S2P Require Import Prelude Bytes RlpEncode RlpRaw RlpStream.

Open Scope Z_scope.

(** The bytes [b] have been read between the two states. *)
Record moved (s : Stream) (b : list byte) (s' : Stream) : Prop := mkMoved {
  mv_r : s_r s = b ++ s_r s';
  mv_stack : s_stack s' =
    match s_stack s with [] => [] | l :: st => (l - Z.of_nat (length b))%u64 :: st end;
  mv_limited : s_limited s' = s_limited s;
  mv_remaining : s_remaining s' = s_remaining s - Z.of_nat (length b);
}.

(** A stream limited to the bytes of its reader. *)
Record base (s : Stream) : Prop := mkBase {
  bs_limited : s_limited s = true;
  bs_remaining : s_remaining s = Z.of_nat (length (s_r s));
  bs_bytes : bytes_ok (s_r s);
  bs_size : Z.of_nat (length (s_r s)) < 2 ^ 48;
  bs_stack : Forall u64_ok (s_stack s);
}.

(** Between two values. *)
Definition ready (s : Stream) : Prop := base s ∧ s_kind s = None.

(** The next [n] bytes are there and belong to the current list. *)
Definition fits (s : Stream) (n : Z) : Prop :=
  n <= Z.of_nat (length (s_r s)) ∧ match s_stack s with [] => True | l :: _ => n <= l end.

Lemma moved_base s b s' : base s → moved s b s' → base s'.
Proof.
  intros [Hl Hr Hb Hs Hst] [Er Est El Erem]. rewrite Er in *. apply Forall_app in Hb as [_ Hb].
  rewrite length_app in *. split; [congruence|lia|done|lia|].
  rewrite Est. destruct (s_stack s); [done|]. apply Forall_cons in Hst as [_ Hst].
  constructor; [apply u64_range|done].
Qed.

Lemma moved_trans s b s1 c s2 : base s → moved s b s1 → moved s1 c s2 → moved s (b ++ c) s2.
Proof.
  intros Hs [Er Est El Erem] [Er' Est' El' Erem']. split.
  - by rewrite Er, Er', app_assoc.
  - rewrite Est', Est. destruct (s_stack s) as [|l st]; [done|]. f_equal.
    by rewrite length_app, Nat2Z.inj_add, Z.sub_add_distr, u64_sub_l.
  - congruence.
  - rewrite length_app. lia.
Qed.

Lemma moved_nil s s' :
  Forall u64_ok (s_stack s) →
  s_r s' = s_r s → s_stack s' = s_stack s → s_limited s' = s_limited s → s_remaining s' = s_remaining s →
  moved s [] s'.
Proof.
  intros Hst Er Est El Erem. split; [by rewrite Er| |done|simpl; lia]. rewrite Est.
  destruct (s_stack s) as [|l st]; [done|]. apply Forall_cons in Hst as [Hl _].
  simpl. by rewrite Z.sub_0_r, u64_id.
Qed.

(** ** Reading bytes *)

Lemma willRead_fits s n :
  base s → 0 <= n → fits s n →
  ∃ s1, willRead n s = Done (inr tt, s1) ∧ s_r s1 = s_r s ∧ s_kind s1 = None ∧ s_byteval s1 = s_byteval s ∧
    s_stack s1 = match s_stack s with [] => [] | l :: st => (l - n)%u64 :: st end ∧
    s_limited s1 = s_limited s ∧ s_remaining s1 = s_remaining s - n.
Proof.
  intros [Hl Hr _ _ Hst] Hn [Hlen Htop]. unfold willRead. cbn [set_kind s_stack].
  destruct (s_stack s) as [|l st] eqn:Est.
  - cbn [set_kind s_limited s_remaining]. rewrite Hl, (proj2 (Z.ltb_ge _ _)) by lia.
    eexists. split; [done|]. by rewrite <- Hl, <- Est.
  - apply Forall_cons in Hst as [Hlok _]. rewrite (proj2 (Z.ltb_ge _ _)) by lia.
    cbn [set_kind set_stack s_limited s_remaining]. rewrite Hl, (proj2 (Z.ltb_ge _ _)) by lia.
    eexists. split; [done|]. split_and!; try done. simpl. rewrite u64_id; [done|]. unfold u64_ok in *. lia.
Qed.

Lemma willRead_cases s n :
  base s → 0 <= n → fits s n ∨ ∃ e s1, willRead n s = Done (inl e, s1) ∧ e ≠ EOL.
Proof.
  intros [Hl Hr _ _ Hst] Hn. unfold willRead, fits. cbn [set_kind s_stack].
  destruct (s_stack s) as [|l st].
  - cbn [set_kind s_limited s_remaining]. rewrite Hl. destruct (Z.ltb_spec (s_remaining s) n); [by right; eauto|].
    left. split; [lia|done].
  - destruct (Z.ltb_spec l n); [by right; eauto|]. cbn [set_kind set_stack s_limited s_remaining]. rewrite Hl.
    destruct (Z.ltb_spec (s_remaining s) n); [by right; eauto|]. left. split; lia.
Qed.

Lemma readFull_fits s b rest :
  base s → s_r s = b ++ rest → fits s (Z.of_nat (length b)) →
  ∃ s', readFull (Z.of_nat (length b)) s = Done (inr b, s') ∧ moved s b s' ∧ s_kind s' = None ∧
    s_byteval s' = s_byteval s.
Proof.
  intros Hs Er Hf. destruct (willRead_fits s (Z.of_nat (length b))) as (s1 & E & Er1 & Hk & Hbv & Est & El & Erem);
    [done|lia|done|].
  unfold readFull. rewrite (etm_bind_inr _ _ _ _ _ E). unfold next_bytes. rewrite Er1, Er.
  rewrite (proj2 (Z.ltb_ge _ _)) by (rewrite length_app; lia).
  rewrite Nat2Z.id, take_app_length, drop_app_length. eexists. split; [done|]. by split_and!.
Qed.

Lemma readFull_cases s n :
  base s → 0 <= n →
  (∃ b s', readFull n s = Done (inr b, s') ∧ Z.of_nat (length b) = n ∧ moved s b s' ∧ s_kind s' = None ∧
     s_byteval s' = s_byteval s) ∨
  ∃ e s', readFull n s = Done (inl e, s') ∧ e ≠ EOL.
Proof.
  intros Hs Hn. destruct (willRead_cases s n Hs Hn) as [[Hlen Htop]|(e & s1 & E & He)].
  - left. assert (length (take (Z.to_nat n) (s_r s)) = Z.to_nat n) as L by (rewrite length_take; lia).
    destruct (readFull_fits s (take (Z.to_nat n) (s_r s)) (drop (Z.to_nat n) (s_r s))) as (s' & E & Hm & Hk & Hbv).
    + done.
    + by rewrite take_drop.
    + rewrite L. split; [lia|]. destruct (s_stack s); [done|lia].
    + rewrite L, Z2Nat.id in E by lia. eexists _, s'. split; [done|]. split_and!; [lia|done..].
  - right. exists e, s1. split; [|done]. unfold readFull. by rewrite (etm_bind_inl _ _ _ _ _ E).
Qed.

Lemma readByte_readFull s :
  readByte s = match readFull 1 s with
               | Done (inr b, s') => Done (inr (b !!! 0%nat), s')
               | Done (inl e, s') => Done (inl e, s')
               | Crash msg => Crash msg
               | OutOfFuel => OutOfFuel
               end.
Proof.
  unfold readByte, readFull, mbind, etm_bind. destruct (willRead 1 s) as [[[e|[]] s1]| |]; try done.
  unfold next_byte, next_bytes. destruct s1 as [[|b r]]; simpl; [done|].
  rewrite (proj2 (Z.ltb_ge _ _)) by lia. done.
Qed.

(** ** Headers *)

(** The bytes [h] announce a value of kind [k] and size [n]; a single byte is its own
    header. *)
Definition header (k : Kind) (n : Z) (h : list byte) (bv : byte) : Prop :=
  match k with
  | Byte => n = 0 ∧ h = [bv] ∧ 0 <= bv < 128
  | String => 0 <= n ∧ h = rlp_head 0x80 0xB7 n
  | List => 0 <= n ∧ h = rlp_head 0xC0 0xF7 n
  end.

Lemma moved_bytes s b s' : base s → moved s b s' → bytes_ok b.
Proof. intros Hs Hm. pose proof (bs_bytes s Hs) as Hb. rewrite (mv_r _ _ _ Hm) in Hb. by apply Forall_app in Hb as [? _]. Qed.

Lemma readUint_cases s m :
  base s → 1 <= m <= 8 →
  (∃ b s', readUint m s = Done (inr (be_value b), s') ∧ Z.of_nat (length b) = m ∧ moved s b s' ∧
     s_kind s' = None ∧ s_byteval s' = s_byteval s ∧ (m ≠ 1 → b !!! 0%nat ≠ 0)) ∨
  ∃ e s', readUint m s = Done (inl e, s') ∧ e ≠ EOL.
Proof.
  intros Hs Hm. unfold readUint. rewrite (proj2 (Z.eqb_neq m 0)) by lia.
  destruct (readFull_cases s m Hs) as [(b & s' & E & L & Hmv & Hk & Hbv)|(e & s' & E & He)]; [lia| |].
  - destruct (Z.eqb_spec m 1) as [->|Hm1].
    + left. rewrite readByte_readFull, E. destruct b as [|x [|]]; simpl in L; try lia.
      exists [x], s'. by split_and!.
    + rewrite (proj2 (Z.ltb_ge _ _)) by lia. rewrite (etm_bind_inr _ _ _ _ _ E).
      destruct b as [|x b]; [simpl in L; lia|]. destruct (decide (x = 0)) as [->|Hx].
      * right. by exists ErrCanonSize, s'.
      * left. exists (x :: b), s'. split_and!; [|done..]. by destruct x.
  - right. exists e, s'. split; [|done]. destruct (Z.eqb_spec m 1) as [->|].
    + by rewrite readByte_readFull, E.
    + rewrite (proj2 (Z.ltb_ge _ _)) by lia. by rewrite (etm_bind_inl _ _ _ _ _ E).
Qed.

Lemma be_value_min b :
  bytes_ok b → (length b ≠ 1%nat → b !!! 0%nat ≠ 0) → 0 < be_value b → be_min (be_value b) = b.
Proof.
  intros Hb Hz Hp. destruct b as [|x b]; [by unfold be_value in Hp|]. apply be_min_be_value; [done|].
  intros ->. destruct b as [|y b]; [by unfold be_value in Hp; simpl in Hp|]. by apply Hz.
Qed.

Lemma read_long_cases k m s :
  base s → 1 <= m <= 8 →
  ∃ n err s', read_long k m s = Done (k, n, err, s') ∧
    match err with
    | Some e => e ≠ EOL
    | None => 56 <= n ∧ Z.of_nat (byte_len n) = m ∧ moved s (be_min n) s' ∧ s_byteval s' = s_byteval s
    end.
Proof.
  intros Hs Hm. unfold read_long.
  destruct (readUint_cases s m Hs Hm) as [(b & s' & E & L & Hmv & Hk & Hbv & Hz)|(e & s' & E & He)]; rewrite E.
  - eexists _, _, _. split; [done|]. destruct (Z.ltb_spec (be_value b) 56); [done|].
    assert (bytes_ok b) as Hb by by apply (moved_bytes s b s').
    assert (be_min (be_value b) = b) as Emin by (apply be_value_min; [done|intros ?; apply Hz; lia|lia]).
    split_and!; [done| |by rewrite Emin|done]. by rewrite <- be_min_length, Emin.
  - eexists _, _, _. by split.
Qed.

Lemma moved_set_byteval s b s' x : moved s b s' → moved s b (set_byteval x s').
Proof. by intros [? ? ? ?]. Qed.

Lemma stream_readKind_cases s :
  base s →
  ∃ k n err s', stream_readKind s = Done (k, n, err, s') ∧
    match err with
    | Some e => e ≠ EOL
    | None => ∃ h, header k n h (s_byteval s') ∧ moved s h s'
    end.
Proof.
  intros Hs. unfold stream_readKind. rewrite readByte_readFull.
  destruct (readFull_cases s 1 Hs) as [(b & s' & E & L & Hmv & Hk & Hbv)|(e & s' & E & He)]; [lia| |]; rewrite E.
  2: { eexists _, _, _, _. split; [done|]. cbn. destruct (s_stack s'), e; done. }
  destruct b as [|x [|]]; simpl in L; try lia. cbn [lookup_total list_lookup_total].
  assert (0 <= x < 256) as Hx.
  { pose proof (bs_bytes s Hs) as Hb. rewrite (mv_r _ _ _ Hmv) in Hb. by apply Forall_cons in Hb as [? _]. }
  assert (base (set_byteval 0 s')) as Hs' by by apply (moved_base s [x]), moved_set_byteval.
  assert (∀ n (tag ltag : byte), 0 <= n < 56 → x = tag + n →
    moved s (rlp_head tag ltag n) (set_byteval 0 s')) as Hshort.
  { intros n tag ltag Hn ->. unfold rlp_head. rewrite (proj2 (Z.ltb_lt _ _)) by lia. by apply moved_set_byteval. }
  assert (∀ k (tag ltag : byte), (k = String ∧ tag = 0x80 ∧ ltag = 0xB7 ∨ k = List ∧ tag = 0xC0 ∧ ltag = 0xF7) →
    1 <= x - ltag <= 8 → ∃ k' n err s'', read_long k (x - ltag) (set_byteval 0 s') = Done (k', n, err, s'') ∧
    match err with Some e => e ≠ EOL | None => ∃ h, header k' n h (s_byteval s'') ∧ moved s h s'' end) as Hlong.
  { intros k tag ltag Hk' Hm.
    destruct (read_long_cases k (x - ltag) (set_byteval 0 s') Hs' Hm) as (n & err & s'' & E' & Herr).
    exists k, n, err, s''. split; [done|]. destruct err; [done|]. destruct Herr as (Hn & Hl & Hmv' & _).
    exists (rlp_head tag ltag n). split; [destruct Hk' as [(-> & -> & ->)|(-> & -> & ->)]; split; (lia || done)|].
    unfold rlp_head. rewrite (proj2 (Z.ltb_ge _ _)) by lia. rewrite be_min_length, Hl.
    replace (ltag + (x - ltag)) with x by lia. apply (moved_trans s [x] (set_byteval 0 s')); [done| |done].
    by apply moved_set_byteval. }
  destruct (Z.ltb_spec x 128); [|destruct (Z.ltb_spec x 184); [|destruct (Z.ltb_spec x 192); [|destruct (Z.ltb_spec x 248)]]].
  - eexists _, _, _, _. split; [done|]. exists [x]. split; [simpl; split_and!; (done || lia)|by apply moved_set_byteval, moved_set_byteval].
  - eexists _, _, _, _. split; [done|]. eexists. split; [simpl; split; [lia|done]|]. apply Hshort; lia.
  - apply (Hlong String 0x80); [by left|lia].
  - eexists _, _, _, _. split; [done|]. eexists. split; [simpl; split; [lia|done]|]. apply Hshort; lia.
  - apply (Hlong List 0xC0); [by right|lia].
Qed.

Lemma readUint_fits s b rest :
  base s → s_r s = b ++ rest → fits s (Z.of_nat (length b)) → 1 <= Z.of_nat (length b) <= 8 →
  b !!! 0%nat ≠ 0 →
  ∃ s', readUint (Z.of_nat (length b)) s = Done (inr (be_value b), s') ∧ moved s b s' ∧ s_kind s' = None ∧
    s_byteval s' = s_byteval s.
Proof.
  intros Hs Er Hf Hl Hz. destruct (readFull_fits s b rest Hs Er Hf) as (s' & E & Hmv & Hk & Hbv).
  exists s'. split; [|done]. unfold readUint. rewrite (proj2 (Z.eqb_neq _ 0)) by lia.
  destruct b as [|x b]; [simpl in Hl; lia|]. cbn [lookup_total list_lookup_total] in Hz.
  destruct (Z.eqb_spec (Z.of_nat (length (x :: b))) 1) as [E1|].
  - rewrite readByte_readFull. rewrite E1 in E. rewrite E. destruct b; [done|simpl in E1; lia].
  - rewrite (proj2 (Z.ltb_ge _ _)) by lia. rewrite (etm_bind_inr _ _ _ _ _ E). by destruct x.
Qed.

Lemma fits_app s b c s' :
  base s → moved s b s' → fits s (Z.of_nat (length (b ++ c))) → fits s' (Z.of_nat (length c)).
Proof.
  intros Hs [Er Est _ _] [Hl Htop]. unfold fits. rewrite Er, !length_app in Hl. rewrite length_app in Htop.
  split; [lia|]. rewrite Est. pose proof (bs_stack s Hs) as Hst. destruct (s_stack s) as [|l st]; [done|].
  apply Forall_cons in Hst as [Hlok _]. rewrite u64_id; [lia|]. unfold u64_ok in *. lia.
Qed.

Lemma fits_mono s m n : fits s n → m <= n → fits s m.
Proof. intros [Hl Htop] Hm. split; [lia|]. destruct (s_stack s); [done|lia]. Qed.

(** The bytes of a header after the tag. *)
Lemma stream_readKind_fits s k n h bv rest :
  base s → header k n h bv → n < 2 ^ 64 → s_r s = h ++ rest → fits s (Z.of_nat (length h)) →
  ∃ s', stream_readKind s = Done (k, n, None, s') ∧ moved s h s' ∧ (k = Byte → s_byteval s' = bv).
Proof.
  intros Hs Hh Hn Er Hf.
  assert (∀ x h', h = x :: h' → ∃ s1, readByte s = Done (inr x, s1) ∧ moved s [x] s1) as Hfirst.
  { intros x h' ->. destruct (readFull_fits s [x] (h' ++ rest)) as (s1 & E & Hmv & _ & _);
      [done|done|eapply fits_mono; [done|simpl; lia]|].
    exists s1. rewrite readByte_readFull. change 1 with (Z.of_nat (length [x])). by rewrite E. }
  assert (∀ (tag ltag : byte), h = rlp_head tag ltag n → 0 <= n → 56 <= n →
    ∃ s1 s2, readByte s = Done (inr (ltag + Z.of_nat (byte_len n)), s1) ∧ 1 <= Z.of_nat (byte_len n) <= 8 ∧
      ∀ k', read_long k' (Z.of_nat (byte_len n)) (set_byteval 0 s1) = Done (k', n, None, s2) ∧ moved s h s2) as Hlong.
  { intros tag ltag Eh Hn0 H56. unfold rlp_head in Eh. rewrite (proj2 (Z.ltb_ge _ _)), be_min_length in Eh by lia.
    destruct (Hfirst _ _ Eh) as (s1 & E1 & Hm1).
    assert (1 <= Z.of_nat (byte_len n) <= 8) as Hbl.
    { pose proof (byte_len_le8 n). lia. }
    assert (moved s [ltag + Z.of_nat (byte_len n)] (set_byteval 0 s1)) as Hm1' by by apply moved_set_byteval.
    destruct (readUint_fits (set_byteval 0 s1) (be_min n) rest) as (s2 & E2 & Hm2 & _).
    - by apply (moved_base s [ltag + Z.of_nat (byte_len n)]).
    - pose proof (mv_r _ _ _ Hm1') as Er1. rewrite Er, Eh in Er1. by injection Er1.
    - eapply fits_app; [done|done|]. by rewrite Eh in Hf.
    - by rewrite be_min_length.
    - destruct (be_min n) as [|x l] eqn:Em; [rewrite <- be_min_length, Em in Hbl; simpl in Hbl; lia|].
      apply be_min_head in Em. simpl. lia.
    - rewrite be_min_length, be_value_be_min in E2 by lia. exists s1, s2. split_and!; [done|lia|lia|].
      intros k'. split; [|rewrite Eh; by eapply (moved_trans s [_])].
      unfold read_long. rewrite E2. by rewrite (proj2 (Z.ltb_ge _ _)) by lia. }
  unfold stream_readKind.
  destruct k; cbn [header] in Hh.
  - destruct Hh as (-> & Eh & Hbv). destruct (Hfirst _ _ Eh) as (s1 & -> & Hm1).
    rewrite (proj2 (Z.ltb_lt bv 128)) by lia. eexists. split; [done|]. rewrite Eh.
    split; [by apply moved_set_byteval, moved_set_byteval|done].
  - destruct Hh as [Hn0 Eh]. destruct (Z.lt_ge_cases n 56) as [H56|H56].
    + pose proof Eh as Eh'. unfold rlp_head in Eh'. rewrite (proj2 (Z.ltb_lt n 56)) in Eh' by lia.
      destruct (Hfirst _ _ Eh') as (s1 & -> & Hm1).
      rewrite (proj2 (Z.ltb_ge _ 128)), (proj2 (Z.ltb_lt _ 184)), Z.add_simpl_l by lia.
      eexists. split; [done|]. rewrite Eh'. split; [by apply moved_set_byteval|done].
    + destruct (Hlong _ _ Eh Hn0 H56) as (s1 & s2 & -> & Hbl & Hrl). destruct (Hrl String) as [E2 Hm2].
      rewrite (proj2 (Z.ltb_ge _ 128)), (proj2 (Z.ltb_ge _ 184)), (proj2 (Z.ltb_lt _ 192)), Z.add_simpl_l by lia.
      exists s2. split_and!; [by rewrite E2|done|done].
  - destruct Hh as [Hn0 Eh]. destruct (Z.lt_ge_cases n 56) as [H56|H56].
    + pose proof Eh as Eh'. unfold rlp_head in Eh'. rewrite (proj2 (Z.ltb_lt n 56)) in Eh' by lia.
      destruct (Hfirst _ _ Eh') as (s1 & -> & Hm1).
      rewrite (proj2 (Z.ltb_ge _ 128)), (proj2 (Z.ltb_ge _ 184)), (proj2 (Z.ltb_ge _ 192)), (proj2 (Z.ltb_lt _ 248)), Z.add_simpl_l by lia.
      eexists. split; [done|]. rewrite Eh'. split; [by apply moved_set_byteval|done].
    + destruct (Hlong _ _ Eh Hn0 H56) as (s1 & s2 & -> & Hbl & Hrl). destruct (Hrl List) as [E2 Hm2].
      rewrite (proj2 (Z.ltb_ge _ 128)), (proj2 (Z.ltb_ge _ 184)), (proj2 (Z.ltb_ge _ 192)), (proj2 (Z.ltb_ge _ 248)), Z.add_simpl_l by lia.
      exists s2. split_and!; [by rewrite E2|done|done].
Qed.

(** ** Kind *)

(** [s1] is the stream [s] after [Kind] has read the header [h]. *)
Record peeked (s : Stream) (k : Kind) (n : Z) (h : list byte) (s1 : Stream) : Prop := mkPeeked {
  pk_moved : moved s h s1;
  pk_base : base s1;
  pk_kind : s_kind s1 = Some k;
  pk_err : s_kinderr s1 = None;
  pk_size : s_size s1 = n;
  pk_header : header k n h (s_byteval s1);
  pk_len : n <= Z.of_nat (length (s_r s1));
}.

Lemma moved_kind s b s' k n e : moved s b s' → moved s b (set_kinderr e (set_size n (set_kind k s'))).
Proof. by intros [? ? ? ?]. Qed.

Lemma stream_Kind_cases s :
  ready s →
  (listLimit s = Some 0 ∧ stream_Kind s = Done (inl EOL, s)) ∨
  (∃ e s1, stream_Kind s = Done (inl e, s1) ∧ e ≠ EOL) ∨
  (∃ k n h s1, stream_Kind s = Done (inr (k, n), s1) ∧ peeked s k n h s1).
Proof.
  intros [Hs Hk]. unfold stream_Kind. rewrite Hk. case_bool_decide as Hl; [by left|right].
  destruct (stream_readKind_cases s Hs) as (k & n & err & s1 & -> & Herr).
  destruct err as [e|]; [left; by exists e; eexists|]. destruct Herr as (h & Hh & Hm).
  pose proof (moved_base s h s1 Hs Hm) as Hs1.
  destruct (match listLimit s with Some l => l <? n | None => false end); [left; by exists ErrElemTooLarge; eexists|].
  rewrite (bs_limited s1 Hs1). cbn [andb].
  destruct (Z.ltb_spec (s_remaining s1) n); [left; by exists ErrValueTooLarge; eexists|].
  right. eexists k, n, h, _. split; [done|]. split; try done; [by apply moved_kind|..].
  - apply (moved_base s h); [done|by apply moved_kind].
  - rewrite (bs_remaining s1 Hs1) in *. done.
Qed.

Lemma header_len k n h bv : header k n h bv → 1 <= Z.of_nat (length h) ∧ 0 <= n.
Proof.
  destruct k; cbn; [intros (-> & -> & _); simpl; lia|..]; intros [Hn ->]; unfold rlp_head; case_match; simpl; lia.
Qed.

Lemma stream_Kind_fits s k n h bv rest :
  ready s → header k n h bv → s_r s = h ++ rest → fits s (Z.of_nat (length h) + n) →
  ∃ s1, stream_Kind s = Done (inr (k, n), s1) ∧ peeked s k n h s1 ∧ (k = Byte → s_byteval s1 = bv).
Proof.
  intros [Hs Hk] Hh Er Hf. pose proof (header_len _ _ _ _ Hh) as [Hhl Hn]. pose proof Hf as [Hlen Htop].
  pose proof (bs_size s Hs).
  destruct (stream_readKind_fits s k n h bv rest) as (s1 & E & Hm & Hbv);
    [done|done|lia|done|eapply fits_mono; [done|lia]|].
  pose proof (moved_base s h s1 Hs Hm) as Hs1.
  unfold stream_Kind. rewrite Hk. unfold listLimit.
  rewrite bool_decide_false by (destruct (s_stack s); simpl; [done|intros [= ->]; lia]).
  rewrite E. assert (match head (s_stack s) with Some l => l <? n | None => false end = false) as ->.
  { destruct (s_stack s); simpl; [done|]. apply Z.ltb_ge. lia. }
  assert (s_r s1 = rest) as Er1.
  { pose proof (mv_r _ _ _ Hm) as Er1. rewrite Er in Er1. by apply app_inv_head in Er1. }
  rewrite Er, length_app in Hlen.
  rewrite (bs_limited s1 Hs1), (proj2 (Z.ltb_ge _ _)) by (rewrite (bs_remaining s1 Hs1), Er1; lia).
  eexists. split; [done|]. split; [|done]. split; try done; [by apply moved_kind|..].
  - apply (moved_base s h); [done|by apply moved_kind].
  - cbn. destruct k; [|done..]. by rewrite Hbv.
  - cbn. rewrite Er1. lia.
Qed.

Lemma stream_Kind_again s k n h s1 : peeked s k n h s1 → stream_Kind s1 = Done (inr (k, n), s1).
Proof. intros [_ _ Hk He Hn _ _]. unfold stream_Kind, cached_kind. by rewrite Hk, He, Hn. Qed.

(** ** Operations that read a value *)

(** From any stream between two values the operation returns.  A value it returns was
    read from an encoding [enc] relates to it; the error [eol] is returned only at the end
    of the list, with nothing read. *)
Definition reads {E A} (eol : E) (m : etm Stream E A) (enc : A → list byte → Prop) : Prop :=
  ∀ s, ready s →
  ∃ r s', m s = Done (r, s') ∧
    match r with
    | inr a => ∃ b, enc a b ∧ b ≠ [] ∧ moved s b s' ∧ s_kind s' = None
    | inl e => e = eol → s' = s ∧ listLimit s = Some 0
    end.

(** At the beginning of [b] the operation returns [a]. *)
Definition accepts {E A} (m : etm Stream E A) (a : A) (b : list byte) : Prop :=
  ∀ s rest, ready s → s_r s = b ++ rest → fits s (Z.of_nat (length b)) →
  ∃ s', m s = Done (inr a, s') ∧ moved s b s' ∧ s_kind s' = None.

Lemma reads_Kind {A} (f : Kind * Z → sm A) enc :
  (∀ k n h s1, base s1 → 0 <= n <= Z.of_nat (length (s_r s1)) →
     header k n h (s_byteval s1) → Z.of_nat (length h) + n < 2 ^ 48 →
     ∃ r s', f (k, n) s1 = Done (r, s') ∧
       match r with
       | inr a => ∃ b, enc a (h ++ b) ∧ moved s1 b s' ∧ s_kind s' = None
       | inl e => e ≠ EOL
       end) →
  reads EOL (stream_Kind ≫= f) enc.
Proof.
  intros Hf s Hs. destruct (stream_Kind_cases s Hs) as [[Hl E]|[(e & s1 & E & He)|(k & n & h & s1 & E & Hp)]].
  - eexists _, _. split; [by apply etm_bind_inl|]. done.
  - eexists _, _. split; [by apply etm_bind_inl|]. by intros ->.
  - pose proof Hp as [Hm Hs1 _ _ _ Hh Hn]. pose proof (header_len _ _ _ _ Hh) as [Hhl Hn0].
    destruct (Hf k n h s1) as (r & s' & E' & Hr); [done|lia|done| |].
    { pose proof (bs_size s (proj1 Hs)) as Hsz. rewrite (mv_r _ _ _ Hm), length_app in Hsz. lia. }
    exists r, s'. split; [by rewrite (etm_bind_inr _ _ _ _ _ E)|]. destruct r as [e|a]; [by intros ->|].
    destruct Hr as (b & He & Hmb & Hk). exists (h ++ b). split_and!; [done| | |done].
    + destruct h; [simpl in Hhl; lia|done].
    + eapply moved_trans; [apply Hs|done|done].
Qed.

Lemma accepts_Kind {A} (f : Kind * Z → sm A) a k n h bv body :
  header k n h bv → n = Z.of_nat (length body) →
  (∀ s1 rest, base s1 → (k = Byte → s_byteval s1 = bv) → s_r s1 = body ++ rest → fits s1 n →
     Z.of_nat (length h) + n < 2 ^ 48 →
     ∃ s', f (k, n) s1 = Done (inr a, s') ∧ moved s1 body s' ∧ s_kind s' = None) →
  accepts (stream_Kind ≫= f) a (h ++ body).
Proof.
  intros Hh Hn Hf s rest Hs Er Hfit. rewrite <- app_assoc in Er.
  destruct (stream_Kind_fits s k n h bv (body ++ rest)) as (s1 & E & Hp & Hbv); [done|done|done| |].
  { rewrite Hn, <- Nat2Z.inj_add, <- length_app. done. }
  pose proof Hp as [Hm Hs1 _ _ _ _ _].
  destruct (Hf s1 rest) as (s' & E' & Hm' & Hk); [done|done| | | |].
  - pose proof (mv_r _ _ _ Hm) as Er1. rewrite Er in Er1. by apply app_inv_head in Er1.
  - rewrite Hn. eapply fits_app; [apply Hs|done|done].
  - pose proof (bs_size s (proj1 Hs)) as Hsz. rewrite Er, !length_app in Hsz. lia.
  - exists s'. split; [by rewrite (etm_bind_inr _ _ _ _ _ E)|]. split; [|done].
    eapply moved_trans; [apply Hs|done|done].
Qed.

(** ** Strings *)

(** A string and its header. *)
Lemma rlp_string_header c :
  bytes_ok c →
  (∃ x, c = [x] ∧ header Byte 0 [x] x ∧ rlp_string c = [x]) ∨
  (rlp_string c = rlp_head 0x80 0xB7 (Z.of_nat (length c)) ++ c ∧
   match c with [x] => 128 <= x | _ => True end).
Proof.
  intros Hc. destruct c as [|x [|y c]]; [by right| |by right].
  apply Forall_cons in Hc as [Hx _]. cbn [rlp_string]. destruct (Z.ltb_spec x 128).
  - left. exists x. split; [done|]. split; [|done]. cbn. split_and!; [done|done|lia|lia].
  - by right.
Qed.

Lemma string_head_eq c n :
  Z.of_nat (length c) = n → match c with x :: _ => (n =? 1) && (x <? 128) = false | [] => True end →
  rlp_head 0x80 0xB7 n ++ c = rlp_string c.
Proof.
  intros <-. destruct c as [|x [|y c]]; try done. change (Z.of_nat (length [x]) =? 1) with true. cbn [andb rlp_string].
  by intros ->.
Qed.

Lemma moved_set_kind s b s' k : moved s b s' → moved s b (set_kind k s').
Proof. by intros [? ? ? ?]. Qed.

Lemma rearm_spec s : base s → ∃ s', rearm s = Done (inr tt, s') ∧ moved s [] s' ∧ s_kind s' = None.
Proof. intros Hs. eexists. split; [done|]. split; [|done]. apply moved_nil; try done. apply Hs. Qed.

Lemma single_check_spec n b s :
  single_check n b s = Done (match b with
    | x :: _ => if (n =? 1) && (x <? 128) then inl ErrCanonSize else inr tt
    | [] => inr tt
    end, s).
Proof. unfold single_check. destruct b; [done|]. by case_match. Qed.

(** Reading the body of a string and checking it. *)
Lemma string_body_cases s n :
  base s → 0 <= n →
  ∃ r s', (b ← readFull n; single_check n b;; mret b) s = Done (r, s') ∧
    match r with
    | inr b => rlp_head 0x80 0xB7 n ++ b = rlp_string b ∧ bytes_ok b ∧ Z.of_nat (length b) = n ∧
               moved s b s' ∧ s_kind s' = None
    | inl e => e ≠ EOL
    end.
Proof.
  intros Hs Hn. destruct (readFull_cases s n Hs Hn) as [(b & s' & E & L & Hm & Hk & _)|(e & s' & E & He)].
  - rewrite (etm_bind_inr _ _ _ _ _ E).
    assert (bytes_ok b) as Hb by by apply (moved_bytes s b s').
    pose proof (single_check_spec n b s') as Ec.
    destruct (match b with x :: _ => (n =? 1) && (x <? 128) | [] => false end) eqn:Eb.
    + exists (inl ErrCanonSize), s'. split; [|done]. apply etm_bind_inl. rewrite Ec.
      destruct b; [done|]. by rewrite Eb.
    + exists (inr b), s'. split.
      * erewrite etm_bind_inr; [done|]. rewrite Ec. destruct b; [done|]. by rewrite Eb.
      * split_and!; [|done..]. apply string_head_eq; [done|]. by destruct b.
  - eexists _, _. split; [by apply etm_bind_inl|done].
Qed.

Lemma string_body_fits s b rest :
  base s → s_r s = b ++ rest → fits s (Z.of_nat (length b)) →
  match b with [x] => 128 <= x | _ => True end →
  ∃ s', (c ← readFull (Z.of_nat (length b)); single_check (Z.of_nat (length b)) c;; mret c) s = Done (inr b, s') ∧
    moved s b s' ∧ s_kind s' = None.
Proof.
  intros Hs Er Hf Hx. destruct (readFull_fits s b rest Hs Er Hf) as (s' & E & Hm & Hk & _).
  exists s'. split; [|done]. rewrite (etm_bind_inr _ _ _ _ _ E).
  erewrite etm_bind_inr; [done|]. rewrite single_check_spec.
  destruct b as [|x [|y b]]; [done| |].
  - by rewrite (proj2 (Z.ltb_ge _ _)), andb_false_r.
  - by rewrite (proj2 (Z.eqb_neq _ 1)) by (simpl; lia).
Qed.

Lemma make_bytes_Ok n s : n < 2 ^ 48 → make_bytes n s = Done (inr tt, s).
Proof. intros Hn. unfold make_bytes. by rewrite (proj2 (Z.ltb_lt _ _)). Qed.

(** The single byte a header carries. *)
Lemma byte_read s :
  base s → ∃ s', (x ← byteval; rearm;; mret [x]) s = Done (inr [s_byteval s], s') ∧ moved s [] s' ∧ s_kind s' = None.
Proof.
  intros Hs. destruct (rearm_spec s Hs) as (s' & E & Hm & Hk). exists s'. split; [|done].
  unfold byteval. rewrite (etm_bind_inr _ _ s (s_byteval s) s) by done. by rewrite (etm_bind_inr _ _ _ _ _ E).
Qed.

Lemma Bytes_reads : reads EOL stream_Bytes (λ b e, e = rlp_string b ∧ bytes_ok b).
Proof.
  apply reads_Kind. intros k n h s1 Hs1 Hn Hh Hsz. pose proof (bs_size s1 Hs1).
  destruct k; cbn [header] in Hh; [| |by exists (inl ErrExpectedString), s1].
  - destruct Hh as (_ & -> & Hx). destruct (byte_read s1 Hs1) as (s' & E & Hm & Hk).
    exists (inr [s_byteval s1]), s'. split; [done|]. exists []. split_and!; [|by repeat constructor; lia|done..].
    cbn. by rewrite (proj2 (Z.ltb_lt _ _)) by lia.
  - destruct Hh as [_ ->]. rewrite (etm_bind_inr _ _ s1 tt s1) by (apply make_bytes_Ok; lia).
    destruct (string_body_cases s1 n Hs1) as (r & s' & E & Hr); [lia|]. exists r, s'. split; [done|].
    destruct r as [e|b]; [done|]. destruct Hr as (Eb & Hb & _ & Hm & Hk). exists b. by split_and!.
Qed.

Lemma Bytes_accepts b : bytes_ok b → accepts stream_Bytes b (rlp_string b).
Proof.
  intros Hb. destruct (rlp_string_header b Hb) as [(x & -> & Hh & Er)|[Er Hx]]; rewrite Er.
  - rewrite <- (app_nil_r [x]) at 2. eapply accepts_Kind; [done|done|]. intros s1 rest Hs1 Hbv _ _ _.
    destruct (byte_read s1 Hs1) as (s' & E & Hm & Hk). exists s'. by rewrite <- (Hbv eq_refl).
  - eapply (accepts_Kind _ _ String _ _ 0); [split; [|done]; lia|done|]. intros s1 rest Hs1 _ Er1 Hf _.
    pose proof (bs_size s1 Hs1). destruct Hf as [Hl Ht].
    rewrite (etm_bind_inr _ _ s1 tt s1) by (apply make_bytes_Ok; lia).
    by apply (string_body_fits s1 b rest).
Qed.

(** ** Integers *)

Lemma be_min_bytes_ok i : bytes_ok (be_min i).
Proof. apply be_bytes_ok. Qed.

Lemma rlp_int_value b :
  bytes_ok b → match b with 0 :: _ => False | _ => True end → rlp_string b = rlp_int (be_value b).
Proof.
  intros Hb Hz. unfold rlp_int. destruct b as [|x b]; [done|].
  rewrite be_min_be_value; [done|done|]. by intros ->.
Qed.

Lemma be_value_lt_bits b m :
  bytes_ok b → Z.of_nat (length b) <= m → 0 <= be_value b < 2 ^ (8 * m).
Proof.
  intros Hb Hl. pose proof (be_value_range b Hb) as Hr.
  rewrite Z.pow_mul_r by lia. change (2 ^ 8) with 256.
  assert (256 ^ Z.of_nat (length b) <= 256 ^ m) by (apply Z.pow_le_mono_r; lia). lia.
Qed.

Lemma uint_reads m :
  1 <= m <= 8 → reads EOL (stream_uint (8 * m)) (λ i e, 0 <= i < 2 ^ (8 * m) ∧ e = rlp_int i).
Proof.
  intros Hm. assert (8 * m / 8 = m) as Em by (rewrite Z.mul_comm; apply Z.div_mul; lia).
  apply reads_Kind. intros k n h s1 Hs1 Hn Hh Hsz.
  destruct k; cbn [header] in Hh; [| |by exists (inl ErrExpectedString), s1].
  - destruct Hh as (_ & -> & Hx). unfold byteval. rewrite (etm_bind_inr _ _ s1 (s_byteval s1) s1) by done.
    destruct (Z.eqb_spec (s_byteval s1) 0); [by exists (inl ErrCanonInt), s1|].
    destruct (rearm_spec s1 Hs1) as (s' & E & Hmv & Hk). rewrite (etm_bind_inr _ _ _ _ _ E).
    eexists _, s'. split; [done|]. exists []. split; [|done]. split.
    + assert (2 ^ 8 <= 2 ^ (8 * m)) by (apply Z.pow_le_mono_r; lia). lia.
    + unfold rlp_int. assert (be_min (s_byteval s1) = [s_byteval s1]) as -> by (apply be_min_one; lia). cbn.
      by rewrite (proj2 (Z.ltb_lt _ _)) by lia.
  - destruct Hh as [_ ->]. rewrite Em.
    destruct (Z.ltb_spec m n); [by exists (inl errUintOverflow), s1|].
    unfold read_int. rewrite byte_of_id by lia. destruct (decide (n = 0)) as [->|Hn0].
    { exists (inr 0), (set_kind None s1). split; [done|]. exists [].
      split; [split; [split; [done|by apply Z.pow_pos_nonneg; lia]|done]|].
      split; [apply moved_nil; try done; apply Hs1|done]. }
    unfold mbind at 1, etm_bind at 1.
    destruct (readUint_cases s1 n Hs1) as [(b & s' & E & L & Hmv & Hk & _ & Hz)|(e & s' & E & He)]; [lia| |]; rewrite E.
    + assert (bytes_ok b) as Hb by by apply (moved_bytes s1 b s').
      rewrite (proj2 (Z.ltb_lt 0 n)) by lia. cbn [andb].
      destruct (Z.ltb_spec (be_value b) 128); [by exists (inl ErrCanonSize), s'|].
      eexists _, s'. split; [done|]. exists b. split; [|done]. split.
      * apply (be_value_lt_bits b m Hb). lia.
      * assert (be_min (be_value b) = b) as Emin by (apply be_value_min; [done|intros ?; apply Hz; lia|lia]).
        unfold rlp_int. rewrite Emin. apply string_head_eq; [done|].
        destruct b as [|x [|y b]]; [done| |].
        -- unfold be_value in *. simpl in *. by rewrite (proj2 (Z.ltb_ge _ _)), andb_false_r by lia.
        -- by rewrite (proj2 (Z.eqb_neq n 1)) by (simpl in L; lia).
    + destruct e; try done; eexists _, s'; (split; [done|done]).
Qed.

Lemma byte_len_bits i m : 0 <= i < 2 ^ (8 * m) → 0 <= m → Z.of_nat (byte_len i) <= m.
Proof.
  intros Hi Hm. destruct (Z.eq_dec i 0) as [->|]; [by change (byte_len 0) with 0%nat|].
  pose proof (byte_len_spec i ltac:(lia)) as [Hl _].
  rewrite Z.pow_mul_r in Hi by lia. change (2 ^ 8) with 256 in Hi.
  destruct (Z.le_gt_cases (Z.of_nat (byte_len i)) m); [done|].
  assert (256 ^ m <= 256 ^ (Z.of_nat (byte_len i) - 1)) by (apply Z.pow_le_mono_r; lia). lia.
Qed.

(** An integer is zero, a single byte, or a string with a header. *)
Lemma rlp_int_cases i :
  0 <= i →
  i = 0 ∨ (0 < i < 128 ∧ rlp_int i = [i]) ∨
  (128 <= i ∧ rlp_int i = rlp_head 0x80 0xB7 (Z.of_nat (length (be_min i))) ++ be_min i ∧
   be_min i !!! 0%nat ≠ 0 ∧ 1 <= Z.of_nat (byte_len i)).
Proof.
  intros Hi. destruct (Z.eq_dec i 0); [by left|right]. destruct (Z.lt_ge_cases i 128); [left|right].
  - split; [lia|]. unfold rlp_int. assert (be_min i = [i]) as -> by (apply be_min_one; lia). cbn.
    by rewrite (proj2 (Z.ltb_lt _ _)).
  - split; [done|]. pose proof (byte_len_spec i ltac:(lia)) as Hbl.
    assert (1 <= Z.of_nat (byte_len i)).
    { destruct (byte_len i); [|lia]. simpl in Hbl. lia. }
    rewrite <- be_min_length in *. unfold rlp_int. destruct (be_min i) as [|x l] eqn:E; [simpl in *; lia|].
    split_and!; [|simpl; apply be_min_head in E; lia|done].
    destruct (rlp_string_header (x :: l)) as [(y & Ey & _)|[-> _]]; [rewrite <- E; apply be_min_bytes_ok| |done].
    injection Ey as -> ->. apply be_min_one in E; [|lia].
    destruct (rlp_string_header [y]) as [(z & [= <-] & Hh & _)|[-> _]]; [repeat constructor; lia| |done].
    simpl in Hh. lia.
Qed.

Lemma uint_accepts m i :
  1 <= m <= 8 → 0 <= i < 2 ^ (8 * m) → accepts (stream_uint (8 * m)) i (rlp_int i).
Proof.
  intros Hm Hi. assert (8 * m / 8 = m) as Em by (rewrite Z.mul_comm; apply Z.div_mul; lia).
  destruct (rlp_int_cases i) as [->|[[Hi' ->]|(Hi' & -> & Hz & Hl)]]; [lia| | |].
  - change (rlp_int 0) with ([0x80] ++ [] : list byte). eapply (accepts_Kind _ _ String 0 _ 0); [done|done|].
    intros s1 rest Hs1 _ _ _ _. rewrite Em, (proj2 (Z.ltb_ge _ _)) by lia.
    exists (set_kind None s1). split; [done|]. split; [apply moved_nil; try done; apply Hs1|done].
  - rewrite <- (app_nil_r [i]). eapply (accepts_Kind _ _ Byte 0 _ i); [cbn; split_and!; (done || lia)|done|].
    intros s1 rest Hs1 Hbv _ _ _. unfold byteval. rewrite (etm_bind_inr _ _ s1 i s1) by by rewrite <- Hbv.
    rewrite (proj2 (Z.eqb_neq i 0)) by lia. destruct (rearm_spec s1 Hs1) as (s' & E & Hmv & Hk).
    rewrite (etm_bind_inr _ _ _ _ _ E). by exists s'.
  - eapply (accepts_Kind _ _ String _ _ 0); [split; [|done]; lia|done|]. intros s1 rest Hs1 _ Er Hf _.
    pose proof (byte_len_bits i m Hi ltac:(lia)). rewrite <- be_min_length in *.
    rewrite Em, (proj2 (Z.ltb_ge _ _)), byte_of_id by lia. unfold read_int.
    destruct (readUint_fits s1 (be_min i) rest) as (s' & E & Hmv & Hk & _); [done|done|done|lia|done|].
    unfold mbind, etm_bind. rewrite E, be_value_be_min, (proj2 (Z.ltb_ge i 128)), andb_false_r by lia.
    by exists s'.
Qed.

Lemma reads_impl {E A} (eol : E) (m : etm Stream E A) (enc enc' : A → list byte → Prop) :
  reads eol m enc → (∀ a b, enc a b → enc' a b) → reads eol m enc'.
Proof.
  intros Hm Henc s Hs. destruct (Hm s Hs) as (r & s' & Em & Hr). exists r, s'. split; [done|].
  destruct r; [done|]. destruct Hr as (b & ? & ?). exists b. auto.
Qed.

(** Continuing after a value was read, without reading more. *)
Lemma reads_then {E A B} (eol : E) (m : etm Stream E A) (f : A → etm Stream E B) enc enc' :
  reads eol m enc →
  (∀ a b s, enc a b → ∃ r, f a s = Done (r, s) ∧ match r with inr c => enc' c b | inl e => e ≠ eol end) →
  reads eol (m ≫= f) enc'.
Proof.
  intros Hm Hf s Hs. destruct (Hm s Hs) as ([e|a] & s' & Em & Hr).
  - exists (inl e), s'. split; [by apply etm_bind_inl|done].
  - destruct Hr as (b & Hb & Hne & Hmv & Hk). destruct (Hf a b s' Hb) as (r & Ef & Hr).
    exists r, s'. split; [by rewrite (etm_bind_inr _ _ _ _ _ Em)|]. destruct r as [e|c]; [by intros ->|].
    exists b. by split_and!.
Qed.

Lemma accepts_then {E A B} (m : etm Stream E A) (f : A → etm Stream E B) a c b :
  accepts m a b → (∀ s, f a s = Done (inr c, s)) → accepts (m ≫= f) c b.
Proof.
  intros Hm Hf s rest Hs Er Hfit. destruct (Hm s rest Hs Er Hfit) as (s' & Em & Hmv & Hk).
  exists s'. split; [|done]. by rewrite (etm_bind_inr _ _ _ _ _ Em).
Qed.

Lemma Bool_reads : reads EOL stream_Bool (λ v e, e = rlp_int (if v then 1 else 0)).
Proof.
  eapply reads_then; [apply (uint_reads 1); lia|]. intros i b s [Hi ->]. cbn beta.
  destruct (Z.eqb_spec i 0) as [->|]; [by exists (inr false)|].
  destruct (Z.eqb_spec i 1) as [->|]; [by exists (inr true)|]. by exists (inl errInvalidBool).
Qed.

Lemma Bool_accepts v : accepts stream_Bool v (rlp_int (if v then 1 else 0)).
Proof. eapply accepts_then; [apply (uint_accepts 1); [lia|by destruct v]|]. by destruct v. Qed.

(** Integers of any size.  [P] is what is known of the number of bytes. *)
Lemma int_buffer_reads large (P : list byte → Prop) :
  (∀ b, (length b <= 32)%nat → P b) →
  (∀ s n, base s → 32 < n <= Z.of_nat (length (s_r s)) →
     ∃ r s', large n s = Done (r, s') ∧
       match r with
       | inr b => P b ∧ Z.of_nat (length b) = n ∧ moved s b s' ∧ s_kind s' = None
       | inl e => e ≠ EOL
       end) →
  reads EOL (int_buffer large) (λ b e, e = rlp_string b ∧ bytes_ok b ∧ P b).
Proof.
  intros HP Hlarge. apply reads_Kind. intros k n h s1 Hs1 Hn Hh Hsz.
  destruct k; cbn [header] in Hh; [| |by exists (inl ErrExpectedString), s1].
  - destruct Hh as (_ & -> & Hx). destruct (byte_read s1 Hs1) as (s' & E & Hm & Hk).
    exists (inr [s_byteval s1]), s'. split; [done|]. exists [].
    split_and!; [|by repeat constructor; lia|by apply HP; simpl; lia|done..].
    cbn. by rewrite (proj2 (Z.ltb_lt _ _)) by lia.
  - destruct Hh as [_ ->]. destruct (Z.eqb_spec n 0) as [->|].
    { destruct (rearm_spec s1 Hs1) as (s' & E & Hm & Hk). exists (inr []), s'.
      split; [by rewrite (etm_bind_inr _ _ _ _ _ E)|]. exists []. split_and!; [done|by constructor|apply HP; simpl; lia|done|done]. }
    destruct (Z.leb_spec n 32).
    + destruct (string_body_cases s1 n Hs1) as (r & s' & E & Hr); [lia|]. exists r, s'. split; [done|].
      destruct r as [e|b]; [done|]. destruct Hr as (Eb & Hb & L & Hm & Hk). exists b.
      split_and!; [done|done|apply HP; lia|done|done].
    + destruct (Hlarge s1 n Hs1) as (r & s' & E & Hr); [lia|]. exists r, s'. split; [done|].
      destruct r as [e|b]; [done|]. destruct Hr as (Pb & L & Hm & Hk). exists b.
      split_and!; [|by apply (moved_bytes s1 b s')|done..].
      apply string_head_eq; [done|]. destruct b; [done|]. by rewrite (proj2 (Z.eqb_neq n 1)) by lia.
Qed.

Lemma int_buffer_accepts large b :
  bytes_ok b →
  (∀ s rest, base s → s_r s = b ++ rest → fits s (Z.of_nat (length b)) → (32 < length b)%nat →
     ∃ s', large (Z.of_nat (length b)) s = Done (inr b, s') ∧ moved s b s' ∧ s_kind s' = None) →
  accepts (int_buffer large) b (rlp_string b).
Proof.
  intros Hb Hlarge. destruct (rlp_string_header b Hb) as [(x & -> & Hh & Er)|[Er Hx]]; rewrite Er.
  - rewrite <- (app_nil_r [x]) at 2. eapply accepts_Kind; [done|done|]. intros s1 rest Hs1 Hbv _ _ _.
    destruct (byte_read s1 Hs1) as (s' & E & Hm & Hk). exists s'. by rewrite <- (Hbv eq_refl).
  - eapply (accepts_Kind _ _ String _ _ 0); [split; [|done]; lia|done|]. intros s1 rest Hs1 _ Er1 Hf _.
    destruct (Z.eqb_spec (Z.of_nat (length b)) 0) as [E0|].
    { destruct b; [|simpl in E0; lia]. destruct (rearm_spec s1 Hs1) as (s' & E & Hm & Hk). exists s'.
      by rewrite (etm_bind_inr _ _ _ _ _ E). }
    destruct (Z.leb_spec (Z.of_nat (length b)) 32); [by apply (string_body_fits s1 b rest)|].
    apply (Hlarge s1 rest); [done|done|done|lia].
Qed.

Lemma int_value_reads large (P : list byte → Prop) (Q : Z → Prop) :
  reads EOL (int_buffer large) (λ b e, e = rlp_string b ∧ bytes_ok b ∧ P b) →
  (∀ b, bytes_ok b → P b → Q (be_value b)) →
  reads EOL (buffer ← int_buffer large; int_value buffer) (λ i e, 0 <= i ∧ e = rlp_int i ∧ Q i).
Proof.
  intros Hr HQ. eapply reads_then; [done|]. intros b e s (-> & Hb & Pb). cbn beta. unfold int_value.
  destruct b as [|x b]; [exists (inr 0); split; [done|]; split_and!; [done|done|by apply (HQ [])]|].
  destruct (decide (x = 0)) as [->|Hx]; [by exists (inl ErrCanonInt)|].
  exists (inr (be_value (x :: b))). split; [by destruct x|].
  split_and!; [by apply be_value_range|by apply rlp_int_value; [|destruct x]|by apply HQ].
Qed.

Lemma int_value_accepts large i :
  0 <= i → accepts (int_buffer large) (be_min i) (rlp_int i) →
  accepts (buffer ← int_buffer large; int_value buffer) i (rlp_int i).
Proof.
  intros Hi Ha. eapply accepts_then; [done|]. intros s. unfold int_value.
  pose proof (be_value_be_min i Hi) as Ev. destruct (be_min i) as [|x l] eqn:E; [by rewrite <- Ev|].
  apply be_min_head in E. rewrite Ev. destruct x; (done || lia).
Qed.

Lemma decodeBigInt_reads : reads EOL stream_decodeBigInt (λ i e, 0 <= i ∧ e = rlp_int i).
Proof.
  eapply reads_impl; [apply (int_value_reads _ (λ _, True) (λ _, True)); [|done]|naive_solver].
  apply int_buffer_reads; [done|]. intros s n Hs Hn. pose proof (bs_size s Hs).
  rewrite (etm_bind_inr _ _ s tt s) by (apply make_bytes_Ok; lia).
  destruct (readFull_cases s n Hs) as [(b & s' & E & L & Hm & Hk & _)|(e & s' & E & He)]; [lia| |];
    eexists _, s'; (split; [done|]); [by split_and!|done].
Qed.

Lemma decodeBigInt_accepts i : 0 <= i → accepts stream_decodeBigInt i (rlp_int i).
Proof.
  intros Hi. apply int_value_accepts; [done|]. apply int_buffer_accepts; [apply be_min_bytes_ok|].
  intros s rest Hs Er Hf _. pose proof (bs_size s Hs). pose proof Hf as [Hl _].
  rewrite (etm_bind_inr _ _ s tt s) by (apply make_bytes_Ok; lia).
  destruct (readFull_fits s (be_min i) rest Hs Er Hf) as (s' & E & Hm & Hk & _). by exists s'.
Qed.

Lemma ReadUint256_reads : reads EOL ReadUint256 (λ i e, 0 <= i < 2 ^ 256 ∧ e = rlp_int i).
Proof.
  eapply reads_impl; [apply (int_value_reads _ (λ b, (length b <= 32)%nat) (λ i, i < 2 ^ 256))|naive_solver].
  - apply int_buffer_reads; [done|]. intros s n Hs Hn. by exists (inl errUint256Large), s.
  - intros b Hb Hl. pose proof (be_value_lt_bits b 32 Hb). lia.
Qed.

Lemma ReadUint256_accepts i : 0 <= i < 2 ^ 256 → accepts ReadUint256 i (rlp_int i).
Proof.
  intros Hi. apply int_value_accepts; [lia|]. apply int_buffer_accepts; [apply be_min_bytes_ok|].
  intros s rest _ _ _ Hl. pose proof (byte_len_bits i 32 Hi). rewrite be_min_length in Hl. lia.
Qed.

(** ** Raw values *)

(** A header and as many bytes as it announces. *)
Definition raw_value (b : list byte) : Prop :=
  ∃ k n h bv c, header k n h bv ∧ b = h ++ c ∧ n = Z.of_nat (length c).

Lemma raw_head k n h bv :
  k ≠ Byte → header k n h bv → n < 2 ^ 48 →
  h = (if decide (k = String) then puthead 0x80 0xB7 n else puthead 0xC0 0xF7 n) ∧
  headsize n = Z.of_nat (length h).
Proof.
  intros Hk Hh Hn. destruct k; [done| |]; destruct Hh as [Hn0 ->];
    (split; [symmetry; apply puthead_rlp_head; lia|by rewrite rlp_head_length by lia]).
Qed.

Lemma Raw_reads : reads EOL Raw (λ b e, e = b ∧ raw_value b).
Proof.
  apply reads_Kind. intros k n h s1 Hs1 Hn Hh Hsz.
  destruct (decide (k = Byte)) as [->|Hk].
  - destruct Hh as (-> & -> & Hx). destruct (byte_read s1 Hs1) as (s' & E & Hm & Hk).
    exists (inr [s_byteval s1]), s'. split; [done|]. exists []. split; [|done]. split; [done|].
    exists Byte, 0, [s_byteval s1], (s_byteval s1), []. split; [|done]. cbn. split_and!; (done || lia).
  - destruct (raw_head k n h (s_byteval s1) Hk Hh) as [Eh El]; [lia|].
    assert (∃ r s', (make_bytes (headsize n + n)%u64;; b ← readFull n;
      mret ((if decide (k = String) then puthead 0x80 0xB7 n else puthead 0xC0 0xF7 n) ++ b)) s1 = Done (r, s') ∧
      match r with
      | inr a => ∃ b, (h ++ b = a ∧ raw_value a) ∧ moved s1 b s' ∧ s_kind s' = None
      | inl e => e ≠ EOL
      end) as (r & s' & E & Hr); [|exists r, s'; by destruct k].
    rewrite (etm_bind_inr _ _ s1 tt s1) by (apply make_bytes_Ok; rewrite u64_id; unfold u64_ok; lia).
    destruct (readFull_cases s1 n Hs1) as [(b & s' & E & L & Hm & Hkn & _)|(e & s' & E & He)]; [lia| |].
    + eexists _, s'. split; [by rewrite (etm_bind_inr _ _ _ _ _ E)|]. exists b. rewrite <- Eh.
      split; [|done]. split; [done|]. by exists k, n, h, (s_byteval s1), b.
    + eexists _, s'. split; [by apply etm_bind_inl|done].
Qed.

Lemma Raw_accepts b : raw_value b → accepts Raw b b.
Proof.
  intros (k & n & h & bv & c & Hh & -> & Hn). eapply accepts_Kind; [done|done|].
  intros s1 rest Hs1 Hbv Er Hf Hsz. destruct (decide (k = Byte)) as [->|Hk].
  - destruct Hh as (-> & -> & _). destruct c; [|simpl in Hn; lia].
    destruct (byte_read s1 Hs1) as (s' & E & Hm & Hk). exists s'. by rewrite <- (Hbv eq_refl).
  - pose proof (header_len _ _ _ _ Hh). destruct (raw_head k n h bv Hk Hh) as [Eh El]; [lia|].
    assert (∃ s', (make_bytes (headsize n + n)%u64;; b ← readFull n;
      mret ((if decide (k = String) then puthead 0x80 0xB7 n else puthead 0xC0 0xF7 n) ++ b)) s1
      = Done (inr (h ++ c), s') ∧ moved s1 c s' ∧ s_kind s' = None) as (s' & E & Hm);
      [|exists s'; by destruct k].
    rewrite (etm_bind_inr _ _ s1 tt s1) by (apply make_bytes_Ok; rewrite u64_id; unfold u64_ok; lia).
    rewrite Hn in Hf. destruct (readFull_fits s1 c rest Hs1 Er Hf) as (s' & E & Hm & Hkn & _).
    exists s'. split; [|done]. rewrite Hn at 1. rewrite (etm_bind_inr _ _ _ _ _ E). by rewrite <- Eh.
Qed.

(** ** Lists *)

(** [s1] is the stream [s] inside of a list of [n] bytes. *)
Record entered (s : Stream) (n : Z) (s1 : Stream) : Prop := mkEntered {
  en_ready : ready s1;
  en_size : 0 <= n <= Z.of_nat (length (s_r s1));
  en_r : s_r s = rlp_head 0xC0 0xF7 n ++ s_r s1;
  en_stack : s_stack s1 =
    n :: match s_stack s with
         | [] => []
         | l :: st => (l - Z.of_nat (length (rlp_head 0xC0 0xF7 n)) - n)%u64 :: st
         end;
  en_limited : s_limited s1 = s_limited s;
  en_remaining : s_remaining s1 = s_remaining s - Z.of_nat (length (rlp_head 0xC0 0xF7 n));
}.

Lemma peeked_entered s n s1 :
  peeked s List n (rlp_head 0xC0 0xF7 n) s1 →
  entered s n (set_size 0 (set_kind None (set_stack
    (n :: match s_stack s1 with limit :: st => (limit - n)%u64 :: st | [] => [] end) s1))).
Proof.
  intros [Hm [Hl Hr Hb Hsz Hst] _ _ _ Hh Hlen]. pose proof (header_len _ _ _ _ Hh) as [_ Hn].
  pose proof Hm as [Er Est El Erem]. split; try done; simpl.
  - split; [split; try done|done]. simpl. constructor; [unfold u64_ok; lia|].
    destruct (s_stack s1); [done|]. apply Forall_cons in Hst as [_ Hst]. constructor; [apply u64_range|done].
  - f_equal. rewrite Est. destruct (s_stack s); [done|]. by rewrite u64_sub_l.
Qed.

Lemma stream_List_cases s :
  ready s →
  (listLimit s = Some 0 ∧ stream_List s = Done (inl EOL, s)) ∨
  (∃ e s1, stream_List s = Done (inl e, s1) ∧ e ≠ EOL) ∨
  (∃ n s1, stream_List s = Done (inr n, s1) ∧ entered s n s1).
Proof.
  intros Hs. unfold stream_List.
  destruct (stream_Kind_cases s Hs) as [[Hl E]|[(e & s1 & E & He)|(k & n & h & s1 & E & Hp)]].
  - left. split; [done|by apply etm_bind_inl].
  - right. left. exists e, s1. split; [by apply etm_bind_inl|done].
  - right. rewrite (etm_bind_inr _ _ _ _ _ E). destruct k; [by left; eauto|by left; eauto|right].
    pose proof (pk_header _ _ _ _ _ Hp) as [_ ->]. eexists n, _. split; [done|]. by apply peeked_entered.
Qed.

Lemma stream_List_fits s c rest :
  ready s → s_r s = rlp_list c ++ rest → fits s (Z.of_nat (length (rlp_list c))) →
  ∃ s1, stream_List s = Done (inr (Z.of_nat (length c)), s1) ∧ entered s (Z.of_nat (length c)) s1 ∧
    s_r s1 = c ++ rest.
Proof.
  intros Hs Er Hf. unfold rlp_list in *. rewrite <- app_assoc in Er. rewrite length_app, Nat2Z.inj_add in Hf.
  destruct (stream_Kind_fits s List (Z.of_nat (length c)) (rlp_head 0xC0 0xF7 (Z.of_nat (length c))) 0 (c ++ rest))
    as (s1 & E & Hp & _); [done|split; [lia|done]|done|done|].
  unfold stream_List. rewrite (etm_bind_inr _ _ _ _ _ E). eexists. split; [done|].
  split; [by apply peeked_entered|]. pose proof (mv_r _ _ _ (pk_moved _ _ _ _ _ Hp)) as Er1.
  rewrite Er in Er1. by apply app_inv_head in Er1.
Qed.

(** The end of a list whose content [c] has been read. *)
Lemma ListEnd_cases s n s1 c s2 :
  base s → entered s n s1 → moved s1 c s2 →
  (ListEnd s2 = Done (inl errNotAtEOL, s2) ∧ n ≠ Z.of_nat (length c)) ∨
  (∃ s3, ListEnd s2 = Done (inr tt, s3) ∧ n = Z.of_nat (length c) ∧ moved s (rlp_list c) s3 ∧ s_kind s3 = None).
Proof.
  intros Hs [[Hb1 Hk1] Hn Er Est El Erem] [Er' Est' El' Erem'].
  unfold ListEnd. rewrite Est', Est. cbn [head]. pose proof (bs_size s1 Hb1) as Hsz.
  rewrite Er', length_app in Hsz, Hn.
  destruct (Z.ltb_spec 0 (n - Z.of_nat (length c))%u64) as [Hlt|Hge].
  - left. split; [done|]. intros ->. by rewrite Z.sub_diag in Hlt.
  - right. assert (n = Z.of_nat (length c)) as ->.
    { pose proof (u64_range (n - Z.of_nat (length c))) as Hr.
      assert (u64 (n - Z.of_nat (length c)) = 0) as E0 by (unfold u64_ok in Hr; lia).
      unfold u64 in E0. apply Z.mod_divide in E0 as [q Eq]; lia. }
    eexists. split; [done|]. split; [done|]. split; [|done]. unfold rlp_list.
    split; cbn [set_size set_kind set_stack s_r s_stack s_limited s_remaining].
    + by rewrite Er, Er', app_assoc.
    + destruct (s_stack s); [done|]. by rewrite length_app, Nat2Z.inj_add, Z.sub_add_distr.
    + congruence.
    + rewrite length_app. lia.
Qed.

(** The limit of the outer list is compared with the size of an inner one before its header
    is taken off: an inner list of the same size is entered, and what is left of the outer
    one wraps around. *)
Lemma list_limit_wraps :
  match (_ ← stream_List; stream_List) (NewStream [0xC2; 0xC2; 1; 2] true 0) with
  | Done (inr n, s) => n = 2 ∧ s_stack s = [2; 2 ^ 64 - 1]
  | _ => False
  end.
Proof. vm_compute. by split. Qed.
