(* ===== verification/RlpDecode.v ===== *)
(** * RLP decoding (the decoders of rlp/decode.go)

    [makeDecoder] builds the decoder of a Go type from reflection.  A decoder reads from
    the stream into a variable that holds its zero value, as after [var x T] or [new(T)],
    and the result is the value it leaves there; decoding over old contents is not
    modelled.  Types with a [DecodeRLP] method of their own call [custom].  The loops over
    list elements take a number of rounds: each element takes at least one byte. *)

From stdpp Require Import strings pretty.
From S2P Require Import Prelude Bytes RlpEncode RlpRaw RlpStruct RlpStream.

Open Scope Z_scope.

Inductive dec_error :=
| StreamError (e : rlp_error)
| decodeError (msg typ : string) (ctx : list string)
| TypeError (e : writer_error)
| errNoPointer
| errDecodeIntoNil.

Abbreviation dm := (etm Stream dec_error).

Definition wrapStreamError (err : rlp_error) (typ : string) : dec_error :=
  match err with
  | ErrCanonInt => decodeError "non-canonical integer (leading zero bytes)" typ []
  | ErrCanonSize => decodeError "non-canonical size information" typ []
  | ErrExpectedList => decodeError "expected input list" typ []
  | ErrExpectedString => decodeError "expected input string or byte" typ []
  | errUintOverflow => decodeError "input string too long" typ []
  | errNotAtEOL => decodeError "input list has too many elements" typ []
  | _ => StreamError err
  end.

Definition addErrorContext (err : dec_error) (ctx : string) : dec_error :=
  match err with
  | decodeError msg typ c => decodeError msg typ (c ++ [ctx])
  | _ => err
  end.

(** A stream operation whose error is returned as it is, or wrapped for a type. *)
Definition map_err {S E E' A} (f : E → E') (m : etm S E A) : etm S E' A := λ s,
  match m s with
  | Done (inl e, s) => Done (inl (f e), s)
  | Done (inr a, s) => Done (inr a, s)
  | Crash msg => Crash msg
  | OutOfFuel => OutOfFuel
  end.
Definition plainly {A} (m : sm A) : dm A := map_err StreamError m.
Definition wrapped {A} (typ : string) (m : sm A) : dm A := map_err (λ e, wrapStreamError e typ) m.

(** ** Values without elements *)

Definition decodeRawValue : dm GoValue := r ← plainly Raw; mret (VRawValue r).

(** [typ.Bits()] of the unsigned kinds. *)
Definition uint_bits (kind : Z) : Z :=
  if kind =? 8 then 8 else if kind =? 9 then 16 else if kind =? 10 then 32 else 64.

Definition decodeUint (typ : RType) : dm GoValue :=
  num ← wrapped (rt_String typ) (stream_uint (uint_bits (rt_Kind typ))); mret (VUint num).
Definition decodeBool (typ : RType) : dm GoValue :=
  b ← wrapped (rt_String typ) stream_Bool; mret (VBool b).
Definition decodeString (typ : RType) : dm GoValue :=
  b ← wrapped (rt_String typ) stream_Bytes; mret (VString b).
Definition decodeBigInt (typ : string) : dm Z := wrapped typ stream_decodeBigInt.
Definition decodeU256 (typ : string) : dm Z := wrapped typ ReadUint256.
Definition decodeByteSlice (typ : RType) : dm GoValue :=
  b ← wrapped (rt_String typ) stream_Bytes; mret (VBytes b).

Definition decodeByteArray (typ : RType) : dm GoValue :=
  let n := Z.of_nat (rt_Len typ) in
  let fail_msg msg := fail (decodeError msg (rt_String typ) []) in
  '(kind, size) ← plainly stream_Kind;
  match kind with
  | Byte =>
      if n =? 0 then fail_msg "input string too long"%string
      else if 1 <? n then fail_msg "input string too short"%string
      else x ← plainly byteval; plainly rearm;; mret (VByteArray [x])
  | String =>
      if n <? size then fail_msg "input string too long"%string
      else if size <? n then fail_msg "input string too short"%string
      else
        b ← plainly (readFull size);
        wrapped (rt_String typ) (single_check size b);;
        mret (VByteArray b)
  | List => fail (wrapStreamError ErrExpectedString (rt_String typ))
  end.

(** ** Lists *)

Definition index_ctx (i : nat) : string := "[" +:+ pretty i +:+ "]".

(** The elements up to the end of the list, [i] of them read. *)
Fixpoint decodeSliceElems (fuel : nat) (elemdec : dm GoValue) (i : nat) : dm (list GoValue) := λ s,
  match fuel with
  | O => OutOfFuel
  | S fuel =>
      match elemdec s with
      | Done (inl (StreamError EOL), s) => Done (inr [], s)
      | Done (inl e, s) => Done (inl (addErrorContext e (index_ctx i)), s)
      | Done (inr v, s) => (vs ← decodeSliceElems fuel elemdec (S i); mret (v :: vs)) s
      | Crash msg => Crash msg
      | OutOfFuel => OutOfFuel
      end
  end.

Definition decodeListSlice (fuel : nat) (typ : string) (elemdec : dm GoValue) : dm GoValue :=
  size ← wrapped typ stream_List;
  if size =? 0 then plainly ListEnd;; mret (VSlice false [])
  else
    vs ← decodeSliceElems fuel elemdec 0;
    plainly ListEnd;;
    mret (VSlice false vs).

(** The loop of [decodeListArray] over the [n] elements from [i] on. *)
Fixpoint decode_array_elems (typ : string) (elemdec : dm GoValue) (n i : nat) : dm (list GoValue) := λ s,
  match n with
  | O => Done (inr [], s)
  | S n =>
      match elemdec s with
      | Done (inl (StreamError EOL), s) => Done (inl (decodeError "input list has too few elements" typ []), s)
      | Done (inl e, s) => Done (inl (addErrorContext e (index_ctx i)), s)
      | Done (inr v, s) => (vs ← decode_array_elems typ elemdec n (S i); mret (v :: vs)) s
      | Crash msg => Crash msg
      | OutOfFuel => OutOfFuel
      end
  end.

Definition decodeListArray (typ : RType) (elemdec : dm GoValue) : dm GoValue :=
  _ ← wrapped (rt_String typ) stream_List;
  vs ← decode_array_elems (rt_String typ) elemdec (rt_Len typ) 0;
  wrapped (rt_String typ) ListEnd;;
  mret (VSlice false vs).

(** [decodeInterface] for [interface{}]; the elements of a list are interfaces again. *)
Fixpoint decode_any (fuel : nat) : dm GoValue :=
  match fuel with
  | O => out_of_fuel
  | S fuel =>
      '(kind, _) ← plainly stream_Kind;
      if decide (kind = List) then
        slice ← decodeListSlice (S fuel) "[]interface {}" (decode_any fuel);
        mret (VInterface (Some slice))
      else
        b ← plainly stream_Bytes;
        mret (VInterface (Some (VBytes b)))
  end.
Definition decodeInterface (fuel : nat) (typ : RType) : dm GoValue :=
  if negb (rt_NumMethod typ =? 0)%nat then fail (TypeError (NotSerializable (rt_String typ)))
  else decode_any fuel.

(** ** Zero values *)

(** [reflect.Zero]. *)
Fixpoint zero_value (typ : RType) (tags : Tags) : GoValue :=
  let kind := rt_Kind typ in
  let zero_elem := match rt_Elem typ with Some e => zero_value e no_tags | None => VUnsupported end in
  match rt_own typ with
  | Some OwnRaw => VRawValue []
  | Some OwnBigPtr => VBigIntPtr None
  | Some OwnBig => VBigInt 0
  | Some OwnU256Ptr => VU256Ptr None
  | Some OwnU256 => VU256 0
  | None =>
      if kind =? Kind.Ptr then
        VPtr (match rt_Elem typ with Some e => typeNilKind e tags | None => NilKindList end) None
      else if isUint kind then VUint 0
      else if kind =? Kind.Bool then VBool false
      else if kind =? Kind.String then VString []
      else if kind =? Kind.Slice then
        if from_option is_byte_type false (rt_Elem typ) then VBytes [] else VSlice (tg_Tail tags) []
      else if kind =? Kind.Array then
        if from_option is_byte_type false (rt_Elem typ) then VByteArray (replicate (rt_Len typ) 0)
        else VSlice false (replicate (rt_Len typ) zero_elem)
      else if kind =? Kind.Struct then
        match structFields typ with
        | inl _ => VUnsupported
        | inr fields =>
            let zeros := map (λ '(_, _, _, ft), zero_value ft) (rt_Field typ) in
            VStruct (firstOptionalField fields)
              ((λ '(i, ts), (true, match zeros !! i with Some z => z ts | None => VUnsupported end)) <$> fields)
        end
      else if kind =? Kind.Interface then VInterface None
      else VUnsupported
  end.

(** [IsZero] of a decoded value: the slices a decoder makes are not nil. *)
Fixpoint IsZero (typ : RType) (v : GoValue) : bool :=
  match v with
  | VRawValue _ | VBytes _ | VUnsupported => false
  | VBigIntPtr i | VU256Ptr i => match i with None => true | Some _ => false end
  | VBigInt i | VU256 i | VUint i => i =? 0
  | VPtr _ v | VInterface v => match v with None => true | Some _ => false end
  | VBool b => negb b
  | VString s => match s with [] => true | _ => false end
  | VByteArray b => forallb (Z.eqb 0) b
  | VSlice _ vs =>
      (rt_Kind typ =? Kind.Array) &&
      match rt_Elem typ with Some e => forallb (IsZero e) vs | None => false end
  | VStruct _ fields => forallb fst fields
  end.

(** ** Structs *)

Record field_dec := mkFieldDec {
  fdc_name : string;
  fdc_optional : bool;
  fdc_zero : GoValue;
  fdc_is_zero : GoValue → bool;
  fdc_decoder : dm GoValue;
}.

(** The loop of the struct decoder; [zeroFields] clears what an early end leaves. *)
Fixpoint decode_fields (typ : string) (fields : list field_dec) : dm (list (bool * GoValue)) := λ s,
  match fields with
  | [] => Done (inr [], s)
  | f :: rest =>
      match fdc_decoder f s with
      | Done (inl (StreamError EOL), s) =>
          if fdc_optional f then Done (inr ((λ f, (true, fdc_zero f)) <$> fields), s)
          else Done (inl (decodeError "too few elements" typ []), s)
      | Done (inl e, s) => Done (inl (addErrorContext e ("." +:+ fdc_name f)), s)
      | Done (inr v, s) => (vs ← decode_fields typ rest; mret ((fdc_is_zero f v, v) :: vs)) s
      | Crash msg => Crash msg
      | OutOfFuel => OutOfFuel
      end
  end.

Definition decodeStruct (typ : string) (firstOptional : nat) (fields : list field_dec) : dm GoValue :=
  _ ← wrapped typ stream_List;
  vs ← decode_fields typ fields;
  wrapped typ ListEnd;;
  mret (VStruct firstOptional vs).

(** The fields of a struct type with the decoders of their types. *)
Definition field_decoders (typ : RType) (decs : list (Tags → writer_error + dm GoValue))
  : list (nat * Tags) → writer_error + list field_dec :=
  fix go fields :=
    match fields with
    | [] => inr []
    | (i, ts) :: fields =>
        match decs !! i, rt_Field typ !! i with
        | Some dec, Some (name, _, _, ft) =>
            match dec ts with
            | inl e => inl (StructFieldError (rt_String typ) i e)
            | inr d =>
                rest ← go fields;
                inr (mkFieldDec name (tg_Optional ts) (zero_value ft ts) (IsZero ft) d :: rest)
            end
        | _, _ => go fields (* indices come from the fields of the type *)
        end
    end.

(** ** Pointers *)

Definition makeSimplePtrDecoder (nilKind : byte) (dec : dm GoValue) : dm GoValue :=
  v ← dec; mret (VPtr nilKind (Some v)).

Definition kind_name (nilKind : byte) : string := if nilKind =? NilKindList then "List" else "String".
Definition kind_byte (k : Kind) : byte := match k with List => NilKindList | _ => NilKindString end.

Definition makeNilPtrDecoder (typ : string) (nilKind : byte) (dec : dm GoValue) : dm GoValue :=
  '(kind, size) ← wrapped typ stream_Kind;
  if negb (bool_decide (kind = Byte)) && (size =? 0) then
    if negb (kind_byte kind =? nilKind) then
      fail (decodeError ("wrong kind of empty value (got " +:+ kind_name (kind_byte kind) +:+
                         ", want " +:+ kind_name nilKind +:+ ")") typ [])
    else plainly rearm;; mret (VPtr nilKind None)
  else
    v ← dec; mret (VPtr nilKind (Some v)).

(** ** [makeDecoder] *)

Definition is_byte_elem (typ : RType) : bool := (rt_Kind typ =? Kind.Uint8) && negb (rt_PtrIsDecoder typ).

Section make.
Context (custom : RType → dm GoValue) (fuel : nat).

Fixpoint makeDecoder (typ : RType) (tags : Tags) {struct typ} : writer_error + dm GoValue :=
  let kind := rt_Kind typ in
  let elem := match rt_Elem typ with
              | Some e => makeDecoder e no_tags
              | None => inl (NotSerializable (rt_String typ))
              end in
  match rt_own typ with
  | Some OwnRaw => inr decodeRawValue
  | Some OwnBigPtr => inr (i ← decodeBigInt (rt_String typ); mret (VBigIntPtr (Some i)))
  | Some OwnBig => inr (i ← decodeBigInt ("*" +:+ rt_String typ); mret (VBigInt i))
  | Some OwnU256Ptr => inr (i ← decodeU256 (rt_String typ); mret (VU256Ptr (Some i)))
  | Some OwnU256 => inr (i ← decodeU256 ("*" +:+ rt_String typ); mret (VU256 i))
  | None =>
      if kind =? Kind.Ptr then
        dec ← elem;
        let nilKind := match rt_Elem typ with Some e => typeNilKind e tags | None => NilKindList end in
        inr (if tg_NilOK tags then makeNilPtrDecoder (rt_String typ) nilKind dec
             else makeSimplePtrDecoder nilKind dec)
      else if rt_PtrIsDecoder typ then inr (custom typ)
      else if isUint kind then inr (decodeUint typ)
      else if kind =? Kind.Bool then inr (decodeBool typ)
      else if kind =? Kind.String then inr (decodeString typ)
      else if (kind =? Kind.Slice) || (kind =? Kind.Array) then
        if from_option is_byte_elem false (rt_Elem typ) then
          inr (if kind =? Kind.Array then decodeByteArray typ else decodeByteSlice typ)
        else
          dec ← elem;
          inr (if kind =? Kind.Array then decodeListArray typ dec
               else if tg_Tail tags then vs ← decodeSliceElems fuel dec 0; mret (VSlice true vs)
               else decodeListSlice fuel (rt_String typ) dec)
      else if kind =? Kind.Struct then
        match structFields typ with
        | inl e => inl (BadTag e)
        | inr fields =>
            ds ← field_decoders typ (map (λ '(_, _, _, ft), makeDecoder ft) (rt_Field typ)) fields;
            inr (decodeStruct (rt_String typ) (firstOptionalField fields) ds)
        end
      else if kind =? Kind.Interface then inr (decodeInterface fuel typ)
      else inl (NotSerializable (rt_String typ))
  end.

(** ** [Decode] *)

(** What [Decode] is given: nothing, a value that is not a pointer, a nil pointer, or a
    pointer to a variable of the type. *)
Inductive target := NilInterface | NotPointer | NilPointer | PointerTo (typ : RType).

Definition stream_Decode (val : target) : dm GoValue :=
  match val with
  | NilInterface | NilPointer => fail errDecodeIntoNil
  | NotPointer => fail errNoPointer
  | PointerTo typ =>
      match makeDecoder typ no_tags with
      | inl e => fail (TypeError e)
      | inr decoder =>
          map_err (λ e, match e with
                        | decodeError _ _ (_ :: _) => addErrorContext e ("(" +:+ rt_String typ +:+ ")")
                        | _ => e
                        end) decoder
      end
  end.

(** [Decode] and [DecodeBytes], on a stream [s0] from the pool. *)
Definition Decode (s0 : Stream) (r : list byte) (sized : bool) (val : target)
  : outcome ((dec_error + GoValue) * Stream) :=
  stream_Decode val (Reset r sized 0 s0).

Definition DecodeBytes (s0 : Stream) (b : list byte) (val : target) : outcome (dec_error + GoValue) :=
  match stream_Decode val (Reset b true (Z.of_nat (length b)) s0) with
  | Done (inl e, _) => Done (inl e)
  | Done (inr v, s) => Done (match s_r s with [] => inr v | _ => inl (StreamError ErrMoreThanOneValue) end)
  | Crash msg => Crash msg
  | OutOfFuel => OutOfFuel
  end.
End make.
