(* ===== verification/RlpDecodeProps.v ===== *)
(** * Decoding is total, canonical, and inverts encoding

    The decoders of [RlpDecode] over a stream limited to its input.  They return for every
    input; for types without optional fields, what they accept is exactly the encoding of
    the value they return; and the encoding of a value of the type is decoded to it. *)

From stdpp Require Import strings.
From S2P Require Import Prelude Bytes RlpEncode RlpRaw RlpStruct RlpStream RlpStreamProps RlpDecode.

Open Scope Z_scope.

Abbreviation eol := (StreamError EOL).

(** ** Decoders that begin with [Kind] *)

(** The decoder looks at the kind of the next value first and passes on the end of the
    list. *)
Definition kind_first {A} (dec : dm A) : Prop :=
  ∃ (g : rlp_error → dec_error) (f : Kind * Z → dm A), g EOL = eol ∧
    ∀ s, dec s = (map_err g stream_Kind ≫= f) s.

(** Stream operations that begin with [Kind]. *)
Definition kind_op {A} (m : sm A) : Prop := ∃ f : Kind * Z → sm A, ∀ s, m s = (stream_Kind ≫= f) s.

Lemma kind_op_Kind {A} (f : Kind * Z → sm A) : kind_op (stream_Kind ≫= f).
Proof. by exists f. Qed.

Lemma kind_op_bind {A B} (m : sm A) (h : A → sm B) : kind_op m → kind_op (m ≫= h).
Proof.
  intros [f Hm]. exists (λ kn, f kn ≫= h). intros s. unfold mbind at 1, etm_bind at 1. rewrite Hm.
  unfold mbind, etm_bind. by destruct (stream_Kind s) as [[[e|kn] s1]| |].
Qed.

Lemma kind_first_map {A} (g : rlp_error → dec_error) (m : sm A) :
  g EOL = eol → kind_op m → kind_first (map_err g m).
Proof.
  intros Hg [f Hm]. exists g, (λ kn, map_err g (f kn)). split; [done|]. intros s.
  unfold map_err at 1. rewrite Hm. unfold map_err, mbind, etm_bind.
  by destruct (stream_Kind s) as [[[e|kn] s1]| |].
Qed.

Lemma kind_first_bind {A B} (dec : dm A) (f : A → dm B) : kind_first dec → kind_first (dec ≫= f).
Proof.
  intros (g & k & Hg & Hd). exists g, (λ kn, k kn ≫= f). split; [done|]. intros s.
  unfold mbind at 1, etm_bind at 1. rewrite Hd. unfold mbind, etm_bind.
  by destruct (map_err g stream_Kind s) as [[[e|kn] s1]| |].
Qed.

Lemma kind_first_eta {A} (dec dec' : dm A) : (∀ s, dec s = dec' s) → kind_first dec' → kind_first dec.
Proof. intros E (g & f & Hg & Hd). exists g, f. split; [done|]. intros s. by rewrite E. Qed.

Lemma wrap_eol typ : wrapStreamError EOL typ = eol.
Proof. done. Qed.

(** At the end of a list the decoder says so. *)
Lemma kind_first_stops {A} (dec : dm A) s :
  kind_first dec → ready s → listLimit s = Some 0 → dec s = Done (inl eol, s).
Proof.
  intros (g & f & Hg & Hd) [_ Hk] Hl. rewrite Hd. apply etm_bind_inl. unfold map_err, stream_Kind.
  rewrite Hk, bool_decide_true by done. by rewrite Hg.
Qed.

(** A kind that has been looked at already is not read again. *)
Lemma kind_first_peek {A} (dec : dm A) s k n h s1 :
  kind_first dec → stream_Kind s = Done (inr (k, n), s1) → peeked s k n h s1 → dec s1 = dec s.
Proof.
  intros (g & f & Hg & Hd) E Hp. rewrite !Hd. unfold mbind, etm_bind, map_err.
  by rewrite E, (stream_Kind_again _ _ _ _ _ Hp).
Qed.

(** After [Kind] the decoder goes on as from before, or fails in any case. *)
Definition peeks {A} (dec : dm A) : Prop := ∀ s k n h s1,
  stream_Kind s = Done (inr (k, n), s1) → peeked s k n h s1 →
  dec s1 = dec s ∨ ∃ e, e ≠ eol ∧ dec s1 = Done (inl e, s1).

Lemma kind_first_peeks {A} (dec : dm A) : kind_first dec → peeks dec.
Proof. intros Hk s k n h s1 E Hp. left. by eapply kind_first_peek. Qed.

(** ** Reading and accepting, within a bound on the input *)

Definition decodes {A} (N : nat) (dec : dm A) (enc : A → list byte → Prop) : Prop :=
  ∀ s, ready s → (length (s_r s) < N)%nat →
  ∃ r s', dec s = Done (r, s') ∧
    match r with
    | inr a => ∃ b, enc a b ∧ b ≠ [] ∧ moved s b s' ∧ s_kind s' = None
    | inl e => e = eol → s' = s ∧ listLimit s = Some 0
    end.

(** The same for what may read nothing, a tail of a list; it does not report its end. *)
Definition decodes_tail {A} (N : nat) (dec : dm A) (enc : A → list byte → Prop) : Prop :=
  ∀ s, ready s → (length (s_r s) < N)%nat →
  ∃ r s', dec s = Done (r, s') ∧
    match r with
    | inr a => ∃ b, enc a b ∧ moved s b s' ∧ s_kind s' = None
    | inl e => e ≠ eol
    end.

Lemma moved_ready s b s' : ready s → moved s b s' → s_kind s' = None → ready s'.
Proof. intros [Hs _] Hm Hk. split; [by eapply moved_base|done]. Qed.

Lemma moved_length s b s' : moved s b s' → length (s_r s) = (length b + length (s_r s'))%nat.
Proof. intros Hm. by rewrite (mv_r _ _ _ Hm), length_app. Qed.

Lemma reads_decodes {A} N (g : rlp_error → dec_error) (m : sm A) enc :
  (∀ e, g e = eol → e = EOL) → reads EOL m enc → decodes N (map_err g m) enc.
Proof.
  intros Hg Hm s Hs _. destruct (Hm s Hs) as ([e|a] & s' & E & Hr); unfold map_err; rewrite E.
  - eexists _, s'. split; [done|]. intros ->%Hg. by apply Hr.
  - by eexists _, s'.
Qed.

Lemma wrap_eol_inv typ e : wrapStreamError e typ = eol → e = EOL.
Proof. by destruct e. Qed.

Lemma decodes_then {A B} N (dec : dm A) (f : A → dm B) enc enc' :
  decodes N dec enc →
  (∀ a b s, enc a b → ∃ r, f a s = Done (r, s) ∧ match r with inr c => enc' c b | inl e => e ≠ eol end) →
  decodes N (dec ≫= f) enc'.
Proof.
  intros Hm Hf s Hs HN. destruct (Hm s Hs HN) as ([e|a] & s' & E & Hr).
  - exists (inl e), s'. split; [by apply etm_bind_inl|done].
  - destruct Hr as (b & Hb & Hne & Hmv & Hk). destruct (Hf a b s' Hb) as (r & Ef & Hr).
    exists r, s'. split; [by rewrite (etm_bind_inr _ _ _ _ _ E)|]. destruct r as [e|c]; [by intros ->|].
    exists b. by split_and!.
Qed.

Lemma decodes_impl {A} N (dec : dm A) (enc enc' : A → list byte → Prop) :
  decodes N dec enc → (∀ a b, enc a b → enc' a b) → decodes N dec enc'.
Proof.
  intros Hm Henc s Hs HN. destruct (Hm s Hs HN) as (r & s' & E & Hr). exists r, s'. split; [done|].
  destruct r; [done|]. destruct Hr as (b & ? & ?). exists b. auto.
Qed.

Lemma decodes_le {A} N M (dec : dm A) enc : decodes N dec enc → (M <= N)%nat → decodes M dec enc.
Proof. intros Hd HM s Hs Hl. apply Hd; [done|lia]. Qed.

(** ** Lists of elements *)

Lemma eol_dec e : e = eol ∨ e ≠ eol.
Proof. destruct e as [[]| | | |]; auto. Qed.

Lemma addErrorContext_eol e ctx : addErrorContext e ctx = eol → e = eol.
Proof. by destruct e. Qed.

Lemma decodeSliceElems_decodes N elemdec enc :
  decodes N elemdec enc →
  ∀ fuel i s, ready s → (length (s_r s) < N)%nat → (length (s_r s) < fuel)%nat →
  ∃ r s', decodeSliceElems fuel elemdec i s = Done (r, s') ∧
    match r with
    | inr vs => ∃ bs, Forall2 enc vs bs ∧ moved s (concat bs) s' ∧ s_kind s' = None
    | inl e => e ≠ eol
    end.
Proof.
  intros He fuel. induction fuel as [|fuel IH]; intros i s Hs HN Hf; [lia|].
  destruct (He s Hs HN) as (r & s1 & E & Hr). cbn [decodeSliceElems]. rewrite E.
  destruct r as [e|v].
  - destruct (eol_dec e) as [->|Hne].
    + destruct Hr as [-> _]; [done|]. eexists _, s. split; [done|]. exists []. split; [done|].
      split; [apply moved_nil; try done; apply Hs|apply Hs].
    + eexists _, s1. split; [by destruct e as [[]| | | |]|]. by intros ?%addErrorContext_eol.
  - destruct Hr as (b & Hb & Hne & Hm & Hk). pose proof (moved_length _ _ _ Hm) as Hl.
    destruct b as [|x b]; [done|]. simpl in Hl.
    destruct (IH (S i) s1) as (r & s2 & E2 & Hr2); [by eapply moved_ready|lia|lia|].
    destruct r as [e|vs].
    + eexists _, s2. split; [by apply etm_bind_inl|done].
    + destruct Hr2 as (bs & Hbs & Hm2 & Hk2). eexists _, s2. split; [by rewrite (etm_bind_inr _ _ _ _ _ E2)|].
      exists ((x :: b) :: bs). split; [by constructor|]. split; [|done].
      eapply (moved_trans s (x :: b)); [apply Hs|done|done].
Qed.

Lemma decode_array_decodes N typ elemdec enc :
  decodes N elemdec enc →
  ∀ n i s, ready s → (length (s_r s) < N)%nat →
  ∃ r s', decode_array_elems typ elemdec n i s = Done (r, s') ∧
    match r with
    | inr vs => ∃ bs, Forall2 enc vs bs ∧ moved s (concat bs) s' ∧ s_kind s' = None
    | inl e => e ≠ eol
    end.
Proof.
  intros He n. induction n as [|n IH]; intros i s Hs HN.
  { eexists _, s. split; [done|]. exists []. split; [done|]. split; [apply moved_nil; try done; apply Hs|apply Hs]. }
  destruct (He s Hs HN) as (r & s1 & E & Hr). cbn [decode_array_elems]. rewrite E. destruct r as [e|v].
  - destruct (eol_dec e) as [->|Hne]; [by eexists _, s1|].
    eexists _, s1. split; [by destruct e as [[]| | | |]|]. by intros ?%addErrorContext_eol.
  - destruct Hr as (b & Hb & Hne & Hm & Hk). pose proof (moved_length _ _ _ Hm) as Hl.
    destruct (IH (S i) s1) as (r & s2 & E2 & Hr2); [by eapply moved_ready|lia|].
    destruct r as [e|vs].
    + eexists _, s2. split; [by apply etm_bind_inl|done].
    + destruct Hr2 as (bs & Hbs & Hm2 & Hk2). eexists _, s2. split; [by rewrite (etm_bind_inr _ _ _ _ _ E2)|].
      exists (b :: bs). split; [by constructor|]. split; [|done].
      eapply (moved_trans s b); [apply Hs|done|done].
Qed.

Lemma decodes_eta {A} N (dec dec' : dm A) enc : (∀ s, dec s = dec' s) → decodes N dec' enc → decodes N dec enc.
Proof. intros E Hd s. rewrite E. apply Hd. Qed.

(** A list: its header, the content [inner] reads, and the end. *)
Definition list_dec {A B} (g g' : rlp_error → dec_error) (inner : Z → dm A) (build : A → B) : dm B :=
  n ← map_err g stream_List;
  x ← inner n;
  map_err g' ListEnd;;
  mret (build x).

Definition passes_eol (g : rlp_error → dec_error) : Prop := ∀ e, g e = eol ↔ e = EOL.

Lemma passes_plain : passes_eol StreamError.
Proof. split; [by intros [=]|by intros ->]. Qed.
Lemma passes_wrap typ : passes_eol (λ e, wrapStreamError e typ).
Proof. intros e. split; [apply wrap_eol_inv|by intros ->]. Qed.

Lemma list_decodes {A B} N g g' (inner : Z → dm A) (build : A → B) enc :
  passes_eol g → passes_eol g' →
  (∀ n s1, ready s1 → (S (length (s_r s1)) < N)%nat →
     ∃ r s', inner n s1 = Done (r, s') ∧
       match r with
       | inr x => ∃ c, enc (build x) (rlp_list c) ∧ moved s1 c s' ∧ s_kind s' = None
       | inl e => e ≠ eol
       end) →
  decodes N (list_dec g g' inner build) enc.
Proof.
  intros Hg Hg' Hin s Hs HN. unfold list_dec.
  destruct (stream_List_cases s Hs) as [[Hl E]|[(e & s1 & E & He)|(n & s1 & E & Hen)]].
  - eexists _, s. split; [apply etm_bind_inl; unfold map_err; by rewrite E|done].
  - eexists _, s1. split; [apply etm_bind_inl; unfold map_err; by rewrite E|]. by intros ?%Hg.
  - assert (map_err g stream_List s = Done (inr n, s1)) as Em by (unfold map_err; by rewrite E).
    rewrite (etm_bind_inr _ _ _ _ _ Em).
    assert (S (length (s_r s1)) < N)%nat as HN1.
    { pose proof (en_r _ _ _ Hen) as Er. rewrite Er, length_app in HN.
      unfold rlp_head in HN. case_match; simpl in HN; lia. }
    destruct (Hin n s1 (en_ready _ _ _ Hen) HN1) as ([e|x] & s2 & E2 & Hr).
    + eexists _, s2. split; [by apply etm_bind_inl|done].
    + destruct Hr as (c & Hc & Hm & Hk). rewrite (etm_bind_inr _ _ _ _ _ E2).
      destruct (ListEnd_cases s n s1 c s2) as [[E3 _]|(s3 & E3 & _ & Hm3 & Hk3)]; [apply Hs|done|done| |].
      * eexists _, s2. split; [apply etm_bind_inl; unfold map_err; by rewrite E3|]. by intros ?%Hg'.
      * eexists _, s3. split.
        { erewrite etm_bind_inr; [done|]. unfold map_err. by rewrite E3. }
        exists (rlp_list c). split_and!; [done| |done|done].
        unfold rlp_list, rlp_head. by case_match.
Qed.

Lemma list_kind_first {A B} g g' (inner : Z → dm A) (build : A → B) :
  passes_eol g → kind_first (list_dec g g' inner build).
Proof. intros Hg. apply kind_first_bind, kind_first_map; [by apply Hg|apply kind_op_Kind]. Qed.

Lemma decodeListSlice_eta fuel typ elemdec s :
  decodeListSlice fuel typ elemdec s =
  list_dec (λ e, wrapStreamError e typ) StreamError
    (λ size, if size =? 0 then mret [] else decodeSliceElems fuel elemdec 0) (VSlice false) s.
Proof.
  unfold decodeListSlice, list_dec, wrapped, plainly, mbind, etm_bind.
  destruct (map_err _ stream_List s) as [[[e|n] s1]| |]; try done. by destruct (n =? 0).
Qed.

(** [enc] relates the list value to the concatenation of what its elements were read from. *)
Lemma decodeListSlice_decodes N M fuel typ elemdec enc enc' :
  decodes M elemdec enc → (N <= S M)%nat → (N <= S fuel)%nat →
  (∀ vs bs, Forall2 enc vs bs → enc' (VSlice false vs) (rlp_list (concat bs))) →
  decodes N (decodeListSlice fuel typ elemdec) enc'.
Proof.
  intros He HM Hf Henc. eapply decodes_eta; [apply decodeListSlice_eta|].
  apply list_decodes; [apply passes_wrap|apply passes_plain|]. intros n s1 Hs1 HN.
  destruct (n =? 0).
  - eexists _, s1. split; [done|]. exists []. split; [by apply (Henc [] [])|].
    split; [apply moved_nil; try done; apply Hs1|apply Hs1].
  - destruct (decodeSliceElems_decodes M elemdec enc He fuel 0 s1) as (r & s' & E & Hr); [done|lia|lia|].
    exists r, s'. split; [done|]. destruct r; [done|]. destruct Hr as (bs & Hbs & Hm & Hk).
    exists (concat bs). split_and!; auto.
Qed.

Lemma decodeListArray_decodes N typ elemdec enc enc' :
  decodes N elemdec enc →
  (∀ vs bs, Forall2 enc vs bs → enc' (VSlice false vs) (rlp_list (concat bs))) →
  decodes N (decodeListArray typ elemdec) enc'.
Proof.
  intros He Henc. apply (list_decodes N (λ e, wrapStreamError e (rt_String typ)) (λ e, wrapStreamError e (rt_String typ))
    (λ _, decode_array_elems (rt_String typ) elemdec (rt_Len typ) 0)); [apply passes_wrap|apply passes_wrap|].
  intros n s1 Hs1 HN.
  destruct (decode_array_decodes N (rt_String typ) elemdec enc He (rt_Len typ) 0 s1) as (r & s' & E & Hr); [done|lia|].
  exists r, s'. split; [done|]. destruct r; [done|]. destruct Hr as (bs & Hbs & Hm & Hk).
  exists (concat bs). split_and!; auto.
Qed.

(** ** Encodings of lists *)

(** [b] is the encoding of [v], a value the encoder can be given. *)
Definition spec_is (v : GoValue) (b : list byte) : Prop := rlp_spec v = inr b ∧ value_ok v.

Lemma all_of_Forall {A} (P : A → Prop) l : all_of P l ↔ Forall P l.
Proof.
  induction l as [|x l IH]; [by split|]. cbn [all_of]. fold (all_of P). by rewrite IH, Forall_cons.
Qed.

Lemma spec_values_ok {A} (f : A → GoValue) vs bs :
  Forall2 (λ v, spec_is (f v)) vs bs → all_of (λ v, value_ok (f v)) vs.
Proof.
  intros H. apply all_of_Forall. eapply Forall2_Forall_l; [done|].
  apply Forall_forall. by intros b _ v [_ Hv].
Qed.

Lemma spec_elems_concat vs bs : Forall2 spec_is vs bs → spec_elems rlp_spec vs = inr (concat bs).
Proof.
  induction 1 as [|v b vs bs [Hv _] _ IH]; [done|]. cbn [spec_elems]. rewrite Hv. cbn [mbind err_bind].
  fold (spec_elems rlp_spec). rewrite IH. done.
Qed.

Lemma spec_fields_concat (fs : list (bool * GoValue)) bs :
  Forall2 (λ f, spec_is f.2) fs bs → ∀ rest, spec_fields rlp_spec (fs ++ rest) (length fs) = inr (concat bs).
Proof.
  induction 1 as [|[z v] b fs bs [Hv _] _ IH]; intros rest; [by destruct rest|]. cbn [spec_fields length app].
  cbn [snd] in Hv. rewrite Hv. cbn [mbind err_bind]. fold (spec_fields rlp_spec). rewrite IH. done.
Qed.

Lemma spec_slice vs bs : Forall2 spec_is vs bs → spec_is (VSlice false vs) (rlp_list (concat bs)).
Proof.
  intros Hvs. split; [|by apply (spec_values_ok id _ _ Hvs)]. cbn [rlp_spec]. by rewrite (spec_elems_concat vs bs).
Qed.

(** ** Interfaces *)

Lemma decode_any_kind_first fuel : kind_first (decode_any (S fuel)).
Proof. cbn [decode_any]. exists StreamError. eexists. split; [done|]. intros s. reflexivity. Qed.

Lemma decode_any_decodes fuel : decodes fuel (decode_any fuel) spec_is.
Proof.
  induction fuel as [|fuel IH]; intros s Hs HN; [lia|]. cbn [decode_any].
  destruct (stream_Kind_cases s Hs) as [[Hl E]|[(e & s1 & E & He)|(k & n & h & s1 & E & Hp)]].
  - eexists _, s. split; [apply etm_bind_inl; unfold plainly, map_err; by rewrite E|done].
  - eexists _, s1. split; [apply etm_bind_inl; unfold plainly, map_err; by rewrite E|]. naive_solver.
  - assert (plainly stream_Kind s = Done (inr (k, n), s1)) as Em by (unfold plainly, map_err; by rewrite E).
    rewrite (etm_bind_inr _ _ _ _ _ Em). destruct (decide (k = List)) as [->|Hk].
    + assert (kind_first (slice ← decodeListSlice (S fuel) "[]interface {}" (decode_any fuel);
        mret (VInterface (Some slice)))) as Hkf.
      { apply kind_first_bind. eapply kind_first_eta; [apply decodeListSlice_eta|]. apply list_kind_first, passes_wrap. }
      rewrite (kind_first_peek _ _ _ _ _ _ Hkf E Hp).
      assert (decodes (S fuel) (slice ← decodeListSlice (S fuel) "[]interface {}" (decode_any fuel);
        mret (VInterface (Some slice))) spec_is) as Hd; [|by apply Hd].
      eapply decodes_then; [eapply decodeListSlice_decodes; [exact IH|lia|lia|apply spec_slice]|].
      intros v b s' Hv. by eexists.
    + assert (kind_first (b ← plainly stream_Bytes; mret (VInterface (Some (VBytes b))))) as Hkf
        by (apply kind_first_bind, kind_first_map; [done|apply kind_op_Kind]).
      rewrite (kind_first_peek _ _ _ _ _ _ Hkf E Hp).
      assert (decodes (S fuel) (b ← plainly stream_Bytes; mret (VInterface (Some (VBytes b)))) spec_is) as Hd;
        [|by apply Hd].
      eapply decodes_then; [eapply reads_decodes; [apply passes_plain|apply Bytes_reads]|].
      intros v b s' [-> _]. by eexists.
Qed.

(** ** Structs *)

Section structs.
Context (N : nat) (enc : GoValue → list byte → Prop).

Definition field_ok (f : field_dec) : Prop :=
  decodes N (fdc_decoder f) enc ∨ decodes_tail N (fdc_decoder f) enc.

Lemma decode_fields_decodes typ fields :
  Forall field_ok fields →
  ∀ s, ready s → (length (s_r s) < N)%nat →
  ∃ r s', decode_fields typ fields s = Done (r, s') ∧
    match r with
    | inr fs => ∃ c, moved s c s' ∧ s_kind s' = None ∧
        (Forall (λ f, fdc_optional f = false) fields →
         length fs = length fields ∧ ∃ bs, c = concat bs ∧ Forall2 (λ f, enc f.2) fs bs)
    | inl e => e ≠ eol
    end.
Proof.
  induction 1 as [|f fields Hf _ IH]; intros s Hs HN.
  { eexists _, s. split; [done|]. exists []. split; [apply moved_nil; try done; apply Hs|].
    split; [apply Hs|]. intros _. split; [done|]. by exists []. }
  assert (∃ r s1, fdc_decoder f s = Done (r, s1) ∧
    match r with
    | inr a => ∃ b, enc a b ∧ moved s b s1 ∧ s_kind s1 = None
    | inl e => e = eol → s1 = s
    end) as (r & s1 & E & Hr).
  { destruct Hf as [Hf|Hf]; destruct (Hf s Hs HN) as (r & s1 & E & Hr); exists r, s1; (split; [done|]);
      destruct r; naive_solver. }
  cbn [decode_fields]. rewrite E. destruct r as [e|v].
  - destruct (eol_dec e) as [->|Hne].
    + rewrite (Hr eq_refl) in *. destruct (fdc_optional f) eqn:Eo; [|by eexists _, s].
      eexists _, s. split; [done|]. exists []. split; [apply moved_nil; try done; apply Hs|].
      split; [apply Hs|]. intros [Ho _]%Forall_cons. congruence.
    + eexists _, s1. split; [by destruct e as [[]| | | |]|]. by intros ?%addErrorContext_eol.
  - destruct Hr as (b & Hb & Hm & Hk). pose proof (moved_length _ _ _ Hm) as Hl.
    destruct (IH s1) as (r & s2 & E2 & Hr2); [by eapply moved_ready|lia|].
    destruct r as [e|fs]; [eexists _, s2; split; [by apply etm_bind_inl|done]|].
    destruct Hr2 as (c & Hm2 & Hk2 & Hc). eexists _, s2. split; [by rewrite (etm_bind_inr _ _ _ _ _ E2)|].
    exists (b ++ c). split; [eapply moved_trans; [apply Hs|done|done]|]. split; [done|].
    intros [_ Ho]%Forall_cons. destruct (Hc Ho) as (Hlen & bs & -> & Hbs). split; [simpl; lia|].
    exists (b :: bs). split; [done|]. by constructor.
Qed.

Lemma decodeStruct_decodes typ fo fields enc' :
  Forall field_ok fields →
  (∀ fs c, (Forall (λ f, fdc_optional f = false) fields →
      length fs = length fields ∧ ∃ bs, c = concat bs ∧ Forall2 (λ f, enc f.2) fs bs) →
    enc' (VStruct fo fs) (rlp_list c)) →
  decodes N (decodeStruct typ fo fields) enc'.
Proof.
  intros Hf Henc. apply (list_decodes N (λ e, wrapStreamError e typ) (λ e, wrapStreamError e typ)
    (λ _, decode_fields typ fields) (VStruct fo)); [apply passes_wrap|apply passes_wrap|].
  intros n s1 Hs1 HN. destruct (decode_fields_decodes typ fields Hf s1) as (r & s' & E & Hr); [done|lia|].
  exists r, s'. split; [done|]. destruct r as [|fs]; [done|]. destruct Hr as (c & Hm & Hk & Hc).
  exists c. split; [by apply Henc|done].
Qed.
End structs.

(** ** Pointers *)

Lemma header_empty k bv h : k ≠ Byte → header k 0 h bv → h = [kind_byte k].
Proof. by destruct k; [|intros _ [_ ->]..]. Qed.

Lemma makeNilPtr_decodes N typ nk dec enc enc' :
  decodes N dec enc → peeks dec →
  (∀ v b, enc v b → enc' (VPtr nk (Some v)) b) → enc' (VPtr nk None) [nk] →
  decodes N (makeNilPtrDecoder typ nk dec) enc'.
Proof.
  intros Hd Hkf Hsome Hnone s Hs HN. unfold makeNilPtrDecoder.
  destruct (stream_Kind_cases s Hs) as [[Hl E]|[(e & s1 & E & He)|(k & n & h & s1 & E & Hp)]].
  - eexists _, s. split; [apply etm_bind_inl; unfold wrapped, map_err; by rewrite E|done].
  - eexists _, s1. split; [apply etm_bind_inl; unfold wrapped, map_err; by rewrite E|]. by intros ?%wrap_eol_inv.
  - assert (wrapped typ stream_Kind s = Done (inr (k, n), s1)) as Em by (unfold wrapped, map_err; by rewrite E).
    rewrite (etm_bind_inr _ _ _ _ _ Em).
    destruct (negb (bool_decide (k = Byte)) && (n =? 0)) eqn:Eempty.
    + apply andb_true_iff in Eempty as [Hk Hn]. apply negb_true_iff, bool_decide_eq_false in Hk.
      apply Z.eqb_eq in Hn as ->. destruct (Z.eqb_spec (kind_byte k) nk) as [<-|]; [|by eexists _, s1].
      exists (inr (VPtr (kind_byte k) None)), (set_kind None s1). split; [done|].
      pose proof (pk_header _ _ _ _ _ Hp) as Hh. apply header_empty in Hh as ->; [|done].
      exists [kind_byte k]. split_and!; [done|done| |done].
      apply moved_set_kind, (pk_moved _ _ _ _ _ Hp).
    + unfold mbind at 1, etm_bind at 1.
      destruct (Hkf _ _ _ _ _ E Hp) as [->|(e & He & ->)]; [|by eexists _, s1].
      destruct (Hd s Hs HN) as ([e|v] & s2 & E2 & Hr); rewrite E2; [by eexists _, s2|].
      eexists _, s2. split; [done|]. destruct Hr as (b & Hb & Hr). exists b. split; [by apply Hsome|done].
Qed.

Lemma makeNilPtr_kind_first typ nk dec : kind_first (makeNilPtrDecoder typ nk dec).
Proof. exists (λ e, wrapStreamError e typ). eexists. split; [done|]. intros s. reflexivity. Qed.

(** ** Byte arrays *)

Lemma decodeByteArray_kind_first typ : kind_first (decodeByteArray typ).
Proof. exists StreamError. eexists. split; [done|]. intros s. reflexivity. Qed.

Lemma decodeByteArray_decodes N typ :
  decodes N (decodeByteArray typ) (λ v b, spec_is v b ∧ ∃ c, v = VByteArray c ∧ length c = rt_Len typ).
Proof.
  intros s Hs HN. unfold decodeByteArray.
  destruct (stream_Kind_cases s Hs) as [[Hl E]|[(e & s1 & E & He)|(k & n & h & s1 & E & Hp)]].
  - eexists _, s. split; [apply etm_bind_inl; unfold plainly, map_err; by rewrite E|done].
  - eexists _, s1. split; [apply etm_bind_inl; unfold plainly, map_err; by rewrite E|]. naive_solver.
  - assert (plainly stream_Kind s = Done (inr (k, n), s1)) as Em by (unfold plainly, map_err; by rewrite E).
    rewrite (etm_bind_inr _ _ _ _ _ Em). pose proof Hp as [Hm Hs1 _ _ _ Hh Hn].
    pose proof (header_len _ _ _ _ Hh) as [_ Hn0].
    destruct k; cbn [header] in Hh; [| |by eexists _, s1].
    + destruct Hh as (_ & -> & Hx). destruct (Z.eqb_spec (Z.of_nat (rt_Len typ)) 0); [by eexists _, s1|].
      destruct (Z.ltb_spec 1 (Z.of_nat (rt_Len typ))); [by eexists _, s1|].
      exists (inr (VByteArray [s_byteval s1])), (set_kind None s1). split; [done|].
      exists [s_byteval s1]. split_and!; [|exists [s_byteval s1]; split; [done|simpl; lia]|done|by apply moved_set_kind|done].
      split; [|done]. cbn. by rewrite (proj2 (Z.ltb_lt _ _)) by lia.
    + destruct Hh as [_ ->]. destruct (Z.ltb_spec (Z.of_nat (rt_Len typ)) n); [by eexists _, s1|].
      destruct (Z.ltb_spec n (Z.of_nat (rt_Len typ))); [by eexists _, s1|].
      destruct (string_body_cases s1 n Hs1 Hn0) as (r & s' & E' & Hr).
      unfold mbind, etm_bind, plainly, wrapped, map_err in E' |- *.
      destruct (readFull n s1) as [[[e|b] s2]| |]; [| |done|done].
      * injection E' as <- <-. eexists _, s2. split; [done|]. naive_solver.
      * rewrite single_check_spec in E' |- *. destruct b as [|x b].
        -- injection E' as <- <-. eexists _, s2. split; [done|]. destruct Hr as (Eb & Hb & L & Hm' & Hk).
           exists (rlp_head 0x80 0xB7 n). split_and!; [|exists []; split; [done|simpl in *; lia]| | |done].
           ++ split; [|done]. cbn [rlp_spec]. by rewrite <- Eb, app_nil_r.
           ++ unfold rlp_head. by case_match.
           ++ rewrite <- (app_nil_r (rlp_head _ _ _)). eapply moved_trans; [apply Hs|done|done].
        -- destruct ((n =? 1) && (x <? 128)); [by eexists _, s2|]. injection E' as <- <-.
           eexists _, s2. split; [done|]. destruct Hr as (Eb & Hb & L & Hm' & Hk).
           exists (rlp_head 0x80 0xB7 n ++ x :: b).
           split_and!; [by rewrite Eb|eexists; split; [done|lia]| |by eapply moved_trans; [apply Hs|..]|done].
           unfold rlp_head. by case_match.
Qed.

(** ** All types *)

Section RType_ind.
Context (P : RType → Prop).
Hypothesis Hstep : ∀ typ,
  (∀ e, rt_Elem typ = Some e → P e) → Forall (λ f, P f.2) (rt_Field typ) → P typ.

Fixpoint RType_nested_ind (typ : RType) : P typ :=
  match typ with
  | mkRType name kind own enc dec penc pdec len nm elem fields =>
      Hstep (mkRType name kind own enc dec penc pdec len nm elem fields)
        (match elem as o return (∀ e, o = Some e → P e) with
         | Some e' => λ e E, eq_ind e' P (RType_nested_ind e') e (f_equal (from_option id e') E)
         | None => λ e E, match E with end
         end)
        ((fix go (l : list (string * bool * list (string * string) * RType)) : Forall (λ f, P f.2) l :=
            match l with
            | [] => Forall_nil_2 _
            | f :: l => Forall_cons_2 _ _ _ (RType_nested_ind (snd f)) (go l)
            end) fields)
  end.
End RType_ind.

(** No optional fields, here and in the types of elements and fields. *)
Fixpoint strict (typ : RType) : bool :=
  match rt_Elem typ with Some e => strict e | None => true end &&
  forallb id (map (λ '(_, _, _, ft), strict ft) (rt_Field typ)) &&
  match structFields typ with
  | inr fields => forallb (λ '(_, ts), negb (tg_Optional ts)) fields
  | inl _ => true
  end.

Lemma strict_inv typ :
  strict typ = true →
  (∀ e, rt_Elem typ = Some e → strict e = true) ∧ Forall (λ f, strict f.2 = true) (rt_Field typ) ∧
  (∀ fields, structFields typ = inr fields → Forall (λ '(_, ts), tg_Optional ts = false) fields).
Proof.
  intros H. assert (strict typ = match rt_Elem typ with Some e => strict e | None => true end &&
    forallb id (map (λ '(_, _, _, ft), strict ft) (rt_Field typ)) &&
    match structFields typ with
    | inr fields => forallb (λ '(_, ts), negb (tg_Optional ts)) fields
    | inl _ => true
    end) as E by by destruct typ.
  rewrite E in H. apply andb_true_iff in H as [[He Hf]%andb_true_iff Hs]. split_and!.
  - intros e Ee. by rewrite Ee in He.
  - apply Forall_forall. intros f Hin. rewrite forallb_forall in Hf. apply (Hf (strict f.2)).
    apply list_elem_of_In, list_elem_of_fmap. exists f. split; [by destruct f as [[[??]?]?]|done].
  - intros fields Ef. rewrite Ef, forallb_forall in Hs. apply Forall_forall. intros [i ts] Hin.
    apply list_elem_of_In in Hin. specialize (Hs _ Hin). by apply negb_true_iff in Hs.
Qed.

Lemma firstOptional_none fields :
  Forall (λ '(_, ts), tg_Optional ts = false) fields → firstOptionalField fields = length fields.
Proof. induction 1 as [|[i ts] fields E _ IH]; [done|]. cbn. by rewrite E, IH. Qed.

Lemma struct_count_all fo fs : (length fs <= fo)%nat → struct_count fo fs = length fs.
Proof.
  intros Hl. unfold struct_count. case_decide; [done|].
  destruct (length fs) as [|n] eqn:E; [done|]. cbn [last_field]. by rewrite decide_False by lia.
Qed.

Section all_types.
Context (custom : RType → dm GoValue) (fuel : nat) (canon : bool).

(** What is known of a value and the bytes it was read from. *)
Definition enc_of (v : GoValue) (b : list byte) : Prop := canon = true → spec_is v b.

(** A [DecodeRLP] method as its interface asks for: it reads one value, looks at its kind
    first and passes on the end of a list; if decoding is to be canonical, it accepts the
    encoding of the value only. *)
Definition custom_law : Prop := ∀ typ, decodes fuel (custom typ) enc_of ∧ peeks (custom typ).

Definition sound (dec : dm GoValue) : Prop := decodes fuel dec enc_of ∧ peeks dec.

Lemma sound_map {A} (g : rlp_error → dec_error) (m : sm A) (build : A → GoValue) enc :
  passes_eol g → kind_op m → reads EOL m enc → (∀ a b, enc a b → spec_is (build a) b) →
  sound (a ← map_err g m; mret (build a)).
Proof.
  intros Hg Hm Hr Henc. split; [|by apply kind_first_peeks, kind_first_bind, kind_first_map; [apply Hg|]].
  eapply decodes_then; [eapply reads_decodes; [apply Hg|done]|]. intros a b s Ha.
  eexists. split; [done|]. intros _. by apply Henc.
Qed.

Lemma spec_big_int i b : 0 <= i ∧ b = rlp_int i → spec_is (VBigInt i) b ∧ spec_is (VBigIntPtr (Some i)) b.
Proof. intros [Hi ->]. unfold spec_is. cbn. by rewrite (proj2 (Z.ltb_ge _ _)). Qed.

Definition result (tags : Tags) (dec : dm GoValue) : Prop :=
  (tg_Tail tags = false → sound dec) ∧ (decodes fuel dec enc_of ∨ decodes_tail fuel dec enc_of).

Lemma sound_result tags dec : sound dec → result tags dec.
Proof. intros Hd. split; [done|]. left. apply Hd. Qed.

Lemma uint_bits_bytes kind : ∃ m, uint_bits kind = 8 * m ∧ 1 <= m <= 8.
Proof.
  unfold uint_bits. repeat case_match; [exists 1|exists 2|exists 4|exists 8]; lia.
Qed.

Lemma enc_slice tail vs bs :
  Forall2 enc_of vs bs → enc_of (VSlice tail vs) (if tail then concat bs else rlp_list (concat bs)).
Proof.
  intros Hvs Hc. assert (Forall2 spec_is vs bs) as Hs.
  { eapply Forall2_impl; [done|]. intros v b Hv. by apply Hv. }
  split; [|by apply (spec_values_ok id _ _ Hs)]. cbn [rlp_spec]. rewrite (spec_elems_concat vs bs); [by destruct tail|done].
Qed.

(** The decoders of the fields, from those of their types. *)
Lemma field_decoders_ok typ fields ds :
  Forall (λ f, ∀ tags dec, makeDecoder custom fuel f.2 tags = inr dec → result tags dec) (rt_Field typ) →
  field_decoders typ (map (λ '(_, _, _, ft), makeDecoder custom fuel ft) (rt_Field typ)) fields = inr ds →
  Forall (field_ok fuel enc_of) ds ∧ (length ds <= length fields)%nat ∧
  (Forall (λ '(_, ts), tg_Optional ts = false) fields → Forall (λ f, fdc_optional f = false) ds).
Proof.
  intros IH. revert ds. induction fields as [|[i ts] fields IHf]; intros ds E.
  { injection E as <-. by split_and!. }
  cbn [field_decoders] in E. fold (field_decoders typ (map (λ '(_, _, _, ft), makeDecoder custom fuel ft) (rt_Field typ))) in E.
  rewrite list_lookup_fmap in E. destruct (rt_Field typ !! i) as [[[[name ex] tg] ft]|] eqn:Ei; cbn [fmap option_fmap option_map] in E.
  - destruct (makeDecoder custom fuel ft ts) as [e|d] eqn:Ed; [done|].
    apply err_bind_inr in E as (rest & Er & [= <-]). destruct (IHf rest Er) as (Hok & Hl & Ho).
    rewrite Forall_lookup in IH. destruct (IH i _ Ei ts d Ed) as [_ Hd].
    split_and!; [by constructor|simpl; lia|]. intros [Hts Hr]%Forall_cons. constructor; auto.
  - destruct (IHf ds E) as (Hok & Hl & Ho). split_and!; [done|simpl; lia|]. intros [_ Hr]%Forall_cons. auto.
Qed.

(** [decodeSliceElems] as the decoder of a tail. *)
Lemma tail_decodes dec :
  decodes fuel dec enc_of → decodes_tail fuel (vs ← decodeSliceElems fuel dec 0; mret (VSlice true vs)) enc_of.
Proof.
  intros Hd s Hs HN. destruct (decodeSliceElems_decodes fuel dec enc_of Hd fuel 0 s) as ([e|vs] & s' & E & Hr);
    [done|done|done| |].
  - eexists _, s'. split; [by apply etm_bind_inl|done].
  - destruct Hr as (bs & Hbs & Hm & Hk). eexists _, s'. split; [by rewrite (etm_bind_inr _ _ _ _ _ E)|].
    exists (concat bs). split; [|done]. by apply (enc_slice true).
Qed.

Lemma list_sound typ kind tags dec :
  sound dec →
  result tags (if kind =? Kind.Array then decodeListArray typ dec
               else if tg_Tail tags then vs ← decodeSliceElems fuel dec 0; mret (VSlice true vs)
               else decodeListSlice fuel (rt_String typ) dec).
Proof.
  intros [Hd _]. destruct (kind =? Kind.Array).
  - apply sound_result. split; [|by apply kind_first_peeks, list_kind_first, passes_wrap].
    eapply decodeListArray_decodes; [done|]. intros vs bs. apply (enc_slice false).
  - destruct (tg_Tail tags) eqn:Et.
    + split; [congruence|]. right. by apply tail_decodes.
    + apply sound_result. split.
      * eapply decodeListSlice_decodes; [done|lia|lia|]. intros vs bs. apply (enc_slice false).
      * apply kind_first_peeks. eapply kind_first_eta; [apply decodeListSlice_eta|]. apply list_kind_first, passes_wrap.
Qed.

Lemma ptr_sound typ (nk : byte) tags dec :
  sound dec → sound (if tg_NilOK tags then makeNilPtrDecoder typ nk dec else makeSimplePtrDecoder nk dec).
Proof.
  intros [Hd Hkf]. destruct (tg_NilOK tags); split.
  - eapply makeNilPtr_decodes; [done|done|by intros v b Hv Hc; apply Hv|done].
  - apply kind_first_peeks, makeNilPtr_kind_first.
  - eapply decodes_then; [done|]. intros v b s Hv. eexists. split; [done|]. intros Hc. by apply Hv.
  - intros s k n h s1 E Hp. unfold makeSimplePtrDecoder, mbind, etm_bind.
    destruct (Hkf _ _ _ _ _ E Hp) as [->|(e & He & ->)]; [by left|right; by exists e].
Qed.

Lemma struct_sound typ fields ds :
  Forall (field_ok fuel enc_of) ds → (length ds <= length fields)%nat →
  (canon = true → Forall (λ '(_, ts), tg_Optional ts = false) fields) →
  (Forall (λ '(_, ts), tg_Optional ts = false) fields → Forall (λ f, fdc_optional f = false) ds) →
  sound (decodeStruct typ (firstOptionalField fields) ds).
Proof.
  intros Hok Hl Hstrict Ho. split; [|by apply kind_first_peeks, list_kind_first, passes_wrap].
  eapply decodeStruct_decodes; [done|]. intros fs c Hc Hcan. specialize (Hstrict Hcan).
  destruct (Hc (Ho Hstrict)) as (Hlen & bs & -> & Hbs).
  assert (Forall2 (λ f, spec_is f.2) fs bs) as Hs.
  { eapply Forall2_impl; [done|]. intros f b Hf. by apply Hf. }
  split; [|by apply (spec_values_ok snd _ _ Hs)]. cbn [rlp_spec].
  rewrite (firstOptional_none fields Hstrict), struct_count_all by lia.
  rewrite <- (app_nil_r fs) at 1. by rewrite (spec_fields_concat fs bs).
Qed.

Lemma interface_sound typ : sound (decodeInterface fuel typ).
Proof.
  unfold decodeInterface. destruct (negb _).
  - split; [intros s Hs HN; by eexists _, s|]. intros s k n h s1 _ _. right.
    by exists (TypeError (NotSerializable (rt_String typ))).
  - split; [eapply decodes_impl; [apply decode_any_decodes|by intros v b Hv _]|].
    destruct fuel; [intros s k n h s1 _ _; by left|]. apply kind_first_peeks, decode_any_kind_first.
Qed.

Lemma makeDecoder_sound typ :
  custom_law → (canon = true → strict typ = true) →
  ∀ tags dec, makeDecoder custom fuel typ tags = inr dec → result tags dec.
Proof.
  intros Hcustom. induction typ as [typ IHe IHf] using RType_nested_ind. intros Hstrict tags dec.
  assert (∀ e d, rt_Elem typ = Some e → makeDecoder custom fuel e no_tags = inr d → sound d) as Helem.
  { intros e d Ee Ed. eapply (IHe e Ee); [|done|done]. intros Hc. by apply (strict_inv typ (Hstrict Hc)). }
  assert (Forall (λ f, ∀ tags dec, makeDecoder custom fuel f.2 tags = inr dec → result tags dec) (rt_Field typ)) as Hfield.
  { apply Forall_lookup. intros i f Ef. rewrite Forall_lookup in IHf. apply (IHf i f Ef). intros Hc.
    destruct (strict_inv typ (Hstrict Hc)) as (_ & Hs & _). rewrite Forall_lookup in Hs. by apply (Hs i). }
  assert (∀ fields, structFields typ = inr fields → canon = true →
    Forall (λ '(_, ts), tg_Optional ts = false) fields) as Hopt.
  { intros fields E Hc. by apply (strict_inv typ (Hstrict Hc)). }
  clear IHe IHf Hstrict.
  assert (∀ d, match rt_Elem typ with Some e => makeDecoder custom fuel e no_tags
    | None => inl (NotSerializable (rt_String typ)) end = inr d → sound d) as Hel.
  { intros d Ed. destruct (rt_Elem typ) as [e|]; [|done]. by eapply Helem. }
  destruct typ as [name kind own ie idc pe pd len nm elem flds].
  cbn [makeDecoder rt_own rt_Kind rt_Elem rt_String rt_Field rt_PtrIsDecoder] in *.
  destruct own as [[]|]; [injection 1 as <-; apply sound_result..|].
  - eapply sound_map; [apply passes_plain|apply kind_op_Kind|apply Raw_reads|]. by intros a b [-> _].
  - eapply sound_map; [apply passes_wrap|apply kind_op_bind, kind_op_Kind|apply decodeBigInt_reads|].
    intros i b Hi. by apply spec_big_int.
  - eapply sound_map; [apply passes_wrap|apply kind_op_bind, kind_op_Kind|apply decodeBigInt_reads|].
    intros i b Hi. by apply spec_big_int.
  - eapply sound_map; [apply passes_wrap|apply kind_op_bind, kind_op_Kind|apply ReadUint256_reads|].
    by intros i b [Hi ->].
  - eapply sound_map; [apply passes_wrap|apply kind_op_bind, kind_op_Kind|apply ReadUint256_reads|].
    by intros i b [Hi ->].
  - destruct (kind =? Kind.Ptr).
    { intros (d & Ed & [= <-])%err_bind_inr. by apply sound_result, ptr_sound, Hel. }
    destruct pd; [injection 1 as <-; apply sound_result, Hcustom|].
    destruct (isUint kind).
    { injection 1 as <-. apply sound_result. destruct (uint_bits_bytes kind) as (m & Em & Hm).
      eapply sound_map; [apply passes_wrap|apply kind_op_Kind|cbn [rt_Kind]; rewrite Em; by apply uint_reads|].
      intros i b [Hi ->]. split; [done|]. cbn. pose proof (Z.pow_le_mono_r 2 (8 * m) 64). lia. }
    destruct (kind =? Kind.Bool).
    { injection 1 as <-. apply sound_result. eapply sound_map; [apply passes_wrap|apply kind_op_bind, kind_op_Kind|apply Bool_reads|].
      by intros v b ->. }
    destruct (kind =? Kind.String).
    { injection 1 as <-. apply sound_result. eapply sound_map; [apply passes_wrap|apply kind_op_Kind|apply Bytes_reads|].
      by intros v b [-> _]. }
    destruct ((kind =? Kind.Slice) || (kind =? Kind.Array)).
    { destruct (from_option is_byte_elem false elem).
      - injection 1 as <-. apply sound_result. destruct (kind =? Kind.Array).
        + split; [|apply kind_first_peeks, decodeByteArray_kind_first]. eapply decodes_impl; [apply decodeByteArray_decodes|].
          by intros v b [Hv _] _.
        + eapply sound_map; [apply passes_wrap|apply kind_op_Kind|apply Bytes_reads|]. by intros v b [-> _].
      - intros (d & Ed & [= <-])%err_bind_inr. by apply list_sound, Hel. }
    destruct (kind =? Kind.Struct).
    { destruct (structFields _) as [e|fields] eqn:Es; [done|]. intros (ds & Ed & [= <-])%err_bind_inr.
      pose proof Ed as Hds. apply field_decoders_ok in Hds as (Hok & Hl & Ho); [|done].
      apply sound_result, struct_sound; [done|done|by apply Hopt|done]. }
    destruct (kind =? Kind.Interface); [|done]. injection 1 as <-. apply sound_result.
    by apply interface_sound.
Qed.

(** [Stream.Decode] into a variable of the type. *)
Lemma stream_Decode_sound typ :
  custom_law → (canon = true → strict typ = true) → sound (stream_Decode custom fuel (PointerTo typ)).
Proof.
  intros Hcustom Hstrict. unfold stream_Decode. destruct (makeDecoder custom fuel typ no_tags) as [e|dec] eqn:Ed.
  - split; [intros s Hs HN; by eexists _, s|]. intros s k n h s1 _ _. right. by exists (TypeError e).
  - destruct (makeDecoder_sound typ Hcustom Hstrict _ _ Ed) as [[Hd Hp] _]; [done|]. split.
    + intros s Hs HN. destruct (Hd s Hs HN) as ([e|v] & s' & E & Hr); unfold map_err; rewrite E.
      * eexists _, s'. split; [done|]. intros He. apply Hr. by destruct e as [| | | |]; try done; case_match.
      * by eexists _, s'.
    + intros s k n h s1 E Hpk. unfold map_err. destruct (Hp _ _ _ _ _ E Hpk) as [->|(e & He & ->)]; [by left|].
      right. eexists. split; [|done]. by destruct e; try done; case_match.
Qed.

Lemma Reset_ready s0 b :
  bytes_ok b → Z.of_nat (length b) < 2 ^ 48 → ready (Reset b true (Z.of_nat (length b)) s0).
Proof.
  intros Hb Hl. unfold Reset. destruct (Z.ltb_spec 0 (Z.of_nat (length b))); by repeat split.
Qed.

(** [DecodeBytes] through the decoder of the type. *)
Lemma DecodeBytes_decodes s0 b typ :
  custom_law → (canon = true → strict typ = true) →
  bytes_ok b → Z.of_nat (length b) < 2 ^ 48 → (length b < fuel)%nat →
  ∃ r, DecodeBytes custom fuel s0 b (PointerTo typ) = Done r ∧
    match r with inr v => enc_of v b | inl _ => True end.
Proof.
  intros Hcustom Hstrict Hb Hl Hf. unfold DecodeBytes.
  destruct (stream_Decode_sound typ Hcustom Hstrict) as [Hd _].
  destruct (Hd _ (Reset_ready s0 b Hb Hl)) as ([e|v] & s' & E & Hr).
  - unfold Reset. by destruct (0 <? _).
  - rewrite E. by eexists.
  - rewrite E. eexists. split; [done|]. destruct Hr as (b' & Henc & _ & Hm & _).
    pose proof (mv_r _ _ _ Hm) as Er. destruct (s_r s') as [|x r]; [|done].
    rewrite app_nil_r in Er. assert (b' = b) as <-; [|done]. rewrite <- Er. unfold Reset. by destruct (0 <? _).
Qed.
End all_types.

(** C18: decoding is total.  For every input a Go program can hold, every type and every
    state of the pooled stream, [DecodeBytes] returns a value or an error: it does not
    panic, and its loops end within as many rounds as the input has bytes. *)
Theorem DecodeBytes_total custom fuel s0 b val :
  custom_law custom fuel false →
  bytes_ok b → Z.of_nat (length b) < 2 ^ 48 → (length b < fuel)%nat →
  ∃ r, DecodeBytes custom fuel s0 b val = Done r.
Proof.
  intros Hcustom Hb Hl Hf. destruct val as [| | |typ]; [by eexists..|].
  destruct (DecodeBytes_decodes custom fuel false s0 b typ) as (r & E & _); try done. by exists r.
Qed.

(** C17: decoding is canonical.  For a type without optional fields, [DecodeBytes] accepts a
    byte string only if it is the encoding of the value it returns: [EncodeToBytes] gives
    back the input.  So no two inputs decode to one value, and leading zeros, long headers
    and trailing bytes are refused. *)
Theorem DecodeBytes_canonical custom fuel s0 b typ v :
  custom_law custom fuel true → strict typ = true →
  bytes_ok b → Z.of_nat (length b) < 2 ^ 48 → (length b < fuel)%nat →
  DecodeBytes custom fuel s0 b (PointerTo typ) = Done (inr v) →
  EncodeToBytes v = inr b.
Proof.
  intros Hcustom Hstrict Hb Hl Hf E.
  destruct (DecodeBytes_decodes custom fuel true s0 b typ) as (r & E' & Hr); try done.
  rewrite E in E'. injection E' as <-. destruct (Hr eq_refl) as [Hs Hok].
  destruct (encoder_refines v Hok) as [-> _]; [|done].
  intros out Ho. assert (out = b) as -> by congruence. lia.
Qed.
