(* ===== verification/RlpRoundTrip.v ===== *)
(** * Decoding inverts encoding

    The values of a Go type that survive a round trip through [EncodeToBytes] and
    [DecodeBytes], and the proof that they do, for every type the codec handles. *)

From stdpp Require Import strings.
From S2P Require Import Prelude Bytes RlpEncode RlpRaw RlpStruct RlpStream RlpStreamProps RlpDecode RlpDecodeProps.

Open Scope Z_scope.

(** ** The values *)

(** What is decoded into a variable of type [interface{}]: byte strings and lists. *)
Fixpoint any_value (v : GoValue) : Prop :=
  match v with
  | VInterface (Some (VBytes b)) => bytes_ok b
  | VInterface (Some (VSlice false vs)) => all_of any_value vs
  | _ => False
  end.

(** The fields of a struct: the [n] that are written, then zero ones from an optional field
    on.  [preds] are the predicates of the types of all fields. *)
Definition zero_field (typ : RType) : nat * Tags → bool * GoValue := λ '(i, ts),
  (true, match rt_Field typ !! i with Some (_, _, _, ft) => zero_value ft ts | None => VUnsupported end).

Definition fields_typed (typ : RType) (preds : list (Tags → GoValue → Prop))
  : nat → list (nat * Tags) → list (bool * GoValue) → Prop :=
  fix go n fields fs :=
    match fields, fs, n with
    | [], [], _ => True
    | (i, ts) :: fields, (z, v) :: fs, S n =>
        match preds !! i, rt_Field typ !! i with
        | Some P, Some (_, _, _, ft) => P ts v ∧ z = IsZero ft v ∧ go n fields fs
        | _, _ => False
        end
    | (i, ts) :: _, _, O => tg_Optional ts = true ∧ fs = zero_field typ <$> fields
    | _, _, _ => False
    end.

Section typed.
(** The values that the [EncodeRLP] and [DecodeRLP] methods of a type exchange. *)
Context (custom_typed : RType → GoValue → Prop).

(** The values of a type that decoding gives back: pointers are not nil unless a tag allows
    it and then do not point to what is written as nil is, fields left out are zero.  The
    methods [EncodeRLP] and [DecodeRLP] come in pairs. *)
Fixpoint typed (typ : RType) (tags : Tags) (v : GoValue) {struct typ} : Prop :=
  let kind := rt_Kind typ in
  let elem_typed := match rt_Elem typ with Some e => typed e no_tags | None => λ _, False end in
  match rt_own typ with
  | Some OwnRaw => ∃ b, v = VRawValue b ∧ raw_value b ∧ bytes_ok b
  | Some OwnBigPtr => ∃ i, v = VBigIntPtr (Some i) ∧ 0 <= i
  | Some OwnBig => ∃ i, v = VBigInt i ∧ 0 <= i
  | Some OwnU256Ptr => ∃ i, v = VU256Ptr (Some i) ∧ 0 <= i < 2 ^ 256
  | Some OwnU256 => ∃ i, v = VU256 i ∧ 0 <= i < 2 ^ 256
  | None =>
      if kind =? Kind.Ptr then
        let nilKind := match rt_Elem typ with Some e => typeNilKind e tags | None => NilKindList end in
        (v = VPtr nilKind None ∧ tg_NilOK tags = true ∧ (nilKind = NilKindString ∨ nilKind = NilKindList)) ∨
        (∃ w, v = VPtr nilKind (Some w) ∧ elem_typed w ∧
           (tg_NilOK tags = true → rlp_spec w ≠ inr [NilKindString] ∧ rlp_spec w ≠ inr [NilKindList]))
      else
      rt_PtrIsEncoder typ = rt_PtrIsDecoder typ ∧
      from_option is_byte_type false (rt_Elem typ) = from_option is_byte_elem false (rt_Elem typ) ∧
      if rt_PtrIsDecoder typ then custom_typed typ v
      else if isUint kind then ∃ i, v = VUint i ∧ 0 <= i < 2 ^ uint_bits kind
      else if kind =? Kind.Bool then ∃ b, v = VBool b
      else if kind =? Kind.String then ∃ b, v = VString b ∧ bytes_ok b
      else if (kind =? Kind.Slice) || (kind =? Kind.Array) then
        if from_option is_byte_elem false (rt_Elem typ) then
          ∃ b, bytes_ok b ∧
            if kind =? Kind.Array then v = VByteArray b ∧ length b = rt_Len typ else v = VBytes b
        else
          ∃ vs, Forall elem_typed vs ∧
            if kind =? Kind.Array then v = VSlice false vs ∧ length vs = rt_Len typ
            else v = VSlice (tg_Tail tags) vs
      else if kind =? Kind.Struct then
        match structFields typ with
        | inl _ => False
        | inr fields =>
            ∃ fs, v = VStruct (firstOptionalField fields) fs ∧
              fields_typed typ (map (λ '(_, _, _, ft), typed ft) (rt_Field typ))
                (struct_count (firstOptionalField fields) fs) fields fs
        end
      else if kind =? Kind.Interface then any_value v
      else False
  end.
End typed.

(** No interface types with methods, here and in the types of elements and fields. *)
Fixpoint no_methods (typ : RType) : bool :=
  (rt_NumMethod typ =? 0)%nat &&
  match rt_Elem typ with Some e => no_methods e | None => true end &&
  forallb id (map (λ '(_, _, _, ft), no_methods ft) (rt_Field typ)).

(** ** Taking an encoding from the stream *)

Section takes.
Context (fuel : nat).

(** At the beginning of [b] the decoder reads [v]. *)
Definition takes {A} (dec : dm A) (v : A) (b : list byte) : Prop :=
  ∀ s rest, ready s → s_r s = b ++ rest → fits s (Z.of_nat (length b)) → (length (s_r s) < fuel)%nat →
  ∃ s', dec s = Done (inr v, s') ∧ moved s b s' ∧ s_kind s' = None.

(** The same when [b] is all that is left of the list. *)
Definition takes_tail {A} (dec : dm A) (v : A) (b : list byte) : Prop :=
  ∀ s rest, ready s → s_r s = b ++ rest → listLimit s = Some (Z.of_nat (length b)) → (length (s_r s) < fuel)%nat →
  ∃ s', dec s = Done (inr v, s') ∧ moved s b s' ∧ s_kind s' = None.

(** At the end of a list the decoder says so, and a kind that was looked at before does not
    matter to it. *)
Definition stops {A} (dec : dm A) : Prop :=
  ∀ s, ready s → (length (s_r s) < fuel)%nat → listLimit s = Some 0 → dec s = Done (inl eol, s).
Definition looks {A} (dec : dm A) : Prop :=
  stops dec ∧
  ∀ s k n h s1, ready s → (length (s_r s) < fuel)%nat →
    stream_Kind s = Done (inr (k, n), s1) → peeked s k n h s1 → dec s1 = dec s.

Lemma kind_first_looks {A} (dec : dm A) : kind_first dec → looks dec.
Proof.
  intros Hk. split.
  - intros s Hs _ Hl. by apply kind_first_stops.
  - intros s k n h s1 _ _ E Hp. by eapply kind_first_peek.
Qed.

Lemma nothing_read s : ready s → moved s [] s ∧ s_kind s = None.
Proof. intros Hs. split; [apply moved_nil; try done; apply Hs|apply Hs]. Qed.

Lemma limit_fits s b rest :
  s_r s = b ++ rest → listLimit s = Some (Z.of_nat (length b)) → fits s (Z.of_nat (length b)).
Proof.
  intros Er Hl. split; [rewrite Er, length_app; lia|]. unfold listLimit in Hl.
  destruct (s_stack s); [done|]. injection Hl as ->. lia.
Qed.

Lemma takes_is_tail {A} (dec : dm A) v b : takes dec v b → takes_tail dec v b.
Proof. intros Ht s rest Hs Er Hl HN. eapply Ht; [done|done|by eapply limit_fits|done]. Qed.

(** What is left after the first part of the list has been read. *)
Lemma moved_rest s b c rest s' :
  ready s → moved s b s' → s_kind s' = None → s_r s = (b ++ c) ++ rest →
  ready s' ∧ s_r s' = c ++ rest ∧
  (listLimit s = Some (Z.of_nat (length (b ++ c))) → listLimit s' = Some (Z.of_nat (length c))).
Proof.
  intros Hs Hm Hk Er. pose proof Hm as [Er' Est _ _]. split; [by eapply moved_ready|]. split.
  - rewrite Er, <- app_assoc in Er'. by apply app_inv_head in Er'.
  - intros Hl. unfold listLimit in *. rewrite Est. destruct (s_stack s) as [|l st]; [done|].
    injection Hl as ->. cbn [head]. rewrite length_app. f_equal.
    replace (Z.of_nat (length b + length c) - Z.of_nat (length b)) with (Z.of_nat (length c)) by lia.
    apply u64_id. pose proof (bs_size s (proj1 Hs)) as Hsz. rewrite Er, !length_app in Hsz. unfold u64_ok. lia.
Qed.

Lemma accepts_takes {A B} (g : rlp_error → dec_error) (m : sm A) (build : A → B) a b :
  accepts m a b → takes (x ← map_err g m; mret (build x)) (build a) b.
Proof.
  intros Hm s rest Hs Er Hf _. destruct (Hm s rest Hs Er Hf) as (s' & E & Hmv & Hk).
  exists s'. split; [|done]. erewrite etm_bind_inr; [done|]. unfold map_err. by rewrite E.
Qed.

Lemma takes_list {A B} g g' (inner : Z → dm A) (build : A → B) x c :
  (∀ s rest, ready s → s_r s = c ++ rest → listLimit s = Some (Z.of_nat (length c)) → (S (length (s_r s)) < fuel)%nat →
     ∃ s', inner (Z.of_nat (length c)) s = Done (inr x, s') ∧ moved s c s' ∧ s_kind s' = None) →
  takes (list_dec g g' inner build) (build x) (rlp_list c).
Proof.
  intros Hin s rest Hs Er Hf HN. destruct (stream_List_fits s c rest Hs Er Hf) as (s1 & E & Hen & Er1).
  destruct (Hin s1 rest) as (s2 & E2 & Hm & Hk); [apply Hen|done| | |].
  { unfold listLimit. by rewrite (en_stack _ _ _ Hen). }
  { pose proof (en_r _ _ _ Hen) as Eh. rewrite Eh, length_app in HN. unfold rlp_head in HN. case_match; simpl in HN; lia. }
  destruct (ListEnd_cases s (Z.of_nat (length c)) s1 c s2) as [[_ ?]|(s3 & E3 & _ & Hm3 & Hk3)]; [apply Hs|done|done|done|].
  exists s3. split; [|done]. unfold list_dec.
  rewrite (etm_bind_inr _ _ s (Z.of_nat (length c)) s1) by (unfold map_err; by rewrite E).
  rewrite (etm_bind_inr _ _ _ _ _ E2).
  by rewrite (etm_bind_inr _ _ s2 tt s3) by (unfold map_err; by rewrite E3).
Qed.

Lemma elems_take dec vs bs :
  stops dec → Forall2 (λ v b, takes dec v b ∧ b ≠ []) vs bs →
  ∀ rounds i s rest, ready s → s_r s = concat bs ++ rest →
  listLimit s = Some (Z.of_nat (length (concat bs))) → (length (s_r s) < fuel)%nat → (length (s_r s) < rounds)%nat →
  ∃ s', decodeSliceElems rounds dec i s = Done (inr vs, s') ∧ moved s (concat bs) s' ∧ s_kind s' = None.
Proof.
  intros Hstop. induction 1 as [|v b vs bs [Ht Hb] _ IH]; intros [|rounds] i s rest Hs Er Hl HN Hr; try lia.
  - exists s. cbn [decodeSliceElems]. rewrite (Hstop s Hs HN Hl). split; [done|by apply nothing_read].
  - cbn [concat] in *. pose proof (limit_fits _ _ _ Er Hl) as Hf.
    destruct (Ht s (concat bs ++ rest) Hs) as (s1 & E & Hm & Hk); [by rewrite app_assoc| |done|].
    { eapply fits_mono; [done|]. rewrite length_app. lia. }
    destruct (moved_rest s b (concat bs) rest s1 Hs Hm Hk Er) as (Hs1 & Er1 & Hl1). pose proof (moved_length _ _ _ Hm).
    destruct b as [|x b]; [done|]. simpl in *.
    destruct (IH rounds (S i) s1 rest Hs1 Er1 (Hl1 Hl)) as (s2 & E2 & Hm2 & Hk2); [lia|lia|].
    exists s2. rewrite E. split; [by rewrite (etm_bind_inr _ _ _ _ _ E2)|]. split; [|done].
    eapply (moved_trans s (x :: b)); [apply Hs|done|done].
Qed.

Lemma array_take typ dec vs bs :
  Forall2 (λ v b, takes dec v b ∧ b ≠ []) vs bs →
  ∀ i s rest, ready s → s_r s = concat bs ++ rest →
  listLimit s = Some (Z.of_nat (length (concat bs))) → (length (s_r s) < fuel)%nat →
  ∃ s', decode_array_elems typ dec (length vs) i s = Done (inr vs, s') ∧ moved s (concat bs) s' ∧ s_kind s' = None.
Proof.
  induction 1 as [|v b vs bs [Ht Hb] _ IH]; intros i s rest Hs Er Hl HN.
  - exists s. split; [done|by apply nothing_read].
  - cbn [concat] in *. pose proof (limit_fits _ _ _ Er Hl) as Hf.
    destruct (Ht s (concat bs ++ rest) Hs) as (s1 & E & Hm & Hk); [by rewrite app_assoc| |done|].
    { eapply fits_mono; [done|]. rewrite length_app. lia. }
    destruct (moved_rest s b (concat bs) rest s1 Hs Hm Hk Er) as (Hs1 & Er1 & Hl1). pose proof (moved_length _ _ _ Hm).
    destruct (IH (S i) s1 rest Hs1 Er1 (Hl1 Hl)) as (s2 & E2 & Hm2 & Hk2); [lia|].
    exists s2. cbn [length decode_array_elems]. rewrite E. split; [by rewrite (etm_bind_inr _ _ _ _ _ E2)|]. split; [|done].
    eapply (moved_trans s b); [apply Hs|done|done].
Qed.

(** The fields of a struct and what they are read from: the last may be a tail, and an
    optional field at the end of the list leaves the rest zero. *)
Inductive fields_run : list field_dec → list (bool * GoValue) → list (list byte) → Prop :=
| run_end : fields_run [] [] []
| run_field d ds v fs b bs :
    takes (fdc_decoder d) v b ∨ (bs = [] ∧ takes_tail (fdc_decoder d) v b) →
    fields_run ds fs bs →
    fields_run (d :: ds) ((fdc_is_zero d v, v) :: fs) (b :: bs)
| run_zero d ds :
    fdc_optional d = true → stops (fdc_decoder d) →
    fields_run (d :: ds) ((λ f, (true, fdc_zero f)) <$> d :: ds) [].

Lemma fields_take typ ds fs bs :
  fields_run ds fs bs →
  ∀ s rest, ready s → s_r s = concat bs ++ rest →
  listLimit s = Some (Z.of_nat (length (concat bs))) → (length (s_r s) < fuel)%nat →
  ∃ s', decode_fields typ ds s = Done (inr fs, s') ∧ moved s (concat bs) s' ∧ s_kind s' = None.
Proof.
  induction 1 as [|d ds v fs b bs Ht _ IH|d ds Ho Hstop]; intros s rest Hs Er Hl HN.
  - exists s. split; [done|by apply nothing_read].
  - cbn [concat] in *. pose proof (limit_fits _ _ _ Er Hl) as Hf.
    assert (∃ s1, fdc_decoder d s = Done (inr v, s1) ∧ moved s b s1 ∧ s_kind s1 = None) as (s1 & E & Hm & Hk).
    { destruct Ht as [Ht|[-> Ht]].
      - apply (Ht s (concat bs ++ rest) Hs); [by rewrite app_assoc| |done].
        eapply fits_mono; [done|]. rewrite length_app. lia.
      - cbn [concat] in *. rewrite app_nil_r in *. by apply (Ht s rest). }
    destruct (moved_rest s b (concat bs) rest s1 Hs Hm Hk Er) as (Hs1 & Er1 & Hl1). pose proof (moved_length _ _ _ Hm).
    destruct (IH s1 rest Hs1 Er1 (Hl1 Hl)) as (s2 & E2 & Hm2 & Hk2); [lia|].
    exists s2. cbn [decode_fields]. rewrite E. split; [by rewrite (etm_bind_inr _ _ _ _ _ E2)|]. split; [|done].
    eapply (moved_trans s b); [apply Hs|done|done].
  - exists s. cbn [decode_fields]. rewrite (Hstop s Hs HN Hl), Ho. split; [done|by apply nothing_read].
Qed.

(** ** Lists, structs, interfaces and pointers *)

Lemma raw_value_ne b : raw_value b → b ≠ [].
Proof.
  intros (k & n & h & bv & c & Hh & -> & _) E. apply app_nil in E as [-> _].
  apply header_len in Hh. simpl in Hh. lia.
Qed.

Lemma rlp_list_raw c : raw_value (rlp_list c).
Proof. eexists List, _, _, 0, c. split; [split; [|done]; apply Nat2Z.is_nonneg|done]. Qed.

Lemma rlp_string_raw c : bytes_ok c → raw_value (rlp_string c).
Proof.
  intros Hc. destruct (rlp_string_header c Hc) as [(x & -> & Hh & Er)|[Er _]]; rewrite Er.
  - by exists Byte, 0, [x], x, [].
  - eexists String, _, _, 0, c. split; [split; [|done]; apply Nat2Z.is_nonneg|done].
Qed.

Lemma decodeListArray_takes typ dec vs bs :
  length vs = rt_Len typ → Forall2 (λ v b, takes dec v b ∧ b ≠ []) vs bs →
  takes (decodeListArray typ dec) (VSlice false vs) (rlp_list (concat bs)).
Proof.
  intros Hlen Hvs. apply (takes_list (λ e, wrapStreamError e (rt_String typ)) (λ e, wrapStreamError e (rt_String typ))
    (λ _, decode_array_elems (rt_String typ) dec (rt_Len typ) 0) (VSlice false)).
  intros s rest Hs Er Hl HN. rewrite <- Hlen. eapply array_take; [done|done|done|done|lia].
Qed.

Lemma decodeStruct_takes typ fo ds fs bs :
  fields_run ds fs bs → takes (decodeStruct typ fo ds) (VStruct fo fs) (rlp_list (concat bs)).
Proof.
  intros Hrun. apply (takes_list (λ e, wrapStreamError e typ) (λ e, wrapStreamError e typ)
    (λ _, decode_fields typ ds) (VStruct fo)).
  intros s rest Hs Er Hl HN. eapply fields_take; [done|done|done|done|lia].
Qed.

(** Looking at the kind of an encoding. *)
Lemma peek_raw s k n h bv c rest :
  ready s → header k n h bv → n = Z.of_nat (length c) → s_r s = (h ++ c) ++ rest →
  fits s (Z.of_nat (length (h ++ c))) →
  ∃ s1, stream_Kind s = Done (inr (k, n), s1) ∧ peeked s k n h s1.
Proof.
  intros Hs Hh Hn Er Hf. rewrite <- app_assoc in Er. rewrite length_app, Nat2Z.inj_add, <- Hn in Hf.
  destruct (stream_Kind_fits s k n h bv (c ++ rest)) as (s1 & E & Hp & _); [done..|]. by exists s1.
Qed.

Lemma makeNilPtr_takes typ nk dec v b :
  looks dec → takes dec v b → raw_value b → b ≠ [NilKindString] → b ≠ [NilKindList] →
  takes (makeNilPtrDecoder typ nk dec) (VPtr nk (Some v)) b.
Proof.
  intros [_ Hpeek] Ht (k & n & h & bv & c & Hh & -> & Hn) Hs0 Hl0 s rest Hs Er Hf HN.
  destruct (peek_raw s k n h bv c rest Hs Hh Hn Er Hf) as (s1 & E & Hp).
  destruct (Ht s rest Hs Er Hf HN) as (s' & E' & Hm & Hk). exists s'. split; [|done].
  unfold makeNilPtrDecoder. rewrite (etm_bind_inr _ _ s (k, n) s1) by (unfold wrapped, map_err; by rewrite E).
  destruct (negb (bool_decide (k = Byte)) && (n =? 0)) eqn:Eempty.
  - exfalso. apply andb_true_iff in Eempty as [Hk' Hn0]. apply negb_true_iff, bool_decide_eq_false in Hk'.
    apply Z.eqb_eq in Hn0. destruct c; [|simpl in Hn; lia]. rewrite Hn0 in Hh.
    apply header_empty in Hh as ->; [|done]. by destruct k.
  - rewrite (etm_bind_inr _ _ s1 v s'); [done|]. by rewrite (Hpeek _ _ _ _ _ Hs HN E Hp).
Qed.

Lemma makeNilPtr_nil typ nk dec :
  nk = NilKindString ∨ nk = NilKindList → takes (makeNilPtrDecoder typ nk dec) (VPtr nk None) [nk].
Proof.
  intros Hnk s rest Hs Er Hf HN.
  assert (∃ k, k ≠ Byte ∧ kind_byte k = nk ∧ header k 0 [nk] 0) as (k & Hk & Ek & Hh).
  { destruct Hnk as [-> | ->]; [exists String|exists List]; by repeat split. }
  destruct (peek_raw s k 0 [nk] 0 [] rest) as (s1 & E & Hp); try done.
  exists (set_kind None s1). split; [|split; [apply moved_set_kind, (pk_moved _ _ _ _ _ Hp)|done]].
  unfold makeNilPtrDecoder. rewrite (etm_bind_inr _ _ s (k, 0) s1) by (unfold wrapped, map_err; by rewrite E).
  by rewrite bool_decide_false, Ek, (Z.eqb_refl nk) by done.
Qed.
End takes.

Lemma decodeListSlice_takes N M rounds typ dec vs bs :
  (N <= S M)%nat → (N <= S rounds)%nat →
  stops M dec → Forall2 (λ v b, takes M dec v b ∧ b ≠ []) vs bs →
  takes N (decodeListSlice rounds typ dec) (VSlice false vs) (rlp_list (concat bs)).
Proof.
  intros HM Hr Hstop Hvs. assert (takes N (list_dec (λ e, wrapStreamError e typ) StreamError
    (λ size, if size =? 0 then mret [] else decodeSliceElems rounds dec 0) (VSlice false)) (VSlice false vs) (rlp_list (concat bs))) as Ht.
  { apply takes_list. intros s rest Hs Er Hl HN. destruct (Z.eqb_spec (Z.of_nat (length (concat bs))) 0) as [E0|].
    - destruct Hvs as [|v b vs bs [_ Hb] _]; [exists s; split; [done|by apply nothing_read]|].
      cbn [concat] in E0. destruct b; [done|]. simpl in E0. lia.
    - eapply (elems_take M); [done|done|done|done|done|lia|lia]. }
  intros s rest Hs Er Hf HN. rewrite decodeListSlice_eta. by apply (Ht s rest).
Qed.

(** ** Encodings *)

(** [b] is the encoding of [v], one value with its header. *)
Record encodes_to (v : GoValue) (b : list byte) : Prop := mkEncodesTo {
  et_spec : spec_is v b;
  et_bytes : Z.of_nat (length b) < 2 ^ 48 → bytes_ok b;
  et_raw : raw_value b;
}.

Lemma string_encodes v b :
  bytes_ok b → value_ok v → rlp_spec v = inr (rlp_string b) → encodes_to v (rlp_string b).
Proof.
  intros Hb Hv E. split; [done| |by apply rlp_string_raw]. intros Hl. apply rlp_string_ok; [done|].
  pose proof (rlp_string_length b). lia.
Qed.

Lemma int_encodes v i : value_ok v → rlp_spec v = inr (rlp_int i) → encodes_to v (rlp_int i).
Proof. intros Hv E. apply string_encodes; [apply be_min_bytes_ok|done|done]. Qed.

Lemma concat_bytes (bs : list (list byte)) :
  Forall (λ b, Z.of_nat (length b) < 2 ^ 48 → bytes_ok b) bs →
  Z.of_nat (length (concat bs)) < 2 ^ 48 → bytes_ok (concat bs).
Proof.
  induction 1 as [|b bs Hb _ IH]; cbn [concat]; [by constructor|]. rewrite length_app. intros Hl.
  apply Forall_app. split; [apply Hb|apply IH]; lia.
Qed.

Lemma list_encodes v bs :
  value_ok v → rlp_spec v = inr (rlp_list (concat bs)) →
  Forall (λ b, Z.of_nat (length b) < 2 ^ 48 → bytes_ok b) bs → encodes_to v (rlp_list (concat bs)).
Proof.
  intros Hv E Hbs. split; [done| |apply rlp_list_raw]. unfold rlp_list at 1. rewrite length_app. intros Hl.
  apply rlp_list_ok; [apply concat_bytes; [done|lia]|lia].
Qed.

(** ** Interfaces *)

Definition any_trip (v : GoValue) : Prop :=
  ∃ b, encodes_to v b ∧ ∀ fuel, takes fuel (decode_any fuel) v b.

Lemma decode_any_stops fuel : stops fuel (decode_any fuel).
Proof. destruct fuel; [intros s _ ?; lia|]. apply kind_first_looks, decode_any_kind_first. Qed.

(** What follows [Kind] in [decode_any]. *)
Lemma decode_any_string fuel b : bytes_ok b → takes fuel (decode_any fuel) (VInterface (Some (VBytes b))) (rlp_string b).
Proof.
  destruct fuel as [|fuel]; [intros _ s rest _ _ _ ?; lia|]. intros Hb s rest Hs Er Hf HN.
  assert (∃ k n s1 h, k ≠ List ∧ stream_Kind s = Done (inr (k, n), s1) ∧ peeked s k n h s1) as (k & n & s1 & h & Hk & E & Hp).
  { destruct (rlp_string_header b Hb) as [(x & -> & Hh & Es)|[Es _]]; rewrite Es in *.
    - destruct (peek_raw s Byte 0 [x] x [] rest) as (s1 & E & Hp); try done. by exists Byte, 0, s1, [x].
    - destruct (peek_raw s String (Z.of_nat (length b)) (rlp_head 0x80 0xB7 (Z.of_nat (length b))) 0 b rest) as (s1 & E & Hp);
        try done; [split; [lia|done]|]. by eexists String, _, s1, _. }
  cbn [decode_any]. rewrite (etm_bind_inr _ _ s (k, n) s1) by (unfold plainly, map_err; by rewrite E).
  rewrite decide_False by done.
  assert (kind_first (b ← plainly stream_Bytes; mret (VInterface (Some (VBytes b))))) as Hkf
    by (apply kind_first_bind, kind_first_map; [done|apply kind_op_Kind]).
  rewrite (kind_first_peek _ _ _ _ _ _ Hkf E Hp).
  by apply (accepts_takes (S fuel) StreamError stream_Bytes (λ b, VInterface (Some (VBytes b))) b _ (Bytes_accepts b Hb) s rest).
Qed.

Lemma decode_any_list fuel vs bs :
  Forall2 (λ v b, encodes_to v b ∧ ∀ fuel, takes fuel (decode_any fuel) v b) vs bs →
  takes fuel (decode_any fuel) (VInterface (Some (VSlice false vs))) (rlp_list (concat bs)).
Proof.
  destruct fuel as [|fuel]; [intros _ s rest _ _ _ ?; lia|]. intros Hvs s rest Hs Er Hf HN.
  destruct (peek_raw s List (Z.of_nat (length (concat bs))) (rlp_head 0xC0 0xF7 (Z.of_nat (length (concat bs)))) 0
    (concat bs) rest) as (s1 & E & Hp); try done; [split; [lia|done]|].
  cbn [decode_any]. rewrite (etm_bind_inr _ _ s (List, Z.of_nat (length (concat bs))) s1) by (unfold plainly, map_err; by rewrite E).
  rewrite decide_True by done.
  assert (kind_first (slice ← decodeListSlice (S fuel) "[]interface {}" (decode_any fuel);
    mret (VInterface (Some slice)))) as Hkf.
  { apply kind_first_bind. eapply kind_first_eta; [apply decodeListSlice_eta|]. apply list_kind_first, passes_wrap. }
  rewrite (kind_first_peek _ _ _ _ _ _ Hkf E Hp).
  destruct (decodeListSlice_takes (S fuel) fuel (S fuel) "[]interface {}" (decode_any fuel) vs bs) with s rest
    as (s' & E' & Hm & Hk); [lia|lia|apply decode_any_stops| |done..|].
  - eapply Forall2_impl; [done|]. intros v b [Hv Ht]. split; [done|]. by apply raw_value_ne, (et_raw v).
  - exists s'. by rewrite (etm_bind_inr _ _ _ _ _ E').
Qed.

Lemma Forall_choice {A B} (R : A → B → Prop) l : Forall (λ x, ∃ y, R x y) l → ∃ k, Forall2 R l k.
Proof.
  induction 1 as [|x l [y Hy] _ [k Hk]]; [by exists []|]. exists (y :: k). by constructor.
Qed.

Lemma Forall2_right {A B} (R : A → B → Prop) (P : B → Prop) l k :
  Forall2 R l k → (∀ x y, R x y → P y) → Forall P k.
Proof. induction 1; constructor; eauto. Qed.

Lemma any_value_trips v : any_value v → any_trip v.
Proof.
  cut ((any_value v → any_trip v) ∧
       match v with VSlice _ vs => Forall (λ w, any_value w → any_trip w) vs | _ => True end); [by intros []|].
  induction v as [b|i|i|i|i|n v IH|i|b|b|b|b|t vs IH|o fs IH|[w|] IH|] using GoValue_nested_ind; try done.
  { split; [done|]. eapply Forall_impl; [exact IH|]. by intros w []. }
  split; [|done]. destruct (IH w eq_refl) as [_ Hw]. clear IH. destruct w as [b|i|i|i|i|n v|i|b|b|b|b|[] vs|o fs|v|]; try done.
  - cbn. intros Hb. exists (rlp_string b). split; [by apply string_encodes|]. intros fuel. by apply decode_any_string.
  - cbn [any_value]. intros Hvs%all_of_Forall.
    assert (Forall any_trip vs) as Ht by (rewrite Forall_forall in *; auto).
    apply Forall_choice in Ht as [bs Hbs]. exists (rlp_list (concat bs)). split; [|by intros; apply decode_any_list].
    destruct (spec_slice vs bs) as [Es Ev]; [eapply Forall2_impl; [done|]; by intros v b [[] _]|].
    apply list_encodes; [done|done|]. eapply Forall2_right; [done|]. by intros v b [[] _].
Qed.

(** ** Byte arrays *)

Lemma decodeByteArray_takes fuel typ b :
  bytes_ok b → length b = rt_Len typ → takes fuel (decodeByteArray typ) (VByteArray b) (rlp_string b).
Proof.
  intros Hb Hlen s rest Hs Er Hf _. unfold decodeByteArray. rewrite <- Hlen.
  destruct (rlp_string_header b Hb) as [(x & -> & Hh & Es)|[Es Hx]]; rewrite Es in *.
  - destruct (stream_Kind_fits s Byte 0 [x] x rest) as (s1 & E & Hp & Hbv); [done..|].
    exists (set_kind None s1). split; [|split; [apply moved_set_kind, (pk_moved _ _ _ _ _ Hp)|done]].
    rewrite (etm_bind_inr _ _ s (Byte, 0) s1) by (unfold plainly, map_err; by rewrite E). simpl.
    unfold plainly, map_err, byteval, mbind, etm_bind. by rewrite (Hbv eq_refl).
  - set (n := Z.of_nat (length b)) in *.
    destruct (peek_raw s String n (rlp_head 0x80 0xB7 n) 0 b rest) as (s1 & E & Hp);
      [done|split; [lia|done]|done|done|done|].
    pose proof (pk_moved _ _ _ _ _ Hp) as Hm. rewrite <- app_assoc in Er.
    assert (s_r s1 = b ++ rest) as Er1 by (pose proof (mv_r _ _ _ Hm) as E1; rewrite Er in E1; by apply app_inv_head in E1).
    destruct (readFull_fits s1 b rest) as (s2 & E2 & Hm2 & Hk2 & _); [apply Hp|done|by eapply fits_app; [apply Hs|..]|].
    fold n in E2. exists s2. split; [|split; [by eapply moved_trans; [apply Hs|..]|done]].
    rewrite (etm_bind_inr _ _ s (String, n) s1) by (unfold plainly, map_err; by rewrite E).
    rewrite Z.ltb_irrefl. rewrite (etm_bind_inr _ _ s1 b s2) by (unfold plainly, map_err; by rewrite E2).
    erewrite etm_bind_inr; [done|]. unfold wrapped, map_err. rewrite single_check_spec.
    destruct b as [|x [|y b]]; [done| |].
    + by rewrite (proj2 (Z.ltb_ge _ _)), andb_false_r.
    + by rewrite (proj2 (Z.eqb_neq n 1)) by (unfold n; simpl; lia).
Qed.

(** ** Structs *)

(** A tail is the last field and not optional. *)
Fixpoint tails_ok (fields : list (nat * Tags)) : Prop :=
  match fields with
  | [] => True
  | (_, ts) :: fields => (tg_Tail ts = true → fields = [] ∧ tg_Optional ts = false) ∧ tails_ok fields
  end.

Lemma structFields_tails typ fields : structFields typ = inr fields → tails_ok fields.
Proof.
  intros (_ & _ & req & opt & tl & -> & Hr & Ho & Hl & Ht & _)%structFields_shape.
  assert (tails_ok tl) as Htl.
  { destruct tl as [|[i ts] [|]]; [done| |simpl in Hl; lia]. cbn. split; [|done].
    apply Forall_cons in Ht as [[[] _] _]. done. }
  assert (∀ l, Forall (λ f, tg_Tail f.2 = false) l → ∀ k, tails_ok k → tails_ok (l ++ k)) as Happ.
  { induction 1 as [|[i ts] l Hts _ IH]; intros k Hk; [done|]. cbn in *. split; [congruence|by apply IH]. }
  apply Happ; [eapply Forall_impl; [exact Hr|by intros ? []]|].
  apply Happ; [eapply Forall_impl; [exact Ho|by intros ? []]|done].
Qed.

Lemma zero_value_ok typ tags : value_ok (zero_value typ tags).
Proof.
  revert tags. induction typ as [typ IHe IHf] using RType_nested_ind. intros tags.
  destruct typ as [name kind own ie idc pe pd len nm elem flds]. cbn [zero_value rt_own rt_Kind rt_Elem rt_Len rt_Field rt_String] in *.
  destruct own as [[]|]; try done.
  repeat match goal with |- context [if ?b then _ else _] => destruct b end; try done.
  - cbn [value_ok]. apply all_of_Forall, Forall_replicate. destruct elem as [e|]; [by apply IHe|done].
  - destruct (structFields _) as [|fields]; [done|]. cbn [value_ok]. apply all_of_Forall, Forall_fmap, Forall_forall.
    intros [i ts] _. cbn. rewrite list_lookup_fmap. rewrite Forall_lookup in IHf.
    destruct (flds !! i) as [[[[? ?] ?] ft]|] eqn:Ei; [|done]. cbn. by apply (IHf i _ Ei).
Qed.

(** ** All types *)

Section trips.
Context (custom : RType → dm GoValue) (fuel : nat) (custom_typed : RType → GoValue → Prop).

(** [EncodeRLP] writes one value and [DecodeRLP] reads it back. *)
Definition custom_trips : Prop :=
  (∀ typ, looks fuel (custom typ)) ∧
  ∀ typ v, custom_typed typ v → ∃ b, encodes_to v b ∧ takes fuel (custom typ) v b.

(** What decoding a value of a type needs of its encoding. *)
Record trip (tags : Tags) (dec : dm GoValue) (v : GoValue) (b : list byte) : Prop := mkTrip {
  tr_spec : spec_is v b;
  tr_bytes : Z.of_nat (length b) < 2 ^ 48 → bytes_ok b;
  tr_raw : tg_Tail tags = false → raw_value b;
  tr_takes : tg_Tail tags = false → takes fuel dec v b;
  tr_tail : takes_tail fuel dec v b;
}.

Lemma encodes_trip tags dec v b : encodes_to v b → takes fuel dec v b → ∃ b, trip tags dec v b.
Proof. intros [? ? ?] Ht. exists b. split; try done. by apply takes_is_tail. Qed.

Lemma no_methods_inv typ :
  no_methods typ = true →
  rt_NumMethod typ = 0%nat ∧ (∀ e, rt_Elem typ = Some e → no_methods e = true) ∧
  Forall (λ f, no_methods f.2 = true) (rt_Field typ).
Proof.
  intros H. assert (no_methods typ = (rt_NumMethod typ =? 0)%nat &&
    match rt_Elem typ with Some e => no_methods e | None => true end &&
    forallb id (map (λ '(_, _, _, ft), no_methods ft) (rt_Field typ))) as E by by destruct typ.
  rewrite E in H. apply andb_true_iff in H as [[Hn He]%andb_true_iff Hf]. split_and!.
  - by apply Nat.eqb_eq.
  - intros e Ee. by rewrite Ee in He.
  - apply Forall_forall. intros f Hin. rewrite forallb_forall in Hf. apply (Hf (no_methods f.2)).
    apply list_elem_of_In, list_elem_of_fmap. exists f. split; [by destruct f as [[[??]?]?]|done].
Qed.

Lemma looks_bind {A B} (dec : dm A) (f : A → dm B) : looks fuel dec → looks fuel (dec ≫= f).
Proof.
  intros [Hstop Hpeek]. split.
  - intros s Hs HN Hl. by apply etm_bind_inl, Hstop.
  - intros s k n h s1 Hs HN E Hp. unfold mbind, etm_bind. by rewrite (Hpeek _ _ _ _ _ Hs HN E Hp).
Qed.

Lemma makeDecoder_looks typ :
  custom_trips → no_methods typ = true → ∀ tags dec,
  makeDecoder custom fuel typ tags = inr dec → tg_Tail tags = false → looks fuel dec.
Proof.
  intros [Hcustom _]. induction typ as [typ IHe _] using RType_nested_ind. intros Hnm tags dec.
  apply no_methods_inv in Hnm as (Hnm & Hne & _).
  destruct typ as [name kind own ie idc pe pd len nm elem flds].
  cbn [makeDecoder rt_own rt_Kind rt_Elem rt_String rt_Field rt_PtrIsDecoder rt_NumMethod] in *. subst nm.
  destruct own as [[]|]; [injection 1 as <-; intros _; apply kind_first_looks, kind_first_bind, kind_first_map;
    [done|first [apply kind_op_Kind|apply kind_op_bind, kind_op_Kind]]..|].
  destruct (kind =? Kind.Ptr).
  { intros (d & Ed & [= <-])%err_bind_inr _. destruct elem as [e|]; [|done].
    destruct (tg_NilOK tags); [apply kind_first_looks, makeNilPtr_kind_first|]. apply looks_bind. eauto. }
  destruct pd; [injection 1 as <-; intros _; apply Hcustom|].
  destruct (isUint kind); [injection 1 as <-; intros _; by apply kind_first_looks, kind_first_bind, kind_first_map, kind_op_Kind|].
  destruct (kind =? Kind.Bool).
  { injection 1 as <-; intros _; by apply kind_first_looks, kind_first_bind, kind_first_map, kind_op_bind, kind_op_Kind. }
  destruct (kind =? Kind.String); [injection 1 as <-; intros _; by apply kind_first_looks, kind_first_bind, kind_first_map, kind_op_Kind|].
  destruct ((kind =? Kind.Slice) || (kind =? Kind.Array)).
  { destruct (from_option is_byte_elem false elem).
    - injection 1 as <-. intros _. destruct (kind =? Kind.Array); apply kind_first_looks; [apply decodeByteArray_kind_first|].
      by apply kind_first_bind, kind_first_map, kind_op_Kind.
    - intros (d & Ed & [= <-])%err_bind_inr ->. apply kind_first_looks. destruct (kind =? Kind.Array).
      + apply list_kind_first, passes_wrap.
      + eapply kind_first_eta; [apply decodeListSlice_eta|]. apply list_kind_first, passes_wrap. }
  destruct (kind =? Kind.Struct).
  { destruct (structFields _) as [e|fields] eqn:Es; [done|]. intros (ds & Ed & [= <-])%err_bind_inr _.
    apply kind_first_looks, list_kind_first, passes_wrap. }
  destruct (kind =? Kind.Interface); [|done]. injection 1 as <-. intros _.
  destruct fuel as [|n]; [split; [intros s _ ?; lia|intros s k m h s1 _ ?; lia]|].
  apply kind_first_looks, decode_any_kind_first.
Qed.

(** The decoders of the fields, one after the other. *)
Lemma field_decoders_cons typ i ts fields ds :
  is_Some (rt_Field typ !! i) →
  field_decoders typ (map (λ '(_, _, _, ft), makeDecoder custom fuel ft) (rt_Field typ)) ((i, ts) :: fields) = inr ds →
  ∃ name ex tg ft d rest, rt_Field typ !! i = Some (name, ex, tg, ft) ∧ makeDecoder custom fuel ft ts = inr d ∧
    ds = mkFieldDec name (tg_Optional ts) (zero_value ft ts) (IsZero ft) d :: rest ∧
    field_decoders typ (map (λ '(_, _, _, ft), makeDecoder custom fuel ft) (rt_Field typ)) fields = inr rest.
Proof.
  intros [[[[name ex] tg] ft] Ei] E. cbn [field_decoders] in E.
  fold (field_decoders typ (map (λ '(_, _, _, ft), makeDecoder custom fuel ft) (rt_Field typ))) in E.
  rewrite list_lookup_fmap, Ei in E. cbn [fmap option_fmap option_map] in E.
  destruct (makeDecoder custom fuel ft ts) as [e|d] eqn:Ed; [done|].
  apply err_bind_inr in E as (rest & Er & [= <-]). by exists name, ex, tg, ft, d, rest.
Qed.

Lemma field_decoders_zero typ fields ds :
  Forall (λ f, is_Some (rt_Field typ !! f.1)) fields →
  field_decoders typ (map (λ '(_, _, _, ft), makeDecoder custom fuel ft) (rt_Field typ)) fields = inr ds →
  (λ f, (true, fdc_zero f)) <$> ds = zero_field typ <$> fields.
Proof.
  intros Hf. revert ds. induction Hf as [|[i ts] fields Hi _ IH]; intros ds E; [by injection E as <-|].
  apply field_decoders_cons in E as (name & ex & tg & ft & d & rest & Ei & _ & -> & Er); [|done].
  rewrite !fmap_cons, (IH rest Er). f_equal. cbn. by rewrite Ei.
Qed.

Lemma zero_fields_ok typ fields : all_of (λ f, value_ok f.2) (zero_field typ <$> fields).
Proof.
  apply all_of_Forall, Forall_fmap, Forall_forall. intros [i ts] _. cbn.
  destruct (rt_Field typ !! i) as [[[[? ?] ?] ft]|]; [apply zero_value_ok|done].
Qed.

Lemma fields_trip typ n fields fs ds :
  custom_trips → Forall (λ f, no_methods f.2 = true) (rt_Field typ) →
  Forall (λ f, ∀ tags v dec, typed custom_typed f.2 tags v →
    makeDecoder custom fuel f.2 tags = inr dec → ∃ b, trip tags dec v b) (rt_Field typ) →
  Forall (λ f, is_Some (rt_Field typ !! f.1)) fields → tails_ok fields →
  fields_typed typ (map (λ '(_, _, _, ft), typed custom_typed ft) (rt_Field typ)) n fields fs →
  field_decoders typ (map (λ '(_, _, _, ft), makeDecoder custom fuel ft) (rt_Field typ)) fields = inr ds →
  ∃ bs, fields_run fuel ds fs bs ∧ Forall (λ b, Z.of_nat (length b) < 2 ^ 48 → bytes_ok b) bs ∧
    spec_fields rlp_spec fs n = inr (concat bs) ∧ all_of (λ f, value_ok f.2) fs.
Proof.
  intros Hcustom Hnm Htrip. revert n fs ds.
  induction fields as [|[i ts] fields IH]; intros n fs ds Hi Ht Htyped Ed.
  { destruct fs; [|by destruct n]. injection Ed as <-. exists []. split_and!; [constructor|done|by destruct n|done]. }
  pose proof Hi as [Hi1 Hi2]%Forall_cons. destruct Ht as [Ht1 Ht2].
  pose proof Ed as (name & ex & tg & ft & d & rest & Ei & Efd & -> & Er)%field_decoders_cons; [|done].
  rewrite Forall_lookup in Hnm, Htrip. specialize (Hnm i _ Ei). specialize (Htrip i _ Ei ts). cbn [snd] in Hnm, Htrip.
  destruct n as [|n].
  - assert (tg_Optional ts = true ∧ fs = zero_field typ <$> (i, ts) :: fields) as [Ho ->] by (destruct fs as [|[z v] fs]; exact Htyped).
    exists []. split_and!; [|done|by destruct fields|apply zero_fields_ok].
    rewrite <- (field_decoders_zero _ _ _ Hi Ed). apply run_zero; [done|].
    eapply makeDecoder_looks; [done|done|done|]. destruct (tg_Tail ts); [|done]. destruct Ht1; congruence.
  - destruct fs as [|[z v] fs]; [done|]. cbn [fields_typed] in Htyped. rewrite list_lookup_fmap, Ei in Htyped. cbn in Htyped.
    destruct Htyped as (Hv & -> & Hrest). destruct (Htrip v d Hv Efd) as (b & [Hs Hb _ Htk Htl]).
    destruct (IH n fs rest Hi2 Ht2 Hrest Er) as (bs & Hrun & Hbs & Es & Hok).
    exists (b :: bs). split_and!; [|by constructor| |].
    + apply (run_field fuel (mkFieldDec name (tg_Optional ts) (zero_value ft ts) (IsZero ft) d)); [|done].
      destruct (tg_Tail ts) eqn:Et; [right|left; by apply Htk]. split; [|done].
      destruct Ht1 as [-> _]; [done|]. injection Er as <-. by inversion Hrun.
    + cbn [spec_fields]. rewrite (proj1 Hs). cbn [mbind err_bind]. fold (spec_fields rlp_spec). by rewrite Es.
    + split; [apply Hs|done].
Qed.

(** The elements of a list. *)
Lemma elems_trip d vs :
  looks fuel d → Forall (λ v, ∃ b, trip no_tags d v b) vs →
  ∃ bs, Forall2 (λ v b, takes fuel d v b ∧ b ≠ []) vs bs ∧ Forall2 spec_is vs bs ∧
    Forall (λ b, Z.of_nat (length b) < 2 ^ 48 → bytes_ok b) bs.
Proof.
  intros Hd [bs Hbs]%Forall_choice. exists bs. split_and!.
  - eapply Forall2_impl; [done|]. intros v b [_ _ Hr Ht _]. split; [by apply Ht|by apply raw_value_ne, Hr].
  - eapply Forall2_impl; [done|]. by intros v b [].
  - eapply Forall2_right; [done|]. by intros v b [].
Qed.

Lemma list_trip typ kind tags d vs v :
  looks fuel d → Forall (λ v, ∃ b, trip no_tags d v b) vs →
  (if kind =? Kind.Array then v = VSlice false vs ∧ length vs = rt_Len typ else v = VSlice (tg_Tail tags) vs) →
  ∃ b, trip tags (if kind =? Kind.Array then decodeListArray typ d
    else if tg_Tail tags then vs ← decodeSliceElems fuel d 0; mret (VSlice true vs)
    else decodeListSlice fuel (rt_String typ) d) v b.
Proof.
  intros Hd Hvs Hv. destruct (elems_trip d vs Hd Hvs) as (bs & Htk & Hs & Hb).
  destruct (spec_slice vs bs Hs) as [Es Eok].
  destruct (kind =? Kind.Array).
  - destruct Hv as [-> Hlen]. eapply encodes_trip; [by apply list_encodes|by apply decodeListArray_takes].
  - subst v. destruct (tg_Tail tags) eqn:Et.
    + exists (concat bs). split; [|by apply concat_bytes|by rewrite Et|by rewrite Et|].
      * split; [|done]. cbn [rlp_spec]. by rewrite (spec_elems_concat vs bs).
      * intros s rest Hst Er Hl HN. destruct (elems_take fuel d vs bs) with fuel 0%nat s rest as (s' & E & Hm); [apply Hd|done..|].
        exists s'. by rewrite (etm_bind_inr _ _ _ _ _ E).
    + eapply encodes_trip; [by apply list_encodes|]. eapply (decodeListSlice_takes fuel fuel); [lia|lia|apply Hd|done].
Qed.

Lemma takes_then {A B} (dec : dm A) (f : A → dm B) v w b :
  takes fuel dec v b → (∀ s, f v s = Done (inr w, s)) → takes fuel (dec ≫= f) w b.
Proof.
  intros Ht Hf s rest Hs Er Hfit HN. destruct (Ht s rest Hs Er Hfit HN) as (s' & E & Hm).
  exists s'. by rewrite (etm_bind_inr _ _ _ _ _ E).
Qed.

Lemma ptr_trip name nilKind tags d v (elem_typed : GoValue → Prop) :
  looks fuel d → (∀ w, elem_typed w → ∃ b, trip no_tags d w b) →
  (v = VPtr nilKind None ∧ tg_NilOK tags = true ∧ (nilKind = NilKindString ∨ nilKind = NilKindList)) ∨
  (∃ w, v = VPtr nilKind (Some w) ∧ elem_typed w ∧
     (tg_NilOK tags = true → rlp_spec w ≠ inr [NilKindString] ∧ rlp_spec w ≠ inr [NilKindList])) →
  ∃ b, trip tags (if tg_NilOK tags then makeNilPtrDecoder name nilKind d else makeSimplePtrDecoder nilKind d) v b.
Proof.
  intros Hd Helem [(-> & -> & Hnk)|(w & -> & Hw & Hne)].
  - eapply encodes_trip; [|by apply makeNilPtr_nil]. split; [done| |].
    + intros _. destruct Hnk as [-> | ->]; by repeat constructor.
    + destruct Hnk as [-> | ->]; [exists String|exists List]; exists 0; eexists _, 0, []; by repeat split.
  - destruct (Helem w Hw) as (b & [Hs Hb Hr Ht _]). specialize (Hr eq_refl). specialize (Ht eq_refl).
    eapply (encodes_trip _ _ _ b); [split; [exact Hs|done|done]|]. destruct (tg_NilOK tags).
    + destruct (Hne eq_refl) as [H1 H2]. destruct Hs as [Hs _].
      apply makeNilPtr_takes; [done|done|done|intros ->; by apply H1|intros ->; by apply H2].
    + by eapply takes_then.
Qed.

Lemma scalar_trip {A} (g : rlp_error → dec_error) (m : sm A) (build : A → GoValue) a b tags :
  accepts m a b → encodes_to (build a) b → ∃ b, trip tags (x ← map_err g m; mret (build x)) (build a) b.
Proof. intros Hm He. eapply encodes_trip; [done|]. by apply accepts_takes. Qed.

Lemma struct_trip typ fields fs ds tags :
  custom_trips → Forall (λ f, no_methods f.2 = true) (rt_Field typ) →
  Forall (λ f, ∀ tags v dec, typed custom_typed f.2 tags v →
    makeDecoder custom fuel f.2 tags = inr dec → ∃ b, trip tags dec v b) (rt_Field typ) →
  structFields typ = inr fields →
  fields_typed typ (map (λ '(_, _, _, ft), typed custom_typed ft) (rt_Field typ))
    (struct_count (firstOptionalField fields) fs) fields fs →
  field_decoders typ (map (λ '(_, _, _, ft), makeDecoder custom fuel ft) (rt_Field typ)) fields = inr ds →
  ∃ b, trip tags (decodeStruct (rt_String typ) (firstOptionalField fields) ds)
         (VStruct (firstOptionalField fields) fs) b.
Proof.
  intros Hcustom Hnm Htrip Es Hfs Ed.
  destruct (fields_trip typ (struct_count (firstOptionalField fields) fs) fields fs ds Hcustom Hnm Htrip) as (bs & Hrun & Hbs & Esp & Hok); [|by eapply structFields_tails|done|done|].
  { apply structFields_shape in Es as (_ & Hin & _). apply Forall_forall. intros [i ts] Hf.
    destruct (Hin i) as (name & tg & ft & Ei); [by apply (list_elem_of_fmap_2 fst _ _ Hf)|]. cbn. by rewrite Ei. }
  eapply encodes_trip; [|by apply decodeStruct_takes]. apply list_encodes; [done| |done].
  cbn [rlp_spec]. by rewrite Esp.
Qed.

Lemma typed_trips typ :
  custom_trips → no_methods typ = true → ∀ tags v dec,
  typed custom_typed typ tags v → makeDecoder custom fuel typ tags = inr dec → ∃ b, trip tags dec v b.
Proof.
  intros Hcustom. induction typ as [typ IHe IHf] using RType_nested_ind. intros Hnm tags v dec.
  apply no_methods_inv in Hnm as (Hnm & Hne & Hnf).
  assert (Forall (λ f, ∀ tags v dec, typed custom_typed f.2 tags v →
    makeDecoder custom fuel f.2 tags = inr dec → ∃ b, trip tags dec v b) (rt_Field typ)) as Hfields.
  { rewrite Forall_lookup in *. intros i f Ef. by apply (IHf i f Ef), (Hnf i f Ef). }
  assert (∀ e d, rt_Elem typ = Some e → makeDecoder custom fuel e no_tags = inr d →
    looks fuel d ∧ ∀ w, typed custom_typed e no_tags w → ∃ b, trip no_tags d w b) as Helem.
  { intros e d Ee Ed. split; [|by intros w Hw; eapply IHe; eauto]. eapply makeDecoder_looks; eauto. }
  clear IHe IHf Hne. destruct typ as [name kind own ie idc pe pd len nm elem flds].
  cbn [makeDecoder typed rt_own rt_Kind rt_Elem rt_String rt_Field rt_PtrIsDecoder rt_PtrIsEncoder rt_NumMethod] in *. subst nm.
  destruct own as [[]|].
  - intros (b & -> & Hr & Hb) [= <-]. eapply scalar_trip; [by apply Raw_accepts|by split].
  - intros (i & -> & Hi) [= <-]. eapply (scalar_trip _ _ (λ i, VBigIntPtr (Some i))); [by apply decodeBigInt_accepts|].
    apply int_encodes; [done|]. by apply spec_big_int.
  - intros (i & -> & Hi) [= <-]. eapply scalar_trip; [by apply decodeBigInt_accepts|].
    apply int_encodes; [done|]. by apply spec_big_int.
  - intros (i & -> & Hi) [= <-]. eapply (scalar_trip _ _ (λ i, VU256Ptr (Some i))); [by apply ReadUint256_accepts|by apply int_encodes].
  - intros (i & -> & Hi) [= <-]. eapply scalar_trip; [by apply ReadUint256_accepts|by apply int_encodes].
  - destruct (kind =? Kind.Ptr).
    { intros Hv (d & Ed & [= <-])%err_bind_inr. destruct elem as [e|]; [|done].
      destruct (Helem e d eq_refl Ed) as [Hd Htrip]. by eapply ptr_trip. }
    intros (_ & _ & Hv). destruct pd; [injection 1 as <-; apply Hcustom in Hv as (b & He & Ht); by eapply encodes_trip|].
    destruct (isUint kind).
    { destruct Hv as (i & -> & Hi). injection 1 as <-. destruct (uint_bits_bytes kind) as (m & Em & Hm).
      eapply (scalar_trip _ (stream_uint (uint_bits kind)) VUint); [rewrite Em in *; by apply uint_accepts|].
      apply int_encodes; [|done]. cbn. rewrite Em in Hi. pose proof (Z.pow_le_mono_r 2 (8 * m) 64). lia. }
    destruct (kind =? Kind.Bool).
    { destruct Hv as (b & ->). injection 1 as <-. eapply (scalar_trip _ stream_Bool VBool); [apply Bool_accepts|by apply int_encodes]. }
    destruct (kind =? Kind.String).
    { destruct Hv as (b & -> & Hb). injection 1 as <-. eapply (scalar_trip _ stream_Bytes VString); [by apply Bytes_accepts|by apply string_encodes]. }
    destruct ((kind =? Kind.Slice) || (kind =? Kind.Array)).
    { destruct (from_option is_byte_elem false elem).
      - destruct Hv as (b & Hb & Hv). injection 1 as <-. destruct (kind =? Kind.Array).
        + destruct Hv as [-> Hlen]. eapply encodes_trip; [by apply string_encodes|by apply decodeByteArray_takes].
        + subst v. eapply (scalar_trip _ stream_Bytes VBytes); [by apply Bytes_accepts|by apply string_encodes].
      - destruct Hv as (vs & Hvs & Hv). intros (d & Ed & [= <-])%err_bind_inr. destruct elem as [e|]; [|done].
        destruct (Helem e d eq_refl Ed) as [Hd Htrip]. eapply list_trip; [done| |done].
        eapply Forall_impl; [exact Hvs|]. apply Htrip. }
    destruct (kind =? Kind.Struct).
    { destruct (structFields _) as [e|fields] eqn:Es; [done|]. destruct Hv as (fs & -> & Hfs).
      intros (ds & Ed & [= <-])%err_bind_inr. by apply (struct_trip (mkRType name kind None ie idc pe false len 0 elem flds)). }
    destruct (kind =? Kind.Interface); [|done]. injection 1 as <-.
    apply any_value_trips in Hv as (b & He & Ht). by eapply encodes_trip.
Qed.

(** [Stream.Decode] into a variable of the type. *)
Lemma stream_Decode_looks typ dec :
  custom_trips → no_methods typ = true → makeDecoder custom fuel typ no_tags = inr dec →
  looks fuel (stream_Decode custom fuel (PointerTo typ)).
Proof.
  intros Hcustom Hnm Ed. destruct (makeDecoder_looks typ Hcustom Hnm _ _ Ed) as [Hstop Hpeek]; [done|].
  unfold stream_Decode. rewrite Ed. split; unfold map_err.
  - intros s Hs HN Hl. by rewrite (Hstop s Hs HN Hl).
  - intros s k n h s1 Hs HN E Hp. by rewrite (Hpeek _ _ _ _ _ Hs HN E Hp).
Qed.

Lemma stream_Decode_takes typ dec v :
  custom_trips → no_methods typ = true → makeDecoder custom fuel typ no_tags = inr dec →
  typed custom_typed typ no_tags v →
  ∃ b, encodes_to v b ∧ takes fuel (stream_Decode custom fuel (PointerTo typ)) v b.
Proof.
  intros Hcustom Hnm Ed Hv.
  destruct (typed_trips typ Hcustom Hnm _ _ _ Hv Ed) as (b & [Hs Hb Hr Ht _]).
  exists b. split; [split; [done|done|by apply Hr]|]. intros s rest Hready Er Hf HN.
  destruct (Ht eq_refl s rest Hready Er Hf HN) as (s' & E & Hm). exists s'. split; [|done].
  unfold stream_Decode, map_err. by rewrite Ed, E.
Qed.

Lemma DecodeBytes_takes s0 typ v b :
  takes fuel (stream_Decode custom fuel (PointerTo typ)) v b →
  bytes_ok b → Z.of_nat (length b) < 2 ^ 48 → (length b < fuel)%nat →
  DecodeBytes custom fuel s0 b (PointerTo typ) = Done (inr v).
Proof.
  intros Ht Hb H48 Hf. pose proof (Reset_ready s0 b Hb H48) as Hready.
  assert (s_r (Reset b true (Z.of_nat (length b)) s0) = b) as Er by (unfold Reset; by destruct (0 <? _)).
  destruct (Ht (Reset b true (Z.of_nat (length b)) s0) []) as (s' & E & Hm & _).
  - done.
  - by rewrite app_nil_r.
  - split; [rewrite Er; lia|]. unfold Reset. by destruct (0 <? _).
  - by rewrite Er.
  - unfold DecodeBytes. rewrite E. pose proof (mv_r _ _ _ Hm) as Er'. rewrite Er in Er'. destruct (s_r s'); [done|].
    apply (f_equal length) in Er'. rewrite length_app in Er'. simpl in Er'. lia.
Qed.
End trips.

(** C16: decoding inverts encoding.  Every value of a Go type the codec handles, with
    pointers set (or nil where a tag allows it), absent optional fields zero and no
    interfaces with methods, is encoded by [EncodeToBytes] to a byte string from which
    [DecodeBytes] gives back the same value, whatever state the pooled stream was left in. *)
Theorem EncodeToBytes_DecodeBytes custom fuel custom_typed s0 typ dec v :
  custom_trips custom fuel custom_typed → no_methods typ = true →
  makeDecoder custom fuel typ no_tags = inr dec →
  typed custom_typed typ no_tags v →
  (∀ out, rlp_spec v = inr out → Z.of_nat (length out) < 2 ^ 48 ∧ (length out < fuel)%nat) →
  ∃ b, EncodeToBytes v = inr b ∧ DecodeBytes custom fuel s0 b (PointerTo typ) = Done (inr v).
Proof.
  intros Hcustom Hnm Ed Hv Hsize.
  destruct (stream_Decode_takes custom fuel custom_typed typ dec v Hcustom Hnm Ed Hv) as (b & [[Hs Hok] Hb _] & Ht).
  destruct (Hsize b Hs) as [H48 Hf]. exists b. split; [|by apply DecodeBytes_takes; [|apply Hb|..]].
  destruct (encoder_refines v Hok) as [-> _]; [|done]. intros out Ho. destruct (Hsize out Ho). lia.
Qed.
