(* ===== verification/Common.v ===== *)
(** * Addresses, hashes and the crypto package (common/types.go, common/bytes.go,
    common/hexutil, crypto/crypto.go)

    An address or hash is the big-endian number of its bytes; [Address_Bytes] and
    [Hash_Bytes] are the byte arrays.  Keccak and secp256k1 are foreign code (package
    golang.org/x/crypto/sha3 and the C library libsecp256k1) and enter as the class
    [Crypto]. *)

From S2P Require Import Prelude Bytes RlpEncode.

(** ** Foreign code *)

Class Crypto := {
  (* sha3.NewLegacyKeccak256: the digest of all bytes written *)
  Keccak256 : list byte → list byte;
  (* secp256k1.RecoverPubkey(hash, sig): the uncompressed public key or an error *)
  secp_RecoverPubkey : list byte → list byte → string + list byte;
  (* secp256k1.Sign(hash, seckey): the signature [R || S || V] or an error *)
  secp_Sign : list byte → list byte → string + list byte;
  (* the digest has 32 bytes *)
  Keccak256_length : ∀ data, length (Keccak256 data) = 32%nat;
  Keccak256_ok : ∀ data, bytes_ok (Keccak256 data);
}.

(** ** Addresses and hashes *)

Definition AddressLength : nat := 20.
Definition HashLength : nat := 32.

(** [SetBytes]: longer inputs are cropped from the left, shorter ones right-aligned. *)
Definition crop_left (n : nat) (b : list byte) : list byte := drop (length b - n) b.
Definition BytesToAddress (b : list byte) : Address := be_value (crop_left AddressLength b).
Definition BytesToHash (b : list byte) : Hash := be_value (crop_left HashLength b).
Definition Address_Bytes (a : Address) : list byte := be_bytes AddressLength a.
Definition Hash_Bytes (h : Hash) : list byte := be_bytes HashLength h.

(** [big.Int.Bytes] drops the sign. *)
Definition big_Bytes (i : Z) : list byte := be_min (Z.abs i).
Definition BigToAddress (b : Z) : Address := BytesToAddress (big_Bytes b).
Definition BigToHash (b : Z) : Hash := BytesToHash (big_Bytes b).
Definition Address_Hash (a : Address) : Hash := BytesToHash (Address_Bytes a).

(** The root hash of an empty trie (core/types/consts.go). *)
Definition EmptyRootHash : Hash :=
  0x56e81f171bcc55a6ff8345e692c0f86e5b48e01b996cadc001622fb5e363b421.

(** ** Hexadecimal strings *)

Definition hex_digit (n : Z) : byte := if n <? 10 then 48 + n else 87 + n.

(** [hex.Encode]: two lower-case digits per byte. *)
Definition hex_encode (b : list byte) : list byte :=
  b ≫= λ x, [hex_digit (x / 16); hex_digit (x mod 16)].

(** [hexutil.Encode] and [Hash.Hex]. *)
Definition hexutil_Encode (b : list byte) : list byte := 48 :: 120 :: hex_encode b.
Definition Hash_Hex (h : Hash) : list byte := hexutil_Encode (Hash_Bytes h).
Definition Address_hex (a : Address) : list byte := 48 :: 120 :: hex_encode (Address_Bytes a).

(** [checksumHex] raises the letter [buf[i]] when the digit of the digest at its
    position is above 7. *)
Definition checksum_digit (hash : list byte) (j : nat) (c : byte) : byte :=
  let hashByte := hash !!! (j / 2)%nat in
  let hashByte := if Nat.even j then hashByte ≫ 4 else Z.land hashByte 0xf in
  if (57 <? c) && (7 <? hashByte) then c - 32 else c.

Section crypto.
Context `{Crypto}.

Definition checksumHex (a : Address) : list byte :=
  let buf := Address_hex a in
  let hash := Keccak256 (drop 2 buf) in
  take 2 buf ++ imap (checksum_digit hash) (drop 2 buf).
Definition Address_Hex (a : Address) : list byte := checksumHex a.

(** ** Package crypto *)

Definition Keccak256Hash (data : list byte) : Hash := be_value (Keccak256 data).

Definition CreateAddress (b : Address) (nonce : Z) : Address :=
  let data := match EncodeToBytes (VSlice false
                     [VInterface (Some (VByteArray (Address_Bytes b)));
                      VInterface (Some (VUint nonce))]) with
              | inr data => data | inl _ => [] end in
  BytesToAddress (drop 12 (Keccak256 data)).

Definition CreateAddress2 (b : Address) (salt : list byte) (inithash : list byte) : Address :=
  BytesToAddress (drop 12 (Keccak256 ([0xff] ++ Address_Bytes b ++ salt ++ inithash))).

Definition secp256k1N : Z :=
  0xfffffffffffffffffffffffffffffffebaaedce6af48a03bbfd25e8cd0364141.
Definition secp256k1halfN : Z := secp256k1N / 2.

Definition ValidateSignatureValues (v : byte) (r s : Z) (homestead : bool) : bool :=
  if (r <? 1) || (s <? 1) then false
  else if homestead && (secp256k1halfN <? s) then false
  else (r <? secp256k1N) && (s <? secp256k1N) && ((v =? 0) || (v =? 1)).

Definition Ecrecover (hash sig : list byte) : string + list byte := secp_RecoverPubkey hash sig.

(** [toECDSA] with [strict]: the private scalar, range-checked.  The public key is
    derived by the curve library. *)
Definition ToECDSA (d : list byte) : string + Z :=
  if negb (8 * Z.of_nat (length d) =? 256) then inl "invalid length, need 256 bits"%string
  else
    let D := be_value d in
    if secp256k1N <=? D then inl "invalid private key, >=N"%string
    else if D <=? 0 then inl "invalid private key, zero or negative"%string
    else inr D.

(** [Sign]: the key padded to 32 bytes is handed to the library. *)
Definition Sign (digestHash : list byte) (D : Z) : string + list byte :=
  if negb (Nat.eqb (length digestHash) 32) then inl "hash is required to be exactly 32 bytes"%string
  else secp_Sign digestHash (be_bytes 32 D).

(** [PubkeyToAddress] on the uncompressed encoding of the key. *)
Definition pubkey_address (pub : list byte) : Address :=
  BytesToAddress (drop 12 (Keccak256 (drop 1 pub))).

End crypto.

(** ** Conversions *)

Lemma Address_Bytes_length a : length (Address_Bytes a) = 20%nat.
Proof. apply be_bytes_length. Qed.

Lemma Hash_Bytes_length h : length (Hash_Bytes h) = 32%nat.
Proof. apply be_bytes_length. Qed.

Lemma BytesToAddress_Bytes a : addr_ok a = true → BytesToAddress (Address_Bytes a) = a.
Proof.
  unfold addr_ok. rewrite andb_true_iff, Z.leb_le, Z.ltb_lt. intros Ha.
  unfold BytesToAddress, crop_left, Address_Bytes.
  rewrite be_bytes_length, Nat.sub_diag, drop_0, be_value_be_bytes by lia. apply Z.mod_small.
  change (256 ^ Z.of_nat AddressLength) with (2 ^ 160). lia.
Qed.

Lemma BytesToHash_Bytes h : hash_ok h = true → BytesToHash (Hash_Bytes h) = h.
Proof.
  unfold hash_ok. rewrite andb_true_iff, Z.leb_le, Z.ltb_lt. intros Hh.
  unfold BytesToHash, crop_left, Hash_Bytes.
  rewrite be_bytes_length, Nat.sub_diag, drop_0, be_value_be_bytes by lia. apply Z.mod_small.
  change (256 ^ Z.of_nat HashLength) with (2 ^ 256). lia.
Qed.

Lemma BytesToAddress_ok b : bytes_ok b → addr_ok (BytesToAddress b) = true.
Proof.
  intros Hb. unfold BytesToAddress, addr_ok.
  assert (bytes_ok (crop_left AddressLength b)) as Hc by by apply Forall_drop.
  pose proof (be_value_range _ Hc) as Hr. unfold crop_left in Hr |- *. rewrite length_drop in Hr.
  assert (256 ^ Z.of_nat (length b - (length b - AddressLength)) <= 256 ^ 20)
    by (apply Z.pow_le_mono_r; unfold AddressLength; lia).
  apply andb_true_iff. rewrite Z.leb_le, Z.ltb_lt. lia.
Qed.

(** ** Hexadecimal strings determine their bytes *)

Lemma hex_digit_inj x y : 0 <= x < 16 → 0 <= y < 16 → hex_digit x = hex_digit y → x = y.
Proof. unfold hex_digit. intros. repeat case_match; lia. Qed.

Lemma hex_encode_cons x l :
  hex_encode (x :: l) = hex_digit (x / 16) :: hex_digit (x mod 16) :: hex_encode l.
Proof. done. Qed.

Lemma hex_encode_inj l k :
  bytes_ok l → bytes_ok k → hex_encode l = hex_encode k → l = k.
Proof.
  intros Hl. revert k. induction Hl as [|x l Hx Hl IH]; intros [|y k] Hk E; try done.
  apply Forall_cons in Hk as [Hy Hk]. rewrite !hex_encode_cons in E.
  injection E as E1 E2 E3. f_equal; [|by apply IH].
  assert (∀ z, 0 <= z < 256 → 0 <= z / 16 < 16 ∧ 0 <= z mod 16 < 16) as Hd.
  { intros z Hz. split; [split; [apply Z.div_pos | apply Z.div_lt_upper_bound]; lia|].
    apply Z.mod_pos_bound. lia. }
  apply hex_digit_inj in E1; [|apply Hd; lia..]. apply hex_digit_inj in E2; [|apply Hd; lia..].
  rewrite (Z.div_mod x 16), (Z.div_mod y 16), E1, E2 by lia. done.
Qed.

Lemma hex_encode_length l : length (hex_encode l) = (2 * length l)%nat.
Proof. induction l; [done|]. rewrite hex_encode_cons. simpl length. lia. Qed.

(** The digits [hex.Encode] writes: no capital letters. *)
Definition is_hex (c : byte) : Prop := 48 <= c <= 57 ∨ 97 <= c <= 102.

Lemma hex_encode_digits l : bytes_ok l → Forall is_hex (hex_encode l).
Proof.
  induction 1 as [|x l Hx _ IH]; [constructor|]. rewrite hex_encode_cons.
  pose proof (Z.mod_pos_bound x 16). pose proof (Z.div_pos x 16).
  pose proof (Z.div_lt_upper_bound x 16 16). unfold is_hex, hex_digit.
  constructor; [|constructor; [|done]]; case_match eqn:Hc;
    apply Z.ltb_lt in Hc || apply Z.ltb_ge in Hc; lia.
Qed.

(** Raising letters is undone by lowering them. *)
Definition lower (c : byte) : byte := if (65 <=? c) && (c <=? 70) then c + 32 else c.

Lemma lower_raised (f : nat → byte → byte) l :
  (∀ j c, f j c = c ∨ 57 < c ∧ f j c = c - 32) → Forall is_hex l → map lower (imap f l) = l.
Proof.
  revert f. induction l as [|c l IH]; intros f Hf Hl; [done|].
  apply Forall_cons in Hl as [Hc Hl]. rewrite imap_cons. simpl.
  f_equal; [|by apply IH; [intros; apply Hf|]].
  unfold is_hex, lower in *. destruct (Hf 0%nat c) as [->|[? ->]];
    match goal with |- context [(?a <=? ?x) && (?y <=? ?b)] =>
      destruct (Z.leb_spec a x), (Z.leb_spec y b) end; simpl; lia.
Qed.

Lemma checksum_digit_raised hash j c :
  checksum_digit hash j c = c ∨ 57 < c ∧ checksum_digit hash j c = c - 32.
Proof.
  unfold checksum_digit. destruct (Z.ltb_spec 57 c); simpl; [case_match; auto | auto].
Qed.

Section hex_inj.
Context `{Crypto}.

Lemma Address_Hex_lower a :
  map lower (drop 2 (Address_Hex a)) = hex_encode (Address_Bytes a).
Proof.
  unfold Address_Hex, checksumHex, Address_hex. cbn [drop take app].
  apply lower_raised; [apply checksum_digit_raised|]. apply hex_encode_digits, be_bytes_ok.
Qed.

Lemma Address_Hex_length a : length (Address_Hex a) = 42%nat.
Proof.
  unfold Address_Hex, checksumHex, Address_hex.
  rewrite length_app, length_imap, length_drop. cbn [length take].
  rewrite hex_encode_length, Address_Bytes_length. done.
Qed.

(** Distinct addresses have distinct checksummed strings. *)
Lemma Address_Hex_inj a b :
  addr_ok a = true → addr_ok b = true → Address_Hex a = Address_Hex b → a = b.
Proof.
  intros Ha Hb E. rewrite <- (BytesToAddress_Bytes a), <- (BytesToAddress_Bytes b) by done.
  f_equal. apply hex_encode_inj; [apply be_bytes_ok..|].
  by rewrite <- !Address_Hex_lower, E.
Qed.

End hex_inj.

Lemma Hash_Hex_length h : length (Hash_Hex h) = 66%nat.
Proof.
  unfold Hash_Hex, hexutil_Encode. cbn [length]. unfold Hash_Bytes.
  rewrite hex_encode_length, be_bytes_length. done.
Qed.

Lemma Hash_Hex_inj h k :
  hash_ok h = true → hash_ok k = true → Hash_Hex h = Hash_Hex k → h = k.
Proof.
  unfold Hash_Hex, hexutil_Encode. intros Hh Hk E. apply (f_equal (drop 2)) in E.
  rewrite <- (BytesToHash_Bytes h), <- (BytesToHash_Bytes k) by done.
  f_equal. apply hex_encode_inj; [apply be_bytes_ok..|done].
Qed.

(** A deterministic stand-in that satisfies the laws of the class, for witnesses: the
    digest is the input cropped or padded to 32 bytes, and the key recovered from a
    signature is its first 64 bytes. *)
Definition toy_digest (data : list byte) : list byte :=
  be_bytes 32 (be_value (0 :: data)).

Definition toy_crypto : Crypto.
Proof.
  refine {| Keccak256 := toy_digest;
            secp_RecoverPubkey hash sig := inr (4 :: take 64 sig);
            secp_Sign hash key := inr (be_bytes 32 1 ++ key ++ [0]) |}.
  - intros. apply be_bytes_length.
  - intros. apply be_bytes_ok.
Defined.
