(* ===== verification/Compress.v ===== *)
(** * Compression of sparse byte strings (common/bitutil/compress.go)

    A string with many zero bytes is written as its non-zero bytes behind the compressed
    bitset that tells where they are.  What is compressed is decompressed to itself. *)

From S2P Require Import Prelude Bytes.

Inductive bit_error := errMissingData | errUnreferencedData | errExceededTarget | errZeroContent.

(** ** Compression *)

(** Indices stay in range in the loops below. *)
Definition byte_at (l : list byte) (i : nat) : byte := default 0 (l !! i).

(** [bitset[i/8] |= 1 << byte(7-i%8)] *)
Definition set_bit (bitset : list byte) (i : nat) : list byte :=
  <[(i / 8)%nat := Z.lor (byte_at bitset (i / 8)) (Z.shiftl 1 (Z.of_nat (7 - i mod 8)))]> bitset.
(** [bitset[i/8]&(1<<byte(7-i%8)) != 0] *)
Definition has_bit (bitset : list byte) (i : nat) : bool :=
  negb (Z.land (byte_at bitset (i / 8)) (Z.shiftl 1 (Z.of_nat (7 - i mod 8))) =? 0).

(** The loop over the input: the non-zero bytes and the bitset of their places. *)
Fixpoint gather (i : nat) (data nonZeroBytes nonZeroBitset : list byte) : list byte * list byte :=
  match data with
  | [] => (nonZeroBytes, nonZeroBitset)
  | b :: data =>
      if b =? 0 then gather (S i) data nonZeroBytes nonZeroBitset
      else gather (S i) data (nonZeroBytes ++ [b]) (set_bit nonZeroBitset i)
  end.

(** [None] when the rounds of recursion are used up. *)
Fixpoint bitsetEncodeBytes (fuel : nat) (data : list byte) : option (list byte) :=
  match data with
  | [] => Some []
  | [b] => Some (if b =? 0 then [] else data)
  | _ =>
      match fuel with
      | O => None
      | S fuel =>
          let '(nonZeroBytes, nonZeroBitset) := gather 0 data [] (replicate ((length data + 7) / 8) 0) in
          match nonZeroBytes with
          | [] => Some []
          | _ => out ← bitsetEncodeBytes fuel nonZeroBitset; Some (out ++ nonZeroBytes)
          end
      end
  end.

Definition CompressBytes (fuel : nat) (data : list byte) : option (list byte) :=
  out ← bitsetEncodeBytes fuel data;
  Some (if (length out <? length data)%nat then out else data).

(** ** Decompression *)

(** The loop over the bits: the bytes are put in their places. *)
Fixpoint distribute (n i : nat) (bitset data decomp : list byte) (ptr : nat) : bit_error + (list byte * nat) :=
  match n with
  | O => inr (decomp, ptr)
  | S n =>
      if has_bit bitset i then
        if (length data <=? ptr)%nat then inl errMissingData
        else if (length decomp <=? i)%nat then inl errExceededTarget
        else if byte_at data ptr =? 0 then inl errZeroContent
        else distribute n (S i) bitset data (<[i := byte_at data ptr]> decomp) (S ptr)
      else distribute n (S i) bitset data decomp ptr
  end.

Fixpoint bitsetDecodePartialBytes (fuel : nat) (data : list byte) (target : nat)
  : option (bit_error + (list byte * nat)) :=
  if (target =? 0)%nat then Some (inr ([], 0%nat))
  else
    match data with
    | [] => Some (inr (replicate target 0, 0%nat))
    | b :: _ =>
        if (target =? 1)%nat then Some (inr ([b], if b =? 0 then 0%nat else 1%nat))
        else
          match fuel with
          | O => None
          | S fuel =>
              r ← bitsetDecodePartialBytes fuel data ((target + 7) / 8);
              match r with
              | inl err => Some (inl err)
              | inr (nonZeroBitset, ptr) =>
                  Some (distribute (8 * length nonZeroBitset) 0 nonZeroBitset data (replicate target 0) ptr)
              end
          end
    end.

Definition bitsetDecodeBytes (fuel : nat) (data : list byte) (target : nat) : option (bit_error + list byte) :=
  r ← bitsetDecodePartialBytes fuel data target;
  Some (match r with
        | inl err => inl err
        | inr (out, size) => if (size =? length data)%nat then inr out else inl errUnreferencedData
        end).

Definition DecompressBytes (fuel : nat) (data : list byte) (target : nat) : option (bit_error + list byte) :=
  if (target <? length data)%nat then Some (inl errExceededTarget)
  else if (length data =? target)%nat then Some (inr data)
  else bitsetDecodeBytes fuel data target.

(** ** Bits *)

Lemma has_bit_testbit bitset i :
  has_bit bitset i = Z.testbit (byte_at bitset (i / 8)) (Z.of_nat (7 - i mod 8)).
Proof.
  unfold has_bit. set (x := byte_at bitset _). set (n := Z.of_nat _). assert (0 <= n) as Hn by lia.
  destruct (Z.testbit x n) eqn:E.
  - apply negb_true_iff, Z.eqb_neq. intros H0. assert (Z.testbit (Z.land x (Z.shiftl 1 n)) n = false) as Hf
      by (rewrite H0; apply Z.bits_0). by rewrite Z.land_spec, E, Z.shiftl_spec, Z.sub_diag in Hf.
  - apply negb_false_iff, Z.eqb_eq. apply Z.bits_inj'. intros k Hk. rewrite Z.land_spec, Z.shiftl_spec, Z.bits_0 by done.
    destruct (decide (k = n)) as [->|Hne]; [by rewrite E|].
    destruct (Z.testbit x k); [|done]. cbn. destruct (decide (k < n)); [by apply Z.testbit_neg_r; lia|].
    apply Z.bits_above_log2; cbn; lia.
Qed.

Lemma set_bit_spec bitset i j :
  (i / 8 < length bitset)%nat → has_bit (set_bit bitset i) j = (if decide (i = j) then true else has_bit bitset j).
Proof.
  intros Hi. rewrite !has_bit_testbit. unfold set_bit. set (x := byte_at bitset (i / 8)).
  assert ((i mod 8 < 8)%nat ∧ (j mod 8 < 8)%nat) as [Hmi Hmj] by (split; apply Nat.mod_upper_bound; lia).
  pose proof (Nat.div_mod_eq i 8) as Ei. pose proof (Nat.div_mod_eq j 8) as Ej.
  destruct (decide (i / 8 = j / 8)%nat) as [E|Hne].
  - rewrite E. unfold byte_at at 1. rewrite list_lookup_insert_eq by lia. cbn [default from_option id]. rewrite Z.lor_spec, Z.shiftl_spec by lia.
    case_decide as Hij; [subst j; by rewrite Z.sub_diag, orb_true_r|].
    assert (Z.testbit 1 (Z.of_nat (7 - j mod 8) - Z.of_nat (7 - i mod 8)) = false) as ->.
    { assert (i mod 8 ≠ j mod 8)%nat by (intros Hm; apply Hij; rewrite Ei, Ej, E, Hm; done).
      destruct (decide (7 - j mod 8 < 7 - i mod 8)%nat); [apply Z.testbit_neg_r; lia|].
      apply Z.bits_above_log2; [lia|]. change (Z.log2 1) with 0. lia. }
    unfold x. by rewrite orb_false_r, E.
  - unfold byte_at at 1. rewrite list_lookup_insert_ne by done. by rewrite decide_False by (intros ->; done).
Qed.

Lemma set_bit_length bitset i : length (set_bit bitset i) = length bitset.
Proof. apply length_insert. Qed.

Lemma has_bit_zero n i : has_bit (replicate n 0) i = false.
Proof.
  unfold has_bit, byte_at. assert (default 0 (replicate n 0 !! (i / 8)%nat) = 0) as ->; [|done].
  destruct (replicate n 0 !! (i / 8)%nat) eqn:E; [|done]. by apply lookup_replicate in E as [-> _].
Qed.

(** ** The input and its bitset *)

Definition nonzeros (data : list byte) : list byte := filter (λ b, b ≠ 0) data.
(** The bits from [i] on tell which bytes of [data] are not zero. *)
Definition marks (bitset : list byte) (i : nat) (data : list byte) : Prop :=
  ∀ j, (i <= j)%nat → has_bit bitset j = match data !! (j - i)%nat with Some b => negb (b =? 0) | None => false end.

Lemma gather_spec data : ∀ i acc bitset,
  (i + length data <= 8 * length bitset)%nat → (∀ j, (i <= j)%nat → has_bit bitset j = false) →
  ∃ bitset', gather i data acc bitset = (acc ++ nonzeros data, bitset') ∧ length bitset' = length bitset ∧
    marks bitset' i data ∧ ∀ j, (j < i)%nat → has_bit bitset' j = has_bit bitset j.
Proof.
  induction data as [|b data IH]; intros i acc bitset Hl Hz; cbn [gather].
  { exists bitset. rewrite app_nil_r. split_and!; [done|done| |done]. intros j Hj. by rewrite Hz. }
  cbn [length] in Hl. unfold nonzeros. rewrite filter_cons.
  assert (i / 8 < length bitset)%nat as Hi by (apply Nat.Div0.div_lt_upper_bound; lia).
  assert (∀ bitset1 acc1, length bitset1 = length bitset →
    (∀ j, (S i <= j)%nat → has_bit bitset1 j = false) → (∀ j, (j < i)%nat → has_bit bitset1 j = has_bit bitset j) →
    has_bit bitset1 i = negb (b =? 0) →
    ∃ bitset', gather (S i) data acc1 bitset1 = (acc1 ++ nonzeros data, bitset') ∧ length bitset' = length bitset ∧
      marks bitset' i (b :: data) ∧ ∀ j, (j < i)%nat → has_bit bitset' j = has_bit bitset j) as Hgo.
  { intros bitset1 acc1 Hl1 Hz1 Hb1 Hi1. destruct (IH (S i) acc1 bitset1) as (bs & -> & Hbl & Hm & Hp); [lia|done|].
    exists bs. split_and!; [done|lia| |].
    - intros j Hj. destruct (decide (j = i)) as [->|Hne]; [by rewrite Nat.sub_diag, Hp, Hi1 by lia|].
      rewrite Hm by lia. by replace (j - i)%nat with (S (j - S i)) by lia.
    - intros j Hj. rewrite Hp by lia. by apply Hb1. }
  destruct (Z.eqb_spec b 0) as [->|Hb].
  - rewrite decide_False by (intros []; done). apply Hgo; [done|intros j Hj; apply Hz; lia|done|by rewrite Hz].
  - rewrite decide_True by done.
    destruct (Hgo (set_bit bitset i) (acc ++ [b])) as (bs & E & H').
    + apply set_bit_length.
    + intros j Hj. rewrite set_bit_spec, decide_False by lia. apply Hz. lia.
    + intros j Hj. by rewrite set_bit_spec, decide_False by lia.
    + by rewrite set_bit_spec, decide_True by lia.
    + exists bs. by rewrite E, <- app_assoc.
Qed.

Lemma distribute_spec bitset input : ∀ data i pre rest ptr,
  (length pre = i)%nat → marks bitset i data →
  drop ptr input = nonzeros data ++ rest →
  ∀ n, (length data <= n)%nat →
  distribute n i bitset input (pre ++ replicate (length data) 0) ptr
  = inr (pre ++ data, (ptr + length (nonzeros data))%nat).
Proof.
  induction data as [|b data IH]; intros i pre rest ptr Hp Hm Hd n Hn.
  - assert (∀ n i, marks bitset i [] → distribute n i bitset input pre ptr = inr (pre, ptr)) as Hz.
    { clear. induction n as [|n IH]; intros i Hm; cbn [distribute]; [done|]. rewrite Hm by lia. cbn. apply IH.
      intros j Hj. by rewrite Hm by lia. }
    cbn [length replicate nonzeros filter list_filter]. rewrite !app_nil_r. cbn. rewrite Nat.add_0_r. by apply Hz.
  - destruct n as [|n]; [cbn in Hn; lia|]. cbn [length] in Hn. cbn [distribute length replicate].
    rewrite Hm, Nat.sub_diag by lia. cbn [lookup list_lookup]. unfold nonzeros in *. rewrite filter_cons in Hd |- *.
    assert (marks bitset (S i) data) as Hm'.
    { intros j Hj. rewrite Hm by lia. by replace (j - i)%nat with (S (j - S i)) by lia. }
    destruct (Z.eqb_spec b 0) as [->|Hb]; cbn [negb].
    + rewrite decide_False in Hd |- * by (intros []; done).
      specialize (IH (S i) (pre ++ [0]) rest ptr). rewrite <- !app_assoc in IH. apply IH; try done; [|lia].
      rewrite length_app. cbn. lia.
    + rewrite decide_True in Hd |- * by done. cbn [length].
      assert (input !! ptr = Some b) as Hin.
      { rewrite <- (Nat.add_0_r ptr), <- lookup_drop, Hd. done. }
      apply lookup_lt_Some in Hin as Hlt. rewrite (proj2 (Nat.leb_gt _ _) Hlt).
      rewrite (proj2 (Nat.leb_gt _ _)) by (rewrite length_app; cbn; lia).
      unfold byte_at. rewrite Hin. cbn [default from_option id]. rewrite (proj2 (Z.eqb_neq _ _) Hb).
      rewrite insert_app_r_alt by lia. replace (i - length pre)%nat with 0%nat by lia. cbn.
      specialize (IH (S i) (pre ++ [b]) rest (S ptr)). rewrite <- !app_assoc in IH. cbn in IH.
      rewrite IH; try done; [do 2 f_equal; lia|rewrite length_app; cbn; lia| |lia].
      rewrite <- Nat.add_1_r, <- drop_drop, Hd. done.
Qed.

Lemma marks_nonzero bitset data : marks bitset 0 data → nonzeros data ≠ [] → nonzeros bitset ≠ [].
Proof.
  intros Hm Hne. destruct (nonzeros data) as [|b l] eqn:E; [done|].
  assert (b ∈ nonzeros data) as [Hb Hin]%list_elem_of_filter by (rewrite E; left).
  apply list_elem_of_lookup_1 in Hin as [j Hj]. pose proof (Hm j ltac:(lia)) as Hbit.
  rewrite Nat.sub_0_r, Hj, (proj2 (Z.eqb_neq _ _) Hb) in Hbit. unfold has_bit, byte_at in Hbit.
  destruct (bitset !! (j / 8)%nat) as [x|] eqn:Ex; [|done]. apply list_elem_of_lookup_2 in Ex.
  assert (x ≠ 0) as Hx by (intros ->; done). intros En.
  assert (x ∈ nonzeros bitset) as Hin by (by apply list_elem_of_filter). rewrite En in Hin. by apply not_elem_of_nil in Hin.
Qed.

Lemma bitset_size n : (2 <= n)%nat → ((n + 7) / 8 < n ∧ n <= 8 * ((n + 7) / 8))%nat.
Proof.
  intros Hn. split; [apply Nat.Div0.div_lt_upper_bound; lia|].
  pose proof (Nat.div_mod_eq (n + 7) 8). pose proof (Nat.mod_upper_bound (n + 7) 8). lia.
Qed.

(** ** The round trip *)

(** A string that is not all zero is read back from the front of any input. *)
Definition reads_back (fuel : nat) (data out : list byte) : Prop :=
  out ≠ [] ∧ ∀ rest, bitsetDecodePartialBytes fuel (out ++ rest) (length data) = Some (inr (data, length out)).

Lemma encode_spec fuel : ∀ data,
  (length data <= S fuel)%nat →
  ∃ out, bitsetEncodeBytes fuel data = Some out ∧
    (nonzeros data = [] → out = []) ∧ (nonzeros data ≠ [] → reads_back fuel data out).
Proof.
  induction fuel as [|fuel IH]; intros [|b [|b' data']] Hl.
  1, 4: by exists [].
  1, 3: exists (if b =? 0 then [] else [b]); split; [done|]; unfold nonzeros; rewrite filter_cons;
    destruct (Z.eqb_spec b 0) as [->|Hb]; [by rewrite decide_False by (intros []; done)|];
    rewrite decide_True by done; split; [done|]; intros _; split; [done|]; intros rest; cbn;
    by rewrite (proj2 (Z.eqb_neq _ _) Hb).
  { cbn in Hl. lia. }
  cbn [bitsetEncodeBytes]. set (data := b :: b' :: data') in *. assert (2 <= length data)%nat as H2 by (cbn; lia).
  destruct (bitset_size _ H2) as [Hlt Hge]. clearbody data.
  destruct (gather_spec data 0 [] (replicate ((length data + 7) / 8) 0)) as (bs & -> & Hbl & Hm & _).
  { by rewrite length_replicate. }
  { intros j _. apply has_bit_zero. }
  rewrite length_replicate in Hbl. cbn [app]. destruct (nonzeros data) as [|x l] eqn:En; [by exists []|].
  destruct (IH bs) as (enc & -> & _ & Hr); [lia|]. cbn [mbind option_bind]. eexists. split; [done|]. split; [done|]. intros _.
  destruct (Hr ltac:(eapply marks_nonzero; [exact Hm|by rewrite En])) as [Hne Hdec]. split; [by destruct enc|]. intros rest.
  rewrite <- app_assoc. cbn [bitsetDecodePartialBytes]. rewrite !(proj2 (Nat.eqb_neq _ _)) by lia.
  destruct (enc ++ (x :: l) ++ rest) as [|y input] eqn:Ein; [by destruct enc|]. rewrite <- Ein. clear y input Ein.
  specialize (Hdec ((x :: l) ++ rest)). rewrite Hbl in Hdec. rewrite Hdec. cbn [mbind option_bind]. f_equal.
  rewrite length_app, <- En. apply (distribute_spec _ _ data 0 [] rest); [done|done| |lia].
  by rewrite drop_app_length, En.
Qed.

(** C32: compression is undone by decompression: for every byte string [CompressBytes] returns
    a string that is not longer, and [DecompressBytes] with the length of the original
    returns the original.  The recursion of both is no deeper than the string is long. *)
Theorem compress_roundtrip (data : list byte) :
  ∃ out, CompressBytes (length data) data = Some out ∧ (length out <= length data)%nat ∧
    DecompressBytes (length data) out (length data) = Some (inr data).
Proof.
  destruct (encode_spec (length data) data ltac:(lia)) as (enc & He & Hz & Hr).
  unfold CompressBytes. rewrite He. cbn [mbind option_bind]. eexists. split; [done|].
  destruct (Nat.ltb_spec (length enc) (length data)) as [Hlt|_].
  2: { split; [done|]. unfold DecompressBytes. by rewrite Nat.ltb_irrefl, Nat.eqb_refl. }
  split; [lia|]. unfold DecompressBytes, bitsetDecodeBytes. rewrite (proj2 (Nat.ltb_ge _ _)), (proj2 (Nat.eqb_neq _ _)) by lia.
  destruct (decide (nonzeros data = [])) as [Hn|Hn].
  - rewrite (Hz Hn). clear -Hn Hlt. assert (data = replicate (length data) 0) as Ed.
    { clear Hlt. induction data as [|b data IH]; [done|]. unfold nonzeros in *. rewrite filter_cons in Hn. case_decide as Hb; [done|].
      cbn. rewrite Hb. f_equal. by apply IH. }
    destruct (length data) as [|n]; [lia|]. cbn. by rewrite Ed.
  - destruct (Hr Hn) as [_ Hd]. specialize (Hd []). rewrite app_nil_r in Hd. rewrite Hd. cbn. by rewrite Nat.eqb_refl.
Qed.

(** Decompression returns, with a string or an error, for every input and target. *)
Lemma decompress_total fuel : ∀ data target, (target <= S fuel)%nat → is_Some (bitsetDecodePartialBytes fuel data target).
Proof.
  induction fuel as [|fuel IH]; intros data target Ht; cbn [bitsetDecodePartialBytes];
    destruct (Nat.eqb_spec target 0); try (by eexists); destruct data as [|b data]; try (by eexists);
    destruct (Nat.eqb_spec target 1); try (by eexists); [lia|].
  destruct (IH (b :: data) ((target + 7) / 8)%nat) as [r ->]; [destruct (bitset_size target); lia|].
  cbn. destruct r as [|[? ?]]; by eexists.
Qed.

Example compress_sample :
  CompressBytes 9 [0; 0; 7; 0; 0; 0; 0; 0; 9] = Some [0xC0; 0x20; 0x80; 7; 9] ∧
  DecompressBytes 9 [0xC0; 0x20; 0x80; 7; 9] 9 = Some (inr [0; 0; 7; 0; 0; 0; 0; 0; 9]) ∧
  DecompressBytes 9 [0xC0; 0x20; 0x80; 7; 0] 9 = Some (inl errZeroContent) ∧
  DecompressBytes 9 [0xC0; 0x20; 0x80; 7] 9 = Some (inl errMissingData) ∧
  DecompressBytes 9 [0xC0; 0x20; 0x80; 7; 9; 1] 9 = Some (inl errUnreferencedData).
Proof. by vm_compute. Qed.
