(* ===== verification/Lru.v ===== *)
(** * The LRU cache (common/lru/basiclru.go)

    A map and a doubly linked ring of its keys.  Ring elements are cells of a store and
    pointers are addresses; the cache mutates the cells and reuses them.  Under every
    sequence of operations the cache answers like a list of entries with the one used last
    in front, and no nil pointer is dereferenced. *)

From S2P Require Import Prelude.

Section lru.
Context {K V : Type} `{Countable K}.
(** The zero values of the two types. *)
Context (zeroK : K) (zeroV : V).

(** ** The linked list *)

Abbreviation ptr := nat (only parsing).
Record listElem := mkElem { next : option ptr; prev : option ptr; v : K }.
Abbreviation store := (gmap nat listElem).

(** The element that [list] holds as its root. *)
Definition root : ptr := 0.

Definition load (h : store) (p : option ptr) : res (ptr * listElem) :=
  match p with
  | Some p => match h !! p with Some e => Ok (p, e) | None => Panic "invalid memory address" end
  | None => Panic "nil pointer dereference"
  end.
Definition set_next (h : store) (p : option ptr) (n : option ptr) : res store :=
  '(p, e) ← load h p; Ok (<[p := mkElem n (prev e) (v e)]> h).
Definition set_prev (h : store) (p : option ptr) (n : option ptr) : res store :=
  '(p, e) ← load h p; Ok (<[p := mkElem (next e) n (v e)]> h).
Definition set_v (h : store) (p : option ptr) (k : K) : res store :=
  '(p, e) ← load h p; Ok (<[p := mkElem (next e) (prev e) k]> h).
Definition get_next (h : store) (p : option ptr) : res (option ptr) := '(_, e) ← load h p; Ok (next e).
Definition get_prev (h : store) (p : option ptr) : res (option ptr) := '(_, e) ← load h p; Ok (prev e).
Definition get_v (h : store) (p : option ptr) : res K := '(_, e) ← load h p; Ok (v e).

Definition list_init (h : store) : res store :=
  h ← set_next h (Some root) (Some root); set_prev h (Some root) (Some root).
Definition newList : res store := list_init {[ root := mkElem None None zeroK ]}.

Definition pushElem (h : store) (e : option ptr) : res store :=
  h ← set_prev h e (Some root);
  n ← get_next h (Some root);
  h ← set_next h e n;
  h ← set_next h (Some root) e;
  n ← get_next h e;
  set_prev h n e.

(** [e.prev.next = e.next; e.next.prev = e.prev] *)
Definition unlink (h : store) (e : option ptr) : res store :=
  p ← get_prev h e; n ← get_next h e;
  h ← set_next h p n;
  n ← get_next h e; p ← get_prev h e;
  set_prev h n p.
Definition moveToFront (h : store) (e : option ptr) : res store :=
  h ← unlink h e; pushElem h e.
Definition list_remove (h : store) (e : option ptr) : res store :=
  h ← unlink h e;
  h ← set_next h e None; set_prev h e None.
Definition list_last (h : store) : res (option ptr) :=
  e ← get_prev h (Some root);
  Ok (if bool_decide (e = Some root) then None else e).
Definition removeLast (h : store) : res (option ptr * store) :=
  last ← list_last h;
  match last with
  | None => Ok (None, h)
  | Some _ => h ← list_remove h last; Ok (last, h)
  end.
(** The loop ends at the root; it takes no more rounds than there are cells. *)
Fixpoint appendTo (fuel : nat) (h : store) (e : option ptr) (slice : list K) : outcome (list K) :=
  if bool_decide (e = Some root) then Done slice
  else
    match fuel with
    | O => OutOfFuel
    | S fuel =>
        match load h e with
        | Ok (_, x) => appendTo fuel h (prev x) (slice ++ [v x])
        | Panic msg => Crash msg
        end
    end.

(** ** The cache *)

Record BasicLRU := mkLRU {
  cells : store;
  fresh : ptr; (* the next address [new] returns *)
  items : gmap K (option ptr * V);
  cap : Z;
}.

Definition NewBasicLRU (capacity : Z) : res BasicLRU :=
  let capacity := if capacity <=? 0 then 1 else capacity in
  h ← newList; Ok (mkLRU h 1 ∅ capacity).

Definition lru_Len (c : BasicLRU) : Z := Z.of_nat (size (items c)).

Definition lru_Add (c : BasicLRU) (key : K) (value : V) : res (bool * BasicLRU) :=
  match items c !! key with
  | Some (elem, _) =>
      h ← moveToFront (cells c) elem;
      Ok (false, mkLRU h (fresh c) (<[key := (elem, value)]> (items c)) (cap c))
  | None =>
      '(elem, evicted, h, its, fr) ←
        (if cap c <=? lru_Len c then
           '(elem, h) ← removeLast (cells c);
           k ← get_v h elem;
           Ok (elem, true, h, delete k (items c), fresh c)
         else Ok (Some (fresh c), false, <[fresh c := mkElem None None zeroK]> (cells c), items c, S (fresh c)));
      h ← set_v h elem key;
      h ← pushElem h elem;
      Ok (evicted, mkLRU h fr (<[key := (elem, value)]> its) (cap c))
  end.

Definition lru_Contains (c : BasicLRU) (key : K) : bool := bool_decide (is_Some (items c !! key)).

Definition lru_Get (c : BasicLRU) (key : K) : res (option V * BasicLRU) :=
  match items c !! key with
  | None => Ok (None, c)
  | Some (elem, value) =>
      h ← moveToFront (cells c) elem; Ok (Some value, mkLRU h (fresh c) (items c) (cap c))
  end.

Definition item_value (c : BasicLRU) (key : K) : V :=
  match items c !! key with Some (_, value) => value | None => zeroV end.

Definition GetOldest (c : BasicLRU) : res (option (K * V)) :=
  lastElem ← list_last (cells c);
  match lastElem with
  | None => Ok None
  | Some _ => key ← get_v (cells c) lastElem; Ok (Some (key, item_value c key))
  end.

Definition lru_Peek (c : BasicLRU) (key : K) : option V := snd <$> items c !! key.

Definition Purge (c : BasicLRU) : res BasicLRU :=
  h ← list_init (cells c); Ok (mkLRU h (fresh c) ∅ (cap c)).

Definition lru_Remove (c : BasicLRU) (key : K) : res (bool * BasicLRU) :=
  match items c !! key with
  | None => Ok (false, c)
  | Some (elem, _) =>
      h ← list_remove (cells c) elem; Ok (true, mkLRU h (fresh c) (delete key (items c)) (cap c))
  end.

Definition RemoveOldest (c : BasicLRU) : res (option (K * V) * BasicLRU) :=
  lastElem ← list_last (cells c);
  match lastElem with
  | None => Ok (None, c)
  | Some _ =>
      key ← get_v (cells c) lastElem;
      let value := item_value c key in
      h ← list_remove (cells c) lastElem;
      Ok (Some (key, value), mkLRU h (fresh c) (delete key (items c)) (cap c))
  end.

Definition lru_Keys (fuel : nat) (c : BasicLRU) : outcome (list K) :=
  match get_prev (cells c) (Some root) with
  | Ok e => appendTo fuel (cells c) e []
  | Panic msg => Crash msg
  end.

(** ** The fields of the cells *)

Definition nx (h : store) (p : ptr) : option (option ptr) := next <$> h !! p.
Definition pv (h : store) (p : ptr) : option (option ptr) := prev <$> h !! p.
Definition vl (h : store) (p : ptr) : option K := v <$> h !! p.

Definition with_next (n : option ptr) (e : listElem) : listElem := mkElem n (prev e) (v e).
Definition with_prev (n : option ptr) (e : listElem) : listElem := mkElem (next e) n (v e).

Lemma set_next_Ok h p n : is_Some (h !! p) → set_next h (Some p) n = Ok (alter (with_next n) p h).
Proof. intros [e E]. unfold set_next. cbn. rewrite E. cbn. f_equal. by rewrite (alter_alt_Some _ _ _ _ E). Qed.
Lemma set_prev_Ok h p n : is_Some (h !! p) → set_prev h (Some p) n = Ok (alter (with_prev n) p h).
Proof. intros [e E]. unfold set_prev. cbn. rewrite E. cbn. f_equal. by rewrite (alter_alt_Some _ _ _ _ E). Qed.
Lemma get_next_Ok h p n : nx h p = Some n → get_next h (Some p) = Ok n.
Proof. unfold nx, get_next. intros (e & E & ->)%fmap_Some_1. cbn. by rewrite E. Qed.
Lemma get_prev_Ok h p n : pv h p = Some n → get_prev h (Some p) = Ok n.
Proof. unfold pv, get_prev. intros (e & E & ->)%fmap_Some_1. cbn. by rewrite E. Qed.
Lemma get_v_Ok h p k : vl h p = Some k → get_v h (Some p) = Ok k.
Proof. unfold vl, get_v. intros (e & E & ->)%fmap_Some_1. cbn. by rewrite E. Qed.

Lemma nx_next h p n q : is_Some (h !! p) → nx (alter (with_next n) p h) q = if decide (p = q) then Some n else nx h q.
Proof.
  intros [e E]. unfold nx. case_decide as Hpq; [subst q; by rewrite lookup_alter_eq, E|by rewrite lookup_alter_ne].
Qed.
Lemma pv_prev h p n q : is_Some (h !! p) → pv (alter (with_prev n) p h) q = if decide (p = q) then Some n else pv h q.
Proof.
  intros [e E]. unfold pv. case_decide as Hpq; [subst q; by rewrite lookup_alter_eq, E|by rewrite lookup_alter_ne].
Qed.
Lemma nx_prev h p n q : nx (alter (with_prev n) p h) q = nx h q.
Proof.
  unfold nx. destruct (decide (p = q)) as [->|]; [|by rewrite lookup_alter_ne]. rewrite lookup_alter_eq. by destruct (h !! q).
Qed.
Lemma pv_next h p n q : pv (alter (with_next n) p h) q = pv h q.
Proof.
  unfold pv. destruct (decide (p = q)) as [->|]; [|by rewrite lookup_alter_ne]. rewrite lookup_alter_eq. by destruct (h !! q).
Qed.
Lemma vl_next h p n q : vl (alter (with_next n) p h) q = vl h q.
Proof.
  unfold vl. destruct (decide (p = q)) as [->|]; [|by rewrite lookup_alter_ne]. rewrite lookup_alter_eq. by destruct (h !! q).
Qed.
Lemma vl_prev h p n q : vl (alter (with_prev n) p h) q = vl h q.
Proof.
  unfold vl. destruct (decide (p = q)) as [->|]; [|by rewrite lookup_alter_ne]. rewrite lookup_alter_eq. by destruct (h !! q).
Qed.
Lemma nx_cell h p n : nx h p = Some n → is_Some (h !! p).
Proof. unfold nx. destruct (h !! p); [by eexists|done]. Qed.
Lemma pv_cell h p n : pv h p = Some n → is_Some (h !! p).
Proof. unfold pv. destruct (h !! p); [by eexists|done]. Qed.

Ltac fields :=
  repeat first [rewrite nx_prev | rewrite pv_next | rewrite vl_next | rewrite vl_prev
               | rewrite nx_next by (rewrite ?lookup_alter_is_Some; eauto)
               | rewrite pv_prev by (rewrite ?lookup_alter_is_Some; eauto)].

(** ** Segments and the ring *)

Definition linked (h : store) (x y : ptr) : Prop := nx h x = Some (Some y) ∧ pv h y = Some (Some x).
Fixpoint seg (h : store) (a : ptr) (l : list ptr) (b : ptr) : Prop :=
  match l with
  | [] => linked h a b
  | p :: l => linked h a p ∧ seg h p l b
  end.
Definition ring (h : store) (ps : list ptr) : Prop := seg h root ps root.

Lemma seg_app h l : ∀ a p r b, seg h a (l ++ p :: r) b ↔ seg h a l p ∧ seg h p r b.
Proof. induction l as [|q l IH]; intros a p r b; cbn; [done|]. rewrite IH. tauto. Qed.

Lemma seg_ext h h' l : ∀ a b,
  (∀ p, p ∈ a :: l → nx h' p = nx h p) → (∀ p, p ∈ l ++ [b] → pv h' p = pv h p) → seg h a l b → seg h' a l b.
Proof.
  induction l as [|q l IH]; intros a b Hn Hp; cbn; unfold linked.
  - rewrite Hn, Hp by set_solver. done.
  - rewrite Hn, Hp by set_solver. intros [Hl Hs]. split; [done|].
    apply (IH q b); [intros p Hin; apply Hn; set_solver|intros p Hin; apply Hp; set_solver|done].
Qed.

(** A segment can be made to end elsewhere. *)
Lemma seg_end h l : ∀ a b, seg h a l b → NoDup (a :: l) →
  ∃ x, x ∈ a :: l ∧ linked h x b ∧ ∀ h' b',
    (∀ p, p ∈ a :: l → p ≠ x → nx h' p = nx h p) → (∀ p, p ∈ l → pv h' p = pv h p) → linked h' x b' → seg h' a l b'.
Proof.
  induction l as [|q l IH]; intros a b Hs Hnd.
  - exists a. split_and!; [left|done|]. by intros h' b' _ _ Hl.
  - destruct Hs as [Hl Hs]. apply NoDup_cons in Hnd as [Ha Hnd]. destruct (IH q b Hs Hnd) as (x & Hx & Hlx & Hre).
    exists x. split_and!; [by right|done|]. intros h' b' Hn Hp Hl'. split.
    + destruct Hl as [H1 H2]. split; [rewrite Hn; [done|left|intros ->; done]|]. rewrite Hp; [done|left].
    + apply Hre; [intros p Hin; apply Hn; by right|intros p Hin; apply Hp; by right|done].
Qed.

Lemma unlink_cells h x e y :
  linked h x e → linked h e y → x ≠ e →
  unlink h (Some e) = Ok (alter (with_prev (Some x)) y (alter (with_next (Some y)) x h)).
Proof.
  intros [H1 H2] [H3 H4] Hxe. unfold unlink.
  rewrite (get_prev_Ok _ _ _ H2), (get_next_Ok _ _ _ H3). cbn [mbind res_bind].
  rewrite set_next_Ok by (by eapply nx_cell). cbn [mbind res_bind]. pose proof (nx_cell _ _ _ H1).
  rewrite (get_next_Ok _ _ (Some y)) by (fields; by rewrite decide_False).
  rewrite (get_prev_Ok _ _ (Some x)) by (fields; done). cbn [mbind res_bind].
  apply set_prev_Ok. rewrite lookup_alter_is_Some. by eapply pv_cell.
Qed.

Lemma unlink_ring h l e r :
  ring h (l ++ e :: r) → NoDup (root :: l ++ e :: r) →
  ∃ h', unlink h (Some e) = Ok h' ∧ ring h' (l ++ r) ∧ ∀ p, vl h' p = vl h p.
Proof.
  intros [Hs1 Hs2]%seg_app Hnd.
  assert (NoDup (root :: l) ∧ e ∉ root :: l ∧ (∀ p, p ∈ root :: l → p ∉ e :: r) ∧ NoDup (e :: r)) as (Hn1 & He & Hdis & Hn2).
  { rewrite app_comm_cons, NoDup_app in Hnd. destruct Hnd as (? & Hd & ?). split_and!; [done| |done|done]. intros Hin. by apply (Hd e Hin); left. }
  destruct (seg_end h l root e Hs1 Hn1) as (x & Hx & Hlx & Hre). apply NoDup_cons in Hn2 as [Her Hnr].
  assert (x ≠ e) as Hxe by (intros ->; done). pose proof (nx_cell _ _ _ (proj1 Hlx)) as Hxc.
  destruct r as [|y r].
  - eexists. split; [apply unlink_cells; [exact Hlx|exact Hs2|done]|]. pose proof (pv_cell _ _ _ (proj2 Hs2)) as Hyc.
    rewrite app_nil_r. split; [|intros p; by fields]. apply Hre.
    + intros p Hp Hpx. fields. by rewrite decide_False.
    + intros p Hp. fields. rewrite decide_False; [done|]. intros <-. apply NoDup_cons in Hn1 as [Hr _]. done.
    + split; fields; by rewrite decide_True.
  - destruct Hs2 as [Hey Hs2]. eexists. split; [apply unlink_cells; [exact Hlx|exact Hey|done]|].
    pose proof (pv_cell _ _ _ (proj2 Hey)) as Hyc. split; [|intros p; by fields]. apply seg_app. split.
    + apply Hre.
      * intros p Hp Hpx. fields. by rewrite decide_False.
      * intros p Hp. fields. rewrite decide_False; [done|]. intros <-. apply (Hdis y); [by right|]. right; left.
      * split; fields; by rewrite decide_True.
    + eapply seg_ext; [| |exact Hs2].
      * intros p Hp. fields. rewrite decide_False; [done|]. intros <-. apply (Hdis x Hx). set_solver.
      * intros p Hp. fields. rewrite decide_False; [done|]. intros <-. apply NoDup_cons in Hnr as [Hy _].
        apply elem_of_app in Hp as [?|Hq%list_elem_of_singleton]; [done|]. subst y. apply (Hdis root); [left|]. set_solver.
Qed.

Lemma push_ring h ps e :
  ring h ps → NoDup (root :: e :: ps) → is_Some (h !! e) →
  ∃ h', pushElem h (Some e) = Ok h' ∧ ring h' (e :: ps) ∧ ∀ p, vl h' p = vl h p.
Proof.
  intros Hr Hnd He. apply NoDup_cons in Hnd as [Hroot Hnd]. apply NoDup_cons in Hnd as [Heps Hps].
  assert (e ≠ root) as Her by (intros ->; apply Hroot; left).
  assert (∃ y, linked h root y ∧ (ps = [] ∧ y = root ∨ ∃ r, ps = y :: r ∧ seg h y r root)) as (y & Hy & Hcase).
  { destruct ps as [|y r]; [exists root; split; [exact Hr|by left]|]. exists y. split; [apply Hr|]. right. exists r. split; [done|apply Hr]. }
  pose proof (nx_cell _ _ _ (proj1 Hy)) as Hrc. pose proof (pv_cell _ _ _ (proj2 Hy)) as Hyc.
  assert (pushElem h (Some e) = Ok (alter (with_prev (Some e)) y (alter (with_next (Some e)) root
            (alter (with_next (Some y)) e (alter (with_prev (Some root)) e h))))) as E.
  { unfold pushElem. rewrite set_prev_Ok by done. cbn [mbind res_bind].
    rewrite (get_next_Ok _ _ (Some y)) by (fields; apply Hy). cbn [mbind res_bind].
    rewrite set_next_Ok by (rewrite ?lookup_alter_is_Some; done). cbn [mbind res_bind].
    rewrite set_next_Ok by (rewrite ?lookup_alter_is_Some; done). cbn [mbind res_bind].
    rewrite (get_next_Ok _ _ (Some y)) by (fields; rewrite decide_False by done; by rewrite decide_True). cbn [mbind res_bind].
    rewrite set_prev_Ok by (rewrite ?lookup_alter_is_Some; done). done. }
  eexists. split; [exact E|]. split; [|intros p; by fields].
  assert (y ≠ e) as Hye. { destruct Hcase as [[_ ->]|(r & -> & _)]; [done|]. intros ->. apply Heps. left. }
  split.
  - split; fields; [by rewrite decide_True|]. rewrite decide_False by done. by rewrite decide_True.
  - destruct Hcase as [[-> ->]|(r & -> & Hs)].
    + split; fields; [|by rewrite decide_True]. rewrite decide_False by done. by rewrite decide_True.
    + split; [split; fields; [|by rewrite decide_True]; rewrite decide_False by done; by rewrite decide_True|].
      eapply seg_ext; [| |exact Hs].
      * intros p Hp. fields. rewrite !decide_False; [done|..]; intros <-; set_solver.
      * intros p Hp. fields. apply NoDup_cons in Hps as [Hyr _].
        rewrite !decide_False; [done|..]; intros <-; apply elem_of_app in Hp as [?|Hq%list_elem_of_singleton]; subst; set_solver.
Qed.

Lemma NoDup_out {A} (l : list A) x r : NoDup (l ++ x :: r) → NoDup (x :: l ++ r).
Proof. by rewrite <- Permutation_middle. Qed.

Lemma vl_cell (h h' : store) p : vl h' p = vl h p → is_Some (h' !! p) ↔ is_Some (h !! p).
Proof. unfold vl. intros E. destruct (h !! p), (h' !! p); try done; split; by intros []. Qed.

Lemma ring_cell h l e r : ring h (l ++ e :: r) → is_Some (h !! e).
Proof. intros [_ Hs]%seg_app. destruct r; [|destruct Hs as [Hs _]]; by eapply nx_cell, Hs. Qed.

Lemma move_ring h l e r :
  ring h (l ++ e :: r) → NoDup (root :: l ++ e :: r) →
  ∃ h', moveToFront h (Some e) = Ok h' ∧ ring h' (e :: l ++ r) ∧ ∀ p, vl h' p = vl h p.
Proof.
  intros Hr Hnd. destruct (unlink_ring h l e r Hr Hnd) as (h1 & E1 & Hr1 & Hv1).
  destruct (push_ring h1 (l ++ r) e Hr1) as (h2 & E2 & Hr2 & Hv2).
  - by rewrite Permutation_middle.
  - apply (vl_cell h); [done|]. by eapply ring_cell.
  - exists h2. unfold moveToFront. rewrite E1. split_and!; [done|done|]. intros p. by rewrite Hv2.
Qed.

Lemma remove_ring h l e r :
  ring h (l ++ e :: r) → NoDup (root :: l ++ e :: r) →
  ∃ h', list_remove h (Some e) = Ok h' ∧ ring h' (l ++ r) ∧ ∀ p, vl h' p = vl h p.
Proof.
  intros Hr Hnd. destruct (unlink_ring h l e r Hr Hnd) as (h1 & E1 & Hr1 & Hv1).
  assert (is_Some (h1 !! e)) as He by (apply (vl_cell h); [done|by eapply ring_cell]).
  unfold list_remove. rewrite E1. cbn [mbind res_bind]. rewrite set_next_Ok by done. cbn [mbind res_bind].
  rewrite set_prev_Ok by (by rewrite lookup_alter_is_Some). eexists. split; [done|]. split; [|intros p; by fields].
  assert (e ∉ root :: l ++ r) as Hne by (rewrite app_comm_cons in Hnd; apply NoDup_out, NoDup_cons in Hnd; apply Hnd).
  eapply seg_ext; [| |exact Hr1].
  - intros p Hp. fields. rewrite decide_False; [done|]. by intros <-.
  - intros p Hp. fields. rewrite decide_False; [done|]. intros <-. apply Hne. set_solver.
Qed.

Lemma last_ring h ps : ring h ps → root ∉ ps → list_last h = Ok (last ps).
Proof.
  intros Hr Hn. unfold list_last. destruct ps as [|p ps _] using rev_ind.
  - rewrite (get_prev_Ok _ _ (Some root)) by apply Hr. cbn. by rewrite bool_decide_true.
  - apply seg_app in Hr as [_ Hr]. rewrite (get_prev_Ok _ _ (Some p)) by apply Hr. cbn.
    rewrite last_snoc, bool_decide_false; [done|]. intros [= ->]. apply Hn. set_solver.
Qed.

Lemma appendTo_ring h l : ∀ b ks fuel acc,
  seg h root l b → root ∉ l → Forall2 (λ p k, vl h p = Some k) l ks → (length l <= fuel)%nat →
  ∃ q, pv h b = Some q ∧ appendTo fuel h q acc = Done (acc ++ reverse ks).
Proof.
  induction l as [|p l IH] using rev_ind; intros b ks fuel acc Hs Hn Hk Hf.
  - inversion Hk; subst. exists (Some root). split; [apply Hs|]. rewrite app_nil_r. by destruct fuel.
  - apply Forall2_app_inv_l in Hk as (ks1 & ks2 & Hk1 & Hk2 & ->). inversion Hk2 as [|? k ? ks3 Hp Hnil]; subst.
    inversion Hnil; subst. apply seg_app in Hs as [Hs Hl]. exists (Some p). split; [apply Hl|].
    rewrite length_app in Hf. cbn in Hf. destruct fuel as [|fuel]; [lia|]. cbn [appendTo].
    rewrite bool_decide_false by (intros [= ->]; apply Hn; set_solver).
    destruct (IH p ks1 fuel (acc ++ [k]) Hs ltac:(set_solver) Hk1 ltac:(lia)) as (q & Hq & Ha).
    unfold pv, vl in Hq, Hp. cbn [load]. destruct (h !! p) as [e|]; [|done]. injection Hq as ->. injection Hp as ->.
    rewrite Ha, reverse_app, <- app_assoc. done.
Qed.

(** ** The entries of a cache *)

(** Address, key and value of the entries, from the front of the ring. *)
Abbreviation entry_list := (list (nat * (K * V))).
Definition entries (M : entry_list) : list (K * (option ptr * V)) := (λ m, (m.2.1, (Some m.1, m.2.2))) <$> M.

Record rep (c : BasicLRU) (M : entry_list) : Prop := {
  rep_ring : ring (cells c) M.*1;
  rep_ptrs : NoDup (root :: M.*1);
  rep_vals : Forall (λ m, vl (cells c) m.1 = Some m.2.1) M;
  rep_items : items c = list_to_map (entries M);
  rep_keys : NoDup M.*2.*1;
  rep_fresh : ∀ p, is_Some (cells c !! p) → (p < fresh c)%nat;
  rep_cap : Z.of_nat (length M) <= cap c;
  rep_pos : 0 < cap c;
}.

Lemma entries_keys M : (entries M).*1 = M.*2.*1.
Proof. unfold entries. by rewrite <- !list_fmap_compose. Qed.

Lemma rep_size c M : rep c M → size (items c) = length M.
Proof.
  intros Hr. rewrite (rep_items _ _ Hr), map_size_list_to_map; [by unfold entries; rewrite length_fmap|].
  rewrite entries_keys. apply Hr.
Qed.

Lemma rep_lookup c M k : rep c M →
  match items c !! k with
  | Some (e, x) => ∃ p A B, e = Some p ∧ M = A ++ (p, (k, x)) :: B
  | None => k ∉ M.*2.*1
  end.
Proof.
  intros Hr. rewrite (rep_items _ _ Hr). destruct (list_to_map (entries M) !! k) as [[e x]|] eqn:E.
  - apply elem_of_list_to_map_2, list_elem_of_fmap in E as ([p [k' x']] & [= -> -> ->] & Hin).
    apply list_elem_of_split in Hin as (A & B & ->). by exists p, A, B.
  - apply not_elem_of_list_to_map_2 in E. by rewrite entries_keys in E.
Qed.

Lemma entries_split A p k x B :
  NoDup (A ++ (p, (k, x)) :: B).*2.*1 →
  list_to_map (M := gmap K (option ptr * V)) (entries (A ++ (p, (k, x)) :: B))
  = <[k := (Some p, x)]> (list_to_map (entries (A ++ B))) ∧ list_to_map (M := gmap K (option ptr * V)) (entries (A ++ B)) !! k = None.
Proof.
  intros Hnd. split.
  - rewrite <- list_to_map_cons. apply list_to_map_proper; [by rewrite entries_keys|].
    unfold entries. rewrite !fmap_app, fmap_cons. by rewrite <- Permutation_middle.
  - apply not_elem_of_list_to_map_1. rewrite entries_keys. rewrite !fmap_app, !fmap_cons in Hnd. cbn in Hnd.
    rewrite !fmap_app. apply NoDup_out, NoDup_cons in Hnd. apply Hnd.
Qed.

(** An entry is moved to the front, with a new value. *)
Lemma rep_move c A p k x x' B h :
  rep c (A ++ (p, (k, x)) :: B) → ring h (p :: A.*1 ++ B.*1) → (∀ q, vl h q = vl (cells c) q) →
  rep (mkLRU h (fresh c) (<[k := (Some p, x')]> (items c)) (cap c)) ((p, (k, x')) :: A ++ B).
Proof.
  intros [Hr Hp Hv Hi Hk Hf Hc Hpos] Hh Hvl. split; cbn [cells fresh items cap fmap list_fmap fst snd].
  - by rewrite fmap_app.
  - rewrite fmap_app, fmap_cons in Hp. rewrite fmap_app, Permutation_middle. done.
  - rewrite <- Permutation_middle in Hv. apply Forall_cons in Hv as [H1 H2]. constructor; cbn; [by rewrite Hvl|].
    eapply Forall_impl; [exact H2|]. intros m Hm. by rewrite Hvl.
  - rewrite Hi. destruct (entries_split A p k x B Hk) as [-> _]. by rewrite insert_insert_eq.
  - rewrite !fmap_app, !fmap_cons in Hk. rewrite !fmap_app, Permutation_middle. done.
  - intros q Hq. apply Hf. by apply (vl_cell h); [symmetry|].
  - rewrite length_app in Hc. cbn [length] in *. rewrite length_app. lia.
  - done.
Qed.

(** An entry is dropped. *)
Lemma rep_drop c A p k x B h :
  rep c (A ++ (p, (k, x)) :: B) → ring h (A.*1 ++ B.*1) → (∀ q, vl h q = vl (cells c) q) →
  rep (mkLRU h (fresh c) (delete k (items c)) (cap c)) (A ++ B).
Proof.
  intros [Hr Hp Hv Hi Hk Hf Hc Hpos] Hh Hvl. split; cbn [cells fresh items cap].
  - by rewrite fmap_app.
  - rewrite fmap_app, fmap_cons in Hp. rewrite app_comm_cons in Hp. apply NoDup_out, NoDup_cons in Hp as [_ Hp]. by rewrite fmap_app.
  - rewrite <- Permutation_middle in Hv. apply Forall_cons in Hv as [_ Hv]. eapply Forall_impl; [exact Hv|]. intros m Hm. by rewrite Hvl.
  - rewrite Hi. destruct (entries_split A p k x B Hk) as [-> Hn]. by rewrite delete_insert_id.
  - rewrite !fmap_app, !fmap_cons in Hk. apply NoDup_out, NoDup_cons in Hk as [_ Hk]. by rewrite !fmap_app.
  - intros q Hq. apply Hf. by apply (vl_cell h); [symmetry|].
  - rewrite length_app in Hc |- *. cbn in Hc. lia.
  - done.
Qed.

Definition with_v (k : K) (e : listElem) : listElem := mkElem (next e) (prev e) k.

Lemma set_v_Ok h p k : is_Some (h !! p) → set_v h (Some p) k = Ok (alter (with_v k) p h).
Proof. intros [e E]. unfold set_v. cbn. rewrite E. cbn. f_equal. by rewrite (alter_alt_Some _ _ _ _ E). Qed.

Lemma with_v_fields h p k q :
  is_Some (h !! p) →
  nx (alter (with_v k) p h) q = nx h q ∧ pv (alter (with_v k) p h) q = pv h q ∧
  vl (alter (with_v k) p h) q = if decide (p = q) then Some k else vl h q.
Proof.
  intros [e E]. unfold nx, pv, vl. case_decide as Hpq; [subst q; by rewrite lookup_alter_eq, E|by rewrite lookup_alter_ne].
Qed.

(** A cell outside the ring is filled and pushed in front. *)
Lemma rep_push c M p k x :
  rep c M → Z.of_nat (length M) < cap c → p ∉ root :: M.*1 → is_Some (cells c !! p) → k ∉ M.*2.*1 →
  ∃ h, (h ← set_v (cells c) (Some p) k; pushElem h (Some p)) = Ok h ∧
    rep (mkLRU h (fresh c) (<[k := (Some p, x)]> (items c)) (cap c)) ((p, (k, x)) :: M).
Proof.
  intros [Hr Hp Hv Hi Hk Hf Hc Hpos] Hlt Hnp Hpc Hnk. rewrite set_v_Ok by done. cbn [mbind res_bind].
  set (h1 := alter (with_v k) p (cells c)).
  destruct (push_ring h1 M.*1 p) as (h & E & Hh & Hvl).
  - eapply seg_ext; [| |exact Hr]; intros q _; by apply with_v_fields.
  - apply NoDup_cons in Hp as [H1 H2]. apply NoDup_cons. split; [set_solver|]. apply NoDup_cons. set_solver.
  - unfold h1. by rewrite lookup_alter_is_Some.
  - exists h. split; [exact E|].
    assert (∀ q, vl h q = if decide (p = q) then Some k else vl (cells c) q) as Hq.
    { intros q. rewrite Hvl. by apply with_v_fields. }
    split; cbn [cells fresh items cap fmap list_fmap fst snd]; try done.
    + apply NoDup_cons in Hp as [H1 H2]. apply NoDup_cons. split; [set_solver|]. apply NoDup_cons. set_solver.
    + constructor; cbn; [rewrite Hq; by rewrite decide_True|]. apply Forall_forall. intros m Hm.
      pose proof (proj1 (Forall_forall _ _) Hv m Hm) as E1. cbn in E1 |- *.
      rewrite Hq, decide_False; [done|]. intros ->. apply Hnp. right. by apply list_elem_of_fmap_2.
    + by rewrite Hi.
    + by apply NoDup_cons.
    + intros q Hq'. apply Hf. assert (is_Some (h1 !! q)) as Hs by (apply (vl_cell h); [symmetry; apply Hvl|done]).
      unfold h1 in Hs. by rewrite lookup_alter_is_Some in Hs.
    + cbn [length]. lia.
Qed.

Lemma rep_alloc c M :
  rep c M → rep (mkLRU (<[fresh c := mkElem None None zeroK]> (cells c)) (S (fresh c)) (items c) (cap c)) M.
Proof.
  intros [Hr Hp Hv Hi Hk Hf Hc Hpos]. assert (cells c !! fresh c = None) as Hn.
  { destruct (cells c !! fresh c) eqn:E; [|done]. assert (fresh c < fresh c)%nat; [|lia]. apply Hf. by eexists. }
  assert (∀ q, is_Some (cells c !! q) → <[fresh c := mkElem None None zeroK]> (cells c) !! q = cells c !! q) as Hsame.
  { intros q Hq. apply lookup_insert_ne. intros <-. by rewrite Hn in Hq; destruct Hq. }
  assert (∀ q, q ∈ root :: M.*1 → is_Some (cells c !! q)) as Hcell.
  { intros q [->|Hq]%elem_of_cons; [|apply list_elem_of_split in Hq as (l & r & E); rewrite E in Hr; by eapply ring_cell].
    destruct (M.*1); [|destruct Hr as [Hr _]]; by eapply nx_cell, Hr. }
  split; cbn [cells fresh items cap]; try done.
  - eapply seg_ext; [| |exact Hr]; intros q Hq; unfold nx, pv; rewrite Hsame; try done; apply Hcell; set_solver.
  - apply Forall_forall. intros m Hm.
    pose proof (proj1 (Forall_forall _ _) Hv m Hm) as E. cbn in E |- *. unfold vl. rewrite Hsame; [exact E|].
    apply Hcell. right. by apply list_elem_of_fmap_2.
  - intros q [e Hq]. destruct (decide (q = fresh c)) as [->|Hne]; [lia|]. rewrite lookup_insert_ne in Hq by done.
    assert (q < fresh c)%nat; [apply Hf; by eexists|lia].
Qed.

(** ** The specification *)

Inductive lru_op :=
| OAdd (key : K) (value : V) | OContains (key : K) | OGet (key : K) | OGetOldest | OLen | OPeek (key : K)
| OPurge | ORemove (key : K) | ORemoveOldest | OKeys.
Inductive lru_answer :=
| ABool (b : bool) | AValue (x : option V) | AEntry (e : option (K * V)) | ALen (n : Z) | AKeys (l : list K) | ADone.

Definition find_key (k : K) (L : list (K * V)) : option V := (list_to_map L : gmap K V) !! k.
Definition without (k : K) (L : list (K * V)) : list (K * V) := filter (λ e, e.1 ≠ k) L.

(** A list of entries, the one used last in front, of at most [bound] entries. *)
Definition spec_step (bound : Z) (L : list (K * V)) (op : lru_op) : lru_answer * list (K * V) :=
  match op with
  | OAdd k x =>
      match find_key k L with
      | Some _ => (ABool false, (k, x) :: without k L)
      | None => if bound <=? Z.of_nat (length L) then (ABool true, (k, x) :: removelast L) else (ABool false, (k, x) :: L)
      end
  | OContains k => (ABool (bool_decide (is_Some (find_key k L))), L)
  | OGet k =>
      match find_key k L with Some x => (AValue (Some x), (k, x) :: without k L) | None => (AValue None, L) end
  | OGetOldest => (AEntry (last L), L)
  | OLen => (ALen (Z.of_nat (length L)), L)
  | OPeek k => (AValue (find_key k L), L)
  | OPurge => (ADone, [])
  | ORemove k => (ABool (bool_decide (is_Some (find_key k L))), without k L)
  | ORemoveOldest => (AEntry (last L), removelast L)
  | OKeys => (AKeys (reverse L.*1), L)
  end.

Definition lru_step (c : BasicLRU) (op : lru_op) : outcome (lru_answer * BasicLRU) :=
  match op with
  | OAdd k x => of_res ('(b, c) ← lru_Add c k x; Ok (ABool b, c))
  | OContains k => Done (ABool (lru_Contains c k), c)
  | OGet k => of_res ('(x, c) ← lru_Get c k; Ok (AValue x, c))
  | OGetOldest => of_res (e ← GetOldest c; Ok (AEntry e, c))
  | OLen => Done (ALen (lru_Len c), c)
  | OPeek k => Done (AValue (lru_Peek c k), c)
  | OPurge => of_res (c ← Purge c; Ok (ADone, c))
  | ORemove k => of_res ('(b, c) ← lru_Remove c k; Ok (ABool b, c))
  | ORemoveOldest => of_res ('(e, c) ← RemoveOldest c; Ok (AEntry e, c))
  | OKeys => match lru_Keys (size (items c)) c with
             | Done l => Done (AKeys l, c) | Crash msg => Crash msg | OutOfFuel => OutOfFuel
             end
  end.

Fixpoint lru_run (c : BasicLRU) (ops : list lru_op) : outcome (list lru_answer * BasicLRU) :=
  match ops with
  | [] => Done ([], c)
  | op :: ops =>
      match lru_step c op with
      | Done (a, c) =>
          match lru_run c ops with Done (l, c) => Done (a :: l, c) | Crash msg => Crash msg | OutOfFuel => OutOfFuel end
      | Crash msg => Crash msg
      | OutOfFuel => OutOfFuel
      end
  end.
Fixpoint spec_run (bound : Z) (L : list (K * V)) (ops : list lru_op) : list lru_answer * list (K * V) :=
  match ops with
  | [] => ([], L)
  | op :: ops => let '(a, L) := spec_step bound L op in let '(l, L) := spec_run bound L ops in (a :: l, L)
  end.

(** ** Each operation *)

Lemma find_key_rep c M k : rep c M → find_key k M.*2 = snd <$> items c !! k.
Proof.
  intros Hr. unfold find_key. pose proof (rep_lookup c M k Hr) as Hl. destruct (items c !! k) as [[e x]|].
  - destruct Hl as (p & A & B & _ & ->). cbn. apply elem_of_list_to_map_1; [apply Hr|]. rewrite fmap_app, fmap_cons. set_solver.
  - cbn. by apply not_elem_of_list_to_map_1.
Qed.

Lemma without_split (A : entry_list) p k x (B : entry_list) :
  NoDup (A ++ (p, (k, x)) :: B).*2.*1 → without k (A ++ (p, (k, x)) :: B).*2 = (A ++ B).*2.
Proof.
  intros Hnd. rewrite !fmap_app, !fmap_cons in Hnd. cbn in Hnd. apply NoDup_out, NoDup_cons in Hnd as [Hk _].
  assert (∀ C : entry_list, k ∉ C.*2.*1 → without k C.*2 = C.*2) as Hid.
  { intros C. induction C as [|[q [k' y]] C IH]; [done|]. rewrite !fmap_cons. cbn [fst snd]. intros Hn.
    unfold without. rewrite filter_cons. cbn [fst]. rewrite decide_True by set_solver. f_equal. apply IH. set_solver. }
  unfold without in *. rewrite !fmap_app, fmap_cons, filter_app, filter_cons. cbn. rewrite decide_False by (intros []; done).
  by rewrite !Hid by set_solver.
Qed.

(** One step of the cache is one step of the list. *)
Definition steps (c : BasicLRU) (M : entry_list) (op : lru_op) : Prop :=
  ∃ a c' M', lru_step c op = Done (a, c') ∧ rep c' M' ∧ cap c' = cap c ∧ spec_step (cap c) M.*2 op = (a, M'.*2).

Lemma rep_root_ptrs c M : rep c M → root ∉ M.*1.
Proof. intros Hr. pose proof (rep_ptrs _ _ Hr) as Hp. by apply NoDup_cons in Hp as [? _]. Qed.

Lemma move_rep c A p k x x' B :
  rep c (A ++ (p, (k, x)) :: B) →
  ∃ h, moveToFront (cells c) (Some p) = Ok h ∧
    rep (mkLRU h (fresh c) (<[k := (Some p, x')]> (items c)) (cap c)) ((p, (k, x')) :: A ++ B).
Proof.
  intros Hr. destruct (move_ring (cells c) A.*1 p B.*1) as (h & E & Hh & Hv).
  - pose proof (rep_ring _ _ Hr) as Hg. by rewrite fmap_app in Hg.
  - pose proof (rep_ptrs _ _ Hr) as Hg. by rewrite fmap_app in Hg.
  - exists h. split; [done|]. by eapply rep_move.
Qed.

Lemma remove_rep c A p k x B :
  rep c (A ++ (p, (k, x)) :: B) →
  ∃ h, list_remove (cells c) (Some p) = Ok h ∧ (∀ q, vl h q = vl (cells c) q) ∧
    rep (mkLRU h (fresh c) (delete k (items c)) (cap c)) (A ++ B).
Proof.
  intros Hr. destruct (remove_ring (cells c) A.*1 p B.*1) as (h & E & Hh & Hv).
  - pose proof (rep_ring _ _ Hr) as Hg. by rewrite fmap_app in Hg.
  - pose proof (rep_ptrs _ _ Hr) as Hg. by rewrite fmap_app in Hg.
  - exists h. split_and!; [done|done|]. by eapply rep_drop.
Qed.

(** The last entry. *)
Lemma last_rep c M : rep c M →
  match last M with
  | None => M = [] ∧ list_last (cells c) = Ok None
  | Some (p, (k, x)) => ∃ A, M = A ++ [(p, (k, x))] ∧ list_last (cells c) = Ok (Some p) ∧
      vl (cells c) p = Some k ∧ items c !! k = Some (Some p, x)
  end.
Proof.
  intros Hr. pose proof (last_ring _ _ (rep_ring _ _ Hr) (rep_root_ptrs _ _ Hr)) as El.
  destruct M as [|[p [k x]] A _] using rev_ind; [done|]. rewrite last_snoc. exists A.
  rewrite fmap_last, last_snoc in El. split_and!; [done|done| |].
  - pose proof (rep_vals _ _ Hr) as Hv. apply Forall_app in Hv as [_ Hv]. by apply Forall_cons in Hv as [? _].
  - rewrite (rep_items _ _ Hr). by destruct (entries_split A p k x [] (rep_keys _ _ Hr)) as [-> _]; rewrite lookup_insert_eq.
Qed.

Lemma removelast_fmap_snoc {A B} (f : A → B) (l : list A) x : removelast (f <$> l ++ [x]) = f <$> l.
Proof. rewrite fmap_app. apply removelast_last. Qed.

Lemma Add_steps c M k x : rep c M → steps c M (OAdd k x).
Proof.
  intros Hr. unfold steps. cbn [lru_step spec_step]. rewrite (find_key_rep c M k Hr). unfold lru_Add.
  pose proof (rep_lookup c M k Hr) as Hl. destruct (items c !! k) as [[e y]|] eqn:Ek.
  - destruct Hl as (p & A & B & -> & ->). destruct (move_rep c A p k y x B Hr) as (h & -> & Hr').
    eexists _, _, _. split; [done|]. split; [exact Hr'|]. split; [done|]. cbn. rewrite without_split by apply Hr. done.
  - cbn [fmap option_fmap option_map]. unfold lru_Len. rewrite (rep_size c M Hr), length_fmap.
    destruct (Z.leb_spec (cap c) (Z.of_nat (length M))) as [Hfull|Hroom].
    + pose proof (last_rep c M Hr) as Hlast. destruct (last M) as [[p [k0 x0]]|] eqn:El.
      2: { destruct Hlast as [-> _]. pose proof (rep_pos _ _ Hr). cbn in Hfull. lia. }
      destruct Hlast as (A & -> & E & Hv & _). destruct (remove_rep c A p k0 x0 [] Hr) as (h & Eh & Hvl & Hr1).
      unfold removeLast. rewrite E. cbn [mbind res_bind]. rewrite Eh. cbn [mbind res_bind].
      rewrite (get_v_Ok h p k0) by (by rewrite Hvl). cbn [mbind res_bind]. rewrite app_nil_r in Hr1.
      rewrite length_app in Hfull. cbn [length] in Hfull. pose proof (rep_cap _ _ Hr) as Hc. rewrite length_app in Hc. cbn [length] in Hc.
      destruct (rep_push _ A p k x Hr1) as (h' & Ep & Hr2); cbn [cells cap fresh items] in *.
      * lia.
      * pose proof (rep_ptrs _ _ Hr) as Hp. rewrite fmap_app, app_comm_cons in Hp. by apply NoDup_out, NoDup_cons in Hp as [Hp _]; rewrite app_nil_r in Hp.
      * apply (vl_cell (cells c)); [done|]. unfold vl in Hv. destruct (cells c !! p); [by eexists|done].
      * rewrite !fmap_app in Hl. set_solver.
      * destruct (set_v h (Some p) k) as [h2|]; [|done]. cbn [mbind res_bind] in Ep |- *. rewrite Ep. cbn [mbind res_bind of_res].
        eexists _, _, _. split; [done|]. split; [exact Hr2|]. split; [done|]. by rewrite removelast_fmap_snoc.
    + destruct (rep_push _ M (fresh c) k x (rep_alloc c M Hr)) as (h' & Ep & Hr2); cbn [cells cap fresh items] in *.
      * lia.
      * intros Hin. assert (fresh c < fresh c)%nat; [|lia]. apply (rep_fresh _ _ Hr).
        pose proof (rep_ring _ _ Hr) as Hg. apply elem_of_cons in Hin as [->|Hin].
        -- destruct (M.*1); [|destruct Hg as [Hg _]]; by eapply nx_cell, Hg.
        -- apply list_elem_of_split in Hin as (l & r & E). rewrite E in Hg. by eapply ring_cell.
      * rewrite lookup_insert_eq. by eexists.
      * done.
      * cbn [mbind res_bind]. destruct (set_v _ _ k) as [h2|]; [|done]. cbn [mbind res_bind] in Ep |- *. rewrite Ep. cbn [mbind res_bind of_res].
        eexists _, _, _. split; [done|]. split; [exact Hr2|]. split; done.
Qed.

Lemma Get_steps c M k : rep c M → steps c M (OGet k).
Proof.
  intros Hr. unfold steps. cbn [lru_step spec_step]. rewrite (find_key_rep c M k Hr). unfold lru_Get.
  pose proof (rep_lookup c M k Hr) as Hl. destruct (items c !! k) as [[e y]|] eqn:Ek; cbn [fmap option_fmap option_map snd].
  - destruct Hl as (p & A & B & -> & ->). destruct (move_rep c A p k y y B Hr) as (h & -> & Hr').
    rewrite insert_id in Hr' by done. eexists _, _, _. split; [done|]. split; [exact Hr'|]. split; [done|].
    cbn. by rewrite without_split by apply Hr.
  - by eexists _, _, _.
Qed.

Lemma Remove_steps c M k : rep c M → steps c M (ORemove k).
Proof.
  intros Hr. unfold steps. cbn [lru_step spec_step]. rewrite (find_key_rep c M k Hr). unfold lru_Remove.
  pose proof (rep_lookup c M k Hr) as Hl. destruct (items c !! k) as [[e y]|] eqn:Ek; cbn [fmap option_fmap option_map snd].
  - destruct Hl as (p & A & B & -> & ->). destruct (remove_rep c A p k y B Hr) as (h & -> & _ & Hr').
    eexists _, _, _. split; [done|]. split; [exact Hr'|]. split; [done|]. by rewrite without_split by apply Hr.
  - eexists _, _, _. split; [done|]. split; [exact Hr|]. split; [done|]. cbn. f_equal. unfold without.
    clear -Hl. induction M as [|[q [k' y]] M IH]; [done|]. rewrite !fmap_cons in *. cbn [fst snd] in *. rewrite filter_cons. cbn [fst].
    rewrite decide_True by set_solver. f_equal. apply IH. set_solver.
Qed.

Lemma oldest_rep c M : rep c M → GetOldest c = Ok (last M.*2).
Proof.
  intros Hr. unfold GetOldest, item_value. pose proof (last_rep c M Hr) as Hl. rewrite fmap_last.
  destruct (last M) as [[p [k x]]|]; [destruct Hl as (A & -> & -> & Hv & Hi)|by destruct Hl as [-> ->]].
  cbn [mbind res_bind]. rewrite (get_v_Ok _ _ _ Hv). cbn [mbind res_bind]. by rewrite Hi.
Qed.

Lemma RemoveOldest_steps c M : rep c M → steps c M ORemoveOldest.
Proof.
  intros Hr. unfold steps. cbn [lru_step spec_step]. unfold RemoveOldest, item_value. pose proof (last_rep c M Hr) as Hl.
  rewrite fmap_last. destruct (last M) as [[p [k x]]|].
  - destruct Hl as (A & -> & -> & Hv & Hi). destruct (remove_rep c A p k x [] Hr) as (h & Eh & _ & Hr'). rewrite app_nil_r in Hr'.
    cbn [mbind res_bind]. rewrite (get_v_Ok _ _ _ Hv). cbn [mbind res_bind]. rewrite Hi, Eh. cbn [mbind res_bind of_res].
    eexists _, _, _. split; [done|]. split; [exact Hr'|]. split; [done|]. by rewrite removelast_fmap_snoc.
  - destruct Hl as [-> ->]. by eexists _, _, _.
Qed.

Lemma Keys_steps c M : rep c M → steps c M OKeys.
Proof.
  intros Hr. unfold steps. cbn [lru_step spec_step]. unfold lru_Keys. rewrite (rep_size c M Hr).
  destruct (appendTo_ring (cells c) M.*1 root M.*2.*1 (length M) []) as (q & Hq & Ha).
  - apply Hr.
  - by apply (rep_root_ptrs c).
  - pose proof (rep_vals _ _ Hr) as Hv. clear -Hv. induction Hv; rewrite ?fmap_cons; by constructor.
  - by rewrite length_fmap.
  - rewrite (get_prev_Ok _ _ _ Hq), Ha. by eexists _, _, _.
Qed.

Lemma init_ring (h : store) :
  is_Some (h !! root) → ∃ h', list_init h = Ok h' ∧ ring h' [] ∧ ∀ p, vl h' p = vl h p.
Proof.
  intros Hc. unfold list_init. rewrite set_next_Ok by done. cbn [mbind res_bind].
  rewrite set_prev_Ok by (by rewrite lookup_alter_is_Some). eexists. split; [done|]. split; [|intros p; by fields].
  split; fields; by rewrite decide_True.
Qed.

Lemma Purge_steps c M : rep c M → steps c M OPurge.
Proof.
  intros Hr. unfold steps. cbn [lru_step spec_step]. unfold Purge. destruct (init_ring (cells c)) as (h & -> & Hg & Hv).
  { pose proof (rep_ring _ _ Hr) as Hg. destruct (M.*1); [|destruct Hg as [Hg _]]; by eapply nx_cell, Hg. }
  eexists _, _, []. split; [done|]. split; [|done]. pose proof (rep_pos _ _ Hr). split; cbn; try done.
  - apply NoDup_singleton.
  - apply NoDup_nil_2.
  - intros p Hp. apply (rep_fresh _ _ Hr). by apply (vl_cell h); [symmetry|].
  - lia.
Qed.

Lemma lru_steps c M op : rep c M → steps c M op.
Proof.
  intros Hr. destruct op as [k x|k|k| | |k| |k| |]; [by apply Add_steps| |by apply Get_steps| | | |by apply Purge_steps|
    by apply Remove_steps|by apply RemoveOldest_steps|by apply Keys_steps].
  - eexists _, _, _. split; [done|]. split; [done|]. split; [done|]. cbn. rewrite (find_key_rep c M k Hr). unfold lru_Contains.
    do 2 f_equal. apply bool_decide_ext. by rewrite fmap_is_Some.
  - eexists _, _, _. split; [cbn [lru_step]; by rewrite (oldest_rep c M Hr)|]. done.
  - eexists _, _, _. split; [done|]. split; [done|]. split; [done|]. cbn. unfold lru_Len. by rewrite (rep_size c M Hr), length_fmap.
  - eexists _, _, _. split; [done|]. split; [done|]. split; [done|]. cbn. by rewrite (find_key_rep c M k Hr).
Qed.

Lemma New_rep capacity : ∃ c, NewBasicLRU capacity = Ok c ∧ rep c [] ∧ cap c = Z.max 1 capacity.
Proof.
  unfold NewBasicLRU, newList. destruct (init_ring {[ root := mkElem None None zeroK ]}) as (h & -> & Hg & Hv).
  { rewrite lookup_singleton_eq. by eexists. }
  eexists. split; [done|]. cbn. split; [|destruct (Z.leb_spec capacity 0); lia].
  split; cbn; try done; try (destruct (Z.leb_spec capacity 0); lia).
  - apply NoDup_singleton.
  - apply NoDup_nil_2.
  - intros p Hp. apply (vl_cell _ _ _ (Hv p)) in Hp. destruct (decide (p = root)) as [->|Hne]; [unfold root; lia|].
    rewrite lookup_singleton_ne in Hp by done. by destruct Hp.
Qed.

(** C23: the cache is a list of entries, the one used last in front.  Under every sequence of
    operations a new cache gives the answers of that list, of which [Add] drops the last
    entry when the capacity (at least 1) is reached; it never holds more than the capacity
    and no pointer it follows is nil. *)
Theorem lru_refines_list (capacity : Z) (ops : list lru_op) :
  ∃ c c', NewBasicLRU capacity = Ok c ∧
    lru_run c ops = Done (fst (spec_run (Z.max 1 capacity) [] ops), c') ∧ lru_Len c' <= Z.max 1 capacity.
Proof.
  destruct (New_rep capacity) as (c & E & Hr & Hc). exists c. rewrite <- Hc.
  enough (∀ c M, rep c M → ∃ c', lru_run c ops = Done (fst (spec_run (cap c) M.*2 ops), c') ∧ lru_Len c' <= cap c) as Hgo.
  { destruct (Hgo c [] Hr) as (c' & ? & ?). by exists c'. }
  clear. induction ops as [|op ops IH]; intros c M Hr.
  { exists c. split; [done|]. unfold lru_Len. rewrite (rep_size c M Hr). apply Hr. }
  destruct (lru_steps c M op Hr) as (a & c1 & M1 & E1 & Hr1 & Hc1 & Es). destruct (IH c1 M1 Hr1) as (c' & E2 & Hl).
  exists c'. cbn [lru_run spec_run]. rewrite E1, E2, Es, <- Hc1. split; [by destruct (spec_run (cap c1) M1.*2 ops)|done].
Qed.
End lru.

(** ** The cache that is bounded in bytes (blob_lru.go) *)

Section blobs.
Context {K : Type} `{Countable K} (zeroK : K).
Abbreviation blob := (list Z) (only parsing).

Definition MaxInt : Z := 2 ^ 63 - 1.
Definition blob_len (b : blob) : Z := Z.of_nat (length b).

Record SizeConstrainedCache := mkSized {
  sc_size : Z;
  sc_maxSize : Z;
  sc_lru : @BasicLRU K blob _ _;
}.

Definition NewSizeConstrainedCache (maxSize : Z) : res SizeConstrainedCache :=
  c ← NewBasicLRU zeroK MaxInt; Ok (mkSized 0 maxSize c).

(** [for targetSize > c.maxSize]; each round removes an entry or ends the loop. *)
Fixpoint evict (fuel : nat) (maxSize targetSize : Z) (evicted : bool) (c : @BasicLRU K blob _ _)
  : outcome (bool * Z * @BasicLRU K blob _ _) :=
  if targetSize <=? maxSize then Done (evicted, targetSize, c)
  else
    match fuel with
    | O => OutOfFuel
    | S fuel =>
        match RemoveOldest [] c with
        | Panic msg => Crash msg
        | Ok (None, c) => Done (true, targetSize, c)
        | Ok (Some (_, x), c) => evict fuel maxSize (targetSize - blob_len x)%u64 true c
        end
    end.

Definition sized_Add (fuel : nat) (s : SizeConstrainedCache) (key : K) (value : blob) : outcome (bool * SizeConstrainedCache) :=
  let store evicted size c :=
    match lru_Add zeroK c key value with
    | Ok (_, c) => Done (evicted, mkSized size (sc_maxSize s) c)
    | Panic msg => Crash msg
    end in
  if lru_Contains (sc_lru s) key then store false (sc_size s) (sc_lru s)
  else
    match evict fuel (sc_maxSize s) (sc_size s + blob_len value)%u64 false (sc_lru s) with
    | Done (evicted, targetSize, c) => store evicted targetSize c
    | Crash msg => Crash msg
    | OutOfFuel => OutOfFuel
    end.

Definition sized_Get (s : SizeConstrainedCache) (key : K) : res (option blob * SizeConstrainedCache) :=
  '(x, c) ← lru_Get (sc_lru s) key; Ok (x, mkSized (sc_size s) (sc_maxSize s) c).

(** *** The specification: the longest front part that leaves room *)

Fixpoint bytes_in (L : list (K * blob)) : Z := match L with [] => 0 | e :: L => blob_len e.2 + bytes_in L end.
Fixpoint fit (room : Z) (L : list (K * blob)) : list (K * blob) :=
  match L with
  | [] => []
  | e :: L => if blob_len e.2 <=? room then e :: fit (room - blob_len e.2) L else []
  end.
Definition sized_spec_Add (maxSize : Z) (L : list (K * blob)) (key : K) (value : blob) : bool * list (K * blob) :=
  match find_key key L with
  | Some _ => (false, (key, value) :: without key L)
  | None => (maxSize <? bytes_in L + blob_len value, (key, value) :: fit (maxSize - blob_len value) L)
  end.

Lemma bytes_nonneg L : 0 <= bytes_in L.
Proof. induction L as [|e L IH]; cbn; [lia|]. unfold blob_len. lia. Qed.
Lemma bytes_app L L' : bytes_in (L ++ L') = bytes_in L + bytes_in L'.
Proof. induction L as [|e L IH]; cbn; lia. Qed.
Lemma fit_all room L : bytes_in L <= room → fit room L = L.
Proof.
  revert room. induction L as [|e L IH]; intros room Hr; cbn in *; [done|]. pose proof (bytes_nonneg L).
  rewrite (proj2 (Z.leb_le _ _)) by lia. f_equal. apply IH. lia.
Qed.
Lemma fit_drop room L e : room < bytes_in (L ++ [e]) → fit room (L ++ [e]) = fit room L.
Proof.
  revert room. induction L as [|e' L IH]; intros room Hr; cbn in *.
  - by rewrite (proj2 (Z.leb_gt _ _)) by lia.
  - case_match; [|done]. f_equal. apply IH. lia.
Qed.
Lemma fit_bytes room L : fit room L = [] ∨ bytes_in (fit room L) <= room.
Proof.
  revert room. induction L as [|e L IH]; intros room; cbn; [by left|]. destruct (Z.leb_spec (blob_len e.2) room); [|by left].
  right. cbn. destruct (IH (room - blob_len e.2)) as [->|?]; cbn; lia.
Qed.
Lemma fit_prefix room L : ∃ r, L = fit room L ++ r.
Proof.
  revert room. induction L as [|e L IH]; intros room; cbn; [by exists []|]. case_match; [|by eexists].
  destruct (IH (room - blob_len e.2)) as [r E]. exists r. cbn. by rewrite <- E.
Qed.

(** *** The cache follows the specification *)

Inductive sized_op := SAdd (key : K) | SGet (key : K).
Inductive sized_answer := SBool (b : bool) | SValue (x : option blob).

Section content.
(** Items are content-addressed: the key determines the value. *)
Context (content : K → blob).

Definition sized_step (s : SizeConstrainedCache) (op : sized_op) : outcome (sized_answer * SizeConstrainedCache) :=
  match op with
  | SAdd k =>
      match sized_Add (S (size (items (sc_lru s)))) s k (content k) with
      | Done (b, s) => Done (SBool b, s) | Crash msg => Crash msg | OutOfFuel => OutOfFuel
      end
  | SGet k => of_res ('(x, s) ← sized_Get s k; Ok (SValue x, s))
  end.
Definition sized_spec (maxSize : Z) (L : list (K * blob)) (op : sized_op) : sized_answer * list (K * blob) :=
  match op with
  | SAdd k => let '(b, L) := sized_spec_Add maxSize L k (content k) in (SBool b, L)
  | SGet k => match find_key k L with Some x => (SValue (Some x), (k, x) :: without k L) | None => (SValue None, L) end
  end.
Fixpoint sized_run (s : SizeConstrainedCache) (ops : list sized_op) : outcome (list sized_answer * SizeConstrainedCache) :=
  match ops with
  | [] => Done ([], s)
  | op :: ops =>
      match sized_step s op with
      | Done (a, s) =>
          match sized_run s ops with Done (l, s) => Done (a :: l, s) | Crash msg => Crash msg | OutOfFuel => OutOfFuel end
      | Crash msg => Crash msg
      | OutOfFuel => OutOfFuel
      end
  end.
Fixpoint sized_spec_run (maxSize : Z) (L : list (K * blob)) (ops : list sized_op) : list sized_answer * list (K * blob) :=
  match ops with
  | [] => ([], L)
  | op :: ops =>
      let '(a, L) := sized_spec maxSize L op in let '(l, L) := sized_spec_run maxSize L ops in (a :: l, L)
  end.

Lemma RemoveOldest_rep (c : @BasicLRU K blob _ _) M :
  rep c M → ∃ c' M', RemoveOldest [] c = Ok (last M.*2, c') ∧ rep c' M' ∧ cap c' = cap c ∧ M'.*2 = removelast M.*2.
Proof.
  intros Hr. destruct (RemoveOldest_steps zeroK [] c M Hr) as (a & c' & M' & E & Hr' & Hc & Es). exists c', M'.
  cbn [lru_step] in E. cbn [spec_step] in Es. injection Es as <- <-. destruct (RemoveOldest [] c) as [[e c1]|]; [|done]. cbn in E. by injection E as -> ->.
Qed.

Lemma Add_rep (c : @BasicLRU K blob _ _) M k x :
  rep c M → Z.of_nat (length M) < cap c →
  ∃ c' M', lru_Add zeroK c k x = Ok (false, c') ∧ rep c' M' ∧ cap c' = cap c ∧
    M'.*2 = (k, x) :: match find_key k M.*2 with Some _ => without k M.*2 | None => M.*2 end.
Proof.
  intros Hr Hl. destruct (Add_steps zeroK [] c M k x Hr) as (a & c' & M' & E & Hr' & Hc & Es). exists c', M'.
  cbn [lru_step] in E. cbn [spec_step] in Es. rewrite length_fmap, (proj2 (Z.leb_gt _ _) Hl) in Es.
  destruct (lru_Add zeroK c k x) as [[b c1]|]; [|done]. cbn in E. injection E as <- ->.
  destruct (find_key k M.*2); by injection Es as -> <-.
Qed.

Lemma Get_rep (c : @BasicLRU K blob _ _) M k :
  rep c M → ∃ c' M', lru_Get c k = Ok (find_key k M.*2, c') ∧ rep c' M' ∧ cap c' = cap c ∧
    M'.*2 = match find_key k M.*2 with Some x => (k, x) :: without k M.*2 | None => M.*2 end.
Proof.
  intros Hr. destruct (Get_steps zeroK [] c M k Hr) as (a & c' & M' & E & Hr' & Hc & Es). exists c', M'.
  cbn [lru_step] in E. cbn [spec_step] in Es. destruct (lru_Get c k) as [[b c1]|]; [|done]. cbn in E. injection E as <- ->.
  destruct (find_key k M.*2); by injection Es as -> <-.
Qed.

Lemma evict_spec maxSize n : 0 <= n → ∀ M fuel c target ev,
  rep c M → (length M < fuel)%nat → target = bytes_in M.*2 + n → target < 2 ^ 64 →
  ∃ c' M', evict fuel maxSize target ev c = Done (ev || (maxSize <? target), bytes_in M'.*2 + n, c') ∧
    rep c' M' ∧ cap c' = cap c ∧ M'.*2 = fit (maxSize - n) M.*2.
Proof.
  intros Hn M. remember (length M) as len eqn:El. revert M El.
  induction len as [|len IH]; intros M El fuel c target ev Hr Hf Et Hw; destruct fuel as [|fuel]; try lia; cbn [evict];
    destruct (Z.leb_spec target maxSize) as [Hle|Hgt].
  1, 3: exists c, M; rewrite (proj2 (Z.ltb_ge _ _)), orb_false_r by lia; split_and!; [by rewrite Et|done|done|]; by rewrite fit_all by lia.
  all: rewrite (proj2 (Z.ltb_lt _ _)), orb_true_r by lia; destruct (RemoveOldest_rep c M Hr) as (c1 & M1 & -> & Hr1 & Hc1 & E1).
  - destruct M; [|done]. exists c1, M1. cbn in E1. rewrite E1. cbn. by split_and!; [rewrite Et|..].
  - destruct M as [|m A _] using rev_ind; [done|]. rewrite fmap_app in *. change ([m].*2) with [m.2] in *.
    rewrite last_snoc. rewrite removelast_last in E1. destruct m as [p [k x]]. cbn [snd] in *.
    pose proof (bytes_nonneg A.*2) as Ha. rewrite bytes_app in Et. cbn in Et.
    assert ((target - blob_len x)%u64 = bytes_in M1.*2 + n) as Ew.
    { rewrite E1, Et. unfold u64. rewrite Z.mod_small; [lia|]. unfold blob_len in *. lia. }
    rewrite Ew. rewrite length_app in El. cbn in El.
    destruct (IH M1) with (fuel := fuel) (c := c1) (target := bytes_in M1.*2 + n) (ev := true) as (c' & M' & E & Hr' & Hc' & E').
    + apply (f_equal length) in E1. rewrite !length_fmap in E1. lia.
    + done.
    + lia.
    + done.
    + rewrite E1. unfold blob_len in *. lia.
    + exists c', M'. rewrite E. split_and!; [done|done|by rewrite Hc'|]. rewrite E', E1, fit_drop; [done|].
      rewrite bytes_app. cbn. lia.
Qed.

Lemma bytes_without (L : list (K * blob)) k x :
  NoDup L.*1 → find_key k L = Some x → bytes_in L = blob_len x + bytes_in (without k L).
Proof.
  unfold find_key, without. induction L as [|[k' y] L IH]; intros Hnd Hf; [done|]. rewrite fmap_cons in Hnd. apply NoDup_cons in Hnd as [Hk Hnd].
  cbn [list_to_map foldr curry fst snd] in Hf. rewrite filter_cons. cbn [fst bytes_in snd].
  destruct (decide (k' = k)) as [->|Hne].
  - rewrite lookup_insert_eq in Hf. injection Hf as ->. rewrite decide_False by (intros []; done). f_equal.
    cbn [fst] in Hk. clear -Hk. induction L as [|[k' y] L IH]; [done|]. rewrite fmap_cons in Hk. rewrite filter_cons. cbn [fst] in *.
    rewrite decide_True by set_solver. cbn [bytes_in snd]. f_equal. apply IH. set_solver.
  - rewrite lookup_insert_ne in Hf by done. rewrite decide_True by done. cbn [bytes_in snd]. rewrite (IH Hnd Hf). lia.
Qed.

(** What is accounted for is what is held, and it fits unless it is one item. *)
Record sized_ok (s : SizeConstrainedCache) (L : list (K * blob)) : Prop := {
  so_rep : ∃ M, rep (sc_lru s) M ∧ M.*2 = L;
  so_cap : cap (sc_lru s) = MaxInt;
  so_size : sc_size s = bytes_in L;
  so_fit : bytes_in L <= sc_maxSize s ∨ ∃ e, L = [e];
  so_content : Forall (λ e, e.2 = content e.1) L;
}.

Section bounded.
Context (maxSize : Z) (Hmax : 0 <= maxSize < 2 ^ 63) (Hblob : ∀ k, blob_len (content k) < 2 ^ 62).

Lemma sized_bound s L : sized_ok s L → sc_maxSize s = maxSize → bytes_in L < 2 ^ 63.
Proof.
  intros Hs Em. destruct (so_fit _ _ Hs) as [Hf|[[k x] ->]]; [rewrite Em in Hf; lia|].
  pose proof (so_content _ _ Hs) as Hc. apply Forall_cons in Hc as [Hx _]. cbn in Hx |- *. subst x. specialize (Hblob k). lia.
Qed.

Lemma without_content (L : list (K * blob)) k :
  Forall (λ e, e.2 = content e.1) L → Forall (λ e, e.2 = content e.1) ((k, content k) :: without k L).
Proof. intros Hc. constructor; [done|]. apply Forall_forall. intros e [_ He]%list_elem_of_filter. by apply (proj1 (Forall_forall _ _) Hc). Qed.

Lemma find_content (L : list (K * blob)) k x :
  Forall (λ e, e.2 = content e.1) L → find_key k L = Some x → x = content k.
Proof. unfold find_key. intros Hc Hf. apply elem_of_list_to_map_2 in Hf. by apply (proj1 (Forall_forall _ _) Hc (k, x)). Qed.

(** An item that is there is moved to the front. *)
Lemma touch_ok s M k c' M' :
  sized_ok s M.*2 → rep (sc_lru s) M → find_key k M.*2 = Some (content k) → rep c' M' → cap c' = cap (sc_lru s) →
  M'.*2 = (k, content k) :: without k M.*2 → sized_ok (mkSized (sc_size s) (sc_maxSize s) c') M'.*2.
Proof.
  intros [_ Hc Hs Hf Hx] Hr Hk Hr' Hc' E. pose proof (bytes_without M.*2 k _ (rep_keys _ _ Hr) Hk) as Eb.
  split; cbn [sc_lru sc_size sc_maxSize]; [by exists M'|by rewrite Hc'|rewrite E; cbn; lia| |].
  - destruct Hf as [Hf|[e Ee]]; [left; rewrite E; cbn; lia|]. right. exists (k, content k). rewrite E. f_equal.
    rewrite Ee in Hk |- *. unfold find_key in Hk. cbn in Hk. unfold without. rewrite filter_cons.
    destruct (decide (e.1 = k)) as [->|Hne]; [by rewrite decide_False by (intros []; done)|].
    rewrite lookup_insert_ne in Hk by done. done.
  - rewrite E. by apply without_content.
Qed.

(** What one operation does to the cache and to the list. *)
Definition follows (s : SizeConstrainedCache) (L : list (K * blob)) (op : sized_op) : Prop :=
  ∃ s', sized_step s op = Done (fst (sized_spec maxSize L op), s') ∧ sized_ok s' (snd (sized_spec maxSize L op)) ∧
    sc_maxSize s' = maxSize ∧ (length (snd (sized_spec maxSize L op)) <= S (length L))%nat.

Lemma without_length k (L : list (K * blob)) : (length (without k L) <= length L)%nat.
Proof. apply length_filter. Qed.

Lemma sized_Get_follows s M k :
  sized_ok s M.*2 → rep (sc_lru s) M → sc_maxSize s = maxSize → follows s M.*2 (SGet k).
Proof.
  intros Hs Hr Em. unfold follows. cbn [sized_step sized_spec]. unfold sized_Get.
  destruct (Get_rep (sc_lru s) M k Hr) as (c' & M' & -> & Hr' & Hc' & E). eexists. pose proof (without_length k M.*2) as Hw.
  destruct (find_key k M.*2) as [x|] eqn:Ef; (split; [done|]); cbn [fst snd]; rewrite <- E.
  - apply find_content in Ef as Ex; [|apply Hs]. subst x. split_and!; [by eapply touch_ok|done|rewrite E; cbn; lia].
  - split_and!; [|done|rewrite E; lia]. rewrite E. destruct Hs as [_ Hc Hsz Hf Hx]. split; cbn; try done; [by exists M'|by rewrite Hc'].
Qed.

Lemma sized_Add_known s M k x :
  sized_ok s M.*2 → rep (sc_lru s) M → sc_maxSize s = maxSize → Z.of_nat (length M) < MaxInt →
  find_key k M.*2 = Some x → follows s M.*2 (SAdd k).
Proof.
  intros Hs Hr Em Hl Ef. unfold follows. cbn [sized_step sized_spec]. unfold sized_Add, sized_spec_Add, lru_Contains.
  pose proof (find_key_rep _ M k Hr) as Hfk. pose proof (without_length k M.*2) as Hw. rewrite Ef in *.
  rewrite bool_decide_true by (apply (fmap_is_Some snd); rewrite <- Hfk; by eexists).
  destruct (Add_rep (sc_lru s) M k (content k) Hr) as (c' & M' & -> & Hr' & Hc' & E); [rewrite (so_cap _ _ Hs); lia|].
  rewrite Ef in E. eexists. split; [done|]. cbn [fst snd]. rewrite <- E. split_and!; [|done|rewrite E; cbn; lia].
  eapply touch_ok; try done. rewrite Ef. f_equal. eapply find_content; [apply Hs|done].
Qed.

(** The front part of the list that is kept. *)
Lemma fit_keys room (L : list (K * blob)) k :
  find_key k L = None → find_key k (fit room L) = None ∧ (length (fit room L) <= length L)%nat ∧
  (Forall (λ e, e.2 = content e.1) L → Forall (λ e, e.2 = content e.1) (fit room L)).
Proof.
  destruct (fit_prefix room L) as [r Er]. unfold find_key. intros Hn%not_elem_of_list_to_map_2. rewrite Er in Hn. split_and!.
  - apply not_elem_of_list_to_map_1. rewrite fmap_app in Hn. set_solver.
  - apply (f_equal length) in Er. rewrite length_app in Er. lia.
  - intros Hc. rewrite Er in Hc. by apply Forall_app in Hc as [? _].
Qed.

Lemma sized_Add_new s M k :
  sized_ok s M.*2 → rep (sc_lru s) M → sc_maxSize s = maxSize → Z.of_nat (length M) < MaxInt →
  find_key k M.*2 = None → follows s M.*2 (SAdd k).
Proof.
  intros Hs Hr Em Hl Ef. unfold follows. cbn [sized_step sized_spec]. unfold sized_Add, sized_spec_Add, lru_Contains.
  pose proof (find_key_rep _ M k Hr) as Hfk. rewrite Ef in *. rewrite (rep_size _ _ Hr).
  rewrite bool_decide_false by (intros Hi%(fmap_is_Some snd); rewrite <- Hfk in Hi; by destruct Hi).
  pose proof (sized_bound s _ Hs Em) as Hb. pose proof (bytes_nonneg M.*2) as H0. specialize (Hblob k) as Hk.
  assert (0 <= blob_len (content k)) as Hk0 by (unfold blob_len; lia).
  assert ((sc_size s + blob_len (content k))%u64 = bytes_in M.*2 + blob_len (content k)) as ->.
  { rewrite (so_size _ _ Hs). apply u64_id. unfold u64_ok. lia. }
  destruct (evict_spec (sc_maxSize s) (blob_len (content k)) Hk0 M (S (length M)) (sc_lru s) _ false Hr
    (Nat.lt_succ_diag_r _) eq_refl ltac:(lia)) as (c1 & M1 & -> & Hr1 & Hc1 & E1). rewrite Em in E1.
  destruct (fit_keys (maxSize - blob_len (content k)) M.*2 k Ef) as (Hn & Hlen & Hcon). rewrite <- E1, !length_fmap in *.
  destruct (Add_rep c1 M1 k (content k) Hr1) as (c' & M' & -> & Hr' & Hc' & E); [rewrite Hc1, (so_cap _ _ Hs); lia|].
  rewrite Hn in E. rewrite Em. eexists. split; [done|]. cbn [fst snd]. rewrite <- E. split_and!; [|done|rewrite E; cbn; rewrite length_fmap; lia].
  split; cbn [sc_lru sc_size sc_maxSize]; [by exists M'|by rewrite Hc', Hc1, (so_cap _ _ Hs)|rewrite E; cbn; lia| |].
  - rewrite E. destruct (fit_bytes (maxSize - blob_len (content k)) M.*2) as [Hz|Hz]; rewrite <- E1 in Hz;
      [right; rewrite Hz; by eexists|left; cbn; lia].
  - rewrite E. constructor; [done|]. apply Hcon, Hs.
Qed.

Lemma sized_follows s L op :
  sized_ok s L → sc_maxSize s = maxSize → Z.of_nat (length L) < MaxInt → follows s L op.
Proof.
  intros Hs Em Hl. destruct (so_rep _ _ Hs) as (M & Hr & <-). rewrite length_fmap in Hl.
  destruct op as [k|k]; [|by apply sized_Get_follows].
  destruct (find_key k M.*2) as [x|] eqn:Ef; [by eapply sized_Add_known|by apply sized_Add_new].
Qed.
End bounded.

(** The cache bounded in bytes gives, on content-addressed items, the answers of a list
    from which [Add] drops entries at the end until the new one fits; the size it keeps
    is the number of bytes it holds.  That is at most the bound, or else there is exactly
    one item: an item larger than the bound is stored all the same. *)
Theorem sized_cache_bounded (maxSize : Z) (ops : list sized_op) :
  0 <= maxSize < 2 ^ 63 → (∀ k, blob_len (content k) < 2 ^ 62) → Z.of_nat (length ops) < MaxInt →
  ∃ s s', NewSizeConstrainedCache maxSize = Ok s ∧
    sized_run s ops = Done (fst (sized_spec_run maxSize [] ops), s') ∧
    sc_size s' = bytes_in (snd (sized_spec_run maxSize [] ops)) ∧
    (sc_size s' <= maxSize ∨ ∃ e, snd (sized_spec_run maxSize [] ops) = [e]).
Proof.
  intros Hmax Hblob Hn. destruct (New_rep (K := K) (V := blob) zeroK MaxInt) as (c & E & Hr & Hc).
  exists (mkSized 0 maxSize c). unfold NewSizeConstrainedCache. rewrite E.
  enough (∀ s L, sized_ok s L → sc_maxSize s = maxSize → Z.of_nat (length L) + Z.of_nat (length ops) < MaxInt →
    ∃ s', sized_run s ops = Done (fst (sized_spec_run maxSize L ops), s') ∧
      sized_ok s' (snd (sized_spec_run maxSize L ops)) ∧ sc_maxSize s' = maxSize) as Hgo.
  { destruct (Hgo (mkSized 0 maxSize c) []) as (s' & Er & Hs & Em); [|done|done|].
    - split; cbn; [by exists []|by rewrite Hc|done|left; lia|done].
    - exists s'. split_and!; [done|done|apply Hs|]. rewrite (so_size _ _ Hs). pose proof (so_fit _ _ Hs) as Hf. by rewrite Em in Hf. }
  clear -Hmax Hblob. induction ops as [|op ops IH]; intros s L Hs Em Hl; cbn [length] in Hl.
  { by exists s. }
  destruct (sized_follows maxSize Hmax Hblob s L op Hs Em ltac:(lia)) as (s1 & E1 & Hs1 & Em1 & Hl1).
  cbn [sized_run sized_spec_run]. rewrite E1. destruct (sized_spec maxSize L op) as [a L1]. cbn [fst snd] in *.
  destruct (IH s1 L1 Hs1 Em1 ltac:(lia)) as (s' & -> & Hs' & Em'). exists s'. by destruct (sized_spec_run maxSize L1 ops).
Qed.
End content.
End blobs.

(** The entry used least recently is the one that goes. *)
Example lru_sample :
  ((NewBasicLRU (K := Z) (V := Z) 0 2 ≫= λ c, Ok (fst <$> (match lru_run 0 0 c [OAdd 1 10; OAdd 2 20; OGet 1; OAdd 3 30; OPeek 2; OKeys; ORemoveOldest; OLen] with Done r => Some r | _ => None end)))
   = Ok (Some [ABool false; ABool false; AValue (Some 10); ABool true; AValue None; AKeys [1; 3]; AEntry (Some (1, 10)); ALen 1])).
Proof. vm_compute. reflexivity. Qed.

(** Items of three and four bytes in a cache of five: the older one goes.  One of seven is kept
    although it is above the bound. *)
Lemma sized_cache_bounded_witness :
  let content (k : Z) := replicate (Z.to_nat (Z.min k 7)) 1 in
  ∃ s s', NewSizeConstrainedCache (K := Z) 0 5 = Ok s ∧
    sized_run 0 content s [SAdd 3; SAdd 4; SGet 3; SAdd 7] = Done ([SBool false; SBool true; SValue None; SBool true], s') ∧
    sc_size s' = 7 ∧ (sc_size s' <= 5 ∨ ∃ e : Z * list Z, [(7, replicate 7 1)] = [e]).
Proof.
  exact (sized_cache_bounded (K := Z) 0 (λ k, replicate (Z.to_nat (Z.min k 7)) 1) 5 [SAdd 3; SAdd 4; SGet 3; SAdd 7]
    ltac:(lia) ltac:(intros k; unfold blob_len; rewrite length_replicate; lia) ltac:(vm_compute; reflexivity)).
Defined.
