(* ===== verification/Blake2b.v ===== *)
(** * BLAKE2b (crypto/blake2b)

    The unrolled compression function [fGeneric], the one-shot sums and the streaming
    digest.  The compression function is that of RFC 7693; the digest, however its input is
    cut into writes, and the sums give the hash of the RFC.  On amd64 an assembly version of
    [f] stands in for [fGeneric]. *)

From S2P Require Import Prelude Bytes.

(** ** encoding/binary and math/bits *)

Definition le_Uint64 (l : list byte) : Z := be_value (reverse l).
Definition le_PutUint64 (x : Z) : list byte := reverse (be_bytes 8 x).
Definition RotateLeft64 (x k : Z) : Z :=
  let s := k mod 64 in Z.lor (u64 (x ≪ s)) (x ≫ (64 - s)).

(** ** The compression function (blake2b_generic.go) *)

Definition iv : list Z :=
  [0x6a09e667f3bcc908; 0xbb67ae8584caa73b; 0x3c6ef372fe94f82b; 0xa54ff53a5f1d36f1;
   0x510e527fade682d1; 0x9b05688c2b3e6c1f; 0x1f83d9abfb41bd6b; 0x5be0cd19137e2179].

Definition precomputed : list (list nat) :=
  [[0; 2; 4; 6; 1; 3; 5; 7; 8; 10; 12; 14; 9; 11; 13; 15];
   [14; 4; 9; 13; 10; 8; 15; 6; 1; 0; 11; 5; 12; 2; 7; 3];
   [11; 12; 5; 15; 8; 0; 2; 13; 10; 3; 7; 9; 14; 6; 1; 4];
   [7; 3; 13; 11; 9; 1; 12; 14; 2; 5; 4; 15; 6; 10; 0; 8];
   [9; 5; 2; 10; 0; 7; 4; 15; 14; 11; 6; 3; 1; 12; 8; 13];
   [2; 6; 0; 8; 12; 10; 11; 3; 4; 7; 15; 1; 13; 5; 14; 9];
   [12; 1; 14; 4; 5; 15; 13; 10; 0; 6; 9; 8; 7; 3; 2; 11];
   [13; 7; 12; 3; 11; 14; 1; 9; 5; 15; 8; 2; 0; 4; 6; 10];
   [6; 14; 11; 0; 15; 9; 3; 8; 12; 13; 1; 10; 2; 7; 4; 5];
   [10; 8; 7; 1; 2; 4; 6; 5; 15; 9; 3; 13; 11; 14; 12; 0]]%nat.

(** The sixteen local variables. *)
Record vars := mkVars {
  w0 : Z; w1 : Z; w2 : Z; w3 : Z; w4 : Z; w5 : Z; w6 : Z; w7 : Z; w8 : Z; w9 : Z; w10 : Z; w11 : Z; w12 : Z; w13 : Z; w14 : Z; w15 : Z;
}.

(** The body of the loop; [mi j] is [m[s[j]]]. *)
Definition round (mi : Z → Z) (v : vars) : vars :=
  let 'mkVars v0 v1 v2 v3 v4 v5 v6 v7 v8 v9 v10 v11 v12 v13 v14 v15 := v in
  let v0 := (v0 + mi 0)%u64 in let v0 := (v0 + v4)%u64 in let v12 := Z.lxor v12 v0 in let v12 := RotateLeft64 v12 (-32) in
  let v8 := (v8 + v12)%u64 in let v4 := Z.lxor v4 v8 in let v4 := RotateLeft64 v4 (-24) in
  let v1 := (v1 + mi 1)%u64 in let v1 := (v1 + v5)%u64 in let v13 := Z.lxor v13 v1 in let v13 := RotateLeft64 v13 (-32) in
  let v9 := (v9 + v13)%u64 in let v5 := Z.lxor v5 v9 in let v5 := RotateLeft64 v5 (-24) in
  let v2 := (v2 + mi 2)%u64 in let v2 := (v2 + v6)%u64 in let v14 := Z.lxor v14 v2 in let v14 := RotateLeft64 v14 (-32) in
  let v10 := (v10 + v14)%u64 in let v6 := Z.lxor v6 v10 in let v6 := RotateLeft64 v6 (-24) in
  let v3 := (v3 + mi 3)%u64 in let v3 := (v3 + v7)%u64 in let v15 := Z.lxor v15 v3 in let v15 := RotateLeft64 v15 (-32) in
  let v11 := (v11 + v15)%u64 in let v7 := Z.lxor v7 v11 in let v7 := RotateLeft64 v7 (-24) in
  let v0 := (v0 + mi 4)%u64 in let v0 := (v0 + v4)%u64 in let v12 := Z.lxor v12 v0 in let v12 := RotateLeft64 v12 (-16) in
  let v8 := (v8 + v12)%u64 in let v4 := Z.lxor v4 v8 in let v4 := RotateLeft64 v4 (-63) in
  let v1 := (v1 + mi 5)%u64 in let v1 := (v1 + v5)%u64 in let v13 := Z.lxor v13 v1 in let v13 := RotateLeft64 v13 (-16) in
  let v9 := (v9 + v13)%u64 in let v5 := Z.lxor v5 v9 in let v5 := RotateLeft64 v5 (-63) in
  let v2 := (v2 + mi 6)%u64 in let v2 := (v2 + v6)%u64 in let v14 := Z.lxor v14 v2 in let v14 := RotateLeft64 v14 (-16) in
  let v10 := (v10 + v14)%u64 in let v6 := Z.lxor v6 v10 in let v6 := RotateLeft64 v6 (-63) in
  let v3 := (v3 + mi 7)%u64 in let v3 := (v3 + v7)%u64 in let v15 := Z.lxor v15 v3 in let v15 := RotateLeft64 v15 (-16) in
  let v11 := (v11 + v15)%u64 in let v7 := Z.lxor v7 v11 in let v7 := RotateLeft64 v7 (-63) in
  let v0 := (v0 + mi 8)%u64 in let v0 := (v0 + v5)%u64 in let v15 := Z.lxor v15 v0 in let v15 := RotateLeft64 v15 (-32) in
  let v10 := (v10 + v15)%u64 in let v5 := Z.lxor v5 v10 in let v5 := RotateLeft64 v5 (-24) in
  let v1 := (v1 + mi 9)%u64 in let v1 := (v1 + v6)%u64 in let v12 := Z.lxor v12 v1 in let v12 := RotateLeft64 v12 (-32) in
  let v11 := (v11 + v12)%u64 in let v6 := Z.lxor v6 v11 in let v6 := RotateLeft64 v6 (-24) in
  let v2 := (v2 + mi 10)%u64 in let v2 := (v2 + v7)%u64 in let v13 := Z.lxor v13 v2 in let v13 := RotateLeft64 v13 (-32) in
  let v8 := (v8 + v13)%u64 in let v7 := Z.lxor v7 v8 in let v7 := RotateLeft64 v7 (-24) in
  let v3 := (v3 + mi 11)%u64 in let v3 := (v3 + v4)%u64 in let v14 := Z.lxor v14 v3 in let v14 := RotateLeft64 v14 (-32) in
  let v9 := (v9 + v14)%u64 in let v4 := Z.lxor v4 v9 in let v4 := RotateLeft64 v4 (-24) in
  let v0 := (v0 + mi 12)%u64 in let v0 := (v0 + v5)%u64 in let v15 := Z.lxor v15 v0 in let v15 := RotateLeft64 v15 (-16) in
  let v10 := (v10 + v15)%u64 in let v5 := Z.lxor v5 v10 in let v5 := RotateLeft64 v5 (-63) in
  let v1 := (v1 + mi 13)%u64 in let v1 := (v1 + v6)%u64 in let v12 := Z.lxor v12 v1 in let v12 := RotateLeft64 v12 (-16) in
  let v11 := (v11 + v12)%u64 in let v6 := Z.lxor v6 v11 in let v6 := RotateLeft64 v6 (-63) in
  let v2 := (v2 + mi 14)%u64 in let v2 := (v2 + v7)%u64 in let v13 := Z.lxor v13 v2 in let v13 := RotateLeft64 v13 (-16) in
  let v8 := (v8 + v13)%u64 in let v7 := Z.lxor v7 v8 in let v7 := RotateLeft64 v7 (-63) in
  let v3 := (v3 + mi 15)%u64 in let v3 := (v3 + v4)%u64 in let v14 := Z.lxor v14 v3 in let v14 := RotateLeft64 v14 (-16) in
  let v9 := (v9 + v14)%u64 in let v4 := Z.lxor v4 v9 in let v4 := RotateLeft64 v4 (-63) in
  mkVars v0 v1 v2 v3 v4 v5 v6 v7 v8 v9 v10 v11 v12 v13 v14 v15.

Fixpoint rounds_loop (n : nat) (i : nat) (m : list Z) (v : vars) : vars :=
  match n with
  | O => v
  | S n => let s := precomputed !!! (i mod 10)%nat in rounds_loop n (S i) m (round (λ j, m !!! (s !!! Z.to_nat j)) v)
  end.

(** [h] and [m] are arrays of 8 and of 16 words. *)
Definition fGeneric (h m : list Z) (c0 c1 flag : Z) (rounds : nat) : list Z :=
  let v := mkVars (h !!! 0%nat) (h !!! 1%nat) (h !!! 2%nat) (h !!! 3%nat) (h !!! 4%nat) (h !!! 5%nat) (h !!! 6%nat) (h !!! 7%nat)
             (iv !!! 0%nat) (iv !!! 1%nat) (iv !!! 2%nat) (iv !!! 3%nat)
             (Z.lxor (iv !!! 4%nat) c0) (Z.lxor (iv !!! 5%nat) c1) (Z.lxor (iv !!! 6%nat) flag) (iv !!! 7%nat) in
  let v := rounds_loop rounds 0 m v in
  [Z.lxor (h !!! 0%nat) (Z.lxor (w0 v) (w8 v)); Z.lxor (h !!! 1%nat) (Z.lxor (w1 v) (w9 v));
   Z.lxor (h !!! 2%nat) (Z.lxor (w2 v) (w10 v)); Z.lxor (h !!! 3%nat) (Z.lxor (w3 v) (w11 v));
   Z.lxor (h !!! 4%nat) (Z.lxor (w4 v) (w12 v)); Z.lxor (h !!! 5%nat) (Z.lxor (w5 v) (w13 v));
   Z.lxor (h !!! 6%nat) (Z.lxor (w6 v) (w14 v)); Z.lxor (h !!! 7%nat) (Z.lxor (w7 v) (w15 v))].

Definition F (h m c : list Z) (final : bool) (rounds : Z) : list Z :=
  let flag := if final then 0xFFFFFFFFFFFFFFFF else 0 in
  fGeneric h m (c !!! 0%nat) (c !!! 1%nat) flag (Z.to_nat rounds).

(** ** The compression function of RFC 7693 *)

Module Rfc.

Definition rotr (x n : Z) : Z := Z.lor (x ≫ n) (u64 (x ≪ (64 - n))).

(** Section 3.1, on a vector of sixteen words. *)
Definition G (v : list Z) (a b c d : nat) (x y : Z) : list Z :=
  let v := <[a := (v !!! a + v !!! b + x)%u64]> v in
  let v := <[d := rotr (Z.lxor (v !!! d) (v !!! a)) 32]> v in
  let v := <[c := (v !!! c + v !!! d)%u64]> v in
  let v := <[b := rotr (Z.lxor (v !!! b) (v !!! c)) 24]> v in
  let v := <[a := (v !!! a + v !!! b + y)%u64]> v in
  let v := <[d := rotr (Z.lxor (v !!! d) (v !!! a)) 16]> v in
  let v := <[c := (v !!! c + v !!! d)%u64]> v in
  <[b := rotr (Z.lxor (v !!! b) (v !!! c)) 63]> v.

(** Section 2.7. *)
Definition SIGMA : list (list nat) :=
  [[0; 1; 2; 3; 4; 5; 6; 7; 8; 9; 10; 11; 12; 13; 14; 15];
   [14; 10; 4; 8; 9; 15; 13; 6; 1; 12; 0; 2; 11; 7; 5; 3];
   [11; 8; 12; 0; 5; 2; 15; 13; 10; 14; 3; 6; 7; 1; 9; 4];
   [7; 9; 3; 1; 13; 12; 11; 14; 2; 6; 5; 10; 4; 0; 15; 8];
   [9; 0; 5; 7; 2; 4; 10; 15; 14; 1; 11; 12; 6; 8; 3; 13];
   [2; 12; 6; 10; 0; 11; 8; 3; 4; 13; 7; 5; 15; 14; 1; 9];
   [12; 5; 1; 15; 14; 13; 4; 10; 0; 7; 6; 3; 9; 2; 8; 11];
   [13; 11; 7; 14; 12; 1; 3; 9; 5; 0; 15; 4; 8; 6; 2; 10];
   [6; 15; 14; 9; 11; 3; 0; 8; 12; 2; 13; 7; 1; 4; 10; 5];
   [10; 2; 8; 4; 7; 6; 1; 5; 15; 11; 9; 14; 3; 12; 13; 0]]%nat.

Definition mix (m : list Z) (s : list nat) (v : list Z) : list Z :=
  let x j := m !!! (s !!! j) in
  let v := G v 0 4 8 12 (x 0%nat) (x 1%nat) in
  let v := G v 1 5 9 13 (x 2%nat) (x 3%nat) in
  let v := G v 2 6 10 14 (x 4%nat) (x 5%nat) in
  let v := G v 3 7 11 15 (x 6%nat) (x 7%nat) in
  let v := G v 0 5 10 15 (x 8%nat) (x 9%nat) in
  let v := G v 1 6 11 12 (x 10%nat) (x 11%nat) in
  let v := G v 2 7 8 13 (x 12%nat) (x 13%nat) in
  G v 3 4 9 14 (x 14%nat) (x 15%nat).

(** Section 3.2; [t] is the number of bytes so far, of which two words are kept. *)
Definition compress (h m : list Z) (t : Z) (final : bool) (rounds : nat) : list Z :=
  let v := h ++ iv in
  let v := <[12%nat := Z.lxor (v !!! 12%nat) (t mod 2 ^ 64)]> v in
  let v := <[13%nat := Z.lxor (v !!! 13%nat) ((t / 2 ^ 64) mod 2 ^ 64)]> v in
  let v := if final then <[14%nat := Z.lxor (v !!! 14%nat) (2 ^ 64 - 1)]> v else v in
  let v := foldl (λ v i, mix m (SIGMA !!! (i mod 10)%nat) v) v (seq 0 rounds) in
  (λ i, Z.lxor (Z.lxor (h !!! i) (v !!! i)) (v !!! (i + 8)%nat)) <$> seq 0 8.

End Rfc.

(** ** The unrolled rounds are those of the RFC *)

Definition words (v : vars) : list Z :=
  let 'mkVars v0 v1 v2 v3 v4 v5 v6 v7 v8 v9 v10 v11 v12 v13 v14 v15 := v in [v0; v1; v2; v3; v4; v5; v6; v7; v8; v9; v10; v11; v12; v13; v14; v15].

(** The order in which the unrolled code reads a row of the schedule. *)
Definition reading : list nat := [0; 2; 4; 6; 1; 3; 5; 7; 8; 10; 12; 14; 9; 11; 13; 15]%nat.

Lemma precomputed_reading : precomputed = (λ s, (λ j, s !!! j) <$> reading) <$> Rfc.SIGMA.
Proof. vm_compute. reflexivity. Qed.

Lemma RotateLeft64_rotr x n : 0 < n < 64 → RotateLeft64 x (- n) = Rfc.rotr x n.
Proof.
  intros Hn. unfold RotateLeft64, Rfc.rotr. cbv zeta.
  replace (- n mod 64) with (64 - n) by (apply Z.mod_unique with (-1); lia).
  replace (64 - (64 - n)) with n by lia. apply Z.lor_comm.
Qed.

(** A quarter of half a round, as the code orders it and as the RFC does. *)
Definition quarter (a b c d x y : Z) : Z * Z * Z * Z :=
  let a := (a + x)%u64 in let a := (a + b)%u64 in let d := RotateLeft64 (Z.lxor d a) (-32) in
  let c := (c + d)%u64 in let b := RotateLeft64 (Z.lxor b c) (-24) in
  let a := (a + y)%u64 in let a := (a + b)%u64 in let d := RotateLeft64 (Z.lxor d a) (-16) in
  let c := (c + d)%u64 in let b := RotateLeft64 (Z.lxor b c) (-63) in (a, b, c, d).
Definition Rfc_quarter (a b c d x y : Z) : Z * Z * Z * Z :=
  let a := (a + b + x)%u64 in let d := Rfc.rotr (Z.lxor d a) 32 in
  let c := (c + d)%u64 in let b := Rfc.rotr (Z.lxor b c) 24 in
  let a := (a + b + y)%u64 in let d := Rfc.rotr (Z.lxor d a) 16 in
  let c := (c + d)%u64 in let b := Rfc.rotr (Z.lxor b c) 63 in (a, b, c, d).

Lemma quarter_Rfc a b c d x y : quarter a b c d x y = Rfc_quarter a b c d x y.
Proof.
  assert (∀ a b x, (u64 (a + x) + b)%u64 = (a + b + x)%u64) as Hadd
    by (intros; rewrite u64_add_l; f_equal; lia).
  assert (∀ x, RotateLeft64 x (-32) = Rfc.rotr x 32 ∧ RotateLeft64 x (-24) = Rfc.rotr x 24 ∧
    RotateLeft64 x (-16) = Rfc.rotr x 16 ∧ RotateLeft64 x (-63) = Rfc.rotr x 63) as Hrot
    by (intros z; split_and!; [apply (RotateLeft64_rotr z 32)|apply (RotateLeft64_rotr z 24)|
      apply (RotateLeft64_rotr z 16)|apply (RotateLeft64_rotr z 63)]; lia).
  unfold quarter, Rfc_quarter. cbv zeta. by rewrite !(proj1 (Hrot _)), !(proj1 (proj2 (Hrot _))), !(proj1 (proj2 (proj2 (Hrot _)))),
    !(proj2 (proj2 (proj2 (Hrot _)))), !Hadd.
Qed.

(** A round as eight quarters, with the words of the message in the order of the RFC. *)
Definition round_quarters (x : nat → Z) (v : vars) : vars :=
  let 'mkVars v0 v1 v2 v3 v4 v5 v6 v7 v8 v9 v10 v11 v12 v13 v14 v15 := v in
  let '(v0, v4, v8, v12) := quarter v0 v4 v8 v12 (x 0%nat) (x 1%nat) in
  let '(v1, v5, v9, v13) := quarter v1 v5 v9 v13 (x 2%nat) (x 3%nat) in
  let '(v2, v6, v10, v14) := quarter v2 v6 v10 v14 (x 4%nat) (x 5%nat) in
  let '(v3, v7, v11, v15) := quarter v3 v7 v11 v15 (x 6%nat) (x 7%nat) in
  let '(v0, v5, v10, v15) := quarter v0 v5 v10 v15 (x 8%nat) (x 9%nat) in
  let '(v1, v6, v11, v12) := quarter v1 v6 v11 v12 (x 10%nat) (x 11%nat) in
  let '(v2, v7, v8, v13) := quarter v2 v7 v8 v13 (x 12%nat) (x 13%nat) in
  let '(v3, v4, v9, v14) := quarter v3 v4 v9 v14 (x 14%nat) (x 15%nat) in
  mkVars v0 v1 v2 v3 v4 v5 v6 v7 v8 v9 v10 v11 v12 v13 v14 v15.

Lemma round_eq (m : list Z) (s : list nat) v :
  round (λ j, m !!! (((λ j, s !!! j) <$> reading) !!! Z.to_nat j)) v = round_quarters (λ j, m !!! (s !!! j)) v.
Proof. reflexivity. Qed.

Lemma G_0 v0 v1 v2 v3 v4 v5 v6 v7 v8 v9 v10 v11 v12 v13 v14 v15 x y :
  Rfc.G [v0; v1; v2; v3; v4; v5; v6; v7; v8; v9; v10; v11; v12; v13; v14; v15] 0 4 8 12 x y
  = let '(a, b, c, d) := Rfc_quarter v0 v4 v8 v12 x y in [a; v1; v2; v3; b; v5; v6; v7; c; v9; v10; v11; d; v13; v14; v15].
Proof. reflexivity. Qed.
Lemma G_1 v0 v1 v2 v3 v4 v5 v6 v7 v8 v9 v10 v11 v12 v13 v14 v15 x y :
  Rfc.G [v0; v1; v2; v3; v4; v5; v6; v7; v8; v9; v10; v11; v12; v13; v14; v15] 1 5 9 13 x y
  = let '(a, b, c, d) := Rfc_quarter v1 v5 v9 v13 x y in [v0; a; v2; v3; v4; b; v6; v7; v8; c; v10; v11; v12; d; v14; v15].
Proof. reflexivity. Qed.
Lemma G_2 v0 v1 v2 v3 v4 v5 v6 v7 v8 v9 v10 v11 v12 v13 v14 v15 x y :
  Rfc.G [v0; v1; v2; v3; v4; v5; v6; v7; v8; v9; v10; v11; v12; v13; v14; v15] 2 6 10 14 x y
  = let '(a, b, c, d) := Rfc_quarter v2 v6 v10 v14 x y in [v0; v1; a; v3; v4; v5; b; v7; v8; v9; c; v11; v12; v13; d; v15].
Proof. reflexivity. Qed.
Lemma G_3 v0 v1 v2 v3 v4 v5 v6 v7 v8 v9 v10 v11 v12 v13 v14 v15 x y :
  Rfc.G [v0; v1; v2; v3; v4; v5; v6; v7; v8; v9; v10; v11; v12; v13; v14; v15] 3 7 11 15 x y
  = let '(a, b, c, d) := Rfc_quarter v3 v7 v11 v15 x y in [v0; v1; v2; a; v4; v5; v6; b; v8; v9; v10; c; v12; v13; v14; d].
Proof. reflexivity. Qed.
Lemma G_4 v0 v1 v2 v3 v4 v5 v6 v7 v8 v9 v10 v11 v12 v13 v14 v15 x y :
  Rfc.G [v0; v1; v2; v3; v4; v5; v6; v7; v8; v9; v10; v11; v12; v13; v14; v15] 0 5 10 15 x y
  = let '(a, b, c, d) := Rfc_quarter v0 v5 v10 v15 x y in [a; v1; v2; v3; v4; b; v6; v7; v8; v9; c; v11; v12; v13; v14; d].
Proof. reflexivity. Qed.
Lemma G_5 v0 v1 v2 v3 v4 v5 v6 v7 v8 v9 v10 v11 v12 v13 v14 v15 x y :
  Rfc.G [v0; v1; v2; v3; v4; v5; v6; v7; v8; v9; v10; v11; v12; v13; v14; v15] 1 6 11 12 x y
  = let '(a, b, c, d) := Rfc_quarter v1 v6 v11 v12 x y in [v0; a; v2; v3; v4; v5; b; v7; v8; v9; v10; c; d; v13; v14; v15].
Proof. reflexivity. Qed.
Lemma G_6 v0 v1 v2 v3 v4 v5 v6 v7 v8 v9 v10 v11 v12 v13 v14 v15 x y :
  Rfc.G [v0; v1; v2; v3; v4; v5; v6; v7; v8; v9; v10; v11; v12; v13; v14; v15] 2 7 8 13 x y
  = let '(a, b, c, d) := Rfc_quarter v2 v7 v8 v13 x y in [v0; v1; a; v3; v4; v5; v6; b; c; v9; v10; v11; v12; d; v14; v15].
Proof. reflexivity. Qed.
Lemma G_7 v0 v1 v2 v3 v4 v5 v6 v7 v8 v9 v10 v11 v12 v13 v14 v15 x y :
  Rfc.G [v0; v1; v2; v3; v4; v5; v6; v7; v8; v9; v10; v11; v12; v13; v14; v15] 3 4 9 14 x y
  = let '(a, b, c, d) := Rfc_quarter v3 v4 v9 v14 x y in [v0; v1; v2; a; b; v5; v6; v7; v8; c; v10; v11; v12; v13; d; v15].
Proof. reflexivity. Qed.

Lemma round_mix (m : list Z) (s : list nat) v :
  words (round (λ j, m !!! (((λ j, s !!! j) <$> reading) !!! Z.to_nat j)) v) = Rfc.mix m s (words v).
Proof.
  rewrite round_eq. unfold Rfc.mix. cbv zeta. set (x := λ j : nat, m !!! (s !!! j)).
  change (m !!! (s !!! ?j)) with (x j).
  destruct v as [v0 v1 v2 v3 v4 v5 v6 v7 v8 v9 v10 v11 v12 v13 v14 v15]. unfold round_quarters. cbn [words]. rewrite !quarter_Rfc.
  rewrite G_0. destruct (Rfc_quarter _ _ _ _ _ _) as [[[? ?] ?] ?]. rewrite ?quarter_Rfc.
  rewrite G_1. destruct (Rfc_quarter _ _ _ _ _ _) as [[[? ?] ?] ?]. rewrite ?quarter_Rfc.
  rewrite G_2. destruct (Rfc_quarter _ _ _ _ _ _) as [[[? ?] ?] ?]. rewrite ?quarter_Rfc.
  rewrite G_3. destruct (Rfc_quarter _ _ _ _ _ _) as [[[? ?] ?] ?]. rewrite ?quarter_Rfc.
  rewrite G_4. destruct (Rfc_quarter _ _ _ _ _ _) as [[[? ?] ?] ?]. rewrite ?quarter_Rfc.
  rewrite G_5. destruct (Rfc_quarter _ _ _ _ _ _) as [[[? ?] ?] ?]. rewrite ?quarter_Rfc.
  rewrite G_6. destruct (Rfc_quarter _ _ _ _ _ _) as [[[? ?] ?] ?]. rewrite ?quarter_Rfc.
  rewrite G_7. destruct (Rfc_quarter _ _ _ _ _ _) as [[[? ?] ?] ?]. rewrite ?quarter_Rfc.
  reflexivity.
Qed.

Lemma rounds_foldl m n : ∀ i v,
  words (rounds_loop n i m v) = foldl (λ v i, Rfc.mix m (Rfc.SIGMA !!! (i mod 10)%nat) v) (words v) (seq i n).
Proof.
  induction n as [|n IH]; intros i v; [done|]. cbn [rounds_loop seq foldl]. rewrite IH, <- round_mix. do 3 f_equal.
  assert (i mod 10 < 10)%nat as Hi by (apply Nat.mod_upper_bound; lia).
  rewrite precomputed_reading, (list_lookup_total_fmap (A := list nat) _ Rfc.SIGMA) by (change (length Rfc.SIGMA) with 10%nat; lia). done.
Qed.

(** The two words that hold a counter. *)
Definition counts (c0 c1 t : Z) : Prop := c0 = t mod 2 ^ 64 ∧ c1 = (t / 2 ^ 64) mod 2 ^ 64.
Definition flag_of (final : bool) : Z := if final then 0xFFFFFFFFFFFFFFFF else 0.

Lemma fGeneric_Rfc h m c0 c1 t final rounds :
  length h = 8%nat → counts c0 c1 t → fGeneric h m c0 c1 (flag_of final) rounds = Rfc.compress h m t final rounds.
Proof.
  intros Hl [-> ->]. do 8 (destruct h as [|? h]; [done|]). destruct h; [|done].
  unfold fGeneric, Rfc.compress. cbv zeta.
  set (v := mkVars _ _ _ _ _ _ _ _ _ _ _ _ _ _ _ _).
  assert (words v = let v := [z; z0; z1; z2; z3; z4; z5; z6] ++ iv in
    let v := <[12%nat := Z.lxor (v !!! 12%nat) (t mod 2 ^ 64)]> v in
    let v := <[13%nat := Z.lxor (v !!! 13%nat) ((t / 2 ^ 64) mod 2 ^ 64)]> v in
    if final then <[14%nat := Z.lxor (v !!! 14%nat) (2 ^ 64 - 1)]> v else v) as Hv.
  { subst v. destruct final; cbn -[Z.lxor Z.pow Z.div Z.modulo]; rewrite ?Z.lxor_0_r; reflexivity. }
  cbv zeta in Hv. rewrite <- Hv, <- (rounds_foldl m rounds 0 v). destruct (rounds_loop rounds 0 m v).
  cbn -[Z.lxor]. by rewrite !Z.lxor_assoc.
Qed.

(** The unrolled compression function, with its own order of the message words, is the
    function F of RFC 7693, for every number of rounds. *)
Theorem F_is_rfc (h m : list Z) (c0 c1 : Z) (final : bool) (rounds : Z) :
  length h = 8%nat → u64_ok c0 → u64_ok c1 →
  F h m [c0; c1] final rounds = Rfc.compress h m (c0 + 2 ^ 64 * c1) final (Z.to_nat rounds).
Proof.
  intros Hl H0 H1. unfold F. apply fGeneric_Rfc; [done|]. unfold u64_ok in *. cbn [lookup_total list_lookup_total]. split.
  - by rewrite (Z.mul_comm (2 ^ 64)), Z.mod_add, Z.mod_small by lia.
  - by rewrite (Z.mul_comm (2 ^ 64)), Z.div_add, (Z.div_small c0), Z.mod_small by lia.
Qed.

(** ** Sums and digests (blake2b.go) *)

Definition BlockSize : nat := 128.
Arguments BlockSize : simpl never.
Definition Size : Z := 64.

Fixpoint le_words (n : nat) (l : list byte) : list Z :=
  match n with O => [] | S n => le_Uint64 (take 8 l) :: le_words n (drop 8 l) end.

Fixpoint blocks_loop (n : nat) (h : list Z) (c0 c1 flag : Z) (blocks : list byte) : list Z * (Z * Z) :=
  match n with
  | O => (h, (c0, c1))
  | S n =>
      let c0 := (c0 + 128)%u64 in
      let c1 := if c0 <? 128 then (c1 + 1)%u64 else c1 in
      blocks_loop n (fGeneric h (le_words 16 blocks) c0 c1 flag 12) c0 c1 flag (drop BlockSize blocks)
  end.
(** The input is read in words up to its end; what is left of a block panics. *)
Definition hashBlocks (h : list Z) (c : Z * Z) (flag : Z) (blocks : list byte) : res (list Z * (Z * Z)) :=
  if (length blocks mod BlockSize =? 0)%nat then Ok (blocks_loop (length blocks / BlockSize) h c.1 c.2 flag blocks)
  else Panic "index out of range".

Record digest := mkDigest {
  d_h : list Z; d_c : Z * Z; d_size : Z;
  d_block : list byte; d_offset : nat;
  d_key : list byte; d_keyLen : Z;
}.

(** [copy(dst[off:], src)] *)
Definition copy_at (dst : list byte) (off : nat) (src : list byte) : list byte :=
  let src := take (length dst - off) src in take off dst ++ src ++ drop (off + length src) dst.

(** [iv] with the parameters in its first word. *)
Definition init_h (size keyLen : Z) : list Z :=
  <[0%nat := Z.lxor (iv !!! 0%nat) (Z.lor (Z.lor (Z.lor size (keyLen ≪ 8)) (1 ≪ 16)) (1 ≪ 24))]> iv.

Definition Reset (d : digest) : digest :=
  let h := init_h (d_size d) (d_keyLen d) in
  if 0 <? d_keyLen d then mkDigest h (0, 0) (d_size d) (d_key d) BlockSize (d_key d) (d_keyLen d)
  else mkDigest h (0, 0) (d_size d) (d_block d) 0 (d_key d) (d_keyLen d).

Inductive blake_error := errHashSize | errKeySize | errMarshalMAC | errStateIdentifier | errStateSize.

Definition newDigest (hashSize : Z) (key : list byte) : blake_error + digest :=
  if (hashSize <? 1) || (Size <? hashSize) then inl errHashSize
  else if Size <? Z.of_nat (length key) then inl errKeySize
  else
    let zero := replicate BlockSize 0 in
    inr (Reset (mkDigest (replicate 8 0) (0, 0) hashSize zero 0 (copy_at zero 0 key) (Z.of_nat (length key)))).

(** The blocks that are hashed now: all but the last, full or not. *)
Definition whole_blocks (length : nat) : nat :=
  let nn := (length - length mod BlockSize)%nat in if (length =? nn)%nat then (nn - BlockSize)%nat else nn.

(** [if length := len(p); length > BlockSize { .. }], in [Write] and in [checkSum]. *)
Definition hash_front (h : list Z) (c : Z * Z) (p : list byte) : res (list Z * (Z * Z) * list byte) :=
  if (BlockSize <? length p)%nat then
    let nn := whole_blocks (length p) in
    '(h, c) ← hashBlocks h c 0 (take nn p); Ok (h, c, drop nn p)
  else Ok (h, c, p).

(** The part of [Write] that follows when nothing is buffered. *)
Definition write_rest (d : digest) (p : list byte) : res digest :=
  '(h, c, p) ← hash_front (d_h d) (d_c d) p;
  Ok (if (0 <? length p)%nat
      then mkDigest h c (d_size d) (copy_at (d_block d) 0 p) (d_offset d + Nat.min BlockSize (length p)) (d_key d) (d_keyLen d)
      else mkDigest h c (d_size d) (d_block d) (d_offset d) (d_key d) (d_keyLen d)).

Definition Write (d : digest) (p : list byte) : res digest :=
  if (0 <? d_offset d)%nat then
    let remaining := (BlockSize - d_offset d)%nat in
    if (length p <=? remaining)%nat then
      Ok (mkDigest (d_h d) (d_c d) (d_size d) (copy_at (d_block d) (d_offset d) p)
            (d_offset d + Nat.min (length p) remaining) (d_key d) (d_keyLen d))
    else
      let block := copy_at (d_block d) (d_offset d) (take remaining p) in
      '(h, c) ← hashBlocks (d_h d) (d_c d) 0 block;
      write_rest (mkDigest h c (d_size d) block 0 (d_key d) (d_keyLen d)) (drop remaining p)
  else write_rest d p.

(** The counter without what is missing in the last block. *)
Definition sub_remaining (c : Z * Z) (remaining : Z) : Z * Z :=
  ((c.1 - remaining)%u64, if c.1 <? remaining then (c.2 - 1)%u64 else c.2).

Definition finalize (d : digest) : res (list byte) :=
  let block := copy_at (replicate BlockSize 0) 0 (take (d_offset d) (d_block d)) in
  let remaining := Z.of_nat (BlockSize - d_offset d) in
  '(h, _) ← hashBlocks (d_h d) (sub_remaining (d_c d) remaining) 0xFFFFFFFFFFFFFFFF block;
  Ok (h ≫= le_PutUint64).

Definition Sum (d : digest) (sum : list byte) : res (list byte) :=
  hash ← finalize d; Ok (sum ++ take (Z.to_nat (d_size d)) hash).

(** The first [(hashSize+7)/8] words of the result; the others stay zero. *)
Definition checkSum (hashSize : Z) (data : list byte) : res (list byte) :=
  '(h, c, data) ← hash_front (init_h hashSize 0) (0, 0) data;
  let block := copy_at (replicate BlockSize 0) 0 data in
  let remaining := Z.of_nat (BlockSize - Nat.min BlockSize (length data)) in
  '(h, _) ← hashBlocks h (sub_remaining c remaining) 0xFFFFFFFFFFFFFFFF block;
  Ok (copy_at (replicate (Z.to_nat Size) 0) 0 (take (Z.to_nat ((hashSize + 7) / 8)) h ≫= le_PutUint64)).

Definition Sum512 (data : list byte) : res (list byte) := checkSum 64 data.
Definition Sum384 (data : list byte) : res (list byte) := sum ← checkSum 48 data; Ok (take 48 sum).
Definition Sum256 (data : list byte) : res (list byte) := sum ← checkSum 32 data; Ok (take 32 sum).

(** RFC 7693, appendix A: the hash of "abc". *)
Example blake2b_abc :
  Sum512 [0x61; 0x62; 0x63] = Ok (be_bytes 64 0xba80a53f981c4d0d6a2797b69f12f6e94c212f14685ac4b74b12bb6fdbffa2d17d87c5392aab792dc252d5de4533cc9518d38aa8dbf1925ab92386edd4009923).
Proof. vm_compute. reflexivity. Qed.

(** ** The hash of RFC 7693 *)

Definition pad (l : list byte) : list byte := l ++ replicate (BlockSize - length l) 0.

(** Section 3.3: all blocks but the last, and the last one padded; [t] bytes were before. *)
Fixpoint absorb (n : nat) (h : list Z) (t : Z) (d : list byte) : list Z :=
  match n with
  | O => h
  | S n => absorb n (Rfc.compress h (le_words 16 d) (t + 128) false 12) (t + 128) (drop BlockSize d)
  end.
Definition last_block (h : list Z) (t : Z) (d : list byte) : list Z :=
  Rfc.compress h (le_words 16 (pad d)) (t + Z.of_nat (length d)) true 12.
Definition rfc_blake2b (nn : Z) (key data : list byte) : list byte :=
  let kk := Z.of_nat (length key) in
  let h := <[0%nat := Z.lxor (Z.lxor (Z.lxor (iv !!! 0%nat) 0x01010000) (kk ≪ 8)) nn]> iv in
  let d := (match key with [] => [] | _ => pad key end) ++ data in
  let dd := ((length d - 1) / BlockSize)%nat in
  let h := absorb dd h 0 d in
  take (Z.to_nat nn) (last_block h (128 * Z.of_nat dd) (drop (BlockSize * dd) d) ≫= le_PutUint64).

(** ** Counters and blocks *)

Lemma counts_add c0 c1 t :
  counts c0 c1 t →
  counts (c0 + 128)%u64 (if (c0 + 128)%u64 <? 128 then (c1 + 1)%u64 else c1) (t + 128).
Proof.
  intros [-> ->]. unfold counts, u64. rewrite Zplus_mod_idemp_l. split; [done|].
  pose proof (Z.div_mod t (2 ^ 64) ltac:(lia)) as Et. pose proof (Z.mod_pos_bound t (2 ^ 64) ltac:(lia)) as Hb.
  set (q := t / 2 ^ 64) in *. set (r := t mod 2 ^ 64) in *.
  assert (∀ k, 0 <= r + 128 - k * 2 ^ 64 < 2 ^ 64 → (t + 128) mod 2 ^ 64 = r + 128 - k * 2 ^ 64 ∧ (t + 128) / 2 ^ 64 = q + k) as Hk.
  { intros k Hk. split; symmetry; [apply Z.mod_unique with (q + k)|apply Z.div_unique with (r + 128 - k * 2 ^ 64)]; lia. }
  destruct (decide (r + 128 < 2 ^ 64)) as [Hs|Hs].
  - destruct (Hk 0) as [-> ->]; [lia|]. rewrite (proj2 (Z.ltb_ge _ _)) by lia. by rewrite Z.add_0_r.
  - destruct (Hk 1) as [-> ->]; [lia|]. rewrite (proj2 (Z.ltb_lt _ _)) by lia. by rewrite Zplus_mod_idemp_l.
Qed.

Lemma counts_sub c0 c1 t k :
  0 <= k < 2 ^ 64 → counts c0 c1 t →
  counts (c0 - k)%u64 (if c0 <? k then (c1 - 1)%u64 else c1) (t - k).
Proof.
  intros Hk [-> ->]. unfold counts, u64. rewrite Zminus_mod_idemp_l. split; [done|].
  pose proof (Z.div_mod t (2 ^ 64) ltac:(lia)) as Et. pose proof (Z.mod_pos_bound t (2 ^ 64) ltac:(lia)) as Hb.
  set (q := t / 2 ^ 64) in *. set (r := t mod 2 ^ 64) in *.
  destruct (Z.ltb_spec r k).
  - rewrite Zminus_mod_idemp_l. f_equal. apply Z.div_unique with (r - k + 2 ^ 64); lia.
  - f_equal. apply Z.div_unique with (r - k); lia.
Qed.

Lemma Rfc_F_length h m t final rounds : length (Rfc.compress h m t final rounds) = 8%nat.
Proof. reflexivity. Qed.

#[local] Opaque Rfc.compress fGeneric.

Lemma le_words_app n l k : length l = (8 * n)%nat → le_words n (l ++ k) = le_words n l.
Proof.
  revert l. induction n as [|n IH]; intros l Hl; [done|]. cbn [le_words].
  rewrite take_app_le, drop_app_le by lia. f_equal. apply IH. rewrite length_drop. lia.
Qed.

Lemma absorb_app n h t l k : length l = (BlockSize * n)%nat → absorb n h t (l ++ k) = absorb n h t l.
Proof.
  unfold BlockSize. revert h t l. induction n as [|n IH]; intros h t l Hl; [done|]. cbn [absorb].
  rewrite <- (take_drop 128 l), <- app_assoc, !le_words_app by (rewrite length_take; lia).
  unfold BlockSize. rewrite !drop_app_length' by (rewrite length_take; lia). apply IH. rewrite length_drop. lia.
Qed.

Lemma absorb_add n m h t d :
  absorb (n + m) h t d = absorb m (absorb n h t d) (t + 128 * Z.of_nat n) (drop (BlockSize * n) d).
Proof.
  revert h t d. induction n as [|n IH]; intros h t d; cbn [Nat.add absorb].
  - by rewrite Nat.mul_0_r, drop_0, Z.mul_0_r, Z.add_0_r.
  - rewrite IH, drop_drop. f_equal; [lia|]. f_equal. lia.
Qed.

Lemma absorb_length n h t d : length h = 8%nat → length (absorb n h t d) = 8%nat.
Proof. revert h t d. induction n as [|n IH]; intros h t d Hl; cbn [absorb]; [exact Hl|]. apply IH, Rfc_F_length. Qed.

(** Hashing blocks that are not the last. *)
Lemma hashBlocks_absorb n h c t d :
  length d = (BlockSize * n)%nat → length h = 8%nat → counts c.1 c.2 t →
  ∃ c', hashBlocks h c 0 d = Ok (absorb n h t d, c') ∧ counts c'.1 c'.2 (t + 128 * Z.of_nat n).
Proof.
  intros Hl Hh Hc. unfold hashBlocks. rewrite Hl, Nat.mul_comm, Nat.Div0.mod_mul, Nat.div_mul by done. cbn [Nat.eqb].
  clear Hl. destruct c as [c0 c1]. cbn [fst snd] in *. revert h c0 c1 t d Hh Hc.
  induction n as [|n IH]; intros h c0 c1 t d Hh Hc; cbn [blocks_loop absorb].
  - exists (c0, c1). split; [done|]. by replace (t + 128 * Z.of_nat 0) with t by lia.
  - apply counts_add in Hc. cbv zeta.
    change 0 with (flag_of false) at 1. rewrite (fGeneric_Rfc h _ _ _ (t + 128) false 12 Hh Hc).
    destruct (IH (Rfc.compress h (le_words 16 d) (t + 128) false 12) _ _ (t + 128) (drop BlockSize d) (Rfc_F_length _ _ _ _ _) Hc) as (c' & E & Hc').
    exists c'. split; [exact E|]. replace (t + 128 * Z.of_nat (S n)) with (t + 128 + 128 * Z.of_nat n) by lia. done.
Qed.

(** Hashing the last one: [l] is what it holds. *)
Lemma hashBlocks_last h c t l :
  (length l <= BlockSize)%nat → length h = 8%nat → counts c.1 c.2 t →
  ∃ c', hashBlocks h (sub_remaining c (Z.of_nat (BlockSize - length l))) 0xFFFFFFFFFFFFFFFF (pad l)
        = Ok (last_block h t l, c').
Proof.
  unfold BlockSize. intros Hl Hh Hc. unfold hashBlocks.
  assert (length (pad l) = 128%nat) as -> by (unfold pad, BlockSize; rewrite length_app, length_replicate; lia).
  unfold BlockSize, sub_remaining. cbn [fst snd].
  apply (counts_sub c.1 c.2 t (Z.of_nat (128 - length l))) in Hc; [|lia]. apply counts_add in Hc.
  eexists. change (128 mod 128 =? 0)%nat with true. change (128 / 128)%nat with 1%nat. cbn [blocks_loop]. cbv zeta.
  change 0xFFFFFFFFFFFFFFFF with (flag_of true). rewrite (fGeneric_Rfc h _ _ _ _ true 12 Hh Hc). unfold last_block.
  replace (t - Z.of_nat (128 - length l) + 128) with (t + Z.of_nat (length l)) by lia. reflexivity.
Qed.

(** ** The digest holds what was written *)

Lemma copy_at_spec (dst src : list byte) off :
  (off + length src <= length dst)%nat →
  take (off + length src) (copy_at dst off src) = take off dst ++ src ∧ length (copy_at dst off src) = length dst.
Proof.
  intros Hl. unfold copy_at. rewrite (take_ge src) by lia. rewrite app_assoc. split.
  - rewrite take_app_length'; [done|]. rewrite length_app, length_take. lia.
  - rewrite !length_app, length_take, length_drop. lia.
Qed.

Lemma copy_at_pad l : (length l <= BlockSize)%nat → copy_at (replicate BlockSize 0) 0 l = pad l.
Proof.
  intros Hl. unfold copy_at, pad. rewrite length_replicate, Nat.sub_0_r, (take_ge l) by done. cbn [take app Nat.add].
  by rewrite drop_replicate.
Qed.

(** [P] was written after the initial state [h0]: the blocks [don] are hashed, [pend] is
    in the buffer; the last block stays there until more comes. *)
Record holds (h0 : list Z) (d : digest) (n : nat) (don pend : list byte) : Prop := {
  ho_don : length don = (BlockSize * n)%nat;
  ho_h : d_h d = absorb n h0 0 don;
  ho_c : counts (d_c d).1 (d_c d).2 (128 * Z.of_nat n);
  ho_offset : d_offset d = length pend;
  ho_pend : take (length pend) (d_block d) = pend;
  ho_block : length (d_block d) = BlockSize;
  ho_le : (length pend <= BlockSize)%nat;
  ho_last : pend = [] → don = [];
}.
Definition holds_input (h0 : list Z) (d : digest) (P : list byte) : Prop :=
  ∃ n don pend, holds h0 d n don pend ∧ P = don ++ pend.

Section writes.
Context (h0 : list Z) (Hh0 : length h0 = 8%nat).

Lemma hash_more n don l h c k :
  length don = (BlockSize * n)%nat → h = absorb n h0 0 don → counts c.1 c.2 (128 * Z.of_nat n) →
  length l = (BlockSize * k)%nat →
  ∃ c', hashBlocks h c 0 l = Ok (absorb (n + k) h0 0 (don ++ l), c') ∧ counts c'.1 c'.2 (128 * Z.of_nat (n + k)).
Proof.
  intros Hd -> Hc Hl. destruct (hashBlocks_absorb k (absorb n h0 0 don) c (128 * Z.of_nat n) l Hl) as (c' & -> & Hc').
  - by apply absorb_length.
  - done.
  - exists c'. rewrite absorb_add, absorb_app, drop_app_length' by done. split; [do 3 f_equal; lia|].
    by replace (128 * Z.of_nat (n + k)) with (128 * Z.of_nat n + 128 * Z.of_nat k) by lia.
Qed.

Lemma whole_blocks_spec len :
  (BlockSize < len)%nat → ∃ k, whole_blocks len = (BlockSize * k)%nat ∧ (BlockSize * k < len <= BlockSize * k + BlockSize)%nat.
Proof.
  unfold whole_blocks, BlockSize. intros Hl. pose proof (Nat.div_mod_eq len 128) as E. pose proof (Nat.mod_upper_bound len 128 ltac:(lia)) as Hb.
  destruct (Nat.eqb_spec len (len - len mod 128)).
  - exists (len / 128 - 1)%nat. lia.
  - exists (len / 128)%nat. lia.
Qed.

(** The blocks [don] are hashed. *)
Definition hashed (h : list Z) (c : Z * Z) (n : nat) (don : list byte) : Prop :=
  length don = (BlockSize * n)%nat ∧ h = absorb n h0 0 don ∧ counts c.1 c.2 (128 * Z.of_nat n).

Lemma hash_front_spec h c n don p :
  hashed h c n don → (p = [] → don = []) →
  ∃ h' c' m don' q, hash_front h c p = Ok (h', c', q) ∧ hashed h' c' m don' ∧ (length q <= BlockSize)%nat ∧
    (q = [] → don' = []) ∧ don' ++ q = don ++ p.
Proof.
  intros (Hdon & Hh & Hc) Hp. unfold hash_front. destruct (Nat.ltb_spec BlockSize (length p)) as [Hl|Hl].
  2: { exists h, c, n, don, p. by split_and!. }
  destruct (whole_blocks_spec (length p) Hl) as (k & -> & Hk).
  destruct (hash_more n don (take (BlockSize * k) p) h c k Hdon Hh Hc) as (c' & -> & Hc'); [rewrite length_take; lia|].
  cbn [mbind res_bind]. eexists _, _, _, (don ++ take (BlockSize * k) p), _. split; [done|].
  split; [split; [|split; [reflexivity|exact Hc']]; rewrite length_app, length_take; lia|].
  split; [rewrite length_drop; lia|]. split; [|by rewrite <- app_assoc, take_drop].
  intros E. apply (f_equal length) in E. rewrite length_drop in E. cbn [length] in E. lia.
Qed.

Lemma write_rest_holds d n don p :
  hashed (d_h d) (d_c d) n don → length (d_block d) = BlockSize → d_offset d = 0%nat → (p = [] → don = []) →
  ∃ d', write_rest d p = Ok d' ∧ holds_input h0 d' (don ++ p) ∧ d_size d' = d_size d.
Proof.
  intros Hd Hb Ho Hp. destruct (hash_front_spec _ _ _ _ p Hd Hp) as (h & c & m & don' & q & E & (H1 & H2 & H3) & Hq & Hlast & <-).
  unfold write_rest. rewrite E. cbn [mbind res_bind]. eexists. split; [done|]. rewrite Ho.
  destruct (Nat.ltb_spec 0 (length q)) as [Hpos|Hz]; (split; [|done]); exists m, don', q; (split; [|done]).
  - destruct (copy_at_spec (d_block d) q 0) as [E1 E2]; [rewrite Hb; lia|].
    split; cbn [d_h d_c d_offset d_block]; try done; [lia|by rewrite E2].
  - assert (q = []) as -> by (destruct q; [done|cbn in Hz; lia]). split; cbn; done.
Qed.

Lemma Write_holds d P p :
  holds_input h0 d P → ∃ d', Write d p = Ok d' ∧ holds_input h0 d' (P ++ p) ∧ d_size d' = d_size d.
Proof.
  intros (n & don & pend & Hd & ->). pose proof Hd as [Hdon Hh Hc Ho Hpe Hb Hle Hlast]. unfold Write. rewrite Ho.
  destruct (Nat.ltb_spec 0 (length pend)) as [Hpos|Hz].
  2: { assert (pend = []) as -> by (destruct pend; [done|cbn in Hz; lia]). rewrite app_nil_r. by eapply write_rest_holds; [|..|auto]. }
  destruct (Nat.leb_spec (length p) (BlockSize - length pend)) as [Hs|Hs].
  - eexists. split; [done|]. split; [|done]. exists n, don, (pend ++ p). split; [|by rewrite app_assoc].
    destruct (copy_at_spec (d_block d) p (length pend)) as [E1 E2]; [lia|]. split; cbn [d_h d_c d_offset d_block]; rewrite ?length_app; try done; try lia.
    + by rewrite E1, Hpe.
    + intros E. destruct pend; [cbn in Hpos; lia|done].
  - set (rem := (BlockSize - length pend)%nat) in *. assert (length (take rem p) = rem) as Hr by (rewrite length_take; lia).
    destruct (copy_at_spec (d_block d) (take rem p) (length pend)) as [E1 E2]; [lia|].
    rewrite take_ge, Hpe in E1 by lia. rewrite E1.
    destruct (hash_more n don (pend ++ take rem p) (d_h d) (d_c d) 1) as (c' & -> & Hc'); [done|done|done|rewrite length_app; lia|].
    cbn [mbind res_bind].
    destruct (write_rest_holds (mkDigest (absorb (n + 1) h0 0 (don ++ pend ++ take rem p)) c' (d_size d) (pend ++ take rem p) 0 (d_key d) (d_keyLen d))
      (n + 1) (don ++ pend ++ take rem p) (drop rem p)) as (d' & E & Hin & Hsz).
    { cbn. split; [rewrite !length_app; lia|done]. }
    { cbn. rewrite length_app. lia. }
    { done. }
    { intros En. apply (f_equal length) in En. rewrite length_drop in En. cbn [length] in En. lia. }
    exists d'. split; [exact E|]. split; [|done]. by rewrite <- !app_assoc, take_drop in Hin; rewrite <- app_assoc.
Qed.

(** The final state depends on the input only. *)
Lemma finalize_holds d P :
  holds_input h0 d P →
  let dd := ((length P - 1) / BlockSize)%nat in
  finalize d = Ok (last_block (absorb dd h0 0 P) (128 * Z.of_nat dd) (drop (BlockSize * dd) P) ≫= le_PutUint64).
Proof.
  intros (n & don & pend & [Hdon Hh Hc Ho Hpe Hb Hle Hlast] & ->). cbv zeta.
  assert ((length (don ++ pend) - 1) / BlockSize = n)%nat as ->.
  { rewrite length_app, Hdon. destruct pend as [|b pend].
    - rewrite (Hlast eq_refl) in Hdon. cbn in Hdon. unfold BlockSize in *. assert (n = 0)%nat as -> by lia. done.
    - symmetry. unfold BlockSize in *. apply (Nat.div_unique _ 128 n (length pend)); cbn [length] in *; lia. }
  rewrite absorb_app, drop_app_length' by done. unfold finalize. rewrite Ho, Hpe, copy_at_pad, Hh by done.
  destruct (hashBlocks_last (absorb n h0 0 don) (d_c d) (128 * Z.of_nat n) pend Hle) as (c' & ->); [by apply absorb_length|done|]. done.
Qed.

Fixpoint writes (d : digest) (chunks : list (list byte)) : res digest :=
  match chunks with [] => Ok d | p :: chunks => d ← Write d p; writes d chunks end.

Lemma writes_hold chunks : ∀ d P,
  holds_input h0 d P → ∃ d', writes d chunks = Ok d' ∧ holds_input h0 d' (P ++ mjoin chunks) ∧ d_size d' = d_size d.
Proof.
  induction chunks as [|p chunks IH]; intros d P Hd; cbn [writes].
  - exists d. cbn. by rewrite app_nil_r.
  - destruct (Write_holds d P p Hd) as (d1 & -> & Hd1 & Hs1). destruct (IH d1 _ Hd1) as (d' & E & Hd' & Hs').
    exists d'. split; [exact E|]. split; [|congruence]. cbn. by rewrite app_assoc.
Qed.
End writes.

(** ** The digest and the sums are those of the RFC *)

Lemma init_h_rfc nn kk :
  0 <= nn <= 64 → 0 <= kk <= 64 →
  init_h nn kk = <[0%nat := Z.lxor (Z.lxor (Z.lxor (iv !!! 0%nat) 0x01010000) (kk ≪ 8)) nn]> iv.
Proof.
  intros Hn Hk. unfold init_h. f_equal. rewrite !Z.lxor_assoc. f_equal.
  assert (forallb (λ i, forallb (λ j, Z.lor (Z.lor (Z.lor (Z.of_nat i) (Z.of_nat j ≪ 8)) (1 ≪ 16)) (1 ≪ 24)
    =? Z.lxor 0x01010000 (Z.lxor (Z.of_nat j ≪ 8) (Z.of_nat i))) (seq 0 65)) (seq 0 65) = true) as Hall by (vm_compute; reflexivity).
  rewrite forallb_forall in Hall. specialize (Hall (Z.to_nat nn)). rewrite in_seq, forallb_forall in Hall.
  specialize (Hall ltac:(lia) (Z.to_nat kk)). rewrite in_seq, !Z2Nat.id in Hall by lia. apply Z.eqb_eq, Hall. lia.
Qed.

Lemma pad_length l : (length l <= BlockSize)%nat → length (pad l) = BlockSize.
Proof. intros Hl. unfold pad. rewrite length_app, length_replicate. lia. Qed.

Lemma init_h_length nn kk : length (init_h nn kk) = 8%nat.
Proof. reflexivity. Qed.

(** The key comes first, in a block of its own. *)
Definition key_block (key : list byte) : list byte := match key with [] => [] | _ => pad key end.

Lemma newDigest_holds size key :
  1 <= size <= 64 → Z.of_nat (length key) <= 64 →
  ∃ d, newDigest size key = inr d ∧ holds_input (init_h size (Z.of_nat (length key))) d (key_block key) ∧ d_size d = size.
Proof.
  intros Hs Hk. unfold newDigest, Size. rewrite (proj2 (Z.ltb_ge _ _)), !(proj2 (Z.ltb_ge _ _)) by lia. cbn [orb].
  eexists. split; [done|]. unfold Reset. cbn [d_size d_keyLen d_key d_block]. rewrite copy_at_pad by (unfold BlockSize; lia).
  assert (counts 0 0 (128 * Z.of_nat 0)) as Hc by done. destruct key as [|b key]; cbn [key_block].
  - split; [|done]. exists 0%nat, [], []. split; [|done]. split; cbn; try done. lia.
  - rewrite (proj2 (Z.ltb_lt _ _)) by (cbn [length]; lia). split; [|done]. exists 0%nat, [], (pad (b :: key)). split; [|done].
    assert (length (pad (b :: key)) = BlockSize) as Hl by (apply pad_length; unfold BlockSize; lia).
    split; cbn [d_h d_c d_offset d_block fst snd]; rewrite ?Hl; try done. by rewrite take_ge by lia.
Qed.

(** C25: the streaming digest computes the hash of RFC 7693 with a key, whatever the sizes of
    the writes its input is cut into; nothing panics, and [Sum] appends the hash to its
    argument. *)
Theorem digest_is_rfc (size : Z) (key : list byte) (chunks : list (list byte)) (b : list byte) :
  1 <= size <= 64 → Z.of_nat (length key) <= 64 →
  ∃ d d', newDigest size key = inr d ∧ writes d chunks = Ok d' ∧
    Sum d' b = Ok (b ++ rfc_blake2b size key (mjoin chunks)).
Proof.
  intros Hs Hk. destruct (newDigest_holds size key Hs Hk) as (d & E & Hd & Hsz).
  destruct (writes_hold _ (init_h_length _ _) chunks d _ Hd) as (d' & Ew & Hd' & Hsz'). exists d, d'. split_and!; [done|done|].
  unfold Sum. rewrite (finalize_holds _ (init_h_length _ _) d' _ Hd'). cbn [mbind res_bind]. rewrite Hsz', Hsz.
  rewrite init_h_rfc by lia. reflexivity.
Qed.

Lemma le_words_bytes (h : list Z) k : take (8 * k) (h ≫= le_PutUint64) = take k h ≫= le_PutUint64.
Proof.
  revert k. induction h as [|x h IH]; intros [|k]; [done..|]. cbn [mbind list_bind take]. 
  assert (length (le_PutUint64 x) = 8%nat) as Hl by (unfold le_PutUint64; by rewrite length_reverse, be_bytes_length).
  rewrite take_app_ge, Hl by lia. f_equal. replace (8 * S k - 8)%nat with (8 * k)%nat by lia. apply IH.
Qed.

Lemma le_bytes_length (h : list Z) : length (h ≫= le_PutUint64) = (8 * length h)%nat.
Proof.
  induction h as [|x h IH]; [done|]. cbn [mbind list_bind length]. rewrite length_app, IH. unfold le_PutUint64.
  rewrite length_reverse, be_bytes_length. lia.
Qed.

(** What the three sums take of the buffer. *)
Lemma sum_bytes (h : list Z) size :
  length h = 8%nat → size = 64 ∨ size = 48 ∨ size = 32 →
  take (Z.to_nat size) (copy_at (replicate (Z.to_nat Size) 0) 0 (take (Z.to_nat ((size + 7) / 8)) h ≫= le_PutUint64))
  = take (Z.to_nat size) (h ≫= le_PutUint64).
Proof.
  intros Hh Hs. rewrite <- le_words_bytes. set (X := h ≫= le_PutUint64).
  assert (length X = 64%nat) as Hx by (unfold X; rewrite le_bytes_length; lia).
  set (k := (8 * Z.to_nat ((size + 7) / 8))%nat). assert (Z.to_nat size = k ∧ (k <= 64)%nat) as [-> Hk]
    by (unfold k; destruct Hs as [->|[->| ->]]; (split; [|apply Nat.leb_le]; vm_compute; reflexivity)).
  destruct (copy_at_spec (replicate (Z.to_nat Size) 0) (take k X) 0) as [E _].
  { rewrite length_replicate, length_take. change (Z.to_nat Size) with 64%nat. lia. }
  rewrite length_take, Hx, Nat.min_l in E by done. exact E.
Qed.

Lemma Ok_inj {A} (a b : A) : Ok a = Ok b → a = b.
Proof. by injection 1. Qed.

Lemma checkSum_rfc size data :
  size = 64 ∨ size = 48 ∨ size = 32 → (sum ← checkSum size data; Ok (take (Z.to_nat size) sum)) = Ok (rfc_blake2b size [] data).
Proof.
  intros Hs. set (h0 := init_h size 0). assert (length h0 = 8%nat) as Hh0 by done.
  destruct (hash_front_spec h0 Hh0 h0 (0, 0) 0 [] data) as (h & c & m & don & q & E & (H1 & H2 & H3) & Hq & Hlast & Ed);
    [split_and!; [by rewrite Nat.mul_0_r|done|done]|done|]. cbn [app] in Ed.
  assert (holds h0 (mkDigest h c size (pad q) (length q) [] 0) m don q) as Hd.
  { split; cbn [d_h d_c d_offset d_block]; try done; [|by apply pad_length]. unfold pad. by rewrite take_app_length. }
  pose proof (finalize_holds h0 Hh0 _ data (ex_intro _ m (ex_intro _ don (ex_intro _ q (conj Hd (eq_sym Ed)))))) as Hf. cbv zeta in Hf.
  unfold finalize in Hf. cbn [d_offset d_block d_c d_h] in Hf. rewrite (ho_pend _ _ _ _ _ Hd : take (length q) (pad q) = q) in Hf.
  rewrite copy_at_pad in Hf by done. unfold checkSum. fold h0. rewrite E. cbn [mbind res_bind]. rewrite copy_at_pad, Nat.min_r by done.
  destruct (hashBlocks_last h c (128 * Z.of_nat m) q Hq) as (c' & El); [rewrite H2; by apply absorb_length|done|].
  rewrite El in Hf |- *. cbn [mbind res_bind] in Hf |- *. apply Ok_inj in Hf. rewrite sum_bytes; [|apply Rfc_F_length|done].
  rewrite Hf. unfold rfc_blake2b. cbn [app length Z.of_nat]. cbv zeta. rewrite <- init_h_rfc by lia. reflexivity.
Qed.

Lemma checkSum_length size data s : checkSum size data = Ok s → length s = 64%nat.
Proof.
  unfold checkSum. intros (((h & c) & q) & _ & E)%res_bind_Ok. apply res_bind_Ok in E as ([h' c'] & _ & E). apply Ok_inj in E as <-.
  unfold copy_at. cbv zeta. rewrite !length_app, length_drop, !length_take, !length_replicate. change (Z.to_nat Size) with 64%nat. lia.
Qed.

(** The one-shot sums are the hashes of RFC 7693 without a key. *)
Theorem sums_are_rfc (data : list byte) :
  Sum512 data = Ok (rfc_blake2b 64 [] data) ∧ Sum384 data = Ok (rfc_blake2b 48 [] data) ∧
  Sum256 data = Ok (rfc_blake2b 32 [] data).
Proof.
  split_and!; [|apply (checkSum_rfc 48); tauto|apply (checkSum_rfc 32); tauto].
  pose proof (checkSum_rfc 64 data ltac:(tauto)) as E. unfold Sum512. destruct (checkSum 64 data) as [s|] eqn:Es; [|discriminate E].
  cbn [mbind res_bind] in E. by rewrite take_ge in E by (by rewrite (checkSum_length _ _ _ Es)).
Qed.

(** ** The state of a digest as bytes *)

Definition magic : list byte := [0x62; 0x32; 0x62].
Definition marshaledSize : nat := 3 + 8 * 8 + 2 * 8 + 1 + 128 + 1.
Definition appendUint64 (b : list byte) (x : Z) : list byte := b ++ be_bytes 8 x.
Definition consumeUint64 (b : list byte) : list byte * Z := (drop 8 b, be_value (take 8 b)).

Definition MarshalBinary (d : digest) : blake_error + list byte :=
  if negb (d_keyLen d =? 0) then inl errMarshalMAC
  else
    let b := foldl appendUint64 magic (d_h d) in
    let b := appendUint64 b (d_c d).1 in
    let b := appendUint64 b (d_c d).2 in
    inr (b ++ [d_size d mod 256] ++ d_block d ++ [Z.of_nat (d_offset d) mod 256]).

Fixpoint consume_words (n : nat) (b : list byte) : list byte * list Z :=
  match n with
  | O => (b, [])
  | S n => let '(b, x) := consumeUint64 b in let '(b, l) := consume_words n b in (b, x :: l)
  end.
(** Into a digest that keeps its key; the lengths are checked before the reads. *)
Definition UnmarshalBinary (d : digest) (b : list byte) : blake_error + digest :=
  if (length b <? 3)%nat || negb (bool_decide (take 3 b = magic)) then inl errStateIdentifier
  else if negb (length b =? marshaledSize)%nat then inl errStateSize
  else
    let '(b, h) := consume_words 8 (drop 3 b) in
    let '(b, c0) := consumeUint64 b in
    let '(b, c1) := consumeUint64 b in
    let size := default 0 (head b) in
    let b := drop 1 b in
    inr (mkDigest h (c0, c1) size (take BlockSize b) (Z.to_nat (default 0 (head (drop BlockSize b)))) (d_key d) (d_keyLen d)).

(** A digest as the operations leave it. *)
Definition digest_ok (d : digest) : Prop :=
  length (d_h d) = 8%nat ∧ Forall u64_ok (d_h d) ∧ u64_ok (d_c d).1 ∧ u64_ok (d_c d).2 ∧
  1 <= d_size d <= 64 ∧ length (d_block d) = BlockSize ∧ (d_offset d <= BlockSize)%nat.

Lemma consume_append x r : u64_ok x → consumeUint64 (be_bytes 8 x ++ r) = (r, x).
Proof.
  intros Hx. unfold consumeUint64. pose proof (be_bytes_length 8 x) as Hl.
  rewrite (drop_app_length' _ _ 8), (take_app_length' _ _ 8) by done.
  rewrite be_value_be_bytes by apply Hx. by rewrite Z.mod_small by apply Hx.
Qed.

Lemma append_words l b : foldl appendUint64 b l = b ++ (l ≫= be_bytes 8).
Proof.
  revert b. induction l as [|x l IH]; intros b; cbn [foldl mbind list_bind]; [by rewrite app_nil_r|].
  rewrite IH. unfold appendUint64. by rewrite <- app_assoc.
Qed.

Lemma consume_words_append l r : Forall u64_ok l → consume_words (length l) ((l ≫= be_bytes 8) ++ r) = (r, l).
Proof.
  induction 1 as [|x l Hx _ IH]; [done|]. cbn [length consume_words mbind list_bind]. rewrite <- app_assoc, consume_append by done.
  by rewrite IH.
Qed.

Lemma be_words_length (l : list Z) : length (l ≫= be_bytes 8) = (8 * length l)%nat.
Proof. induction l as [|x l IH]; [done|]. cbn [mbind list_bind length]. rewrite length_app, IH, be_bytes_length. lia. Qed.

(** The state of a digest without a key survives [MarshalBinary] and [UnmarshalBinary]. *)
Theorem marshal_roundtrip (d d' : digest) :
  digest_ok d → d_keyLen d = 0 →
  ∃ b, MarshalBinary d = inr b ∧
    UnmarshalBinary d' b = inr (mkDigest (d_h d) (d_c d) (d_size d) (d_block d) (d_offset d) (d_key d') (d_keyLen d')).
Proof.
  intros (Hl & Hh & Hc0 & Hc1 & Hs & Hb & Ho) Hk. unfold MarshalBinary. rewrite Hk. cbn [Z.eqb negb]. eexists. split; [done|].
  rewrite append_words. unfold appendUint64. rewrite <- !app_assoc. unfold UnmarshalBinary, BlockSize in *.
  set (tail := be_bytes 8 (d_c d).1 ++ be_bytes 8 (d_c d).2 ++ [d_size d mod 256] ++ d_block d ++ [Z.of_nat (d_offset d) mod 256]).
  assert (length (magic ++ (d_h d ≫= be_bytes 8) ++ tail) = marshaledSize) as Hlen.
  { unfold tail. rewrite !length_app, be_words_length, !be_bytes_length, Hl, Hb. done. }
  rewrite Hlen. change (marshaledSize <? 3)%nat with false. rewrite Nat.eqb_refl.
  rewrite (take_app_length' magic _ 3), (drop_app_length' magic _ 3) by done. rewrite bool_decide_true by done. cbn [orb negb].
  pose proof (consume_words_append (d_h d) tail Hh) as Ew. rewrite Hl in Ew. rewrite Ew. unfold tail. rewrite consume_append by done. rewrite consume_append by done.
  cbn [app head default from_option id drop]. rewrite !drop_0, (take_app_length' (d_block d)), (drop_app_length' (d_block d)) by done. cbn [head default from_option id].
  rewrite !Z.mod_small, Nat2Z.id by lia. by destruct (d_c d).
Qed.

(** ** Witnesses *)

(** One round on a state of zeroes. *)
Lemma F_is_rfc_witness :
  F (replicate 8 0) (replicate 16 0) [3; 0] true 1
  = Rfc.compress (replicate 8 0) (replicate 16 0) (3 + 2 ^ 64 * 0) true 1.
Proof.
  apply (F_is_rfc (replicate 8 0) (replicate 16 0) 3 0 true 1); [reflexivity|unfold u64_ok; lia|unfold u64_ok; lia].
Defined.

(** The string "abc" in two writes. *)
Lemma digest_is_rfc_witness :
  ∃ d d', newDigest 64 [] = inr d ∧ writes d [[0x61]; [0x62; 0x63]] = Ok d' ∧
    Sum d' [] = Ok (rfc_blake2b 64 [] [0x61; 0x62; 0x63]).
Proof. exact (digest_is_rfc 64 [] [[0x61]; [0x62; 0x63]] [] ltac:(lia) ltac:(cbn; lia)). Defined.

Lemma marshal_roundtrip_witness :
  let d := mkDigest iv (128, 0) 32 (replicate 128 7) 5 [] 0 in
  ∃ b, MarshalBinary d = inr b ∧ UnmarshalBinary d b = inr d.
Proof.
  apply (marshal_roundtrip (mkDigest iv (128, 0) 32 (replicate 128 7) 5 [] 0) (mkDigest iv (128, 0) 32 (replicate 128 7) 5 [] 0)).
  - unfold digest_ok, u64_ok, BlockSize. cbn [d_h d_c d_size d_block d_offset fst snd]. split_and!; try lia; try reflexivity.
    unfold iv. repeat (apply Forall_cons; split; [lia|]). by apply Forall_nil.
  - reflexivity.
Defined.
