(* ===== verification/KeyValue.v ===== *)
(** * Key-value stores (ethdb/memorydb, core/rawdb/table.go)

    The class [KeyValueStore] is the interface of ethdb: reads and writes, iterators in key
    order, batches.  Its laws say what a store does to the map it holds.  The memory
    database is an instance; a table, which puts a prefix before every key, over any
    instance is an instance again and holds the part of the map under its prefix. *)

From S2P Require Import Prelude Bytes.

Abbreviation bytes := (list Z) (only parsing).
Abbreviation contents := (gmap (list Z) (list Z)).

(** ** The order of strings *)

Fixpoint str_lt (a b : bytes) : bool :=
  match a, b with
  | _, [] => false
  | [], _ :: _ => true
  | x :: a, y :: b => (x <? y) || (x =? y) && str_lt a b
  end.

Lemma str_lt_asym a : ∀ b, str_lt a b = true → str_lt b a = false.
Proof.
  induction a as [|x a IH]; intros [|y b]; cbn; try done. specialize (IH b).
  destruct (Z.ltb_spec x y), (Z.ltb_spec y x), (Z.eqb_spec x y), (Z.eqb_spec y x); cbn; try lia; auto.
Qed.
Lemma str_lt_le_trans a : ∀ b c, str_lt a b = false → str_lt b c = false → str_lt a c = false.
Proof.
  induction a as [|x a IH]; intros [|y b] [|z c]; cbn; try done.
  specialize (IH b c). destruct (Z.ltb_spec x y), (Z.ltb_spec y z), (Z.ltb_spec x z), (Z.eqb_spec x y), (Z.eqb_spec y z), (Z.eqb_spec x z);
    cbn; try done; try lia; auto.
Qed.
Lemma str_lt_total a : ∀ b, str_lt a b = false → str_lt b a = false → a = b.
Proof.
  induction a as [|x a IH]; intros [|y b]; cbn; try done. specialize (IH b).
  destruct (Z.ltb_spec x y), (Z.ltb_spec y x), (Z.eqb_spec x y), (Z.eqb_spec y x); cbn; try done; try lia; subst.
  intros H1 H2. f_equal. by apply IH.
Qed.
Lemma str_lt_app p a b : str_lt (p ++ a) (p ++ b) = str_lt a b.
Proof. induction p as [|x p IH]; cbn; [done|]. by rewrite Z.ltb_irrefl, Z.eqb_refl, IH. Qed.

(** [strings.HasPrefix] *)
Definition HasPrefix (s prefix : bytes) : bool := bool_decide (take (length prefix) s = prefix).

Lemma HasPrefix_app s prefix : HasPrefix s prefix = true ↔ ∃ r, s = prefix ++ r.
Proof.
  unfold HasPrefix. rewrite bool_decide_eq_true. split.
  - intros E. exists (drop (length prefix) s). rewrite <- E at 1. by rewrite take_drop.
  - intros [r ->]. by rewrite take_app_length.
Qed.

(** The entries an iterator lists: those of [m] under [prefix], from [prefix ++ start] on,
    in the order of their keys. *)
Definition lists (m : contents) (prefix start : bytes) (l : list (bytes * bytes)) : Prop :=
  StronglySorted (λ a b, str_lt a b = true) l.*1 ∧
  ∀ k v, (k, v) ∈ l ↔ m !! k = Some v ∧ HasPrefix k prefix = true ∧ str_lt k (prefix ++ start) = false.

(** ** The interface *)

Inductive db_error := errClosed | errNotFound | errSnapshotReleased.

(** A write of a batch: [None] deletes the key. *)
Record keyvalue := mkWrite { kv_key : bytes; kv_value : option bytes }.
Definition apply_write (m : contents) (w : keyvalue) : contents :=
  match kv_value w with Some v => <[kv_key w := v]> m | None => delete (kv_key w) m end.

(** What an operation on the contents returns: an error when the store is closed. *)
Definition on_open {A : Type} (m : option contents) (f : contents → db_error + A) : db_error + A :=
  match m with Some m => f m | None => inl errClosed end.

(** Walking an iterator to its end. *)
Fixpoint walk {It : Type} (Next : It → bool * It) (Key Value : It → option bytes) (fuel : nat) (it : It) : list (bytes * bytes) :=
  match fuel with
  | O => []
  | S fuel =>
      let '(more, it) := Next it in
      if more then
        match Key it, Value it with Some k, Some v => (k, v) :: walk Next Key Value fuel it | _, _ => [] end
      else []
  end.

(** The writes of a batch, in their order, until one fails. *)
Fixpoint replay {W : Type} (put : W → bytes → bytes → db_error + W) (del : W → bytes → db_error + W) (l : list keyvalue) (w : W)
  : db_error + W :=
  match l with
  | [] => inr w
  | x :: l =>
      match (match kv_value x with Some v => put w (kv_key x) v | None => del w (kv_key x) end) with
      | inl e => inl e
      | inr w => replay put del l w
      end
  end.

Class KeyValueStore (S It Bt : Type) := {
  db_Has : S → bytes → db_error + bool;
  db_Get : S → bytes → db_error + bytes;
  db_Put : S → bytes → bytes → db_error + S;
  db_Delete : S → bytes → db_error + S;
  db_NewIterator : S → bytes → bytes → It;
  it_Next : It → bool * It;
  it_Key : It → option bytes;
  it_Value : It → option bytes;
  db_NewBatch : Bt;
  b_Put : Bt → bytes → bytes → Bt;
  b_Delete : Bt → bytes → Bt;
  b_Write : Bt → S → db_error + S;
  b_Reset : Bt → Bt;
  b_ValueSize : Bt → Z;
  b_Replay : ∀ {W : Type}, (W → bytes → bytes → db_error + W) → (W → bytes → db_error + W) → Bt → W → db_error + W;
  (* what a store holds, nothing when it is closed, and what a batch has collected *)
  holding : S → option contents;
  collected : Bt → list keyvalue;
  (* a batch that was made by the operations of this store *)
  batch_ok : Bt → Prop;
  Has_law s k : db_Has s k = on_open (holding s) (λ m, inr (bool_decide (is_Some (m !! k))));
  Get_law s k : db_Get s k = on_open (holding s) (λ m, match m !! k with Some v => inr v | None => inl errNotFound end);
  Put_law s k v : sum_map id holding (db_Put s k v) = on_open (holding s) (λ m, inr (Some (<[k := v]> m)));
  Delete_law s k : sum_map id holding (db_Delete s k) = on_open (holding s) (λ m, inr (Some (delete k m)));
  Iterator_law s prefix start :
    let m := default ∅ (holding s) in
    lists m prefix start (walk it_Next it_Key it_Value (Datatypes.S (size m)) (db_NewIterator s prefix start));
  NewBatch_law : batch_ok db_NewBatch ∧ collected db_NewBatch = [];
  Batch_Put_law b k v : batch_ok b → batch_ok (b_Put b k v) ∧ collected (b_Put b k v) = collected b ++ [mkWrite k (Some v)];
  Batch_Delete_law b k : batch_ok b → batch_ok (b_Delete b k) ∧ collected (b_Delete b k) = collected b ++ [mkWrite k None];
  Batch_Reset_law b : batch_ok b → batch_ok (b_Reset b) ∧ collected (b_Reset b) = [];
  Write_law b s : batch_ok b → sum_map id holding (b_Write b s) = on_open (holding s) (λ m, inr (Some (foldl apply_write m (collected b))));
  Replay_law W put del b (w : W) : b_Replay put del b w = replay put del (collected b) w;
}.

(** ** The memory database *)

Section memorydb.
Context `{GoRuntime}.

(** The map is nil once the database is closed. *)
Record Database := mkDatabase { mem : option contents }.
Definition mem_New : Database := mkDatabase (Some ∅).
Definition mem_Close (db : Database) : Database := mkDatabase None.
Definition mem_Has (db : Database) (key : bytes) : db_error + bool :=
  match mem db with None => inl errClosed | Some m => inr (bool_decide (is_Some (m !! key))) end.
Definition mem_Get (db : Database) (key : bytes) : db_error + bytes :=
  match mem db with
  | None => inl errClosed
  | Some m => match m !! key with Some entry => inr entry | None => inl errNotFound end
  end.
Definition mem_Put (db : Database) (key value : bytes) : db_error + Database :=
  match mem db with None => inl errClosed | Some m => inr (mkDatabase (Some (<[key := value]> m))) end.
Definition mem_Delete (db : Database) (key : bytes) : db_error + Database :=
  match mem db with None => inl errClosed | Some m => inr (mkDatabase (Some (delete key m))) end.
Definition mem_Len (db : Database) : Z := Z.of_nat (size (default ∅ (mem db))).

Record iterator := mkIterator { index : Z; keys : list bytes; values : list bytes }.
Definition mem_NewIterator (db : Database) (prefix start : bytes) : iterator :=
  let m := default ∅ (mem db) in
  let st := prefix ++ start in
  let found := filter (λ key, HasPrefix key prefix && negb (str_lt key st) = true) (range_map m).*1 in
  let sorted := sort_slice str_lt found in
  mkIterator (-1) sorted ((λ key, default [] (m !! key)) <$> sorted).
Definition Next (it : iterator) : bool * iterator :=
  if Z.of_nat (length (keys it)) <=? index it then (false, it)
  else (index it + 1 <? Z.of_nat (length (keys it)), mkIterator (index it + 1) (keys it) (values it)).
Definition Key (it : iterator) : option bytes :=
  if (index it <? 0) || (Z.of_nat (length (keys it)) <=? index it) then None else keys it !! Z.to_nat (index it).
Definition Value (it : iterator) : option bytes :=
  if (index it <? 0) || (Z.of_nat (length (keys it)) <=? index it) then None else values it !! Z.to_nat (index it).
Definition Release (it : iterator) : iterator := mkIterator (-1) [] [].

Record batch := mkBatch { writes : list keyvalue; bsize : Z }.
Definition batch_New : batch := mkBatch [] 0.
Definition batch_Put (b : batch) (key value : bytes) : batch :=
  mkBatch (writes b ++ [mkWrite key (Some value)]) (bsize b + Z.of_nat (length key) + Z.of_nat (length value)).
Definition batch_Delete (b : batch) (key : bytes) : batch :=
  mkBatch (writes b ++ [mkWrite key None]) (bsize b + Z.of_nat (length key)).
Definition batch_Write (b : batch) (db : Database) : db_error + Database :=
  match mem db with
  | None => inl errClosed
  | Some m =>
      inr (mkDatabase (Some (foldl (λ m w, match kv_value w with
                                           | None => delete (kv_key w) m
                                           | Some value => <[kv_key w := value]> m
                                           end) m (writes b))))
  end.
Definition batch_Reset (b : batch) : batch := mkBatch [] 0.

Record snapshot := mkSnapshot { snap : option contents }.
Definition mem_NewSnapshot (db : Database) : snapshot := mkSnapshot (Some (default ∅ (mem db))).
Definition snap_Has (s : snapshot) (key : bytes) : db_error + bool :=
  match snap s with None => inl errSnapshotReleased | Some m => inr (bool_decide (is_Some (m !! key))) end.
Definition snap_Get (s : snapshot) (key : bytes) : db_error + bytes :=
  match snap s with
  | None => inl errSnapshotReleased
  | Some m => match m !! key with Some entry => inr entry | None => inl errNotFound end
  end.
Definition snap_Release (s : snapshot) : snapshot := mkSnapshot None.

(** *** Iterators list what they should *)

Lemma walk_drop it n fuel :
  length (values it) = length (keys it) → index it = Z.of_nat n - 1 → (length (keys it) <= n + fuel)%nat →
  walk Next Key Value fuel it = drop n (zip (keys it) (values it)).
Proof.
  destruct it as [i ks vs]. cbn [keys values index]. intros Hl -> Hf. revert n Hf.
  induction fuel as [|fuel IH]; intros n Hf.
  { rewrite drop_ge; [done|]. rewrite length_zip. lia. }
  cbn [walk]. unfold Next at 1. cbn [index keys values]. destruct (Z.leb_spec (Z.of_nat (length ks)) (Z.of_nat n - 1)).
  { rewrite drop_ge; [done|]. rewrite length_zip. lia. }
  destruct (Z.ltb_spec (Z.of_nat n - 1 + 1) (Z.of_nat (length ks))).
  2: { rewrite drop_ge; [done|]. rewrite length_zip. lia. }
  unfold Key at 1, Value at 1. cbn [index keys values]. rewrite (proj2 (Z.ltb_ge _ _)), (proj2 (Z.leb_gt _ _)) by lia. cbn [orb].
  replace (Z.to_nat (Z.of_nat n - 1 + 1)) with n by lia.
  destruct (lookup_lt_is_Some_2 ks n ltac:(lia)) as [k Hk]. destruct (lookup_lt_is_Some_2 vs n ltac:(lia)) as [v Hv]. rewrite Hk, Hv.
  rewrite (drop_S _ (k, v) n) by (by apply lookup_zip_Some). f_equal.
  replace (Z.of_nat n - 1 + 1) with (Z.of_nat (S n) - 1) by lia. apply IH. lia.
Qed.

Lemma sorted_strict (l : list bytes) :
  NoDup l → Sorted (λ x y, str_lt y x = false) l → StronglySorted (λ x y, str_lt x y = true) l.
Proof.
  intros Hnd Hs. apply Sorted_StronglySorted in Hs; [|intros x y z Hxy Hyz; by eapply str_lt_le_trans].
  induction Hs as [|x l Hs IH Hx]; [constructor|]. apply NoDup_cons in Hnd as [Hx' Hnd]. constructor; [by apply IH|].
  apply Forall_forall. intros y Hy. destruct (str_lt x y) eqn:E; [done|]. exfalso. apply Hx'.
  by rewrite (str_lt_total x y E (proj1 (Forall_forall _ _) Hx y Hy)).
Qed.

Lemma mem_iterator_lists db prefix start :
  let m := default ∅ (mem db) in
  lists m prefix start (walk Next Key Value (S (size m)) (mem_NewIterator db prefix start)).
Proof.
  cbv zeta. set (m := default ∅ (mem db)). unfold mem_NewIterator. fold m. cbv zeta.
  set (found := filter _ _). set (sorted := sort_slice str_lt found).
  assert (sorted ≡ₚ found) as Hp by apply sort_slice_perm.
  assert (NoDup sorted) as Hnd by (rewrite Hp; apply NoDup_filter, range_map_NoDup).
  assert (∀ k, k ∈ sorted ↔ is_Some (m !! k) ∧ HasPrefix k prefix = true ∧ str_lt k (prefix ++ start) = false) as Hin.
  { intros k. rewrite Hp. unfold found. rewrite list_elem_of_filter, andb_true_iff, negb_true_iff, list_elem_of_fmap. split.
    - intros [? ([k' v] & -> & Hk%range_map_elem)]. split; [by eexists|done].
    - intros [[v Hv] ?]. split; [done|]. exists (k, v). by rewrite range_map_elem. }
  rewrite (walk_drop _ 0); [|by cbn; rewrite length_fmap|done|].
  2: { cbn [keys]. rewrite Hp. unfold found. etrans; [|apply Nat.le_succ_diag_r]. etrans; [apply length_filter|].
       rewrite length_fmap, range_map_perm. by rewrite length_map_to_list. }
  cbn [keys values]. rewrite drop_0, zip_with_fmap_r. 
  assert (zip_with (λ x z, (x, default [] (m !! z))) sorted sorted = (λ k, (k, default [] (m !! k))) <$> sorted) as Hz.
  { clear. induction sorted as [|x l IH]; [done|]. cbn. by rewrite IH. }
  rewrite Hz. split.
  - rewrite <- list_fmap_compose. cbn. rewrite list_fmap_id. apply sorted_strict; [done|].
    apply sort_slice_sorted; [intros x y; apply str_lt_asym|intros x y z; apply str_lt_le_trans].
  - intros k v. rewrite list_elem_of_fmap. split.
    + intros (k' & [= -> ->] & Hk%Hin). destruct Hk as [[v Hv] Hk]. by rewrite Hv.
    + intros (Hv & Hk). exists k. rewrite Hv. split; [done|]. apply Hin. split; [by eexists|done].
Qed.

#[global] Program Instance memorydb_store : KeyValueStore Database iterator batch := {|
  db_Has := mem_Has; db_Get := mem_Get; db_Put := mem_Put; db_Delete := mem_Delete;
  db_NewIterator := mem_NewIterator; it_Next := Next; it_Key := Key; it_Value := Value;
  db_NewBatch := batch_New; b_Put := batch_Put; b_Delete := batch_Delete; b_Write := batch_Write; b_Reset := batch_Reset;
  b_ValueSize := bsize; b_Replay W put del b w := replay put del (writes b) w;
  holding := mem; collected := writes; batch_ok _ := True;
|}.
Next Obligation. done. Qed.
Next Obligation. done. Qed.
Next Obligation. intros db k v. cbn. unfold mem_Put, on_open. by destruct (mem db). Qed.
Next Obligation. intros db k. cbn. unfold mem_Delete, on_open. by destruct (mem db). Qed.
Next Obligation. exact mem_iterator_lists. Qed.
Next Obligation. done. Qed.
Next Obligation. done. Qed.
Next Obligation. done. Qed.
Next Obligation. done. Qed.
Next Obligation. intros b db _. cbn. unfold batch_Write, on_open. by destruct (mem db). Qed.
Next Obligation. done. Qed.
End memorydb.

(** ** Tables (core/rawdb/table.go) *)

(** The part of a map under a prefix. *)
Definition under (p : bytes) (m : contents) : contents :=
  list_to_map ((λ e, (drop (length p) e.1, e.2)) <$> filter (λ e, HasPrefix e.1 p = true) (map_to_list m)).

Lemma under_elem (p : bytes) (m : contents) (k v : bytes) :
  (k, v) ∈ (λ e : bytes * bytes, (drop (length p) e.1, e.2)) <$> filter (λ e, HasPrefix e.1 p = true) (map_to_list m) ↔ m !! (p ++ k) = Some v.
Proof.
  rewrite list_elem_of_fmap. split.
  - intros ([k0 v0] & E & [[r Er]%HasPrefix_app Hin]%list_elem_of_filter). cbn [fst snd] in *. subst k0.
    rewrite drop_app_length in E. injection E as -> ->. by apply elem_of_map_to_list.
  - intros Hm. exists (p ++ k, v). cbn [fst snd]. rewrite drop_app_length. split; [done|]. apply list_elem_of_filter. cbn [fst].
    split; [apply HasPrefix_app; by eexists|by apply elem_of_map_to_list].
Qed.

Lemma under_NoDup (p : bytes) (m : contents) :
  NoDup ((λ e : bytes * bytes, (drop (length p) e.1, e.2)) <$> filter (λ e, HasPrefix e.1 p = true) (map_to_list m)).*1.
Proof.
  rewrite <- list_fmap_compose. apply NoDup_fmap_2_strong; [|apply NoDup_filter, NoDup_map_to_list].
  intros [k1 v1] [k2 v2] [[r1 E1]%HasPrefix_app H1]%list_elem_of_filter [[r2 E2]%HasPrefix_app H2]%list_elem_of_filter.
  cbn in *. subst. rewrite !drop_app_length. intros ->. apply elem_of_map_to_list in H1, H2. f_equal. congruence.
Qed.

Lemma under_lookup (p : bytes) (m : contents) (k : bytes) : under p m !! k = m !! (p ++ k).
Proof.
  unfold under. destruct (m !! (p ++ k)) as [v|] eqn:E.
  - apply elem_of_list_to_map_1; [apply under_NoDup|]. by apply under_elem.
  - apply not_elem_of_list_to_map_1. intros ([k' v] & Ek & Hv)%list_elem_of_fmap. cbn in Ek. subst k'. apply under_elem in Hv. congruence.
Qed.

Lemma under_size (p : bytes) (m : contents) : (size (under p m) <= size m)%nat.
Proof.
  unfold under. rewrite map_size_list_to_map by apply under_NoDup. rewrite length_fmap, <- length_map_to_list. apply length_filter.
Qed.

Lemma under_insert (p : bytes) (m : contents) (k : bytes) (v : bytes) : under p (<[p ++ k := v]> m) = <[k := v]> (under p m).
Proof.
  apply map_eq. intros k'. rewrite under_lookup. destruct (decide (k = k')) as [->|Hne]; [by rewrite !lookup_insert_eq|].
  rewrite !lookup_insert_ne, under_lookup; [done|done|]. by intros ?%app_inv_head.
Qed.
Lemma under_delete (p : bytes) (m : contents) (k : bytes) : under p (delete (p ++ k) m) = delete k (under p m).
Proof.
  apply map_eq. intros k'. rewrite under_lookup. destruct (decide (k = k')) as [->|Hne]; [by rewrite !lookup_delete_eq|].
  rewrite !lookup_delete_ne, under_lookup; [done|done|]. by intros ?%app_inv_head.
Qed.
Lemma under_empty (p : bytes) : under p ∅ = ∅.
Proof. apply map_eq. intros k. by rewrite under_lookup, !lookup_empty. Qed.

Section table.
Context {S It Bt : Type} `{!KeyValueStore S It Bt}.
(** The prefix of the table; it is fixed when the table is made. *)
Context (prefix : bytes).

Definition table_Has (db : S) (key : bytes) : db_error + bool := db_Has db (prefix ++ key).
Definition table_Get (db : S) (key : bytes) : db_error + bytes := db_Get db (prefix ++ key).
Definition table_Put (db : S) (key value : bytes) : db_error + S := db_Put db (prefix ++ key) value.
Definition table_Delete (db : S) (key : bytes) : db_error + S := db_Delete db (prefix ++ key).
Definition table_NewIterator (db : S) (prefix' start : bytes) : It := db_NewIterator db (prefix ++ prefix') start.
Definition tableIterator_Key (it : It) : option bytes := drop (length prefix) <$> it_Key it.
Definition tableBatch_Put (b : Bt) (key value : bytes) : Bt := b_Put b (prefix ++ key) value.
Definition tableBatch_Delete (b : Bt) (key : bytes) : Bt := b_Delete b (prefix ++ key).
(** [tableReplayer] cuts the prefix off. *)
Definition replayer_Put {W : Type} (put : W → bytes → bytes → db_error + W) (w : W) (key value : bytes) : db_error + W :=
  put w (drop (length prefix) key) value.
Definition replayer_Delete {W : Type} (del : W → bytes → db_error + W) (w : W) (key : bytes) : db_error + W :=
  del w (drop (length prefix) key).
Definition tableBatch_Replay {W : Type} (put : W → bytes → bytes → db_error + W) (del : W → bytes → db_error + W) (b : Bt) (w : W)
  : db_error + W := b_Replay (replayer_Put put) (replayer_Delete del) b w.

Definition strip (w : keyvalue) : keyvalue := mkWrite (drop (length prefix) (kv_key w)) (kv_value w).
Definition prefixed (w : keyvalue) : Prop := HasPrefix (kv_key w) prefix = true.

Lemma under_writes (l : list keyvalue) (m : contents) : Forall prefixed l → under prefix (foldl apply_write m l) = foldl apply_write (under prefix m) (strip <$> l).
Proof.
  intros Hl. revert m. induction Hl as [|[k v] l Hk _ IH]; intros m; [done|]. cbn [foldl fmap list_fmap]. rewrite IH. f_equal.
  apply HasPrefix_app in Hk as [r Ek]. cbn in Ek. subst k. unfold apply_write, strip. cbn. rewrite drop_app_length.
  destruct v; [apply under_insert|apply under_delete].
Qed.

Lemma walk_strip fuel it :
  walk it_Next tableIterator_Key it_Value fuel it = (λ e, (drop (length prefix) e.1, e.2)) <$> walk it_Next it_Key it_Value fuel it.
Proof.
  revert it. induction fuel as [|fuel IH]; intros it; [done|]. cbn [walk]. destruct (it_Next it) as [[] it']; [|done].
  unfold tableIterator_Key at 1. destruct (it_Key it'), (it_Value it'); try done. cbn. by rewrite IH.
Qed.

Lemma walk_take fuel n (it : It) :
  walk it_Next it_Key it_Value fuel it = take fuel (walk it_Next it_Key it_Value (fuel + n) it).
Proof.
  revert it. induction fuel as [|fuel IH]; intros it; [done|]. cbn [walk Nat.add]. destruct (it_Next it) as [[] it']; [|done].
  destruct (it_Key it'), (it_Value it'); try done. cbn. by rewrite <- IH.
Qed.

(** What lists the entries under the prefix lists the part of the map. *)
Lemma lists_under (m : contents) (prefix' start : bytes) (l : list (bytes * bytes)) :
  lists m (prefix ++ prefix') start l →
  lists (under prefix m) prefix' start ((λ e, (drop (length prefix) e.1, e.2)) <$> l) ∧ (length l <= size (under prefix m))%nat.
Proof.
  intros [Hs Hin].
  assert (∀ k v, (k, v) ∈ l → k = prefix ++ drop (length prefix) k) as Hpre.
  { intros k v (_ & [r ->]%HasPrefix_app & _)%Hin. by rewrite <- app_assoc, drop_app_length. }
  assert (∀ k v, (k, v) ∈ (λ e : bytes * bytes, (drop (length prefix) e.1, e.2)) <$> l ↔ (prefix ++ k, v) ∈ l) as Hel.
  { intros k v. rewrite list_elem_of_fmap. split.
    - intros ([k0 v0] & [= -> ->] & Hk). cbn. by rewrite <- (Hpre _ _ Hk).
    - intros Hk. exists (prefix ++ k, v). cbn. by rewrite drop_app_length. }
  assert (StronglySorted (λ a b, str_lt a b = true) ((λ e : bytes * bytes, (drop (length prefix) e.1, e.2)) <$> l).*1) as Hss.
  { clear Hin Hel. induction l as [|[k v] l IH]; [constructor|]. rewrite !fmap_cons in *. cbn [fst] in *.
    inversion Hs as [|? ? Hs' Hf]; subst. constructor; [apply IH; [done|]; intros k' v' Hk'; apply (Hpre k' v'); by right|].
    rewrite <- list_fmap_compose. apply Forall_fmap, Forall_forall. intros [k' v'] Hk'. cbn.
    rewrite <- (str_lt_app prefix), <- (Hpre k v), <- (Hpre k' v'); [|by right|left].
    apply (proj1 (Forall_forall _ _) Hf). apply list_elem_of_fmap. by exists (k', v'). }
  split; [split; [exact Hss|]|].
  - intros k v. rewrite Hel, Hin, under_lookup, <- app_assoc, str_lt_app, !HasPrefix_app.
    split; intros (H1 & [r E] & H3); (split; [done|]; split; [|done]).
    + exists r. rewrite <- app_assoc in E. by apply app_inv_head in E.
    + exists r. by rewrite E, app_assoc.
  - rewrite <- length_map_to_list, <- (length_fmap (λ e : bytes * bytes, (drop (length prefix) e.1, e.2)) l).
    apply submseteq_length, NoDup_submseteq.
    + apply (NoDup_fmap_1 fst). clear -Hss. induction Hss as [|x k _ IH Hx]; constructor; [|done].
      intros Hin. pose proof (proj1 (Forall_forall _ _) Hx x Hin) as Hxx. cbn in Hxx.
      pose proof (str_lt_asym x x Hxx). congruence.
    + intros [k v] Hk%Hel%Hin. apply elem_of_map_to_list. rewrite under_lookup. apply Hk.
Qed.

Lemma table_iterator_lists db prefix' start :
  let m := under prefix (default ∅ (holding db)) in
  lists m prefix' start (walk it_Next tableIterator_Key it_Value (Datatypes.S (size m)) (table_NewIterator db prefix' start)).
Proof.
  cbv zeta. set (m := default ∅ (holding db)). rewrite walk_strip.
  pose proof (Iterator_law db (prefix ++ prefix') start) as Hl. cbv zeta in Hl. fold m in Hl.
  destruct (lists_under m prefix' start _ Hl) as [Hu Hlen]. unfold table_NewIterator in *.
  set (it := db_NewIterator db (prefix ++ prefix') start) in *.
  enough (walk it_Next it_Key it_Value (Datatypes.S (size (under prefix m))) it = walk it_Next it_Key it_Value (Datatypes.S (size m)) it) as -> by exact Hu.
  pose proof (under_size prefix m). rewrite (walk_take (Datatypes.S (size (under prefix m))) (size m - size (under prefix m))).
  replace (Datatypes.S (size (under prefix m)) + (size m - size (under prefix m)))%nat with (Datatypes.S (size m)) by lia.
  apply take_ge. lia.
Qed.

(** A table is a store. *)
Program Definition table_store : KeyValueStore S It Bt := {|
  db_Has := table_Has; db_Get := table_Get; db_Put := table_Put; db_Delete := table_Delete;
  db_NewIterator := table_NewIterator; it_Next := it_Next; it_Key := tableIterator_Key; it_Value := it_Value;
  db_NewBatch := db_NewBatch; b_Put := tableBatch_Put; b_Delete := tableBatch_Delete; b_Write := b_Write; b_Reset := b_Reset;
  b_ValueSize := b_ValueSize; b_Replay W put del b w := tableBatch_Replay put del b w;
  holding db := under prefix <$> holding db; collected b := strip <$> collected b;
  batch_ok b := batch_ok b ∧ Forall prefixed (collected b);
|}.
Next Obligation.
  intros db k. cbn. unfold table_Has. rewrite Has_law. destruct (holding db); [|done]. cbn. by rewrite under_lookup.
Qed.
Next Obligation.
  intros db k. cbn. unfold table_Get. rewrite Get_law. destruct (holding db); [|done]. cbn. by rewrite under_lookup.
Qed.
Next Obligation.
  intros db k v. cbn. unfold table_Put. pose proof (Put_law db (prefix ++ k) v) as Hl.
  destruct (db_Put db (prefix ++ k) v) as [e|db'], (holding db); cbn in *; try done. injection Hl as Hl.
  by rewrite Hl; cbn; rewrite under_insert.
Qed.
Next Obligation.
  intros db k. cbn. unfold table_Delete. pose proof (Delete_law db (prefix ++ k)) as Hl.
  destruct (db_Delete db (prefix ++ k)) as [e|db'], (holding db); cbn in *; try done. injection Hl as Hl.
  by rewrite Hl; cbn; rewrite under_delete.
Qed.
Next Obligation.
  intros db prefix' start. cbn. pose proof (table_iterator_lists db prefix' start) as Hl. cbv zeta in Hl.
  destruct (holding db); [exact Hl|]. cbn in *. by rewrite under_empty in Hl.
Qed.
Next Obligation. cbn. destruct NewBatch_law as [H1 H2]. rewrite H2. done. Qed.
Next Obligation.
  intros b k v [Hb Hp]. cbn. unfold tableBatch_Put. destruct (Batch_Put_law b (prefix ++ k) v Hb) as [H1 ->].
  rewrite fmap_app. split; [split; [done|]|unfold strip at 2; cbn; by rewrite drop_app_length].
  apply Forall_app. split; [done|]. apply Forall_singleton. apply HasPrefix_app. by eexists.
Qed.
Next Obligation.
  intros b k [Hb Hp]. cbn. unfold tableBatch_Delete. destruct (Batch_Delete_law b (prefix ++ k) Hb) as [H1 ->].
  rewrite fmap_app. split; [split; [done|]|unfold strip at 2; cbn; by rewrite drop_app_length].
  apply Forall_app. split; [done|]. apply Forall_singleton. apply HasPrefix_app. by eexists.
Qed.
Next Obligation. intros b [Hb Hp]. cbn. destruct (Batch_Reset_law b Hb) as [H1 ->]. done. Qed.
Next Obligation.
  intros b db [Hb Hp]. cbn. pose proof (Write_law b db Hb) as Hl.
  destruct (b_Write b db) as [e|db'], (holding db); cbn in *; try done. injection Hl as Hl.
  by rewrite Hl; cbn; rewrite under_writes.
Qed.
Next Obligation.
  intros W put del b w. cbn. unfold tableBatch_Replay. rewrite Replay_law. revert w.
  induction (collected b) as [|[k [v|]] l IH]; intros w; [done|..]; cbn.
  - unfold replayer_Put at 1. by destruct (put w _ v); [|apply IH].
  - unfold replayer_Delete at 1. by destruct (del w _); [|apply IH].
Qed.
End table.

(** ** Tables on one store *)

Inductive kv_op :=
| KHas (key : bytes) | KGet (key : bytes) | KPut (key value : bytes) | KDelete (key : bytes)
| KList (prefix start : bytes) | KBatch (l : list keyvalue).
Inductive kv_answer := AHas (b : bool) | AGet (v : option bytes) | ADone | AList (l : list (bytes * bytes)) | AError (e : db_error).

(** What an operation does to a map of its own. *)
Inductive map_does (m : contents) : kv_op → kv_answer → contents → Prop :=
| does_Has k : map_does m (KHas k) (AHas (bool_decide (is_Some (m !! k)))) m
| does_Get k : map_does m (KGet k) (AGet (m !! k)) m
| does_Put k v : map_does m (KPut k v) ADone (<[k := v]> m)
| does_Delete k : map_does m (KDelete k) ADone (delete k m)
| does_List prefix start l : lists m prefix start l → map_does m (KList prefix start) (AList l) m
| does_Batch l : map_does m (KBatch l) ADone (foldl apply_write m l).

Section steps.
Context {S It Bt : Type}.

(** A batch with the given writes. *)
Definition make_batch (I : KeyValueStore S It Bt) (l : list keyvalue) : Bt :=
  foldl (λ b w, match kv_value w with Some v => b_Put b (kv_key w) v | None => b_Delete b (kv_key w) end) db_NewBatch l.

Definition kv_step (I : KeyValueStore S It Bt) (s : S) (op : kv_op) : kv_answer * S :=
  let write r := match r with inl e => (AError e, s) | inr s' => (ADone, s') end in
  match op with
  | KHas k => (match db_Has s k with inl e => AError e | inr b => AHas b end, s)
  | KGet k => (match db_Get s k with inl errNotFound => AGet None | inl e => AError e | inr v => AGet (Some v) end, s)
  | KPut k v => write (db_Put s k v)
  | KDelete k => write (db_Delete s k)
  | KList prefix start =>
      (AList (walk it_Next it_Key it_Value (Datatypes.S (size (default ∅ (holding s)))) (db_NewIterator s prefix start)), s)
  | KBatch l => write (b_Write (make_batch I l) s)
  end.

Lemma make_batch_ok (I : KeyValueStore S It Bt) l : batch_ok (make_batch I l) ∧ collected (make_batch I l) = l.
Proof.
  induction l as [|w l IH] using rev_ind; [apply NewBatch_law|]. unfold make_batch in *. rewrite foldl_app. cbn [foldl].
  destruct IH as [Hb Hc]. destruct w as [k [v|]]; cbn [kv_key kv_value].
  - destruct (Batch_Put_law _ k v Hb) as [? ->]. by rewrite Hc.
  - destruct (Batch_Delete_law _ k Hb) as [? ->]. by rewrite Hc.
Qed.

(** A store that is open does what its map does. *)
Lemma kv_step_does (I : KeyValueStore S It Bt) s m op :
  holding s = Some m → ∃ m', holding (kv_step I s op).2 = Some m' ∧ map_does m op (kv_step I s op).1 m'.
Proof.
  intros Hs. destruct op as [k|k|k v|k|prefix start|l]; cbn [kv_step].
  - exists m. rewrite Has_law, Hs. split; [done|constructor].
  - exists m. rewrite Get_law, Hs. split; [done|]. cbn. pose proof (does_Get m k) as Hd. by destruct (m !! k).
  - pose proof (Put_law s k v) as Hl. rewrite Hs in Hl. destruct (db_Put s k v) as [e|s']; [done|]. injection Hl as Hl.
    eexists. split; [exact Hl|constructor].
  - pose proof (Delete_law s k) as Hl. rewrite Hs in Hl. destruct (db_Delete s k) as [e|s']; [done|]. injection Hl as Hl.
    eexists. split; [exact Hl|constructor].
  - exists m. split; [done|]. constructor. pose proof (Iterator_law s prefix start) as Hl. by rewrite Hs in Hl |- *.
  - destruct (make_batch_ok I l) as [Hb Hc]. pose proof (Write_law _ s Hb) as Hl. rewrite Hs, Hc in Hl.
    destruct (b_Write (make_batch I l) s) as [e|s']; [done|]. injection Hl as Hl. eexists. split; [exact Hl|constructor].
Qed.

Context (I : KeyValueStore S It Bt).

Lemma writes_frame (p : bytes) (l : list keyvalue) (m : contents) (k : bytes) :
  Forall (prefixed p) l → HasPrefix k p = false → foldl apply_write m l !! k = m !! k.
Proof.
  intros Hl Hk. revert m. induction Hl as [|[k' v] l Hp _ IH]; intros m; [done|]. cbn [foldl]. rewrite IH.
  assert (k' ≠ k) as Hne by (intros ->; unfold prefixed in Hp; cbn in Hp; congruence).
  destruct v; unfold apply_write; cbn; [by apply lookup_insert_ne|by apply lookup_delete_ne].
Qed.

Lemma prefix_ne (p k k' : bytes) : HasPrefix k' p = false → p ++ k ≠ k'.
Proof. intros Hp <-. assert (HasPrefix (p ++ k) p = true) by (apply HasPrefix_app; by eexists). congruence. Qed.

(** The table of [p] acts on its part of the map, and leaves the other keys alone. *)
Lemma table_step (p : bytes) (s : S) (m : contents) (op : kv_op) :
  holding s = Some m →
  ∃ m', holding (kv_step (table_store p) s op).2 = Some m' ∧
    map_does (under p m) op (kv_step (table_store p) s op).1 (under p m') ∧
    ∀ k, HasPrefix k p = false → m' !! k = m !! k.
Proof.
  intros Hs. destruct (kv_step_does (table_store p) s (under p m) op) as (m1 & H1 & H2); [cbn; by rewrite Hs|].
  cbn [holding table_store] in H1. destruct (holding (kv_step (table_store p) s op).2) as [m'|] eqn:E; [|done]. injection H1 as <-.
  exists m'. split; [done|]. split; [done|]. intros k Hk. clear H2.
  destruct op as [k'|k'|k' v|k'|prefix start|l]; cbn [kv_step snd] in E; try congruence.
  - cbn [db_Put table_store] in E. unfold table_Put in E. pose proof (Put_law s (p ++ k') v) as Hl. rewrite Hs in Hl.
    destruct (db_Put s (p ++ k') v) as [e|s']; [done|]. cbn in Hl, E. rewrite E in Hl. injection Hl as ->.
    apply lookup_insert_ne. by apply prefix_ne.
  - cbn [db_Delete table_store] in E. unfold table_Delete in E. pose proof (Delete_law s (p ++ k')) as Hl. rewrite Hs in Hl.
    destruct (db_Delete s (p ++ k')) as [e|s']; [done|]. cbn in Hl, E. rewrite E in Hl. injection Hl as ->.
    apply lookup_delete_ne. by apply prefix_ne.
  - destruct (make_batch_ok (table_store p) l) as [[Hb Hp] _]. cbn [b_Write table_store] in E.
    pose proof (Write_law _ s Hb) as Hl. rewrite Hs in Hl.
    destruct (b_Write (make_batch (table_store p) l) s) as [e|s']; [done|]. cbn in Hl, E. rewrite E in Hl. injection Hl as ->.
    by apply (writes_frame p).
Qed.

Lemma under_frame (p q : bytes) (m m' : contents) :
  HasPrefix p q = false → HasPrefix q p = false → (∀ k, HasPrefix k p = false → m' !! k = m !! k) → under q m' = under q m.
Proof.
  intros Hpq Hqp Hf. apply map_eq. intros k. rewrite !under_lookup. apply Hf. apply not_true_is_false. intros [r E]%HasPrefix_app.
  assert (p `prefix_of` q ++ k ∧ q `prefix_of` q ++ k) as [H1 H2] by (split; [by exists r|by exists k]).
  destruct (prefix_weak_total _ _ _ H1 H2) as [[x ->]|[x ->]].
  - assert (HasPrefix (p ++ x) p = true) by (apply HasPrefix_app; by eexists). congruence.
  - assert (HasPrefix (q ++ x) q = true) by (apply HasPrefix_app; by eexists). congruence.
Qed.

(** Operations through the tables of two prefixes, in any order. *)
Fixpoint tables_run (p q : bytes) (s : S) (ops : list (bool * kv_op)) : list kv_answer * S :=
  match ops with
  | [] => ([], s)
  | (side, op) :: ops =>
      let '(a, s) := kv_step (table_store (if side then p else q)) s op in
      let '(l, s) := tables_run p q s ops in (a :: l, s)
  end.

(** The same operations on two maps that have nothing to do with each other. *)
Inductive two_maps : contents → contents → list (bool * kv_op) → list kv_answer → contents → contents → Prop :=
| two_done m1 m2 : two_maps m1 m2 [] [] m1 m2
| two_left m1 m2 op a m1' ops l n1 n2 :
    map_does m1 op a m1' → two_maps m1' m2 ops l n1 n2 → two_maps m1 m2 ((true, op) :: ops) (a :: l) n1 n2
| two_right m1 m2 op a m2' ops l n1 n2 :
    map_does m2 op a m2' → two_maps m1 m2' ops l n1 n2 → two_maps m1 m2 ((false, op) :: ops) (a :: l) n1 n2.

(** C24: tables over one store do not see each other.  Reads, writes, deletions, batches and
    iterations through the tables of two prefixes, neither of which begins with the other,
    in any order and over any store, give the answers of two separate maps, and the store
    holds those two maps under its prefixes at the end. *)
Theorem tables_independent (p q : bytes) (s : S) (m : contents) (ops : list (bool * kv_op)) :
  HasPrefix p q = false → HasPrefix q p = false → holding s = Some m →
  ∃ m', holding (tables_run p q s ops).2 = Some m' ∧
    two_maps (under p m) (under q m) ops (tables_run p q s ops).1 (under p m') (under q m').
Proof.
  intros Hpq Hqp. revert s m. induction ops as [|[side op] ops IH]; intros s m Hs; cbn [tables_run].
  { exists m. split; [done|constructor]. }
  destruct (table_step (if side then p else q) s m op Hs) as (m1 & H1 & H2 & Hf).
  destruct (kv_step (table_store (if side then p else q)) s op) as [a s1]. cbn [fst snd] in *.
  destruct (IH s1 m1 H1) as (m' & H3 & H4). destruct (tables_run p q s1 ops) as [l s']. cbn [fst snd] in *.
  exists m'. split; [done|]. destruct side.
  - apply (under_frame p q m m1 Hpq Hqp) in Hf. rewrite <- Hf. by eapply two_left.
  - apply (under_frame q p m m1 Hqp Hpq) in Hf. rewrite <- Hf. by eapply two_right.
Qed.
End steps.

(** A snapshot of a table ([table.NewSnapshot]) is that of the database below: what it reads
    under a key is not what the table holds under it. *)
Definition table_NewSnapshot (db : Database) : snapshot := mem_NewSnapshot db.

Example table_snapshot_unprefixed :
  let db := mkDatabase (Some {[ [1; 7] := [10]; [7] := [20] ]}) in
  @table_Get _ _ _ (@memorydb_store reference_runtime) [1] db [7] = inr [10] ∧
  snap_Get (table_NewSnapshot db) [7] = inr [20].
Proof. vm_compute. done. Qed.

(** ** Witnesses *)

(** Two tables on one memory database: each lists its own entries, under its own keys. *)
Lemma tables_independent_witness :
  let run := @tables_run _ _ _ (@memorydb_store reference_runtime) [1] [2; 1] mem_New in
  let ops := [(true, KPut [7] [10]); (false, KPut [7] [20]); (true, KBatch [mkWrite [5] (Some [11]); mkWrite [9] None]);
              (true, KList [] []); (false, KList [] []); (false, KGet [5])] in
  ∃ m', mem (run ops).2 = Some m' ∧
    two_maps (under [1] ∅) (under [2; 1] ∅) ops
      [ADone; ADone; ADone; AList [([5], [11]); ([7], [10])]; AList [([7], [20])]; AGet None]
      (under [1] m') (under [2; 1] m').
Proof.
  refine (@tables_independent _ _ _ (@memorydb_store reference_runtime) [1] [2; 1] mem_New ∅
    [(true, KPut [7] [10]); (false, KPut [7] [20]); (true, KBatch [mkWrite [5] (Some [11]); mkWrite [9] None]);
     (true, KList [] []); (false, KList [] []); (false, KGet [5])] _ _ _); vm_compute; reflexivity.
Defined.
