(* ===== verification/TrieKeys.v ===== *)
(** * Trie keys (trie/encoding.go)

    The three encodings of a trie key: the bytes of the key, its nibbles with an optional
    terminator (hex), and the compact encoding of nodes on disk.  The conversions are
    inverse to each other on the keys the trie uses, and the in-place conversion of the
    iterator agrees with [hexToCompact]. *)

From S2P Require Import Prelude Bytes.

(** ** Definitions *)

(** [hasTerm]: the last element is the terminator. *)
Definition hasTerm (s : list byte) : bool := bool_decide (last s = Some 16).

(** [nibbles[ni]<<4 | nibbles[ni+1]] on bytes. *)
Definition join_nibbles (a b : byte) : byte := Z.lor (byte_of (a ≪ 4)) b.

(** [decodeNibbles] writes to the front of [bytes]; both indexings can be out of range. *)
Fixpoint decodeNibbles (nibbles bytes : list byte) : res (list byte) :=
  match nibbles with
  | [] => Ok bytes
  | a :: r =>
      match r, bytes with
      | b :: nibbles, _ :: bytes =>
          rest ← decodeNibbles nibbles bytes; Ok (join_nibbles a b :: rest)
      | _, _ => Panic "index out of range"
      end
  end.

(** [hex[:len(hex)-1]] under [hasTerm]. *)
Definition drop_last (s : list byte) : list byte := take (length s - 1) s.

Definition hexToCompact (hex : list byte) : res (list byte) :=
  let terminator := if hasTerm hex then 1 else 0 in
  let hex := if hasTerm hex then drop_last hex else hex in
  let buf := replicate (length hex / 2) 0 in
  let flag := byte_of (terminator ≪ 5) in
  match hex with
  | x :: hex' =>
      if Nat.odd (length hex)
      then rest ← decodeNibbles hex' buf; Ok (Z.lor (Z.lor flag (1 ≪ 4)) x :: rest)
      else rest ← decodeNibbles hex buf; Ok (flag :: rest)
  | [] => Ok [flag]
  end.

(** The loop of [hexToCompactInPlace] on the buffer it overwrites. *)
Fixpoint compact_loop (fuel : nat) (hexLen bi ni : nat) (hex : list byte) : res (list byte) :=
  if (ni <? hexLen)%nat then
    match fuel, hex !! ni, hex !! S ni with
    | S fuel, Some a, Some b =>
        if (bi <? length hex)%nat
        then compact_loop fuel hexLen (S bi) (ni + 2) (<[bi := join_nibbles a b]> hex)
        else Panic "index out of range"
    | _, _, _ => Panic "index out of range"
    end
  else Ok hex.

(** The overwritten buffer and the length of the compact key in it. *)
Definition hexToCompactInPlace (hex : list byte) : res (list byte * nat) :=
  let term := (0 <? length hex)%nat && bool_decide (hex !! (length hex - 1)%nat = Some 16) in
  let hexLen := if term then (length hex - 1)%nat else length hex in
  let firstByte := if term then byte_of (1 ≪ 5) else 0 in
  let binLen := (hexLen / 2 + 1)%nat in
  '(firstByte, ni) ←
    (if Nat.odd hexLen
     then x ← go_index hex 0; Ok (Z.lor (Z.lor firstByte (1 ≪ 4)) x, 1%nat)
     else Ok (firstByte, 0%nat));
  hex ← compact_loop hexLen hexLen 1 ni hex;
  if (0 <? length hex)%nat then Ok (<[0%nat := firstByte]> hex, binLen)
  else Panic "index out of range".

(** The loop of [keybytesToHex]: two nibbles per byte. *)
Definition nibbles_of (str : list byte) : list byte := str ≫= λ b, [b / 16; b mod 16].

Definition keybytesToHex (str : list byte) : list byte := nibbles_of str ++ [16].

Definition compactToHex (compact : list byte) : list byte :=
  match compact with
  | [] => compact
  | _ =>
      let base := keybytesToHex compact in
      let flag := base !!! 0%nat in
      let base := if flag <? 2 then drop_last base else base in
      drop (Z.to_nat (2 - Z.land flag 1)) base
  end.

Definition hexToKeybytes (hex : list byte) : res (list byte) :=
  let hex := if hasTerm hex then drop_last hex else hex in
  if Nat.odd (length hex) then Panic "can't convert hex key of odd length"
  else decodeNibbles hex (replicate (length hex / 2) 0).

Fixpoint prefixLen (a b : list byte) : nat :=
  match a, b with
  | x :: a, y :: b => if x =? y then S (prefixLen a b) else 0
  | _, _ => 0
  end.

(** ** Nibbles *)

Definition nibbles_ok (l : list byte) : Prop := Forall (λ x, 0 <= x < 16) l.

(** The hex keys of the trie: nibbles, and at the end possibly the terminator. *)
Definition hex_ok (h : list byte) : Prop :=
  nibbles_ok h ∨ ∃ n, nibbles_ok n ∧ h = n ++ [16].

Lemma nibbles_of_cons b l : nibbles_of (b :: l) = b / 16 :: b mod 16 :: nibbles_of l.
Proof. done. Qed.

Lemma nibbles_of_length l : length (nibbles_of l) = (2 * length l)%nat.
Proof. induction l as [|b l IH]; [done|]. rewrite nibbles_of_cons. simpl. lia. Qed.

Lemma nibbles_of_ok l : bytes_ok l → nibbles_ok (nibbles_of l).
Proof.
  induction 1 as [|b l Hb _ IH]; [constructor|]. rewrite nibbles_of_cons.
  pose proof (Z.mod_pos_bound b 16). pose proof (Z.div_pos b 16).
  pose proof (Z.div_lt_upper_bound b 16 16). by do 2 (constructor; [lia|]).
Qed.

Lemma join_nibbles_spec a b : 0 <= a < 16 → 0 <= b < 16 → join_nibbles a b = a * 16 + b.
Proof.
  intros Ha Hb. unfold join_nibbles.
  rewrite byte_of_id by (rewrite Z.shiftl_mul_pow2 by lia; lia).
  by rewrite lor_shiftl by lia.
Qed.

Lemma join_nibbles_of b : 0 <= b < 256 → join_nibbles (b / 16) (b mod 16) = b.
Proof.
  intros Hb. pose proof (Z.mod_pos_bound b 16). pose proof (Z.div_pos b 16).
  pose proof (Z.div_lt_upper_bound b 16 16). pose proof (Z.div_mod b 16).
  rewrite join_nibbles_spec; lia.
Qed.

(** An even number of nibbles are the nibbles of a byte string. *)
Lemma even_nibbles n :
  nibbles_ok n → Nat.odd (length n) = false → ∃ s, bytes_ok s ∧ n = nibbles_of s.
Proof.
  remember (length n) as k eqn:Ek. revert n Ek.
  induction k as [k IH] using (well_founded_induction lt_wf).
  intros [|a [|b n]] -> Hn He; [exists []; split; [constructor|done]|done|].
  apply Forall_cons in Hn as [Ha [Hb Hn]%Forall_cons].
  destruct (IH (length n)) with n as (s & Hs & ->); [simpl; lia|done|done|done|].
  exists (a * 16 + b :: s). split; [constructor; [lia|done]|]. rewrite nibbles_of_cons.
  rewrite Z.div_add_l, Z.div_small, Z.add_0_r by lia.
  by rewrite Z.add_comm, Z.mod_add, Z.mod_small by lia.
Qed.

Lemma nibbles_of_inj s s' : bytes_ok s → bytes_ok s' → nibbles_of s = nibbles_of s' → s = s'.
Proof.
  intros Hs. revert s'. induction Hs as [|b s Hb _ IH]; intros [|b' s'] Hs' E; try done.
  apply Forall_cons in Hs' as [Hb' Hs']. rewrite !nibbles_of_cons in E. injection E as E1 E2 E3.
  f_equal; [|by apply IH]. rewrite (Z.div_mod b 16), (Z.div_mod b' 16) by lia. congruence.
Qed.

Lemma keybytesToHex_inj s s' :
  bytes_ok s → bytes_ok s' → keybytesToHex s = keybytesToHex s' → s = s'.
Proof. intros Hs Hs' [E _]%app_inj_2; [|done]. by apply nibbles_of_inj. Qed.

Lemma decodeNibbles_of s buf :
  bytes_ok s → (length s <= length buf)%nat →
  decodeNibbles (nibbles_of s) buf = Ok (s ++ drop (length s) buf).
Proof.
  intros Hs. revert buf. induction Hs as [|b s Hb _ IH]; intros buf Hl; [done|].
  destruct buf as [|c buf]; [simpl in Hl; lia|]. rewrite nibbles_of_cons.
  cbn [decodeNibbles]. rewrite IH by (simpl in Hl; lia). simpl. by rewrite join_nibbles_of.
Qed.

Lemma decodeNibbles_exact s :
  bytes_ok s → decodeNibbles (nibbles_of s) (replicate (length (nibbles_of s) / 2) 0) = Ok s.
Proof.
  intros Hs. rewrite nibbles_of_length, Nat.mul_comm, Nat.div_mul by done.
  rewrite decodeNibbles_of by (rewrite ?length_replicate; done).
  by rewrite drop_ge, app_nil_r by by rewrite length_replicate.
Qed.

Lemma hasTerm_nibbles n : nibbles_ok n → hasTerm n = false.
Proof.
  intros Hn. apply bool_decide_eq_false. intros Hl. apply last_Some_elem_of in Hl.
  eapply Forall_forall in Hn; [|done]. simpl in Hn. lia.
Qed.

Lemma hasTerm_snoc n : hasTerm (n ++ [16]) = true.
Proof. apply bool_decide_eq_true. apply last_snoc. Qed.

Lemma drop_last_snoc n x : drop_last (n ++ [x]) = n.
Proof. unfold drop_last. rewrite length_app. simpl. by rewrite Nat.add_sub, take_app_length. Qed.

Lemma drop_last_keybytes s : drop_last (keybytesToHex s) = nibbles_of s.
Proof. apply drop_last_snoc. Qed.

(** ** Conversions *)

(** [hexToKeybytes] inverts [keybytesToHex]. *)
Lemma hexToKeybytes_keybytesToHex s : bytes_ok s → hexToKeybytes (keybytesToHex s) = Ok s.
Proof.
  intros Hs. unfold hexToKeybytes. rewrite (hasTerm_snoc (nibbles_of s) : hasTerm (keybytesToHex s) = true).
  rewrite drop_last_keybytes, decodeNibbles_exact by done.
  by rewrite nibbles_of_length, Nat.odd_mul.
Qed.

(** The compact encoding: the flag byte, then the remaining nibbles in pairs. *)
Definition flag_byte (term : bool) (odd : option byte) : byte :=
  (if term then 32 else 0) + match odd with Some x => 16 + x | None => 0 end.

Definition compact_of (term : bool) (odd : option byte) (s : list byte) : list byte :=
  flag_byte term odd :: s.

Definition hex_of (term : bool) (odd : option byte) (s : list byte) : list byte :=
  from_option (λ x, [x]) [] odd ++ nibbles_of s ++ (if term then [16] else []).

Definition odd_ok (odd : option byte) : Prop :=
  match odd with Some x => 0 <= x < 16 | None => True end.

(** Every hex key is a flag, an optional odd nibble and pairs of nibbles. *)
Lemma hex_ok_iff h :
  hex_ok h ↔ ∃ term odd s, odd_ok odd ∧ bytes_ok s ∧ h = hex_of term odd s.
Proof.
  assert (∀ n, nibbles_ok n → ∃ odd s, odd_ok odd ∧ bytes_ok s ∧
    n = from_option (λ x, [x]) [] odd ++ nibbles_of s) as Hn.
  { intros n Hn. destruct (Nat.odd (length n)) eqn:Eo.
    - destruct n as [|x n]; [done|]. apply Forall_cons in Hn as [Hx Hn].
      destruct (even_nibbles n Hn) as (s & Hs & ->).
      { change (length (x :: n)) with (S (length n)) in Eo. rewrite Nat.odd_succ in Eo.
        by rewrite <- Nat.negb_even, Eo. }
      by exists (Some x), s.
    - destruct (even_nibbles n Hn Eo) as (s & Hs & ->). by exists None, s. }
  unfold hex_of. split.
  - intros [Hh|(n & Hh & ->)]; destruct (Hn _ Hh) as (odd & s & Ho & Hs & ->).
    + exists false, odd, s. by rewrite app_nil_r.
    + exists true, odd, s. by rewrite <- app_assoc.
  - intros (term & odd & s & Ho & Hs & ->). rewrite app_assoc.
    assert (nibbles_ok (from_option (λ x, [x]) [] odd ++ nibbles_of s)) as Hok.
    { apply Forall_app. split; [destruct odd; repeat constructor; apply Ho|].
      by apply nibbles_of_ok. }
    destruct term; [right; eauto | left; by rewrite app_nil_r].
Qed.

Lemma flag_byte_lor term odd :
  odd_ok odd →
  flag_byte term odd
  = let flag := byte_of ((if term then 1 else 0) ≪ 5) in
    match odd with Some x => Z.lor (Z.lor flag (1 ≪ 4)) x | None => flag end.
Proof.
  intros Ho. destruct odd as [x|]; [|by destruct term]. simpl in Ho.
  assert (∀ k, 0 <= k → k * 16 + x = Z.lor (k * 16) x) as Hl.
  { intros k Hk. transitivity (Z.lor (k ≪ 4) x); [by rewrite lor_shiftl by lia|].
    by rewrite Z.shiftl_mul_pow2 by lia. }
  destruct term; unfold flag_byte.
  - change (Z.lor _ (1 ≪ 4)) with (3 * 16). rewrite <- Hl; lia.
  - change (Z.lor _ (1 ≪ 4)) with (1 * 16). rewrite <- Hl; lia.
Qed.

Lemma odd_length_hex odd s :
  Nat.odd (length (from_option (λ x : byte, [x]) [] odd ++ nibbles_of s)) = bool_decide (is_Some odd).
Proof.
  rewrite length_app, nibbles_of_length. destruct odd; simpl length.
  - rewrite bool_decide_true by done. change (1 + ?k)%nat with (S k).
    by rewrite Nat.odd_succ, Nat.even_mul.
  - rewrite bool_decide_false by (intros [? ?]; done). by rewrite Nat.add_0_l, Nat.odd_mul.
Qed.

Lemma hex_of_term term odd s :
  odd_ok odd → bytes_ok s →
  hasTerm (hex_of term odd s) = term ∧
  (if term then drop_last (hex_of term odd s) else hex_of term odd s)
  = from_option (λ x, [x]) [] odd ++ nibbles_of s.
Proof.
  intros Ho Hs. unfold hex_of. rewrite app_assoc. destruct term.
  - split; [apply hasTerm_snoc | apply drop_last_snoc].
  - rewrite app_nil_r. split; [|done]. apply hasTerm_nibbles. apply Forall_app.
    split; [destruct odd; repeat constructor; apply Ho | by apply nibbles_of_ok].
Qed.

Lemma hexToCompact_hex_of term odd s :
  odd_ok odd → bytes_ok s → hexToCompact (hex_of term odd s) = Ok (compact_of term odd s).
Proof.
  intros Ho Hs. destruct (hex_of_term term odd s Ho Hs) as [Et Ed].
  unfold hexToCompact, compact_of. rewrite Et, Ed, flag_byte_lor by done. clear Et Ed.
  pose proof (odd_length_hex odd s) as Eo. destruct odd as [x|]; simpl from_option in *.
  - simpl app in *. rewrite Eo. simpl bool_decide.
    assert (length (x :: nibbles_of s) / 2 = length (nibbles_of s) / 2)%nat as ->.
    { simpl length. rewrite nibbles_of_length. rewrite <- Nat.add_1_r, Nat.mul_comm.
      rewrite Nat.div_add_l, Nat.div_mul by done. simpl. lia. }
    by rewrite decodeNibbles_exact.
  - simpl app in *. rewrite Eo. simpl bool_decide. destruct s as [|b s]; [done|].
    rewrite decodeNibbles_exact by done. done.
Qed.

Lemma compactToHex_compact_of term odd s :
  odd_ok odd → bytes_ok s → compactToHex (compact_of term odd s) = hex_of term odd s.
Proof.
  intros Ho Hs. unfold compact_of, compactToHex, keybytesToHex.
  rewrite nibbles_of_cons. set (f := flag_byte term odd).
  assert (f / 16 = (if term then 2 else 0) + (if odd then 1 else 0) ∧ f mod 16 = default 0 odd)
    as [E1 E2].
  { subst f. unfold flag_byte. destruct odd as [x|]; simpl in Ho.
    - split; [symmetry; apply Z.div_unique with x | symmetry; apply Z.mod_unique with
        ((if term then 2 else 0) + 1)]; destruct term; simpl; lia.
    - by destruct term. }
  rewrite E1, E2. simpl app. change ((?x :: _) !!! 0%nat) with x. unfold hex_of.
  destruct term, odd as [x|]; simpl from_option; simpl Z.add; simpl Z.ltb; cbn [app].
  - done.
  - done.
  - unfold drop_last. simpl length. rewrite length_app. simpl length.
    rewrite !app_comm_cons, take_app_le by (simpl; lia).
    rewrite take_ge by (simpl; lia). by rewrite app_nil_r.
  - unfold drop_last. simpl length. rewrite length_app. simpl length.
    rewrite !app_comm_cons, take_app_le by (simpl; lia).
    rewrite take_ge by (simpl; lia). by rewrite app_nil_r.
Qed.

Lemma compact_of_ok term odd s : odd_ok odd → bytes_ok s → bytes_ok (compact_of term odd s).
Proof.
  intros Ho Hs. constructor; [|done]. unfold flag_byte.
  destruct term, odd; simpl in Ho; lia.
Qed.

(** The loop of the in-place conversion writes behind what it still has to read. *)
Lemma compact_loop_spec s post : ∀ fuel bi ni hex,
  bytes_ok s → (length s <= fuel)%nat → (bi <= S ni)%nat →
  drop ni hex = nibbles_of s ++ post →
  ∃ hex', compact_loop fuel (ni + 2 * length s) bi ni hex = Ok hex' ∧
    take (bi + length s) hex' = take bi hex ++ s ∧ length hex' = length hex.
Proof.
  induction s as [|b s IH]; intros fuel bi ni hex Hs Hf Hb Hd.
  - exists hex. simpl. rewrite !Nat.add_0_r, app_nil_r.
    destruct fuel; simpl; rewrite Nat.ltb_irrefl; done.
  - apply Forall_cons in Hs as [Hbb Hs]. rewrite nibbles_of_cons in Hd. simpl app in Hd.
    assert (hex !! ni = Some (b / 16) ∧ hex !! S ni = Some (b mod 16)) as [L1 L2].
    { split; [rewrite <- (Nat.add_0_r ni)|rewrite <- Nat.add_1_r]; by rewrite <- lookup_drop, Hd. }
    assert (S ni < length hex)%nat by by apply lookup_lt_Some in L2.
    destruct fuel as [|fuel]; [simpl in Hf; lia|]. cbn [compact_loop].
    rewrite (proj2 (Nat.ltb_lt ni _)), L1, L2, (proj2 (Nat.ltb_lt bi _)) by (simpl; lia).
    rewrite join_nibbles_of by done.
    destruct (IH fuel (S bi) (ni + 2)%nat (<[bi:=b]> hex)) as (hex' & E & T & L);
      [done|simpl in Hf; lia|lia| |].
    { rewrite drop_insert_lt by lia. rewrite <- drop_drop, Hd. done. }
    exists hex'. split_and!; [|  |by rewrite L, length_insert].
    + rewrite <- E. f_equal. simpl. lia.
    + replace (bi + length (b :: s))%nat with (S bi + length s)%nat by (simpl; lia).
      rewrite T, (take_S_r _ _ b) by (apply list_lookup_insert_eq; lia).
      by rewrite take_insert_ge, <- app_assoc by lia.
Qed.

Lemma hexToCompactInPlace_hex_of term odd s :
  odd_ok odd → bytes_ok s → hex_of term odd s ≠ [] →
  ∃ buf, hexToCompactInPlace (hex_of term odd s) = Ok (buf, S (length s)) ∧
    take (S (length s)) buf = compact_of term odd s ∧ length buf = length (hex_of term odd s).
Proof.
  intros Ho Hs Hne. destruct (hex_of_term term odd s Ho Hs) as [Et Ed].
  pose proof (odd_length_hex odd s) as Eo. unfold hexToCompactInPlace.
  remember (hex_of term odd s) as hex eqn:Eh.
  assert ((0 <? length hex)%nat && bool_decide (hex !! (length hex - 1)%nat = Some 16) = term) as ->.
  { rewrite <- Et. unfold hasTerm. rewrite last_lookup, Nat.sub_1_r.
    destruct hex; [done|]. by rewrite (proj2 (Nat.ltb_lt 0 _)) by (simpl; lia). }
  assert ((if term then (length hex - 1)%nat else length hex)
          = length (from_option (λ x, [x]) [] odd ++ nibbles_of s)) as ->.
  { rewrite <- Ed. destruct term; [|done]. unfold drop_last. rewrite length_take. lia. }
  rewrite Eo, length_app, nibbles_of_length. set (o := length (from_option _ _ odd)).
  destruct (compact_loop_spec s (if term then [16] else []) (o + 2 * length s) 1 o hex)
    as (buf & E & T & L); [done|lia|lia|by subst o; rewrite Eh; unfold hex_of; rewrite drop_app_length|].
  assert ((o + 2 * length s) / 2 + 1 = S (length s))%nat as ->.
  { rewrite (Nat.mul_comm 2), Nat.div_add by done. subst o. destruct odd; simpl; lia. }
  exists (<[0%nat := flag_byte term odd]> buf).
  destruct buf as [|x buf]; [by destruct hex|]. destruct hex as [|y hex]; [done|].
  cbn [take app] in T. injection T as -> T.
  split_and!; [|simpl; by rewrite T|done].
  subst o. destruct odd as [z|]; simpl bool_decide; cbn match; cbn [from_option length] in *.
  - assert (y = z) as -> by (unfold hex_of in Eh; by injection Eh).
    change (go_index (z :: hex) 0) with (Ok z). cbn [mbind res_bind].
    rewrite E. cbn [mbind res_bind]. rewrite (flag_byte_lor term (Some z)) by done.
    by destruct term.
  - cbn [mbind res_bind]. rewrite E. cbn [mbind res_bind]. by destruct term.
Qed.

(** The compact encoding is a bijection on hex keys: [hexToCompact] returns a byte
    string from which [compactToHex] reads the key back, with half as many bytes as
    nibbles and one more; [hexToCompactInPlace] leaves the same bytes at the front of the
    buffer it is given and returns their number. *)
Theorem compact_roundtrip h :
  hex_ok h →
  ∃ c, hexToCompact h = Ok c ∧ bytes_ok c ∧ compactToHex c = h ∧
    (h ≠ [] → ∃ buf, hexToCompactInPlace h = Ok (buf, length c) ∧ take (length c) buf = c).
Proof.
  intros (term & odd & s & Ho & Hs & ->)%hex_ok_iff. exists (compact_of term odd s).
  split_and!; [by apply hexToCompact_hex_of|by apply compact_of_ok|
    by apply compactToHex_compact_of|].
  intros Hne. destruct (hexToCompactInPlace_hex_of term odd s Ho Hs Hne) as (buf & E & T & _).
  eauto.
Qed.

Lemma compact_roundtrip_witness :
  ∃ c, hexToCompact [1; 2; 3; 16] = Ok c ∧ bytes_ok c ∧ compactToHex c = [1; 2; 3; 16] ∧
    ([1; 2; 3; 16] ≠ [] → ∃ buf, hexToCompactInPlace [1; 2; 3; 16] = Ok (buf, length c) ∧
     take (length c) buf = c).
Proof.
  apply (compact_roundtrip [1; 2; 3; 16]). right. exists [1; 2; 3].
  split; [repeat constructor; lia | reflexivity].
Defined.

(** The common prefix of two keys and what follows it. *)
Lemma prefixLen_split a b :
  ∃ c a' b', a = c ++ a' ∧ b = c ++ b' ∧ prefixLen a b = length c ∧
    ∀ x y r s, a' = x :: r → b' = y :: s → x ≠ y.
Proof.
  revert b. induction a as [|x a IH]; intros b; [exists [], [], b; by split_and!|].
  destruct b as [|y b]; [exists [], (x :: a), []; by split_and!|]. simpl.
  destruct (Z.eqb_spec x y) as [->|Hxy].
  - destruct (IH b) as (c & a' & b' & -> & -> & -> & Hd). by exists (y :: c), a', b'.
  - exists [], (x :: a), (y :: b). split_and!; [done..|]. naive_solver.
Qed.

Lemma prefixLen_diverge c x y r s : y ≠ x → prefixLen (c ++ y :: s) (c ++ x :: r) = length c.
Proof.
  intros Hyx. induction c as [|z c IH]; simpl; [|by rewrite Z.eqb_refl, IH].
  destruct (Z.eqb_spec y x); congruence.
Qed.

Lemma prefixLen_app c r : prefixLen (c ++ r) c = length c.
Proof. induction c as [|z c IH]; simpl; [by destruct r|]. by rewrite Z.eqb_refl, IH. Qed.
