(* ===== verification/TrieNode.v ===== *)
(** * Trie nodes (trie/node.go, trie/node_enc.go)

    The node types of the Merkle Patricia trie with their caches, the RLP encoder of a
    node and the decoder of a stored one.  The encoder is shown to write the recursive
    definition [node_rlp]; what the decoder makes of it is in [TrieTree]. *)

From stdpp Require Import pretty.
From S2P Require Import Prelude Bytes RlpEncode RlpRaw Common TrieKeys.

Open Scope Z_scope.

(** ** Nodes *)

Record nodeFlag := mkNodeFlag {
  nf_hash : option (list byte); (* cached hash of the node, may be nil *)
  nf_dirty : bool;              (* changes not in the database yet *)
}.

(** The interface [node]; [NilNode] is the nil interface.  The children of a full node
    are an array of 17. *)
Inductive node :=
| NilNode
| FullNode (Children : list node) (flags : nodeFlag)
| ShortNode (Key : list byte) (Val : node) (flags : nodeFlag)
| HashNode (b : list byte)
| ValueNode (b : list byte)
| RawNode (b : list byte).

Definition is_nil (n : node) : bool := match n with NilNode => true | _ => false end.

Definition nilValueNode : node := ValueNode [].

Definition cache (n : node) : res (option (list byte) * bool) :=
  match n with
  | FullNode _ f | ShortNode _ _ f => Ok (nf_hash f, nf_dirty f)
  | HashNode _ | ValueNode _ => Ok (None, true)
  | RawNode _ => Panic "this should never end up in a live trie"
  | NilNode => Panic "nil pointer dereference"
  end.

(** ** Encoding *)

Definition EmptyString : list byte := [0x80].

Definition encode_children (enc : node → encBuffer → encBuffer) :=
  fix go (cs : list node) (w : encBuffer) : encBuffer :=
    match cs with [] => w | c :: cs => go cs (enc c w) end.

(** The [encode] methods; the parents write [EmptyString] for a nil child. *)
Fixpoint node_encode (n : node) (w : encBuffer) : encBuffer :=
  match n with
  | NilNode => append_str w EmptyString
  | FullNode cs _ =>
      let '(w, offset) := buf_list w in
      listEnd (encode_children node_encode cs w) offset
  | ShortNode k v _ =>
      let '(w, offset) := buf_list w in
      listEnd (node_encode v (buf_writeBytes w k)) offset
  | HashNode b | ValueNode b => buf_writeBytes w b
  | RawNode b => append_str w b
  end.

Definition nodeToBytes (n : node) : list byte := makeBytes (node_encode n reset).

(** ** Decoding *)

Inductive node_error :=
| errNodeEOF                        (* io.ErrUnexpectedEOF *)
| errNodeDecode (e : rlp_error)     (* decode error *)
| errNodeCount (c : Z)              (* invalid number of list elements *)
| errNodeRlp (e : rlp_error)
| errNodeValue (e : rlp_error)      (* invalid value node *)
| errNodeOversized (size : Z)       (* oversized embedded node *)
| errNodeStringSize (size : Z)      (* invalid RLP string size *)
| decodeError (what : node_error) (stack : list string).

Definition wrapError {A} (r : node_error + A) (ctx : string) : node_error + A :=
  match r with
  | inr a => inr a
  | inl (decodeError what stack) => inl (decodeError what (stack ++ [ctx]))
  | inl e => inl (decodeError e [ctx])
  end.

Definition rlp_err {A} (r : rlp_error + A) : node_error + A :=
  match r with inr a => inr a | inl e => inl (errNodeRlp e) end.

Definition hashLen : nat := 32.

(** The decoders of the parts of a node take [dec], the decoder of an embedded node
    ([decodeNode(nil, buf)]). *)
Definition decodeRef (dec : list byte → node_error + node) (buf : list byte)
  : node_error + (node * list byte) :=
  '(kind, val, rest) ← rlp_err (Split buf);
  match kind with
  | List =>
      (* the encoding of an embedded node must be smaller than a hash *)
      let size := (length buf - length rest)%nat in
      if (hashLen <? size)%nat then inl (errNodeOversized (Z.of_nat size))
      else n ← dec buf; inr (n, rest)
  | String =>
      if (length val =? 0)%nat then inr (NilNode, rest)
      else if (length val =? 32)%nat then inr (HashNode val, rest)
      else inl (errNodeStringSize (Z.of_nat (length val)))
  | Byte => inl (errNodeStringSize (Z.of_nat (length val)))
  end.

Definition decodeShort (dec : list byte → node_error + node) (hash : option (list byte))
    (elems : list byte) : node_error + node :=
  '(kbuf, rest) ← rlp_err (SplitString elems);
  let flag := mkNodeFlag hash false in
  let key := compactToHex kbuf in
  if hasTerm key then
    match SplitString rest with
    | inl e => inl (errNodeValue e)
    | inr (val, _) => inr (ShortNode key (ValueNode val) flag)
    end
  else
    '(r, _) ← wrapError (decodeRef dec rest) "val";
    inr (ShortNode key r flag).

(** The loop of [decodeFull] from child [i] on. *)
Fixpoint decode_children (dec : list byte → node_error + node) (k i : nat) (elems : list byte)
  : node_error + (list node * list byte) :=
  match k with
  | O => inr ([], elems)
  | S k =>
      '(cld, elems) ← wrapError (decodeRef dec elems) ("[" +:+ pretty i +:+ "]");
      '(cs, elems) ← decode_children dec k (S i) elems;
      inr (cld :: cs, elems)
  end.

Definition decodeFull (dec : list byte → node_error + node) (hash : option (list byte))
    (elems : list byte) : node_error + node :=
  '(cs, elems) ← decode_children dec 16 0 elems;
  '(val, _) ← rlp_err (SplitString elems);
  let last := match val with [] => NilNode | _ => ValueNode val end in
  inr (FullNode (cs ++ [last]) (mkNodeFlag hash false)).

(** An embedded node lies inside the content of its parent, so the length of the input
    bounds the depth. *)
Fixpoint decode_node (fuel : nat) (hash : option (list byte)) (buf : list byte)
  : node_error + node :=
  match fuel, buf with
  | S fuel, _ :: _ =>
      match SplitList buf with
      | inl e => inl (errNodeDecode e)
      | inr (elems, _) =>
          let c := match CountValues elems with inr c => c | inl _ => 0 end in
          if c =? 2 then wrapError (decodeShort (decode_node fuel None) hash elems) "short"
          else if c =? 17 then wrapError (decodeFull (decode_node fuel None) hash elems) "full"
          else inl (errNodeCount c)
      end
  | _, _ => inl errNodeEOF
  end.

Definition decodeNodeUnsafe (hash : option (list byte)) (buf : list byte) : node_error + node :=
  decode_node (length buf) hash buf.
Definition decodeNode (hash : option (list byte)) (buf : list byte) : node_error + node :=
  decodeNodeUnsafe hash buf.

Definition mustDecodeNode (hash : option (list byte)) (buf : list byte) : res node :=
  match decodeNode hash buf with
  | inr n => Ok n
  | inl _ => Panic "node: cannot be decoded"
  end.

(** ** Induction on nodes *)

Section node_ind.
Variable P : node → Prop.
Hypothesis Hnil : P NilNode.
Hypothesis Hfull : ∀ cs f, Forall P cs → P (FullNode cs f).
Hypothesis Hshort : ∀ k v f, P v → P (ShortNode k v f).
Hypothesis Hhash : ∀ b, P (HashNode b).
Hypothesis Hvalue : ∀ b, P (ValueNode b).
Hypothesis Hraw : ∀ b, P (RawNode b).

Lemma node_nested_ind : ∀ n, P n.
Proof.
  fix IH 1. intros [|cs f|k v f|b|b|b]; [done| | |done|done|done].
  - apply Hfull. induction cs as [|c cs IHcs]; constructor; [apply IH|apply IHcs].
  - apply Hshort, IH.
Qed.
End node_ind.

(** ** What the encoder writes *)

Fixpoint node_rlp (n : node) : list byte :=
  match n with
  | NilNode => EmptyString
  | FullNode cs _ => rlp_list (concat (map node_rlp cs))
  | ShortNode k v _ => rlp_list (rlp_string k ++ node_rlp v)
  | HashNode b | ValueNode b => rlp_string b
  | RawNode b => b
  end.

Lemma writes_bytes b : writes (λ w, inr (buf_writeBytes w b)) (inr (rlp_string b)).
Proof.
  apply writes_str. intros Hn buf. apply buf_writeBytes_spec.
  pose proof (rlp_string_length b). lia.
Qed.

Lemma node_encode_writes n : writes (λ w, inr (node_encode n w)) (inr (node_rlp n)).
Proof.
  induction n as [|cs f IH|k v f IH|b|b|b] using node_nested_ind; cbn [node_encode node_rlp].
  - by apply writes_str.
  - apply (writes_list (λ w, inr (encode_children node_encode cs w)) (inr _)).
    induction IH as [|c cs Hc _ IH]; [apply writes_ret|].
    apply (writes_seq _ _ _ _ Hc IH).
  - apply (writes_list (λ w, inr (node_encode v (buf_writeBytes w k))) (inr _)).
    apply (writes_seq _ _ _ _ (writes_bytes k) IH).
  - apply writes_bytes.
  - apply writes_bytes.
  - by apply writes_str.
Qed.

Lemma nodeToBytes_rlp n :
  Z.of_nat (length (node_rlp n)) < 2 ^ 64 → nodeToBytes n = node_rlp n.
Proof.
  intros Hn. destruct (node_encode_writes n) as [_ Hw].
  destruct (Hw Hn) as (ps & <- & E). specialize (E reset). injection E as E.
  unfold nodeToBytes. rewrite E. apply makeBytes_extend.
Qed.
