(* ===== verification/TrieTree.v ===== *)
(** * Merkle Patricia trees

    The trie without its caches and with every node loaded, as a specification: [tget]
    reads a key, [twf] are the trees in minimal form, and a tree in minimal form is
    determined by what it maps ([twf_canonical]).  [tenc] is the encoding of a node as the
    Yellow Paper defines it, with children of 32 bytes or more replaced by their hashes;
    [decodeNode] reads back one level of it ([decodeNode_tenc]). *)

From S2P Require Import Prelude Bytes RlpEncode RlpRaw Common TrieKeys TrieNode.

Open Scope Z_scope.

Inductive tree :=
| TNil
| TValue (v : list byte)
| TShort (k : list byte) (t : tree)
| TFull (cs : list tree).

Section tree_ind.
Variable P : tree → Prop.
Hypothesis Hnil : P TNil.
Hypothesis Hvalue : ∀ v, P (TValue v).
Hypothesis Hshort : ∀ k t, P t → P (TShort k t).
Hypothesis Hfull : ∀ cs, Forall P cs → P (TFull cs).

Lemma tree_nested_ind : ∀ t, P t.
Proof.
  fix IH 1. intros [|v|k t|cs]; [done|done|apply Hshort, IH|].
  apply Hfull. induction cs as [|c cs IHcs]; constructor; [apply IH|apply IHcs].
Qed.
End tree_ind.

(** ** Reading a key *)

Fixpoint tget (t : tree) (q : list byte) : option (list byte) :=
  match t with
  | TNil => None
  | TValue v => match q with [] => Some v | _ => None end
  | TShort k t => if bool_decide (take (length k) q = k) then tget t (drop (length k) q) else None
  | TFull cs =>
      match q with
      | x :: q => if x <? 0 then None else nth (Z.to_nat x) (map tget cs) (λ _, None) q
      | [] => None
      end
  end.

Lemma tget_full cs x q :
  0 <= x → tget (TFull cs) (x :: q) = (c ← cs !! Z.to_nat x; tget c q).
Proof.
  intros Hx. simpl. destruct (Z.ltb_spec x 0); [lia|]. generalize (Z.to_nat x) as i. intros i.
  revert i. induction cs as [|c cs IH]; by intros [|i]; simpl.
Qed.

Lemma tget_full_inv cs q v :
  tget (TFull cs) q = Some v →
  ∃ i c q', cs !! i = Some c ∧ q = Z.of_nat i :: q' ∧ tget c q' = Some v.
Proof.
  destruct q as [|x q]; [done|]. destruct (Z.lt_ge_cases x 0).
  { simpl. by rewrite (proj2 (Z.ltb_lt x 0)). }
  rewrite tget_full by done. destruct (cs !! Z.to_nat x) as [c|] eqn:E; [|done].
  intros Ht. exists (Z.to_nat x), c, q. split_and!; [done| |done]. f_equal. lia.
Qed.

Lemma tget_full_nat cs i c q :
  cs !! i = Some c → tget (TFull cs) (Z.of_nat i :: q) = tget c q.
Proof. intros E. rewrite tget_full, Nat2Z.id, E by lia. done. Qed.

Lemma tget_short k t q : tget (TShort k t) (k ++ q) = tget t q.
Proof.
  simpl. rewrite take_app_length, drop_app_length. by rewrite bool_decide_true.
Qed.

Lemma tget_short_inv k t q v :
  tget (TShort k t) q = Some v → ∃ q', q = k ++ q' ∧ tget t q' = Some v.
Proof.
  simpl. case_bool_decide as E; [|done]. intros Ht. exists (drop (length k) q).
  split; [|done]. rewrite <- E at 1. by rewrite take_drop.
Qed.

(** ** Trees in minimal form *)

Definition val_ok (v : list byte) : Prop := v ≠ [] ∧ bytes_ok v.

(** The keys below a node that is not a value: nibbles and the terminator. *)
Definition key_ok (k : list byte) : Prop := ∃ n, nibbles_ok n ∧ k = n ++ [16].

Definition two_children (cs : list tree) : Prop :=
  ∃ i j c d, (i < j)%nat ∧ cs !! i = Some c ∧ cs !! j = Some d ∧ c ≠ TNil ∧ d ≠ TNil.

Inductive twf : tree → Prop :=
| twf_leaf k v : key_ok k → val_ok v → twf (TShort k (TValue v))
| twf_ext k cs : k ≠ [] → nibbles_ok k → twf (TFull cs) → twf (TShort k (TFull cs))
| twf_full cs :
    length cs = 17%nat →
    (∀ i c, cs !! i = Some c → (i < 16)%nat → c ≠ TNil → twf c) →
    (∀ c, cs !! 16%nat = Some c → c ≠ TNil → ∃ v, c = TValue v ∧ val_ok v) →
    two_children cs →
    twf (TFull cs).

(** What can stand where the key [k] is left: a value at its end, a node before it. *)
Definition wf_at (k : list byte) (t : tree) : Prop :=
  t ≠ TNil → match k with [] => ∃ v, t = TValue v ∧ val_ok v | _ => twf t end.

Lemma key_ok_cons x k :
  key_ok (x :: k) ↔ x = 16 ∧ k = [] ∨ 0 <= x < 16 ∧ key_ok k.
Proof.
  split.
  - intros ([|y n] & Hn & E); simplify_eq/=; [by left|]. right.
    apply Forall_cons in Hn as [Hx Hn]. split; [done|]. by exists n.
  - intros [[-> ->]|[Hx (n & Hn & ->)]]; [by exists []; split; [constructor|]|].
    exists (x :: n). split; [by constructor|done].
Qed.

Lemma key_ok_not_nil k : key_ok k → k ≠ [].
Proof. intros (n & _ & ->). by destruct n. Qed.

Lemma key_ok_app n k : nibbles_ok n → key_ok k → key_ok (n ++ k).
Proof.
  intros Hn (m & Hm & ->). exists (n ++ m). rewrite <- app_assoc. split; [|done].
  by apply Forall_app.
Qed.

(** No key is a prefix of another. *)
Lemma key_ok_prefix k k' q : key_ok k → key_ok k' → k' = k ++ q → q = [].
Proof.
  revert k'. induction k as [|x k IH]; intros k' Hk Hk' E; [by apply key_ok_not_nil in Hk|].
  subst k'. simpl in Hk'. rewrite key_ok_cons in Hk, Hk'.
  destruct Hk as [[Hx ->]|[Hx Hk]], Hk' as [[Hx' E']|[Hx' Hk']]; try lia; [done|by eapply IH].
Qed.

Lemma keybytesToHex_key_ok s : bytes_ok s → key_ok (keybytesToHex s).
Proof. intros Hs. eexists. split; [|done]. by apply nibbles_of_ok. Qed.

Lemma twf_not_nil t : twf t → t ≠ TNil.
Proof. by destruct 1. Qed.

(** A tree in minimal form maps only proper keys to proper values. *)
Lemma twf_get t k v : twf t → tget t k = Some v → key_ok k ∧ val_ok v.
Proof.
  intros Ht. revert k. induction Ht as [k' v' Hk Hv|k' cs Hne Hk _ IH|cs Hl Hc IH H16 _];
    intros k E.
  - apply tget_short_inv in E as (q & -> & E). destruct q; simplify_eq/=.
    by rewrite app_nil_r.
  - apply tget_short_inv in E as (q & -> & E). destruct (IH q E). split; [|done].
    by apply key_ok_app.
  - apply tget_full_inv in E as (i & c & q & Ei & -> & E).
    assert (i < 17)%nat by (rewrite <- Hl; by eapply lookup_lt_Some).
    assert (c ≠ TNil) as Hn by by intros ->. rewrite key_ok_cons.
    destruct (decide (i = 16%nat)) as [->|].
    + destruct (H16 c Ei Hn) as (w & -> & Hw). destruct q; simplify_eq/=. auto.
    + destruct (IH i c Ei ltac:(lia) Hn q E). split; [right; split; [lia|done]|done].
Qed.

Lemma value_get v q w : tget (TValue v) q = Some w → q = [] ∧ v = w.
Proof. destruct q; naive_solver. Qed.

(** It is not empty. *)
Lemma twf_inhabited t : twf t → ∃ k v, tget t k = Some v.
Proof.
  induction 1 as [k v Hk Hv|k cs Hne Hk _ (q & v & IH)|cs Hl Hc IH H16 (i & j & c & d & Hij & Ei & Ej & Hcn & Hdn)].
  - exists (k ++ []), v. by rewrite tget_short.
  - exists (k ++ q), v. by rewrite tget_short.
  - assert (j < 17)%nat by (rewrite <- Hl; by eapply lookup_lt_Some).
    destruct (IH i c Ei ltac:(lia) Hcn) as (q & v & E).
    exists (Z.of_nat i :: q), v. by rewrite (tget_full_nat _ _ c).
Qed.

(** A full node maps two keys that differ in the first nibble. *)
Lemma full_two_keys cs :
  twf (TFull cs) → ∃ x y p q v w, x ≠ y ∧
    tget (TFull cs) (x :: p) = Some v ∧ tget (TFull cs) (y :: q) = Some w.
Proof.
  inversion 1 as [| |? Hl Hc H16 (i & j & c & d & Hij & Ei & Ej & Hcn & Hdn)]; subst.
  assert (∀ i c, cs !! i = Some c → c ≠ TNil → ∃ q v, tget c q = Some v) as Hin.
  { intros k e Ek He. assert (k < 17)%nat by (rewrite <- Hl; by eapply lookup_lt_Some).
    destruct (decide (k = 16%nat)) as [->|].
    - destruct (H16 e Ek He) as (w & -> & _). by exists [], w.
    - apply twf_inhabited. apply (Hc k); [done|lia|done]. }
  destruct (Hin i c Ei Hcn) as (p & v & Ep), (Hin j d Ej Hdn) as (q & w & Eq).
  exists (Z.of_nat i), (Z.of_nat j), p, q, v, w. split; [lia|].
  by rewrite (tget_full_nat _ i c), (tget_full_nat _ j d).
Qed.

(** ** Minimal form is canonical *)

Lemma prefix_diverge {A} (k' k : list A) x y p q r s :
  x ≠ y → k ++ x :: p = k' ++ r → k ++ y :: q = k' ++ s → k' `prefix_of` k.
Proof.
  intros Hxy. revert k. induction k' as [|z k' IH]; intros k E1 E2; [apply prefix_nil|].
  destruct k as [|z' k]; simplify_eq/=. apply prefix_cons. by eapply IH.
Qed.

Lemma short_full_prefix k cs k' t :
  twf (TFull cs) → (∀ q, tget (TShort k (TFull cs)) q = tget (TShort k' t) q) →
  k' `prefix_of` k.
Proof.
  intros (x & y & p & q & v & w & Hxy & E1 & E2)%full_two_keys Hq.
  pose proof (Hq (k ++ x :: p)) as Q1. pose proof (Hq (k ++ y :: q)) as Q2.
  rewrite tget_short in Q1, Q2. rewrite E1 in Q1. rewrite E2 in Q2. symmetry in Q1, Q2.
  apply tget_short_inv in Q1 as (r & Er & _), Q2 as (s & Es & _).
  by eapply prefix_diverge.
Qed.

Lemma leaf_not_full k v k' cs :
  twf (TFull cs) → (∀ q, tget (TShort k (TValue v)) q = tget (TShort k' (TFull cs)) q) → False.
Proof.
  intros (x & y & p & q & v1 & w & Hxy & E1 & E2)%full_two_keys Hq.
  pose proof (Hq (k' ++ x :: p)) as Q1. pose proof (Hq (k' ++ y :: q)) as Q2.
  rewrite (tget_short k') in Q1, Q2. rewrite E1 in Q1. rewrite E2 in Q2.
  apply tget_short_inv in Q1 as (r & Er & [-> _]%value_get), Q2 as (s & Es & [-> _]%value_get).
  rewrite <- Es in Er. simplify_list_eq.
Qed.

Lemma short_nil t q : tget (TShort [] t) q = tget t q.
Proof. simpl. by rewrite drop_0. Qed.

Lemma children_equal cs cs' :
  twf (TFull cs) → twf (TFull cs') →
  (∀ i c, cs !! i = Some c → (i < 16)%nat → c ≠ TNil →
     ∀ c', twf c' → (∀ q, tget c q = tget c' q) → c = c') →
  (∀ q, tget (TFull cs) q = tget (TFull cs') q) → cs = cs'.
Proof.
  inversion 1 as [| |? Hl Hc H16 _]; subst. inversion 1 as [| |? Hl' Hc' H16' _]; subst.
  intros IH Hq. apply list_eq_same_length with 17%nat; [done|done|]. intros i c c' Hi Ec Ec'.
  assert (∀ q, tget c q = tget c' q) as Hcc.
  { intros q. rewrite <- (tget_full_nat cs i c q), <- (tget_full_nat cs' i c' q) by done. apply Hq. }
  assert (∀ e, twf e → ∃ q, tget e q ≠ None) as Hin.
  { intros e (k & v & E)%twf_inhabited. exists k. by rewrite E. }
  destruct (decide (i = 16%nat)) as [->|].
  - assert (∀ e, e = TNil ∨ e ≠ TNil) as Hdec by (intros []; auto).
    destruct (Hdec c) as [->|Hn], (Hdec c') as [->|Hn']; [done| | |].
    + destruct (H16' _ Ec' Hn') as (v & -> & _). by specialize (Hcc []).
    + destruct (H16 _ Ec Hn) as (v & -> & _). by specialize (Hcc []).
    + destruct (H16 _ Ec Hn) as (v & -> & _), (H16' _ Ec' Hn') as (v' & -> & _).
      specialize (Hcc []). by simplify_eq/=.
  - destruct (decide (i < 16)%nat); [|lia].
    assert (∀ e, e = TNil ∨ e ≠ TNil) as Hdec by (intros []; auto).
    destruct (Hdec c) as [->|Hn], (Hdec c') as [->|Hn']; [done| | |].
    + destruct (Hin c') as [q Hq']; [by eapply Hc'|]. by rewrite <- Hcc in Hq'.
    + destruct (Hin c) as [q Hq']; [by eapply Hc|]. by rewrite Hcc in Hq'.
    + eapply IH; eauto.
Qed.

Lemma twf_canonical t : twf t → ∀ t', twf t' → (∀ q, tget t q = tget t' q) → t = t'.
Proof.
  induction 1 as [k v Hk Hv|k cs Hne Hk Hf IH|cs Hl Hc IH H16 H2]; intros t' Ht' Hq.
  - destruct Ht' as [k' v' Hk' Hv'|k' cs' _ _ Hf'|cs' ? ? ? ?].
    + pose proof (Hq (k ++ [])) as E. rewrite tget_short in E. symmetry in E.
      apply tget_short_inv in E as (q & E & [-> ->]%value_get). by simplify_list_eq.
    + by destruct (leaf_not_full _ _ _ _ Hf' Hq).
    + destruct (leaf_not_full k v [] cs'); [by constructor|]. intros q. by rewrite short_nil.
  - destruct Ht' as [k' v' Hk' Hv'|k' cs' _ _ Hf'|cs' ? ? ? ?].
    + by destruct (leaf_not_full k' v' k cs Hf).
    + assert (k = k') as <-.
      { assert (k `prefix_of` k') as P1 by
          by apply (short_full_prefix k' cs' k (TFull cs)).
        assert (k' `prefix_of` k) as P2 by
          by apply (short_full_prefix k cs k' (TFull cs')).
        by apply (anti_symm prefix). }
      f_equal. apply IH; [done|]. intros q. by rewrite <- (tget_short k), Hq, tget_short.
    + destruct (short_full_prefix [] cs' k (TFull cs)) as [q E]; [by constructor| |].
      { intros q. by rewrite short_nil. }
      destruct k; done.
  - destruct Ht' as [k' v' Hk' Hv'|k' cs' Hne' _ Hf'|cs' ? ? ? ?].
    + destruct (leaf_not_full k' v' [] cs); [by constructor|]. intros q. by rewrite short_nil.
    + destruct (short_full_prefix [] cs k' (TFull cs')) as [q E]; [by constructor| |].
      { intros q. by rewrite short_nil. }
      destruct k'; done.
    + f_equal. apply children_equal; [by constructor|by constructor| |done].
      intros i c Ec Hi Hn c' Hc' Hcc. by eapply IH.
Qed.

(** ** Changing one key

    [updated k o t t']: the tree [t'] maps [k] to [o] and is [t] elsewhere. *)

Definition updated (k : list byte) (o : option (list byte)) (t t' : tree) : Prop :=
  ∀ q, tget t' q = if decide (q = k) then o else tget t q.

Lemma tget_short_cons x r t z q :
  tget (TShort (x :: r) t) (z :: q) = if decide (z = x) then tget (TShort r t) q else None.
Proof.
  simpl. destruct (decide (z = x)) as [->|Hne]; case_bool_decide as E1; try done.
  - injection E1 as E1. by rewrite bool_decide_true.
  - rewrite bool_decide_false; [done|]. intros E2. by rewrite E2 in E1.
  - by injection E1.
Qed.

Lemma tget_short_app a b t q : tget (TShort (a ++ b) t) q = tget (TShort a (TShort b t)) q.
Proof.
  revert q. induction a as [|x a IH]; intros q; [by rewrite short_nil|].
  destruct q as [|z q]; [done|]. simpl app. rewrite !tget_short_cons. by rewrite IH.
Qed.

Lemma tget_short_ext k t t' : (∀ q, tget t q = tget t' q) → ∀ q, tget (TShort k t) q = tget (TShort k t') q.
Proof. intros Ht q. simpl. case_bool_decide; auto. Qed.

Lemma updated_same k t : updated k (tget t k) t t.
Proof. intros q. case_decide; by subst. Qed.

Lemma updated_short k0 k1 o t t' :
  updated k1 o t t' → updated (k0 ++ k1) o (TShort k0 t) (TShort k0 t').
Proof.
  intros Hu. induction k0 as [|x k0 IH]; intros q.
  - rewrite !short_nil. apply Hu.
  - destruct q as [|z q]; [done|]. simpl app. rewrite !tget_short_cons, IH.
    repeat case_decide; naive_solver.
Qed.

Lemma updated_full x k o ts c c' :
  0 <= x → ts !! Z.to_nat x = Some c → updated k o c c' →
  updated (x :: k) o (TFull ts) (TFull (<[Z.to_nat x := c']> ts)).
Proof.
  intros Hx Ec Hu [|z q]; [done|]. destruct (Z.lt_ge_cases z 0).
  { simpl. rewrite (proj2 (Z.ltb_lt z 0)) by done. rewrite decide_False by naive_solver lia. done. }
  rewrite !tget_full by done. destruct (decide (z = x)) as [->|Hne].
  - rewrite Ec, list_lookup_insert_eq by by eapply lookup_lt_Some. simpl. rewrite Hu.
    repeat case_decide; naive_solver.
  - rewrite list_lookup_insert_ne by lia. rewrite decide_False by naive_solver. done.
Qed.

(** A short node with an empty key is its child. *)
Definition sub (r : list byte) (t : tree) : tree := match r with [] => t | _ => TShort r t end.

Lemma tget_sub r t q : tget (sub r t) q = tget (TShort r t) q.
Proof. destruct r; [by rewrite short_nil|done]. Qed.

Lemma updated_nil k v : updated k (Some v) TNil (sub k (TValue v)).
Proof.
  intros q. rewrite tget_sub. case_decide; subst.
  - rewrite <- (app_nil_r k) at 2. by rewrite tget_short.
  - destruct (tget (TShort k (TValue v)) q) eqn:Eq; [|done].
    apply tget_short_inv in Eq as (q' & -> & [-> _]%value_get). by rewrite app_nil_r in *.
Qed.

Lemma sub_not_nil r t : t ≠ TNil → sub r t ≠ TNil.
Proof. by destruct r. Qed.

(** What can stand at index [x] of a full node. *)
Definition child_ok (x : Z) (c : tree) : Prop :=
  c ≠ TNil ∧ 0 <= x < 17 ∧ (x = 16 → ∃ v, c = TValue v ∧ val_ok v) ∧ (x ≠ 16 → twf c).

Lemma key_ok_app_inv c x r : key_ok (c ++ x :: r) → nibbles_ok c ∧ key_ok (x :: r).
Proof.
  induction c as [|y c IH]; [intros; split; [constructor|done]|]. simpl. rewrite key_ok_cons.
  intros [[_ E]|[Hy Hk]]; [by destruct c|]. destruct (IH Hk). split; [by constructor|done].
Qed.

Lemma child_ok_leaf x r v : key_ok (x :: r) → val_ok v → child_ok x (sub r (TValue v)).
Proof.
  rewrite key_ok_cons. intros [[-> ->]|[Hx Hr]] Hv.
  - split_and!; [done|lia|lia|intros _; eauto|done].
  - split_and!; [by apply sub_not_nil|lia|lia|lia|]. intros _.
    pose proof (key_ok_not_nil r Hr). destruct r; [done|]. by constructor.
Qed.

Lemma twf_sub_full r cs : nibbles_ok r → twf (TFull cs) → twf (sub r (TFull cs)).
Proof. intros Hr Hf. destruct r; [done|]. by constructor. Qed.

Lemma child_ok_split c x r t : twf (TShort (c ++ x :: r) t) → nibbles_ok c ∧ child_ok x (sub r t).
Proof.
  inversion 1 as [? v Hk Hv|? cs Hne Hk Hf|]; subst.
  - apply key_ok_app_inv in Hk as [Hc Hk]. split; [done|]. by apply child_ok_leaf.
  - apply Forall_app in Hk as [Hc [Hx Hr]%Forall_cons]. split; [done|].
    split_and!; [by apply sub_not_nil|lia|lia|lia|]. intros _. by apply twf_sub_full.
Qed.

(** The full node that two diverging keys make. *)
Definition branch (x : Z) (c : tree) (y : Z) (d : tree) : list tree :=
  <[Z.to_nat y := d]> (<[Z.to_nat x := c]> (replicate 17 TNil)).

Lemma branch_lookup x c y d i :
  0 <= x < 17 → 0 <= y < 17 → x ≠ y → (i < 17)%nat →
  branch x c y d !! i =
    Some (if decide (Z.of_nat i = y) then d else if decide (Z.of_nat i = x) then c else TNil).
Proof.
  intros Hx Hy Hxy Hi. unfold branch. repeat case_decide.
  - assert (i = Z.to_nat y) as -> by lia.
    rewrite list_lookup_insert_eq; [done|]. rewrite length_insert, length_replicate. lia.
  - rewrite list_lookup_insert_ne by lia. assert (i = Z.to_nat x) as -> by lia.
    rewrite list_lookup_insert_eq; [done|]. rewrite length_replicate. lia.
  - rewrite !list_lookup_insert_ne by lia. by apply lookup_replicate_2.
Qed.

Lemma twf_branch x c y d : x ≠ y → child_ok x c → child_ok y d → twf (TFull (branch x c y d)).
Proof.
  intros Hxy (Hcn & Hx & Hc16 & Hc) (Hdn & Hy & Hd16 & Hd).
  assert (length (branch x c y d) = 17%nat) as Hl
    by (unfold branch; by rewrite !length_insert, length_replicate).
  constructor; [done| | |].
  - intros i e E Hi Hn. rewrite branch_lookup in E by lia. injection E as <-.
    repeat case_decide; [apply Hd; lia|apply Hc; lia|done].
  - intros e E Hn. rewrite branch_lookup in E by lia. injection E as <-.
    repeat case_decide; [apply Hd16; lia|apply Hc16; lia|done].
  - assert (∀ a, branch x c y d !! a = Some (if decide (Z.of_nat a = y) then d else
      if decide (Z.of_nat a = x) then c else TNil) ∨ (17 <= a)%nat) as Hb.
    { intros a. destruct (decide (a < 17)%nat); [left; apply branch_lookup; lia|right; lia]. }
    destruct (Z.lt_ge_cases x y).
    + exists (Z.to_nat x), (Z.to_nat y), c, d. rewrite !branch_lookup, !Z2Nat.id by lia.
      split_and!; [lia| | |done|done]; repeat case_decide; done || lia.
    + exists (Z.to_nat y), (Z.to_nat x), d, c. rewrite !branch_lookup, !Z2Nat.id by lia.
      split_and!; [lia| | |done|done]; repeat case_decide; done || lia.
Qed.

(** Splitting a short node at the index where the new key leaves it. *)
Lemma updated_split c x r0 t y r v :
  0 <= x < 17 → 0 <= y < 17 → x ≠ y →
  updated (c ++ y :: r) (Some v) (TShort (c ++ x :: r0) t)
    (sub c (TFull (branch x (sub r0 t) y (sub r (TValue v))))).
Proof.
  intros Hx Hy Hxy. intros q. rewrite tget_sub, tget_short_app. revert q. apply updated_short.
  intros [|z q]; [done|]. destruct (Z.lt_ge_cases z 0).
  { simpl. rewrite (proj2 (Z.ltb_lt z 0)) by done. rewrite decide_False by naive_solver lia.
    rewrite bool_decide_false; [done|]. naive_solver lia. }
  rewrite tget_full, tget_short_cons by done.
  destruct (decide (z < 17)).
  - rewrite branch_lookup, Z2Nat.id by lia. simpl.
    destruct (decide (z = y)) as [->|Hzy].
    + rewrite (decide_False (P := y = x)) by done. rewrite tget_sub.
      destruct (decide (y :: r = y :: q)) as [[= ->]|Hne].
      * rewrite decide_True by done. rewrite <- (app_nil_r q) at 2. by rewrite tget_short.
      * rewrite decide_False by naive_solver.
        destruct (tget (TShort r (TValue v)) q) eqn:E; [|done].
        apply tget_short_inv in E as (q' & -> & [-> _]%value_get). by rewrite app_nil_r in Hne.
    + rewrite (decide_False (P := z :: q = y :: r)) by congruence.
      case_decide; [|done]. by rewrite tget_sub.
  - rewrite (decide_False (P := z :: q = y :: r)) by (intros [= -> _]; lia).
    rewrite decide_False by lia.
    rewrite (lookup_ge_None_2 (branch _ _ _ _)); [done|].
    unfold branch. rewrite !length_insert, length_replicate. lia.
Qed.

(** Removing a key: a full node with one child left is that child behind its nibble. *)
Lemma updated_ext k o t t1 t2 : (∀ q, tget t1 q = tget t2 q) → updated k o t t1 → updated k o t t2.
Proof. intros E Hu q. rewrite <- E. apply Hu. Qed.

Lemma single_child cs i d :
  cs !! i = Some d → (∀ j c, cs !! j = Some c → j ≠ i → c = TNil) →
  ∀ q, tget (TFull cs) q = tget (TShort [Z.of_nat i] d) q.
Proof.
  intros Ei Hn [|z q]; [done|]. rewrite tget_short_cons, short_nil.
  destruct (decide (z = Z.of_nat i)) as [->|Hz]; [by apply tget_full_nat|].
  destruct (tget (TFull cs) (z :: q)) eqn:E; [|done].
  apply tget_full_inv in E as (j & c & q' & Ej & [= -> ->] & E).
  rewrite (Hn j c Ej) in E; [done|]. by intros ->.
Qed.

Lemma twf_short_app k0 k t : nibbles_ok k0 → twf (TShort k t) → twf (TShort (k0 ++ k) t).
Proof.
  intros H0. inversion 1 as [? v Hk Hv|? cs Hne Hk Hf|]; subst; constructor; try done.
  - by apply key_ok_app.
  - destruct k0; done.
  - by apply Forall_app.
Qed.

Lemma twf_full_remove ts i :
  twf (TFull ts) → two_children (<[i := TNil]> ts) → twf (TFull (<[i := TNil]> ts)).
Proof.
  inversion 1 as [| |? Hl Hc H16 _]; subst. intros H2. constructor; [by rewrite length_insert| | |done].
  - intros j c Ej Hj Hn. apply list_lookup_insert_Some in Ej as [(_ & <- & _)|[_ Ej]]; [done|by eapply Hc].
  - intros c Ej Hn. apply list_lookup_insert_Some in Ej as [(_ & <- & _)|[_ Ej]]; [done|by apply H16].
Qed.

Lemma two_children_remove ts i :
  two_children ts → ∃ j c, <[i := TNil]> ts !! j = Some c ∧ c ≠ TNil.
Proof.
  intros (a & b & c & d & Hab & Ea & Eb & Hc & Hd). destruct (decide (a = i)) as [->|].
  - exists b, d. by rewrite list_lookup_insert_ne by lia.
  - exists a, c. by rewrite list_lookup_insert_ne by lia.
Qed.

(** ** The encoding of a tree *)

Section encoding.
Context `{Crypto}.

(** The compact key of a short node, which exists for hex keys ([compact_spec]). *)
Definition compact (k : list byte) : list byte :=
  match hexToCompact k with Ok c => c | Panic _ => [] end.

(** Nodes of 32 bytes or more are represented by their hash in their parent. *)
Definition embed (enc : list byte) : list byte :=
  if (length enc <? 32)%nat then enc else rlp_string (Keccak256 enc).

Fixpoint tref (t : tree) : list byte :=
  match t with
  | TNil => EmptyString
  | TValue v => rlp_string v
  | TShort k t => embed (rlp_list (rlp_string (compact k) ++ tref t))
  | TFull cs => embed (rlp_list (concat (map tref cs)))
  end.

Definition tbody (t : tree) : list byte :=
  match t with
  | TShort k t => rlp_string (compact k) ++ tref t
  | TFull cs => concat (map tref cs)
  | _ => []
  end.

Definition tenc (t : tree) : list byte := rlp_list (tbody t).

(** The root hash. *)
Definition troot (EmptyRoot : list byte) (t : tree) : list byte :=
  match t with TNil => EmptyRoot | _ => Keccak256 (tenc t) end.

(** A child as the decoder builds it from its parent's encoding. *)
Fixpoint tnode (t : tree) : node :=
  match t with
  | TNil => NilNode
  | TValue v => ValueNode v
  | TShort k c => if (length (tenc t) <? 32)%nat then ShortNode k (tnode c) (mkNodeFlag None false)
                  else HashNode (Keccak256 (tenc t))
  | TFull cs => if (length (tenc t) <? 32)%nat then FullNode (map tnode cs) (mkNodeFlag None false)
                else HashNode (Keccak256 (tenc t))
  end.

(** The node itself, one level loaded. *)
Definition top_node (f : nodeFlag) (t : tree) : node :=
  match t with
  | TShort k c => ShortNode k (tnode c) f
  | TFull cs => FullNode (map tnode cs) f
  | _ => tnode t
  end.

Lemma compact_spec k : hex_ok k → bytes_ok (compact k) ∧ compactToHex (compact k) = k.
Proof.
  intros (term & odd & s & Ho & Hs & ->)%hex_ok_iff. unfold compact.
  rewrite hexToCompact_hex_of by done. split; [by apply compact_of_ok|].
  by apply compactToHex_compact_of.
Qed.

Lemma key_ok_hex k : key_ok k → hex_ok k ∧ hasTerm k = true.
Proof. intros (n & Hn & ->). split; [right; eauto|apply hasTerm_snoc]. Qed.

(** A subtree: absent, a value or a node. *)
Definition sub_ok (c : tree) : Prop := c = TNil ∨ (∃ v, c = TValue v ∧ val_ok v) ∨ twf c.

Lemma twf_children cs : twf (TFull cs) → Forall sub_ok cs ∧ length cs = 17%nat.
Proof.
  inversion 1 as [| |? Hl Hc H16 _]; subst. split; [|done]. apply Forall_lookup. intros i c E.
  assert (i < 17)%nat by (rewrite <- Hl; by eapply lookup_lt_Some).
  assert (c = TNil ∨ c ≠ TNil) as [->|Hn] by (destruct c; auto); [by left|right].
  destruct (decide (i = 16%nat)) as [->|]; [left; eauto|right]. apply (Hc i); [done|lia|done].
Qed.

Lemma tref_node c : twf c → tref c = embed (tenc c).
Proof. by destruct 1. Qed.

Lemma embed_ok enc : (Z.of_nat (length enc) < 2 ^ 64 → bytes_ok enc) → bytes_ok (embed enc).
Proof.
  intros He. unfold embed. destruct (Nat.ltb_spec (length enc) 32); [apply He; lia|].
  apply rlp_string_ok; [apply Keccak256_ok|]. rewrite Keccak256_length. lia.
Qed.

Lemma rlp_list_length c : (length c < length (rlp_list c))%nat.
Proof. unfold rlp_list, rlp_head. rewrite length_app. case_match; simpl; lia. Qed.

Lemma rlp_list_ok' c :
  (Z.of_nat (length c) < 2 ^ 64 → bytes_ok c) →
  Z.of_nat (length (rlp_list c)) < 2 ^ 64 → bytes_ok (rlp_list c).
Proof.
  intros Hc Hn. pose proof (rlp_list_length c).
  apply rlp_list_ok; [apply Hc|]; lia.
Qed.

Lemma tbody_ok t : twf t → Z.of_nat (length (tbody t)) < 2 ^ 64 → bytes_ok (tbody t).
Proof.
  assert (∀ v, val_ok v → Z.of_nat (length (rlp_string v)) < 2 ^ 64 → bytes_ok (rlp_string v)) as Hv.
  { intros v [_ Hv] Hn. pose proof (rlp_string_length v). apply rlp_string_ok; [done|lia]. }
  assert (∀ k, hex_ok k → Z.of_nat (length (rlp_string (compact k))) < 2 ^ 64 →
    bytes_ok (rlp_string (compact k))) as Hk.
  { intros k [Hk _]%compact_spec Hn. pose proof (rlp_string_length (compact k)).
    apply rlp_string_ok; [done|lia]. }
  assert (∀ t, twf t → (Z.of_nat (length (tbody t)) < 2 ^ 64 → bytes_ok (tbody t)) →
    bytes_ok (tref t)) as Hr.
  { intros c Hc IH. rewrite tref_node by done. apply embed_ok. by apply rlp_list_ok'. }
  induction 1 as [k v Hk' Hv'|k cs Hne Hk' Hf IH|cs Hl Hc IH H16 _]; cbn [tbody] in *;
    rewrite ?length_app; intros Hn.
  - apply Forall_app. split; [apply Hk; [by apply key_ok_hex|lia]|]. apply Hv; [done|].
    simpl in Hn. lia.
  - apply Forall_app. split; [apply Hk; [by left|lia]|]. by apply Hr.
  - assert (∀ i c, cs !! i = Some c → Z.of_nat (length (tref c)) < 2 ^ 64 → bytes_ok (tref c)) as Hall.
    { intros i c E Hb. assert (i < 17)%nat by (rewrite <- Hl; by eapply lookup_lt_Some).
      assert (c = TNil ∨ c ≠ TNil) as [->|Hcn] by (destruct c; auto).
      { repeat constructor; lia. }
      destruct (decide (i = 16%nat)) as [->|].
      - destruct (H16 c E Hcn) as (v & -> & Hv'). by apply Hv.
      - apply Hr; [apply (Hc i)|apply (IH i)]; by (lia || done). }
    clear Hl Hc IH H16. induction cs as [|c cs IH]; [constructor|]. simpl in *.
    rewrite length_app in Hn. apply Forall_app. split; [apply (Hall 0%nat); [done|lia]|].
    apply IH; [lia|]. intros i. apply (Hall (S i)).
Qed.

Lemma tenc_ok t : twf t → Z.of_nat (length (tenc t)) < 2 ^ 64 → bytes_ok (tenc t).
Proof. intros Ht. apply rlp_list_ok'. by apply tbody_ok. Qed.

(** ** Decoding it *)

Definition is_item (b : list byte) : Prop :=
  ∃ v, kind_fits v.1 v.2 = true ∧ b = kind_enc v.

Lemma rlp_string_item s : is_item (rlp_string s).
Proof.
  pose proof (proj1 (first_value_string (rlp_string s ++ []) s []) eq_refl) as Hf.
  rewrite !first_value_enc, !app_nil_r in Hf. destruct Hf as [[? ?]|[? ?]]; by eexists (_, _).
Qed.

Lemma rlp_list_item c : is_item (rlp_list c).
Proof. by exists (List, c). Qed.

Lemma CountValues_items l :
  Forall is_item l → bytes_ok (concat l) → Z.of_nat (length (concat l)) < 2 ^ 64 →
  CountValues (concat l) = inr (Z.of_nat (length l)).
Proof.
  intros Hl Hok Hn. apply count_loop_iff; [done|done|done|].
  clear Hok Hn. induction Hl as [|b l (v & Hv & ->) _ (vs & Hvs & E & En)].
  - exists []. split_and!; [constructor|done|done].
  - exists (v :: vs). split_and!; [by constructor|simpl; by rewrite E|simpl; lia].
Qed.

Lemma tref_item c : sub_ok c → is_item (tref c).
Proof.
  intros [->|[(v & -> & _)|Hc]]; [by exists (String, [])|apply rlp_string_item|].
  rewrite tref_node by done. unfold embed. case_match; [apply rlp_list_item|apply rlp_string_item].
Qed.

Lemma tbody_count t :
  twf t → Z.of_nat (length (tbody t)) < 2 ^ 64 →
  CountValues (tbody t) = inr (match t with TFull _ => 17 | _ => 2 end).
Proof.
  intros Ht Hn. pose proof (tbody_ok t Ht Hn) as Hok.
  destruct Ht as [k v Hk Hv|k cs Hne Hk Hf|cs Hl Hc H16 H2]; cbn [tbody] in *.
  - assert (rlp_string (compact k) ++ tref (TValue v)
      = concat [rlp_string (compact k); rlp_string v]) as E by (simpl; by rewrite app_nil_r).
    rewrite E in *. rewrite CountValues_items; [done| |done|done].
    repeat constructor; apply rlp_string_item.
  - assert (rlp_string (compact k) ++ tref (TFull cs)
      = concat [rlp_string (compact k); tref (TFull cs)]) as E by (simpl; by rewrite app_nil_r).
    rewrite E in *. rewrite CountValues_items; [done| |done|done].
    repeat constructor; [apply rlp_string_item|]. apply tref_item. right. by right.
  - assert (Forall sub_ok cs) as Hs by (by apply twf_children; constructor).
    rewrite CountValues_items; [by rewrite length_map, Hl| |done|done].
    apply Forall_map. eapply Forall_impl; [done|]. apply tref_item.
Qed.

(** What a parent's decoder makes of a child, when embedded nodes are decoded. *)
Lemma decodeRef_tref dec c rest :
  sub_ok c → bytes_ok (tref c ++ rest) → Z.of_nat (length (tref c ++ rest)) < 2 ^ 64 →
  (∀ v, c ≠ TValue v) →
  (twf c → (length (tenc c) < 32)%nat →
     dec (tenc c ++ rest) = inr (top_node (mkNodeFlag None false) c)) →
  decodeRef dec (tref c ++ rest) = inr (tnode c, rest).
Proof.
  intros Hs Hok Hn Hnv Hdec. unfold decodeRef.
  destruct Hs as [->|[(v & -> & _)|Hc]]; [|by destruct (Hnv v)|].
  { rewrite (proj2 (Split_iff _ String [] rest Hok Hn)) by by split. done. }
  assert (tnode c = if (length (tenc c) <? 32)%nat then top_node (mkNodeFlag None false) c
    else HashNode (Keccak256 (tenc c))) as -> by by destruct Hc.
  rewrite tref_node in * by done. unfold embed in *.
  destruct (Nat.ltb_spec (length (tenc c)) 32) as [Hlt|Hge].
  - assert (Split (tenc c ++ rest) = inr (List, tbody c, rest)) as ->.
    { apply Split_iff; [done|done|]. split; [done|]. unfold tenc, rlp_list.
      by rewrite <- app_assoc. }
    cbn [rlp_err mbind err_bind]. rewrite length_app, Nat.add_sub.
    rewrite (proj2 (Nat.ltb_ge hashLen (length (tenc c)))) by (unfold hashLen; lia).
    by rewrite Hdec.
  - assert (Split (rlp_string (Keccak256 (tenc c)) ++ rest)
      = inr (String, Keccak256 (tenc c), rest)) as ->.
    { apply Split_iff; [done|done|].
      destruct (proj1 (first_value_string _ (Keccak256 (tenc c)) rest) eq_refl) as [Hf|Hf]; [|done].
      destruct Hf as [Hf _]. pose proof (Keccak256_length (tenc c)) as Hl. simpl in Hf.
      destruct (Keccak256 (tenc c)) as [|x [|y l]]; done. }
    cbn [rlp_err mbind err_bind]. by rewrite Keccak256_length.
Qed.

(** The decoder [dec] of embedded nodes reads [c] back, whatever follows it. *)
Definition reads (dec : list byte → node_error + node) (c : tree) : Prop :=
  ∀ rest, bytes_ok (tenc c ++ rest) → Z.of_nat (length (tenc c ++ rest)) < 2 ^ 64 →
  dec (tenc c ++ rest) = inr (top_node (mkNodeFlag None false) c).

Definition ref_ok (dec : list byte → node_error + node) (c : tree) : Prop :=
  sub_ok c ∧ (∀ v, c ≠ TValue v) ∧ (twf c → (length (tenc c) < 32)%nat → reads dec c).

Lemma decodeRef_ref_ok dec c rest :
  ref_ok dec c → bytes_ok (tref c ++ rest) → Z.of_nat (length (tref c ++ rest)) < 2 ^ 64 →
  decodeRef dec (tref c ++ rest) = inr (tnode c, rest).
Proof.
  intros (Hs & Hv & Hr) Hok Hn. apply decodeRef_tref; [done|done|done|done|].
  intros Hc Hlt. assert (tref c = tenc c) as E.
  { rewrite tref_node by done. unfold embed. by rewrite (proj2 (Nat.ltb_lt _ _)). }
  rewrite E in *. by apply Hr.
Qed.

Lemma decode_children_trefs dec cs rest : ∀ i,
  Forall (ref_ok dec) cs →
  bytes_ok (concat (map tref cs) ++ rest) →
  Z.of_nat (length (concat (map tref cs) ++ rest)) < 2 ^ 64 →
  decode_children dec (length cs) i (concat (map tref cs) ++ rest) = inr (map tnode cs, rest).
Proof.
  induction cs as [|c cs IH]; intros i Hr Hok Hn; [done|].
  apply Forall_cons in Hr as [Hc Hr]. cbn [length decode_children map concat].
  cbn [map concat] in Hok, Hn. rewrite <- app_assoc in *.
  rewrite decodeRef_ref_ok by done. cbn [wrapError mbind err_bind].
  rewrite length_app in Hn. apply Forall_app in Hok as [_ Hok].
  rewrite IH; [done|done|done|lia].
Qed.

Lemma child_shorter c b :
  twf c → (length (tenc c) < 32)%nat → (length (tref c) <= length b)%nat →
  (length (tenc c) < length (rlp_list b))%nat.
Proof.
  intros Hc Hlt Hle. rewrite tref_node in Hle by done. unfold embed in Hle.
  rewrite (proj2 (Nat.ltb_lt _ _)) in Hle by done. pose proof (rlp_list_length b). lia.
Qed.

Lemma decodeShort_tbody dec hash k c :
  twf (TShort k c) → (twf c → (length (tenc c) < 32)%nat → reads dec c) →
  Z.of_nat (length (tbody (TShort k c))) < 2 ^ 64 →
  decodeShort dec hash (tbody (TShort k c)) = inr (ShortNode k (tnode c) (mkNodeFlag hash false)).
Proof.
  intros Ht Hr Hn. pose proof (tbody_ok _ Ht Hn) as Hok. unfold decodeShort.
  cbn [tbody] in *.
  rewrite (proj2 (SplitString_iff _ (compact k) (tref c) Hok Hn)) by done.
  cbn [rlp_err mbind err_bind].
  rewrite length_app in Hn. apply Forall_app in Hok as [_ Hok].
  inversion Ht as [? v Hk Hv|? cs Hne Hk Hf|]; subst.
  - apply key_ok_hex in Hk as [Hk Hterm]. rewrite (proj2 (compact_spec k Hk)), Hterm.
    cbn [tref] in *. rewrite (proj2 (SplitString_iff _ v [] Hok ltac:(lia))); [done|].
    by rewrite app_nil_r.
  - rewrite (proj2 (compact_spec k (or_introl Hk))), hasTerm_nibbles by done.
    rewrite <- (app_nil_r (tref (TFull cs))) in Hok, Hn |- *.
    rewrite decodeRef_ref_ok; [done| |done|lia].
    split_and!; [right; by right|done|done].
Qed.

Lemma decodeFull_tbody dec hash cs :
  twf (TFull cs) → (∀ c, c ∈ cs → twf c → (length (tenc c) < 32)%nat → reads dec c) →
  Z.of_nat (length (tbody (TFull cs))) < 2 ^ 64 →
  decodeFull dec hash (tbody (TFull cs)) = inr (FullNode (map tnode cs) (mkNodeFlag hash false)).
Proof.
  intros Ht Hr Hn. pose proof (tbody_ok _ Ht Hn) as Hok. cbn [tbody] in *.
  destruct (twf_children cs Ht) as [Hs _]. inversion Ht as [| |? Hl Hc H16 _]; subst.
  destruct cs as [|l cs _] using rev_ind; [done|]. clear Ht.
  rewrite length_app in Hl. simpl in Hl. assert (length cs = 16%nat) as L16 by lia.
  unfold decodeFull. rewrite map_app, concat_app in *. rewrite <- L16.
  rewrite decode_children_trefs; [| |done|done].
  - cbn [mbind err_bind map concat]. rewrite app_nil_r in *.
    rewrite length_app in Hn. apply Forall_app in Hok as [_ Hok].
    cbn [map concat] in Hok, Hn. rewrite app_nil_r in Hok, Hn.
    assert ((cs ++ [l]) !! 16%nat = Some l) as El by (rewrite <- L16; apply lookup_snoc_last).
    assert (l = TNil ∨ l ≠ TNil) as [->|Hln] by (destruct l; auto).
    + rewrite (proj2 (SplitString_iff _ [] [] Hok ltac:(lia))) by done.
      cbn. by rewrite map_app.
    + destruct (H16 l El Hln) as (v & -> & [Hv _]). cbn [tref] in *.
      rewrite (proj2 (SplitString_iff _ v [] Hok ltac:(lia))) by by rewrite app_nil_r.
      cbn [rlp_err mbind err_bind]. destruct v; [done|]. by rewrite map_app.
  - apply Forall_lookup. intros i c E.
    assert (i < 16)%nat by (rewrite <- L16; by eapply lookup_lt_Some).
    assert ((cs ++ [l]) !! i = Some c) as E' by by apply lookup_app_l_Some.
    assert (c = TNil ∨ c ≠ TNil) as [->|Hcn] by (destruct c; auto).
    { split_and!; [by left|done|by intros ?%twf_not_nil]. }
    assert (twf c) as Hcw by by eapply Hc.
    split_and!; [right; by right|intros v ->; inversion Hcw|].
    apply Hr. apply list_elem_of_lookup. eauto.
Qed.

Lemma concat_map_length_le {A} (f : A → list byte) l x :
  x ∈ l → (length (f x) <= length (concat (map f l)))%nat.
Proof.
  induction 1 as [x l|x y l _ IH]; simpl; rewrite length_app; lia.
Qed.

(** One level of the tree is read back from its encoding, whatever follows it. *)
Lemma decode_node_tenc fuel : ∀ t hash rest,
  twf t → (length (tenc t) <= fuel)%nat → bytes_ok (tenc t ++ rest) →
  Z.of_nat (length (tenc t ++ rest)) < 2 ^ 64 →
  decode_node fuel hash (tenc t ++ rest) = inr (top_node (mkNodeFlag hash false) t).
Proof.
  induction fuel as [|fuel IH]; intros t hash rest Ht Hf Hok Hn;
    pose proof (rlp_list_length (tbody t)) as Hlt; fold (tenc t) in Hlt; [lia|].
  assert (∀ c, twf c → (length (tenc c) < 32)%nat → (length (tref c) <= length (tbody t))%nat →
    reads (decode_node fuel None) c) as Hreads.
  { intros c Hc Hc32 Hle rest' Hok' Hn'. apply IH; [done| |done|done].
    pose proof (child_shorter c (tbody t) Hc Hc32 Hle) as Hcs. fold (tenc t) in Hcs. lia. }
  destruct (tenc t ++ rest) as [|x l] eqn:E.
  { apply app_eq_nil in E as [E _]. rewrite E in Hlt. simpl in Hlt. lia. }
  cbn [decode_node]. rewrite <- E in *.
  rewrite (proj2 (SplitList_iff _ (tbody t) rest Hok Hn)) by done.
  rewrite length_app in Hn. rewrite tbody_count by (done || lia).
  destruct t as [|v|k c|cs]; [by inversion Ht..| |].
  - cbn [Z.eqb Pos.eqb]. rewrite decodeShort_tbody; [done|done| |lia].
    intros Hc Hc32. apply Hreads; [done|done|]. cbn [tbody]. rewrite length_app. lia.
  - cbn [Z.eqb Pos.eqb]. rewrite decodeFull_tbody; [done|done| |lia].
    intros c Hin Hc Hc32. apply Hreads; [done|done|]. cbn [tbody]. by apply concat_map_length_le.
Qed.

Lemma decodeNode_tenc t hash :
  twf t → Z.of_nat (length (tenc t)) < 2 ^ 64 →
  decodeNode hash (tenc t) = inr (top_node (mkNodeFlag hash false) t).
Proof.
  intros Ht Hn. unfold decodeNode, decodeNodeUnsafe. rewrite <- (app_nil_r (tenc t)).
  rewrite (app_nil_r (tenc t)) at 1. apply decode_node_tenc; [done|done| |];
    rewrite app_nil_r; [by apply tenc_ok|done].
Qed.
End encoding.
