(* ===== verification/Trie.v ===== *)
(** * The trie (trie/trie.go, tracer.go, trie_reader.go, errors.go, trie_id.go)

    Reading and changing a Merkle Patricia trie whose nodes are loaded from a store when
    they are reached.  The recursive functions run in a monad that threads the tracer and
    returns an error, a panic, or nothing within their fuel: a step through a hash node
    does not consume the key, so their recursion is bounded by a number of rounds. *)

From S2P Require Import Prelude Bytes RlpEncode RlpRaw Common TrieKeys TrieNode.

Open Scope Z_scope.

(** ** errors.go and trie_id.go *)

Record MissingNodeError := mkMissingNodeError {
  mne_Owner : Hash;
  mne_NodeHash : Hash;
  mne_Path : list byte;
  mne_err : option string;
}.

Inductive trie_error :=
| ErrCommitted
| errNonConsensus (* non-consensus node *)
| errMissingNode (e : MissingNodeError).

Record ID := mkID { id_StateRoot : Hash; id_Owner : Hash; id_Root : Hash }.

Definition StateTrieID (root : Hash) : ID := mkID root 0 root.
Definition StorageTrieID (stateRoot owner root : Hash) : ID := mkID stateRoot owner root.
Definition TrieID (root : Hash) : ID := mkID root 0 root.

(** ** tracer.go *)

Record tracer := mkTracer {
  inserts : gset (list byte);
  deletes : gset (list byte);
  accessList : gmap (list byte) (list byte);
}.

Definition newTracer : tracer := mkTracer ∅ ∅ ∅.

Definition onRead (path val : list byte) (t : tracer) : tracer :=
  mkTracer (inserts t) (deletes t) (<[path := val]> (accessList t)).

Definition onInsert (path : list byte) (t : tracer) : tracer :=
  if decide (path ∈ deletes t) then mkTracer (inserts t) (deletes t ∖ {[path]}) (accessList t)
  else mkTracer ({[path]} ∪ inserts t) (deletes t) (accessList t).

Definition onDelete (path : list byte) (t : tracer) : tracer :=
  if decide (path ∈ inserts t) then mkTracer (inserts t ∖ {[path]}) (deletes t) (accessList t)
  else mkTracer (inserts t) ({[path]} ∪ deletes t) (accessList t).

Definition tracer_reset (t : tracer) : tracer := newTracer.

(** ** trie_reader.go *)

(** The interface [Reader] of the store: owner, path and hash of the node. *)
Abbreviation Reader := (Hash → list byte → Hash → string + list byte) (only parsing).

Record trieReader := mkTrieReader {
  tr_owner : Hash;
  tr_reader : option Reader;
  tr_banned : option (gset (list byte));
}.

Definition newTrieReader (stateRoot owner : Hash) (db : Hash → string + Reader)
  : trie_error + trieReader :=
  if bool_decide (stateRoot = 0) || bool_decide (stateRoot = EmptyRootHash) then
    inr (mkTrieReader owner None None)
  else match db stateRoot with
       | inl e => inl (errMissingNode (mkMissingNodeError owner stateRoot [] (Some e)))
       | inr reader => inr (mkTrieReader owner (Some reader) None)
       end.

Definition newEmptyReader : trieReader := mkTrieReader 0 None None.

Definition reader_node (r : trieReader) (path : list byte) (hash : Hash) : trie_error + list byte :=
  let missing err := inl (errMissingNode (mkMissingNodeError (tr_owner r) hash path err)) in
  if match tr_banned r with Some b => bool_decide (path ∈ b) | None => false end
  then missing None
  else match tr_reader r with
       | None => missing None
       | Some node =>
           match node (tr_owner r) path hash with
           | inl e => missing (Some e)
           | inr [] => missing None
           | inr blob => inr blob
           end
       end.

(** ** The monad of the recursive functions *)

Abbreviation tm := (etm tracer trie_error).

(** ** trie.go *)

Definition newFlag : nodeFlag := mkNodeFlag None true.

(** Writing [children[i]] of an array of 17. *)
Definition set_child (cs : list node) (i : Z) (n : node) : res (list node) :=
  if (0 <=? i) && (i <? Z.of_nat (length cs)) then Ok (<[Z.to_nat i := n]> cs)
  else Panic "index out of range".

Definition no_children : list node := replicate 17 NilNode.

Section operations.
Context (rd : trieReader).

Definition resolveAndTrack (n prefix : list byte) : tm node := λ t,
  match reader_node rd prefix (BytesToHash n) with
  | inl e => Done (inl e, t)
  | inr blob => try (mustDecodeNode (Some n) blob) (onRead prefix blob t)
  end.

Definition resolve (n : node) (prefix : list byte) : tm node :=
  match n with HashNode h => resolveAndTrack h prefix | _ => mret n end.

(** The key of a short node does not continue [key] at [pos]. *)
Definition key_mismatch (key : list byte) (pos : nat) (k : list byte) : bool :=
  (length key - pos <? length k)%nat || negb (bool_decide (k = take (length k) (drop pos key))).

Fixpoint get (fuel : nat) (origNode : node) (key : list byte) (pos : nat)
  : tm (option (list byte) * node * bool) :=
  match fuel with
  | O => out_of_fuel
  | S fuel =>
      match origNode with
      | NilNode => mret (None, NilNode, false)
      | ValueNode v => mret (Some v, origNode, false)
      | ShortNode k v f =>
          if key_mismatch key pos k then mret (None, origNode, false)
          else
            '(value, newnode, didResolve) ← get fuel v key (pos + length k);
            mret (value, if (didResolve : bool) then ShortNode k newnode f else origNode, didResolve)
      | FullNode cs f =>
          x ← try (go_index key (Z.of_nat pos));
          c ← try (go_index cs x);
          '(value, newnode, didResolve) ← get fuel c key (pos + 1);
          mret (value, if (didResolve : bool) then FullNode (<[Z.to_nat x := newnode]> cs) f
                       else origNode, didResolve)
      | HashNode h =>
          child ← resolveAndTrack h (take pos key);
          '(value, newnode, _) ← get fuel child key pos;
          mret (value, newnode, true)
      | RawNode _ => crash "invalid node"
      end
  end.

(** The hash under which a node reached by [getNode] is stored. *)
Definition stored_hash (n : node) : tm (option (list byte)) :=
  match n with
  | HashNode h => mret (Some h)
  | _ => '(hash, _) ← try (cache n); mret hash
  end.

(** The number of loaded nodes; the one returned beside an error is not modelled. *)
Fixpoint getNode (fuel : nat) (origNode : node) (path : list byte) (pos : nat)
  : tm (option (list byte) * node * Z) :=
  match fuel with
  | O => out_of_fuel
  | S fuel =>
      if is_nil origNode then mret (None, NilNode, 0)
      else if (length path <=? pos)%nat then
        hash ← stored_hash origNode;
        match hash with
        | None => fail errNonConsensus
        | Some h =>
            blob ← check (reader_node rd path (BytesToHash h));
            mret (Some blob, origNode, 1)
        end
      else
        match origNode with
        | NilNode | ValueNode _ => mret (None, NilNode, 0)
        | ShortNode k v f =>
            if key_mismatch path pos k then mret (None, origNode, 0)
            else
              '(item, newnode, resolved) ← getNode fuel v path (pos + length k);
              mret (item, if 0 <? resolved then ShortNode k newnode f else origNode, resolved)
        | FullNode cs f =>
            x ← try (go_index path (Z.of_nat pos));
            c ← try (go_index cs x);
            '(item, newnode, resolved) ← getNode fuel c path (pos + 1);
            mret (item, if 0 <? resolved then FullNode (<[Z.to_nat x := newnode]> cs) f
                        else origNode, resolved)
        | HashNode h =>
            child ← resolveAndTrack h (take pos path);
            '(item, newnode, resolved) ← getNode fuel child path pos;
            mret (item, newnode, resolved + 1)
        | RawNode _ => crash "invalid node"
        end
  end.

Fixpoint insert (fuel : nat) (n : node) (prefix key : list byte) (value : node)
  : tm (bool * node) :=
  match fuel with
  | O => out_of_fuel
  | S fuel =>
      match key with
      | [] =>
          match n, value with
          | ValueNode v, ValueNode w => mret (negb (bool_decide (v = w)), value)
          | ValueNode _, _ => crash "interface conversion"
          | _, _ => mret (true, value)
          end
      | _ =>
        match n with
        | ShortNode k v _ =>
            let matchlen := prefixLen key k in
            if (matchlen =? length k)%nat then
              '(dirty, nn) ← insert fuel v (prefix ++ take matchlen key) (drop matchlen key) value;
              if negb dirty then mret (false, n) else mret (true, ShortNode k nn newFlag)
            else
              x ← try (go_index k (Z.of_nat matchlen));
              y ← try (go_index key (Z.of_nat matchlen));
              '(_, c) ← insert fuel NilNode (prefix ++ take (S matchlen) k) (drop (S matchlen) k) v;
              cs ← try (set_child no_children x c);
              '(_, c) ← insert fuel NilNode (prefix ++ take (S matchlen) key) (drop (S matchlen) key) value;
              cs ← try (set_child cs y c);
              let branch := FullNode cs newFlag in
              if (matchlen =? 0)%nat then mret (true, branch)
              else
                effect (onInsert (prefix ++ take matchlen key));;
                mret (true, ShortNode (take matchlen key) branch newFlag)
        | FullNode cs _ =>
            x ← try (go_index key 0);
            c ← try (go_index cs x);
            '(dirty, nn) ← insert fuel c (prefix ++ [x]) (drop 1 key) value;
            if negb dirty then mret (false, n)
            else cs ← try (set_child cs x nn); mret (true, FullNode cs newFlag)
        | NilNode =>
            effect (onInsert prefix);; mret (true, ShortNode key value newFlag)
        | HashNode h =>
            rn ← resolveAndTrack h prefix;
            '(dirty, nn) ← insert fuel rn prefix key value;
            if negb dirty then mret (false, rn) else mret (true, nn)
        | ValueNode _ | RawNode _ => crash "invalid node"
        end
      end
  end.

Definition trie_concat (s1 s2 : list byte) : list byte := s1 ++ s2.

(** The loop of [delete] over the children from index [i] on: the only child left, -1
    when there is none, -2 when there are more. *)
Fixpoint only_child (pos i : Z) (cs : list node) : Z :=
  match cs with
  | [] => pos
  | NilNode :: cs => only_child pos (i + 1) cs
  | _ :: cs => if pos =? -1 then only_child i (i + 1) cs else -2
  end.

Fixpoint delete (fuel : nat) (n : node) (prefix key : list byte) : tm (bool * node) :=
  match fuel with
  | O => out_of_fuel
  | S fuel =>
      match n with
      | ShortNode k v _ =>
          let matchlen := prefixLen key k in
          if (matchlen <? length k)%nat then mret (false, n)
          else if (matchlen =? length key)%nat then
            effect (onDelete prefix);; mret (true, NilNode)
          else
            '(dirty, child) ← delete fuel v (prefix ++ take (length k) key) (drop (length k) key);
            if negb dirty then mret (false, n)
            else match child with
                 | ShortNode ck cv _ =>
                     effect (onDelete (prefix ++ k));;
                     mret (true, ShortNode (trie_concat k ck) cv newFlag)
                 | _ => mret (true, ShortNode k child newFlag)
                 end
      | FullNode cs _ =>
          x ← try (go_index key 0);
          c ← try (go_index cs x);
          '(dirty, nn) ← delete fuel c (prefix ++ [x]) (drop 1 key);
          if negb dirty then mret (false, n)
          else
            cs ← try (set_child cs x nn);
            let n := FullNode cs newFlag in
            if negb (is_nil nn) then mret (true, n)
            else
              let pos := only_child (-1) 0 cs in
              if 0 <=? pos then
                c ← try (go_index cs pos);
                cnode ← (if negb (pos =? 16) then resolve c (prefix ++ [pos]) else mret NilNode);
                match cnode with
                | ShortNode ck cv _ =>
                    effect (onDelete (prefix ++ [pos]));;
                    mret (true, ShortNode (pos :: ck) cv newFlag)
                | _ => mret (true, ShortNode [pos] c newFlag)
                end
              else mret (true, n)
      | ValueNode _ => mret (true, NilNode)
      | NilNode => mret (false, NilNode)
      | HashNode h =>
          rn ← resolveAndTrack h prefix;
          '(dirty, nn) ← delete fuel rn prefix key;
          if negb dirty then mret (false, rn) else mret (true, nn)
      | RawNode _ => crash "invalid node"
      end
  end.
End operations.

(** ** The trie object *)

Record Trie := mkTrie {
  t_root : node;
  t_owner : Hash;
  t_committed : bool;
  t_unhashed : Z;
  t_reader : trieReader;
  t_tracer : tracer;
}.

Definition set_root (t : Trie) (n : node) : Trie :=
  mkTrie n (t_owner t) (t_committed t) (t_unhashed t) (t_reader t) (t_tracer t).
Definition set_tracer (t : Trie) (tr : tracer) : Trie :=
  mkTrie (t_root t) (t_owner t) (t_committed t) (t_unhashed t) (t_reader t) tr.
Definition count_unhashed (t : Trie) : Trie :=
  mkTrie (t_root t) (t_owner t) (t_committed t) (t_unhashed t + 1) (t_reader t) (t_tracer t).

Definition trie_Copy (t : Trie) : Trie :=
  mkTrie (t_root t) (t_owner t) (t_committed t) (t_unhashed t) (t_reader t) (t_tracer t).

(** A method whose recursive part is [m]: the tracer is kept, whatever the result. *)
Definition run {A B} (t : Trie) (m : tm A) (k : A → Trie → B * Trie)
  : outcome ((trie_error + B) * Trie) :=
  match m (t_tracer t) with
  | Done (inr a, tr) => let '(b, t) := k a (set_tracer t tr) in Done (inr b, t)
  | Done (inl e, tr) => Done (inl e, set_tracer t tr)
  | Crash msg => Crash msg
  | OutOfFuel => OutOfFuel
  end.

Definition Get (fuel : nat) (t : Trie) (key : list byte)
  : outcome ((trie_error + option (list byte)) * Trie) :=
  if t_committed t then Done (inl ErrCommitted, t)
  else run t (get (t_reader t) fuel (t_root t) (keybytesToHex key) 0)
         (λ '(value, newroot, didResolve) t,
            (value, if (didResolve : bool) then set_root t newroot else t)).

Definition GetNode (fuel : nat) (t : Trie) (path : list byte)
  : outcome ((trie_error + option (list byte) * Z) * Trie) :=
  if t_committed t then Done (inl ErrCommitted, t)
  else run t (getNode (t_reader t) fuel (t_root t) (compactToHex path) 0)
         (λ '(item, newroot, resolved) t,
            ((item, resolved), if 0 <? resolved then set_root t newroot else t)).

Definition update (fuel : nat) (t : Trie) (key value : list byte)
  : outcome ((trie_error + ()) * Trie) :=
  let t := count_unhashed t in
  let k := keybytesToHex key in
  run t (if negb (length value =? 0)%nat
         then insert (t_reader t) fuel (t_root t) [] k (ValueNode value)
         else delete (t_reader t) fuel (t_root t) [] k)
    (λ '(_, n) t, (tt, set_root t n)).

Definition Update (fuel : nat) (t : Trie) (key value : list byte)
  : outcome ((trie_error + ()) * Trie) :=
  if t_committed t then Done (inl ErrCommitted, t) else update fuel t key value.

Definition Delete (fuel : nat) (t : Trie) (key : list byte)
  : outcome ((trie_error + ()) * Trie) :=
  if t_committed t then Done (inl ErrCommitted, t)
  else
    let t := count_unhashed t in
    run t (delete (t_reader t) fuel (t_root t) [] (keybytesToHex key))
      (λ '(_, n) t, (tt, set_root t n)).

(** [New]: the root node is loaded, unless the trie is empty. *)
Definition trie_New (id : ID) (db : Hash → string + Reader) : outcome (trie_error + Trie) :=
  match newTrieReader (id_StateRoot id) (id_Owner id) db with
  | inl e => Done (inl e)
  | inr reader =>
      let trie := mkTrie NilNode (id_Owner id) false 0 reader newTracer in
      if negb (bool_decide (id_Root id = 0)) && negb (bool_decide (id_Root id = EmptyRootHash)) then
        match resolveAndTrack reader (Hash_Bytes (id_Root id)) [] newTracer with
        | Done (inr rootnode, tr) => Done (inr (set_root (set_tracer trie tr) rootnode))
        | Done (inl e, _) => Done (inl e)
        | Crash msg => Crash msg
        | OutOfFuel => OutOfFuel
        end
      else Done (inr trie)
  end.

Definition trie_Reset (t : Trie) : Trie :=
  mkTrie NilNode 0 false 0 (t_reader t) (tracer_reset (t_tracer t)).
