(* ===== verification/TrieProps.v ===== *)
(** * The trie refines a finite map

    [repr p n t] relates a node of the program at path [p] to the tree it stands for:
    cached hashes are those of the tree, and what is not loaded is in the store.  Under it
    [get], [insert] and [delete] return, within a number of rounds linear in the key, the
    value, the tree with the key set and the tree with the key removed, in minimal form. *)

From S2P Require Import Prelude Bytes RlpEncode RlpRaw Common TrieKeys TrieNode TrieTree Trie.

Open Scope Z_scope.

(** ** Bounded trees

    No byte string of a Go program is longer than an [int] counts; the encodings below
    stay within 64 bits. *)

Definition bounded (t : tree) : Prop :=
  ∀ q v, tget t q = Some v → Z.of_nat (length q + length v) < 2 ^ 58.

Lemma bounded_short k t : bounded (TShort k t) → bounded t.
Proof.
  intros Hb q v E. specialize (Hb (k ++ q) v). rewrite tget_short, length_app in Hb.
  specialize (Hb E). lia.
Qed.

Lemma bounded_full cs i c : bounded (TFull cs) → cs !! i = Some c → bounded c.
Proof.
  intros Hb Ei q v E. specialize (Hb (Z.of_nat i :: q) v). rewrite (tget_full_nat _ _ c) in Hb by done.
  specialize (Hb E). simpl in Hb. lia.
Qed.

Section bounds.
Context `{Crypto}.

Lemma rlp_list_length_le c :
  Z.of_nat (length c) < 2 ^ 64 → (length (rlp_list c) <= length c + 9)%nat.
Proof.
  intros Hc. unfold rlp_list. rewrite length_app.
  pose proof (rlp_head_length_le 0xC0 0xF7 (Z.of_nat (length c))). lia.
Qed.

Lemma tref_length c : twf c → (length (tref c) <= 41)%nat.
Proof.
  intros Hc. rewrite tref_node by done. unfold embed.
  destruct (Nat.ltb_spec (length (tenc c)) 32); [lia|].
  pose proof (rlp_string_length_le (Keccak256 (tenc c))). rewrite Keccak256_length in *. lia.
Qed.

Lemma compact_length k : hex_ok k → (length (compact k) <= length k + 1)%nat.
Proof.
  intros (term & odd & s & Ho & Hs & ->)%hex_ok_iff. unfold compact.
  rewrite hexToCompact_hex_of by done. unfold compact_of, hex_of. simpl.
  rewrite !length_app, nibbles_of_length. lia.
Qed.

Lemma tref_concat_length (cs : list tree) b :
  (∀ c, c ∈ cs → (length (tref c) <= b)%nat) →
  (length (concat (map tref cs)) <= length cs * b)%nat.
Proof.
  induction cs as [|c cs IH]; intros Hc; simpl; [lia|]. rewrite length_app.
  specialize (IH ltac:(set_solver)). specialize (Hc c ltac:(set_solver)). lia.
Qed.

Lemma tbody_bound t :
  twf t → bounded t → Z.of_nat (length (tbody t)) < 2 ^ 63.
Proof.
  intros Ht Hb. destruct Ht as [k v Hk Hv|k cs Hne Hk Hf|cs Hl Hc H16 H2]; cbn [tbody].
  - assert (Z.of_nat (length (k ++ []) + length v) < 2 ^ 58) as Hkv
      by (apply Hb; by rewrite tget_short). rewrite app_nil_r in Hkv.
    apply key_ok_hex in Hk as [Hk _]. pose proof (compact_length k Hk). rewrite length_app.
    pose proof (rlp_string_length_le (compact k)). pose proof (rlp_string_length_le v).
    simpl tref. lia.
  - destruct (twf_inhabited _ Hf) as (q & w & E).
    assert (Z.of_nat (length (k ++ q) + length w) < 2 ^ 58) as Hkq
      by (apply Hb; by rewrite tget_short). rewrite length_app in Hkq |- *.
    pose proof (compact_length k (or_introl Hk)). pose proof (tref_length _ Hf).
    pose proof (rlp_string_length_le (compact k)). lia.
  - assert (∀ c, c ∈ cs → (length (tref c) <= Z.to_nat (2 ^ 58 + 41))%nat) as Hall.
    { intros c (i & Ei)%list_elem_of_lookup.
      assert (i < 17)%nat by (rewrite <- Hl; by eapply lookup_lt_Some).
      assert (c = TNil ∨ c ≠ TNil) as [->|Hcn] by (destruct c; auto); [simpl; lia|].
      destruct (decide (i = 16%nat)) as [->|].
      - destruct (H16 c Ei Hcn) as (v & -> & _). pose proof (bounded_full _ _ _ Hb Ei [] v eq_refl).
        simpl in *. pose proof (rlp_string_length_le v). lia.
      - pose proof (tref_length c (Hc i c Ei ltac:(lia) Hcn)). lia. }
    pose proof (tref_concat_length cs _ Hall). rewrite Hl in *. lia.
Qed.

Lemma tenc_bound t : twf t → bounded t → Z.of_nat (length (tenc t)) < 2 ^ 64.
Proof.
  intros Ht Hb. pose proof (tbody_bound t Ht Hb).
  pose proof (rlp_list_length_le (tbody t)). unfold tenc. lia.
Qed.
End bounds.

(** ** Nodes and trees *)

(** [subtree t q c]: [c] is the subtree of [t] at the relative path [q]. *)
Inductive subtree : tree → list byte → tree → Prop :=
| sub_here t : subtree t [] t
| sub_short k t q c : subtree t q c → subtree (TShort k t) (k ++ q) c
| sub_full cs i t q c : cs !! i = Some t → subtree t q c → subtree (TFull cs) (Z.of_nat i :: q) c.

Section representation.
Context `{Crypto} (rd : trieReader).

(** The store returns the encoding of [t] at path [p]. *)
Definition in_store (p : list byte) (t : tree) : Prop :=
  reader_node rd p (BytesToHash (Keccak256 (tenc t))) = inr (tenc t).

(** So it does for every part of [t] that is not embedded in its parent. *)
Definition saved (p : list byte) (t : tree) : Prop :=
  ∀ q c, subtree t q c → twf c → (32 <= length (tenc c))%nat → in_store (p ++ q) c.

(** A node that can be replaced by its hash at [p]. *)
Definition hashed_at (p : list byte) (t : tree) : Prop :=
  p = [] ∨ (32 <= length (tenc t))%nat.

Definition flag_ok (p : list byte) (f : nodeFlag) (t : tree) : Prop :=
  match nf_hash f with
  | Some h => h = Keccak256 (tenc t) ∧ hashed_at p t ∧ (nf_dirty f = false → in_store p t ∧ saved p t)
  | None => nf_dirty f = false → p ≠ [] ∧ (length (tenc t) < 32)%nat
  end.

(** Under a node whose hash is known, the hash of a child that is not embedded is known. *)
Definition child_hashed (n : node) (t : tree) : Prop :=
  match n with
  | ShortNode _ _ f | FullNode _ f => (32 <= length (tenc t))%nat → nf_hash f ≠ None
  | _ => True
  end.

Inductive repr : list byte → node → tree → Prop :=
| repr_nil p : repr p NilNode TNil
| repr_value p v : repr p (ValueNode v) (TValue v)
| repr_short p k n f t :
    flag_ok p f (TShort k t) → (nf_hash f ≠ None → child_hashed n t) →
    repr (p ++ k) n t → repr p (ShortNode k n f) (TShort k t)
| repr_full p cs f ts :
    flag_ok p f (TFull ts) → length cs = length ts →
    (∀ i n t, cs !! i = Some n → ts !! i = Some t → nf_hash f ≠ None → child_hashed n t) →
    (∀ i n t, cs !! i = Some n → ts !! i = Some t → repr (p ++ [Z.of_nat i]) n t) →
    repr p (FullNode cs f) (TFull ts)
| repr_hash p t :
    twf t → hashed_at p t → in_store p t → saved p t →
    repr p (HashNode (Keccak256 (tenc t))) t.

Definition is_hash (n : node) : bool := match n with HashNode _ => true | _ => false end.

Lemma flag_ok_new p t : flag_ok p newFlag t.
Proof. done. Qed.

Lemma child_hashed_tnode t : child_hashed (tnode t) t.
Proof.
  destruct t as [| |k t|cs]; try done; cbn [tnode].
  - destruct (Nat.ltb_spec (length (tenc (TShort k t))) 32); simpl; [lia|done].
  - destruct (Nat.ltb_spec (length (tenc (TFull cs))) 32); simpl; [lia|done].
Qed.

(** A new short node. *)
Lemma repr_short_new p k n t : repr (p ++ k) n t → repr p (ShortNode k n newFlag) (TShort k t).
Proof. intros Hn. by apply repr_short; [apply flag_ok_new| |]. Qed.

Lemma saved_short p k t : saved p (TShort k t) → saved (p ++ k) t.
Proof. intros Hs q c Hq. rewrite <- app_assoc. apply Hs. by constructor. Qed.

Lemma saved_full p cs i c : saved p (TFull cs) → cs !! i = Some c → saved (p ++ [Z.of_nat i]) c.
Proof. intros Hs Ei q d Hq. rewrite <- app_assoc. apply Hs. by econstructor. Qed.

(** A saved subtree is represented by what the decoder makes of its reference. *)
Lemma repr_tnode t : ∀ p, p ≠ [] → sub_ok t → saved p t → repr p (tnode t) t.
Proof.
  assert (∀ p t, twf t → saved p t → (32 <= length (tenc t))%nat →
    repr p (HashNode (Keccak256 (tenc t))) t) as Hbig.
  { intros p c Hc Hs Hl. constructor; [done|by right| |done].
    rewrite <- (app_nil_r p). by apply Hs; [constructor| |]. }
  induction t as [|v|k t IH|cs IH] using tree_nested_ind;
    intros p Hp Hok Hs; [constructor|constructor| |].
  - assert (twf (TShort k t)) as Ht by (destruct Hok as [?|[(? & ? & _)|?]]; done).
    cbn [tnode]. destruct (Nat.ltb_spec (length (tenc (TShort k t))) 32); [|by apply Hbig].
    constructor; [done|done|]. apply IH; [by destruct p| |by apply saved_short].
    inversion Ht; subst; [right; left; eauto|right; by right].
  - assert (twf (TFull cs)) as Ht by (destruct Hok as [?|[(? & ? & _)|?]]; done).
    cbn [tnode]. destruct (Nat.ltb_spec (length (tenc (TFull cs))) 32); [|by apply Hbig].
    destruct (twf_children cs Ht) as [Hc _].
    constructor; [done|by rewrite length_map|done|]. intros i n t En Et.
    rewrite list_lookup_fmap, Et in En. injection En as <-.
    rewrite Forall_lookup in IH, Hc. apply (IH i); [done|by destruct p|by eapply Hc|by eapply saved_full].
Qed.

(** The node that the trie loads for a hash node stands for the same tree. *)
Lemma repr_top_node p t h :
  twf t → hashed_at p t → in_store p t → saved p t → h = Keccak256 (tenc t) →
  repr p (top_node (mkNodeFlag (Some h) false) t) t.
Proof.
  intros Ht Hh Hin Hs ->.
  assert (∀ t', t' = t → flag_ok p (mkNodeFlag (Some (Keccak256 (tenc t))) false) t') as Hf.
  { by intros t' ->. }
  destruct Ht as [k v Hk Hv|k cs Hne Hk Hf'|cs Hl Hc H16 H2]; cbn [top_node].
  - constructor; [by apply Hf|done|constructor].
  - constructor; [by apply Hf|intros _; apply child_hashed_tnode|].
    apply repr_tnode; [by destruct p|right; by right|by apply saved_short].
  - constructor; [by apply Hf|by rewrite length_map| |]; intros i n t En Et;
      rewrite list_lookup_fmap, Et in En; injection En as <-.
    { intros _. apply child_hashed_tnode. }
    apply repr_tnode; [by destruct p| |by eapply saved_full].
    destruct (twf_children cs) as [Hall _]; [by constructor|]. by eapply Forall_lookup_1.
Qed.

Lemma resolveAndTrack_repr p h t tr :
  repr p (HashNode h) t → bounded t →
  ∃ n, resolveAndTrack rd h p tr = Done (inr n, onRead p (tenc t) tr) ∧
    repr p n t ∧ is_hash n = false ∧ twf t ∧ child_hashed n t.
Proof.
  inversion 1 as [| | | |? ? Ht Hh Hin Hs]; subst. intros Hb.
  exists (top_node (mkNodeFlag (Some (Keccak256 (tenc t))) false) t).
  split_and!; [|by apply repr_top_node|by destruct Ht|done|by destruct Ht].
  unfold resolveAndTrack. rewrite Hin. unfold mustDecodeNode.
  rewrite decodeNode_tenc; [done|done|by apply tenc_bound].
Qed.

(** ** Descending a tree along a key *)

Lemma key_app_nibbles k0 k1 : nibbles_ok k0 → key_ok (k0 ++ k1) → key_ok k1.
Proof.
  induction 1 as [|x k0 Hx _ IH]; [done|]. simpl. rewrite key_ok_cons.
  intros [[-> _]|[_ Hk]]; [lia|auto].
Qed.

(** What is left of a key: nothing below a value, a proper key elsewhere. *)
Definition rest_ok (k : list byte) : Prop := k = [] ∨ key_ok k.

Lemma wf_at_twf k t : wf_at k t → k ≠ [] → t ≠ TNil → twf t.
Proof. intros Hw Hk Hn. specialize (Hw Hn). by destruct k. Qed.

Lemma wf_at_node k t : rest_ok k → wf_at k t → t ≠ TNil → (∀ v, t ≠ TValue v) → twf t ∧ key_ok k.
Proof.
  intros [->|Hk] Hw Hn Hv; specialize (Hw Hn).
  - destruct Hw as (v & -> & _). by destruct (Hv v).
  - split; [|done]. apply key_ok_not_nil in Hk. by destruct k.
Qed.

Lemma wf_short_step k0 k1 t :
  twf (TShort k0 t) → key_ok (k0 ++ k1) → wf_at k1 t ∧ rest_ok k1 ∧ k0 ≠ [].
Proof.
  inversion 1 as [? v Hk Hv|? cs Hne Hk Hf|]; subst; intros Hk1.
  - assert (k1 = []) as -> by by apply (key_ok_prefix k0 (k0 ++ k1)).
    split_and!; [intros _; eauto|by left|by apply key_ok_not_nil].
  - assert (key_ok k1) as Hk1' by by eapply key_app_nibbles.
    split_and!; [|by right|done]. apply key_ok_not_nil in Hk1'. intros _. by destruct k1.
Qed.

Lemma key_ok_head x k : key_ok (x :: k) → 0 <= x < 17 ∧ rest_ok k ∧ (k = [] ↔ x = 16).
Proof.
  rewrite key_ok_cons. intros [[-> ->]|[Hx Hk]].
  - split_and!; [lia..|by left|done].
  - split_and!; [lia..|by right|]. split; [|lia]. intros ->. by apply key_ok_not_nil in Hk.
Qed.

Lemma wf_full_step x k ts :
  twf (TFull ts) → key_ok (x :: k) →
  ∃ c, ts !! Z.to_nat x = Some c ∧ wf_at k c.
Proof.
  inversion 1 as [| |? Hl Hc H16 _]; subst. intros (Hx & Hk & Hx16)%key_ok_head.
  destruct (lookup_lt_is_Some_2 ts (Z.to_nat x)) as [c Ec]; [lia|].
  exists c. split; [done|]. intros Hn. destruct k as [|y k].
  - assert (x = 16) as -> by by apply Hx16. by apply H16.
  - apply (Hc (Z.to_nat x)); [done| |done].
    assert (x ≠ 16) by (intros E; by apply Hx16 in E). lia.
Qed.

(** The rounds that are enough for the key [k] from the node [n]. *)
Definition rounds (k : list byte) (n : node) : nat :=
  2 * length k + (if is_hash n then 2 else 1).

Lemma rounds_le k n : (rounds k n <= 2 * length k + 2)%nat.
Proof. unfold rounds. case_match; lia. Qed.

Lemma rounds_pos k n : (1 <= rounds k n)%nat.
Proof. unfold rounds. case_match; lia. Qed.

Lemma key_mismatch_spec p k k0 :
  key_mismatch (p ++ k) (length p) k0 = negb (bool_decide (take (length k0) k = k0)).
Proof.
  unfold key_mismatch. rewrite drop_app_length, length_app.
  replace (length p + length k - length p)%nat with (length k) by lia.
  destruct (Nat.ltb_spec (length k) (length k0)).
  - simpl. rewrite bool_decide_false; [done|]. intros E. apply (f_equal length) in E.
    rewrite length_take in E. lia.
  - simpl. f_equal. apply bool_decide_ext. by split.
Qed.

Lemma go_index_mid {A} (p : list A) x k : go_index (p ++ x :: k) (Z.of_nat (length p)) = Ok x.
Proof. apply go_index_Ok. split; [lia|]. rewrite Nat2Z.id. by apply list_lookup_middle. Qed.

Lemma go_index_lookup {A} (l : list A) x c : 0 <= x → l !! Z.to_nat x = Some c → go_index l x = Ok c.
Proof. intros Hx E. by apply go_index_Ok. Qed.

(** ** Reading *)

Lemma repr_child p cs f ts x c :
  repr p (FullNode cs f) (TFull ts) → 0 <= x → ts !! Z.to_nat x = Some c →
  ∃ n, cs !! Z.to_nat x = Some n ∧ repr (p ++ [x]) n c ∧ (nf_hash f ≠ None → child_hashed n c).
Proof.
  inversion 1 as [| | |? ? ? ? Hf Hl Hh Hc|]; subst. intros Hx Ec.
  destruct (lookup_lt_is_Some_2 cs (Z.to_nat x)) as [n En].
  { rewrite Hl. by eapply lookup_lt_Some. }
  exists n. split; [done|]. split; [|by eapply Hh].
  specialize (Hc _ _ _ En Ec). by rewrite Z2Nat.id in Hc.
Qed.

Lemma repr_insert_child p cs f f' ts x n c :
  repr p (FullNode cs f) (TFull ts) → 0 <= x → repr (p ++ [x]) n c →
  flag_ok p f' (TFull (<[Z.to_nat x := c]> ts)) →
  (nf_hash f' ≠ None → nf_hash f ≠ None ∧ child_hashed n c) →
  repr p (FullNode (<[Z.to_nat x := n]> cs) f') (TFull (<[Z.to_nat x := c]> ts)).
Proof.
  inversion 1 as [| | |? ? ? ? Hf Hl Hh Hc|]; subst. intros Hx Hn Hf' Hh'.
  constructor; [done|by rewrite !length_insert| |].
  { intros i m t Em Et Hs. apply Hh' in Hs as [Hs Hch].
    destruct (decide (i = Z.to_nat x)) as [->|Hne].
    - apply list_lookup_insert_Some in Em as [(_ & <- & _)|[? _]]; [|done].
      apply list_lookup_insert_Some in Et as [(_ & <- & _)|[? _]]; [|done]. done.
    - rewrite list_lookup_insert_ne in Em by done. rewrite list_lookup_insert_ne in Et by done.
      by eapply Hh. }
  intros i m t Em Et. destruct (decide (i = Z.to_nat x)) as [->|Hne].
  - apply list_lookup_insert_Some in Em as [(_ & <- & _)|[? _]]; [|done].
    apply list_lookup_insert_Some in Et as [(_ & <- & _)|[? _]]; [|done].
    by rewrite Z2Nat.id.
  - rewrite list_lookup_insert_ne in Em by done. rewrite list_lookup_insert_ne in Et by done. by eapply Hc.
Qed.

Lemma get_spec fuel : ∀ p k n t tr,
  repr p n t → wf_at k t → rest_ok k → bounded t → (rounds k n <= fuel)%nat →
  ∃ n' b tr', get rd fuel n (p ++ k) (length p) tr = Done (inr (tget t k, n', b), tr') ∧
    repr p n' t ∧ (child_hashed n t → child_hashed n' t).
Proof.
  induction fuel as [|fuel IH]; intros p k n t tr Hr Hw Hk Hb Hf;
    [pose proof (rounds_pos k n); lia|].
  inversion Hr as [|? v|? k0 m f t0 Hfl Hch Hm|? cs f ts Hfl Hl Hch Hc|? ? Ht Hh Hin Hs]; subst.
  - by exists NilNode, false, tr.
  - destruct Hk as [->|Hk]; [by exists (ValueNode v), false, tr|].
    assert (twf (TValue v)) as Ht; [|by inversion Ht].
    apply (wf_at_twf k); [done|by apply key_ok_not_nil|done].
  - destruct (wf_at_node k _ Hk Hw) as [Ht Hkey]; [done|done|]. cbn [get].
    rewrite key_mismatch_spec. cbn [tget]. case_bool_decide as E.
    2:{ by exists (ShortNode k0 m f), false, tr. }
    cbn [negb]. set (k1 := drop (length k0) k).
    assert (k = k0 ++ k1) as Ek by (rewrite <- (take_drop (length k0) k) at 1; by rewrite E).
    rewrite Ek in Hkey. destruct (wf_short_step k0 k1 t0 Ht Hkey) as (Hw1 & Hk1 & Hne).
    assert (length k0 ≠ 0%nat) by by destruct k0.
    destruct (IH (p ++ k0) k1 m t0 tr Hm Hw1 Hk1) as (n' & b & tr' & Eg & Hn' & Hhn);
      [by eapply bounded_short| |].
    { pose proof (rounds_le k1 m). unfold rounds in Hf. rewrite Ek, length_app in Hf. simpl in Hf. lia. }
    rewrite length_app, <- app_assoc, <- Ek in Eg. rewrite (etm_bind_inr _ _ _ _ _ Eg).
    eexists _, b, tr'. split; [done|]. destruct b; [|done]. split; [|done].
    constructor; [done|by auto|done].
  - destruct (wf_at_node k _ Hk Hw) as [Ht Hkey]; [done|done|].
    destruct k as [|x k]; [by apply key_ok_not_nil in Hkey|]. cbn [get].
    destruct (wf_full_step x k ts Ht Hkey) as (c & Ec & Hwc).
    apply key_ok_head in Hkey as (Hx & Hk' & _).
    destruct (repr_child p cs f ts x c Hr) as (m & Em & Hm & Hmh); [lia|done|].
    rewrite (etm_bind_try _ _ _ _ (go_index_mid p x k)).
    rewrite (etm_bind_try _ m) by (apply go_index_lookup; done || lia).
    destruct (IH (p ++ [x]) k m c tr Hm Hwc Hk') as (n' & b & tr' & Eg & Hn' & Hhn);
      [by eapply bounded_full| |].
    { pose proof (rounds_le k m). unfold rounds in Hf. simpl in Hf. lia. }
    rewrite length_app, <- app_assoc in Eg. simpl in Eg. rewrite (etm_bind_inr _ _ _ _ _ Eg).
    rewrite tget_full, Ec by lia. simpl.
    eexists _, b, tr'. split; [done|]. destruct b; [|done]. split; [|done].
    rewrite <- (list_insert_id ts (Z.to_nat x) c) by done.
    eapply repr_insert_child; [done|lia|done|by rewrite list_insert_id|by auto].
  - cbn [get]. destruct (resolveAndTrack_repr p _ t tr Hr Hb) as (m & Em & Hm & Hnh & _ & Hmh).
    rewrite take_app_length, (etm_bind_inr _ _ _ _ _ Em).
    destruct (IH p k m t (onRead p (tenc t) tr) Hm Hw Hk Hb) as (n' & b & tr' & Eg & Hn' & Hhn).
    { unfold rounds in *. rewrite Hnh. simpl in Hf. lia. }
    rewrite (etm_bind_inr _ _ _ _ _ Eg). exists n', true, tr'. by auto.
Qed.

(** ** Inserting *)

Definition is_full (t : tree) : bool := match t with TFull _ => true | _ => false end.

(** The node [insert] puts at a nil place: the value, under a short node unless the key
    ends there. *)
Definition subn (r : list byte) (n : node) : node :=
  match r with [] => n | _ => ShortNode r n newFlag end.

Lemma repr_subn p r n t : repr (p ++ r) n t → repr p (subn r n) (sub r t).
Proof.
  destruct r as [|x r]; [by rewrite app_nil_r|]. intros Hn.
  by apply repr_short_new.
Qed.

Lemma insert_nil fuel p k n tr :
  ∃ tr', insert rd (S fuel) NilNode p k n tr = Done (inr (true, subn k n), tr').
Proof. destruct k; eexists; reflexivity. Qed.

Lemma set_child_Ok cs x n : 0 <= x < Z.of_nat (length cs) → set_child cs x n = Ok (<[Z.to_nat x := n]> cs).
Proof.
  intros Hx. unfold set_child.
  by rewrite (proj2 (Z.leb_le 0 x)), (proj2 (Z.ltb_lt x _)) by lia.
Qed.

Lemma repr_branch p x n c y m d :
  0 <= x < 17 → 0 <= y < 17 → repr (p ++ [x]) n c → repr (p ++ [y]) m d →
  repr p (FullNode (<[Z.to_nat y := m]> (<[Z.to_nat x := n]> no_children)) newFlag)
    (TFull (branch x c y d)).
Proof.
  intros Hx Hy Hn Hm. unfold branch.
  eapply repr_insert_child; [|lia|done|apply flag_ok_new|done].
  eapply repr_insert_child; [|lia|done|apply flag_ok_new|done].
  constructor; [apply flag_ok_new|by rewrite length_replicate|done|].
  intros i e t Ee Et. apply lookup_replicate in Ee as [-> _]. apply lookup_replicate in Et as [-> _].
  constructor.
Qed.

(** The part of [insert] that splits a short node. *)
Lemma insert_split fuel p c x r0 n t f y r v tr :
  repr p (ShortNode (c ++ x :: r0) n f) (TShort (c ++ x :: r0) t) → x ≠ y →
  0 <= x < 17 → 0 <= y < 17 →
  ∃ n' tr', insert rd (S (S fuel)) (ShortNode (c ++ x :: r0) n f) p (c ++ y :: r) (ValueNode v) tr
    = Done (inr (true, n'), tr') ∧ is_hash n' = false ∧
    repr p n' (sub c (TFull (branch x (sub r0 t) y (sub r (TValue v))))).
Proof.
  inversion 1 as [| |? ? ? ? ? Hfl _ Hm| |]; subst. intros Hxy Hx Hy.
  assert (prefixLen (c ++ y :: r) (c ++ x :: r0) = length c) as Ep by by apply prefixLen_diverge.
  assert (insert rd (S (S fuel)) (ShortNode (c ++ x :: r0) n f) p (c ++ y :: r) (ValueNode v) tr
    = (x' ← try (go_index (c ++ x :: r0) (Z.of_nat (length c)));
       y' ← try (go_index (c ++ y :: r) (Z.of_nat (length c)));
       '(_, c1) ← insert rd (S fuel) NilNode (p ++ take (S (length c)) (c ++ x :: r0))
                    (drop (S (length c)) (c ++ x :: r0)) n;
       cs ← try (set_child no_children x' c1);
       '(_, c2) ← insert rd (S fuel) NilNode (p ++ take (S (length c)) (c ++ y :: r))
                    (drop (S (length c)) (c ++ y :: r)) (ValueNode v);
       cs ← try (set_child cs y' c2);
       if (length c =? 0)%nat then mret (true, FullNode cs newFlag)
       else effect (onInsert (p ++ take (length c) (c ++ y :: r)));;
            mret (true, ShortNode (take (length c) (c ++ y :: r)) (FullNode cs newFlag) newFlag)) tr)
    as ->.
  { cbn [insert]. rewrite Ep. rewrite (proj2 (Nat.eqb_neq (length c) (length (c ++ x :: r0)))).
    - by destruct c.
    - rewrite length_app. simpl. lia. }
  rewrite (etm_bind_try _ _ _ _ (go_index_mid c x r0)), (etm_bind_try _ _ _ _ (go_index_mid c y r)).
  assert (∀ a b, drop (S (length c)) (c ++ a :: b : list byte) = b) as Hd.
  { intros a b. rewrite <- Nat.add_1_r, <- drop_drop, drop_app_length. done. }
  rewrite !Hd.
  destruct (insert_nil fuel (p ++ take (S (length c)) (c ++ x :: r0)) r0 n tr) as (tr1 & E1).
  rewrite (etm_bind_inr _ _ _ _ _ E1).
  rewrite (etm_bind_try _ _ _ _ (set_child_Ok no_children x _ ltac:(done))).
  destruct (insert_nil fuel (p ++ take (S (length c)) (c ++ y :: r)) r (ValueNode v) tr1) as (tr2 & E2).
  rewrite (etm_bind_inr _ _ _ _ _ E2).
  rewrite (etm_bind_try _ (<[Z.to_nat y := subn r (ValueNode v)]> (<[Z.to_nat x := subn r0 n]> no_children)))
    by (apply set_child_Ok; by rewrite length_insert).
  rewrite take_app_length.
  assert (repr (p ++ c) (FullNode (<[Z.to_nat y := subn r (ValueNode v)]>
    (<[Z.to_nat x := subn r0 n]> no_children)) newFlag)
    (TFull (branch x (sub r0 t) y (sub r (TValue v))))) as Hbr.
  { apply repr_branch; [done|done|apply repr_subn; by rewrite <- !app_assoc|].
    apply repr_subn. constructor. }
  destruct c as [|z c].
  - rewrite app_nil_r in Hbr. by eexists _, _.
  - eexists (ShortNode _ _ _), _. split; [done|]. split; [done|].
    by apply repr_short_new.
Qed.

(** What a change of the key [k] to [o] leaves at [p]: the new node stands for a tree in
    minimal form that differs from [t] in this key only. *)
Record changed (p k : list byte) (o : option (list byte)) (t : tree) (dirty : bool) (n' : node)
    (t' : tree) : Prop := {
  ch_repr : repr p n' t';
  ch_wf : wf_at k t';
  ch_updated : updated k o t t';
  ch_clean : dirty = false → t' = t;
  ch_loaded : dirty = true → is_hash n' = false;
}.

Lemma wf_at_twf_intro k t : key_ok k → twf t → wf_at k t.
Proof. intros Hk%key_ok_not_nil Ht _. by destruct k. Qed.

(** A short node whose key matches: the change happens in its child. *)
Lemma changed_short p k0 k1 o n f t n' t' :
  repr p (ShortNode k0 n f) (TShort k0 t) → key_ok (k0 ++ k1) → twf (TShort k0 t') →
  changed (p ++ k0) k1 o t true n' t' →
  changed p (k0 ++ k1) o (TShort k0 t) true (ShortNode k0 n' newFlag) (TShort k0 t').
Proof.
  intros Hr Hk Ht [Hn' Hw Hu _ _]. split; [|by apply wf_at_twf_intro|by apply updated_short|done|done].
  by apply repr_short_new.
Qed.

Lemma changed_not p k o n t :
  repr p n t → wf_at k t → tget t k = o → changed p k o t false n t.
Proof. intros Hr Hw <-. split; [done|done|apply updated_same|done|done]. Qed.

Lemma twf_full_insert ts x c :
  twf (TFull ts) → child_ok x c → twf (TFull (<[Z.to_nat x := c]> ts)).
Proof.
  inversion 1 as [| |? Hl Hc H16 H2]; subst. intros (Hn & Hx & Hx16 & Hxw).
  assert (Z.to_nat x < length ts)%nat as Hlt by lia. constructor; [by rewrite length_insert| | |].
  - intros i d Ei Hi Hdn. apply list_lookup_insert_Some in Ei as [(<- & <- & _)|[? Ei]];
      [apply Hxw; lia|by eapply Hc].
  - intros d Ei Hdn. apply list_lookup_insert_Some in Ei as [(E & <- & _)|[? Ei]];
      [apply Hx16; lia|by apply H16].
  - destruct H2 as (i & j & a & b & Hij & Ei & Ej & Ha & Hb).
    assert (∀ i a, ts !! i = Some a → a ≠ TNil →
      ∃ a', <[Z.to_nat x := c]> ts !! i = Some a' ∧ a' ≠ TNil) as Hkeep.
    { intros e d Ed Hd. destruct (decide (e = Z.to_nat x)) as [->|].
      - exists c. by rewrite list_lookup_insert_eq.
      - exists d. by rewrite list_lookup_insert_ne. }
    destruct (Hkeep i a Ei Ha) as (a' & ? & ?), (Hkeep j b Ej Hb) as (b' & ? & ?).
    by exists i, j, a', b'.
Qed.

Lemma wf_at_child x k c : key_ok (x :: k) → wf_at k c → c ≠ TNil → child_ok x c.
Proof.
  intros (Hx & Hk & Hx16)%key_ok_head Hw Hn. specialize (Hw Hn).
  split_and!; [done|lia|lia| |].
  - intros E. apply Hx16 in E as ->. done.
  - intros E. destruct k; [by destruct E; apply Hx16|done].
Qed.

Definition insert_ok (fuel : nat) : Prop := ∀ p k n t v tr,
  repr p n t → wf_at k t → rest_ok k → bounded t → val_ok v → (rounds k n <= fuel)%nat →
  ∃ dirty n' t' tr', insert rd fuel n p k (ValueNode v) tr = Done (inr (dirty, n'), tr') ∧
    changed p k (Some v) t dirty n' t' ∧ t' ≠ TNil ∧ (is_full t → is_full t').

Lemma insert_short fuel p k0 n f t k v tr :
  insert_ok fuel → repr p (ShortNode k0 n f) (TShort k0 t) → twf (TShort k0 t) → key_ok k →
  bounded (TShort k0 t) → val_ok v → (2 * length k <= fuel)%nat →
  ∃ dirty n' t' tr', insert rd (S fuel) (ShortNode k0 n f) p k (ValueNode v) tr = Done (inr (dirty, n'), tr') ∧
    changed p k (Some v) (TShort k0 t) dirty n' t' ∧ t' ≠ TNil ∧ (is_full (TShort k0 t) → is_full t').
Proof.
  intros IH Hr Ht Hk Hb Hv Hf. pose proof (key_ok_not_nil k Hk) as Hkne.
  destruct (prefixLen_split k k0) as (c & a & b & -> & -> & Ep & Hd).
  destruct b as [|x r0].
  - rewrite app_nil_r in *. destruct (wf_short_step c a t Ht Hk) as (Hw1 & Hk1 & Hne).
    assert (length c ≠ 0%nat) by by destruct c. inversion Hr as [| |? ? ? ? ? _ _ Hn| |]; subst.
    destruct (IH (p ++ c) a n t v tr Hn Hw1 Hk1) as (dirty & n' & t' & tr' & E & Hch & Htn & Hfull);
      [by eapply bounded_short|done|rewrite length_app in Hf; pose proof (rounds_le a n); lia|].
    assert (insert rd (S fuel) (ShortNode c n f) p (c ++ a) (ValueNode v) tr
      = ('(dirty, nn) ← insert rd fuel n (p ++ take (length c) (c ++ a)) (drop (length c) (c ++ a)) (ValueNode v);
         if negb dirty then mret (false, ShortNode c n f) else mret (true, ShortNode c nn newFlag)) tr) as ->.
    { cbn [insert]. rewrite Ep, Nat.eqb_refl. by destruct c. }
    rewrite take_app_length, drop_app_length, (etm_bind_inr _ _ _ _ _ E). destruct dirty; cbn [negb].
    + eexists true, _, (TShort c t'), _. split; [done|]. split; [|done].
      apply (changed_short p c a (Some v) n f); [done|done| |done].
      inversion Ht as [? w Hkc Hw|? cs Hne' Hkc Hfc|]; subst.
      * assert (a = []) as -> by by apply (key_ok_prefix c (c ++ a)).
        destruct (ch_wf _ _ _ _ _ _ _ Hch Htn) as (w' & -> & Hw'). by constructor.
      * specialize (Hfull I). destruct t'; try done. constructor; [done|done|].
        apply (wf_at_twf a); [by eapply ch_wf| |done].
        apply key_app_nibbles in Hk; [by apply key_ok_not_nil|done].
    + eexists false, _, (TShort c t), _. split; [done|]. split; [|done]. apply changed_not; [done|by apply wf_at_twf_intro|].
      rewrite tget_short. destruct Hch as [_ _ Hu Hc _]. specialize (Hu a). rewrite (Hc eq_refl) in Hu.
      by rewrite decide_True in Hu.
  - destruct (child_ok_split c x r0 t Ht) as [Hcn Hcx].
    destruct a as [|y r].
    { rewrite app_nil_r in Hk. destruct Hk as (m & Hm & ->).
      apply Forall_app in Hcn as [_ H16]. rewrite Forall_singleton in H16. lia. }
    apply key_ok_app_inv in Hk as Hky. destruct Hky as [_ Hky].
    assert (x ≠ y) as Hxy by (intros ->; by eapply Hd).
    assert (child_ok y (sub r (TValue v))) as Hcy by by apply child_ok_leaf.
    pose proof Hcx as (_ & Hx & _). pose proof Hcy as (_ & Hy & _).
    destruct fuel as [|fuel]; [rewrite length_app in Hf; simpl in Hf; lia|].
    destruct (insert_split fuel p c x r0 n t f y r v tr Hr Hxy Hx Hy) as (n' & tr' & E & Hnh & Hn').
    exists true, n', (sub c (TFull (branch x (sub r0 t) y (sub r (TValue v))))), tr'.
    split; [exact E|]. split; [|split; [by apply sub_not_nil|done]].
    split; [done| |by apply updated_split|done|done].
    apply wf_at_twf_intro; [done|]. apply twf_sub_full; [done|]. by apply twf_branch.
Qed.

Lemma insert_spec fuel : insert_ok fuel.
Proof.
  induction fuel as [|fuel IH]; intros p k n t v tr Hr Hw Hk Hb Hv Hf;
    [pose proof (rounds_pos k n); lia|].
  inversion Hr as [|? w|? k0 m f t0 Hfl Hkid Hm|? cs f ts Hfl Hl Hkid Hc|? ? Ht Hh Hin Hs]; subst.
  - destruct (insert_nil fuel p k (ValueNode v) tr) as (tr' & E). rewrite E.
    eexists true, _, (sub k (TValue v)), tr'. split; [done|].
    split; [|split; [by apply sub_not_nil|done]].
    split; [apply repr_subn; constructor| |apply updated_nil|done|by destruct k].
    intros _. destruct Hk as [->|Hk]; [simpl; eauto|]. pose proof (key_ok_not_nil k Hk).
    destruct k; [done|]. by constructor.
  - assert (k = []) as ->.
    { destruct Hk as [->|Hk]; [done|]. assert (twf (TValue w)) as Ht; [|by inversion Ht].
      apply (wf_at_twf k); [done|by apply key_ok_not_nil|done]. }
    cbn [insert]. eexists _, _, (TValue v), tr. split; [done|]. split; [|done].
    split; [constructor|intros _; eauto| | |done].
    + intros [|z q]; [by rewrite decide_True|by rewrite decide_False].
    + case_bool_decide; by subst.
  - destruct (wf_at_node k _ Hk Hw) as [Ht Hkey]; [done|done|].
    apply insert_short; try done. unfold rounds in Hf. simpl in Hf. lia.
  - destruct (wf_at_node k _ Hk Hw) as [Ht Hkey]; [done|done|].
    destruct k as [|x k]; [by apply key_ok_not_nil in Hkey|]. cbn [insert].
    destruct (wf_full_step x k ts Ht Hkey) as (c & Ec & Hwc).
    pose proof (key_ok_head _ _ Hkey) as (Hx & Hk' & _).
    destruct (repr_child p cs f ts x c Hr) as (m & Em & Hm & _); [lia|done|].
    rewrite (etm_bind_try _ x) by done.
    rewrite (etm_bind_try _ m) by (apply go_index_lookup; done || lia).
    destruct (IH (p ++ [x]) k m c v tr Hm Hwc Hk') as (dirty & n' & t' & tr' & E & Hch & Htn & _);
      [by eapply bounded_full|done|pose proof (rounds_le k m); unfold rounds in Hf; simpl in Hf; lia|].
    rewrite (etm_bind_inr _ _ _ _ _ (E : insert rd fuel m (p ++ [x]) (drop 1 (x :: k)) _ _ = _)).
    destruct Hch as [Hn' Hw' Hu Hc' Hl']. destruct dirty; cbn [negb].
    + assert (length ts = 17%nat) as L17 by by inversion Ht.
      rewrite (etm_bind_try _ (<[Z.to_nat x := n']> cs)) by (apply set_child_Ok; lia).
      eexists true, _, (TFull (<[Z.to_nat x := t']> ts)), _. split; [done|]. split; [|done].
      split; [by eapply repr_insert_child; [done|lia|done|apply flag_ok_new|done]| | |done|done].
      * apply wf_at_twf_intro; [done|]. apply twf_full_insert; [done|]. by apply (wf_at_child x k).
      * apply updated_full with c; [lia|done|done].
    + eexists false, _, (TFull ts), _. split; [done|]. split; [|done]. apply changed_not; [done|by apply wf_at_twf_intro|].
      rewrite tget_full, Ec by lia. simpl. specialize (Hu k). rewrite (Hc' eq_refl) in Hu.
      by rewrite decide_True in Hu.
  - assert (k ≠ []) as Hkne.
    { intros ->. assert (t ≠ TNil) as Hn by by apply twf_not_nil. destruct (Hw Hn) as (w & -> & _).
      inversion Ht. }
    destruct (resolveAndTrack_repr p _ t tr Hr Hb) as (m & Em & Hm & Hnh & _).
    destruct (IH p k m t v (onRead p (tenc t) tr) Hm Hw Hk Hb Hv) as (dirty & n' & t' & tr' & E & Hch & Htn & Hfull).
    { unfold rounds in *. rewrite Hnh. simpl in Hf. lia. }
    assert (insert rd (S fuel) (HashNode (Keccak256 (tenc t))) p k (ValueNode v) tr
      = (rn ← resolveAndTrack rd (Keccak256 (tenc t)) p;
         '(dirty, nn) ← insert rd fuel rn p k (ValueNode v);
         if negb dirty then mret (false, rn) else mret (true, nn)) tr) as -> by by destruct k.
    rewrite (etm_bind_inr _ _ _ _ _ Em), (etm_bind_inr _ _ _ _ _ E). destruct dirty; cbn [negb].
    + by eexists true, n', t', _.
    + eexists false, m, t', _. split; [done|]. split; [|done].
      destruct Hch as [Hn' Hw' Hu Hc' Hl']. rewrite (Hc' eq_refl) in *. done.
Qed.

(** ** Deleting *)

Lemma only_child_spec cs : ∀ pos i,
  0 <= i → -1 <= pos →
  let r := only_child pos i cs in
  (pos = -1 ∧ r = -1 ∧ (∀ j c, cs !! j = Some c → c = NilNode)) ∨
  (0 <= pos ∧ r = pos ∧ (∀ j c, cs !! j = Some c → c = NilNode)) ∨
  (pos = -1 ∧ ∃ j c, r = i + Z.of_nat j ∧ cs !! j = Some c ∧ c ≠ NilNode ∧
     ∀ j' c', cs !! j' = Some c' → j' ≠ j → c' = NilNode) ∨
  (r = -2 ∧ ((pos = -1 ∧ ∃ j j' c c', (j < j')%nat ∧ cs !! j = Some c ∧ cs !! j' = Some c' ∧
                c ≠ NilNode ∧ c' ≠ NilNode) ∨
             (0 <= pos ∧ ∃ j c, cs !! j = Some c ∧ c ≠ NilNode))).
Proof.
  induction cs as [|c cs IH]; intros pos i Hi Hp; cbn zeta.
  { cbn [only_child]. destruct (decide (pos = -1)) as [->|]; [left|right; left]; split_and!; (done || lia). }
  assert (c = NilNode ∨ c ≠ NilNode) as [->|Hc] by (destruct c; auto).
  - cbn [only_child]. destruct (IH pos (i + 1) ltac:(lia) Hp) as
      [(-> & -> & Hn)|[(Hp0 & -> & Hn)|[(-> & j & d & -> & Ej & Hd & Hn)|(-> & [(-> & j & j' & d & d' & Hj & Ej & Ej' & Hd & Hd')|(Hp0 & j & d & Ej & Hd)])]]].
    + left. split_and!; [done|done|]. intros [|j] d; naive_solver.
    + right; left. split_and!; [done|done|]. intros [|j] d; naive_solver.
    + right; right; left. split; [done|]. exists (S j), d. split_and!; [lia|done|done|].
      intros [|j'] d' Ed Hne; [naive_solver|]. eapply Hn; [done|lia].
    + right; right; right. split; [done|]. left. split; [done|].
      exists (S j), (S j'), d, d'. split_and!; (done || lia).
    + right; right; right. split; [done|]. right. split; [done|]. by exists (S j), d.
  - assert (only_child pos i (c :: cs) = if pos =? -1 then only_child i (i + 1) cs else -2) as ->
      by by destruct c.
    destruct (Z.eqb_spec pos (-1)) as [->|Hne].
    + destruct (IH i (i + 1) ltac:(lia) ltac:(lia)) as
        [(? & _)|[(_ & -> & Hn)|[(? & _)|(-> & [[? _]|(_ & j & d & Ej & Hd)])]]]; try lia.
      * right; right; left. split; [done|]. exists 0%nat, c. split_and!; [lia|done|done|].
        intros [|j'] d' Ed Hj; [done|]. by eapply Hn.
      * right; right; right. split; [done|]. left. split; [done|].
        exists 0%nat, (S j), c, d. split_and!; (done || lia).
    + right; right; right. split; [done|]. right. split; [lia|]. by exists 0%nat, c.
Qed.

Lemma repr_nil_iff p n t : repr p n t → (n = NilNode ↔ t = TNil).
Proof.
  destruct 1 as [| | | |? ? Ht]; try done. split; [done|]. intros ->. inversion Ht.
Qed.

(** The children after a removal, seen through [only_child]. *)
Lemma only_child_repr p cs f ts :
  repr p (FullNode cs f) (TFull ts) → (∃ j c, ts !! j = Some c ∧ c ≠ TNil) →
  (only_child (-1) 0 cs = -2 ∧ two_children ts) ∨
  ∃ i d, only_child (-1) 0 cs = Z.of_nat i ∧ ts !! i = Some d ∧ d ≠ TNil ∧
    ∀ j c, ts !! j = Some c → j ≠ i → c = TNil.
Proof.
  inversion 1 as [| | |? ? ? ? _ Hl _ Hc|]; subst. intros (j & c & Ej & Hj).
  assert (∀ i t, ts !! i = Some t → ∃ n, cs !! i = Some n ∧ (n = NilNode ↔ t = TNil)) as Hto.
  { intros i t Et. destruct (lookup_lt_is_Some_2 cs i) as [n En].
    { rewrite Hl. by eapply lookup_lt_Some. }
    exists n. split; [done|]. eapply repr_nil_iff, Hc; done. }
  assert (∀ i n, cs !! i = Some n → ∃ t, ts !! i = Some t ∧ (n = NilNode ↔ t = TNil)) as Hfrom.
  { intros i n En. destruct (lookup_lt_is_Some_2 ts i) as [t Et].
    { rewrite <- Hl. by eapply lookup_lt_Some. }
    exists t. split; [done|]. eapply repr_nil_iff, Hc; done. }
  destruct (only_child_spec cs (-1) 0 ltac:(lia) ltac:(lia)) as
    [(_ & _ & Hn)|[(? & _)|[(_ & i & n & -> & Ei & Hi & Hn)|(-> & [(_ & i & i' & n & n' & Hii & Ei & Ei' & Hi & Hi')|[? _]])]]];
    try lia.
  - destruct (Hto j c Ej) as (n & En & Hiff). specialize (Hn j n En). naive_solver.
  - right. destruct (Hfrom i n Ei) as (d & Ed & Hiff). exists i, d.
    split_and!; [lia|done|naive_solver|]. intros j' c' Ej' Hne.
    destruct (Hto j' c' Ej') as (n' & En' & Hiff'). apply Hiff'. by eapply Hn.
  - left. split; [done|]. destruct (Hfrom i n Ei) as (d & Ed & Hiff), (Hfrom i' n' Ei') as (d' & Ed' & Hiff').
    exists i, i', d, d'. split_and!; [done|done|done|naive_solver|naive_solver].
Qed.

Lemma resolve_repr p n t tr :
  repr p n t → bounded t →
  ∃ m tr', resolve rd n p tr = Done (inr m, tr') ∧ repr p m t ∧ is_hash m = false.
Proof.
  intros Hr Hb. destruct n as [| | |h| |]; try (eexists _, tr; by split_and!).
  destruct (resolveAndTrack_repr p h t tr Hr Hb) as (m & E & Hm & Hnh & _). by eexists m, _.
Qed.

(** A short node in front of a node with the given tree, merged when that is short. *)
Lemma merged_short p k0 n t :
  nibbles_ok k0 → k0 ≠ [] → repr (p ++ k0) n t → is_hash n = false → twf t →
  (∃ ck cv f ct, n = ShortNode ck cv f ∧ t = TShort ck ct ∧
     repr p (ShortNode (k0 ++ ck) cv newFlag) (TShort (k0 ++ ck) ct) ∧ twf (TShort (k0 ++ ck) ct) ∧
     ∀ q, tget (TShort k0 t) q = tget (TShort (k0 ++ ck) ct) q) ∨
  ((∃ cs f ts, n = FullNode cs f ∧ t = TFull ts) ∧ twf (TShort k0 t)).
Proof.
  intros Hk0 Hne Hr Hnh Ht.
  inversion Hr as [| |? ck cv f ct Hf _ Hcv|? cs f ts Hf Hl _ Hc|]; subst; try done; try by inversion Ht.
  - left. exists ck, cv, f, ct. split_and!; [done|done| |by apply twf_short_app|].
    + apply repr_short_new; by rewrite app_assoc.
    + intros q. by rewrite tget_short_app.
  - right. split; [by eauto|]. by constructor.
Qed.

Definition delete_ok (fuel : nat) : Prop := ∀ p k n t tr,
  repr p n t → wf_at k t → rest_ok k → bounded t → (rounds k n <= fuel)%nat →
  ∃ dirty n' t' tr', delete rd fuel n p k tr = Done (inr (dirty, n'), tr') ∧
    changed p k None t dirty n' t' ∧ (is_full t → t' ≠ TNil).

Lemma delete_short fuel p k0 n f t k tr :
  delete_ok fuel → repr p (ShortNode k0 n f) (TShort k0 t) → twf (TShort k0 t) → key_ok k →
  bounded (TShort k0 t) → (2 * length k <= fuel)%nat →
  ∃ dirty n' t' tr', delete rd (S fuel) (ShortNode k0 n f) p k tr = Done (inr (dirty, n'), tr') ∧
    changed p k None (TShort k0 t) dirty n' t'.
Proof.
  intros IH Hr Ht Hk Hb Hf. destruct (prefixLen_split k k0) as (c & a & b & -> & -> & Ep & Hd).
  cbn [delete]. rewrite Ep. destruct b as [|x r0].
  2:{ rewrite (proj2 (Nat.ltb_lt _ _)) by (rewrite length_app; simpl; lia).
      eexists false, _, _, tr. split; [done|]. apply changed_not; [done|by apply wf_at_twf_intro|].
      destruct (tget _ _) eqn:E; [|done]. apply tget_short_inv in E as (q & E & _).
      rewrite <- app_assoc in E. apply app_inv_head in E. destruct a as [|y r]; [done|].
      injection E as -> ->. by destruct (Hd x x (r0 ++ q) r0). }
  rewrite app_nil_r in *. rewrite Nat.ltb_irrefl.
  destruct (wf_short_step c a t Ht Hk) as (Hw1 & Hk1 & Hne).
  inversion Hr as [| |? ? ? ? ? _ _ Hn| |]; subst.
  destruct a as [|y r].
  - rewrite app_nil_r, Nat.eqb_refl in *. eexists true, NilNode, TNil, _. split; [done|].
    split; [apply repr_nil|by intros []| |done|done]. intros q.
    inversion Ht as [? w _ _|? cs _ Hkc _|]; subst.
    + case_decide as E; [done|]. destruct (tget (TShort c (TValue w)) q) eqn:Eq; [|done].
      apply tget_short_inv in Eq as (q' & -> & [-> _]%value_get). by rewrite app_nil_r in E.
    + destruct Hk as (m & _ & ->). apply Forall_app in Hkc as [_ H16].
      rewrite Forall_singleton in H16. lia.
  - rewrite (proj2 (Nat.eqb_neq _ _)) by (rewrite length_app; simpl; lia).
    inversion Ht as [? w Hkc _|? cs Hcne Hkc Hfc|]; subst.
    { by assert (y :: r = []) by by apply (key_ok_prefix c (c ++ y :: r)). }
    assert (length c ≠ 0%nat) by by destruct c.
    destruct (IH (p ++ c) (y :: r) n (TFull cs) tr Hn Hw1 Hk1) as (dirty & n' & t' & tr' & E & Hch & Hnn);
      [by eapply bounded_short|rewrite length_app in Hf; pose proof (rounds_le (y :: r) n); lia|].
    rewrite take_app_length, drop_app_length, (etm_bind_inr _ _ _ _ _ E).
    destruct Hch as [Hn' Hw' Hu Hc Hl]. destruct dirty; cbn [negb].
    + specialize (Hnn I). destruct (merged_short p c n' t' Hkc Hcne Hn' (Hl eq_refl) (Hw' Hnn)) as
        [(ck & cv & f' & ct & -> & -> & Hr' & Ht' & Eq)|[(cs' & f' & ts & -> & ->) Ht']].
      * eexists true, _, (TShort (c ++ ck) ct), _. split; [done|].
        split; [done|by apply wf_at_twf_intro| |done|done].
        eapply updated_ext; [exact Eq|]. by apply updated_short.
      * eexists true, _, (TShort c (TFull ts)), _. split; [done|].
        by apply (changed_short p c (y :: r) None n f).
    + eexists false, _, _, tr'. split; [done|]. apply changed_not; [done|by apply wf_at_twf_intro|].
      rewrite tget_short. specialize (Hu (y :: r)). rewrite (Hc eq_refl) in Hu.
      by rewrite decide_True in Hu.
Qed.

(** The reduction of a full node whose child [x] was removed. *)
Lemma delete_reduce p cs ts x k tr :
  repr p (FullNode cs newFlag) (TFull ts) → key_ok (x :: k) → bounded (TFull ts) →
  (two_children ts → twf (TFull ts)) → (∃ j c, ts !! j = Some c ∧ c ≠ TNil) →
  (∀ i c, ts !! i = Some c → c ≠ TNil → child_ok (Z.of_nat i) c) →
  ∃ n' t' tr',
    (let pos := only_child (-1) 0 cs in
     if 0 <=? pos then
       c ← try (go_index cs pos);
       cnode ← (if negb (pos =? 16) then resolve rd c (p ++ [pos]) else mret NilNode);
       match cnode with
       | ShortNode ck cv _ =>
           effect (onDelete (p ++ [pos]));; mret (true, ShortNode (pos :: ck) cv newFlag)
       | _ => mret (true, ShortNode [pos] c newFlag)
       end
     else mret (true, FullNode cs newFlag)) tr = Done (inr (true, n'), tr') ∧
    repr p n' t' ∧ is_hash n' = false ∧ twf t' ∧ ∀ q, tget (TFull ts) q = tget t' q.
Proof.
  intros Hr Hk Hb H2 H1 Hall. cbn zeta.
  destruct (only_child_repr p cs _ ts Hr H1) as [[-> Htwo]|(i & d & -> & Ed & Hdn & Hoth)].
  { eexists _, (TFull ts), tr. split; [done|]. by split_and!; [done|done|by apply H2|done]. }
  pose proof (single_child ts i d Ed Hoth) as Eq.
  destruct (Hall i d Ed Hdn) as (_ & Hi & H16 & Hd).
  destruct (repr_child p cs newFlag ts (Z.of_nat i) d Hr) as (m & Em & Hm & _); [lia|by rewrite Nat2Z.id|].
  rewrite (proj2 (Z.leb_le 0 (Z.of_nat i))) by lia.
  rewrite (etm_bind_try _ m) by (apply go_index_lookup; [lia|done]).
  assert (nibbles_ok [Z.of_nat i] ∨ i = 16%nat) as [Hnib| ->].
  { destruct (decide (i = 16%nat)); [by right|left; repeat constructor; lia]. }
  - assert (i ≠ 16%nat) by (intros ->; apply Forall_cons in Hnib as [? _]; lia).
    rewrite (proj2 (Z.eqb_neq (Z.of_nat i) 16)) by lia. cbn [negb].
    destruct (resolve_repr _ m d tr Hm) as (cn & tr' & E & Hcn & Hnh); [by eapply bounded_full|].
    rewrite (etm_bind_inr _ _ _ _ _ E).
    destruct (merged_short p [Z.of_nat i] cn d Hnib ltac:(done) Hcn Hnh (Hd ltac:(lia))) as
      [(ck & cv & f' & ct & -> & -> & Hr' & Ht' & Eq')|[(cs' & f' & ts' & -> & ->) Ht']].
    + eexists _, _, _. split; [done|]. split_and!; [done|done|done|].
      intros q. rewrite Eq. apply Eq'.
    + eexists _, _, tr'. split; [done|]. split_and!; [|done|done|done].
      by apply repr_short_new.
  - destruct (H16 eq_refl) as (v & -> & Hv). eexists _, _, tr. split; [done|].
    split_and!; [by apply repr_short_new|done| |done].
    constructor; [|done]. exists []. split; [constructor|done].
Qed.

Lemma delete_full fuel p cs f ts x k tr :
  delete_ok fuel → repr p (FullNode cs f) (TFull ts) → twf (TFull ts) → key_ok (x :: k) →
  bounded (TFull ts) → (2 * length k + 2 <= fuel)%nat →
  ∃ dirty n' t' tr', delete rd (S fuel) (FullNode cs f) p (x :: k) tr = Done (inr (dirty, n'), tr') ∧
    changed p (x :: k) None (TFull ts) dirty n' t' ∧ t' ≠ TNil.
Proof.
  intros IH Hr Ht Hkey Hb Hf. cbn [delete].
  destruct (wf_full_step x k ts Ht Hkey) as (c & Ec & Hwc).
  pose proof (key_ok_head _ _ Hkey) as (Hx & Hk' & _).
  destruct (repr_child p cs f ts x c Hr) as (m & Em & Hm & _); [lia|done|].
  rewrite (etm_bind_try _ x) by done.
  rewrite (etm_bind_try _ m) by (apply go_index_lookup; done || lia).
  destruct (IH (p ++ [x]) k m c tr Hm Hwc Hk') as (dirty & n' & t' & tr' & E & Hch & _);
    [by eapply bounded_full|pose proof (rounds_le k m); lia|].
  rewrite (etm_bind_inr _ _ _ _ _ (E : delete rd fuel m (p ++ [x]) (drop 1 (x :: k)) _ = _)).
  destruct Hch as [Hn' Hw' Hu Hc' Hl']. destruct dirty; cbn [negb].
  2:{ eexists false, _, (TFull ts), _. split; [done|]. split; [|done].
      apply changed_not; [done|by apply wf_at_twf_intro|].
      rewrite tget_full, Ec by lia. simpl. specialize (Hu k). rewrite (Hc' eq_refl) in Hu.
      by rewrite decide_True in Hu. }
  inversion Ht as [| |? L17 _ _ H2]; subst.
  assert (length cs = 17%nat) as Lc by (inversion Hr; congruence).
  rewrite (etm_bind_try _ (<[Z.to_nat x := n']> cs)) by (apply set_child_Ok; lia).
  assert (repr p (FullNode (<[Z.to_nat x := n']> cs) newFlag) (TFull (<[Z.to_nat x := t']> ts))) as Hr'
    by (eapply repr_insert_child; [done|lia|done|apply flag_ok_new|done]).
  pose proof (updated_full x k None ts c t' ltac:(lia) Ec Hu) as Hup.
  assert (t' = TNil ∨ t' ≠ TNil) as [->|Htn] by (destruct t'; auto).
  - assert (n' = NilNode) as -> by by eapply repr_nil_iff. cbn [is_nil negb].
    assert (bounded (TFull (<[Z.to_nat x := TNil]> ts))) as Hb'.
    { intros q v E'. rewrite Hup in E'. case_decide; [done|]. by apply Hb. }
    destruct (delete_reduce p _ _ x k tr' Hr' Hkey Hb') as (n & t & tr'' & E' & Hn & Hnh & Htw & Eq);
      [by apply twf_full_remove|by apply two_children_remove| |].
    { intros i d Ed Hd. apply list_lookup_insert_Some in Ed as [(_ & <- & _)|[_ Ed]]; [done|].
      assert (i < 17)%nat by (rewrite <- L17; by eapply lookup_lt_Some).
      inversion Ht as [| |? _ Hc H16 _]; subst. split_and!; [done|lia|lia| |].
      - intros E16. assert (i = 16%nat) as -> by lia. by apply H16.
      - intros. apply (Hc i); [done|lia|done]. }
    eexists true, n, t, tr''. split; [exact E'|]. split; [|by apply twf_not_nil].
    split; [done|by apply wf_at_twf_intro|by eapply updated_ext|done|done].
  - assert (is_nil n' = false) as ->.
    { destruct n'; try done. by destruct Htn; eapply repr_nil_iff. }
    cbn [negb]. eexists true, _, (TFull (<[Z.to_nat x := t']> ts)), tr'. split; [done|]. split; [|done].
    split; [done| |done|done|done]. apply wf_at_twf_intro; [done|].
    apply twf_full_insert; [done|]. by apply (wf_at_child x k).
Qed.

Lemma delete_spec fuel : delete_ok fuel.
Proof.
  induction fuel as [|fuel IH]; intros p k n t tr Hr Hw Hk Hb Hf;
    [pose proof (rounds_pos k n); lia|].
  inversion Hr as [|? w|? k0 m f t0 Hfl Hkid Hm|? cs f ts Hfl Hl Hkid Hc|? ? Ht Hh Hin Hs]; subst.
  - eexists false, NilNode, TNil, tr. split; [done|]. split; [|done]. by apply changed_not.
  - assert (k = []) as ->.
    { destruct Hk as [->|Hk]; [done|]. assert (twf (TValue w)) as Ht; [|by inversion Ht].
      apply (wf_at_twf k); [done|by apply key_ok_not_nil|done]. }
    eexists true, NilNode, TNil, tr. split; [done|]. split; [|done].
    split; [apply repr_nil|by intros []| |done|done]. intros [|z q]; [by rewrite decide_True|by rewrite decide_False].
  - destruct (wf_at_node k _ Hk Hw) as [Ht Hkey]; [done|done|].
    destruct (delete_short fuel p k0 m f t0 k tr IH Hr Ht Hkey Hb) as (dirty & n' & t' & tr' & E & Hch);
      [unfold rounds in Hf; simpl in Hf; lia|]. by eexists dirty, n', t', tr'.
  - destruct (wf_at_node k _ Hk Hw) as [Ht Hkey]; [done|done|].
    destruct k as [|x k]; [by apply key_ok_not_nil in Hkey|].
    destruct (delete_full fuel p cs f ts x k tr IH Hr Ht Hkey Hb) as (dirty & n' & t' & tr' & E & Hch & Hnn);
      [unfold rounds in Hf; simpl in Hf; lia|]. by eexists dirty, n', t', tr'.
  - destruct (resolveAndTrack_repr p _ t tr Hr Hb) as (m & Em & Hm & Hnh & _).
    destruct (IH p k m t (onRead p (tenc t) tr) Hm Hw Hk Hb) as (dirty & n' & t' & tr' & E & Hch & Hnn).
    { unfold rounds in *. rewrite Hnh. simpl in Hf. lia. }
    cbn [delete]. rewrite (etm_bind_inr _ _ _ _ _ Em), (etm_bind_inr _ _ _ _ _ E).
    destruct dirty; cbn [negb]; [by eexists true, n', t', _|].
    eexists false, m, t', _. split; [done|]. split; [|done].
    destruct Hch as [Hn' Hw' Hu Hc' Hl']. rewrite (Hc' eq_refl) in *. done.
Qed.
End representation.
