(* ===== verification/TrieHash.v ===== *)
(** * Hashing a trie (trie/hasher.go, Trie.hashRoot and Trie.Hash)

    The hasher replaces the nodes below the root by their hashes, or leaves them embedded
    when they are small, and stores the hashes in the nodes.  Its result is the hash the
    tree specifies, with or without hashes cached by earlier runs.  The goroutines of
    [hashFullNodeChildren] write disjoint array elements and are joined before the result
    is read, so the parallel loop has the result of the sequential one. *)

From S2P Require Import Prelude Bytes RlpEncode RlpRaw Common TrieKeys TrieNode TrieTree Trie TrieProps.

Open Scope Z_scope.

Section hasher.
Context `{Crypto}.

Definition hashData (data : list byte) : list byte := Keccak256 data.

Definition shortnodeToHash (n : node) (force : bool) : node :=
  let enc := nodeToBytes n in
  if (length enc <? 32)%nat && negb force then n else HashNode (hashData enc).

Definition fullnodeToHash (n : node) (force : bool) : node :=
  let enc := nodeToBytes n in
  if (length enc <? 32)%nat && negb force then n else HashNode (hashData enc).

(** [cached.flags.hash] after hashing. *)
Definition cached_flag (f : nodeFlag) (hashed : node) : nodeFlag :=
  mkNodeFlag (match hashed with HashNode hn => Some hn | _ => None end) (nf_dirty f).

(** The child of a short node: value and hash nodes are left as they are. *)
Definition hash_val (h : node → bool → res (node * node)) (v : node) : res (node * node) :=
  match v with FullNode _ _ | ShortNode _ _ _ => h v false | _ => Ok (v, v) end.

(** The first 16 children of a full node, collapsed and cached. *)
Definition hash_children (h : node → bool → res (node * node)) :=
  fix go (k : nat) (cs : list node) : res (list node * list node) :=
    match k, cs with
    | S k, c :: cs =>
        '(a, b) ← (if is_nil c then Ok (nilValueNode, NilNode) else h c false);
        '(as_, bs) ← go k cs;
        Ok (a :: as_, b :: bs)
    | _, _ => Ok (cs, cs)
    end.

(** [hash], with [hashShortNodeChildren] and [hashFullNodeChildren]. *)
Fixpoint hash (n : node) (force : bool) : res (node * node) :=
  '(h, _) ← cache n;
  match h with
  | Some h => Ok (HashNode h, n)
  | None =>
      match n with
      | ShortNode k v f =>
          key ← hexToCompact k;
          '(cv, v') ← hash_val hash v;
          let hashed := shortnodeToHash (ShortNode key cv f) force in
          Ok (hashed, ShortNode k v' (cached_flag f hashed))
      | FullNode cs f =>
          '(ccs, cs') ← hash_children hash 16 cs;
          let hashed := fullnodeToHash (FullNode ccs f) force in
          Ok (hashed, FullNode cs' (cached_flag f hashed))
      | _ => Ok (n, n)
      end
  end.

(** [proofHash]: the collapsed node and its reference. *)
Definition proofHash (original : node) : res (node * node) :=
  match original with
  | ShortNode k v f =>
      key ← hexToCompact k;
      '(cv, _) ← hash_val hash v;
      let sn := ShortNode key cv f in Ok (sn, shortnodeToHash sn false)
  | FullNode cs f =>
      '(ccs, _) ← hash_children hash 16 cs;
      let fn := FullNode ccs f in Ok (fn, fullnodeToHash fn false)
  | n => Ok (n, n)
  end.

Definition hashRoot (t : Trie) : res (node * node * Trie) :=
  if is_nil (t_root t) then Ok (HashNode (Hash_Bytes EmptyRootHash), NilNode, t)
  else
    '(hashed, cached) ← hash (t_root t) true;
    Ok (hashed, cached, mkTrie (t_root t) (t_owner t) (t_committed t) 0 (t_reader t) (t_tracer t)).

Definition trie_Hash (t : Trie) : res (Hash * Trie) :=
  '(hash, cached, t) ← hashRoot t;
  match hash with
  | HashNode h => Ok (BytesToHash h, set_root t cached)
  | _ => Panic "interface conversion"
  end.

(** ** What the hasher computes *)

Section spec.
Context (rd : trieReader).

Definition hash_set (n : node) : Prop :=
  match n with ShortNode _ _ f | FullNode _ f => nf_hash f ≠ None | _ => True end.

(** The place of a node in the trie: the root is forced to a hash, the others are not. *)
Definition hash_ok (n : node) : Prop := ∀ p t (force : bool),
  repr rd p n t → twf t → bounded t → is_hash n = false → (if force then p = [] else p ≠ []) →
  ∃ hashed cached, hash n force = Ok (hashed, cached) ∧ repr rd p cached t ∧
    is_hash cached = false ∧
    child_hashed cached t ∧
    node_rlp hashed = (if force then rlp_string (Keccak256 (tenc t)) else tref t) ∧
    (force = true → hashed = HashNode (Keccak256 (tenc t)) ∧ hash_set cached).

(** A child as its parent sees it. *)
Definition hash_sub_ok (n : node) : Prop := ∀ p t,
  repr rd p n t → sub_ok t → bounded t → p ≠ [] →
  ∃ hashed cached,
    (if is_nil n then Ok (nilValueNode, NilNode) else hash n false) = Ok (hashed, cached) ∧
    repr rd p cached t ∧ child_hashed cached t ∧ node_rlp hashed = tref t.

Lemma tref_big t : twf t → (32 <= length (tenc t))%nat → tref t = rlp_string (Keccak256 (tenc t)).
Proof. intros Ht Hl. rewrite tref_node by done. unfold embed. by rewrite (proj2 (Nat.ltb_ge _ _)). Qed.

Lemma tref_small t : twf t → (length (tenc t) < 32)%nat → tref t = tenc t.
Proof. intros Ht Hl. rewrite tref_node by done. unfold embed. by rewrite (proj2 (Nat.ltb_lt _ _)). Qed.

Lemma hash_sub n : hash_ok n → hash_sub_ok n.
Proof.
  intros IH p t Hr Hs Hb Hp. destruct Hs as [->|[(v & -> & Hv)|Ht]].
  - assert (n = NilNode) as -> by by eapply repr_nil_iff. eexists _, _. split; [done|].
    split_and!; [constructor|done|done].
  - inversion Hr as [|? ?| | |? ? Ht]; subst; [|by inversion Ht]. eexists _, _. split; [done|].
    split_and!; [constructor|done|done].
  - destruct (is_hash n) eqn:Hh.
    + destruct n; try done. inversion Hr as [| | | |? ? _ Hat Hin Hsv]; subst.
      eexists _, _. split; [done|]. split_and!; [done|done|]. cbn [node_rlp].
      destruct Hat as [->|Hat]; [done|]. by rewrite tref_big.
    + destruct (IH p t false Hr Ht Hb Hh Hp) as (hashed & cached & E & Hc & _ & Hch & Hn & _).
      exists hashed, cached. split_and!; [|done|done|done].
      by destruct n.
Qed.

Lemma hash_children_spec cs : ∀ k i p ts,
  Forall hash_ok cs → length cs = length ts → Forall sub_ok ts → Forall bounded ts →
  (∀ j n t, cs !! j = Some n → ts !! j = Some t → repr rd (p ++ [i + Z.of_nat j]) n t) →
  (∀ j n t, (k <= j)%nat → cs !! j = Some n → ts !! j = Some t → child_hashed n t ∧ node_rlp n = tref t) →
  ∃ ccs cs', hash_children hash k cs = Ok (ccs, cs') ∧
    length cs' = length cs ∧
    (∀ j n t, cs' !! j = Some n → ts !! j = Some t →
       repr rd (p ++ [i + Z.of_nat j]) n t ∧ child_hashed n t) ∧
    map node_rlp ccs = map tref ts.
Proof.
  induction cs as [|c cs IH]; intros k i p ts Hok Hl Hs Hb Hr Hlast.
  { destruct ts; [|done]. exists [], []. split_and!; by destruct k. }
  destruct ts as [|t ts]; [done|]. apply Forall_cons in Hok as [Hc Hok], Hs as [Hst Hs], Hb as [Hbt Hb].
  assert (∀ j n t, cs !! j = Some n → ts !! j = Some t → repr rd (p ++ [(i + 1) + Z.of_nat j]) n t) as Hr'.
  { intros j n t' En Et. replace (i + 1 + Z.of_nat j) with (i + Z.of_nat (S j)) by lia. by apply Hr. }
  pose proof (Hr 0%nat c t eq_refl eq_refl) as Hc0. rewrite Z.add_0_r in Hc0.
  destruct k as [|k].
  - exists (c :: cs), (c :: cs). split_and!; [done|done| |].
    + intros j n t' En Et. split; [by apply Hr|]. apply (Hlast j); [lia|done|done].
    + clear -Hl Hlast. revert Hl Hlast. generalize (c :: cs) as l1, (t :: ts) as l2. clear.
      induction l1 as [|a l1 IH]; intros [|b l2] Hl Hlast; try done. simpl. f_equal.
      * apply (Hlast 0%nat); [lia|done|done].
      * apply IH; [by injection Hl|]. intros j n t. intros _. apply (Hlast (S j)). lia.
  - destruct (hash_sub c Hc _ t Hc0 Hst Hbt) as (hashed & cached & E & Hcr & Hch & Hn);
      [by destruct p|].
    destruct (IH k (i + 1) p ts Hok ltac:(by injection Hl) Hs Hb Hr') as (ccs & cs' & E' & L' & Hcs' & Hmap).
    { intros j n t' Hj. apply (Hlast (S j)). lia. }
    exists (hashed :: ccs), (cached :: cs'). cbn [hash_children]. rewrite E. cbn [mbind res_bind].
    fold (hash_children hash). rewrite E'. split_and!; [done|simpl; by rewrite L'| |simpl; by rewrite Hn, Hmap].
    intros [|j] n t' En Et; simplify_eq/=; [by rewrite Z.add_0_r|].
    replace (i + Z.of_nat (S j)) with (i + 1 + Z.of_nat j) by lia. by apply Hcs'.
Qed.

(** The hash of a collapsed node whose encoding is that of the tree. *)
Lemma collapsed_hash p f n t (force : bool) :
  node_rlp n = tenc t → twf t → bounded t → nf_hash f = None → flag_ok rd p f t →
  (if force then p = [] else p ≠ []) → is_hash n = false →
  let hashed := if (length (nodeToBytes n) <? 32)%nat && negb force then n
                else HashNode (hashData (nodeToBytes n)) in
  flag_ok rd p (cached_flag f hashed) t ∧
  ((32 <= length (tenc t))%nat → nf_hash (cached_flag f hashed) ≠ None) ∧
  node_rlp hashed = (if force then rlp_string (Keccak256 (tenc t)) else tref t) ∧
  (force = true → hashed = HashNode (Keccak256 (tenc t)) ∧ nf_hash (cached_flag f hashed) ≠ None).
Proof.
  intros En Ht Hb Hf Hok Hp Hnh. pose proof (tenc_bound t Ht Hb).
  rewrite nodeToBytes_rlp, En by (rewrite En; lia). unfold hashData.
  unfold flag_ok in Hok. rewrite Hf in Hok. cbn zeta.
  destruct (Nat.ltb_spec (length (tenc t)) 32) as [Hlt|Hge].
  - destruct force; cbn [andb negb].
    + split_and!; [|done|done|done]. split; [done|]. split; [by left|].
      intros Hd. destruct (Hok Hd) as [? _]. done.
    + assert (nf_hash (cached_flag f n) = None) as E by by destruct n.
      split_and!; [|lia|by rewrite tref_small|done]. unfold flag_ok. by rewrite E.
  - cbn [andb]. split_and!; [|done| |done].
    + split; [done|]. split; [by right|]. intros Hd. destruct (Hok Hd). lia.
    + destruct force; [done|]. by rewrite tref_big.
Qed.

Lemma hexToCompact_compact k : hex_ok k → hexToCompact k = Ok (compact k).
Proof.
  intros (term & odd & s & Ho & Hs & ->)%hex_ok_iff. unfold compact. by rewrite hexToCompact_hex_of.
Qed.

(** The collapsed child of a short node. *)
Lemma hash_val_spec p k v t0 :
  hash_ok v → repr rd (p ++ k) v t0 → twf (TShort k t0) → bounded (TShort k t0) →
  ∃ cv v', hash_val hash v = Ok (cv, v') ∧ repr rd (p ++ k) v' t0 ∧ child_hashed v' t0 ∧ node_rlp cv = tref t0.
Proof.
  intros IH Hv Ht Hb. assert (k ≠ []) as Hkne by (inversion Ht; subst; [by apply key_ok_not_nil|done]).
  inversion Ht as [? w Hkw Hw|? cs Hne Hkn Hfc|]; subst.
  - inversion Hv as [|? ?| | |? ? Hbad]; subst; [|by inversion Hbad]. by eexists _, _.
  - destruct (is_hash v) eqn:Ehv.
    + destruct v; try done. eexists _, _. split; [done|]. split_and!; [done|done|].
      inversion Hv as [| | | |? ? _ Hat Hin Hsv]; subst. cbn [node_rlp].
      destruct Hat as [Hat|Hat]; [by apply app_eq_nil in Hat as [_ ->]|]. by rewrite tref_big.
    + destruct (IH (p ++ k) (TFull cs) false Hv Hfc) as (hd & ca & E & Hc & _ & Hch & Hn & _);
        [by eapply bounded_short|done|by destruct p, k|].
      exists hd, ca. split_and!; [|done|done|done].
      inversion Hv; subst; done.
Qed.

Lemma hash_short k v f : hash_ok v → hash_ok (ShortNode k v f).
Proof.
  intros IH p t force Hr Ht Hb _ Hp. inversion Hr as [| |? ? ? ? t0 Hfl Hkid Hv| |]; subst.
  destruct (nf_hash f) as [h|] eqn:Eh.
  { unfold flag_ok in Hfl. rewrite Eh in Hfl. destruct Hfl as (-> & Hat & _).
    eexists _, _. cbn [hash cache mbind res_bind]. rewrite Eh. split; [done|].
    split_and!; [done|done|simpl; by rewrite Eh| |simpl; by rewrite Eh]. destruct force; [done|].
    destruct Hat as [->|Hat]; [done|]. by rewrite tref_big. }
  assert (hex_ok k) as Hk by (inversion Ht; subst; [by apply key_ok_hex|by left]).
  cbn [hash cache mbind res_bind]. rewrite Eh, hexToCompact_compact by done. cbn [mbind res_bind].
  destruct (hash_val_spec p k v t0 IH Hv Ht Hb) as (cv & v' & E & Hv' & Hch & Hcv).
  rewrite E. cbn [mbind res_bind].
  destruct (collapsed_hash p f (ShortNode (compact k) cv f) (TShort k t0) force) as (Hfl' & Hbig & Hn & Hforce);
    try done.
  { cbn [node_rlp]. by rewrite Hcv. }
  eexists _, _. split; [done|]. split_and!; [|done|done|done|done].
  by constructor.
Qed.

(** The collapsed children of a full node. *)
Lemma hash_full_children p cs f ts :
  Forall hash_ok cs → repr rd p (FullNode cs f) (TFull ts) → twf (TFull ts) → bounded (TFull ts) →
  ∃ ccs cs', hash_children hash 16 cs = Ok (ccs, cs') ∧ length cs' = length cs ∧
    (∀ j n t, cs' !! j = Some n → ts !! j = Some t → repr rd (p ++ [0 + Z.of_nat j]) n t ∧ child_hashed n t) ∧
    map node_rlp ccs = map tref ts.
Proof.
  intros IH Hr Ht Hb. inversion Hr as [| | |? ? ? ? Hfl Hl Hkid Hc|]; subst. destruct (twf_children ts Ht) as [Hs L17].
  assert (Forall bounded ts) as Hbs.
  { apply Forall_lookup. intros i c Ec. by eapply bounded_full. }
  destruct (hash_children_spec cs 16 0 p ts IH Hl Hs Hbs) as (ccs & cs' & E & L' & Hcs' & Hmap); [..|by exists ccs, cs'].
  { intros j n t En Et. rewrite Z.add_0_l. by apply Hc. }
  { intros j n t Hj En Et. assert (j < 17)%nat by (rewrite <- L17; by eapply lookup_lt_Some).
    assert (j = 16%nat) as -> by lia. pose proof (Hc _ _ _ En Et) as Hn.
    inversion Ht as [| |? _ _ H16 _]; subst.
    assert (t = TNil ∨ t ≠ TNil) as [->|Htn] by (destruct t; auto).
    - assert (n = NilNode) as -> by by eapply repr_nil_iff. done.
    - destruct (H16 t Et Htn) as (v & -> & _). inversion Hn as [|? ?| | |? ? Hbad]; subst; [done|by inversion Hbad]. }
Qed.

Lemma hash_full cs f : Forall hash_ok cs → hash_ok (FullNode cs f).
Proof.
  intros IH p t force Hr Ht Hb _ Hp. inversion Hr as [| | |? ? ? ts Hfl Hl Hkid Hc|]; subst.
  destruct (nf_hash f) as [h|] eqn:Eh.
  { unfold flag_ok in Hfl. rewrite Eh in Hfl. destruct Hfl as (-> & Hat & _).
    eexists _, _. cbn [hash cache mbind res_bind]. rewrite Eh. split; [done|].
    split_and!; [done|done|simpl; by rewrite Eh| |simpl; by rewrite Eh]. destruct force; [done|].
    destruct Hat as [->|Hat]; [done|]. by rewrite tref_big. }
  cbn [hash cache mbind res_bind]. rewrite Eh.
  destruct (hash_full_children p cs f ts IH Hr Ht Hb) as (ccs & cs' & E & L' & Hcs' & Hmap).
  rewrite E. cbn [mbind res_bind].
  destruct (collapsed_hash p f (FullNode ccs f) (TFull ts) force) as (Hfl' & Hbig & Hn & Hforce);
    try done.
  { cbn [node_rlp]. by rewrite Hmap. }
  eexists _, _. split; [done|]. split_and!; [|done|done|done|done].
  constructor; [done|by rewrite L'| |].
  - intros i n t En Et _. by eapply Hcs'.
  - intros i n t En Et. by eapply (Hcs' i).
Qed.

Lemma hash_spec n : hash_ok n.
Proof.
  induction n as [|cs f IH|k v f IH|b|b|b] using node_nested_ind.
  - intros p t force Hr Ht. inversion Hr; subst. inversion Ht.
  - by apply hash_full.
  - by apply hash_short.
  - by intros p t force _ _ _ Hh.
  - intros p t force Hr Ht. inversion Hr; subst. inversion Ht.
  - intros p t force Hr. inversion Hr.
Qed.
End spec.
End hasher.
