(* ===== verification/TrieCommit.v ===== *)
(** * Committing a trie (trie/committer.go, trie/trienode/node.go, Trie.Commit)

    The committer collects the dirty nodes of a hashed trie into a node set, replacing
    them by their hashes.  A store that keeps what it has and adds the nodes of the set
    holds every node of the tree. *)

From S2P Require Import Prelude Bytes RlpEncode RlpRaw Common TrieKeys TrieNode TrieTree Trie.
From S2P Require Import TrieProps TrieHash.

Open Scope Z_scope.

(** ** trienode/node.go *)

Record Node := mkNode { nd_Hash : Hash; nd_Blob : list byte }.

Definition Node_Size (n : Node) : Z := Z.of_nat (length (nd_Blob n)) + Z.of_nat HashLength.
Definition IsDeleted (n : Node) : bool := nd_Hash n =? 0.

Record WithPrev := mkWithPrev { wp_Node : Node; wp_Prev : list byte }.

Definition WithPrev_Size (n : WithPrev) : Z := Node_Size (wp_Node n) + Z.of_nat (length (wp_Prev n)).
Definition NewWithPrev (hash : Hash) (blob prev : list byte) : WithPrev :=
  mkWithPrev (mkNode hash blob) prev.

Record leaf := mkLeaf { lf_Blob : list byte; lf_Parent : Hash }.

Record NodeSet := mkNodeSet {
  ns_Owner : Hash;
  ns_Leaves : list leaf;
  ns_Nodes : gmap (list byte) WithPrev;
  ns_updates : Z;
  ns_deletes : Z;
}.

Definition NewNodeSet (owner : Hash) : NodeSet := mkNodeSet owner [] ∅ 0 0.

Definition AddNode (path : list byte) (n : WithPrev) (set : NodeSet) : NodeSet :=
  let deleted := IsDeleted (wp_Node n) in
  mkNodeSet (ns_Owner set) (ns_Leaves set) (<[path := n]> (ns_Nodes set))
    (if deleted then ns_updates set else ns_updates set + 1)
    (if deleted then ns_deletes set + 1 else ns_deletes set).

Definition AddLeaf (parent : Hash) (blob : list byte) (set : NodeSet) : NodeSet :=
  mkNodeSet (ns_Owner set) (ns_Leaves set ++ [mkLeaf blob parent]) (ns_Nodes set)
    (ns_updates set) (ns_deletes set).

Definition NodeSet_Size (set : NodeSet) : Z * Z := (ns_updates set, ns_deletes set).

(** [ForEachWithOrder]: the nodes in the order the callback sees them. *)
Definition ForEachWithOrder `{GoRuntime} (set : NodeSet) : list (list byte * Node) :=
  let paths := sort_slice (λ a b, bytes_lt b a) (range_map (ns_Nodes set)).*1 in
  omap (λ path, (λ n, (path, wp_Node n)) <$> ns_Nodes set !! path) paths.

Definition Hashes `{GoRuntime} (set : NodeSet) : list Hash :=
  (λ pn, nd_Hash (wp_Node pn.2)) <$> range_map (ns_Nodes set).

Definition MergedNodeSet := gmap Hash NodeSet.

(** [Merge]: an error leaves the set as it was. *)
Definition Merge (set : MergedNodeSet) (other : NodeSet) : string + MergedNodeSet :=
  match set !! ns_Owner other with
  | Some _ => inl "duplicate trie for owner"%string
  | None => inr (<[ns_Owner other := other]> set)
  end.

Definition NewWithNodeSet (set : NodeSet) : MergedNodeSet :=
  match Merge ∅ set with inr m => m | inl _ => ∅ end.

(** ** committer.go *)

Section committer.
Context `{Crypto} (tr : tracer) (collectLeaf : bool).

Definition store (path : list byte) (n : node) (set : NodeSet) : res (node * NodeSet) :=
  '(hash, _) ← cache n;
  match hash with
  | None =>
      (* embedded in its parent: deleted if the store had it *)
      let set := match accessList tr !! path with
                 | Some prev => AddNode path (NewWithPrev 0 [] prev) set
                 | None => set
                 end in
      Ok (n, set)
  | Some hash =>
      let nhash := BytesToHash hash in
      let set := AddNode path (NewWithPrev nhash (nodeToBytes n) (default [] (accessList tr !! path))) set in
      let set := match n with
                 | ShortNode _ (ValueNode val) _ => if collectLeaf then AddLeaf nhash val set else set
                 | _ => set
                 end in
      Ok (HashNode hash, set)
  end.

(** The loop of [commitChildren] from child [i] on; the last child is left as it is. *)
Definition commit_children (commit : list byte → node → NodeSet → res (node * NodeSet))
    (path : list byte) :=
  fix go (k : nat) (i : Z) (cs : list node) (set : NodeSet) : res (list node * NodeSet) :=
    match k, cs with
    | S k, c :: cs =>
        '(c', set) ← (match c with
                      | NilNode | HashNode _ => Ok (c, set)
                      | _ => commit (path ++ [i]) c set
                      end);
        '(cs', set) ← go k (i + 1) cs set;
        Ok (c' :: cs', set)
    | _, _ => Ok (cs, set)
    end.

(** A node that could not be stored separately stays in its parent. *)
Definition stored_or (collapsed : node) (r : node * NodeSet) : node * NodeSet :=
  match r with (HashNode hn, set) => (HashNode hn, set) | (_, set) => (collapsed, set) end.

Fixpoint commit (path : list byte) (n : node) (set : NodeSet) : res (node * NodeSet) :=
  '(hash, dirty) ← cache n;
  match hash, dirty with
  | Some h, false => Ok (HashNode h, set)
  | _, _ =>
      match n with
      | ShortNode k v f =>
          '(cv, set) ← (match v with FullNode _ _ => commit (path ++ k) v set | _ => Ok (v, set) end);
          key ← hexToCompact k;
          let collapsed := ShortNode key cv f in
          r ← store path collapsed set; Ok (stored_or collapsed r)
      | FullNode cs f =>
          '(kids, set) ← commit_children commit path 16 0 cs set;
          let collapsed := FullNode kids f in
          r ← store path collapsed set; Ok (stored_or collapsed r)
      | HashNode _ => Ok (n, set)
      | _ => Panic "invalid node"
      end
  end.

Definition committer_Commit (n : node) (set : NodeSet) : res (list byte * NodeSet) :=
  '(n, set) ← commit [] n set;
  match n with HashNode h => Ok (h, set) | _ => Panic "interface conversion" end.
End committer.

(** ** Trie.Commit *)

Definition markDeletions `{GoRuntime} (tr : tracer) (set : NodeSet) : NodeSet :=
  foldl (λ set path,
    match accessList tr !! path with
    | Some prev => AddNode path (NewWithPrev 0 [] prev) set
    | None => set
    end) set (range_set (deletes tr)).

(** The deferred calls: the tracer is reset and the trie is unusable. *)
Definition committed_trie (t : Trie) (root : node) : Trie :=
  mkTrie root (t_owner t) true (t_unhashed t) (t_reader t) (tracer_reset (t_tracer t)).

Definition trie_Commit `{Crypto, GoRuntime} (t : Trie) (collectLeaf : bool)
  : res (Hash * option NodeSet * Trie) :=
  let nodes := markDeletions (t_tracer t) (NewNodeSet (t_owner t)) in
  if is_nil (t_root t) then Ok (EmptyRootHash, Some nodes, committed_trie t NilNode)
  else
    '(rootHash, t) ← trie_Hash t;
    '(hashedNode, dirty) ← cache (t_root t);
    if negb dirty then Ok (rootHash, None, committed_trie t (HashNode (default [] hashedNode)))
    else
      '(h, nodes) ← committer_Commit (t_tracer t) collectLeaf (t_root t) nodes;
      Ok (rootHash, Some nodes, committed_trie t (HashNode h)).

(** ** What the committer collects *)

Section collected.
Context `{Crypto} (rd : trieReader) (tr : tracer) (collectLeaf : bool).

(** The set holds the encoding of [t] under [path] and its hash. *)
Definition set_has (set : NodeSet) (path : list byte) (t : tree) : Prop :=
  ∃ prev, ns_Nodes set !! path = Some (NewWithPrev (BytesToHash (Keccak256 (tenc t))) (tenc t) prev).

(** Only paths below [p] are written. *)
Definition kept (p : list byte) (set set' : NodeSet) : Prop :=
  ∀ path, ¬ p `prefix_of` path → ns_Nodes set' !! path = ns_Nodes set !! path.

(** Every part of [t] that is not embedded is in the store or in the set. *)
Definition collected (p : list byte) (t : tree) (set : NodeSet) : Prop :=
  ∀ q c, subtree t q c → twf c → hashed_at (p ++ q) c →
    in_store rd (p ++ q) c ∨ set_has set (p ++ q) c.

(** The hash of a node that its place requires to be hashed is known. *)
Definition hash_known (p : list byte) (n : node) (t : tree) : Prop :=
  match n with
  | ShortNode _ _ f | FullNode _ f => hashed_at p t → nf_hash f ≠ None
  | _ => True
  end.

Definition commit_ok (n : node) : Prop := ∀ p t set,
  repr rd p n t → twf t → bounded t → hash_known p n t →
  ∃ n' set', commit tr collectLeaf p n set = Ok (n', set') ∧
    (hashed_at p t → n' = HashNode (Keccak256 (tenc t))) ∧
    (p ≠ [] → node_rlp n' = tref t) ∧
    kept p set set' ∧ collected p t set'.

Lemma hash_known_child p n t : p ≠ [] → child_hashed n t → hash_known p n t.
Proof.
  intros Hp Hc. destruct n; try done; simpl in *; intros [?|Hl]; try done; by apply Hc.
Qed.

Lemma twf_short_key k t : twf (TShort k t) → k ≠ [].
Proof. inversion 1; subst; [by apply key_ok_not_nil|done]. Qed.

Lemma subtree_nil t c : twf t → subtree t [] c → c = t.
Proof.
  intros Ht Hs. inversion Hs as [|k t' q ? Hq E1 E2|]; subst; [done|].
  match goal with E : _ ++ _ = [] |- _ => apply app_eq_nil in E as [-> _] end.
  by apply twf_short_key in Ht.
Qed.

Lemma collected_saved p t set :
  twf t → in_store rd p t → saved rd p t → collected p t set.
Proof.
  intros Ht Hin Hs q c Hq Hc Hat. left. destruct Hat as [E|Hat]; [|by apply Hs].
  apply app_eq_nil in E as [-> ->]. by apply subtree_nil in Hq as ->.
Qed.

(** Nothing of size 32 or more hides in a smaller node. *)
Lemma small_child t c :
  twf c → (length (tenc t) < 32)%nat → (length (tref c) <= length (tbody t))%nat →
  (length (tenc c) < 32)%nat.
Proof.
  intros Hc Ht Hle. destruct (decide (length (tenc c) < 32)%nat) as [|Hge]; [done|].
  rewrite tref_big in Hle by (done || lia). pose proof (rlp_list_length (tbody t)) as Hl.
  fold (tenc t) in Hl. pose proof (rlp_string_length (Keccak256 (tenc c))) as Hk.
  rewrite Keccak256_length in Hk. lia.
Qed.

Lemma store_spec p n f t set :
  node_rlp n = tenc t → bounded t → twf t → cache n = Ok (nf_hash f, nf_dirty f) →
  is_hash n = false → flag_ok rd p f t → (hashed_at p t → nf_hash f ≠ None) →
  ∃ n' set', store tr collectLeaf p n set = Ok (n', set') ∧
    (hashed_at p t → n' = HashNode (Keccak256 (tenc t)) ∧ set_has set' p t) ∧
    (nf_hash f = None → n' = n) ∧
    ∀ path, path ≠ p → ns_Nodes set' !! path = ns_Nodes set !! path.
Proof.
  intros En Hb Ht Ec Hnh Hfl Hk. unfold store. rewrite Ec. cbn [mbind res_bind].
  assert (nodeToBytes n = tenc t) as Eb.
  { rewrite nodeToBytes_rlp, En; [done|]. rewrite En. by apply tenc_bound. }
  unfold flag_ok in Hfl. destruct (nf_hash f) as [h|].
  - destruct Hfl as (-> & Hat & _). eexists _, _. split; [done|]. rewrite Eb. split_and!; [|done|].
    + intros _. split; [done|]. eexists. destruct n as [| |? []| | |]; try case_match; simpl;
        by rewrite lookup_insert_eq.
    + intros path Hp. destruct n as [| |? []| | |]; try case_match; simpl; by rewrite lookup_insert_ne.
  - eexists _, _. split; [done|]. split_and!; [by intros ?%Hk|done|].
    intros path Hp. case_match; [|done]. simpl. by rewrite lookup_insert_ne.
Qed.

(** A committed node: its own place and the places below. *)
Lemma collected_node p t set set' :
  (hashed_at p t → set_has set' p t) →
  (∀ path, path ≠ p → ns_Nodes set' !! path = ns_Nodes set !! path) →
  (∀ q c, q ≠ [] → subtree t q c → twf c → hashed_at (p ++ q) c →
     in_store rd (p ++ q) c ∨ set_has set (p ++ q) c) →
  twf t → collected p t set'.
Proof.
  intros Hown Hother Hsub Ht q c Hq Hc Hat. destruct (decide (q = [])) as [->|Hne].
  - apply subtree_nil in Hq as ->; [|done]. rewrite app_nil_r in *. right. by apply Hown.
  - destruct (Hsub q c Hne Hq Hc Hat) as [|[prev E]]; [by left|right]. exists prev.
    rewrite Hother; [done|]. intros E'. rewrite <- (app_nil_r p) in E' at 2. by apply app_inv_head in E'.
Qed.

Lemma kept_trans p set1 set2 set3 : kept p set1 set2 → kept p set2 set3 → kept p set1 set3.
Proof. intros H1 H2 path Hp. by rewrite H2, H1. Qed.

Lemma kept_below p q set set' : kept (p ++ q) set set' → kept p set set'.
Proof. intros Hk path Hp. apply Hk. intros Hpq. apply Hp. by eapply prefix_app_l. Qed.

(** The child of a short node. *)
Lemma commit_val p k v t0 set :
  commit_ok v → twf (TShort k t0) → bounded (TShort k t0) → repr rd (p ++ k) v t0 →
  child_hashed v t0 →
  ∃ cv set1,
    (match v with FullNode _ _ => commit tr collectLeaf (p ++ k) v set | _ => Ok (v, set) end)
      = Ok (cv, set1) ∧
    node_rlp cv = tref t0 ∧ kept (p ++ k) set set1 ∧ collected (p ++ k) t0 set1.
Proof.
  intros IH Ht Hb Hv Hch.
  assert (p ++ k ≠ []) as Hpk.
  { intros [-> ->]%app_eq_nil. by apply twf_short_key in Ht. }
  inversion Ht as [? w Hkw Hw|? cs Hne Hkn Hfc|]; subst.
  - inversion Hv as [|? ?| | |? ? Hbad]; subst; [|by inversion Hbad].
    eexists _, set. split; [done|]. split; [done|]. split; [by intros ?|].
    intros q c Hq Hc. inversion Hq; subst. inversion Hc.
  - inversion Hv as [| | |? cs' f' ? Hfl Hl Hkid Hc|? ? _ Hat Hin Hs]; subst.
    + destruct (IH (p ++ k) (TFull cs) set Hv Hfc) as (n' & set' & E & _ & Hn & Hkp & Hcol);
        [by eapply bounded_short|by apply hash_known_child|].
      exists n', set'. split_and!; [done|by apply Hn|done|done].
    + eexists _, set. split; [done|]. cbn [node_rlp]. split_and!; [|by intros ?|by apply collected_saved].
      destruct Hat as [?|Hat]; [done|]. by rewrite tref_big.
Qed.

(** The child of a node is hashed when the node is, or embedded in an embedded node. *)
Lemma kid_hashed p f t n c :
  (nf_hash f ≠ None → child_hashed n c) → (hashed_at p t → nf_hash f ≠ None) →
  sub_ok c → (length (tref c) <= length (tbody t))%nat → (∃ p', repr rd p' n c) → child_hashed n c.
Proof.
  intros Hkid Hkn Hs Hle [p' Hr]. destruct (nf_hash f) eqn:E; [by apply Hkid|].
  assert (length (tenc t) < 32)%nat as Hsm.
  { destruct (decide (length (tenc t) < 32)%nat); [done|]. by destruct Hkn; [right; lia|]. }
  destruct Hs as [->|[(v & -> & _)|Hc]]; [by inversion Hr..|].
  pose proof (small_child t c Hc Hsm Hle). destruct n; simpl; done || lia.
Qed.

(** The end of [commit]: the collapsed node is stored, or stays embedded. *)
Lemma commit_finish p col f t set set1 :
  node_rlp col = tenc t → twf t → bounded t → cache col = Ok (nf_hash f, nf_dirty f) →
  is_hash col = false → flag_ok rd p f t → (hashed_at p t → nf_hash f ≠ None) →
  kept p set set1 →
  (∀ q c, q ≠ [] → subtree t q c → twf c → hashed_at (p ++ q) c →
     in_store rd (p ++ q) c ∨ set_has set1 (p ++ q) c) →
  ∃ n' set', (r ← store tr collectLeaf p col set1; Ok (stored_or col r)) = Ok (n', set') ∧
    (hashed_at p t → n' = HashNode (Keccak256 (tenc t))) ∧
    (p ≠ [] → node_rlp n' = tref t) ∧ kept p set set' ∧ collected p t set'.
Proof.
  intros En Ht Hb Ec Hnh Hfl Hkn Hkp Hsub.
  destruct (store_spec p col f t set1) as (n' & set' & E & Hat & Hnone & Hoth); try done.
  rewrite E. cbn [mbind res_bind].
  assert (kept p set set') as Hkp'.
  { intros path Hp. rewrite Hoth; [by apply Hkp|]. by intros ->. }
  assert (collected p t set') as Hcol by (eapply collected_node; [by intros []%Hat|done|done|done]).
  destruct (nf_hash f) as [h|] eqn:Eh.
  - assert (hashed_at p t) as Hh by (unfold flag_ok in Hfl; rewrite Eh in Hfl; naive_solver).
    destruct (Hat Hh) as [-> _]. eexists _, set'. split; [done|]. split_and!; [done| |done|done].
    intros Hp. destruct Hh as [?|Hh]; [done|]. by rewrite tref_big.
  - rewrite (Hnone eq_refl). exists col, set'. split; [by destruct col|].
    split_and!; [by intros ?%Hkn| |done|done]. intros Hp.
    rewrite tref_small; [done|done|]. destruct (decide (length (tenc t) < 32)%nat); [done|].
    by destruct Hkn; [right; lia|].
Qed.

(** A clean node is replaced by its hash. *)
Lemma commit_clean p f t h set :
  nf_hash f = Some h → nf_dirty f = false → flag_ok rd p f t → twf t →
  (hashed_at p t → HashNode h = HashNode (Keccak256 (tenc t))) ∧
  (p ≠ [] → node_rlp (HashNode h) = tref t) ∧ kept p set set ∧ collected p t set.
Proof.
  intros Eh Ed Hfl Ht. unfold flag_ok in Hfl. rewrite Eh in Hfl.
  destruct Hfl as (-> & Hh & Hst). destruct (Hst Ed) as [Hin Hs].
  split_and!; [done| |by intros ?|by apply collected_saved].
  intros Hp. destruct Hh as [?|Hh]; [done|]. by rewrite tref_big.
Qed.

Lemma commit_short k v f : commit_ok v → commit_ok (ShortNode k v f).
Proof.
  intros IH p t set Hr Ht Hb Hkn. inversion Hr as [| |? ? ? ? t0 Hfl Hkid Hv| |]; subst.
  pose proof (twf_short_key k t0 Ht) as Hkne. simpl in Hkn.
  destruct (commit_val p k v t0 set IH Ht Hb Hv) as (cv & set1 & E1 & Hcv & Hk1 & Hc1).
  { eapply (kid_hashed p f (TShort k t0)); [done|done| | |by eexists].
    - inversion Ht; subst; [right; left; eauto|right; by right].
    - cbn [tbody]. rewrite length_app. lia. }
  assert (hex_ok k) as Hk by (inversion Ht; subst; [by apply key_ok_hex|by left]).
  destruct (commit_finish p (ShortNode (compact k) cv f) f (TShort k t0) set set1) as
    (n' & set' & E & Hfin); try done.
  { cbn [node_rlp]. by rewrite Hcv. }
  { by eapply kept_below. }
  { intros q c Hq Hsub Hc Hat. inversion Hsub as [|? ? q' ? Hs'|]; subst; [done|].
    rewrite app_assoc in *. by apply Hc1. }
  cbn [commit cache mbind res_bind]. destruct (nf_hash f) as [h|] eqn:Eh, (nf_dirty f) eqn:Ed.
  2:{ eexists _, set. split; [done|]. by apply (commit_clean p f). }
  all: rewrite E1; cbn [mbind res_bind]; rewrite hexToCompact_compact by done; cbn [mbind res_bind].
  all: rewrite E; by eexists _, _.
Qed.

(** A child that is not a value. *)
Lemma commit_child p n t set :
  commit_ok n → p ≠ [] → repr rd p n t → sub_ok t → (∀ v, t ≠ TValue v) → bounded t →
  child_hashed n t →
  ∃ n' set',
    (match n with NilNode | HashNode _ => Ok (n, set) | _ => commit tr collectLeaf p n set end)
      = Ok (n', set') ∧
    node_rlp n' = tref t ∧ kept p set set' ∧ collected p t set'.
Proof.
  intros IH Hp Hr Hs Hv Hb Hch.
  destruct Hs as [->|[(v & -> & _)|Ht]]; [|by destruct (Hv v)|].
  - assert (n = NilNode) as -> by by eapply repr_nil_iff. exists NilNode, set.
    split_and!; [done|done|by intros ?|]. intros q c Hq Hc. inversion Hq; subst. inversion Hc.
  - destruct (is_hash n) eqn:Eh.
    + destruct n; try done. inversion Hr as [| | | |? ? _ Hat Hin Hsv]; subst. eexists _, set.
      split; [done|]. split_and!; [|by intros ?|by apply collected_saved].
      destruct Hat as [?|Hat]; [done|]. cbn [node_rlp]. by rewrite tref_big.
    + destruct (IH p t set Hr Ht Hb) as (n' & set' & E & _ & Hn & Hkp & Hcol);
        [by apply hash_known_child|].
      exists n', set'. split_and!; [|by apply Hn|done|done].
      by destruct n.
Qed.

Lemma collected_keep p t set1 set2 :
  (∀ path, p `prefix_of` path → ns_Nodes set2 !! path = ns_Nodes set1 !! path) →
  collected p t set1 → collected p t set2.
Proof.
  intros Hk Hc q c Hq Hcw Hat. destruct (Hc q c Hq Hcw Hat) as [|[prev E]]; [by left|right].
  exists prev. rewrite Hk; [done|]. by apply prefix_app_r.
Qed.

Lemma snoc_prefix {A} (p : list A) x y path :
  (p ++ [x]) `prefix_of` path → (p ++ [y]) `prefix_of` path → x = y.
Proof.
  intros [a ->] [b E]. rewrite <- !app_assoc in E. apply app_inv_head in E. by injection E.
Qed.

(** The children of a full node, one after the other. *)
Lemma commit_children_spec cs rest : ∀ i p ts set,
  Forall commit_ok cs → length cs = length ts → Forall sub_ok ts → Forall bounded ts →
  Forall (λ t, ∀ v, t ≠ TValue v) ts →
  (∀ j n t, cs !! j = Some n → ts !! j = Some t →
     repr rd (p ++ [i + Z.of_nat j]) n t ∧ child_hashed n t) →
  ∃ kids set', commit_children (commit tr collectLeaf) p (length cs) i (cs ++ rest) set
      = Ok (kids ++ rest, set') ∧
    map node_rlp kids = map tref ts ∧
    (∀ path, (∀ j, i <= j → ¬ (p ++ [j]) `prefix_of` path) →
       ns_Nodes set' !! path = ns_Nodes set !! path) ∧
    (∀ j t, ts !! j = Some t → collected (p ++ [i + Z.of_nat j]) t set').
Proof.
  induction cs as [|c cs IH]; intros i p ts set Hok Hl Hs Hb Hv Hr.
  { destruct ts; [|done]. exists [], set. by split_and!. }
  destruct ts as [|t ts]; [done|].
  apply Forall_cons in Hok as [Hc Hok], Hs as [Hst Hs], Hb as [Hbt Hb], Hv as [Hvt Hv].
  destruct (Hr 0%nat c t eq_refl eq_refl) as [Hc0 Hch]. rewrite Z.add_0_r in Hc0.
  destruct (commit_child (p ++ [i]) c t set Hc) as (c' & set1 & E & Hn & Hkp & Hcol); try done;
    [by destruct p|].
  destruct (IH (i + 1) p ts set1 Hok) as (kids & set' & E' & Hmap & Hkeep & Hcols); try done.
  { by injection Hl. }
  { intros j n t' En Et. replace (i + 1 + Z.of_nat j) with (i + Z.of_nat (S j)) by lia.
    by apply Hr. }
  exists (c' :: kids), set'. cbn [length app commit_children]. rewrite E. cbn [mbind res_bind].
  fold (commit_children (commit tr collectLeaf) p). rewrite E'.
  split_and!; [done|simpl; by rewrite Hn, Hmap| |].
  - intros path Hp. rewrite Hkeep by (intros j Hj; apply Hp; lia). apply Hkp. apply Hp. lia.
  - intros [|j] t' Et; simplify_eq/=.
    + rewrite Z.add_0_r. eapply collected_keep; [|exact Hcol]. intros path Hp. apply Hkeep.
      intros j Hj Hp'. pose proof (snoc_prefix _ _ _ _ Hp Hp'). lia.
    + replace (i + Z.of_nat (S j)) with (i + 1 + Z.of_nat j) by lia. by apply Hcols.
Qed.

Lemma commit_full cs f : Forall commit_ok cs → commit_ok (FullNode cs f).
Proof.
  intros IH p t set Hr Ht Hb Hkn. inversion Hr as [| | |? ? ? ts Hfl Hl Hkid Hc|]; subst.
  simpl in Hkn. destruct (twf_children ts Ht) as [Hs L17].
  inversion Ht as [| |? _ Hcw H16 _]; subst.
  destruct cs as [|l cs _] using rev_ind; [simpl in Hl; lia|].
  destruct ts as [|tl ts _] using rev_ind; [simpl in L17; lia|].
  rewrite !length_app in *. simpl in Hl, L17.
  assert (length cs = 16%nat) as Lc by lia. assert (length ts = 16%nat) as Lt by lia.
  assert (∀ i c, ts !! i = Some c → (ts ++ [tl]) !! i = Some c) as Hts
    by (intros; by apply lookup_app_l_Some).
  assert ((ts ++ [tl]) !! 16%nat = Some tl) as Etl by (rewrite <- Lt; apply lookup_snoc_last).
  assert ((cs ++ [l]) !! 16%nat = Some l) as El by (rewrite <- Lc; apply lookup_snoc_last).
  pose proof (proj1 (Forall_app _ _ _) IH) as [IHc _].
  pose proof (proj1 (Forall_app _ _ _) Hs) as [Hsc _].
  destruct (commit_children_spec cs [l] 0 p ts set IHc) as (kids & set1 & E1 & Hmap & Hkeep & Hcols); try done.
  { lia. }
  { apply Forall_lookup. intros i c Ec. eapply bounded_full; [done|by apply Hts]. }
  { apply Forall_lookup. intros i c Ec v ->. assert (twf (TValue v)) as Hbad; [|by inversion Hbad].
    apply (Hcw i); [by apply Hts| |done]. rewrite <- Lt. by eapply lookup_lt_Some. }
  { intros j n t En Et. rewrite Z.add_0_l.
    assert ((cs ++ [l]) !! j = Some n) as En' by by apply lookup_app_l_Some.
    split; [by apply (Hc j); [|apply Hts]|].
    eapply (kid_hashed p f (TFull (ts ++ [tl]))); [|done| | |].
    - by apply (Hkid j); [|apply Hts].
    - by eapply Forall_lookup_1 in Hsc.
    - cbn [tbody]. apply concat_map_length_le. apply list_elem_of_lookup. exists j. by apply Hts.
    - eexists. by apply (Hc j); [|apply Hts]. }
  assert (node_rlp l = tref tl ∧ ∀ q c, subtree tl q c → ¬ twf c) as [Hnl Hsl].
  { pose proof (Hc _ _ _ El Etl) as Hrl.
    assert (tl = TNil ∨ tl ≠ TNil) as [->|Hn] by (destruct tl; auto).
    - assert (l = NilNode) as -> by by eapply repr_nil_iff. split; [done|].
      intros q c Hq Hbad. inversion Hq; subst. inversion Hbad.
    - destruct (H16 tl Etl Hn) as (v & -> & _). inversion Hrl as [|? ?| | |? ? Hbad]; subst; [|by inversion Hbad].
      split; [done|]. intros q c Hq Hbad. inversion Hq; subst. inversion Hbad. }
  destruct (commit_finish p (FullNode (kids ++ [l]) f) f (TFull (ts ++ [tl])) set set1) as
    (n' & set' & E & Hfin); try done.
  { cbn [node_rlp]. unfold tenc. cbn [tbody]. by rewrite !map_app, Hmap, (map_cons node_rlp), Hnl. }
  { intros path Hp. apply Hkeep. intros j _ Hj. apply Hp. by eapply prefix_app_l. }
  { intros q c Hq Hsub Hcc Hat. inversion Hsub as [| |? i t' q' ? Ei Hs']; subst; [done|].
    assert (p ++ Z.of_nat i :: q' = (p ++ [Z.of_nat i]) ++ q') as Epq by by rewrite <- app_assoc.
    rewrite Epq in *.
    destruct (decide (i = 16%nat)) as [->|].
    - rewrite Etl in Ei. injection Ei as <-. by destruct (Hsl q' c Hs').
    - assert (i < 17)%nat by (apply lookup_lt_Some in Ei; rewrite length_app in Ei; simpl in Ei; lia).
      rewrite lookup_app_l in Ei by lia. specialize (Hcols i t' Ei). rewrite Z.add_0_l in Hcols.
      by apply Hcols. }
  cbn [commit cache mbind res_bind]. rewrite <- Lc.
  destruct (nf_hash f) as [h|] eqn:Eh, (nf_dirty f) eqn:Ed.
  2:{ eexists _, set. split; [done|]. by apply (commit_clean p f). }
  all: rewrite E1; cbn [mbind res_bind]; rewrite E; by eexists _, _.
Qed.

Lemma commit_spec n : commit_ok n.
Proof.
  induction n as [|cs f IH|k v f IH|b|b|b] using node_nested_ind.
  - intros p t set Hr Ht. inversion Hr; subst. inversion Ht.
  - by apply commit_full.
  - by apply commit_short.
  - intros p t set Hr Ht _ _. inversion Hr as [| | | |? ? _ Hat Hin Hs]; subst. eexists _, set.
    split; [done|]. split_and!; [done| |by intros ?|by apply collected_saved].
    intros Hp. destruct Hat as [?|Hat]; [done|]. cbn [node_rlp]. by rewrite tref_big.
  - intros p t set Hr Ht. inversion Hr; subst. inversion Ht.
  - intros p t set Hr. inversion Hr.
Qed.
End collected.
