(* ===== verification/TrieMap.v ===== *)
(** * The trie as a finite map

    A trie [holds] a finite map from byte strings to byte strings.  Every sequence of
    operations on the trie answers like the map; the root hash depends on the map only,
    and two maps with one root hash exhibit nodes of their tries that collide; a committed trie
    can be opened again under its root hash. *)

From S2P Require Import Prelude Bytes RlpEncode RlpRaw Common TrieKeys TrieNode TrieTree Trie.
From S2P Require Import TrieProps TrieHash TrieCommit.

Open Scope Z_scope.

Abbreviation kvmap := (gmap (list byte) (list byte)) (only parsing).

(** The tree maps exactly the keys of [m]. *)
Definition maps (t : tree) (m : kvmap) : Prop :=
  (∀ key v, m !! key = Some v → bytes_ok key) ∧
  ∀ q v, tget t q = Some v ↔ ∃ key, bytes_ok key ∧ q = keybytesToHex key ∧ m !! key = Some v.

Definition root_wf (t : tree) : Prop := t ≠ TNil → twf t.

Lemma maps_get t m key : maps t m → bytes_ok key → tget t (keybytesToHex key) = m !! key.
Proof.
  intros [_ Hm] Hk. apply option_eq. intros v. rewrite Hm. split.
  - intros (key' & Hk' & E & Hv). by apply keybytesToHex_inj in E as ->.
  - intros Hv. by exists key.
Qed.

Lemma maps_updated t t' m key o :
  maps t m → bytes_ok key → updated (keybytesToHex key) o t t' → maps t' (partial_alter (λ _, o) key m).
Proof.
  intros [Hok Hm] Hk Hu. split.
  - intros key' v. destruct (decide (key = key')) as [->|]; [done|].
    rewrite lookup_partial_alter_ne by done. apply Hok.
  - intros q v. rewrite Hu. case_decide as E.
    + subst q. split.
      * intros ->. exists key. by rewrite lookup_partial_alter_eq.
      * intros (key' & Hk' & E & Hv). apply keybytesToHex_inj in E as ->; [|done|done].
        by rewrite lookup_partial_alter_eq in Hv.
    + rewrite Hm. split; intros (key' & Hk' & -> & Hv); exists key'; (split; [done|]; split; [done|]).
      all: by rewrite lookup_partial_alter_ne in * by (by intros ->).
Qed.

Lemma maps_inj t t' m : root_wf t → root_wf t' → maps t m → maps t' m → t = t'.
Proof.
  intros Hw Hw' [_ Hm] [_ Hm'].
  assert (∀ q, tget t q = tget t' q) as E.
  { intros q. apply option_eq. intros v. by rewrite Hm, Hm'. }
  assert (∀ s, s = TNil ∨ s ≠ TNil) as Hdec by (intros []; auto).
  destruct (Hdec t) as [->|Hn], (Hdec t') as [->|Hn']; [done| | |].
  - destruct (twf_inhabited t' (Hw' Hn')) as (k & v & Ek). by rewrite <- E in Ek.
  - destruct (twf_inhabited t (Hw Hn)) as (k & v & Ek). by rewrite E in Ek.
  - apply twf_canonical; auto.
Qed.

Lemma maps_nil m : maps TNil m ↔ m = ∅.
Proof.
  split.
  - intros [Hok Hm]. apply map_empty. intros key. destruct (m !! key) as [v|] eqn:E; [|done].
    assert (tget TNil (keybytesToHex key) = Some v) as Hbad; [|done]. apply Hm. eauto.
  - intros ->. split; [done|]. intros q v. split; [done|]. intros (key & _ & _ & Hv). done.
Qed.

Lemma maps_unique t m m' : maps t m → maps t m' → m = m'.
Proof.
  intros Hm Hm'. apply map_eq. intros key.
  destruct (m !! key) as [v|] eqn:E.
  - pose proof (proj1 Hm key v E) as Hk. by rewrite <- (maps_get t m'), (maps_get t m) by done.
  - destruct (m' !! key) as [v|] eqn:E'; [|done]. pose proof (proj1 Hm' key v E') as Hk.
    by rewrite <- E, <- (maps_get t m), (maps_get t m'), E' in * by done.
Qed.

Section holds.
Context `{Crypto}.

(** A usable trie and the map it stands for. *)
Definition holds (T : Trie) (m : kvmap) : Prop :=
  t_committed T = false ∧
  ∃ t, repr (t_reader T) [] (t_root T) t ∧ root_wf t ∧ bounded t ∧ maps t m.

Lemma root_wf_at k t : root_wf t → key_ok k → wf_at k t.
Proof. intros Hw Hk Hn. apply key_ok_not_nil in Hk. specialize (Hw Hn). by destruct k. Qed.

(** The rounds that are enough for a key of the interface. *)
Definition key_rounds (key : list byte) : nat := 4 * length key + 4.

Lemma key_rounds_le key n : (rounds (keybytesToHex key) n <= key_rounds key)%nat.
Proof.
  pose proof (rounds_le (keybytesToHex key) n) as Hr. unfold key_rounds.
  unfold keybytesToHex in *. rewrite length_app, nibbles_of_length in Hr. simpl in Hr. lia.
Qed.

Lemma holds_Get fuel T m key :
  holds T m → bytes_ok key → (key_rounds key <= fuel)%nat →
  ∃ T', Get fuel T key = Done (inr (m !! key), T') ∧ holds T' m.
Proof.
  intros (Hc & t & Hr & Hw & Hb & Hm) Hk Hf. unfold Get. rewrite Hc. unfold run.
  pose proof (keybytesToHex_key_ok key Hk) as Hkey.
  destruct (get_spec (t_reader T) fuel [] (keybytesToHex key) (t_root T) t (t_tracer T)) as
    (n' & b & tr' & E & Hn' & _); [done|by apply root_wf_at|by right|done| |].
  { pose proof (key_rounds_le key (t_root T)). lia. }
  simpl in E. rewrite E, (maps_get t m) by done. eexists. split; [done|].
  destruct b; (split; [done|]); by exists t.
Qed.

(** The change of one key, whatever [insert] or [delete] did. *)
Lemma holds_changed T m key o dirty n' t t' tr' :
  holds T m → repr (t_reader T) [] (t_root T) t → maps t m → bounded t → bytes_ok key →
  Z.of_nat (length key + length (default [] o)) < 2 ^ 56 →
  changed (t_reader T) [] (keybytesToHex key) o t dirty n' t' →
  holds (set_root (set_tracer (count_unhashed T) tr') n') (partial_alter (λ _, o) key m).
Proof.
  intros (Hc & _) Hr Hm Hb Hk Hl [Hn' Hw' Hu _ _]. split; [done|]. exists t'.
  split_and!; [done| | |by eapply maps_updated].
  - intros Hn. pose proof (key_ok_not_nil _ (keybytesToHex_key_ok key Hk)).
    specialize (Hw' Hn). by destruct (keybytesToHex key).
  - intros q v E. rewrite Hu in E. case_decide; [|by apply Hb]. subst. simpl in Hl.
    unfold keybytesToHex. rewrite length_app, nibbles_of_length. simpl. lia.
Qed.

Lemma holds_delete fuel T m key :
  holds T m → bytes_ok key → Z.of_nat (length key) < 2 ^ 56 → (key_rounds key <= fuel)%nat →
  ∃ T', run (count_unhashed T) (delete (t_reader T) fuel (t_root T) [] (keybytesToHex key))
          (λ '(_, n) t, (tt, set_root t n)) = Done (inr tt, T') ∧ holds T' (base.delete key m).
Proof.
  intros Hh Hk Hl Hf. pose proof Hh as (Hc & t & Hr & Hw & Hb & Hm).
  destruct (delete_spec (t_reader T) fuel [] (keybytesToHex key) (t_root T) t (t_tracer T)) as
    (dirty & n' & t' & tr' & E & Hch & _);
    [done|by apply root_wf_at, keybytesToHex_key_ok|right; by apply keybytesToHex_key_ok|done| |].
  { pose proof (key_rounds_le key (t_root T)). lia. }
  unfold run. simpl t_tracer. rewrite E. eexists. split; [done|].
  eapply holds_changed; [done|done|done|done|done|simpl; lia|done].
Qed.

Lemma holds_Update fuel T m key value :
  holds T m → bytes_ok key → bytes_ok value →
  Z.of_nat (length key + length value) < 2 ^ 56 → (key_rounds key <= fuel)%nat →
  ∃ T', Update fuel T key value = Done (inr tt, T') ∧
    holds T' (if decide (value = []) then base.delete key m else <[key := value]> m).
Proof.
  intros Hh Hk Hv Hl Hf. unfold Update. pose proof Hh as (Hc & t & Hr & Hw & Hb & Hm). rewrite Hc.
  unfold update. simpl t_reader. simpl t_root. destruct value as [|x value].
  - rewrite decide_True by done. apply (holds_delete fuel); [done|done|simpl in Hl; lia|done].
  - rewrite decide_False by done. cbn [length Nat.eqb negb].
    destruct (insert_spec (t_reader T) fuel [] (keybytesToHex key) (t_root T) t (x :: value) (t_tracer T)) as
      (dirty & n' & t' & tr' & E & Hch & _);
      [done|by apply root_wf_at, keybytesToHex_key_ok|right; by apply keybytesToHex_key_ok|done|done| |].
    { pose proof (key_rounds_le key (t_root T)). lia. }
    unfold run. simpl t_tracer. rewrite E. eexists. split; [done|].
    eapply holds_changed; [done|done|done|done|done|done|done].
Qed.

Lemma holds_Delete fuel T m key :
  holds T m → bytes_ok key → Z.of_nat (length key) < 2 ^ 56 → (key_rounds key <= fuel)%nat →
  ∃ T', Delete fuel T key = Done (inr tt, T') ∧ holds T' (base.delete key m).
Proof.
  intros Hh Hk Hl Hf. unfold Delete. pose proof Hh as (Hc & _). rewrite Hc.
  exact (holds_delete fuel T m key Hh Hk Hl Hf).
Qed.

(** ** Sequences of operations *)

Inductive trie_op :=
| OpGet (key : list byte)
| OpUpdate (key value : list byte)
| OpDelete (key : list byte).

Definition op_key (op : trie_op) : list byte :=
  match op with OpGet key | OpUpdate key _ | OpDelete key => key end.
Definition op_value (op : trie_op) : list byte := match op with OpUpdate _ value => value | _ => [] end.

(** Operations whose arguments a Go program can hold in memory, within the rounds. *)
Definition op_ok (fuel : nat) (op : trie_op) : Prop :=
  bytes_ok (op_key op) ∧ bytes_ok (op_value op) ∧
  Z.of_nat (length (op_key op) + length (op_value op)) < 2 ^ 56 ∧ (key_rounds (op_key op) <= fuel)%nat.

(** The program. *)
Definition trie_step (fuel : nat) (T : Trie) (op : trie_op)
  : outcome ((trie_error + option (list byte)) * Trie) :=
  let silent (r : outcome ((trie_error + ()) * Trie)) :=
    match r with
    | Done (inr _, T) => Done (inr None, T)
    | Done (inl e, T) => Done (inl e, T)
    | Crash msg => Crash msg
    | OutOfFuel => OutOfFuel
    end in
  match op with
  | OpGet key => Get fuel T key
  | OpUpdate key value => silent (Update fuel T key value)
  | OpDelete key => silent (Delete fuel T key)
  end.

Fixpoint trie_run (fuel : nat) (T : Trie) (ops : list trie_op)
  : outcome (list (trie_error + option (list byte)) * Trie) :=
  match ops with
  | [] => Done ([], T)
  | op :: ops =>
      match trie_step fuel T op with
      | Done (a, T) =>
          match trie_run fuel T ops with
          | Done (l, T) => Done (a :: l, T)
          | Crash msg => Crash msg
          | OutOfFuel => OutOfFuel
          end
      | Crash msg => Crash msg
      | OutOfFuel => OutOfFuel
      end
  end.

(** The specification: a finite map, in which writing the empty value removes the key. *)
Definition map_step (m : kvmap) (op : trie_op) : option (list byte) * kvmap :=
  match op with
  | OpGet key => (m !! key, m)
  | OpUpdate key value =>
      (None, if decide (value = []) then base.delete key m else <[key := value]> m)
  | OpDelete key => (None, base.delete key m)
  end.

Fixpoint map_run (m : kvmap) (ops : list trie_op) : list (option (list byte)) * kvmap :=
  match ops with
  | [] => ([], m)
  | op :: ops => let '(a, m) := map_step m op in let '(l, m) := map_run m ops in (a :: l, m)
  end.

Lemma trie_step_refines fuel T m op :
  holds T m → op_ok fuel op →
  ∃ T', trie_step fuel T op = Done (inr (fst (map_step m op)), T') ∧ holds T' (snd (map_step m op)).
Proof.
  intros Hh (Hk & Hv & Hl & Hf). destruct op as [key|key value|key]; cbn [op_key op_value] in *;
    cbn [trie_step map_step fst snd].
  - by apply holds_Get.
  - destruct (holds_Update fuel T m key value) as (T' & -> & Hh'); try done. by exists T'.
  - destruct (holds_Delete fuel T m key) as (T' & -> & Hh'); try done; [lia|]. by exists T'.
Qed.

(** C3: The trie is a finite map.  From a trie that holds the map [m], with nodes partly
    in memory and partly in the store, any sequence of reads, updates and deletions
    returns without error, gives the answers of the map (an update with an empty value
    removes the key), and leaves a trie that holds the resulting map.  The rounds of
    recursion are linear in the longest key. *)
Theorem trie_refines_map fuel T m ops :
  holds T m → Forall (op_ok fuel) ops →
  ∃ T', trie_run fuel T ops = Done (map inr (fst (map_run m ops)), T') ∧
    holds T' (snd (map_run m ops)).
Proof.
  intros Hh Hops. revert T m Hh. induction Hops as [|op ops Hop _ IH]; intros T m Hh.
  { by exists T. }
  destruct (trie_step_refines fuel T m op Hh Hop) as (T1 & E1 & Hh1).
  cbn [trie_run map_run]. rewrite E1. destruct (map_step m op) as [a m1]. simpl in Hh1.
  destruct (IH T1 m1 Hh1) as (T2 & E2 & Hh2). rewrite E2. exists T2.
  by destruct (map_run m1 ops).
Qed.

(** A trie without nodes. *)
Definition empty_trie (rd : trieReader) : Trie := mkTrie NilNode (tr_owner rd) false 0 rd newTracer.

Lemma holds_empty rd : holds (empty_trie rd) ∅.
Proof.
  split; [done|]. exists TNil. split_and!; [apply repr_nil|by intros []|by intros ? ?|by apply maps_nil].
Qed.

(** ** The root hash *)

(** Two byte strings, one of each kind, with one digest. *)
Definition collides (X Y : list byte → Prop) : Prop := ∃ x y, X x ∧ Y y ∧ x ≠ y ∧ Keccak256 x = Keccak256 y.

Lemma collides_mono (X Y X' Y' : list byte → Prop) :
  (∀ x, X x → X' x) → (∀ y, Y y → Y' y) → collides X Y → collides X' Y'.
Proof. intros HX HY (x & y & ? & ? & ? & ?). exists x, y. auto. Qed.

Lemma digest_eq (X Y : list byte → Prop) x y : X x → Y y → Keccak256 x = Keccak256 y → x = y ∨ collides X Y.
Proof. intros HX HY E. destruct (decide (x = y)) as [|Hne]; [by left|right]. by exists x, y. Qed.

(** The nodes of a tree, and their encodings. *)
Fixpoint subtrees (t : tree) : list tree :=
  match t with
  | TShort _ c => t :: subtrees c
  | TFull cs => t :: mjoin (map subtrees cs)
  | _ => []
  end.
Definition enc_of (l : list tree) (x : list byte) : Prop := ∃ c, c ∈ l ∧ x = tenc c.
(** [x] is the encoding of a node of the trie of the map [m]. *)
Definition node_of (m : kvmap) (x : list byte) : Prop := ∃ t, root_wf t ∧ maps t m ∧ enc_of (subtrees t) x.

Lemma enc_of_mono l k : l ⊆ k → ∀ x, enc_of l x → enc_of k x.
Proof. intros Hs x (c & Hc & ->). exists c. split; [by apply Hs|done]. Qed.

Lemma subtrees_self t : twf t → t ∈ subtrees t.
Proof. destruct 1; cbn; left. Qed.

Notation tree_collision c d := (collides (enc_of (subtrees c)) (enc_of (subtrees d))).

(** The reference to a child determines the child. *)
Definition ref_inj (c : tree) : Prop := ∀ d,
  sub_ok c → sub_ok d → bounded c → bounded d → tnode c = tnode d → c = d ∨ tree_collision c d.

Definition top_inj (c : tree) : Prop := ∀ d f,
  twf c → twf d → bounded c → bounded d → top_node f c = top_node f d → c = d ∨ tree_collision c d.

Lemma tenc_inj c d :
  top_inj c → twf c → twf d → bounded c → bounded d →
  Keccak256 (tenc c) = Keccak256 (tenc d) → c = d ∨ tree_collision c d.
Proof.
  intros Htop Hc Hd Hbc Hbd Ed.
  destruct (digest_eq (enc_of (subtrees c)) (enc_of (subtrees d)) _ _
    ltac:(by exists c; split; [apply subtrees_self|]) ltac:(by exists d; split; [apply subtrees_self|]) Ed)
    as [E|]; [|by right].
  apply (Htop d (mkNodeFlag None false)); [done..|].
  pose proof (decodeNode_tenc c None Hc (tenc_bound c Hc Hbc)) as E1.
  pose proof (decodeNode_tenc d None Hd (tenc_bound d Hd Hbd)) as E2.
  rewrite <- E, E1 in E2. by injection E2.
Qed.

Lemma tnode_cases t :
  twf t → tnode t = HashNode (Keccak256 (tenc t)) ∨ tnode t = top_node (mkNodeFlag None false) t.
Proof. destruct 1; cbn [tnode top_node]; case_match; auto. Qed.

Lemma top_ref_inj c : top_inj c → ref_inj c.
Proof.
  intros Htop d Hc Hd Hbc Hbd E.
  destruct Hc as [->|[(v & -> & _)|Hc]].
  - left. destruct Hd as [->|[(w & -> & _)|Hd]]; [done|done|].
    destruct (tnode_cases d Hd) as [Ed|Ed]; rewrite Ed in E; [done|by destruct Hd].
  - left. destruct Hd as [->|[(w & -> & _)|Hd]]; [done|by injection E as ->|].
    destruct (tnode_cases d Hd) as [Ed|Ed]; rewrite Ed in E; [done|by destruct Hd].
  - destruct Hd as [->|[(w & -> & _)|Hd]].
    + destruct (tnode_cases c Hc) as [Ec|Ec]; rewrite Ec in E; [done|by destruct Hc].
    + destruct (tnode_cases c Hc) as [Ec|Ec]; rewrite Ec in E; [done|by destruct Hc].
    + destruct (tnode_cases c Hc) as [Ec|Ec], (tnode_cases d Hd) as [Ed|Ed]; rewrite Ec, Ed in E.
      * injection E as E. by apply tenc_inj.
      * by destruct Hd.
      * by destruct Hc.
      * by eapply Htop.
Qed.

Lemma map_tnode_inj cs : ∀ ds,
  Forall ref_inj cs → Forall sub_ok cs → Forall sub_ok ds → Forall bounded cs → Forall bounded ds →
  map tnode cs = map tnode ds →
  cs = ds ∨ collides (enc_of (mjoin (map subtrees cs))) (enc_of (mjoin (map subtrees ds))).
Proof.
  induction cs as [|c cs IH]; intros [|d ds] Hi Hc Hd Hbc Hbd E; try done; [by left|].
  apply Forall_cons in Hi as [Hi1 Hi], Hc as [Hc1 Hc], Hd as [Hd1 Hd], Hbc as [Hb1 Hbc], Hbd as [Hb2 Hbd].
  simpl in E. injection E as E1 E2. destruct (Hi1 d) as [->|Hcol]; [done..| |right].
  2: { eapply collides_mono; [..|exact Hcol]; apply enc_of_mono; cbn; set_solver. }
  destruct (IH ds) as [->|Hcol]; [done..|by left|right].
  eapply collides_mono; [..|exact Hcol]; apply enc_of_mono; cbn; set_solver.
Qed.

Lemma twf_short_sub k t : twf (TShort k t) → sub_ok t.
Proof. inversion 1; subst; [right; left; eauto|right; by right]. Qed.

Lemma bounded_children cs : bounded (TFull cs) → Forall bounded cs.
Proof. intros Hb. apply Forall_lookup. intros i c E. by eapply bounded_full. Qed.

Lemma tree_top_inj c : top_inj c.
Proof.
  induction c as [|v|k c IH|cs IH] using tree_nested_ind; intros d f Hc Hd Hbc Hbd E;
    [by inversion Hc..| |].
  - destruct d as [| |k' d|]; try (by inversion Hd). cbn [top_node] in E. injection E as -> E.
    destruct (top_ref_inj c IH d) as [->|]; [by eapply twf_short_sub|by eapply twf_short_sub|
      by eapply bounded_short|by eapply bounded_short|done|by left|right].
    eapply collides_mono; [..|done]; apply enc_of_mono; cbn; set_solver.
  - destruct d as [| | |ds]; try (by inversion Hd). cbn [top_node] in E. injection E as E.
    destruct (map_tnode_inj cs ds) as [->|]; [|by apply twf_children|by apply twf_children|
      by apply bounded_children|by apply bounded_children|done|by left|right].
    { eapply Forall_impl; [done|]. apply top_ref_inj. }
    eapply collides_mono; [..|done]; apply enc_of_mono; cbn; set_solver.
Qed.

Lemma BytesToHash_inj x y :
  length x = 32%nat → length y = 32%nat → bytes_ok x → bytes_ok y →
  BytesToHash x = BytesToHash y → x = y.
Proof.
  intros Lx Ly Hx Hy E. unfold BytesToHash, crop_left in E. rewrite Lx, Ly in E. simpl in E.
  rewrite !drop_0 in E. rewrite <- (be_bytes_be_value x), <- (be_bytes_be_value y) by done. congruence.
Qed.

Lemma digest_hash_inj x y :
  BytesToHash (Keccak256 x) = BytesToHash (Keccak256 y) → Keccak256 x = Keccak256 y.
Proof. apply BytesToHash_inj; [apply Keccak256_length..|apply Keccak256_ok|apply Keccak256_ok]. Qed.

Lemma troot_node e t : t ≠ TNil → troot e t = Keccak256 (tenc t).
Proof. by destruct t. Qed.

(** The root of a trie after hashing. *)
Lemma hash_root rd n t :
  repr rd [] n t → twf t → bounded t →
  ∃ cached, hash n true = Ok (HashNode (Keccak256 (tenc t)), cached) ∧ repr rd [] cached t ∧
    hash_known [] cached t ∧ is_nil cached = false.
Proof.
  intros Hr Ht Hb. destruct (is_hash n) eqn:Eh.
  - destruct n; try done. inversion Hr; subst. eexists. by split_and!.
  - destruct (hash_spec rd n [] t true Hr Ht Hb Eh eq_refl) as (hd & ca & E & Hc & Hnh & _ & _ & Hf).
    destruct (Hf eq_refl) as [-> Hset]. exists ca. split_and!; [done|done| |].
    + destruct ca; try done; simpl in *; by intros _.
    + destruct ca; try done. inversion Hc; subst. inversion Ht.
Qed.

Lemma holds_Hash T m :
  holds T m →
  ∃ t T', repr (t_reader T) [] (t_root T) t ∧ root_wf t ∧ bounded t ∧ maps t m ∧
    trie_Hash T = Ok (BytesToHash (troot (Hash_Bytes EmptyRootHash) t), T') ∧ holds T' m ∧
    t_reader T' = t_reader T ∧ t_owner T' = t_owner T ∧ t_tracer T' = t_tracer T ∧
    repr (t_reader T) [] (t_root T') t ∧ hash_known [] (t_root T') t ∧
    is_nil (t_root T') = is_nil (t_root T).
Proof.
  intros (Hc & t & Hr & Hw & Hb & Hm). exists t.
  assert (t = TNil ∨ t ≠ TNil) as [->|Hn] by (destruct t; auto).
  - assert (t_root T = NilNode) as En by by eapply repr_nil_iff.
    unfold trie_Hash, hashRoot. rewrite En. eexists. simpl. split_and!; try done; try apply repr_nil.
    split; [done|]. exists TNil. split_and!; [apply repr_nil|done|done|done].
  - destruct (hash_root _ _ t Hr (Hw Hn) Hb) as (cached & E & Hcr & Hk & Hnil).
    assert (is_nil (t_root T) = false) as Hnil'.
    { by destruct (t_root T). }
    unfold trie_Hash, hashRoot. rewrite Hnil', E. cbn [mbind res_bind].
    eexists. split; [done|]. split; [done|]. split; [done|]. split; [done|].
    split; [by rewrite troot_node|]. split; [split; [done|by exists t]|].
    cbn. rewrite Hnil. by split_and!.
Qed.

(** C7: The root hash is a digest of the map.  Tries that hold the same map, built in any
    order of operations, over any store and with any hashes cached, have the same root
    hash; and when two tries that hold non-empty maps have the same root hash, the maps
    are equal or two different nodes, one of the trie of each map, have the same
    Keccak-256 digest. *)
Theorem trie_Hash_digest T1 T2 m1 m2 :
  holds T1 m1 → holds T2 m2 →
  ∃ h1 h2 T1' T2', trie_Hash T1 = Ok (h1, T1') ∧ trie_Hash T2 = Ok (h2, T2') ∧
    holds T1' m1 ∧ holds T2' m2 ∧ (m1 = m2 → h1 = h2) ∧
    (m1 ≠ ∅ → m2 ≠ ∅ → h1 = h2 → m1 = m2 ∨ collides (node_of m1) (node_of m2)).
Proof.
  intros Hh1 Hh2.
  destruct (holds_Hash T1 m1 Hh1) as (t1 & T1' & _ & Hw1 & Hb1 & Hm1 & E1 & Hh1' & _).
  destruct (holds_Hash T2 m2 Hh2) as (t2 & T2' & _ & Hw2 & Hb2 & Hm2 & E2 & Hh2' & _).
  eexists _, _, _, _. split; [exact E1|]. split; [exact E2|]. split_and!; [done|done| |].
  - intros ->. by rewrite (maps_inj t1 t2 m2).
  - intros Hne1 Hne2 E.
    assert (t1 ≠ TNil) as Hn1 by (intros ->; by apply Hne1, maps_nil).
    assert (t2 ≠ TNil) as Hn2 by (intros ->; by apply Hne2, maps_nil).
    rewrite !troot_node in E by done. apply digest_hash_inj in E as Ed.
    destruct (tenc_inj t1 t2 (tree_top_inj t1) (Hw1 Hn1) (Hw2 Hn2) Hb1 Hb2 Ed) as [->|Hc]; [left; by eapply maps_unique|].
    right. eapply collides_mono; [..|exact Hc]; intros x Hx; [by exists t1|by exists t2].
Qed.

(** ** Committing and opening again *)

Lemma clean_root rd n t h :
  repr rd [] n t → twf t → cache n = Ok (h, false) → hash_known [] n t →
  in_store rd [] t ∧ saved rd [] t.
Proof.
  intros Hr Ht Hc Hk.
  assert (∀ f, flag_ok rd [] f t → nf_hash f = h → nf_dirty f = false → nf_hash f ≠ None →
    in_store rd [] t ∧ saved rd [] t) as Hflag.
  { intros f Hf Eh Ed Hn. unfold flag_ok in Hf. destruct (nf_hash f); [|done]. naive_solver. }
  assert (hashed_at [] t) as Hat by by left.
  destruct Hr as [| |? k v f t' Hf|? cs f ts Hf|]; try done; simpl in Hk; injection Hc as Eh Ed;
    by apply (Hflag f); auto.
Qed.

Lemma holds_Commit `{GoRuntime} T m collectLeaf :
  holds T m →
  ∃ t set T', trie_Commit T collectLeaf
      = Ok (BytesToHash (troot (Hash_Bytes EmptyRootHash) t), set, T') ∧
    t_committed T' = true ∧ root_wf t ∧ bounded t ∧ maps t m ∧
    (t ≠ TNil → match set with
                | None => in_store (t_reader T) [] t ∧ saved (t_reader T) [] t
                | Some ns => collected (t_reader T) [] t ns
                end).
Proof.
  intros Hh.
  destruct (holds_Hash T m Hh) as (t & T1 & Hr & Hw & Hb & Hm & E & Hh1 & Erd & Eow & Etr & Hr1 & Hk1 & Hnil).
  unfold trie_Commit. destruct (is_nil (t_root T)) eqn:En.
  - assert (t = TNil) as ->.
    { apply (repr_nil_iff _ _ _ _ Hr). by destruct (t_root T). }
    eexists TNil, _, _. split.
    { cbn [troot]. by rewrite BytesToHash_Bytes by (vm_compute; reflexivity). }
    by split_and!.
  - rewrite E. cbn [mbind res_bind].
    assert (t ≠ TNil) as Hn.
    { intros ->. assert (t_root T = NilNode) as Ebad by by eapply repr_nil_iff. by rewrite Ebad in En. }
    assert (∃ h d, cache (t_root T1) = Ok (h, d)) as (h & d & Ec).
    { clear -Hr1 Hnil. destruct (t_root T1); try (by eauto); by inversion Hr1. }
    rewrite Ec. cbn [mbind res_bind]. destruct d; cbn [negb].
    + destruct (commit_spec (t_reader T) (t_tracer T1) collectLeaf (t_root T1) [] t
        (markDeletions (t_tracer T) (NewNodeSet (t_owner T))) Hr1 (Hw Hn) Hb Hk1) as
        (n' & set' & E' & Hn' & _ & _ & Hcol).
      unfold committer_Commit. rewrite E'. rewrite Hn' by by left. cbn [mbind res_bind].
      eexists t, _, _. split; [done|]. by split_and!.
    + eexists t, _, _. split; [done|]. split_and!; [done..|]. intros _.
      by apply (clean_root _ (t_root T1) _ h); auto.
Qed.

Lemma tenc_not_nil t : tenc t ≠ [].
Proof.
  intros En. pose proof (rlp_list_length (tbody t)) as Hl. fold (tenc t) in Hl.
  rewrite En in Hl. simpl in Hl. lia.
Qed.

(** What a store offers after it has taken the node set: everything it had, and the nodes
    of the set that have an encoding. *)
Definition store_after (rd rd' : trieReader) (set : option NodeSet) : Prop :=
  (∀ path hash blob, reader_node rd path hash = inr blob → reader_node rd' path hash = inr blob) ∧
  ∀ ns path w, set = Some ns → ns_Nodes ns !! path = Some w → nd_Blob (wp_Node w) ≠ [] →
    reader_node rd' path (nd_Hash (wp_Node w)) = inr (nd_Blob (wp_Node w)).

Lemma in_store_after rd rd' ns p t :
  store_after rd rd' (Some ns) → twf t → in_store rd p t ∨ set_has ns p t → in_store rd' p t.
Proof.
  intros [Hkeep Hadd] Ht [Hin|[prev E]]; [by apply Hkeep|].
  apply (Hadd ns p _ eq_refl E). apply tenc_not_nil.
Qed.

Lemma saved_after rd rd' set t :
  store_after rd rd' set → twf t →
  match set with
  | None => in_store rd [] t ∧ saved rd [] t
  | Some ns => collected rd [] t ns
  end → in_store rd' [] t ∧ saved rd' [] t.
Proof.
  intros Hst Ht Hset. destruct set as [ns|].
  - split.
    + apply (in_store_after rd rd' ns); [done|done|].
      apply (Hset [] t); [constructor|done|by left].
    + intros q c Hq Hc Hl. apply (in_store_after rd rd' ns); [done|done|].
      apply (Hset q c); [done|done|by right].
  - destruct Hst as [Hkeep _], Hset as [Hin Hs]. split; [by apply Hkeep|].
    intros q c Hq Hc Hl. by apply Hkeep, Hs.
Qed.

Lemma Hash_Bytes_digest data : Hash_Bytes (BytesToHash (Keccak256 data)) = Keccak256 data.
Proof.
  unfold BytesToHash, crop_left, Hash_Bytes.
  replace HashLength with (length (Keccak256 data)) by by rewrite Keccak256_length.
  rewrite Nat.sub_diag, drop_0. apply be_bytes_be_value, Keccak256_ok.
Qed.

(** Opening the root of a stored tree. *)
Lemma New_stored stateRoot owner db r t m :
  stateRoot ≠ 0 → stateRoot ≠ EmptyRootHash → db stateRoot = inr r →
  root_wf t → bounded t → maps t m →
  let h := BytesToHash (troot (Hash_Bytes EmptyRootHash) t) in
  let rd := mkTrieReader owner (Some r) None in
  (t ≠ TNil → h ≠ 0 ∧ h ≠ EmptyRootHash ∧ in_store rd [] t ∧ saved rd [] t) →
  ∃ T, trie_New (mkID stateRoot owner h) db = Done (inr T) ∧ holds T m.
Proof.
  intros Hs0 Hse Hdb Hw Hb Hm h rd Hst. unfold trie_New, newTrieReader.
  cbn [id_StateRoot id_Owner id_Root].
  rewrite (bool_decide_false (stateRoot = 0)), (bool_decide_false (stateRoot = EmptyRootHash)) by done.
  cbn [orb]. rewrite Hdb. fold rd.
  assert (t = TNil ∨ t ≠ TNil) as [->|Hn] by (destruct t; auto).
  - assert (h = EmptyRootHash) as -> by (by apply BytesToHash_Bytes; vm_compute).
    rewrite (bool_decide_true (EmptyRootHash = EmptyRootHash)), andb_false_r by done.
    eexists. split; [done|]. split; [done|]. exists TNil. split_and!; [apply repr_nil|done|done|done].
  - destruct (Hst Hn) as (Hh0 & Hhe & Hin & Hsv).
    rewrite (bool_decide_false (h = 0)), (bool_decide_false (h = EmptyRootHash)) by done.
    cbn [negb andb].
    assert (Hash_Bytes h = Keccak256 (tenc t)) as Eh
      by (subst h; rewrite troot_node by done; apply Hash_Bytes_digest).
    rewrite Eh.
    destruct (resolveAndTrack_repr rd [] (Keccak256 (tenc t)) t newTracer) as (n & E & Hn' & _);
      [constructor; [by apply Hw|by left|done|done]|done|].
    rewrite E. eexists. split; [done|]. split; [done|]. by exists t.
Qed.

(** C8: A committed trie can be opened again.  [Commit] on a trie that holds [m] returns
    the root hash and the node set and makes the trie unusable; and once a store offers
    the nodes of the set beside what it offered before, [New] with that root hash returns
    a trie that holds [m].  (The hash must not be zero or the hash of the empty trie,
    which [New] takes for an empty trie.) *)
Theorem Commit_persists `{GoRuntime} T m collectLeaf :
  holds T m →
  ∃ h set T', trie_Commit T collectLeaf = Ok (h, set, T') ∧ t_committed T' = true ∧
    ∀ stateRoot db r, stateRoot ≠ 0 → stateRoot ≠ EmptyRootHash → db stateRoot = inr r →
      store_after (t_reader T) (mkTrieReader (t_owner T) (Some r) None) set →
      (m ≠ ∅ → h ≠ 0 ∧ h ≠ EmptyRootHash) →
      ∃ T'', trie_New (mkID stateRoot (t_owner T) h) db = Done (inr T'') ∧ holds T'' m.
Proof.
  intros Hh. destruct (holds_Commit T m collectLeaf Hh) as (t & set & T' & E & Hc & Hw & Hb & Hm & Hset).
  eexists _, _, _. split; [exact E|]. split; [done|].
  intros stateRoot db r Hs0 Hse Hdb Hst Hne.
  apply New_stored with r; [done|done|done|done|done|done|].
  intros Hn. destruct Hne as [Hz He]; [by intros ->; apply Hn; eapply maps_inj; [done|by intros ?|done|by apply maps_nil]|].
  destruct (saved_after _ _ _ t Hst (Hw Hn) (Hset Hn)) as [Hin Hsv]. done.
Qed.
End holds.

(** ** Witnesses *)

#[local] Existing Instances toy_crypto reference_runtime.

Definition sample_ops : list trie_op :=
  [OpUpdate [0x12; 0x34] [1; 2; 3]; OpUpdate [0x12; 0x56] (replicate 40 7); OpUpdate [0x12] [9];
   OpGet [0x12; 0x56]; OpDelete [0x12; 0x34]; OpGet [0x12; 0x34]; OpUpdate [0x12] []; OpGet [0x12]].

Lemma sample_ops_ok : Forall (op_ok 12) sample_ops.
Proof.
  repeat (apply Forall_cons; split); [..|by apply Forall_nil];
    (split_and!; [| |vm_compute; done|vm_compute; lia]);
    repeat (apply Forall_cons; split; [lia|]); by apply Forall_nil.
Qed.

Lemma trie_refines_map_witness :
  ∃ T', trie_run 12 (empty_trie newEmptyReader) sample_ops
    = Done (map inr [None; None; None; Some (replicate 40 7); None; None; None; None], T') ∧
    holds T' {[ [0x12; 0x56] := replicate 40 7 ]}.
Proof.
  destruct (trie_refines_map 12 (empty_trie newEmptyReader) ∅ sample_ops (holds_empty _) sample_ops_ok)
    as (T' & E & Hh).
  exists T'. split; [rewrite E; reflexivity|].
  replace {[ [0x12; 0x56] := replicate 40 7 ]} with (snd (map_run ∅ sample_ops)); [done|].
  vm_compute. reflexivity.
Defined.

Definition after {A} (r : outcome (A * Trie)) : Trie :=
  match r with Done (_, T) => T | _ => empty_trie newEmptyReader end.

Definition update_two (k1 v1 k2 v2 : list byte) : Trie :=
  after (Update 12 (after (Update 12 (empty_trie newEmptyReader) k1 v1)) k2 v2).

Definition small_bytes (l : list byte) : bool :=
  forallb (λ b, (0 <=? b) && (b <? 256)) l && (length l <? 100)%nat.

Lemma small_bytes_ok l : small_bytes l = true → bytes_ok l ∧ (length l < 100)%nat.
Proof.
  unfold small_bytes. rewrite andb_true_iff, Nat.ltb_lt. intros [Hl Hn]. split; [|done].
  apply Forall_forall. intros x Hx. rewrite forallb_forall in Hl.
  specialize (Hl x (proj1 (list_elem_of_In l x) Hx)). rewrite andb_true_iff, Z.leb_le, Z.ltb_lt in Hl. done.
Qed.

Lemma update_two_holds k1 v1 k2 v2 :
  forallb small_bytes [k1; v1; k2; v2] && forallb (λ k, length k <=? 2)%nat [k1; k2] = true →
  v1 ≠ [] → v2 ≠ [] → holds (update_two k1 v1 k2 v2) (<[k2 := v2]> {[k1 := v1]}).
Proof.
  intros Hs Hv1 Hv2. apply andb_true_iff in Hs as [Hs Hk]. simpl in Hs, Hk.
  repeat (rewrite andb_true_iff in Hs). repeat (rewrite andb_true_iff in Hk).
  destruct Hs as (H1 & H2 & H3 & H4 & _), Hk as (L1 & L2 & _).
  apply small_bytes_ok in H1 as [H1 ?], H2 as [H2 ?], H3 as [H3 ?], H4 as [H4 ?].
  apply Nat.leb_le in L1, L2. unfold update_two.
  destruct (holds_Update 12 (empty_trie newEmptyReader) ∅ k1 v1 (holds_empty _)) as (T1 & E1 & Hh1);
    [done|done|lia|unfold key_rounds; lia|]. rewrite E1. cbn [after].
  rewrite decide_False, insert_empty in Hh1 by done.
  destruct (holds_Update 12 T1 {[k1 := v1]} k2 v2 Hh1) as (T2 & E2 & Hh2);
    [done|done|lia|unfold key_rounds; lia|]. rewrite E2. cbn [after].
  by rewrite decide_False in Hh2 by done.
Qed.

Lemma trie_Hash_digest_witness :
  ∃ h T1' T2',
    trie_Hash (update_two [0x12; 0x34] (replicate 40 7) [0x12] [9]) = Ok (h, T1') ∧
    trie_Hash (update_two [0x12] [9] [0x12; 0x34] (replicate 40 7)) = Ok (h, T2').
Proof.
  destruct (trie_Hash_digest (update_two [0x12; 0x34] (replicate 40 7) [0x12] [9])
    (update_two [0x12] [9] [0x12; 0x34] (replicate 40 7))
    (<[[0x12] := [9]]> {[ [0x12; 0x34] := replicate 40 7 ]})
    (<[[0x12; 0x34] := replicate 40 7]> {[ [0x12] := [9] ]})) as (h1 & h2 & T1' & T2' & E1 & E2 & _ & _ & Heq & _).
  - apply update_two_holds; [vm_compute; reflexivity|done|done].
  - apply update_two_holds; [vm_compute; reflexivity|done|done].
  - assert (h1 = h2) as -> by (apply Heq; vm_compute; reflexivity).
    exists h2, T1', T2'. exact (conj E1 E2).
Defined.

Definition sample_trie : Trie := update_two [0x12; 0x34] (replicate 40 7) [0x12; 0x56] (replicate 40 8).

Definition sample_set : option NodeSet :=
  match trie_Commit sample_trie true with Ok (_, set, _) => set | Panic _ => None end.

(** A store that has the nodes of the sample. *)
Definition sample_reader : Hash → list byte → Hash → string + list byte := λ _ path hash,
  match sample_set ≫= λ ns, ns_Nodes ns !! path with
  | Some w => if nd_Hash (wp_Node w) =? hash then inr (nd_Blob (wp_Node w)) else inl "not found"%string
  | None => inl "not found"%string
  end.

Lemma Commit_persists_witness :
  ∃ h T', trie_New (mkID 1 0 h) (λ _, inr sample_reader) = Done (inr T') ∧
    holds T' (<[[0x12; 0x56] := replicate 40 8]> {[ [0x12; 0x34] := replicate 40 7 ]}).
Proof.
  destruct (Commit_persists sample_trie
    (<[[0x12; 0x56] := replicate 40 8]> {[ [0x12; 0x34] := replicate 40 7 ]}) true) as
    (h & set & T' & E & _ & Hopen).
  { apply update_two_holds; [vm_compute; reflexivity|done|done]. }
  destruct (Hopen 1 (λ _, inr sample_reader) sample_reader) as (T'' & En & Hh);
    [done|done|done| | |exists h, T''; exact (conj En Hh)].
  - assert (set = sample_set) as -> by (unfold sample_set; by rewrite E).
    split; [done|]. intros ns path w Ens Ew Hb. unfold reader_node. cbn [tr_banned tr_reader].
    unfold sample_reader. rewrite Ens. cbn [mbind option_bind]. rewrite Ew, Z.eqb_refl.
    clear -Hb. destruct (nd_Blob (wp_Node w)); [by destruct Hb|reflexivity].
  - intros _. apply (bool_decide_unpack (h ≠ 0 ∧ h ≠ EmptyRootHash)).
    assert (match trie_Commit sample_trie true with Ok (h, _, _) => bool_decide (h ≠ 0 ∧ h ≠ EmptyRootHash)
      | Panic _ => false end = true) as Hc by (vm_compute; reflexivity).
    rewrite E in Hc. clear -Hc. by apply Is_true_true.
Defined.
