(* ===== verification/TrieProof.v ===== *)
(** * Merkle proofs (trie/proof.go: Prove, VerifyProof, get)

    [Prove] collects the encoded nodes on the path of a key, [VerifyProof] follows such nodes
    from a root hash.  A database of proof nodes is a map from hashes to encodings; the
    verifier reads it by hash and does not hash what it reads, so the database must be
    addressed by content.  The proofs of ranges are not modelled. *)

From S2P Require Import Prelude Bytes RlpEncode RlpRaw Common TrieKeys TrieNode TrieTree Trie.
From S2P Require Import TrieProps TrieHash TrieCommit TrieMap.

Open Scope Z_scope.

(** ** get *)

(** The child of a node along a key; with [skipResolved] the first that is not loaded. *)
Fixpoint proof_get (tn : node) (key : list byte) (skipResolved : bool) : res (list byte * node) :=
  match tn with
  | ShortNode k v _ =>
      if (length key <? length k)%nat || negb (bool_decide (k = take (length k) key)) then Ok ([], NilNode)
      else
        let key := drop (length k) key in
        if skipResolved then proof_get v key skipResolved else Ok (key, v)
  | FullNode cs _ =>
      match key with
      | [] => Panic "index out of range"
      | x :: key =>
          (fix pick (cs : list node) (i : nat) : res (list byte * node) :=
             match cs, i with
             | [], _ => Panic "index out of range"
             | c :: _, O => if skipResolved then proof_get c key skipResolved else Ok (key, c)
             | _ :: cs, S i => pick cs i
             end) cs (Z.to_nat x)
      end
  | HashNode _ | NilNode => Ok (key, tn)
  | ValueNode _ => Ok ([], tn)
  | RawNode _ => Panic "invalid node"
  end.

(** ** VerifyProof *)

Inductive proof_error :=
| ProofMissing (i : Z) (hash : list byte)
| ProofBad (i : Z) (e : node_error).

(** [copy(wantHash[:], cld)] *)
Definition copy_hash (wantHash cld : list byte) : list byte := take 32 cld ++ drop (length cld) wantHash.

Fixpoint verify_loop (fuel : nat) (i : Z) (wantHash key : list byte) (proofDb : list byte → option (list byte))
  : outcome (proof_error + option (list byte)) :=
  match fuel with
  | O => OutOfFuel
  | S fuel =>
      match proofDb wantHash with
      | None => Done (inl (ProofMissing i wantHash))
      | Some buf =>
          match decodeNode (Some wantHash) buf with
          | inl e => Done (inl (ProofBad i e))
          | inr n =>
              match proof_get n key true with
              | Panic msg => Crash msg
              | Ok (_, NilNode) => Done (inr None)
              | Ok (keyrest, HashNode cld) => verify_loop fuel (i + 1) (copy_hash wantHash cld) keyrest proofDb
              | Ok (_, ValueNode cld) => Done (inr (Some cld))
              | Ok _ => verify_loop fuel (i + 1) wantHash key proofDb (* no case of the switch *)
              end
          end
      end
  end.
Definition VerifyProof (fuel : nat) (rootHash : Hash) (key : list byte) (proofDb : list byte → option (list byte))
  : outcome (proof_error + option (list byte)) :=
  verify_loop fuel 0 (Hash_Bytes rootHash) (keybytesToHex key) proofDb.

(** ** Prove *)

Section prove.
Context `{Crypto}.

Fixpoint prove_path (rd : trieReader) (fuel : nat) (tn : node) (key prefix : list byte) (nodes : list node)
  : outcome (trie_error + list node) :=
  match fuel with
  | O => OutOfFuel
  | S fuel =>
      if (length key =? 0)%nat || is_nil tn then Done (inr nodes)
      else
        match tn with
        | ShortNode k v _ =>
            if (length key <? length k)%nat || negb (bool_decide (k = take (length k) key))
            then prove_path rd fuel NilNode key prefix (nodes ++ [tn])
            else prove_path rd fuel v (drop (length k) key) (prefix ++ k) (nodes ++ [tn])
        | FullNode cs _ =>
            match go_index key 0 ≫= λ x, c ← go_index cs x; Ok (x, c) with
            | Panic msg => Crash msg
            | Ok (x, c) => prove_path rd fuel c (drop 1 key) (prefix ++ [x]) (nodes ++ [tn])
            end
        | HashNode h =>
            match reader_node rd prefix (BytesToHash h) with
            | inl e => Done (inl e)
            | inr blob =>
                match mustDecodeNode (Some h) blob with
                | Panic msg => Crash msg
                | Ok n => prove_path rd fuel n key prefix nodes
                end
            end
        | _ => Crash "invalid node"
        end
  end.

(** The nodes that are hashed, and the root, become elements of the proof. *)
Fixpoint put_nodes (i : Z) (nodes : list node) (proofDb : gmap (list byte) (list byte)) : res (gmap (list byte) (list byte)) :=
  match nodes with
  | [] => Ok proofDb
  | n :: nodes =>
      '(n, hn) ← proofHash n;
      match hn with
      | HashNode hash => put_nodes (i + 1) nodes (<[hash := nodeToBytes n]> proofDb)
      | _ =>
          if i =? 0 then let enc := nodeToBytes n in put_nodes (i + 1) nodes (<[hashData enc := enc]> proofDb)
          else put_nodes (i + 1) nodes proofDb
      end
  end.

Definition Prove (fuel : nat) (t : Trie) (key : list byte) (proofDb : gmap (list byte) (list byte))
  : outcome (trie_error + gmap (list byte) (list byte)) :=
  if t_committed t then Done (inl ErrCommitted)
  else
    match prove_path (t_reader t) fuel (t_root t) (keybytesToHex key) [] [] with
    | Done (inl e) => Done (inl e)
    | Done (inr nodes) =>
        match put_nodes 0 nodes proofDb with Ok db => Done (inr db) | Panic msg => Crash msg end
    | Crash msg => Crash msg
    | OutOfFuel => OutOfFuel
    end.

(** ** The nodes on the path of a key *)

Fixpoint walk (t : tree) (q : list byte) : list tree :=
  match t with
  | TShort k c => t :: (if bool_decide (take (length k) q = k) then walk c (drop (length k) q) else [])
  | TFull cs => t :: match q with x :: q => nth (Z.to_nat x) (map walk cs) (λ _, []) q | [] => [] end
  | _ => []
  end.

Lemma walk_full cs x q c : cs !! Z.to_nat x = Some c → walk (TFull cs) (x :: q) = TFull cs :: walk c q.
Proof.
  intros E. cbn [walk]. f_equal. revert E. generalize (Z.to_nat x) as i. induction cs as [|d cs IH]; intros [|i] E; try done; cbn.
  - by injection E as ->.
  - by apply IH.
Qed.

Definition big (t : tree) : Prop := (32 <= length (tenc t))%nat.

(** What a search for [q] in [t] is left with. *)
Definition found (t : tree) (q : list byte) (r : list byte * node) : Prop :=
  match r.2 with
  | NilNode => tget t q = None
  | ValueNode v => tget t q = Some v
  | HashNode h => ∃ d, h = Keccak256 (tenc d) ∧ twf d ∧ bounded d ∧ big d ∧ key_ok r.1 ∧
      tget t q = tget d r.1 ∧ walk d r.1 `suffix_of` walk t q ∧ (length r.1 <= length q)%nat
  | _ => False
  end.

(** A search that went at least one node down. *)
Definition below (t : tree) (q : list byte) (r : list byte * node) : Prop :=
  found t q r ∧ match r.2 with HashNode _ => (length r.1 < length q)%nat | _ => True end.

Definition get_ok (c : tree) : Prop := ∀ q,
  wf_at q c → rest_ok q → bounded c → ∃ r, proof_get (tnode c) q true = Ok r ∧ found c q r.

Lemma found_up t q c q' r :
  tget t q = tget c q' → walk t q = t :: walk c q' → (length q' < length q)%nat → found c q' r → below t q r.
Proof.
  intros Et Ew Hl Hf. unfold below, found in *. rewrite Et, Ew. destruct r as [rest n]; cbn [fst snd] in *.
  destruct n as [| | |h|v|]; try done. destruct Hf as (d & -> & Hd & Hb & Hbig & Hk & E & Hs & Hle).
  split; [|lia]. exists d. split_and!; try done; [by apply suffix_cons_r|lia].
Qed.

Lemma mismatch_spec (k q : list byte) :
  (length q <? length k)%nat || negb (bool_decide (k = take (length k) q)) = negb (bool_decide (take (length k) q = k)).
Proof. pose proof (key_mismatch_spec [] q k) as E. unfold key_mismatch in E. cbn in E. by rewrite Nat.sub_0_r in E. Qed.

Lemma get_short f k c q :
  get_ok c → twf (TShort k c) → key_ok q → bounded (TShort k c) →
  ∃ r, proof_get (ShortNode k (tnode c) f) q true = Ok r ∧ below (TShort k c) q r.
Proof.
  intros IH Ht Hk Hb. cbn [proof_get]. rewrite mismatch_spec. case_bool_decide as E; cbn [negb].
  - set (q1 := drop (length k) q). assert (q = k ++ q1) as Eq by (rewrite <- (take_drop (length k) q) at 1; by rewrite E).
    pose proof Hk as Hk'. rewrite Eq in Hk'. destruct (wf_short_step k q1 c Ht Hk') as (Hw & Hr & Hne).
    destruct (IH q1 Hw Hr) as (r & Eg & Hf); [by eapply bounded_short|]. exists r. split; [done|].
    eapply found_up; [| | |exact Hf].
    + by rewrite Eq, tget_short.
    + cbn [walk]. by rewrite bool_decide_true.
    + rewrite Eq, length_app. destruct k; [done|]. cbn. lia.
  - eexists. split; [done|]. split; [|done]. cbn. by rewrite bool_decide_false.
Qed.

Lemma get_full f cs q :
  Forall get_ok cs → twf (TFull cs) → key_ok q → bounded (TFull cs) →
  ∃ r, proof_get (FullNode (map tnode cs) f) q true = Ok r ∧ below (TFull cs) q r.
Proof.
  intros IH Ht Hk Hb. destruct q as [|x q]; [by apply key_ok_not_nil in Hk|].
  destruct (wf_full_step x q cs Ht Hk) as (c & Ec & Hw). apply key_ok_head in Hk as (Hx & Hr & _).
  rewrite Forall_lookup in IH. destruct (IH _ c Ec q Hw Hr) as (r & Eg & Hf); [by eapply bounded_full|].
  exists r. split.
  - cbn [proof_get]. clear -Ec Eg. revert Ec. generalize (Z.to_nat x) as i.
    induction cs as [|d cs IH]; intros [|i] E; try done; cbn [map].
    + injection E as ->. done.
    + by apply IH.
  - eapply found_up; [| | |exact Hf].
    + rewrite tget_full by lia. by rewrite Ec.
    + by apply walk_full.
    + cbn. lia.
Qed.

Lemma get_tnode c : get_ok c.
Proof.
  induction c as [|v|k c IH|cs IH] using tree_nested_ind; intros q Hw Hr Hb.
  - by eexists.
  - eexists. split; [done|]. destruct Hr as [->|Hk]; [done|]. assert (twf (TValue v)) as Ht; [|by inversion Ht].
    apply (wf_at_twf q); [done|by apply key_ok_not_nil|done].
  - destruct (wf_at_node q (TShort k c) Hr Hw) as [Ht Hk]; [done|done|]. cbn [tnode].
    destruct (Nat.ltb_spec (length (tenc (TShort k c))) 32).
    + destruct (get_short (mkNodeFlag None false) k c q IH Ht Hk Hb) as (r & E & Hf & _). by exists r.
    + eexists. split; [done|]. exists (TShort k c). by split_and!.
  - destruct (wf_at_node q (TFull cs) Hr Hw) as [Ht Hk]; [done|done|]. cbn [tnode].
    destruct (Nat.ltb_spec (length (tenc (TFull cs))) 32).
    + destruct (get_full (mkNodeFlag None false) cs q IH Ht Hk Hb) as (r & E & Hf & _). by exists r.
    + eexists. split; [done|]. exists (TFull cs). by split_and!.
Qed.

Lemma get_top f t q :
  twf t → key_ok q → bounded t → ∃ r, proof_get (top_node f t) q true = Ok r ∧ below t q r.
Proof.
  intros Ht Hk Hb. destruct t as [| |k c|cs]; try (by inversion Ht); cbn [top_node].
  - apply get_short; [apply get_tnode|done..].
  - apply get_full; [|done..]. apply Forall_forall. intros c _. apply get_tnode.
Qed.

(** ** The verifier *)

(** Every entry is stored under the hash of its encoding. *)
Definition addressed (db : list byte → option (list byte)) : Prop := ∀ h b, db h = Some b → Keccak256 b = h.

(** A node of the path that the verifier has to read: the root, and what is not embedded. *)
Definition needed (t : tree) (q : list byte) (d : tree) : Prop := d ∈ walk t q ∧ (d = t ∨ big d).

Lemma copy_digest want x : length want = 32%nat → copy_hash want (Keccak256 x) = Keccak256 x.
Proof.
  intros Hl. pose proof (Keccak256_length x) as Hk. unfold copy_hash.
  rewrite take_ge by (rewrite Hk; done). rewrite Hk. change HashLength with 32%nat. rewrite drop_ge by lia. by rewrite app_nil_r.
Qed.

Lemma walk_head t q : twf t → ∃ r, walk t q = t :: r.
Proof. destruct 1; cbn [walk]; by eexists. Qed.

(** The entries of a database of proof nodes. *)
Definition stored (db : list byte → option (list byte)) (b : list byte) : Prop := ∃ h, db h = Some b.

Lemma verify_spec db fuel : ∀ i t q,
  addressed db → twf t → bounded t → key_ok q → (length q < fuel)%nat →
  verify_loop fuel i (Keccak256 (tenc t)) q db = Done (inr (tget t q)) ∨
  (∃ d j h, needed t q d ∧ db (Keccak256 (tenc d)) = None ∧ verify_loop fuel i (Keccak256 (tenc t)) q db = Done (inl (ProofMissing j h))) ∨
  collides (enc_of (walk t q)) (stored db).
Proof.
  induction fuel as [|fuel IH]; intros i t q Hdb Ht Hb Hk Hf; [lia|]. cbn [verify_loop].
  destruct (db (Keccak256 (tenc t))) as [buf|] eqn:Eb.
  2: { right; left. exists t, i, (Keccak256 (tenc t)). split_and!; [|done|done]. split; [|by left]. destruct (walk_head t q Ht) as [r ->]. set_solver. }
  destruct (digest_eq (enc_of (walk t q)) (stored db) (tenc t) buf) as [<-|]; [|by eexists|symmetry; by apply Hdb| |by right; right].
  { exists t. destruct (walk_head t q Ht) as [r ->]. split; [left|done]. }
  rewrite decodeNode_tenc; [|done|by apply tenc_bound].
  destruct (get_top (mkNodeFlag (Some (Keccak256 (tenc t))) false) t q Ht Hk Hb) as ([rest n] & -> & Hbe & Hlt).
  unfold found in Hbe. cbn [fst snd] in *. destruct n as [| | |h|v|]; try done; [by left; rewrite Hbe| |by left; rewrite Hbe].
  destruct Hbe as (d & -> & Hd & Hbd & Hbig & Hkr & E & Hs & _). rewrite copy_digest by apply Keccak256_length. rewrite E.
  destruct (IH (i + 1) d rest Hdb Hd Hbd Hkr ltac:(lia)) as [Hr|[(d' & j & h & [Hin Hor] & Hno & Hr)|Hc]]; [by left| |].
  2: { right; right. eapply collides_mono; [..|exact Hc]; [|done]. apply enc_of_mono. destruct Hs as [l ->]. set_solver. }
  right; left. exists d', j, h. split_and!; [|done|done]. split; [destruct Hs as [l ->]; set_solver|]. right. by destruct Hor as [->|].
Qed.

(** ** The prover *)

(** A loaded node for a tree on the path. *)
Definition loaded (rd : trieReader) (n : node) (t : tree) : Prop :=
  ∃ p, repr rd p n t ∧ is_hash n = false ∧ twf t ∧ bounded t.

Lemma prove_path_spec rd fuel : ∀ p k n t nodes,
  repr rd p n t → wf_at k t → rest_ok k → bounded t → (rounds k n <= fuel)%nat →
  ∃ ns, prove_path rd fuel n k p nodes = Done (inr (nodes ++ ns)) ∧ Forall2 (loaded rd) ns (walk t k).
Proof.
  induction fuel as [|fuel IH]; intros p k n t nodes Hr Hw Hk Hb Hf; [pose proof (rounds_pos k n); lia|]. cbn [prove_path].
  inversion Hr as [|? v|? k0 m f t0 Hfl Hch Hm|? cs f ts Hfl Hl Hch Hc|? ? Ht Hh Hin Hs]; subst.
  - rewrite orb_true_r. exists []. by rewrite app_nil_r.
  - destruct Hk as [->|Hk]; [exists []; by rewrite app_nil_r|].
    assert (twf (TValue v)) as Ht; [|by inversion Ht]. apply (wf_at_twf k); [done|by apply key_ok_not_nil|done].
  - destruct (wf_at_node k _ Hk Hw) as [Ht Hkey]; [done|done|]. rewrite mismatch_spec.
    destruct (Nat.eqb_spec (length k) 0) as [E0|_]; [by apply nil_length_inv in E0; subst; apply key_ok_not_nil in Hkey|]. cbn [orb is_nil].
    assert (loaded rd (ShortNode k0 m f) (TShort k0 t0)) as Hload by (by exists p). cbn [walk]. case_bool_decide as E; cbn [negb].
    + set (k1 := drop (length k0) k). assert (k = k0 ++ k1) as Ek by (rewrite <- (take_drop (length k0) k) at 1; by rewrite E).
      pose proof Hkey as Hkey'. rewrite Ek in Hkey'. destruct (wf_short_step k0 k1 t0 Ht Hkey') as (Hw1 & Hk1 & Hne).
      assert (length k0 ≠ 0%nat) by by destruct k0.
      destruct (IH (p ++ k0) k1 m t0 (nodes ++ [ShortNode k0 m f]) Hm Hw1 Hk1) as (ns & Ep & Hns); [by eapply bounded_short| |].
      { pose proof (rounds_le k1 m). unfold rounds in Hf. rewrite Ek, length_app in Hf. simpl in Hf. lia. }
      exists (ShortNode k0 m f :: ns). rewrite Ep, <- app_assoc. split; [done|]. by constructor.
    + exists [ShortNode k0 m f]. split; [|by constructor]. destruct fuel; [unfold rounds in Hf; simpl in Hf; destruct k; [by apply key_ok_not_nil in Hkey|simpl in Hf; lia]|].
      cbn [prove_path is_nil]. by rewrite orb_true_r.
  - destruct (wf_at_node k _ Hk Hw) as [Ht Hkey]; [done|done|].
    destruct k as [|x k]; [by apply key_ok_not_nil in Hkey|]. destruct (wf_full_step x k ts Ht Hkey) as (c & Ec & Hwc).
    apply key_ok_head in Hkey as (Hx & Hk' & _). destruct (repr_child rd p cs f ts x c Hr) as (m & Em & Hm & _); [lia|done|].
    cbn [length Nat.eqb orb is_nil]. change (go_index (x :: k) 0) with (Ok x). change (drop 1 (x :: k)) with k. cbn [mbind res_bind].
    rewrite (go_index_lookup cs x m) by (done || lia). cbn [mbind res_bind].
    destruct (IH (p ++ [x]) k m c (nodes ++ [FullNode cs f]) Hm Hwc Hk') as (ns & Ep & Hns); [by eapply bounded_full| |].
    { pose proof (rounds_le k m). unfold rounds in Hf. simpl in Hf. lia. }
    exists (FullNode cs f :: ns). rewrite Ep, <- app_assoc, (walk_full ts x k c Ec). split; [done|]. constructor; [by exists p|done].
  - destruct (resolveAndTrack_repr rd p _ t newTracer Hr Hb) as (m & Em & Hm & Hnh & _).
    assert (k ≠ []) as Hk0. { intros ->. destruct (Hw (twf_not_nil _ Ht)) as (v & -> & _). inversion Ht. }
    destruct (Nat.eqb_spec (length k) 0) as [E0|_]; [by apply nil_length_inv in E0|]. cbn [orb is_nil].
    unfold resolveAndTrack in Em. destruct (reader_node rd p _) as [e|blob]; [done|]. unfold try in Em.
    destruct (mustDecodeNode _ blob) as [n'|]; [|done]. injection Em as -> _.
    apply (IH p k m t); [done..|]. unfold rounds in *. rewrite Hnh. simpl in Hf. lia.
Qed.

(** The collapsed node of a tree and its reference. *)
Lemma proofHash_spec rd n t :
  loaded rd n t →
  ∃ c hn, proofHash n = Ok (c, hn) ∧ nodeToBytes c = tenc t ∧
    hn = (if (length (tenc t) <? 32)%nat then c else HashNode (Keccak256 (tenc t))) ∧ is_hash c = false.
Proof.
  intros (p & Hr & Hnh & Ht & Hb). pose proof (tenc_bound t Ht Hb) as Hbd.
  inversion Hr as [|? v|? k m f t0 Hfl Hch Hm|? cs f ts Hfl Hl Hch Hc|? ? ? ? ?]; subst; try (by inversion Ht).
  - assert (hex_ok k) as Hk by (inversion Ht; subst; [by apply key_ok_hex|by left]). cbn [proofHash].
    rewrite hexToCompact_compact by done. cbn [mbind res_bind].
    destruct (hash_val_spec rd p k m t0 (hash_spec rd m) Hm Ht Hb) as (cv & v' & -> & _ & _ & Hcv). cbn [mbind res_bind].
    assert (nodeToBytes (ShortNode (compact k) cv f) = tenc (TShort k t0)) as En.
    { rewrite nodeToBytes_rlp; cbn [node_rlp]; rewrite Hcv; done. }
    eexists _, _. split; [done|]. split_and!; [done| |done]. unfold shortnodeToHash, hashData. rewrite En, andb_true_r. done.
  - cbn [proofHash]. destruct (hash_full_children rd p cs f ts) as (ccs & cs' & -> & _ & _ & Hmap); [|done..|].
    { apply Forall_forall. intros x _. apply hash_spec. }
    cbn [mbind res_bind]. assert (nodeToBytes (FullNode ccs f) = tenc (TFull ts)) as En.
    { rewrite nodeToBytes_rlp; cbn [node_rlp]; rewrite Hmap; done. }
    eexists _, _. split; [done|]. split_and!; [done| |done]. unfold fullnodeToHash, hashData. rewrite En, andb_true_r. done.
Qed.

Definition put_ok (ts : list tree) (db db' : gmap (list byte) (list byte)) : Prop :=
  addressed (db' !!.) ∧ (∀ h, is_Some (db !! h) → is_Some (db' !! h)) ∧
  ∀ t, t ∈ ts → big t → is_Some (db' !! Keccak256 (tenc t)).

Lemma put_one (db : gmap (list byte) (list byte)) t :
  addressed (db !!.) → addressed (<[Keccak256 (tenc t) := tenc t]> db !!.) ∧
  ∀ h, is_Some (db !! h) ∨ h = Keccak256 (tenc t) → is_Some (<[Keccak256 (tenc t) := tenc t]> db !! h).
Proof.
  intros Ha. split.
  - intros h b. destruct (decide (Keccak256 (tenc t) = h)) as [<-|]; [rewrite lookup_insert_eq; by intros [= <-]|].
    rewrite lookup_insert_ne by done. apply Ha.
  - intros h Hh. destruct (decide (Keccak256 (tenc t) = h)) as [<-|]; [rewrite lookup_insert_eq; by eexists|].
    rewrite lookup_insert_ne by done. naive_solver.
Qed.

Lemma put_nodes_spec rd ns : ∀ i ts (db : gmap (list byte) (list byte)),
  0 <= i → Forall2 (loaded rd) ns ts → addressed (db !!.) →
  ∃ db', put_nodes i ns db = Ok db' ∧ put_ok ts db db' ∧
    (i = 0 → ∀ t r, ts = t :: r → is_Some (db' !! Keccak256 (tenc t))).
Proof.
  induction ns as [|n ns IH]; intros i ts db Hi Hns Hdb; inversion Hns as [|? t ? ts' Hn Hrest]; subst.
  - exists db. split; [done|]. split; [|done]. split_and!; [done|done|]. intros t Ht. set_solver.
  - cbn [put_nodes]. destruct (proofHash_spec rd n t Hn) as (c & hn & -> & En & -> & Hc). cbn [mbind res_bind]. rewrite En.
    destruct (put_one db t Hdb) as [Ha Hin]. unfold hashData. destruct (Nat.ltb_spec (length (tenc t)) 32) as [Hsm|Hbig].
    + destruct (Z.eqb_spec i 0) as [->|Hi0].
      * destruct (IH (0 + 1) ts' (<[Keccak256 (tenc t) := tenc t]> db)) as (db' & E & (A & M & B) & _); [lia|done|done|].
        exists db'. split; [by destruct c|]. split; [|intros _ t' r [= <- <-]; eauto]. split_and!; [done|by eauto|].
        intros t' [->|Ht']%elem_of_cons Hb'; [unfold big in Hb'; lia|by apply B].
      * destruct (IH (i + 1) ts' db) as (db' & E & (A & M & B) & _); [lia|done|done|].
        exists db'. split; [by destruct c|]. split; [|lia]. split_and!; [done|done|].
        intros t' [->|Ht']%elem_of_cons Hb'; [unfold big in Hb'; lia|by apply B].
    + destruct (IH (i + 1) ts' (<[Keccak256 (tenc t) := tenc t]> db)) as (db' & E & (A & M & B) & _); [lia|done|done|].
      exists db'. split; [done|]. split; [|intros _ t' r [= <- <-]; eauto]. split_and!; [done|by eauto|].
      intros t' [->|Ht']%elem_of_cons Hb'; [eauto|by apply B].
Qed.

(** ** Proofs are sound and complete *)

Lemma walk_subtrees t : ∀ q, walk t q ⊆ subtrees t.
Proof.
  induction t as [|v|k c IH|cs IH] using tree_nested_ind; intros q; cbn [walk subtrees]; [done|done| |].
  - case_bool_decide; [specialize (IH (drop (length k) q))|]; set_solver.
  - destruct q as [|x q]; [set_solver|]. apply list_subseteq_skip. generalize (Z.to_nat x) as i.
    induction IH as [|c cs Hc _ IH]; intros [|i]; cbn; try set_solver. all: specialize (Hc q); try specialize (IH i); set_solver.
Qed.

Lemma path_collides t m q db :
  twf t → maps t m → collides (enc_of (walk t q)) (stored db) → collides (node_of m) (stored db).
Proof.
  intros Ht Hm. apply collides_mono; [|done]. intros x Hx. exists t. split_and!; [by intros _|done|].
  eapply enc_of_mono; [apply walk_subtrees|exact Hx].
Qed.

Lemma root_digest T m h T' :
  holds T m → m ≠ ∅ → trie_Hash T = Ok (h, T') →
  ∃ t, repr (t_reader T) [] (t_root T) t ∧ twf t ∧ bounded t ∧ maps t m ∧ Hash_Bytes h = Keccak256 (tenc t).
Proof.
  intros Hh Hm E. destruct (holds_Hash T m Hh) as (t & T1 & Hr & Hw & Hb & Hmap & E' & _).
  assert (t ≠ TNil) as Hn by (intros ->; by apply Hm, maps_nil). exists t. rewrite E in E'. injection E' as -> _.
  split_and!; [done|by apply Hw|done|done|]. rewrite troot_node by done. apply Hash_Bytes_digest.
Qed.

Lemma key_rounds_lt key fuel : (key_rounds key <= fuel)%nat → (length (keybytesToHex key) < fuel)%nat.
Proof. intros Hf. pose proof (key_rounds_le key NilNode) as Hr. unfold rounds in Hr. simpl in Hr. lia. Qed.

(** C9: Merkle proofs are sound.  Whatever nodes a database of proof nodes holds, as long as
    every entry is stored under its own hash, [VerifyProof] against the root hash of a trie
    returns: the value of the key in the map the trie holds, or nothing if the key is not in
    it, or the error that a node is missing.  It never accepts a wrong value and never takes a
    present key for absent, unless the database holds a byte string that is not a node of
    the trie and has the digest of one. *)
Theorem VerifyProof_sound (fuel : nat) (T : Trie) (m : kvmap) (h : Hash) (T' : Trie) (key : list byte) proofDb :
  holds T m → m ≠ ∅ → trie_Hash T = Ok (h, T') → bytes_ok key → addressed proofDb → (key_rounds key <= fuel)%nat →
  VerifyProof fuel h key proofDb = Done (inr (m !! key)) ∨
  (∃ i hash, VerifyProof fuel h key proofDb = Done (inl (ProofMissing i hash))) ∨
  collides (node_of m) (stored proofDb).
Proof.
  intros Hh Hm E Hk Hdb Hf. destruct (root_digest T m h T' Hh Hm E) as (t & _ & Ht & Hb & Hmap & Eh).
  unfold VerifyProof. rewrite Eh, <- (maps_get t m key Hmap Hk).
  destruct (verify_spec proofDb fuel 0 t (keybytesToHex key) Hdb Ht Hb (keybytesToHex_key_ok key Hk) (key_rounds_lt _ _ Hf))
    as [Hr|[(d & i & hash & _ & _ & Hr)|Hc]]; [by left|right; left; eauto|right; right].
  by eapply path_collides.
Qed.

(** C10: Merkle proofs are complete.  [Prove] on a trie that holds a map returns, also when
    nodes have to be loaded, and the nodes it adds to a database of proof nodes convince
    [VerifyProof] of the value of the key, or of its absence, unless the database holds a
    byte string with the digest of a different node of the trie. *)
Theorem Prove_verifies (fuel : nat) (T : Trie) (m : kvmap) (h : Hash) (T' : Trie) (key : list byte) (proofDb : gmap (list byte) (list byte)) :
  holds T m → m ≠ ∅ → trie_Hash T = Ok (h, T') → bytes_ok key → addressed (proofDb !!.) → (key_rounds key <= fuel)%nat →
  ∃ db, Prove fuel T key proofDb = Done (inr db) ∧ addressed (db !!.) ∧
    (VerifyProof fuel h key (db !!.) = Done (inr (m !! key)) ∨ collides (node_of m) (stored (db !!.))).
Proof.
  intros Hh Hm E Hk Hdb Hf. destruct (root_digest T m h T' Hh Hm E) as (t & Hr & Ht & Hb & Hmap & Eh).
  pose proof (keybytesToHex_key_ok key Hk) as Hkey. unfold Prove. rewrite (proj1 Hh).
  destruct (prove_path_spec (t_reader T) fuel [] (keybytesToHex key) (t_root T) t []) as (ns & Ep & Hns);
    [done|by apply wf_at_twf_intro|by right|done|pose proof (key_rounds_le key (t_root T)); lia|]. rewrite Ep. cbn [app].
  destruct (put_nodes_spec (t_reader T) ns 0 _ proofDb ltac:(lia) Hns Hdb) as (db & -> & (Ha & _ & Hbig) & Hroot).
  exists db. split_and!; [done|done|]. unfold VerifyProof. rewrite Eh, <- (maps_get t m key Hmap Hk).
  destruct (verify_spec (db !!.) fuel 0 t (keybytesToHex key) Ha Ht Hb Hkey (key_rounds_lt _ _ Hf))
    as [Hv|[(d & i & hash & [Hin Hor] & Hno & _)|Hc]]; [by left| |right; by eapply path_collides].
  exfalso. assert (is_Some (db !! Keccak256 (tenc d))) as [x Hx]; [|by rewrite Hno in Hx].
  destruct Hor as [->|Hd]; [|by apply Hbig]. destruct (walk_head t (keybytesToHex key) Ht) as [r Er]. by apply (Hroot eq_refl t r).
Qed.
End prove.

(** ** Witnesses *)

#[local] Existing Instances toy_crypto reference_runtime.

Definition proof_trie : Trie := update_two [0x12; 0x34] (replicate 40 7) [0x52; 0x56] (replicate 40 8).
Definition proof_map : kvmap := <[[0x52; 0x56] := replicate 40 8]> {[ [0x12; 0x34] := replicate 40 7 ]}.

Lemma proof_map_at : proof_map !! [0x12; 0x34] = Some (replicate 40 7).
Proof. vm_compute. reflexivity. Qed.

Lemma Prove_verifies_witness :
  ∃ h T' db, trie_Hash proof_trie = Ok (h, T') ∧ Prove 12 proof_trie [0x12; 0x34] ∅ = Done (inr db) ∧
    (VerifyProof 12 h [0x12; 0x34] (db !!.) = Done (inr (Some (replicate 40 7))) ∨ collides (node_of proof_map) (stored (db !!.))).
Proof.
  destruct (trie_Hash proof_trie) as [[h T']|] eqn:E; [|by vm_compute in E].
  destruct (Prove_verifies 12 proof_trie proof_map h T' [0x12; 0x34] ∅) as (db & Ep & _ & Hv).
  - apply update_two_holds; [vm_compute; reflexivity|done|done].
  - apply insert_non_empty.
  - exact E.
  - repeat (apply Forall_cons; split; [lia|]). by apply Forall_nil.
  - intros x b. by rewrite lookup_empty.
  - vm_compute. lia.
  - exists h, T', db. rewrite proof_map_at in Hv. split_and!; [reflexivity|exact Ep|exact Hv].
Defined.

(** Against a database without the root node the verifier reports the node. *)
Lemma VerifyProof_sound_witness :
  ∃ h T', trie_Hash proof_trie = Ok (h, T') ∧
    (VerifyProof 12 h [0x12; 0x34] (λ _, None) = Done (inr (Some (replicate 40 7))) ∨
     (∃ i hash, VerifyProof 12 h [0x12; 0x34] (λ _, None) = Done (inl (ProofMissing i hash))) ∨
     collides (node_of proof_map) (stored (λ _, None))).
Proof.
  destruct (trie_Hash proof_trie) as [[h T']|] eqn:E; [|by vm_compute in E].
  exists h, T'. split; [reflexivity|]. rewrite <- proof_map_at. apply (VerifyProof_sound 12 proof_trie proof_map h T' [0x12; 0x34]).
  - apply update_two_holds; [vm_compute; reflexivity|done|done].
  - apply insert_non_empty.
  - exact E.
  - repeat (apply Forall_cons; split; [lia|]). by apply Forall_nil.
  - intros x b. discriminate.
  - vm_compute. lia.
Defined.

(** The proof of the sample has the root and the leaf. *)
Example proof_sample :
  match trie_Hash proof_trie, Prove 12 proof_trie [0x12; 0x34] ∅ with
  | Ok (h, _), Done (inr db) => (size db, VerifyProof 12 h [0x12; 0x34] (db !!.), VerifyProof 12 h [0x12; 0x77] (db !!.))
  | _, _ => (0%nat, OutOfFuel, OutOfFuel)
  end = (2%nat, Done (inr (Some (replicate 40 7))), Done (inr None)).
Proof. vm_compute. reflexivity. Qed.
