(* ===== verification/StackTrie.v ===== *)
(** * The stack trie (trie/stacktrie.go)

    A trie for keys that arrive in order: once no later key can fall below a node, the
    node is replaced by its hash and its children are dropped.  [writeFn] is modelled by
    the list of the nodes it was called with.  Nodes taken from the pool are empty, because
    [returnToPool] resets them, so the pool does not appear. *)

From S2P Require Import Prelude Bytes RlpEncode RlpRaw Common TrieKeys TrieNode TrieTree TrieHash.

Open Scope Z_scope.

Inductive nodeType := emptyNode | branchNode | extNode | leafNode | hashedNode.

Inductive StackTrie := mkST {
  st_owner : Hash;
  st_nodeType : nodeType;
  st_val : list byte;
  st_key : list byte;
  st_children : list (option StackTrie); (* an array of 16 *)
  st_writer : bool; (* whether writeFn is set *)
}.

(** A call of [writeFn]. *)
Record write := mkWrite { w_owner : Hash; w_path : list byte; w_hash : Hash; w_blob : list byte }.

Definition no_kids : list (option StackTrie) := replicate 16 None.

Definition NewStackTrieWithOwner (w : bool) (owner : Hash) : StackTrie :=
  mkST owner emptyNode [] [] no_kids w.
Definition NewStackTrie (w : bool) : StackTrie := NewStackTrieWithOwner w 0.

Definition newLeaf (owner : Hash) (key val : list byte) (w : bool) : StackTrie :=
  mkST owner leafNode val key no_kids w.
Definition newExt (owner : Hash) (key : list byte) (child : option StackTrie) (w : bool) : StackTrie :=
  mkST owner extNode [] key (<[0%nat := child]> no_kids) w.
Definition newBranch (owner : Hash) (w : bool) : StackTrie :=
  mkST owner branchNode [] [] no_kids w.

Definition st_Reset (st : StackTrie) : StackTrie := mkST 0 emptyNode [] [] no_kids false.

Definition set_kids (st : StackTrie) (t : nodeType) (val key : list byte)
    (cs : list (option StackTrie)) : StackTrie :=
  mkST (st_owner st) t val key cs (st_writer st).

Fixpoint diff_loop (idx : nat) (stkey key : list byte) : res nat :=
  match stkey with
  | [] => Ok idx
  | nibble :: stkey =>
      match key with
      | [] => Panic "index out of range"
      | x :: key => if nibble =? x then diff_loop (S idx) stkey key else Ok idx
      end
  end.

Definition getDiffIndex (st : StackTrie) (key : list byte) : res nat := diff_loop 0 (st_key st) key.

(** Writing [children[i]] of an array of 16. *)
Definition set_kid (cs : list (option StackTrie)) (i : Z) (c : StackTrie)
  : res (list (option StackTrie)) :=
  if (0 <=? i) && (i <? Z.of_nat (length cs)) then Ok (<[Z.to_nat i := Some c]> cs)
  else Panic "index out of range".

Section stacktrie.
Context `{Crypto}.

(** The node a parent encodes for a hashed child. *)
Definition child_node (val : list byte) : node :=
  if (length val <? 32)%nat then RawNode val else HashNode val.

Definition no_flag : nodeFlag := mkNodeFlag None false.

(** The end of [hashRec]: a short encoding is kept, a long one hashed and written. *)
Definition finish_hash (st : StackTrie) (path enc : list byte) (kids : list (option StackTrie))
    (log : list write) : StackTrie * list write :=
  if (length enc <? 32)%nat then (set_kids st hashedNode enc [] kids, log)
  else
    let val := hashData enc in
    (set_kids st hashedNode val [] kids,
     if st_writer st then log ++ [mkWrite (st_owner st) path (BytesToHash val) enc] else log).

(** The loop over the children of a branch from index [i] on. *)
Definition hash_kids (rec : StackTrie → list byte → list write → res (StackTrie * list write))
    (path : list byte) :=
  fix go (i : Z) (cs : list (option StackTrie)) (log : list write) : res (list node * list write) :=
    match cs with
    | [] => Ok ([], log)
    | None :: cs => '(ns, log) ← go (i + 1) cs log; Ok (nilValueNode :: ns, log)
    | Some c :: cs =>
        '(c, log) ← rec c (path ++ [i]) log;
        '(ns, log) ← go (i + 1) cs log;
        Ok (child_node (st_val c) :: ns, log)
    end.

Fixpoint hashRec (st : StackTrie) (path : list byte) (log : list write)
  : res (StackTrie * list write) :=
  match st_nodeType st with
  | hashedNode => Ok (st, log)
  | emptyNode => Ok (set_kids st hashedNode (Hash_Bytes EmptyRootHash) [] (st_children st), log)
  | branchNode =>
      '(ns, log) ← hash_kids hashRec path 0 (st_children st) log;
      Ok (finish_hash st path (nodeToBytes (FullNode (ns ++ [NilNode]) no_flag))
            (map (λ _, None) (st_children st)) log)
  | extNode =>
      match st_children st with
      | Some c :: _ =>
          '(c, log) ← hashRec c (path ++ st_key st) log;
          key ← hexToCompact (st_key st);
          Ok (finish_hash st path (nodeToBytes (ShortNode key (child_node (st_val c)) no_flag))
                (<[0%nat := None]> (st_children st)) log)
      | _ => Panic "nil pointer dereference"
      end
  | leafNode =>
      key ← hexToCompact (st_key st ++ [16]);
      Ok (finish_hash st path (nodeToBytes (ShortNode key (ValueNode (st_val st)) no_flag))
            (st_children st) log)
  end.

(** The last non-nil child before [idx], the elder sibling that is hashed. *)
Fixpoint elder (idx : nat) (cs : list (option StackTrie)) : option (nat * StackTrie) :=
  match idx, cs with
  | S idx, c :: cs =>
      match elder idx cs with
      | Some (i, e) => Some (S i, e)
      | None => match c with Some e => Some (0%nat, e) | None => None end
      end
  | _, _ => None
  end.

Definition hash_elder (prefix : list byte) (idx : nat) (cs : list (option StackTrie)) (log : list write)
  : res (option (nat * StackTrie) * list write) :=
  match elder idx cs with
  | None => Ok (None, log)
  | Some (i, e) =>
      match st_nodeType e with
      | hashedNode => Ok (None, log)
      | _ => '(e, log) ← hashRec e (prefix ++ [Z.of_nat i]) log; Ok (Some (i, e), log)
      end
  end.

(** The child at index [i], replaced by what [f] makes of it. *)
Definition update_kid (f : option StackTrie → res (StackTrie * list write)) :=
  fix go (cs : list (option StackTrie)) (i : nat) : res (list (option StackTrie) * list write) :=
    match cs, i with
    | c :: cs, O => '(c, log) ← f c; Ok (Some c :: cs, log)
    | c :: cs, S i => '(cs, log) ← go cs i; Ok (c :: cs, log)
    | [], _ => Panic "index out of range"
    end.

(** The node that takes the diverging keys: the node itself, or a new branch below it. *)
Definition with_branch (st : StackTrie) (val : list byte) (diffidx : nat) (x y : Z) (n o : StackTrie)
  : res StackTrie :=
  let key := take diffidx (st_key st) in
  if (diffidx =? 0)%nat then
    cs ← set_kid (<[0%nat := None]> (st_children st)) x n;
    cs ← set_kid cs y o;
    Ok (set_kids st branchNode val key cs)
  else
    let b := newBranch (st_owner st) (st_writer st) in
    cs ← set_kid (st_children b) x n;
    cs ← set_kid cs y o;
    Ok (set_kids st extNode val key (<[0%nat := Some (set_kids b branchNode [] [] cs)]> (st_children st))).

(** Splitting an extension whose key leaves the new key at [diffidx]. *)
Definition split_ext (st : StackTrie) (diffidx : nat) (key value prefix : list byte) (log : list write)
  : res (StackTrie * list write) :=
  child ← go_index (st_children st) 0;
  '(n, log) ←
    (if (diffidx <? length (st_key st) - 1)%nat then
       hashRec (newExt (st_owner st) (drop (S diffidx) (st_key st)) child (st_writer st))
         (prefix ++ take (S diffidx) (st_key st)) log
     else n ← deref child; hashRec n (prefix ++ st_key st) log);
  let o := newLeaf (st_owner st) (drop (S diffidx) key) value (st_writer st) in
  x ← go_index (st_key st) (Z.of_nat diffidx);
  y ← go_index key (Z.of_nat diffidx);
  st ← with_branch st (st_val st) diffidx x y n o;
  Ok (st, log).

Definition split_leaf (st : StackTrie) (diffidx : nat) (key value prefix : list byte) (log : list write)
  : res (StackTrie * list write) :=
  x ← go_index (st_key st) (Z.of_nat diffidx);
  '(n, log) ← hashRec (newLeaf (st_owner st) (drop (S diffidx) (st_key st)) (st_val st) (st_writer st))
                (prefix ++ take (S diffidx) (st_key st)) log;
  y ← go_index key (Z.of_nat diffidx);
  let o := newLeaf (st_owner st) (drop (S diffidx) key) value (st_writer st) in
  st ← with_branch st [] diffidx x y n o;
  Ok (st, log).

Fixpoint st_insert (st : StackTrie) (key value prefix : list byte) (log : list write)
  : res (StackTrie * list write) :=
  match st_nodeType st with
  | branchNode =>
      idx ← go_index key 0;
      '(e, log) ← hash_elder prefix (Z.to_nat idx) (st_children st) log;
      '(cs, log) ←
        update_kid (λ c, match c with
                         | None => Ok (newLeaf (st_owner st) (drop 1 key) value (st_writer st), log)
                         | Some c => st_insert c (drop 1 key) value (prefix ++ [idx]) log
                         end) (st_children st) (Z.to_nat idx);
      let cs := match e with Some (i, e) => <[i := Some e]> cs | None => cs end in
      Ok (set_kids st branchNode (st_val st) (st_key st) cs, log)
  | extNode =>
      diffidx ← getDiffIndex st key;
      if (diffidx =? length (st_key st))%nat then
        '(cs, log) ←
          update_kid (λ c, match c with
                           | None => Panic "nil pointer dereference"
                           | Some c => st_insert c (drop diffidx key) value (prefix ++ take diffidx key) log
                           end) (st_children st) 0;
        Ok (set_kids st extNode (st_val st) (st_key st) cs, log)
      else split_ext st diffidx key value prefix log
  | leafNode =>
      diffidx ← getDiffIndex st key;
      if (length (st_key st) <=? diffidx)%nat then Panic "Trying to insert into existing key"
      else split_leaf st diffidx key value prefix log
  | emptyNode => Ok (set_kids st leafNode value key (st_children st), log)
  | hashedNode => Panic "trying to insert into hash"
  end.

Definition st_Update (st : StackTrie) (key value : list byte) (log : list write)
  : res (StackTrie * list write) :=
  let k := keybytesToHex key in
  match value with
  | [] => Panic "deletion not supported"
  | _ => st_insert st (drop_last k) value [] log
  end.

(** [Hash] and [Commit] change the node into a hashed one. *)
Definition st_Hash (st : StackTrie) (log : list write) : res (Hash * StackTrie * list write) :=
  '(st, log) ← hashRec st [] log;
  if (length (st_val st) =? 32)%nat then Ok (be_value (st_val st), st, log)
  else Ok (be_value (Keccak256 (st_val st)), st, log).

Definition st_Commit (st : StackTrie) (log : list write)
  : res (string + (Hash * StackTrie * list write)) :=
  if negb (st_writer st) then Ok (inl "no database for committing"%string)
  else
    '(st, log) ← hashRec st [] log;
    if (length (st_val st) =? 32)%nat then Ok (inr (be_value (st_val st), st, log))
    else
      let h := be_value (Keccak256 (st_val st)) in
      Ok (inr (h, st, log ++ [mkWrite (st_owner st) [] h (st_val st)])).
End stacktrie.
