(* ===== verification/StackTrieProps.v ===== *)
(** * The stack trie computes the root hash of the trie

    [strepr] relates a node of the stack trie to the tree it stands for: hashed nodes hold
    what a parent embeds of the tree, and what was dropped was written.  For keys in
    increasing order none of which is a prefix of another, every update succeeds and the
    final hash is that of the trie with the same contents. *)

From S2P Require Import Prelude Bytes RlpEncode RlpRaw Common TrieKeys TrieNode TrieTree Trie.
From S2P Require Import TrieProps TrieHash TrieCommit TrieMap StackTrie.

Open Scope Z_scope.

Section stack.
Context `{Crypto} (o : Hash) (w : bool).

(** What a hashed node holds: its encoding when that is short, else the hash. *)
Definition hval (t : tree) : list byte :=
  if (length (tenc t) <? 32)%nat then tenc t else Keccak256 (tenc t).

Lemma child_node_hval t : twf t → node_rlp (child_node (hval t)) = tref t.
Proof.
  intros Ht. unfold child_node, hval. destruct (Nat.ltb_spec (length (tenc t)) 32).
  - rewrite (proj2 (Nat.ltb_lt _ _)) by done. simpl. by rewrite tref_small.
  - rewrite Keccak256_length. simpl. by rewrite tref_big.
Qed.

Definition node_write (p : list byte) (t : tree) : write :=
  mkWrite o p (BytesToHash (Keccak256 (tenc t))) (tenc t).

(** Every part of [t] that is not embedded was written under its path. *)
Definition logged (log : list write) (p : list byte) (t : tree) : Prop :=
  w = true → ∀ q c, subtree t q c → twf c → (32 <= length (tenc c))%nat → node_write (p ++ q) c ∈ log.

Inductive strepr (log : list write) : list byte → StackTrie → tree → Prop :=
| sr_leaf p key val :
    strepr log p (newLeaf o key val w) (TShort (key ++ [16]) (TValue val))
| sr_ext p key c ts :
    strepr log (p ++ key) c (TFull ts) →
    strepr log p (newExt o key (Some c) w) (TShort key (TFull ts))
| sr_branch p cs ts :
    length cs = 16%nat → length ts = 16%nat →
    (∀ i c t, cs !! i = Some (Some c) → ts !! i = Some t → strepr log (p ++ [Z.of_nat i]) c t) →
    (∀ i t, cs !! i = Some None → ts !! i = Some t → t = TNil) →
    strepr log p (mkST o branchNode [] [] cs w) (TFull (ts ++ [TNil]))
| sr_hashed p st t :
    twf t → st_nodeType st = hashedNode → st_val st = hval t → logged log p t → strepr log p st t.

Lemma strepr_mono log log' p st t : log ⊆ log' → strepr log p st t → strepr log' p st t.
Proof.
  intros Hl. induction 1 as [|p key c ts _ IH|p cs ts Lc Lt _ IH Hn|p st t Htw Ht Hv Hlog].
  - constructor.
  - by constructor.
  - by constructor.
  - apply sr_hashed; [done|done|done|]. intros Hw q c Hq Hc Hbig. apply Hl. by apply Hlog.
Qed.

(** ** Hashing *)

Lemma finish_hash_spec st p enc t kids log :
  enc = tenc t → twf t → st_owner st = o → st_writer st = w →
  (w = true → ∀ q c, q ≠ [] → subtree t q c → twf c → (32 <= length (tenc c))%nat →
     node_write (p ++ q) c ∈ log) →
  ∃ st' log', finish_hash st p enc kids log = (st', log') ∧ st_nodeType st' = hashedNode ∧
    st_val st' = hval t ∧ log ⊆ log' ∧ logged log' p t.
Proof.
  intros -> Ht Ho Hw Hsub. unfold finish_hash, hval.
  assert (∀ log', log ⊆ log' → (w = true → (32 <= length (tenc t))%nat → node_write p t ∈ log') →
    logged log' p t) as Hlog.
  { intros log' Hl Hown Hwt q c Hq Hc Hbig. destruct (decide (q = [])) as [->|Hne].
    - apply subtree_nil in Hq as ->; [|done]. rewrite app_nil_r. by apply Hown.
    - by apply Hl, Hsub. }
  destruct (Nat.ltb_spec (length (tenc t)) 32).
  - eexists _, _. split; [done|]. split_and!; [done|done|done|]. apply Hlog; [done|lia].
  - eexists _, _. split; [done|]. split_and!; [done|done| |].
    + destruct (st_writer st); set_solver.
    + apply Hlog; [destruct (st_writer st); set_solver|]. intros Hwt _. rewrite Hw, Hwt, Ho. set_solver.
Qed.

Definition hash_rec_ok (st : StackTrie) (p : list byte) (t : tree) (log : list write) : Prop :=
  ∀ log1, log ⊆ log1 →
  ∃ st' log', hashRec st p log1 = Ok (st', log') ∧ st_nodeType st' = hashedNode ∧
    st_val st' = hval t ∧ log1 ⊆ log' ∧ logged log' p t.

Lemma hash_kids_spec log p cs : ∀ i ts log1,
  length cs = length ts → log ⊆ log1 →
  (∀ j c t, cs !! j = Some (Some c) → ts !! j = Some t →
     hash_rec_ok c (p ++ [i + Z.of_nat j]) t log ∧ twf t) →
  (∀ j t, cs !! j = Some None → ts !! j = Some t → t = TNil) →
  ∃ ns log', hash_kids hashRec p i cs log1 = Ok (ns, log') ∧ map node_rlp ns = map tref ts ∧
    log1 ⊆ log' ∧
    ∀ j t, ts !! j = Some t → t ≠ TNil → logged log' (p ++ [i + Z.of_nat j]) t.
Proof.
  induction cs as [|c cs IH]; intros i ts log1 Hl Hsub Hr Hn.
  { destruct ts; [|done]. by exists [], log1. }
  destruct ts as [|t ts]; [done|].
  assert (∀ j c t, cs !! j = Some (Some c) → ts !! j = Some t →
    hash_rec_ok c (p ++ [(i + 1) + Z.of_nat j]) t log ∧ twf t) as Hr'.
  { intros j d t' Ed Et. replace (i + 1 + Z.of_nat j) with (i + Z.of_nat (S j)) by lia. by apply Hr. }
  destruct c as [c|].
  - destruct (Hr 0%nat c t eq_refl eq_refl) as [Hc Ht]. rewrite Z.add_0_r in Hc.
    destruct (Hc log1 Hsub) as (st' & log2 & E & Hty & Hv & Hl2 & Hlog).
    destruct (IH (i + 1) ts log2) as (ns & log' & E' & Hmap & Hl' & Hlogs);
      [by injection Hl|by etrans|done|by intros j; apply (Hn (S j))|].
    cbn [hash_kids]. rewrite E. cbn [mbind res_bind]. fold (hash_kids hashRec p). rewrite E'.
    eexists _, log'. split; [done|]. split_and!; [simpl; by rewrite Hv, child_node_hval, Hmap|by etrans|].
    intros [|j] t' Et Hne; simplify_eq/=.
    + rewrite Z.add_0_r. intros Hw q d Hq Hd Hbig. apply Hl'. by apply Hlog.
    + replace (i + Z.of_nat (S j)) with (i + 1 + Z.of_nat j) by lia. by apply Hlogs.
  - destruct (IH (i + 1) ts log1) as (ns & log' & E' & Hmap & Hl' & Hlogs);
      [by injection Hl|done|done|by intros j; apply (Hn (S j))|].
    assert (t = TNil) as -> by by apply (Hn 0%nat).
    cbn [hash_kids]. fold (hash_kids hashRec p). rewrite E'.
    eexists _, log'. split; [done|]. split_and!; [simpl; by rewrite Hmap|done|].
    intros [|j] t' Et Hne; simplify_eq/=.
    replace (i + Z.of_nat (S j)) with (i + 1 + Z.of_nat j) by lia. by apply Hlogs.
Qed.

Lemma twf_branch_child ts i t :
  twf (TFull (ts ++ [TNil])) → length ts = 16%nat → ts !! i = Some t → t ≠ TNil → twf t.
Proof.
  inversion 1 as [| |? _ Hc _ _]; subst. intros Lt Et Hn.
  apply (Hc i); [by apply lookup_app_l_Some| |done]. rewrite <- Lt. by eapply lookup_lt_Some.
Qed.

Lemma strepr_not_nil log p st t : strepr log p st t → t ≠ TNil.
Proof. destruct 1; [done..|]. by apply twf_not_nil. Qed.

Lemma hashRec_spec log p st t : strepr log p st t → twf t → bounded t → hash_rec_ok st p t log.
Proof.
  induction 1 as [p key val|p key c ts Hc IH|p cs ts Lc Lt Hr IH Hn|p st t _ Hty Hv Hlog];
    intros Ht Hb log1 Hsub; pose proof (tenc_bound _ Ht Hb) as Hbd.
  - assert (key_ok (key ++ [16])) as Hk by by inversion Ht.
    cbn [hashRec newLeaf st_nodeType st_key st_val].
    rewrite hexToCompact_compact by by apply key_ok_hex. cbn [mbind res_bind].
    rewrite nodeToBytes_rlp by done.
    destruct (finish_hash_spec (newLeaf o key val w) p (tenc (TShort (key ++ [16]) (TValue val)))
      (TShort (key ++ [16]) (TValue val)) no_kids log1) as (st' & log' & E & Hfin); try done.
    { intros _ q c Hq Hs Hc. inversion Hs as [|? ? ? ? Hs'|]; subst; [done|].
      inversion Hs'; subst. inversion Hc. }
    exists st', log'. rewrite <- E. split; [done|]. apply Hfin.
  - inversion Ht as [|? ? Hne Hk Hf|]; subst.
    destruct (IH Hf ltac:(by eapply bounded_short) log1 Hsub) as (c' & log2 & E & Hty & Hv & Hl2 & Hlog).
    assert (hashRec (newExt o key (Some c) w) p log1
      = ('(c, log) ← hashRec c (p ++ key) log1; k ← hexToCompact key;
         Ok (finish_hash (newExt o key (Some c) w) p
               (nodeToBytes (ShortNode k (child_node (st_val c)) no_flag)) no_kids log))) as -> by done.
    rewrite E. cbn [mbind res_bind]. rewrite hexToCompact_compact by by left. cbn [mbind res_bind].
    assert (node_rlp (ShortNode (compact key) (child_node (st_val c')) no_flag) = tenc (TShort key (TFull ts))) as En.
    { cbn [node_rlp]. by rewrite Hv, child_node_hval. }
    rewrite nodeToBytes_rlp, En by by rewrite En.
    destruct (finish_hash_spec (newExt o key (Some c) w) p (tenc (TShort key (TFull ts)))
      (TShort key (TFull ts)) no_kids log2) as (st' & log' & E' & Hty' & Hv' & Hl' & Hlog'); try done.
    { intros Hw q d Hq Hs Hd Hbig. inversion Hs as [|? ? q' ? Hs'|]; subst; [done|].
      rewrite app_assoc. by apply Hlog. }
    exists st', log'. rewrite <- E'. split; [done|]. split_and!; [done|done|by etrans|done].
  - destruct (hash_kids_spec log p cs 0 ts log1) as (ns & log2 & E & Hmap & Hl2 & Hlogs);
      [lia|done| |done|].
    { intros j c t Ec Et. rewrite Z.add_0_l.
      assert (twf t) as Htt by (eapply twf_branch_child; [done|done|done|by eapply strepr_not_nil, Hr]).
      split; [|done]. apply (IH j c t Ec Et Htt). eapply bounded_full; [done|by apply lookup_app_l_Some]. }
    cbn [hashRec st_nodeType st_children]. rewrite E. cbn [mbind res_bind].
    assert (node_rlp (FullNode (ns ++ [NilNode]) no_flag) = tenc (TFull (ts ++ [TNil]))) as En.
    { cbn [node_rlp]. unfold tenc. cbn [tbody]. by rewrite !map_app, Hmap. }
    rewrite nodeToBytes_rlp, En by by rewrite En.
    destruct (finish_hash_spec (mkST o branchNode [] [] cs w) p (tenc (TFull (ts ++ [TNil])))
      (TFull (ts ++ [TNil])) (map (λ _, None) cs) log2) as (st' & log' & E' & Hty' & Hv' & Hl' & Hlog'); try done.
    { intros Hw q d Hq Hs Hd Hbig. inversion Hs as [| |? i t' q' ? Ei Hs']; subst; [done|].
      assert (t' ≠ TNil) as Htn by (intros ->; inversion Hs'; subst; inversion Hd).
      apply lookup_app_Some in Ei as [Ei|[Hge Ei]].
      - specialize (Hlogs i t' Ei Htn Hw q' d Hs' Hd Hbig). by rewrite Z.add_0_l, <- app_assoc in Hlogs.
      - destruct (i - length ts)%nat as [|[|]]; [|done..]. by injection Ei as <-. }
    exists st', log'. rewrite <- E'. split; [done|]. split_and!; [done|done|by etrans|done].
  - exists st, log1. destruct st; simpl in Hty; subst. split; [done|]. split_and!; [done|done|done|].
    intros Hw q c Hq Hc Hbig. apply Hsub. by apply Hlog.
Qed.

(** ** Keys in order *)

(** The stored key [q] leaves the path to [key] at a smaller nibble. *)
Definition diverge_lt (q key : list byte) : Prop :=
  ∃ c x y r s, q = c ++ x :: r ∧ key = c ++ y :: s ∧ x < y.

Lemma diverge_app c q key : diverge_lt (c ++ q) (c ++ key) → diverge_lt q key.
Proof.
  intros (d & x & y & r & s & E1 & E2 & Hxy).
  assert (c `prefix_of` d) as [e ->].
  { eapply (prefix_diverge c d x y r s q key); [lia|done|done]. }
  rewrite <- app_assoc in E1, E2. apply app_inv_head in E1, E2. by exists e, x, y, r, s.
Qed.

Lemma diverge_head x r y s : diverge_lt (x :: r) (y :: s) → x < y ∨ x = y ∧ diverge_lt r s.
Proof.
  intros ([|z c] & a & b & r' & s' & E1 & E2 & Hab); simplify_eq/=; [by left|right].
  split; [done|]. by exists c, a, b, r', s'.
Qed.

Lemma diverge_nil q : ¬ diverge_lt q [].
Proof. intros (c & x & y & r & s & _ & E & _). by destruct c. Qed.

(** Every key of the tree is before [key]. *)
Definition before (t : tree) (key : list byte) : Prop :=
  ∀ q v, tget t q = Some v → diverge_lt q key.

Lemma before_short k t key : before (TShort k t) (k ++ key) → before t key.
Proof. intros Hb q v E. apply (diverge_app k). apply (Hb _ v). by rewrite tget_short. Qed.

Lemma before_full ts i c key :
  before (TFull ts) (Z.of_nat i :: key) → ts !! i = Some c → before c key.
Proof.
  intros Hb Ei q v E. assert (diverge_lt (Z.of_nat i :: q) (Z.of_nat i :: key)) as Hd.
  { apply (Hb _ v). by rewrite (tget_full_nat _ _ c). }
  apply diverge_head in Hd as [?|[_ ?]]; [lia|done].
Qed.

Lemma before_split c x r0 t y s :
  twf (TShort (c ++ x :: r0) t) → before (TShort (c ++ x :: r0) t) (c ++ y :: s) → x ≠ y → x < y.
Proof.
  intros Ht Hb Hxy. destruct (twf_inhabited _ Ht) as (q & v & E). pose proof (Hb q v E) as Hd.
  apply tget_short_inv in E as (q' & -> & _). rewrite <- app_assoc in Hd. simpl in Hd.
  apply diverge_app, diverge_head in Hd as [?|[? _]]; [done|done].
Qed.

Lemma before_not_prefix c b t : twf (TShort (c ++ b) t) → ¬ before (TShort (c ++ b) t) c.
Proof.
  intros Ht Hb. destruct (twf_inhabited _ Ht) as (q & v & E). pose proof (Hb q v E) as Hd.
  apply tget_short_inv in E as (q' & -> & _). rewrite <- app_assoc, <- (app_nil_r c) in Hd.
  rewrite <- app_assoc in Hd. simpl in Hd. apply diverge_app in Hd. by eapply diverge_nil.
Qed.

Lemma diff_loop_spec c b a : ∀ i,
  (b = [] ∨ ∃ x y r s, b = x :: r ∧ a = y :: s ∧ x ≠ y) →
  diff_loop i (c ++ b) (c ++ a) = Ok (i + length c)%nat.
Proof.
  induction c as [|z c IH]; intros i Hd; simpl.
  - rewrite Nat.add_0_r. destruct Hd as [->|(x & y & r & s & -> & -> & Hxy)]; [done|].
    cbn [diff_loop]. by rewrite (proj2 (Z.eqb_neq x y)).
  - rewrite Z.eqb_refl, IH by done. f_equal. lia.
Qed.

(** The key of a node and a key that is not before it: where they part. *)
Lemma diff_split k0 key :
  (∀ a, k0 ≠ key ++ a ∨ a = []) →
  ∃ c a b, key = c ++ a ∧ k0 = c ++ b ∧ diff_loop 0 k0 key = Ok (length c) ∧
    (b = [] ∨ ∃ x y r s, b = x :: r ∧ a = y :: s ∧ x ≠ y).
Proof.
  intros Hnp. destruct (prefixLen_split key k0) as (c & a & b & E1 & E2 & _ & Hd).
  assert (b = [] ∨ ∃ x y r s, b = x :: r ∧ a = y :: s ∧ x ≠ y) as Hb.
  { destruct b as [|x r]; [by left|right]. destruct a as [|y s].
    - destruct (Hnp (x :: r)) as [Hne|]; [|done]. destruct Hne. by rewrite E2, E1, app_nil_r.
    - exists x, y, r, s. split_and!; [done|done|]. intros ->. by eapply Hd. }
  exists c, a, b. split_and!; [done|done| |done]. rewrite E1, E2. by apply diff_loop_spec.
Qed.

(** ** Inserting *)

(** The rightmost path has not been hashed. *)
Inductive live : StackTrie → Prop :=
| live_leaf key val : live (newLeaf o key val w)
| live_ext key c : live c → live (newExt o key (Some c) w)
| live_branch cs i c :
    cs !! i = Some (Some c) → (∀ j d, cs !! j = Some (Some d) → (j <= i)%nat) → live c →
    live (mkST o branchNode [] [] cs w).

Lemma elder_spec cs : ∀ idx i e, elder idx cs = Some (i, e) → (i < idx)%nat ∧ cs !! i = Some (Some e).
Proof.
  induction cs as [|c cs IH]; intros [|idx] i e; simpl; try done.
  destruct (elder idx cs) as [[j d]|] eqn:E.
  - intros [= <- <-]. destruct (IH idx j d E). split; [lia|done].
  - destruct c; [|done]. intros [= <- <-]. split; [lia|done].
Qed.

Lemma update_kid_spec f cs : ∀ i c c' log,
  cs !! i = Some c → f c = Ok (c', log) → update_kid f cs i = Ok (<[i := Some c']> cs, log).
Proof.
  induction cs as [|d cs IH]; intros [|i] c c' log Ec Ef; simplify_eq/=.
  - rewrite Ef. done.
  - fold (update_kid f). rewrite (IH i c c' log) by done. done.
Qed.

Lemma set_kid_Ok cs x c :
  length cs = 16%nat → 0 <= x < 16 → set_kid cs x c = Ok (<[Z.to_nat x := Some c]> cs).
Proof.
  intros Hl Hx. unfold set_kid. rewrite Hl.
  by rewrite (proj2 (Z.leb_le 0 x)), (proj2 (Z.ltb_lt x _)) by lia.
Qed.

(** What an insertion of [key] leaves. *)
Definition inserted (st : StackTrie) (p : list byte) (t : tree) (key v : list byte)
    (log : list write) : Prop :=
  ∀ log1, log ⊆ log1 →
  ∃ st' log' t', st_insert st key v p log1 = Ok (st', log') ∧ log1 ⊆ log' ∧
    strepr log' p st' t' ∧ twf t' ∧ live st' ∧ updated (key ++ [16]) (Some v) t t' ∧
    (is_full t → is_full t').

(** The branch of two diverging keys. *)
Lemma strepr_branch log p x n c y m d :
  0 <= x < 16 → 0 <= y < 16 → x ≠ y → strepr log (p ++ [x]) n c → strepr log (p ++ [y]) m d →
  strepr log p (mkST o branchNode [] [] (<[Z.to_nat y := Some m]> (<[Z.to_nat x := Some n]> no_kids)) w)
    (TFull (branch x c y d)).
Proof.
  intros Hx Hy Hxy Hn Hm.
  assert (branch x c y d = <[Z.to_nat y := d]> (<[Z.to_nat x := c]> (replicate 16 TNil)) ++ [TNil]) as ->.
  { unfold branch. change (replicate 17 TNil) with (replicate 16 TNil ++ [TNil]).
    rewrite insert_app_l, insert_app_l; [done|..];
      rewrite ?length_insert, ?length_app, length_replicate; lia. }
  apply sr_branch; [by rewrite !length_insert..| |].
  - intros i e t Ee Et.
    apply list_lookup_insert_Some in Ee as [(<- & [= <-] & _)|[Hne Ee]].
    { rewrite list_lookup_insert_eq in Et by (rewrite length_insert, length_replicate; lia).
      injection Et as <-. by rewrite Z2Nat.id by lia. }
    rewrite list_lookup_insert_ne in Et by done.
    apply list_lookup_insert_Some in Ee as [(<- & [= <-] & _)|[Hne' Ee]].
    { rewrite list_lookup_insert_eq in Et by (rewrite length_replicate; lia).
      injection Et as <-. by rewrite Z2Nat.id by lia. }
    by apply lookup_replicate in Ee as [? _].
  - intros i t Ee Et. apply list_lookup_insert_Some in Ee as [(_ & ? & _)|[Hne Ee]]; [done|].
    apply list_lookup_insert_Some in Ee as [(_ & ? & _)|[Hne' Ee]]; [done|].
    rewrite !list_lookup_insert_ne in Et by done. by apply lookup_replicate in Et as [-> _].
Qed.

(** A branch below the common part of the keys. *)
Definition branched (c : list byte) (b : StackTrie) : StackTrie :=
  match c with [] => b | _ => newExt o c (Some b) w end.

Definition branch2 (x : Z) (n : StackTrie) (y : Z) (m : StackTrie) : StackTrie :=
  mkST o branchNode [] [] (<[Z.to_nat y := Some m]> (<[Z.to_nat x := Some n]> no_kids)) w.

Lemma with_branch_spec st c x r0 y n m :
  st_owner st = o → st_writer st = w → st_key st = c ++ x :: r0 →
  <[0%nat := None]> (st_children st) = no_kids → 0 <= x < 16 → 0 <= y < 16 →
  with_branch st [] (length c) x y n m = Ok (branched c (branch2 x n y m)).
Proof.
  intros Ho Hw Hk Hcs Hx Hy. unfold with_branch. rewrite Hk, take_app_length.
  destruct c as [|z c]; cbn [length Nat.eqb].
  - rewrite Hcs, set_kid_Ok by by rewrite ?length_insert. cbn [mbind res_bind].
    rewrite set_kid_Ok by by rewrite ?length_insert. cbn [mbind res_bind]. unfold set_kids. by rewrite Ho, Hw.
  - cbn [newBranch st_children set_kids]. rewrite set_kid_Ok by by rewrite ?length_insert. cbn [mbind res_bind].
    rewrite set_kid_Ok by by rewrite ?length_insert. cbn [mbind res_bind]. unfold set_kids. rewrite Ho, Hw.
    assert (∀ b, <[0%nat := b]> (st_children st) = <[0%nat := b]> no_kids) as ->; [|done].
    intros b. by rewrite <- Hcs, list_insert_insert_eq.
Qed.

Lemma split_spec log p c x r0 t y s v n :
  twf (TShort (c ++ x :: r0) t) → nibbles_ok (c ++ y :: s) → val_ok v → 0 <= x < y →
  strepr log (p ++ c ++ [x]) n (sub r0 t) →
  let st' := branched c (branch2 x n y (newLeaf o s v w)) in
  let t' := sub c (TFull (branch x (sub r0 t) y (sub (s ++ [16]) (TValue v)))) in
  strepr log p st' t' ∧ twf t' ∧ live st' ∧
  updated ((c ++ y :: s) ++ [16]) (Some v) (TShort (c ++ x :: r0) t) t'.
Proof.
  intros Ht [Hc [Hy Hs]%Forall_cons]%Forall_app Hv Hx Hn.
  apply child_ok_split in Ht as [_ Hxc].
  assert (key_ok (y :: s ++ [16])) as Hkey by (exists (y :: s); by split; [constructor|]).
  pose proof (child_ok_leaf y (s ++ [16]) v Hkey Hv) as Hyc.
  assert (strepr log (p ++ c) (branch2 x n y (newLeaf o s v w))
    (TFull (branch x (sub r0 t) y (sub (s ++ [16]) (TValue v))))) as Hb.
  { apply strepr_branch; [lia|lia|lia|by rewrite <- app_assoc|].
    assert (sub (s ++ [16]) (TValue v) = TShort (s ++ [16]) (TValue v)) as -> by by destruct s.
    constructor. }
  assert (live (branch2 x n y (newLeaf o s v w))) as Hlive.
  { apply (live_branch _ (Z.to_nat y) (newLeaf o s v w)).
    - apply list_lookup_insert_eq. unfold no_kids. rewrite length_insert, length_replicate. lia.
    - intros j d Ej. apply list_lookup_insert_Some in Ej as [(<- & _ & _)|[_ Ej]]; [lia|].
      apply list_lookup_insert_Some in Ej as [(<- & _ & _)|[_ Ej]]; [lia|].
      by apply lookup_replicate in Ej as [? _].
    - constructor. }
  split_and!.
  - destruct c; [by rewrite app_nil_r in Hb|]. by constructor.
  - apply twf_sub_full; [done|]. apply twf_branch; [lia|done|done].
  - destruct c; [done|]. by constructor.
  - rewrite <- app_assoc. simpl. apply updated_split; lia.
Qed.

Lemma drop_mid (c r : list byte) x : drop (S (length c)) (c ++ x :: r) = r.
Proof. by rewrite <- Nat.add_1_r, <- drop_drop, drop_app_length. Qed.

Lemma take_mid (c r : list byte) x : take (S (length c)) (c ++ x :: r) = c ++ [x].
Proof. rewrite <- Nat.add_1_r, <- take_take_drop, take_app_length, drop_app_length. done. Qed.

Lemma hashRec_at log p st t log1 :
  strepr log p st t → twf t → bounded t → log ⊆ log1 →
  ∃ st' log', hashRec st p log1 = Ok (st', log') ∧ log1 ⊆ log' ∧ strepr log' p st' t.
Proof.
  intros Hs Ht Hb Hl. destruct (hashRec_spec log p st t Hs Ht Hb log1 Hl) as (st' & log' & E & Hty & Hv & Hl' & Hlog).
  exists st', log'. split_and!; [done|done|]. by apply sr_hashed.
Qed.

Lemma bounded_sub c x r t : bounded (TShort (c ++ x :: r) t) → bounded (sub r t).
Proof.
  intros Hb q v E. rewrite tget_sub in E. specialize (Hb (c ++ x :: q) v).
  rewrite tget_short_app, tget_short, tget_short_cons, decide_True in Hb by done.
  specialize (Hb E). rewrite length_app in Hb. simpl in Hb. lia.
Qed.

Lemma insert_leaf p k0 v0 key v log :
  twf (TShort (k0 ++ [16]) (TValue v0)) → bounded (TShort (k0 ++ [16]) (TValue v0)) → nibbles_ok key →
  before (TShort (k0 ++ [16]) (TValue v0)) key → val_ok v →
  inserted (newLeaf o k0 v0 w) p (TShort (k0 ++ [16]) (TValue v0)) key v log.
Proof.
  intros Ht Hbd Hk Hb Hv log1 Hl.
  destruct (diff_split k0 key) as (c & a & b & -> & -> & Ediff & Hab).
  { intros a. destruct a as [|z a]; [by right|left]. intros ->. rewrite <- app_assoc in *.
    by eapply before_not_prefix. }
  destruct Hab as [->|(x & y & r & s & -> & -> & Hxy)].
  { rewrite app_nil_r in *. exfalso. destruct (twf_inhabited _ Ht) as (q & v' & E). pose proof (Hb q v' E) as Hd.
    apply tget_short_inv in E as (q' & -> & _). rewrite <- app_assoc in Hd. apply diverge_app in Hd.
    apply Forall_app in Hk as [_ Ha]. destruct a as [|z a]; [by eapply diverge_nil|].
    apply Forall_cons in Ha as [Hz _]. apply diverge_head in Hd as [?|[? _]]; lia. }
  assert ((c ++ x :: r) ++ [16] = c ++ x :: r ++ [16]) as Er by by rewrite <- app_assoc.
  rewrite Er in *. assert (x < y) by by eapply before_split.
  pose proof (proj2 (child_ok_split _ _ _ _ Ht)) as (_ & Hx & _ & Hw).
  assert (x ≠ 16) by (apply Forall_app in Hk as [_ [? _]%Forall_cons]; lia).
  destruct (hashRec_at log1 (p ++ c ++ [x]) (newLeaf o r v0 w) (sub (r ++ [16]) (TValue v0)) log1) as
    (n & log' & En & Hl' & Hn); [by destruct r; constructor|auto|by eapply bounded_sub|done|].
  eexists _, log', _. split; [|split; [done|]].
  2: { destruct (split_spec log' p c x (r ++ [16]) (TValue v0) y s v n) as (Hs1 & Ht1 & Hl1 & Hu1);
         [done|done|done|lia|done|]. split_and!; [exact Hs1|done|done|done|done]. }
  cbn [st_insert newLeaf st_nodeType]. unfold getDiffIndex. cbn [st_key]. rewrite Ediff. cbn [mbind res_bind].
  rewrite (proj2 (Nat.leb_gt _ _)) by (simpl; rewrite length_app; simpl; lia).
  unfold split_leaf. cbn [newLeaf st_key st_owner st_val st_writer].
  rewrite !go_index_mid. cbn [mbind res_bind]. rewrite !drop_mid, take_mid, En. cbn [mbind res_bind].
  rewrite (with_branch_spec _ c x r) by (done || (apply Forall_app in Hk as [_ [? _]%Forall_cons]; lia)).
  done.
Qed.

(** The child of a split extension. *)
Lemma ext_rest log p c x r ts cn log1 :
  strepr log (p ++ c ++ x :: r) cn (TFull ts) → twf (TShort (c ++ x :: r) (TFull ts)) →
  bounded (TShort (c ++ x :: r) (TFull ts)) → 0 <= x < 16 → log ⊆ log1 →
  ∃ n log', (if (length c <? length (c ++ x :: r) - 1)%nat then
       hashRec (newExt o r (Some cn) w) (p ++ c ++ [x]) log1
     else n ← deref (Some cn); hashRec n (p ++ c ++ x :: r) log1) = Ok (n, log') ∧ log1 ⊆ log' ∧
    strepr log' (p ++ c ++ [x]) n (sub r (TFull ts)).
Proof.
  intros Hc Ht Hb Hx Hl. pose proof (proj2 (child_ok_split _ _ _ _ Ht)) as (_ & _ & _ & Hw).
  apply bounded_sub in Hb. rewrite length_app. simpl length.
  destruct r as [|z r].
  - rewrite (proj2 (Nat.ltb_ge _ _)) by (simpl; lia). simpl deref. cbn [mbind res_bind].
    apply (hashRec_at log); [done|apply Hw; lia|done|done].
  - rewrite (proj2 (Nat.ltb_lt _ _)) by (simpl; lia).
    apply (hashRec_at log); [|apply Hw; lia|done|done]. simpl sub. constructor.
    by rewrite <- !app_assoc.
Qed.

Lemma insert_ext p k0 cn ts key v log :
  strepr log (p ++ k0) cn (TFull ts) →
  (∀ a, key = k0 ++ a → inserted cn (p ++ k0) (TFull ts) a v log) →
  twf (TShort k0 (TFull ts)) → bounded (TShort k0 (TFull ts)) → nibbles_ok key →
  before (TShort k0 (TFull ts)) key → val_ok v →
  inserted (newExt o k0 (Some cn) w) p (TShort k0 (TFull ts)) key v log.
Proof.
  intros Hc IH Ht Hbd Hk Hb Hv log1 Hl.
  destruct (diff_split k0 key) as (c & a & b & -> & -> & Ediff & Hab).
  { intros a. destruct a as [|z a]; [by right|left]. intros ->. by eapply before_not_prefix. }
  destruct Hab as [->|(x & y & r & s & -> & -> & Hxy)].
  - rewrite app_nil_r in *. destruct (IH a eq_refl log1 Hl) as (st' & log' & t' & E & Hl' & Hs & Hw & Hlv & Hu & Hf).
    destruct t' as [| |? ?|ts']; [by destruct (Hf I)..|].
    exists (newExt o c (Some st') w), log', (TShort c (TFull ts')). split_and!; [|done|by constructor| | | |done].
    + cbn [st_insert newExt st_nodeType]. unfold getDiffIndex. cbn [st_key]. rewrite Ediff. cbn [mbind res_bind newExt st_key].
      rewrite Nat.eqb_refl, drop_app_length, take_app_length.
      rewrite (update_kid_spec _ _ 0 (Some cn) st' log') by done. done.
    + inversion Ht; subst. by constructor.
    + by constructor.
    + rewrite <- app_assoc. by apply updated_short.
  - assert (x < y) by by eapply before_split.
    pose proof (proj2 (child_ok_split _ _ _ _ Ht)) as (_ & Hx & _ & _).
    assert (0 <= y < 16) by by apply Forall_app in Hk as [_ [? _]%Forall_cons].
    destruct (ext_rest log p c x r ts cn log1) as (n & log' & En & Hl' & Hn); [done|done|done|lia|done|].
    eexists _, log', _. split; [|split; [done|]].
    2: { destruct (split_spec log' p c x r (TFull ts) y s v n) as (Hs1 & Ht1 & Hl1 & Hu1);
           [done|done|done|lia|done|]. split_and!; [exact Hs1|done|done|done|done]. }
    cbn [st_insert newExt st_nodeType]. unfold getDiffIndex. cbn [st_key]. rewrite Ediff. cbn [mbind res_bind newExt st_key].
    rewrite (proj2 (Nat.eqb_neq _ _)) by (rewrite length_app; simpl; lia).
    unfold split_ext. cbn [newExt st_key st_owner st_val st_writer st_children].
    assert (go_index (<[0%nat := Some cn]> no_kids) 0 = Ok (Some cn)) as -> by done. cbn [mbind res_bind].
    rewrite !drop_mid, take_mid, En. cbn [mbind res_bind]. rewrite !go_index_mid. cbn [mbind res_bind].
    rewrite (with_branch_spec _ c x r) by (done || lia). done.
Qed.

(** The children of a branch and their trees. *)
Definition kids (log : list write) (p : list byte) (cs : list (option StackTrie)) (ts : list tree) : Prop :=
  length cs = 16%nat ∧ length ts = 16%nat ∧
  (∀ i c t, cs !! i = Some (Some c) → ts !! i = Some t → strepr log (p ++ [Z.of_nat i]) c t) ∧
  (∀ i t, cs !! i = Some None → ts !! i = Some t → t = TNil).

Lemma kids_mono log log' p cs ts : log ⊆ log' → kids log p cs ts → kids log' p cs ts.
Proof.
  intros Hl (Lc & Lt & Hr & Hn). split_and!; [done|done| |done]. intros i c t Ec Et.
  eapply strepr_mono; [done|by eapply Hr].
Qed.

Lemma kids_insert log p cs ts i c t :
  kids log p cs ts → strepr log (p ++ [Z.of_nat i]) c t →
  kids log p (<[i := Some c]> cs) (<[i := t]> ts).
Proof.
  intros (Lc & Lt & Hr & Hn) Hc. split_and!; [by rewrite length_insert..| |].
  - intros j d t' Ed Et. apply list_lookup_insert_Some in Ed as [(-> & [= <-] & ?)|[Hne Ed]].
    + rewrite list_lookup_insert_eq in Et by lia. by injection Et as <-.
    + rewrite list_lookup_insert_ne in Et by done. by eapply Hr.
  - intros j t' Ed Et. apply list_lookup_insert_Some in Ed as [(-> & ? & _)|[Hne Ed]]; [done|].
    rewrite list_lookup_insert_ne in Et by done. by eapply Hn.
Qed.

(** The elder sibling of the child on the path is hashed in place. *)
Lemma hash_elder_spec log p cs ts idx log1 :
  kids log p cs ts → twf (TFull (ts ++ [TNil])) → bounded (TFull (ts ++ [TNil])) → log ⊆ log1 →
  ∃ e log', hash_elder p idx cs log1 = Ok (e, log') ∧ log1 ⊆ log' ∧
    match e with
    | None => True
    | Some (i, e) => (i < idx)%nat ∧ ∃ t, ts !! i = Some t ∧ strepr log' (p ++ [Z.of_nat i]) e t
    end.
Proof.
  intros (Lc & Lt & Hr & Hn) Hw Hb Hl. unfold hash_elder.
  destruct (elder idx cs) as [[i e]|] eqn:E; [|by exists None, log1].
  apply elder_spec in E as [Hi Ee].
  destruct (lookup_lt_is_Some_2 ts i) as [t Et]; [rewrite Lt, <- Lc; by eapply lookup_lt_Some|].
  pose proof (Hr i e t Ee Et) as He.
  destruct (hashRec_at log (p ++ [Z.of_nat i]) e t log1) as (e' & log' & Eh & Hl' & He'); [done| | |done|].
  { eapply twf_branch_child; [done|done|done|by eapply strepr_not_nil]. }
  { eapply bounded_full; [done|by apply lookup_app_l_Some]. }
  destruct (st_nodeType e) eqn:Ety; try (by exists None, log1); rewrite Eh;
    (exists (Some (i, e')), log'; split; [done|]; split; [done|]; split; [done|]; by exists t).
Qed.

(** No child lies after the one on the path of a key that comes after all others. *)
Lemma kids_last log p cs ts x key j d :
  kids log p cs ts → twf (TFull (ts ++ [TNil])) → before (TFull (ts ++ [TNil])) (x :: key) →
  cs !! j = Some (Some d) → (j <= Z.to_nat x)%nat.
Proof.
  intros (Lc & Lt & Hr & _) Hw Hb Ed.
  destruct (lookup_lt_is_Some_2 ts j) as [t Et]; [rewrite Lt, <- Lc; by eapply lookup_lt_Some|].
  assert (twf t) as Htw.
  { eapply twf_branch_child; [done|done|done|]. eapply strepr_not_nil. by eapply Hr. }
  destruct (twf_inhabited t Htw) as (q & v & E).
  destruct (diverge_head (Z.of_nat j) q x key) as [?|[? _]]; [|lia|lia].
  apply (Hb _ v). rewrite (tget_full_nat _ _ t); [done|by apply lookup_app_l_Some].
Qed.

Lemma elder_placed log p cs ts x c e :
  kids log p cs ts → cs !! x = Some (Some c) → (∀ j d, cs !! j = Some (Some d) → (j <= x)%nat) →
  match e with
  | None => True
  | Some (i, e) => (i < x)%nat ∧ ∃ t, ts !! i = Some t ∧ strepr log (p ++ [Z.of_nat i]) e t
  end →
  let cs' := match e with Some (i, e) => <[i := Some e]> cs | None => cs end in
  kids log p cs' ts ∧ cs' !! x = Some (Some c) ∧ ∀ j d, cs' !! j = Some (Some d) → (j <= x)%nat.
Proof.
  intros Hk Hx Hlast He. destruct e as [[i e]|]; [|done]. destruct He as (Hi & t & Et & He).
  split_and!.
  - rewrite <- (list_insert_id ts i t Et). by apply kids_insert.
  - by rewrite list_lookup_insert_ne by lia.
  - intros j d Ej. apply list_lookup_insert_Some in Ej as [(<- & _ & _)|[_ Ej]]; [lia|by eapply Hlast].
Qed.

Lemma insert_branch p cs ts key v log :
  kids log p cs ts →
  (∀ x a c t, key = x :: a → cs !! Z.to_nat x = Some (Some c) → ts !! Z.to_nat x = Some t →
     inserted c (p ++ [x]) t a v log) →
  twf (TFull (ts ++ [TNil])) → bounded (TFull (ts ++ [TNil])) → nibbles_ok key →
  before (TFull (ts ++ [TNil])) key → val_ok v →
  inserted (mkST o branchNode [] [] cs w) p (TFull (ts ++ [TNil])) key v log.
Proof.
  intros Hk IH Hw Hbd Hkey Hb Hv log1 Hl. destruct key as [|x key].
  { destruct (twf_inhabited _ Hw) as (q & v' & E). by destruct (diverge_nil q (Hb q v' E)). }
  apply Forall_cons in Hkey as [Hx Hkey]. pose proof Hk as (Lc & Lt & Hr & Hn).
  destruct (hash_elder_spec log p cs ts (Z.to_nat x) log1) as (e & log2 & Ee & Hl2 & He); [done..|].
  destruct (lookup_lt_is_Some_2 cs (Z.to_nat x)) as [c Ec]; [lia|].
  destruct (lookup_lt_is_Some_2 ts (Z.to_nat x)) as [t Et]; [lia|].
  assert (∃ c' log' t', match c with None => Ok (newLeaf o key v w, log2)
      | Some c => st_insert c key v (p ++ [x]) log2 end = Ok (c', log') ∧ log2 ⊆ log' ∧
      strepr log' (p ++ [x]) c' t' ∧ twf t' ∧ live c' ∧ updated (key ++ [16]) (Some v) t t') as
      (c' & log' & t' & Ei & Hl' & Hc' & Hw' & Hlive & Hu).
  { destruct c as [c|].
    - destruct (IH x key c t eq_refl Ec Et log2) as (st' & log' & t' & E & ? & ? & ? & ? & ? & _);
        [by etrans|]. by exists st', log', t'.
    - rewrite (Hn _ _ Ec Et). exists (newLeaf o key v w), log2, (TShort (key ++ [16]) (TValue v)).
      split_and!; [done|done|constructor|constructor; [by exists key|done]|constructor|].
      assert (TShort (key ++ [16]) (TValue v) = sub (key ++ [16]) (TValue v)) as -> by by destruct key.
      apply updated_nil. }
  assert (kids log' p (<[Z.to_nat x := Some c']> cs) (<[Z.to_nat x := t']> ts)) as Hk'.
  { apply kids_insert; [|by rewrite Z2Nat.id by lia]. eapply kids_mono; [|done]. by do 2 etrans. }
  set (cs' := match e with Some (i, e) => <[i := Some e]> (<[Z.to_nat x := Some c']> cs)
              | None => <[Z.to_nat x := Some c']> cs end).
  assert (kids log' p cs' (<[Z.to_nat x := t']> ts) ∧ cs' !! Z.to_nat x = Some (Some c') ∧
    ∀ j d, cs' !! j = Some (Some d) → (j <= Z.to_nat x)%nat) as (Hk2 & Hx2 & Hlast2).
  { apply elder_placed; [done|by apply list_lookup_insert_eq; lia| |].
    - intros j d Ej. apply list_lookup_insert_Some in Ej as [(<- & _ & _)|[_ Ej]]; [done|].
      by eapply (kids_last log p cs ts x key j d).
    - destruct e as [[i e]|]; [|done]. destruct He as (Hi & t0 & Ei0 & He). split; [done|].
      exists t0. split; [by rewrite list_lookup_insert_ne by lia|]. by eapply strepr_mono. }
  exists (mkST o branchNode [] [] cs' w), log', (TFull (<[Z.to_nat x := t']> ts ++ [TNil])).
  split_and!; [|by do 2 etrans| | | | |done].
  - cbn [st_insert st_nodeType]. assert (go_index (x :: key) 0 = Ok x) as -> by done.
    cbn [mbind res_bind st_children]. rewrite Ee. cbn [mbind res_bind st_owner st_writer drop].
    rewrite (update_kid_spec _ _ _ c c' log') by done. done.
  - by apply sr_branch; apply Hk2.
  - rewrite <- insert_app_l by lia. apply twf_full_insert; [done|].
    split_and!; [by apply twf_not_nil|lia|lia|lia|done].
  - by eapply live_branch.
  - rewrite <- insert_app_l by lia. apply (updated_full _ _ _ _ t); [lia| |done]. by apply lookup_app_l_Some.
Qed.

Theorem insert_ordered log p st t key v :
  strepr log p st t → live st → twf t → bounded t → nibbles_ok key → before t key → val_ok v →
  inserted st p t key v log.
Proof.
  intros Hs. revert key. induction Hs as [p k0 v0|p k0 c ts Hc IH|p cs ts Lc Lt Hr IH Hn|p st t _ Hty _ _];
    intros key Hl Hw Hb Hk Hbf Hv.
  - by apply insert_leaf.
  - inversion Hl as [|? ? Hlc|]; subst. inversion Hw; subst. apply insert_ext; [done| |done..].
    intros a ->. apply Forall_app in Hk as [_ Ha].
    apply IH; [done|done|by eapply bounded_short|done|by eapply before_short|done].
  - inversion Hl as [| |? i c Ei Hlast Hlc]; subst. apply insert_branch; [done| |done..].
    intros x a d t -> Ed Et. apply Forall_cons in Hk as [Hx Ha].
    assert (Z.of_nat (Z.to_nat x) = x) as Ex by lia.
    assert (Z.to_nat x = i) as Ei2.
    { apply Nat.le_antisymm; [by eapply Hlast|]. by eapply (kids_last log p cs ts x a i c). }
    subst i. rewrite Ed in Ei. injection Ei as <-.
    assert ((ts ++ [TNil]) !! Z.to_nat x = Some t) as Et' by by apply lookup_app_l_Some.
    rewrite <- Ex at 1. apply (IH _ _ _ Ed Et); [done| | |done| |done].
    + eapply twf_branch_child; [done|done|done|]. eapply strepr_not_nil. by eapply Hr.
    + by eapply bounded_full.
    + eapply before_full; [|done]. by rewrite Ex.
  - by destruct Hl.
Qed.

(** ** Sequences of updates *)

(** The calls of [Update] on one stack trie. *)
Fixpoint st_updates (st : StackTrie) (kvs : list (list byte * list byte)) (log : list write)
  : res (StackTrie * list write) :=
  match kvs with
  | [] => Ok (st, log)
  | (key, value) :: kvs => '(st, log) ← st_Update st key value log; st_updates st kvs log
  end.

(** A stack trie that takes updates, and the map it stands for. *)
Definition st_holds (st : StackTrie) (log : list write) (m : kvmap) : Prop :=
  ∃ t, (t = TNil ∧ st = NewStackTrieWithOwner w o ∨ strepr log [] st t ∧ live st ∧ twf t) ∧
    bounded t ∧ maps t m.

(** Updates a Go program can hold in memory. *)
Definition kv_ok (kv : list byte * list byte) : Prop :=
  bytes_ok (fst kv) ∧ val_ok (snd kv) ∧ Z.of_nat (length (fst kv) + length (snd kv)) < 2 ^ 56.

(** Keys in increasing order, none of them a prefix of another. *)
Definition key_before (kv kv' : list byte * list byte) : Prop := diverge_lt (fst kv) (fst kv').

Lemma nibbles_diverge a b :
  bytes_ok a → bytes_ok b → diverge_lt a b → diverge_lt (keybytesToHex a) (nibbles_of b).
Proof.
  intros Ha Hb (c & x & y & r & s & -> & -> & Hxy). unfold keybytesToHex, nibbles_of.
  apply Forall_app in Ha as [_ [Hx _]%Forall_cons], Hb as [_ [Hy _]%Forall_cons].
  rewrite !flat_map_app. simpl. rewrite <- !app_assoc. simpl.
  destruct (Z.lt_trichotomy (x / 16) (y / 16)) as [Hlt|[Heq|Hgt]].
  - by eexists _, _, _, _, _.
  - rewrite Heq. exists (flat_map (λ b, [b / 16; b mod 16]) c ++ [y / 16]), (x mod 16), (y mod 16).
    eexists _, _. split_and!; [by rewrite <- app_assoc|by rewrite <- app_assoc|].
    pose proof (Z.div_mod x 16). pose proof (Z.div_mod y 16). lia.
  - pose proof (Z.div_le_mono x y 16). lia.
Qed.

Lemma st_Update_holds st log m key value :
  st_holds st log m → kv_ok (key, value) → (∀ k v, m !! k = Some v → diverge_lt k key) →
  ∃ st' log', st_Update st key value log = Ok (st', log') ∧ st_holds st' log' (<[key := value]> m).
Proof.
  intros (t & Hst & Hb & Hm) (Hk & Hv & Hl) Hord. simpl in *.
  assert (∀ t', updated (keybytesToHex key) (Some value) t t' → bounded t' ∧ maps t' (<[key := value]> m)) as Hup.
  { intros t' Hu. split; [|by apply (maps_updated t)]. intros q v E. rewrite Hu in E.
    case_decide; [|by apply Hb]. subst. injection E as <-.
    unfold keybytesToHex. rewrite length_app, nibbles_of_length. simpl. lia. }
  assert (drop_last (keybytesToHex key) = nibbles_of key) as Edl by apply drop_last_keybytes.
  pose proof Hv as [Hne _]. unfold st_Update. destruct value as [|z value]; [done|]. rewrite Edl.
  destruct Hst as [[-> ->]|(Hs & Hlv & Hw)].
  - eexists _, log. split; [done|]. exists (TShort (keybytesToHex key) (TValue (z :: value))).
    split; [right; split_and!|apply Hup].
    + apply (sr_leaf log [] (nibbles_of key) (z :: value)).
    + apply (live_leaf (nibbles_of key) (z :: value)).
    + constructor; [by apply keybytesToHex_key_ok|done].
    + pose proof (updated_nil (keybytesToHex key) (z :: value)) as Hu.
      pose proof (key_ok_not_nil _ (keybytesToHex_key_ok key Hk)). by destruct (keybytesToHex key).
  - destruct (insert_ordered log [] st t (nibbles_of key) (z :: value)) with (log1 := log) as
      (st' & log' & t' & E & _ & Hs' & Hw' & Hl' & Hu & _); [done|done|done|done| | |done|done|].
    + by apply nibbles_of_ok.
    + intros q v E. apply Hm in E as (k & Hk' & -> & E). by apply nibbles_diverge; [..|eapply Hord].
    + exists st', log'. split; [done|]. exists t'. split; [by right|]. by apply Hup.
Qed.

Lemma st_updates_holds kvs : ∀ st log m,
  st_holds st log m → Forall kv_ok kvs → StronglySorted key_before kvs →
  (∀ k v kv, m !! k = Some v → kv ∈ kvs → diverge_lt k (fst kv)) →
  ∃ st' log', st_updates st kvs log = Ok (st', log') ∧ st_holds st' log' (list_to_map (reverse kvs) ∪ m).
Proof.
  induction kvs as [|[key value] kvs IH]; intros st log m Hst Hok Hs Hord.
  { exists st, log. split; [done|]. rewrite reverse_nil. cbn [list_to_map foldr]. by rewrite map_empty_union. }
  apply Forall_cons in Hok as [Hkv Hok]. inversion Hs as [|? ? Hs' Hkb]; subst.
  destruct (st_Update_holds st log m key value) as (st1 & log1 & E1 & Hst1);
    [done|done|intros k v Ek; apply (Hord k v (key, value) Ek); set_solver|].
  destruct (IH st1 log1 (<[key := value]> m)) as (st2 & log2 & E2 & Hst2); [done|done|done| |].
  { intros k v kv Ek Hin. rewrite lookup_insert in Ek. case_decide; [subst|].
    - rewrite Forall_forall in Hkb. apply (Hkb kv Hin).
    - apply (Hord k v kv Ek). set_solver. }
  exists st2, log2. cbn [st_updates]. rewrite E1. cbn [mbind res_bind]. split; [done|].
  rewrite reverse_cons, list_to_map_app. rewrite <- map_union_assoc.
  assert (list_to_map [(key, value)] ∪ m = <[key := value]> m) as ->; [|done].
  cbn [list_to_map foldr]. by rewrite insert_empty, insert_union_singleton_l.
Qed.

Lemma diverge_irrefl k : ¬ diverge_lt k k.
Proof. intros (c & x & y & r & s & -> & E & Hxy). apply app_inv_head in E. injection E as -> _. lia. Qed.

Lemma sorted_NoDup kvs : StronglySorted key_before kvs → NoDup kvs.*1.
Proof.
  induction 1 as [|kv kvs _ IH Hk]; [by constructor|]. simpl. constructor; [|done].
  intros (kv' & E & Hin)%list_elem_of_fmap. rewrite Forall_forall in Hk. specialize (Hk kv' Hin).
  unfold key_before in Hk. rewrite E in Hk. by apply diverge_irrefl in Hk.
Qed.

(** Updates in order from an empty stack trie. *)
Lemma st_updates_new kvs log0 :
  Forall kv_ok kvs → StronglySorted key_before kvs →
  ∃ st log, st_updates (NewStackTrieWithOwner w o) kvs log0 = Ok (st, log) ∧
    st_holds st log (list_to_map kvs).
Proof.
  intros Hok Hs. destruct (st_updates_holds kvs (NewStackTrieWithOwner w o) log0 ∅) as (st & log & E & Hst).
  - exists TNil. split_and!; [by left|by intros ? ?|by apply maps_nil].
  - done.
  - done.
  - intros k v kv Ek. by rewrite lookup_empty in Ek.
  - exists st, log. split; [done|]. rewrite map_union_empty in Hst.
    by rewrite (list_to_map_proper kvs (reverse kvs)) by (by rewrite ?reverse_Permutation || by apply sorted_NoDup).
Qed.

Lemma be_value_digest data : be_value (Keccak256 data) = BytesToHash (Keccak256 data).
Proof.
  unfold BytesToHash, crop_left. replace HashLength with (length (Keccak256 data)) by by rewrite Keccak256_length.
  by rewrite Nat.sub_diag, drop_0.
Qed.

Lemma hashRec_owner st p log st' log' : hashRec st p log = Ok (st', log') → st_owner st' = st_owner st.
Proof.
  assert (∀ enc ks l l', finish_hash st p enc ks l = (st', l') → st_owner st' = st_owner st) as Hf.
  { intros enc ks l l'. unfold finish_hash. case_match; by intros [= <- _]. }
  destruct st as [ow ty val key cs wr]. cbn [hashRec st_nodeType]. destruct ty.
  - by intros [= <- _].
  - destruct (hash_kids hashRec p 0 _ log) as [[ns l]|]; [|done]. intros [= E]. by eapply Hf.
  - cbn [st_children st_key]. destruct cs as [|[c|] cs]; try done.
    destruct (hashRec c _ log) as [[c' l]|]; [|done]. cbn [mbind res_bind].
    destruct (hexToCompact key); [|done]. intros [= E]. by eapply Hf.
  - destruct (hexToCompact _); [|done]. intros [= E]. by eapply Hf.
  - by intros [= <- _].
Qed.

(** What [hashRec] at the root makes of a stack trie. *)
Lemma st_holds_hash st log m :
  st_holds st log m → ∃ t st' log', root_wf t ∧ bounded t ∧ maps t m ∧
    hashRec st [] log = Ok (st', log') ∧ log ⊆ log' ∧
    (t = TNil ∧ st_val st' = Hash_Bytes EmptyRootHash ∨
     twf t ∧ st_val st' = hval t ∧ logged log' [] t) ∧
    st_writer st = w ∧ st_owner st' = o.
Proof.
  intros (t & Hst & Hb & Hm). exists t. destruct Hst as [[-> ->]|(Hs & Hl & Hw)].
  - eexists _, log. split_and!; [by intros []|done..|by left|done|done].
  - destruct (hashRec_spec log [] st t Hs Hw Hb log) as (st' & log' & E & Hty & Hv & Hl' & Hlog); [done|].
    exists st', log'. split_and!; [by intros _|done..|by right|by destruct Hl|].
    rewrite (hashRec_owner _ _ _ _ _ E). by destruct Hl.
Qed.

Lemma st_root_hash t val :
  t = TNil ∧ val = Hash_Bytes EmptyRootHash ∨ twf t ∧ val = hval t →
  (if (length val =? 32)%nat then be_value val else be_value (Keccak256 val))
  = BytesToHash (troot (Hash_Bytes EmptyRootHash) t).
Proof.
  intros [[-> ->]|[Ht ->]]; [done|]. rewrite troot_node by by apply twf_not_nil. unfold hval.
  destruct (Nat.ltb_spec (length (tenc t)) 32).
  - rewrite (proj2 (Nat.eqb_neq _ _)) by lia. apply be_value_digest.
  - rewrite Keccak256_length. apply be_value_digest.
Qed.

Lemma st_holds_Hash st log m :
  st_holds st log m → ∃ t st' log', root_wf t ∧ bounded t ∧ maps t m ∧
    st_Hash st log = Ok (BytesToHash (troot (Hash_Bytes EmptyRootHash) t), st', log').
Proof.
  intros (t & st' & log' & Hw & Hb & Hm & E & _ & Hv & _)%st_holds_hash.
  exists t, st', log'. split_and!; [done..|]. unfold st_Hash. rewrite E. cbn [mbind res_bind].
  rewrite <- (st_root_hash t (st_val st')) by naive_solver. by case_match.
Qed.

(** The writes of a commit hold every node the root needs. *)
Lemma st_holds_Commit st log m :
  st_holds st log m → w = true → ∃ t st' log', root_wf t ∧ bounded t ∧ maps t m ∧
    st_Commit st log = Ok (inr (BytesToHash (troot (Hash_Bytes EmptyRootHash) t), st', log')) ∧
    (twf t → node_write [] t ∈ log' ∧ logged log' [] t).
Proof.
  intros (t & st' & log' & Hw & Hb & Hm & E & _ & Hv & Hwr & Hown)%st_holds_hash Hwt.
  unfold st_Commit. rewrite Hwr, Hwt, E. cbn [negb mbind res_bind].
  assert (twf t → st_val st' = hval t ∧ logged log' [] t) as Hlog.
  { destruct Hv as [[-> _]|?]; [by inversion 1|naive_solver]. }
  assert (t = TNil ∧ st_val st' = Hash_Bytes EmptyRootHash ∨ twf t ∧ st_val st' = hval t) as Hcase
    by naive_solver.
  apply st_root_hash in Hcase as Eroot. revert Eroot.
  destruct (Nat.eqb_spec (length (st_val st')) 32) as [L|L]; intros Eroot; rewrite Eroot.
  - exists t, st', log'. split_and!; [done..|]. intros Ht. destruct (Hlog Ht) as [Ev Hlg].
    split; [|done]. apply (Hlg Hwt [] t); [constructor|done|]. rewrite Ev in L. unfold hval in L.
    destruct (Nat.ltb_spec (length (tenc t)) 32); lia.
  - eexists t, st', _. split_and!; [done..|]. intros Ht. destruct (Hlog Ht) as [Ev Hlg].
    assert (st_val st' = tenc t) as Ev2.
    { rewrite Ev in L |- *. unfold hval in *. case_match; [done|]. by rewrite Keccak256_length in L. }
    split.
    + apply elem_of_app. right. rewrite Hown, Ev2, troot_node by by apply twf_not_nil.
      by apply list_elem_of_singleton.
    + intros _ q c Hq Hc Hbig. apply elem_of_app. left. by apply Hlg.
Qed.
End stack.

(** ** The root *)

Section root.
Context `{Crypto}.

(** C11: The stack trie computes the root hash of the trie.  For keys in increasing order,
    none of which is a prefix of another, and non-empty values, every [Update] of a fresh
    stack trie returns, and [Hash] gives the root hash of any trie that holds the same
    map, whether or not nodes are written. *)
Theorem StackTrie_Hash_agrees w owner kvs T :
  Forall kv_ok kvs → StronglySorted key_before kvs → holds T (list_to_map kvs) →
  ∃ st log st' log' h T', st_updates (NewStackTrieWithOwner w owner) kvs [] = Ok (st, log) ∧
    st_Hash st log = Ok (h, st', log') ∧ trie_Hash T = Ok (h, T').
Proof.
  intros Hok Hs HT. destruct (st_updates_new owner w kvs [] Hok Hs) as (st & log & E & Hst).
  destruct (st_holds_Hash owner w st log _ Hst) as (t & st' & log' & Hw & _ & Hm & Eh).
  destruct (holds_Hash T _ HT) as (t2 & T' & _ & Hw2 & _ & Hm2 & Eh2 & _).
  assert (t2 = t) as -> by by eapply maps_inj.
  eexists st, log, st', log', _, T'. exact (conj E (conj Eh Eh2)).
Qed.

(** C28: What the stack trie writes is a complete trie.  After updates in order, [Commit]
    returns the root hash, and any store that returns the written nodes under their owner,
    path and hash lets [New] open that root as a trie that holds the same map. *)
Theorem StackTrie_Commit_opens owner kvs :
  Forall kv_ok kvs → StronglySorted key_before kvs →
  ∃ st log h st' log', st_updates (NewStackTrieWithOwner true owner) kvs [] = Ok (st, log) ∧
    st_Commit st log = Ok (inr (h, st', log')) ∧
    ∀ stateRoot db r, stateRoot ≠ 0 → stateRoot ≠ EmptyRootHash → db stateRoot = inr r →
      (∀ wr, wr ∈ log' → r (w_owner wr) (w_path wr) (w_hash wr) = inr (w_blob wr)) →
      (kvs ≠ [] → h ≠ 0 ∧ h ≠ EmptyRootHash) →
      ∃ T, trie_New (mkID stateRoot owner h) db = Done (inr T) ∧ holds T (list_to_map kvs).
Proof.
  intros Hok Hs. destruct (st_updates_new owner true kvs [] Hok Hs) as (st & log & E & Hst).
  destruct (st_holds_Commit owner true st log _ Hst eq_refl) as (t & st' & log' & Hw & Hb & Hm & Ec & Hlog).
  eexists st, log, _, st', log'. split; [exact E|]. split; [exact Ec|].
  intros stateRoot db r Hs0 Hse Hdb Hr Hne. apply New_stored with r; [done..|].
  intros Hn. destruct (Hlog (Hw Hn)) as [Hroot Hall].
  destruct Hne as [Hz He].
  { intros ->. apply Hn. eapply maps_inj; [done|by intros []|done|by apply maps_nil]. }
  assert (∀ p c, node_write owner p c ∈ log' → in_store (mkTrieReader owner (Some r) None) p c) as Hin.
  { intros p c Hc. specialize (Hr _ Hc). unfold in_store, reader_node. simpl in *. rewrite Hr.
    pose proof (tenc_not_nil c). by destruct (tenc c). }
  split_and!; [done|done|by apply Hin|]. intros q c Hq Hc Hbig. by apply Hin, Hall.
Qed.
End root.

(** A trie built from an empty one by updates. *)
Definition updated_trie `{Crypto} (fuel : nat) (kvs : list (list byte * list byte)) : Trie :=
  after (trie_run fuel (empty_trie newEmptyReader) (map (λ '(k, v), OpUpdate k v) kvs)).

Lemma updated_trie_holds `{Crypto} fuel kvs :
  Forall kv_ok kvs → Forall (λ kv, (key_rounds (fst kv) <= fuel)%nat) kvs →
  holds (updated_trie fuel kvs) (foldl (λ m '(k, v), <[k := v]> m) ∅ kvs).
Proof.
  intros Hok Hf. assert (∀ T m, holds T m → ∃ l T',
    trie_run fuel T (map (λ '(k, v), OpUpdate k v) kvs) = Done (l, T') ∧
    holds T' (foldl (λ m '(k, v), <[k := v]> m) m kvs)) as Hall.
  { induction kvs as [|[k v] kvs IH]; intros T m Hh; [by exists [], T|].
    apply Forall_cons in Hok as [(Hk & [Hv Hvb] & Hl) Hok], Hf as [Hr Hf].
    destruct (trie_step_refines fuel T m (OpUpdate k v)) as (T' & E & Hh'); [done|by split_and!|].
    simpl in Hh'. rewrite decide_False in Hh' by done.
    destruct (IH Hok Hf T' _ Hh') as (l & T2 & E2 & Hh2). eexists _, T2. cbn [map trie_run foldl].
    by rewrite E, E2. }
  destruct (Hall _ _ (holds_empty newEmptyReader)) as (l & T' & E & Hh). unfold updated_trie. by rewrite E.
Qed.

(** ** Witnesses *)

#[local] Existing Instance toy_crypto.

Definition sample_kvs : list (list byte * list byte) :=
  [([0x12; 0x34], replicate 40 7); ([0x12; 0x56], replicate 40 8); ([0x13], [9])].

Lemma sample_kvs_ok : Forall kv_ok sample_kvs ∧ StronglySorted key_before sample_kvs.
Proof.
  split.
  - repeat (apply Forall_cons; split); [..|by apply Forall_nil];
      (split_and!; [|split; [done|]|vm_compute; done]);
      repeat (apply Forall_cons; split; [lia|]); by apply Forall_nil.
  - repeat first [apply SSorted_nil|apply SSorted_cons|apply Forall_nil_2|apply Forall_cons_2].
    + by exists [], 0x12, 0x13, [0x56], [].
    + by exists [0x12], 0x34, 0x56, [], [].
    + by exists [], 0x12, 0x13, [0x34], [].
Qed.

Definition sample_full : Trie := updated_trie 12 sample_kvs.

Lemma sample_full_holds : holds sample_full (list_to_map sample_kvs).
Proof.
  replace (list_to_map sample_kvs) with (foldl (λ m '(k, v), <[k := v]> m) (∅ : kvmap) sample_kvs)
    by (vm_compute; reflexivity).
  apply updated_trie_holds; [apply sample_kvs_ok|].
  repeat (apply Forall_cons; split; [unfold key_rounds; simpl; lia|]). by apply Forall_nil.
Qed.

Lemma StackTrie_Hash_agrees_witness :
  ∃ st log st' log' h T', st_updates (NewStackTrieWithOwner false 0) sample_kvs [] = Ok (st, log) ∧
    st_Hash st log = Ok (h, st', log') ∧ trie_Hash sample_full = Ok (h, T').
Proof.
  exact (StackTrie_Hash_agrees false 0 sample_kvs sample_full (proj1 sample_kvs_ok) (proj2 sample_kvs_ok)
    sample_full_holds).
Defined.

Definition sample_log : list write :=
  match st_updates (NewStackTrieWithOwner true 5) sample_kvs [] with
  | Ok (st, log) => match st_Commit st log with Ok (inr (_, _, log)) => log | _ => [] end
  | Panic _ => []
  end.

(** A store of the written nodes. *)
Definition written (o : Hash) (path : list byte) (hash : Hash) : string + list byte :=
  match list_find (λ wr, w_owner wr = o ∧ w_path wr = path ∧ w_hash wr = hash) sample_log with
  | Some (_, wr) => inr (w_blob wr)
  | None => inl "not found"%string
  end.

Lemma StackTrie_Commit_opens_witness :
  ∃ h T, trie_New (mkID 1 5 h) (λ _, inr written) = Done (inr T) ∧ holds T (list_to_map sample_kvs).
Proof.
  destruct (StackTrie_Commit_opens 5 sample_kvs (proj1 sample_kvs_ok) (proj2 sample_kvs_ok)) as
    (st & log & h & st' & log' & E1 & E2 & Hopen).
  assert (log' = sample_log) as Hlog by (unfold sample_log; by rewrite E1, E2).
  exists h. apply (Hopen 1 _ written); [done|done|done| |].
  - rewrite Hlog. clear. apply Forall_forall.
    apply (bool_decide_unpack (Forall (λ wr, written (w_owner wr) (w_path wr) (w_hash wr) = inr (w_blob wr)) sample_log)).
    vm_compute. done.
  - intros _. assert (match st_updates (NewStackTrieWithOwner true 5) sample_kvs [] with
      | Ok (st, log) => match st_Commit st log with Ok (inr (h, _, _)) => bool_decide (h ≠ 0 ∧ h ≠ EmptyRootHash)
          | _ => false end
      | _ => false end = true) as Hc by (vm_compute; reflexivity).
    rewrite E1, E2 in Hc. clear -Hc. by apply bool_decide_eq_true in Hc.
Defined.
