(* ===== verification/AccessList.v ===== *)
(** * Access lists: [accesslist/accessList.go]

    The access list a transaction declares and the one the interpreter records.  An
    address maps to [-1] (no slots) or to an index into [Slots].  The file models every
    method of the type, the invariant that ties indices to slot sets, and what the
    list denotes: a set of addresses and a set of (address, slot) pairs. *)

From S2P Require Import Prelude.

Record AccessList := mkAccessList {
  Addresses : gmap Address Z;
  Slots : list (gset Hash);
}.

Definition NewAccessList : AccessList := mkAccessList ∅ [].

Definition Len (al : AccessList) : Z := Z.of_nat (size (Addresses al)).

Definition StorageKeys (al : AccessList) : Z :=
  foldl (λ keys slot, keys + Z.of_nat (size slot)) 0 (Slots al).

Definition AccessListIsAddressExce (al : AccessList) (address : Address) : bool :=
  bool_decide (is_Some (Addresses al !! address)).

Definition ContainsAddress (al : AccessList) (address : Address) : bool :=
  bool_decide (is_Some (Addresses al !! address)).

Definition AccessListAddAddress (al : AccessList) (address : Address) : bool * AccessList :=
  match Addresses al !! address with
  | Some _ => (false, al)
  | None => (true, mkAccessList (<[address := -1]> (Addresses al)) (Slots al))
  end.

(** [slotmap[slot] = struct{}{}] updates the map stored at [idx] in place. *)
Definition set_slotmap (al : AccessList) (idx : Z) (sm : gset Hash) : AccessList :=
  mkAccessList (Addresses al) (<[Z.to_nat idx := sm]> (Slots al)).

Definition AccessListAddSlot (al : AccessList) (address : Address) (slot : Hash)
    : res (bool * bool * AccessList) :=
  let index := Addresses al !! address in
  if bool_decide (index = None ∨ index = Some (-1)) then
    Ok (bool_decide (index = None), true,
        mkAccessList (<[address := Z.of_nat (length (Slots al))]> (Addresses al))
                     (Slots al ++ [{[ slot ]}]))
  else
    let idx := default 0 index in
    slotmap ← go_index (Slots al) idx;
    if bool_decide (slot ∈ slotmap) then Ok (false, false, al)
    else Ok (false, true, set_slotmap al idx ({[ slot ]} ∪ slotmap)).

(** [AddSlot] and [AddAddress] are second copies of the two methods above, used by
    the state database. *)
Definition AddSlot (al : AccessList) (address : Address) (slot : Hash)
    : res (bool * bool * AccessList) :=
  let idx := Addresses al !! address in
  if bool_decide (idx = None ∨ idx = Some (-1)) then
    Ok (bool_decide (idx = None), true,
        mkAccessList (<[address := Z.of_nat (length (Slots al))]> (Addresses al))
                     (Slots al ++ [{[ slot ]}]))
  else
    let idx := default 0 idx in
    slotmap ← go_index (Slots al) idx;
    if bool_decide (slot ∈ slotmap) then Ok (false, false, al)
    else Ok (false, true, set_slotmap al idx ({[ slot ]} ∪ slotmap)).

Definition AddAddress (al : AccessList) (address : Address) : bool * AccessList :=
  match Addresses al !! address with
  | Some _ => (false, al)
  | None => (true, mkAccessList (<[address := -1]> (Addresses al)) (Slots al))
  end.

Definition DeleteAddress (al : AccessList) (address : Address) : AccessList :=
  mkAccessList (delete address (Addresses al)) (Slots al).

Definition DeleteSlot (al : AccessList) (address : Address) (slot : Hash)
    : res AccessList :=
  match Addresses al !! address with
  | None => Panic "reverting slot change, address not present in list"
  | Some idx =>
      slotmap ← go_index (Slots al) idx;
      let slotmap := slotmap ∖ {[ slot ]} in
      if bool_decide (size slotmap = 0%nat) then
        slots ← go_take (Slots al) idx;
        Ok (mkAccessList (<[address := -1]> (Addresses al)) slots)
      else Ok (set_slotmap al idx slotmap)
  end.

Definition Contains (al : AccessList) (address : Address) (slot : Hash)
    : res (bool * bool) :=
  match Addresses al !! address with
  | None => Ok (false, false)
  | Some idx =>
      if idx =? -1 then Ok (true, false)
      else sm ← go_index (Slots al) idx; Ok (true, bool_decide (slot ∈ sm))
  end.

Definition Copy (a : AccessList) : AccessList :=
  mkAccessList (Addresses a) (map (λ slotMap, slotMap) (Slots a)).

Section range.
Context `{GoRuntime}.

(** The result of [ConflictDetection]: [result], [haveSlot], [address], [slot]. *)
Definition conflict : Type := bool * bool * Address * list Hash.

(** The inner loops over one entry of [NewAL]: [Some c] is an early return.  The loop
    that fills [tempUser] appends each user slot to [tempNew], so that after it
    [tempUser] is [tempNew] followed by the last slot visited. *)
Definition conflict_entry (NewAL UserAL : AccessList) (key : Address) (value : Z)
    : res (option conflict) :=
  if value =? -1 then
    if ContainsAddress UserAL key then Ok None else Ok (Some (false, false, key, []))
  else
    new_slots ← go_index (Slots NewAL) value;
    let tempNew := range_set new_slots in
    if negb (ContainsAddress UserAL key) then Ok (Some (false, true, key, tempNew))
    else
      user_slots ← go_index (Slots UserAL) (default 0 (Addresses UserAL !! key));
      let tempUser := foldl (λ _ k, tempNew ++ [k]) [] (range_set user_slots) in
      if negb (Nat.eqb (length tempNew) (length tempUser)) then
        Ok (Some (false, true, key, tempNew))
      else if forallb (λ a, existsb (Z.eqb a) tempNew) tempUser then Ok None
      else Ok (Some (false, true, key, tempNew)).

Fixpoint conflict_loop (NewAL UserAL : AccessList) (entries : list (Address * Z))
    : res conflict :=
  match entries with
  | [] => Ok (true, true, 0, [])
  | (key, value) :: rest =>
      r ← conflict_entry NewAL UserAL key value;
      match r with
      | Some c => Ok c
      | None => conflict_loop NewAL UserAL rest
      end
  end.

Definition ConflictDetection (NewAL UserAL : AccessList) : res conflict :=
  conflict_loop NewAL UserAL (range_map (Addresses NewAL)).

Fixpoint combine_slots (TrueAL : AccessList) (key : Address) (slots : list Hash)
    : res AccessList :=
  match slots with
  | [] => Ok TrueAL
  | slotkey :: rest =>
      r ← AccessListAddSlot TrueAL key slotkey;
      combine_slots r.2 key rest
  end.

Fixpoint combine_loop (TrueAL NewAL : AccessList) (entries : list (Address * Z))
    : res AccessList :=
  match entries with
  | [] => Ok TrueAL
  | (key, value) :: rest =>
      let TrueAL := (AccessListAddAddress TrueAL key).2 in
      TrueAL ← (if negb (value =? -1) then
                  sm ← go_index (Slots NewAL) value;
                  combine_slots TrueAL key (range_set sm)
                else Ok TrueAL);
      combine_loop TrueAL NewAL rest
  end.

Definition CombineTrueAccessList (TrueAL NewAL : AccessList) : res AccessList :=
  combine_loop TrueAL NewAL (range_map (Addresses NewAL)).
End range.

(** ** What a list denotes *)

(** The slots recorded for an address. *)
Definition slots_of (al : AccessList) (a : Address) : gset Hash :=
  match Addresses al !! a with
  | Some i => if i =? -1 then ∅ else default ∅ (Slots al !! Z.to_nat i)
  | None => ∅
  end.

(** Two lists with the same addresses and the same slots per address. *)
Definition al_equiv (al al' : AccessList) : Prop :=
  dom (Addresses al) = dom (Addresses al') ∧ ∀ a, slots_of al a = slots_of al' a.

(** The representation invariant: an index is [-1] or in range, no two addresses
    share a slot set, every slot set is owned and none is empty. *)
Record al_wf (al : AccessList) : Prop := {
  wf_range : ∀ a i, Addresses al !! a = Some i →
    i = -1 ∨ (0 <= i < Z.of_nat (length (Slots al)));
  wf_inj : ∀ a b i, Addresses al !! a = Some i → Addresses al !! b = Some i →
    i ≠ -1 → a = b;
  wf_nonempty : ∀ i sm, Slots al !! i = Some sm → sm ≠ ∅;
  wf_owned : ∀ i, (i < length (Slots al))%nat →
    ∃ a, Addresses al !! a = Some (Z.of_nat i);
}.

#[global] Instance al_equiv_equivalence : Equivalence al_equiv.
Proof.
  split.
  - by intros al.
  - intros al al' [? ?]; split; [done | by intros].
  - intros al al' al'' [E1 E2] [E3 E4]; split; [congruence |].
    intros a. by rewrite E2.
Qed.

Lemma wf_lookup al a i : al_wf al → Addresses al !! a = Some i → i ≠ -1 →
  ∃ sm, Slots al !! Z.to_nat i = Some sm ∧ go_index (Slots al) i = Ok sm ∧
        slots_of al a = sm ∧ sm ≠ ∅ ∧ 0 <= i.
Proof.
  intros Hwf Ha Hi. destruct (wf_range _ Hwf _ _ Ha) as [|Hr]; [done|].
  destruct (lookup_lt_is_Some_2 (Slots al) (Z.to_nat i)) as [sm Hsm]; [lia|].
  exists sm. split_and!; [done| | |by eapply wf_nonempty|lia].
  - apply go_index_Ok. split; [lia|done].
  - unfold slots_of. rewrite Ha. destruct (Z.eqb_spec i (-1)); [done|].
    by rewrite Hsm.
Qed.

Lemma NewAccessList_wf : al_wf NewAccessList.
Proof. split; simpl; intros; try done; by lia. Qed.

Lemma AccessListAddSlot_AddSlot al a h : AccessListAddSlot al a h = AddSlot al a h.
Proof. done. Qed.

(** *** Adding *)

(** The list with a fresh slot set for [a] at the end. *)
Definition push_slot (al : AccessList) (a : Address) (h : Hash) : AccessList :=
  mkAccessList (<[a := Z.of_nat (length (Slots al))]> (Addresses al))
               (Slots al ++ [{[ h ]}]).

Lemma AddSlot_cases al a h : al_wf al →
  ((Addresses al !! a) = None ∧ AddSlot al a h = Ok (true, true, push_slot al a h)) ∨
  (Addresses al !! a = Some (-1) ∧
     AddSlot al a h = Ok (false, true, push_slot al a h)) ∨
  (∃ i sm, Addresses al !! a = Some i ∧ i ≠ -1 ∧ Slots al !! Z.to_nat i = Some sm ∧
     h ∈ sm ∧ AddSlot al a h = Ok (false, false, al)) ∨
  (∃ i sm, Addresses al !! a = Some i ∧ i ≠ -1 ∧ Slots al !! Z.to_nat i = Some sm ∧
     h ∉ sm ∧ AddSlot al a h = Ok (false, true, set_slotmap al i ({[ h ]} ∪ sm))).
Proof.
  intros Hwf. unfold AddSlot.
  destruct (Addresses al !! a) as [i|] eqn:Ha.
  - destruct (decide (i = -1)) as [->|Hi].
    + right; left. split; [done|]. by rewrite bool_decide_true by auto.
    + right; right.
      destruct (wf_lookup al a i Hwf Ha Hi) as (sm & Hsm & Hgo & _ & _ & _).
      rewrite bool_decide_false by naive_solver. simpl. rewrite Hgo. simpl.
      case_bool_decide; [left|right]; by exists i, sm.
  - left. split; [done|]. rewrite bool_decide_true by auto. done.
Qed.

Lemma push_slot_wf al a h : al_wf al →
  (∀ i, Addresses al !! a = Some i → i = -1) → al_wf (push_slot al a h).
Proof.
  intros Hwf Ha. split; simpl.
  - intros b i. rewrite lookup_insert, length_app. simpl. case_decide.
    + intros [= <-]. lia.
    + intros Hb. destruct (wf_range _ Hwf _ _ Hb); lia.
  - intros b c i. rewrite !lookup_insert.
    repeat case_decide; subst; try done; intros Hb Hc Hi; simplify_eq.
    + destruct (wf_range _ Hwf _ _ Hc); lia.
    + destruct (wf_range _ Hwf _ _ Hb); lia.
    + by eapply wf_inj.
  - intros i sm. rewrite lookup_app_Some. intros [Hs|[Hi Hs]].
    + by eapply wf_nonempty.
    + apply list_lookup_singleton_Some in Hs. destruct Hs as [_ <-]. set_solver.
  - intros i. rewrite length_app. simpl. intros Hi.
    destruct (decide (i = length (Slots al))) as [->|].
    + exists a. by rewrite lookup_insert_eq.
    + destruct (wf_owned _ Hwf i) as [b Hb]; [lia|]. exists b.
      rewrite lookup_insert_ne; [done|]. intros <-. specialize (Ha _ Hb). lia.
Qed.

Lemma push_slot_slots al a h b : al_wf al →
  slots_of (push_slot al a h) b = if decide (b = a) then {[ h ]} else slots_of al b.
Proof.
  intros Hwf. unfold slots_of, push_slot. simpl. rewrite lookup_insert.
  destruct (decide (a = b)) as [->|].
  - rewrite decide_True by done. destruct (Z.eqb_spec (Z.of_nat (length (Slots al))) (-1)); [lia|].
    by rewrite Nat2Z.id, lookup_snoc_last.
  - rewrite decide_False by congruence. destruct (Addresses al !! b) as [i|] eqn:Hb; [|done].
    destruct (Z.eqb_spec i (-1)); [done|].
    destruct (wf_range _ Hwf _ _ Hb); [done|]. by rewrite lookup_app_l by lia.
Qed.

Lemma set_slotmap_wf al i sm : al_wf al → sm ≠ ∅ → al_wf (set_slotmap al i sm).
Proof.
  intros Hwf Hsm. split; simpl.
  - rewrite length_insert. apply Hwf.
  - apply Hwf.
  - intros j sm' [(_ & <- & _)|[_ Hj]]%list_lookup_insert_Some; [done|].
    by eapply wf_nonempty.
  - rewrite length_insert. apply Hwf.
Qed.

Lemma set_slotmap_slots al a i sm b : al_wf al → Addresses al !! a = Some i → i ≠ -1 →
  slots_of (set_slotmap al i sm) b = if decide (b = a) then sm else slots_of al b.
Proof.
  intros Hwf Ha Hi. destruct (wf_lookup al a i Hwf Ha Hi) as (sm0 & Hsm & _ & _ & _ & Hi0).
  unfold slots_of. simpl. destruct (decide (b = a)) as [->|Hne].
  - rewrite Ha. destruct (Z.eqb_spec i (-1)); [done|].
    rewrite list_lookup_insert_eq; [done|]. by eapply lookup_lt_Some.
  - destruct (Addresses al !! b) as [j|] eqn:Hb; [|done].
    destruct (Z.eqb_spec j (-1)); [done|]. rewrite list_lookup_insert_ne; [done|].
    destruct (wf_range _ Hwf _ _ Hb); [done|].
    assert (j ≠ i) by (intros ->; apply Hne; by eapply wf_inj). lia.
Qed.

Lemma slots_of_none al a : (∀ i, Addresses al !! a = Some i → i = -1) →
  slots_of al a = ∅.
Proof.
  intros Ha. unfold slots_of. destruct (Addresses al !! a) as [i|]; [|done].
  by rewrite (Ha i).
Qed.

Lemma AddSlot_wf al a h : al_wf al →
  ∃ al', AddSlot al a h = Ok (bool_decide (a ∉ dom (Addresses al)),
                             bool_decide (h ∉ slots_of al a), al') ∧
    al_wf al' ∧ dom (Addresses al') = {[ a ]} ∪ dom (Addresses al) ∧
    ∀ b, slots_of al' b = if decide (b = a) then {[ h ]} ∪ slots_of al a
                          else slots_of al b.
Proof.
  intros Hwf.
  destruct (AddSlot_cases al a h Hwf)
    as [[Ha ->]|[[Ha ->]|[(i & sm & Ha & Hi & Hsm & Hh & ->)|(i & sm & Ha & Hi & Hsm & Hh & ->)]]].
  - assert (slots_of al a = ∅) as Hs by (apply slots_of_none; congruence).
    exists (push_slot al a h). rewrite Hs.
    rewrite !bool_decide_true by (rewrite ?not_elem_of_dom, ?Hs; set_solver).
    split_and!; [done|apply push_slot_wf; [done|congruence]|simpl; set_solver|].
    intros b. rewrite push_slot_slots by done. case_decide; set_solver.
  - assert (slots_of al a = ∅) as Hs by (apply slots_of_none; congruence).
    exists (push_slot al a h). rewrite Hs.
    rewrite bool_decide_false by (rewrite not_elem_of_dom; naive_solver).
    rewrite bool_decide_true by set_solver.
    split_and!; [done|apply push_slot_wf; [done|congruence]|simpl; set_solver|].
    intros b. rewrite push_slot_slots by done. case_decide; set_solver.
  - destruct (wf_lookup al a i Hwf Ha Hi) as (sm' & ? & _ & Hs & _ & _). simplify_eq.
    exists al. rewrite !bool_decide_false by (rewrite ?not_elem_of_dom; naive_solver).
    split_and!; [done|done|apply elem_of_dom_2 in Ha; set_solver|].
    intros b. case_decide; subst; set_solver.
  - destruct (wf_lookup al a i Hwf Ha Hi) as (sm' & ? & _ & Hs & _ & _). simplify_eq.
    exists (set_slotmap al i ({[h]} ∪ slots_of al a)).
    rewrite bool_decide_false by (rewrite not_elem_of_dom; naive_solver).
    rewrite bool_decide_true by done.
    split_and!; [done|apply set_slotmap_wf; set_solver|apply elem_of_dom_2 in Ha; simpl; set_solver|].
    intros b. by apply set_slotmap_slots.
Qed.

Lemma AddAddress_wf al a : al_wf al →
  let r := AddAddress al a in
  r.1 = bool_decide (a ∉ dom (Addresses al)) ∧ al_wf r.2 ∧
  dom (Addresses r.2) = {[ a ]} ∪ dom (Addresses al) ∧
  ∀ b, slots_of r.2 b = slots_of al b.
Proof.
  intros Hwf. unfold AddAddress. destruct (Addresses al !! a) as [i|] eqn:Ha; simpl.
  - rewrite bool_decide_false by (rewrite not_elem_of_dom; naive_solver).
    split_and!; [done|done|apply elem_of_dom_2 in Ha; set_solver|done].
  - rewrite bool_decide_true by (by rewrite not_elem_of_dom).
    split_and!; [done| |set_solver|].
    + split; simpl; [| |apply Hwf|].
      * intros b i. rewrite lookup_insert. case_decide; [intros [= <-]; auto|apply Hwf].
      * intros b c i. rewrite !lookup_insert. repeat case_decide; try naive_solver.
        by eapply wf_inj.
      * intros i Hi. destruct (wf_owned _ Hwf i Hi) as [b Hb]. exists b.
        rewrite lookup_insert_ne; [done|]. congruence.
    + intros b. unfold slots_of. simpl. rewrite lookup_insert. case_decide; [|done].
      subst. by rewrite Ha.
Qed.

(** *** Undoing *)

(** What the journal does to revert an [AddSlot] whose flags were [ac] and [sc]. *)
Definition undo_AddSlot (al : AccessList) (a : Address) (h : Hash) (ac sc : bool)
    : res AccessList :=
  al ← (if sc then DeleteSlot al a h else Ok al);
  Ok (if ac then DeleteAddress al a else al).

Lemma DeleteSlot_push al a h :
  DeleteSlot (push_slot al a h) a h =
    Ok (mkAccessList (<[a := -1]> (Addresses al)) (Slots al)).
Proof.
  unfold DeleteSlot, push_slot. simpl. rewrite lookup_insert_eq.
  unfold go_index, go_take. simpl.
  destruct (Z.ltb_spec (Z.of_nat (length (Slots al))) 0); [lia|].
  rewrite Nat2Z.id, lookup_snoc_last, res_bind_ret.
  rewrite bool_decide_true by (apply size_empty_iff; set_solver).
  rewrite length_app. simpl.
  destruct (Z.ltb_spec (Z.of_nat (length (Slots al) + 1)) (Z.of_nat (length (Slots al)))); [lia|].
  simpl. by rewrite insert_insert_eq, take_app_length.
Qed.

Lemma AddSlot_undo al a h ac sc al' : al_wf al → AddSlot al a h = Ok (ac, sc, al') →
  undo_AddSlot al' a h ac sc = Ok al.
Proof.
  intros Hwf.
  destruct (AddSlot_cases al a h Hwf)
    as [[Ha ->]|[[Ha ->]|[(i & sm & Ha & Hi & Hsm & Hh & ->)|(i & sm & Ha & Hi & Hsm & Hh & ->)]]];
    intros [= <- <- <-]; unfold undo_AddSlot.
  - rewrite DeleteSlot_push. simpl. unfold DeleteAddress. simpl.
    rewrite delete_insert_id by done. by destruct al.
  - rewrite DeleteSlot_push. simpl. rewrite insert_id by done. by destruct al.
  - done.
  - unfold DeleteSlot, set_slotmap. simpl. rewrite Ha.
    destruct (wf_lookup al a i Hwf Ha Hi) as (sm' & ? & Hgo & _ & Hne & ?). simplify_eq.
    unfold go_index. destruct (Z.ltb_spec i 0); [lia|].
    rewrite list_lookup_insert_eq by (by eapply lookup_lt_Some). rewrite res_bind_ret.
    replace (({[h]} ∪ sm) ∖ {[h]}) with sm by set_solver.
    rewrite bool_decide_false by (rewrite size_empty_iff; set_solver).
    simpl. rewrite list_insert_insert_eq, list_insert_id by done. by destruct al.
Qed.

Lemma AddAddress_undo al a : (AddAddress al a).1 = true →
  DeleteAddress (AddAddress al a).2 a = al.
Proof.
  unfold AddAddress. destruct (Addresses al !! a) eqn:Ha; simpl; [done|]. intros _.
  unfold DeleteAddress. simpl. rewrite delete_insert_id by done. by destruct al.
Qed.

(** *** Reading *)

Lemma Contains_wf al a h : al_wf al →
  Contains al a h = Ok (bool_decide (a ∈ dom (Addresses al)),
                        bool_decide (h ∈ slots_of al a)).
Proof.
  intros Hwf. unfold Contains. destruct (Addresses al !! a) as [i|] eqn:Ha.
  - rewrite bool_decide_true by (by apply elem_of_dom_2 in Ha).
    destruct (Z.eqb_spec i (-1)) as [->|Hi].
    + rewrite bool_decide_false; [done|].
      rewrite slots_of_none by congruence. set_solver.
    + destruct (wf_lookup al a i Hwf Ha Hi) as (sm & _ & -> & -> & _ & _). done.
  - rewrite !bool_decide_false; [done| |by apply not_elem_of_dom].
    rewrite slots_of_none by congruence. set_solver.
Qed.

Lemma ContainsAddress_dom al a :
  ContainsAddress al a = bool_decide (a ∈ dom (Addresses al)).
Proof. apply bool_decide_ext. by rewrite elem_of_dom. Qed.

Lemma Copy_id al : Copy al = al.
Proof. unfold Copy. rewrite map_id. by destruct al. Qed.

(** *** Merging *)

Section combine.
Context `{GoRuntime}.

Lemma combine_slots_wf hs al k : al_wf al → k ∈ dom (Addresses al) →
  ∃ al', combine_slots al k hs = Ok al' ∧ al_wf al' ∧
    dom (Addresses al') = dom (Addresses al) ∧
    ∀ b, slots_of al' b = if decide (b = k) then list_to_set hs ∪ slots_of al k
                          else slots_of al b.
Proof.
  revert al. induction hs as [|h hs IH]; intros al Hwf Hk.
  - exists al. split_and!; [done..|]. intros b. case_decide; set_solver.
  - cbn [combine_slots]. rewrite AccessListAddSlot_AddSlot.
    destruct (AddSlot_wf al k h Hwf) as (al1 & -> & Hwf1 & Hd1 & Hs1).
    rewrite res_bind_ret. cbn [snd].
    destruct (IH al1 Hwf1) as (al2 & -> & Hwf2 & Hd2 & Hs2); [set_solver|].
    exists al2. split_and!; [done..|rewrite Hd2, Hd1; clear -Hk; set_solver|].
    intros b. rewrite Hs2, !Hs1. rewrite !(decide_True (P := k = k)) by done.
    case_decide; clear; set_solver.
Qed.

Lemma combine_loop_wf NewAL entries TrueAL : al_wf NewAL → al_wf TrueAL →
  (∀ k v, (k, v) ∈ entries → Addresses NewAL !! k = Some v) →
  ∃ al', combine_loop TrueAL NewAL entries = Ok al' ∧ al_wf al' ∧
    dom (Addresses al') = dom (Addresses TrueAL) ∪ list_to_set entries.*1 ∧
    ∀ b, slots_of al' b = slots_of TrueAL b ∪
                          (if decide (b ∈ entries.*1) then slots_of NewAL b else ∅).
Proof.
  intros HN. revert TrueAL. induction entries as [|[k v] entries IH]; intros T HT He.
  - exists T. split_and!; [done..|set_solver|]. intros b. case_decide; set_solver.
  - destruct (AddAddress_wf T k HT) as (_ & HT1 & Hd1 & Hs1).
    assert (Addresses NewAL !! k = Some v) as Hk by (apply He; left).
    cbn [combine_loop]. change (AccessListAddAddress T k) with (AddAddress T k).
    set (T1 := (AddAddress T k).2) in *. clearbody T1.
    assert (∃ T2, (if negb (v =? -1) then
        sm ← go_index (Slots NewAL) v; combine_slots T1 k (range_set sm)
        else Ok T1) = Ok T2 ∧ al_wf T2 ∧ dom (Addresses T2) = dom (Addresses T1) ∧
        ∀ b, slots_of T2 b = slots_of T1 b ∪ if decide (b = k) then slots_of NewAL k else ∅)
      as (T2 & -> & HT2 & Hd2 & Hs2).
    { destruct (Z.eqb_spec v (-1)) as [->|Hv]; cbn [negb].
      - exists T1. split_and!; [done..|]. intros b.
        rewrite (slots_of_none NewAL k) by congruence. case_decide; clear; set_solver.
      - destruct (wf_lookup _ _ _ HN Hk Hv) as (sm & _ & -> & <- & _ & _).
        rewrite res_bind_ret.
        destruct (combine_slots_wf (range_set (slots_of NewAL k)) T1 k HT1)
          as (T2 & -> & ? & ? & Hs2); [rewrite Hd1; clear; set_solver|].
        exists T2. split_and!; [done..|]. intros b. rewrite Hs2.
        assert (list_to_set (range_set (slots_of NewAL k)) = slots_of NewAL k) as ->.
        { apply set_eq. intros x. by rewrite elem_of_list_to_set, range_set_elem. }
        case_decide; subst; clear; set_solver. }
    rewrite res_bind_ret.
    destruct (IH T2 HT2) as (T3 & -> & ? & Hd3 & Hs3); [intros; apply He; by right|].
    exists T3. split_and!; [done..|rewrite Hd3, Hd2, Hd1; simpl; clear; set_solver|].
    intros b. rewrite Hs3, Hs2, Hs1. rewrite fmap_cons. cbn [fst].
    destruct (decide (b = k)) as [->|].
    + rewrite (decide_True (P := k ∈ k :: _)) by (by left).
      case_decide; clear; set_solver.
    + destruct (decide (b ∈ entries.*1)); destruct (decide (b ∈ k :: entries.*1)) as [Hb|Hb];
        rewrite ?elem_of_cons in Hb; [clear; set_solver|naive_solver..|clear; set_solver].
Qed.

(** Merging one access list into another never panics and denotes the union, slot by
    slot, whatever order the maps are visited in. *)
Theorem CombineTrueAccessList_union TrueAL NewAL : al_wf TrueAL → al_wf NewAL →
  ∃ al', CombineTrueAccessList TrueAL NewAL = Ok al' ∧ al_wf al' ∧
    dom (Addresses al') = dom (Addresses TrueAL) ∪ dom (Addresses NewAL) ∧
    ∀ a, slots_of al' a = slots_of TrueAL a ∪ slots_of NewAL a.
Proof.
  intros HT HN. unfold CombineTrueAccessList.
  destruct (combine_loop_wf NewAL (range_map (Addresses NewAL)) TrueAL HN HT)
    as (al' & -> & ? & Hd & Hs); [intros; by apply range_map_elem|].
  assert (list_to_set (range_map (Addresses NewAL)).*1 = dom (Addresses NewAL)) as Hdom.
  { apply set_eq. intros a. rewrite elem_of_list_to_set, list_elem_of_fmap, elem_of_dom.
    split.
    - intros ([k v] & -> & Hin%range_map_elem). by exists v.
    - intros [v Hv]. exists (a, v). by rewrite range_map_elem. }
  exists al'. split_and!; [done..|by rewrite Hd, Hdom|].
  intros a. rewrite Hs. case_decide as Ha; [done|].
  rewrite (slots_of_none NewAL); [done|]. intros i Hi. destruct Ha.
  apply list_elem_of_fmap. exists (a, i). by rewrite range_map_elem.
Qed.
End combine.

(** *** Conflict detection *)

Section conflict.
Context `{GoRuntime}.

Lemma tempUser_value (tempNew l : list Hash) :
  foldl (λ _ k, tempNew ++ [k]) [] l =
    match last l with Some k => tempNew ++ [k] | None => [] end.
Proof.
  destruct l as [|l k] using rev_ind; [done|].
  by rewrite foldl_app, last_snoc.
Qed.

(** An entry with slots never passes: after the fill loop [tempUser] is one longer than
    [tempNew], so the length test fails. *)
Lemma conflict_entry_pass N U k v : al_wf N → al_wf U → Addresses N !! k = Some v →
  conflict_entry N U k v = Ok None ↔ v = -1 ∧ k ∈ dom (Addresses U).
Proof.
  intros HN HU Hk. unfold conflict_entry. rewrite ContainsAddress_dom.
  destruct (Z.eqb_spec v (-1)) as [->|Hv].
  - case_bool_decide; naive_solver.
  - destruct (wf_lookup _ _ _ HN Hk Hv) as (sm & _ & -> & _ & Hne & _).
    rewrite res_bind_ret. case_bool_decide as Hd; cbn [negb]; [|naive_solver].
    apply elem_of_dom in Hd as [j Hj]. rewrite Hj. change (default 0 (Some j)) with j.
    destruct (go_index (Slots U) j) as [us|]; [|split; [done|naive_solver]].
    rewrite res_bind_ret, tempUser_value.
    destruct (last (range_set us)) as [u|]; cbn [negb].
    + rewrite length_app. cbn [length].
      destruct (Nat.eqb_spec (length (range_set sm)) (length (range_set sm) + 1)); [lia|].
      naive_solver.
    + destruct (Nat.eqb_spec (length (range_set sm)) (length (@nil Hash))) as [E|];
        [|naive_solver].
      rewrite range_set_length in E. cbn in E. apply size_empty_inv in E. set_solver.
Qed.

Lemma conflict_entry_reject N U k v c : conflict_entry N U k v = Ok (Some c) →
  c.1.1.1 = false.
Proof.
  unfold conflict_entry. intros Hc.
  repeat (case_match; res_simpl; simplify_eq; try done).
Qed.

Lemma conflict_loop_pass N U entries : al_wf N → al_wf U →
  (∀ k v, (k, v) ∈ entries → Addresses N !! k = Some v) →
  (∃ c, conflict_loop N U entries = Ok c ∧ c.1.1.1 = true) ↔
  ∀ k v, (k, v) ∈ entries → v = -1 ∧ k ∈ dom (Addresses U).
Proof.
  intros HN HU. induction entries as [|[k v] entries IH]; intros He.
  - split; [set_solver|]. intros _. by exists (true, true, 0, []).
  - cbn [conflict_loop].
    pose proof (conflict_entry_pass N U k v HN HU (He k v ltac:(by left))) as Hp.
    specialize (IH ltac:(intros; apply He; by right)).
    destruct (conflict_entry N U k v) as [[c|]|] eqn:Hc.
    + apply conflict_entry_reject in Hc. rewrite res_bind_ret. split.
      * intros (c' & [= ->] & ?). congruence.
      * intros Hall. destruct Hp as [_ Hp].
        specialize (Hp (Hall k v ltac:(by left))). congruence.
    + rewrite res_bind_ret, IH. destruct Hp as [Hp _]. setoid_rewrite elem_of_cons.
      naive_solver.
    + split; [naive_solver|]. intros Hall. destruct Hp as [_ Hp].
      specialize (Hp (Hall k v ltac:(by left))). congruence.
Qed.

(** [ConflictDetection] accepts exactly when no access recorded by the run touched a
    storage slot and every address is declared: an access to a slot is never accepted,
    even when the user's list declares that address and that slot. *)
Theorem ConflictDetection_accepts NewAL UserAL : al_wf NewAL → al_wf UserAL →
  (∃ c, ConflictDetection NewAL UserAL = Ok c ∧ c.1.1.1 = true) ↔
  (∀ a, slots_of NewAL a = ∅) ∧ dom (Addresses NewAL) ⊆ dom (Addresses UserAL).
Proof.
  intros HN HU. unfold ConflictDetection.
  rewrite conflict_loop_pass by (done || intros; by apply range_map_elem).
  setoid_rewrite range_map_elem. split.
  - intros Hall. split.
    + intros a. apply slots_of_none. intros i Hi. by apply (Hall a).
    + intros a [i Hi]%elem_of_dom. by apply (Hall a i).
  - intros [Hs Hd] k v Hk. split; [|apply Hd; by apply elem_of_dom_2 in Hk].
    destruct (decide (v = -1)) as [|Hv]; [done|].
    destruct (wf_lookup _ _ _ HN Hk Hv) as (sm & _ & _ & Hsm & ? & _).
    rewrite Hs in Hsm. congruence.
Qed.

(** The list the interpreter records for one [SLOAD] or [SSTORE]. *)
Definition slot_access (a : Address) (h : Hash) : AccessList :=
  mkAccessList {[ a := 0 ]} [{[ h ]}].

Lemma slot_access_recorded a h :
  AccessListAddSlot NewAccessList a h = Ok (true, true, slot_access a h).
Proof. done. Qed.

Lemma range_map_singleton (k : Address) (v : Z) : range_map {[ k := v ]} = [(k, v)].
Proof. apply Permutation_singleton_r. by rewrite range_map_perm, map_to_list_singleton. Qed.

(** For a single slot access the outcome is a reported conflict, or an index panic
    when the user's list names the address without slots. *)
Theorem ConflictDetection_slot_access a h UserAL : al_wf UserAL →
  ConflictDetection (slot_access a h) UserAL =
    if bool_decide (Addresses UserAL !! a = Some (-1)) then Panic "index out of range"
    else Ok (false, true, a, [h]).
Proof.
  intros HU. unfold ConflictDetection, slot_access. cbn [Addresses].
  rewrite range_map_singleton. cbn [conflict_loop]. unfold conflict_entry.
  change (go_index (Slots (mkAccessList _ [{[h]}])) 0) with (Ok ({[ h ]} : gset Hash)).
  cbn [Z.eqb].
  rewrite res_bind_ret.
  assert (range_set {[ h ]} = [h]) as ->
    by (apply Permutation_singleton_r; by rewrite range_set_perm, elements_singleton).
  rewrite ContainsAddress_dom. case_bool_decide as Hd; cbn [negb].
  - apply elem_of_dom in Hd as [i Hi]. rewrite Hi. change (default 0 (Some i)) with i.
    case_bool_decide as Hm; simplify_eq; [done|].
    destruct (wf_lookup _ _ _ HU Hi ltac:(congruence)) as (us & _ & -> & _ & Hne & _).
    rewrite res_bind_ret, tempUser_value.
    destruct (last (range_set us)) as [u|]; [done|].
    done.
  - rewrite bool_decide_false; [done|]. rewrite not_elem_of_dom in Hd. congruence.
Qed.
End conflict.

(** Adding a slot and then replaying the two journal entries it produced, in reverse
    order, restores the list exactly; the flags say which entries are needed. *)
Theorem AddSlot_journal_roundtrip al a h : al_wf al →
  ∃ ac sc al', AddSlot al a h = Ok (ac, sc, al') ∧ al_wf al' ∧
    undo_AddSlot al' a h ac sc = Ok al ∧
    Contains al' a h = Ok (true, true).
Proof.
  intros Hwf. destruct (AddSlot_wf al a h Hwf) as (al' & Heq & Hwf' & Hd & Hs).
  do 3 eexists. split_and!; [done..|by apply AddSlot_undo|].
  rewrite Contains_wf by done. rewrite !bool_decide_true; [done| |].
  - rewrite Hs, decide_True by done. set_solver.
  - rewrite Hd. set_solver.
Qed.

(** *** Witnesses *)

Lemma slot_access_wf a h : al_wf (slot_access a h).
Proof. apply (push_slot_wf NewAccessList a h NewAccessList_wf). done. Qed.

(** Address 7 with slot 1, and address 9 without slots. *)
Definition sample_al : AccessList := push_slot (AddAddress NewAccessList 9).2 7 1.

Lemma sample_al_wf : al_wf sample_al.
Proof.
  apply push_slot_wf; [apply (AddAddress_wf NewAccessList 9 NewAccessList_wf)|].
  intros i. vm_compute. done.
Qed.

Lemma CombineTrueAccessList_union_witness :
  ∃ al', @CombineTrueAccessList reference_runtime sample_al (slot_access 9 5) = Ok al' ∧
    slots_of al' 9 = {[ 5 ]}.
Proof.
  destruct (@CombineTrueAccessList_union reference_runtime sample_al (slot_access 9 5)
              sample_al_wf (slot_access_wf 9 5)) as (al' & Heq & _ & _ & Hs).
  exists al'. split; [exact Heq|]. rewrite Hs. vm_compute. reflexivity.
Defined.

Lemma ConflictDetection_accepts_witness :
  ¬ ∃ c, @ConflictDetection reference_runtime (slot_access 7 1) sample_al = Ok c ∧
         c.1.1.1 = true.
Proof.
  intros Hc.
  apply (@ConflictDetection_accepts reference_runtime (slot_access 7 1) sample_al
           (slot_access_wf 7 1) sample_al_wf) in Hc.
  destruct Hc as [Hs _]. specialize (Hs 7). vm_compute in Hs. discriminate Hs.
Defined.

Lemma ConflictDetection_slot_access_witness :
  @ConflictDetection reference_runtime (slot_access 7 1) sample_al
    = Ok (false, true, 7, [1]) ∧
  @ConflictDetection reference_runtime (slot_access 9 1) sample_al
    = Panic "index out of range".
Proof.
  split; rewrite (@ConflictDetection_slot_access reference_runtime _ _ _ sample_al_wf);
    vm_compute; reflexivity.
Defined.

Lemma AddSlot_journal_roundtrip_witness :
  ∃ al', AddSlot sample_al 9 4 = Ok (false, true, al') ∧
    undo_AddSlot al' 9 4 false true = Ok sample_al.
Proof.
  destruct (AddSlot_journal_roundtrip sample_al 9 4 sample_al_wf)
    as (ac & sc & al' & Heq & _ & Hu & _).
  assert (AddSlot sample_al 9 4 = Ok (false, true, push_slot sample_al 9 4)) as E
    by (vm_compute; reflexivity).
  rewrite E in Heq. injection Heq as <- <- <-. by exists (push_slot sample_al 9 4).
Defined.
