(* ===== verification/EvmWord.v ===== *)
(** * 256-bit words

    The words of the virtual machine are values of [uint256.Int] of the package
    github.com/holiman/uint256, which is not part of the repository.  A word is its
    number in [[0, 2^256)]; the operations the machine uses are fields of the class
    [Uint256], whose laws state their documented results.  [word_model] is an instance. *)

From S2P Require Import Prelude Bytes.
From Stdlib Require Import Zpow_facts.

Definition W256 : Z := 2 ^ 256.
Definition word_ok (x : Z) : Prop := 0 <= x < W256.

(** The two's complement reading of a word, and the word of a number. *)
Definition signed (x : Z) : Z := if x <? 2 ^ 255 then x else x - W256.
Definition wrap (x : Z) : Z := x mod W256.
Definition bit (b : bool) : Z := if b then 1 else 0.

Class Uint256 := {
  word_Add : Z → Z → Z; word_Sub : Z → Z → Z; word_Mul : Z → Z → Z;
  word_Div : Z → Z → Z; word_SDiv : Z → Z → Z;
  word_Mod : Z → Z → Z; word_SMod : Z → Z → Z;
  word_Exp : Z → Z → Z; word_ExtendSign : Z → Z → Z;
  word_AddMod : Z → Z → Z → Z; word_MulMod : Z → Z → Z → Z;
  word_Not : Z → Z; word_And : Z → Z → Z; word_Or : Z → Z → Z; word_Xor : Z → Z → Z;
  word_Byte : Z → Z → Z; word_Lsh : Z → Z → Z; word_Rsh : Z → Z → Z; word_SRsh : Z → Z → Z;
  word_Lt : Z → Z → bool; word_Gt : Z → Z → bool; word_Slt : Z → Z → bool;
  word_Sgt : Z → Z → bool; word_Eq : Z → Z → bool; word_Sign : Z → Z;
  (* conversions: the low 64 bits, whether they are all, the low 20 bytes, the number of
     a byte string, the word of a [big.Int] and the length in bits *)
  word_Uint64 : Z → Z; word_IsUint64 : Z → bool; word_Bytes20 : Z → Z;
  word_SetBytes : list byte → Z; word_SetFromBig : Z → Z; word_BitLen : Z → Z;

  Add_law : ∀ x y, word_ok x → word_ok y → word_Add x y = wrap (x + y);
  Sub_law : ∀ x y, word_ok x → word_ok y → word_Sub x y = wrap (x - y);
  Mul_law : ∀ x y, word_ok x → word_ok y → word_Mul x y = wrap (x * y);
  Div_law : ∀ x y, word_ok x → word_ok y → word_Div x y = if y =? 0 then 0 else x / y;
  SDiv_law : ∀ x y, word_ok x → word_ok y →
    word_SDiv x y = if y =? 0 then 0 else wrap (Z.quot (signed x) (signed y));
  Mod_law : ∀ x y, word_ok x → word_ok y → word_Mod x y = if y =? 0 then 0 else x mod y;
  SMod_law : ∀ x y, word_ok x → word_ok y →
    word_SMod x y = if y =? 0 then 0 else wrap (Z.rem (signed x) (signed y));
  Exp_law : ∀ x y, word_ok x → word_ok y → word_Exp x y = wrap (x ^ y);
  (* [num.ExtendSign(num, back)]: bit [8*back+7] is copied into the bits above *)
  ExtendSign_law : ∀ x b, word_ok x → word_ok b →
    word_ExtendSign x b = if b <? 31
                          then let n := 8 * b + 8 in
                               wrap (if Z.testbit x (n - 1) then x mod 2 ^ n - 2 ^ n else x mod 2 ^ n)
                          else x;
  AddMod_law : ∀ x y m, word_ok x → word_ok y → word_ok m →
    word_AddMod x y m = if m =? 0 then 0 else (x + y) mod m;
  MulMod_law : ∀ x y m, word_ok x → word_ok y → word_ok m →
    word_MulMod x y m = if m =? 0 then 0 else (x * y) mod m;
  Not_law : ∀ x, word_ok x → word_Not x = W256 - 1 - x;
  And_law : ∀ x y, word_ok x → word_ok y → word_And x y = Z.land x y;
  Or_law : ∀ x y, word_ok x → word_ok y → word_Or x y = Z.lor x y;
  Xor_law : ∀ x y, word_ok x → word_ok y → word_Xor x y = Z.lxor x y;
  (* [val.Byte(n)]: the [n]-th byte from the left *)
  Byte_law : ∀ x n, word_ok x → word_ok n →
    word_Byte x n = if n <? 32 then x / 256 ^ (31 - n) mod 256 else 0;
  Lsh_law : ∀ x n, word_ok x → 0 <= n → word_Lsh x n = wrap (x * 2 ^ n);
  Rsh_law : ∀ x n, word_ok x → 0 <= n → word_Rsh x n = x / 2 ^ n;
  SRsh_law : ∀ x n, word_ok x → 0 <= n → word_SRsh x n = wrap (signed x / 2 ^ n);
  Lt_law : ∀ x y, word_ok x → word_ok y → word_Lt x y = (x <? y);
  Gt_law : ∀ x y, word_ok x → word_ok y → word_Gt x y = (y <? x);
  Slt_law : ∀ x y, word_ok x → word_ok y → word_Slt x y = (signed x <? signed y);
  Sgt_law : ∀ x y, word_ok x → word_ok y → word_Sgt x y = (signed y <? signed x);
  Eq_law : ∀ x y, word_ok x → word_ok y → word_Eq x y = (x =? y);
  Sign_law : ∀ x, word_ok x → word_Sign x = Z.sgn (signed x);
  Uint64_law : ∀ x, word_Uint64 x = u64 x;
  IsUint64_law : ∀ x, word_IsUint64 x = (0 <=? x) && (x <? 2 ^ 64);
  Bytes20_law : ∀ x, word_Bytes20 x = x mod 2 ^ 160;
  SetBytes_law : ∀ l, bytes_ok l → word_SetBytes l = wrap (be_value l);
  SetFromBig_law : ∀ x, word_SetFromBig x = wrap x;
  BitLen_law : ∀ x, word_ok x → word_BitLen x = BitLen x;
}.

(** Functions of the package the source uses that are combinations of these. *)
Definition word_IsZero (x : Z) : bool := x =? 0.
Definition AllOne : Z := W256 - 1.

Section word.
Context {U : Uint256}.

(** [Uint64WithOverflow]. *)
Definition Uint64WithOverflow (x : Z) : Z * bool := (word_Uint64 x, negb (word_IsUint64 x)).

Lemma wrap_ok x : word_ok (wrap x).
Proof. apply Z.mod_pos_bound. done. Qed.

Lemma word_Uint64_range x : u64_ok (word_Uint64 x).
Proof. rewrite Uint64_law. apply u64_range. Qed.

Lemma Uint64WithOverflow_fits x y : Uint64WithOverflow x = (y, false) → y = x ∧ u64_ok x.
Proof.
  unfold Uint64WithOverflow. rewrite IsUint64_law, Uint64_law. intros [= <- H%negb_false_iff].
  apply andb_true_iff in H as [H1%Z.leb_le H2%Z.ltb_lt]. by rewrite u64_id.
Qed.

Lemma IsUint64_ok x : word_IsUint64 x = true → u64_ok x ∧ word_Uint64 x = x.
Proof.
  rewrite IsUint64_law, Uint64_law. intros H.
  apply andb_true_iff in H as [H1%Z.leb_le H2%Z.ltb_lt]. by rewrite u64_id.
Qed.

Lemma bit_ok b : word_ok (bit b).
Proof. by destruct b. Qed.

Lemma byte_word_ok x : 0 <= x < 256 → word_ok x.
Proof. unfold word_ok, W256. lia. Qed.

Lemma u64_word_ok x : u64_ok x → word_ok x.
Proof. unfold u64_ok, word_ok, W256. lia. Qed.

Lemma word_Bytes20_ok x : addr_ok (word_Bytes20 x) = true.
Proof.
  rewrite Bytes20_law. unfold addr_ok. pose proof (Z.mod_pos_bound x (2 ^ 160)).
  apply andb_true_iff. rewrite Z.leb_le, Z.ltb_lt. lia.
Qed.

End word.

#[export] Hint Resolve wrap_ok word_Uint64_range bit_ok u64_word_ok : pangu.

(** ** Every operation returns a word *)

Section ranges.
Context {U : Uint256}.

Lemma small_word_ok x y : word_ok y → 0 <= x <= y → word_ok x.
Proof. unfold word_ok. lia. Qed.

Lemma div_word_ok x y : word_ok x → 0 < y → word_ok (x / y).
Proof. intros H ?. apply (small_word_ok _ x H). unfold word_ok in H. split; [apply Z.div_pos; lia|apply Z.div_le_upper_bound; nia]. Qed.

Lemma mod_word_ok x y : word_ok y → 0 < y → word_ok (x mod y).
Proof. intros H ?. apply (small_word_ok _ y H). pose proof (Z.mod_pos_bound x y). lia. Qed.

(** A bitwise operation whose bits are bits of its arguments. *)
Lemma bitwise_word_ok (f : Z → Z → Z) x y :
  (∀ a b, 0 <= a → 0 <= b → 0 <= f a b) →
  (∀ a b n, Z.testbit a n = false → Z.testbit b n = false → Z.testbit (f a b) n = false) →
  word_ok x → word_ok y → word_ok (f x y).
Proof.
  intros Hnn Hbits [Hx Hx'] [Hy Hy']. split; [auto|].
  assert (f x y = f x y mod 2 ^ 256) as ->; [|by apply Z.mod_pos_bound].
  apply Z.bits_inj'. intros n Hn. destruct (Z.lt_ge_cases n 256).
  - by rewrite Z.mod_pow2_bits_low.
  - rewrite Z.mod_pow2_bits_high by lia. apply Hbits.
    + rewrite <- (Z.mod_small x (2 ^ 256)) by (unfold W256 in *; lia). apply Z.mod_pow2_bits_high. lia.
    + rewrite <- (Z.mod_small y (2 ^ 256)) by (unfold W256 in *; lia). apply Z.mod_pow2_bits_high. lia.
Qed.

Lemma word_binary_ok x y : word_ok x → word_ok y →
  word_ok (word_Add x y) ∧ word_ok (word_Sub x y) ∧ word_ok (word_Mul x y)
  ∧ word_ok (word_Div x y) ∧ word_ok (word_SDiv x y) ∧ word_ok (word_Mod x y)
  ∧ word_ok (word_SMod x y) ∧ word_ok (word_Exp x y) ∧ word_ok (word_ExtendSign x y)
  ∧ word_ok (word_And x y) ∧ word_ok (word_Or x y) ∧ word_ok (word_Xor x y)
  ∧ word_ok (word_Byte x y).
Proof.
  intros Hx Hy.
  rewrite Add_law, Sub_law, Mul_law, Div_law, SDiv_law, Mod_law, SMod_law, Exp_law,
    ExtendSign_law, And_law, Or_law, Xor_law, Byte_law by done.
  assert (word_ok 0) by done.
  split_and!; auto with pangu; try (case_match; auto with pangu);
    try (apply div_word_ok || apply mod_word_ok); try done;
    try (match goal with H : (_ =? 0) = false |- _ => apply Z.eqb_neq in H end; unfold word_ok in Hy; lia).
  - apply bitwise_word_ok; [|intros ??? H1 H2; by rewrite Z.land_spec, H1|done..].
    intros. rewrite Z.land_nonneg. lia.
  - apply bitwise_word_ok; [|intros ??? H1 H2; by rewrite Z.lor_spec, H1|done..].
    intros. rewrite Z.lor_nonneg. lia.
  - apply bitwise_word_ok; [|intros ??? H1 H2; by rewrite Z.lxor_spec, H1, H2|done..].
    intros. rewrite Z.lxor_nonneg. lia.
Qed.

Lemma word_ternary_ok x y m : word_ok x → word_ok y → word_ok m →
  word_ok (word_AddMod x y m) ∧ word_ok (word_MulMod x y m).
Proof.
  intros Hx Hy Hm. rewrite AddMod_law, MulMod_law by done.
  split; case_match eqn:E; try done; apply Z.eqb_neq in E; apply mod_word_ok; try done;
    unfold word_ok in Hm; lia.
Qed.

Lemma word_shift_ok x n : word_ok x → 0 <= n →
  word_ok (word_Lsh x n) ∧ word_ok (word_Rsh x n) ∧ word_ok (word_SRsh x n).
Proof.
  intros Hx Hn. rewrite Lsh_law, Rsh_law, SRsh_law by done. split_and!; auto with pangu.
  apply div_word_ok; [done|]. lia.
Qed.

Lemma word_Not_ok x : word_ok x → word_ok (word_Not x).
Proof. intros Hx. rewrite Not_law by done. unfold word_ok in *. lia. Qed.

Lemma word_SetBytes_ok l : bytes_ok l → word_ok (word_SetBytes l).
Proof. intros. rewrite SetBytes_law by done. auto with pangu. Qed.

Lemma word_SetFromBig_ok x : word_ok (word_SetFromBig x).
Proof. rewrite SetFromBig_law. auto with pangu. Qed.

End ranges.

(** ** An instance *)

Definition word_model : Uint256.
Proof.
  refine {| word_Add x y := wrap (x + y); word_Sub x y := wrap (x - y); word_Mul x y := wrap (x * y);
    word_Div x y := if y =? 0 then 0 else x / y;
    word_SDiv x y := if y =? 0 then 0 else wrap (Z.quot (signed x) (signed y));
    word_Mod x y := if y =? 0 then 0 else x mod y;
    word_SMod x y := if y =? 0 then 0 else wrap (Z.rem (signed x) (signed y));
    word_Exp x y := Zpow_mod x y W256;
    word_ExtendSign x b := if b <? 31
                           then let n := 8 * b + 8 in
                                wrap (if Z.testbit x (n - 1) then x mod 2 ^ n - 2 ^ n else x mod 2 ^ n)
                           else x;
    word_AddMod x y m := if m =? 0 then 0 else (x + y) mod m;
    word_MulMod x y m := if m =? 0 then 0 else (x * y) mod m;
    word_Not x := W256 - 1 - x; word_And := Z.land; word_Or := Z.lor; word_Xor := Z.lxor;
    word_Byte x n := if n <? 32 then x / 256 ^ (31 - n) mod 256 else 0;
    word_Lsh x n := wrap (x * 2 ^ n); word_Rsh x n := x / 2 ^ n; word_SRsh x n := wrap (signed x / 2 ^ n);
    word_Lt := Z.ltb; word_Gt x y := y <? x; word_Slt x y := signed x <? signed y;
    word_Sgt x y := signed y <? signed x; word_Eq := Z.eqb; word_Sign x := Z.sgn (signed x);
    word_Uint64 := u64; word_IsUint64 x := (0 <=? x) && (x <? 2 ^ 64); word_Bytes20 x := x mod 2 ^ 160;
    word_SetBytes l := wrap (be_value l); word_SetFromBig := wrap; word_BitLen := BitLen |};
    try done.
  intros x y _ Hy. unfold wrap. apply Zpow_mod_correct. done.
Defined.
