(* ===== verification/EvmBase.v ===== *)
(** * Data of the virtual machine (core/evm: opcodes.go, errors.go, stack.go, memory.go,
    common.go, gas.go, analysis.go)

    The operand stack, the byte memory, the jump destination analysis and the checked
    arithmetic of the machine, as pure functions.  A Go panic is the value [Panic]. *)

From S2P Require Import Prelude Bytes Params EvmWord.

(** ** Opcodes

    One constructor per named opcode; [PUSH n], [DUP n], [SWAP n] and [LOG n] stand for
    the numbered families.  Bytes without a name are [UNDEFINED]. *)

Inductive OpCode :=
| STOP | ADD | MUL | SUB | DIV | SDIV | MOD | SMOD | ADDMOD | MULMOD | EXP | SIGNEXTEND
| LT | GT | SLT | SGT | EQ | ISZERO | AND | OR | XOR | NOT | BYTE | SHL | SHR | SAR
| KECCAK256
| ADDRESS | BALANCE | ORIGIN | CALLER | CALLVALUE | CALLDATALOAD | CALLDATASIZE | CALLDATACOPY
| CODESIZE | CODECOPY | GASPRICE | EXTCODESIZE | EXTCODECOPY | RETURNDATASIZE | RETURNDATACOPY
| EXTCODEHASH
| BLOCKHASH | COINBASE | TIMESTAMP | NUMBER | DIFFICULTY | GASLIMIT | CHAINID | SELFBALANCE
| BASEFEE | BLOBHASH
| POP | MLOAD | MSTORE | MSTORE8 | SLOAD | SSTORE | JUMP | JUMPI | PC | MSIZE | GAS | JUMPDEST
| TLOAD | TSTORE | MCOPY | PUSH0
| PUSH (n : Z) | DUP (n : Z) | SWAP (n : Z) | LOG (n : Z)
| CREATE | CALL | CALLCODE | RETURN | DELEGATECALL | CREATE2 | STATICCALL | REVERT | INVALID
| SELFDESTRUCT
| UNDEFINED (b : byte).

(** The opcode of a byte. *)
Definition op_table : list (Z * OpCode) :=
  [(0x00, STOP); (0x01, ADD); (0x02, MUL); (0x03, SUB); (0x04, DIV); (0x05, SDIV); (0x06, MOD);
   (0x07, SMOD); (0x08, ADDMOD); (0x09, MULMOD); (0x0a, EXP); (0x0b, SIGNEXTEND);
   (0x10, LT); (0x11, GT); (0x12, SLT); (0x13, SGT); (0x14, EQ); (0x15, ISZERO); (0x16, AND);
   (0x17, OR); (0x18, XOR); (0x19, NOT); (0x1a, BYTE); (0x1b, SHL); (0x1c, SHR); (0x1d, SAR);
   (0x20, KECCAK256);
   (0x30, ADDRESS); (0x31, BALANCE); (0x32, ORIGIN); (0x33, CALLER); (0x34, CALLVALUE);
   (0x35, CALLDATALOAD); (0x36, CALLDATASIZE); (0x37, CALLDATACOPY); (0x38, CODESIZE);
   (0x39, CODECOPY); (0x3a, GASPRICE); (0x3b, EXTCODESIZE); (0x3c, EXTCODECOPY);
   (0x3d, RETURNDATASIZE); (0x3e, RETURNDATACOPY); (0x3f, EXTCODEHASH);
   (0x40, BLOCKHASH); (0x41, COINBASE); (0x42, TIMESTAMP); (0x43, NUMBER); (0x44, DIFFICULTY);
   (0x45, GASLIMIT); (0x46, CHAINID); (0x47, SELFBALANCE); (0x48, BASEFEE); (0x49, BLOBHASH);
   (0x50, POP); (0x51, MLOAD); (0x52, MSTORE); (0x53, MSTORE8); (0x54, SLOAD); (0x55, SSTORE);
   (0x56, JUMP); (0x57, JUMPI); (0x58, PC); (0x59, MSIZE); (0x5a, GAS); (0x5b, JUMPDEST);
   (0x5c, TLOAD); (0x5d, TSTORE); (0x5e, MCOPY); (0x5f, PUSH0);
   (0xf0, CREATE); (0xf1, CALL); (0xf2, CALLCODE); (0xf3, RETURN); (0xf4, DELEGATECALL);
   (0xf5, CREATE2); (0xfa, STATICCALL); (0xfd, REVERT); (0xfe, INVALID); (0xff, SELFDESTRUCT)].

Definition op_of_byte (b : byte) : OpCode :=
  if (0x60 <=? b) && (b <=? 0x7f) then PUSH (b - 0x5f)
  else if (0x80 <=? b) && (b <=? 0x8f) then DUP (b - 0x7f)
  else if (0x90 <=? b) && (b <=? 0x9f) then SWAP (b - 0x8f)
  else if (0xa0 <=? b) && (b <=? 0xa4) then LOG (b - 0xa0)
  else match list_find (λ e, e.1 = b) op_table with
       | Some (_, (_, op)) => op
       | None => UNDEFINED b
       end.

(** ** Errors *)

Inductive vm_error :=
| ErrOutOfGas | ErrCodeStoreOutOfGas | ErrDepth | ErrInsufficientBalance
| ErrContractAddressCollision | ErrExecutionReverted | ErrMaxInitCodeSizeExceeded
| ErrMaxCodeSizeExceeded | ErrInvalidJump | ErrWriteProtection | ErrReturnDataOutOfBounds
| ErrGasUintOverflow | ErrInvalidCode | ErrNonceUintOverflow
| errStopToken
| ErrStackUnderflow (stackLen required : Z)
| ErrStackOverflow (stackLen limit : Z)
| ErrInvalidOpCode (opcode : byte)
(* an error made at the place it is returned, equal to no variable above *)
| errors_New (msg : string).

(** ** Checked arithmetic (common/math/integer.go) *)

Definition SafeAdd (x y : Z) : Z * bool := (u64 (x + y), 2 ^ 64 <=? x + y).
Definition SafeMul (x y : Z) : Z * bool := (u64 (x * y), 2 ^ 64 <=? x * y).

(** [int64(x)] and [int(x)] of a [uint64]. *)
Definition int64 (x : Z) : Z := if x <? 2 ^ 63 then x else x - 2 ^ 64.

(** ** Slices *)

(** [l[i:j]]; the capacity of a slice is taken to be its length. *)
Definition go_slice {A} (l : list A) (i j : Z) : res (list A) :=
  if (0 <=? i) && (i <=? j) && (j <=? Z.of_nat (length l))
  then Ok (take (Z.to_nat (j - i)) (drop (Z.to_nat i) l))
  else Panic "slice bounds out of range".

(** [copy(l[i:], v)]: as many bytes as both sides have. *)
Definition go_copy_at {A} (l : list A) (i : Z) (v : list A) : list A :=
  let k := Z.to_nat i in
  let v := take (length l - k) v in
  take k l ++ v ++ drop (k + length v) l.

Definition len {A} (l : list A) : Z := Z.of_nat (length l).

(** [make([]byte, n)]. *)
Definition zeroes (n : Z) : list byte := replicate (Z.to_nat n) 0.

(** common/bytes.go *)
Definition RightPadBytes (slice : list byte) (l : Z) : list byte :=
  if l <=? len slice then slice else slice ++ zeroes (l - len slice).
Definition LeftPadBytes (slice : list byte) (l : Z) : list byte :=
  if l <=? len slice then slice else zeroes (l - len slice) ++ slice.

(** ** Stack

    The top of the stack, the last element of [data], is the head of the list. *)

Definition Stack := list Z.

Definition st_len (st : Stack) : Z := len st.

Definition st_push (d : Z) (st : Stack) : Stack := d :: st.

Definition st_pop (st : Stack) : res (Z * Stack) :=
  match st with
  | x :: st => Ok (x, st)
  | [] => Panic "index out of range"
  end.

(** [Back(n)] reads [data[len-n-1]]. *)
Definition st_Back (st : Stack) (n : Z) : res Z := go_index st n.

Definition st_peek (st : Stack) : res Z := st_Back st 0.

(** A write through the pointer [peek()] returned. *)
Definition st_set_top (x : Z) (st : Stack) : Stack :=
  match st with _ :: st => x :: st | [] => [] end.

(** [dup(n)] pushes [data[len-n]]. *)
Definition st_dup (st : Stack) (n : Z) : res Stack :=
  x ← go_index st (n - 1); Ok (x :: st).

(** [swap(n)] exchanges [data[len-n]] and [data[len-1]]. *)
Definition st_swap (st : Stack) (n : Z) : res Stack :=
  x ← go_index st (n - 1); y ← go_index st 0;
  Ok (<[0%nat := x]> (<[Z.to_nat (n - 1) := y]> st)).

(** ** Stack bounds (stack_table.go) *)

Definition maxStack (pop push : Z) : Z := StackLimit + pop - push.
Definition minStack (pops push : Z) : Z := pops.
Definition minSwapStack (n : Z) : Z := minStack n n.
Definition maxSwapStack (n : Z) : Z := maxStack n n.
Definition minDupStack (n : Z) : Z := minStack n (n + 1).
Definition maxDupStack (n : Z) : Z := maxStack n (n + 1).

(** ** Memory *)

Record Memory := mkMemory { store : list byte; lastGasCost : Z }.

Definition NewMemory : Memory := mkMemory [] 0.

Definition mem_Len (m : Memory) : Z := len (store m).

Definition mem_Set (m : Memory) (offset size : Z) (value : list byte) : res Memory :=
  if 0 <? size then
    if mem_Len m <? (offset + size)%u64 then Panic "invalid memory: store empty"
    else _ ← go_slice (store m) offset (offset + size)%u64;
         Ok (mkMemory (go_copy_at (store m) offset (take (Z.to_nat size) value)) (lastGasCost m))
  else Ok m.

Definition mem_Set32 (m : Memory) (offset : Z) (val : Z) : res Memory :=
  if mem_Len m <? (offset + 32)%u64 then Panic "invalid memory: store empty"
  else _ ← go_slice (store m) offset (mem_Len m);
       Ok (mkMemory (go_copy_at (store m) offset (be_bytes 32 val)) (lastGasCost m)).

Definition mem_Resize (m : Memory) (size : Z) : Memory :=
  if mem_Len m <? size then mkMemory (store m ++ zeroes (size - mem_Len m)) (lastGasCost m) else m.

(** [offset] and [size] are [int64]; [GetCopy] returns the same bytes in a new slice. *)
Definition mem_GetPtr (m : Memory) (offset size : Z) : res (list byte) :=
  if size =? 0 then Ok []
  else if offset <? mem_Len m then go_slice (store m) offset (offset + size)
  else Ok [].

Definition mem_GetCopy (m : Memory) (offset size : Z) : res (list byte) :=
  if size =? 0 then Ok []
  else if offset <? mem_Len m
       then if size <? 0 then Panic "makeslice: len out of range"
            else go_slice (store m) offset (offset + size)
       else Ok [].

Definition mem_Copy (m : Memory) (dst src length : Z) : res Memory :=
  if length =? 0 then Ok m
  else bytes ← go_slice (store m) src (src + length)%u64;
       _ ← go_slice (store m) dst (mem_Len m);
       Ok (mkMemory (go_copy_at (store m) dst bytes) (lastGasCost m)).

(** ** common.go *)

Definition toWordSize (size : Z) : Z :=
  if MaxUint64 - 31 <? size then MaxUint64 / 32 + 1 else (size + 31)%u64 / 32.

Definition getData (data : list byte) (start size : Z) : res (list byte) :=
  let length := len data in
  let start := if length <? start then length else start in
  let end_ := (start + size)%u64 in
  let end_ := if length <? end_ then length else end_ in
  s ← go_slice data start end_;
  Ok (RightPadBytes s (int64 size)).

Definition allZero (b : list byte) : bool := forallb (λ x, x =? 0) b.

Section sizes.
Context {U : Uint256}.

Definition calcMemSize64WithUint (off length64 : Z) : Z * bool :=
  if length64 =? 0 then (0, false)
  else let '(offset64, overflow) := Uint64WithOverflow off in
       if overflow : bool then (0, true)
       else let val := (offset64 + length64)%u64 in (val, val <? offset64).

Definition calcMemSize64 (off l : Z) : Z * bool :=
  if word_IsUint64 l then calcMemSize64WithUint off (word_Uint64 l) else (0, true).

(** gas.go *)
Definition callGas (availableGas base callCost : Z) : Z * option vm_error :=
  let availableGas := (availableGas - base)%u64 in
  let gas := (availableGas - availableGas / 64)%u64 in
  if negb (word_IsUint64 callCost) || (gas <? word_Uint64 callCost) then (gas, None)
  else if negb (word_IsUint64 callCost) then (0, Some ErrGasUintOverflow)
  else (word_Uint64 callCost, None).

End sizes.

(** ** Jump destination analysis (analysis.go)

    A [bitvec] is a slice of bytes, updated in place; an index out of range panics. *)

Abbreviation bitvec := (list byte) (only parsing).

(** [bits[i] = f(bits[i])] for a byte result. *)
Definition bits_upd (bits : bitvec) (i : Z) (f : byte → byte) : res bitvec :=
  x ← go_index bits i; Ok (<[Z.to_nat i := f x]> bits).

Definition set1 (bits : bitvec) (pos : Z) : res bitvec :=
  bits_upd bits (pos / 8) (λ x, Z.lor x (1 ≪ (pos mod 8))).

Definition setN (bits : bitvec) (flag pos : Z) : res bitvec :=
  let a := (flag ≪ (pos mod 8)) mod 2 ^ 16 in
  bits ← bits_upd bits (pos / 8) (λ x, Z.lor x (byte_of a));
  let b := byte_of (a ≫ 8) in
  if b =? 0 then Ok bits else bits_upd bits (pos / 8 + 1) (λ _, b).

Definition set8 (bits : bitvec) (pos : Z) : res bitvec :=
  let a := byte_of (0xff ≪ (pos mod 8)) in
  bits ← bits_upd bits (pos / 8) (λ x, Z.lor x a);
  bits_upd bits (pos / 8 + 1) (λ _, 0xff - a).

Definition set16 (bits : bitvec) (pos : Z) : res bitvec :=
  let a := byte_of (0xff ≪ (pos mod 8)) in
  bits ← bits_upd bits (pos / 8) (λ x, Z.lor x a);
  bits ← bits_upd bits (pos / 8 + 1) (λ _, 0xff);
  bits_upd bits (pos / 8 + 2) (λ _, 0xff - a).

Definition codeSegment (bits : bitvec) (pos : Z) : res bool :=
  x ← go_index bits (pos / 8); Ok (Z.land (x ≫ (pos mod 8)) 1 =? 0).

(** The [switch] on the last up to seven bits. *)
Definition set_rest (bits : bitvec) (numbits pc : Z) : res (bitvec * Z) :=
  match numbits with
  | 1 => bits ← set1 bits pc; Ok (bits, pc + 1)
  | 2 => bits ← setN bits 0x3 pc; Ok (bits, pc + 2)
  | 3 => bits ← setN bits 0x7 pc; Ok (bits, pc + 3)
  | 4 => bits ← setN bits 0xf pc; Ok (bits, pc + 4)
  | 5 => bits ← setN bits 0x1f pc; Ok (bits, pc + 5)
  | 6 => bits ← setN bits 0x3f pc; Ok (bits, pc + 6)
  | 7 => bits ← setN bits 0x7f pc; Ok (bits, pc + 7)
  | _ => Ok (bits, pc)
  end.

(** [for ; numbits >= 8; numbits -= 8]: at most one round is left after the loop below,
    and that one runs at most twice, since [numbits] is at most 32. *)
Fixpoint set8_loop (rounds : nat) (bits : bitvec) (numbits pc : Z) : res (bitvec * Z * Z) :=
  match rounds with
  | O => Ok (bits, numbits, pc)
  | S n => if 8 <=? numbits
           then bits ← set8 bits pc; set8_loop n bits (numbits - 8) (pc + 8)
           else Ok (bits, numbits, pc)
  end.

Fixpoint set16_loop (rounds : nat) (bits : bitvec) (numbits pc : Z) : res (bitvec * Z * Z) :=
  match rounds with
  | O => Ok (bits, numbits, pc)
  | S n => if 16 <=? numbits
           then bits ← set16 bits pc; set16_loop n bits (numbits - 16) (pc + 16)
           else Ok (bits, numbits, pc)
  end.

(** One instruction at [pc]; the result is the position of the next. *)
Definition mark_instr (bits : bitvec) (op : byte) (pc : Z) : res (bitvec * Z) :=
  let pc := pc + 1 in
  (* int8(op) < int8(PUSH1) *)
  if (op <? 0x60) || (0x80 <=? op) then Ok (bits, pc)
  else
    let numbits := op - 0x60 + 1 in
    '(bits, numbits, pc) ←
      (if 8 <=? numbits
       then '(bits, numbits, pc) ← set16_loop 2 bits numbits pc;
            set8_loop 1 bits numbits pc
       else Ok (bits, numbits, pc));
    set_rest bits numbits pc.

(** Every round advances [pc], so the length of the code is enough fuel. *)
Fixpoint bitmap_loop (fuel : nat) (code : list byte) (bits : bitvec) (pc : Z) : res bitvec :=
  if pc <? len code then
    match fuel with
    | O => Panic "unreachable"
    | S fuel =>
        op ← go_index code pc;
        '(bits, pc) ← mark_instr bits op pc;
        bitmap_loop fuel code bits pc
    end
  else Ok bits.

Definition codeBitmapInternal (code : list byte) (bits : bitvec) : res bitvec :=
  bitmap_loop (length code) code bits 0.

Definition codeBitmap (code : list byte) : res bitvec :=
  codeBitmapInternal code (zeroes (len code / 8 + 1 + 4)).
