(* ===== verification/EvmAnalysis.v ===== *)
(** * The jump destination analysis is exact

    [codeBitmap] marks the arguments of push instructions a word at a time.  It is
    compared with the definition that walks over the code byte by byte. *)

From S2P Require Import Prelude Bytes Params EvmWord EvmBase.

(** ** Reference definition *)

(** The number of argument bytes of an instruction. *)
Definition push_args (op : byte) : nat :=
  if (op <? 0x60) || (0x80 <=? op) then 0%nat else Z.to_nat (op - 0x5f).

(** For every byte, whether it belongs to the argument of a push; [skip] argument bytes
    are still to come. *)
Fixpoint data_mask (skip : nat) (code : list byte) : list bool :=
  match code with
  | [] => []
  | op :: code => match skip with
                  | O => false :: data_mask (push_args op) code
                  | S n => true :: data_mask n code
                  end
  end.

(** ** The bits of a vector *)

Definition vbit (bits : bitvec) (i : Z) : bool :=
  Z.testbit (default 0 (bits !! Z.to_nat (i / 8))) (i mod 8).

(** [bits'] is [bits] with the [n] bits from [pos] set. *)
Definition marks (bits : bitvec) (pos n : Z) (bits' : bitvec) : Prop :=
  length bits' = length bits ∧
  ∀ i, 0 <= i → vbit bits' i = vbit bits i || ((pos <=? i) && (i <? pos + n)).

Definition clean (bits : bitvec) (pos : Z) : Prop := ∀ i, pos <= i → vbit bits i = false.

Lemma marks_clean bits pos n bits' : 0 <= pos → 0 <= n →
  marks bits pos n bits' → clean bits pos → clean bits' (pos + n).
Proof.
  intros Hp Hn [_ H] Hc i Hi. rewrite H, (Hc i) by lia. simpl.
  apply andb_false_iff. right. apply Z.ltb_ge. lia.
Qed.

Lemma marks_refl bits pos : marks bits pos 0 bits.
Proof.
  split; [done|]. intros i _. destruct (vbit bits i); [done|]. rewrite Z.add_0_r. simpl.
  destruct (Z.leb_spec pos i), (Z.ltb_spec i pos); lia || done.
Qed.

Lemma marks_trans bits pos n m b1 b2 : 0 <= n → 0 <= m →
  marks bits pos n b1 → marks b1 (pos + n) m b2 → marks bits pos (n + m) b2.
Proof.
  intros Hn Hm [Hl H] [Hl' H']. split; [congruence|]. intros i Hi. rewrite H', H by done.
  destruct (vbit bits i); simpl; [done|].
  destruct (Z.leb_spec pos i), (Z.ltb_spec i (pos + n)), (Z.leb_spec (pos + n) i),
    (Z.ltb_spec i (pos + n + m)), (Z.ltb_spec i (pos + (n + m))); simpl; lia || done.
Qed.

Lemma bits_upd_ok bits k f : 0 <= k < len bits →
  ∃ bits', bits_upd bits k f = Ok bits' ∧ length bits' = length bits ∧
    ∀ i, 0 <= i → vbit bits' i = if i / 8 =? k
                                 then Z.testbit (f (default 0 (bits !! Z.to_nat k))) (i mod 8)
                                 else vbit bits i.
Proof.
  unfold len. intros Hk. unfold bits_upd, go_index.
  destruct (Z.ltb_spec k 0); [lia|].
  destruct (lookup_lt_is_Some_2 bits (Z.to_nat k)) as [x Hx]; [lia|]. rewrite Hx. simpl.
  eexists. split; [done|]. split; [apply length_insert|]. intros i Hi. unfold vbit.
  pose proof (Z.div_pos i 8).
  destruct (Z.eqb_spec (i / 8) k) as [->|Hne].
  - rewrite list_lookup_insert_eq by lia. done.
  - rewrite list_lookup_insert_ne by lia. done.
Qed.

(** ** Bytes of the masks, by enumeration *)

Definition below (n : nat) (P : Z → bool) : bool := forallb (λ k, P (Z.of_nat k)) (seq 0 n).

Lemma below_spec n P x : below n P = true → 0 <= x < Z.of_nat n → P x = true.
Proof.
  unfold below. rewrite forallb_forall. intros H Hx. rewrite <- (Z2Nat.id x) by lia.
  apply H, in_seq. lia.
Qed.

(** The bits of [0xff << r], of its complement, and of the two bytes of a mask of at most
    seven ones. *)
Lemma low_mask_bits r j : 0 <= r < 8 → 0 <= j < 8 →
  Z.testbit (byte_of (0xff ≪ r)) j = (r <=? j) ∧ Z.testbit (0xff - byte_of (0xff ≪ r)) j = (j <? r).
Proof.
  intros Hr Hj.
  assert (below 8 (λ r, below 8 (λ j,
    Bool.eqb (Z.testbit (byte_of (0xff ≪ r)) j) (r <=? j)
    && Bool.eqb (Z.testbit (0xff - byte_of (0xff ≪ r)) j) (j <? r))) = true) as H by (vm_compute; done).
  apply below_spec with (x := r) in H; [|lia]. apply below_spec with (x := j) in H; [|lia].
  apply andb_true_iff in H as [H1%eqb_prop H2%eqb_prop]. done.
Qed.

Lemma ones_mask_bits n r j : 0 <= n < 8 → 0 <= r < 8 → 0 <= j < 8 →
  let a := (Z.ones n ≪ r) mod 2 ^ 16 in
  Z.testbit (byte_of a) j = (r <=? j) && (j <? r + n) ∧ Z.testbit (byte_of (a ≫ 8)) j = (j + 8 <? r + n).
Proof.
  intros Hn Hr Hj.
  assert (below 8 (λ n, below 8 (λ r, below 8 (λ j,
    let a := (Z.ones n ≪ r) mod 2 ^ 16 in
    Bool.eqb (Z.testbit (byte_of a) j) ((r <=? j) && (j <? r + n))
    && Bool.eqb (Z.testbit (byte_of (a ≫ 8)) j) (j + 8 <? r + n)))) = true) as H by (vm_compute; done).
  apply below_spec with (x := n) in H; [|lia]. apply below_spec with (x := r) in H; [|lia].
  apply below_spec with (x := j) in H; [|lia]. cbv zeta in *.
  apply andb_true_iff in H as [H1%eqb_prop H2%eqb_prop]. done.
Qed.

(** ** The setters *)

Ltac div8 i pos :=
  pose proof (Z.div_mod i 8 ltac:(lia)); pose proof (Z.mod_pos_bound i 8 ltac:(lia));
  pose proof (Z.div_mod pos 8 ltac:(lia)); pose proof (Z.mod_pos_bound pos 8 ltac:(lia)).

Ltac decide_bools :=
  repeat match goal with
  | |- context [?x =? ?y] => destruct (Z.eqb_spec x y)
  | |- context [?x <=? ?y] => destruct (Z.leb_spec x y)
  | |- context [?x <? ?y] => destruct (Z.ltb_spec x y)
  end; simpl; rewrite ?orb_true_r, ?orb_false_r, ?andb_true_r, ?andb_false_r; lia || done.

Lemma vbit_here bits i k : i / 8 = k → Z.testbit (default 0 (bits !! Z.to_nat k)) (i mod 8) = vbit bits i.
Proof. by intros <-. Qed.

Lemma set8_ok bits pos : 0 <= pos → pos / 8 + 1 < len bits → clean bits pos →
  ∃ bits', set8 bits pos = Ok bits' ∧ marks bits pos 8 bits'.
Proof.
  intros Hp Hl Hc. unfold set8. pose proof (Z.div_pos pos 8 Hp).
  destruct (bits_upd_ok bits (pos / 8) (λ x, Z.lor x (byte_of (0xff ≪ (pos mod 8))))) as (b1 & -> & L1 & V1); [lia|].
  cbn [mbind res_bind].
  destruct (bits_upd_ok b1 (pos / 8 + 1) (λ _, 0xff - byte_of (0xff ≪ (pos mod 8)))) as (b2 & -> & L2 & V2);
    [unfold len in *; lia|].
  exists b2. split; [done|]. split; [congruence|]. intros i Hi. rewrite V2, V1 by done. div8 i pos.
  destruct (low_mask_bits (pos mod 8) (i mod 8)) as [M1 M2]; [lia..|].
  destruct (Z.eqb_spec (i / 8) (pos / 8 + 1)).
  - rewrite M2, (Hc i) by lia. decide_bools.
  - destruct (Z.eqb_spec (i / 8) (pos / 8)) as [E|E].
    + rewrite Z.lor_spec, M1, (vbit_here bits i _ E). destruct (vbit bits i); decide_bools.
    + destruct (vbit bits i); decide_bools.
Qed.

Lemma set16_ok bits pos : 0 <= pos → pos / 8 + 2 < len bits → clean bits pos →
  ∃ bits', set16 bits pos = Ok bits' ∧ marks bits pos 16 bits'.
Proof.
  intros Hp Hl Hc. unfold set16. pose proof (Z.div_pos pos 8 Hp).
  destruct (bits_upd_ok bits (pos / 8) (λ x, Z.lor x (byte_of (0xff ≪ (pos mod 8))))) as (b1 & -> & L1 & V1); [lia|].
  cbn [mbind res_bind].
  destruct (bits_upd_ok b1 (pos / 8 + 1) (λ _, 0xff)) as (b2 & -> & L2 & V2); [unfold len in *; lia|].
  cbn [mbind res_bind].
  destruct (bits_upd_ok b2 (pos / 8 + 2) (λ _, 0xff - byte_of (0xff ≪ (pos mod 8)))) as (b3 & -> & L3 & V3);
    [unfold len in *; lia|].
  exists b3. split; [done|]. split; [congruence|]. intros i Hi. rewrite V3, V2, V1 by done. div8 i pos.
  destruct (low_mask_bits (pos mod 8) (i mod 8)) as [M1 M2]; [lia..|].
  destruct (Z.eqb_spec (i / 8) (pos / 8 + 2)).
  - rewrite M2, (Hc i) by lia. decide_bools.
  - destruct (Z.eqb_spec (i / 8) (pos / 8 + 1)).
    + change 0xff with (Z.ones 8). rewrite Z.ones_spec_low, (Hc i) by lia. decide_bools.
    + destruct (Z.eqb_spec (i / 8) (pos / 8)) as [E|E].
      * rewrite Z.lor_spec, M1, (vbit_here bits i _ E). destruct (vbit bits i); decide_bools.
      * destruct (vbit bits i); decide_bools.
Qed.

Lemma setN_ok bits n pos : 0 <= n < 8 → 0 <= pos → pos / 8 + 1 < len bits → clean bits pos →
  ∃ bits', setN bits (Z.ones n) pos = Ok bits' ∧ marks bits pos n bits'.
Proof.
  intros Hn Hp Hl Hc. unfold setN. pose proof (Z.div_pos pos 8 Hp).
  set (a := (Z.ones n ≪ (pos mod 8)) mod 2 ^ 16).
  destruct (bits_upd_ok bits (pos / 8) (λ x, Z.lor x (byte_of a))) as (b1 & -> & L1 & V1); [lia|].
  cbn [mbind res_bind].
  assert (∃ b2, (if byte_of (a ≫ 8) =? 0 then Ok b1 else bits_upd b1 (pos / 8 + 1) (λ _, byte_of (a ≫ 8))) = Ok b2
    ∧ length b2 = length b1
    ∧ ∀ i, 0 <= i → vbit b2 i = if (i / 8 =? pos / 8 + 1) && negb (byte_of (a ≫ 8) =? 0)
                                then Z.testbit (byte_of (a ≫ 8)) (i mod 8) else vbit b1 i)
    as (b2 & -> & L2 & V2).
  { destruct (byte_of (a ≫ 8) =? 0).
    - exists b1. split; [done|]. split; [done|]. intros. by rewrite andb_false_r.
    - destruct (bits_upd_ok b1 (pos / 8 + 1) (λ _, byte_of (a ≫ 8))) as (b2 & -> & L2 & V2);
        [unfold len in *; lia|].
      exists b2. split; [done|]. split; [done|]. intros. by rewrite V2, andb_true_r. }
  exists b2. split; [done|]. split; [congruence|]. intros i Hi. rewrite V2, V1 by done. div8 i pos.
  destruct (ones_mask_bits n (pos mod 8) (i mod 8)) as [M1 M2]; [lia..|]. fold a in M1, M2.
  destruct (Z.eqb_spec (i / 8) (pos / 8 + 1)) as [E|E]; simpl.
  - rewrite (Hc i) by lia. destruct (Z.eqb_spec (byte_of (a ≫ 8)) 0) as [E0|E0]; simpl.
    + rewrite E0, Z.bits_0 in M2. destruct (Z.eqb_spec (i / 8) (pos / 8)); [lia|].
      revert M2. decide_bools.
    + rewrite M2. decide_bools.
  - destruct (Z.eqb_spec (i / 8) (pos / 8)) as [E'|E'].
    + rewrite Z.lor_spec, M1, (vbit_here bits i _ E'). destruct (vbit bits i); decide_bools.
    + destruct (vbit bits i); decide_bools.
Qed.

Lemma set1_setN bits pos : 0 <= pos → set1 bits pos = setN bits (Z.ones 1) pos.
Proof.
  intros Hp. unfold set1, setN. pose proof (Z.mod_pos_bound pos 8).
  assert (below 8 (λ r, ((((Z.ones 1 ≪ r) mod 2 ^ 16) ≫ 8) =? 0)
                        && (byte_of ((Z.ones 1 ≪ r) mod 2 ^ 16) =? (1 ≪ r))) = true) as H1 by (vm_compute; done).
  apply below_spec with (x := pos mod 8) in H1; [|lia].
  apply andb_true_iff in H1 as [->%Z.eqb_eq ->%Z.eqb_eq].
  change (byte_of 0 =? 0) with true. cbn iota. by destruct (bits_upd _ _ _).
Qed.

Lemma set_rest_ok bits n pos : 0 <= n < 8 → 0 <= pos → (0 < n → pos / 8 + 1 < len bits) →
  clean bits pos → ∃ bits', set_rest bits n pos = Ok (bits', pos + n) ∧ marks bits pos n bits'.
Proof.
  intros Hn Hp Hl Hc. destruct (Z.eq_dec n 0) as [->|Hn0].
  { exists bits. rewrite Z.add_0_r. auto using marks_refl. }
  destruct (setN_ok bits n pos Hn Hp) as (b & Hb & Hm); [apply Hl; lia|done|].
  exists b. split; [|done].
  assert (n = 1 ∨ n = 2 ∨ n = 3 ∨ n = 4 ∨ n = 5 ∨ n = 6 ∨ n = 7) as Hcase by lia.
  destruct Hcase as [->|[->|[->|[->|[->|[->| ->]]]]]]; cbn [set_rest];
    rewrite ?set1_setN by done;
    match goal with |- context [setN bits ?f pos] => by rewrite (Hb : setN bits f pos = Ok b) end.
Qed.

(** ** The loop *)

Lemma set16_loop_ok k bits n pos : 0 <= n < 16 * (Z.of_nat k + 1) → 0 <= pos →
  (pos + n) / 8 < len bits → clean bits pos →
  ∃ bits' m, set16_loop k bits n pos = Ok (bits', n - m, pos + m)
    ∧ marks bits pos m bits' ∧ 0 <= n - m < 16 ∧ 0 <= m ∧ m mod 8 = 0.
Proof.
  revert bits n pos. induction k as [|k IH]; intros bits n pos Hn Hp Hl Hc; cbn [set16_loop].
  - exists bits, 0. rewrite Z.sub_0_r, Z.add_0_r. split; [done|]. split; [apply marks_refl|]. split_and!; lia || done.
  - destruct (Z.leb_spec 16 n).
    2:{ exists bits, 0. rewrite Z.sub_0_r, Z.add_0_r. split; [done|]. split; [apply marks_refl|]. split_and!; lia || done. }
    destruct (set16_ok bits pos) as (b1 & -> & M1); [done| |done|].
    { assert ((pos + 16) / 8 <= (pos + n) / 8) by (apply Z.div_le_mono; lia).
      replace (pos + 16) with (pos + 2 * 8) in * by lia. rewrite Z.div_add in * by lia. lia. }
    cbn [mbind res_bind].
    destruct (IH b1 (n - 16) (pos + 16)) as (b2 & m & -> & M2 & Hm & Hm' & Hmod); [lia|lia| | |].
    { replace (pos + 16 + (n - 16)) with (pos + n) by lia. unfold len in *. destruct M1 as [-> _]. done. }
    { eapply marks_clean; [lia|lia|exact M1|done]. }
    exists b2, (16 + m). split; [f_equal; f_equal; [f_equal|]; lia|]. split_and!; try lia.
    + eapply marks_trans; [lia|lia|exact M1|done].
    + replace (16 + m) with (m + 2 * 8) by lia. by rewrite Z.mod_add.
Qed.

Lemma set8_loop_ok bits n pos : 0 <= n < 16 → 0 <= pos →
  (pos + n) / 8 < len bits → clean bits pos →
  ∃ bits' m, set8_loop 1 bits n pos = Ok (bits', n - m, pos + m)
    ∧ marks bits pos m bits' ∧ 0 <= n - m < 8 ∧ 0 <= m ∧ m mod 8 = 0.
Proof.
  intros Hn Hp Hl Hc. cbn [set8_loop]. destruct (Z.leb_spec 8 n).
  - destruct (set8_ok bits pos) as (b1 & -> & M1); [done| |done|].
    { assert ((pos + 8) / 8 <= (pos + n) / 8) by (apply Z.div_le_mono; lia).
      replace (pos + 8) with (pos + 1 * 8) in * by lia. rewrite Z.div_add in * by lia. lia. }
    exists b1, 8. split; [done|]. split; [done|]. split_and!; lia || done.
  - exists bits, 0. rewrite Z.sub_0_r, Z.add_0_r. split; [done|]. split; [apply marks_refl|]. split_and!; lia || done.
Qed.

(** One instruction marks its argument, and nothing else. *)
Lemma mark_instr_ok bits op pc l : 0 <= pc < l → len bits = l / 8 + 1 + 4 → clean bits (pc + 1) →
  let n := Z.of_nat (push_args op) in
  ∃ bits', mark_instr bits op pc = Ok (bits', pc + 1 + n) ∧ marks bits (pc + 1) n bits'.
Proof.
  intros Hpc Hl Hc. unfold mark_instr, push_args.
  destruct ((op <? 0x60) || (0x80 <=? op)) eqn:Hop.
  { exists bits. rewrite Z.add_0_r. auto using marks_refl. }
  apply orb_false_iff in Hop as [H1%Z.ltb_ge H2%Z.leb_gt]. rewrite Z2Nat.id by lia.
  replace (op - 0x60 + 1) with (op - 0x5f) by lia. set (n := op - 0x5f).
  assert (∀ k, k <= 32 → (pc + 1 + k) / 8 <= l / 8 + 4) as Hdiv.
  { intros k Hk. replace (l / 8 + 4) with ((l + 4 * 8) / 8) by (rewrite Z.div_add by lia; lia).
    apply Z.div_le_mono; lia. }
  assert (∃ b m, (if 8 <=? n then '(bits, n, p) ← set16_loop 2 bits n (pc + 1); set8_loop 1 bits n p
                  else Ok (bits, n, pc + 1)) = Ok (b, n - m, pc + 1 + m)
    ∧ marks bits (pc + 1) m b ∧ 0 <= n - m < 8 ∧ 0 <= m ∧ m mod 8 = 0) as (b & m & -> & Hm & Hr & Hm0 & Hmod).
  { destruct (Z.leb_spec 8 n).
    2:{ exists bits, 0. rewrite Z.sub_0_r, Z.add_0_r. split; [done|]. split; [apply marks_refl|].
        split_and!; lia || done. }
    destruct (set16_loop_ok 2 bits n (pc + 1)) as (b1 & m1 & -> & M1 & ? & ? & ?);
      [lia|lia|specialize (Hdiv n); lia|done|]. cbn [mbind res_bind].
    destruct (set8_loop_ok b1 (n - m1) (pc + 1 + m1)) as (b2 & m2 & -> & M2 & ? & ? & ?); [lia|lia| | |].
    { replace (pc + 1 + m1 + (n - m1)) with (pc + 1 + n) by lia. specialize (Hdiv n). unfold len in *.
      destruct M1 as [-> _]. lia. }
    { eapply marks_clean; [lia|lia|exact M1|done]. }
    exists b2, (m1 + m2). split; [f_equal; f_equal; [f_equal|]; lia|]. split_and!; try lia.
    - eapply marks_trans; [lia|lia|exact M1|done].
    - rewrite Z.add_mod by lia. by replace (m1 mod 8) with 0; replace (m2 mod 8) with 0. }
  cbn [mbind res_bind].
  destruct (set_rest_ok b (n - m) (pc + 1 + m)) as (b' & -> & M'); [lia|lia| | |].
  { intros Hpos. assert (m <= 24).
    { pose proof (Z.div_mod m 8 ltac:(lia)). lia. }
    specialize (Hdiv (m + 8)). replace (pc + 1 + (m + 8)) with (pc + 1 + m + 1 * 8) in Hdiv by lia.
    rewrite Z.div_add in Hdiv by lia. unfold len in *. destruct Hm as [-> _]. lia. }
  { eapply marks_clean; [lia|lia|exact Hm|done]. }
  exists b'. split; [f_equal; f_equal; lia|]. replace n with (m + (n - m)) by lia.
  eapply marks_trans; [lia|lia|exact Hm|done].
Qed.

(** ** The walk over the code *)

Lemma data_mask_length skip code : length (data_mask skip code) = length code.
Proof. revert skip. induction code as [|op code IH]; intros [|k]; simpl; auto. Qed.

(** The argument bytes of a push, as far as the code has them. *)
Lemma data_mask_skip skip code :
  data_mask skip code = replicate (skip `min` length code) true ++ data_mask 0 (drop skip code).
Proof.
  revert skip. induction code as [|op code IH]; intros [|k]; try done. simpl. by rewrite IH.
Qed.

(** Whether byte [i] of the code is an argument byte, for a walk that has reached the
    instruction at [pc]. *)
Definition masked (pc : Z) (code : list byte) (i : Z) : bool :=
  default false (data_mask 0 (drop (Z.to_nat pc) code) !! Z.to_nat (i - pc)).

Lemma masked_step pc code op i : 0 <= pc → code !! Z.to_nat pc = Some op →
  let n := Z.of_nat (push_args op) in
  pc <= i < len code →
  masked pc code i = if i <? pc + 1 + n then pc + 1 <=? i else masked (pc + 1 + n) code i.
Proof.
  intros Hpc Hop n Hi. unfold masked, len in *. rewrite (drop_S _ _ _ Hop). cbn [data_mask].
  rewrite data_mask_skip, drop_drop, length_drop.
  destruct (Z.leb_spec (pc + 1) i).
  2:{ assert (i = pc) as -> by lia. rewrite Z.sub_diag. simpl.
      by destruct (Z.ltb_spec pc (pc + 1 + n)); [|lia]. }
  replace (Z.to_nat (i - pc)) with (S (Z.to_nat (i - pc - 1))) by lia.
  rewrite <- (lookup_tail (false :: _)). cbn [tail].
  destruct (Z.ltb_spec i (pc + 1 + n)).
  - rewrite lookup_app_l by (rewrite length_replicate; lia).
    by rewrite lookup_replicate_2 by lia.
  - rewrite lookup_app_r by (rewrite length_replicate; lia). rewrite length_replicate.
    do 2 f_equal; [|f_equal; f_equal]; lia.
Qed.

Lemma bitmap_loop_ok fuel code bits pc : 0 <= pc → len code - pc <= Z.of_nat fuel →
  len bits = len code / 8 + 1 + 4 → clean bits pc →
  ∃ bits', bitmap_loop fuel code bits pc = Ok bits' ∧ length bits' = length bits ∧
    ∀ i, 0 <= i < len code → vbit bits' i = if i <? pc then vbit bits i else masked pc code i.
Proof.
  revert bits pc. induction fuel as [|fuel IH]; intros bits pc Hpc Hf Hl Hc; cbn [bitmap_loop].
  all: destruct (Z.ltb_spec pc (len code)) as [Hlt|Hge].
  - lia.
  - exists bits. split_and!; [done..|]. intros i Hi. by destruct (Z.ltb_spec i pc); [|lia].
  - destruct (lookup_lt_is_Some_2 code (Z.to_nat pc)) as [op Hop]; [unfold len in *; lia|].
    assert (go_index code pc = Ok op) as -> by (by apply go_index_Ok). cbn [mbind res_bind].
    destruct (mark_instr_ok bits op pc (len code)) as (b1 & -> & M1); [lia|done|intros i Hi; apply Hc; lia|].
    cbn [mbind res_bind]. set (n := Z.of_nat (push_args op)) in *.
    assert (clean b1 (pc + 1 + n)) as Hc1.
    { eapply marks_clean; [lia|lia|exact M1|]. intros i Hi. apply Hc. lia. }
    destruct (IH b1 (pc + 1 + n)) as (b2 & -> & L2 & V2); [lia|lia| |done|].
    { unfold len in *. destruct M1 as [-> _]. done. }
    destruct M1 as [L1 V1]. exists b2. split_and!; [done|congruence|]. intros i Hi. rewrite V2 by done.
    destruct (Z.ltb_spec i pc).
    + rewrite V1 by lia. destruct (vbit bits i); decide_bools.
    + rewrite (masked_step pc code op i) by (done || lia). fold n. destruct (Z.ltb_spec i (pc + 1 + n)); [|done].
      rewrite V1, Hc by lia. decide_bools.
  - exists bits. split_and!; [done..|]. intros i Hi. by destruct (Z.ltb_spec i pc); [|lia].
Qed.

Lemma clean_zeroes n pos : clean (zeroes n) pos.
Proof.
  intros i _. unfold vbit, zeroes.
  destruct (replicate (Z.to_nat n) 0 !! _) as [x|] eqn:E; simpl; [|apply Z.bits_0].
  apply lookup_replicate in E as [-> _]. apply Z.bits_0.
Qed.

Lemma codeSegment_vbit bits i : 0 <= i → i / 8 < len bits → codeSegment bits i = Ok (negb (vbit bits i)).
Proof.
  intros Hi Hl. unfold codeSegment, vbit, go_index, len in *. pose proof (Z.div_pos i 8 Hi).
  destruct (Z.ltb_spec (i / 8) 0); [lia|].
  destruct (lookup_lt_is_Some_2 bits (Z.to_nat (i / 8))) as [x ->]; [lia|]. simpl. f_equal.
  rewrite Z.testbit_eqb by (apply Z.mod_pos_bound; lia). rewrite Z.shiftr_div_pow2 by (apply Z.mod_pos_bound; lia).
  change 1 with (Z.ones 1). rewrite Z.land_ones by lia. change (2 ^ 1) with 2. change (Z.ones 1) with 1.
  pose proof (Z.mod_pos_bound (x / 2 ^ (i mod 8)) 2).
  destruct (Z.eqb_spec (x / 2 ^ (i mod 8) mod 2) 0), (Z.eqb_spec (x / 2 ^ (i mod 8) mod 2) 1); lia || done.
Qed.

Lemma codeBitmap_ok code :
  ∃ bits, codeBitmap code = Ok bits ∧
    ∀ i, 0 <= i < len code →
      codeSegment bits i = Ok (negb (default false (data_mask 0 code !! Z.to_nat i))).
Proof.
  assert (0 <= len code) by (unfold len; lia). pose proof (Z.div_pos (len code) 8).
  unfold codeBitmap, codeBitmapInternal.
  destruct (bitmap_loop_ok (length code) code (zeroes (len code / 8 + 1 + 4)) 0) as (bits & -> & L & V);
    [done|unfold len; lia| |apply clean_zeroes|].
  { unfold len at 1, zeroes. rewrite length_replicate. lia. }
  exists bits. split; [done|]. intros i Hi. rewrite codeSegment_vbit; [|lia|].
  2:{ unfold len at 1. rewrite L. unfold zeroes. rewrite length_replicate.
      assert (i / 8 <= len code / 8) by (apply Z.div_le_mono; lia). lia. }
  rewrite V by done. destruct (Z.ltb_spec i 0); [lia|]. unfold masked. simpl. by rewrite Z.sub_0_r.
Qed.

(** C31: The jump destination analysis is exact: for every code, [codeBitmap] returns
    without a run-time panic, however the code ends, and at every position of the code
    [codeSegment] answers whether a byte-by-byte walk finds an instruction there rather
    than the argument of a push. *)
Theorem codeBitmap_exact code :
  ∃ bits, codeBitmap code = Ok bits ∧
    ∀ i, 0 <= i < len code →
      codeSegment bits i = Ok (negb (default false (data_mask 0 code !! Z.to_nat i))).
Proof. apply codeBitmap_ok. Qed.
