(* ===== verification/Types.v ===== *)
(** * Transactions and signers (core/types/PanguTransaction.go, transaction.go,
    signer.go, hashing.go)

    [PanguTransaction] is the payload, with [None] for a nil pointer; [Transaction] adds
    the caches.  The accessors dereference the pointers, so they are results of the
    panic monad. *)

From S2P Require Import Prelude Bytes Params RlpEncode RlpRaw Common AccessList.

(** ** Data *)

Inductive tx_error :=
| ErrInvalidSig | ErrInvalidTxType | ErrTxTypeNotSupported | ErrGasFeeCapTooLow
| ErrMaxInitCodeSizeExceeded | ErrShortTypedTx | ErrFeeCapVeryHigh | ErrTipVeryHigh
| ErrTipAboveFeeCap | ErrIntrinsicGas | ErrGasUintOverflow | ErrNonceTooLow
| ErrNonceTooHigh | ErrInsufficientFunds | ErrInvalidChainId | ErrInvalidSigAlgo
| errPublicKey | errCrypto (msg : string).

Definition PanguTxType : byte := 0x01.
Definition SIG_ECDSA : byte := 0x00.

Record PanguTransaction := mkPanguTransaction {
  pt_To : option Address;
  pt_Nonce : Z;
  pt_Value : option Z;
  pt_GasLimit : Z;
  pt_FeeCap : option Z;
  pt_TipCap : option Z;
  pt_ChainID : option Z;
  pt_SigAlgo : byte;
  pt_Signature : list byte;
  pt_EncAlgo : byte;
  pt_EncContent : list byte;
  pt_VmType : byte;
  pt_Data : list byte;
  pt_AccessList : option AccessList;
}.

Record panguSigner := mkSigner { chainId : Z; chainIdMul : Z }.

(** The value [types.Sender] stores in [Transaction.from]. *)
Record sigCache := mkSigCache { sc_signer : panguSigner; sc_from : Address }.

Record Transaction := mkTransaction {
  inner : PanguTransaction;
  tx_time : Z;
  tx_hash : option Hash;
  tx_size : option Z;
  tx_from : option sigCache;
}.

(** ** The payload *)

(** [copy]: the pointers are fresh, nil amounts become zero; [EncAlgo], [EncContent] and
    [VmType] keep their zero values. *)
Definition copy (tx : PanguTransaction) : res PanguTransaction :=
  al ← deref (pt_AccessList tx);
  Ok {| pt_To := pt_To tx;
        pt_Nonce := pt_Nonce tx;
        pt_Value := Some (default 0 (pt_Value tx));
        pt_GasLimit := pt_GasLimit tx;
        pt_FeeCap := Some (default 0 (pt_FeeCap tx));
        pt_TipCap := Some (default 0 (pt_TipCap tx));
        pt_ChainID := Some (default 0 (pt_ChainID tx));
        pt_SigAlgo := pt_SigAlgo tx;
        pt_Signature := pt_Signature tx;
        pt_EncAlgo := 0;
        pt_EncContent := [];
        pt_VmType := 0;
        pt_Data := pt_Data tx;
        pt_AccessList := Some al |}.

Definition setSigValues (tx : PanguTransaction) (chainID : option Z) (sig : list byte)
    (sigAlgo : byte) : PanguTransaction :=
  {| pt_To := pt_To tx; pt_Nonce := pt_Nonce tx; pt_Value := pt_Value tx;
     pt_GasLimit := pt_GasLimit tx; pt_FeeCap := pt_FeeCap tx; pt_TipCap := pt_TipCap tx;
     pt_ChainID := chainID; pt_SigAlgo := sigAlgo; pt_Signature := sig;
     pt_EncAlgo := pt_EncAlgo tx; pt_EncContent := pt_EncContent tx;
     pt_VmType := pt_VmType tx; pt_Data := pt_Data tx; pt_AccessList := pt_AccessList tx |}.

Definition effectiveGasPrice (tx : PanguTransaction) (baseFee : option Z) : res Z :=
  feeCap ← deref (pt_FeeCap tx);
  match baseFee with
  | None => Ok feeCap
  | Some baseFee =>
      let tip := feeCap - baseFee in
      tipCap ← deref (pt_TipCap tx);
      let tip := if tipCap <? tip then tipCap else tip in
      Ok (tip + baseFee)
  end.

(** ** Accessors *)

Definition NewTx (t : PanguTransaction) (now : Z) : res Transaction :=
  cpy ← copy t; Ok (mkTransaction cpy now None None None).

Definition tx_Type (tx : Transaction) : byte := PanguTxType.
Definition tx_ChainId (tx : Transaction) : option Z := pt_ChainID (inner tx).
Definition tx_EncContent (tx : Transaction) : list byte := pt_EncContent (inner tx).
Definition tx_Data (tx : Transaction) : list byte := pt_Data (inner tx).
Definition tx_AccessList (tx : Transaction) : option AccessList := pt_AccessList (inner tx).
Definition tx_GasLimit (tx : Transaction) : Z := pt_GasLimit (inner tx).
Definition tx_GasPrice (tx : Transaction) : res Z := deref (pt_FeeCap (inner tx)).
Definition tx_GasTipCap (tx : Transaction) : res Z := deref (pt_TipCap (inner tx)).
Definition tx_GasFeeCap (tx : Transaction) : res Z := deref (pt_FeeCap (inner tx)).
Definition tx_Value (tx : Transaction) : res Z := deref (pt_Value (inner tx)).
Definition tx_Nonce (tx : Transaction) : Z := pt_Nonce (inner tx).
Definition tx_To (tx : Transaction) : option Address := pt_To (inner tx).
Definition tx_SigAlgo (tx : Transaction) : byte := pt_SigAlgo (inner tx).
Definition tx_RawSigValues (tx : Transaction) : list byte := pt_Signature (inner tx).

Definition tx_Cost (tx : Transaction) : res Z :=
  price ← tx_GasPrice tx;
  value ← tx_Value tx;
  Ok (price * tx_GasLimit tx + value).

(** [big.Int.Cmp] as [-1], [0], [1]. *)
Definition big_Cmp (x y : Z) : Z :=
  match x ?= y with Lt => -1 | Eq => 0 | Gt => 1 end.

Definition GasFeeCapCmp (tx other : Transaction) : res Z :=
  x ← deref (pt_FeeCap (inner tx)); y ← deref (pt_FeeCap (inner other)); Ok (big_Cmp x y).
Definition GasFeeCapIntCmp (tx : Transaction) (other : Z) : res Z :=
  x ← deref (pt_FeeCap (inner tx)); Ok (big_Cmp x other).
Definition GasTipCapCmp (tx other : Transaction) : res Z :=
  x ← deref (pt_TipCap (inner tx)); y ← deref (pt_TipCap (inner other)); Ok (big_Cmp x y).
Definition GasTipCapIntCmp (tx : Transaction) (other : Z) : res Z :=
  x ← deref (pt_TipCap (inner tx)); Ok (big_Cmp x other).

(** The tip and, when it is negative, the error that comes with it. *)
Definition EffectiveGasTip (tx : Transaction) (baseFee : option Z)
  : res (Z * option tx_error) :=
  match baseFee with
  | None => tip ← tx_GasTipCap tx; Ok (tip, None)
  | Some baseFee =>
      gasFeeCap ← tx_GasFeeCap tx;
      let err := if big_Cmp gasFeeCap baseFee =? -1 then Some ErrGasFeeCapTooLow else None in
      tip ← tx_GasTipCap tx;
      let rest := gasFeeCap - baseFee in
      Ok (if 0 <? big_Cmp tip rest then rest else tip, err)
  end.
Definition EffectiveGasTipValue (tx : Transaction) (baseFee : option Z) : res Z :=
  '(tip, _) ← EffectiveGasTip tx baseFee; Ok tip.
Definition EffectiveGasTipCmp (tx other : Transaction) (baseFee : option Z) : res Z :=
  match baseFee with
  | None => GasTipCapCmp tx other
  | _ => x ← EffectiveGasTipValue tx baseFee;
         y ← EffectiveGasTipValue other baseFee; Ok (big_Cmp x y)
  end.
Definition EffectiveGasTipIntCmp (tx : Transaction) (other : Z) (baseFee : option Z) : res Z :=
  match baseFee with
  | None => GasTipCapIntCmp tx other
  | _ => x ← EffectiveGasTipValue tx baseFee; Ok (big_Cmp x other)
  end.

(** ** Intrinsic gas *)

Definition toWordSize (size : Z) : Z :=
  if MaxUint64 - 31 <? size then MaxUint64 / 32 + 1 else (size + 31)%u64 / 32.

Definition count_nonzero (data : list byte) : Z :=
  foldl (λ nz byt, if byt =? 0 then nz else (nz + 1)%u64) 0 data.

(** The part of [IntrinsicGas] that prices the payload. *)
Definition payload_gas (tx : Transaction) : tx_error + Z :=
  let gas := TxGas in
  let data := tx_Data tx in
  let dataLen := u64 (Z.of_nat (length data)) in
  if 0 <? dataLen then
    let nz := count_nonzero data in
    let nonZeroGas := TxDataNonZeroGasEIP2028 in
    if (MaxUint64 - gas) / nonZeroGas <? nz then inl ErrGasUintOverflow
    else
      let gas := (gas + nz * nonZeroGas)%u64 in
      let z := (dataLen - nz)%u64 in
      if (MaxUint64 - gas) / TxDataZeroGas <? z then inl ErrGasUintOverflow
      else
        let gas := (gas + z * TxDataZeroGas)%u64 in
        match tx_To tx with
        | None =>
            let lenWords := toWordSize dataLen in
            if (MaxUint64 - gas) / InitCodeWordGas <? lenWords then inl ErrGasUintOverflow
            else inr (gas + lenWords * InitCodeWordGas)%u64
        | Some _ => inr gas
        end
  else inr gas.

Definition IntrinsicGas (tx : Transaction) : tx_error + Z :=
  gas ← payload_gas tx;
  match tx_AccessList tx with
  | None => inr gas
  | Some accessList =>
      let gas := (gas + u64 (Len accessList) * TxAccessListAddressGas)%u64 in
      let gas := (gas + u64 (StorageKeys accessList) * TxAccessListStorageKeyGas)%u64 in
      inr gas
  end.

(** ** Hashing *)

Section hashing.
Context `{Crypto}.

(** [prefixedRlpHash]: the error of [rlp.Encode] is dropped; what was written before it
    (the prefix) is hashed. *)
Definition prefixedRlpHash (prefix : byte) (x : GoValue) : Hash :=
  be_value (Keccak256 ([prefix] ++ fst (Encode x))).

Definition rlpHash (x : GoValue) : Hash := be_value (Keccak256 (fst (Encode x))).

(** A [*common.Address] field; nil is the empty string. *)
Definition rlp_address_ptr (a : option Address) : GoValue :=
  VPtr 0x80 (VByteArray ∘ Address_Bytes <$> a).

(** A pointer to the struct [accesslist.AccessList]: a map and a slice of maps, kinds for
    which [makeWriter] has no writer.  [makePtrWriter] returns the error of the element
    type, so the field is refused whether or not the pointer is nil. *)
Definition rlp_access_list (al : option AccessList) : GoValue := VUnsupported.

(** The struct [PanguTransaction] as the encoder sees it. *)
Definition rlp_PanguTransaction (tx : PanguTransaction) : GoValue :=
  VStruct 14
    [(false, rlp_address_ptr (pt_To tx)); (false, VUint (pt_Nonce tx));
     (false, VBigIntPtr (pt_Value tx)); (false, VUint (pt_GasLimit tx));
     (false, VBigIntPtr (pt_FeeCap tx)); (false, VBigIntPtr (pt_TipCap tx));
     (false, VBigIntPtr (pt_ChainID tx)); (false, VUint (pt_SigAlgo tx));
     (false, VBytes (pt_Signature tx)); (false, VUint (pt_EncAlgo tx));
     (false, VBytes (pt_EncContent tx)); (false, VUint (pt_VmType tx));
     (false, VBytes (pt_Data tx)); (false, rlp_access_list (pt_AccessList tx))].

(** [Transaction.Hash]: the hash and the transaction with the cache filled. *)
Definition tx_Hash (tx : Transaction) : res (Hash * Transaction) :=
  match tx_hash tx with
  | Some h => Ok (h, tx)
  | None =>
      cpy ← copy (inner tx);
      let h := prefixedRlpHash (tx_Type tx) (VPtr 0xC0 (Some (rlp_PanguTransaction cpy))) in
      Ok (h, mkTransaction (inner tx) (tx_time tx) (Some h) (tx_size tx) (tx_from tx))
  end.

(** [Transaction.Size]: the number of bytes [rlp.Encode] writes, plus one. *)
Definition tx_Size (tx : Transaction) : Z * Transaction :=
  match tx_size tx with
  | Some s => (s, tx)
  | None =>
      let v := VPtr 0xC0 (Some (rlp_PanguTransaction (inner tx))) in
      let c := Z.of_nat (length (fst (Encode (VPtr 0xC0 (Some (VInterface (Some v))))))) in
      (c + 1, mkTransaction (inner tx) (tx_time tx) (tx_hash tx) (Some (c + 1)) (tx_from tx))
  end.

Definition WithSignature (tx : Transaction) (signer : panguSigner) (sig : list byte)
    (sigAlgo : byte) : res Transaction :=
  cpy ← copy (inner tx);
  Ok (mkTransaction (setSigValues cpy (Some (chainId signer)) sig sigAlgo) (tx_time tx)
        None None None).

(** [TxDifference] and [HashDifference]. *)
Definition HashDifference (a b : list Hash) : list Hash :=
  let remove := foldl (λ (m : gset Hash) h, {[h]} ∪ m) ∅ b in
  filter (λ h, h ∉ remove) a.

Definition TxDifference (a b : list Transaction) : res (list Transaction) :=
  hb ← mapM tx_Hash b;
  ha ← mapM tx_Hash a;
  let remove := foldl (λ (m : gset Hash) h, {[h]} ∪ m) ∅ hb.*1 in
  Ok ((filter (λ p : Hash * Transaction, p.1 ∉ remove) ha).*2).

(** ** Signatures *)

Definition SignatureLength : nat := 65.

(** [DecodeSignature]: [V] is a byte, so [sig[64] + 27] wraps at 256. *)
Definition DecodeSignature (sig : list byte) : res (Z * Z * Z) :=
  if negb (Nat.eqb (length sig) SignatureLength) then Panic "wrong size for signature"
  else Ok (be_value (take 32 sig), be_value (take 32 (drop 32 sig)),
           byte_of (sig !!! 64%nat + 27)).

(** [copy(sig[32-len(r):32], r)]: [r] has at most 32 bytes when the values are valid. *)
Definition left_pad (n : nat) (b : list byte) : list byte := replicate (n - length b) 0 ++ b.

Definition RecoverPlain (sighash : Hash) (R S Vb : Z) (homestead : bool) : tx_error + Address :=
  if 8 <? BitLen Vb then inl ErrInvalidSig
  else
    let V := byte_of (Vb - 27)%u64 in
    if negb (ValidateSignatureValues V R S homestead) then inl ErrInvalidSig
    else
      let sig := left_pad 32 (big_Bytes R) ++ left_pad 32 (big_Bytes S) ++ [V] in
      match Ecrecover (Hash_Bytes sighash) sig with
      | inl msg => inl (errCrypto msg)
      | inr pub =>
          match pub with
          | x :: rest => if x =? 4 then inr (BytesToAddress (drop 12 (Keccak256 rest)))
                         else inl errPublicKey
          | [] => inl errPublicKey
          end
      end.

Definition DeriveChainId (v : Z) : Z :=
  if BitLen v <=? 64 then
    let v := Z.abs v in
    if (v =? 27) || (v =? 28) then 0 else (v - 35)%u64 / 2
  else (v - 35) / 2.

(** ** The signer *)

Definition NewPanguSigner (chainId : option Z) : panguSigner :=
  let chainId := default 0 chainId in mkSigner chainId (chainId * 2).

(** The values [signer_Hash] lists, as [[]interface{}]. *)
Definition signing_fields (s : panguSigner) (tx : Transaction) (tip cap value : Z)
  : list GoValue :=
  [VBigIntPtr (Some (chainId s)); VUint (tx_Nonce tx); VBigIntPtr (Some tip);
   VBigIntPtr (Some cap); VUint (tx_GasLimit tx); rlp_address_ptr (tx_To tx);
   VBigIntPtr (Some value); VBytes (tx_Data tx); VBytes (tx_EncContent tx)].

Definition signer_Hash (s : panguSigner) (tx : Transaction) : res Hash :=
  tip ← tx_GasTipCap tx;
  cap ← tx_GasFeeCap tx;
  value ← tx_Value tx;
  Ok (prefixedRlpHash (tx_Type tx)
        (VSlice false ((VInterface ∘ Some) <$> signing_fields s tx tip cap value))).

Definition signer_Sender (s : panguSigner) (tx : Transaction) : res (tx_error + Address) :=
  if negb (tx_Type tx =? PanguTxType) then Ok (inl ErrTxTypeNotSupported)
  else if tx_SigAlgo tx =? SIG_ECDSA then
    '(R, S_, V) ← DecodeSignature (tx_RawSigValues tx);
    cid ← deref (tx_ChainId tx);
    if negb (big_Cmp cid (chainId s) =? 0) then Ok (inl ErrInvalidChainId)
    else
      h ← signer_Hash s tx;
      Ok (RecoverPlain h R S_ V true)
  else Ok (inl ErrInvalidSigAlgo).

Definition signer_Equal (s x : panguSigner) : bool := big_Cmp (chainId x) (chainId s) =? 0.

(** [types.Sender]: the cached address when the signer matches, otherwise the derived
    one, which is cached. *)
Definition Sender (signer : panguSigner) (tx : Transaction)
  : res ((tx_error + Address) * Transaction) :=
  let derive :=
    r ← signer_Sender signer tx;
    Ok (match r with
        | inl err => (inl err, tx)
        | inr addr => (inr addr, mkTransaction (inner tx) (tx_time tx) (tx_hash tx) (tx_size tx)
                                   (Some (mkSigCache signer addr)))
        end) in
  match tx_from tx with
  | Some sc => if signer_Equal (sc_signer sc) signer then Ok (inr (sc_from sc), tx) else derive
  | None => derive
  end.

(** The method [Transaction.Sender] asserts that the cached value is an address; the
    only value ever stored is a [sigCache]. *)
Definition tx_Sender (tx : Transaction) (signer : panguSigner) : res (tx_error + Address) :=
  match tx_from tx with
  | Some _ => Panic "interface conversion: interface {} is types.sigCache, not common.Address"
  | None => signer_Sender signer tx
  end.

Definition SignTx (tx : Transaction) (s : panguSigner) (prv : list byte) (algo : byte)
  : res (tx_error + Transaction) :=
  h ← signer_Hash s tx;
  if algo =? SIG_ECDSA then
    match ToECDSA prv with
    | inl msg => Ok (inl (errCrypto msg))
    | inr pri_k =>
        match Sign (Hash_Bytes h) pri_k with
        | inl msg => Ok (inl (errCrypto msg))
        | inr sig => tx' ← WithSignature tx s sig algo; Ok (inr tx')
        end
    end
  else Ok (inl ErrInvalidSigAlgo).

Definition SignNewTx (txdata : PanguTransaction) (now : Z) (s : panguSigner) (prv : list byte)
    (algo : byte) : res (tx_error + Transaction) :=
  tx ← NewTx txdata now; SignTx tx s prv algo.

End hashing.

(** ** Gas prices *)

(** The effective gas price is the smaller of the fee cap and the base fee plus the
    tip cap; the effective tip is the smaller of the tip cap and what the fee cap leaves
    above the base fee, and it comes with [ErrGasFeeCapTooLow] exactly when the fee cap
    is below the base fee. *)
Theorem effective_price_and_tip tx cap tip baseFee :
  pt_FeeCap (inner tx) = Some cap → pt_TipCap (inner tx) = Some tip →
  effectiveGasPrice (inner tx) (Some baseFee) = Ok (Z.min cap (baseFee + tip)) ∧
  EffectiveGasTip tx (Some baseFee)
  = Ok (Z.min tip (cap - baseFee),
        if cap <? baseFee then Some ErrGasFeeCapTooLow else None).
Proof.
  intros Hc Ht. unfold effectiveGasPrice, EffectiveGasTip, tx_GasFeeCap, tx_GasTipCap, big_Cmp.
  rewrite Hc, Ht. simpl. split.
  - f_equal. destruct (Z.ltb_spec tip (cap - baseFee)); lia.
  - do 2 f_equal.
    + destruct (Z.compare_spec tip (cap - baseFee)); simpl; lia.
    + destruct (Z.compare_spec cap baseFee), (Z.ltb_spec cap baseFee); done || lia.
Qed.

(** A transaction for the witnesses below. *)
Definition sample_tx (sig data : list byte) : Transaction :=
  mkTransaction (mkPanguTransaction (Some 0xAA) 3 (Some 10) 100000 (Some 50) (Some 2) (Some 7) 0
    sig 0 [] 0 data (Some NewAccessList)) 0 None None None.

Lemma effective_price_and_tip_witness :
  effectiveGasPrice (inner (sample_tx [] [])) (Some 40) = Ok (Z.min 50 (40 + 2)) ∧
  EffectiveGasTip (sample_tx [] []) (Some 40)
  = Ok (Z.min 2 (50 - 40), if 50 <? 40 then Some ErrGasFeeCapTooLow else None).
Proof. apply effective_price_and_tip; reflexivity. Defined.

(** ** Intrinsic gas: the checks are exact for the data, absent for the access list *)

Definition nonzeros (data : list byte) : Z := Z.of_nat (length (filter (λ b, b ≠ 0) data)).

(** The exact cost of the payload, as an unbounded integer. *)
Definition data_gas (tx : Transaction) : Z :=
  let len := Z.of_nat (length (tx_Data tx)) in
  let nz := nonzeros (tx_Data tx) in
  TxGas + nz * TxDataNonZeroGasEIP2028 + (len - nz) * TxDataZeroGas
  + match tx_To tx with None => (len + 31) / 32 * InitCodeWordGas | Some _ => 0 end.

Definition access_list_gas (tx : Transaction) : Z :=
  match tx_AccessList tx with
  | None => 0
  | Some al => Len al * TxAccessListAddressGas + StorageKeys al * TxAccessListStorageKeyGas
  end.

Lemma nonzeros_range data : 0 <= nonzeros data <= Z.of_nat (length data).
Proof. unfold nonzeros. pose proof (length_filter (λ b, b ≠ 0) data). lia. Qed.

Lemma count_nonzero_spec data :
  Z.of_nat (length data) < 2 ^ 64 → count_nonzero data = nonzeros data.
Proof.
  induction data as [|b data IH] using rev_ind; intros Hn; [done|].
  rewrite length_app in Hn. simpl in Hn. unfold count_nonzero in *.
  rewrite foldl_app, IH by lia. unfold nonzeros. rewrite filter_app, length_app.
  cbn [foldl]. pose proof (nonzeros_range data) as Hr. unfold nonzeros in Hr.
  destruct (Z.eqb_spec b 0) as [->|].
  - rewrite filter_cons_False by auto. simpl. lia.
  - rewrite filter_cons_True by done. simpl. rewrite u64_id; [lia|]. unfold u64_ok. lia.
Qed.

Lemma toWordSize_spec size : u64_ok size → toWordSize size = (size + 31) / 32.
Proof.
  unfold u64_ok, toWordSize, MaxUint64. intros Hs.
  destruct (Z.ltb_spec (2 ^ 64 - 1 - 31) size).
  - apply (Z.div_unique _ _ _ (size + 31 - 2 ^ 64)); [lia|].
    change ((2 ^ 64 - 1) / 32) with (2 ^ 59 - 1). lia.
  - rewrite u64_id; [done|]. unfold u64_ok. lia.
Qed.

(** The overflow test of the source: [(MaxUint64-gas)/c < n] iff [gas + n*c] overflows. *)
Lemma gas_check gas n c :
  0 < c → ((MaxUint64 - gas) / c <? n) = (2 ^ 64 <=? gas + n * c).
Proof.
  intros Hc. unfold MaxUint64. apply eq_true_iff_eq. rewrite Z.ltb_lt, Z.leb_le.
  split; intros Hlt.
  - assert (2 ^ 64 - 1 - gas < c * n); [|lia].
    apply Z.nle_gt. intros Hle. apply Z.div_le_lower_bound in Hle; lia.
  - apply Z.div_lt_upper_bound; lia.
Qed.

Lemma data_gas_nonneg tx : 0 <= data_gas tx.
Proof.
  unfold data_gas. pose proof (nonzeros_range (tx_Data tx)).
  assert (0 <= (Z.of_nat (length (tx_Data tx)) + 31) / 32) by (apply Z.div_pos; lia).
  unfold TxGas, TxDataNonZeroGasEIP2028, TxDataZeroGas, InitCodeWordGas.
  destruct (tx_To tx); lia.
Qed.

Lemma payload_gas_spec tx :
  Z.of_nat (length (tx_Data tx)) < 2 ^ 64 →
  payload_gas tx = if 2 ^ 64 <=? data_gas tx then inl ErrGasUintOverflow else inr (data_gas tx).
Proof.
  intros Hn. pose proof (nonzeros_range (tx_Data tx)) as Hr. unfold payload_gas, data_gas.
  rewrite u64_id by (unfold u64_ok; lia). rewrite count_nonzero_spec by done.
  rewrite toWordSize_spec by (unfold u64_ok; lia).
  set (len := Z.of_nat (length (tx_Data tx))) in *. set (nz := nonzeros (tx_Data tx)) in *.
  assert (0 <= (len + 31) / 32) by (apply Z.div_pos; lia).
  change TxGas with 21000. change TxDataNonZeroGasEIP2028 with 16.
  change TxDataZeroGas with 4. change InitCodeWordGas with 2. rewrite !gas_check by lia.
  destruct (Z.ltb_spec 0 len) as [Hlen|Hlen].
  2: { assert (len = 0) as -> by lia. assert (nz = 0) as -> by lia. by destruct (tx_To tx). }
  destruct (Z.leb_spec (2 ^ 64) (21000 + nz * 16)).
  { destruct (Z.leb_spec (2 ^ 64) (21000 + nz * 16 + (len - nz) * 4 +
      match tx_To tx with None => (len + 31) / 32 * 2 | Some _ => 0 end)); [done|].
    destruct (tx_To tx); lia. }
  u64_norm. rewrite (u64_id (21000 + nz * 16)), (u64_id (len - nz)) by (unfold u64_ok; lia).
  destruct (Z.leb_spec (2 ^ 64) (21000 + nz * 16 + (len - nz) * 4)).
  { destruct (Z.leb_spec (2 ^ 64) (21000 + nz * 16 + (len - nz) * 4 +
      match tx_To tx with None => (len + 31) / 32 * 2 | Some _ => 0 end)); [done|].
    destruct (tx_To tx); lia. }
  rewrite (u64_id (21000 + nz * 16 + (len - nz) * 4)) by (unfold u64_ok; lia).
  destruct (tx_To tx).
  - rewrite Z.add_0_r. destruct (Z.leb_spec (2 ^ 64) (21000 + nz * 16 + (len - nz) * 4)); [lia|done].
  - destruct (Z.leb_spec (2 ^ 64) (21000 + nz * 16 + (len - nz) * 4 + (len + 31) / 32 * 2)); [done|].
    rewrite u64_id by (unfold u64_ok; lia). done.
Qed.

(** [IntrinsicGas] returns [ErrGasUintOverflow] exactly when the cost of the payload
    does not fit 64 bits, and otherwise the cost of payload and access list modulo 2^64:
    the additions for the access list are not checked. *)
Theorem IntrinsicGas_spec tx :
  Z.of_nat (length (tx_Data tx)) < 2 ^ 64 →
  IntrinsicGas tx = if 2 ^ 64 <=? data_gas tx then inl ErrGasUintOverflow
                    else inr (u64 (data_gas tx + access_list_gas tx)).
Proof.
  intros Hn. unfold IntrinsicGas. rewrite payload_gas_spec by done.
  destruct (Z.leb_spec (2 ^ 64) (data_gas tx)) as [|Hlt]; [done|].
  cbn [mbind err_bind]. unfold access_list_gas. destruct (tx_AccessList tx) as [al|].
  - f_equal. u64_norm.
    f_equal. ring.
  - rewrite Z.add_0_r, u64_id; [done|]. split; [|lia]. apply data_gas_nonneg.
Qed.

Lemma IntrinsicGas_spec_witness : IntrinsicGas (sample_tx [] [0; 1; 2]) = inr 21036.
Proof.
  rewrite (IntrinsicGas_spec (sample_tx [] [0; 1; 2])); [reflexivity | vm_compute; reflexivity].
Defined.

(** ** The transaction hash *)

(** A struct with a field that has no writer cannot be encoded. *)
Lemma write_fields_error fs n f :
  f ∈ take n fs → (∀ buf, ∃ e, encode f.2 buf = inl e) →
  ∀ buf, ∃ e, write_fields encode fs n buf = inl e.
Proof.
  intros Hf He. revert n Hf. induction fs as [|[z v] fs IH]; intros n Hf buf.
  - rewrite take_nil in Hf. set_solver.
  - destruct n as [|n]; [simpl in Hf; set_solver|]. simpl in Hf |- *.
    apply elem_of_cons in Hf as [->|Hf].
    + destruct (He buf) as [e E]. simpl in E. rewrite E. simpl. eauto.
    + destruct (encode v buf) as [e|buf']; simpl; [eauto|by apply IH].
Qed.

Lemma rlp_PanguTransaction_error tx buf :
  ∃ e, encode (rlp_PanguTransaction tx) buf = inl e.
Proof.
  unfold rlp_PanguTransaction. cbn [encode buf_list].
  edestruct (write_fields_error) as [e E]; [| |rewrite E; simpl; eauto].
  - change (struct_count 14 _) with 14%nat. apply list_elem_of_lookup_2 with 13%nat. reflexivity.
  - intros buf'. cbn [snd]. simpl. eauto.
Qed.

Section hash_theorems.
Context `{Crypto}.

(** Every transaction has the same hash.  The payload holds a pointer to an access
    list, a struct of maps, for which RLP has no encoding; [prefixedRlpHash] drops the
    error, so [Hash] is the digest of the type byte alone, whatever the contents, and
    [Size] of a transaction that was not decoded from bytes is 1. *)
Theorem tx_Hash_constant tx :
  tx_hash tx = None → is_Some (pt_AccessList (inner tx)) →
  fst <$> tx_Hash tx = Ok (be_value (Keccak256 [PanguTxType])) ∧
  (tx_size tx = None → fst (tx_Size tx) = 1).
Proof.
  intros Hh [al Hal]. split.
  - unfold tx_Hash, copy. rewrite Hh, Hal. simpl. do 3 f_equal. unfold prefixedRlpHash, Encode.
    cbn [encode]. edestruct rlp_PanguTransaction_error as [e E]. by rewrite E.
  - intros Hs. unfold tx_Size, Encode. rewrite Hs. cbn [encode].
    destruct (rlp_PanguTransaction_error (inner tx) reset) as [e ->]. done.
Qed.

(** ** What a signature covers *)

(** The byte strings the signing hash lists, in order. *)
Definition signing_strings (s : panguSigner) (tx : Transaction) (tip cap value : Z)
  : list (list byte) :=
  [be_min (chainId s); be_min (tx_Nonce tx); be_min tip; be_min cap; be_min (tx_GasLimit tx);
   match tx_To tx with Some a => Address_Bytes a | None => [] end;
   be_min value; tx_Data tx; tx_EncContent tx].

(** The transactions a signer hashes: the widths of the Go types, no negative amount, and
    an encoding that fits the address space. *)
Definition signable (s : panguSigner) (tx : Transaction) (tip cap value : Z) : Prop :=
  0 <= chainId s ∧ u64_ok (tx_Nonce tx) ∧ 0 <= tip ∧ 0 <= cap ∧ u64_ok (tx_GasLimit tx) ∧
  (∀ a, tx_To tx = Some a → addr_ok a = true) ∧ 0 <= value ∧
  bytes_ok (tx_Data tx) ∧ bytes_ok (tx_EncContent tx) ∧
  Z.of_nat (length (rlp_list (signing_strings s tx tip cap value ≫= rlp_string))) < 2 ^ 64.

Lemma signing_spec s tx tip cap value :
  signable s tx tip cap value →
  fst (Encode (VSlice false ((VInterface ∘ Some) <$> signing_fields s tx tip cap value)))
  = rlp_list (signing_strings s tx tip cap value ≫= rlp_string).
Proof.
  intros (Hs & Hn & Ht & Hc & Hg & Ha & Hv & Hd & He & Hlen).
  set (v := VSlice false _).
  assert (rlp_spec v = inr (rlp_list (signing_strings s tx tip cap value ≫= rlp_string))) as E.
  { unfold v, signing_fields, signing_strings, rlp_address_ptr, rlp_int.
    apply Z.ltb_ge in Hs, Ht, Hc, Hv. simpl. rewrite Hs, Ht, Hc, Hv. simpl.
    destruct (tx_To tx); simpl; rewrite ?app_nil_r; done. }
  assert (value_ok v) as Hok.
  { unfold u64_ok in *. simpl. destruct (tx_To tx); simpl; naive_solver. }
  destruct (encoder_refines v Hok) as [_ ->]; rewrite E; [by intros ? [= <-]|done].
Qed.

Lemma signable_strings s tx tip cap value :
  signable s tx tip cap value →
  strings_ok (signing_strings s tx tip cap value) ∧
  bytes_ok (signing_strings s tx tip cap value ≫= rlp_string).
Proof.
  intros (Hs & Hn & Ht & Hc & Hg & Ha & Hv & Hd & He & Hlen).
  assert (strings_ok (signing_strings s tx tip cap value)) as Hok.
  { split.
    - unfold signing_strings. repeat constructor; try apply be_bytes_ok; try done.
      destruct (tx_To tx); [apply be_bytes_ok | constructor].
    - unfold rlp_list in Hlen. rewrite length_app in Hlen. lia. }
  split; [done|]. by apply strings_ok_bytes.
Qed.

(** The hash a signer signs covers the transaction: for well-formed transactions the
    hashed bytes determine the chain id, nonce, tip, fee cap, gas limit, recipient,
    value, data and encrypted content. *)
Theorem signing_preimage_inj s tx tip cap value s' tx' tip' cap' value' :
  signable s tx tip cap value → signable s' tx' tip' cap' value' →
  fst (Encode (VSlice false ((VInterface ∘ Some) <$> signing_fields s tx tip cap value)))
  = fst (Encode (VSlice false ((VInterface ∘ Some) <$> signing_fields s' tx' tip' cap' value'))) →
  chainId s = chainId s' ∧ tx_Nonce tx = tx_Nonce tx' ∧ tip = tip' ∧ cap = cap' ∧
  tx_GasLimit tx = tx_GasLimit tx' ∧ tx_To tx = tx_To tx' ∧ value = value' ∧
  tx_Data tx = tx_Data tx' ∧ tx_EncContent tx = tx_EncContent tx'.
Proof.
  intros H1 H2 E. rewrite !signing_spec in E by done.
  destruct (signable_strings _ _ _ _ _ H1) as [Hok1 Hb1].
  destruct (signable_strings _ _ _ _ _ H2) as [Hok2 _].
  apply rlp_list_inj in E; [|done|by apply H1].
  apply rlp_strings_inj in E; [|done|done]. injection E as E1 E2 E3 E4 E5 E6 E7 E8 E9.
  destruct H1 as (? & [? _] & ? & ? & [? _] & Ha & ? & _).
  destruct H2 as (? & [? _] & ? & ? & [? _] & Ha' & ? & _).
  split_and!; try (by apply be_min_inj); try done.
  destruct (tx_To tx) as [a|], (tx_To tx') as [a'|]; try done;
    try (apply (f_equal length) in E6; by rewrite Address_Bytes_length in E6).
  f_equal. rewrite <- (BytesToAddress_Bytes a), <- (BytesToAddress_Bytes a') by auto.
  by rewrite E6.
Qed.

(** ** Signing and recovering *)

Lemma left_pad_be_min l n : bytes_ok l → length l = n → left_pad n (be_min (be_value l)) = l.
Proof.
  intros Hl <-. unfold left_pad. induction l as [|b l IH]; [done|].
  pose proof Hl as [Hb Hl']%Forall_cons. destruct (decide (b = 0)) as [->|Hne].
  - rewrite be_value_cons, Z.mul_0_l, Z.add_0_l. simpl length.
    pose proof (be_value_range l Hl') as Hr.
    assert (byte_len (be_value l) <= length l)%nat as Hle.
    { destruct (decide (be_value l = 0)) as [->|]; [apply Nat.le_0_l|].
      pose proof (byte_len_spec (be_value l)). apply Nat.le_ngt. intros Hlt.
      assert (256 ^ Z.of_nat (length l) <= 256 ^ (Z.of_nat (byte_len (be_value l)) - 1))
        by (apply Z.pow_le_mono_r; lia). lia. }
    rewrite be_min_length in *. rewrite Nat.sub_succ_l by done. simpl. f_equal. by apply IH.
  - rewrite be_min_be_value, Nat.sub_diag by done. done.
Qed.

(** What the secp256k1 library documents for a private key [D] with uncompressed public
    key [pub]: signing a 32-byte digest gives a 65-byte signature with [R], [S] in range,
    [S] in the lower half and a recovery id of 0 or 1, from which the key is recovered. *)
Definition sign_recovers (D : Z) (pub : list byte) : Prop :=
  ∀ h, length h = 32%nat → ∃ sig,
    secp_Sign h (be_bytes 32 D) = inr sig ∧ length sig = 65%nat ∧ bytes_ok sig ∧
    1 <= be_value (take 32 sig) < secp256k1N ∧
    1 <= be_value (take 32 (drop 32 sig)) <= secp256k1halfN ∧
    (sig !!! 64%nat = 0 ∨ sig !!! 64%nat = 1) ∧
    secp_RecoverPubkey h sig = inr pub.

(** The account a public key recovered by the library stands for. *)
Definition attributed (recovered : string + list byte) : tx_error + Address :=
  match recovered with
  | inl msg => inl (errCrypto msg)
  | inr (4 :: rest) => inr (pubkey_address (4 :: rest))
  | inr _ => inl errPublicKey
  end.

(** Decoding a signature and recovering from the decoded values hands the library the
    signature that was decoded. *)
Lemma recover_decoded h sig R S_ V :
  length sig = 65%nat → bytes_ok sig →
  1 <= be_value (take 32 sig) < secp256k1N →
  1 <= be_value (take 32 (drop 32 sig)) <= secp256k1halfN →
  (sig !!! 64%nat = 0 ∨ sig !!! 64%nat = 1) →
  DecodeSignature sig = Ok (R, S_, V) →
  RecoverPlain h R S_ V true = attributed (secp_RecoverPubkey (Hash_Bytes h) sig).
Proof.
  intros Hlen Hok HR HS HV. unfold DecodeSignature. rewrite Hlen. simpl.
  set (r := take 32 sig) in *. set (s := take 32 (drop 32 sig)) in *.
  set (v := sig !!! 64%nat) in *. intros [= <- <- <-].
  assert (byte_of (byte_of (v + 27) - 27)%u64 = v) as EV by by destruct HV as [-> | ->].
  assert (BitLen (byte_of (v + 27)) = 5) as EB by by destruct HV as [-> | ->].
  unfold RecoverPlain. rewrite EV, EB. simpl.
  assert (ValidateSignatureValues v (be_value r) (be_value s) true = true) as ->.
  { unfold ValidateSignatureValues. unfold secp256k1halfN in *.
    assert (secp256k1N / 2 < secp256k1N) by done.
    destruct (Z.ltb_spec (be_value r) 1), (Z.ltb_spec (be_value s) 1); try lia.
    destruct (Z.ltb_spec (secp256k1N / 2) (be_value s)); [lia|].
    destruct (Z.ltb_spec (be_value r) secp256k1N), (Z.ltb_spec (be_value s) secp256k1N); try lia.
    by destruct HV as [-> | ->]. }
  simpl. unfold big_Bytes. rewrite !Z.abs_eq by lia.
  rewrite !left_pad_be_min by
    ((apply Forall_take; try apply Forall_drop; done)
     || (unfold r, s; rewrite length_take, ?length_drop; lia)).
  assert (r ++ s ++ [v] = sig) as ->.
  { unfold r, s, v. rewrite <- (take_drop 32 sig) at 4. f_equal.
    rewrite <- (take_drop 32 (drop 32 sig)) at 2. f_equal. rewrite drop_drop.
    destruct (drop 64 sig) as [|x [|y l]] eqn:E;
      apply (f_equal length) in E as E'; rewrite length_drop in E'; simpl in E'; try lia.
    change (32 + 32)%nat with 64%nat. rewrite E. f_equal.
    rewrite list_lookup_total_alt, <- (Nat.add_0_r 64), <- lookup_drop, E. done. }
  unfold Ecrecover, attributed, pubkey_address.
  destruct (secp_RecoverPubkey (Hash_Bytes h) sig) as [m|[|x rest]]; [done..|].
  destruct (Z.eqb_spec x 4) as [->|Hx]; [done|]. by destruct x as [|[p|[[p|p|]|[p|p|]|]|]|p].
Qed.

Lemma signer_Hash_Ok s tx tip cap value :
  tx_GasTipCap tx = Ok tip → tx_GasFeeCap tx = Ok cap → tx_Value tx = Ok value →
  ∃ h, signer_Hash s tx = Ok h.
Proof. intros Ht Hc Hv. unfold signer_Hash. rewrite Ht, Hc, Hv. simpl. eauto. Qed.

Lemma WithSignature_Ok tx s sig algo al :
  tx_AccessList tx = Some al →
  ∃ tx', WithSignature tx s sig algo = Ok tx' ∧ tx_RawSigValues tx' = sig ∧
         tx_SigAlgo tx' = algo ∧ tx_ChainId tx' = Some (chainId s).
Proof.
  unfold tx_AccessList, WithSignature, copy. intros ->. simpl. eauto.
Qed.

(** The transaction without its encrypted content. *)
Definition without_EncContent (tx : Transaction) : Transaction :=
  let p := inner tx in
  mkTransaction (mkPanguTransaction (pt_To p) (pt_Nonce p) (pt_Value p) (pt_GasLimit p) (pt_FeeCap p)
    (pt_TipCap p) (pt_ChainID p) (pt_SigAlgo p) (pt_Signature p) (pt_EncAlgo p) [] (pt_VmType p)
    (pt_Data p) (pt_AccessList p)) (tx_time tx) (tx_hash tx) (tx_size tx) (tx_from tx).

(** The hash of a signed transaction is that of the original without its [EncContent],
    which [copy] drops. *)
Lemma signer_Hash_signed tx s sig algo tip cap value tx' :
  tx_GasTipCap tx = Ok tip → tx_GasFeeCap tx = Ok cap → tx_Value tx = Ok value →
  WithSignature tx s sig algo = Ok tx' →
  signer_Hash s tx' = signer_Hash s (without_EncContent tx).
Proof.
  unfold WithSignature, copy, signer_Hash. intros Ht Hc Hv Hw.
  destruct (pt_AccessList (inner tx)); simpl in Hw; [|done].
  injection Hw as <-. unfold signing_fields, tx_GasTipCap, tx_GasFeeCap, tx_Value in *.
  destruct tx as [p]. simpl in *.
  by destruct (pt_TipCap p), (pt_FeeCap p), (pt_Value p).
Qed.

(** The bytes a signer hashes after the type byte. *)
Definition signing_preimage (s : panguSigner) (tx : Transaction) (tip cap value : Z) : list byte :=
  fst (Encode (VSlice false ((VInterface ∘ Some) <$> signing_fields s tx tip cap value))).

Lemma without_EncContent_preimage s tx tip cap value :
  signable s tx tip cap value → signable s (without_EncContent tx) tip cap value →
  tx_EncContent tx ≠ [] →
  signing_preimage s (without_EncContent tx) tip cap value ≠ signing_preimage s tx tip cap value.
Proof.
  intros H1 H2 Hne E. unfold signing_preimage in E. rewrite !signing_spec in E by done.
  apply rlp_list_inj in E; [|by apply signable_strings|by apply H2].
  apply rlp_strings_inj in E; [|by eapply signable_strings..]. by injection E as E.
Qed.


(** ** The sender cache *)

(** The cached sender is the one its signer derives. *)
Definition cache_ok (tx : Transaction) : Prop :=
  ∀ sc, tx_from tx = Some sc → signer_Sender (sc_signer sc) tx = Ok (inr (sc_from sc)).

(** Only the payload and the chain id matter for the derived sender. *)
Lemma signer_Sender_ext s s' tx tx' :
  inner tx = inner tx' → chainId s = chainId s' → signer_Sender s tx = signer_Sender s' tx'.
Proof.
  intros Ei Es. destruct tx, tx', s, s'. simpl in *. subst. done.
Qed.

(** What [types.Sender] returns and leaves behind. *)
Lemma Sender_spec s tx :
  cache_ok tx →
  match Sender s tx with
  | Panic _ => ∃ m, signer_Sender s tx = Panic m
  | Ok (r, tx') =>
      signer_Sender s tx = Ok r ∧ inner tx' = inner tx ∧ cache_ok tx' ∧
      (∀ a, r = inr a → ∀ s', ∃ m, tx_Sender tx' s' = Panic m)
  end.
Proof.
  intros Hc.
  assert (∀ m, signer_Sender s tx = m →
    match (r ← m; Ok (match r with
        | inl err => (inl err, tx)
        | inr addr => (inr addr, mkTransaction (inner tx) (tx_time tx) (tx_hash tx) (tx_size tx)
                                   (Some (mkSigCache s addr)))
        end)) with
    | Panic _ => ∃ e, m = Panic e
    | Ok (r, tx') => m = Ok r ∧ inner tx' = inner tx ∧ cache_ok tx' ∧
        (∀ a, r = inr a → ∀ s', ∃ e, tx_Sender tx' s' = Panic e)
    end) as Hd.
  { intros [[e|a]|e] E; simpl; [split_and!; done| |eauto]. split_and!; [done|done| |].
    - intros sc [= <-]. simpl. rewrite <- E. by apply signer_Sender_ext.
    - intros a' _ s'. unfold tx_Sender. simpl. eauto. }
  unfold Sender. destruct (tx_from tx) as [sc|] eqn:Ef; [|by apply Hd].
  destruct (signer_Equal (sc_signer sc) s) eqn:Eq; [|by apply Hd].
  split_and!; [|done|done|].
  - rewrite <- (Hc sc Ef). apply signer_Sender_ext; [done|].
    unfold signer_Equal, big_Cmp in Eq.
    by destruct (Z.compare_spec (chainId s) (chainId (sc_signer sc))).
  - intros a _ s'. unfold tx_Sender. rewrite Ef. eauto.
Qed.

(** [types.Sender] returns what the signer derives, with or without a cached value,
    and the transaction it leaves behind has a correct cache; after it has succeeded the
    method [Transaction.Sender] panics on that transaction. *)
Theorem Sender_cache s tx :
  cache_ok tx →
  match Sender s tx with
  | Panic _ => ∃ m, signer_Sender s tx = Panic m
  | Ok (r, tx') =>
      signer_Sender s tx = Ok r ∧ inner tx' = inner tx ∧ cache_ok tx' ∧
      (∀ a, r = inr a → ∀ s', ∃ m, tx_Sender tx' s' = Panic m)
  end.
Proof. apply Sender_spec. Qed.

End hash_theorems.

(** ** Witnesses *)

Lemma tx_Hash_sample :
  let tx := sample_tx [] [1] in let tx' := sample_tx [] [2] in
  fst <$> @tx_Hash toy_crypto tx = Ok (be_value (@Keccak256 toy_crypto [PanguTxType])) ∧
  fst <$> @tx_Hash toy_crypto tx' = Ok (be_value (@Keccak256 toy_crypto [PanguTxType])).
Proof.
  split; apply (@tx_Hash_constant toy_crypto); solve [reflexivity | eexists; reflexivity].
Defined.

Lemma sample_signable sig : signable (mkSigner 7 14) (sample_tx sig [1]) 2 50 10.
Proof.
  unfold signable, u64_ok. cbn -[rlp_list signing_strings Z.pow].
  split_and!; try lia; [by intros a [= <-]| | |by vm_compute].
  - by apply Forall_singleton.
  - by apply Forall_nil.
Qed.

Lemma signing_preimage_inj_witness :
  tx_Nonce (sample_tx [] [1]) = tx_Nonce (sample_tx [7] [1]).
Proof.
  apply (signing_preimage_inj (mkSigner 7 14) (sample_tx [] [1]) 2 50 10
           (mkSigner 7 14) (sample_tx [7] [1]) 2 50 10).
  - apply sample_signable.
  - apply sample_signable.
  - reflexivity.
Defined.

(** A library whose signatures carry the digest: recovering from another digest gives
    another key. *)
Definition digest_R (h : list byte) : Z := be_value h mod (secp256k1N - 1) + 1.
Definition digest_crypto : Crypto.
Proof.
  refine {| Keccak256 := @Keccak256 toy_crypto;
            secp_RecoverPubkey h sig :=
              inr (4 :: take 32 (drop 32 sig)
                     ++ be_bytes 32 (if be_value (take 32 sig) =? digest_R h then 1 else 2));
            secp_Sign h key := inr (be_bytes 32 (digest_R h) ++ key ++ [0]) |}.
  - apply (@Keccak256_length toy_crypto).
  - apply (@Keccak256_ok toy_crypto).
Defined.

Definition key5 : list byte := be_bytes 32 5 ++ be_bytes 32 1.

Lemma digest_sign_recovers :
  @sign_recovers digest_crypto 5 (4 :: key5).
Proof.
  intros h Hh. eexists. split; [reflexivity|].
  assert (1 <= digest_R h < secp256k1N) as HR.
  { unfold digest_R. assert (0 < secp256k1N - 1) by done.
    pose proof (Z.mod_pos_bound (be_value h) (secp256k1N - 1)). lia. }
  assert (be_value (be_bytes 32 (digest_R h)) = digest_R h) as EV.
  { assert (secp256k1N < 256 ^ Z.of_nat 32) by done.
    rewrite be_value_be_bytes, Z.mod_small; lia. }
  split_and!; [reflexivity| |..].
  - unfold bytes_ok. rewrite !Forall_app. split_and!; [apply be_bytes_ok..|].
    by apply Forall_singleton.
  - rewrite take_app_length', EV by done. lia.
  - rewrite take_app_length', EV by done. lia.
  - by vm_compute.
  - by vm_compute.
  - by left.
  - cbn [secp_RecoverPubkey digest_crypto].
    rewrite take_app_length', drop_app_length' by done. rewrite EV, Z.eqb_refl. reflexivity.
Qed.

(** A transaction with encrypted content. *)
Definition enc_tx : Transaction :=
  mkTransaction (mkPanguTransaction (Some 0xAA) 3 (Some 10) 100000 (Some 50) (Some 2) (Some 7) 0
    [] 0 [9] 0 [1] (Some NewAccessList)) 0 None None None.

Lemma enc_signable : signable (mkSigner 7 14) enc_tx 2 50 10.
Proof.
  unfold signable, u64_ok. cbn -[rlp_list signing_strings Z.pow].
  split_and!; try lia; [by intros a [= <-]| | |by vm_compute]; by apply Forall_singleton.
Qed.


(** With that library the account such a transaction is attributed to is another one. *)
Example EncContent_changes_sender :
  match @SignTx digest_crypto enc_tx (mkSigner 7 14) (be_bytes 32 5) SIG_ECDSA with
  | Ok (inr tx') =>
      @signer_Sender digest_crypto (mkSigner 7 14) tx'
      = Ok (inr (@pubkey_address digest_crypto (4 :: be_bytes 32 5 ++ be_bytes 32 2)))
  | _ => False
  end ∧
  @pubkey_address digest_crypto (4 :: be_bytes 32 5 ++ be_bytes 32 2)
  ≠ @pubkey_address digest_crypto (4 :: key5).
Proof. vm_compute. split; [reflexivity|discriminate]. Qed.

Lemma Sender_cache_witness :
  match @Sender toy_crypto (mkSigner 7 14) (sample_tx (be_bytes 32 1 ++ be_bytes 32 5 ++ [0]) []) with
  | Panic _ => ∃ m, @signer_Sender toy_crypto (mkSigner 7 14)
                      (sample_tx (be_bytes 32 1 ++ be_bytes 32 5 ++ [0]) []) = Panic m
  | Ok (r, tx') =>
      @signer_Sender toy_crypto (mkSigner 7 14)
        (sample_tx (be_bytes 32 1 ++ be_bytes 32 5 ++ [0]) []) = Ok r ∧
      inner tx' = inner (sample_tx (be_bytes 32 1 ++ be_bytes 32 5 ++ [0]) []) ∧
      @cache_ok toy_crypto tx' ∧
      (∀ a, r = inr a → ∀ s', ∃ m, @tx_Sender toy_crypto tx' s' = Panic m)
  end.
Proof. apply (@Sender_cache toy_crypto). intros sc E. discriminate E. Defined.
