(* ===== verification/TxClassify.v ===== *)
(** * Classifying transactions by declared resources (core/txclassfy.go)

    A transaction's resources are the strings [MergeAccessList] builds from its access
    list; [ClassifyTx] groups transactions whose resources intersect so that groups can
    run in parallel.  The set type is the package golang-set, which enters as a class.
    The theorems state what the groups are (a partition, sorted, each connected by
    conflicts), when they separate conflicts and when they do not, and what becomes of
    [SelectTxs]. *)

From S2P Require Import Prelude Bytes Params RlpEncode Common AccessList Types.

(** ** The set package *)

(** [mapset.Set[string]] as its documentation describes it. *)
Class MapSet := {
  StringSet : Type;
  set_NewSet : StringSet;
  set_Add : list byte → StringSet → StringSet;
  set_Intersect : StringSet → StringSet → StringSet;
  set_Union : StringSet → StringSet → StringSet;
  set_Cardinality : StringSet → Z;
  set_In : list byte → StringSet → Prop;
  set_NewSet_In : ∀ x, ¬ set_In x set_NewSet;
  set_Add_In : ∀ x y s, set_In x (set_Add y s) ↔ x = y ∨ set_In x s;
  set_Intersect_In : ∀ x s t, set_In x (set_Intersect s t) ↔ set_In x s ∧ set_In x t;
  set_Union_In : ∀ x s t, set_In x (set_Union s t) ↔ set_In x s ∨ set_In x t;
  set_Cardinality_0 : ∀ s, set_Cardinality s = 0 → ∀ x, ¬ set_In x s;
  set_Cardinality_pos : ∀ s, set_Cardinality s ≠ 0 → ∃ x, set_In x s;
}.

Definition gset_MapSet : MapSet.
Proof.
  refine {| StringSet := gset (list Z); set_NewSet := ∅; set_Add x s := {[x]} ∪ s;
            set_Intersect s t := s ∩ t; set_Union s t := s ∪ t;
            set_Cardinality s := Z.of_nat (size s); set_In x s := x ∈ s |}.
  - set_solver.
  - set_solver.
  - set_solver.
  - set_solver.
  - intros s E x Hx. assert (size s = 0%nat) as E' by lia.
    apply size_empty_inv in E'. set_solver.
  - intros s E. destruct (set_choose_or_empty s) as [?|He]; [done|].
    apply size_empty_iff in He. lia.
Defined.

Section classify.
Context `{GoRuntime, Crypto, MapSet}.

(** ** Definitions *)

Record TxClass := mkTxClass {
  Tx : Transaction;
  ID : Z;
  TxResource : StringSet;
}.

(** [MergeAccessList]: an address with [num > 0] contributes its slots, any other its
    own string. *)
Definition merge_entry (al : AccessList) (set : StringSet) (e : Address * Z) : res StringSet :=
  let '(addr, num) := e in
  let addrStr := Address_Hex addr in
  if 0 <? num then
    slots ← go_index (Slots al) num;
    Ok (foldl (λ set key, set_Add (addrStr ++ Hash_Hex key) set) set (range_set slots))
  else Ok (set_Add addrStr set).

Fixpoint merge_loop (al : AccessList) (set : StringSet) (es : list (Address * Z))
  : res StringSet :=
  match es with
  | [] => Ok set
  | e :: es => set ← merge_entry al set e; merge_loop al set es
  end.

Definition MergeAccessList (al : option AccessList) : res StringSet :=
  al ← deref al; merge_loop al set_NewSet (range_map (Addresses al)).

Fixpoint class_list (i : Z) (txs : list Transaction) : res (list TxClass) :=
  match txs with
  | [] => Ok []
  | tx :: txs =>
      r ← MergeAccessList (tx_AccessList tx);
      rest ← class_list (i + 1) txs;
      Ok (mkTxClass tx i r :: rest)
  end.
Definition NewTxClassList (txs : list Transaction) : res (list TxClass) := class_list 0 txs.

Definition IsConflict (set1 set2 : StringSet) : bool :=
  let temp := set_Intersect set1 set2 in negb (set_Cardinality temp =? 0).

(** The body of the double loop of [ClassifyTx]. *)
Definition classify_pair (i j : nat) (l : list TxClass) : list TxClass :=
  match l !! i, l !! j with
  | Some a, Some b =>
      if IsConflict (TxResource a) (TxResource b) then
        let u := set_Union (TxResource a) (TxResource b) in
        <[j := mkTxClass (Tx b) (ID a) u]> (<[i := mkTxClass (Tx a) (ID a) u]> l)
      else l
  | _, _ => l
  end.
Definition classify_from (i : nat) (l : list TxClass) : list TxClass :=
  foldl (λ l j, classify_pair i j l) l (seq (S i) (length l - S i)).
Definition classify_ids (l : list TxClass) : list TxClass :=
  foldl (λ l i, classify_from i l) l (seq 0 (length l)).

(** The map from class to transactions. *)
Definition add_group (groups : gmap Z (list Transaction)) (c : TxClass)
  : gmap Z (list Transaction) :=
  <[ID c := default [] (groups !! ID c) ++ [Tx c]]> groups.
Definition make_groups (l : list TxClass) : gmap Z (list Transaction) := foldl add_group ∅ l.

(** The comparison of [sort.Slice]: by sender (the zero address when the derivation
    fails), then by nonce. *)
Definition sender_key (r : tx_error + Address) : Address :=
  match r with inr a => a | inl _ => 0 end.
Definition tx_less (x y : Address * Transaction) : bool :=
  if x.1 <? y.1 then true
  else if y.1 <? x.1 then false
  else tx_Nonce x.2 <? tx_Nonce y.2.

(** Sorting a group: with two or more elements every element is compared, so every
    sender is derived (and cached); with fewer none is. *)
Definition sort_group (signer : panguSigner) (txList : list Transaction)
  : res (list Transaction) :=
  match txList with
  | [] | [_] => Ok txList
  | _ => keyed ← mapM (λ tx, '(r, tx') ← Sender signer tx; Ok (sender_key r, tx')) txList;
         Ok ((sort_slice tx_less keyed).*2)
  end.

Definition ClassifyTx (txs : list Transaction) (signer : panguSigner)
  : res (list (list Transaction)) :=
  txClassList ← NewTxClassList txs;
  let groups := make_groups (classify_ids txClassList) in
  mapM (sort_group signer) (range_map groups).*2.

(** ** Selecting transactions *)

Fixpoint find_max (es : list (Address * list Transaction)) (maxAddr : Address) (maxPrice : Z)
  : res Address :=
  match es with
  | [] => Ok maxAddr
  | (addr, txs) :: es =>
      tx ← go_index txs 0;
      price ← tx_GasPrice tx;
      if maxPrice <? price then find_max es addr price else find_max es maxAddr maxPrice
  end.
Definition FindMaxGasPrice (txMap : gmap Address (list Transaction)) : res Address :=
  find_max (range_map txMap) 0 0.

(** The loop of [SelectTxs]; [None] when the fuel runs out before the loop ends. *)
Fixpoint select_loop (fuel : nat) (temp : gmap Address (list Transaction)) (gasLimit sum : Z)
    (selectedTxs : list Transaction) : option (res (list Transaction)) :=
  if gasLimit <? sum then Some (Ok selectedTxs)
  else match fuel with
       | O => None
       | S fuel =>
           match FindMaxGasPrice temp with
           | Panic m => Some (Panic m)
           | Ok selectedAddr =>
               match default [] (temp !! selectedAddr) with
               | [] => Some (Panic "index out of range")
               | tx :: rest =>
                   select_loop fuel (<[selectedAddr := rest]> temp) gasLimit sum
                     (selectedTxs ++ [tx])
               end
           end
       end.
Definition SelectTxs (fuel : nat) (txMap : gmap Address (list Transaction)) (gasLimit : Z)
  : option (res (list Transaction)) :=
  select_loop fuel txMap gasLimit 0 [].

End classify.

#[local] Opaque Address_Hex Hash_Hex.

Section classify_theorems.
Context `{GoRuntime, Crypto, MapSet}.

(** ** Resources *)

(** What an access list declares, as [MergeAccessList] reads it. *)
Definition resource (al : AccessList) (x : list byte) : Prop :=
  ∃ addr num, Addresses al !! addr = Some num ∧
    (num <= 0 ∧ x = Address_Hex addr ∨
     ∃ slots key, 0 < num ∧ Slots al !! Z.to_nat num = Some slots ∧ key ∈ slots ∧
                  x = Address_Hex addr ++ Hash_Hex key).

Lemma add_keys_In addrStr ks s x :
  set_In x (foldl (λ set key, set_Add (addrStr ++ Hash_Hex key) set) s ks) ↔
  set_In x s ∨ ∃ key, key ∈ ks ∧ x = addrStr ++ Hash_Hex key.
Proof.
  revert s. induction ks as [|k ks IH]; intros s; cbn [foldl]; [set_solver|].
  rewrite IH, set_Add_In. set_solver.
Qed.

Lemma merge_loop_In al es : ∀ s s',
  merge_loop al s es = Ok s' → ∀ x,
  set_In x s' ↔ set_In x s ∨
  ∃ addr num, (addr, num) ∈ es ∧
    (num <= 0 ∧ x = Address_Hex addr ∨
     ∃ slots key, 0 < num ∧ Slots al !! Z.to_nat num = Some slots ∧ key ∈ slots ∧
                  x = Address_Hex addr ++ Hash_Hex key).
Proof.
  induction es as [|[addr num] es IH]; intros s s'; cbn [merge_loop];
    [intros [= <-]; set_solver|].
  unfold merge_entry. intros (s1 & He & Hl)%res_bind_Ok x. rewrite (IH _ _ Hl). clear IH Hl.
  destruct (Z.ltb_spec 0 num) as [Hn|Hn].
  - apply res_bind_Ok in He as (slots & Hs & [= <-]). apply go_index_Ok in Hs as [_ Hs].
    rewrite add_keys_In. setoid_rewrite range_set_elem. setoid_rewrite elem_of_cons.
    split.
    + intros [[?|(k & Hk & ->)]|(a & n & Ha & ?)]; [by left| |]; right; eauto 12.
    + intros [?|(a & n & [[= -> ->]|Ha] & Hx)]; [by left; left| |right; eauto].
      destruct Hx as [[? _]|(sl & k & _ & Hsl & Hk & ->)]; [lia|].
      rewrite Hs in Hsl. injection Hsl as <-. left. right. eauto.
  - injection He as <-. rewrite set_Add_In. setoid_rewrite elem_of_cons. split.
    + intros [[->|?]|(a & n & Ha & ?)]; [|by left|]; right; eauto 12.
    + intros [?|(a & n & [[= -> ->]|Ha] & Hx)]; [by left; right| |right; eauto].
      destruct Hx as [[_ ->]|(sl & k & ? & _)]; [by left; left|lia].
Qed.

Lemma MergeAccessList_In al s :
  MergeAccessList (Some al) = Ok s → ∀ x, set_In x s ↔ resource al x.
Proof.
  unfold MergeAccessList. simpl. intros Hl x. rewrite (merge_loop_In _ _ _ _ Hl).
  unfold resource. setoid_rewrite range_map_elem.
  split; [intros [Hx|?]; [by apply set_NewSet_In in Hx|done] | by right].
Qed.

Lemma merge_loop_total al es s :
  Forall (λ e, e.2 = -1 ∨ 0 <= e.2 < Z.of_nat (length (Slots al))) es →
  ∃ s', merge_loop al s es = Ok s'.
Proof.
  intros Hes. revert s. induction Hes as [|[a n] es He _ IH]; intros s; cbn [merge_loop]; [eauto|].
  unfold merge_entry. simpl in He. destruct (Z.ltb_spec 0 n) as [Hn|Hn]; simpl; [|apply IH].
  destruct (lookup_lt_is_Some_2 (Slots al) (Z.to_nat n)) as [sl Hsl]; [lia|].
  assert (go_index (Slots al) n = Ok sl) as -> by (apply go_index_Ok; split; [lia|done]).
  apply IH.
Qed.

Lemma MergeAccessList_total al : al_wf al → ∃ s, MergeAccessList (Some al) = Ok s.
Proof.
  intros Hwf. apply merge_loop_total, Forall_forall. intros [a n] Hin.
  apply range_map_elem in Hin. apply (wf_range _ Hwf _ _ Hin).
Qed.

Lemma IsConflict_spec s t : IsConflict s t = true ↔ ∃ x, set_In x s ∧ set_In x t.
Proof.
  unfold IsConflict. destruct (Z.eqb_spec (set_Cardinality (set_Intersect s t)) 0) as [E|E]; simpl.
  - split; [done|]. intros (x & Hx). pose proof (set_Cardinality_0 _ E x) as Hn.
    by rewrite set_Intersect_In in Hn.
  - split; [|done]. intros _. destruct (set_Cardinality_pos _ E) as [x Hx].
    exists x. by apply set_Intersect_In.
Qed.

(** Resource strings determine the address and the slot. *)
Lemma resource_string_inj a h b k :
  addr_ok a = true → addr_ok b = true → hash_ok h = true → hash_ok k = true →
  Address_Hex a ++ Hash_Hex h = Address_Hex b ++ Hash_Hex k → a = b ∧ h = k.
Proof.
  intros Ha Hb Hh Hk E. apply app_inj_1 in E as [E1 E2]; [|by rewrite !Address_Hex_length].
  split; [by apply Address_Hex_inj | by apply Hash_Hex_inj].
Qed.

Lemma address_not_slot a b k : Address_Hex a ≠ Address_Hex b ++ Hash_Hex k.
Proof.
  intros E. apply (f_equal length) in E.
  rewrite length_app, !Address_Hex_length, Hash_Hex_length in E. lia.
Qed.
(** ** The classes are connected by conflicts *)

(** Positions [i] and [j] of [l] hold transactions with intersecting resources. *)
Definition shares (l : list TxClass) (i j : nat) : Prop :=
  ∃ a b, l !! i = Some a ∧ l !! j = Some b ∧ IsConflict (TxResource a) (TxResource b) = true.

Definition connected (l : list TxClass) : nat → nat → Prop := rtc (shares l).

Lemma IsConflict_sym s t : IsConflict s t = IsConflict t s.
Proof. apply eq_true_iff_eq. rewrite !IsConflict_spec. naive_solver. Qed.

Lemma shares_sym l i j : shares l i j → shares l j i.
Proof. intros (a & b & Ha & Hb & Hc). exists b, a. by rewrite IsConflict_sym. Qed.

Lemma connected_sym l i j : connected l i j → connected l j i.
Proof.
  induction 1 as [|x y z Hxy _ IH]; [constructor|].
  eapply rtc_r; [exact IH | by apply shares_sym].
Qed.

(** What the loops maintain about position [k] of the list: the transaction, a class
    reached by conflicts, and resources that all come from transactions reached by
    conflicts and include its own. *)
Record class_ok (l0 : list TxClass) (k : nat) (c : TxClass) : Prop := {
  class_orig : ∃ c0, l0 !! k = Some c0 ∧ Tx c = Tx c0 ∧
                 ∀ x, set_In x (TxResource c0) → set_In x (TxResource c);
  class_id : ∃ m, ID c = Z.of_nat m ∧ connected l0 k m;
  class_res : ∀ x, set_In x (TxResource c) →
                ∃ m cm, connected l0 k m ∧ l0 !! m = Some cm ∧ set_In x (TxResource cm);
}.

Definition classes_ok (l0 l : list TxClass) : Prop :=
  length l = length l0 ∧ ∀ k c, l !! k = Some c → class_ok l0 k c.

(** Merged resources intersect only when the transactions are connected. *)
Lemma conflict_connected l0 l i j a b :
  classes_ok l0 l → l !! i = Some a → l !! j = Some b →
  IsConflict (TxResource a) (TxResource b) = true → connected l0 i j.
Proof.
  intros [_ Hok] Ha Hb (x & Hxa & Hxb)%IsConflict_spec.
  destruct (class_res _ _ _ (Hok _ _ Ha) _ Hxa) as (m & cm & Him & Hm & Hxm).
  destruct (class_res _ _ _ (Hok _ _ Hb) _ Hxb) as (n & cn & Hjn & Hn & Hxn).
  etransitivity; [exact Him|]. etransitivity; [|by apply connected_sym].
  apply rtc_once. exists cm, cn. split_and!; [done|done|]. apply IsConflict_spec. eauto.
Qed.

Lemma classify_pair_ok l0 l i j : classes_ok l0 l → classes_ok l0 (classify_pair i j l).
Proof.
  intros Hok. unfold classify_pair. destruct (l !! i) as [a|] eqn:Ha; [|done].
  destruct (l !! j) as [b|] eqn:Hb; [|done]. destruct (IsConflict _ _) eqn:Hc; [|done].
  pose proof (conflict_connected _ _ _ _ _ _ Hok Ha Hb Hc) as Hij.
  destruct Hok as [Hlen Hok]. pose proof (Hok _ _ Ha) as Oa. pose proof (Hok _ _ Hb) as Ob.
  set (u := set_Union (TxResource a) (TxResource b)).
  assert (∀ k c, (k = i ∧ c = a ∨ k = j ∧ c = b) → class_ok l0 k (mkTxClass (Tx c) (ID a) u)) as Hu.
  { intros k c Hk.
    assert (connected l0 k i ∧ connected l0 k j ∧ class_ok l0 k c ∧
      ∀ x, set_In x (TxResource c) → set_In x u) as (Hki & Hkj & Ok & Hcu).
    { unfold u. setoid_rewrite set_Union_In.
      destruct Hk as [[-> ->]|[-> ->]]; split_and!; auto;
        solve [constructor | by apply connected_sym]. }
    split; simpl.
    - destruct (class_orig _ _ _ Ok) as (c0 & Hl0 & HT & Hr). eauto 8.
    - destruct (class_id _ _ _ Oa) as (m & Hm & Him). exists m. split; [done|].
      by transitivity i.
    - intros x [Hx|Hx]%set_Union_In.
      + destruct (class_res _ _ _ Oa x Hx) as (m & cm & Hm & ?). exists m, cm.
        split; [by transitivity i|done].
      + destruct (class_res _ _ _ Ob x Hx) as (m & cm & Hm & ?). exists m, cm.
        split; [by transitivity j|done]. }
  split; [by rewrite !length_insert|].
  intros k c Hk. apply list_lookup_insert_Some in Hk as [(<- & <- & _)|[_ Hk]]; [by apply Hu; auto|].
  apply list_lookup_insert_Some in Hk as [(<- & <- & _)|[_ Hk]]; [by apply Hu; auto|by apply Hok].
Qed.

Lemma foldl_invariant {A B} (P : A → Prop) (f : A → B → A) l :
  (∀ a x, P a → P (f a x)) → ∀ a, P a → P (foldl f a l).
Proof. intros Hf. induction l; simpl; auto. Qed.

Lemma classify_ids_ok l0 l : classes_ok l0 l → classes_ok l0 (classify_ids l).
Proof.
  apply foldl_invariant. intros l1 i. apply foldl_invariant. intros l2 j.
  apply classify_pair_ok.
Qed.

(** ** Groups *)

Lemma make_groups_snoc l c : make_groups (l ++ [c]) = add_group (make_groups l) c.
Proof. unfold make_groups. by rewrite foldl_app. Qed.

Lemma make_groups_lookup l id :
  default [] (make_groups l !! id) = Tx <$> filter (λ c, ID c = id) l ∧
  make_groups l !! id ≠ Some [].
Proof.
  induction l as [|c l IH] using rev_ind; [done|].
  rewrite make_groups_snoc, filter_app, fmap_app. unfold add_group.
  destruct (decide (ID c = id)) as [<-|Hne].
  - rewrite lookup_insert_eq, filter_cons_True by done. destruct IH as [-> _].
    split; [done|]. intros [= E]. by destruct (Tx <$> filter _ l).
  - rewrite lookup_insert_ne, filter_cons_False by done. simpl. by rewrite app_nil_r.
Qed.

Lemma make_groups_Some l id g :
  make_groups l !! id = Some g → g = Tx <$> filter (λ c, ID c = id) l ∧ g ≠ [].
Proof.
  intros E. destruct (make_groups_lookup l id) as [Hd Hn]. rewrite E in *. simpl in Hd.
  split; [done|]. by intros ->.
Qed.

Lemma add_group_perm m c :
  concat (map_to_list (add_group m c)).*2 ≡ₚ concat (map_to_list m).*2 ++ [Tx c].
Proof.
  unfold add_group. destruct (m !! ID c) as [g|] eqn:E; simpl.
  - rewrite <- insert_delete_eq, map_to_list_insert by apply lookup_delete_eq.
    rewrite <- (map_to_list_delete m _ _ E). simpl. rewrite <- !app_assoc.
    apply Permutation_app_head. apply Permutation_app_comm.
  - rewrite map_to_list_insert by done. simpl. rewrite Permutation_app_comm. done.
Qed.

Lemma make_groups_perm l : concat (range_map (make_groups l)).*2 ≡ₚ Tx <$> l.
Proof.
  assert (concat (map_to_list (make_groups l)).*2 ≡ₚ Tx <$> l) as <-.
  { induction l as [|c l IH] using rev_ind; [done|].
    by rewrite make_groups_snoc, add_group_perm, fmap_app, IH. }
  by rewrite range_map_perm.
Qed.

(** ** Sorting a group *)

(** The sender of a transaction, the zero address when it cannot be derived. *)
Definition sender_of (signer : panguSigner) (tx : Transaction) : Address :=
  match signer_Sender signer tx with Ok (inr a) => a | _ => 0 end.

(** By rising sender; the transactions of one sender by rising nonce. *)
Definition group_sorted (signer : panguSigner) (g : list Transaction) : Prop :=
  ∀ i j x y, (i < j)%nat → g !! i = Some x → g !! j = Some y →
    sender_of signer x < sender_of signer y ∨
    sender_of signer x = sender_of signer y ∧ tx_Nonce x <= tx_Nonce y.

Definition keyed (signer : panguSigner) (tx : Transaction) : Address * Transaction :=
  (sender_of signer tx, tx).

Lemma tx_less_asym x y : tx_less x y = true → tx_less y x = false.
Proof. unfold tx_less. repeat case_match; lia. Qed.

Lemma tx_less_trans x y z :
  tx_less x y = false → tx_less y z = false → tx_less x z = false.
Proof. unfold tx_less. repeat case_match; lia. Qed.

Lemma keyed_sorted signer g :
  Sorted (λ x y, tx_less y x = false) (keyed signer <$> g) → group_sorted signer g.
Proof.
  intros Hs. apply Sorted_StronglySorted in Hs; [|intros x y z ??; by eapply tx_less_trans].
  intros i j x y Hij Hx Hy.
  assert (tx_less (keyed signer y) (keyed signer x) = false) as Hle.
  { eapply (sorted_lookup (λ x y, tx_less y x = false) (keyed signer <$> g) i j); [done|done|..];
      by rewrite list_lookup_fmap, ?Hx, ?Hy. }
  unfold tx_less, keyed in Hle. simpl in Hle.
  destruct (Z.ltb_spec (sender_of signer y) (sender_of signer x)); [done|].
  destruct (Z.ltb_spec (sender_of signer x) (sender_of signer y)); [by left|].
  right. split; [lia|]. by apply Z.ltb_ge.
Qed.

Definition derivable (signer : panguSigner) (tx : Transaction) : Prop :=
  cache_ok tx ∧ ∃ r, signer_Sender signer tx = Ok r.

(** Deriving the senders of a group fills the caches and nothing else. *)
Lemma key_group signer g :
  Forall (derivable signer) g →
  ∃ g', mapM (λ tx, '(r, tx') ← Sender signer tx; Ok (sender_key r, tx')) g
          = Ok (keyed signer <$> g') ∧ inner <$> g' = inner <$> g.
Proof.
  induction 1 as [|tx g [Hc [r Hr]] _ (g' & IH & Hi)]; [by exists []|].
  pose proof (Sender_spec signer tx Hc) as Hs. simpl.
  destruct (Sender signer tx) as [[r' tx']|m].
  - destruct Hs as (Hr' & Htx & _). exists (tx' :: g'). rewrite !fmap_cons, Hi, Htx.
    simpl. rewrite IH. simpl. split; [|done].
    assert (keyed signer tx' = (sender_key r', tx')) as ->; [|done]. unfold keyed, sender_of.
    by rewrite (signer_Sender_ext signer signer tx' tx), Hr'.
  - destruct Hs as [m' Hm]. congruence.
Qed.

Lemma keyed_list signer l : Forall (λ p, p = keyed signer p.2) l → l = keyed signer <$> l.*2.
Proof. induction 1 as [|p l Hp _ IH]; [done|]. rewrite !fmap_cons, <- IH. by f_equal. Qed.

Lemma sort_group_spec signer g :
  Forall (derivable signer) g →
  ∃ g', sort_group signer g = Ok g' ∧ inner <$> g' ≡ₚ inner <$> g ∧ group_sorted signer g'.
Proof.
  intros Hg. destruct (key_group signer g Hg) as (g1 & Hm & Hi).
  unfold sort_group. destruct g as [|t1 [|t2 g]].
  - exists []. by split_and!.
  - exists [t1]. split_and!; [done|done|]. intros i [|j] x y ? _ Hy; [lia|done].
  - rewrite Hm. cbn [mbind res_bind]. eexists. split; [done|].
    pose proof (sort_slice_perm tx_less (keyed signer <$> g1)) as Hp.
    assert (sort_slice tx_less (keyed signer <$> g1)
      = keyed signer <$> (sort_slice tx_less (keyed signer <$> g1)).*2) as Ek.
    { apply keyed_list, Forall_forall. intros p Hin.
      rewrite Hp in Hin. apply list_elem_of_fmap in Hin as (t & -> & _). done. }
    split.
    + rewrite Hp, <- Hi, <- !list_fmap_compose. done.
    + apply keyed_sorted. rewrite <- Ek.
      apply sort_slice_sorted; [apply tx_less_asym | apply tx_less_trans].
Qed.

(** ** The class list *)

Lemma class_list_lookup txs : ∀ i l,
  class_list i txs = Ok l →
  Tx <$> l = txs ∧ ∀ k c, l !! k = Some c →
    ID c = i + Z.of_nat k ∧ MergeAccessList (tx_AccessList (Tx c)) = Ok (TxResource c).
Proof.
  induction txs as [|tx txs IH]; intros i l; cbn [class_list]; [by intros [= <-]|].
  intros (r & Hr & (l' & Hl & [= <-])%res_bind_Ok)%res_bind_Ok.
  destruct (IH _ _ Hl) as [<- Hid]. split; [done|].
  intros [|k] c; simpl; [intros [= <-]; split; [simpl; lia|done]|].
  intros Hk. destruct (Hid _ _ Hk) as [-> ?]. split; [lia|done].
Qed.

Lemma class_list_total txs i :
  Forall (λ tx, ∃ al, tx_AccessList tx = Some al ∧ al_wf al) txs →
  ∃ l, class_list i txs = Ok l.
Proof.
  intros Hal. revert i. induction Hal as [|tx txs (al & Ha & Hwf) _ IH]; intros i; [by exists []|].
  cbn [class_list]. rewrite Ha. destruct (MergeAccessList_total al Hwf) as [s ->].
  destruct (IH (i + 1)) as [l ->]. simpl. eauto.
Qed.

Lemma NewTxClassList_ok txs l : NewTxClassList txs = Ok l → classes_ok l l ∧ Tx <$> l = txs.
Proof.
  intros Hl. destruct (class_list_lookup _ _ _ Hl) as [HT Hid]. split; [|done]. split; [done|].
  intros k c Hk. split.
  - exists c. auto.
  - exists k. split; [by destruct (Hid _ _ Hk) as [-> _] | constructor].
  - intros x Hx. exists k, c. split_and!; [constructor|done|done].
Qed.

Lemma classes_ok_Tx l0 l : classes_ok l0 l → Tx <$> l = Tx <$> l0.
Proof.
  intros [Hlen Hok]. apply list_eq. intros k. rewrite !list_lookup_fmap.
  destruct (l !! k) as [c|] eqn:Hk; simpl.
  - destruct (class_orig _ _ _ (Hok _ _ Hk)) as (c0 & -> & -> & _). done.
  - apply lookup_ge_None in Hk. rewrite Hlen in Hk. apply lookup_ge_None in Hk. by rewrite Hk.
Qed.

Lemma sort_groups_spec signer gs :
  Forall (Forall (derivable signer)) gs →
  ∃ groups, mapM (sort_group signer) gs = Ok groups ∧
    Forall2 (λ g g', inner <$> g' ≡ₚ inner <$> g ∧ group_sorted signer g') gs groups.
Proof.
  induction 1 as [|g gs Hg _ (groups & IH & Hf)]; [exists []; by repeat constructor|].
  destruct (sort_group_spec signer g Hg) as (g' & Hs & Hp & Hsort).
  exists (g' :: groups). simpl. rewrite Hs. simpl. rewrite IH. simpl. split; [done|]. by constructor.
Qed.

(** ** When conflicts are transitive the classes are exactly the conflict classes *)

Section transitive.
Variable l0 : list TxClass.
Hypothesis Hok0 : classes_ok l0 l0.
Hypothesis Hids : ∀ k c, l0 !! k = Some c → ID c = Z.of_nat k.
Hypothesis Htrans : ∀ i j k, shares l0 i j → shares l0 j k → shares l0 i k.

(** [m] is [k] or conflicts with it. *)
Let related (m k : nat) : Prop := m = k ∨ shares l0 m k.

Lemma related_sym m k : related m k → related k m.
Proof. intros [->|?]; [by left|right; by apply shares_sym]. Qed.

Lemma related_trans i j k : related i j → related j k → related i k.
Proof. intros [->|Hij] [<-|Hjk]; [by left|by right|by right|right; eauto]. Qed.

Lemma connected_related i j : connected l0 i j → related i j.
Proof.
  induction 1 as [|x y z Hxy _ IH]; [by left|]. eapply related_trans; [by right|exact IH].
Qed.

(** After the rounds below [i]: the class of [k] is the least related position below [i],
    or [k] when there is none. *)
Let least (i k : nat) (id : Z) : Prop :=
  ∃ m, id = Z.of_nat m ∧ related m k ∧ (m <= k)%nat ∧ ((m < k)%nat → (m < i)%nat) ∧
       ∀ m', (m' < i)%nat → related m' k → (m <= m')%nat.

Lemma least_step i k id :
  least i k id → (k <= i)%nat ∨ ¬ related i k → least (S i) k id.
Proof.
  intros (m & -> & Hr & Hle & Hlt & Hmin) Hk. exists m. split_and!; [done|done|done|lia|].
  intros m' Hm' Hr'. destruct (decide (m' = i)) as [->|]; [|apply Hmin; [lia|done]].
  destruct Hk; [lia|done].
Qed.

Lemma least_join i j id : least i i id → (i < j)%nat → related i j → least (S i) j id.
Proof.
  intros (m & -> & Hr & Hle & Hlt & Hmin) Hij Hrij. exists m.
  split_and!; [done|by eapply related_trans|lia|lia|].
  intros m' Hm' Hr'. destruct (decide (m' = i)) as [->|]; [done|].
  apply Hmin; [lia|]. eapply related_trans; [done|by apply related_sym].
Qed.

(** Within round [i], when the positions below [J] have been handled. *)
Let round (i J : nat) (l : list TxClass) : Prop :=
  classes_ok l0 l ∧ ∀ k c, l !! k = Some c →
    ((k < J)%nat → least (S i) k (ID c)) ∧ ((J <= k)%nat → least i k (ID c)) ∧
    (k = i → least i k (ID c)).

Lemma conflict_related l i j a b :
  classes_ok l0 l → l !! i = Some a → l !! j = Some b → (i < j)%nat →
  IsConflict (TxResource a) (TxResource b) = true ↔ related i j.
Proof.
  intros Hok Ha Hb Hij. split.
  - intros Hc. apply connected_related. by eapply conflict_connected.
  - intros [->|(a0 & b0 & Ha0 & Hb0 & (x & Hxa & Hxb)%IsConflict_spec)]; [lia|].
    destruct Hok as [_ Hok].
    destruct (class_orig _ _ _ (Hok _ _ Ha)) as (a1 & Ha1 & _ & HRa).
    destruct (class_orig _ _ _ (Hok _ _ Hb)) as (b1 & Hb1 & _ & HRb).
    simplify_eq. apply IsConflict_spec. eauto.
Qed.

Lemma round_pair i j l :
  (i < j)%nat → round i j l → round i (S j) (classify_pair i j l).
Proof.
  intros Hij [Hok Hr]. split; [by apply classify_pair_ok|].
  assert (∀ k c, l !! k = Some c → (k = j → ¬ related i j) →
    ((k < S j)%nat → least (S i) k (ID c)) ∧ ((S j <= k)%nat → least i k (ID c)) ∧
    (k = i → least i k (ID c))) as Hkeep.
  { intros k c Hk Hj. destruct (Hr k c Hk) as (H1' & H2' & H3'). split_and!; [|intros; apply H2'; lia|done].
    intros Hlt. destruct (decide (k = j)) as [->|]; [|apply H1'; lia].
    apply least_step; [apply H2'; lia|]. right. by apply Hj. }
  unfold classify_pair. destruct (l !! i) as [a|] eqn:Ha; [|intros k c Hk; apply Hkeep; [done|]].
  2: { intros ->. apply lookup_ge_None in Ha. apply lookup_lt_Some in Hk. lia. }
  destruct (l !! j) as [b|] eqn:Hb; [|intros k c Hk; apply Hkeep; [done|]; congruence].
  pose proof (conflict_related l i j a b Hok Ha Hb Hij) as Hc.
  destruct (IsConflict _ _) eqn:Ec.
  - intros k c Hk. destruct (Hr i a Ha) as (Hi1 & _ & Hi3).
    apply list_lookup_insert_Some in Hk as [(<- & <- & _)|[Hne Hk]]; simpl.
    { split_and!; [|lia|lia]. intros _. apply least_join; [by apply Hi3|done|by apply Hc]. }
    apply list_lookup_insert_Some in Hk as [(<- & <- & _)|[_ Hk]]; simpl.
    { split_and!; [|lia|done]. intros _. apply Hi1. lia. }
    apply Hkeep; [done|]. intros ->. done.
  - intros k c Hk. apply Hkeep; [done|]. intros -> Hrel. apply Hc in Hrel. done.
Qed.

Lemma round_from i J n l :
  (i < J)%nat → round i J l → (length l0 <= J + n)%nat →
  round i (J + n) (foldl (λ l j, classify_pair i j l) l (seq J n)).
Proof.
  revert J l. induction n as [|n IH]; intros J l HJ Hr Hn; simpl; [by rewrite Nat.add_0_r|].
  rewrite Nat.add_succ_r, <- Nat.add_succ_l.
  apply IH; [lia | by apply round_pair | lia].
Qed.

(** Between rounds. *)
Let stage (i : nat) (l : list TxClass) : Prop :=
  classes_ok l0 l ∧ ∀ k c, l !! k = Some c → least i k (ID c).

Lemma stage_step i l : (i < length l0)%nat → stage i l → stage (S i) (classify_from i l).
Proof.
  intros Hi [Hok Hl]. unfold classify_from.
  assert (length l = length l0) as Hlen by apply Hok.
  destruct (round_from i (S i) (length l - S i) l) as [Hok' Hr]; [lia| |lia|].
  - split; [done|]. intros k c Hk. split_and!; [|intros; by apply Hl|intros; by apply Hl].
    intros ?. apply least_step; [by apply Hl|]. left. lia.
  - split; [done|]. intros k c Hk. apply (Hr k c Hk). apply lookup_lt_Some in Hk.
    destruct Hok' as [Hlen' _]. lia.
Qed.

Lemma stage_all n l i :
  (i + n <= length l0)%nat → stage i l →
  stage (i + n) (foldl (λ l i, classify_from i l) l (seq i n)).
Proof.
  revert i l. induction n as [|n IH]; intros i l Hn Hs; simpl; [by rewrite Nat.add_0_r|].
  rewrite Nat.add_succ_r, <- Nat.add_succ_l. apply IH; [lia|]. apply stage_step; [lia|done].
Qed.

Lemma classify_ids_exact i j a b :
  classify_ids l0 !! i = Some a → classify_ids l0 !! j = Some b →
  ID a = ID b ↔ i = j ∨ shares l0 i j.
Proof.
  intros Ha Hb. destruct (stage_all (length l0) l0 0) as [Hok Hl]; [lia| |].
  { split; [done|]. intros k c Hk. exists k. rewrite (Hids _ _ Hk).
    split_and!; [done|by left|done|lia|lia]. }
  fold (classify_ids l0) in Hok, Hl.
  destruct (Hl _ _ Ha) as (m & -> & Hm & Hmi & _ & Hmin).
  destruct (Hl _ _ Hb) as (m' & -> & Hm' & Hmj & _ & Hmin').
  apply lookup_lt_Some in Ha, Hb. destruct Hok as [Hlen _]. split.
  - intros E%Nat2Z.inj. subst m'. apply (related_trans _ m); [by apply related_sym|done].
  - intros Hij. f_equal. apply Nat.le_antisymm.
    + apply Hmin; [lia|]. eapply related_trans; [done|]. by apply related_sym.
    + apply Hmin'; [lia|]. by eapply related_trans.
Qed.

End transitive.

(** When resource conflict is transitive on the transactions, [ClassifyTx] separates
    exactly the conflict classes: two transactions get the same class if and only if they
    are the same or conflict. *)
Theorem classify_separates txs l0 :
  NewTxClassList txs = Ok l0 →
  (∀ i j k, shares l0 i j → shares l0 j k → shares l0 i k) →
  ∀ i j a b, classify_ids l0 !! i = Some a → classify_ids l0 !! j = Some b →
  ID a = ID b ↔ i = j ∨ shares l0 i j.
Proof.
  intros Hl Htr. apply classify_ids_exact; [by eapply NewTxClassList_ok| |done].
  intros k c Hk. by destruct (proj2 (class_list_lookup _ _ _ Hl) _ _ Hk) as [-> _].
Qed.

(** ** A conflict always puts the later transaction with an earlier one *)

(** In the rounds below [i], every transaction met in conflict with an earlier one has
    joined the class of an earlier one. *)
Definition joined (l0 l : list TxClass) (hit : nat → nat → Prop) (i : nat) : Prop :=
  ∀ i0 j, (i0 < j)%nat → hit i0 j → shares l0 i0 j →
    ∃ m c c', (m < j)%nat ∧ (m < i)%nat ∧ l !! m = Some c ∧ l !! j = Some c' ∧ ID c' = ID c.

Lemma joined_pair l0 l i j :
  classes_ok l0 l → (i < j < length l0)%nat →
  joined l0 l (λ i0 j0, (i0 < i)%nat ∨ i0 = i ∧ (j0 < j)%nat) (S i) →
  joined l0 (classify_pair i j l) (λ i0 j0, (i0 < i)%nat ∨ i0 = i ∧ (j0 < S j)%nat) (S i).
Proof.
  intros [Hlen Hok] Hij Hj.
  destruct (lookup_lt_is_Some_2 l i) as [a Ha]; [lia|].
  destruct (lookup_lt_is_Some_2 l j) as [b Hb]; [lia|].
  unfold classify_pair. rewrite Ha, Hb.
  destruct (IsConflict (TxResource a) (TxResource b)) eqn:Ec.
  - intros i0 k Hik Hhit Hsh. destruct (decide (k = j)) as [->|Hkj].
    + exists i. do 2 eexists. split_and!; [lia|lia|..].
      * rewrite list_lookup_insert_ne, list_lookup_insert_eq by lia. done.
      * rewrite list_lookup_insert_eq by (rewrite length_insert; lia). done.
      * done.
    + destruct (Hj i0 k Hik) as (m & c & c' & Hmk & Hmi & Hm & Hk & E); [lia|done|].
      assert (∀ n d, n ≠ j → l !! n = Some d → ∃ d',
        <[j:=mkTxClass (Tx b) (ID a) (set_Union (TxResource a) (TxResource b))]>
          (<[i:=mkTxClass (Tx a) (ID a) (set_Union (TxResource a) (TxResource b))]> l) !! n = Some d'
        ∧ ID d' = ID d) as Hkeep.
      { intros n d Hn Hd. rewrite list_lookup_insert_ne by done.
        destruct (decide (n = i)) as [->|].
        - rewrite list_lookup_insert_eq by lia. eexists. split; [done|]. simpl. congruence.
        - rewrite list_lookup_insert_ne by done. eauto. }
      destruct (Hkeep m c) as (d & Hd & Ed); [lia|done|].
      destruct (Hkeep k c') as (d' & Hd' & Ed'); [done|done|].
      exists m, d, d'. split_and!; [done|done|done|done|congruence].
  - intros i0 k Hik Hhit Hsh.
    destruct Hhit as [?|[-> Hk]]; [apply (Hj i0 k); auto|].
    destruct (decide (k = j)) as [->|]; [|apply (Hj i k); [done| |done]; right; split; [done|lia]].
    destruct Hsh as (a0 & b0 & Ha0 & Hb0 & (x & Hxa & Hxb)%IsConflict_spec).
    destruct (class_orig _ _ _ (Hok _ _ Ha)) as (a1 & Ha1 & _ & HRa).
    destruct (class_orig _ _ _ (Hok _ _ Hb)) as (b1 & Hb1 & _ & HRb). simplify_eq.
    assert (IsConflict (TxResource a) (TxResource b) = true); [|congruence].
    apply IsConflict_spec. eauto.
Qed.

Lemma joined_weaken l0 l (hit hit' : nat → nat → Prop) i i' :
  (∀ i0 j, shares l0 i0 j → (i0 < j)%nat → hit' i0 j → hit i0 j) → (i <= i')%nat →
  joined l0 l hit i → joined l0 l hit' i'.
Proof.
  intros Hh Hi Hj i0 j Hij Hhit Hsh.
  destruct (Hj i0 j Hij) as (m & c & c' & ? & ? & ?); [by apply Hh|done|].
  exists m, c, c'. split; [done|]. split; [lia|done].
Qed.

Lemma joined_from l0 i n : ∀ l J,
  classes_ok l0 l → (i < J)%nat → (J + n <= length l0)%nat →
  joined l0 l (λ i0 j0, (i0 < i)%nat ∨ i0 = i ∧ (j0 < J)%nat) (S i) →
  joined l0 (foldl (λ l j, classify_pair i j l) l (seq J n))
    (λ i0 j0, (i0 < i)%nat ∨ i0 = i ∧ (j0 < J + n)%nat) (S i).
Proof.
  induction n as [|n IH]; intros l J Hok HJ Hn Hj; simpl; [by rewrite Nat.add_0_r|].
  rewrite Nat.add_succ_r, <- Nat.add_succ_l.
  apply IH; [by apply classify_pair_ok|lia|lia|]. apply joined_pair; [done|lia|done].
Qed.

Lemma classify_from_ok l0 l i : classes_ok l0 l → classes_ok l0 (classify_from i l).
Proof. apply foldl_invariant. intros l2 j. apply classify_pair_ok. Qed.

Lemma joined_all l0 n : ∀ l i,
  classes_ok l0 l → (i + n <= length l0)%nat → joined l0 l (λ i0 _, (i0 < i)%nat) i →
  joined l0 (foldl (λ l i, classify_from i l) l (seq i n)) (λ i0 _, (i0 < i + n)%nat) (i + n).
Proof.
  induction n as [|n IH]; intros l i Hok Hn Hj; simpl; [by rewrite Nat.add_0_r|].
  rewrite Nat.add_succ_r, <- Nat.add_succ_l. apply IH; [by apply classify_from_ok|lia|].
  assert (length l = length l0) as Hlen by apply Hok.
  unfold classify_from. eapply joined_weaken;
    [|reflexivity|apply (joined_from l0 i (length l - S i) l (S i)); [done|lia|lia|]].
  - intros i0 j (_ & b & _ & Hb & _) Hij Hi0. apply lookup_lt_Some in Hb.
    destruct (decide (i0 = i)) as [->|]; [right; split; [done|lia]|left; lia].
  - eapply joined_weaken; [|apply Nat.le_succ_diag_r|exact Hj].
    intros i0 j _ Hij [?|[-> ?]]; [done|lia].
Qed.

Lemma classify_joins l0 i j :
  classes_ok l0 l0 → (i < j)%nat → shares l0 i j →
  ∃ m c c', (m < j)%nat ∧ classify_ids l0 !! m = Some c ∧ classify_ids l0 !! j = Some c' ∧ ID c' = ID c.
Proof.
  intros Hok Hij Hsh. pose proof Hsh as (_ & b & _ & Hb & _). apply lookup_lt_Some in Hb.
  destruct (joined_all l0 (length l0) l0 0 Hok) with (i0 := i) (j := j)
    as (m & c & c' & ? & _ & ?); [lia|intros i0 j0 _ Hi0; lia|done|lia|done|].
  by exists m, c, c'.
Qed.

(** ** What [ClassifyTx] computes *)

(** The transactions at positions [i] and [j] declare a common resource. *)
Definition conflicting (txs : list Transaction) (i j : nat) : Prop :=
  ∃ t t' al al' x, txs !! i = Some t ∧ txs !! j = Some t' ∧
    tx_AccessList t = Some al ∧ tx_AccessList t' = Some al' ∧ resource al x ∧ resource al' x.

(** The transactions of the class [id], when [ids] gives the class of every position. *)
Definition class_of (ids : list Z) (txs : list Transaction) (id : Z) : list Transaction :=
  (filter (λ p, p.1 = id) (zip ids txs)).*2.

Lemma class_of_filter l id :
  class_of (ID <$> l) (Tx <$> l) id = Tx <$> filter (λ c, ID c = id) l.
Proof.
  unfold class_of. induction l as [|c l IH]; [done|]. cbn [fmap list_fmap zip zip_with].
  rewrite !filter_cons. simpl. case_decide; simpl; [f_equal|]; exact IH.
Qed.

Lemma shares_conflicting txs l0 i j :
  Forall (λ tx, ∃ al, tx_AccessList tx = Some al ∧ al_wf al) txs →
  NewTxClassList txs = Ok l0 → shares l0 i j ↔ conflicting txs i j.
Proof.
  intros Hal Hl. destruct (class_list_lookup _ _ _ Hl) as [HT Hc].
  assert (∀ k c, l0 !! k = Some c → ∃ al, txs !! k = Some (Tx c) ∧
    tx_AccessList (Tx c) = Some al ∧ ∀ x, set_In x (TxResource c) ↔ resource al x) as Hk.
  { intros k c E. assert (txs !! k = Some (Tx c)) as Et by (by rewrite <- HT, list_lookup_fmap, E).
    destruct (Forall_lookup_1 _ _ _ _ Hal Et) as (al & Ea & _). exists al. split_and!; [done|done|].
    apply MergeAccessList_In. destruct (Hc _ _ E) as [_ Hm]. by rewrite Ea in Hm. }
  split.
  - intros (a & b & Ha & Hb & (x & Hxa & Hxb)%IsConflict_spec).
    destruct (Hk _ _ Ha) as (al & Et & Eal & Hr), (Hk _ _ Hb) as (al' & Et' & Eal' & Hr').
    exists (Tx a), (Tx b), al, al', x. rewrite <- Hr, <- Hr'. done.
  - intros (t & t' & al & al' & x & Ht & Ht' & Eal & Eal' & Hx & Hx').
    rewrite <- HT in Ht, Ht'. rewrite !list_lookup_fmap in *.
    destruct (l0 !! i) as [a|] eqn:Ha, (l0 !! j) as [b|] eqn:Hb; simplify_eq/=.
    destruct (Hk _ _ Ha) as (al1 & _ & E1 & Hr), (Hk _ _ Hb) as (al2 & _ & E2 & Hr').
    exists a, b. split_and!; [done|done|]. apply IsConflict_spec. exists x.
    rewrite Hr, Hr'. by simplify_eq.
Qed.

(** The groups, named by their classes. *)
Lemma groups_are_classes signer l groups :
  Forall2 (λ g g', inner <$> g' ≡ₚ inner <$> g ∧ group_sorted signer g')
    (range_map (make_groups l)).*2 groups →
  ∃ names, NoDup names ∧ (∀ id, id ∈ names ↔ id ∈ ID <$> l) ∧
    Forall2 (λ id g, inner <$> g ≡ₚ inner <$> class_of (ID <$> l) (Tx <$> l) id ∧
                     group_sorted signer g) names groups.
Proof.
  intros Hf. exists (range_map (make_groups l)).*1. split_and!.
  - rewrite range_map_perm. apply NoDup_fst_map_to_list.
  - intros id. rewrite list_elem_of_fmap. setoid_rewrite list_elem_of_fmap. split.
    + intros ([id' g] & -> & Hin%range_map_elem). simpl in *.
      destruct (make_groups_Some _ _ _ Hin) as [-> Hne].
      destruct (filter (λ c, ID c = id') l) as [|c cs] eqn:E; [done|].
      assert (c ∈ filter (λ c, ID c = id') l) as [Hid Hc]%list_elem_of_filter
        by (rewrite E; constructor). eauto.
    + intros (c & -> & Hc). destruct (make_groups_lookup l (ID c)) as [Hd _].
      destruct (make_groups l !! ID c) as [g|] eqn:E.
      * exists (ID c, g). split; [done|]. by apply range_map_elem.
      * simpl in Hd. symmetry in Hd. apply fmap_nil_inv in Hd.
        assert (c ∈ filter (λ c', ID c' = ID c) l) by (by apply list_elem_of_filter).
        rewrite Hd in *. by apply not_elem_of_nil in H2.
  - apply Forall2_fmap_l. apply Forall2_fmap_l in Hf. apply Forall2_same_length_lookup_2;
      [by eapply Forall2_length|]. intros k [id g] g' Hg Hg'.
    destruct (Forall2_lookup_lr _ _ _ _ _ _ Hf Hg Hg') as [Hp Hs]. simpl in *. split; [|done].
    apply list_elem_of_lookup_2, range_map_elem, make_groups_Some in Hg as [-> _].
    by rewrite class_of_filter.
Qed.

Lemma same_class_connected l0 l i j a b :
  classes_ok l0 l → l !! i = Some a → l !! j = Some b → ID a = ID b → connected l0 i j.
Proof.
  intros [_ Hok] Ha Hb E.
  destruct (class_id _ _ _ (Hok _ _ Ha)) as (m & Hm & Him).
  destruct (class_id _ _ _ (Hok _ _ Hb)) as (m' & Hm' & Hjm).
  assert (m = m') as <- by lia. etransitivity; [exact Him|by apply connected_sym].
Qed.

(** C12: for transactions with well-formed access lists and derivable senders, whatever
    the iteration order of the maps and the sorting algorithm, [ClassifyTx] does not
    panic; its groups are the classes of an assignment of classes to the transactions,
    every class one group, sorted by sender and, for one sender, by rising nonce.  Two
    transactions of a class are linked by a chain of conflicts; a transaction that
    conflicts with an earlier one is in the class of an earlier one; and when conflict is
    transitive, two transactions are in the same class exactly when they conflict. *)
Theorem ClassifyTx_groups txs signer :
  Forall (λ tx, derivable signer tx ∧ ∃ al, tx_AccessList tx = Some al ∧ al_wf al) txs →
  ∃ groups ids names,
    ClassifyTx txs signer = Ok groups ∧ length ids = length txs ∧
    NoDup names ∧ (∀ id, id ∈ names ↔ id ∈ ids) ∧
    Forall2 (λ id g, inner <$> g ≡ₚ inner <$> class_of ids txs id ∧ group_sorted signer g)
      names groups ∧
    (∀ i j id, ids !! i = Some id → ids !! j = Some id → rtc (conflicting txs) i j) ∧
    (∀ i j, (i < j)%nat → conflicting txs i j → ∃ m, (m < j)%nat ∧ ids !! m = ids !! j) ∧
    ((∀ i j k, conflicting txs i j → conflicting txs j k → conflicting txs i k) →
     ∀ i j, (i < length txs)%nat → (j < length txs)%nat →
     ids !! i = ids !! j ↔ i = j ∨ conflicting txs i j).
Proof.
  intros Hall. apply Forall_and in Hall as [Hd Hal].
  destruct (class_list_total txs 0 Hal) as [l0 Hl0].
  destruct (NewTxClassList_ok txs l0 Hl0) as [Hok0 HT0].
  pose proof (classify_ids_ok l0 l0 Hok0) as Hok.
  pose proof (classes_ok_Tx _ _ Hok) as HT. rewrite HT0 in HT.
  pose proof (λ i j, shares_conflicting txs l0 i j Hal Hl0) as Hsc.
  assert (Forall (Forall (derivable signer)) (range_map (make_groups (classify_ids l0))).*2) as Hdg.
  { apply Forall_concat. by rewrite make_groups_perm, HT. }
  destruct (sort_groups_spec signer _ Hdg) as (groups & Hg & Hf).
  destruct (groups_are_classes _ _ _ Hf) as (names & Hnd & Hn & Hgs). rewrite HT in Hgs.
  assert (∀ i, (i < length txs)%nat → ∃ c, classify_ids l0 !! i = Some c) as Hpos.
  { intros i Hi. apply lookup_lt_is_Some_2. by rewrite <- (length_fmap Tx), HT. }
  exists groups, (ID <$> classify_ids l0), names. split_and!; [|by rewrite length_fmap, <- HT, length_fmap|done..| | |].
  - unfold ClassifyTx, NewTxClassList. by rewrite Hl0.
  - intros i j id Hi Hj. apply list_lookup_fmap_Some in Hi as (a & -> & Ha).
    apply list_lookup_fmap_Some in Hj as (b & E & Hb).
    eapply rtc_subrel; [|by eapply (same_class_connected l0)]. intros ??. by apply Hsc.
  - intros i j Hij Hc%Hsc. destruct (classify_joins l0 i j Hok0 Hij Hc) as (m & c & c' & ? & Hm & Hj & E).
    exists m. split; [done|]. rewrite !list_lookup_fmap, Hm, Hj. simpl. by rewrite E.
  - intros Htr i j [a Ha]%Hpos [b Hb]%Hpos. rewrite <- Hsc, !list_lookup_fmap, Ha, Hb. simpl.
    rewrite <- (classify_ids_exact l0 Hok0) with (i := i) (j := j) (a := a) (b := b); [|..].
    + split; [by intros [= ->]|by intros ->].
    + intros k c Hk. by destruct (proj2 (class_list_lookup _ _ _ Hl0) _ _ Hk) as [-> _].
    + intros i' j' k'. rewrite !Hsc. apply Htr.
    + done.
    + done.
Qed.

(** Conflicting transactions can end up in different groups.  Whenever the third of
    three transactions conflicts with the first and with the second, which do not
    conflict with each other, the third leaves the class of the first for that of the
    second: the first and the third conflict and are classified apart. *)
Theorem ClassifyTx_splits_conflict c0 c1 c2 :
  IsConflict (TxResource c0) (TxResource c1) = false →
  IsConflict (TxResource c0) (TxResource c2) = true →
  IsConflict (TxResource c1) (TxResource c2) = true →
  ID <$> classify_ids [c0; c1; c2] = [ID c0; ID c1; ID c1].
Proof.
  intros H01 H02 H12.
  assert (IsConflict (TxResource c1) (set_Union (TxResource c0) (TxResource c2)) = true) as H12'.
  { apply IsConflict_spec in H12 as (x & ? & ?). apply IsConflict_spec.
    exists x. rewrite set_Union_In. auto. }
  unfold classify_ids, classify_from. cbn -[IsConflict]. unfold classify_pair.
  cbn -[IsConflict]. rewrite H01. cbn -[IsConflict]. rewrite H02. cbn -[IsConflict].
  rewrite H12'. done.
Qed.

(** slots stored at index 0 of an access list are not part of its resources: for two
    well-formed lists that both declare slot [k] of address [X], one as the only entry
    and one after an entry for another address, [IsConflict] is false. *)
Theorem MergeAccessList_misses_slot0 X Y k h :
  addr_ok X = true → addr_ok Y = true → X ≠ Y →
  let al1 := mkAccessList {[X := 0]} [{[k]}] in
  let al2 := mkAccessList (<[Y := 0]> {[X := 1]}) [{[h]}; {[k]}] in
  Contains al1 X k = Ok (true, true) ∧ Contains al2 X k = Ok (true, true) ∧
  ∃ s1 s2, MergeAccessList (Some al1) = Ok s1 ∧ MergeAccessList (Some al2) = Ok s2 ∧
           IsConflict s1 s2 = false.
Proof.
  intros HX HY Hne al1 al2.
  assert (Addresses al1 !! X = Some 0) as E1 by apply lookup_insert_eq.
  assert (Addresses al2 !! X = Some 1) as E2
    by (simpl; rewrite lookup_insert_ne by done; apply lookup_insert_eq).
  split_and!.
  { unfold Contains. rewrite E1. simpl. by rewrite bool_decide_true by set_solver. }
  { unfold Contains. rewrite E2. simpl. by rewrite bool_decide_true by set_solver. }
  destruct (merge_loop_total al1 (range_map (Addresses al1)) set_NewSet) as [s1 Hs1].
  { apply Forall_forall. intros [a n] Ha%range_map_elem. simpl in Ha.
    apply lookup_singleton_Some in Ha as [_ <-]. simpl. lia. }
  destruct (merge_loop_total al2 (range_map (Addresses al2)) set_NewSet) as [s2 Hs2].
  { apply Forall_forall. intros [a n] Ha%range_map_elem. simpl in Ha.
    apply lookup_insert_Some in Ha as [[_ <-]|[_ [_ <-]%lookup_singleton_Some]]; simpl; lia. }
  exists s1, s2. split; [done|]. split; [done|]. apply not_true_iff_false.
  intros (x & Hx1 & Hx2)%IsConflict_spec.
  apply (MergeAccessList_In al1 s1 Hs1) in Hx1 as (a & n & Ha & Hx1).
  simpl in Ha. apply lookup_singleton_Some in Ha as [<- <-].
  destruct Hx1 as [[_ ->]|(? & ? & ? & _)]; [|lia].
  apply (MergeAccessList_In al2 s2 Hs2) in Hx2 as (a & n & Ha & Hx2). simpl in Ha.
  destruct Hx2 as [[Hn E]|(sl & key & _ & _ & _ & E)]; [|by apply address_not_slot in E].
  apply Address_Hex_inj in E; [|done|].
  - subst a. rewrite lookup_insert_ne, lookup_singleton_eq in Ha by done. simplify_eq.
  - apply lookup_insert_Some in Ha as [[<- _]|[_ [<- _]%lookup_singleton_Some]]; done.
Qed.

(** ** [SelectTxs] never returns *)

Definition total_txs (m : gmap Address (list Transaction)) : nat :=
  length (concat (map_to_list m).*2).

Lemma total_txs_pop m a tx rest :
  m !! a = Some (tx :: rest) → total_txs m = S (total_txs (<[a := rest]> m)).
Proof.
  intros Ha. unfold total_txs.
  rewrite <- insert_delete_eq, map_to_list_insert by apply lookup_delete_eq.
  rewrite <- (map_to_list_delete m a (tx :: rest)) by done. done.
Qed.

Lemma select_loop_panics fuel : ∀ temp gasLimit sel,
  0 <= gasLimit →
  (∀ r, select_loop fuel temp gasLimit 0 sel ≠ Some (Ok r)) ∧
  ((total_txs temp < fuel)%nat → ∃ m, select_loop fuel temp gasLimit 0 sel = Some (Panic m)).
Proof.
  induction fuel as [|fuel IH]; intros temp gasLimit sel Hg; cbn [select_loop];
    (destruct (Z.ltb_spec gasLimit 0); [lia|]); [split; [done|lia]|].
  destruct (FindMaxGasPrice temp) as [a|m]; [|split; eauto].
  destruct (temp !! a) as [[|tx rest]|] eqn:Ha; simpl; [split; eauto| |split; eauto].
  destruct (IH (<[a:=rest]> temp) gasLimit (sel ++ [tx]) Hg) as [IH1 IH2].
  split; [done|]. intros Hf. apply IH2. rewrite (total_txs_pop _ _ _ _ Ha) in Hf. lia.
Qed.

(** [SelectTxs] never returns a selection: the running sum is never increased, so the
    loop only ends by an index out of range, after at most one round per transaction. *)
Theorem SelectTxs_never_returns txMap gasLimit :
  0 <= gasLimit →
  (∀ fuel r, SelectTxs fuel txMap gasLimit ≠ Some (Ok r)) ∧
  (∀ fuel, (total_txs txMap < fuel)%nat → ∃ m, SelectTxs fuel txMap gasLimit = Some (Panic m)).
Proof.
  intros Hg. split; intros fuel; [|intros Hf]; by apply (select_loop_panics fuel txMap).
Qed.

End classify_theorems.

(** ** Witnesses *)

(** A transaction that declares the given addresses without slots. *)
Definition declaring (nonce : Z) (addrs : list Address) : Transaction :=
  mkTransaction (mkPanguTransaction (Some 0xAA) nonce (Some 10) 100000 (Some 50) (Some 2) (Some 7)
    0 (be_bytes 32 1 ++ be_bytes 32 5 ++ [0]) 0 [] 0 []
    (Some (mkAccessList (list_to_map ((λ a, (a, -1)) <$> addrs)) []))) 0 None None None.

Lemma declaring_wf addrs : al_wf (mkAccessList (list_to_map ((λ a, (a, -1)) <$> addrs)) []).
Proof.
  assert (∀ a i, (list_to_map ((λ a, (a, -1)) <$> addrs) : gmap Address Z) !! a = Some i → i = -1)
    as Hi.
  { intros a i Ha%elem_of_list_to_map_2. apply list_elem_of_fmap in Ha as (? & [= _ ->] & _). done. }
  split; simpl.
  - intros a i Ha. left. by eapply Hi.
  - intros a b i Ha Hb. apply Hi in Ha. intros. lia.
  - intros i s Hs. done.
  - intros i Hi'. simpl in Hi'. lia.
Qed.

#[local] Existing Instances reference_runtime toy_crypto gset_MapSet.

Lemma declaring_derivable nonce addrs : derivable (mkSigner 7 14) (declaring nonce addrs).
Proof.
  split; [by intros sc|]. unfold signer_Sender. cbn [tx_Type declaring]. simpl. eauto.
Qed.

(** Two conflicting transactions of one sender in the wrong order of nonces, and one apart. *)
Definition three_declared : list Transaction :=
  [declaring 1 [0xA]; declaring 0 [0xA; 0xB]; declaring 0 [0xC]].

Lemma ClassifyTx_groups_witness :
  ∃ groups ids names,
    ClassifyTx three_declared (mkSigner 7 14) = Ok groups ∧ length ids = 3%nat ∧
    Forall2 (λ id g, inner <$> g ≡ₚ inner <$> class_of ids three_declared id ∧
                     group_sorted (mkSigner 7 14) g) names groups ∧
    ids !! 0%nat = ids !! 1%nat.
Proof.
  destruct (ClassifyTx_groups three_declared (mkSigner 7 14))
    as (groups & ids & names & Hc & Hl & _ & _ & Hg & _ & Hj & _).
  - repeat constructor; try apply declaring_derivable;
      (eexists; split; [reflexivity|apply declaring_wf]).
  - exists groups, ids, names. split; [exact Hc|]. split; [exact Hl|]. split; [exact Hg|].
    destruct (Hj 0%nat 1%nat) as (m & Hm & E); [lia| |].
    + do 4 eexists. exists (Address_Hex 0xA). split_and!; try reflexivity;
        (exists 0xA, (-1); split; [reflexivity|left; split; [lia|reflexivity]]).
    + assert (m = 0%nat) as -> by lia. exact E.
Defined.

Lemma declaring_list_total nonces addrs :
  ∃ l, NewTxClassList ((λ n, declaring n addrs) <$> nonces) = Ok l.
Proof.
  apply class_list_total, Forall_fmap, Forall_true. intros n.
  eexists. split; [reflexivity | apply declaring_wf].
Qed.

(** Transactions that declare the same address conflict pairwise. *)
Lemma declaring_shares nonces a l i j :
  NewTxClassList ((λ n, declaring n [a]) <$> nonces) = Ok l →
  (i < length l)%nat → (j < length l)%nat → shares l i j.
Proof.
  intros Hl Hi Hj. destruct (class_list_lookup _ _ _ Hl) as [HT Hc].
  assert (∀ k c, l !! k = Some c → set_In (Address_Hex a) (TxResource c)) as Hin.
  { intros k c Hk. destruct (Hc k c Hk) as [_ Hm].
    assert (Tx c ∈ Tx <$> l) as HTc by (apply list_elem_of_fmap_2; by eapply list_elem_of_lookup_2).
    rewrite HT in HTc. apply list_elem_of_fmap in HTc as (n & E & _). rewrite E in Hm.
    apply (MergeAccessList_In _ _ Hm). exists a, (-1). split; [apply lookup_insert_eq|].
    left. split; [lia|done]. }
  destruct (lookup_lt_is_Some_2 l i Hi) as [ci Hci], (lookup_lt_is_Some_2 l j Hj) as [cj Hcj].
  exists ci, cj. split_and!; [done|done|]. apply IsConflict_spec. eauto.
Qed.

Lemma classify_separates_witness :
  ∃ l0, NewTxClassList [declaring 1 [0xA]; declaring 2 [0xA]] = Ok l0 ∧
  ∀ a b, classify_ids l0 !! 0%nat = Some a → classify_ids l0 !! 1%nat = Some b →
  ID a = ID b ↔ 0%nat = 1%nat ∨ shares l0 0 1.
Proof.
  destruct (declaring_list_total [1; 2] [0xA]) as [l0 Hl0]. exists l0. split; [exact Hl0|].
  apply (classify_separates [declaring 1 [0xA]; declaring 2 [0xA]] l0 Hl0).
  intros i j k (a & _ & Ha & _) (_ & b & _ & Hb & _). apply lookup_lt_Some in Ha, Hb.
  exact (declaring_shares [1; 2] 0xA l0 i k Hl0 Ha Hb).
Defined.

Lemma ClassifyTx_splits_conflict_witness :
  let c i r := mkTxClass (declaring i []) i r in
  ID <$> classify_ids [c 0 {[[1]]}; c 1 {[[2]]}; c 2 {[[1]; [2]]}] = [0; 1; 1].
Proof.
  intros c. apply (ClassifyTx_splits_conflict (c 0 {[[1]]}) (c 1 {[[2]]}) (c 2 {[[1]; [2]]}));
    vm_compute; reflexivity.
Defined.

Lemma MergeAccessList_misses_slot0_witness :
  let al1 := mkAccessList {[1 := 0]} [{[3]}] in
  let al2 := mkAccessList (<[2 := 0]> {[1 := 1]}) [{[4]}; {[3]}] in
  Contains al1 1 3 = Ok (true, true) ∧ Contains al2 1 3 = Ok (true, true) ∧
  ∃ s1 s2, MergeAccessList (Some al1) = Ok s1 ∧ MergeAccessList (Some al2) = Ok s2 ∧
           IsConflict s1 s2 = false.
Proof. apply (MergeAccessList_misses_slot0 1 2 3 4); [reflexivity|reflexivity|lia]. Defined.

Lemma SelectTxs_never_returns_witness :
  ∃ m, SelectTxs 2 {[5 := [declaring 0 []]]} 1000 = Some (Panic m).
Proof.
  apply (SelectTxs_never_returns {[5 := [declaring 0 []]]} 1000); [lia|]. vm_compute. lia.
Defined.
