(* ===== verification/TxOrder.v ===== *)
(** * Transactions by price and nonce (core/types/transaction.go)

    The set a block producer takes transactions from: one queue per account, and a heap of
    the next transaction of every account, ordered by the fee the producer earns.  Taking
    the best one until none is left is shown to be a greedy merge of the queues, for every
    order in which the runtime visits the map the set is made from. *)

From S2P Require Import Prelude Bytes Params Common Heap AccessList Types.

Record TxWithMinerFee := mkMinerFee { mf_tx : Transaction; mf_minerFee : Z }.

(** Only the total lookups of the heap need it. *)
#[global] Instance TxWithMinerFee_inhabited : Inhabited TxWithMinerFee :=
  populate (mkMinerFee (sample_tx [] []) 0).

Definition NewTxWithMinerFee (tx : Transaction) (baseFee : option Z) : res (tx_error + TxWithMinerFee) :=
  '(minerFee, err) ← EffectiveGasTip tx baseFee;
  Ok (match err with Some err => inl err | None => inr (mkMinerFee tx minerFee) end).

(** [TxByPriceAndTime.Less]: the higher fee first, then the one seen earlier. *)
Definition fee_Less (a b : TxWithMinerFee) : bool :=
  let cmp := big_Cmp (mf_minerFee a) (mf_minerFee b) in
  if cmp =? 0 then tx_time (mf_tx a) <? tx_time (mf_tx b) else 0 <? cmp.

#[global] Instance fee_Less_order : StrictWeak fee_Less.
Proof.
  assert (∀ a b, fee_Less a b = true ↔ mf_minerFee b < mf_minerFee a ∨
    mf_minerFee a = mf_minerFee b ∧ tx_time (mf_tx a) < tx_time (mf_tx b)) as Hs.
  { intros a b. unfold fee_Less, big_Cmp. cbv zeta. destruct (Z.compare_spec (mf_minerFee a) (mf_minerFee b)); cbn;
      [rewrite Z.ltb_lt|..]; intuition (try discriminate; try lia). }
  split; unfold le.
  - intros a b Hab. apply not_true_is_false. rewrite Hs in *. lia.
  - intros a b c Hab Hbc. apply not_true_is_false. apply not_true_iff_false in Hab, Hbc. rewrite Hs in *. lia.
Qed.

Section order.
Context `{Crypto} `{GoRuntime}.

Record TransactionsByPriceAndNonce := mkByPriceAndNonce {
  bp_txs : gmap Address (list Transaction);
  bp_heads : list TxWithMinerFee;
  bp_signer : panguSigner;
  bp_baseFee : option Z;
}.

(** [acc, _ := tx.Sender(signer)]: the zero address comes with an error, which is dropped. *)
Definition Sender_acc (tx : Transaction) (signer : panguSigner) : res Address :=
  r ← tx_Sender tx signer; Ok (match r with inl _ => 0 | inr acc => acc end).

(** One round of the loop over the accounts. *)
Definition take_head (signer : panguSigner) (baseFee : option Z)
    (s : gmap Address (list Transaction) * list TxWithMinerFee) (e : Address * list Transaction)
  : res (gmap Address (list Transaction) * list TxWithMinerFee) :=
  let '(txs, heads) := s in let '(from, accTxs) := e in
  tx ← go_index accTxs 0;
  acc ← Sender_acc tx signer;
  wrapped ← NewTxWithMinerFee tx baseFee;
  Ok (match wrapped with
      | inr wrapped =>
          if bool_decide (acc = from) then (<[from := drop 1 accTxs]> txs, heads ++ [wrapped])
          else (delete from txs, heads)
      | inl _ => (delete from txs, heads)
      end).

Fixpoint take_heads (signer : panguSigner) (baseFee : option Z) (l : list (Address * list Transaction))
    (s : gmap Address (list Transaction) * list TxWithMinerFee)
  : res (gmap Address (list Transaction) * list TxWithMinerFee) :=
  match l with
  | [] => Ok s
  | e :: l => s ← take_head signer baseFee s e; take_heads signer baseFee l s
  end.

Definition NewTransactionsByPriceAndNonce (signer : panguSigner) (txs : gmap Address (list Transaction))
    (baseFee : option Z) : res TransactionsByPriceAndNonce :=
  '(txs, heads) ← take_heads signer baseFee (range_map txs) (txs, []);
  Ok (mkByPriceAndNonce txs (heap_Init fee_Less heads) signer baseFee).

Definition Peek (t : TransactionsByPriceAndNonce) : option Transaction := mf_tx <$> head (bp_heads t).

(** [heap.Pop] swaps the first and the last element, which panics when there is none. *)
Definition bp_Pop (t : TransactionsByPriceAndNonce) : res TransactionsByPriceAndNonce :=
  match heap_Pop fee_Less (bp_heads t) with
  | Some (_, heads) => Ok (mkByPriceAndNonce (bp_txs t) heads (bp_signer t) (bp_baseFee t))
  | None => Panic "index out of range"
  end.

Definition Shift (t : TransactionsByPriceAndNonce) : res TransactionsByPriceAndNonce :=
  h ← go_index (bp_heads t) 0;
  acc ← Sender_acc (mf_tx h) (bp_signer t);
  match bp_txs t !! acc with
  | Some (tx :: txs) =>
      wrapped ← NewTxWithMinerFee tx (bp_baseFee t);
      match wrapped with
      | inr wrapped =>
          Ok (mkByPriceAndNonce (<[acc := txs]> (bp_txs t))
                (heap_Fix fee_Less (<[0%nat := wrapped]> (bp_heads t)) 0) (bp_signer t) (bp_baseFee t))
      | inl _ => bp_Pop t
      end
  | _ => bp_Pop t
  end.

(** The use the set is made for: the best transaction, then the next, until none is left. *)
Fixpoint drain (fuel : nat) (t : TransactionsByPriceAndNonce) : outcome (list Transaction) :=
  match Peek t with
  | None => Done []
  | Some tx =>
      match fuel with
      | O => OutOfFuel
      | S fuel =>
          match Shift t with
          | Panic msg => Crash msg
          | Ok t =>
              match drain fuel t with Done out => Done (tx :: out) | Crash msg => Crash msg | OutOfFuel => OutOfFuel end
          end
      end
  end.

(** ** The specification: a greedy merge of queues *)

(** What the producer of a block with this base fee earns per unit of gas. *)
Definition miner_fee (baseFee : option Z) (tx : Transaction) : Z :=
  let tip := default 0 (pt_TipCap (inner tx)) in
  match baseFee with
  | None => tip
  | Some base => Z.min tip (default 0 (pt_FeeCap (inner tx)) - base)
  end.

(** The fee cap covers the base fee. *)
Definition pays (baseFee : option Z) (tx : Transaction) : bool :=
  match baseFee with None => true | Some base => base <=? default 0 (pt_FeeCap (inner tx)) end.

(** [x] earns more than [y], or as much and is at least as old. *)
Definition preferred (baseFee : option Z) (x y : Transaction) : Prop :=
  miner_fee baseFee y < miner_fee baseFee x ∨
  miner_fee baseFee x = miner_fee baseFee y ∧ tx_time x <= tx_time y.

(** Always a first element of some queue that no first element of another one beats. *)
Inductive merged (baseFee : option Z)
    : gmap Address (list Transaction) → list (Address * Transaction) → Prop :=
  | merged_done Q : (∀ a q, Q !! a = Some q → q = []) → merged baseFee Q []
  | merged_take Q a tx q out :
      Q !! a = Some (tx :: q) →
      (∀ b tx' q', Q !! b = Some (tx' :: q') → preferred baseFee tx tx') →
      merged baseFee (<[a := q]> Q) out → merged baseFee Q ((a, tx) :: out).

(** The transactions before the first that does not pay the base fee. *)
Fixpoint paying (baseFee : option Z) (l : list Transaction) : list Transaction :=
  match l with
  | [] => []
  | tx :: l => if pays baseFee tx then tx :: paying baseFee l else []
  end.

(** The sender of a transaction, the zero address when it cannot be derived. *)
Definition from_of (signer : panguSigner) (tx : Transaction) : Address :=
  match signer_Sender signer tx with Ok (inr a) => a | _ => 0 end.

(** What an account offers: nothing, when its list is another sender's. *)
Definition offered (signer : panguSigner) (baseFee : option Z) (a : Address) (l : list Transaction)
  : list Transaction :=
  match l with
  | [] => []
  | tx :: _ => if from_of signer tx =? a then paying baseFee l else []
  end.

(** ** The queues the set works on *)

Notation queues := (gmap Address (list TxWithMinerFee)).

Inductive greedy : queues → list (Address * TxWithMinerFee) → Prop :=
  | greedy_done R : (∀ a q, R !! a = Some q → q = []) → greedy R []
  | greedy_take R a w q out :
      R !! a = Some (w :: q) →
      (∀ b w' q', R !! b = Some (w' :: q') → le fee_Less w w') →
      greedy (<[a := q]> R) out → greedy R ((a, w) :: out).

(** The transactions of an account that can be taken: up to the first whose fee cap is
    below the base fee; none, when they are filed under another account than their sender. *)
Fixpoint usable (baseFee : option Z) (l : list Transaction) : list TxWithMinerFee :=
  match l with
  | [] => []
  | tx :: l => match NewTxWithMinerFee tx baseFee with Ok (inr w) => w :: usable baseFee l | _ => [] end
  end.
Definition queue (signer : panguSigner) (baseFee : option Z) (from : Address) (l : list Transaction)
  : list TxWithMinerFee :=
  match l with
  | tx :: _ =>
      match Sender_acc tx signer with
      | Ok acc => if bool_decide (acc = from) then usable baseFee l else []
      | Panic _ => []
      end
  | [] => []
  end.

(** No sender is cached and its derivation does not panic, and the amounts are there. *)
Definition tx_ok (signer : panguSigner) (acc : Address) (tx : Transaction) : Prop :=
  (tx_from tx = None ∧ is_ok (signer_Sender signer tx) ∧ from_of signer tx = acc) ∧
  is_Some (pt_FeeCap (inner tx)) ∧ is_Some (pt_TipCap (inner tx)).

Lemma tx_ok_Sender signer acc tx : tx_ok signer acc tx → Sender_acc tx signer = Ok acc.
Proof.
  intros ((Hf & [r Hr] & <-) & _). unfold Sender_acc, tx_Sender, from_of. rewrite Hf, Hr. cbn. by destruct r.
Qed.
(** A list of one sender's transactions. *)
Definition one_sender (signer : panguSigner) (l : list Transaction) : Prop :=
  l ≠ [] ∧ ∃ acc, Forall (tx_ok signer acc) l.

(** ** Single steps *)

Lemma NewTxWithMinerFee_Ok sg acc tx bf : tx_ok sg acc tx → ∃ r, NewTxWithMinerFee tx bf = Ok r.
Proof.
  intros (_ & [cap Hc] & [tip Ht]). unfold NewTxWithMinerFee, EffectiveGasTip, tx_GasTipCap, tx_GasFeeCap.
  rewrite Hc, Ht. destruct bf; cbn; eauto.
Qed.

Lemma NewTxWithMinerFee_tx tx bf w : NewTxWithMinerFee tx bf = Ok (inr w) → mf_tx w = tx.
Proof.
  unfold NewTxWithMinerFee. destruct (EffectiveGasTip tx bf) as [[fee [err|]]|]; cbn; [done| |done]. by intros [= <-].
Qed.

Lemma take_head_Ok sg bf txs heads from l :
  one_sender sg l →
  take_head sg bf (txs, heads) (from, l)
  = Ok (match queue sg bf from l with
        | w :: _ => (<[from := drop 1 l]> txs, heads ++ [w])
        | [] => (delete from txs, heads)
        end).
Proof.
  intros [Hne [acc Hall]]. destruct l as [|tx l]; [done|]. apply Forall_cons in Hall as [Htx _].
  destruct (NewTxWithMinerFee_Ok sg acc tx bf Htx) as [r Hr]. apply tx_ok_Sender in Htx as Hs.
  unfold take_head, queue. cbn [usable]. change (go_index (tx :: l) 0) with (Ok tx). cbn. rewrite Hs, Hr. cbn.
  destruct (bool_decide (acc = from)); [by destruct r|by destruct r].
Qed.

(** The heads the loop collects, and what it leaves of the lists. *)
Lemma take_heads_Ok sg bf l :
  ∀ txs heads, NoDup l.*1 → Forall (λ e, one_sender sg e.2) l →
  ∃ txs', take_heads sg bf l (txs, heads)
          = Ok (txs', heads ++ omap (λ e, head (queue sg bf e.1 e.2)) l) ∧
    (∀ a, a ∉ l.*1 → txs' !! a = txs !! a) ∧
    (∀ a q w ws, (a, q) ∈ l → queue sg bf a q = w :: ws → txs' !! a = Some (drop 1 q)).
Proof.
  induction l as [|[a q] l IH]; intros txs heads Hnd Hall; cbn [take_heads].
  { exists txs. cbn. rewrite app_nil_r. split_and!; [done|done|set_solver]. }
  rewrite fmap_cons in Hnd. apply NoDup_cons in Hnd as [Ha Hnd]. apply Forall_cons in Hall as [Hq Hall].
  rewrite take_head_Ok by done.
  assert (∀ txs1 heads1, (∀ b, b ≠ a → txs1 !! b = txs !! b) →
    (∀ w ws, queue sg bf a q = w :: ws → txs1 !! a = Some (drop 1 q)) →
    heads1 = heads ++ option_list (head (queue sg bf a q)) →
    ∃ txs', take_heads sg bf l (txs1, heads1)
      = Ok (txs', heads ++ omap (λ e, head (queue sg bf e.1 e.2)) ((a, q) :: l)) ∧
    (∀ b, b ∉ ((a, q) :: l).*1 → txs' !! b = txs !! b) ∧
    (∀ b k w ws, (b, k) ∈ (a, q) :: l → queue sg bf b k = w :: ws → txs' !! b = Some (drop 1 k))) as Hgo.
  { intros txs1 heads1 Hne He ->. destruct (IH txs1 (heads ++ option_list (head (queue sg bf a q))) Hnd Hall)
      as (txs' & -> & Hout & Hin). exists txs'. split_and!.
    - do 2 f_equal. rewrite <- app_assoc. cbn. by destruct (head (queue sg bf a q)).
    - intros b [Hb1 Hb2]%not_elem_of_cons. rewrite Hout by done. by apply Hne.
    - intros b k w ws [[= -> ->]|Hbk]%elem_of_cons Hw; [|by eapply Hin]. rewrite Hout by done. by eapply He. }
  destruct (queue sg bf a q) as [|w ws]; cbn; apply Hgo; try done.
  - intros b Hb. by apply lookup_delete_ne.
  - by rewrite app_nil_r.
  - intros b Hb. by apply lookup_insert_ne.
  - intros _ _ _. apply lookup_insert_eq.
Qed.

(** ** What a set stands for *)

Definition heads_of (R : queues) : list TxWithMinerFee := omap (λ e, head e.2) (map_to_list R).

Record holds (sg : panguSigner) (bf : option Z) (t : TransactionsByPriceAndNonce) (R : queues) : Prop := {
  ho_signer : bp_signer t = sg;
  ho_baseFee : bp_baseFee t = bf;
  ho_heap : heap fee_Less (bp_heads t);
  ho_heads : bp_heads t ≡ₚ heads_of R;
  ho_rest : ∀ a w q, R !! a = Some (w :: q) → Sender_acc (mf_tx w) sg = Ok a ∧
    ∃ l, bp_txs t !! a = Some l ∧ Forall (tx_ok sg a) l ∧ usable bf l = q;
}.

Lemma heads_of_elem R w : w ∈ heads_of R ↔ ∃ a q, R !! a = Some (w :: q).
Proof.
  unfold heads_of. rewrite list_elem_of_omap. split.
  - intros ([a [|w' q]] & Hin & [= ->]). apply elem_of_map_to_list in Hin. eauto.
  - intros (a & q & Ha). exists (a, w :: q). split; [by apply elem_of_map_to_list|done].
Qed.

Lemma heads_of_insert R a q : heads_of (<[a := q]> R) ≡ₚ option_list (head q) ++ heads_of (delete a R).
Proof.
  unfold heads_of. rewrite <- insert_delete_eq.
  rewrite (map_to_list_insert (delete a R)) by apply lookup_delete_eq. cbn. by destruct q.
Qed.

Lemma heads_of_split R a w q : R !! a = Some (w :: q) → heads_of R ≡ₚ w :: heads_of (delete a R).
Proof. intros Ha. rewrite <- (insert_id R a (w :: q) Ha) at 1. apply heads_of_insert. Qed.

(** The first head is the best of the next transactions of all accounts. *)
Lemma holds_best sg bf t R h hs :
  holds sg bf t R → bp_heads t = h :: hs →
  ∃ a q, R !! a = Some (h :: q) ∧ hs ≡ₚ heads_of (delete a R) ∧
    ∀ b w q', R !! b = Some (w :: q') → le fee_Less h w.
Proof.
  intros Ht Eh. pose proof (ho_heads _ _ _ _ Ht) as Hp. pose proof (ho_heap _ _ _ _ Ht) as Hh. rewrite Eh in Hp, Hh.
  assert (h ∈ heads_of R) as (a & q & Ha)%heads_of_elem by (rewrite <- Hp; left).
  exists a, q. split_and!; [done| |].
  - apply (Permutation_cons_inv (a := h)). by rewrite Hp, (heads_of_split _ _ _ _ Ha).
  - intros b w q' Hb. apply (heap_min_elem fee_Less (h :: hs) w Hh). rewrite Hp. apply heads_of_elem. eauto.
Qed.

(** [Pop] drops the account whose transaction is the best. *)
Lemma Pop_holds sg bf t R h hs a q :
  holds sg bf t R → bp_heads t = h :: hs → R !! a = Some (h :: q) → hs ≡ₚ heads_of (delete a R) →
  ∃ t', bp_Pop t = Ok t' ∧ holds sg bf t' (<[a := []]> R).
Proof.
  intros [Hs Hb Hh Hp Hr] Eh Ha Hhs. unfold bp_Pop.
  destruct (heap_Pop_spec fee_Less (bp_heads t) Hh) as (h' & -> & Hh' & Hp'); [by rewrite Eh|].
  rewrite Eh in Hp'. apply Permutation_cons_inv in Hp'. eexists. split; [done|]. split; cbn; try done.
  - by rewrite Hp', Hhs, heads_of_insert.
  - intros b w q' Hb'. apply (Hr b w). destruct (decide (a = b)) as [->|Hne];
      [by rewrite lookup_insert_eq in Hb'|by rewrite lookup_insert_ne in Hb'].
Qed.

(** [Shift] takes the best transaction off its queue. *)
Lemma Shift_holds sg bf t R h hs :
  holds sg bf t R → bp_heads t = h :: hs →
  ∃ a q t', R !! a = Some (h :: q) ∧ (∀ b w q', R !! b = Some (w :: q') → le fee_Less h w) ∧
    Shift t = Ok t' ∧ holds sg bf t' (<[a := q]> R).
Proof.
  intros Ht Eh. destruct (holds_best sg bf t R h hs Ht Eh) as (a & q & Ha & Hhs & Hbest).
  destruct (ho_rest _ _ _ _ Ht a h q Ha) as (Hacc & l & Hl & Hall & Hq).
  pose proof (Pop_holds sg bf t R h hs a q Ht Eh Ha Hhs) as Hpop.
  exists a, q. enough (∃ t', Shift t = Ok t' ∧ holds sg bf t' (<[a:=q]> R)) as (t' & ? & ?) by eauto.
  unfold Shift. rewrite Eh. change (go_index (h :: hs) 0) with (Ok h). cbn.
  rewrite (ho_signer _ _ _ _ Ht), (ho_baseFee _ _ _ _ Ht), Hacc. cbn. rewrite Hl.
  destruct l as [|tx l]; [by rewrite <- Hq|]. apply Forall_cons in Hall as [Htx Hall].
  destruct (NewTxWithMinerFee_Ok sg a tx bf Htx) as [[e|w] Hw]; cbn in Hq; rewrite Hw in Hq |- *; cbn; [by rewrite <- Hq|].
  eexists. split; [done|]. destruct Ht as [Hs Hb Hh Hp Hr].
  destruct (heap_Fix_spec fee_Less (bp_heads t) 0 w Hh) as [Hf Hfp]; [rewrite Eh; cbn; lia|].
  rewrite Eh in Hf, Hfp. split; cbn; try done.
  - change (heap_Fix fee_Less (<[0%nat:=w]> (h :: hs)) 0 ≡ₚ heads_of (<[a:=q]> R)). rewrite Hfp, heads_of_insert, <- Hq.
    cbn. by rewrite Hhs.
  - intros b w' q'. destruct (decide (a = b)) as [<-|Hne].
    + rewrite !lookup_insert_eq, <- Hq. intros [= <- <-].
      split; [|by eexists]. rewrite (NewTxWithMinerFee_tx _ _ _ Hw). by apply tx_ok_Sender.
    + rewrite !lookup_insert_ne by done. apply Hr.
Qed.

(** ** Taking all of them *)

(** How many transactions the queues hold. *)
Definition waiting (R : queues) : nat := length (mjoin (map_to_list R).*2).

Lemma waiting_take R a w q : R !! a = Some (w :: q) → waiting R = S (waiting (<[a := q]> R)).
Proof.
  intros Ha. unfold waiting. rewrite <- (insert_id R a (w :: q) Ha) at 1.
  rewrite <- (insert_delete_eq R a (w :: q)), <- (insert_delete_eq R a q).
  rewrite !(map_to_list_insert (delete a R)) by apply lookup_delete_eq. done.
Qed.

Lemma drain_greedy sg bf n :
  ∀ t R, holds sg bf t R → waiting R = n →
  ∃ out, drain n t = Done ((mf_tx ∘ snd) <$> out) ∧ greedy R out.
Proof.
  induction n as [|n IH]; intros t R Ht Hn; destruct (bp_heads t) as [|h hs] eqn:Eh.
  1, 3: exists []; split; [cbn; unfold Peek; by rewrite Eh|]; constructor; intros a [|w q] Ha; [done|];
    pose proof (ho_heads _ _ _ _ Ht) as Hp; rewrite Eh, (heads_of_split _ _ _ _ Ha) in Hp;
    by apply Permutation_nil_cons in Hp.
  - destruct (Shift_holds sg bf t R h hs Ht Eh) as (a & q & t' & Ha & _).
    apply waiting_take in Ha. lia.
  - destruct (Shift_holds sg bf t R h hs Ht Eh) as (a & q & t' & Ha & Hbest & HS & Ht').
    pose proof (waiting_take R a h q Ha) as Hw.
    destruct (IH t' (<[a := q]> R) Ht' ltac:(lia)) as (out & Hd & Hg).
    exists ((a, h) :: out). split; [|by econstructor]. cbn [drain]. unfold Peek. rewrite Eh. cbn [head fmap option_fmap option_map]. by rewrite HS, Hd.
Qed.

Lemma greedy_waiting R out : greedy R out → waiting R = length out.
Proof.
  induction 1 as [R Hall|R a w q out Ha _ _ IH]; [|by rewrite (waiting_take _ _ _ _ Ha), IH].
  unfold waiting. assert (Forall (λ q, q = []) (map_to_list R).*2) as Hn.
  { apply Forall_fmap, Forall_forall. intros [a q] Hq%elem_of_map_to_list. by apply (Hall a). }
  induction Hn as [|q l -> _ IH]; [done|exact IH].
Qed.

Definition all_queues (sg : panguSigner) (bf : option Z) (txs : gmap Address (list Transaction)) : queues :=
  map_imap (λ a l, Some (queue sg bf a l)) txs.

Lemma all_queues_lookup sg bf txs a : all_queues sg bf txs !! a = queue sg bf a <$> txs !! a.
Proof. unfold all_queues. rewrite map_lookup_imap. by destruct (txs !! a). Qed.

Lemma all_queues_heads sg bf txs :
  omap (λ e, head (queue sg bf e.1 e.2)) (range_map txs) ≡ₚ heads_of (all_queues sg bf txs).
Proof.
  unfold heads_of.
  assert (map_to_list (all_queues sg bf txs) ≡ₚ (λ e, (e.1, queue sg bf e.1 e.2)) <$> range_map txs) as ->.
  - apply NoDup_Permutation; [apply NoDup_map_to_list| |].
    + apply (NoDup_fmap_1 fst). rewrite <- list_fmap_compose. apply range_map_NoDup.
    + intros [a q]. rewrite elem_of_map_to_list, all_queues_lookup, list_elem_of_fmap. split.
      * intros (l & Hl & ->)%fmap_Some_1. exists (a, l). by rewrite range_map_elem.
      * intros ([b l] & [= -> ->] & Hl%range_map_elem). cbn. by rewrite Hl.
  - induction (range_map txs) as [|[a l] k IH]; [done|]. cbn. by destruct (head (queue sg bf a l)); rewrite IH.
Qed.

Lemma New_holds sg bf txs :
  map_Forall (λ _, one_sender sg) txs →
  ∃ t, NewTransactionsByPriceAndNonce sg txs bf = Ok t ∧ holds sg bf t (all_queues sg bf txs).
Proof.
  intros Hall. unfold NewTransactionsByPriceAndNonce.
  destruct (take_heads_Ok sg bf (range_map txs) txs [] (range_map_NoDup txs)) as (txs' & -> & _ & Hin).
  { apply Forall_forall. intros [a l] Hl%range_map_elem. by apply (Hall a). }
  eexists. split; [done|]. destruct (heap_Init_spec fee_Less
    (omap (λ e, head (queue sg bf e.1 e.2)) (range_map txs))) as [Hh Hp].
  split; cbn; [done|done|done|by rewrite Hp, all_queues_heads|].
  intros a w q. rewrite all_queues_lookup. destruct (txs !! a) as [l|] eqn:Ea; [|done]. intros [= Hq].
  specialize (Hin a l w q). rewrite range_map_elem in Hin. specialize (Hin Ea Hq).
  destruct (Hall a l Ea) as [Hne [acc Hl]]. destruct l as [|tx l]; [done|]. apply Forall_cons in Hl as [Htx Hl].
  unfold queue in Hq. rewrite (tx_ok_Sender _ _ _ Htx) in Hq. case_bool_decide; [subst acc|done]. cbn in Hq.
  destruct (NewTxWithMinerFee tx bf) as [[|w']|] eqn:Hw; [done| |done]. injection Hq as -> Hq.
  rewrite (NewTxWithMinerFee_tx _ _ _ Hw). split; [by apply tx_ok_Sender|]. exists l. by rewrite Hin.
Qed.

(** ** The queues are what the accounts offer, in the order of the fees *)

Lemma NewTxWithMinerFee_spec sg acc tx bf :
  tx_ok sg acc tx →
  if pays bf tx then NewTxWithMinerFee tx bf = Ok (inr (mkMinerFee tx (miner_fee bf tx)))
  else ∃ e, NewTxWithMinerFee tx bf = Ok (inl e).
Proof.
  intros (_ & [cap Hc] & [tip Ht]). unfold pays, miner_fee, NewTxWithMinerFee.
  destruct bf as [base|].
  - destruct (effective_price_and_tip tx cap tip base Hc Ht) as [_ ->]. rewrite Hc, Ht. cbn.
    destruct (Z.leb_spec base cap), (Z.ltb_spec cap base); (done || lia || by eexists).
  - unfold EffectiveGasTip, tx_GasTipCap. by rewrite Ht.
Qed.

Lemma usable_paying sg acc bf l :
  Forall (tx_ok sg acc) l → usable bf l = (λ tx, mkMinerFee tx (miner_fee bf tx)) <$> paying bf l.
Proof.
  induction 1 as [|tx l Htx _ IH]; [done|]. cbn [usable paying].
  pose proof (NewTxWithMinerFee_spec sg acc tx bf Htx) as Hn.
  destruct (pays bf tx); [by rewrite Hn, IH|]. by destruct Hn as [e ->].
Qed.

Lemma queue_offered sg bf a l :
  one_sender sg l → queue sg bf a l = (λ tx, mkMinerFee tx (miner_fee bf tx)) <$> offered sg bf a l.
Proof.
  intros [Hne [acc Hl]]. destruct l as [|tx l]; [done|]. unfold queue, offered.
  pose proof Hl as [Htx _]%Forall_cons. rewrite (tx_ok_Sender _ _ _ Htx).
  destruct Htx as ((_ & _ & ->) & _). destruct (Z.eqb_spec acc a) as [->|Hn].
  - rewrite bool_decide_true by done. by eapply usable_paying.
  - by rewrite bool_decide_false.
Qed.

Lemma le_preferred bf x y :
  le fee_Less (mkMinerFee x (miner_fee bf x)) (mkMinerFee y (miner_fee bf y)) → preferred bf x y.
Proof.
  unfold le, fee_Less, big_Cmp, preferred. cbn.
  destruct (Z.compare_spec (miner_fee bf y) (miner_fee bf x)) as [E|E|E]; cbn; [|auto|done].
  intros Ht%Z.ltb_ge. auto.
Qed.

(** What all accounts offer. *)
Definition offers (sg : panguSigner) (bf : option Z) (txs : gmap Address (list Transaction))
  : gmap Address (list Transaction) := map_imap (λ a l, Some (offered sg bf a l)) txs.

Lemma greedy_merged bf R out :
  greedy R out → ∀ Q, R = fmap (M := gmap Address) (fmap (λ tx, mkMinerFee tx (miner_fee bf tx))) Q →
  merged bf Q (prod_map id mf_tx <$> out).
Proof.
  induction 1 as [R Hall|R a w q out Ha Hbest _ IH]; intros Q ->.
  - constructor. intros a q Ha. specialize (Hall a). rewrite lookup_fmap, Ha in Hall.
    by apply (fmap_nil_inv (λ tx, mkMinerFee tx (miner_fee bf tx))), Hall.
  - rewrite lookup_fmap in Ha. apply fmap_Some in Ha as ([|tx q0] & Ha & Eq); [done|]. injection Eq as -> ->.
    cbn. apply (merged_take _ _ _ _ q0); [done| |].
    + intros b tx' q' Hb. apply le_preferred, (Hbest b _ ((λ tx, mkMinerFee tx (miner_fee bf tx)) <$> q')).
      by rewrite lookup_fmap, Hb.
    + apply IH. by rewrite fmap_insert.
Qed.

Lemma merged_queue bf Q out a : merged bf Q out → (filter (λ e, e.1 = a) out).*2 = default [] (Q !! a).
Proof.
  induction 1 as [Q Hall|Q b tx q out Hb _ _ IH]; cbn [fst].
  - destruct (Q !! a) eqn:Ea; [|done]. by rewrite (Hall _ _ Ea).
  - rewrite filter_cons. cbn [fst]. case_decide as Hba; subst.
    + rewrite fmap_cons, IH, lookup_insert_eq, Hb. done.
    + by rewrite IH, lookup_insert_ne.
Qed.

Lemma all_queues_offers sg bf txs :
  map_Forall (λ _, one_sender sg) txs →
  all_queues sg bf txs
  = fmap (M := gmap Address) (fmap (λ tx, mkMinerFee tx (miner_fee bf tx))) (offers sg bf txs).
Proof.
  intros Hall. apply map_eq. intros a. rewrite all_queues_lookup, lookup_fmap. unfold offers.
  rewrite map_lookup_imap. destruct (txs !! a) as [l|] eqn:Ea; [|done]. cbn. f_equal.
  by apply queue_offered, (Hall a).
Qed.

(** C26: a set of transactions made from lists that each hold transactions of one sender
    yields, taken with [Peek] and [Shift] until none is left, a merge of what the accounts
    offer: always a next transaction of some account such that no other account's next one
    earns the producer more, and those that earn as much are not older.  Each account's
    transactions come out in the order of its list and each once, up to the first whose fee
    cap is below the base fee; an account whose list is another sender's yields none. *)
Theorem drain_merges sg bf (txs : gmap Address (list Transaction)) :
  map_Forall (λ _, one_sender sg) txs →
  ∃ t out, NewTransactionsByPriceAndNonce sg txs bf = Ok t ∧
    drain (length out) t = Done out.*2 ∧
    merged bf (offers sg bf txs) out ∧
    ∀ a l, txs !! a = Some l → (filter (λ e, e.1 = a) out).*2 = offered sg bf a l.
Proof.
  intros Hall. destruct (New_holds sg bf txs Hall) as (t & Hnew & Ht).
  destruct (drain_greedy sg bf _ t _ Ht eq_refl) as (out & Hd & Hg).
  pose proof (greedy_merged bf _ _ Hg _ (all_queues_offers sg bf txs Hall)) as Hm.
  exists t, (prod_map id mf_tx <$> out). split_and!; [done| |done|].
  - rewrite length_fmap, <- (greedy_waiting _ _ Hg), Hd, <- list_fmap_compose. done.
  - intros a l Hl. rewrite (merged_queue _ _ _ a Hm). unfold offers. by rewrite map_lookup_imap, Hl.
Qed.

(** ** Transactions whose sender is cached *)

Lemma take_heads_Panic sg bf l e m :
  ∀ s, e ∈ l → (∀ s, take_head sg bf s e = Panic m) → ∃ m', take_heads sg bf l s = Panic m'.
Proof.
  intros s He Hp. revert s. induction l as [|e' l IH]; [set_solver|]. intros s. cbn.
  apply elem_of_cons in He as [<-|He]; [rewrite Hp; by eexists|].
  destruct (take_head sg bf s e') as [s'|m']; [by apply IH|by eexists].
Qed.

(** C35: the set cannot be made of transactions that were validated: [types.Sender], which
    validation calls, leaves a [sigCache] in the transaction, and the method
    [Transaction.Sender] asserts that what is cached is an address.  One account whose first
    transaction is such a one makes the constructor panic, whatever the signers are. *)
Theorem validated_heads_panic sg sg' bf tx tx' a acc l (txs : gmap Address (list Transaction)) :
  cache_ok tx → Sender sg' tx = Ok (inr acc, tx') → txs !! a = Some (tx' :: l) →
  ∃ m, NewTransactionsByPriceAndNonce sg txs bf = Panic m.
Proof.
  intros Hc HS Ha. pose proof (Sender_spec sg' tx Hc) as Hspec. rewrite HS in Hspec.
  destruct Hspec as (_ & _ & _ & Hp). destruct (Hp acc eq_refl sg) as [m Hm].
  unfold NewTransactionsByPriceAndNonce.
  destruct (take_heads_Panic sg bf (range_map txs) (a, tx' :: l) m (txs, [])) as [m' ->]; [|..|by eexists].
  - by rewrite range_map_elem.
  - intros [txs0 heads]. unfold take_head, Sender_acc. change (go_index (tx' :: l) 0) with (Ok tx').
    unfold mbind, res_bind. by rewrite Hm.
Qed.

End order.

(** ** Witnesses *)

Module sample.
Definition signer : panguSigner := mkSigner 7 14.

(** With the toy cryptography the sender of [tx from ..] is [from]. *)
Definition tx (from nonce cap tip time : Z) : Transaction :=
  mkTransaction (mkPanguTransaction (Some 0xAA) nonce (Some 10) 100000 (Some cap) (Some tip) (Some 7) 0
    (be_bytes 32 1 ++ be_bytes 32 from ++ [0]) 0 [] 0 [] (Some NewAccessList)) time None None None.

(** The second transaction of account 5 earns most but has to wait for the first; the last
    one of account 6 cannot pay the base fee of 40; what is filed under 9 is not from 9. *)
Definition lists : gmap Address (list Transaction) :=
  <[5 := [tx 5 0 50 2 1; tx 5 1 60 9 2]]> (<[6 := [tx 6 0 50 3 3; tx 6 1 50 2 0; tx 6 2 30 8 4]]>
    (<[9 := [tx 8 0 50 7 0]]> ∅)).

Lemma lists_ok : map_Forall (λ _, @one_sender toy_crypto signer) lists.
Proof.
  unfold lists. repeat apply map_Forall_insert_2; [..|apply map_Forall_empty].
  - split; [done|]. exists 5. repeat constructor; try (by eexists); (by vm_compute) || (by eexists; vm_compute).
  - split; [done|]. exists 6. repeat constructor; try (by eexists); (by vm_compute) || (by eexists; vm_compute).
  - split; [done|]. exists 8. repeat constructor; try (by eexists); (by vm_compute) || (by eexists; vm_compute).
Qed.
End sample.

Example drain_sample :
  (@NewTransactionsByPriceAndNonce toy_crypto reference_runtime sample.signer sample.lists (Some 40)
   ≫= λ t, Ok (match @drain toy_crypto 4 t with
               | Done out => (λ tx, (@Sender_acc toy_crypto tx sample.signer, tx_Nonce tx)) <$> out
               | _ => []
               end))
  = Ok [(Ok 6, 0); (Ok 6, 1); (Ok 5, 0); (Ok 5, 1)].
Proof. vm_compute. reflexivity. Qed.

Lemma drain_merges_witness :
  ∃ t out,
    @NewTransactionsByPriceAndNonce toy_crypto reference_runtime sample.signer sample.lists (Some 40) = Ok t ∧
    @drain toy_crypto (length out) t = Done out.*2 ∧
    merged (Some 40) (@offers toy_crypto sample.signer (Some 40) sample.lists) out ∧
    ∀ a l, sample.lists !! a = Some l →
      (filter (λ e, e.1 = a) out).*2 = @offered toy_crypto sample.signer (Some 40) a l.
Proof. exact (@drain_merges toy_crypto reference_runtime sample.signer (Some 40) sample.lists sample.lists_ok). Defined.

Lemma validated_heads_panic_witness :
  ∃ m, @NewTransactionsByPriceAndNonce toy_crypto reference_runtime sample.signer
         {[ 5 := [mkTransaction (inner (sample.tx 5 0 50 2 1)) 1 None None (Some (mkSigCache sample.signer 5))] ]}
         None = Panic m.
Proof.
  apply (@validated_heads_panic toy_crypto reference_runtime sample.signer sample.signer None (sample.tx 5 0 50 2 1)
           (mkTransaction (inner (sample.tx 5 0 50 2 1)) 1 None None (Some (mkSigCache sample.signer 5))) 5 5 []).
  - intros sc E. discriminate E.
  - vm_compute. reflexivity.
  - reflexivity.
Defined.
