(* ===== verification/StateDB.v ===== *)
(** * The state database (core/state/statedb.go, state_object.go, journal.go,
    transient_storage.go, core/types/state_account.go, log.go)

    [StateDB] caches the accounts of one state root, journals every change and undoes
    the journal on [RevertToSnapshot].  A [*StateObject] is stored by value under its
    address: a method that mutates the object writes the new value back at that key.
    The trie and the snapshot layers below the cache enter through the interfaces
    [Database] and [Trie] of the source, as the class [Database]. Metrics and the trie
    prefetcher, which only warms caches, are left out. *)

From S2P Require Import Prelude Bytes RlpEncode RlpRaw Common AccessList.

(** ** Accounts *)

(** [types.StateAccount]: [None] is a nil pointer or slice.  A code hash is a 32-byte
    string. *)
Record StateAccount := mkStateAccount {
  Nonce : Z;
  Balance : option Z;
  Root : Hash;
  CodeHash : option Hash;
}.

(** The slim account of a snapshot layer. *)
Record SlimAccount := mkSlimAccount {
  slim_Nonce : Z;
  slim_Balance : option Z;
  slim_Root : list byte;
  slim_CodeHash : list byte;
}.

(** [types.Log] *)
Record Log := mkLog {
  log_Address : Address;
  log_Topics : list Hash;
  log_Data : list byte;
  log_BlockNumber : Z;
  log_TxHash : Hash;
  log_TxIndex : Z;
  log_BlockHash : Hash;
  log_Index : Z;
  log_Removed : bool;
}.

(** ** The layers below: [state.Database], [state.Trie] and [snapshot.Snapshot]

    A trie is a value and its mutators return the new trie; an error leaves it
    unchanged. *)

Class Database := {
  Trie : Type;
  Snap : Type;
  NodeSet : Type;
  OpenTrie : Hash → string + Trie;
  OpenStorageTrie : Hash → Hash → Hash → string + Trie;
  ContractCode : Hash → Hash → string + list byte;
  ContractCodeSize : Hash → Hash → string + Z;
  GetAccount : Trie → Address → string + option StateAccount;
  GetStorage : Trie → Address → list byte → string + list byte;
  UpdateAccount : Trie → Address → StateAccount → string + Trie;
  DeleteAccount : Trie → Address → string + Trie;
  UpdateStorage : Trie → Address → list byte → list byte → string + Trie;
  DeleteStorage : Trie → Address → list byte → string + Trie;
  TrieHash : Trie → Hash;
  TrieCommit : Trie → bool → string + (Hash * option NodeSet);
  UpdateContractCode : Trie → Address → Hash → list byte → string + Trie;
  NodeSet_Owner : NodeSet → Hash;
  TrieDB_Update : Hash → Hash → gmap Hash NodeSet → option string;
  snap_Root : Snap → Hash;
  snap_Account : Snap → Hash → string + option SlimAccount;
  snap_Storage : Snap → Hash → Hash → string + list byte;
}.

Inductive state_error :=
| errBackend (msg : string)
| errRlp (e : rlp_error)
| errLoadCode (h : Hash) (msg : string)
| errLoadCodeSize (h : Hash) (msg : string)
| errGetObject (a : Address) (msg : string)
| errUpdateObject (a : Address) (msg : string)
| errDeleteObject (a : Address) (msg : string).

Abbreviation Storage := (gmap Hash Hash) (only parsing).

Section statedb.
Context {Cr : Crypto} {DB : Database} {GR : GoRuntime}.

Definition EmptyCodeHash : Hash := Keccak256Hash [].

(** ** Slim accounts *)

Definition SlimAccountRLP (account : StateAccount) : res (list byte) :=
  let root := if bool_decide (Root account = EmptyRootHash) then [] else Hash_Bytes (Root account) in
  let codeHash := match CodeHash account with
                  | None => []
                  | Some h => if bool_decide (h = EmptyCodeHash) then [] else Hash_Bytes h
                  end in
  match EncodeToBytes (VStruct 4 [(false, VUint (Nonce account)); (false, VBigIntPtr (Balance account));
                                  (false, VBytes root); (false, VBytes codeHash)]) with
  | inr data => Ok data
  | inl _ => Panic "rlp: cannot encode the slim account"
  end.

(** ** State objects *)

(** [data] of a live object: [newObject] has replaced the nil fields. *)
Record account_data := mkData {
  d_Nonce : Z;
  d_Balance : Z;
  d_Root : Hash;
  d_CodeHash : Hash;
}.

Record StateObject := mkObject {
  so_address : Address;
  so_addrHash : Hash;
  so_data : account_data;
  so_trie : option Trie;
  so_code : option (list byte);
  originStorage : Storage;
  pendingStorage : Storage;
  dirtyStorage : Storage;
  dirtyCode : bool;
  suicided : bool;
  deleted : bool;
}.

Definition so_empty (o : StateObject) : bool :=
  (d_Nonce (so_data o) =? 0) && (d_Balance (so_data o) =? 0)
  && (d_CodeHash (so_data o) =? EmptyCodeHash).

Definition newObject (address : Address) (data : StateAccount) : StateObject :=
  {| so_address := address;
     so_addrHash := Keccak256Hash (Address_Bytes address);
     so_data := {| d_Nonce := Nonce data;
                   d_Balance := default 0 (Balance data);
                   d_Root := if Root data =? 0 then EmptyRootHash else Root data;
                   d_CodeHash := default EmptyCodeHash (CodeHash data) |};
     so_trie := None; so_code := None;
     originStorage := ∅; pendingStorage := ∅; dirtyStorage := ∅;
     dirtyCode := false; suicided := false; deleted := false |}.

(** The account as the trie stores it. *)
Definition so_account (o : StateObject) : StateAccount :=
  mkStateAccount (d_Nonce (so_data o)) (Some (d_Balance (so_data o))) (d_Root (so_data o))
    (Some (d_CodeHash (so_data o))).

(** Field updates of an object. *)
Definition with_data (o : StateObject) (d : account_data) : StateObject :=
  mkObject (so_address o) (so_addrHash o) d (so_trie o) (so_code o) (originStorage o)
    (pendingStorage o) (dirtyStorage o) (dirtyCode o) (suicided o) (deleted o).
Definition with_trie (o : StateObject) (t : option Trie) : StateObject :=
  mkObject (so_address o) (so_addrHash o) (so_data o) t (so_code o) (originStorage o)
    (pendingStorage o) (dirtyStorage o) (dirtyCode o) (suicided o) (deleted o).
Definition with_code (o : StateObject) (c : option (list byte)) (dirty : bool) : StateObject :=
  mkObject (so_address o) (so_addrHash o) (so_data o) (so_trie o) c (originStorage o)
    (pendingStorage o) (dirtyStorage o) dirty (suicided o) (deleted o).
Definition with_storage (o : StateObject) (origin pending dirty : Storage) : StateObject :=
  mkObject (so_address o) (so_addrHash o) (so_data o) (so_trie o) (so_code o) origin
    pending dirty (dirtyCode o) (suicided o) (deleted o).
Definition with_flags (o : StateObject) (su de : bool) : StateObject :=
  mkObject (so_address o) (so_addrHash o) (so_data o) (so_trie o) (so_code o) (originStorage o)
    (pendingStorage o) (dirtyStorage o) (dirtyCode o) su de.

Definition so_setBalance (o : StateObject) (amount : Z) : StateObject :=
  with_data o (mkData (d_Nonce (so_data o)) amount (d_Root (so_data o)) (d_CodeHash (so_data o))).

Definition so_setNonce (o : StateObject) (nonce : Z) : StateObject :=
  with_data o (mkData nonce (d_Balance (so_data o)) (d_Root (so_data o)) (d_CodeHash (so_data o))).

Definition so_setCode (o : StateObject) (codeHash : Hash) (code : option (list byte)) : StateObject :=
  with_data (with_code o code true)
    (mkData (d_Nonce (so_data o)) (d_Balance (so_data o)) (d_Root (so_data o)) codeHash).

Definition so_setState (o : StateObject) (key value : Hash) : StateObject :=
  with_storage o (originStorage o) (pendingStorage o) (<[key := value]> (dirtyStorage o)).

Definition so_markSuicided (o : StateObject) : StateObject := with_flags o true (deleted o).

(** [finalise]: the loop copies every dirty slot over the pending ones. *)
Definition so_finalise (o : StateObject) : StateObject :=
  with_storage o (originStorage o) (dirtyStorage o ∪ pendingStorage o) ∅.

Definition so_deepCopy (o : StateObject) : StateObject :=
  let n := newObject (so_address o) (so_account o) in
  mkObject (so_address n) (so_addrHash n) (so_data n) (so_trie o) (so_code o) (originStorage o)
    (pendingStorage o) (dirtyStorage o) (dirtyCode o) (suicided o) (deleted o).

(** ** The journal *)

Inductive journalEntry :=
| createObjectChange (account : Address)
| resetObjectChange (account : Address) (prev : StateObject) (prevdestruct : bool)
    (prevAccount : option (list byte)) (prevStorage : option (gmap Hash (list byte)))
| suicideChange (account : Address) (prev : bool) (prevbalance : Z)
| balanceChange (account : Address) (prev : Z)
| nonceChange (account : Address) (prev : Z)
| storageChange (account : Address) (key prevalue : Hash)
| codeChange (account : Address) (prevcode : option (list byte)) (prevhash : Hash)
| refundChange (prev : Z)
| addLogChange (txhash : Hash)
| addPreimageChange (hash : Hash)
| touchChange (account : Address)
| accessListAddAccountChange (address : Address)
| accessListAddSlotChange (address : Address) (slot : Hash)
| transientStorageChange (account : Address) (key prevalue : Hash).

Record journal := mkJournal {
  entries : list journalEntry;
  dirties : gmap Address Z;
}.

Definition newJournal : journal := mkJournal [] ∅.

Definition dirtied (e : journalEntry) : option Address :=
  match e with
  | createObjectChange a | resetObjectChange a _ _ _ _ | suicideChange a _ _
  | balanceChange a _ | nonceChange a _ | storageChange a _ _ | codeChange a _ _
  | touchChange a => Some a
  | refundChange _ | addLogChange _ | addPreimageChange _ | accessListAddAccountChange _
  | accessListAddSlotChange _ _ | transientStorageChange _ _ _ => None
  end.

Definition journal_dirty (j : journal) (a : Address) : journal :=
  mkJournal (entries j) (<[a := default 0 (dirties j !! a) + 1]> (dirties j)).

Definition journal_append (j : journal) (e : journalEntry) : journal :=
  let j := mkJournal (entries j ++ [e]) (dirties j) in
  match dirtied e with Some a => journal_dirty j a | None => j end.

(** [j.dirties[*addr]--] and the removal of a zero count. *)
Definition journal_undirty (j : journal) (e : journalEntry) : journal :=
  match dirtied e with
  | None => j
  | Some a => let n := default 0 (dirties j !! a) - 1 in
              mkJournal (entries j) (if n =? 0 then delete a (dirties j) else <[a := n]> (dirties j))
  end.

Definition ripemd : Address := 3.

(** ** The state database *)

Record revision := mkRevision { rev_id : Z; journalIndex : nat }.

Record StateDB := mkStateDB {
  sdb_trie : Trie;
  originalRoot : Hash;
  snap : option Snap;
  snapAccounts : gmap Hash (list byte);
  snapStorage : gmap Hash (gmap Hash (list byte));
  stateObjects : gmap Address StateObject;
  stateObjectsPending : gset Address;
  stateObjectsDirty : gset Address;
  stateObjectsDestruct : gset Address;
  dbErr : option state_error;
  refund : Z;
  thash : Hash;
  txIndex : Z;
  logs : gmap Hash (list Log);
  logSize : Z;
  preimages : gmap Hash (list byte);
  sdb_AccessList : AccessList;
  sdb_transient : gmap Address Storage;
  sdb_journal : journal;
  validRevisions : list revision;
  nextRevisionId : Z;
}.

(** Field updates. *)
Definition set_trie (s : StateDB) t : StateDB :=
  mkStateDB t (originalRoot s) (snap s) (snapAccounts s) (snapStorage s) (stateObjects s)
    (stateObjectsPending s) (stateObjectsDirty s) (stateObjectsDestruct s) (dbErr s) (refund s)
    (thash s) (txIndex s) (logs s) (logSize s) (preimages s) (sdb_AccessList s)
    (sdb_transient s) (sdb_journal s) (validRevisions s) (nextRevisionId s).
Definition set_snaps (s : StateDB) ac st : StateDB :=
  mkStateDB (sdb_trie s) (originalRoot s) (snap s) ac st (stateObjects s)
    (stateObjectsPending s) (stateObjectsDirty s) (stateObjectsDestruct s) (dbErr s) (refund s)
    (thash s) (txIndex s) (logs s) (logSize s) (preimages s) (sdb_AccessList s)
    (sdb_transient s) (sdb_journal s) (validRevisions s) (nextRevisionId s).
Definition set_objects (s : StateDB) m : StateDB :=
  mkStateDB (sdb_trie s) (originalRoot s) (snap s) (snapAccounts s) (snapStorage s) m
    (stateObjectsPending s) (stateObjectsDirty s) (stateObjectsDestruct s) (dbErr s) (refund s)
    (thash s) (txIndex s) (logs s) (logSize s) (preimages s) (sdb_AccessList s)
    (sdb_transient s) (sdb_journal s) (validRevisions s) (nextRevisionId s).
Definition set_marks (s : StateDB) pending dirty destr : StateDB :=
  mkStateDB (sdb_trie s) (originalRoot s) (snap s) (snapAccounts s) (snapStorage s)
    (stateObjects s) pending dirty destr (dbErr s) (refund s) (thash s) (txIndex s) (logs s)
    (logSize s) (preimages s) (sdb_AccessList s) (sdb_transient s) (sdb_journal s)
    (validRevisions s) (nextRevisionId s).
Definition set_dbErr (s : StateDB) e : StateDB :=
  mkStateDB (sdb_trie s) (originalRoot s) (snap s) (snapAccounts s) (snapStorage s)
    (stateObjects s) (stateObjectsPending s) (stateObjectsDirty s) (stateObjectsDestruct s) e
    (refund s) (thash s) (txIndex s) (logs s) (logSize s) (preimages s) (sdb_AccessList s)
    (sdb_transient s) (sdb_journal s) (validRevisions s) (nextRevisionId s).
Definition set_refund (s : StateDB) r : StateDB :=
  mkStateDB (sdb_trie s) (originalRoot s) (snap s) (snapAccounts s) (snapStorage s)
    (stateObjects s) (stateObjectsPending s) (stateObjectsDirty s) (stateObjectsDestruct s)
    (dbErr s) r (thash s) (txIndex s) (logs s) (logSize s) (preimages s) (sdb_AccessList s)
    (sdb_transient s) (sdb_journal s) (validRevisions s) (nextRevisionId s).
Definition set_thash (s : StateDB) h : StateDB :=
  mkStateDB (sdb_trie s) (originalRoot s) (snap s) (snapAccounts s) (snapStorage s)
    (stateObjects s) (stateObjectsPending s) (stateObjectsDirty s) (stateObjectsDestruct s)
    (dbErr s) (refund s) h (txIndex s) (logs s) (logSize s) (preimages s) (sdb_AccessList s)
    (sdb_transient s) (sdb_journal s) (validRevisions s) (nextRevisionId s).
Definition set_logs (s : StateDB) l n : StateDB :=
  mkStateDB (sdb_trie s) (originalRoot s) (snap s) (snapAccounts s) (snapStorage s)
    (stateObjects s) (stateObjectsPending s) (stateObjectsDirty s) (stateObjectsDestruct s)
    (dbErr s) (refund s) (thash s) (txIndex s) l n (preimages s) (sdb_AccessList s)
    (sdb_transient s) (sdb_journal s) (validRevisions s) (nextRevisionId s).
Definition set_preimages (s : StateDB) p : StateDB :=
  mkStateDB (sdb_trie s) (originalRoot s) (snap s) (snapAccounts s) (snapStorage s)
    (stateObjects s) (stateObjectsPending s) (stateObjectsDirty s) (stateObjectsDestruct s)
    (dbErr s) (refund s) (thash s) (txIndex s) (logs s) (logSize s) p (sdb_AccessList s)
    (sdb_transient s) (sdb_journal s) (validRevisions s) (nextRevisionId s).
Definition set_AccessList (s : StateDB) al : StateDB :=
  mkStateDB (sdb_trie s) (originalRoot s) (snap s) (snapAccounts s) (snapStorage s)
    (stateObjects s) (stateObjectsPending s) (stateObjectsDirty s) (stateObjectsDestruct s)
    (dbErr s) (refund s) (thash s) (txIndex s) (logs s) (logSize s) (preimages s) al
    (sdb_transient s) (sdb_journal s) (validRevisions s) (nextRevisionId s).
Definition set_transient (s : StateDB) t : StateDB :=
  mkStateDB (sdb_trie s) (originalRoot s) (snap s) (snapAccounts s) (snapStorage s)
    (stateObjects s) (stateObjectsPending s) (stateObjectsDirty s) (stateObjectsDestruct s)
    (dbErr s) (refund s) (thash s) (txIndex s) (logs s) (logSize s) (preimages s)
    (sdb_AccessList s) t (sdb_journal s) (validRevisions s) (nextRevisionId s).
Definition set_journal (s : StateDB) j : StateDB :=
  mkStateDB (sdb_trie s) (originalRoot s) (snap s) (snapAccounts s) (snapStorage s)
    (stateObjects s) (stateObjectsPending s) (stateObjectsDirty s) (stateObjectsDestruct s)
    (dbErr s) (refund s) (thash s) (txIndex s) (logs s) (logSize s) (preimages s)
    (sdb_AccessList s) (sdb_transient s) j (validRevisions s) (nextRevisionId s).
Definition set_revisions (s : StateDB) l n : StateDB :=
  mkStateDB (sdb_trie s) (originalRoot s) (snap s) (snapAccounts s) (snapStorage s)
    (stateObjects s) (stateObjectsPending s) (stateObjectsDirty s) (stateObjectsDestruct s)
    (dbErr s) (refund s) (thash s) (txIndex s) (logs s) (logSize s) (preimages s)
    (sdb_AccessList s) (sdb_transient s) (sdb_journal s) l n.

Definition setError (s : StateDB) (e : state_error) : StateDB :=
  match dbErr s with None => set_dbErr s (Some e) | Some _ => s end.

Definition append (s : StateDB) (e : journalEntry) : StateDB :=
  set_journal s (journal_append (sdb_journal s) e).

(** Writing through the pointer stored at [addr]. *)
Definition put (s : StateDB) (addr : Address) (o : StateObject) : StateDB :=
  set_objects s (<[addr := o]> (stateObjects s)).

Definition setStateObject (s : StateDB) (object : StateObject) : StateDB :=
  put s (so_address object) object.

(** *** Reading an object: what the layers below hold for it *)

(** [getTrie] without a prefetcher. *)
Definition so_getTrie (s : StateDB) (o : StateObject) : (string + Trie) * StateObject :=
  match so_trie o with
  | Some t => (inr t, o)
  | None => match OpenStorageTrie (originalRoot s) (so_addrHash o) (d_Root (so_data o)) with
            | inl e => (inl e, o)
            | inr t => (inr t, with_trie o (Some t))
            end
  end.

(** The slot in the snapshot layer, [None] when there is no layer or reading it fails. *)
Definition snap_slot (s : StateDB) (o : StateObject) (key : Hash) : option (Hash * StateDB) :=
  match snap s with
  | None => None
  | Some sn => match snap_Storage sn (so_addrHash o) (Keccak256Hash (Hash_Bytes key)) with
               | inl _ => None
               | inr [] => Some (0, s)
               | inr enc => match Split enc with
                            | inl e => Some (0, setError s (errRlp e))
                            | inr (_, content, _) => Some (BytesToHash content, s)
                            end
               end
  end.

Definition cache_slot (o : StateObject) (key value : Hash) : StateObject :=
  with_storage o (<[key := value]> (originStorage o)) (pendingStorage o) (dirtyStorage o).

Definition so_GetCommittedState (s : StateDB) (o : StateObject) (key : Hash)
    : Hash * StateObject * StateDB :=
  match pendingStorage o !! key with
  | Some value => (value, o, s)
  | None =>
  match originStorage o !! key with
  | Some value => (value, o, s)
  | None =>
    if bool_decide (so_address o ∈ stateObjectsDestruct s) then (0, o, s)
    else match snap_slot s o key with
         | Some (value, s) => (value, cache_slot o key value, s)
         | None =>
             match so_getTrie s o with
             | (inl e, o) => (0, o, setError s (errBackend e))
             | (inr tr, o) =>
                 match GetStorage tr (so_address o) (Hash_Bytes key) with
                 | inl e => (0, o, setError s (errBackend e))
                 | inr val => let value := BytesToHash val in (value, cache_slot o key value, s)
                 end
             end
         end
  end end.

Definition so_GetState (s : StateDB) (o : StateObject) (key : Hash)
    : Hash * StateObject * StateDB :=
  match dirtyStorage o !! key with
  | Some value => (value, o, s)
  | None => so_GetCommittedState s o key
  end.

Definition so_Code (s : StateDB) (o : StateObject) : option (list byte) * StateObject * StateDB :=
  match so_code o with
  | Some c => (Some c, o, s)
  | None =>
      if d_CodeHash (so_data o) =? EmptyCodeHash then (None, o, s)
      else match ContractCode (so_addrHash o) (d_CodeHash (so_data o)) with
           | inl e => (None, o, setError s (errLoadCode (d_CodeHash (so_data o)) e))
           | inr c => (Some c, with_code o (Some c) (dirtyCode o), s)
           end
  end.

Definition so_CodeSize (s : StateDB) (o : StateObject) : Z * StateDB :=
  match so_code o with
  | Some c => (Z.of_nat (length c), s)
  | None =>
      if d_CodeHash (so_data o) =? EmptyCodeHash then (0, s)
      else match ContractCodeSize (so_addrHash o) (d_CodeHash (so_data o)) with
           | inl e => (0, setError s (errLoadCodeSize (d_CodeHash (so_data o)) e))
           | inr n => (n, s)
           end
  end.

(** *** Finding an object *)

(** The account in the snapshot layer or in the trie: [None] when the account does not
    exist or the trie cannot be read, which sets the error. *)
Definition slim_to_account (acc : SlimAccount) : StateAccount :=
  let root := BytesToHash (slim_Root acc) in
  mkStateAccount (slim_Nonce acc) (slim_Balance acc) (if root =? 0 then EmptyRootHash else root)
    (Some (if bool_decide (slim_CodeHash acc = []) then EmptyCodeHash
           else BytesToHash (slim_CodeHash acc))).

Definition trie_account (s : StateDB) (addr : Address) : option StateAccount * StateDB :=
  match GetAccount (sdb_trie s) addr with
  | inl e => (None, setError s (errGetObject addr e))
  | inr data => (data, s)
  end.

Definition load_account (s : StateDB) (addr : Address) : option StateAccount * StateDB :=
  match snap s with
  | None => trie_account s addr
  | Some sn => match snap_Account sn (Keccak256Hash (Address_Bytes addr)) with
               | inl _ => trie_account s addr
               | inr None => (None, s)
               | inr (Some acc) => (Some (slim_to_account acc), s)
               end
  end.

Definition getDeletedStateObject (s : StateDB) (addr : Address) : option StateObject * StateDB :=
  match stateObjects s !! addr with
  | Some obj => (Some obj, s)
  | None => match load_account s addr with
            | (None, s) => (None, s)
            | (Some data, s) => let obj := newObject addr data in (Some obj, setStateObject s obj)
            end
  end.

Definition getStateObject (s : StateDB) (addr : Address) : option StateObject * StateDB :=
  let '(obj, s) := getDeletedStateObject s addr in
  (match obj with Some o => if deleted o then None else Some o | None => None end, s).

Definition createObject (s : StateDB) (addr : Address)
    : StateObject * option StateObject * StateDB :=
  let '(prev, s) := getDeletedStateObject s addr in
  let newobj := newObject addr (mkStateAccount 0 None 0 None) in
  let s := match prev with
           | None => append s (createObjectChange addr)
           | Some p =>
               let prevdestruct := bool_decide (so_address p ∈ stateObjectsDestruct s) in
               let s := set_marks s (stateObjectsPending s) (stateObjectsDirty s)
                          ({[ so_address p ]} ∪ stateObjectsDestruct s) in
               let hasSnap := bool_decide (is_Some (snap s)) in
               let account := if hasSnap then snapAccounts s !! so_addrHash p else None in
               let storage := if hasSnap then snapStorage s !! so_addrHash p else None in
               let s := if hasSnap then set_snaps s (delete (so_addrHash p) (snapAccounts s))
                                          (delete (so_addrHash p) (snapStorage s))
                        else s in
               append s (resetObjectChange addr p prevdestruct account storage)
           end in
  let s := setStateObject s newobj in
  (newobj, match prev with Some p => if deleted p then None else Some p | None => None end, s).

Definition GetOrNewStateObject (s : StateDB) (addr : Address) : StateObject * StateDB :=
  match getStateObject s addr with
  | (Some o, s) => (o, s)
  | (None, s) => let '(o, _, s) := createObject s addr in (o, s)
  end.

(** *** Getters *)

Definition Exist (s : StateDB) (addr : Address) : bool * StateDB :=
  let '(o, s) := getStateObject s addr in (bool_decide (is_Some o), s).

Definition Empty (s : StateDB) (addr : Address) : bool * StateDB :=
  let '(o, s) := getStateObject s addr in
  (match o with None => true | Some o => so_empty o end, s).

Definition GetBalance (s : StateDB) (addr : Address) : Z * StateDB :=
  let '(o, s) := getStateObject s addr in
  (match o with Some o => d_Balance (so_data o) | None => 0 end, s).

Definition GetNonce (s : StateDB) (addr : Address) : Z * StateDB :=
  let '(o, s) := getStateObject s addr in
  (match o with Some o => d_Nonce (so_data o) | None => 0 end, s).

Definition GetCode (s : StateDB) (addr : Address) : option (list byte) * StateDB :=
  match getStateObject s addr with
  | (Some o, s) => let '(code, o, s) := so_Code s o in (code, put s addr o)
  | (None, s) => (None, s)
  end.

Definition GetCodeSize (s : StateDB) (addr : Address) : Z * StateDB :=
  match getStateObject s addr with
  | (Some o, s) => so_CodeSize s o
  | (None, s) => (0, s)
  end.

Definition GetCodeHash (s : StateDB) (addr : Address) : Hash * StateDB :=
  let '(o, s) := getStateObject s addr in
  (match o with None => 0 | Some o => d_CodeHash (so_data o) end, s).

Definition GetState (s : StateDB) (addr : Address) (key : Hash) : Hash * StateDB :=
  match getStateObject s addr with
  | (Some o, s) => let '(v, o, s) := so_GetState s o key in (v, put s addr o)
  | (None, s) => (0, s)
  end.

Definition GetCommittedState (s : StateDB) (addr : Address) (key : Hash) : Hash * StateDB :=
  match getStateObject s addr with
  | (Some o, s) => let '(v, o, s) := so_GetCommittedState s o key in (v, put s addr o)
  | (None, s) => (0, s)
  end.

Definition HasSelfDestructed (s : StateDB) (addr : Address) : bool * StateDB :=
  let '(o, s) := getStateObject s addr in
  (match o with Some o => suicided o | None => false end, s).

Definition transient_Get (t : gmap Address Storage) (addr : Address) (key : Hash) : Hash :=
  match t !! addr with None => 0 | Some val => default 0 (val !! key) end.

Definition transient_Set (t : gmap Address Storage) (addr : Address) (key value : Hash)
    : gmap Address Storage :=
  <[addr := <[key := value]> (default ∅ (t !! addr))]> t.

Definition GetTransientState (s : StateDB) (addr : Address) (key : Hash) : Hash :=
  transient_Get (sdb_transient s) addr key.

Definition AddressInAccessList (s : StateDB) (addr : Address) : bool :=
  ContainsAddress (sdb_AccessList s) addr.

Definition SlotInAccessList (s : StateDB) (addr : Address) (slot : Hash) : res (bool * bool) :=
  Contains (sdb_AccessList s) addr slot.

(** The logs of a transaction, annotated in place. *)
Definition annotate (blockNumber : Z) (blockHash : Hash) (l : Log) : Log :=
  mkLog (log_Address l) (log_Topics l) (log_Data l) blockNumber (log_TxHash l) (log_TxIndex l)
    blockHash (log_Index l) (log_Removed l).

Definition GetLogs (s : StateDB) (hash : Hash) (blockNumber : Z) (blockHash : Hash)
    : list Log * StateDB :=
  let ls := annotate blockNumber blockHash <$> default [] (logs s !! hash) in
  (ls, set_logs s (if bool_decide (is_Some (logs s !! hash)) then <[hash := ls]> (logs s) else logs s)
         (logSize s)).

(** *** Setters *)

Definition so_SetBalance (s : StateDB) (o : StateObject) (amount : Z) : StateDB * StateObject :=
  (append s (balanceChange (so_address o) (d_Balance (so_data o))), so_setBalance o amount).

Definition so_touch (s : StateDB) (o : StateObject) : StateDB :=
  let s := append s (touchChange (so_address o)) in
  if so_address o =? ripemd then set_journal s (journal_dirty (sdb_journal s) (so_address o)) else s.

Definition so_AddBalance (s : StateDB) (o : StateObject) (amount : Z) : StateDB * StateObject :=
  if amount =? 0 then (if so_empty o then so_touch s o else s, o)
  else so_SetBalance s o (d_Balance (so_data o) + amount).

Definition so_SubBalance (s : StateDB) (o : StateObject) (amount : Z) : StateDB * StateObject :=
  if amount =? 0 then (s, o) else so_SetBalance s o (d_Balance (so_data o) - amount).

Definition so_SetNonce (s : StateDB) (o : StateObject) (nonce : Z) : StateDB * StateObject :=
  (append s (nonceChange (so_address o) (d_Nonce (so_data o))), so_setNonce o nonce).

Definition so_SetCode (s : StateDB) (o : StateObject) (codeHash : Hash) (code : option (list byte))
    : StateDB * StateObject :=
  let '(prevcode, o, s) := so_Code s o in
  (append s (codeChange (so_address o) prevcode (d_CodeHash (so_data o))), so_setCode o codeHash code).

Definition so_SetState (s : StateDB) (o : StateObject) (key value : Hash) : StateDB * StateObject :=
  let '(prev, o, s) := so_GetState s o key in
  if prev =? value then (s, o)
  else (append s (storageChange (so_address o) key prev), so_setState o key value).

(** A setter of the database: the method of the object, written back at the address. *)
Definition on_object (s : StateDB) (addr : Address)
    (f : StateDB → StateObject → StateDB * StateObject) : StateDB :=
  let '(o, s) := GetOrNewStateObject s addr in
  let '(s, o) := f s o in put s addr o.

Definition AddBalance (s : StateDB) (addr : Address) (amount : Z) : StateDB :=
  on_object s addr (λ s o, so_AddBalance s o amount).

Definition SubBalance (s : StateDB) (addr : Address) (amount : Z) : StateDB :=
  on_object s addr (λ s o, so_SubBalance s o amount).

Definition SetBalance (s : StateDB) (addr : Address) (amount : Z) : StateDB :=
  on_object s addr (λ s o, so_SetBalance s o amount).

Definition SetNonce (s : StateDB) (addr : Address) (nonce : Z) : StateDB :=
  on_object s addr (λ s o, so_SetNonce s o nonce).

Definition SetCode (s : StateDB) (addr : Address) (code : option (list byte)) : StateDB :=
  on_object s addr (λ s o, so_SetCode s o (Keccak256Hash (default [] code)) code).

Definition SetState (s : StateDB) (addr : Address) (key value : Hash) : StateDB :=
  on_object s addr (λ s o, so_SetState s o key value).

(** [SetStorage]: not journalled as a whole. *)
Definition SetStorage (s : StateDB) (addr : Address) (storage : Storage) : StateDB :=
  let s := set_marks s (stateObjectsPending s) (stateObjectsDirty s)
             ({[ addr ]} ∪ stateObjectsDestruct s) in
  let '(o, s) := GetOrNewStateObject s addr in
  let '(s, o) := foldl (λ '(s, o) '(k, v), so_SetState s o k v) (s, o) (range_map storage) in
  put s addr o.

Definition SelfDestruct (s : StateDB) (addr : Address) : StateDB :=
  match getStateObject s addr with
  | (None, s) => s
  | (Some o, s) =>
      let s := append s (suicideChange addr (suicided o) (d_Balance (so_data o))) in
      put s addr (so_setBalance (so_markSuicided o) 0)
  end.

Definition Selfdestruct6780 (s : StateDB) (addr : Address) : StateDB :=
  match getStateObject s addr with
  | (None, s) => s
  | (Some o, s) => if suicided o then s else SelfDestruct s addr
  end.

Definition CreateAccount (s : StateDB) (addr : Address) : StateDB :=
  match createObject s addr with
  | (newObj, Some prev, s) => put s addr (so_setBalance newObj (d_Balance (so_data prev)))
  | (_, None, s) => s
  end.

Definition setTransientState (s : StateDB) (addr : Address) (key value : Hash) : StateDB :=
  set_transient s (transient_Set (sdb_transient s) addr key value).

Definition SetTransientState (s : StateDB) (addr : Address) (key value : Hash) : StateDB :=
  let prev := GetTransientState s addr key in
  if prev =? value then s
  else setTransientState (append s (transientStorageChange addr key prev)) addr key value.

Definition AddLog (s : StateDB) (log : Log) : StateDB :=
  let s := append s (addLogChange (thash s)) in
  let log := mkLog (log_Address log) (log_Topics log) (log_Data log) (log_BlockNumber log)
               (thash s) (u64 (txIndex s)) (log_BlockHash log) (logSize s) (log_Removed log) in
  set_logs s (<[thash s := default [] (logs s !! thash s) ++ [log]]> (logs s)) (logSize s + 1)%u64.

Definition AddPreimage (s : StateDB) (hash : Hash) (preimage : list byte) : StateDB :=
  match preimages s !! hash with
  | Some _ => s
  | None => let s := append s (addPreimageChange hash) in
            set_preimages s (<[hash := preimage]> (preimages s))
  end.

Definition AddRefund (s : StateDB) (gas : Z) : StateDB :=
  let s := append s (refundChange (refund s)) in set_refund s (refund s + gas)%u64.

Definition SubRefund (s : StateDB) (gas : Z) : res StateDB :=
  let s := append s (refundChange (refund s)) in
  if refund s <? gas then Panic "Refund counter below zero"
  else Ok (set_refund s (refund s - gas)%u64).

Definition AddAddressToAccessList (s : StateDB) (addr : Address) : StateDB :=
  let '(added, al) := AddAddress (sdb_AccessList s) addr in
  let s := set_AccessList s al in
  if added then append s (accessListAddAccountChange addr) else s.

Definition AddSlotToAccessList (s : StateDB) (addr : Address) (slot : Hash) : res StateDB :=
  '(addrMod, slotMod, al) ← AddSlot (sdb_AccessList s) addr slot;
  let s := set_AccessList s al in
  let s := if addrMod : bool then append s (accessListAddAccountChange addr) else s in
  Ok (if slotMod : bool then append s (accessListAddSlotChange addr slot) else s).

(** *** Snapshots *)

Definition entry_revert (e : journalEntry) (s : StateDB) : res StateDB :=
  match e with
  | createObjectChange a =>
      Ok (set_marks (set_objects s (delete a (stateObjects s))) (stateObjectsPending s)
            (stateObjectsDirty s ∖ {[ a ]}) (stateObjectsDestruct s))
  | resetObjectChange _ prev prevdestruct prevAccount prevStorage =>
      let s := setStateObject s prev in
      let s := if prevdestruct then s
               else set_marks s (stateObjectsPending s) (stateObjectsDirty s)
                      (stateObjectsDestruct s ∖ {[ so_address prev ]}) in
      Ok (set_snaps s
            (match prevAccount with
             | Some acc => <[so_addrHash prev := acc]> (snapAccounts s) | None => snapAccounts s end)
            (match prevStorage with
             | Some st => <[so_addrHash prev := st]> (snapStorage s) | None => snapStorage s end))
  | suicideChange a prev prevbalance =>
      match getStateObject s a with
      | (Some obj, s) => Ok (put s a (so_setBalance (with_flags obj prev (deleted obj)) prevbalance))
      | (None, s) => Ok s
      end
  | touchChange _ => Ok s
  | balanceChange a prev =>
      let '(obj, s) := getStateObject s a in obj ← deref obj; Ok (put s a (so_setBalance obj prev))
  | nonceChange a prev =>
      let '(obj, s) := getStateObject s a in obj ← deref obj; Ok (put s a (so_setNonce obj prev))
  | codeChange a prevcode prevhash =>
      let '(obj, s) := getStateObject s a in
      obj ← deref obj; Ok (put s a (so_setCode obj prevhash prevcode))
  | storageChange a key prevalue =>
      let '(obj, s) := getStateObject s a in
      obj ← deref obj; Ok (put s a (so_setState obj key prevalue))
  | transientStorageChange a key prevalue => Ok (setTransientState s a key prevalue)
  | refundChange prev => Ok (set_refund s prev)
  | addLogChange txhash =>
      let ls := default [] (logs s !! txhash) in
      m ← (if bool_decide (length ls = 1%nat) then Ok (delete txhash (logs s))
           else ls' ← go_take ls (Z.of_nat (length ls) - 1); Ok (<[txhash := ls']> (logs s)));
      Ok (set_logs s m (logSize s - 1)%u64)
  | addPreimageChange hash => Ok (set_preimages s (delete hash (preimages s)))
  | accessListAddAccountChange a => Ok (set_AccessList s (DeleteAddress (sdb_AccessList s) a))
  | accessListAddSlotChange a slot =>
      al ← DeleteSlot (sdb_AccessList s) a slot; Ok (set_AccessList s al)
  end.

(** One round of the loop of [journal.revert]. *)
Definition revert_step (s : StateDB) (e : journalEntry) : res StateDB :=
  s ← entry_revert e s; Ok (set_journal s (journal_undirty (sdb_journal s) e)).

(** Undoing a list of entries, the last one first. *)
Fixpoint undo (es : list journalEntry) (s : StateDB) : res StateDB :=
  match es with [] => Ok s | e :: es => s ← undo es s; revert_step s e end.

Definition journal_revert (s : StateDB) (snapshot : nat) : res StateDB :=
  let es := entries (sdb_journal s) in
  s ← undo (drop snapshot es) s;
  es' ← go_take es (Z.of_nat snapshot);
  Ok (set_journal s (mkJournal es' (dirties (sdb_journal s)))).

Definition Snapshot (s : StateDB) : Z * StateDB :=
  let id := nextRevisionId s in
  (id, set_revisions s (validRevisions s ++ [mkRevision id (length (entries (sdb_journal s)))])
         (nextRevisionId s + 1)).

Definition RevertToSnapshot (s : StateDB) (revid : Z) : res StateDB :=
  let idx := sort_Search (length (validRevisions s))
               (λ i, match validRevisions s !! i with Some r => revid <=? rev_id r | None => true end) in
  match validRevisions s !! idx with
  | None => Panic "revision id cannot be reverted"
  | Some r =>
      if negb (rev_id r =? revid) then Panic "revision id cannot be reverted"
      else s' ← journal_revert s (journalIndex r);
           Ok (set_revisions s' (take idx (validRevisions s')) (nextRevisionId s'))
  end.

(** *** A new database *)

Definition fresh (tr : Trie) (root : Hash) (sn : option Snap) : StateDB :=
  mkStateDB tr root sn ∅ ∅ ∅ ∅ ∅ ∅ None 0 0 0 ∅ 0 ∅ NewAccessList ∅ newJournal [] 0.

(** [New]: [snaps] is the lookup of the snapshot tree, if there is one. *)
Definition New (root : Hash) (snaps : option (Hash → option Snap)) : string + StateDB :=
  tr ← OpenTrie root;
  inr (fresh tr root (match snaps with Some f => f root | None => None end)).

End statedb.

(** ** A database of empty tries

    It satisfies what the theorems assume of the layers below. *)

Record mem_trie := mkMemTrie {
  mt_accounts : gmap Address StateAccount;
  mt_slots : gmap (list byte) (list byte);
}.

Definition mem_database : Database := {|
  Trie := mem_trie;
  Snap := Empty_set;
  NodeSet := unit;
  OpenTrie _ := inr (mkMemTrie ∅ ∅);
  OpenStorageTrie _ _ _ := inr (mkMemTrie ∅ ∅);
  ContractCode _ _ := inl "not found";
  ContractCodeSize _ _ := inl "not found";
  GetAccount t a := inr (mt_accounts t !! a);
  GetStorage t _ k := inr (default [] (mt_slots t !! k));
  UpdateAccount t a acc := inr (mkMemTrie (<[a := acc]> (mt_accounts t)) (mt_slots t));
  DeleteAccount t a := inr (mkMemTrie (delete a (mt_accounts t)) (mt_slots t));
  UpdateStorage t _ k v := inr (mkMemTrie (mt_accounts t) (<[k := v]> (mt_slots t)));
  DeleteStorage t _ k := inr (mkMemTrie (mt_accounts t) (delete k (mt_slots t)));
  TrieHash _ := EmptyRootHash;
  TrieCommit _ _ := inr (EmptyRootHash, None);
  UpdateContractCode t _ _ _ := inr t;
  NodeSet_Owner _ := 0;
  TrieDB_Update _ _ _ := None;
  snap_Root s := match s with end;
  snap_Account s := match s with end;
  snap_Storage s := match s with end;
|}.

Definition mem_state : @StateDB mem_database :=
  @fresh mem_database (mkMemTrie ∅ ∅) 0 None.
