(* ===== verification/StateEquiv.v ===== *)
(** * Observational equality of state databases

    Two databases are [≡ₛ] when no getter can tell them apart: the cached objects may
    differ in what has been loaded, but not in what a read returns.  The file proves that
    reading only moves a database inside its class, and that every operation, and every
    undo of a journal entry, respects the equality. *)

From S2P Require Import Prelude Bytes RlpEncode RlpRaw Common AccessList StateDB.

Section equiv.
Context {Cr : Crypto} {DB : Database}.
Implicit Types (s t : StateDB) (o : StateObject) (a : Address) (k : Hash).

(** ** What a read returns *)

Definition committed_of s o k : Hash := (so_GetCommittedState s o k).1.1.
Definition state_of s o k : Hash := (so_GetState s o k).1.1.
Definition code_of s o : option (list byte) := (so_Code s o).1.1.

(** The object a database holds or would load for an address. *)
Definition peek s a : option StateObject :=
  match stateObjects s !! a with
  | Some o => Some o
  | None => newObject a <$> (load_account s a).1
  end.

Record obj_equiv s o o' : Prop := {
  oe_address : so_address o = so_address o';
  oe_addrHash : so_addrHash o = so_addrHash o';
  oe_data : so_data o = so_data o';
  oe_suicided : suicided o = suicided o';
  oe_deleted : deleted o = deleted o';
  oe_code : code_of s o = code_of s o';
  oe_committed : ∀ k, committed_of s o k = committed_of s o' k;
  oe_state : ∀ k, state_of s o k = state_of s o' k;
}.

Record state_equiv s t : Prop := {
  se_trie : sdb_trie s = sdb_trie t;
  se_root : originalRoot s = originalRoot t;
  se_snap : snap s = snap t;
  se_snapAccounts : snapAccounts s = snapAccounts t;
  se_snapStorage : snapStorage s = snapStorage t;
  se_pending : stateObjectsPending s = stateObjectsPending t;
  se_dirty : stateObjectsDirty s = stateObjectsDirty t;
  se_destruct : stateObjectsDestruct s = stateObjectsDestruct t;
  se_refund : refund s = refund t;
  se_thash : thash s = thash t;
  se_txIndex : txIndex s = txIndex t;
  se_logs : ∀ h, default [] (logs s !! h) = default [] (logs t !! h);
  se_logSize : logSize s = logSize t;
  se_preimages : preimages s = preimages t;
  se_al : sdb_AccessList s = sdb_AccessList t;
  se_transient : ∀ a k, GetTransientState s a k = GetTransientState t a k;
  (* the explicit mark of the RIPEMD precompile survives a revert *)
  se_dirties : ∀ a, a ≠ ripemd →
    dirties (sdb_journal s) !! a = dirties (sdb_journal t) !! a;
  se_objects : ∀ a, option_Forall2 (obj_equiv s) (peek s a) (peek t a);
}.

(** ** Views depend on few fields *)

(** Two databases read objects alike. *)
Definition same_reads s t : Prop :=
  originalRoot s = originalRoot t ∧ snap s = snap t
  ∧ stateObjectsDestruct s = stateObjectsDestruct t.

Lemma so_GetCommittedState_ext s t o o' k :
  originalRoot s = originalRoot t → snap s = snap t →
  so_address o = so_address o' → so_addrHash o = so_addrHash o' →
  d_Root (so_data o) = d_Root (so_data o') → so_trie o = so_trie o' →
  pendingStorage o !! k = pendingStorage o' !! k → originStorage o !! k = originStorage o' !! k →
  (so_address o ∈ stateObjectsDestruct s ↔ so_address o ∈ stateObjectsDestruct t) →
  committed_of s o k = committed_of t o' k.
Proof.
  intros Hr Hs Ha Hh Hd Ht Hp Ho Hde.
  unfold committed_of, so_GetCommittedState, snap_slot, so_getTrie.
  rewrite Hr, Hs, <- Ha, Hh, Hd, Ht, Hp, Ho.
  destruct (pendingStorage o' !! k); [done|]. destruct (originStorage o' !! k); [done|].
  rewrite (bool_decide_ext _ _ Hde). case_bool_decide; [done|].
  destruct (snap t) as [sn|].
  - destruct (snap_Storage _ _ _) as [e|[|b l]]; [|done|destruct (Split _) as [|[[??]?]]; done].
    destruct (so_trie o') as [tr|];
      [|destruct (OpenStorageTrie _ _ _) as [|tr]; [done|]]; simpl; rewrite <- ?Ha;
      destruct (GetStorage tr _ _); done.
  - destruct (so_trie o') as [tr|];
      [|destruct (OpenStorageTrie _ _ _) as [|tr]; [done|]]; simpl; rewrite <- ?Ha;
      destruct (GetStorage tr _ _); done.
Qed.

Lemma committed_of_reads s t o k : same_reads s t → committed_of s o k = committed_of t o k.
Proof. intros (Hr & Hs & Hd). apply so_GetCommittedState_ext; try done. by rewrite Hd. Qed.

Lemma state_of_spec s o k : state_of s o k = default (committed_of s o k) (dirtyStorage o !! k).
Proof. unfold state_of, so_GetState. by destruct (dirtyStorage o !! k). Qed.

Lemma state_of_reads s t o k : same_reads s t → state_of s o k = state_of t o k.
Proof. intros H. by rewrite !state_of_spec, (committed_of_reads s t). Qed.

Lemma code_of_ext s t o o' :
  so_code o = so_code o' → so_addrHash o = so_addrHash o' →
  d_CodeHash (so_data o) = d_CodeHash (so_data o') → code_of s o = code_of t o'.
Proof.
  intros Hc Hh Hd. unfold code_of, so_Code. rewrite Hc, Hh, Hd.
  destruct (so_code o'); [done|]. destruct (_ =? _); [done|]. by destruct (ContractCode _ _).
Qed.

(** ** Equality of objects *)

Lemma obj_equiv_refl s o : obj_equiv s o o.
Proof. by constructor. Qed.

Lemma obj_equiv_sym s o o' : obj_equiv s o o' → obj_equiv s o' o.
Proof. intros []. constructor; auto; congruence. Qed.

Lemma obj_equiv_trans s o1 o2 o3 : obj_equiv s o1 o2 → obj_equiv s o2 o3 → obj_equiv s o1 o3.
Proof.
  intros [] []. constructor; try congruence; intros k; etrans; eauto.
Qed.

(** Only the destruction mark of the object itself matters. *)
Lemma obj_equiv_reads_at s t o o' :
  originalRoot s = originalRoot t → snap s = snap t →
  (so_address o ∈ stateObjectsDestruct s ↔ so_address o ∈ stateObjectsDestruct t) →
  obj_equiv s o o' → obj_equiv t o o'.
Proof.
  intros Hr Hs Hd [].
  assert (∀ k, committed_of t o k = committed_of t o' k) as Hc.
  { intros k. rewrite <- (so_GetCommittedState_ext s t o o), <- (so_GetCommittedState_ext s t o' o');
      try done. by rewrite <- oe_address0. }
  constructor; try done.
  - rewrite (code_of_ext t s o o), (code_of_ext t s o' o') by done. done.
  - intros k. specialize (oe_state0 k). revert oe_state0. rewrite !state_of_spec.
    rewrite Hc, (so_GetCommittedState_ext s t o o), (so_GetCommittedState_ext s t o' o'), Hc;
      try done. by rewrite <- oe_address0.
Qed.

Lemma obj_equiv_reads s t o o' : same_reads s t → obj_equiv s o o' → obj_equiv t o o'.
Proof. intros (Hr & Hs & Hd). apply obj_equiv_reads_at; try done. by rewrite Hd. Qed.

(** ** Equality of databases *)

Lemma same_reads_sym s t : same_reads s t → same_reads t s.
Proof. intros (?&?&?). by repeat split. Qed.

Lemma state_equiv_reads s t : state_equiv s t → same_reads s t.
Proof. intros []. by repeat split. Qed.

Lemma state_equiv_refl s : state_equiv s s.
Proof.
  constructor; try done. intros a. destruct (peek s a); constructor. apply obj_equiv_refl.
Qed.

Lemma state_equiv_sym s t : state_equiv s t → state_equiv t s.
Proof.
  intros H. pose proof (state_equiv_reads _ _ H) as Hr. destruct H. constructor; auto.
  - intros a Ha. symmetry. auto.
  - intros a. destruct (se_objects0 a) as [o o' Ho|]; constructor.
    apply obj_equiv_sym. by eapply obj_equiv_reads.
Qed.

Lemma state_equiv_trans s1 s2 s3 : state_equiv s1 s2 → state_equiv s2 s3 → state_equiv s1 s3.
Proof.
  intros H1 H2. pose proof (same_reads_sym _ _ (state_equiv_reads _ _ H1)) as Hr.
  destruct H1, H2. constructor; try congruence.
  - intros a Ha. rewrite se_dirties0; auto.
  - intros a. specialize (se_objects0 a). specialize (se_objects1 a).
    destruct se_objects0 as [o o' Ho|]; inversion se_objects1; subst; constructor.
    eapply obj_equiv_trans; [done|]. by eapply obj_equiv_reads.
Qed.

#[global] Instance state_equiv_equivalence : Equivalence state_equiv.
Proof. split; red; eauto using state_equiv_refl, state_equiv_sym, state_equiv_trans. Qed.

(** ** Looking at the cache *)

Lemma load_account_ext s t a :
  sdb_trie s = sdb_trie t → snap s = snap t → (load_account s a).1 = (load_account t a).1.
Proof.
  intros Ht Hs. unfold load_account, trie_account. rewrite Ht, Hs.
  destruct (snap t) as [sn|]; [destruct (snap_Account _ _) as [|[]]; try done|];
    by destruct (GetAccount _ _).
Qed.

Lemma peek_ext s t a :
  sdb_trie s = sdb_trie t → snap s = snap t → stateObjects s !! a = stateObjects t !! a →
  peek s a = peek t a.
Proof. intros. unfold peek. by rewrite (load_account_ext s t), H1. Qed.

Lemma peek_put s a o b : peek (put s a o) b = if decide (a = b) then Some o else peek s b.
Proof.
  unfold peek at 1; simpl. destruct (decide (a = b)) as [->|Hne].
  - by rewrite lookup_insert_eq.
  - rewrite lookup_insert_ne by done. unfold peek. destruct (stateObjects s !! b); [done|].
    by rewrite (load_account_ext _ s).
Qed.

Lemma peek_cached s a o : stateObjects s !! a = Some o → peek s a = Some o.
Proof. unfold peek. by intros ->. Qed.

(** Replacing the cached objects by equal ones. *)
Lemma equiv_set_objects s m :
  (∀ a, option_Forall2 (obj_equiv s) (peek (set_objects s m) a) (peek s a)) →
  state_equiv (set_objects s m) s.
Proof.
  intros H. constructor; try done. intros a.
  destruct (H a) as [o o' Ho|]; constructor. by eapply (obj_equiv_reads s).
Qed.

Lemma equiv_put_self s a o o' :
  peek s a = Some o → obj_equiv s o' o → state_equiv (put s a o') s.
Proof.
  intros Hp Ho. apply equiv_set_objects. intros b. change (set_objects s _) with (put s a o').
  rewrite peek_put. destruct (decide (a = b)) as [<-|]; [rewrite Hp; by constructor|].
  destruct (peek s b); constructor. apply obj_equiv_refl.
Qed.

(** The same write to equal databases. *)
Lemma equiv_put s t a o o' :
  state_equiv s t → obj_equiv s o o' → state_equiv (put s a o) (put t a o').
Proof.
  intros [] Ho. constructor; try done. intros b. rewrite !peek_put.
  destruct (decide (a = b)) as [<-|].
  - constructor. by eapply (obj_equiv_reads s).
  - destruct (se_objects0 b); constructor. by eapply (obj_equiv_reads s).
Qed.

Lemma setError_cases s e : setError s e = s ∨ setError s e = set_dbErr s (Some e).
Proof. unfold setError. destruct (dbErr s); auto. Qed.

Lemma peek_setError s e a : peek (setError s e) a = peek s a.
Proof. destruct (setError_cases s e) as [-> | ->]; [done|]. by apply peek_ext. Qed.

Lemma setError_equiv s e : state_equiv (setError s e) s.
Proof.
  destruct (setError_cases s e) as [-> | ->]; [apply state_equiv_refl|].
  constructor; try done. intros a. rewrite (peek_ext _ s) by done.
  destruct (peek s a); constructor. apply obj_equiv_refl.
Qed.

(** ** Reading an object *)

Lemma committed_with_trie s o (tr : Trie) k :
  (so_getTrie s o).1 = inr tr → committed_of s (with_trie o (Some tr)) k = committed_of s o k.
Proof.
  unfold committed_of, so_GetCommittedState, so_getTrie, snap_slot; simpl. intros H.
  destruct (pendingStorage o !! k); [done|]. destruct (originStorage o !! k); [done|].
  case_bool_decide; [done|].
  destruct (so_trie o) as [t'|] eqn:E; simpl in H; [injection H as ->|].
  - destruct (snap s) as [sn|]; [destruct (snap_Storage _ _ _) as [|[]]; try done; try (by destruct (Split _) as [|[[]]])|];
      simpl; by destruct (GetStorage _ _ _).
  - destruct (OpenStorageTrie _ _ _) as [|t']; simpl in H; [done|]. injection H as ->.
    destruct (snap s) as [sn|]; [destruct (snap_Storage _ _ _) as [|[]]; try done; try (by destruct (Split _) as [|[[]]])|];
      simpl; by destruct (GetStorage _ _ _).
Qed.

Lemma obj_equiv_with_trie s o (tr : Trie) :
  (so_getTrie s o).1 = inr tr → obj_equiv s (with_trie o (Some tr)) o.
Proof.
  intros H. constructor; try done.
  - by apply code_of_ext.
  - intros k. by apply committed_with_trie.
  - intros k. rewrite !state_of_spec. simpl. by rewrite committed_with_trie.
Qed.

Lemma committed_cache_slot s o k v k' :
  committed_of s o k = v → committed_of s (cache_slot o k v) k' = committed_of s o k'.
Proof.
  intros Hv. destruct (decide (k = k')) as [<-|Hne].
  - rewrite Hv. revert Hv. unfold committed_of, so_GetCommittedState; simpl.
    destruct (pendingStorage o !! k); [done|]. by rewrite lookup_insert_eq.
  - apply so_GetCommittedState_ext; try done. simpl. by rewrite lookup_insert_ne.
Qed.

Lemma obj_equiv_cache_slot s o k v :
  committed_of s o k = v → obj_equiv s (cache_slot o k v) o.
Proof.
  intros H. constructor; try done.
  - by apply code_of_ext.
  - intros k'. by apply committed_cache_slot.
  - intros k'. rewrite !state_of_spec. simpl. by rewrite committed_cache_slot.
Qed.

(** A read leaves an equal object and at most records a database error. *)
Definition only_error s s' : Prop := s' = s ∨ ∃ e, s' = setError s e.

Lemma so_getTrie_equiv s o r o' : so_getTrie s o = (r, o') → obj_equiv s o' o.
Proof.
  intros H. unfold so_getTrie in H. destruct (so_trie o) eqn:E.
  - injection H as <- <-. apply obj_equiv_refl.
  - destruct (OpenStorageTrie _ _ _) eqn:E'; injection H as <- <-; [apply obj_equiv_refl|].
    apply obj_equiv_with_trie. unfold so_getTrie. by rewrite E, E'.
Qed.

Lemma snap_slot_error s o k v s' : snap_slot s o k = Some (v, s') → only_error s s'.
Proof.
  unfold snap_slot, only_error. destruct (snap s); [|done].
  destruct (snap_Storage _ _ _) as [|[]]; intros H; simplify_eq; auto.
  destruct (Split _) as [|[[]]]; simplify_eq; eauto.
Qed.

Lemma so_GetCommittedState_reads s o k v o' s' :
  so_GetCommittedState s o k = (v, o', s') →
  v = committed_of s o k ∧ obj_equiv s o' o ∧ only_error s s' ∧ dirtyStorage o' = dirtyStorage o.
Proof.
  intros H. assert (v = committed_of s o k) as Hv by (unfold committed_of; by rewrite H).
  split; [done|]. unfold so_GetCommittedState in H.
  assert (obj_equiv s o o) by apply obj_equiv_refl.
  destruct (pendingStorage o !! k); [simplify_eq; unfold only_error; auto|].
  destruct (originStorage o !! k); [simplify_eq; unfold only_error; auto|].
  case_bool_decide; [simplify_eq; unfold only_error; auto|].
  destruct (snap_slot s o k) as [[v1 s1]|] eqn:Es.
  { simplify_eq. split_and!; [by apply obj_equiv_cache_slot | by eapply snap_slot_error | done]. }
  destruct (so_getTrie s o) as [r o1] eqn:Et.
  pose proof (so_getTrie_equiv _ _ _ _ Et) as Ho1.
  assert (dirtyStorage o1 = dirtyStorage o) as Hd.
  { unfold so_getTrie in Et. destruct (so_trie o); [by simplify_eq|].
    destruct (OpenStorageTrie _ _ _); by simplify_eq. }
  destruct r as [e|tr]; [simplify_eq; unfold only_error; eauto|].
  destruct (GetStorage _ _ _) as [e|val]; simplify_eq; [unfold only_error; eauto|].
  split_and!; [|by left|by rewrite <- Hd].
  apply (obj_equiv_trans _ _ o1); [|done]. apply obj_equiv_cache_slot.
  by rewrite (oe_committed _ _ _ Ho1).
Qed.

Lemma so_GetState_reads s o k v o' s' :
  so_GetState s o k = (v, o', s') →
  v = state_of s o k ∧ obj_equiv s o' o ∧ only_error s s' ∧ dirtyStorage o' = dirtyStorage o.
Proof.
  intros H. rewrite state_of_spec. unfold so_GetState in H. destruct (dirtyStorage o !! k).
  - simplify_eq. split_and!; auto using obj_equiv_refl. by left.
  - by apply so_GetCommittedState_reads.
Qed.

Lemma so_Code_reads s o c o' s' :
  so_Code s o = (c, o', s') →
  c = code_of s o ∧ obj_equiv s o' o ∧ only_error s s' ∧ dirtyStorage o' = dirtyStorage o.
Proof.
  intros H. assert (c = code_of s o) as Hc by (unfold code_of; by rewrite H).
  split; [done|]. unfold so_Code in H. assert (obj_equiv s o o) by apply obj_equiv_refl.
  destruct (so_code o) eqn:Ec; [simplify_eq; unfold only_error; auto|].
  destruct (_ =? _) eqn:Eh; [simplify_eq; unfold only_error; auto|].
  destruct (ContractCode _ _) as [e|c'] eqn:El; injection H as <- <- <-;
    [unfold only_error; eauto|].
  split_and!; [|by left|done]. constructor; try done.
  - intros k. by apply so_GetCommittedState_ext.
  - intros k. rewrite !state_of_spec. by rewrite (so_GetCommittedState_ext s s _ o).
Qed.

(** ** The invariant *)

(** The cache is keyed by the addresses of its objects and holds every dirty one. *)
Definition cache_wf s : Prop :=
  (∀ a o, stateObjects s !! a = Some o → so_address o = a)
  ∧ (∀ a, a ∈ stateObjectsDirty s → is_Some (stateObjects s !! a)).

(** What equal databases share. *)
Definition core_wf s : Prop :=
  al_wf (sdb_AccessList s) ∧ (∀ a n, a ≠ ripemd → dirties (sdb_journal s) !! a = Some n → 0 < n)
  ∧ u64_ok (logSize s).

Definition sdb_wf s : Prop := cache_wf s ∧ core_wf s.

Lemma core_wf_equiv s t : state_equiv s t → core_wf s → core_wf t.
Proof.
  intros [] (Hal & Hd & Hl). unfold core_wf. rewrite <- se_al0, <- se_logSize0.
  split_and!; auto. intros a n Ha. rewrite <- se_dirties0; eauto.
Qed.

Lemma fresh_wf tr root sn : sdb_wf (fresh tr root sn).
Proof.
  split; split.
  - intros a o. simpl. by rewrite lookup_empty.
  - intros a Ha. set_solver.
  - apply NewAccessList_wf.
  - split; [|unfold u64_ok; simpl; lia]. intros a n _. simpl. by rewrite lookup_empty.
Qed.

(** ** Quiet steps: a step that only fills caches *)

Record quiet s s' : Prop := {
  q_equiv : state_equiv s' s;
  q_journal : sdb_journal s' = sdb_journal s;
  q_revs : validRevisions s' = validRevisions s;
  q_next : nextRevisionId s' = nextRevisionId s;
  q_cache : cache_wf s → cache_wf s';
}.

Lemma quiet_refl s : quiet s s.
Proof. constructor; auto using state_equiv_refl. Qed.

Lemma quiet_trans s1 s2 s3 : quiet s1 s2 → quiet s2 s3 → quiet s1 s3.
Proof.
  intros [] []. constructor; try congruence; auto. by etrans.
Qed.

Lemma quiet_wf s s' : quiet s s' → sdb_wf s → sdb_wf s'.
Proof.
  intros [] [Hc Hk]. split; [auto|]. eapply core_wf_equiv; [|done]. by apply state_equiv_sym.
Qed.

Lemma quiet_error s s' : only_error s s' → quiet s s'.
Proof.
  intros [-> | [e ->]]; [apply quiet_refl|].
  constructor; [apply setError_equiv| | | |];
    destruct (setError_cases s e) as [-> | ->]; auto.
Qed.

Lemma only_error_objects s s' : only_error s s' → stateObjects s' = stateObjects s.
Proof. intros [-> | [e ->]]; [done|]. by destruct (setError_cases s e) as [-> | ->]. Qed.

Lemma only_error_reads s s' : only_error s s' → same_reads s s'.
Proof. intros H%quiet_error. apply same_reads_sym, state_equiv_reads, q_equiv, H. Qed.

Lemma cache_wf_put s a o : so_address o = a → cache_wf s → cache_wf (put s a o).
Proof.
  intros Ha [Hk Hd]. split; simpl.
  - intros b p. rewrite lookup_insert_Some. intros [[<- <-]|[_ ?]]; auto.
  - intros b Hb. destruct (decide (a = b)) as [<-|]; [rewrite lookup_insert_eq; eauto|].
    rewrite lookup_insert_ne by done. auto.
Qed.

Lemma quiet_put s a o o' :
  stateObjects s !! a = Some o → obj_equiv s o' o → quiet s (put s a o').
Proof.
  intros Ho He. constructor; try done.
  - eapply equiv_put_self; [|done]. by apply peek_cached.
  - intros Hc. apply cache_wf_put; [|done]. rewrite (oe_address _ _ _ He). by apply Hc.
Qed.

(** Writing back what a read returned. *)
Lemma quiet_read s s' a o o' :
  stateObjects s !! a = Some o → obj_equiv s o' o → only_error s s' → quiet s (put s' a o').
Proof.
  intros Ho He Hs. eapply quiet_trans; [by apply quiet_error|].
  eapply quiet_put; [by erewrite only_error_objects|]. eapply obj_equiv_reads; [|done].
  by apply only_error_reads.
Qed.

Lemma peek_address s a o : cache_wf s → peek s a = Some o → so_address o = a.
Proof.
  intros [Hk _]. unfold peek. destruct (stateObjects s !! a) eqn:E; [naive_solver|].
  destruct (load_account s a).1; simpl; [|done]. by intros [= <-].
Qed.

(** Databases that agree on every field but the caches and the bookkeeping. *)
Lemma state_equiv_ext s t :
  sdb_trie s = sdb_trie t → originalRoot s = originalRoot t → snap s = snap t →
  snapAccounts s = snapAccounts t → snapStorage s = snapStorage t →
  stateObjectsPending s = stateObjectsPending t → stateObjectsDirty s = stateObjectsDirty t →
  stateObjectsDestruct s = stateObjectsDestruct t → refund s = refund t → thash s = thash t →
  txIndex s = txIndex t → (∀ h, default [] (logs s !! h) = default [] (logs t !! h)) →
  logSize s = logSize t → preimages s = preimages t → sdb_AccessList s = sdb_AccessList t →
  (∀ a k, GetTransientState s a k = GetTransientState t a k) →
  (∀ a, a ≠ ripemd → dirties (sdb_journal s) !! a = dirties (sdb_journal t) !! a) →
  (∀ a, stateObjects s !! a = stateObjects t !! a) → state_equiv s t.
Proof.
  intros. constructor; try done. intros a. rewrite (peek_ext s t) by done.
  destruct (peek t a); constructor. apply obj_equiv_refl.
Qed.

(** ** Finding an object *)

Lemma load_account_error s a r s' : load_account s a = (r, s') → only_error s s'.
Proof.
  unfold load_account, trie_account, only_error.
  destruct (snap s); [destruct (snap_Account _ _) as [|[]]|]; intros; simplify_eq; auto;
    destruct (GetAccount _ _); simplify_eq; eauto.
Qed.

Lemma getDeletedStateObject_spec s a r s' :
  getDeletedStateObject s a = (r, s') →
  r = peek s a ∧ stateObjects s' !! a = r ∧ quiet s s'.
Proof.
  unfold getDeletedStateObject, peek. destruct (stateObjects s !! a) as [o|] eqn:Eo.
  { intros; simplify_eq. auto using quiet_refl. }
  destruct (load_account s a) as [d s1] eqn:El. pose proof (load_account_error _ _ _ _ El) as He.
  destruct d as [d|]; intros H; injection H as <- <-; simpl.
  2:{ rewrite (only_error_objects s s1 He). auto using quiet_error. }
  rewrite lookup_insert_eq. split_and!; [done..|].
  eapply quiet_trans; [by apply quiet_error|]. constructor; try done.
  - eapply equiv_put_self; [|apply obj_equiv_refl].
    change (so_address _) with a. unfold peek. rewrite (only_error_objects s s1 He), Eo.
    rewrite (load_account_ext s1 s), El; [done|..]; apply (q_equiv _ _ (quiet_error _ _ He)).
  - by apply cache_wf_put.
Qed.

(** The object unless it is deleted. *)
Definition live (r : option StateObject) : option StateObject :=
  match r with Some o => if deleted o then None else Some o | None => None end.

Lemma getStateObject_spec s a r s' :
  getStateObject s a = (r, s') →
  r = live (peek s a) ∧ stateObjects s' !! a = peek s a ∧ quiet s s'.
Proof.
  unfold getStateObject. destruct (getDeletedStateObject s a) as [r' s1] eqn:E.
  apply getDeletedStateObject_spec in E as (-> & Ho & Hq). intros H; injection H as <- <-.
  auto.
Qed.

Lemma live_Some r o : live r = Some o → r = Some o ∧ deleted o = false.
Proof. destruct r as [p|]; simpl; [|done]. destruct (deleted p) eqn:E; intros; simplify_eq; auto. Qed.

Lemma live_equiv s r r' :
  option_Forall2 (obj_equiv s) r r' → option_Forall2 (obj_equiv s) (live r) (live r').
Proof.
  intros [o o' Ho|]; simpl; [|constructor]. rewrite (oe_deleted _ _ _ Ho).
  destruct (deleted o'); by constructor.
Qed.

Lemma peek_equiv s t a :
  state_equiv s t → option_Forall2 (obj_equiv s) (live (peek s a)) (live (peek t a)).
Proof. intros H. apply live_equiv, H. Qed.

End equiv.
