(* ===== verification/StateRevert.v ===== *)
(** * Undoing the journal

    Getters answer equal databases alike and only fill caches; undoing journal entries
    respects the equality of databases and keeps the cache well-formed. *)

From S2P Require Import Prelude Bytes RlpEncode RlpRaw Common AccessList StateDB StateEquiv.

Section revert.
Context {Cr : Crypto} {DB : Database}.
Implicit Types (s t : StateDB) (o : StateObject) (a : Address) (k : Hash) (e : journalEntry).

Infix "≡ₛ" := state_equiv (at level 70).

(** ** Getters *)

(** A getter fills caches and answers equal databases alike. *)
Record reader {A} (m : StateDB → A * StateDB) : Prop := {
  r_quiet : ∀ s, quiet s (m s).2;
  r_value : ∀ s t, s ≡ₛ t → (m s).1 = (m t).1;
}.

Lemma reader_object {A} a (f : option StateObject → A) :
  (∀ s r r', option_Forall2 (obj_equiv s) r r' → f r = f r') →
  reader (λ s, let '(r, s) := getStateObject s a in (f r, s)).
Proof.
  intros Hf. split.
  - intros s. destruct (getStateObject s a) eqn:E. by apply getStateObject_spec in E as (_&_&?).
  - intros s t Hst. destruct (getStateObject s a) as [r s1] eqn:E, (getStateObject t a) as [r' t1] eqn:E'.
    apply getStateObject_spec in E as (->&_&_). apply getStateObject_spec in E' as (->&_&_). simpl.
    by eapply Hf, peek_equiv.
Qed.

Lemma reader_read {A} a (d : A) (rd : StateDB → StateObject → A * StateObject * StateDB) :
  (∀ s o v o' s', rd s o = (v, o', s') → obj_equiv s o' o ∧ only_error s s') →
  (∀ s t o o', same_reads s t → obj_equiv s o o' → (rd s o).1.1 = (rd t o').1.1) →
  reader (λ s, match getStateObject s a with
               | (Some o, s) => let '(v, o, s) := rd s o in (v, put s a o)
               | (None, s) => (d, s)
               end).
Proof.
  intros Hrd Hv. split.
  - intros s. destruct (getStateObject s a) as [r s1] eqn:E.
    apply getStateObject_spec in E as (->&Ho&Hq). destruct (live (peek s a)) as [o|] eqn:El; [|done].
    apply live_Some in El as [El _]. rewrite El in Ho.
    destruct (rd s1 o) as [[v o'] s2] eqn:Er. destruct (Hrd _ _ _ _ _ Er).
    eapply quiet_trans; [done|]. by eapply quiet_read.
  - intros s t Hst. destruct (getStateObject s a) as [r s1] eqn:E, (getStateObject t a) as [r' t1] eqn:E'.
    apply getStateObject_spec in E as (->&_&Hq). apply getStateObject_spec in E' as (->&_&Hq').
    assert (same_reads s s1) as Hr1 by apply same_reads_sym, state_equiv_reads, Hq.
    destruct (peek_equiv s t a Hst) as [o o' Ho|]; [|done].
    specialize (Hv s1 t1 o o').
    destruct (rd s1 o) as [[v p] s2], (rd t1 o') as [[v' p'] t2]. apply Hv.
    + apply state_equiv_reads. etrans; [apply Hq|]. etrans; [exact Hst|]. symmetry. apply Hq'.
    + by eapply obj_equiv_reads.
Qed.

Ltac object_reader := intros s r r' [o o' []|]; unfold so_empty; congruence.

Lemma Exist_reader a : reader (λ s, Exist s a).
Proof. apply (reader_object a (λ r, bool_decide (is_Some r))). by intros s r r' []. Qed.

Lemma Empty_reader a : reader (λ s, Empty s a).
Proof. apply (reader_object a (λ r, match r with None => true | Some o => so_empty o end)). object_reader. Qed.

Lemma GetBalance_reader a : reader (λ s, GetBalance s a).
Proof. apply (reader_object a (λ r, match r with Some o => d_Balance (so_data o) | None => 0 end)). object_reader. Qed.

Lemma GetNonce_reader a : reader (λ s, GetNonce s a).
Proof. apply (reader_object a (λ r, match r with Some o => d_Nonce (so_data o) | None => 0 end)). object_reader. Qed.

Lemma GetCodeHash_reader a : reader (λ s, GetCodeHash s a).
Proof. apply (reader_object a (λ r, match r with None => 0 | Some o => d_CodeHash (so_data o) end)). object_reader. Qed.

Lemma HasSelfDestructed_reader a : reader (λ s, HasSelfDestructed s a).
Proof. apply (reader_object a (λ r, match r with Some o => suicided o | None => false end)). object_reader. Qed.

Lemma GetCode_reader a : reader (λ s, GetCode s a).
Proof.
  apply (reader_read a None so_Code).
  - intros s o v o' s' H%so_Code_reads. tauto.
  - intros s t o o' _ Ho. change (code_of s o = code_of t o').
    rewrite <- (code_of_ext s t o' o') by done. apply Ho.
Qed.

Lemma GetState_reader a k : reader (λ s, GetState s a k).
Proof.
  apply (reader_read a 0 (λ s o, so_GetState s o k)).
  - intros s o v o' s' H%so_GetState_reads. tauto.
  - intros s t o o' Hr Ho. change (state_of s o k = state_of t o' k).
    rewrite <- (state_of_reads s t) by done. apply Ho.
Qed.

Lemma GetCommittedState_reader a k : reader (λ s, GetCommittedState s a k).
Proof.
  apply (reader_read a 0 (λ s o, so_GetCommittedState s o k)).
  - intros s o v o' s' H%so_GetCommittedState_reads. tauto.
  - intros s t o o' Hr Ho. change (committed_of s o k = committed_of t o' k).
    rewrite <- (committed_of_reads s t) by done. apply Ho.
Qed.

(** The size of a code is the length of the code.  A database that stores codes under
    their hashes answers both queries from the same record. *)
Definition code_sizes_agree : Prop := ∀ h c,
  ContractCodeSize h c = match ContractCode h c with
                         | inl m => inl m | inr code => inr (Z.of_nat (length code)) end.

Lemma so_CodeSize_spec s o : code_sizes_agree →
  (so_CodeSize s o).1 = Z.of_nat (length (default [] (code_of s o))).
Proof.
  intros Hl. unfold so_CodeSize, code_of, so_Code. destruct (so_code o); [done|].
  destruct (_ =? _); [done|]. rewrite Hl. by destruct (ContractCode _ _).
Qed.

Lemma GetCodeSize_quiet a s : quiet s (GetCodeSize s a).2.
Proof.
  unfold GetCodeSize. destruct (getStateObject s a) as [r s1] eqn:E.
  apply getStateObject_spec in E as (_&_&Hq). destruct r as [o|]; [|done].
  eapply quiet_trans; [done|]. apply quiet_error. unfold so_CodeSize, only_error.
  destruct (so_code o); [by left|]. destruct (_ =? _); [by left|].
  destruct (ContractCodeSize _ _); [right; eauto|by left].
Qed.

Lemma GetCodeSize_reader a : code_sizes_agree → reader (λ s, GetCodeSize s a).
Proof.
  intros Hl. split; [intros s; apply GetCodeSize_quiet|]. unfold GetCodeSize.
  - intros s t Hst. destruct (getStateObject s a) as [r s1] eqn:E, (getStateObject t a) as [r' t1] eqn:E'.
    apply getStateObject_spec in E as (->&_&Hq). apply getStateObject_spec in E' as (->&_&Hq').
    destruct (peek_equiv s t a Hst) as [o o' Ho|]; [|done]. rewrite !so_CodeSize_spec by done.
    rewrite (code_of_ext s1 s o o), (code_of_ext t1 s o' o') by done. by rewrite (oe_code _ _ _ Ho).
Qed.

(** ** Updates of equal objects *)

Lemma committed_with_data s o d k :
  d_Root d = d_Root (so_data o) → committed_of s (with_data o d) k = committed_of s o k.
Proof. intros. by apply so_GetCommittedState_ext. Qed.

(** New account data with the old storage root. *)
Lemma obj_equiv_data s o o' (f : account_data → account_data) :
  (∀ d, d_Root (f d) = d_Root d) → (∀ d, d_CodeHash (f d) = d_CodeHash d) →
  obj_equiv s o o' → obj_equiv s (with_data o (f (so_data o))) (with_data o' (f (so_data o'))).
Proof.
  intros Hr Hc []. constructor; simpl; auto.
  - by rewrite oe_data.
  - rewrite (code_of_ext s s (with_data o _) o), (code_of_ext s s (with_data o' _) o'); simpl; auto.
  - intros k. by rewrite !committed_with_data.
  - intros k. specialize (oe_state k). rewrite !state_of_spec in *. simpl.
    by rewrite !committed_with_data.
Qed.

Lemma obj_equiv_setBalance s o o' b :
  obj_equiv s o o' → obj_equiv s (so_setBalance o b) (so_setBalance o' b).
Proof.
  apply (obj_equiv_data s o o' (λ d, mkData (d_Nonce d) b (d_Root d) (d_CodeHash d))); done.
Qed.

Lemma obj_equiv_setNonce s o o' n :
  obj_equiv s o o' → obj_equiv s (so_setNonce o n) (so_setNonce o' n).
Proof.
  apply (obj_equiv_data s o o' (λ d, mkData n (d_Balance d) (d_Root d) (d_CodeHash d))); done.
Qed.

Lemma committed_setCode s o h c k : committed_of s (so_setCode o h c) k = committed_of s o k.
Proof. by apply so_GetCommittedState_ext. Qed.

Lemma obj_equiv_setCode s o o' h c :
  obj_equiv s o o' → obj_equiv s (so_setCode o h c) (so_setCode o' h c).
Proof.
  intros []. constructor; simpl; auto.
  - by rewrite oe_data.
  - by apply code_of_ext.
  - intros k. by rewrite !committed_setCode.
  - intros k. specialize (oe_state k). rewrite !state_of_spec in *. simpl. by rewrite !committed_setCode.
Qed.

Lemma committed_setState s o k v k' : committed_of s (so_setState o k v) k' = committed_of s o k'.
Proof. by apply so_GetCommittedState_ext. Qed.

Lemma state_setState s o k v k' :
  state_of s (so_setState o k v) k' = if decide (k = k') then v else state_of s o k'.
Proof.
  rewrite !state_of_spec, committed_setState. simpl. destruct (decide (k = k')) as [<-|].
  - by rewrite lookup_insert_eq.
  - by rewrite lookup_insert_ne.
Qed.

Lemma obj_equiv_setState s o o' k v :
  obj_equiv s o o' → obj_equiv s (so_setState o k v) (so_setState o' k v).
Proof.
  intros []. constructor; simpl; auto.
  - by rewrite (code_of_ext s s (so_setState o k v) o), (code_of_ext s s (so_setState o' k v) o').
  - intros k'. by rewrite !committed_setState.
  - intros k'. rewrite !state_setState. by destruct (decide (k = k')).
Qed.

Lemma committed_with_flags s o su de k : committed_of s (with_flags o su de) k = committed_of s o k.
Proof. by apply so_GetCommittedState_ext. Qed.

Lemma obj_equiv_with_flags s o o' su :
  obj_equiv s o o' → obj_equiv s (with_flags o su (deleted o)) (with_flags o' su (deleted o')).
Proof.
  intros []. constructor; simpl; auto.
  - by rewrite (code_of_ext s s (with_flags o _ _) o), (code_of_ext s s (with_flags o' _ _) o').
  - intros k. by rewrite !committed_with_flags.
  - intros k. specialize (oe_state k). rewrite !state_of_spec in *. simpl. by rewrite !committed_with_flags.
Qed.

(** ** Undoing entries respects the equality *)

Definition res_equiv (m m' : res StateDB) : Prop :=
  match m, m' with Ok s, Ok t => s ≡ₛ t | Panic _, Panic _ => True | _, _ => False end.

(** Equal databases find equal objects. *)
Lemma getStateObject_equiv s t a :
  s ≡ₛ t → (getStateObject s a).2 ≡ₛ (getStateObject t a).2
  ∧ option_Forall2 (obj_equiv (getStateObject s a).2) (getStateObject s a).1 (getStateObject t a).1.
Proof.
  intros Hst. destruct (getStateObject s a) as [r s1] eqn:E, (getStateObject t a) as [r' t1] eqn:E'.
  apply getStateObject_spec in E as (->&_&Hq). apply getStateObject_spec in E' as (->&_&Hq'). simpl.
  split.
  - etrans; [apply Hq|]. etrans; [exact Hst|]. symmetry. apply Hq'.
  - destruct (peek_equiv s t a Hst); constructor. eapply obj_equiv_reads; [|done].
    apply same_reads_sym, state_equiv_reads, Hq.
Qed.

(** Reverting an entry of an account writes through the pointer. *)
Lemma revert_object_equiv s t a (g : StateObject → StateObject) :
  s ≡ₛ t → (∀ s o o', obj_equiv s o o' → obj_equiv s (g o) (g o')) →
  res_equiv (let '(obj, s) := getStateObject s a in obj ← deref obj; Ok (put s a (g obj)))
            (let '(obj, t) := getStateObject t a in obj ← deref obj; Ok (put t a (g obj))).
Proof.
  intros Hst Hg. destruct (getStateObject_equiv s t a Hst) as [Hst1 Ho].
  destruct (getStateObject s a) as [r s1], (getStateObject t a) as [r' t1]; simpl in *.
  destruct Ho; simpl; [|done]. apply equiv_put; auto.
Qed.

(** Removing the destruction mark of an address and replacing its object. *)
Lemma equiv_reset s t p D D' ac st ac' st' :
  cache_wf s → s ≡ₛ t → (∀ b, b ≠ so_address p → b ∈ D ↔ b ∈ stateObjectsDestruct s) →
  D = D' → ac = ac' → st = st' →
  set_snaps (set_marks (setStateObject s p) (stateObjectsPending s) (stateObjectsDirty s) D) ac st
  ≡ₛ set_snaps (set_marks (setStateObject t p) (stateObjectsPending t) (stateObjectsDirty t) D') ac' st'.
Proof.
  intros Hs Hst HD -> -> ->. pose proof Hst as []. constructor; try done. intros b.
  rewrite (peek_ext (set_snaps _ _ _) (setStateObject s p)) by done.
  rewrite (peek_ext (set_snaps (set_marks (setStateObject t p) _ _ _) _ _) (setStateObject t p)) by done.
  unfold setStateObject. rewrite !peek_put. destruct (decide (so_address p = b)) as [|Hb].
  - constructor. apply obj_equiv_refl.
  - specialize (se_objects b). destruct (peek s b) as [o|] eqn:Eo; inversion se_objects; subst; constructor.
    apply (obj_equiv_reads_at s); try done. simpl. apply peek_address in Eo; [|done].
    rewrite HD by congruence. done.
Qed.

(** Changes outside the accounts. *)
Lemma equiv_frame s t s' t' :
  s ≡ₛ t →
  (sdb_trie s' = sdb_trie s ∧ originalRoot s' = originalRoot s ∧ snap s' = snap s
   ∧ snapAccounts s' = snapAccounts s ∧ snapStorage s' = snapStorage s
   ∧ stateObjectsPending s' = stateObjectsPending s ∧ stateObjectsDirty s' = stateObjectsDirty s
   ∧ stateObjectsDestruct s' = stateObjectsDestruct s ∧ stateObjects s' = stateObjects s) →
  (sdb_trie t' = sdb_trie t ∧ originalRoot t' = originalRoot t ∧ snap t' = snap t
   ∧ snapAccounts t' = snapAccounts t ∧ snapStorage t' = snapStorage t
   ∧ stateObjectsPending t' = stateObjectsPending t ∧ stateObjectsDirty t' = stateObjectsDirty t
   ∧ stateObjectsDestruct t' = stateObjectsDestruct t ∧ stateObjects t' = stateObjects t) →
  refund s' = refund t' → thash s' = thash t' → txIndex s' = txIndex t' →
  (∀ h, default [] (logs s' !! h) = default [] (logs t' !! h)) → logSize s' = logSize t' →
  preimages s' = preimages t' → sdb_AccessList s' = sdb_AccessList t' →
  (∀ a k, GetTransientState s' a k = GetTransientState t' a k) →
  (∀ a, a ≠ ripemd → dirties (sdb_journal s') !! a = dirties (sdb_journal t') !! a) →
  s' ≡ₛ t'.
Proof.
  intros [] (?&?&?&?&?&?&?&?&Hos) (?&?&?&?&?&?&?&?&Hot) **. constructor; try congruence; auto.
  intros b. rewrite (peek_ext s' s), (peek_ext t' t) by congruence.
  destruct (se_objects b); constructor. eapply obj_equiv_reads; [|done]. by repeat split.
Qed.

Ltac frame H := apply (equiv_frame _ _ _ _ H); destruct H; [by split_and!|by split_and!|..]; try done.

Lemma transient_Get_Set tr a k v b k' :
  transient_Get (transient_Set tr a k v) b k'
  = if decide (a = b ∧ k = k') then v else transient_Get tr b k'.
Proof.
  unfold transient_Get, transient_Set. destruct (decide (a = b)) as [<-|Hab].
  - rewrite lookup_insert_eq. destruct (decide (k = k')) as [<-|Hk].
    + rewrite decide_True by done. by rewrite lookup_insert_eq.
    + rewrite decide_False by tauto. rewrite lookup_insert_ne by done. by destruct (tr !! a).
  - rewrite lookup_insert_ne by done. by rewrite decide_False by tauto.
Qed.

Lemma setTransientState_equiv s t a k v :
  s ≡ₛ t → setTransientState s a k v ≡ₛ setTransientState t a k v.
Proof.
  intros H. frame H. intros b k'. unfold GetTransientState; simpl. rewrite !transient_Get_Set.
  case_decide; [done|]. apply se_transient.
Qed.

Lemma revert_log_equiv s t h :
  s ≡ₛ t → res_equiv (entry_revert (addLogChange h) s) (entry_revert (addLogChange h) t).
Proof.
  intros H. cbn [entry_revert]. rewrite <- (se_logs _ _ H h), (se_logSize _ _ H).
  set (ls := default [] (logs s !! h)).
  assert (∀ m m', (∀ h', h ≠ h' → m !! h' = logs s !! h') → (∀ h', h ≠ h' → m' !! h' = logs t !! h') →
    default [] (m !! h) = default [] (m' !! h) → 
    set_logs s m (logSize t - 1)%u64 ≡ₛ set_logs t m' (logSize t - 1)%u64) as Hm.
  { intros m m' Hm Hm' Hd. frame H. intros h'. simpl. destruct (decide (h = h')) as [<-|Hne]; [done|].
    rewrite Hm, Hm' by done. apply se_logs. }
  case_bool_decide; simpl.
  - apply Hm; intros; rewrite ?lookup_delete_eq, ?lookup_delete_ne; done.
  - destruct (go_take ls _); simpl; [|done].
    apply Hm; intros; rewrite ?lookup_insert_eq, ?lookup_insert_ne; done.
Qed.

Lemma entry_revert_equiv e s t :
  cache_wf s → s ≡ₛ t → res_equiv (entry_revert e s) (entry_revert e t).
Proof.
  intros Hs Hst. destruct e as [a|a p de ac st|a su b|a b|a n|a k v|a c h|r|h|h|a|a|a k|a k v].
  - simpl. pose proof Hst as []. constructor; simpl; try done; [by rewrite se_dirty|].
    intros b. unfold peek; simpl. destruct (decide (a = b)) as [<-|Hne].
    + rewrite !lookup_delete_eq. rewrite (load_account_ext _ s), (load_account_ext (set_marks _ _ _ _) t) by done.
      rewrite (load_account_ext s t) by done.
      destruct (load_account t a).1; constructor. apply obj_equiv_refl.
    + rewrite !lookup_delete_ne by done. rewrite (load_account_ext _ s), (load_account_ext (set_marks _ _ _ _) t) by done.
      specialize (se_objects b). unfold peek in se_objects. destruct se_objects; constructor.
      by eapply (obj_equiv_reads s).
  - cbn [entry_revert res_equiv]. pose proof Hst as []. destruct de.
    + apply (equiv_reset s t p (stateObjectsDestruct s) (stateObjectsDestruct t)); auto;
        destruct st, ac; simpl; congruence.
    + apply (equiv_reset s t p (stateObjectsDestruct s ∖ {[so_address p]})
        (stateObjectsDestruct t ∖ {[so_address p]})); auto; simpl; [set_solver|by rewrite se_destruct|..];
        destruct st, ac; simpl; congruence.
  - destruct (getStateObject_equiv s t a Hst) as [Hst1 Ho]. simpl.
    destruct (getStateObject s a) as [r s1], (getStateObject t a) as [r' t1]; simpl in *.
    destruct Ho; simpl; [|done]. apply equiv_put; auto using obj_equiv_setBalance, obj_equiv_with_flags.
  - apply (revert_object_equiv s t a (λ o, so_setBalance o b)); auto using obj_equiv_setBalance.
  - apply (revert_object_equiv s t a (λ o, so_setNonce o n)); auto using obj_equiv_setNonce.
  - apply (revert_object_equiv s t a (λ o, so_setState o k v)); auto using obj_equiv_setState.
  - apply (revert_object_equiv s t a (λ o, so_setCode o h c)); auto using obj_equiv_setCode.
  - simpl. frame Hst.
  - by apply revert_log_equiv.
  - simpl. frame Hst. simpl. by rewrite se_preimages.
  - done.
  - simpl. frame Hst. simpl. by rewrite se_al.
  - simpl. rewrite (se_al _ _ Hst). destruct (DeleteSlot _ _ _); simpl; [|done]. frame Hst.
  - simpl. by apply setTransientState_equiv.
Qed.

Lemma set_journal_equiv s t j j' :
  s ≡ₛ t → (∀ a, a ≠ ripemd → dirties j !! a = dirties j' !! a) →
  set_journal s j ≡ₛ set_journal t j'.
Proof. intros H Hd. frame H. Qed.

Lemma undirty_ext j j' e b :
  b ≠ ripemd → (∀ a, a ≠ ripemd → dirties j !! a = dirties j' !! a) →
  dirties (journal_undirty j e) !! b = dirties (journal_undirty j' e) !! b.
Proof.
  intros Hb Hd. unfold journal_undirty. destruct (dirtied e) as [a|]; simpl; [|auto].
  destruct (decide (a = b)) as [<-|Hab].
  - rewrite (Hd a Hb). destruct (_ =? 0); by rewrite ?lookup_delete_eq, ?lookup_insert_eq.
  - destruct (_ =? 0), (default 0 (dirties j' !! a) - 1 =? 0);
      rewrite ?lookup_delete_ne, ?lookup_insert_ne by done; auto.
Qed.

Lemma revert_step_equiv e s t :
  cache_wf s → s ≡ₛ t → res_equiv (revert_step s e) (revert_step t e).
Proof.
  intros Hs Hst. unfold revert_step. pose proof (entry_revert_equiv e s t Hs Hst) as H.
  destruct (entry_revert e s), (entry_revert e t); simpl in *; try done.
  apply set_journal_equiv; [done|]. intros b Hb. apply undirty_ext; [done|]. apply H.
Qed.

(** ** Undoing entries keeps the cache well-formed *)

Lemma getStateObject_cache s a r s' : getStateObject s a = (r, s') → cache_wf s → cache_wf s'.
Proof. intros (_&_&H)%getStateObject_spec. apply H. Qed.

Lemma revert_object_cache s s' a (g : StateObject → StateObject) :
  (∀ o, so_address (g o) = so_address o) → cache_wf s →
  (let '(obj, s) := getStateObject s a in obj ← deref obj; Ok (put s a (g obj))) = Ok s' → cache_wf s'.
Proof.
  intros Hg Hs. destruct (getStateObject s a) as [r s1] eqn:E.
  destruct r as [o|]; simpl; [|done]. intros [= <-]. apply cache_wf_put; [|by eapply getStateObject_cache].
  rewrite Hg. apply getStateObject_spec in E as (El&_&_). symmetry in El.
  apply live_Some in El as [El _]. by apply (peek_address s).
Qed.

Lemma entry_revert_cache e s s' : cache_wf s → entry_revert e s = Ok s' → cache_wf s'.
Proof.
  intros Hs. destruct e as [a|a p de ac st|a su b|a b|a n|a k v|a c h|r|h|h|a|a|a k|a k v];
    cbn [entry_revert].
  - intros [= <-]. destruct Hs as [Hk Hd]. split; simpl.
    + intros b o. rewrite lookup_delete_Some. intros [_ ?]. auto.
    + intros b Hb. rewrite lookup_delete_ne by set_solver. apply Hd. set_solver.
  - intros [= <-]. assert (cache_wf (setStateObject s p)) as Hp by (by apply cache_wf_put).
    by destruct de.
  - destruct (getStateObject s a) as [r s1] eqn:E. pose proof (getStateObject_cache _ _ _ _ E Hs).
    destruct r as [o|]; [|by intros [= <-]]. intros [= <-]. apply cache_wf_put; [|done]. simpl.
    apply getStateObject_spec in E as (El&_&_). symmetry in El.
    apply live_Some in El as [El _]. by apply (peek_address s).
  - by apply (revert_object_cache s s' a (λ o, so_setBalance o b)).
  - by apply (revert_object_cache s s' a (λ o, so_setNonce o n)).
  - by apply (revert_object_cache s s' a (λ o, so_setState o k v)).
  - by apply (revert_object_cache s s' a (λ o, so_setCode o h c)).
  - by intros [= <-].
  - intros (m & _ & [= <-])%res_bind_Ok. done.
  - by intros [= <-].
  - by intros [= <-].
  - by intros [= <-].
  - intros (al & _ & [= <-])%res_bind_Ok. done.
  - by intros [= <-].
Qed.

Lemma revert_step_cache e s s' : cache_wf s → revert_step s e = Ok s' → cache_wf s'.
Proof.
  intros Hs (s1 & H & [= <-])%res_bind_Ok. by eapply (entry_revert_cache e s s1).
Qed.

Lemma undo_cache es s s' : cache_wf s → undo es s = Ok s' → cache_wf s'.
Proof.
  revert s'. induction es as [|e es IH]; intros s' Hs; simpl; [by intros [= <-]|].
  intros (s1 & H1 & H2)%res_bind_Ok. apply (revert_step_cache e s1); auto.
Qed.

Lemma undo_equiv es s t : cache_wf s → s ≡ₛ t → res_equiv (undo es s) (undo es t).
Proof.
  intros Hs Hst. induction es as [|e es IH]; simpl; [done|].
  destruct (undo es s) as [s1|] eqn:E, (undo es t) as [t1|]; simpl in *; try done.
  apply revert_step_equiv; [|done]. by eapply undo_cache.
Qed.

Lemma undo_app es es' s : undo (es ++ es') s = undo es' s ≫= undo es.
Proof.
  induction es as [|e es IH]; simpl; [by destruct (undo es' s)|].
  rewrite IH. by destruct (undo es' s).
Qed.

(** Undoing does not look at the bookkeeping of snapshots, and keeps it. *)
Lemma entry_revert_book e s s' :
  entry_revert e s = Ok s' →
  sdb_journal s' = sdb_journal s ∧ validRevisions s' = validRevisions s
  ∧ nextRevisionId s' = nextRevisionId s.
Proof.
  assert (∀ a (g : StateObject → StateObject),
    (let '(obj, s) := getStateObject s a in obj ← deref obj; Ok (put s a (g obj))) = Ok s' →
    sdb_journal s' = sdb_journal s ∧ validRevisions s' = validRevisions s
    ∧ nextRevisionId s' = nextRevisionId s) as Hg.
  { intros a g. destruct (getStateObject s a) as [r s1] eqn:E.
    apply getStateObject_spec in E as (_&_&[]).
    intros (o & _ & [= <-])%res_bind_Ok. done. }
  destruct e as [a|a p de ac st|a su b|a b|a n|a k v|a c h|r|h|h|a|a|a k|a k v];
    cbn [entry_revert]; try (by intros [= <-]).
  - intros [= <-]. by destruct de.
  - destruct (getStateObject s a) as [r s1] eqn:E. apply getStateObject_spec in E as (_&_&[]).
    destruct r; intros [= <-]; done.
  - apply (Hg a (λ o, so_setBalance o b)).
  - apply (Hg a (λ o, so_setNonce o n)).
  - apply (Hg a (λ o, so_setState o k v)).
  - apply (Hg a (λ o, so_setCode o h c)).
  - intros (m & _ & [= <-])%res_bind_Ok. done.
  - intros (al & _ & [= <-])%res_bind_Ok. done.
Qed.

Lemma undo_book es s s' :
  undo es s = Ok s' →
  entries (sdb_journal s') = entries (sdb_journal s) ∧ validRevisions s' = validRevisions s
  ∧ nextRevisionId s' = nextRevisionId s.
Proof.
  revert s'. induction es as [|e es IH]; intros s'; simpl; [by intros [= <-]|].
  intros (s1 & H1 & H2)%res_bind_Ok. apply res_bind_Ok in H2 as (s2 & H2 & [= <-]).
  apply entry_revert_book in H2 as (Hj & Hv & Hn). destruct (IH s1 H1) as (? & ? & ?). simpl.
  rewrite <- Hj in *. split_and!; try congruence. unfold journal_undirty.
  by destruct (dirtied e).
Qed.

End revert.
