(* ===== verification/StateSteps.v ===== *)
(** * Every operation of the state database can be undone

    [step_ok s s' es] says that a step from [s] to [s'] appended the entries [es] and
    that undoing them gives a database equal to [s].  It is proved for every journalled
    operation, together with the fact that the operation respects the equality. *)

From S2P Require Import Prelude Bytes RlpEncode RlpRaw Common AccessList.
From S2P Require Import StateDB StateEquiv StateRevert.

Section steps.
Context {Cr : Crypto} {DB : Database}.
Implicit Types (s t : StateDB) (o : StateObject) (a : Address) (k : Hash) (e : journalEntry).

Infix "≡ₛ" := state_equiv (at level 70).

Record step_ok s s' (es : list journalEntry) : Prop := {
  st_entries : entries (sdb_journal s') = entries (sdb_journal s) ++ es;
  st_revs : validRevisions s' = validRevisions s;
  st_next : nextRevisionId s' = nextRevisionId s;
  st_wf : sdb_wf s';
  st_undo : ∃ s'', undo es s' = Ok s'' ∧ s'' ≡ₛ s;
}.

Lemma step_quiet s s' : sdb_wf s → quiet s s' → step_ok s s' [].
Proof.
  intros Hs Hq. pose proof (quiet_wf _ _ Hq Hs). destruct Hq. constructor; try done.
  - by rewrite app_nil_r, q_journal.
  - by exists s'.
Qed.

Lemma step_trans s s1 s2 es es' :
  step_ok s s1 es → step_ok s1 s2 es' → step_ok s s2 (es ++ es').
Proof.
  intros [He Hv Hn Hw (u & Hu & Hus)] [He' Hv' Hn' Hw' (u' & Hu' & Hus')].
  constructor; [by rewrite He', He, app_assoc | congruence | congruence | done |].
  rewrite undo_app, Hu'. simpl.
  assert (cache_wf u') as Hc by (eapply undo_cache; [apply Hw'|done]).
  pose proof (undo_equiv es u' s1 Hc Hus') as H. rewrite Hu in H.
  destruct (undo es u') as [u''|]; simpl in H; [|done]. exists u''. split; [done|]. by etrans.
Qed.

(** ** One entry *)

Lemma append_dirties s e b :
  dirties (sdb_journal (append s e)) !! b
  = match dirtied e with
    | Some a => if decide (a = b) then Some (default 0 (dirties (sdb_journal s) !! a) + 1)
                else dirties (sdb_journal s) !! b
    | None => dirties (sdb_journal s) !! b
    end.
Proof.
  unfold append, journal_append, journal_dirty; simpl. destruct (dirtied e) as [a|]; simpl; [|done].
  case_decide as Hab; [subst b; by rewrite lookup_insert_eq | by rewrite lookup_insert_ne].
Qed.

Lemma append_entries s e : entries (sdb_journal (append s e)) = entries (sdb_journal s) ++ [e].
Proof. unfold append, journal_append. simpl. by destruct (dirtied e). Qed.

Lemma core_wf_append s e : core_wf s → core_wf (append s e).
Proof.
  intros (Hal & Hd & Hl). split_and!; [done| |done]. intros b n Hb. rewrite append_dirties.
  destruct (dirtied e) as [a|]; [|eauto]. case_decide as Hab; [subst b|eauto].
  intros [= <-]. destruct (dirties (sdb_journal s) !! a) eqn:E; simpl; [|lia].
  apply Hd in E; [lia|done].
Qed.

(** Dropping the mark of the entry just appended. *)
Lemma undirty_append s e b :
  core_wf s → b ≠ ripemd →
  dirties (journal_undirty (sdb_journal (append s e)) e) !! b = dirties (sdb_journal s) !! b.
Proof.
  intros (_ & Hd & _) Hb. pose proof (append_dirties s e) as Ha. unfold journal_undirty.
  destruct (dirtied e) as [a|]; [|apply Ha]. destruct (decide (a = b)) as [<-|Hab].
  - rewrite (Ha a), decide_True by done. simpl.
    destruct (dirties (sdb_journal s) !! a) as [n|] eqn:E; simpl.
    + specialize (Hd a n Hb E). destruct (Z.eqb_spec (n + 1 - 1) 0); [lia|]. simpl.
      rewrite lookup_insert_eq. f_equal. lia.
    + by rewrite lookup_delete_eq.
  - simpl. destruct (_ =? 0); rewrite ?lookup_delete_ne, ?lookup_insert_ne by done;
      rewrite Ha; by rewrite decide_False.
Qed.

(** A step that appends one entry, up to the explicit mark of RIPEMD. *)
Lemma step_entry_mark s s' s'' e :
  core_wf s → entries (sdb_journal s') = entries (sdb_journal (append s e)) →
  (∀ b, b ≠ ripemd →
    dirties (sdb_journal s') !! b = dirties (sdb_journal (append s e)) !! b) →
  validRevisions s' = validRevisions s →
  nextRevisionId s' = nextRevisionId s → sdb_wf s' → entry_revert e s' = Ok s'' →
  set_journal s'' (sdb_journal s) ≡ₛ s → step_ok s s' [e].
Proof.
  intros Hk Hj Hm Hv Hn Hw He Hs. constructor; [rewrite Hj; apply append_entries | done..|].
  simpl. unfold revert_step. rewrite He. simpl. eexists. split; [done|]. etrans; [|exact Hs].
  pose proof (entry_revert_book _ _ _ He) as (Hj' & _ & _).
  apply set_journal_equiv; [apply state_equiv_refl|]. intros b Hb. rewrite Hj'.
  rewrite (undirty_ext _ (sdb_journal (append s e))) by done. by apply undirty_append.
Qed.

Lemma step_entry s s' s'' e :
  core_wf s → sdb_journal s' = sdb_journal (append s e) → validRevisions s' = validRevisions s →
  nextRevisionId s' = nextRevisionId s → sdb_wf s' → entry_revert e s' = Ok s'' →
  set_journal s'' (sdb_journal s) ≡ₛ s → step_ok s s' [e].
Proof. intros Hk Hj. apply step_entry_mark; [done|by rewrite Hj|]. intros. by rewrite Hj. Qed.

(** A change of the object at [a], undone by [g]. *)
Lemma step_object s a o o1 e (g : StateObject → StateObject) :
  sdb_wf s → stateObjects s !! a = Some o → deleted o1 = false → so_address o1 = so_address o →
  (∀ st obj st', getStateObject st a = (Some obj, st') → entry_revert e st = Ok (put st' a (g obj))) →
  obj_equiv s (g o1) o → step_ok s (put (append s e) a o1) [e].
Proof.
  intros [Hc Hk] Ho Hd Ha Hg He.
  assert (getStateObject (put (append s e) a o1) a = (Some o1, put (append s e) a o1)) as Hget.
  { unfold getStateObject, getDeletedStateObject; simpl. by rewrite lookup_insert_eq, Hd. }
  eapply step_entry; [done|done|done|done| |by apply Hg|].
  - split; [apply cache_wf_put; [rewrite Ha; by apply Hc | done] | by apply (core_wf_append s e)].
  - etrans; [|apply (equiv_put_self s a o (g o1)); [by apply peek_cached|done]].
    apply state_equiv_ext; try done. intros b. simpl. by rewrite insert_insert_eq.
Qed.

(** ** Creating objects *)

Definition blank (a : Address) : StateObject := newObject a (mkStateAccount 0 None 0 None).

Lemma create_absent_step s a :
  sdb_wf s → stateObjects s !! a = None →
  step_ok s (setStateObject (append s (createObjectChange a)) (blank a)) [createObjectChange a].
Proof.
  intros [Hc Hk] Ho. eapply step_entry; [done|done|done|done| |done|].
  - split; [by apply cache_wf_put | by apply (core_wf_append s (createObjectChange a))].
  - apply state_equiv_ext; try done; simpl.
    + apply leibniz_equiv. intros b. rewrite elem_of_difference, elem_of_singleton.
      split; [tauto|]. intros Hb. split; [done|]. intros ->. destruct (proj2 Hc a Hb). congruence.
    + intros b. change (so_address (blank a)) with a. by rewrite delete_insert_id.
Qed.

(** The entry of a reset of the object [p] at [a], and the database before the new
    object is put. *)
Definition reset_entry s a (p : StateObject) : journalEntry :=
  let hasSnap := bool_decide (is_Some (snap s)) in
  resetObjectChange a p (bool_decide (so_address p ∈ stateObjectsDestruct s))
    (if hasSnap then snapAccounts s !! so_addrHash p else None)
    (if hasSnap then snapStorage s !! so_addrHash p else None).

Definition reset_state s a (p : StateObject) : StateDB :=
  let s1 := set_marks s (stateObjectsPending s) (stateObjectsDirty s)
              ({[ so_address p ]} ∪ stateObjectsDestruct s) in
  append (if bool_decide (is_Some (snap s))
          then set_snaps s1 (delete (so_addrHash p) (snapAccounts s))
                 (delete (so_addrHash p) (snapStorage s)) else s1)
    (reset_entry s a p).

Lemma restore_deleted {A} (m : gmap Hash A) k :
  match m !! k with Some x => <[k := x]> (delete k m) | None => delete k m end = m.
Proof.
  destruct (m !! k) as [x|] eqn:E; [by apply insert_delete_id | by apply delete_id].
Qed.

Lemma reset_step s a p :
  sdb_wf s → stateObjects s !! a = Some p →
  step_ok s (setStateObject (reset_state s a p) (blank a)) [reset_entry s a p].
Proof.
  intros [Hc Hk] Ho. assert (so_address p = a) as Ha by (by apply Hc).
  eapply step_entry; [done| | | | |done|].
  1-3: unfold reset_state; by destruct (bool_decide (is_Some (snap s))).
  - unfold reset_state. split; [apply cache_wf_put; [done|]|];
      destruct (bool_decide (is_Some (snap s))); try done; by apply (core_wf_append s (reset_entry s a p)).
  - unfold reset_state, reset_entry.
    destruct (bool_decide (is_Some (snap s))); case_bool_decide;
      apply state_equiv_ext; try done; simpl; try apply restore_deleted;
      try (apply leibniz_equiv; set_solver);
      intros b; change (so_address (blank a)) with a; rewrite Ha, insert_insert_eq; by rewrite insert_id.
Qed.

Lemma createObject_eq s a :
  createObject s a
  = let '(prev, s1) := getDeletedStateObject s a in
    (blank a, live prev,
     setStateObject (match prev with None => append s1 (createObjectChange a)
                     | Some p => reset_state s1 a p end) (blank a)).
Proof.
  unfold createObject. destruct (getDeletedStateObject s a) as [[p|] s1]; [|done].
  unfold reset_state, reset_entry. simpl. by destruct (bool_decide (is_Some (snap s1))).
Qed.

Lemma createObject_step s a o prev s' :
  sdb_wf s → createObject s a = (o, prev, s') →
  o = blank a ∧ prev = live (peek s a) ∧ stateObjects s' !! a = Some o ∧ ∃ es, step_ok s s' es.
Proof.
  intros Hs. rewrite createObject_eq. destruct (getDeletedStateObject s a) as [r s1] eqn:E.
  apply getDeletedStateObject_spec in E as (-> & Ho & Hq).
  intros H; injection H as <- <- <-. split_and!; [done..| |].
  { simpl. by rewrite lookup_insert_eq. }
  pose proof (quiet_wf _ _ Hq Hs) as Hs1. apply step_quiet in Hq; [|done].
  destruct (peek s a) as [p|]; eexists; (eapply step_trans; [exact Hq|]).
  - by apply reset_step.
  - by apply create_absent_step.
Qed.

Lemma GetOrNewStateObject_step s a o s' :
  sdb_wf s → GetOrNewStateObject s a = (o, s') →
  stateObjects s' !! a = Some o ∧ deleted o = false ∧ ∃ es, step_ok s s' es.
Proof.
  intros Hs. unfold GetOrNewStateObject. destruct (getStateObject s a) as [r s1] eqn:E.
  apply getStateObject_spec in E as (-> & Ho & Hq). destruct (live (peek s a)) as [p|] eqn:El.
  - intros H; injection H as <- <-. apply live_Some in El as [El Hd]. rewrite El in Ho.
    split_and!; [done..|]. exists []. by apply step_quiet.
  - destruct (createObject s1 a) as [[o1 pr] s2] eqn:Ec. intros H; injection H as <- <-.
    apply createObject_step in Ec as (-> & _ & Hl & es & Hes); [|by eapply quiet_wf].
    split_and!; [done..|]. eexists. eapply step_trans; [by apply step_quiet|done].
Qed.

(** ** Setters through an object *)

Lemma modify_step s a f :
  sdb_wf s →
  (∀ s o, sdb_wf s → stateObjects s !! a = Some o → deleted o = false → so_address o = a →
     ∃ es, step_ok s (put (f s o).1 a (f s o).2) es) →
  ∃ es, step_ok s (on_object s a f) es.
Proof.
  intros Hs Hf. unfold on_object. destruct (GetOrNewStateObject s a) as [o s1] eqn:E.
  apply GetOrNewStateObject_step in E as (Ho & Hd & es & Hes); [|done].
  assert (sdb_wf s1) as Hs1 by apply Hes.
  destruct (Hf s1 o) as [es' Hes']; [done..|by apply Hs1|]. destruct (f s1 o) as [s2 o2].
  eexists. eapply step_trans; [exact Hes|exact Hes'].
Qed.

Lemma setBalance_undo o b : so_setBalance (so_setBalance o b) (d_Balance (so_data o)) = o.
Proof. by destruct o as [?? [] ?????? ??]. Qed.

Lemma setNonce_undo o n : so_setNonce (so_setNonce o n) (d_Nonce (so_data o)) = o.
Proof. by destruct o as [?? [] ?????? ??]. Qed.

Lemma so_SetBalance_step s a o amount :
  sdb_wf s → stateObjects s !! a = Some o → deleted o = false → so_address o = a →
  ∃ es, step_ok s (put (so_SetBalance s o amount).1 a (so_SetBalance s o amount).2) es.
Proof.
  intros Hs Ho Hd Ha. eexists. simpl.
  apply (step_object s a o _ _ (λ p, so_setBalance p (d_Balance (so_data o)))); try done.
  - intros st p st' Hg. simpl. by rewrite Ha, Hg.
  - rewrite setBalance_undo. apply obj_equiv_refl.
Qed.

Lemma so_SetNonce_step s a o n :
  sdb_wf s → stateObjects s !! a = Some o → deleted o = false → so_address o = a →
  ∃ es, step_ok s (put (so_SetNonce s o n).1 a (so_SetNonce s o n).2) es.
Proof.
  intros Hs Ho Hd Ha. eexists. simpl.
  apply (step_object s a o _ _ (λ p, so_setNonce p (d_Nonce (so_data o)))); try done.
  - intros st p st' Hg. simpl. by rewrite Ha, Hg.
  - rewrite setNonce_undo. apply obj_equiv_refl.
Qed.

(** The touch of an empty account: the entry undoes nothing. *)
Lemma so_touch_step s a o :
  sdb_wf s → stateObjects s !! a = Some o → so_address o = a →
  ∃ es, step_ok s (put (so_touch s o) a o) es.
Proof.
  intros [Hc Hk] Ho Ha. exists [touchChange a]. unfold so_touch. rewrite Ha.
  assert (∀ s', stateObjects s' = stateObjects s → stateObjectsDirty s' = stateObjectsDirty s →
    cache_wf (put s' a o)) as Hput.
  { intros s' H1 H2. apply cache_wf_put; [done|]. unfold cache_wf. by rewrite H1, H2. }
  pose proof (core_wf_append s (touchChange a) Hk) as (Hal & Hd & Hl).
  destruct (Z.eqb_spec a ripemd) as [Hr|Hr]; eapply step_entry_mark; try done.
  - intros b Hb. cbn. rewrite lookup_insert_ne by congruence. done.
  - split; [by apply Hput|]. split_and!; [done| |done].
    intros b n Hb. cbn. rewrite lookup_insert_ne by congruence. by apply Hd.
  - apply state_equiv_ext; try done. intros b. simpl. by rewrite insert_id.
  - split; [by apply Hput|done].
  - apply state_equiv_ext; try done. intros b. simpl. by rewrite insert_id.
Qed.

Lemma put_same_step s a o :
  sdb_wf s → stateObjects s !! a = Some o → ∃ es, step_ok s (put s a o) es.
Proof.
  intros Hs Ho. exists []. apply step_quiet; [done|]. eapply quiet_put; [done|apply obj_equiv_refl].
Qed.

Lemma AddBalance_step s a amount : sdb_wf s → ∃ es, step_ok s (AddBalance s a amount) es.
Proof.
  intros Hs. apply modify_step; [done|]. clear s Hs. intros s o Hs Ho Hd Ha. unfold so_AddBalance.
  destruct (amount =? 0); [|by apply so_SetBalance_step].
  destruct (so_empty o); [by apply so_touch_step | by apply put_same_step].
Qed.

Lemma SubBalance_step s a amount : sdb_wf s → ∃ es, step_ok s (SubBalance s a amount) es.
Proof.
  intros Hs. apply modify_step; [done|]. clear s Hs. intros s o Hs Ho Hd Ha. unfold so_SubBalance.
  destruct (amount =? 0); [by apply put_same_step | by apply so_SetBalance_step].
Qed.

Lemma SetBalance_step s a amount : sdb_wf s → ∃ es, step_ok s (SetBalance s a amount) es.
Proof. intros Hs. apply modify_step; [done|]. intros. by apply so_SetBalance_step. Qed.

Lemma SetNonce_step s a n : sdb_wf s → ∃ es, step_ok s (SetNonce s a n) es.
Proof. intros Hs. apply modify_step; [done|]. intros. by apply so_SetNonce_step. Qed.

(** A read of the object followed by a change of it. *)
Lemma read_object_step s s1 a o o1 o2 e (g : StateObject → StateObject) :
  sdb_wf s → stateObjects s !! a = Some o → obj_equiv s o1 o → only_error s s1 →
  deleted o2 = false → so_address o2 = so_address o →
  (∀ st obj st', getStateObject st a = (Some obj, st') → entry_revert e st = Ok (put st' a (g obj))) →
  obj_equiv s (g o2) o1 → ∃ es, step_ok s (put (append s1 e) a o2) es.
Proof.
  intros Hs Ho Ho1 Hs1 Hd Ha Hg He. pose proof (quiet_read _ _ _ _ _ Ho Ho1 Hs1) as Hq.
  exists ([] ++ [e]). apply (step_trans _ (put s1 a o1)); [by apply step_quiet|].
  replace (put (append s1 e) a o2) with (put (append (put s1 a o1) e) a o2).
  2:{ unfold put, append, set_objects, set_journal; simpl. by rewrite insert_insert_eq. }
  apply (step_object _ a o1 o2 e g); try done.
  - by eapply quiet_wf.
  - simpl. by rewrite lookup_insert_eq.
  - by rewrite Ha, (oe_address _ _ _ Ho1).
  - eapply obj_equiv_reads; [|exact He]. apply same_reads_sym, state_equiv_reads, Hq.
Qed.

Lemma SetCode_step s a code : sdb_wf s → ∃ es, step_ok s (SetCode s a code) es.
Proof.
  intros Hs. apply modify_step; [done|]. clear s Hs. intros s o Hs Ho Hd Ha. unfold so_SetCode.
  destruct (so_Code s o) as [[prev o1] s1] eqn:E. apply so_Code_reads in E as (-> & He & Hs1 & _).
  assert (so_address o1 = a) as Ha1 by (by rewrite (oe_address _ _ _ He)).
  eapply (read_object_step s s1 a o o1 _ _ (λ p, so_setCode p (d_CodeHash (so_data o1)) (code_of s o)));
    try done; simpl.
  - by rewrite (oe_deleted _ _ _ He).
  - apply He.
  - intros st p st' Hg. by rewrite Ha1, Hg.
  - rewrite <- (oe_code _ _ _ He). constructor; try done.
    + by destruct o1 as [?? [] ?????? ??].
    + unfold code_of, so_Code; simpl. destruct (so_code o1); [done|]. destruct (_ =? _); [done|].
      by destruct (ContractCode _ _).
    + intros k. by rewrite !committed_setCode.
    + intros k. rewrite !state_of_spec. by rewrite !committed_setCode.
Qed.

Lemma SetState_step s a k v : sdb_wf s → ∃ es, step_ok s (SetState s a k v) es.
Proof.
  intros Hs. apply modify_step; [done|]. clear s Hs. intros s o Hs Ho Hd Ha. unfold so_SetState.
  destruct (so_GetState s o k) as [[prev o1] s1] eqn:E. apply so_GetState_reads in E as (-> & He & Hs1 & _).
  destruct (_ =? _).
  { exists []. apply step_quiet; [done|]. by eapply quiet_read. }
  assert (so_address o1 = a) as Ha1 by (by rewrite (oe_address _ _ _ He)).
  eapply (read_object_step s s1 a o o1 _ _ (λ p, so_setState p k (state_of s o k))); try done; simpl.
  - by rewrite (oe_deleted _ _ _ He).
  - apply He.
  - intros st p st' Hg. by rewrite Ha1, Hg.
  - constructor; try done.
    + by apply code_of_ext.
    + intros k'. by rewrite !committed_setState.
    + intros k'. rewrite !state_setState, <- (oe_state _ _ _ He). by destruct (decide (k = k')) as [<-|].
Qed.

Lemma suicide_undo o : so_setBalance (with_flags (so_setBalance (so_markSuicided o) 0) (suicided o)
  (deleted (so_setBalance (so_markSuicided o) 0))) (d_Balance (so_data o)) = o.
Proof. by destruct o as [?? [] ?????? ??]. Qed.

Lemma SelfDestruct_step s a : sdb_wf s → ∃ es, step_ok s (SelfDestruct s a) es.
Proof.
  intros Hs. unfold SelfDestruct. destruct (getStateObject s a) as [r s1] eqn:E.
  apply getStateObject_spec in E as (-> & Ho & Hq). pose proof (quiet_wf _ _ Hq Hs) as Hs1.
  apply step_quiet in Hq; [|done]. destruct (live (peek s a)) as [o|] eqn:El; [|eauto].
  apply live_Some in El as [El Hd]. rewrite El in Ho.
  eexists. eapply step_trans; [exact Hq|].
  apply (step_object s1 a o _ _ (λ p, so_setBalance (with_flags p (suicided o) (deleted p)) (d_Balance (so_data o))));
    try done.
  - intros st p st' Hg. simpl. by rewrite Hg.
  - rewrite suicide_undo. apply obj_equiv_refl.
Qed.

Lemma Selfdestruct6780_step s a : sdb_wf s → ∃ es, step_ok s (Selfdestruct6780 s a) es.
Proof.
  intros Hs. unfold Selfdestruct6780. destruct (getStateObject s a) as [r s1] eqn:E.
  apply getStateObject_spec in E as (-> & Ho & Hq). pose proof (quiet_wf _ _ Hq Hs) as Hs1.
  apply step_quiet in Hq; [|done]. destruct (live (peek s a)) as [o|]; [|eauto].
  destruct (suicided o); [eauto|]. destruct (SelfDestruct_step s1 a Hs1) as [es Hes].
  eexists. eapply step_trans; [exact Hq|exact Hes].
Qed.

(** Undoing a reset does not look at the object it replaces. *)
Lemma reset_entry_put s s1 a p o :
  so_address p = a →
  entry_revert (reset_entry s a p) (put s1 a o) = entry_revert (reset_entry s a p) s1.
Proof.
  intros <-. unfold reset_entry, entry_revert, setStateObject, put, set_objects; simpl.
  by rewrite insert_insert_eq.
Qed.

(** The balance carried over is part of the reset, which undoes it. *)
Lemma CreateAccount_step s a : sdb_wf s → ∃ es, step_ok s (CreateAccount s a) es.
Proof.
  intros Hs. unfold CreateAccount. destruct (createObject s a) as [[o pr] s1] eqn:E.
  pose proof E as E'. apply createObject_step in E as (-> & -> & Ho & es & Hes); [|done].
  destruct (live (peek s a)) as [p|] eqn:El; [|eauto].
  apply live_Some in El as [El Hd]. rewrite createObject_eq in E'.
  destruct (getDeletedStateObject s a) as [r s2] eqn:E.
  apply getDeletedStateObject_spec in E as (-> & Ho2 & Hq). rewrite El in *.
  injection E' as _ <-. pose proof (quiet_wf _ _ Hq Hs) as Hs2.
  pose proof (reset_step s2 a p Hs2 Ho2) as [He Hv Hn Hw (u & Hu & Hus)].
  eexists. eapply step_trans; [by apply step_quiet|]. constructor; [exact He|done|done| |].
  - destruct Hw as [Hc Hk]. split; [by apply cache_wf_put|done].
  - exists u. split; [|done]. rewrite <- Hu. simpl. unfold revert_step.
    by rewrite reset_entry_put by (by apply Hs2).
Qed.

(** ** Steps outside the accounts *)

(** The cache and the well-formedness of a step that leaves the accounts alone. *)
Lemma aux_wf s s' :
  sdb_wf s → stateObjects s' = stateObjects s → stateObjectsDirty s' = stateObjectsDirty s →
  core_wf s' → sdb_wf s'.
Proof. intros [Hc _] H1 H2 Hk. split; [|done]. unfold cache_wf. by rewrite H1, H2. Qed.

Lemma SetTransientState_step s a k v : sdb_wf s → ∃ es, step_ok s (SetTransientState s a k v) es.
Proof.
  intros Hs. unfold SetTransientState. destruct (_ =? _).
  { exists []. apply step_quiet; [done|apply quiet_refl]. }
  eexists. eapply step_entry; [apply Hs|done|done|done| |done|].
  - apply (aux_wf s); try done. apply core_wf_append, Hs.
  - apply state_equiv_ext; try done. intros b k'. unfold GetTransientState; simpl.
    rewrite !transient_Get_Set. case_decide as H; [|done]. by destruct H as [-> ->].
Qed.

Lemma AddPreimage_step s h pi : sdb_wf s → ∃ es, step_ok s (AddPreimage s h pi) es.
Proof.
  intros Hs. unfold AddPreimage. destruct (preimages s !! h) eqn:E.
  { exists []. apply step_quiet; [done|apply quiet_refl]. }
  eexists. eapply step_entry; [apply Hs|done|done|done| |done|].
  - apply (aux_wf s); try done. apply core_wf_append, Hs.
  - apply state_equiv_ext; try done. simpl. by rewrite delete_insert_id.
Qed.

Lemma refund_step s r :
  sdb_wf s → step_ok s (set_refund (append s (refundChange (refund s))) r) [refundChange (refund s)].
Proof.
  intros Hs. eapply step_entry; [apply Hs|done|done|done| |done|].
  - apply (aux_wf s); try done. apply core_wf_append, Hs.
  - by apply state_equiv_ext.
Qed.

Lemma AddRefund_step s gas : sdb_wf s → ∃ es, step_ok s (AddRefund s gas) es.
Proof. intros Hs. eexists. by apply refund_step. Qed.

Lemma SubRefund_step s gas s' : sdb_wf s → SubRefund s gas = Ok s' → ∃ es, step_ok s s' es.
Proof.
  intros Hs. unfold SubRefund. destruct (_ <? _); [done|]. intros [= <-].
  eexists. by apply refund_step.
Qed.

Lemma AddLog_step s l : sdb_wf s → ∃ es, step_ok s (AddLog s l) es.
Proof.
  intros Hs. unfold AddLog.
  set (l' := mkLog _ _ _ _ _ _ _ _ _). simpl. set (ls := default [] (logs s !! thash s)).
  assert (∃ m, entry_revert (addLogChange (thash s))
      (set_logs (append s (addLogChange (thash s))) (<[thash s:=ls ++ [l']]> (logs s)) (logSize s + 1)%u64)
      = Ok (set_logs (append s (addLogChange (thash s))) m (logSize s))
    ∧ ∀ h, default [] (m !! h) = default [] (logs s !! h)) as (m & Hm & Hl).
  { assert (u64 (u64 (logSize s + 1) - 1) = logSize s) as Hn.
    { u64_norm. replace (logSize s + 1 - 1) with (logSize s) by lia. apply u64_id, Hs. }
    cbn [entry_revert logs set_logs logSize]. rewrite lookup_insert_eq, Hn.
    change (default [] (Some (ls ++ [l']))) with (ls ++ [l']). rewrite length_app. simpl.
    case_bool_decide as Hlen; simpl.
    - eexists. split; [done|]. intros h. rewrite delete_insert_eq. destruct (decide (thash s = h)) as [<-|].
      + rewrite lookup_delete_eq. fold ls. destruct ls; simpl in *; [done|lia].
      + by rewrite lookup_delete_ne.
    - unfold go_take. rewrite length_app. simpl.
      destruct (Z.ltb_spec (Z.of_nat (length ls + 1) - 1) 0); [lia|].
      destruct (Z.ltb_spec (Z.of_nat (length ls + 1)) (Z.of_nat (length ls + 1) - 1)); [lia|]. simpl.
      eexists. split; [done|]. intros h. rewrite insert_insert_eq.
      replace (Z.to_nat (Z.of_nat (length ls + 1) - 1)) with (length ls) by lia. rewrite take_app_length.
      destruct (decide (thash s = h)) as [<-|]; [by rewrite lookup_insert_eq | by rewrite lookup_insert_ne]. }
  eexists. eapply step_entry; [apply Hs|done|done|done| |exact Hm|].
  - apply (aux_wf s); try done. destruct (core_wf_append s (addLogChange (thash s)) (proj2 Hs)) as (?&?&?).
    split_and!; [done..|apply u64_range].
  - by apply state_equiv_ext.
Qed.

Lemma access_list_step s al e :
  sdb_wf s → al_wf al → dirtied e = None →
  (∀ st, sdb_AccessList st = al → entry_revert e st = Ok (set_AccessList st (sdb_AccessList s))) →
  step_ok s (append (set_AccessList s al) e) [e].
Proof.
  intros Hs Hal He Hr. eapply step_entry; [apply Hs|done|done|done| |by apply Hr|].
  - apply (aux_wf s); try done. destruct (core_wf_append s e (proj2 Hs)) as (?&?&?). by split_and!.
  - by apply state_equiv_ext.
Qed.

Lemma AddAddressToAccessList_step s a : sdb_wf s → ∃ es, step_ok s (AddAddressToAccessList s a) es.
Proof.
  intros Hs. unfold AddAddressToAccessList.
  pose proof (AddAddress_wf (sdb_AccessList s) a (proj1 (proj2 Hs))) as (_ & Hw & _ & _).
  pose proof (AddAddress_undo (sdb_AccessList s) a) as Hu. 
  destruct (AddAddress (sdb_AccessList s) a) as [[] al] eqn:E; simpl in *.
  - eexists. apply access_list_step; try done. intros st Hst. simpl. by rewrite Hst, Hu.
  - assert (al = sdb_AccessList s) as ->.
    { unfold AddAddress in E. destruct (Addresses _ !! a); by injection E. }
    exists []. replace (set_AccessList s _) with s by (by destruct s).
    apply step_quiet; [done|apply quiet_refl].
Qed.

(** Adding a slot of an absent address is adding the address, then the slot. *)
Lemma AddSlotToAccessList_step s a k s' :
  sdb_wf s → AddSlotToAccessList s a k = Ok s' → ∃ es, step_ok s s' es.
Proof.
  intros Hs. unfold AddSlotToAccessList. set (al := sdb_AccessList s).
  assert (al_wf al) as Hal by apply Hs.
  destruct (AddSlot_cases al a k Hal)
    as [[Ha ->]|[[Ha ->]|[(i & sm & Ha & Hi & Hsm & Hh & ->)|(i & sm & Ha & Hi & Hsm & Hh & ->)]]];
    simpl; intros [= <-].
  - set (al1 := (AddAddress al a).2).
    assert (al1 = mkAccessList (<[a := -1]> (Addresses al)) (Slots al)) as Hal1
      by (unfold al1, AddAddress; by rewrite Ha).
    assert (step_ok s (append (set_AccessList s al1) (accessListAddAccountChange a)) [accessListAddAccountChange a]) as H1.
    { apply access_list_step; [done|by apply AddAddress_wf|done|]. intros st Hst. simpl.
      rewrite Hst. unfold al1. rewrite AddAddress_undo; [done|]. unfold AddAddress. by rewrite Ha. }
    eexists. eapply step_trans; [exact H1|].
    apply (access_list_step (append (set_AccessList s al1) (accessListAddAccountChange a)) (push_slot al a k));
      [apply H1|apply push_slot_wf; [done|congruence]|done|]. intros st Hst. simpl.
    by rewrite Hst, DeleteSlot_push, Hal1.
  - eexists. apply access_list_step; [done|apply push_slot_wf; [done|congruence]|done|].
    intros st Hst. simpl. rewrite Hst, DeleteSlot_push. simpl. rewrite insert_id by done.
    subst al. by destruct (sdb_AccessList s).
  - exists []. replace (set_AccessList s al) with s by (by destruct s).
    apply step_quiet; [done|apply quiet_refl].
  - eexists. apply access_list_step; [done|apply set_slotmap_wf; set_solver|done|].
    intros st Hst. simpl. rewrite Hst.
    assert (AddSlot al a k = Ok (false, true, set_slotmap al i ({[k]} ∪ sm))) as Hadd.
    { unfold AddSlot. rewrite Ha. rewrite bool_decide_false by naive_solver. simpl.
      destruct (wf_lookup al a i Hal Ha Hi) as (sm' & Hsm' & Hgo & _). rewrite Hgo.
      replace sm' with sm by congruence. simpl. by rewrite bool_decide_false. }
    apply AddSlot_undo in Hadd; [|done]. unfold undo_AddSlot in Hadd.
    destruct (DeleteSlot _ _ _); simpl in *; [by injection Hadd as -> | done].
Qed.

End steps.
