(* ===== verification/StateRefine.v ===== *)
(** * Snapshots of the state database

    [RevertToSnapshot] replays the journal backwards.  The file shows that this
    implements the obvious machine that keeps a copy of the state for every snapshot:
    the two give the same answers to every sequence of operations. *)

From S2P Require Import Prelude Bytes RlpEncode RlpRaw Common AccessList.
From S2P Require Import StateDB StateEquiv StateRevert StateSteps.

Section refine.
Context {Cr : Crypto} {DB : Database}.
Implicit Types (s t : StateDB) (o : StateObject) (a : Address) (k : Hash) (e : journalEntry).

Infix "≡ₛ" := state_equiv (at level 70).

(** ** Operations respect the equality *)

Ltac frame H := apply (equiv_frame _ _ _ _ H); destruct H; [by split_and!|by split_and!|..]; try done.

Lemma append_equiv s t e e' : s ≡ₛ t → dirtied e = dirtied e' → append s e ≡ₛ append t e'.
Proof.
  intros H Hd. frame H. intros b Hb. rewrite !append_dirties, <- Hd.
  destruct (dirtied e) as [a|]; [|auto]. case_decide; [subst; by rewrite se_dirties|auto].
Qed.

(** What a reset leaves alone. *)
Lemma reset_state_rest s a p :
  let r := reset_state s a p in
  (sdb_trie r = sdb_trie s ∧ originalRoot r = originalRoot s ∧ snap r = snap s
   ∧ stateObjects r = stateObjects s ∧ stateObjectsPending r = stateObjectsPending s
   ∧ stateObjectsDirty r = stateObjectsDirty s
   ∧ stateObjectsDestruct r = {[so_address p]} ∪ stateObjectsDestruct s)
  ∧ (refund r = refund s ∧ thash r = thash s ∧ txIndex r = txIndex s ∧ logs r = logs s
     ∧ logSize r = logSize s ∧ preimages r = preimages s ∧ sdb_AccessList r = sdb_AccessList s
     ∧ sdb_transient r = sdb_transient s
     ∧ sdb_journal r = sdb_journal (append s (reset_entry s a p))).
Proof. unfold reset_state. by destruct (bool_decide (is_Some (snap s))). Qed.

Lemma reset_state_snaps s a p :
  snapAccounts (reset_state s a p) = (if bool_decide (is_Some (snap s))
    then delete (so_addrHash p) (snapAccounts s) else snapAccounts s)
  ∧ snapStorage (reset_state s a p) = (if bool_decide (is_Some (snap s))
    then delete (so_addrHash p) (snapStorage s) else snapStorage s).
Proof. unfold reset_state. by destruct (bool_decide (is_Some (snap s))). Qed.

Lemma reset_equiv s t a p p' :
  cache_wf s → s ≡ₛ t → so_address p = a → obj_equiv s p p' →
  setStateObject (reset_state s a p) (blank a) ≡ₛ setStateObject (reset_state t a p') (blank a).
Proof.
  intros Hc Hst Ha Hp. pose proof Hst as []. destruct Hp as [Hpa Hph _ _ _ _ _ _].
  destruct (reset_state_rest s a p) as [(Ht1&Hr1&Hs1&Ho1&Hp1&Hd1&He1) (?&?&?&?&?&?&?&Htr1&Hj1)].
  destruct (reset_state_rest t a p') as [(Ht2&Hr2&Hs2&Ho2&Hp2&Hd2&He2) (?&?&?&?&?&?&?&Htr2&Hj2)].
  destruct (reset_state_snaps s a p) as [Hsa1 Hss1], (reset_state_snaps t a p') as [Hsa2 Hss2].
  rewrite se_snap, Hph in Hsa1, Hss1.
  set (r := reset_state s a p) in *. set (r' := reset_state t a p') in *. clearbody r r'.
  constructor; simpl; try congruence.
  - by rewrite Hsa1, Hsa2, se_snapAccounts.
  - by rewrite Hss1, Hss2, se_snapStorage.
  - intros b k. unfold GetTransientState; simpl. rewrite Htr1, Htr2. apply se_transient.
  - intros b Hb. rewrite Hj1, Hj2. by apply (append_equiv s t _ _ Hst).
  - intros b. unfold setStateObject. rewrite !peek_put. change (so_address (blank a)) with a.
    destruct (decide (a = b)) as [<-|Hne]; [constructor; apply obj_equiv_refl|].
    rewrite (peek_ext r s), (peek_ext r' t) by congruence.
    specialize (se_objects b). destruct (peek s b) as [o|] eqn:Eo; inversion se_objects; subst; constructor.
    apply (obj_equiv_reads_at s); simpl; [congruence..| |done].
    apply peek_address in Eo; [|done]. rewrite He1. set_solver.
Qed.

Lemma createObject_equiv s t a :
  cache_wf s → s ≡ₛ t → (createObject s a).2 ≡ₛ (createObject t a).2
  ∧ option_Forall2 (obj_equiv s) (createObject s a).1.2 (createObject t a).1.2.
Proof.
  intros Hc Hst. rewrite !createObject_eq.
  destruct (getDeletedStateObject s a) as [r s1] eqn:E, (getDeletedStateObject t a) as [r' t1] eqn:E'.
  apply getDeletedStateObject_spec in E as (-> & Ho & Hq).
  apply getDeletedStateObject_spec in E' as (-> & Ho' & Hq'). simpl.
  assert (s1 ≡ₛ t1) as Hst1 by (etrans; [apply Hq|]; etrans; [exact Hst|]; symmetry; apply Hq').
  split; [|apply live_equiv, Hst]. pose proof (se_objects _ _ Hst a) as Hp.
  destruct (peek s a) as [p|] eqn:Ep; inversion Hp as [? p' Hpp|]; subst; simpl.
  - apply reset_equiv; [by apply Hq|done|by apply (peek_address s)|].
    eapply obj_equiv_reads; [|done]. apply same_reads_sym, state_equiv_reads, Hq.
  - apply equiv_put; [by apply append_equiv|apply obj_equiv_refl].
Qed.

Lemma GetOrNewStateObject_equiv s t a :
  cache_wf s → s ≡ₛ t →
  (GetOrNewStateObject s a).2 ≡ₛ (GetOrNewStateObject t a).2
  ∧ obj_equiv (GetOrNewStateObject s a).2 (GetOrNewStateObject s a).1 (GetOrNewStateObject t a).1.
Proof.
  intros Hc Hst. unfold GetOrNewStateObject.
  pose proof (getStateObject_equiv s t a Hst) as [Hst1 Ho].
  destruct (getStateObject s a) as [r s1] eqn:E, (getStateObject t a) as [r' t1]; simpl in *.
  destruct Ho as [o o' Ho|]; [done|]. apply getStateObject_cache in E; [|done].
  pose proof (createObject_equiv s1 t1 a E Hst1) as [H _].
  rewrite !createObject_eq in *.
  destruct (getDeletedStateObject s1 a), (getDeletedStateObject t1 a); simpl in *.
  split; [done|apply obj_equiv_refl].
Qed.

Lemma modify_equiv s t a f :
  cache_wf s → s ≡ₛ t →
  (∀ s t o o', s ≡ₛ t → obj_equiv s o o' →
     (f s o).1 ≡ₛ (f t o').1 ∧ obj_equiv s (f s o).2 (f t o').2 ∧ same_reads s (f s o).1) →
  on_object s a f ≡ₛ on_object t a f.
Proof.
  intros Hc Hst Hf. unfold on_object. pose proof (GetOrNewStateObject_equiv s t a Hc Hst) as [Hst1 Ho].
  destruct (GetOrNewStateObject s a) as [o s1], (GetOrNewStateObject t a) as [o' t1]; simpl in *.
  destruct (Hf s1 t1 o o' Hst1 Ho) as (H1 & H2 & H3).
  destruct (f s1 o) as [s2 o2], (f t1 o') as [t2 o2']; simpl in *.
  apply equiv_put; [done|]. by eapply obj_equiv_reads.
Qed.

Lemma append_reads s e : same_reads s (append s e).
Proof. done. Qed.

Lemma so_SetBalance_equiv s t o o' b :
  s ≡ₛ t → obj_equiv s o o' →
  (so_SetBalance s o b).1 ≡ₛ (so_SetBalance t o' b).1
  ∧ obj_equiv s (so_SetBalance s o b).2 (so_SetBalance t o' b).2
  ∧ same_reads s (so_SetBalance s o b).1.
Proof.
  intros Hst Ho. split_and!; simpl.
  - apply append_equiv; [done|]. simpl. by rewrite (oe_address _ _ _ Ho).
  - by apply obj_equiv_setBalance.
  - apply append_reads.
Qed.

Lemma so_touch_equiv s t o o' :
  s ≡ₛ t → obj_equiv s o o' → so_touch s o ≡ₛ so_touch t o' ∧ same_reads s (so_touch s o).
Proof.
  intros Hst Ho. unfold so_touch. rewrite <- (oe_address _ _ _ Ho).
  assert (append s (touchChange (so_address o)) ≡ₛ append t (touchChange (so_address o))) as H
    by (by apply append_equiv).
  destruct (Z.eqb_spec (so_address o) ripemd) as [Hr|]; split; try done.
  apply set_journal_equiv; [done|]. intros b Hb. simpl. rewrite !lookup_insert_ne by congruence.
  by apply Hst.
Qed.

Lemma SetBalance_equiv s t a b : cache_wf s → s ≡ₛ t → SetBalance s a b ≡ₛ SetBalance t a b.
Proof. intros Hc Hst. apply modify_equiv; auto using so_SetBalance_equiv. Qed.

Lemma AddBalance_equiv s t a b : cache_wf s → s ≡ₛ t → AddBalance s a b ≡ₛ AddBalance t a b.
Proof.
  intros Hc Hst. apply modify_equiv; [done..|]. clear. intros s t o o' Hst Ho. unfold so_AddBalance.
  assert (so_empty o = so_empty o') as -> by (unfold so_empty; by rewrite (oe_data _ _ _ Ho)).
  rewrite (oe_data _ _ _ Ho). destruct (b =? 0); [|by apply so_SetBalance_equiv].
  destruct (so_empty o'); simpl; [|by split_and!].
  destruct (so_touch_equiv s t o o' Hst Ho). done.
Qed.

Lemma SubBalance_equiv s t a b : cache_wf s → s ≡ₛ t → SubBalance s a b ≡ₛ SubBalance t a b.
Proof.
  intros Hc Hst. apply modify_equiv; [done..|]. clear. intros s t o o' Hst Ho. unfold so_SubBalance.
  rewrite (oe_data _ _ _ Ho). destruct (b =? 0); [by split_and!|by apply so_SetBalance_equiv].
Qed.

Lemma SetNonce_equiv s t a n : cache_wf s → s ≡ₛ t → SetNonce s a n ≡ₛ SetNonce t a n.
Proof.
  intros Hc Hst. apply modify_equiv; [done..|]. clear. intros s t o o' Hst Ho. split_and!; simpl.
  - apply append_equiv; [done|]. simpl. by rewrite (oe_address _ _ _ Ho).
  - by apply obj_equiv_setNonce.
  - apply append_reads.
Qed.

Lemma only_error_equiv s t s' t' : s ≡ₛ t → only_error s s' → only_error t t' → s' ≡ₛ t'.
Proof.
  intros Hst Hs%quiet_error Ht%quiet_error. etrans; [apply Hs|]. etrans; [exact Hst|].
  symmetry. apply Ht.
Qed.

Lemma SetCode_equiv s t a c : cache_wf s → s ≡ₛ t → SetCode s a c ≡ₛ SetCode t a c.
Proof.
  intros Hc Hst. apply modify_equiv; [done..|]. clear. intros s t o o' Hst Ho. unfold so_SetCode.
  destruct (so_Code s o) as [[v o1] s1] eqn:E, (so_Code t o') as [[v' o1'] t1] eqn:E'.
  apply so_Code_reads in E as (_ & He & Hs1 & _). apply so_Code_reads in E' as (_ & He' & Ht1 & _).
  assert (obj_equiv s o1 o1') as Ho1.
  { eapply obj_equiv_trans; [done|]. eapply obj_equiv_trans; [done|]. apply obj_equiv_sym.
    eapply obj_equiv_reads; [|done]. by apply same_reads_sym, state_equiv_reads. }
  split_and!; simpl.
  - apply append_equiv; [by eapply only_error_equiv|]. simpl. by rewrite (oe_address _ _ _ Ho1).
  - by apply obj_equiv_setCode.
  - by apply only_error_reads in Hs1.
Qed.

Lemma SetState_equiv s t a k v : cache_wf s → s ≡ₛ t → SetState s a k v ≡ₛ SetState t a k v.
Proof.
  intros Hc Hst. apply modify_equiv; [done..|]. clear. intros s t o o' Hst Ho. unfold so_SetState.
  destruct (so_GetState s o k) as [[w o1] s1] eqn:E, (so_GetState t o' k) as [[w' o1'] t1] eqn:E'.
  apply so_GetState_reads in E as (-> & He & Hs1 & _).
  apply so_GetState_reads in E' as (-> & He' & Ht1 & _).
  assert (same_reads s t) as Hr by (by apply state_equiv_reads).
  assert (obj_equiv s o1 o1') as Ho1.
  { eapply obj_equiv_trans; [done|]. eapply obj_equiv_trans; [done|]. apply obj_equiv_sym.
    eapply obj_equiv_reads; [|done]. by apply same_reads_sym. }
  rewrite <- (state_of_reads s t) by done. rewrite <- (oe_state _ _ _ Ho).
  pose proof (only_error_equiv s t s1 t1 Hst Hs1 Ht1). apply only_error_reads in Hs1.
  destruct (_ =? _); split_and!; simpl; try done.
  - apply append_equiv; [done|]. simpl. by rewrite (oe_address _ _ _ Ho1).
  - by apply obj_equiv_setState.
Qed.

Lemma SelfDestruct_equiv s t a : s ≡ₛ t → SelfDestruct s a ≡ₛ SelfDestruct t a.
Proof.
  intros Hst. unfold SelfDestruct. pose proof (getStateObject_equiv s t a Hst) as [Hst1 Ho].
  destruct (getStateObject s a) as [r s1], (getStateObject t a) as [r' t1]; simpl in *.
  destruct Ho as [o o' Ho|]; [|done]. apply equiv_put.
  - by apply append_equiv.
  - apply obj_equiv_setBalance. unfold so_markSuicided. eapply obj_equiv_reads; [apply append_reads|].
    by apply obj_equiv_with_flags.
Qed.

Lemma Selfdestruct6780_equiv s t a : s ≡ₛ t → Selfdestruct6780 s a ≡ₛ Selfdestruct6780 t a.
Proof.
  intros Hst. unfold Selfdestruct6780. pose proof (getStateObject_equiv s t a Hst) as [Hst1 Ho].
  destruct (getStateObject s a) as [r s1], (getStateObject t a) as [r' t1]; simpl in *.
  destruct Ho as [o o' Ho|]; [|done]. rewrite (oe_suicided _ _ _ Ho).
  destruct (suicided o'); [done|]. by apply SelfDestruct_equiv.
Qed.

Lemma CreateAccount_equiv s t a : cache_wf s → s ≡ₛ t → CreateAccount s a ≡ₛ CreateAccount t a.
Proof.
  intros Hc Hst. unfold CreateAccount. pose proof (createObject_equiv s t a Hc Hst) as [Hst1 Ho].
  pose proof (createObject_eq s a) as E. pose proof (createObject_eq t a) as E'.
  destruct (createObject s a) as [[n r] s1], (createObject t a) as [[n' r'] t1]; simpl in *.
  assert (n = blank a) as -> by (destruct (getDeletedStateObject s a); by injection E).
  assert (n' = blank a) as -> by (destruct (getDeletedStateObject t a); by injection E').
  destruct Ho as [o o' Ho|]; [|done]. rewrite (oe_data _ _ _ Ho).
  apply equiv_put; [done|apply obj_equiv_refl].
Qed.

Lemma SetTransientState_equiv s t a k v :
  s ≡ₛ t → SetTransientState s a k v ≡ₛ SetTransientState t a k v.
Proof.
  intros Hst. unfold SetTransientState. rewrite (se_transient _ _ Hst).
  destruct (_ =? _); [done|]. apply setTransientState_equiv. by apply append_equiv.
Qed.

Lemma AddLog_equiv s t l : s ≡ₛ t → AddLog s l ≡ₛ AddLog t l.
Proof.
  intros Hst. unfold AddLog. assert (append s (addLogChange (thash s)) ≡ₛ append t (addLogChange (thash t))) as H
    by (by apply append_equiv). simpl.
  rewrite <- (se_thash _ _ Hst), <- (se_txIndex _ _ Hst), <- (se_logSize _ _ Hst) in *.
  frame H. intros h. simpl. destruct (decide (thash s = h)) as [<-|Hne].
  - rewrite !lookup_insert_eq. simpl in *. by rewrite (se_logs (thash s)).
  - rewrite !lookup_insert_ne by done. apply (se_logs h).
Qed.

Lemma AddPreimage_equiv s t h pi : s ≡ₛ t → AddPreimage s h pi ≡ₛ AddPreimage t h pi.
Proof.
  intros Hst. unfold AddPreimage. rewrite (se_preimages _ _ Hst). destruct (preimages t !! h); [done|].
  assert (append s (addPreimageChange h) ≡ₛ append t (addPreimageChange h)) as H by (by apply append_equiv).
  frame H. simpl in *. by rewrite se_preimages.
Qed.

Lemma set_refund_equiv s t r r' : s ≡ₛ t → r = r' →
  set_refund (append s (refundChange (refund s))) r ≡ₛ set_refund (append t (refundChange (refund t))) r'.
Proof.
  intros Hst ->. assert (append s (refundChange (refund s)) ≡ₛ append t (refundChange (refund t))) as H
    by (by apply append_equiv). frame H.
Qed.

Lemma AddRefund_equiv s t gas : s ≡ₛ t → AddRefund s gas ≡ₛ AddRefund t gas.
Proof. intros Hst. unfold AddRefund. apply set_refund_equiv; [done|]. simpl. by rewrite (se_refund _ _ Hst). Qed.

Lemma SubRefund_equiv s t gas : s ≡ₛ t → res_equiv (SubRefund s gas) (SubRefund t gas).
Proof.
  intros Hst. pose proof (se_refund _ _ Hst) as Hr. unfold SubRefund. simpl.
  replace (refund t <? gas) with (refund s <? gas) by congruence.
  destruct (_ <? _); [done|]. apply set_refund_equiv; congruence.
Qed.

Lemma set_AccessList_equiv s t al : s ≡ₛ t → set_AccessList s al ≡ₛ set_AccessList t al.
Proof. intros H. frame H. Qed.

Lemma AddAddressToAccessList_equiv s t a :
  s ≡ₛ t → AddAddressToAccessList s a ≡ₛ AddAddressToAccessList t a.
Proof.
  intros Hst. unfold AddAddressToAccessList. rewrite (se_al _ _ Hst).
  destruct (AddAddress _ _) as [[] al]; [apply append_equiv; [|done]|]; by apply set_AccessList_equiv.
Qed.

Lemma AddSlotToAccessList_equiv s t a k :
  s ≡ₛ t → res_equiv (AddSlotToAccessList s a k) (AddSlotToAccessList t a k).
Proof.
  intros Hst. unfold AddSlotToAccessList. rewrite (se_al _ _ Hst).
  destruct (AddSlot _ _ _) as [[[am sm] al]|]; simpl; [|done].
  destruct sm, am; repeat (apply append_equiv; [|done]); by apply set_AccessList_equiv.
Qed.

(** ** The operations of a transaction *)

Inductive op :=
| OpExist (a : Address) | OpEmpty (a : Address) | OpGetBalance (a : Address)
| OpGetNonce (a : Address) | OpGetCode (a : Address) | OpGetCodeSize (a : Address)
| OpGetCodeHash (a : Address)
| OpGetState (a : Address) (k : Hash) | OpGetCommittedState (a : Address) (k : Hash)
| OpHasSelfDestructed (a : Address) | OpGetTransientState (a : Address) (k : Hash)
| OpGetRefund | OpLogs (h : Hash) | OpAddressInAccessList (a : Address)
| OpSlotInAccessList (a : Address) (k : Hash)
| OpAddBalance (a : Address) (amount : Z) | OpSubBalance (a : Address) (amount : Z)
| OpSetBalance (a : Address) (amount : Z) | OpSetNonce (a : Address) (n : Z)
| OpSetCode (a : Address) (code : option (list byte)) | OpSetState (a : Address) (k v : Hash)
| OpSelfDestruct (a : Address) | OpSelfdestruct6780 (a : Address) | OpCreateAccount (a : Address)
| OpSetTransientState (a : Address) (k v : Hash) | OpAddLog (l : Log)
| OpAddPreimage (h : Hash) (preimage : list byte) | OpAddRefund (gas : Z) | OpSubRefund (gas : Z)
| OpAddAddressToAccessList (a : Address) | OpAddSlotToAccessList (a : Address) (k : Hash).

(** What an operation answers. *)
Inductive answer :=
| AUnit | ABool (b : bool) | AInt (n : Z) | ACode (c : option (list byte))
| ALogs (l : list Log) | APair (b c : bool).

Definition reading {A} (f : A → answer) (r : A * StateDB) : res (answer * StateDB) := Ok (f r.1, r.2).
Definition writing (s : StateDB) : res (answer * StateDB) := Ok (AUnit, s).

Definition run (x : op) (s : StateDB) : res (answer * StateDB) :=
  match x with
  | OpExist a => reading ABool (Exist s a)
  | OpEmpty a => reading ABool (Empty s a)
  | OpGetBalance a => reading AInt (GetBalance s a)
  | OpGetNonce a => reading AInt (GetNonce s a)
  | OpGetCode a => reading ACode (GetCode s a)
  | OpGetCodeSize a => reading AInt (GetCodeSize s a)
  | OpGetCodeHash a => reading AInt (GetCodeHash s a)
  | OpGetState a k => reading AInt (GetState s a k)
  | OpGetCommittedState a k => reading AInt (GetCommittedState s a k)
  | OpHasSelfDestructed a => reading ABool (HasSelfDestructed s a)
  | OpGetTransientState a k => Ok (AInt (GetTransientState s a k), s)
  | OpGetRefund => Ok (AInt (refund s), s)
  | OpLogs h => Ok (ALogs (default [] (logs s !! h)), s)
  | OpAddressInAccessList a => Ok (ABool (AddressInAccessList s a), s)
  | OpSlotInAccessList a k => '(b, c) ← SlotInAccessList s a k; Ok (APair b c, s)
  | OpAddBalance a n => writing (AddBalance s a n)
  | OpSubBalance a n => writing (SubBalance s a n)
  | OpSetBalance a n => writing (SetBalance s a n)
  | OpSetNonce a n => writing (SetNonce s a n)
  | OpSetCode a c => writing (SetCode s a c)
  | OpSetState a k v => writing (SetState s a k v)
  | OpSelfDestruct a => writing (SelfDestruct s a)
  | OpSelfdestruct6780 a => writing (Selfdestruct6780 s a)
  | OpCreateAccount a => writing (CreateAccount s a)
  | OpSetTransientState a k v => writing (SetTransientState s a k v)
  | OpAddLog l => writing (AddLog s l)
  | OpAddPreimage h pi => writing (AddPreimage s h pi)
  | OpAddRefund gas => writing (AddRefund s gas)
  | OpSubRefund gas => SubRefund s gas ≫= writing
  | OpAddAddressToAccessList a => writing (AddAddressToAccessList s a)
  | OpAddSlotToAccessList a k => AddSlotToAccessList s a k ≫= writing
  end.

#[local] Hint Resolve Exist_reader Empty_reader GetBalance_reader GetNonce_reader GetCode_reader
  GetCodeSize_reader GetCodeHash_reader GetState_reader GetCommittedState_reader
  HasSelfDestructed_reader : pangu.
#[local] Hint Resolve AddBalance_equiv SubBalance_equiv SetBalance_equiv SetNonce_equiv SetCode_equiv
  SetState_equiv SelfDestruct_equiv Selfdestruct6780_equiv CreateAccount_equiv
  SetTransientState_equiv AddLog_equiv AddPreimage_equiv AddRefund_equiv
  AddAddressToAccessList_equiv SubRefund_equiv AddSlotToAccessList_equiv : pangu.
#[local] Hint Resolve AddBalance_step SubBalance_step SetBalance_step SetNonce_step SetCode_step SetState_step
  SelfDestruct_step Selfdestruct6780_step CreateAccount_step SetTransientState_step
  AddLog_step AddPreimage_step AddRefund_step AddAddressToAccessList_step : pangu.

(** The two machines step alike: equal answers and related states, or both panic. *)
Definition res_rel {A B C} (R : B → C → Prop) (m : res (A * B)) (m' : res (A * C)) : Prop :=
  match m, m' with
  | Ok (v, s), Ok (v', t) => v = v' ∧ R s t
  | Panic _, Panic _ => True
  | _, _ => False
  end.

Lemma reading_equiv {A} (f : A → answer) (m : StateDB → A * StateDB) s t :
  reader m → s ≡ₛ t → res_rel state_equiv (reading f (m s)) (reading f (m t)).
Proof.
  intros [Hq Hv] Hst. simpl. split; [f_equal; auto|]. etrans; [apply Hq|].
  etrans; [exact Hst|]. symmetry. apply Hq.
Qed.

Lemma writing_equiv (m m' : res StateDB) :
  res_equiv m m' → res_rel state_equiv (m ≫= writing) (m' ≫= writing).
Proof. by destruct m, m'. Qed.

Lemma run_equiv x s t :
  code_sizes_agree → cache_wf s → s ≡ₛ t → res_rel state_equiv (run x s) (run x t).
Proof.
  intros Hl Hc Hst. destruct x as [a|a|a|a|a|a|a|a k|a k|a|a k| |h|a|a k|a n|a n|a n|a n|a c|a k v|a|a|a
    |a k v|l|h pi|gas|gas|a|a k]; cbn [run]; try (split; [done|]; by eauto with pangu).
  - apply (reading_equiv ABool (λ s, Exist s a)); auto with pangu.
  - apply (reading_equiv ABool (λ s, Empty s a)); auto with pangu.
  - apply (reading_equiv AInt (λ s, GetBalance s a)); auto with pangu.
  - apply (reading_equiv AInt (λ s, GetNonce s a)); auto with pangu.
  - apply (reading_equiv ACode (λ s, GetCode s a)); auto with pangu.
  - apply (reading_equiv AInt (λ s, GetCodeSize s a)); auto with pangu.
  - apply (reading_equiv AInt (λ s, GetCodeHash s a)); auto with pangu.
  - apply (reading_equiv AInt (λ s, GetState s a k)); auto with pangu.
  - apply (reading_equiv AInt (λ s, GetCommittedState s a k)); auto with pangu.
  - apply (reading_equiv ABool (λ s, HasSelfDestructed s a)); auto with pangu.
  - simpl. by rewrite (se_transient _ _ Hst).
  - simpl. by rewrite (se_refund _ _ Hst).
  - simpl. by rewrite (se_logs _ _ Hst).
  - simpl. unfold AddressInAccessList. by rewrite (se_al _ _ Hst).
  - unfold SlotInAccessList. rewrite (se_al _ _ Hst). by destruct (Contains _ _ _) as [[]|].
  - by apply writing_equiv, SubRefund_equiv.
  - by apply writing_equiv, AddSlotToAccessList_equiv.
Qed.

Lemma reading_step {A} (f : A → answer) (m : StateDB → A * StateDB) s v s' :
  reader m → sdb_wf s → reading f (m s) = Ok (v, s') → ∃ es, step_ok s s' es.
Proof. intros [Hq _] Hs [= _ <-]. exists []. apply step_quiet; [done|apply Hq]. Qed.

Lemma writing_step s s1 v s' :
  (∃ es, step_ok s s1 es) → writing s1 = Ok (v, s') → ∃ es, step_ok s s' es.
Proof. by intros H [= _ <-]. Qed.

Lemma writing_step_res s m v s' :
  (∀ s1, m = Ok s1 → ∃ es, step_ok s s1 es) → m ≫= writing = Ok (v, s') → ∃ es, step_ok s s' es.
Proof. intros H (s1 & Hm & [= _ <-])%res_bind_Ok. by apply H. Qed.

Lemma run_step x s v s' :
  code_sizes_agree → sdb_wf s → run x s = Ok (v, s') → ∃ es, step_ok s s' es.
Proof.
  intros Hl Hs. assert (∃ es, step_ok s s es) as Hid by (exists []; apply step_quiet; [done|apply quiet_refl]).
  destruct x as [a|a|a|a|a|a|a|a k|a k|a|a k| |h|a|a k|a n|a n|a n|a n|a c|a k w|a|a|a
    |a k w|l|h pi|gas|gas|a|a k]; cbn [run]; try (apply writing_step; by eauto with pangu).
  - apply (reading_step ABool (λ s, Exist s a)); auto with pangu.
  - apply (reading_step ABool (λ s, Empty s a)); auto with pangu.
  - apply (reading_step AInt (λ s, GetBalance s a)); auto with pangu.
  - apply (reading_step AInt (λ s, GetNonce s a)); auto with pangu.
  - apply (reading_step ACode (λ s, GetCode s a)); auto with pangu.
  - apply (reading_step AInt (λ s, GetCodeSize s a)); auto with pangu.
  - apply (reading_step AInt (λ s, GetCodeHash s a)); auto with pangu.
  - apply (reading_step AInt (λ s, GetState s a k)); auto with pangu.
  - apply (reading_step AInt (λ s, GetCommittedState s a k)); auto with pangu.
  - apply (reading_step ABool (λ s, HasSelfDestructed s a)); auto with pangu.
  - by intros [= _ <-].
  - by intros [= _ <-].
  - by intros [= _ <-].
  - by intros [= _ <-].
  - intros ([] & _ & [= _ <-])%res_bind_Ok. done.
  - apply writing_step_res. intros s1. by apply SubRefund_step.
  - apply writing_step_res. intros s1. by apply AddSlotToAccessList_step.
Qed.

(** ** The two machines *)

Inductive command := Do (x : op) | Take | Back (id : Z).

(** The database with its journal. *)
Definition exec (c : command) (s : StateDB) : res (answer * StateDB) :=
  match c with
  | Do x => run x s
  | Take => let '(id, s) := Snapshot s in Ok (AInt id, s)
  | Back id => s ← RevertToSnapshot s id; Ok (AUnit, s)
  end.

(** The specification: a snapshot is a copy of the state, and going back to it
    discards the later copies. *)
Record copies := mkCopies { cur : StateDB; saved : list (Z * StateDB); next : Z }.

Definition spec_exec (c : command) (m : copies) : res (answer * copies) :=
  match c with
  | Do x => '(v, s) ← run x (cur m); Ok (v, mkCopies s (saved m) (next m))
  | Take => Ok (AInt (next m), mkCopies (cur m) (saved m ++ [(next m, cur m)]) (next m + 1))
  | Back id => match list_find (λ p, p.1 = id) (saved m) with
               | Some (i, (_, s)) => Ok (AUnit, mkCopies s (take i (saved m)) (next m))
               | None => Panic "no such snapshot"
               end
  end.

Fixpoint exec_all {S} (step : command → S → res (answer * S)) (cs : list command) (s : S)
    : res (list answer * S) :=
  match cs with
  | [] => Ok ([], s)
  | c :: cs => '(v, s) ← step c s; '(vs, s) ← exec_all step cs s; Ok (v :: vs, s)
  end.

(** ** Simulation *)

(** Undoing the journal down to the revision gives the copy. *)
Definition rev_ok s (r : revision) (p : Z * StateDB) : Prop :=
  rev_id r = p.1 ∧ (journalIndex r ≤ length (entries (sdb_journal s)))%nat ∧ core_wf p.2
  ∧ ∃ u, undo (drop (journalIndex r) (entries (sdb_journal s))) s = Ok u ∧ u ≡ₛ p.2.

Definition rev_lt (r r' : revision) : Prop :=
  rev_id r < rev_id r' ∧ (journalIndex r ≤ journalIndex r')%nat.

Record sim s (m : copies) : Prop := {
  sim_wf : sdb_wf s;
  sim_cur : s ≡ₛ cur m;
  sim_next : nextRevisionId s = next m;
  sim_revs : Forall2 (rev_ok s) (validRevisions s) (saved m);
  sim_sorted : StronglySorted rev_lt (validRevisions s);
  sim_fresh : Forall (λ r, rev_id r < nextRevisionId s) (validRevisions s);
}.

Lemma rev_ok_step s s' es r p : step_ok s s' es → cache_wf s → rev_ok s r p → rev_ok s' r p.
Proof.
  intros [He _ _ Hw (u & Hu & Hus)] Hc (Hid & Hle & Hk & u1 & Hu1 & Hus1). split_and!; [done| |done|].
  - rewrite He, length_app. lia.
  - rewrite He, drop_app_le by done. rewrite undo_app, Hu. simpl.
    assert (cache_wf u) by (eapply undo_cache; [apply Hw|done]).
    pose proof (undo_equiv (drop (journalIndex r) (entries (sdb_journal s))) u s ltac:(done) Hus) as H1.
    rewrite Hu1 in H1. destruct (undo _ u) as [u2|]; simpl in H1; [|done].
    exists u2. split; [done|]. by etrans.
Qed.

Lemma sim_do x s m v s' : code_sizes_agree → sim s m → run x s = Ok (v, s') →
  ∃ t, run x (cur m) = Ok (v, t) ∧ sim s' (mkCopies t (saved m) (next m)).
Proof.
  intros Hl [Hw Hcur Hnext Hrevs Hsort Hfresh] Hrun.
  pose proof (run_equiv x s (cur m) Hl (proj1 Hw) Hcur) as H. rewrite Hrun in H.
  destruct (run x (cur m)) as [[v' t]|]; simpl in H; [|done]. destruct H as [<- Hst].
  destruct (run_step x s v s' Hl Hw Hrun) as [es Hes]. exists t. split; [done|].
  constructor; simpl; try done.
  - apply Hes.
  - by rewrite (st_next _ _ _ Hes).
  - rewrite (st_revs _ _ _ Hes). eapply Forall2_impl; [exact Hrevs|]. intros r p.
    by apply (rev_ok_step s s' es), Hw.
  - by rewrite (st_revs _ _ _ Hes).
  - by rewrite (st_revs _ _ _ Hes), (st_next _ _ _ Hes).
Qed.

(** The bookkeeping does not matter for undoing. *)
Lemma rev_ok_same s s' r p :
  entries (sdb_journal s') = entries (sdb_journal s) → cache_wf s' → s' ≡ₛ s →
  rev_ok s r p → rev_ok s' r p.
Proof.
  intros He Hc Hs (Hid & Hle & Hk & u & Hu & Hus). unfold rev_ok. rewrite He. split_and!; [done..|].
  pose proof (undo_equiv (drop (journalIndex r) (entries (sdb_journal s))) s' s Hc Hs) as H.
  rewrite Hu in H. destruct (undo _ s') as [u'|]; simpl in H; [|done].
  exists u'. split; [done|]. by etrans.
Qed.

Lemma sim_take s m : sim s m →
  sim (Snapshot s).2 (mkCopies (cur m) (saved m ++ [(next m, cur m)]) (next m + 1)).
Proof.
  intros [Hw Hcur Hnext Hrevs Hsort Hfresh].
  assert ((Snapshot s).2 ≡ₛ s) as Hs by (by apply state_equiv_ext).
  constructor; simpl; try done.
  - by etrans.
  - by rewrite Hnext.
  - apply Forall2_app; [|constructor; [|done]].
    + eapply Forall2_impl; [exact Hrevs|]. intros r p. apply rev_ok_same; [done|apply Hw|done].
    + split_and!; simpl; [done|done|by eapply core_wf_equiv; [|apply Hw]|].
      rewrite drop_all. eexists. split; [done|]. by etrans.
  - apply StronglySorted_app_2; [|done|by repeat constructor].
    intros r r' Hr Hr'. apply list_elem_of_singleton in Hr' as ->. split; simpl.
    + by eapply Forall_forall in Hfresh.
    + apply list_elem_of_lookup_1 in Hr as [i Hi].
      eapply Forall2_lookup_l in Hrevs as (p & _ & Hp); [|done]. apply Hp.
  - apply Forall_app. split; [|constructor; [simpl; lia|done]].
    eapply Forall_impl; [exact Hfresh|]. intros r Hr. simpl in *. lia.
Qed.

(** The binary search finds the revision with the given id. *)
Lemma search_revision (revs : list revision) id i r :
  StronglySorted rev_lt revs → revs !! i = Some r → rev_id r = id →
  sort_Search (length revs)
    (λ i, match revs !! i with Some r => id <=? rev_id r | None => true end) = i.
Proof.
  intros Hs Hi Hid. set (f := λ i, _).
  destruct (sort_Search_spec (length revs) f) as (Hle & Hlo & Hhi).
  { intros h k Hhk Hk. unfold f. destruct (decide (h = k)) as [->|Hne]; [done|].
    destruct (revs !! h) as [r1|] eqn:E1; [|apply lookup_ge_None in E1; lia].
    destruct (revs !! k) as [r2|] eqn:E2; [|done].
    assert (rev_lt r1 r2) as [] by (eapply (sorted_lookup _ revs h k); [done|lia|done..]).
    rewrite !Z.leb_le. lia. }
  set (idx := sort_Search (length revs) f) in *.
  assert (¬ (i < idx)%nat) as Hge.
  { intros Hlt. specialize (Hlo i Hlt). unfold f in Hlo. rewrite Hi, Hid, Z.leb_refl in Hlo. done. }
  destruct (decide (idx = i)) as [|Hne]; [done|]. apply lookup_lt_Some in Hi as Hil.
  specialize (Hhi ltac:(lia)). unfold f in Hhi.
  destruct (revs !! idx) as [r1|] eqn:E1; [|apply lookup_ge_None in E1; lia].
  assert (rev_lt r1 r) as [Hlt _] by (eapply (sorted_lookup _ revs idx i); [done|lia|done..]).
  apply Z.leb_le in Hhi. lia.
Qed.

(** Undoing down to a revision keeps the earlier ones. *)
Lemma journal_revert_ok s r p :
  sdb_wf s → rev_ok s r p →
  ∃ u, journal_revert s (journalIndex r) = Ok u ∧ u ≡ₛ p.2 ∧ sdb_wf u
    ∧ validRevisions u = validRevisions s ∧ nextRevisionId u = nextRevisionId s
    ∧ ∀ r' p', (journalIndex r' ≤ journalIndex r)%nat → rev_ok s r' p' → rev_ok u r' p'.
Proof.
  intros Hw (Hid & Hle & Hk & u & Hu & Hus). unfold journal_revert. rewrite Hu. simpl.
  set (es := entries (sdb_journal s)) in *.
  assert (go_take es (Z.of_nat (journalIndex r)) = Ok (take (journalIndex r) es)) as ->.
  { unfold go_take. destruct (Z.ltb_spec (Z.of_nat (journalIndex r)) 0); [lia|].
    destruct (Z.ltb_spec (Z.of_nat (length es)) (Z.of_nat (journalIndex r))); [lia|]. simpl.
    by rewrite Nat2Z.id. }
  simpl. set (u' := set_journal u _). assert (u' ≡ₛ u) as Hu' by (by apply state_equiv_ext).
  assert (cache_wf u) as Hcu by (eapply undo_cache; [apply Hw|done]).
  pose proof (undo_book _ _ _ Hu) as (_ & Hv & Hn).
  exists u'. split_and!; [done|by etrans| |done|done|].
  { split; [done|]. eapply core_wf_equiv; [|exact Hk]. symmetry. by etrans. }
  intros r' p' Hr (Hid' & Hle' & Hk' & w & Hw' & Hws). split_and!; [done| |done|].
  { simpl. rewrite length_take. fold es in Hle'. lia. }
  simpl. fold es in Hw'. rewrite <- (take_drop (journalIndex r) es), drop_app_le, undo_app, Hu in Hw'
    by (rewrite length_take; lia). simpl in Hw'.
  pose proof (undo_equiv (drop (journalIndex r') (take (journalIndex r) es)) u' u Hcu Hu') as H.
  rewrite Hw' in H. destruct (undo _ u') as [w'|]; simpl in H; [|done].
  exists w'. split; [done|]. by etrans.
Qed.

Lemma sim_back id s m : sim s m → res_rel sim (exec (Back id) s) (spec_exec (Back id) m).
Proof.
  intros [Hw Hcur Hnext Hrevs Hsort Hfresh]. unfold exec, spec_exec, RevertToSnapshot.
  destruct (list_find (λ p, p.1 = id) (saved m)) as [[i [id' c]]|] eqn:Ef.
  - apply list_find_Some in Ef as (Hi & Hid & _). simpl in Hid. subst id'.
    destruct (Forall2_lookup_r _ _ _ _ _ Hrevs Hi) as (r & Hr & Hok). pose proof (proj1 Hok) as Hrid.
    rewrite (search_revision _ _ i r), Hr by done. simpl in Hrid. rewrite Hrid, Z.eqb_refl. simpl.
    destruct (journal_revert_ok s r (id, c) Hw Hok) as (u & -> & Hu & Hwu & Hv & Hn & Hrest). simpl.
    assert (set_revisions u (take i (validRevisions u)) (nextRevisionId u) ≡ₛ u) as Hset
      by (by apply state_equiv_ext).
    split; [done|]. rewrite Hv. constructor; simpl.
    + exact Hwu.
    + rewrite <- Hv. by etrans.
    + congruence.
    + apply Forall2_same_length_lookup. split.
      { rewrite !length_take. by rewrite (Forall2_length _ _ _ Hrevs). }
      intros j r' p' Hj Hj'. apply lookup_take_Some in Hj as [Hj Hlt]. apply lookup_take_Some in Hj' as [Hj' _].
      rewrite <- Hv. apply (rev_ok_same u); [done|apply Hwu|done|]. apply Hrest.
      * by apply (sorted_lookup rev_lt (validRevisions s) j i).
      * eapply Forall2_lookup_lr; eauto.
    + rewrite <- (take_drop i (validRevisions s)) in Hsort. by apply StronglySorted_app_1_l in Hsort.
    + rewrite Hn. by apply Forall_take.
  - apply list_find_None in Ef. destruct (validRevisions s !! _) as [r|] eqn:Er; [|done].
    destruct (Forall2_lookup_l _ _ _ _ _ Hrevs Er) as (p & Hp & Hok).
    eapply Forall_lookup_1 in Ef; [|exact Hp].
    destruct (Z.eqb_spec (rev_id r) id) as [Hid|]; [|done]. destruct Ef. by rewrite <- (proj1 Hok).
Qed.

Lemma exec_sim c s m : code_sizes_agree → sim s m → res_rel sim (exec c s) (spec_exec c m).
Proof.
  intros Hl Hsim. destruct c as [x| |id].
  - simpl. destruct (run x s) as [[v s']|] eqn:E.
    + destruct (sim_do x s m v s' Hl Hsim E) as (t & -> & H). by split.
    + pose proof (run_equiv x s (cur m) Hl (proj1 (sim_wf _ _ Hsim)) (sim_cur _ _ Hsim)) as H.
      rewrite E in H. destruct (run x (cur m)) as [[]|]; done.
  - pose proof (sim_take s m Hsim) as H. simpl in *. split; [|done]. f_equal. apply Hsim.
  - by apply sim_back.
Qed.

Lemma exec_all_sim cs s m :
  code_sizes_agree → sim s m → res_rel sim (exec_all exec cs s) (exec_all spec_exec cs m).
Proof.
  intros Hl. revert s m. induction cs as [|c cs IH]; intros s m Hsim; simpl; [done|].
  pose proof (exec_sim c s m Hl Hsim) as H.
  destruct (exec c s) as [[v s']|], (spec_exec c m) as [[v' m']|]; simpl in *; try done.
  destruct H as [<- Hsim']. specialize (IH s' m' Hsim').
  destruct (exec_all exec cs s') as [[vs s2]|], (exec_all spec_exec cs m') as [[vs' m2]|];
    simpl in *; try done.
  by destruct IH as [<- ?].
Qed.

(** A database without pending snapshots starts the simulation. *)
Lemma sim_start s : sdb_wf s → validRevisions s = [] → sim s (mkCopies s [] (nextRevisionId s)).
Proof.
  intros Hw Hv. constructor; simpl; rewrite ?Hv; try done; constructor.
Qed.

(** Snapshots around steps of any kind, for the callers of the database. *)
Lemma revert_after_steps s id s1 s2 es :
  sdb_wf s → StronglySorted rev_lt (validRevisions s) →
  Forall (λ r, rev_id r < nextRevisionId s ∧ (journalIndex r ≤ length (entries (sdb_journal s)))%nat)
    (validRevisions s) →
  Snapshot s = (id, s1) → step_ok s1 s2 es →
  ∃ s3, RevertToSnapshot s2 id = Ok s3 ∧ s3 ≡ₛ s ∧ sdb_wf s3
    ∧ validRevisions s3 = validRevisions s.
Proof.
  intros Hw Hsort Hfresh [= <- <-] Hes. set (r := mkRevision (nextRevisionId s) (length (entries (sdb_journal s)))).
  assert (rev_ok s2 r (nextRevisionId s, s)) as Hok.
  { eapply rev_ok_step; [exact Hes|apply Hw|]. split_and!; simpl; [done|done|apply Hw|].
    rewrite drop_all. eexists. split; [done|]. by apply state_equiv_ext. }
  destruct (journal_revert_ok s2 r _ (st_wf _ _ _ Hes) Hok) as (u & Hu & Hus & Hwu & Hv & Hn & _).
  assert (validRevisions s2 = validRevisions s ++ [r]) as Hv2 by (apply Hes).
  unfold RevertToSnapshot. rewrite (search_revision _ _ (length (validRevisions s)) r); [| | |done].
  - rewrite Hv2, lookup_snoc_last. simpl. rewrite Z.eqb_refl. simpl in *. rewrite Hu. simpl.
    eexists. split; [done|]. split_and!; [|done|].
    + etrans; [|exact Hus]. by apply state_equiv_ext.
    + simpl. by rewrite Hv, Hv2, take_app_length.
  - rewrite Hv2. apply StronglySorted_app_2; [|done|by repeat constructor].
    intros r1 r2 H1 ->%list_elem_of_singleton. eapply Forall_forall in Hfresh; [|done]. done.
  - by rewrite Hv2, lookup_snoc_last.
Qed.

(** C1: the journal implements snapshots.  For every sequence of state operations,
    snapshots and reverts, the database that undoes its journal gives the same answers
    (values returned, panics included) as the machine that keeps a full copy of the state
    for each snapshot, and ends in an observationally equal state. *)
Theorem snapshots_refine_copies s cs :
  code_sizes_agree → sdb_wf s → validRevisions s = [] →
  res_rel (λ s' m, s' ≡ₛ cur m)
    (exec_all exec cs s) (exec_all spec_exec cs (mkCopies s [] (nextRevisionId s))).
Proof.
  intros Hl Hw Hv. pose proof (exec_all_sim cs s _ Hl (sim_start s Hw Hv)) as H.
  destruct (exec_all exec cs s) as [[vs s']|], (exec_all spec_exec cs _) as [[vs' m]|]; try done.
  destruct H as [-> H]. split; [done|apply H].
Qed.

(** a revert always succeeds and restores the state.  After a snapshot and any
    sequence of operations that does not panic, [RevertToSnapshot] returns, forgets exactly
    the snapshots taken since, and every later operation behaves as it would have before. *)
Theorem revert_restores s id s1 xs vs s2 :
  code_sizes_agree → sdb_wf s → validRevisions s = [] → Snapshot s = (id, s1) →
  exec_all exec (Do <$> xs) s1 = Ok (vs, s2) →
  ∃ s3, RevertToSnapshot s2 id = Ok s3 ∧ s3 ≡ₛ s ∧ validRevisions s3 = validRevisions s
    ∧ ∀ x, res_rel state_equiv (run x s3) (run x s).
Proof.
  intros Hl Hw Hv Hsnap Hexec.
  assert (∃ es, step_ok s1 s2 es) as [es Hes].
  { assert (sdb_wf s1) as Hw1 by (by injection Hsnap as _ <-).
    clear Hsnap Hw Hv. revert s1 vs Hw1 Hexec. induction xs as [|x xs IH]; intros s1 vs Hw1; simpl.
    - intros [= <- <-]. exists []. apply step_quiet; [done|apply quiet_refl].
    - intros ([v t] & Hr & H)%res_bind_Ok. apply res_bind_Ok in H as ([vs' t'] & H & [= <- <-]).
      apply run_step in Hr as [es Hes]; [|done..].
      destruct (IH t vs' (st_wf _ _ _ Hes) H) as [es' Hes']. eexists. by eapply step_trans. }
  destruct (revert_after_steps s id s1 s2 es) as (s3 & Hr & Hs3 & Hw3 & Hv3); try done.
  - rewrite Hv. constructor.
  - rewrite Hv. constructor.
  - exists s3. split_and!; try done. intros x. apply run_equiv; [done|apply Hw3|done].
Qed.

End refine.

(** ** Witnesses *)

#[local] Existing Instance toy_crypto.
#[local] Existing Instance mem_database.

Definition sample_commands : list command :=
  [Do (OpAddBalance 7 5); Take; Do (OpSubBalance 7 2); Do (OpSetState 7 1 9);
   Do (OpGetBalance 7); Back 0; Do (OpGetBalance 7); Do (OpGetState 7 1)].

Lemma snapshots_refine_copies_witness :
  (fst <$> exec_all exec sample_commands mem_state)
  = Ok [AUnit; AInt 0; AUnit; AUnit; AInt 3; AUnit; AInt 5; AInt 0]
  ∧ res_rel (λ s' m, state_equiv s' (cur m))
      (exec_all exec sample_commands mem_state)
      (exec_all spec_exec sample_commands (mkCopies mem_state [] (nextRevisionId mem_state))).
Proof.
  split; [vm_compute; reflexivity|].
  apply (@snapshots_refine_copies toy_crypto mem_database mem_state sample_commands).
  - intros h c. reflexivity.
  - apply fresh_wf.
  - reflexivity.
Defined.

Definition sample_ops : list op :=
  [OpCreateAccount 7; OpSetNonce 7 1; OpSetCode 7 (Some [96]); OpAddRefund 5; OpSelfDestruct 7].

Lemma revert_restores_witness :
  ∃ vs s2, exec_all exec (Do <$> sample_ops) (Snapshot mem_state).2
           = Ok (vs, s2)
    ∧ ∃ s3, RevertToSnapshot s2 0 = Ok s3 ∧ state_equiv s3 mem_state
        ∧ validRevisions s3 = validRevisions mem_state
        ∧ ∀ x, res_rel state_equiv (run x s3) (run x mem_state).
Proof.
  assert (H : match exec_all exec (Do <$> sample_ops) (Snapshot mem_state).2 with
              | Ok _ => true | Panic _ => false end = true) by (vm_compute; reflexivity).
  destruct (exec_all exec (Do <$> sample_ops) (Snapshot mem_state).2)
    as [[vs s2]|] eqn:E; [clear H|discriminate H].
  exists vs, s2. split; [reflexivity|].
  apply (@revert_restores toy_crypto mem_database mem_state 0 (Snapshot mem_state).2 sample_ops vs s2).
  - intros h c. reflexivity.
  - apply fresh_wf.
  - reflexivity.
  - reflexivity.
  - exact E.
Defined.
