(* ===== verification/StateFrame.v ===== *)
(** * Calls on the state database

    A call frame of the EVM takes snapshots, changes the state and may revert to its own
    snapshots.  [frame_ok s s' es] describes any such stretch of execution: the journal
    has grown by [es], undoing [es] gives back [s], and the snapshots pending in [s] are
    still pending.  Frames compose, and a revert at the end of a frame restores the state
    before it. *)

From S2P Require Import Prelude Bytes RlpEncode RlpRaw Common AccessList.
From S2P Require Import StateDB StateEquiv StateRevert StateSteps StateRefine.

Section frame.
Context {Cr : Crypto} {DB : Database}.
Implicit Types (s t : StateDB) (es : list journalEntry).

Infix "≡ₛ" := state_equiv (at level 70).

(** The pending snapshots are ordered and older than the next one. *)
Definition revs_wf s : Prop :=
  StronglySorted rev_lt (validRevisions s)
  ∧ Forall (λ r, rev_id r < nextRevisionId s
                 ∧ (journalIndex r ≤ length (entries (sdb_journal s)))%nat) (validRevisions s).

(** The invariant between operations. *)
Definition db_ok s : Prop := sdb_wf s ∧ revs_wf s.

Record frame_ok s s' es : Prop := {
  fo_entries : entries (sdb_journal s') = entries (sdb_journal s) ++ es;
  fo_wf : sdb_wf s';
  fo_undo : ∃ u, undo es s' = Ok u ∧ u ≡ₛ s;
  fo_next : nextRevisionId s <= nextRevisionId s';
  fo_revs : ∃ rs, validRevisions s' = validRevisions s ++ rs ∧ StronglySorted rev_lt rs
    ∧ Forall (λ r, nextRevisionId s <= rev_id r < nextRevisionId s'
                   ∧ (length (entries (sdb_journal s)) ≤ journalIndex r
                      ≤ length (entries (sdb_journal s')))%nat) rs;
}.

Definition frame s s' : Prop := ∃ es, frame_ok s s' es.

Lemma step_frame s s' es : step_ok s s' es → frame_ok s s' es.
Proof.
  intros []. constructor; try done; [lia|]. exists [].
  rewrite app_nil_r. split_and!; [done|constructor|constructor].
Qed.

Lemma quiet_frame s s' : sdb_wf s → quiet s s' → frame s s'.
Proof. intros. exists []. by apply step_frame, step_quiet. Qed.

Lemma step_frame_ex s s' : (∃ es, step_ok s s' es) → frame s s'.
Proof. intros [es H]. exists es. by apply step_frame. Qed.

Lemma frame_refl s : sdb_wf s → frame s s.
Proof. intros. apply quiet_frame; [done|apply quiet_refl]. Qed.

Lemma frame_ok_trans s1 s2 s3 es es' :
  frame_ok s1 s2 es → frame_ok s2 s3 es' → frame_ok s1 s3 (es ++ es').
Proof.
  intros [He Hw (u & Hu & Hus) Hn (rs & Hr & Hs & Hf)] [He' Hw' (u' & Hu' & Hus') Hn' (rs' & Hr' & Hs' & Hf')].
  constructor; [by rewrite He', He, app_assoc|done| |lia|].
  - rewrite undo_app, Hu'. simpl.
    assert (cache_wf u') as Hc by (eapply undo_cache; [apply Hw'|done]).
    pose proof (undo_equiv es u' s2 Hc Hus') as H. rewrite Hu in H.
    destruct (undo es u') as [v|]; simpl in H; [|done]. exists v. split; [done|]. by etrans.
  - assert (length (entries (sdb_journal s2)) ≤ length (entries (sdb_journal s3)))%nat
      by (rewrite He', length_app; lia).
    assert (length (entries (sdb_journal s1)) ≤ length (entries (sdb_journal s2)))%nat
      by (rewrite He, length_app; lia).
    exists (rs ++ rs'). split_and!; [by rewrite Hr', Hr, app_assoc| |].
    + apply StronglySorted_app_2; [|done..]. intros r r' H1 H2.
      rewrite Forall_forall in Hf, Hf'. specialize (Hf r H1). specialize (Hf' r' H2).
      unfold rev_lt. lia.
    + apply Forall_app. split; [eapply Forall_impl; [exact Hf|]|eapply Forall_impl; [exact Hf'|]];
        simpl; intros r Hr0; lia.
Qed.

Lemma frame_trans s1 s2 s3 : frame s1 s2 → frame s2 s3 → frame s1 s3.
Proof. intros [es H] [es' H']. exists (es ++ es'). by eapply frame_ok_trans. Qed.

Lemma frame_db_ok s s' : db_ok s → frame s s' → db_ok s'.
Proof.
  intros [Hw [Hs Hf]] [es [He Hw' _ Hn (rs & Hr & Hs' & Hf')]]. split; [done|].
  assert (length (entries (sdb_journal s)) ≤ length (entries (sdb_journal s')))%nat
    by (rewrite He, length_app; lia).
  unfold revs_wf. rewrite Hr. rewrite Forall_forall in Hf, Hf'. split.
  - apply StronglySorted_app_2; [|done..]. intros r r' H1 H2.
    specialize (Hf r H1). specialize (Hf' r' H2). unfold rev_lt. simpl in *. lia.
  - apply Forall_forall. intros r [H1|H1]%elem_of_app.
    + specialize (Hf r H1). simpl in *. lia.
    + specialize (Hf' r H1). simpl in *. lia.
Qed.

Lemma fresh_db_ok tr root sn : db_ok (fresh tr root sn).
Proof. split; [apply fresh_wf|]. split; constructor. Qed.

(** Taking a snapshot is a frame of its own. *)
Lemma Snapshot_frame s : sdb_wf s → frame s (Snapshot s).2.
Proof.
  intros Hw. exists []. constructor; simpl; [by rewrite app_nil_r|done| |lia|].
  - eexists. split; [done|]. by apply state_equiv_ext.
  - eexists. split_and!; [done|by repeat constructor|]. constructor; [simpl; lia|constructor].
Qed.

(** A revert to the snapshot a frame started with: it succeeds, and the whole is an empty
    frame that ends in a database equal to the one before. *)
Lemma frame_revert s s2 :
  db_ok s → frame (Snapshot s).2 s2 →
  ∃ s3, RevertToSnapshot s2 (Snapshot s).1 = Ok s3 ∧ s3 ≡ₛ s ∧ frame_ok s s3 []
    ∧ validRevisions s3 = validRevisions s.
Proof.
  intros [Hw [Hsort Hfresh]] [es [He Hw2 (u & Hu & Hus) Hn (rs & Hr & Hs & Hf)]]. simpl in *.
  set (r := mkRevision (nextRevisionId s) (length (entries (sdb_journal s)))) in *.
  rewrite <- app_assoc in Hr. simpl in Hr.
  assert (rev_ok s2 r (nextRevisionId s, s)) as Hok.
  { split_and!; simpl; [done|rewrite He, length_app; lia|apply Hw|].
    rewrite He, drop_app_length. exists u. split; [done|]. etrans; [exact Hus|]. by apply state_equiv_ext. }
  destruct (journal_revert_ok s2 r _ Hw2 Hok) as (v & Hv & Hvs & Hwv & Hvr & Hvn & _).
  assert (entries (sdb_journal v) = entries (sdb_journal s)) as Hve.
  { revert Hv. unfold journal_revert. simpl. rewrite He, drop_app_length, Hu. simpl.
    unfold go_take. rewrite length_app.
    destruct (Z.ltb_spec (Z.of_nat (length (entries (sdb_journal s)))) 0); [lia|].
    destruct (Z.ltb_spec (Z.of_nat (length (entries (sdb_journal s)) + length es)) (Z.of_nat (length (entries (sdb_journal s))))); [lia|].
    simpl. rewrite Nat2Z.id, take_app_length. by intros [= <-]. }
  assert (StronglySorted rev_lt (validRevisions s2)) as Hsort2.
  { rewrite Hr. apply StronglySorted_app_2; [|done|].
    - intros r1 r2 H1 H2. rewrite Forall_forall in Hfresh, Hf. specialize (Hfresh r1 H1).
      apply elem_of_cons in H2 as [->|H2]; [done|]. specialize (Hf r2 H2). unfold rev_lt. simpl in *. lia.
    - constructor; [done|]. eapply Forall_impl; [exact Hf|]. intros r2 H2. unfold rev_lt. simpl in *. lia. }
  assert (validRevisions s2 !! length (validRevisions s) = Some r) as Hlook
    by (rewrite Hr; by rewrite list_lookup_middle).
  eexists. unfold RevertToSnapshot.
  rewrite (search_revision _ _ (length (validRevisions s)) r), Hlook by done. simpl.
  rewrite Z.eqb_refl. simpl in *. rewrite Hv. simpl. split; [done|].
  rewrite Hvr, Hr, take_app_length. split_and!; [|constructor; simpl|done].
  - etrans; [|exact Hvs]. by apply state_equiv_ext.
  - by rewrite Hve, app_nil_r.
  - exact Hwv.
  - eexists. split; [done|]. etrans; [|exact Hvs]. by apply state_equiv_ext.
  - lia.
  - exists []. rewrite app_nil_r. split_and!; [done|constructor|constructor].
Qed.

End frame.
