(* ===== verification/StateCommit.v ===== *)
(** * The end of a transaction and of a block (core/state/statedb.go, state_object.go)

    [Finalise] moves the changes of a transaction into the pending area,
    [IntermediateRoot] writes the pending area to the tries and [Commit] hands the tries
    to the database.  The order in which Go ranges over the sets is an argument, through
    the class [GoRuntime]; the theorems hold for every order. *)

From S2P Require Import Prelude Bytes RlpEncode RlpRaw Common AccessList.
From S2P Require Import StateDB StateEquiv StateRevert StateSteps.

Section commit.
Context {Cr : Crypto} {DB : Database} {GR : GoRuntime}.
Implicit Types (s t : StateDB) (o : StateObject) (a : Address) (k : Hash).

(** ** Finalising *)

Definition SetTxContext s (h : Hash) : StateDB := set_thash s h.

Definition clearJournalAndRefund s : StateDB :=
  let s := match entries (sdb_journal s) with
           | [] => s
           | _ => set_refund (set_journal s newJournal) 0
           end in
  set_revisions s [] (nextRevisionId s).

Definition ClearJournal s : StateDB :=
  match entries (sdb_journal s) with [] => s | _ => set_journal s newJournal end.

(** One round of the loop of [Finalise]. *)
Definition finalise_object (deleteEmptyObjects : bool) s (addr : Address) : StateDB :=
  match stateObjects s !! addr with
  | None => s
  | Some obj =>
      let s := if suicided obj || (deleteEmptyObjects && so_empty obj) then
                 let s := put s addr (with_flags obj (suicided obj) true) in
                 let s := set_marks s (stateObjectsPending s) (stateObjectsDirty s)
                            ({[ so_address obj ]} ∪ stateObjectsDestruct s) in
                 if bool_decide (is_Some (snap s))
                 then set_snaps s (delete (so_addrHash obj) (snapAccounts s))
                        (delete (so_addrHash obj) (snapStorage s))
                 else s
               else put s addr (so_finalise obj) in
      set_marks s ({[ addr ]} ∪ stateObjectsPending s) ({[ addr ]} ∪ stateObjectsDirty s)
        (stateObjectsDestruct s)
  end.

Definition Finalise s (deleteEmptyObjects : bool) : StateDB :=
  clearJournalAndRefund
    (foldl (finalise_object deleteEmptyObjects) s (range_map (dirties (sdb_journal s))).*1).

(** ** Writing storage tries *)

Fixpoint TrimLeftZeroes (b : list byte) : list byte :=
  match b with [] => [] | x :: b' => if x =? 0 then TrimLeftZeroes b' else b end.

(** The loop over the pending slots.  An error stops it with the trie as it is. *)
Fixpoint updateTrie_loop (slots : list (Hash * Hash)) s o (tr : Trie)
    : (string + Trie) * StateObject * StateDB :=
  match slots with
  | [] => (inr tr, o, s)
  | (key, value) :: slots =>
      if value =? default 0 (originStorage o !! key) then updateTrie_loop slots s o tr
      else
        let o := cache_slot o key value in
        let trimmedVal := TrimLeftZeroes (Hash_Bytes value) in
        let '(r, snapshotVal) :=
          if value =? 0 then (DeleteStorage tr (so_address o) (Hash_Bytes key), [])
          else (UpdateStorage tr (so_address o) (Hash_Bytes key) trimmedVal,
                match EncodeToBytes (VBytes trimmedVal) with inr b => b | inl _ => [] end) in
        match r with
        | inl e => (inl e, o, setError s (errBackend e))
        | inr tr =>
            let s := if bool_decide (is_Some (snap s)) then
                       let storage := default ∅ (snapStorage s !! so_addrHash o) in
                       set_snaps s (snapAccounts s)
                         (<[so_addrHash o := <[Keccak256Hash (Hash_Bytes key) := snapshotVal]> storage]>
                            (snapStorage s))
                     else s in
            updateTrie_loop slots s (with_trie o (Some tr)) tr
        end
  end.

Definition so_updateTrie s o : (string + option Trie) * StateObject * StateDB :=
  let o := so_finalise o in
  if bool_decide (pendingStorage o = ∅) then (inr (so_trie o), o, s)
  else match so_getTrie s o with
       | (inl e, o) => (inl e, o, setError s (errBackend e))
       | (inr tr, o) =>
           match updateTrie_loop (range_map (pendingStorage o)) s o tr with
           | (inl e, o, s) => (inl e, o, s)
           | (inr tr, o, s) => (inr (Some tr), with_storage o (originStorage o) ∅ (dirtyStorage o), s)
           end
       end.

Definition set_root o (root : Hash) : StateObject :=
  with_data o (mkData (d_Nonce (so_data o)) (d_Balance (so_data o)) root (d_CodeHash (so_data o))).

Definition so_updateRoot s o : StateObject * StateDB :=
  match so_updateTrie s o with
  | (inl _, o, s) => (o, s)
  | (inr None, o, s) => (o, s)
  | (inr (Some tr), o, s) => (set_root o (TrieHash tr), s)
  end.

Definition so_commitTrie s o : (string + option NodeSet) * StateObject * StateDB :=
  match so_updateTrie s o with
  | (inl e, o, s) => (inl e, o, s)
  | (inr None, o, s) => (inr None, o, s)
  | (inr (Some tr), o, s) =>
      match TrieCommit tr false with
      | inl e => (inl e, o, s)
      | inr (root, nodes) => (inr nodes, set_root o root, s)
      end
  end.

(** ** Writing the account trie *)

Definition updateStateObject s o : res StateDB :=
  let s := match UpdateAccount (sdb_trie s) (so_address o) (so_account o) with
           | inl e => setError s (errUpdateObject (so_address o) e)
           | inr tr => set_trie s tr
           end in
  if bool_decide (is_Some (snap s)) then
    data ← SlimAccountRLP (so_account o);
    Ok (set_snaps s (<[so_addrHash o := data]> (snapAccounts s)) (snapStorage s))
  else Ok s.

Definition deleteStateObject s o : StateDB :=
  match DeleteAccount (sdb_trie s) (so_address o) with
  | inl e => setError s (errDeleteObject (so_address o) e)
  | inr tr => set_trie s tr
  end.

(** A loop that may panic. *)
Definition for_each {S} (f : S → Address → res S) (l : list Address) (s : S) : res S :=
  foldl (λ m a, s ← m; f s a) (Ok s) l.

Definition root_round s (addr : Address) : res StateDB :=
  obj ← deref (stateObjects s !! addr);
  if deleted obj then Ok s
  else let '(obj, s) := so_updateRoot s obj in Ok (put s addr obj).

Definition account_round s (addr : Address) : res StateDB :=
  obj ← deref (stateObjects s !! addr);
  if deleted obj then Ok (deleteStateObject s obj) else updateStateObject s obj.

Definition IntermediateRoot s (deleteEmptyObjects : bool) : res (Hash * StateDB) :=
  let s := Finalise s deleteEmptyObjects in
  s ← for_each root_round (range_set (stateObjectsPending s)) s;
  s ← for_each account_round (range_set (stateObjectsPending s)) s;
  let s := set_marks s ∅ (stateObjectsDirty s) (stateObjectsDestruct s) in
  Ok (TrieHash (sdb_trie s), s).

(** ** Commit *)

(** What [Commit] asks of the database. *)
Inductive db_call :=
| WriteCode (h : Hash) (code : list byte)
| TrieUpdate (root parent : Hash) (nodes : gmap Hash NodeSet)
| SnapUpdate (root parent : Hash) (destructs : gset Hash) (accounts : gmap Hash (list byte))
    (storage : gmap Hash (gmap Hash (list byte)))
| SnapCap (root : Hash) (layers : Z).

(** [MergedNodeSet.Merge] *)
Definition Merge (sets : gmap Hash NodeSet) (other : NodeSet) : string + gmap Hash NodeSet :=
  match sets !! NodeSet_Owner other with
  | Some _ => inl "duplicate trie for owner"
  | None => inr (<[NodeSet_Owner other := other]> sets)
  end.

Definition merge_opt (sets : gmap Hash NodeSet) (set : option NodeSet) : string + gmap Hash NodeSet :=
  match set with None => inr sets | Some x => Merge sets x end.

(** One object of the commit loop: the codes to write, the nodes, or the error that
    ends [Commit]. *)
Definition commit_object s (addr : Address) (nodes : gmap Hash NodeSet) (codes : list db_call)
    : res ((string + (gmap Hash NodeSet * list db_call)) * StateDB) :=
  obj ← deref (stateObjects s !! addr);
  if deleted obj then Ok (inr (nodes, codes), s)
  else
    let '(codes, obj, s) :=
      match so_code obj with
      | Some c =>
          if dirtyCode obj
          then (codes ++ [WriteCode (d_CodeHash (so_data obj)) c],
                with_code obj (Some c) false,
                match UpdateContractCode (sdb_trie s) (so_address obj) (d_CodeHash (so_data obj)) c with
                | inl _ => s | inr tr => set_trie s tr end)
          else (codes, obj, s)
      | None => (codes, obj, s)
      end in
    let '(r, obj, s) := so_commitTrie s obj in
    let s := put s addr obj in
    Ok (match r with
        | inl e => inl e
        | inr set => nodes ← merge_opt nodes set; inr (nodes, codes)
        end, s).

Fixpoint commit_loop (l : list Address) s (nodes : gmap Hash NodeSet) (codes : list db_call)
    : res ((string + (gmap Hash NodeSet * list db_call)) * StateDB) :=
  match l with
  | [] => Ok (inr (nodes, codes), s)
  | addr :: l =>
      '(r, s) ← commit_object s addr nodes codes;
      match r with
      | inl e => Ok (inl e, s)
      | inr (nodes, codes) => commit_loop l s nodes codes
      end
  end.

Definition convertAccountSet s (set : gset Address) : gset Hash :=
  set_map (λ addr, match stateObjects s !! addr with
                   | None => Keccak256Hash (Address_Bytes addr)
                   | Some obj => so_addrHash obj
                   end) set.

(** The snapshot tree follows the new root, and the database forgets its layer. *)
Definition commit_snaps s (root : Hash) : list db_call * StateDB :=
  match snap s with
  | None => ([], s)
  | Some sn =>
      let calls := if snap_Root sn =? root then []
                   else [SnapUpdate root (snap_Root sn) (convertAccountSet s (stateObjectsDestruct s))
                           (snapAccounts s) (snapStorage s); SnapCap root 128] in
      (calls, mkStateDB (sdb_trie s) (originalRoot s) None ∅ ∅ (stateObjects s) (stateObjectsPending s)
                (stateObjectsDirty s) (stateObjectsDestruct s) (dbErr s) (refund s) (thash s) (txIndex s)
                (logs s) (logSize s) (preimages s) (sdb_AccessList s) (sdb_transient s) (sdb_journal s)
                (validRevisions s) (nextRevisionId s))
  end.

Definition set_originalRoot s (root : Hash) : StateDB :=
  mkStateDB (sdb_trie s) root (snap s) (snapAccounts s) (snapStorage s) (stateObjects s)
    (stateObjectsPending s) (stateObjectsDirty s) (stateObjectsDestruct s) (dbErr s) (refund s)
    (thash s) (txIndex s) (logs s) (logSize s) (preimages s) (sdb_AccessList s) (sdb_transient s)
    (sdb_journal s) (validRevisions s) (nextRevisionId s).

Inductive commit_error := errEarlier (e : state_error) | errCommit (msg : string).

(** The result of [Commit], the calls it made to the database, and the new state. *)
Definition Commit s (deleteEmptyObjects : bool)
    : res ((commit_error + Hash) * list db_call * StateDB) :=
  match dbErr s with
  | Some e => Ok (inl (errEarlier e), [], s)
  | None =>
      '(_, s) ← IntermediateRoot s deleteEmptyObjects;
      '(r, s) ← commit_loop (range_set (stateObjectsDirty s)) s ∅ [];
      match r with
      | inl e => Ok (inl (errCommit e), [], s)
      | inr (nodes, codes) =>
          let s := set_marks s (stateObjectsPending s) ∅ (stateObjectsDestruct s) in
          match TrieCommit (sdb_trie s) true with
          | inl e => Ok (inl (errCommit e), codes, s)
          | inr (root, set) =>
              match merge_opt nodes set with
              | inl e => Ok (inl (errCommit e), codes, s)
              | inr nodes =>
                  let '(snapcalls, s) := commit_snaps s root in
                  let s := set_marks s (stateObjectsPending s) (stateObjectsDirty s) ∅ in
                  let root := if root =? 0 then EmptyRootHash else root in
                  let origin := if originalRoot s =? 0 then EmptyRootHash else originalRoot s in
                  if root =? origin then Ok (inr root, codes ++ snapcalls, s)
                  else
                    let calls := codes ++ snapcalls ++ [TrieUpdate root origin nodes] in
                    match TrieDB_Update root origin nodes with
                    | Some e => Ok (inl (errCommit e), calls, s)
                    | None => Ok (inr root, calls, set_originalRoot s root)
                    end
              end
          end
      end
  end.

(** ** Copies *)

(** The three loops of [Copy] that copy objects; [c] is the copy being built. *)
Definition copy_dirty s c (addr : Address) : StateDB :=
  match stateObjects s !! addr with
  | None => c
  | Some obj =>
      set_marks (put c addr (so_deepCopy obj)) ({[ addr ]} ∪ stateObjectsPending c)
        ({[ addr ]} ∪ stateObjectsDirty c) (stateObjectsDestruct c)
  end.

Definition copy_missing s c (addr : Address) : res StateDB :=
  match stateObjects c !! addr with
  | Some _ => Ok c
  | None => obj ← deref (stateObjects s !! addr); Ok (put c addr (so_deepCopy obj))
  end.

Definition copy_pending s c (addr : Address) : res StateDB :=
  c ← copy_missing s c addr;
  Ok (set_marks c ({[ addr ]} ∪ stateObjectsPending c) (stateObjectsDirty c) (stateObjectsDestruct c)).

Definition copy_dirty_set s c (addr : Address) : res StateDB :=
  c ← copy_missing s c addr;
  Ok (set_marks c (stateObjectsPending c) ({[ addr ]} ∪ stateObjectsDirty c) (stateObjectsDestruct c)).

(** The copied logs, preimages and snapshot data are the same values; the transaction
    context, the error, the journal and the snapshots are dropped. *)
Definition StateDB_Copy s : res StateDB :=
  let c := mkStateDB (sdb_trie s) (originalRoot s) (snap s)
             (match snap s with Some _ => snapAccounts s | None => ∅ end)
             (match snap s with Some _ => snapStorage s | None => ∅ end)
             ∅ ∅ ∅ (stateObjectsDestruct s) None (refund s) 0 0 (logs s) (logSize s) (preimages s)
             (Copy (sdb_AccessList s)) (sdb_transient s) newJournal [] 0 in
  let c := foldl (copy_dirty s) c (range_map (dirties (sdb_journal s))).*1 in
  c ← for_each (copy_pending s) (range_set (stateObjectsPending s)) c;
  for_each (copy_dirty_set s) (range_set (stateObjectsDirty s)) c.

(** ** The start of a transaction *)

Definition prepare_entry (list : AccessList) (al : AccessList) (e : Address * Z) : res AccessList :=
  let '(addr, val) := e in
  let al := (AddAddress al addr).2 in
  if 0 <? val then
    keys ← go_index (Slots list) val;
    foldl (λ m key, al ← m; '(_, _, al) ← AddSlot al addr key; Ok al) (Ok al) (range_set keys)
  else Ok al.

Definition Prepare s (sender : Address) (dst : option Address) (precompiles : list Address)
    (list : AccessList) : res StateDB :=
  let al := (AddAddress NewAccessList sender).2 in
  let al := match dst with Some d => (AddAddress al d).2 | None => al end in
  let al := foldl (λ al addr, (AddAddress al addr).2) al precompiles in
  al ← foldl (λ m e, al ← m; prepare_entry list al e) (Ok al) (range_map (Addresses list));
  Ok (set_transient (set_AccessList s al) ∅).

(** ** Handing objects to another database *)

Definition GetPendingObj s : gset Address * gmap Address (option StateObject) :=
  (stateObjectsPending s, set_to_map (λ a, (a, stateObjects s !! a)) (stateObjectsPending s)).

Definition SetPendingObj s (spo : gset Address) : StateDB :=
  set_marks s (spo ∪ stateObjectsPending s) (stateObjectsDirty s) (stateObjectsDestruct s).

(** A nil object overwrites the entry like any other; reading it gives nil. *)
Definition UpdateStateObj s (so : gmap Address (option StateObject)) : StateDB :=
  set_objects s (omap id so ∪ filter (λ p, so !! p.1 = None) (stateObjects s)).

(** ** What [Finalise] does *)

(** An object that does not survive the transaction. *)
Definition dies (del : bool) o : bool := suicided o || (del && so_empty o).

Definition finalised (del : bool) o : StateObject :=
  if dies del o then with_flags o (suicided o) true else so_finalise o.

Record finalises (del : bool) (l : list Address) s s' : Prop := {
  fin_objects : ∀ a, stateObjects s' !! a =
    if decide (a ∈ l) then finalised del <$> stateObjects s !! a else stateObjects s !! a;
  fin_pending : ∀ a, a ∈ stateObjectsPending s' ↔
    a ∈ stateObjectsPending s ∨ (a ∈ l ∧ is_Some (stateObjects s !! a));
  fin_dirty : ∀ a, a ∈ stateObjectsDirty s' ↔
    a ∈ stateObjectsDirty s ∨ (a ∈ l ∧ is_Some (stateObjects s !! a));
  fin_destruct : ∀ a, a ∈ stateObjectsDestruct s' ↔
    a ∈ stateObjectsDestruct s ∨ (a ∈ l ∧ ∃ o, stateObjects s !! a = Some o ∧ dies del o = true);
  fin_env : sdb_trie s' = sdb_trie s ∧ originalRoot s' = originalRoot s ∧ snap s' = snap s
    ∧ sdb_journal s' = sdb_journal s;
}.

Lemma finalised_address del o : so_address (finalised del o) = so_address o.
Proof. unfold finalised. by destruct (dies del o). Qed.

Lemma finalise_object_spec del s a : cache_wf s → finalises del [a] s (finalise_object del s a).
Proof.
  intros [Hk _]. unfold finalise_object. destruct (stateObjects s !! a) as [o|] eqn:Eo.
  2:{ constructor; [..|done]; intros b; [case_decide as Hb; [|done]|..]; rewrite ?list_elem_of_singleton.
      - apply list_elem_of_singleton in Hb as ->. by rewrite Eo.
      - split; [tauto|]. intros [?|[-> [o Ho]]]; [done|congruence].
      - split; [tauto|]. intros [?|[-> [o Ho]]]; [done|congruence].
      - split; [tauto|]. intros [?|(-> & o & Ho & _)]; [done|congruence]. }
  assert (so_address o = a) as Ha by (by apply Hk).
  assert (finalised del o = if dies del o then with_flags o (suicided o) true else so_finalise o) as Hf by done.
  fold (dies del o).
  assert (∀ s1, (∀ b, stateObjects s1 !! b = if decide (a = b) then Some (finalised del o) else stateObjects s !! b) →
    stateObjectsPending s1 = stateObjectsPending s → stateObjectsDirty s1 = stateObjectsDirty s →
    (∀ b, b ∈ stateObjectsDestruct s1 ↔ b ∈ stateObjectsDestruct s ∨ (b = a ∧ dies del o = true)) →
    (sdb_trie s1 = sdb_trie s ∧ originalRoot s1 = originalRoot s ∧ snap s1 = snap s ∧ sdb_journal s1 = sdb_journal s) →
    finalises del [a] s (set_marks s1 ({[a]} ∪ stateObjectsPending s1) ({[a]} ∪ stateObjectsDirty s1)
      (stateObjectsDestruct s1))) as Hmain.
  { intros s1 Ho Hp Hdi Hde Henv. constructor; simpl; [..|done].
    - intros b. rewrite Ho. case_decide as Hab; case_decide as Hl; rewrite list_elem_of_singleton in Hl;
        try (by subst); try congruence. by rewrite <- Hab, Eo.
    - intros b. rewrite elem_of_union, elem_of_singleton, list_elem_of_singleton, Hp. naive_solver.
    - intros b. rewrite elem_of_union, elem_of_singleton, list_elem_of_singleton, Hdi. naive_solver.
    - intros b. rewrite Hde, list_elem_of_singleton. naive_solver. }
  apply Hmain; destruct (dies del o); cbn -[bool_decide];
    try (destruct (bool_decide (is_Some (snap s))); cbn); try done;
    intros b; rewrite ?Hf, ?lookup_insert, ?Ha; try done; set_solver.
Qed.

Lemma finalises_trans del l1 l2 s1 s2 s3 :
  (∀ a, a ∈ l1 → a ∉ l2) → finalises del l1 s1 s2 → finalises del l2 s2 s3 →
  finalises del (l1 ++ l2) s1 s3.
Proof.
  intros Hd [Ho Hp Hdi Hde (?&?&?&?)] [Ho' Hp' Hdi' Hde' (?&?&?&?)].
  assert (∀ a, is_Some (stateObjects s2 !! a) ↔ is_Some (stateObjects s1 !! a)) as Hs.
  { intros a. rewrite Ho. case_decide; [|done]. by rewrite fmap_is_Some. }
  assert (∀ a, a ∈ l2 → stateObjects s2 !! a = stateObjects s1 !! a) as Heq.
  { intros a Ha. rewrite Ho. case_decide as Hl; [|done]. by destruct (Hd a Hl). }
  constructor; [..|split_and!; congruence].
  - intros a. rewrite Ho'. case_decide as Hl2; case_decide as Hl; rewrite elem_of_app in Hl; try tauto.
    + by rewrite Heq.
    + rewrite Ho, decide_True by tauto. done.
    + rewrite Ho, decide_False by tauto. done.
  - intros a. rewrite Hp', Hp, Hs, elem_of_app. tauto.
  - intros a. rewrite Hdi', Hdi, Hs, elem_of_app. tauto.
  - intros a. rewrite Hde', Hde, elem_of_app. split.
    + intros [[?|?]|[Ha ?]]; [naive_solver..|]. rewrite Heq in * by done. naive_solver.
    + intros [?|[[?|Ha] ?]]; [naive_solver..|]. right. split; [done|]. rewrite Heq by done. naive_solver.
Qed.

Lemma finalises_cache del l s s' : cache_wf s → finalises del l s s' → cache_wf s'.
Proof.
  intros [Hk Hd] [Ho _ Hdi _ _]. split.
  - intros a o. rewrite Ho. case_decide; [|apply Hk].
    intros (p & Hp & ->)%fmap_Some. rewrite finalised_address. by apply Hk.
  - intros a. rewrite Hdi, Ho. intros Ha. case_decide; [rewrite fmap_is_Some|]; naive_solver.
Qed.

Lemma finalise_fold del l s :
  NoDup l → cache_wf s → finalises del l s (foldl (finalise_object del) s l).
Proof.
  intros Hn. revert s. induction Hn as [|a l Ha Hn IH]; intros s Hc; simpl.
  - constructor; [..|done]; intros a; rewrite ?decide_False by apply not_elem_of_nil; set_solver.
  - pose proof (finalise_object_spec del s a Hc) as H1.
    apply (finalises_trans del [a] l s (finalise_object del s a)); [set_solver|done|].
    apply IH. by eapply finalises_cache.
Qed.

Lemma Finalise_finalises s del :
  cache_wf s →
  ∃ s1, finalises del (range_map (dirties (sdb_journal s))).*1 s s1
    ∧ stateObjects (Finalise s del) = stateObjects s1
    ∧ stateObjectsPending (Finalise s del) = stateObjectsPending s1
    ∧ stateObjectsDirty (Finalise s del) = stateObjectsDirty s1
    ∧ stateObjectsDestruct (Finalise s del) = stateObjectsDestruct s1
    ∧ sdb_trie (Finalise s del) = sdb_trie s ∧ originalRoot (Finalise s del) = originalRoot s
    ∧ snap (Finalise s del) = snap s.
Proof.
  intros Hc. pose proof (finalise_fold del _ s (range_map_NoDup (dirties (sdb_journal s))) Hc) as Hf.
  eexists. split; [exact Hf|]. destruct Hf as [_ _ _ _ (Ht & Hr & Hs & Hj)].
  rewrite <- Ht, <- Hr, <- Hs. unfold Finalise, clearJournalAndRefund.
  set (s1 := foldl _ _ _). by destruct (entries (sdb_journal s1)).
Qed.

Lemma dirties_elem s a :
  a ∈ (range_map (dirties (sdb_journal s))).*1 ↔ is_Some (dirties (sdb_journal s) !! a).
Proof.
  rewrite list_elem_of_fmap. split.
  - intros ([b n] & -> & H). apply range_map_elem in H. eauto.
  - intros [n Hn]. exists (a, n). split; [done|]. by apply range_map_elem.
Qed.

Lemma getStateObject_cached s a o :
  stateObjects s !! a = Some o → getStateObject s a = (if deleted o then None else Some o, s).
Proof. intros H. unfold getStateObject, getDeletedStateObject. by rewrite H. Qed.

Lemma GetState_cached s a o k :
  stateObjects s !! a = Some o → deleted o = false → (GetState s a k).1 = state_of s o k.
Proof.
  intros Ho Hd. unfold GetState. rewrite (getStateObject_cached _ _ _ Ho), Hd.
  unfold state_of. by destruct (so_GetState s o k) as [[]].
Qed.

Lemma GetCommittedState_cached s a o k :
  stateObjects s !! a = Some o → deleted o = false → (GetCommittedState s a k).1 = committed_of s o k.
Proof.
  intros Ho Hd. unfold GetCommittedState. rewrite (getStateObject_cached _ _ _ Ho), Hd.
  unfold committed_of. by destruct (so_GetCommittedState s o k) as [[]].
Qed.

(** The pending slots of a finalised object hold what a read returned before. *)
Lemma committed_finalise s s' o k :
  originalRoot s' = originalRoot s → snap s' = snap s →
  (so_address o ∈ stateObjectsDestruct s' ↔ so_address o ∈ stateObjectsDestruct s) →
  committed_of s' (so_finalise o) k = state_of s o k.
Proof.
  intros Hr Hs Hd. rewrite state_of_spec. destruct (dirtyStorage o !! k) as [v|] eqn:E; simpl.
  - unfold committed_of, so_GetCommittedState. simpl. by erewrite lookup_union_Some_l.
  - apply so_GetCommittedState_ext; try done. simpl. by rewrite lookup_union_r.
Qed.

(** C27: the end of a transaction.  [Finalise] deletes the accounts the transaction
    touched that self-destructed or, when asked, are empty; of every other account it
    touched it keeps the data and makes the current slots the committed ones; it leaves
    the remaining accounts alone and drops the journal and the snapshots.  This holds for
    every order in which the runtime visits the touched accounts. *)
Theorem Finalise_spec s del a o :
  cache_wf s → stateObjects s !! a = Some o → deleted o = false →
  let s' := Finalise s del in
  entries (sdb_journal s') = [] ∧ validRevisions s' = [] ∧
  if decide (is_Some (dirties (sdb_journal s) !! a)) then
    a ∈ stateObjectsPending s' ∧ a ∈ stateObjectsDirty s' ∧
    if suicided o || (del && so_empty o)
    then (Exist s' a).1 = false ∧ a ∈ stateObjectsDestruct s'
    else (GetBalance s' a).1 = (GetBalance s a).1 ∧ (GetNonce s' a).1 = (GetNonce s a).1
         ∧ (GetCodeHash s' a).1 = (GetCodeHash s a).1
         ∧ ∀ k, (GetCommittedState s' a k).1 = (GetState s a k).1
                ∧ (GetState s' a k).1 = (GetState s a k).1
  else stateObjects s' !! a = Some o.
Proof.
  intros Hc Ho Hd s'. pose proof (proj1 Hc a o Ho) as Ha.
  split; [subst s'; unfold Finalise, clearJournalAndRefund; simpl;
          by destruct (entries (sdb_journal (foldl _ _ _))) eqn:E|].
  split; [done|].
  destruct (Finalise_finalises s del Hc) as (s1 & [Ho1 Hp1 Hd1 He1 _] & Hos & Hps & Hds & Hes & _ & Hr & Hs).
  fold s' in Hos, Hps, Hds, Hes, Hr, Hs. clearbody s'. specialize (Ho1 a). rewrite Ho, <- Hos in Ho1.
  destruct (decide (is_Some _)) as [Hdirty|Hclean]; rewrite <- dirties_elem in *.
  2:{ by rewrite Ho1, decide_False. }
  rewrite decide_True in Ho1 by done. simpl in Ho1. unfold finalised in Ho1. fold (dies del o).
  split_and!; [rewrite Hps, Hp1, Ho; by eauto | rewrite Hds, Hd1, Ho; by eauto|].
  destruct (dies del o) eqn:Edies.
  - split; [unfold Exist; by rewrite (getStateObject_cached _ _ _ Ho1)|].
    rewrite Hes, He1. eauto.
  - assert (so_address o ∈ stateObjectsDestruct s' ↔ so_address o ∈ stateObjectsDestruct s) as Hde.
    { rewrite Hes, He1, Ha. split; [|tauto]. intros [?|(_ & p & Hp & Hdp)]; [done|congruence]. }
    assert (∀ k, committed_of s' (so_finalise o) k = state_of s o k) as Hcom
      by (intros; by apply committed_finalise).
    unfold GetBalance, GetNonce, GetCodeHash.
    rewrite (getStateObject_cached _ _ _ Ho1), (getStateObject_cached _ _ _ Ho). simpl. rewrite Hd.
    split_and!; [done..|]. intros k.
    erewrite GetCommittedState_cached, !GetState_cached by done.
    rewrite (state_of_spec s' (so_finalise o)), Hcom. done.
Qed.

(** ** Writing to the tries *)

(** The documented behaviour of [state.Trie]: a read returns the last write of the key. *)
Record trie_laws : Prop := {
  UpdateAccount_Get : ∀ tr a acc tr', UpdateAccount tr a acc = inr tr' →
    ∀ b, GetAccount tr' b = if decide (a = b) then inr (Some acc) else GetAccount tr b;
  DeleteAccount_Get : ∀ tr a tr', DeleteAccount tr a = inr tr' →
    ∀ b, GetAccount tr' b = if decide (a = b) then inr None else GetAccount tr b;
  UpdateStorage_Get : ∀ tr a key v tr', UpdateStorage tr a key v = inr tr' →
    ∀ key', GetStorage tr' a key' = if decide (key = key') then inr v else GetStorage tr a key';
  DeleteStorage_Get : ∀ tr a key tr', DeleteStorage tr a key = inr tr' →
    ∀ key', GetStorage tr' a key' = if decide (key = key') then inr [] else GetStorage tr a key';
}.

Lemma setError_dbErr s e : dbErr (setError s e) ≠ None.
Proof. unfold setError. destruct (dbErr s) eqn:E; [by rewrite E|done]. Qed.

Lemma for_each_cons {S} (f : S → Address → res S) a l (s : S) :
  for_each f (a :: l) s = f s a ≫= for_each f l.
Proof.
  unfold for_each. simpl. destruct (f s a) as [s1|m]; simpl; [done|].
  induction l as [|b l IH]; simpl; [done|exact IH].
Qed.

(** Storage flushes touch the object, the snapshot data and the error only. *)
Record flush_frame s s' : Prop := {
  ff_trie : sdb_trie s' = sdb_trie s;
  ff_objects : stateObjects s' = stateObjects s;
  ff_pending : stateObjectsPending s' = stateObjectsPending s;
  ff_err : dbErr s' = None → dbErr s = None;
}.

Lemma flush_frame_refl s : flush_frame s s.
Proof. done. Qed.

Lemma flush_frame_trans s1 s2 s3 : flush_frame s1 s2 → flush_frame s2 s3 → flush_frame s1 s3.
Proof. intros [] []. constructor; try congruence. auto. Qed.

Lemma flush_frame_error s e : flush_frame s (setError s e).
Proof.
  constructor; by destruct (setError_cases s e) as [-> | ->].
Qed.

(** What a flush keeps of the object. *)
Definition same_account o o' : Prop :=
  so_address o' = so_address o ∧ deleted o' = deleted o ∧ dirtyStorage o' = dirtyStorage o.

Lemma so_getTrie_same s o r o' : so_getTrie s o = (r, o') →
  same_account o o' ∧ originStorage o' = originStorage o ∧ pendingStorage o' = pendingStorage o
  ∧ (∀ tr, r = inr tr → so_trie o' = Some tr).
Proof.
  unfold so_getTrie. destruct (so_trie o) eqn:E; [|destruct (OpenStorageTrie _ _ _)];
    intros [= <- <-]; split_and!; simpl; try done; by intros ? [= <-].
Qed.

#[local] Opaque Hash_Bytes TrimLeftZeroes EncodeToBytes Keccak256Hash.

Lemma updateTrie_loop_frame slots s o tr r o' s' :
  so_trie o = Some tr → updateTrie_loop slots s o tr = (r, o', s') →
  flush_frame s s' ∧ same_account o o' ∧ pendingStorage o' = pendingStorage o
  ∧ (∀ tr', r = inr tr' → so_trie o' = Some tr').
Proof.
  revert s o tr. induction slots as [|[key value] slots IH]; intros s o tr Ht; simpl.
  { intros [= <- <- <-]. split_and!; auto using flush_frame_refl; [done|]. by intros ? [= <-]. }
  destruct (value =? _); [by apply IH|].
  destruct (value =? 0); simpl;
    (destruct (DeleteStorage _ _ _) as [e|tr1] || destruct (UpdateStorage _ _ _ _) as [e|tr1]);
    try (intros [= <- <- <-]; split_and!; auto using flush_frame_error; done);
    intros H; apply IH in H as (Hf & (? & ? & ?) & ? & ?); try done;
    (split_and!; [|done..]); eapply flush_frame_trans; [|done| |done];
    destruct (bool_decide (is_Some (snap s))); done.
Qed.

Lemma so_updateTrie_frame s o r o' s' :
  so_updateTrie s o = (r, o', s') →
  flush_frame s s' ∧ so_address o' = so_address o ∧ deleted o' = deleted o.
Proof.
  unfold so_updateTrie. case_bool_decide.
  { intros [= <- <- <-]. auto using flush_frame_refl. }
  destruct (so_getTrie s (so_finalise o)) as [[e|tr] o1] eqn:Et;
    apply so_getTrie_same in Et as ((Ha & Hd & _) & _ & _ & Ht); simpl in Ha, Hd.
  { intros [= <- <- <-]. auto using flush_frame_error. }
  destruct (updateTrie_loop _ _ _ _) as [[r1 o2] s2] eqn:El.
  apply updateTrie_loop_frame in El as (Hf & (Ha2 & Hd2 & _) & _ & _); [|by apply Ht].
  destruct r1; intros [= <- <- <-]; simpl; split_and!; try done; congruence.
Qed.

Lemma so_updateRoot_frame s o o' s' :
  so_updateRoot s o = (o', s') →
  flush_frame s s' ∧ so_address o' = so_address o ∧ deleted o' = deleted o.
Proof.
  unfold so_updateRoot. destruct (so_updateTrie s o) as [[r o1] s1] eqn:E.
  apply so_updateTrie_frame in E as (? & ? & ?). destruct r as [|[]]; by intros [= <- <-].
Qed.

(** The cache is keyed by the addresses of the objects. *)
Definition keyed s : Prop := ∀ a o, stateObjects s !! a = Some o → so_address o = a.

Lemma keyed_put s s1 a o :
  keyed s → stateObjects s1 = stateObjects s → so_address o = a → keyed (put s1 a o).
Proof.
  intros Hk Ho Ha b p. simpl. rewrite Ho, lookup_insert. case_decide; [naive_solver|apply Hk].
Qed.

(** The first loop of [IntermediateRoot] keeps the account trie. *)
Lemma root_rounds l s s' :
  for_each root_round l s = Ok s' → keyed s →
  sdb_trie s' = sdb_trie s ∧ stateObjectsPending s' = stateObjectsPending s ∧ keyed s'.
Proof.
  revert s. induction l as [|a l IH]; intros s H Hc; [by injection H as <-|].
  rewrite for_each_cons in H. apply res_bind_Ok in H as (s1 & H1 & H).
  unfold root_round in H1. destruct (stateObjects s !! a) as [o|] eqn:Eo; [|done]. simpl in H1.
  destruct (deleted o); [injection H1 as <-; by apply IH|].
  destruct (so_updateRoot s o) as [o' s2] eqn:Eu. injection H1 as <-.
  apply so_updateRoot_frame in Eu as ([Ht Ho Hp _] & Ha & _).
  destruct (IH _ H) as (Ht' & Hp' & Hk); simpl in *; [|split_and!; [congruence..|done]].
  apply (keyed_put s); [done..|]. rewrite Ha. by apply Hc.
Qed.

(** What the account trie holds for an object. *)
Definition stored (r : option StateObject) : option StateAccount :=
  match r with Some o => if deleted o then None else Some (so_account o) | None => None end.

Lemma account_round_spec s a s' :
  trie_laws → keyed s → account_round s a = Ok s' → dbErr s' = None →
  stateObjects s' = stateObjects s ∧ stateObjectsPending s' = stateObjectsPending s ∧ dbErr s = None
  ∧ ∀ b, GetAccount (sdb_trie s') b
         = if decide (a = b) then inr (stored (stateObjects s !! a)) else GetAccount (sdb_trie s) b.
Proof.
  intros Hl Hk. unfold account_round. destruct (stateObjects s !! a) as [o|] eqn:Eo; [|done]. simpl.
  pose proof (Hk a o Eo) as Ha. destruct (deleted o) eqn:Ed.
  - intros [= <-]. unfold deleteStateObject.
    destruct (DeleteAccount _ _) as [e|tr] eqn:E; [by intros H%setError_dbErr|].
    intros He. split_and!; [done..|]. intros b. simpl. by rewrite (DeleteAccount_Get Hl _ _ _ E), Ha.
  - unfold updateStateObject.
    destruct (UpdateAccount _ _ _) as [e|tr] eqn:E.
    { intros H He. exfalso. apply (setError_dbErr s (errUpdateObject (so_address o) e)).
      destruct (bool_decide _); [apply res_bind_Ok in H as (d & _ & H)|]; by injection H as <-. }
    intros H He. cut (sdb_trie s' = tr ∧ stateObjects s' = stateObjects s
      ∧ stateObjectsPending s' = stateObjectsPending s ∧ dbErr s = None).
    { intros (-> & ? & ? & ?). split_and!; [done..|]. intros b.
      by rewrite (UpdateAccount_Get Hl _ _ _ _ E), Ha. }
    destruct (bool_decide _); [apply res_bind_Ok in H as (d & _ & H)|]; by injection H as <-.
Qed.

Lemma account_rounds l s s' :
  trie_laws → NoDup l → for_each account_round l s = Ok s' → keyed s → dbErr s' = None →
  stateObjects s' = stateObjects s ∧ stateObjectsPending s' = stateObjectsPending s ∧ dbErr s = None
  ∧ ∀ b, GetAccount (sdb_trie s') b
         = if decide (b ∈ l) then inr (stored (stateObjects s !! b)) else GetAccount (sdb_trie s) b.
Proof.
  intros Hl Hn. revert s. induction Hn as [|a l Ha Hn IH]; intros s H Hk He.
  { injection H as <-. split_and!; [done..|]. intros b. by rewrite decide_False by apply not_elem_of_nil. }
  rewrite for_each_cons in H. apply res_bind_Ok in H as (s1 & H1 & H).
  assert (keyed s1) as Hk1.
  { revert H1. unfold account_round. destruct (stateObjects s !! a) as [o|]; [|done]. simpl.
    destruct (deleted o).
    - intros [= <-]. unfold deleteStateObject. destruct (DeleteAccount _ _) as [e|]; [|done].
      by destruct (setError_cases s (errDeleteObject (so_address o) e)) as [-> | ->].
    - unfold updateStateObject. destruct (UpdateAccount _ _ _) as [e|];
        [destruct (setError_cases s (errUpdateObject (so_address o) e)) as [-> | ->]|]; simpl;
        destruct (bool_decide _); (intros (d & _ & H1)%res_bind_Ok || intros H1); by injection H1 as <-. }
  destruct (IH s1 H Hk1 He) as (Ho & Hp & He1 & Hg).
  destruct (account_round_spec s a s1 Hl Hk H1 He1) as (Ho1 & Hp1 & He0 & Hg1).
  split_and!; [congruence..|]. intros b. rewrite Hg. case_decide as Hb; case_decide as Hb';
    rewrite elem_of_cons in Hb'; try tauto.
  - by rewrite Ho1.
  - rewrite Hg1. destruct (decide (a = b)) as [<-|]; [done|]. by destruct Hb' as [<-|].
  - rewrite Hg1, decide_False by naive_solver. done.
Qed.

(** C30: The state root covers the block.  When [IntermediateRoot] returns and recorded
    no database error, the account trie holds, for every account changed since the last
    call, the account as it is cached (or nothing if it was deleted), every other account is
    as before, no account is pending, and the hash returned is the hash of this trie; this
    holds for every order in which the runtime visits the accounts. *)
Theorem IntermediateRoot_accounts s del root s' :
  trie_laws → cache_wf s → IntermediateRoot s del = Ok (root, s') → dbErr s' = None →
  root = TrieHash (sdb_trie s') ∧ stateObjectsPending s' = ∅
  ∧ ∀ a, GetAccount (sdb_trie s') a
         = if decide (a ∈ stateObjectsPending (Finalise s del))
           then inr (stored (stateObjects s' !! a)) else GetAccount (sdb_trie s) a.
Proof.
  intros Hl Hc H He. unfold IntermediateRoot in H.
  apply res_bind_Ok in H as (s1 & H1 & H). apply res_bind_Ok in H as (s2 & H2 & [= <- <-]).
  destruct (Finalise_finalises s del Hc) as (s0 & Hf & Ho & Hp & _ & _ & Ht & _).
  apply root_rounds in H1 as (Ht1 & Hp1 & Hk1).
  2:{ intros a o. rewrite Ho. apply (finalises_cache _ _ _ _ Hc Hf). }
  apply account_rounds in H2 as (Ho2 & Hp2 & _ & Hg); [|done| |done|done].
  2:{ rewrite range_set_perm. apply NoDup_elements. }
  split_and!; [done..|]. intros a. cbn [sdb_trie set_marks stateObjects].
  rewrite Hg, Ho2, Ht1, Ht.
  destruct (decide (a ∈ range_set _)) as [Ha|Ha]; rewrite range_set_elem, Hp1 in Ha; by case_decide.
Qed.

(** ** Writing a storage trie *)

#[local] Transparent TrimLeftZeroes.

Lemma TrimLeftZeroes_value l : be_value (TrimLeftZeroes l) = be_value l.
Proof.
  induction l as [|x l IH]; [done|]. cbn [TrimLeftZeroes]. destruct (Z.eqb_spec x 0) as [->|]; [|done].
  by rewrite IH, be_value_cons.
Qed.

Lemma TrimLeftZeroes_length l : (length (TrimLeftZeroes l) ≤ length l)%nat.
Proof.
  induction l as [|x l IH]; [done|]. cbn [TrimLeftZeroes length]. destruct (x =? 0); simpl; lia.
Qed.

#[local] Opaque TrimLeftZeroes.

(** A slot written in its shortest form reads back. *)
Lemma BytesToHash_trim v : hash_ok v = true → BytesToHash (TrimLeftZeroes (Hash_Bytes v)) = v.
Proof.
  intros Hv. rewrite <- (BytesToHash_Bytes v) at 2 by done. unfold BytesToHash, crop_left.
  pose proof (TrimLeftZeroes_length (Hash_Bytes v)) as Hl.
  pose proof (Hash_Bytes_length v) as Hb. change 32%nat with HashLength in Hb.
  replace (length (TrimLeftZeroes (Hash_Bytes v)) - HashLength)%nat with 0%nat by lia.
  rewrite Hb, Nat.sub_diag, !drop_0. apply TrimLeftZeroes_value.
Qed.

Lemma Hash_Bytes_inj h k : hash_ok h = true → hash_ok k = true → Hash_Bytes h = Hash_Bytes k → h = k.
Proof. intros Hh Hk H. rewrite <- (BytesToHash_Bytes h), <- (BytesToHash_Bytes k) by done. by rewrite H. Qed.

(** What a storage trie holds for a slot. *)
Definition read_slot (tr : Trie) a k : Hash :=
  match GetStorage tr a (Hash_Bytes k) with inr v => BytesToHash v | inl _ => 0 end.

(** One write of the loop. *)
Lemma slot_write (tr tr' : Trie) a k v k' :
  trie_laws → hash_ok k = true → hash_ok v = true → hash_ok k' = true →
  (if v =? 0 then DeleteStorage tr a (Hash_Bytes k)
   else UpdateStorage tr a (Hash_Bytes k) (TrimLeftZeroes (Hash_Bytes v))) = inr tr' →
  read_slot tr' a k' = if decide (k = k') then v else read_slot tr a k'.
Proof.
  intros Hl Hk Hv Hk' H. unfold read_slot. destruct (Z.eqb_spec v 0) as [->|].
  - rewrite (DeleteStorage_Get Hl _ _ _ _ H). destruct (decide (k = k')) as [<-|Hne].
    + by rewrite decide_True.
    + rewrite decide_False; [done|]. intros E. by apply Hne, Hash_Bytes_inj.
  - rewrite (UpdateStorage_Get Hl _ _ _ _ _ H). destruct (decide (k = k')) as [<-|Hne].
    + rewrite decide_True by done. by apply BytesToHash_trim.
    + rewrite decide_False; [done|]. intros E. by apply Hne, Hash_Bytes_inj.
Qed.

Lemma updateTrie_loop_slots slots s o tr tr' o' s' :
  trie_laws → NoDup slots.*1 → Forall (λ p, hash_ok p.1 = true ∧ hash_ok p.2 = true) slots →
  (∀ k v, (k, v) ∈ slots → read_slot tr (so_address o) k = default 0 (originStorage o !! k)) →
  updateTrie_loop slots s o tr = (inr tr', o', s') →
  (∀ k v, (k, v) ∈ slots → read_slot tr' (so_address o) k = v)
  ∧ (∀ k, hash_ok k = true → k ∉ slots.*1 → read_slot tr' (so_address o) k = read_slot tr (so_address o) k).
Proof.
  intros Hl. revert s o tr. induction slots as [|[key value] slots IH]; intros s o tr Hn Hok Horig H.
  { injection H as <- _ _. split; [set_solver|done]. }
  apply NoDup_cons in Hn as [Hnk Hn]. apply Forall_cons in Hok as [[Hk Hv] Hok]. simpl in Hk, Hv, Hnk.
  cbn [updateTrie_loop] in H. destruct (Z.eqb_spec value (default 0 (originStorage o !! key))) as [Heq|Hneq].
  - apply IH in H as [Hin Hout]; [|done..|intros; apply (Horig k v); set_solver]. split.
    + intros k v [[= -> ->]|Hin']%elem_of_cons; [|by apply Hin]. rewrite Hout by done.
      rewrite (Horig key value) by set_solver. done.
    + intros k Hk' Hout'. apply Hout; [done|]. set_solver.
  - set (o1 := cache_slot o key value) in *.
    assert (∃ tr1 s1, (if value =? 0 then DeleteStorage tr (so_address o) (Hash_Bytes key)
        else UpdateStorage tr (so_address o) (Hash_Bytes key) (TrimLeftZeroes (Hash_Bytes value))) = inr tr1
      ∧ updateTrie_loop slots s1 (with_trie o1 (Some tr1)) tr1 = (inr tr', o', s')) as (tr1 & s1 & Hw & Hloop).
    { destruct (value =? 0); simpl in H;
        (destruct (DeleteStorage _ _ _) as [|tr1] || destruct (UpdateStorage _ _ _ _) as [|tr1]);
        try discriminate H; eauto. }
    assert (∀ k, hash_ok k = true → read_slot tr1 (so_address o) k
              = if decide (key = k) then value else read_slot tr (so_address o) k) as Hw1
      by (intros; by eapply slot_write).
    assert (∀ k v, (k, v) ∈ slots → key ≠ k ∧ hash_ok k = true) as Hne.
    { intros k v Hkv. split; [|by eapply Forall_forall in Hok; [|exact Hkv]; apply Hok].
      intros ->. apply Hnk, list_elem_of_fmap. by exists (k, v). }
    apply IH in Hloop as [Hin Hout]; [|done|done|].
    2:{ intros k v Hkv. destruct (Hne k v Hkv). change (so_address (with_trie o1 (Some tr1))) with (so_address o).
        rewrite Hw1, decide_False by done. unfold o1. simpl. rewrite lookup_insert_ne by done.
        apply (Horig k v). set_solver. }
    split.
    + intros k v [[= -> ->]|Hin']%elem_of_cons; [|by apply Hin].
      rewrite Hout by done. change (so_address (with_trie o1 (Some tr1))) with (so_address o).
      by rewrite Hw1, decide_True.
    + intros k Hk' Hout'. apply not_elem_of_cons in Hout' as [Hne' Hout'].
      rewrite Hout by done. change (so_address (with_trie o1 (Some tr1))) with (so_address o).
      rewrite Hw1, decide_False by done. done.
Qed.

(** A storage flush reads back.  When [updateTrie] succeeds, a read of the storage
    trie returns the value of every dirty or pending slot, every other slot is as before,
    and nothing is left pending; the slots whose cached original equals the new value need
    not be written, because the cache agrees with the trie. *)
Theorem updateTrie_reads_back s o tr tr' o' s' :
  trie_laws → let writes := dirtyStorage o ∪ pendingStorage o in
  (∀ k v, writes !! k = Some v → hash_ok k = true ∧ hash_ok v = true) →
  (so_getTrie s o).1 = inr tr →
  (∀ k v, writes !! k = Some v → read_slot tr (so_address o) k = default 0 (originStorage o !! k)) →
  so_updateTrie s o = (inr (Some tr'), o', s') → writes ≠ ∅ →
  (∀ k v, writes !! k = Some v → read_slot tr' (so_address o) k = v)
  ∧ (∀ k, hash_ok k = true → writes !! k = None →
       read_slot tr' (so_address o) k = read_slot tr (so_address o) k)
  ∧ pendingStorage o' = ∅ ∧ dirtyStorage o' = ∅ ∧ so_trie o' = Some tr'.
Proof.
  intros Hl writes Hok Htr Horig H Hne. unfold so_updateTrie in H.
  rewrite bool_decide_false in H by done.
  destruct (so_getTrie s (so_finalise o)) as [r o1] eqn:Et.
  assert (r = inr tr) as ->.
  { rewrite <- Htr. revert Et. unfold so_getTrie. simpl. destruct (so_trie o); [by intros [= <- _]|].
    destruct (OpenStorageTrie _ _ _); by intros [= <- _]. }
  apply so_getTrie_same in Et as ((Ha & _ & Hd) & Ho & Hp & Ht). simpl in Ha, Hd, Ho, Hp.
  rewrite Hp in H. fold writes in H.
  destruct (updateTrie_loop (range_map writes) s o1 tr) as [[[e|tr1] o2] s2] eqn:El; [done|].
  injection H as <- <- <-.
  pose proof (updateTrie_loop_frame _ _ _ _ _ _ _ (Ht tr eq_refl) El) as (_ & (_ & _ & Hd2) & _ & Ht2).
  apply updateTrie_loop_slots in El as [Hin Hout]; [|done|apply range_map_NoDup|..].
  - rewrite Ha in Hin, Hout. split_and!.
    + intros k v Hkv. apply Hin. by apply range_map_elem.
    + intros k Hk Hn. apply Hout; [done|]. rewrite list_elem_of_fmap.
      intros ([k' v] & -> & Hkv%range_map_elem). simpl in Hn. congruence.
    + done.
    + simpl. congruence.
    + simpl. by apply Ht2.
  - apply Forall_forall. intros [k v] Hkv%range_map_elem. by apply Hok.
  - intros k v Hkv%range_map_elem. rewrite Ha, Ho. by apply (Horig k v).
Qed.

End commit.

(** ** Witnesses *)

Lemma mem_trie_laws : @trie_laws mem_database.
Proof.
  constructor; simpl.
  - intros tr a acc tr' [= <-] b. simpl. rewrite lookup_insert. by case_decide.
  - intros tr a tr' [= <-] b. simpl. rewrite lookup_delete. by case_decide.
  - intros tr a key v tr' [= <-] key'. simpl. rewrite lookup_insert. by case_decide.
  - intros tr a key tr' [= <-] key'. simpl. rewrite lookup_delete. by case_decide.
Qed.

#[local] Existing Instance toy_crypto.
#[local] Existing Instance mem_database.
#[local] Existing Instance reference_runtime.

Definition paid_state : StateDB := AddBalance mem_state 7 5.

Lemma paid_state_wf : sdb_wf paid_state.
Proof. destruct (AddBalance_step mem_state 7 5 (fresh_wf _ _ _)) as [es H]. apply H. Qed.

Lemma Finalise_spec_witness :
  ∃ o, stateObjects paid_state !! 7 = Some o
    ∧ let s' := Finalise paid_state true in
      entries (sdb_journal s') = [] ∧ validRevisions s' = [] ∧
      if decide (is_Some (dirties (sdb_journal paid_state) !! 7)) then
        7 ∈ stateObjectsPending s' ∧ 7 ∈ stateObjectsDirty s' ∧
        if suicided o || (true && so_empty o)
        then (Exist s' 7).1 = false ∧ 7 ∈ stateObjectsDestruct s'
        else (GetBalance s' 7).1 = (GetBalance paid_state 7).1
             ∧ (GetNonce s' 7).1 = (GetNonce paid_state 7).1
             ∧ (GetCodeHash s' 7).1 = (GetCodeHash paid_state 7).1
             ∧ ∀ k, (GetCommittedState s' 7 k).1 = (GetState paid_state 7 k).1
                    ∧ (GetState s' 7 k).1 = (GetState paid_state 7 k).1
      else stateObjects s' !! 7 = Some o.
Proof.
  assert (H : (deleted <$> stateObjects paid_state !! 7) = Some false) by (vm_compute; reflexivity).
  destruct (stateObjects paid_state !! 7) as [o|] eqn:E; [|discriminate H].
  exists o. split; [reflexivity|].
  apply (Finalise_spec paid_state true 7 o).
  - apply paid_state_wf.
  - exact E.
  - injection H as H. exact H.
Defined.

Lemma IntermediateRoot_accounts_witness :
  ∃ root s', IntermediateRoot paid_state true = Ok (root, s')
    ∧ root = TrieHash (sdb_trie s') ∧ stateObjectsPending s' = ∅
    ∧ ∀ a, GetAccount (sdb_trie s') a
           = if decide (a ∈ stateObjectsPending (Finalise paid_state true))
             then inr (stored (stateObjects s' !! a)) else GetAccount (sdb_trie paid_state) a.
Proof.
  assert (H : match IntermediateRoot paid_state true with
              | Ok (_, s') => match dbErr s' with None => true | Some _ => false end
              | Panic _ => false end = true) by (vm_compute; reflexivity).
  destruct (IntermediateRoot paid_state true) as [[root s']|] eqn:E; [|discriminate H].
  exists root, s'. split; [reflexivity|].
  apply (IntermediateRoot_accounts paid_state true root s').
  - apply mem_trie_laws.
  - apply paid_state_wf.
  - exact E.
  - destruct (dbErr s'); [discriminate H|reflexivity].
Defined.

Definition dirty_object : StateObject := so_setState (newObject 7 (mkStateAccount 0 None 0 None)) 1 9.

Lemma dirty_object_writes k v :
  (dirtyStorage dirty_object ∪ pendingStorage dirty_object) !! k = Some v → k = 1 ∧ v = 9.
Proof.
  simpl. rewrite (right_id_L ∅ (∪)). rewrite lookup_insert_Some, lookup_empty. naive_solver.
Qed.

Lemma updateTrie_reads_back_witness :
  ∃ tr' o' s', so_updateTrie mem_state dirty_object = (inr (Some tr'), o', s')
    ∧ (∀ k v, (dirtyStorage dirty_object ∪ pendingStorage dirty_object) !! k = Some v →
         read_slot tr' (so_address dirty_object) k = v)
    ∧ (∀ k, hash_ok k = true → (dirtyStorage dirty_object ∪ pendingStorage dirty_object) !! k = None →
         read_slot tr' (so_address dirty_object) k
         = read_slot (mkMemTrie ∅ ∅ : Trie) (so_address dirty_object) k)
    ∧ pendingStorage o' = ∅ ∧ dirtyStorage o' = ∅ ∧ so_trie o' = Some tr'.
Proof.
  assert (H : match so_updateTrie mem_state dirty_object with
              | (inr (Some _), _, _) => true | _ => false end = true) by (vm_compute; reflexivity).
  destruct (so_updateTrie mem_state dirty_object) as [[[e|[tr'|]] o'] s'] eqn:E; try discriminate H.
  exists tr', o', s'. split; [reflexivity|].
  apply (updateTrie_reads_back mem_state dirty_object (mkMemTrie ∅ ∅) tr' o' s').
  - apply mem_trie_laws.
  - intros k v [-> ->]%dirty_object_writes. split; reflexivity.
  - reflexivity.
  - intros k v [-> ->]%dirty_object_writes. vm_compute. reflexivity.
  - exact E.
  - intros Hw. apply (f_equal (lookup 1)) in Hw. simpl in Hw.
    rewrite (right_id_L ∅ (∪)), lookup_insert_eq, lookup_empty in Hw. discriminate Hw.
Defined.
