(* ===== verification/StateValues.v ===== *)
(** * Accounts as values

    What the getters of the state database return after its setters: the account data of
    every address, as a function of the database. *)

From S2P Require Import Prelude Bytes Params RlpEncode RlpRaw Common AccessList.
From S2P Require Import StateDB StateEquiv StateRevert StateSteps StateRefine StateFrame.

Section values.
Context {Cr : Crypto} {DB : Database} {GR : GoRuntime}.
Implicit Types (s : StateDB) (a b : Address).

(** The data of a live account. *)
Definition account s a : option account_data := so_data <$> live (peek s a).

Definition balance s a : Z := from_option d_Balance 0 (account s a).
Definition nonce s a : Z := from_option d_Nonce 0 (account s a).

(** A new account. *)
Definition empty_account : account_data := mkData 0 0 EmptyRootHash EmptyCodeHash.
Definition account_or_new s a : account_data := default empty_account (account s a).

Lemma GetBalance_value s a : (GetBalance s a).1 = balance s a.
Proof.
  unfold GetBalance, balance, account. destruct (getStateObject s a) as [r s'] eqn:E.
  apply getStateObject_spec in E as (-> & _). by destruct (live (peek s a)).
Qed.
Lemma GetNonce_value s a : (GetNonce s a).1 = nonce s a.
Proof.
  unfold GetNonce, nonce, account. destruct (getStateObject s a) as [r s'] eqn:E.
  apply getStateObject_spec in E as (-> & _). by destruct (live (peek s a)).
Qed.
Lemma GetCodeHash_value s a : (GetCodeHash s a).1 = from_option d_CodeHash 0 (account s a).
Proof.
  unfold GetCodeHash, account. destruct (getStateObject s a) as [r s'] eqn:E.
  apply getStateObject_spec in E as (-> & _). by destruct (live (peek s a)).
Qed.
Lemma Exist_value s a : (Exist s a).1 = bool_decide (is_Some (account s a)).
Proof.
  unfold Exist, account. destruct (getStateObject s a) as [r s'] eqn:E.
  apply getStateObject_spec in E as (-> & _). by destruct (live (peek s a)).
Qed.

Lemma account_equiv s t a : state_equiv s t → account s a = account t a.
Proof.
  intros H. unfold account. destruct (peek_equiv s t a H) as [o o' Ho|]; [|done].
  simpl. f_equal. apply Ho.
Qed.

Lemma account_or_new_balance s a : d_Balance (account_or_new s a) = balance s a.
Proof. unfold account_or_new, balance. by destruct (account s a). Qed.
Lemma account_or_new_nonce s a : d_Nonce (account_or_new s a) = nonce s a.
Proof. unfold account_or_new, nonce. by destruct (account s a). Qed.

(** States with the same objects have the same accounts. *)
Lemma account_objects s t a :
  stateObjects s = stateObjects t → sdb_trie s = sdb_trie t → snap s = snap t → account s a = account t a.
Proof.
  intros H1 H2 H3. unfold account, peek. rewrite H1. destruct (stateObjects t !! a); [done|].
  by rewrite (load_account_ext s t).
Qed.

Lemma GetOrNewStateObject_value s a o s' : GetOrNewStateObject s a = (o, s') →
  so_data o = account_or_new s a ∧ deleted o = false ∧ (∀ b, b ≠ a → account s' b = account s b).
Proof.
  unfold GetOrNewStateObject. destruct (getStateObject s a) as [r s1] eqn:E.
  apply getStateObject_spec in E as (-> & Ho & Hq). unfold account_or_new, account at 1.
  assert (∀ b, account s1 b = account s b) as Hacc by (intros; apply account_equiv, Hq).
  destruct (live (peek s a)) as [p|] eqn:El.
  - intros [= <- <-]. apply live_Some in El as [_ Hd]. by split_and!.
  - rewrite createObject_eq. destruct (getDeletedStateObject s1 a) as [r2 s2] eqn:E2.
    apply getDeletedStateObject_spec in E2 as (-> & Ho2 & Hq2). intros [= <- <-].
    split_and!; [done..|]. intros b Hb. rewrite <- Hacc, <- (account_equiv s2 s1) by apply Hq2.
    unfold account, setStateObject. rewrite peek_put. change (so_address (blank a)) with a.
    rewrite decide_False by done. do 2 f_equal. destruct (peek s1 a) as [p|]; [|by apply peek_ext].
    apply peek_ext; unfold reset_state, reset_entry; by case_bool_decide.
Qed.

(** A setter changes the account of its address only. *)
Lemma modify_account s a f g :
  (∀ s o, stateObjects (f s o).1 = stateObjects s ∧ sdb_trie (f s o).1 = sdb_trie s ∧ snap (f s o).1 = snap s) →
  (∀ s o, so_data (f s o).2 = g (so_data o) ∧ deleted (f s o).2 = deleted o) →
  ∀ b, account (on_object s a f) b = if decide (a = b) then Some (g (account_or_new s a)) else account s b.
Proof.
  intros Hs Ho b. unfold on_object. destruct (GetOrNewStateObject s a) as [o s1] eqn:E.
  apply GetOrNewStateObject_value in E as (Hd & Hdel & Hb). specialize (Hs s1 o). specialize (Ho s1 o).
  destruct (f s1 o) as [s2 o2]. simpl in *. destruct Hs as (Hs1 & Hs2 & Hs3), Ho as (Ho1 & Ho2).
  unfold account at 1. rewrite peek_put. destruct (decide (a = b)) as [<-|Hne].
  - simpl. rewrite Ho2, Hdel. simpl. by rewrite Ho1, Hd.
  - rewrite <- Hb by done. change (account s2 b = account s1 b). by apply account_objects.
Qed.

Definition add_balance (v : Z) (d : account_data) : account_data :=
  mkData (d_Nonce d) (d_Balance d + v) (d_Root d) (d_CodeHash d).
Definition with_nonce (n : Z) (d : account_data) : account_data :=
  mkData n (d_Balance d) (d_Root d) (d_CodeHash d).

Lemma AddBalance_account s a v b :
  account (AddBalance s a v) b = if decide (a = b) then Some (add_balance v (account_or_new s a)) else account s b.
Proof.
  apply modify_account; intros t o; unfold so_AddBalance, so_touch; destruct (Z.eqb_spec v 0) as [->|].
  - by repeat case_match.
  - done.
  - simpl. split; [|done]. unfold add_balance. rewrite Z.add_0_r. by destruct (so_data o).
  - done.
Qed.

Lemma SubBalance_account s a v b :
  account (SubBalance s a v) b
  = if decide (a = b) then Some (add_balance (- v) (account_or_new s a)) else account s b.
Proof.
  apply modify_account; intros t o; unfold so_SubBalance; destruct (Z.eqb_spec v 0) as [->|]; try done.
  simpl. split; [|done]. unfold add_balance. rewrite Z.add_0_r. by destruct (so_data o).
Qed.

Lemma SetNonce_account s a n b :
  account (SetNonce s a n) b = if decide (a = b) then Some (with_nonce n (account_or_new s a)) else account s b.
Proof. by apply modify_account. Qed.

Lemma balance_AddBalance s a v b : balance (AddBalance s a v) b = balance s b + if decide (a = b) then v else 0.
Proof.
  unfold balance at 1. rewrite AddBalance_account. destruct (decide (a = b)) as [<-|]; [|unfold balance; lia].
  simpl. by rewrite account_or_new_balance.
Qed.
Lemma balance_SubBalance s a v b : balance (SubBalance s a v) b = balance s b - if decide (a = b) then v else 0.
Proof.
  unfold balance at 1. rewrite SubBalance_account. destruct (decide (a = b)) as [<-|]; [|unfold balance; lia].
  simpl. rewrite account_or_new_balance. lia.
Qed.
Lemma balance_SetNonce s a n b : balance (SetNonce s a n) b = balance s b.
Proof.
  unfold balance at 1. rewrite SetNonce_account. destruct (decide (a = b)) as [<-|]; [|done].
  simpl. by rewrite account_or_new_balance.
Qed.
Lemma nonce_AddBalance s a v b : nonce (AddBalance s a v) b = nonce s b.
Proof.
  unfold nonce at 1. rewrite AddBalance_account. destruct (decide (a = b)) as [<-|]; [|done].
  simpl. by rewrite account_or_new_nonce.
Qed.
Lemma nonce_SubBalance s a v b : nonce (SubBalance s a v) b = nonce s b.
Proof.
  unfold nonce at 1. rewrite SubBalance_account. destruct (decide (a = b)) as [<-|]; [|done].
  simpl. by rewrite account_or_new_nonce.
Qed.
Lemma nonce_SetNonce s a n b : nonce (SetNonce s a n) b = if decide (a = b) then n else nonce s b.
Proof. unfold nonce at 1. rewrite SetNonce_account. by destruct (decide (a = b)). Qed.

Lemma balance_equiv s t a : state_equiv s t → balance s a = balance t a.
Proof. intros H. unfold balance. by rewrite (account_equiv s t). Qed.
Lemma nonce_equiv s t a : state_equiv s t → nonce s a = nonce t a.
Proof. intros H. unfold nonce. by rewrite (account_equiv s t). Qed.

(** ** Code *)

Definition code s a : option (list byte) := live (peek s a) ≫= code_of s.

Lemma GetCode_value s a : (GetCode s a).1 = code s a.
Proof.
  unfold GetCode, code. destruct (getStateObject s a) as [r s'] eqn:E.
  apply getStateObject_spec in E as (-> & _). destruct (live (peek s a)) as [o|]; [|done].
  destruct (so_Code s' o) as [[c o'] s2] eqn:Ec. apply so_Code_reads in Ec as (-> & _). by apply code_of_ext.
Qed.

Lemma code_equiv s t a : state_equiv s t → code s a = code t a.
Proof.
  intros H. unfold code. destruct (peek_equiv s t a H) as [o o' Ho|]; [|done].
  simpl. rewrite (oe_code _ _ _ Ho). by apply code_of_ext.
Qed.

Lemma code_peek s t a : peek s a = peek t a → code s a = code t a.
Proof. intros H. unfold code. rewrite H. destruct (live (peek t a)); [by apply code_of_ext|done]. Qed.

Lemma GetOrNewStateObject_code s a o s' : GetOrNewStateObject s a = (o, s') →
  code_of s' o = code s a ∧ (∀ b, b ≠ a → code s' b = code s b).
Proof.
  unfold GetOrNewStateObject. destruct (getStateObject s a) as [r s1] eqn:E.
  apply getStateObject_spec in E as (-> & Ho & Hq). unfold code at 1.
  assert (∀ b, code s1 b = code s b) as Hcode by (intros; apply code_equiv, Hq).
  destruct (live (peek s a)) as [p|] eqn:El; [intros [= <- <-]; split; [by apply code_of_ext|done]|].
  rewrite createObject_eq. destruct (getDeletedStateObject s1 a) as [r2 s2] eqn:E2.
  apply getDeletedStateObject_spec in E2 as (-> & Ho2 & Hq2). intros [= <- <-]. split.
  - unfold code_of, so_Code. simpl. by rewrite Z.eqb_refl.
  - intros b Hb. rewrite <- Hcode, <- (code_equiv s2 s1) by apply Hq2. apply code_peek.
    unfold setStateObject. rewrite peek_put. change (so_address (blank a)) with a.
    rewrite decide_False by done. destruct (peek s1 a) as [p|]; [|by apply peek_ext].
    apply peek_ext; unfold reset_state, reset_entry; by case_bool_decide.
Qed.

Lemma modify_code s a f :
  (∀ s o, stateObjects (f s o).1 = stateObjects s ∧ sdb_trie (f s o).1 = sdb_trie s ∧ snap (f s o).1 = snap s) →
  (∀ s o, so_code (f s o).2 = so_code o ∧ so_addrHash (f s o).2 = so_addrHash o
     ∧ d_CodeHash (so_data (f s o).2) = d_CodeHash (so_data o) ∧ deleted (f s o).2 = deleted o) →
  ∀ b, code (on_object s a f) b = code s b.
Proof.
  intros Hs Ho b. unfold on_object. destruct (GetOrNewStateObject s a) as [o s1] eqn:E.
  pose proof (GetOrNewStateObject_value _ _ _ _ E) as (_ & Hdel & _).
  apply GetOrNewStateObject_code in E as [Hc Hb]. specialize (Hs s1 o). specialize (Ho s1 o).
  destruct (f s1 o) as [s2 o2]. simpl in *. destruct Hs as (Hs1 & Hs2 & Hs3), Ho as (Ho1 & Ho2 & Ho3 & Ho4).
  destruct (decide (a = b)) as [<-|Hne].
  - unfold code at 1. rewrite peek_put, decide_True by done. simpl. rewrite Ho4, Hdel, <- Hc. by apply code_of_ext.
  - rewrite <- Hb by done. apply code_peek. rewrite peek_put, decide_False by done.
    by apply peek_ext; rewrite ?Hs1.
Qed.

Lemma code_AddBalance s a v b : code (AddBalance s a v) b = code s b.
Proof. apply modify_code; intros t o; unfold so_AddBalance, so_touch; by repeat case_match. Qed.
Lemma code_SubBalance s a v b : code (SubBalance s a v) b = code s b.
Proof. apply modify_code; intros t o; unfold so_SubBalance; by repeat case_match. Qed.
Lemma code_SetNonce s a n b : code (SetNonce s a n) b = code s b.
Proof. by apply modify_code. Qed.

Lemma exists_AddBalance s a v b : is_Some (account s b) → is_Some (account (AddBalance s a v) b).
Proof. intros. rewrite AddBalance_account. by case_decide. Qed.
Lemma exists_SubBalance s a v b : is_Some (account s b) → is_Some (account (SubBalance s a v) b).
Proof. intros. rewrite SubBalance_account. by case_decide. Qed.
Lemma exists_SetNonce s a n b : is_Some (account s b) → is_Some (account (SetNonce s a n) b).
Proof. intros. rewrite SetNonce_account. by case_decide. Qed.

(** The refund counter. *)
Lemma modify_refund s a f : (∀ s o, refund (f s o).1 = refund s) → refund (on_object s a f) = refund s.
Proof.
  intros Hf. unfold on_object. destruct (GetOrNewStateObject s a) as [o s1] eqn:E.
  assert (refund s1 = refund s) as <-.
  { unfold GetOrNewStateObject in E. destruct (getStateObject s a) as [r s2] eqn:E1.
    apply getStateObject_spec in E1 as (_ & _ & Hq). rewrite <- (se_refund _ _ (q_equiv _ _ Hq)).
    destruct r; [by injection E as <- <-|]. rewrite createObject_eq in E.
    destruct (getDeletedStateObject s2 a) as [r3 s3] eqn:E2.
    apply getDeletedStateObject_spec in E2 as (-> & _ & Hq2). rewrite <- (se_refund _ _ (q_equiv _ _ Hq2)).
    injection E as <- <-. destruct (peek s2 a); [|done].
    unfold setStateObject, reset_state, reset_entry. by case_bool_decide. }
  specialize (Hf s1 o). by destruct (f s1 o) as [s2 o2].
Qed.

Lemma refund_AddBalance s a v : refund (AddBalance s a v) = refund s.
Proof. apply modify_refund. intros t o. unfold so_AddBalance, so_touch. by repeat case_match. Qed.
Lemma refund_SubBalance s a v : refund (SubBalance s a v) = refund s.
Proof. apply modify_refund. intros t o. unfold so_SubBalance. by repeat case_match. Qed.
Lemma refund_SetNonce s a n : refund (SetNonce s a n) = refund s.
Proof. by apply modify_refund. Qed.

End values.
