(* ===== verification/Blocks.v ===== *)
(** * Blocks: core/types bloom.go, receipt.go, hashing.go and block.go

    Log bloom filters, receipts with their consensus encoding and derived fields, the
    derivation of list roots ([DeriveSha]) and headers and blocks.  The [TrieHasher] and
    [DerivableList] interfaces of hashing.go are records of operations.  A header's hash
    goes through the type check of [RlpStruct], because its struct tags decide whether it
    has an encoding at all. *)
From S2P Require Import Prelude Bytes RlpEncode RlpRaw RlpStruct Common AccessList Types StateDB.
From stdpp Require Import strings.

Open Scope Z_scope.

(** A [Bloom] is an array of [BloomByteLength] bytes. *)
Abbreviation Bloom := (list byte).

Section blocks.
Context `{Crypto}.

(** ** bloom.go *)

Definition BloomByteLength : nat := 256.
Definition BloomBitLength : nat := 8 * BloomByteLength.

Definition empty_bloom : Bloom := replicate BloomByteLength 0.

(** [binary.BigEndian.Uint16] of two bytes of the buffer. *)
Definition uint16_at (buf : list byte) (k : nat) : Z :=
  Z.lor (nth (S k) buf 0) (nth k buf 0 ≪ 8).

(** The pair (index, value) the bytes [k] and [k + 1] of the digest select. *)
Definition bloom_value (hashbuf : list byte) (k : nat) : nat * byte :=
  (Z.to_nat (Z.of_nat BloomByteLength - (Z.land (uint16_at hashbuf k) 0x7ff ≫ 3) - 1),
   byte_of (1 ≪ Z.land (nth (S k) hashbuf 0) 0x7)).

Definition bloomValues (data : list byte) : list (nat * byte) :=
  let hashbuf := take 6 (Keccak256 data) in
  [bloom_value hashbuf 0; bloom_value hashbuf 2; bloom_value hashbuf 4].

(** [b[i] |= v]; the indices of [bloomValues] are within the array
    ([bloom_value_bounds]). *)
Definition set_bits (b : Bloom) (iv : nat * byte) : Bloom :=
  <[iv.1 := Z.lor (nth iv.1 b 0) iv.2]> b.

Definition bloom_add (b : Bloom) (d : list byte) : Bloom := foldl set_bits b (bloomValues d).

Definition bloom_Test (b : Bloom) (topic : list byte) : bool :=
  forallb (λ '(i, v), v =? Z.land v (nth i b 0)) (bloomValues topic).

Definition BloomLookup (bin : Bloom) (topic : list byte) : bool := bloom_Test bin topic.

(** [SetBytes] on a bloom: panics when the data is longer than the array, else copies it
    right-aligned and leaves the bytes before it. *)
Definition bloom_SetBytes (b : Bloom) (d : list byte) : res Bloom :=
  if (BloomByteLength <? length d)%nat then Panic "bloom bytes too big"
  else Ok (take (BloomByteLength - length d) b ++ d).
Definition BytesToBloom (b : list byte) : res Bloom := bloom_SetBytes empty_bloom b.
Definition bloom_Big (b : Bloom) : Z := be_value b.
Definition Bloom9 (data : list byte) : res (list byte) := bloom_SetBytes empty_bloom data.

(** The loop body of [CreateBloom] and [LogsBloom]: the address, then the topics. *)
Definition add_log (bin : Bloom) (log : Log) : Bloom :=
  foldl (λ bin t, bloom_add bin (Hash_Bytes t))
    (bloom_add bin (Address_Bytes (log_Address log))) (log_Topics log).

Definition LogsBloom (logs : list Log) : list byte := foldl add_log empty_bloom logs.

(** ** receipt.go *)

Record Receipt := mkReceipt {
  rc_Type : byte;
  rc_PostState : list byte;
  rc_Status : Z;
  rc_CumulativeGasUsed : Z;
  rc_Bloom : Bloom;
  rc_Logs : list Log;
  rc_TxHash : Hash;
  rc_ContractAddress : Address;
  rc_GasUsed : Z;
  rc_EffectiveGasPrice : option Z;
  rc_BlockHash : Hash;
  rc_BlockNumber : option Z;
  rc_TransactionIndex : Z;
}.

Definition CreateBloom (receipts : list Receipt) : Bloom :=
  foldl (λ bin receipt, foldl add_log bin (rc_Logs receipt)) empty_bloom receipts.

Definition ReceiptStatusFailed : Z := 0.
Definition ReceiptStatusSuccessful : Z := 1.

Definition statusEncoding (r : Receipt) : list byte :=
  match rc_PostState r with
  | [] => if rc_Status r =? ReceiptStatusFailed then [] else [0x01]
  | _ => rc_PostState r
  end.

Definition set_status (r : Receipt) (post : list byte) (status : Z) : Receipt :=
  mkReceipt (rc_Type r) post status (rc_CumulativeGasUsed r) (rc_Bloom r) (rc_Logs r)
    (rc_TxHash r) (rc_ContractAddress r) (rc_GasUsed r) (rc_EffectiveGasPrice r)
    (rc_BlockHash r) (rc_BlockNumber r) (rc_TransactionIndex r).

Definition setStatus (r : Receipt) (postStateOrStatus : list byte) : string + Receipt :=
  if decide (postStateOrStatus = [0x01]) then
    inr (set_status r (rc_PostState r) ReceiptStatusSuccessful)
  else if decide (postStateOrStatus = []) then
    inr (set_status r (rc_PostState r) ReceiptStatusFailed)
  else if (length postStateOrStatus =? HashLength)%nat then
    inr (set_status r postStateOrStatus (rc_Status r))
  else inl "invalid receipt status"%string.

(** The consensus fields of a log and of a receipt as the encoder sees them. *)
Definition rlp_Log (l : Log) : GoValue :=
  VStruct 3 [(false, VByteArray (Address_Bytes (log_Address l)));
             (false, VSlice false (VByteArray ∘ Hash_Bytes <$> log_Topics l));
             (false, VBytes (log_Data l))].

Definition receiptRLP (r : Receipt) : GoValue :=
  VStruct 4 [(false, VBytes (statusEncoding r)); (false, VUint (rc_CumulativeGasUsed r));
             (false, VByteArray (rc_Bloom r));
             (false, VSlice false ((λ l, VPtr 0xC0 (Some (rlp_Log l))) <$> rc_Logs r))].

(** [encodeTyped] and [MarshalBinary]: the type byte, then what [rlp.Encode] writes. *)
Definition MarshalBinary (r : Receipt) : list byte * option rlp_error :=
  let '(out, err) := Encode (VPtr 0xC0 (Some (receiptRLP r))) in (rc_Type r :: out, err).

(** [Receipts.EncodeIndex]: unsupported types write only the type byte. *)
Definition receipts_EncodeIndex (rs : list Receipt) (i : Z) : res (list byte) :=
  r ← go_index rs i;
  Ok (rc_Type r ::
      (if rc_Type r =? PanguTxType then fst (Encode (VPtr 0xC0 (Some (receiptRLP r)))) else [])).

(** The log fields [DeriveFields] sets, from the index of the first log. *)
Fixpoint derive_logs (number : Z) (hash txHash : Hash) (txIndex : Z) (logIndex : Z)
    (logs : list Log) : list Log :=
  match logs with
  | [] => []
  | l :: logs =>
      mkLog (log_Address l) (log_Topics l) (log_Data l) number txHash txIndex hash logIndex
        (log_Removed l)
      :: derive_logs number hash txHash txIndex (logIndex + 1)%u64 logs
  end.

(** One round of [DeriveFields]: the receipt, and the transaction with the caches that
    [Hash] and [Sender] fill.  The error of [Sender] is dropped: the address is zero. *)
Definition derive_receipt (signer : panguSigner) (hash : Hash) (number : Z)
    (baseFee : option Z) (i : Z) (prev : option Z) (logIndex : Z) (r : Receipt)
    (tx : Transaction) : res (Receipt * Transaction) :=
  '(txHash, tx) ← tx_Hash tx;
  price ← effectiveGasPrice (inner tx) baseFee;
  '(contract, tx) ←
    match tx_To tx with
    | None =>
        '(from, tx) ← Sender signer tx;
        Ok (CreateAddress (match from with inr a => a | inl _ => 0 end) (tx_Nonce tx), tx)
    | Some _ => Ok (0, tx)
    end;
  let used := match prev with
              | None => rc_CumulativeGasUsed r
              | Some p => (rc_CumulativeGasUsed r - p)%u64
              end in
  Ok (mkReceipt (tx_Type tx) (rc_PostState r) (rc_Status r) (rc_CumulativeGasUsed r)
        (rc_Bloom r) (derive_logs number hash txHash i logIndex (rc_Logs r)) txHash contract
        used (Some price) hash (Some number) i, tx).

Fixpoint derive_loop (signer : panguSigner) (hash : Hash) (number : Z) (baseFee : option Z)
    (i : Z) (prev : option Z) (logIndex : Z) (rs : list Receipt) (txs : list Transaction)
  : res (list (Receipt * Transaction)) :=
  match rs, txs with
  | r :: rs, tx :: txs =>
      p ← derive_receipt signer hash number baseFee i prev logIndex r tx;
      rest ← derive_loop signer hash number baseFee (i + 1) (Some (rc_CumulativeGasUsed r))
               (logIndex + Z.of_nat (length (rc_Logs r)))%u64 rs txs;
      Ok (p :: rest)
  | _, _ => Ok []
  end.

(** [DeriveFields], with the signer that [MakeSigner] builds from the chain id. *)
Definition DeriveFields (rs : list Receipt) (chainID : option Z) (hash : Hash) (number : Z)
    (baseFee : option Z) (txs : list Transaction) : res (string + list (Receipt * Transaction)) :=
  let signer := NewPanguSigner chainID in
  if negb (length txs =? length rs)%nat then
    Ok (inl "transaction and receipt count mismatch"%string)
  else out ← derive_loop signer hash number baseFee 0 None 0 rs txs; Ok (inr out).

(** ** hashing.go *)

Record TrieHasher := mkTrieHasher {
  th_state : Type;
  th_Reset : th_state → th_state;
  th_Update : th_state → list byte → list byte → res th_state; (* its error is dropped *)
  th_Hash : th_state → res (Hash * th_state);
}.

Record DerivableList := mkDerivableList {
  dl_Len : nat;
  dl_EncodeIndex : nat → res (list byte);
}.

Definition derive_update (l : DerivableList) (T : TrieHasher) (h : res (th_state T)) (i : nat)
  : res (th_state T) :=
  h ← h;
  let indexBuf := AppendUint64 [] (Z.of_nat i) in
  value ← dl_EncodeIndex l i;
  th_Update T h indexBuf value.

(** The three loops of [DeriveSha]: the indices 1 to 0x7f, then 0, then the rest. *)
Definition derive_order (n : nat) : list nat :=
  seq 1 (Nat.min (n - 1) 0x7f) ++ (if (0 <? n)%nat then [0%nat] else []) ++ seq 0x80 (n - 0x80).

Definition DeriveSha (l : DerivableList) (T : TrieHasher) (hasher : th_state T)
  : res (Hash * th_state T) :=
  h ← foldl (derive_update l T) (Ok (th_Reset T hasher)) (derive_order (dl_Len l));
  th_Hash T h.

Definition receipts_list (rs : list Receipt) : DerivableList :=
  mkDerivableList (length rs) (λ i, receipts_EncodeIndex rs (Z.of_nat i)).

(** ** block.go *)

Record Header := mkHeader {
  hd_ParentHash : Hash;
  hd_Time : Z;
  hd_Number : option Z;
  hd_Coinbase : Address;
  hd_StateRoot : Hash;
  hd_TxRoot : Hash;
  hd_ReceiptRoot : Hash;
  hd_Bloom : Bloom;
  hd_BaseFee : option Z;
  hd_GasLimit : Z;
  hd_GasUsed : Z;
  hd_Extra : list byte;
}.

Definition set_roots (h : Header) (stateRoot txRoot receiptRoot : Hash) (bloom : Bloom) : Header :=
  mkHeader (hd_ParentHash h) (hd_Time h) (hd_Number h) (hd_Coinbase h) stateRoot txRoot
    receiptRoot bloom (hd_BaseFee h) (hd_GasLimit h) (hd_GasUsed h) (hd_Extra h).

(** The reflected types of the header's fields. *)
Definition byte_type : RType := mkRType "uint8" Kind.Uint8 None false false false false 0 0 None [].
Definition uint64_type : RType := mkRType "uint64" Kind.Uint64 None false false false false 0 0 None [].
Definition bytes_type : RType := mkRType "[]uint8" Kind.Slice None false false false false 0 0 (Some byte_type) [].
Definition byte_array (name : string) (len : nat) : RType :=
  mkRType name Kind.Array None false false false false len 0 (Some byte_type) [].
Definition big_ptr_type : RType :=
  mkRType "*big.Int" Kind.Ptr (Some OwnBigPtr) false false false false 0 0
    (Some (mkRType "big.Int" Kind.Struct (Some OwnBig) false false false false 0 0 None [])) [].
Definition ptr_to (t : RType) : RType :=
  mkRType ("*" +:+ rt_String t) Kind.Ptr None (rt_PtrIsEncoder t) (rt_PtrIsDecoder t) false false 0 0 (Some t) [].
Definition slice_of (t : RType) : RType :=
  mkRType ("[]" +:+ rt_String t) Kind.Slice None false false false false 0 0 (Some t) [].

(** The struct [Header] with its tags. *)
Definition header_type : RType :=
  let required json : list (string * string) := [("json", json); ("gencodec", "required")] in
  mkRType "types.Header" Kind.Struct None false false false false 0 0 None
    [("ParentHash", true, required "parentHash", byte_array "common.Hash" 32);
     ("Time", true, required "timestamp", uint64_type);
     ("Number", true, required "number", big_ptr_type);
     ("Coinbase", true, [("json", "miner")], byte_array "common.Address" 20);
     ("StateRoot", true, required "stateRoot", byte_array "common.Hash" 32);
     ("TxRoot", true, required "transactionsRoot", byte_array "common.Hash" 32);
     ("ReceiptRoot", true, required "receiptsRoot", byte_array "common.Hash" 32);
     ("Bloom", true, required "logsBloom", byte_array "types.Bloom" 256);
     ("BaseFee", true, [("json", "baseFeePerGas"); ("rlp", "optional")], big_ptr_type);
     ("GasLimit", true, required "gasLimit", uint64_type);
     ("GasUsed", true, required "gasUsed", uint64_type);
     ("Extra", true, required "extraData", bytes_type)]%string.

(** Its value: the fields from [BaseFee] on carry reflect's [IsZero]. *)
Definition header_value (h : Header) : GoValue :=
  VPtr 0xC0 (Some (VStruct 8
    [(false, VByteArray (Hash_Bytes (hd_ParentHash h))); (false, VUint (hd_Time h));
     (false, VBigIntPtr (hd_Number h)); (false, VByteArray (Address_Bytes (hd_Coinbase h)));
     (false, VByteArray (Hash_Bytes (hd_StateRoot h))); (false, VByteArray (Hash_Bytes (hd_TxRoot h)));
     (false, VByteArray (Hash_Bytes (hd_ReceiptRoot h))); (false, VByteArray (hd_Bloom h));
     (bool_decide (hd_BaseFee h = None), VBigIntPtr (hd_BaseFee h));
     (hd_GasLimit h =? 0, VUint (hd_GasLimit h)); (hd_GasUsed h =? 0, VUint (hd_GasUsed h));
     (bool_decide (hd_Extra h = []), VBytes (hd_Extra h))])).

(** [rlpHash]: the error of [rlp.Encode] is dropped. *)
Definition rlpHash_typed (typ : RType) (v : GoValue) : Hash :=
  be_value (Keccak256 (fst (Encode_typed typ v))).

Definition header_Hash (h : Header) : Hash := rlpHash_typed (ptr_to header_type) (header_value h).

Inductive header_error := ErrNumberTooLarge (bitlen : Z) | ErrExtraTooLarge (size : Z)
  | ErrBaseFeeTooLarge (bitlen : Z).

Definition SanityCheck (h : Header) : option header_error :=
  let number := match hd_Number h with
                | Some n => if negb ((0 <=? n) && (n <? 2 ^ 64)) then Some (ErrNumberTooLarge (BitLen n)) else None
                | None => None
                end in
  match number with
  | Some e => Some e
  | None =>
      let eLen := Z.of_nat (length (hd_Extra h)) in
      if 100 * 1024 <? eLen then Some (ErrExtraTooLarge eLen)
      else match hd_BaseFee h with
           | Some f => let bfLen := BitLen f in
                       if 256 <? bfLen then Some (ErrBaseFeeTooLarge bfLen) else None
           | None => None
           end
  end.

Definition CopyHeader (h : Header) : Header :=
  mkHeader (hd_ParentHash h) (hd_Time h) (Some (default 0 (hd_Number h))) (hd_Coinbase h)
    (hd_StateRoot h) (hd_TxRoot h) (hd_ReceiptRoot h) (hd_Bloom h) (hd_BaseFee h)
    (hd_GasLimit h) (hd_GasUsed h) (hd_Extra h).

Record Block := mkBlock {
  b_header : Header;
  b_transactions : list (list Transaction);
  b_hash : option Hash; (* cache *)
  b_size : option Z; (* cache *)
}.

(** [NewBlock] over [Transactions] as a [DerivableList], whose elements
    [encoding/json] writes. *)
Definition NewBlock (txs_list : list Transaction → DerivableList) (T : TrieHasher)
    (hasher : th_state T) (header : Header) (txs : list (list Transaction))
    (receipts : list Receipt) (stateRoot : Hash) : res Block :=
  let h := CopyHeader header in
  '(txRoot, hasher) ←
    match txs with
    | [] => Ok (EmptyRootHash, hasher)
    | _ => DeriveSha (txs_list (concat txs)) T hasher
    end;
  '(receiptRoot, bloom) ←
    match receipts with
    | [] => Ok (EmptyRootHash, hd_Bloom h)
    | _ => '(root, _) ← DeriveSha (receipts_list receipts) T hasher;
           Ok (root, CreateBloom receipts)
    end;
  Ok (mkBlock (set_roots h stateRoot txRoot receiptRoot bloom) txs None None).

Definition InitBlock (header : Header) (txs : list (list Transaction)) : Block :=
  mkBlock (CopyHeader header) txs None None.

Definition block_Transactions (b : Block) : list Transaction := concat (b_transactions b).
Definition block_Number (b : Block) : res Z := deref (hd_Number (b_header b)).
Definition block_NumberU64 (b : Block) : res Z := n ← deref (hd_Number (b_header b)); Ok (u64 (Z.abs n)).

(** [Block.Hash]: computed on the first call and cached. *)
Definition block_Hash (b : Block) : Hash * Block :=
  match b_hash b with
  | Some h => (h, b)
  | None => let v := header_Hash (b_header b) in
            (v, mkBlock (b_header b) (b_transactions b) (Some v) (b_size b))
  end.

(** [Block.EncodeRLP] and [Block.Size]: the struct [extblock] of the header and the
    transactions, whose fields are all unexported. *)
Definition transaction_type : RType :=
  let opaque name := mkRType name Kind.Struct None false false false false 0 0 None [] in
  mkRType "types.Transaction" Kind.Struct None false false false false 0 0 None
    [("inner", false, [], mkRType "types.TxData" Kind.Interface None false false false false 0 17 None []);
     ("time", false, [], opaque "time.Time"); ("hash", false, [], opaque "atomic.Value");
     ("size", false, [], opaque "atomic.Value"); ("from", false, [], opaque "atomic.Value")]%string.
Definition extblock_type : RType :=
  mkRType "types.extblock" Kind.Struct None false false false false 0 0 None
    [("Header", true, [], ptr_to header_type);
     ("Txs", true, [], slice_of (slice_of (ptr_to transaction_type)))]%string.
Definition extblock_value (b : Block) : GoValue :=
  VStruct 2 [(false, header_value (b_header b));
             (false, VSlice false ((λ txs, VSlice false
                ((λ _, VPtr 0xC0 (Some (VStruct 0 []))) <$> txs)) <$> b_transactions b))].
Definition block_EncodeRLP (b : Block) : list byte * option (writer_error + rlp_error) :=
  Encode_typed extblock_type (extblock_value b).
Definition block_Size (b : Block) : Z * Block :=
  match b_size b with
  | Some s => (s, b)
  | None => let c := Z.of_nat (length (fst (block_EncodeRLP b))) in
            (c, mkBlock (b_header b) (b_transactions b) (b_hash b) (Some c))
  end.

(** [HeaderParentHashFromRLP]: the first list element, or the zero hash. *)
Definition HeaderParentHashFromRLP (header : list byte) : Hash :=
  match SplitList header with
  | inl _ => 0
  | inr (listContent, _) =>
      match SplitString listContent with
      | inl _ => 0
      | inr (parentHash, _) =>
          if negb (length parentHash =? 32)%nat then 0 else BytesToHash parentHash
      end
  end.

End blocks.

(** ** Headers have no encoding *)

Section theorems.
Context `{Crypto}.

Lemma header_type_refused :
  ∃ e, makeWriter_err (ptr_to header_type) = Some (BadTag e) ∧
       te_StructType e = "types.Header"%string ∧ te_Field e = "GasLimit"%string.
Proof. eexists. split; [vm_compute; reflexivity | done]. Qed.

Lemma extblock_type_refused : ∃ e, makeWriter_err extblock_type = Some e.
Proof. eexists. vm_compute. reflexivity. Qed.

(** C39: all blocks have the same hash.  The tag that makes [BaseFee] optional is followed
    by fields without it, so RLP refuses the type [Header]; [rlpHash] drops the error and
    hashes nothing, whatever the header holds.  For the same reason no block can be
    encoded, and its size is zero. *)
Theorem block_Hash_constant (h : Header) (b : Block) :
  header_Hash h = be_value (Keccak256 []) ∧
  (b_hash b = None → fst (block_Hash b) = be_value (Keccak256 [])) ∧
  (∃ e, block_EncodeRLP b = ([], Some (inl e))) ∧
  (b_size b = None → fst (block_Size b) = 0).
Proof.
  assert (∀ h, header_Hash h = be_value (Keccak256 [])) as Hh.
  { intros h'. unfold header_Hash, rlpHash_typed, Encode_typed.
    destruct header_type_refused as (e & -> & _). done. }
  assert (∃ e, block_EncodeRLP b = ([], Some (inl e))) as Hb.
  { unfold block_EncodeRLP, Encode_typed. destruct extblock_type_refused as [e ->]. eauto. }
  split_and!; [done| |done|].
  - intros Hn. unfold block_Hash. rewrite Hn. apply Hh.
  - intros Hn. unfold block_Size. rewrite Hn. by destruct Hb as [e ->].
Qed.

(** ** Blooms *)

Lemma uint16_land_range x : 0 <= Z.land x 0x7ff ≫ 3 < 256.
Proof.
  change 0x7ff with (Z.ones 11). rewrite Z.land_ones, Z.shiftr_div_pow2 by lia.
  pose proof (Z.mod_pos_bound x (2 ^ 11)). change (2 ^ 11) with 2048 in *. change (2 ^ 3) with 8.
  split; [apply Z.div_pos; lia | apply Z.div_lt_upper_bound; lia].
Qed.

(** The index is within the array and the value is one bit. *)
Lemma bloom_value_bounds buf k :
  (fst (bloom_value buf k) < BloomByteLength)%nat ∧
  ∃ j, 0 <= j < 8 ∧ snd (bloom_value buf k) = 2 ^ j.
Proof.
  unfold bloom_value. cbn [fst snd]. split.
  - pose proof (uint16_land_range (uint16_at buf k)). unfold BloomByteLength in *. lia.
  - exists (Z.land (nth (S k) buf 0) 7). change 7 with (Z.ones 3).
    rewrite Z.land_ones, Z.shiftl_1_l by lia. pose proof (Z.mod_pos_bound (nth (S k) buf 0) (2 ^ 3)).
    change (2 ^ 3) with 8 in *. split; [lia|]. unfold byte_of. apply Z.mod_small.
    split; [apply Z.pow_nonneg; lia|].
    change 256 with (2 ^ 8). apply Z.pow_lt_mono_r; lia.
Qed.

Lemma bloomValues_bounds d i v :
  (i, v) ∈ bloomValues d → (i < BloomByteLength)%nat ∧ ∃ j, 0 <= j < 8 ∧ v = 2 ^ j.
Proof.
  unfold bloomValues. intros Hin.
  assert (∃ k, (i, v) = bloom_value (take 6 (Keccak256 d)) k) as [k E].
  { rewrite !elem_of_cons in Hin. destruct Hin as [?|[?|[?|[]%not_elem_of_nil]]]; eauto. }
  pose proof (bloom_value_bounds (take 6 (Keccak256 d)) k) as Hb. by rewrite <- E in Hb.
Qed.

(** Bit [j] of byte [i], and the bits a list of data selects. *)
Definition bloom_bit (b : Bloom) (i : nat) (j : Z) : bool := Z.testbit (nth i b 0) j.
Definition selects (d : list byte) (i : nat) (j : Z) : Prop := (i, 2 ^ j) ∈ bloomValues d.

Lemma nth_insert (b : Bloom) i k x :
  (i < length b)%nat → nth k (<[i := x]> b) 0 = if decide (k = i) then x else nth k b 0.
Proof.
  intros Hi. rewrite !nth_lookup. case_decide as E.
  - subst. by rewrite list_lookup_insert_eq.
  - by rewrite list_lookup_insert_ne.
Qed.

Lemma set_bits_bit b i v k j :
  (i < length b)%nat → 0 <= j →
  bloom_bit (set_bits b (i, 2 ^ v)) k j = bloom_bit b k j || bool_decide (k = i ∧ j = v).
Proof.
  intros Hi Hj. unfold bloom_bit, set_bits. cbn [fst snd]. rewrite nth_insert by done.
  case_decide as E; [subst|rewrite bool_decide_false by naive_solver; by rewrite orb_false_r].
  rewrite Z.lor_spec. f_equal. apply eq_bool_prop_intro. rewrite bool_decide_spec.
  destruct (decide (j = v)) as [->|].
  - destruct (decide (0 <= v)); [by rewrite Z.pow2_bits_true | lia].
  - destruct (decide (0 <= v)); [rewrite Z.pow2_bits_false by done; naive_solver|].
    rewrite Z.pow_neg_r, Z.bits_0 by lia. naive_solver.
Qed.

Lemma set_bits_length b iv : length (set_bits b iv) = length b.
Proof. apply length_insert. Qed.

Lemma bloom_add_length b d : length (bloom_add b d) = length b.
Proof. unfold bloom_add. simpl. by rewrite !set_bits_length. Qed.

(** Adding data sets exactly the bits it selects. *)
Lemma bloom_add_bit b d k j :
  length b = BloomByteLength → 0 <= j →
  bloom_bit (bloom_add b d) k j = true ↔ bloom_bit b k j = true ∨ selects d k j.
Proof.
  intros Hb Hj. unfold bloom_add, selects.
  assert (∀ l, l ⊆ bloomValues d → ∀ b, length b = BloomByteLength →
    bloom_bit (foldl set_bits b l) k j = true ↔ bloom_bit b k j = true ∨ (k, 2 ^ j) ∈ l) as Hl;
    [|by apply Hl].
  clear b Hb. induction l as [|[i v] l IH]; intros Hsub b Hb; simpl.
  { rewrite elem_of_nil. naive_solver. }
  destruct (bloomValues_bounds d i v) as (Hi & n & Hn & ->); [set_solver|].
  rewrite IH; [|set_solver|by rewrite set_bits_length].
  rewrite set_bits_bit, orb_true_iff, bool_decide_eq_true by (done || congruence).
  rewrite elem_of_cons. split; [intros [[?|[-> ->]]|?]; auto|].
  intros [?|[[= -> E]|?]]; auto. left; right. split; [done|].
  apply Z.pow_inj_r in E; lia.
Qed.
(** The data a log contributes: its address and its topics. *)
Definition log_data (l : Log) : list (list byte) :=
  Address_Bytes (log_Address l) :: (Hash_Bytes <$> log_Topics l).
Definition receipts_data (rs : list Receipt) : list (list byte) :=
  rs ≫= λ r, rc_Logs r ≫= log_data.

Lemma add_log_adds b l : add_log b l = foldl bloom_add b (log_data l).
Proof. unfold add_log, log_data. simpl. by rewrite foldl_fmap. Qed.

Lemma add_logs_adds b ls : foldl add_log b ls = foldl bloom_add b (ls ≫= log_data).
Proof.
  revert b. induction ls as [|l ls IH]; intros b; [done|]. simpl.
  by rewrite IH, add_log_adds, foldl_app.
Qed.

Lemma CreateBloom_adds rs : CreateBloom rs = foldl bloom_add empty_bloom (receipts_data rs).
Proof.
  unfold CreateBloom, receipts_data. generalize empty_bloom as b.
  induction rs as [|r rs IH]; intros b; [done|]. simpl. by rewrite IH, add_logs_adds, foldl_app.
Qed.

Lemma adds_bit ds b k j :
  length b = BloomByteLength → 0 <= j →
  bloom_bit (foldl bloom_add b ds) k j = true ↔
    bloom_bit b k j = true ∨ ∃ d, d ∈ ds ∧ selects d k j.
Proof.
  intros Hb Hj. revert b Hb. induction ds as [|d ds IH]; intros b Hb; simpl.
  { split; [auto | intros [?|(d & []%not_elem_of_nil & _)]; done]. }
  rewrite IH, bloom_add_bit by (done || by rewrite bloom_add_length).
  setoid_rewrite elem_of_cons. split.
  - intros [[?|?]|(d' & ? & ?)]; eauto.
  - intros [?|(d' & [->|?] & ?)]; eauto.
Qed.

Lemma empty_bloom_bit k j : bloom_bit empty_bloom k j = false.
Proof.
  unfold bloom_bit, empty_bloom. rewrite nth_lookup.
  destruct (replicate _ _ !! k) eqn:E; [apply lookup_replicate in E as [-> _]|];
    simpl; by rewrite Z.bits_0.
Qed.

(** A test passes when all selected bits are set. *)
Lemma bloom_Test_iff b d : bloom_Test b d = true ↔ ∀ k j, 0 <= j → selects d k j → bloom_bit b k j = true.
Proof.
  unfold bloom_Test, selects, bloom_bit. rewrite forallb_forall. split.
  - intros Ht k j Hj Hin. specialize (Ht _ (proj1 (list_elem_of_In _ _) Hin)). simpl in Ht.
    apply Z.eqb_eq in Ht. apply (f_equal (λ z, Z.testbit z j)) in Ht.
    rewrite Z.land_spec, Z.pow2_bits_true in Ht by done. by rewrite andb_true_l in Ht.
  - intros Hb [i v] Hin%list_elem_of_In. destruct (bloomValues_bounds _ _ _ Hin) as (_ & j & Hj & ->).
    apply Z.eqb_eq. apply Z.bits_inj'. intros n Hn. rewrite Z.land_spec.
    destruct (decide (n = j)) as [->|].
    + rewrite (Hb i j) by (done || lia). by rewrite andb_true_r.
    + by rewrite Z.pow2_bits_false by done.
Qed.

(** The bloom of a block is exact on bits and has no false negatives.  Bit [j] of byte
    [i] of [CreateBloom] is set exactly when the address or a topic of a log of one of the
    receipts selects it; so a lookup of every such address and topic succeeds, also in
    [LogsBloom] of the logs, and the filter has 256 bytes. *)
Theorem CreateBloom_exact rs :
  (∀ i j, 0 <= j →
     bloom_bit (CreateBloom rs) i j = true ↔ ∃ d, d ∈ receipts_data rs ∧ selects d i j) ∧
  (∀ d, d ∈ receipts_data rs → BloomLookup (CreateBloom rs) d = true) ∧
  (∀ r, CreateBloom [r] = LogsBloom (rc_Logs r)) ∧
  length (CreateBloom rs) = BloomByteLength.
Proof.
  assert (∀ i j, 0 <= j → bloom_bit (CreateBloom rs) i j = true ↔
    ∃ d, d ∈ receipts_data rs ∧ selects d i j) as Hb.
  { intros i j Hj. rewrite CreateBloom_adds, adds_bit, empty_bloom_bit by done. split; [|auto].
    by intros [?|?]. }
  split_and!; [done| |done|].
  - intros d Hd. apply bloom_Test_iff. intros k j Hj Hs. apply Hb; eauto.
  - rewrite CreateBloom_adds. generalize (receipts_data rs) as ds. intros ds.
    rewrite <- (length_replicate BloomByteLength 0). fold empty_bloom. generalize empty_bloom as b.
    induction ds as [|d ds IH]; intros b; [done|]. simpl. by rewrite IH, bloom_add_length.
Qed.

(** ** The insertion order of [DeriveSha] *)

Lemma bytes_lt_snoc a b x y :
  length a = length b → bytes_lt (a ++ [x]) (b ++ [y]) = bytes_lt a b || (bool_decide (a = b) && (x <? y)).
Proof.
  revert b. induction a as [|c a IH]; intros [|d b] Hl; simplify_eq/=.
  - by rewrite andb_false_r, orb_false_r.
  - rewrite IH by done. destruct (Z.ltb_spec c d), (Z.eqb_spec c d); simpl; try lia;
      repeat case_bool_decide; simplify_eq/=; rewrite ?orb_true_r; done.
Qed.

Lemma be_bytes_lt n i j :
  0 <= i → i < j → j < 256 ^ Z.of_nat n → bytes_lt (be_bytes n i) (be_bytes n j) = true.
Proof.
  revert i j. induction n as [|n IH]; intros i j Hi Hij Hj; [simpl in Hj; lia|].
  rewrite Nat2Z.inj_succ, Z.pow_succ_r in Hj by lia. simpl be_bytes.
  rewrite bytes_lt_snoc by (by rewrite !be_bytes_length).
  pose proof (Z.div_mod i 256). pose proof (Z.div_mod j 256).
  pose proof (Z.mod_pos_bound i 256). pose proof (Z.mod_pos_bound j 256).
  destruct (decide (i / 256 = j / 256)) as [E|E].
  - rewrite E, bool_decide_true by done.
    destruct (Z.ltb_spec (i mod 256) (j mod 256)); [by rewrite orb_true_r | lia].
  - rewrite IH; [done|by apply Z.div_pos; lia| |apply Z.div_lt_upper_bound; lia].
    assert (i / 256 <= j / 256) by (apply Z.div_le_mono; lia). lia.
Qed.

Lemma AppendUint64_large i :
  128 <= i < 2 ^ 64 → AppendUint64 [] i = (0x80 + Z.of_nat (byte_len i)) :: be_min i.
Proof.
  intros Hi. rewrite AppendUint64_writeUint64 by lia. unfold writeUint64.
  destruct (Z.eqb_spec i 0), (Z.ltb_spec i 128); try lia. simpl.
  rewrite putint_be_min, be_min_length by lia. pose proof (byte_len_le8 i).
  rewrite byte_of_id by lia. done.
Qed.

Lemma AppendUint64_large_lt i j :
  128 <= i → i < j → j < 2 ^ 64 → bytes_lt (AppendUint64 [] i) (AppendUint64 [] j) = true.
Proof.
  intros Hi Hij Hj. rewrite !AppendUint64_large by lia. simpl.
  pose proof (byte_len_spec i). pose proof (byte_len_spec j).
  destruct (decide (byte_len i = byte_len j)) as [E|E].
  - rewrite E, Z.ltb_irrefl, Z.eqb_refl. simpl. unfold be_min. rewrite E.
    apply be_bytes_lt; lia.
  - destruct (Z.ltb_spec (0x80 + Z.of_nat (byte_len i)) (0x80 + Z.of_nat (byte_len j))); [done|].
    assert (256 ^ Z.of_nat (byte_len j) <= 256 ^ (Z.of_nat (byte_len i) - 1))
      by (apply Z.pow_le_mono_r; lia). lia.
Qed.

Definition derive_key (i : nat) : list byte := AppendUint64 [] (Z.of_nat i).
Definition key_lt (i j : nat) : Prop := bytes_lt (derive_key i) (derive_key j) = true.

Lemma derive_key_small i : (1 <= i <= 127)%nat → derive_key i = [Z.of_nat i].
Proof.
  intros Hi. unfold derive_key, AppendUint64.
  destruct (Z.eqb_spec (Z.of_nat i) 0), (Z.ltb_spec (Z.of_nat i) 128); try lia.
  simpl. by rewrite byte_of_id by lia.
Qed.

(** The keys grow from the small indices to zero to the large ones. *)
Lemma key_lt_small i j : (1 <= i < j)%nat → (j <= 127)%nat → key_lt i j.
Proof.
  intros Hi Hj. unfold key_lt. rewrite !derive_key_small by lia. simpl.
  destruct (Z.ltb_spec (Z.of_nat i) (Z.of_nat j)); [done | lia].
Qed.
Lemma key_lt_zero i : (1 <= i <= 127)%nat → key_lt i 0.
Proof.
  intros Hi. unfold key_lt. rewrite derive_key_small by lia. simpl.
  destruct (Z.ltb_spec (Z.of_nat i) 128); [done | lia].
Qed.
Lemma key_lt_large i j : (i <= 127)%nat → (128 <= j)%nat → Z.of_nat j < 2 ^ 64 → key_lt i j.
Proof.
  intros Hi Hj Hn. unfold key_lt, derive_key. rewrite (AppendUint64_large (Z.of_nat j)) by lia.
  pose proof (byte_len_le8 (Z.of_nat j)). destruct (decide (i = 0%nat)) as [->|].
  - simpl. destruct (Z.ltb_spec 128 (128 + Z.of_nat (byte_len (Z.of_nat j)))); [done | lia].
  - fold (derive_key i). rewrite derive_key_small by lia. simpl.
    destruct (Z.ltb_spec (Z.of_nat i) (128 + Z.of_nat (byte_len (Z.of_nat j)))); [done | lia].
Qed.

Lemma StronglySorted_seq (R : nat → nat → Prop) m n :
  (∀ i j, (m <= i < j)%nat → (j < m + n)%nat → R i j) → StronglySorted R (seq m n).
Proof.
  revert m. induction n as [|n IH]; intros m HR; simpl; constructor.
  - apply IH. intros i j Hi Hj. apply HR; lia.
  - apply Forall_forall. intros j Hj%elem_of_seq. apply HR; lia.
Qed.

Lemma derive_order_sorted n : Z.of_nat n < 2 ^ 64 → StronglySorted key_lt (derive_order n).
Proof.
  intros Hn. unfold derive_order. apply StronglySorted_app. split_and!.
  - intros i j Hi%elem_of_seq [Hj|Hj]%elem_of_app.
    + destruct (0 <? n)%nat; [|by apply not_elem_of_nil in Hj].
      apply list_elem_of_singleton in Hj as ->. apply key_lt_zero. lia.
    + apply elem_of_seq in Hj. apply key_lt_large; lia.
  - apply StronglySorted_seq. intros i j Hi Hj. apply key_lt_small; lia.
  - apply StronglySorted_app. split_and!.
    + intros i j Hi Hj%elem_of_seq. destruct (0 <? n)%nat; [|by apply not_elem_of_nil in Hi].
      apply list_elem_of_singleton in Hi as ->. apply key_lt_large; lia.
    + destruct (0 <? n)%nat; repeat constructor.
    + apply StronglySorted_seq. intros i j Hi Hj. apply AppendUint64_large_lt; lia.
Qed.

Lemma derive_order_perm n : derive_order n ≡ₚ seq 0 n.
Proof.
  unfold derive_order. destruct n as [|n]; [done|]. rewrite Nat.sub_1_r. simpl Nat.pred.
  change ((if (0 <? S n)%nat then [0%nat] else []) ++ seq 128 (S n - 128))
    with (0%nat :: seq 128 (S n - 128)).
  rewrite <- Permutation_middle. change (seq 0 (S n)) with (0%nat :: seq 1 n). apply perm_skip.
  destruct (decide (n <= 127)%nat).
  - rewrite Nat.min_l, (proj2 (Nat.sub_0_le _ _)) by lia. simpl. by rewrite app_nil_r.
  - rewrite Nat.min_r by lia. change 128%nat with (1 + 127)%nat at 1. rewrite <- seq_app.
    f_equiv. f_equal. lia.
Qed.

(** The updates of a hasher, one after the other. *)
Definition th_updates (T : TrieHasher) : res (th_state T) → list (list byte * list byte) → res (th_state T) :=
  foldl (λ h '(k, v), h ← h; th_Update T h k v).

Lemma derive_update_all l (T : TrieHasher) (vals : nat → list byte) order h :
  (∀ i, i ∈ order → dl_EncodeIndex l i = Ok (vals i)) →
  foldl (derive_update l T) h order = th_updates T h ((λ i, (derive_key i, vals i)) <$> order).
Proof.
  revert h. induction order as [|i order IH]; intros h Hv; [done|]. cbn [foldl fmap list_fmap th_updates].
  rewrite IH by set_solver. unfold th_updates. f_equal. destruct h as [h|]; [|done].
  unfold derive_update. simpl. by rewrite Hv by set_solver.
Qed.

(** [DeriveSha] feeds the hasher every element once, in strictly increasing order of
    the RLP key, as the stack trie demands: after the reset, the updates are a permutation
    of the pairs (RLP of the index, encoded element), sorted by key. *)
Lemma DeriveSha_sorted l (T : TrieHasher) (hasher : th_state T) (vals : list (list byte)) :
  Z.of_nat (dl_Len l) < 2 ^ 64 → length vals = dl_Len l →
  (∀ i v, vals !! i = Some v → dl_EncodeIndex l i = Ok v) →
  ∃ kvs,
    kvs ≡ₚ imap (λ i v, (derive_key i, v)) vals ∧
    StronglySorted (λ a b, bytes_lt a.1 b.1 = true) kvs ∧
    DeriveSha l T hasher = (h ← th_updates T (Ok (th_Reset T hasher)) kvs; th_Hash T h).
Proof.
  intros Hn Hlen Henc. pose proof (derive_order_perm (dl_Len l)) as Hperm.
  exists ((λ i, (derive_key i, nth i vals [])) <$> derive_order (dl_Len l)). split_and!.
  - rewrite Hperm, <- Hlen. apply reflexive_eq, list_eq. intros i.
    rewrite list_lookup_fmap, list_lookup_imap. destruct (vals !! i) as [v|] eqn:Hv.
    + rewrite lookup_seq_lt by (by eapply lookup_lt_Some). simpl.
      by rewrite (nth_lookup_Some _ _ _ _ Hv).
    + rewrite lookup_seq_ge by (by eapply lookup_ge_None). done.
  - eapply StronglySorted_fmap; [|by apply derive_order_sorted]. done.
  - unfold DeriveSha. rewrite (derive_update_all _ _ (λ i, nth i vals [])); [done|].
    intros i Hi. rewrite Hperm, elem_of_seq in Hi. apply Henc.
    destruct (lookup_lt_is_Some_2 vals i) as [v Hv]; [lia|]. rewrite Hv.
    by rewrite (nth_lookup_Some _ _ _ _ Hv).
Qed.

End theorems.

(** ** Witnesses *)

#[local] Existing Instances toy_crypto.

Lemma block_Hash_constant_witness :
  let h n := mkHeader n 0 (Some n) 0 0 0 0 [] None n 0 [] in
  header_Hash (h 1) = header_Hash (h 2).
Proof.
  intros h. destruct (block_Hash_constant (h 1) (InitBlock (h 1) [])) as [-> _].
  destruct (block_Hash_constant (h 2) (InitBlock (h 2) [])) as [-> _]. reflexivity.
Defined.
