(* ===== verification/ReceiptCodec.v ===== *)
(** * The encodings of logs and receipts (core/types/log.go, receipt.go)

    The [EncodeRLP] and [DecodeRLP] methods of [Log], [Receipt] and [ReceiptForStorage],
    over the encoder and decoder of package rlp. *)

From stdpp Require Import strings.
From S2P Require Import Prelude Bytes RlpEncode RlpRaw RlpStruct RlpStream RlpStreamProps RlpDecode RlpDecodeProps RlpRoundTrip.
From S2P Require Import Common Types StateDB Blocks.

Open Scope Z_scope.

(** ** The reflected types *)

Definition struct_type (name : string) (fields : list (string * RType)) : RType :=
  mkRType name Kind.Struct None false false false false 0 0 None
    ((λ '(n, t), (n, true, [], t)) <$> fields).

Definition rlpLog_type : RType :=
  struct_type "types.rlpLog"
    [("Address", byte_array "common.Address" 20);
     ("Topics", slice_of (byte_array "common.Hash" 32));
     ("Data", bytes_type)]%string.

(** [Log] has methods of its own, so its fields do not matter. *)
Definition log_type : RType := mkRType "types.Log" Kind.Struct None false false true true 0 0 None [].

Definition receiptRLP_type : RType :=
  struct_type "types.receiptRLP"
    [("PostStateOrStatus", bytes_type); ("CumulativeGasUsed", uint64_type);
     ("Bloom", byte_array "types.Bloom" 256); ("Logs", slice_of (ptr_to log_type))]%string.

Definition storedReceiptRLP_type : RType :=
  struct_type "types.storedReceiptRLP"
    [("PostStateOrStatus", bytes_type); ("CumulativeGasUsed", uint64_type);
     ("Logs", slice_of (ptr_to log_type))]%string.

(** ** Logs *)

(** [rlpLog] has no fields with methods; a decoder that is never called. *)
Definition no_DecodeRLP (typ : RType) : dm GoValue :=
  _ ← plainly stream_Kind; fail (TypeError (NotSerializable (rt_String typ))).

(** [Log.DecodeRLP]: the [rlpLog] whose fields it copies. *)
Definition Log_DecodeRLP (fuel : nat) : dm GoValue :=
  stream_Decode no_DecodeRLP fuel (PointerTo rlpLog_type).

Definition log_methods (fuel : nat) (_ : RType) : dm GoValue := Log_DecodeRLP fuel.

(** The log [DecodeRLP] fills: the copied fields of [dec], in a log that was zero. *)
Definition log_of (dec : GoValue) : Log :=
  match dec with
  | VStruct _ [(_, VByteArray address); (_, VSlice _ topics); (_, VBytes data)] =>
      mkLog (be_value address)
        ((λ t, match t with VByteArray h => be_value h | _ => 0 end) <$> topics) data 0 0 0 0 0 false
  | _ => mkLog 0 [] [] 0 0 0 0 0 false
  end.

Definition logs_of (dec : GoValue) : list Log :=
  match dec with
  | VSlice _ ls => (λ p, match p with VPtr _ (Some l) => log_of l | _ => log_of VUnsupported end) <$> ls
  | _ => []
  end.

(** ** Receipts *)

Inductive receipt_error :=
| errShortTypedReceipt
| ErrTxTypeNotSupported
| InvalidStatus (msg : string)
| RlpError (e : dec_error).

Section receipts.
Context `{Crypto}.

Definition set_consensus (r : Receipt) (type : byte) (cumulative : Z) (bloom : Bloom) (logs : list Log) : Receipt :=
  mkReceipt type (rc_PostState r) (rc_Status r) cumulative bloom logs
    (rc_TxHash r) (rc_ContractAddress r) (rc_GasUsed r) (rc_EffectiveGasPrice r)
    (rc_BlockHash r) (rc_BlockNumber r) (rc_TransactionIndex r).

(** [setStatus], with the receipt as an error leaves it. *)
Definition try_setStatus (r : Receipt) (post : list byte) : option receipt_error * Receipt :=
  match setStatus r post with
  | inl msg => (Some (InvalidStatus msg), r)
  | inr r => (None, r)
  end.

(** [setFromRLP] of a decoded [receiptRLP]. *)
Definition setFromRLP (r : Receipt) (data : GoValue) : option receipt_error * Receipt :=
  match data with
  | VStruct _ [(_, VBytes post); (_, VUint cumulative); (_, VByteArray bloom); (_, logs)] =>
      try_setStatus (set_consensus r (rc_Type r) cumulative bloom (logs_of logs)) post
  | _ => (None, r) (* not a receiptRLP *)
  end.

Definition set_type (r : Receipt) (type : byte) : Receipt :=
  set_consensus r type (rc_CumulativeGasUsed r) (rc_Bloom r) (rc_Logs r).

(** [decodeTyped]; [DecodeBytes] takes the stream [s0] from its pool. *)
Definition decodeTyped (fuel : nat) (s0 : Stream) (r : Receipt) (b : list byte)
  : outcome (option receipt_error * Receipt) :=
  match b with
  | [] | [_] => Done (Some errShortTypedReceipt, r)
  | type :: b =>
      if type =? PanguTxType then
        match DecodeBytes (log_methods fuel) fuel s0 b (PointerTo receiptRLP_type) with
        | Done (inl e) => Done (Some (RlpError e), r)
        | Done (inr data) => Done (setFromRLP (set_type r type) data)
        | Crash msg => Crash msg
        | OutOfFuel => OutOfFuel
        end
      else Done (Some ErrTxTypeNotSupported, r)
  end.
Definition UnmarshalBinary := decodeTyped.

(** [Receipt.EncodeRLP]: the typed encoding as one string. *)
Definition Receipt_EncodeRLP (r : Receipt) : list byte * option rlp_error :=
  match MarshalBinary r with
  | (_, Some e) => ([], Some e)
  | (b, None) => Encode (VBytes b)
  end.

(** [Receipt.DecodeRLP] reads from the stream [s] and returns it. *)
Definition Receipt_DecodeRLP (fuel : nat) (s0 : Stream) (r : Receipt) (s : Stream)
  : outcome (option receipt_error * Receipt * Stream) :=
  match (_ ← stream_Kind; stream_Bytes) s with
  | Done (inl e, s) => Done (Some (RlpError (StreamError e)), r, s)
  | Done (inr b, s) =>
      match decodeTyped fuel s0 r b with
      | Done (err, r) => Done (err, r, s)
      | Crash msg => Crash msg
      | OutOfFuel => OutOfFuel
      end
  | Crash msg => Crash msg
  | OutOfFuel => OutOfFuel
  end.

(** [ReceiptForStorage.EncodeRLP] writes into an encoder buffer; the bytes [Flush] writes. *)
Definition storage_write (r : Receipt) (buf : encBuffer) : rlp_error + encBuffer :=
  let '(buf, outerList) := buf_list buf in
  let buf := buf_writeBytes buf (statusEncoding r) in
  let buf := writeUint64 buf (rc_CumulativeGasUsed r) in
  let '(buf, logList) := buf_list buf in
  buf ← write_elems encode ((λ l, VPtr 0xC0 (Some (rlp_Log l))) <$> rc_Logs r) buf;
  let buf := listEnd buf logList in
  inr (listEnd buf outerList).
Definition Storage_EncodeRLP (r : Receipt) : list byte * option rlp_error :=
  match storage_write r reset with
  | inl e => ([], Some e)
  | inr buf => (writeTo buf, None)
  end.

(** [ReceiptForStorage.DecodeRLP]: the bloom filter is computed again. *)
Definition Storage_DecodeRLP (fuel : nat) (r : Receipt) (s : Stream)
  : outcome (option receipt_error * Receipt * Stream) :=
  match stream_Decode (log_methods fuel) fuel (PointerTo storedReceiptRLP_type) s with
  | Done (inl e, s) => Done (Some (RlpError e), r, s)
  | Done (inr stored, s) =>
      match stored with
      | VStruct _ [(_, VBytes post); (_, VUint cumulative); (_, logs)] =>
          match try_setStatus r post with
          | (Some e, r) => Done (Some e, r, s)
          | (None, r) =>
              let r := set_consensus r (rc_Type r) cumulative (rc_Bloom r) (logs_of logs) in
              Done (None, set_consensus r (rc_Type r) cumulative (CreateBloom [r]) (rc_Logs r), s)
          end
      | _ => Done (None, r, s) (* not a storedReceiptRLP *)
      end
  | Crash msg => Crash msg
  | OutOfFuel => OutOfFuel
  end.
End receipts.

(** ** The values of the types *)

Section values.
Context (P : RType → GoValue → Prop).

(** The predicates of the fields of a struct type. *)
Definition field_preds (typ : RType) : list (Tags → GoValue → Prop) :=
  map (λ '(_, _, _, ft), typed P ft) (rt_Field typ).

Lemma typed_struct name types fields tags n fs :
  structFields (struct_type name types) = inr fields → firstOptionalField fields = n → length fs = n →
  fields_typed (struct_type name types) (field_preds (struct_type name types)) n fields fs →
  typed P (struct_type name types) tags (VStruct n fs).
Proof.
  intros Es Efo Hn Hfs. subst n. unfold struct_type in *.
  cbn [typed rt_own rt_Kind rt_PtrIsDecoder rt_PtrIsEncoder rt_Elem rt_Field] in *.
  change (Kind.Struct =? Kind.Ptr) with false. change (isUint Kind.Struct) with false.
  change (Kind.Struct =? Kind.Bool) with false. change (Kind.Struct =? Kind.String) with false.
  change ((Kind.Struct =? Kind.Slice) || (Kind.Struct =? Kind.Array)) with false.
  change (Kind.Struct =? Kind.Struct) with true. cbv match. split; [done|]. split; [done|].
  rewrite Es. exists fs. by rewrite struct_count_all, Hn by lia.
Qed.

Lemma fields_typed_cons typ n i ts fields z v fs name ex tg ft :
  rt_Field typ !! i = Some (name, ex, tg, ft) → typed P ft ts v → z = IsZero ft v →
  fields_typed typ (field_preds typ) n fields fs →
  fields_typed typ (field_preds typ) (S n) ((i, ts) :: fields) ((z, v) :: fs).
Proof.
  intros Ef Hv Hz Hfs. cbn [fields_typed]. unfold field_preds at 1. by rewrite list_lookup_fmap, Ef.
Qed.

Lemma typed_byte_array name n b : bytes_ok b → length b = n → typed P (byte_array name n) no_tags (VByteArray b).
Proof. intros Hb Hl. split_and!; [done|done|]. by exists b. Qed.

Lemma typed_bytes b : bytes_ok b → typed P bytes_type no_tags (VBytes b).
Proof. intros Hb. split_and!; [done|done|]. by exists b. Qed.

Lemma typed_uint64 i : u64_ok i → typed P uint64_type no_tags (VUint i).
Proof. intros Hi. split_and!; [done|done|]. by exists i. Qed.

Lemma typed_slice t vs :
  is_byte_elem t = false → is_byte_type t = false → Forall (typed P t no_tags) vs →
  typed P (slice_of t) no_tags (VSlice false vs).
Proof.
  intros Ht Ht' Hvs. cbn [typed slice_of rt_own rt_Kind rt_PtrIsDecoder rt_PtrIsEncoder rt_Elem].
  split; [done|]. cbn [from_option]. rewrite Ht, Ht'. split; [done|]. by exists vs.
Qed.

Lemma typed_log_ptr v : P log_type v → typed P (ptr_to log_type) no_tags (VPtr 0xC0 (Some v)).
Proof. intros Hv. right. exists v. split; [done|]. split; [|done]. by split_and!. Qed.
End values.

(** One goal per field of a concrete struct. *)
Ltac typed_fields :=
  lazymatch goal with
  | |- fields_typed _ _ _ [] _ => exact I
  | _ => eapply fields_typed_cons; [reflexivity| |reflexivity|typed_fields]
  end.

(** ** Logs *)

Record log_ok (l : Log) : Prop := mkLogOk {
  lo_address : addr_ok (log_Address l) = true;
  lo_topics : Forall (λ h, hash_ok h = true) (log_Topics l);
  lo_data : bytes_ok (log_Data l);
}.

(** The value [DecodeRLP] reads for a log, and its consensus fields alone. *)
Definition log_value (l : Log) : GoValue :=
  VStruct 3 [(forallb (Z.eqb 0) (Address_Bytes (log_Address l)), VByteArray (Address_Bytes (log_Address l)));
             (false, VSlice false (VByteArray ∘ Hash_Bytes <$> log_Topics l));
             (false, VBytes (log_Data l))].
Definition consensus_log (l : Log) : Log := mkLog (log_Address l) (log_Topics l) (log_Data l) 0 0 0 0 0 false.

Lemma be_value_Address a : addr_ok a = true → be_value (Address_Bytes a) = a.
Proof.
  intros Ha. rewrite <- (BytesToAddress_Bytes a Ha) at 2. unfold BytesToAddress, crop_left.
  by rewrite Address_Bytes_length, Nat.sub_diag, drop_0.
Qed.
Lemma be_value_Hash h : hash_ok h = true → be_value (Hash_Bytes h) = h.
Proof.
  intros Hh. rewrite <- (BytesToHash_Bytes h Hh) at 2. unfold BytesToHash, crop_left.
  by rewrite Hash_Bytes_length, Nat.sub_diag, drop_0.
Qed.

Lemma log_of_value l : log_ok l → log_of (log_value l) = consensus_log l.
Proof.
  intros [Ha Ht Hd]. cbn [log_of log_value]. unfold consensus_log. rewrite be_value_Address by done. f_equal.
  rewrite <- list_fmap_compose. rewrite <- (list_fmap_id (log_Topics l)) at 2. apply list_fmap_ext. intros i h Hi.
  rewrite Forall_lookup in Ht. cbn. by apply be_value_Hash, (Ht i).
Qed.

Lemma rlpLog_fields :
  structFields rlpLog_type = inr [(0, no_tags); (1, no_tags); (2, no_tags)]%nat.
Proof. vm_compute. reflexivity. Qed.

Lemma log_value_typed P l : log_ok l → typed P rlpLog_type no_tags (log_value l).
Proof.
  intros [Ha Ht Hd]. eapply (typed_struct P "types.rlpLog"); [exact rlpLog_fields|done|done|].
  typed_fields.
  - apply typed_byte_array; [apply be_bytes_ok|apply Address_Bytes_length].
  - apply typed_slice; [done|done|]. apply Forall_fmap, Forall_forall. intros h _. cbn [compose].
    apply typed_byte_array; [apply be_bytes_ok|apply Hash_Bytes_length].
  - by apply typed_bytes.
Qed.

Lemma decoder_exists custom fuel typ :
  match makeDecoder custom fuel typ no_tags with inl _ => false | inr _ => true end = true →
  ∃ dec, makeDecoder custom fuel typ no_tags = inr dec.
Proof. destruct (makeDecoder _ _ _ _) as [e|dec]; [done|]. by exists dec. Qed.

Lemma no_DecodeRLP_trips fuel : custom_trips no_DecodeRLP fuel (λ _ _, False).
Proof.
  split; [|done]. intros typ. apply kind_first_looks. exists StreamError. eexists. split; [done|].
  intros s. reflexivity.
Qed.

(** [Log] keeps its promise to the decoders of receipts. *)
Lemma log_trips fuel : custom_trips (log_methods fuel) fuel (λ _ v, ∃ l, log_ok l ∧ v = log_value l).
Proof.
  destruct (decoder_exists no_DecodeRLP fuel rlpLog_type) as [dec Ed]; [vm_compute; reflexivity|].
  split.
  - intros typ. by eapply (stream_Decode_looks _ _ (λ _ _, False)); [apply no_DecodeRLP_trips| |].
  - intros typ v (l & Hl & ->). eapply (stream_Decode_takes _ _ (λ _ _, False)); [apply no_DecodeRLP_trips|done|done|].
    by apply log_value_typed.
Qed.

(** What [Log] reads is one value, the encoding of what it returns. *)
Lemma log_law fuel canon : custom_law (log_methods fuel) fuel canon.
Proof.
  intros typ. apply stream_Decode_sound; [|done]. intros typ'. split.
  - intros s Hs HN. unfold no_DecodeRLP, plainly, mbind, etm_bind, map_err.
    destruct (stream_Kind_cases s Hs) as [[Hl ->]|[(e & s1 & -> & He)|(k & n & h & s1 & -> & _)]]; eexists _, _; split; try done.
    by intros [= ->].
  - apply kind_first_peeks. exists StreamError. eexists. split; [done|]. intros s. reflexivity.
Qed.

Section receipt_theorems.
Context `{Crypto}.

(** ** Receipts *)

Record receipt_ok (r : Receipt) : Prop := mkReceiptOk {
  ro_status : (rc_PostState r = [] ∧ (rc_Status r = ReceiptStatusFailed ∨ rc_Status r = ReceiptStatusSuccessful)) ∨
              (length (rc_PostState r) = HashLength ∧ bytes_ok (rc_PostState r) ∧ rc_Status r = 0);
  ro_gas : u64_ok (rc_CumulativeGasUsed r);
  ro_bloom : length (rc_Bloom r) = BloomByteLength ∧ bytes_ok (rc_Bloom r);
  ro_logs : Forall log_ok (rc_Logs r);
}.

(** What [new(Receipt)] holds, and the fields of a receipt that are encoded. *)
Definition zero_receipt : Receipt := mkReceipt 0 [] 0 0 empty_bloom [] 0 0 0 None 0 None 0.
Definition consensus_receipt (r : Receipt) : Receipt :=
  mkReceipt (rc_Type r) (rc_PostState r) (rc_Status r) (rc_CumulativeGasUsed r) (rc_Bloom r)
    (consensus_log <$> rc_Logs r) 0 0 0 None 0 None 0.

Definition logs_value (r : Receipt) : GoValue :=
  VSlice false ((λ l, VPtr 0xC0 (Some (log_value l))) <$> rc_Logs r).
Definition receipt_value (r : Receipt) : GoValue :=
  VStruct 4 [(false, VBytes (statusEncoding r)); (rc_CumulativeGasUsed r =? 0, VUint (rc_CumulativeGasUsed r));
             (forallb (Z.eqb 0) (rc_Bloom r), VByteArray (rc_Bloom r)); (false, logs_value r)].
Definition stored_value (r : Receipt) : GoValue :=
  VStruct 3 [(false, VBytes (statusEncoding r)); (rc_CumulativeGasUsed r =? 0, VUint (rc_CumulativeGasUsed r));
             (false, logs_value r)].

Lemma statusEncoding_ok r : receipt_ok r → bytes_ok (statusEncoding r).
Proof.
  intros [[[E _]|(El & Hb & _)] _ _ _]; unfold statusEncoding.
  - rewrite E. destruct (_ =? _); by repeat constructor.
  - by destruct (rc_PostState r).
Qed.

Lemma logs_typed r :
  Forall log_ok (rc_Logs r) →
  typed (λ _ v, ∃ l, log_ok l ∧ v = log_value l) (slice_of (ptr_to log_type)) no_tags (logs_value r).
Proof.
  intros Hl. apply typed_slice; [done|done|]. apply Forall_fmap. eapply Forall_impl; [exact Hl|].
  intros l Hlog. apply typed_log_ptr. by exists l.
Qed.

Lemma receiptRLP_fields :
  structFields receiptRLP_type = inr [(0, no_tags); (1, no_tags); (2, no_tags); (3, no_tags)]%nat.
Proof. vm_compute. reflexivity. Qed.
Lemma storedReceiptRLP_fields :
  structFields storedReceiptRLP_type = inr [(0, no_tags); (1, no_tags); (2, no_tags)]%nat.
Proof. vm_compute. reflexivity. Qed.

Lemma receipt_value_typed r :
  receipt_ok r → typed (λ _ v, ∃ l, log_ok l ∧ v = log_value l) receiptRLP_type no_tags (receipt_value r).
Proof.
  intros Hr. pose proof (statusEncoding_ok r Hr). destruct Hr as [_ Hg [Hbl Hb] Hl].
  eapply (typed_struct _ "types.receiptRLP"); [exact receiptRLP_fields|done|done|]. typed_fields.
  - by apply typed_bytes.
  - by apply typed_uint64.
  - by apply typed_byte_array.
  - by apply logs_typed.
Qed.

Lemma stored_value_typed r :
  receipt_ok r → typed (λ _ v, ∃ l, log_ok l ∧ v = log_value l) storedReceiptRLP_type no_tags (stored_value r).
Proof.
  intros Hr. pose proof (statusEncoding_ok r Hr). destruct Hr as [_ Hg _ Hl].
  eapply (typed_struct _ "types.storedReceiptRLP"); [exact storedReceiptRLP_fields|done|done|]. typed_fields.
  - by apply typed_bytes.
  - by apply typed_uint64.
  - by apply logs_typed.
Qed.

(** ** Encodings *)

Lemma logs_spec r : rlp_spec (logs_value r) = rlp_spec (VSlice false ((λ l, VPtr 0xC0 (Some (rlp_Log l))) <$> rc_Logs r)).
Proof.
  cbn [rlp_spec logs_value]. assert (∀ ls, spec_elems rlp_spec ((λ l, VPtr 0xC0 (Some (log_value l))) <$> ls) =
    spec_elems rlp_spec ((λ l, VPtr 0xC0 (Some (rlp_Log l))) <$> ls)) as ->; [|done].
  induction ls as [|l ls IH]; [done|]. rewrite !fmap_cons. cbn [spec_elems]. fold (spec_elems rlp_spec). by rewrite IH.
Qed.

Lemma receipt_spec r : rlp_spec (receiptRLP r) = rlp_spec (receipt_value r).
Proof.
  unfold receiptRLP, receipt_value. cbn [rlp_spec spec_fields struct_count length decide].
  pose proof (logs_spec r) as E. cbn [rlp_spec logs_value] in E |- *. by rewrite <- E.
Qed.

Lemma rlp_Log_ok l : value_ok (rlp_Log l).
Proof.
  cbn [value_ok rlp_Log all_of snd]. split_and!; try done. apply all_of_Forall, Forall_fmap, Forall_forall. done.
Qed.

Lemma receiptRLP_ok r : u64_ok (rc_CumulativeGasUsed r) → value_ok (receiptRLP r).
Proof.
  intros Hg. cbn [value_ok receiptRLP all_of snd]. split_and!; try (done || apply Hg).
  apply all_of_Forall, Forall_fmap, Forall_forall. intros l _. apply rlp_Log_ok.
Qed.

Lemma setStatus_encoding r r0 :
  receipt_ok r → rc_PostState r0 = [] → rc_Status r0 = 0 →
  setStatus r0 (statusEncoding r) = inr (set_status r0 (rc_PostState r) (rc_Status r)).
Proof.
  intros [Hs _ _ _] E0 E1. unfold setStatus, statusEncoding.
  destruct Hs as [[E [Es|Es]]|(El & _ & Es)].
  - rewrite E, Es. cbn. by rewrite E0.
  - rewrite E, Es. cbn. by rewrite E0.
  - destruct (rc_PostState r) as [|x l] eqn:E; [done|].
    rewrite decide_False by (intros [= -> ->]; done). rewrite decide_False by done.
    rewrite El. cbn. by rewrite Es, E1.
Qed.

Lemma logs_of_value r : Forall log_ok (rc_Logs r) → logs_of (logs_value r) = consensus_log <$> rc_Logs r.
Proof.
  intros Hl. cbn [logs_of logs_value]. rewrite <- list_fmap_compose. apply list_fmap_ext. intros i l Hi.
  rewrite Forall_lookup in Hl. by apply log_of_value, (Hl i).
Qed.

Lemma NewStream_ready b :
  bytes_ok b → Z.of_nat (length b) < 2 ^ 48 →
  ready (NewStream b true 0) ∧ s_r (NewStream b true 0) = b ∧ fits (NewStream b true 0) (Z.of_nat (length b)).
Proof. intros Hb Hl. split; [by repeat split|]. split; [done|]. by split. Qed.

Lemma setFromRLP_value r :
  receipt_ok r → setFromRLP (set_type zero_receipt (rc_Type r)) (receipt_value r) = (None, consensus_receipt r).
Proof.
  intros Hr. pose proof Hr as [_ _ _ Hl]. cbn [setFromRLP receipt_value]. unfold try_setStatus.
  rewrite setStatus_encoding by done. by rewrite logs_of_value.
Qed.

Lemma decodeTyped_encoding fuel s0 r :
  receipt_ok r → rc_Type r = PanguTxType →
  ∃ out, rlp_spec (receiptRLP r) = inr out ∧
    (Z.of_nat (length out) < 2 ^ 48 → (length out < fuel)%nat →
     bytes_ok out ∧ decodeTyped fuel s0 zero_receipt (rc_Type r :: out) = Done (None, consensus_receipt r)).
Proof.
  intros Hr Ht.
  destruct (decoder_exists (log_methods fuel) fuel receiptRLP_type) as [dec Ed]; [vm_compute; reflexivity|].
  destruct (stream_Decode_takes (log_methods fuel) fuel _ receiptRLP_type dec _ (log_trips fuel) eq_refl Ed
    (receipt_value_typed r Hr)) as (out & [[Hs _] Hb Hraw] & Htk).
  exists out. split; [by rewrite receipt_spec|]. intros H48 Hf. split; [by apply Hb|].
  assert (∃ x l, out = x :: l) as (x & l & E) by (apply raw_value_ne in Hraw; destruct out; [done|eauto]).
  unfold decodeTyped. rewrite E, <- E, Ht, Z.eqb_refl. rewrite (DecodeBytes_takes _ _ s0 _ _ _ Htk); [|by apply Hb|done|done].
  rewrite <- Ht. by rewrite setFromRLP_value.
Qed.

(** [Kind] before [Bytes] does not change what is read. *)
Lemma Kind_Bytes_accepts b : bytes_ok b → accepts (_ ← stream_Kind; stream_Bytes) b (rlp_string b).
Proof.
  intros Hb s rest Hs Er Hf. destruct (Bytes_accepts b Hb s rest Hs Er Hf) as (s' & E & Hm).
  exists s'. split; [|done].
  destruct (rlp_string_raw b Hb) as (k & n & h & bv & c & Hh & Eb & Hn). rewrite Eb in Er, Hf.
  destruct (peek_raw s k n h bv c rest Hs Hh Hn Er Hf) as (s1 & Ek & Hp).
  rewrite (etm_bind_inr _ _ _ _ _ Ek), <- E. unfold stream_Bytes, mbind, etm_bind.
  by rewrite Ek, (stream_Kind_again _ _ _ _ _ Hp).
Qed.

(** C29: receipts survive both of their encodings.  [UnmarshalBinary] gives back the consensus
    fields of the receipt from what [MarshalBinary] returns, and [DecodeRLP] reads them from
    what [EncodeRLP] writes, to its end; the status or post state is recovered from the one
    field that encodes both, and the logs keep address, topics and data. *)
Theorem Receipt_roundtrip fuel s0 r :
  receipt_ok r → rc_Type r = PanguTxType →
  (∀ out, rlp_spec (receiptRLP r) = inr out → Z.of_nat (length out) < 2 ^ 47 ∧ (length out < fuel)%nat) →
  ∃ b e s', MarshalBinary r = (b, None) ∧ UnmarshalBinary fuel s0 zero_receipt b = Done (None, consensus_receipt r) ∧
    Receipt_EncodeRLP r = (e, None) ∧
    Receipt_DecodeRLP fuel s0 zero_receipt (NewStream e true 0) = Done (None, consensus_receipt r, s') ∧ s_r s' = [].
Proof.
  intros Hr Ht Hsize.
  destruct (encoder_refines (VPtr 0xC0 (Some (receiptRLP r)))) as [_ Henc];
    [apply receiptRLP_ok, Hr|intros out Ho; destruct (Hsize out Ho); lia|].
  destruct (decodeTyped_encoding fuel s0 r Hr Ht) as (out & Es & Hdec).
  destruct (Hsize out Es) as [H47 Hf]. destruct Hdec as [Hb Hdec]; [lia|done|]. cbn [rlp_spec] in Henc. rewrite Es in Henc.
  assert (bytes_ok (rc_Type r :: out)) as Hb1 by (rewrite Ht; by constructor).
  assert (Z.of_nat (length (rlp_string (rc_Type r :: out))) < 2 ^ 48) as H48.
  { pose proof (rlp_string_length_le (rc_Type r :: out)). simpl length in *. lia. }
  destruct (NewStream_ready (rlp_string (rc_Type r :: out))) as (Hready & Er & Hfit); [apply rlp_string_ok; [done|simpl; lia]|done|].
  destruct (Kind_Bytes_accepts _ Hb1 _ [] Hready) as (s' & E & Hm & _); [by rewrite app_nil_r|done|].
  exists (rc_Type r :: out), (rlp_string (rc_Type r :: out)), s'.
  assert (MarshalBinary r = (rc_Type r :: out, None)) as Em by (unfold MarshalBinary; by rewrite Henc).
  split_and!; [done|done| | |].
  - unfold Receipt_EncodeRLP. rewrite Em. destruct (encoder_refines (VBytes (rc_Type r :: out))) as [_ ->]; [done| |done].
    intros o Ho. assert (o = rlp_string (rc_Type r :: out)) as -> by (cbn [rlp_spec] in Ho; congruence). lia.
  - unfold Receipt_DecodeRLP. by rewrite E, Hdec.
  - pose proof (mv_r _ _ _ Hm) as Em'. rewrite Er in Em'. destruct (s_r s') as [|y l]; [done|].
    apply (f_equal length) in Em'. rewrite length_app in Em'. simpl in Em'. lia.
Qed.

(** ** The storage encoding *)

Lemma stored_spec r :
  rlp_spec (stored_value r) =
  (content ← (b ← inr (rlp_string (statusEncoding r)); bs ← (b ← inr (rlp_int (rc_CumulativeGasUsed r));
     bs ← (content ← spec_elems rlp_spec ((λ l, VPtr 0xC0 (Some (rlp_Log l))) <$> rc_Logs r); inr (rlp_list content));
     inr (b ++ bs)); inr (b ++ bs));
   inr (rlp_list content)).
Proof.
  pose proof (logs_spec r) as E. cbn [rlp_spec] in E. unfold stored_value. cbn [rlp_spec].
  rewrite struct_count_all by done. cbn [spec_fields length]. cbn [logs_value rlp_spec] in *. cbn [mbind err_bind] in *. rewrite <- E.
  by destruct (spec_elems rlp_spec _); cbn; rewrite ?app_nil_r.
Qed.

Lemma writes_ext w w' r : (∀ buf, w buf = w' buf) → writes w' r → writes w r.
Proof.
  intros E. destruct r as [e|out]; cbn [writes]; [intros Hw buf; by rewrite E|]. intros [Ht Hw].
  split; [intros buf; by rewrite E|]. intros Hn. destruct (Hw Hn) as (ps & Eo & Hps).
  exists ps. split; [done|]. intros buf. by rewrite E.
Qed.

Lemma storage_write_writes r : u64_ok (rc_CumulativeGasUsed r) → writes (storage_write r) (rlp_spec (stored_value r)).
Proof.
  intros Hg. rewrite stored_spec.
  set (logs := λ buf, let '(buf, lh) := buf_list buf in
    buf ← write_elems encode ((λ l, VPtr 0xC0 (Some (rlp_Log l))) <$> rc_Logs r) buf; inr (listEnd buf lh)).
  set (fields := λ buf, buf ← inr (buf_writeBytes buf (statusEncoding r));
    buf ← inr (writeUint64 buf (rc_CumulativeGasUsed r)); logs buf).
  eapply (writes_ext _ (λ buf, let '(buf, lh) := buf_list buf in buf ← fields buf; inr (listEnd buf lh))).
  { intros buf. unfold storage_write, fields, logs. cbn [buf_list mbind err_bind]. by destruct (write_elems _ _ _). }
  apply writes_list, (writes_seq (λ buf, inr (buf_writeBytes buf (statusEncoding r)))).
  - apply writes_str. intros Hn buf. apply buf_writeBytes_spec. pose proof (rlp_string_length (statusEncoding r)). lia.
  - apply (writes_seq (λ buf, inr (writeUint64 buf (rc_CumulativeGasUsed r)))).
    + apply writes_str. intros Hn buf. by apply writeUint64_spec.
    + apply writes_list, writes_elems.
      * apply Forall_fmap, Forall_forall. intros l _ Hok. by apply encode_writes.
      * apply all_of_Forall, Forall_fmap, Forall_forall. intros l _. apply rlp_Log_ok.
Qed.

Lemma storage_encodes r :
  u64_ok (rc_CumulativeGasUsed r) → ∀ out, rlp_spec (stored_value r) = inr out → Z.of_nat (length out) < 2 ^ 64 →
  Storage_EncodeRLP r = (out, None).
Proof.
  intros Hg out Es Hn. pose proof (storage_write_writes r Hg) as Hw. rewrite Es in Hw.
  destruct Hw as [_ (ps & <- & Hps)]; [done|]. unfold Storage_EncodeRLP. rewrite Hps.
  by rewrite writeTo_copyTo, <- makeBytes_extend.
Qed.

Lemma CreateBloom_consensus r : CreateBloom [consensus_receipt r] = CreateBloom [r].
Proof.
  cbn [CreateBloom foldl rc_Logs consensus_receipt]. generalize empty_bloom as b.
  induction (rc_Logs r) as [|l ls IH]; intros b; [done|]. rewrite fmap_cons. cbn [foldl]. apply IH.
Qed.

(** The storage format loses nothing but what is computed again.  [DecodeRLP] of a
    [ReceiptForStorage] reads back the status or post state, the gas and the logs that
    [EncodeRLP] wrote, and its bloom filter is that of the receipt's own logs. *)
Theorem ReceiptForStorage_roundtrip fuel r :
  receipt_ok r →
  (∀ out, rlp_spec (stored_value r) = inr out → Z.of_nat (length out) < 2 ^ 48 ∧ (length out < fuel)%nat) →
  ∃ e s', Storage_EncodeRLP r = (e, None) ∧
    Storage_DecodeRLP fuel zero_receipt (NewStream e true 0) =
      Done (None, set_consensus (consensus_receipt r) 0 (rc_CumulativeGasUsed r) (CreateBloom [r])
                    (consensus_log <$> rc_Logs r), s') ∧ s_r s' = [].
Proof.
  intros Hr Hsize.
  destruct (decoder_exists (log_methods fuel) fuel storedReceiptRLP_type) as [dec Ed]; [vm_compute; reflexivity|].
  destruct (stream_Decode_takes (log_methods fuel) fuel _ storedReceiptRLP_type dec _ (log_trips fuel) eq_refl Ed
    (stored_value_typed r Hr)) as (out & [[Hs _] Hb _] & Htk).
  destruct (Hsize out Hs) as [H48 Hf].
  destruct (NewStream_ready out (Hb H48) H48) as (Hready & Er & Hfit).
  destruct (Htk _ [] Hready) as (s' & E & Hm & _); [by rewrite app_nil_r|done|by rewrite Er|].
  exists out, s'. split_and!.
  - apply storage_encodes; [apply Hr|done|lia].
  - unfold Storage_DecodeRLP. rewrite E. cbn [stored_value]. unfold try_setStatus.
    rewrite setStatus_encoding, logs_of_value by (done || apply Hr). rewrite <- (CreateBloom_consensus r). done.
  - pose proof (mv_r _ _ _ Hm) as Em'. rewrite Er in Em'. destruct (s_r s') as [|y l]; [done|].
    apply (f_equal length) in Em'. rewrite length_app in Em'. simpl in Em'. lia.
Qed.
End receipt_theorems.

(** ** Witnesses *)

#[local] Existing Instances toy_crypto.

Definition sample_log : Log := mkLog 0xabc [7; 2 ^ 255] [1; 2; 3] 9 8 7 6 5 true.
Definition sample_receipt : Receipt :=
  mkReceipt PanguTxType [] 1 21000 empty_bloom [sample_log; sample_log] 5 6 7 (Some 8) 9 (Some 10) 11.

Lemma sample_receipt_ok : receipt_ok sample_receipt.
Proof.
  assert (log_ok sample_log) as Hl by (split; [done|by repeat constructor|by repeat constructor]).
  split; [left; split; [done|by right]|done| |by repeat constructor].
  split; [done|]. apply Forall_replicate. done.
Qed.

Lemma Receipt_roundtrip_witness :
  ∃ b e s', MarshalBinary sample_receipt = (b, None) ∧
    UnmarshalBinary 1000 new_Stream zero_receipt b = Done (None, consensus_receipt sample_receipt) ∧
    Receipt_EncodeRLP sample_receipt = (e, None) ∧
    Receipt_DecodeRLP 1000 new_Stream zero_receipt (NewStream e true 0) =
      Done (None, consensus_receipt sample_receipt, s') ∧ s_r s' = [].
Proof.
  apply (Receipt_roundtrip 1000 new_Stream sample_receipt); [exact sample_receipt_ok|reflexivity|].
  intros out Ho. vm_compute in Ho. injection Ho as <-. split; [reflexivity|]. cbn [length]. lia.
Defined.

Lemma ReceiptForStorage_roundtrip_witness :
  ∃ e s', Storage_EncodeRLP sample_receipt = (e, None) ∧
    Storage_DecodeRLP 1000 zero_receipt (NewStream e true 0) =
      Done (None, set_consensus (consensus_receipt sample_receipt) 0 21000 (CreateBloom [sample_receipt])
                    (consensus_log <$> rc_Logs sample_receipt), s') ∧ s_r s' = [].
Proof.
  apply (ReceiptForStorage_roundtrip 1000 sample_receipt); [exact sample_receipt_ok|].
  intros out Ho. vm_compute in Ho. injection Ho as <-. split; [reflexivity|]. cbn [length]. lia.
Defined.

(** The decoder of a receipt on its encoding, and on one that is cut short. *)
Definition sample_encoding : list byte := match EncodeToBytes (receipt_value sample_receipt) with inr b => b | inl _ => [] end.

Lemma sample_encoding_ok : bytes_ok sample_encoding.
Proof. apply (bool_decide_unpack _). vm_compute. exact I. Qed.

Lemma DecodeBytes_total_witness :
  ∃ r, DecodeBytes (log_methods 1000) 1000 new_Stream (take 40 sample_encoding) (PointerTo receiptRLP_type) = Done r.
Proof.
  apply (DecodeBytes_total (log_methods 1000) 1000 new_Stream (take 40 sample_encoding) (PointerTo receiptRLP_type)).
  - apply log_law.
  - apply Forall_take, sample_encoding_ok.
  - vm_compute. reflexivity.
  - apply Nat.ltb_lt. vm_compute. reflexivity.
Defined.

Lemma DecodeBytes_canonical_witness : EncodeToBytes (receipt_value sample_receipt) = inr sample_encoding.
Proof.
  apply (DecodeBytes_canonical (log_methods 1000) 1000 new_Stream sample_encoding receiptRLP_type).
  - apply log_law.
  - vm_compute. reflexivity.
  - apply sample_encoding_ok.
  - vm_compute. reflexivity.
  - apply Nat.ltb_lt. vm_compute. reflexivity.
  - vm_compute. reflexivity.
Defined.

Lemma EncodeToBytes_DecodeBytes_witness :
  ∃ b, EncodeToBytes (receipt_value sample_receipt) = inr b ∧
    DecodeBytes (log_methods 1000) 1000 new_Stream b (PointerTo receiptRLP_type) = Done (inr (receipt_value sample_receipt)).
Proof.
  destruct (decoder_exists (log_methods 1000) 1000 receiptRLP_type) as [dec Ed]; [vm_compute; reflexivity|].
  apply (EncodeToBytes_DecodeBytes (log_methods 1000) 1000 _ new_Stream receiptRLP_type dec (receipt_value sample_receipt)
    (log_trips 1000) eq_refl Ed (receipt_value_typed sample_receipt sample_receipt_ok)).
  intros out Ho. vm_compute in Ho. injection Ho as <-. split; [reflexivity|]. cbn [length]. lia.
Defined.
