(* ===== verification/DeriveRoot.v ===== *)
(** * The roots in a block header (types/hashing.go, types/block.go with trie/stacktrie.go)

    [NewBlock] is called with a stack trie as its [TrieHasher].  The stack trie is related
    to the trie in [StackTrieProps]; here its laws meet the insertion order of [DeriveSha],
    so that the roots of a new block are root hashes of tries over the lists. *)

From S2P Require Import Prelude Bytes RlpEncode Common AccessList Types TrieKeys TrieTree Trie TrieHash.
From S2P Require Import TrieMap StackTrie StackTrieProps Blocks.

Open Scope Z_scope.

Section derive.
Context `{Crypto}.

(** [StackTrie] as a [TrieHasher]. *)
Definition stack_hasher : TrieHasher :=
  mkTrieHasher (StackTrie * list write)
    (λ '(st, log), (st_Reset st, log))
    (λ '(st, log) k v, st_Update st k v log)
    (λ '(st, log), '(h, st, log) ← st_Hash st log; Ok (h, (st, log))).

(** ** The keys of [DeriveSha] *)

(** The first byte of a key gives the number of bytes that follow. *)
Lemma derive_key_head i :
  Z.of_nat i < 2 ^ 64 → ∃ h r, derive_key i = h :: r ∧ Z.of_nat (length r) = Z.max 0 (h - 128).
Proof.
  intros Hi. destruct (decide (i = 0%nat)) as [->|]; [by exists 128, []|].
  destruct (decide (i <= 127)%nat).
  - exists (Z.of_nat i), []. rewrite derive_key_small by lia. split; [done|simpl; lia].
  - eexists _, _. unfold derive_key. rewrite AppendUint64_large by lia. split; [done|].
    rewrite be_min_length. lia.
Qed.

Lemma derive_key_ok i : Z.of_nat i < 2 ^ 64 → bytes_ok (derive_key i) ∧ (length (derive_key i) <= 9)%nat.
Proof.
  intros Hi. destruct (decide (i = 0%nat)) as [->|].
  { split; [by constructor; [lia|constructor]|simpl; lia]. }
  destruct (decide (i <= 127)%nat).
  - rewrite derive_key_small by lia. split; [constructor; [lia|constructor]|simpl; lia].
  - unfold derive_key. rewrite AppendUint64_large by lia. pose proof (byte_len_le8 (Z.of_nat i)).
    split; [|simpl; rewrite be_min_length; lia].
    constructor; [lia|]. apply be_bytes_ok.
Qed.

Lemma derive_key_prefix i j s :
  Z.of_nat i < 2 ^ 64 → Z.of_nat j < 2 ^ 64 → derive_key j = derive_key i ++ s → s = [].
Proof.
  intros Hi Hj E. destruct (derive_key_head i Hi) as (h & r & Ei & Hl), (derive_key_head j Hj) as (h' & r' & Ej & Hl').
  rewrite Ei, Ej in E. injection E as -> ->. rewrite length_app in Hl'.
  apply length_zero_iff_nil. lia.
Qed.

Lemma bytes_lt_diverge a b :
  bytes_lt a b = true → diverge_lt a b ∨ ∃ s, s ≠ [] ∧ b = a ++ s.
Proof.
  revert b. induction a as [|x a IH]; intros [|y b] E; try done; [by right; exists (y :: b)|].
  cbn [bytes_lt] in E. apply orb_true_iff in E as [Hxy%Z.ltb_lt|[->%Z.eqb_eq E]%andb_true_iff].
  - left. by exists [], x, y, a, b.
  - destruct (IH b E) as [(c & z & t & r & s & -> & -> & Hlt)|(s & Hs & ->)].
    + left. by exists (y :: c), z, t, r, s.
    + right. by exists s.
Qed.

(** ** The root of a list *)

(** The map of a list: the RLP of the index to the element. *)
Definition index_map (vals : list (list byte)) : kvmap :=
  list_to_map (imap (λ i v, (derive_key i, v)) vals).

(** The list as [DeriveSha] sees it; an encoded element is not empty. *)
Definition encodes (l : DerivableList) (vals : list (list byte)) : Prop :=
  length vals = dl_Len l ∧ Z.of_nat (dl_Len l) < 2 ^ 64 ∧
  ∀ i v, vals !! i = Some v →
    dl_EncodeIndex l i = Ok v ∧ val_ok v ∧ Z.of_nat (length v) < 2 ^ 55.

(** [h] is the root hash of every trie that holds the list. *)
Definition root_of (vals : list (list byte)) (h : Hash) : Prop :=
  ∀ T, holds T (index_map vals) → ∃ T', trie_Hash T = Ok (h, T').

Lemma stack_updates kvs : ∀ st log,
  th_updates stack_hasher (Ok (st, log)) kvs = st_updates st kvs log.
Proof.
  assert (∀ kvs e, th_updates stack_hasher (Panic e) kvs = Panic e) as Hp by (intros l e; by induction l as [|[]]).
  induction kvs as [|[k v] kvs IH]; intros st log; [done|].
  cbn [st_updates]. unfold th_updates in *. cbn [foldl mbind res_bind stack_hasher th_Update].
  destruct (st_Update st k v log) as [[st' log']|e]; [by apply IH|by apply Hp].
Qed.

Lemma derive_kv_ok l vals i v : encodes l vals → vals !! i = Some v → kv_ok (derive_key i, v).
Proof.
  intros (Hlen & Hn & Henc) Ei. destruct (Henc i v Ei) as (_ & Hv & Hl).
  assert (Z.of_nat i < 2 ^ 64) as Hi by (apply lookup_lt_Some in Ei; lia).
  destruct (derive_key_ok i Hi). split_and!; [done|done|simpl; lia].
Qed.

Lemma StronglySorted_in {A} (R R' : A → A → Prop) l :
  StronglySorted R l → (∀ x y, x ∈ l → y ∈ l → R x y → R' x y) → StronglySorted R' l.
Proof.
  induction 1 as [|x l _ IH Hx]; intros HR; constructor.
  - apply IH. intros y z Hy Hz. apply HR; by right.
  - apply Forall_forall. intros y Hy. rewrite Forall_forall in Hx.
    apply HR; [by left|by right|by apply Hx].
Qed.

Lemma derive_root l vals hasher :
  encodes l vals → ∃ h hasher', DeriveSha l stack_hasher hasher = Ok (h, hasher') ∧ root_of vals h.
Proof.
  intros He. pose proof He as (Hlen & Hn & Henc).
  destruct (DeriveSha_sorted l stack_hasher hasher vals) as (kvs & Hperm & Hs & HD);
    [done|done|intros i v Ei; by apply Henc|].
  assert (∀ kv, kv ∈ kvs → ∃ i v, kv = (derive_key i, v) ∧ vals !! i = Some v) as Hin.
  { intros kv Hkv. rewrite Hperm in Hkv. apply elem_of_lookup_imap in Hkv as (i & v & -> & Ei). eauto. }
  assert (Forall kv_ok kvs) as Hok.
  { apply Forall_forall. intros kv Hkv. destruct (Hin kv Hkv) as (i & v & -> & Ei). by eapply derive_kv_ok. }
  assert (StronglySorted key_before kvs) as Hsort.
  { eapply StronglySorted_in; [done|]. intros kv kv' Hkv Hkv' Hlt.
    destruct (Hin kv Hkv) as (i & v & -> & Ei), (Hin kv' Hkv') as (j & v' & -> & Ej).
    apply lookup_lt_Some in Ei, Ej.
    apply bytes_lt_diverge in Hlt as [?|(s & Hs' & E)]; [done|].
    by apply derive_key_prefix in E; [|lia|lia]. }
  destruct hasher as [st0 log0].
  destruct (st_updates_new 0 false kvs log0 Hok Hsort) as (st & log & E & Hst).
  destruct (st_holds_Hash 0 false st log _ Hst) as (t & st' & log' & Hw & _ & Hm & Eh).
  eexists _, (st', log'). split.
  - rewrite HD. cbn [stack_hasher th_Reset th_Hash]. rewrite stack_updates.
    change (st_Reset st0) with (NewStackTrieWithOwner false 0). rewrite E. cbn [mbind res_bind]. rewrite Eh. done.
  - intros T HT. destruct (holds_Hash T _ HT) as (t2 & T' & _ & Hw2 & _ & Hm2 & Eh2 & _).
    assert (list_to_map kvs = index_map vals) as Emap.
    { apply list_to_map_proper; [by apply sorted_NoDup|done]. }
    rewrite Emap in Hm. assert (t2 = t) as -> by by eapply maps_inj. by exists T'.
Qed.

Lemma root_of_nil : root_of [] EmptyRootHash.
Proof.
  intros T HT. destruct (holds_Hash T _ HT) as (t & T' & _ & Hw & _ & Hm & E & _). exists T'.
  assert (t = TNil) as ->.
  { eapply maps_inj; [done|by intros []|done|by apply maps_nil]. }
  rewrite E. cbn [troot]. by rewrite BytesToHash_Bytes by (vm_compute; reflexivity).
Qed.

(** C19: The roots of a new block.  [NewBlock], called with a stack trie in any state,
    builds a block whose transaction root and receipt root are the root hashes of the
    tries that map the RLP of each index to the encoded element, for empty lists too; the
    bloom is that of the receipts, or the header's when there are none. *)
Theorem NewBlock_roots txs_list hasher header txs receipts stateRoot txvals rvals :
  (∀ l, dl_Len (txs_list l) = length l) →
  encodes (txs_list (concat txs)) txvals → encodes (receipts_list receipts) rvals →
  ∃ b, NewBlock txs_list stack_hasher hasher header txs receipts stateRoot = Ok b ∧
    root_of txvals (hd_TxRoot (b_header b)) ∧ root_of rvals (hd_ReceiptRoot (b_header b)) ∧
    hd_StateRoot (b_header b) = stateRoot ∧ b_transactions b = txs ∧
    hd_Bloom (b_header b) = match receipts with [] => hd_Bloom header | _ => CreateBloom receipts end.
Proof.
  intros Hlen Htx Hrc. unfold NewBlock.
  assert (∃ txRoot hasher1, match txs with [] => Ok (EmptyRootHash, hasher)
      | _ => DeriveSha (txs_list (concat txs)) stack_hasher hasher end = Ok (txRoot, hasher1) ∧
      root_of txvals txRoot) as (txRoot & hasher1 & -> & Hroot).
  { destruct txs as [|tx txs]; [|by apply derive_root]. exists EmptyRootHash, hasher. split; [done|].
    destruct Htx as [Hl _]. rewrite Hlen in Hl. destruct txvals; [|done]. apply root_of_nil. }
  cbn [mbind res_bind]. destruct receipts as [|r rs].
  - eexists. split; [done|]. destruct Hrc as [Hl _]. destruct rvals; [|done].
    split_and!; [done|apply root_of_nil|done|done|done].
  - destruct (derive_root (receipts_list (r :: rs)) rvals hasher1 Hrc) as (h & hasher2 & -> & Hr).
    eexists. split; [done|]. by split_and!.
Qed.
End derive.

(** ** Witness *)

#[local] Existing Instances toy_crypto.

Definition sample_receipt (gas : Z) : Receipt :=
  mkReceipt PanguTxType [] 1 gas empty_bloom [] 0 0 0 None 0 None 0.
Definition sample_receipts : list Receipt := sample_receipt <$> [21000; 42000; 63000].

Definition encoded (rs : list Receipt) : list (list byte) :=
  imap (λ i _, match receipts_EncodeIndex rs (Z.of_nat i) with Ok v => v | Panic _ => [] end) rs.

(** Blocks without transactions need no encoding of them. *)
Definition no_txs (l : list Transaction) : DerivableList := mkDerivableList (length l) (λ _, Ok []).

Definition sample_header : Header := mkHeader 7 0 (Some 1) 0 0 0 0 [] None 0 0 [].

Lemma encoded_sample : encodes (receipts_list sample_receipts) (encoded sample_receipts).
Proof.
  split_and!; [done|done|]. intros i v Ei.
  assert (Forall (λ v, val_ok v ∧ Z.of_nat (length v) < 2 ^ 55) (encoded sample_receipts)) as Hall.
  { apply (bool_decide_unpack (Forall (λ v, (v ≠ [] ∧ Forall (λ b, 0 <= b < 256) v) ∧
      Z.of_nat (length v) < 2 ^ 55) (encoded sample_receipts))). vm_compute. done. }
  rewrite Forall_lookup in Hall. destruct (Hall i v Ei). split_and!; [|done..].
  do 3 (destruct i as [|i]; [injection Ei as <-; vm_compute; reflexivity|]). done.
Qed.

Definition receipt_trie : Trie :=
  updated_trie 44 (imap (λ i v, (derive_key i, v)) (encoded sample_receipts)).

Lemma receipt_trie_holds : holds receipt_trie (index_map (encoded sample_receipts)).
Proof.
  unfold receipt_trie. set (kvs := imap _ _).
  replace (index_map (encoded sample_receipts)) with (foldl (λ m '(k, v), <[k := v]> m) (∅ : kvmap) kvs)
    by (vm_compute; reflexivity).
  apply updated_trie_holds.
  - apply Forall_forall. intros kv (i & v & -> & Ei)%elem_of_lookup_imap.
    by apply (derive_kv_ok (receipts_list sample_receipts) (encoded sample_receipts)); [apply encoded_sample|].
  - apply (bool_decide_unpack (Forall (λ kv, (key_rounds (fst kv) <= 44)%nat) kvs)). vm_compute. done.
Qed.

Lemma NewBlock_roots_witness :
  ∃ b T', NewBlock no_txs stack_hasher (NewStackTrie false, []) sample_header [] sample_receipts 9 = Ok b ∧
    hd_TxRoot (b_header b) = EmptyRootHash ∧ trie_Hash receipt_trie = Ok (hd_ReceiptRoot (b_header b), T').
Proof.
  destruct (NewBlock_roots no_txs (NewStackTrie false, []) sample_header [] sample_receipts 9 []
    (encoded sample_receipts)) as (b & E & Htx & Hrc & _).
  - done.
  - by split_and!.
  - apply encoded_sample.
  - destruct (Hrc _ receipt_trie_holds) as [T' ET]. exists b, T'.
    destruct (Htx (empty_trie newEmptyReader) (holds_empty _)) as [T0 E0].
    split; [exact E|]. split; [|exact ET]. clear -E0.
    assert (trie_Hash (empty_trie newEmptyReader) = Ok (EmptyRootHash, empty_trie newEmptyReader)) as E1
      by reflexivity.
    rewrite E1 in E0. by injection E0.
Defined.
