(* ===== verification/PoolList.v ===== *)
(** * Transaction lists of the pool (core/txpool/legacypool/list.go)

    [sortedMap] keeps the transactions of one account by nonce, with a heap of the nonces
    and a cache of the sorted list; [list] adds the total cost and the caps with which
    the pool decides quickly that nothing has to be dropped.  Both are shown to implement
    a list of transactions in nonce order.

    The amounts of a transaction are pointers; [Cost], the comparisons of fees and the
    accessors panic on a nil one, and so do the operations here that call them.
    [m.items[nonce]] of a nonce without an item is a nil pointer, on which the caller's
    [Cost] panics; the panic is taken at the lookup. *)

From S2P Require Import Prelude Bytes Params Heap Types.

(** ** nonceHeap and sortedMap *)

Definition nonce_Less (x y : Z) : bool := x <? y.

Record sortedMap := mkSortedMap {
  items : gmap Z Transaction;
  index : list Z;
  cache : option (list Transaction);
}.

Definition newSortedMap : sortedMap := mkSortedMap ∅ [] None.

Definition sm_Get (m : sortedMap) (nonce : Z) : option Transaction := items m !! nonce.

Definition sm_Put (m : sortedMap) (tx : Transaction) : sortedMap :=
  let nonce := tx_Nonce tx in
  let index := match items m !! nonce with None => heap_Push nonce_Less (index m) nonce | Some _ => index m end in
  mkSortedMap (<[nonce := tx]> (items m)) index None.

(** [heap.Pop]; the callers have checked that the heap is not empty. *)
Definition pop_index (h : list Z) : res (Z * list Z) :=
  match heap_Pop nonce_Less h with Some r => Ok r | None => Panic "index out of range" end.

Fixpoint forward_loop (fuel : nat) (threshold : Z) (items : gmap Z Transaction) (index : list Z)
    (removed : list Transaction) : res (gmap Z Transaction * list Z * list Transaction) :=
  match fuel, index with
  | S fuel, first :: _ =>
      if first <? threshold then
        '(nonce, index) ← pop_index index;
        tx ← deref (items !! nonce);
        forward_loop fuel threshold (delete nonce items) index (removed ++ [tx])
      else Ok (items, index, removed)
  | _, _ => Ok (items, index, removed)
  end.

(** [s[n:]] *)
Definition go_drop {A} (l : list A) (n : nat) : res (list A) :=
  if (length l <? n)%nat then Panic "slice bounds out of range" else Ok (drop n l).

Definition sm_Forward (m : sortedMap) (threshold : Z) : res (sortedMap * list Transaction) :=
  '(items, index, removed) ← forward_loop (length (index m)) threshold (items m) (index m) [];
  cache ← match cache m with
          | None => Ok None
          | Some c => c ← go_drop c (length removed); Ok (Some c)
          end;
  Ok (mkSortedMap items index cache, removed).

Section runtime.
Context `{GoRuntime}.

Definition reheap (m : sortedMap) : sortedMap :=
  mkSortedMap (items m) (heap_Init nonce_Less (range_map (items m)).*1) None.

(** [filter]: the map is ranged over while the current entry may be deleted. *)
Fixpoint filter_loop (f : Transaction → res bool) (l : list (Z * Transaction)) (items : gmap Z Transaction)
    (removed : list Transaction) : res (gmap Z Transaction * list Transaction) :=
  match l with
  | [] => Ok (items, removed)
  | (nonce, tx) :: l =>
      drop ← f tx;
      if (drop : bool) then filter_loop f l (delete nonce items) (removed ++ [tx])
      else filter_loop f l items removed
  end.

Definition sm_filter (m : sortedMap) (f : Transaction → res bool) : res (sortedMap * list Transaction) :=
  '(items', removed) ← filter_loop f (range_map (items m)) (items m) [];
  Ok (mkSortedMap items' (index m) (match removed with [] => cache m | _ => None end), removed).

Definition sm_Filter (m : sortedMap) (f : Transaction → res bool) : res (sortedMap * list Transaction) :=
  '(m, removed) ← sm_filter m f;
  Ok (match removed with [] => m | _ => reheap m end, removed).

Fixpoint cap_loop (count : nat) (size : Z) (items : gmap Z Transaction) (index : list Z) (drops : list Transaction)
  : res (gmap Z Transaction * list Transaction) :=
  match count with
  | O => Ok (items, drops)
  | S count =>
      nonce ← go_index index (size - 1);
      tx ← deref (items !! nonce);
      cap_loop count (size - 1) (delete nonce items) index (drops ++ [tx])
  end.

Definition sm_Cap (m : sortedMap) (threshold : Z) : res (sortedMap * list Transaction) :=
  let len := Z.of_nat (size (items m)) in
  if len <=? threshold then Ok (m, [])
  else
    let index := sort_slice nonce_Less (index m) in
    '(items, drops) ← cap_loop (Z.to_nat (len - threshold)) len (items m) index [];
    index ← go_take index threshold;
    cache ← match cache m with
            | None => Ok None
            | Some c => c ← go_take c (Z.of_nat (length c) - Z.of_nat (length drops)); Ok (Some c)
            end;
    Ok (mkSortedMap items (heap_Init nonce_Less index) cache, drops).

Definition sm_Remove (m : sortedMap) (nonce : Z) : sortedMap * bool :=
  match items m !! nonce with
  | None => (m, false)
  | Some _ =>
      let index :=
        match list_find (λ x, x = nonce) (index m) with
        | Some (i, _) => match heap_Remove nonce_Less (index m) i with Some (_, h) => h | None => index m end
        | None => index m
        end in
      (mkSortedMap (delete nonce (items m)) index None, true)
  end.

Fixpoint ready_loop (fuel : nat) (next : Z) (items : gmap Z Transaction) (index : list Z)
    (ready : list Transaction) : res (gmap Z Transaction * list Z * list Transaction) :=
  match fuel, index with
  | S fuel, first :: _ =>
      if first =? next then
        tx ← deref (items !! next);
        '(_, index) ← pop_index index;
        ready_loop fuel (next + 1)%u64 (delete next items) index (ready ++ [tx])
      else Ok (items, index, ready)
  | _, _ => Ok (items, index, ready)
  end.

Definition sm_Ready (m : sortedMap) (start : Z) : res (sortedMap * list Transaction) :=
  match index m with
  | [] => Ok (m, [])
  | first :: _ =>
      if start <? first then Ok (m, [])
      else
        '(items, index, ready) ← ready_loop (length (index m)) first (items m) (index m) [];
        Ok (mkSortedMap items index None, ready)
  end.

Definition sm_Len (m : sortedMap) : Z := Z.of_nat (size (items m)).

(** [TxByNonce.Less]. *)
Definition TxByNonce_Less (a b : Transaction) : bool := tx_Nonce a <? tx_Nonce b.

Definition sm_flatten (m : sortedMap) : sortedMap * list Transaction :=
  match cache m with
  | Some c => (m, c)
  | None =>
      let c := sort_slice TxByNonce_Less (range_map (items m)).*2 in
      (mkSortedMap (items m) (index m) (Some c), c)
  end.
Definition sm_Flatten : sortedMap → sortedMap * list Transaction := sm_flatten.

Definition sm_LastElement (m : sortedMap) : res (sortedMap * Transaction) :=
  let '(m, c) := sm_flatten m in
  tx ← go_index c (Z.of_nat (length c) - 1);
  Ok (m, tx).

(** ** list *)

Record tlist := mkList {
  strict : bool;
  txs : sortedMap;
  costcap : Z;
  gascap : Z;
  totalcost : Z;
}.

Definition newList (strict : bool) : tlist := mkList strict newSortedMap 0 0 0.

Fixpoint subTotalCost (total : Z) (dropped : list Transaction) : res Z :=
  match dropped with
  | [] => Ok total
  | tx :: dropped => c ← tx_Cost tx; subTotalCost (total - c) dropped
  end.

Definition list_Contains (l : tlist) (nonce : Z) : bool := bool_decide (is_Some (sm_Get (txs l) nonce)).

(** The conversions [int64(x)] and [int(x)] of a [uint64]. *)
Definition to_int64 (x : Z) : Z := if x <? 2 ^ 63 then x else x - 2 ^ 64.

(** The price a replacement has to offer; [100 + int64(priceBump)] is signed. *)
Definition underbids (old tx : Transaction) (priceBump : Z) : res bool :=
  c ← GasFeeCapCmp old tx;
  if 0 <=? c then Ok true
  else
    c ← GasTipCapCmp old tx;
    if 0 <=? c then Ok true
    else
      let a := to_int64 (100 + priceBump)%u64 in
      oldFeeCap ← tx_GasFeeCap old;
      oldTip ← tx_GasTipCap old;
      let thresholdFeeCap := a * oldFeeCap / 100 in
      let thresholdTip := a * oldTip / 100 in
      c ← GasFeeCapIntCmp tx thresholdFeeCap;
      if c <? 0 then Ok true
      else c ← GasTipCapIntCmp tx thresholdTip; Ok (c <? 0).

Definition list_Add (l : tlist) (tx : Transaction) (priceBump : Z) : res (tlist * bool * option Transaction) :=
  let old := sm_Get (txs l) (tx_Nonce tx) in
  refused ← match old with Some o => underbids o tx priceBump | None => Ok false end;
  if (refused : bool) then Ok (l, false, None)
  else
    total ← match old with Some o => subTotalCost (totalcost l) [o] | None => Ok (totalcost l) end;
    cost ← tx_Cost tx;
    Ok (mkList (strict l) (sm_Put (txs l) tx)
          (if costcap l <? cost then cost else costcap l)
          (if gascap l <? tx_GasLimit tx then tx_GasLimit tx else gascap l)
          (total + cost), true, old).

Definition with_txs (l : tlist) (m : sortedMap) (total : Z) : tlist :=
  mkList (strict l) m (costcap l) (gascap l) total.

Definition list_Forward (l : tlist) (threshold : Z) : res (tlist * list Transaction) :=
  '(m, removed) ← sm_Forward (txs l) threshold;
  total ← subTotalCost (totalcost l) removed;
  Ok (with_txs l m total, removed).

(** The test of [Filter]: more gas than the limit, or, when not, a higher cost. *)
Definition too_expensive (costLimit gasLimit : Z) (tx : Transaction) : res bool :=
  if gasLimit <? tx_GasLimit tx then Ok true else cost ← tx_Cost tx; Ok (costLimit <? cost).

Definition list_Filter (l : tlist) (costLimit gasLimit : Z) : res (tlist * list Transaction * list Transaction) :=
  if (costcap l <=? costLimit) && (gascap l <=? gasLimit) then Ok (l, [], [])
  else
    '(m, removed) ← sm_Filter (txs l) (too_expensive costLimit gasLimit);
    match removed with
    | [] => Ok (mkList (strict l) m costLimit gasLimit (totalcost l), [], [])
    | _ =>
        '(m, invalids) ←
          (if strict l then
             let lowest := foldl (λ lowest tx, if tx_Nonce tx <? lowest then tx_Nonce tx else lowest) MaxUint64 removed in
             sm_filter m (λ tx, Ok (lowest <? tx_Nonce tx))
           else Ok (m, []));
        total ← subTotalCost (totalcost l) removed;
        total ← subTotalCost total invalids;
        Ok (mkList (strict l) (reheap m) costLimit gasLimit total, removed, invalids)
    end.

Definition list_Cap (l : tlist) (threshold : Z) : res (tlist * list Transaction) :=
  '(m, drops) ← sm_Cap (txs l) threshold;
  total ← subTotalCost (totalcost l) drops;
  Ok (with_txs l m total, drops).

Definition list_Remove (l : tlist) (tx : Transaction) : res (tlist * bool * list Transaction) :=
  let nonce := tx_Nonce tx in
  let '(m, removed) := sm_Remove (txs l) nonce in
  if negb removed then Ok (l, false, [])
  else
    total ← subTotalCost (totalcost l) [tx];
    if strict l then
      '(m, dropped) ← sm_Filter m (λ tx, Ok (nonce <? tx_Nonce tx));
      total ← subTotalCost total dropped;
      Ok (with_txs l m total, true, dropped)
    else Ok (with_txs l m total, true, []).

Definition list_Ready (l : tlist) (start : Z) : res (tlist * list Transaction) :=
  '(m, ready) ← sm_Ready (txs l) start;
  total ← subTotalCost (totalcost l) ready;
  Ok (with_txs l m total, ready).

Definition list_Len (l : tlist) : Z := sm_Len (txs l).
Definition list_Empty (l : tlist) : bool := list_Len l =? 0.

Definition list_Flatten (l : tlist) : tlist * list Transaction :=
  let '(m, c) := sm_Flatten (txs l) in (with_txs l m (totalcost l), c).

Definition list_LastElement (l : tlist) : res (tlist * Transaction) :=
  '(m, tx) ← sm_LastElement (txs l); Ok (with_txs l m (totalcost l), tx).
End runtime.
