(* ===== verification/PoolListProps.v ===== *)
(** * Transaction lists of the pool: correctness

    [holds m l]: the sorted map [m] holds the transactions [l], in nonce order.  Every
    operation of [sortedMap] is a function of that list, whatever the heap and the cache
    are, and keeps them in order. *)

From S2P Require Import Prelude Bytes Params Heap Types PoolList.

Lemma filter_all {A} (P : A → Prop) `{!∀ x, Decision (P x)} l : Forall P l → filter P l = l.
Proof. induction 1 as [|x l Hx _ IH]; [done|]. by rewrite filter_cons_True, IH. Qed.
Lemma filter_none {A} (P : A → Prop) `{!∀ x, Decision (P x)} l : Forall (λ x, ¬ P x) l → filter P l = [].
Proof. induction 1 as [|x l Hx _ IH]; [done|]. by rewrite filter_cons_False. Qed.

Lemma Sorted_weaken {A} (R S : relation A) l : (∀ x y, R x y → S x y) → Sorted R l → Sorted S l.
Proof.
  intros HRS. induction 1 as [|x l Hl IH Hx]; constructor; [done|]. destruct Hx; constructor. by apply HRS.
Qed.

(** ** Nonce order *)

#[global] Instance nonce_Less_order : StrictWeak nonce_Less.
Proof.
  split; unfold le, nonce_Less.
  - intros a b. rewrite Z.ltb_lt, Z.ltb_ge. lia.
  - intros a b c. rewrite !Z.ltb_ge. lia.
Qed.

Lemma nonce_le a b : le nonce_Less a b ↔ a <= b.
Proof. unfold le, nonce_Less. apply Z.ltb_ge. Qed.

Definition nonce_lt (a b : Transaction) : Prop := tx_Nonce a < tx_Nonce b.
Definition nonce_leq (a b : Transaction) : Prop := tx_Nonce a <= tx_Nonce b.
#[global] Instance nonce_leq_trans : Transitive nonce_leq.
Proof. unfold nonce_leq. intros a b c. lia. Qed.
Definition ordered (l : list Transaction) : Prop := StronglySorted nonce_lt l.
Definition by_nonce (l : list Transaction) : gmap Z Transaction := list_to_map ((λ tx, (tx_Nonce tx, tx)) <$> l).

Lemma ordered_cons tx l : ordered (tx :: l) ↔ Forall (nonce_lt tx) l ∧ ordered l.
Proof. split; [by inversion 1|]. intros [? ?]. by constructor. Qed.

Lemma ordered_app l k :
  ordered (l ++ k) ↔ ordered l ∧ ordered k ∧ ∀ a b, a ∈ l → b ∈ k → nonce_lt a b.
Proof.
  induction l as [|x l IH]; cbn [app].
  - split; [intros Hk; split_and!; [constructor|done|set_solver]|by intros (_ & ? & _)].
  - rewrite !ordered_cons, IH, Forall_app, !Forall_forall. set_solver.
Qed.

Lemma ordered_NoDup l : ordered l → NoDup (tx_Nonce <$> l).
Proof.
  induction l as [|tx l IH]; [constructor|]. rewrite ordered_cons. intros [Hf Hl]. cbn. constructor; [|by apply IH].
  rewrite list_elem_of_fmap. intros (y & Hy & Hin). rewrite Forall_forall in Hf. specialize (Hf y Hin).
  unfold nonce_lt in Hf. lia.
Qed.

Lemma ordered_filter (P : Transaction → Prop) `{!∀ x, Decision (P x)} l : ordered l → ordered (filter P l).
Proof.
  induction l as [|tx l IH]; [done|]. rewrite ordered_cons. intros [Hf Hl]. rewrite filter_cons. case_decide; [|by apply IH].
  rewrite ordered_cons. split; [|by apply IH]. rewrite Forall_forall in *. intros y Hy. apply Hf.
  apply list_elem_of_filter in Hy. naive_solver.
Qed.

Lemma ordered_nonce_inj l a b : ordered l → a ∈ l → b ∈ l → tx_Nonce a = tx_Nonce b → a = b.
Proof.
  intros Hl Ha Hb Hn. induction l as [|tx l IH]; [set_solver|]. rewrite ordered_cons in Hl. destruct Hl as [Hf Hl].
  rewrite Forall_forall in Hf. unfold nonce_lt in Hf.
  apply elem_of_cons in Ha as [->|Ha]; apply elem_of_cons in Hb as [->|Hb]; [done| | |by apply IH].
  - specialize (Hf b Hb). lia.
  - specialize (Hf a Ha). lia.
Qed.

(** Sorting has one result. *)
Lemma ordered_unique l k : ordered l → k ≡ₚ l → Sorted nonce_leq k → k = l.
Proof.
  intros Hl Hp Hs. apply (Sorted_unique_strong nonce_leq); [|done| |done].
  - unfold nonce_leq. intros a b Ha Hb H1 H2. apply (ordered_nonce_inj l); [done|by rewrite <- Hp|done|lia].
  - apply StronglySorted_Sorted. clear -Hl. induction Hl as [|x l Hl IH Hx]; constructor; [done|].
    eapply Forall_impl; [done|]. unfold nonce_lt, nonce_leq. cbn. lia.
Qed.

Lemma by_nonce_pairs l : ordered l → NoDup ((λ tx, (tx_Nonce tx, tx)) <$> l).*1.
Proof. intros Hl. rewrite <- list_fmap_compose. by apply ordered_NoDup. Qed.

Lemma by_nonce_lookup l k tx : ordered l → by_nonce l !! k = Some tx ↔ tx ∈ l ∧ tx_Nonce tx = k.
Proof.
  intros Hl. unfold by_nonce. rewrite <- elem_of_list_to_map by (by apply by_nonce_pairs).
  rewrite list_elem_of_fmap. split; [intros (y & [= -> ->] & ?)|intros [? <-]]; eauto.
Qed.

Lemma by_nonce_eq l (m : gmap Z Transaction) :
  ordered l → (∀ k tx, m !! k = Some tx ↔ tx ∈ l ∧ tx_Nonce tx = k) → m = by_nonce l.
Proof. intros Hl Hm. apply map_eq. intros k. apply option_eq. intros tx. by rewrite Hm, by_nonce_lookup. Qed.

Lemma by_nonce_delete l k :
  ordered l → delete k (by_nonce l) = by_nonce (filter (λ tx, tx_Nonce tx ≠ k) l).
Proof.
  intros Hl. apply by_nonce_eq; [by apply ordered_filter|]. intros j tx.
  rewrite lookup_delete_Some, by_nonce_lookup, list_elem_of_filter by done. naive_solver.
Qed.

Lemma by_nonce_delete_head tx l : ordered (tx :: l) → delete (tx_Nonce tx) (by_nonce (tx :: l)) = by_nonce l.
Proof.
  intros Ho. apply ordered_cons in Ho as Ho'. destruct Ho' as [Hf Hl]. rewrite by_nonce_delete by done.
  rewrite filter_cons_False by naive_solver. f_equal. apply filter_all.
  eapply Forall_impl; [done|]. unfold nonce_lt. intros x. cbn. lia.
Qed.

Lemma by_nonce_head tx l : ordered (tx :: l) → by_nonce (tx :: l) !! tx_Nonce tx = Some tx.
Proof. intros Ho. apply by_nonce_lookup; [done|]. set_solver. Qed.

Lemma range_by_nonce `{GoRuntime} l : ordered l → range_map (by_nonce l) ≡ₚ (λ tx, (tx_Nonce tx, tx)) <$> l.
Proof. intros Hl. rewrite range_map_perm. apply map_to_list_to_map. by apply by_nonce_pairs. Qed.

Lemma by_nonce_size l : ordered l → size (by_nonce l) = length l.
Proof.
  intros Hl. unfold by_nonce. rewrite <- length_map_to_list, map_to_list_to_map by (by apply by_nonce_pairs).
  apply length_fmap.
Qed.

(** ** The abstraction *)

Definition indexed (h : list Z) (l : list Transaction) : Prop := heap nonce_Less h ∧ h ≡ₚ tx_Nonce <$> l.

Record holds (m : sortedMap) (l : list Transaction) : Prop := {
  holds_ordered : ordered l;
  holds_items : items m = by_nonce l;
  holds_index : indexed (index m) l;
  holds_cache : cache m = None ∨ cache m = Some l;
}.

(** The first nonce of the heap is the lowest. *)
Lemma indexed_head h tx l : ordered (tx :: l) → indexed h (tx :: l) → ∃ h', h = tx_Nonce tx :: h'.
Proof.
  intros Ho [Hh Hp]. destruct h as [|x h]; [apply Permutation_length in Hp; done|]. exists h. f_equal.
  apply ordered_cons in Ho as [Hf _]. assert (x <= tx_Nonce tx).
  { apply nonce_le. apply (heap_min_elem nonce_Less (x :: h)); [done|]. rewrite Hp. set_solver. }
  assert (x ∈ tx_Nonce <$> tx :: l) as Hx by (rewrite <- Hp; set_solver).
  apply list_elem_of_fmap in Hx as (y & -> & [->|Hy]%elem_of_cons); [done|].
  rewrite Forall_forall in Hf. specialize (Hf y Hy). unfold nonce_lt in Hf. lia.
Qed.

Lemma indexed_pop h tx l :
  ordered (tx :: l) → indexed h (tx :: l) → ∃ h', pop_index h = Ok (tx_Nonce tx, h') ∧ indexed h' l.
Proof.
  intros Ho Hi. destruct (indexed_head h tx l Ho Hi) as [h0 ->]. destruct Hi as [Hh Hp].
  destruct (heap_Pop_spec nonce_Less _ Hh) as (h' & E & Hh' & Hp'); [done|]. cbn [lookup_total] in *.
  exists h'. unfold pop_index. rewrite E. split; [done|]. split; [done|].
  apply (Permutation_cons_inv (a := tx_Nonce tx)). rewrite Hp'. done.
Qed.

Lemma indexed_nil h : indexed h [] → h = [].
Proof. intros [_ Hp]. by apply Permutation_nil_r in Hp. Qed.

Lemma indexed_length h l : indexed h l → length h = length l.
Proof. intros [_ Hp]. by rewrite Hp, length_fmap. Qed.

Lemma indexed_Init h l : h ≡ₚ tx_Nonce <$> l → indexed (heap_Init nonce_Less h) l.
Proof. intros Hp. destruct (heap_Init_spec nonce_Less h) as [Hh Hq]. split; [done|]. by rewrite Hq. Qed.

Lemma holds_new : holds newSortedMap [].
Proof.
  split; [apply SSorted_nil|done| |by left]. split; [|done]. intros p c _ Hc. cbn in Hc. lia.
Qed.

(** ** The operations on lists in nonce order *)

Definition below (t : Z) (l : list Transaction) : list Transaction := filter (λ tx, tx_Nonce tx < t) l.
Definition from (t : Z) (l : list Transaction) : list Transaction := filter (λ tx, t <= tx_Nonce tx) l.
Definition with_nonce (k : Z) (l : list Transaction) : option Transaction := head (filter (λ tx, tx_Nonce tx = k) l).
Definition put (tx : Transaction) (l : list Transaction) : list Transaction :=
  below (tx_Nonce tx) l ++ tx :: from (tx_Nonce tx + 1) l.
Definition without (f : Transaction → bool) (l : list Transaction) : list Transaction := filter (λ tx, f tx = false) l.
Definition only (f : Transaction → bool) (l : list Transaction) : list Transaction := filter (λ tx, f tx = true) l.

(** The transactions with consecutive nonces from [next] on. *)
Fixpoint run (next : Z) (l : list Transaction) : list Transaction :=
  match l with
  | tx :: l => if tx_Nonce tx =? next then tx :: run (next + 1)%u64 l else []
  | [] => []
  end.
Definition ready (start : Z) (l : list Transaction) : list Transaction :=
  match l with
  | [] => []
  | tx :: _ => if start <? tx_Nonce tx then [] else run (tx_Nonce tx) l
  end.

Lemma ordered_put tx l : ordered l → ordered (put tx l).
Proof.
  intros Hl. unfold put. rewrite ordered_app, ordered_cons. split_and!; try by apply ordered_filter.
  - apply Forall_forall. intros x Hx. apply list_elem_of_filter in Hx. unfold nonce_lt. lia.
  - intros a b Ha Hb. apply list_elem_of_filter in Ha. unfold nonce_lt.
    apply elem_of_cons in Hb as [->|Hb]; [lia|]. apply list_elem_of_filter in Hb. lia.
Qed.

Lemma elem_of_put tx l x : x ∈ put tx l ↔ x = tx ∨ x ∈ l ∧ tx_Nonce x ≠ tx_Nonce tx.
Proof.
  unfold put, below, from. rewrite elem_of_app, elem_of_cons, !list_elem_of_filter.
  destruct (Z.lt_total (tx_Nonce x) (tx_Nonce tx)) as [|[|]]; naive_solver lia.
Qed.

Lemma with_nonce_lookup l k : ordered l → by_nonce l !! k = with_nonce k l.
Proof.
  intros Hl. apply option_eq. intros tx. rewrite by_nonce_lookup by done. unfold with_nonce. split.
  - intros [Hin Hk]. assert (tx ∈ filter (λ x, tx_Nonce x = k) l) as Hf by (by apply list_elem_of_filter).
    destruct (filter _ l) as [|y f] eqn:E; [set_solver|]. cbn. f_equal.
    assert (y ∈ filter (λ x, tx_Nonce x = k) l) as Hy by (rewrite E; set_solver).
    apply list_elem_of_filter in Hy. apply (ordered_nonce_inj l); naive_solver.
  - intros Hh. destruct (filter _ l) as [|y f] eqn:E; [done|]. cbn in Hh. injection Hh as ->.
    assert (tx ∈ filter (λ x, tx_Nonce x = k) l) as Hy by (rewrite E; set_solver).
    apply list_elem_of_filter in Hy. naive_solver.
Qed.

(** *** Get and Put *)

Lemma Get_holds m l k : holds m l → sm_Get m k = with_nonce k l.
Proof. intros []. unfold sm_Get. rewrite holds_items0. by apply with_nonce_lookup. Qed.

Lemma Put_holds m l tx : holds m l → holds (sm_Put m tx) (put tx l).
Proof.
  intros [Ho Hi Hx _]. unfold sm_Put. rewrite Hi. split; cbn [items index cache]; [by apply ordered_put| | |by left].
  - apply by_nonce_eq; [by apply ordered_put|]. intros k x. rewrite elem_of_put.
    rewrite lookup_insert_Some, by_nonce_lookup by done. naive_solver.
  - assert (tx_Nonce <$> put tx l ≡ₚ tx_Nonce tx :: (tx_Nonce <$> filter (λ x, tx_Nonce x ≠ tx_Nonce tx) l)) as Hput.
    { unfold put. rewrite fmap_app. cbn. rewrite <- Permutation_middle, <- fmap_app. do 2 f_equiv.
      clear. unfold below, from. induction l as [|x l IH]; [done|]. rewrite !filter_cons.
      destruct (Z.lt_total (tx_Nonce x) (tx_Nonce tx)) as [|[|]]; repeat case_decide; try lia; cbn; rewrite <- ?Permutation_middle, ?IH; done. }
    destruct (by_nonce l !! tx_Nonce tx) as [old|] eqn:E; destruct Hx as [Hh Hp].
    + split; [done|]. rewrite Hp, Hput. apply by_nonce_lookup in E as [Hin Hn]; [|done].
      clear -Ho Hin Hn. induction l as [|x l IH]; [set_solver|]. apply ordered_cons in Ho as [Hf Ho].
      rewrite Forall_forall in Hf. unfold nonce_lt in Hf. apply elem_of_cons in Hin as [<-|Hin].
      * rewrite filter_cons_False by naive_solver. rewrite filter_all; [cbn; by rewrite Hn|].
        apply Forall_forall. intros y Hy. specialize (Hf y Hy). lia.
      * rewrite filter_cons_True by (specialize (Hf old Hin); lia). cbn. rewrite IH by done. apply Permutation_swap.
    + destruct (heap_Push_spec nonce_Less (index m) (tx_Nonce tx) Hh) as [Hh' Hp']. split; [done|].
      rewrite Hp', Hp, Hput. rewrite filter_all; [done|]. apply Forall_forall. intros x Hx Hn.
      assert (by_nonce l !! tx_Nonce tx = Some x) by (by apply by_nonce_lookup). congruence.
Qed.

(** *** Forward *)

Lemma from_all t l : Forall (λ tx, t <= tx_Nonce tx) l → from t l = l ∧ below t l = [].
Proof.
  intros Hl. split; [by apply filter_all|]. apply filter_none. eapply Forall_impl; [done|]. cbn. lia.
Qed.

Lemma forward_loop_spec fuel t : ∀ l h acc,
  ordered l → indexed h l → (length l <= fuel)%nat →
  ∃ h', forward_loop fuel t (by_nonce l) h acc = Ok (by_nonce (from t l), h', acc ++ below t l) ∧ indexed h' (from t l).
Proof.
  induction fuel as [|fuel IH]; intros l h acc Ho Hi Hf.
  - destruct l; [|cbn in Hf; lia]. exists h. cbn. by rewrite app_nil_r.
  - destruct l as [|tx l]; [exists h; rewrite (indexed_nil _ Hi) in *; cbn; by rewrite app_nil_r|].
    destruct (indexed_head h tx l Ho Hi) as [h0 ->]. cbn [forward_loop]. destruct (Z.ltb_spec (tx_Nonce tx) t).
    + destruct (indexed_pop _ _ _ Ho Hi) as (h' & -> & Hi'). cbn [mbind res_bind].
      rewrite by_nonce_head by done. cbn [deref mbind res_bind]. rewrite by_nonce_delete_head by done.
      apply ordered_cons in Ho as [Hlt Ho]. cbn in Hf. destruct (IH l h' (acc ++ [tx]) Ho Hi' ltac:(lia)) as (h2 & -> & Hi2).
      exists h2. unfold from, below in *. rewrite filter_cons_False, (filter_cons_True (λ tx, tx_Nonce tx < t)) by lia.
      by rewrite <- app_assoc.
    + apply ordered_cons in Ho as [Hlt Ho]. destruct (from_all t (tx :: l)) as [-> ->].
      { constructor; [done|]. eapply Forall_impl; [done|]. unfold nonce_lt. cbn. lia. }
      exists (tx_Nonce tx :: h0). by rewrite app_nil_r.
Qed.

Lemma below_from t l : ordered l → below t l ++ from t l = l.
Proof.
  induction l as [|tx l IH]; [done|]. intros [Hlt Ho]%ordered_cons. destruct (Z.lt_ge_cases (tx_Nonce tx) t).
  - unfold below, from. rewrite (filter_cons_True (λ x, tx_Nonce x < t)), filter_cons_False by lia. cbn. f_equal. by apply IH.
  - destruct (from_all t (tx :: l)) as [-> ->]; [|done]. constructor; [done|]. eapply Forall_impl; [done|]. unfold nonce_lt. cbn. lia.
Qed.

Lemma Forward_holds m l t :
  holds m l → ∃ m', sm_Forward m t = Ok (m', below t l) ∧ holds m' (from t l).
Proof.
  intros [Ho Hi Hx Hc]. unfold sm_Forward. rewrite Hi, (indexed_length _ _ Hx).
  destruct (forward_loop_spec (length l) t l (index m) [] Ho Hx ltac:(done)) as (h' & -> & Hx').
  cbn [mbind res_bind app]. assert (ordered (from t l)) as Ho' by (by apply ordered_filter).
  destruct Hc as [-> | ->]; cbn [mbind res_bind].
  - eexists. split; [done|]. split; try done. by left.
  - assert (go_drop l (length (below t l)) = Ok (from t l)) as ->.
    { unfold go_drop. pose proof (below_from t l Ho) as E. apply (f_equal length) in E as El.
      rewrite length_app in El. rewrite (proj2 (Nat.ltb_ge _ _)) by lia. rewrite <- E at 2. by rewrite drop_app_length. }
    cbn [mbind res_bind]. eexists. split; [done|]. split; try done. by right.
Qed.

Section runtime.
Context `{GoRuntime}.

(** *** Filter *)

Lemma reheap_holds m l : ordered l → items m = by_nonce l → holds (reheap m) l.
Proof.
  intros Ho Hi. unfold reheap. split; cbn [items index cache]; [done|done| |by left].
  apply indexed_Init. rewrite Hi, range_by_nonce by done. by rewrite <- list_fmap_compose.
Qed.

Lemma filter_loop_spec F (f : Transaction → bool) r : ∀ (m : gmap Z Transaction) acc,
  Forall (λ p, F p.2 = Ok (f p.2)) r →
  filter_loop F r m acc =
  Ok (foldl (λ m k, delete k m) m (filter (λ p, f p.2 = true) r).*1, acc ++ (filter (λ p, f p.2 = true) r).*2).
Proof.
  induction r as [|[k tx] r IH]; intros m acc HF; cbn [filter_loop]; [by rewrite app_nil_r|].
  apply Forall_cons in HF as [E HF]. cbn [snd] in E. rewrite E. cbn [mbind res_bind].
  destruct (f tx) eqn:Ef; rewrite IH by done.
  - rewrite filter_cons_True by done. cbn. by rewrite <- app_assoc.
  - by rewrite filter_cons_False by (cbn; congruence).
Qed.

Lemma foldl_delete_lookup ks : ∀ (m : gmap Z Transaction) k tx,
  foldl (λ m k, delete k m) m ks !! k = Some tx ↔ m !! k = Some tx ∧ k ∉ ks.
Proof.
  induction ks as [|j ks IH]; intros m k tx; cbn [foldl]; [set_solver|].
  rewrite IH, lookup_delete_Some, not_elem_of_cons. naive_solver.
Qed.

Lemma filter_fmap_pairs f l :
  filter (λ p : Z * Transaction, f p.2 = true) ((λ tx, (tx_Nonce tx, tx)) <$> l) =
  (λ tx, (tx_Nonce tx, tx)) <$> only f l.
Proof.
  unfold only. induction l as [|x l IH]; [done|]. rewrite fmap_cons. destruct (f x) eqn:E.
  - rewrite !filter_cons_True by done. by rewrite fmap_cons, IH.
  - by rewrite !filter_cons_False, IH by (cbn; congruence).
Qed.

Lemma filter_pairs f l r :
  r ≡ₚ (λ tx, (tx_Nonce tx, tx)) <$> l →
  filter (λ p : Z * Transaction, f p.2 = true) r ≡ₚ (λ tx, (tx_Nonce tx, tx)) <$> only f l.
Proof. intros ->. by rewrite filter_fmap_pairs. Qed.

(** The test is only applied to transactions of the list. *)
Lemma sm_filter_items m l F f :
  ordered l → items m = by_nonce l → Forall (λ tx, F tx = Ok (f tx)) l →
  ∃ m' removed, sm_filter m F = Ok (m', removed) ∧ items m' = by_nonce (without f l) ∧ removed ≡ₚ only f l ∧
    index m' = index m ∧ (removed = [] → cache m' = cache m).
Proof.
  intros Ho Hi HF. unfold sm_filter. rewrite Hi, (filter_loop_spec F f).
  2: { rewrite range_by_nonce, Forall_fmap by done. done. }
  cbn [mbind res_bind app]. pose proof (filter_pairs f l _ (range_by_nonce l Ho)) as Hp.
  eexists _, _. split; [done|]. cbn [items index cache]. split_and!; [| |done|by intros ->].
  - apply by_nonce_eq; [by apply ordered_filter|]. intros k tx. rewrite foldl_delete_lookup, by_nonce_lookup by done.
    rewrite Hp, <- list_fmap_compose, list_elem_of_fmap. unfold without. rewrite list_elem_of_filter. split.
    + intros [[Hin Hk] Hno]. split_and!; try done. destruct (f tx) eqn:E; [|done]. destruct Hno. exists tx.
      split; [done|]. by apply list_elem_of_filter.
    + intros [[Hf Hin] Hk]. split_and!; try done. intros (y & Ey & [Hy Hin']%list_elem_of_filter). cbn in Ey.
      assert (y = tx) as -> by (apply (ordered_nonce_inj l); congruence). congruence.
  - rewrite Hp, <- list_fmap_compose. apply Permutation_refl', list_fmap_id.
Qed.

Lemma only_without f l : only f l = [] → without f l = l.
Proof.
  unfold only, without. intros E. apply filter_all, Forall_forall. intros x Hx. destruct (f x) eqn:Ef; [|done].
  assert (x ∈ filter (λ tx, f tx = true) l) as Hin by (by apply list_elem_of_filter). rewrite E in Hin. set_solver.
Qed.

Lemma Filter_holds m l F f :
  holds m l → Forall (λ tx, F tx = Ok (f tx)) l →
  ∃ m' removed, sm_Filter m F = Ok (m', removed) ∧ holds m' (without f l) ∧ removed ≡ₚ only f l.
Proof.
  intros Hm HF. destruct (sm_filter_items m l F f) as (m' & removed & E & Hi & Hp & Hx & Hc); [apply Hm..|done|].
  unfold sm_Filter. rewrite E. cbn [mbind res_bind]. eexists _, removed. split; [done|]. split; [|done].
  destruct removed as [|x removed].
  - apply Permutation_nil_l in Hp. rewrite (only_without f l) in * by done.
    split; [apply Hm|done|rewrite Hx; apply Hm|rewrite Hc by done; apply Hm].
  - apply reheap_holds; [apply ordered_filter, Hm|done].
Qed.

(** *** Cap *)

Lemma take_ordered n l : ordered l → ordered (take n l).
Proof. rewrite <- (take_drop n l) at 1. by intros [? _]%ordered_app. Qed.

Lemma by_nonce_delete_last tx l : ordered (l ++ [tx]) → delete (tx_Nonce tx) (by_nonce (l ++ [tx])) = by_nonce l.
Proof.
  intros Ho. rewrite by_nonce_delete by done. f_equal. rewrite filter_app, (filter_none _ [tx]) by (constructor; naive_solver).
  rewrite app_nil_r. apply filter_all, Forall_forall. intros x Hx. apply ordered_app in Ho as (_ & _ & Hlt).
  specialize (Hlt x tx Hx ltac:(set_solver)). unfold nonce_lt in Hlt. lia.
Qed.

Lemma cap_loop_spec count : ∀ n l h acc,
  ordered l → (n + count <= length l)%nat → h = tx_Nonce <$> l →
  cap_loop count (Z.of_nat (n + count)) (by_nonce (take (n + count) l)) h acc =
  Ok (by_nonce (take n l), acc ++ reverse (drop n (take (n + count) l))).
Proof.
  induction count as [|count IH]; intros n l h acc Ho Hn ->.
  - rewrite Nat.add_0_r. cbn [cap_loop]. rewrite drop_ge by (rewrite length_take; lia). by rewrite app_nil_r.
  - cbn [cap_loop]. destruct (lookup_lt_is_Some_2 l (n + count)%nat) as [tx Htx]; [lia|].
    assert (take (n + S count) l = take (n + count) l ++ [tx]) as Et.
    { replace (n + S count)%nat with (S (n + count)) by lia. by apply take_S_r. }
    pose proof (take_ordered (n + S count) l Ho) as Ho2. rewrite Et in *.
    unfold go_index. rewrite (proj2 (Z.ltb_ge _ _)) by lia. replace (Z.to_nat _) with (n + count)%nat by lia.
    rewrite list_lookup_fmap, Htx. cbn [fmap option_fmap option_map mbind res_bind].
    rewrite (proj2 (by_nonce_lookup _ _ tx Ho2)) by (split; [set_solver|done]). cbn [deref mbind res_bind].
    rewrite by_nonce_delete_last by done. replace (Z.of_nat (n + S count) - 1) with (Z.of_nat (n + count)) by lia.
    rewrite IH by (done || lia). do 2 f_equal. rewrite <- app_assoc. f_equal.
    rewrite drop_app_le, reverse_app by (rewrite length_take; lia). done.
Qed.

Lemma sort_nonces l h : ordered l → h ≡ₚ tx_Nonce <$> l → sort_slice nonce_Less h = tx_Nonce <$> l.
Proof.
  intros Ho Hp. apply (Sorted_unique Z.le).
  - eapply Sorted_weaken; [|apply (sort_slice_sorted nonce_Less)].
    + intros x y. unfold nonce_Less. rewrite Z.ltb_ge. lia.
    + apply (Less_asym nonce_Less).
    + intros x y z H1 H2. exact (le_trans nonce_Less z y x H2 H1).
  - apply StronglySorted_Sorted. clear -Ho. induction Ho as [|x l _ IH Hx]; cbn; constructor; [done|].
    apply Forall_fmap. eapply Forall_impl; [done|]. unfold nonce_lt. cbn. lia.
  - by rewrite sort_slice_perm.
Qed.

Lemma go_take_Ok {A} (l : list A) n : 0 <= n <= Z.of_nat (length l) → go_take l n = Ok (take (Z.to_nat n) l).
Proof. intros Hn. unfold go_take. by rewrite (proj2 (Z.ltb_ge _ _)), (proj2 (Z.ltb_ge _ _)) by lia. Qed.

Lemma Cap_holds m l t :
  holds m l → 0 <= t →
  ∃ m', sm_Cap m t = Ok (m', reverse (drop (Z.to_nat t) l)) ∧ holds m' (take (Z.to_nat t) l).
Proof.
  intros Hm Ht. destruct Hm as [Ho Hi Hx Hc] eqn:Ehm. clear Ehm. unfold sm_Cap. rewrite Hi, by_nonce_size by done.
  destruct (Z.leb_spec (Z.of_nat (length l)) t).
  { rewrite drop_ge, take_ge by lia. eexists. split; [done|]. done. }
  destruct Hx as [_ Hp]. rewrite (sort_nonces l) by done.
  set (n := Z.to_nat t). replace (Z.to_nat (Z.of_nat (length l) - t)) with (length l - n)%nat by lia.
  pose proof (cap_loop_spec (length l - n) n l _ [] Ho ltac:(lia) eq_refl) as Hl.
  replace (n + (length l - n))%nat with (length l) in Hl by lia. rewrite take_ge in Hl by lia. rewrite Hl.
  cbn [mbind res_bind app]. rewrite go_take_Ok by (rewrite length_fmap; lia). cbn [mbind res_bind].
  assert (∀ c, holds (mkSortedMap (by_nonce (take n l)) (heap_Init nonce_Less (take n (tx_Nonce <$> l))) c) (take n l)
            ↔ c = None ∨ c = Some (take n l)) as Hh.
  { intros c. split; [by intros []|]. intros Hcc. split; [by apply take_ordered|done| |done]. apply indexed_Init. by rewrite fmap_take. }
  destruct Hc as [-> | ->]; cbn [mbind res_bind].
  - eexists. split; [done|]. apply Hh. by left.
  - rewrite length_reverse, length_drop. rewrite go_take_Ok by lia. cbn [mbind res_bind]. eexists. split; [done|].
    apply Hh. right. do 2 f_equal. lia.
Qed.

(** A negative limit runs past the start of the index. *)
Lemma cap_loop_negative count : ∀ size items h acc,
  0 <= size < Z.of_nat count → ∃ msg, cap_loop count size items h acc = Panic msg.
Proof.
  induction count as [|count IH]; intros size items h acc Hs; [lia|]. cbn [cap_loop].
  destruct (go_index h (size - 1)) as [nonce|msg] eqn:E; cbn [mbind res_bind]; [|by eexists].
  destruct (deref _) as [tx|msg]; cbn [mbind res_bind]; [|by eexists].
  destruct (decide (size = 0)) as [->|]; [|apply IH; lia]. unfold go_index in E. discriminate.
Qed.

Lemma Cap_negative m t : t < 0 → ∃ msg, sm_Cap m t = Panic msg.
Proof.
  intros Ht. unfold sm_Cap. rewrite (proj2 (Z.leb_gt _ _)) by lia.
  destruct (cap_loop_negative (Z.to_nat (Z.of_nat (size (items m)) - t)) (Z.of_nat (size (items m))) (items m)
    (sort_slice nonce_Less (index m)) []) as [msg E]; [lia|]. rewrite E. by exists msg.
Qed.

(** *** Remove *)

Lemma indexed_remove h l tx :
  ordered l → indexed h l → tx ∈ l →
  ∃ i h', list_find (λ x, x = tx_Nonce tx) h = Some (i, tx_Nonce tx) ∧
    heap_Remove nonce_Less h i = Some (tx_Nonce tx, h') ∧ indexed h' (filter (λ x, tx_Nonce x ≠ tx_Nonce tx) l).
Proof.
  intros Ho [Hh Hp] Hin. assert (tx_Nonce tx ∈ h) as Hm by (rewrite Hp; by apply list_elem_of_fmap_2).
  destruct (list_find_elem_of (λ x, x = tx_Nonce tx) h _ Hm eq_refl) as [[i y] E]. pose proof E as E'.
  apply list_find_Some in E' as (Hi & -> & _). pose proof (lookup_lt_Some _ _ _ Hi) as Hl.
  destruct (heap_Remove_spec nonce_Less h i Hh Hl) as (h' & Er & Hh' & Hp').
  rewrite (list_lookup_total_correct _ _ _ Hi) in *. exists i, h'. split_and!; [done..|]. split; [done|].
  apply (Permutation_cons_inv (a := tx_Nonce tx)). rewrite Hp', Hp. clear -Ho Hin.
  induction l as [|x l IH]; [set_solver|]. apply ordered_cons in Ho as [Hf Ho].
  rewrite Forall_forall in Hf. unfold nonce_lt in Hf. apply elem_of_cons in Hin as [<-|Hin].
  - rewrite filter_cons_False by naive_solver. rewrite filter_all; [done|].
    apply Forall_forall. intros y Hy. specialize (Hf y Hy). lia.
  - rewrite filter_cons_True by (specialize (Hf tx Hin); lia). rewrite !fmap_cons, IH by done. apply Permutation_swap.
Qed.

Definition drop_nonce (k : Z) (l : list Transaction) : list Transaction := filter (λ x, tx_Nonce x ≠ k) l.

Lemma Remove_holds m l k :
  holds m l →
  holds (fst (sm_Remove m k)) (drop_nonce k l) ∧ snd (sm_Remove m k) = bool_decide (is_Some (with_nonce k l)).
Proof.
  intros Hm. destruct Hm as [Ho Hi Hx Hc] eqn:Eh. clear Eh. unfold sm_Remove. rewrite Hi, with_nonce_lookup by done.
  destruct (with_nonce k l) as [tx|] eqn:E; cbn [fst snd].
  - rewrite <- with_nonce_lookup in E by done. apply by_nonce_lookup in E as [Hin <-]; [|done].
    destruct (indexed_remove _ _ tx Ho Hx Hin) as (i & h' & -> & -> & Hx'). split; [|by rewrite bool_decide_true].
    split; cbn [items index cache]; [by apply ordered_filter|by apply by_nonce_delete|done|by left].
  - split; [|by rewrite bool_decide_false by (by intros [])]. unfold drop_nonce. rewrite filter_all; [done|].
    apply Forall_forall. intros x Hx' Hk. rewrite <- with_nonce_lookup in E by done.
    assert (by_nonce l !! k = Some x) by (by apply by_nonce_lookup). congruence.
Qed.

(** *** Ready *)

Definition ready_rest (start : Z) (l : list Transaction) : list Transaction := drop (length (ready start l)) l.

Lemma ready_loop_spec fuel : ∀ next l h acc,
  ordered l → indexed h l → (length l <= fuel)%nat →
  ∃ h', ready_loop fuel next (by_nonce l) h acc =
          Ok (by_nonce (drop (length (run next l)) l), h', acc ++ run next l) ∧
        indexed h' (drop (length (run next l)) l).
Proof.
  induction fuel as [|fuel IH]; intros next l h acc Ho Hi Hf.
  - destruct l; [|cbn in Hf; lia]. exists h. cbn. by rewrite app_nil_r.
  - destruct l as [|tx l]; [exists h; rewrite (indexed_nil _ Hi) in *; cbn; by rewrite app_nil_r|].
    destruct (indexed_head h tx l Ho Hi) as [h0 ->]. cbn [ready_loop run].
    destruct (Z.eqb_spec (tx_Nonce tx) next) as [<-|Hne].
    + rewrite by_nonce_head by done. cbn [deref mbind res_bind].
      destruct (indexed_pop _ _ _ Ho Hi) as (h' & -> & Hi'). cbn [mbind res_bind].
      rewrite by_nonce_delete_head by done. apply ordered_cons in Ho as [_ Ho]. cbn in Hf.
      destruct (IH (tx_Nonce tx + 1)%u64 l h' (acc ++ [tx]) Ho Hi' ltac:(lia)) as (h2 & -> & Hi2).
      exists h2. cbn [length drop]. by rewrite <- app_assoc.
    + exists (tx_Nonce tx :: h0). cbn [length drop]. by rewrite app_nil_r.
Qed.

Lemma drop_ordered n l : ordered l → ordered (drop n l).
Proof. rewrite <- (take_drop n l) at 1. by intros (_ & ? & _)%ordered_app. Qed.

Lemma Ready_holds m l start :
  holds m l → ∃ m', sm_Ready m start = Ok (m', ready start l) ∧ holds m' (ready_rest start l).
Proof.
  intros Hm. destruct Hm as [Ho Hi Hx Hc] eqn:Eh. clear Eh. unfold sm_Ready, ready_rest, ready.
  destruct l as [|tx l]; [rewrite (indexed_nil _ Hx); by eexists|].
  destruct (indexed_head _ tx l Ho Hx) as [h0 E]. rewrite E. destruct (_ <? _); [by eexists|]. rewrite <- E, Hi.
  destruct (ready_loop_spec (length (index m)) (tx_Nonce tx) (tx :: l) (index m) [] Ho Hx) as (h' & -> & Hx');
    [by rewrite (indexed_length _ _ Hx)|]. cbn [mbind res_bind app].
  eexists. split; [done|]. split; cbn [items index cache]; [by apply drop_ordered|done|done|by left].
Qed.

(** *** Flatten *)

Lemma flatten_holds m l : holds m l → snd (sm_flatten m) = l ∧ holds (fst (sm_flatten m)) l.
Proof.
  intros [Ho Hi Hx Hc]. unfold sm_flatten. destruct Hc as [Hc|Hc]; rewrite Hc; cbn [fst snd].
  2: { split; [done|]. split; [done..|by right]. }
  assert (sort_slice TxByNonce_Less (range_map (items m)).*2 = l) as ->.
  - apply ordered_unique; [done| |].
    + rewrite sort_slice_perm, Hi, range_by_nonce, <- list_fmap_compose by done. by rewrite list_fmap_id.
    + eapply Sorted_weaken; [|apply sort_slice_sorted]; unfold TxByNonce_Less, nonce_leq.
      * intros x y. rewrite Z.ltb_ge. done.
      * intros x y. rewrite Z.ltb_lt, Z.ltb_ge. lia.
      * intros x y z. rewrite !Z.ltb_ge. lia.
  - split; [done|]. split; cbn [items index cache]; [done|done|done|by right].
Qed.

Lemma LastElement_holds m l tx :
  holds m (l ++ [tx]) → ∃ m', sm_LastElement m = Ok (m', tx) ∧ holds m' (l ++ [tx]).
Proof.
  intros Hm. destruct (flatten_holds m _ Hm) as [E Hh]. unfold sm_LastElement.
  destruct (sm_flatten m) as [m' c]. cbn [fst snd] in *. subst c. exists m'. split; [|done].
  rewrite length_app. cbn [length]. unfold go_index. rewrite (proj2 (Z.ltb_ge _ _)) by lia.
  replace (Z.to_nat _) with (length l) by lia. by rewrite lookup_snoc_last.
Qed.

Lemma Len_holds m l : holds m l → sm_Len m = Z.of_nat (length l).
Proof. intros []. unfold sm_Len. by rewrite holds_items0, by_nonce_size. Qed.
End runtime.
