(* ===== verification/PoolListRefine.v ===== *)
(** * Transaction lists of the pool: refinement

    The type [list] of the pool, with its heap, cached order, cached caps and running total,
    refines a list of transactions in nonce order with the operations of [spec_step]. *)

From S2P Require Import Prelude Bytes Params Heap Types PoolList PoolListProps.

(** ** The specification *)

Inductive list_op :=
| OAdd (tx : Transaction) (priceBump : Z)
| OForward (threshold : Z)
| OFilter (costLimit gasLimit : Z)
| OCap (threshold : Z)
| ORemove (tx : Transaction)
| OReady (start : Z)
| OFlatten.

Inductive list_out :=
| RAdd (inserted : bool) (old : option Transaction)
| RTxs (l : list Transaction)
| RFilter (removed invalids : list Transaction)
| RRemove (found : bool) (invalids : list Transaction).

(** The amounts of a transaction.  They are pointers in the source; a list is only given
    transactions that have all three. *)
Definition fee (tx : Transaction) : Z := default 0 (pt_FeeCap (inner tx)).
Definition tip (tx : Transaction) : Z := default 0 (pt_TipCap (inner tx)).
Definition value (tx : Transaction) : Z := default 0 (pt_Value (inner tx)).
Definition cost (tx : Transaction) : Z := fee tx * tx_GasLimit tx + value tx.
Definition has_amounts (tx : Transaction) : Prop :=
  is_Some (pt_FeeCap (inner tx)) ∧ is_Some (pt_TipCap (inner tx)) ∧ is_Some (pt_Value (inner tx)).

(** A replacement pays more of both, and at least the percentage [p] of what it replaces. *)
Definition percent (p x : Z) : Z := p * x / 100.
Definition outbids (priceBump : Z) (old tx : Transaction) : Prop :=
  let p := to_int64 (100 + priceBump)%u64 in
  (fee old < fee tx ∧ percent p (fee old) <= fee tx) ∧ (tip old < tip tx ∧ percent p (tip old) <= tip tx).
#[global] Instance outbids_dec b old tx : Decision (outbids b old tx).
Proof. unfold outbids. apply _. Defined.

(** A transaction the account cannot pay for, or that no block has room for. *)
Definition over (costLimit gasLimit : Z) (tx : Transaction) : bool :=
  (gasLimit <? tx_GasLimit tx) || (costLimit <? cost tx).

(** The transactions before the first with [f]. *)
Fixpoint before (f : Transaction → bool) (l : list Transaction) : list Transaction :=
  match l with
  | tx :: l => if f tx then [] else tx :: before f l
  | [] => []
  end.

Definition spec_step (strict : bool) (op : list_op) (l : list Transaction) : list Transaction * list_out :=
  match op with
  | OAdd tx priceBump =>
      match with_nonce (tx_Nonce tx) l with
      | Some old => if decide (outbids priceBump old tx) then (put tx l, RAdd true (Some old)) else (l, RAdd false None)
      | None => (put tx l, RAdd true None)
      end
  | OForward t => (from t l, RTxs (below t l))
  | OFilter c g =>
      let f := over c g in
      if strict then (before f l, RFilter (only f l) (without f (drop (length (before f l)) l)))
      else (without f l, RFilter (only f l) [])
  | OCap t => (take (Z.to_nat t) l, RTxs (reverse (drop (Z.to_nat t) l)))
  | ORemove tx =>
      let n := tx_Nonce tx in
      match with_nonce n l with
      | None => (l, RRemove false [])
      | Some _ => if strict then (below n l, RRemove true (from (n + 1) l)) else (drop_nonce n l, RRemove true [])
      end
  | OReady s => (ready_rest s l, RTxs (ready s l))
  | OFlatten => (l, RTxs l)
  end.

(** A negative limit of [Cap] panics; nothing else does. *)
Definition spec_panics (op : list_op) : bool := match op with OCap t => t <? 0 | _ => false end.

(** [Remove] takes the cost of its argument off the total, whichever transaction of that nonce
    the list holds: the total is off by the difference from then on. *)
Definition drift (op : list_op) (l : list Transaction) : Z :=
  match op with
  | ORemove tx => from_option (λ held, cost held - cost tx) 0 (with_nonce (tx_Nonce tx) l)
  | _ => 0
  end.

(** What the operations rely on: nonces are [uint64], and no amount is nil. *)
Definition op_ok (op : list_op) : Prop :=
  match op with
  | OAdd tx _ => u64_ok (tx_Nonce tx) ∧ has_amounts tx
  | ORemove tx => has_amounts tx
  | _ => True
  end.

(** The list, what its total is off by, and the results. *)
Fixpoint spec_run (strict : bool) (ops : list list_op) (l : list Transaction) (off : Z)
  : res (list Transaction * Z * list list_out) :=
  match ops with
  | [] => Ok (l, off, [])
  | op :: ops =>
      if spec_panics op then Panic "slice bounds out of range"
      else
        let '(l', o) := spec_step strict op l in
        '(l'', off, os) ← spec_run strict ops l' (off + drift op l);
        Ok (l'', off, o :: os)
  end.

(** Every [Remove] names the transaction that is held, if there is one of its nonce. *)
Definition held (op : list_op) (l : list Transaction) : Prop :=
  match op with ORemove tx => ∀ x, with_nonce (tx_Nonce tx) l = Some x → x = tx | _ => True end.
Fixpoint removes_held (strict : bool) (ops : list list_op) (l : list Transaction) : Prop :=
  match ops with
  | [] => True
  | op :: ops => held op l ∧ removes_held strict ops (spec_step strict op l).1
  end.

(** The order in which a map is ranged over shows in what [Filter] and [Remove] return. *)
Definition out_equiv (a b : list_out) : Prop :=
  match a, b with
  | RFilter r i, RFilter r' i' => r ≡ₚ r' ∧ i ≡ₚ i'
  | RRemove f i, RRemove f' i' => f = f' ∧ i ≡ₚ i'
  | _, _ => a = b
  end.

(** ** The implementation *)

Section runtime.
Context `{GoRuntime}.

Definition list_step (op : list_op) (l : tlist) : res (tlist * list_out) :=
  match op with
  | OAdd tx priceBump => '(l, inserted, old) ← list_Add l tx priceBump; Ok (l, RAdd inserted old)
  | OForward t => '(l, removed) ← list_Forward l t; Ok (l, RTxs removed)
  | OFilter c g => '(l, removed, invalids) ← list_Filter l c g; Ok (l, RFilter removed invalids)
  | OCap t => '(l, drops) ← list_Cap l t; Ok (l, RTxs drops)
  | ORemove tx => '(l, found, invalids) ← list_Remove l tx; Ok (l, RRemove found invalids)
  | OReady s => '(l, ready) ← list_Ready l s; Ok (l, RTxs ready)
  | OFlatten => let '(l, c) := list_Flatten l in Ok (l, RTxs c)
  end.
Fixpoint list_run (ops : list list_op) (l : tlist) : res (tlist * list list_out) :=
  match ops with
  | [] => Ok (l, [])
  | op :: ops =>
      '(l, o) ← list_step op l;
      '(l, os) ← list_run ops l; Ok (l, o :: os)
  end.

(** ** The abstraction *)

Fixpoint total (l : list Transaction) : Z :=
  match l with tx :: l => cost tx + total l | [] => 0 end.

(** [off] is what the running total is off by. *)
Record stands_at (off : Z) (L : tlist) (l : list Transaction) : Prop := {
  sf_holds : holds (txs L) l;
  sf_total : totalcost L = total l + off;
  sf_costcap : Forall (λ tx, cost tx <= costcap L) l;
  sf_gascap : Forall (λ tx, tx_GasLimit tx <= gascap L) l;
  sf_nonces : Forall (λ tx, u64_ok (tx_Nonce tx)) l;
  sf_amounts : Forall has_amounts l;
}.
Definition stands_for : tlist → list Transaction → Prop := stands_at 0.

Lemma total_app l k : total (l ++ k) = total l + total k.
Proof. induction l as [|x l IH]; cbn [app total]; [done|]. rewrite IH. lia. Qed.

#[local] Instance total_perm : Proper (Permutation ==> eq) total.
Proof. induction 1; cbn [total]; congruence || lia. Qed.

Lemma amounts_ok tx :
  has_amounts tx →
  deref (pt_FeeCap (inner tx)) = Ok (fee tx) ∧ deref (pt_TipCap (inner tx)) = Ok (tip tx) ∧
  deref (pt_Value (inner tx)) = Ok (value tx).
Proof. intros ([f Ef] & [t Et] & [v Ev]). unfold fee, tip, value. by rewrite Ef, Et, Ev. Qed.

Lemma tx_Cost_ok tx : has_amounts tx → tx_Cost tx = Ok (cost tx).
Proof. intros (Ef & _ & Ev)%amounts_ok. unfold tx_Cost, tx_GasPrice, tx_Value. by rewrite Ef, Ev. Qed.

Lemma subTotalCost_ok l : ∀ t, Forall has_amounts l → subTotalCost t l = Ok (t - total l).
Proof.
  induction l as [|x l IH]; intros t Hl; cbn [subTotalCost total]; [f_equal; lia|]. apply Forall_cons in Hl as [Hx Hl].
  rewrite tx_Cost_ok by done. cbn [mbind res_bind]. rewrite IH by done. f_equal. lia.
Qed.

Lemma amounts_sub k l : Forall has_amounts l → k ⊆ l → Forall has_amounts k.
Proof. rewrite !Forall_forall. eauto. Qed.

Lemma too_expensive_ok c g tx : has_amounts tx → too_expensive c g tx = Ok (over c g tx).
Proof.
  intros Hx. unfold too_expensive, over. destruct (_ <? _); [done|]. rewrite tx_Cost_ok by done. done.
Qed.

Lemma big_Cmp_ge x y : (0 <=? big_Cmp x y) = bool_decide (y <= x).
Proof. unfold big_Cmp. destruct (Z.compare_spec x y); cbn; symmetry; [apply bool_decide_true|apply bool_decide_false|apply bool_decide_true]; lia. Qed.
Lemma big_Cmp_lt x y : (big_Cmp x y <? 0) = bool_decide (x < y).
Proof. unfold big_Cmp. destruct (Z.compare_spec x y); cbn; symmetry; [apply bool_decide_false|apply bool_decide_true|apply bool_decide_false]; lia. Qed.

Lemma underbids_ok old tx bump :
  has_amounts old → has_amounts tx → underbids old tx bump = Ok (bool_decide (¬ outbids bump old tx)).
Proof.
  intros (Ef & Et & _)%amounts_ok (Ef' & Et' & _)%amounts_ok. unfold underbids.
  unfold GasFeeCapCmp, GasTipCapCmp, GasFeeCapIntCmp, GasTipCapIntCmp, tx_GasFeeCap, tx_GasTipCap.
  rewrite Ef, Et, Ef', Et'. cbn [mbind res_bind]. fold (percent (to_int64 (100 + bump)%u64) (fee old)).
  fold (percent (to_int64 (100 + bump)%u64) (tip old)). rewrite !big_Cmp_ge, !big_Cmp_lt.
  repeat case_bool_decide; unfold outbids in *; (done || (exfalso; lia)).
Qed.

Lemma total_split (P : Transaction → Prop) `{!∀ x, Decision (P x)} l :
  total l = total (filter P l) + total (filter (λ x, ¬ P x) l).
Proof.
  induction l as [|x l IH]; [done|]. destruct (decide (P x)).
  - rewrite filter_cons_True, (filter_cons_False (λ x, ¬ P x)) by tauto. cbn [total]. lia.
  - rewrite filter_cons_False, (filter_cons_True (λ x, ¬ P x)) by tauto. cbn [total]. lia.
Qed.

(** What is left of a list after a removal stands for a sublist. *)
Lemma stands_for_off off L l m k t off' :
  stands_at off L l → holds m k → k ⊆ l → t = total k + off' → stands_at off' (with_txs L m t) k.
Proof.
  intros [Hh Ht Hc Hg Hn Ha] Hm Hs ->. rewrite !Forall_forall in *.
  split; cbn [strict txs costcap gascap totalcost with_txs]; [done|done|..]; rewrite ?Forall_forall; eauto.
Qed.

Lemma stands_for_sub off L l m k t :
  stands_at off L l → holds m k → k ⊆ l → t = total k + off → stands_at off (with_txs L m t) k.
Proof. apply stands_for_off. Qed.

Lemma match_cons {A B} (l : list A) (a b : B) : l ≠ [] → match l with [] => a | _ => b end = b.
Proof. by destruct l. Qed.

Lemma newList_stands_for strict : stands_for (newList strict) [].
Proof. split; try done. apply holds_new. Qed.

(** ** The simulation, operation by operation *)

Definition simulates (op : list_op) : Prop :=
  ∀ off L l, stands_at off L l → op_ok op → spec_panics op = false →
  ∃ L' o, list_step op L = Ok (L', o) ∧ strict L' = strict L ∧
    stands_at (off + drift op l) L' (spec_step (strict L) op l).1 ∧ out_equiv o (spec_step (strict L) op l).2.

Lemma put_total tx l : ordered l → total (put tx l) = total l + cost tx - from_option cost 0 (with_nonce (tx_Nonce tx) l).
Proof.
  intros Ho. unfold put. rewrite total_app. cbn [total].
  rewrite (total_split (λ x, tx_Nonce x < tx_Nonce tx) l).
  assert (total (filter (λ x, ¬ tx_Nonce x < tx_Nonce tx) l) =
          from_option cost 0 (with_nonce (tx_Nonce tx) l) + total (from (tx_Nonce tx + 1) l)) as ->; [|unfold below; lia].
  induction l as [|x l IH]; [done|]. apply ordered_cons in Ho as [Hf Ho]. rewrite Forall_forall in Hf.
  unfold with_nonce, from, nonce_lt in *. destruct (Z.lt_total (tx_Nonce x) (tx_Nonce tx)) as [|[Heq|]].
  - rewrite !filter_cons_False by lia. by apply IH.
  - rewrite filter_cons_True, (filter_cons_True (λ y, tx_Nonce y = _)), (filter_cons_False (λ y, _ <= _)) by lia.
    cbn [head from_option total]. rewrite (filter_all _ l), (filter_all (λ y, _ <= _) l); [done|..];
      apply Forall_forall; intros y Hy; specialize (Hf y Hy); lia.
  - rewrite filter_cons_True, (filter_cons_False (λ y, tx_Nonce y = _)), (filter_cons_True (λ y, _ <= _)) by lia.
    cbn [total]. rewrite IH by done. lia.
Qed.

Lemma put_stands_for off L l tx :
  stands_at off L l → u64_ok (tx_Nonce tx) → has_amounts tx →
  stands_at off (mkList (strict L) (sm_Put (txs L) tx)
       (if costcap L <? cost tx then cost tx else costcap L)
       (if gascap L <? tx_GasLimit tx then tx_GasLimit tx else gascap L)
       (totalcost L - from_option cost 0 (with_nonce (tx_Nonce tx) l) + cost tx)) (put tx l).
Proof.
  intros [Hh Ht Hc Hg Hn Ha] Hu Hamt. rewrite !Forall_forall in *.
  split; cbn [strict txs costcap gascap totalcost]; rewrite ?Forall_forall.
  - by apply Put_holds.
  - rewrite put_total by apply Hh. lia.
  - intros x [->|[Hx _]]%elem_of_put; [|specialize (Hc x Hx)]; destruct (Z.ltb_spec (costcap L) (cost tx)); lia.
  - intros x [->|[Hx _]]%elem_of_put; [|specialize (Hg x Hx)]; destruct (Z.ltb_spec (gascap L) (tx_GasLimit tx)); lia.
  - intros x [->|[Hx _]]%elem_of_put; [done|by apply Hn].
  - intros x [->|[Hx _]]%elem_of_put; [done|by apply Ha].
Qed.

Lemma with_nonce_elem l n tx : with_nonce n l = Some tx → tx ∈ l ∧ tx_Nonce tx = n.
Proof.
  unfold with_nonce. intros E. assert (tx ∈ filter (λ x, tx_Nonce x = n) l) as Hin; [|apply list_elem_of_filter in Hin; tauto].
  destruct (filter _ l); [done|]. injection E as ->. set_solver.
Qed.

Lemma Add_simulates tx priceBump : simulates (OAdd tx priceBump).
Proof.
  intros off L l HL [Hu Hamt] _. pose proof (put_stands_for off L l tx HL Hu Hamt) as Hput. pose proof HL as [Hh Ht _ _ _ Ha].
  cbn [list_step spec_step drift]. rewrite Z.add_0_r. unfold list_Add. rewrite (Get_holds _ l), (tx_Cost_ok tx) by done.
  destruct (with_nonce (tx_Nonce tx) l) as [old|] eqn:E; cbn [from_option] in Hput; cbn [mbind res_bind].
  2: { rewrite Z.sub_0_r in Hput. by eexists _, _. }
  apply with_nonce_elem in E as [Hin _]. pose proof (proj1 (Forall_forall _ _) Ha old Hin) as Hold.
  rewrite underbids_ok, subTotalCost_ok by (done || by constructor). cbn [total mbind res_bind].
  rewrite Z.add_0_r. case_bool_decide; case_decide; try done; cbn [mbind res_bind]; by eexists _, _.
Qed.

Lemma Forward_simulates t : simulates (OForward t).
Proof.
  intros off L l HL _ _. pose proof HL as [Hh Ht _ _ _ Ha]. cbn [list_step spec_step drift]. rewrite Z.add_0_r. unfold list_Forward.
  destruct (Forward_holds (txs L) l t Hh) as (m' & -> & Hm'). cbn [mbind res_bind].
  rewrite subTotalCost_ok by (eapply amounts_sub; [exact Ha|apply list_subseteq_filter]). cbn [mbind res_bind]. eexists _, _.
  split; [done|]. split; [done|]. split; [|done]. apply (stands_for_sub off L l); [done|done|apply list_subseteq_filter|].
  rewrite Ht. rewrite <- (below_from t l) at 1 by apply Hh. rewrite total_app. cbn [fst]. lia.
Qed.

Lemma Cap_simulates t : simulates (OCap t).
Proof.
  intros off L l HL _ Hok%Z.ltb_ge. pose proof HL as [Hh Ht _ _ _ Ha]. cbn [list_step spec_step drift]. rewrite Z.add_0_r. unfold list_Cap.
  destruct (Cap_holds (txs L) l t Hh Hok) as (m' & -> & Hm'). cbn [mbind res_bind].
  rewrite subTotalCost_ok by (rewrite reverse_Permutation; eapply amounts_sub; [exact Ha|apply subseteq_drop]).
  cbn [mbind res_bind]. eexists _, _.
  split; [done|]. split; [done|]. split; [|done]. apply (stands_for_sub off L l); [done|done|apply subseteq_take|].
  cbn [fst]. rewrite Ht, reverse_Permutation. rewrite <- (take_drop (Z.to_nat t) l) at 1. rewrite total_app. cbn [fst]. lia.
Qed.

Lemma run_prefix l : ∀ next, run next l = take (length (run next l)) l.
Proof. induction l as [|x l IH]; intros next; cbn [run]; [done|]. destruct (_ =? _); [|done]. cbn. by rewrite <- IH. Qed.

Lemma ready_prefix s l : ready s l ++ ready_rest s l = l.
Proof.
  unfold ready_rest. assert (ready s l = take (length (ready s l)) l) as E; [|rewrite E at 1; apply take_drop].
  unfold ready. destruct l as [|x l]; [done|]. destruct (_ <? _); [done|]. apply run_prefix.
Qed.

Lemma Ready_simulates s : simulates (OReady s).
Proof.
  intros off L l HL _ _. pose proof HL as [Hh Ht _ _ _ Ha]. cbn [list_step spec_step drift]. rewrite Z.add_0_r. unfold list_Ready.
  destruct (Ready_holds (txs L) l s Hh) as (m' & -> & Hm'). cbn [mbind res_bind].
  rewrite subTotalCost_ok by (eapply amounts_sub; [exact Ha|rewrite <- (ready_prefix s l) at 2; set_solver]).
  cbn [mbind res_bind]. eexists _, _.
  split; [done|]. split; [done|]. split; [|done]. apply (stands_for_sub off L l); [done|done|apply subseteq_drop|].
  rewrite Ht. rewrite <- (ready_prefix s l) at 1. rewrite total_app. cbn [fst]. lia.
Qed.

Lemma Flatten_simulates : simulates OFlatten.
Proof.
  intros off L l HL _ _. pose proof HL as [Hh Ht _ _ _ _]. cbn [list_step spec_step drift]. rewrite Z.add_0_r. unfold list_Flatten, sm_Flatten.
  destruct (flatten_holds (txs L) l Hh) as [Hc Hm]. destruct (sm_flatten (txs L)) as [m c]. cbn [fst snd] in *. subst c.
  eexists _, _. split; [done|]. split; [done|]. split; [|done]. by apply (stands_for_sub off L l).
Qed.

(** *** Filter *)

Lemma over_caps off L l c g :
  stands_at off L l → costcap L <= c → gascap L <= g → Forall (λ tx, over c g tx = false) l.
Proof.
  intros [_ _ Hc Hg _ _] H1 H2. rewrite !Forall_forall in *. intros x Hx. specialize (Hc x Hx). specialize (Hg x Hx).
  unfold over. by rewrite (proj2 (Z.ltb_ge _ _)), (proj2 (Z.ltb_ge _ _)) by lia.
Qed.

Lemma none_over f l : Forall (λ tx, f tx = false) l → only f l = [] ∧ without f l = l ∧ before f l = l.
Proof.
  intros Hl. split_and!.
  - apply filter_none. eapply Forall_impl; [done|]. cbn. congruence.
  - by apply filter_all.
  - induction Hl as [|x l Hx _ IH]; cbn [before]; [done|]. by rewrite Hx, IH.
Qed.

Lemma only_nil f l : only f l = [] → Forall (λ tx, f tx = false) l.
Proof. intros E. rewrite <- (only_without f l E). apply Forall_forall. by intros x [? _]%list_elem_of_filter. Qed.

(** The first transaction with [f]. *)
Lemma split_before f l :
  only f l ≠ [] → ∃ b rest, l = before f l ++ b :: rest ∧ f b = true ∧ Forall (λ tx, f tx = false) (before f l) ∧
    only f l = b :: only f rest.
Proof.
  induction l as [|x l IH]; [done|]. unfold only in *. cbn [before]. destruct (f x) eqn:E.
  - intros _. exists x, l. by rewrite filter_cons_True.
  - rewrite filter_cons_False by congruence. intros (b & rest & El & Hb & Hf & Ho)%IH. exists b, rest.
    rewrite El at 1. split_and!; [done|done|by constructor|done].
Qed.

Lemma lowest_fold r : ∀ acc,
  foldl (λ lowest tx, if tx_Nonce tx <? lowest then tx_Nonce tx else lowest) acc r =
  foldr (λ tx s, Z.min (tx_Nonce tx) s) acc r.
Proof.
  assert (∀ r a b, foldr (λ tx s, Z.min (tx_Nonce tx) s) (Z.min a b) r = Z.min a (foldr (λ tx s, Z.min (tx_Nonce tx) s) b r)) as Hmin.
  { induction r0 as [|x r0 IH]; intros a b; simpl; [done|]. rewrite IH. lia. }
  induction r as [|x r IH]; intros acc; simpl; [done|]. rewrite IH, <- Hmin. f_equal.
  destruct (Z.ltb_spec (tx_Nonce x) acc); lia.
Qed.

Lemma lowest_spec removed b rest :
  removed ≡ₚ b :: rest → Forall (nonce_lt b) rest → u64_ok (tx_Nonce b) →
  foldl (λ lowest tx, if tx_Nonce tx <? lowest then tx_Nonce tx else lowest) MaxUint64 removed = tx_Nonce b.
Proof.
  intros Hp Hf Hb. rewrite lowest_fold. transitivity (foldr (λ tx s, Z.min (tx_Nonce tx) s) MaxUint64 (b :: rest)).
  - clear -Hp. induction Hp; simpl; congruence || lia.
  - simpl. assert (tx_Nonce b <= foldr (λ tx s, Z.min (tx_Nonce tx) s) MaxUint64 rest); [|lia].
    clear Hp. unfold u64_ok, MaxUint64 in *. induction Hf as [|x rest Hx _ IH]; simpl; [lia|]. unfold nonce_lt in Hx. lia.
Qed.

(** In nonce order, what is above the first transaction with [f] is what comes after it. *)
Lemma strict_split f l b rest :
  ordered l → l = before f l ++ b :: rest → f b = true → Forall (λ tx, f tx = false) (before f l) →
  without (λ tx, tx_Nonce b <? tx_Nonce tx) (without f l) = before f l ∧
  only (λ tx, tx_Nonce b <? tx_Nonce tx) (without f l) = without f (drop (length (before f l)) l).
Proof.
  intros Ho El Hb Hf. set (k := before f l) in *. clearbody k. subst l.
  apply ordered_app in Ho as (_ & [Hr _]%ordered_cons & Hlt). rewrite drop_app_length.
  unfold only, without. rewrite !filter_app, (filter_all _ k), !(filter_cons_False _ b) by (done || congruence).
  assert (Forall (λ tx, (tx_Nonce b <? tx_Nonce tx) = false) k) as Hk.
  { apply Forall_forall. intros x Hx. specialize (Hlt x b Hx ltac:(set_solver)). apply Z.ltb_ge. unfold nonce_lt in Hlt. lia. }
  assert (Forall (λ tx, (tx_Nonce b <? tx_Nonce tx) = true) (filter (λ tx, f tx = false) rest)) as Hrest.
  { apply Forall_forall. intros x [_ Hx]%list_elem_of_filter. rewrite Forall_forall in Hr. apply Z.ltb_lt. by apply Hr. }
  split.
  - rewrite (filter_all _ k), (filter_none _ (filter _ rest)), app_nil_r; [done| |done].
    eapply Forall_impl; [done|]. cbn. congruence.
  - rewrite (filter_none _ k), (filter_all _ (filter _ rest)); [done|done|].
    eapply Forall_impl; [done|]. cbn. congruence.
Qed.

Lemma total_without f l : total (without f l) = total l - total (only f l).
Proof.
  unfold without, only. rewrite (total_split (λ x, f x = true) l).
  rewrite (list_filter_iff (λ x, ¬ f x = true) (λ x, f x = false)); [lia|]. intros x. destruct (f x); naive_solver.
Qed.

Lemma stands_for_caps off L l st m k c g t :
  stands_at off L l → holds m k → k ⊆ l → Forall (λ tx, over c g tx = false) k → t = total k + off →
  stands_at off (mkList st m c g t) k.
Proof.
  intros [Hh Ht Hc Hg Hn Ha] Hm Hs Ho ->. rewrite !Forall_forall in *.
  split; cbn [strict txs costcap gascap totalcost]; [done|done|..]; rewrite ?Forall_forall; intros x Hx; [..|eauto|eauto];
    specialize (Ho x Hx); unfold over in Ho; apply orb_false_iff in Ho as [H1%Z.ltb_ge H2%Z.ltb_ge]; done.
Qed.

(** The second stage of [Filter] on a strict list: what comes after the first transaction that
    was removed goes too. *)
Lemma strict_stage off L l f m removed :
  stands_at off L l → holds m (without f l) → removed ≡ₚ only f l → only f l ≠ [] →
  ∃ m' invalids,
    sm_filter m (λ tx, Ok (foldl (λ lowest tx, if tx_Nonce tx <? lowest then tx_Nonce tx else lowest) MaxUint64 removed <? tx_Nonce tx))
      = Ok (m', invalids) ∧
    holds (reheap m') (before f l) ∧ invalids ≡ₚ without f (drop (length (before f l)) l) ∧
    total (before f l) = total l - total (only f l) - total (without f (drop (length (before f l)) l)) ∧
    before f l ⊆ l ∧ Forall (λ tx, f tx = false) (before f l).
Proof.
  intros [Hh _ _ _ Hn _] Hm Hp Hne. destruct (split_before f l Hne) as (b & rest & El & Hb & Hf & Eo).
  assert (Forall (nonce_lt b) rest) as Hr.
  { pose proof (holds_ordered _ _ Hh) as Ho. rewrite El in Ho. by apply ordered_app in Ho as (_ & [? _]%ordered_cons & _). }
  rewrite (lowest_spec removed b (only f rest)); [|by rewrite <- Eo| |].
  2: { apply Forall_forall. intros x [_ Hx]%list_elem_of_filter. rewrite Forall_forall in Hr. by apply Hr. }
  2: { rewrite Forall_forall in Hn. apply Hn. rewrite El. set_solver. }
  destruct (strict_split f l b rest (holds_ordered _ _ Hh) El Hb Hf) as [Ek Ei].
  destruct (sm_filter_items m (without f l) (λ tx, Ok (tx_Nonce b <? tx_Nonce tx)) (λ tx, tx_Nonce b <? tx_Nonce tx))
    as (m' & inv & E & Hi' & Hp' & _); [apply Hm..|by apply Forall_true|]. rewrite Ek in Hi'. rewrite Ei in Hp'.
  exists m', inv. split_and!; [done| |done| | |done].
  - apply reheap_holds; [|done]. rewrite <- Ek. do 2 apply ordered_filter. apply Hh.
  - pose proof (f_equal total Ek) as Et. rewrite !total_without, Ei in Et. lia.
  - rewrite El at 2. set_solver.
Qed.

Lemma Filter_simulates c g : simulates (OFilter c g).
Proof.
  intros off L l HL _ _. pose proof HL as [Hh Ht _ _ Hn Ha]. cbn [list_step spec_step drift]. rewrite Z.add_0_r.
  unfold list_Filter. set (f := over c g).
  destruct ((costcap L <=? c) && (gascap L <=? g)) eqn:Ecaps.
  { apply andb_true_iff in Ecaps as [H1%Z.leb_le H2%Z.leb_le]. destruct (none_over f l) as (E1 & E2 & E3); [by apply (over_caps off L)|].
    eexists _, _. split; [done|]. split; [done|]. rewrite E1, E2, E3, drop_all. by destruct (strict L). }
  destruct (Filter_holds (txs L) l (too_expensive c g) f Hh) as (m & removed & -> & Hm & Hp).
  { eapply Forall_impl; [done|]. intros x Hx. by apply too_expensive_ok. }
  cbn [mbind res_bind]. assert (Forall has_amounts removed) as Har by (rewrite Hp; eapply amounts_sub; [exact Ha|apply list_subseteq_filter]).
  destruct (decide (removed = [])) as [->|Hnil].
  - apply Permutation_nil_l in Hp. symmetry in Hp. pose proof (only_nil f l Hp) as Hno. destruct (none_over f l Hno) as (E1 & E2 & E3).
    rewrite E2 in Hm. eexists _, _. split; [done|]. split; [done|]. rewrite E1, E2, E3, drop_all.
    split; [|by destruct (strict L)]. destruct (strict L); cbn [fst]; by apply (stands_for_caps off L l).
  - assert (only f l ≠ []) as Hne by (intros E; rewrite E in Hp; by apply Permutation_nil_r in Hp).
    rewrite (match_cons removed) by done. destruct (strict L) eqn:Es.
    + destruct (strict_stage off L l f m removed HL Hm Hp Hne) as (m' & inv & E & Hm' & Hi & Htot & Hsub & Hk).
      rewrite E. cbn [mbind res_bind]. rewrite subTotalCost_ok by done. cbn [mbind res_bind].
      rewrite subTotalCost_ok by (rewrite Hi; eapply amounts_sub; [exact Ha|]; etrans; [apply list_subseteq_filter|apply subseteq_drop]).
      cbn [mbind res_bind]. eexists _, _. split; [done|]. split; [done|]. split; [|by split].
      apply (stands_for_caps off L l); [done..|]. cbn [fst]. rewrite Ht, Hp, Hi. lia.
    + cbn [mbind res_bind]. rewrite subTotalCost_ok by done. cbn [mbind res_bind subTotalCost]. eexists _, _. split; [done|]. split; [done|].
      split; [|by split]. apply (stands_for_caps off L l); [done| | | |].
      * apply reheap_holds; apply Hm.
      * apply list_subseteq_filter.
      * apply Forall_forall. by intros x [? _]%list_elem_of_filter.
      * cbn [fst]. rewrite Ht, Hp, total_without. lia.
Qed.

(** *** Remove *)

Lemma drop_nonce_total l tx : ordered l → tx ∈ l → total (drop_nonce (tx_Nonce tx) l) = total l - cost tx.
Proof.
  intros Ho Hin. unfold drop_nonce. induction l as [|x l IH]; [set_solver|]. apply ordered_cons in Ho as [Hf Ho].
  rewrite Forall_forall in Hf. unfold nonce_lt in Hf. apply elem_of_cons in Hin as [<-|Hin].
  - rewrite filter_cons_False by naive_solver. rewrite filter_all; [cbn [total]; lia|].
    apply Forall_forall. intros y Hy. specialize (Hf y Hy). lia.
  - rewrite filter_cons_True by (specialize (Hf tx Hin); lia). cbn [total]. rewrite IH by done. lia.
Qed.

Lemma drop_nonce_split n l :
  without (λ tx, n <? tx_Nonce tx) (drop_nonce n l) = below n l ∧
  only (λ tx, n <? tx_Nonce tx) (drop_nonce n l) = from (n + 1) l.
Proof.
  unfold without, only, drop_nonce, below, from. rewrite !list_filter_filter.
  split; apply list_filter_iff; intros x; rewrite ?Z.ltb_lt, ?Z.ltb_ge; lia.
Qed.

Lemma Remove_simulates tx : simulates (ORemove tx).
Proof.
  intros off L l HL Hamt _. pose proof HL as [Hh Ht _ _ _ Ha]. cbn [list_step spec_step op_ok drift] in *. unfold list_Remove.
  set (n := tx_Nonce tx) in *. destruct (Remove_holds (txs L) l n Hh) as [Hm Hr].
  destruct (sm_Remove (txs L) n) as [m found]. cbn [fst snd] in *. subst found.
  destruct (with_nonce n l) as [x|] eqn:E; cbn [from_option].
  2: { rewrite bool_decide_false by (by intros []). cbn [negb mbind res_bind]. rewrite Z.add_0_r. by eexists _, _. }
  rewrite bool_decide_true by done. cbn [negb]. apply with_nonce_elem in E as [Hin Hx].
  pose proof (drop_nonce_total l x (holds_ordered _ _ Hh) Hin) as Htot. rewrite Hx in Htot.
  rewrite subTotalCost_ok by (by constructor). cbn [mbind res_bind total].
  destruct (strict L) eqn:Es.
  - destruct (drop_nonce_split n l) as [Eb Ef].
    destruct (Filter_holds m (drop_nonce n l) (λ tx, Ok (n <? tx_Nonce tx)) (λ tx, n <? tx_Nonce tx) Hm) as (m' & dropped & -> & Hm' & Hp);
      [by apply Forall_true|]. rewrite Eb in Hm'. rewrite Ef in Hp. cbn [mbind res_bind].
    rewrite subTotalCost_ok by (rewrite Hp; eapply amounts_sub; [exact Ha|apply list_subseteq_filter]). cbn [mbind res_bind].
    eexists _, _. split; [done|]. split; [done|]. split; [|by split].
    cbn [fst]. apply (stands_for_off off L l); [done|done|apply list_subseteq_filter|].
    rewrite Ht, Hp. pose proof (f_equal total Eb) as Et. rewrite total_without, Ef, Htot in Et. lia.
  - eexists _, _. split; [done|]. split; [done|]. split; [|done]. cbn [fst].
    apply (stands_for_off off L l); [done|done|apply list_subseteq_filter|]. rewrite Ht, Htot. lia.
Qed.

Lemma list_step_simulates op : simulates op.
Proof.
  destruct op; [apply Add_simulates|apply Forward_simulates|apply Filter_simulates|apply Cap_simulates
    |apply Remove_simulates|apply Ready_simulates|apply Flatten_simulates].
Qed.

Lemma list_step_panics op L : spec_panics op = true → ∃ msg, list_step op L = Panic msg.
Proof.
  destruct op; try done. cbn [spec_panics list_step]. intros Ht%Z.ltb_lt. unfold list_Cap.
  destruct (Cap_negative (txs L) threshold Ht) as [msg ->]. by exists msg.
Qed.

Definition run_simulates (ops : list list_op) (L : tlist) (spec : res (list Transaction * Z * list list_out)) : Prop :=
  match spec with
  | Ok (l, off, outs) => ∃ L' os, list_run ops L = Ok (L', os) ∧ stands_at off L' l ∧ Forall2 out_equiv os outs
  | Panic _ => ∃ msg, list_run ops L = Panic msg
  end.

Lemma list_run_simulates ops : ∀ off L l,
  stands_at off L l → Forall op_ok ops → run_simulates ops L (spec_run (strict L) ops l off).
Proof.
  induction ops as [|op ops IH]; intros off L l HL Hok; cbn [spec_run]; [by eexists _, _|].
  apply Forall_cons in Hok as [Hop Hok]. destruct (spec_panics op) eqn:Ep.
  { destruct (list_step_panics op L Ep) as [msg E]. exists msg. cbn [list_run]. by rewrite E. }
  destruct (list_step_simulates op off L l HL Hop Ep) as (L1 & o & E & Hs & H1 & Ho).
  destruct (spec_step (strict L) op l) as [l1 o']. cbn [fst snd] in *. specialize (IH _ L1 l1 H1 Hok). rewrite Hs in IH.
  unfold run_simulates in *. cbn [list_run]. rewrite E. cbn [mbind res_bind].
  destruct (spec_run (strict L) ops l1 _) as [[[l2 off2] outs]|]; cbn [mbind res_bind].
  - destruct IH as (L2 & os & -> & H2 & Hos). eexists _, _. split_and!; [done|done|]. by constructor.
  - destruct IH as [msg2 ->]. by exists msg2.
Qed.

Lemma held_drift op l : held op l → drift op l = 0.
Proof.
  destruct op; try done. cbn [held drift]. intros Hh. destruct (with_nonce _ l) as [x|]; [|done].
  rewrite (Hh x eq_refl). cbn. lia.
Qed.

Lemma removes_held_run strict ops : ∀ l off l' off' outs,
  removes_held strict ops l → spec_run strict ops l off = Ok (l', off', outs) → off' = off.
Proof.
  induction ops as [|op ops IH]; intros l off l' off' outs; cbn [removes_held spec_run]; [by intros _ [= _ -> _]|].
  intros [Hh Hr]. destruct (spec_panics op); [done|]. destruct (spec_step strict op l) as [l1 o]. cbn [fst] in *.
  intros ([[l2 off2] os] & E & [= -> -> _])%res_bind_Ok. rewrite (IH _ _ _ _ _ Hr E), held_drift by done. lia.
Qed.

(** C20: the transaction list of an account refines a list in nonce order.  Take any sequence of
    Add, Forward, Filter, Cap, Remove, Ready and Flatten on a new list, whose transactions have
    a fee cap, a tip cap and a value.  It panics exactly when the specification does, which is
    when a Cap has a negative limit.  Otherwise every operation returns what the
    specification returns, up to the order in which a map is ranged over, and at the end the heap,
    the cached order and the caps are those of the list that is left, so [Filter] never relies on
    a stale cap.  [totalcost] is the sum of the costs, off by what Remove subtracted for
    transactions other than the ones held; it is the sum when Remove always named
    the transaction held. *)
Theorem list_refines_sorted strict ops :
  Forall op_ok ops →
  match spec_run strict ops [] 0 with
  | Ok (l, off, outs) =>
      ∃ L os, list_run ops (newList strict) = Ok (L, os) ∧ stands_at off L l ∧ Forall2 out_equiv os outs ∧
        (removes_held strict ops [] → totalcost L = total l)
  | Panic _ => ∃ msg, list_run ops (newList strict) = Panic msg
  end.
Proof.
  intros Hok. pose proof (list_run_simulates ops 0 (newList strict) [] (newList_stands_for strict) Hok) as Hs.
  cbn [newList PoolList.strict] in Hs. unfold run_simulates in Hs.
  destruct (spec_run strict ops [] 0) as [[[l off] outs]|] eqn:E; [|done]. destruct Hs as (L & os & El & HL & Ho).
  exists L, os. split_and!; [done..|]. intros Hr. rewrite (sf_total _ _ _ HL), (removes_held_run _ _ _ _ _ _ _ Hr E). lia.
Qed.
End runtime.

(** ** Strict lists have no gaps *)

Definition contiguous (l : list Transaction) : Prop :=
  ∀ x y k, x ∈ l → y ∈ l → tx_Nonce x <= k <= tx_Nonce y → ∃ z, z ∈ l ∧ tx_Nonce z = k.

(** A strict list is extended at its end, or a transaction in it is replaced. *)
Definition extends (op : list_op) (l : list Transaction) : Prop :=
  match op with
  | OAdd tx _ => l = [] ∨ ∃ x, x ∈ l ∧ (tx_Nonce tx = tx_Nonce x ∨ tx_Nonce tx = tx_Nonce x + 1)
  | _ => True
  end.
Fixpoint all_extend (ops : list list_op) (l : list Transaction) : Prop :=
  match ops with
  | [] => True
  | op :: ops => extends op l ∧ all_extend ops (spec_step true op l).1
  end.

Lemma contiguous_parts l k r : ordered l → l = k ++ r → contiguous l → contiguous k ∧ contiguous r.
Proof.
  intros Ho -> Hc. apply ordered_app in Ho as (_ & _ & Hlt). unfold nonce_lt in Hlt.
  split; intros x y n Hx Hy Hn; destruct (Hc x y n) as (z & Hz & <-); rewrite ?elem_of_app; eauto;
    apply elem_of_app in Hz as [Hz|Hz]; eauto.
  - specialize (Hlt y z Hy Hz). lia.
  - specialize (Hlt z x Hz Hx). lia.
Qed.

Lemma contiguous_put tx l :
  ordered l → contiguous l → (l = [] ∨ ∃ x, x ∈ l ∧ (tx_Nonce tx = tx_Nonce x ∨ tx_Nonce tx = tx_Nonce x + 1)) →
  contiguous (put tx l).
Proof.
  intros Ho Hc Hex x y k Hx Hy Hk. apply elem_of_put in Hx, Hy.
  destruct (decide (k = tx_Nonce tx)) as [->|Hne]; [exists tx; rewrite elem_of_put; auto|].
  assert (∃ z, z ∈ l ∧ tx_Nonce z = k) as (z & Hz & <-); [|exists z; rewrite elem_of_put; auto].
  assert (∃ a, a ∈ l ∧ tx_Nonce a <= k) as (a & Ha & Hak).
  { destruct Hx as [->|[Hx _]]; [|exists x; split; [done|lia]]. destruct Hy as [->|[Hy _]]; [lia|].
    destruct Hex as [->|(b & Hb & Hn)]; [by apply not_elem_of_nil in Hy|]. exists b. split; [done|]. lia. }
  destruct Hy as [->|[Hy _]]; [|apply (Hc a y); (done || lia)].
  destruct Hex as [->|(b & Hb & Hn)]; [by apply not_elem_of_nil in Ha|]. apply (Hc a b); (done || lia).
Qed.

Lemma before_prefix f l : ∃ r, l = before f l ++ r.
Proof.
  induction l as [|x l [r IH]]; cbn [before]; [by exists []|]. destruct (f x); [by exists (x :: l)|]. exists r. cbn. by rewrite <- IH.
Qed.

Lemma contiguous_step op l :
  ordered l → contiguous l → extends op l → contiguous (spec_step true op l).1.
Proof.
  intros Ho Hc Hex. destruct op as [tx b|t|c g|t|tx|s|]; cbn [spec_step extends fst] in *.
  - destruct (with_nonce (tx_Nonce tx) l); [case_decide; [|done]|]; by apply contiguous_put.
  - by apply (contiguous_parts l (below t l)); [|rewrite below_from|].
  - destruct (before_prefix (over c g) l) as [r E]. by apply (contiguous_parts l _ r).
  - by apply (contiguous_parts l (take (Z.to_nat t) l) (drop (Z.to_nat t) l)); [|rewrite take_drop|].
  - destruct (with_nonce (tx_Nonce tx) l); [|done]. by apply (contiguous_parts l (below (tx_Nonce tx) l) (from (tx_Nonce tx) l)); [|rewrite below_from|].
  - by apply (contiguous_parts l (ready s l)); [|rewrite ready_prefix|].
  - done.
Qed.

Lemma ordered_step strict op l : ordered l → ordered (spec_step strict op l).1.
Proof.
  intros Ho. destruct op as [tx b|t|c g|t|tx|s|]; cbn [spec_step].
  - destruct (with_nonce (tx_Nonce tx) l); [case_decide; [|done]|]; by apply ordered_put.
  - by apply ordered_filter.
  - destruct strict; [|by apply ordered_filter]. destruct (before_prefix (over c g) l) as [r E].
    cbn [fst]. rewrite E in Ho. by apply ordered_app in Ho as [? _].
  - by apply take_ordered.
  - destruct (with_nonce (tx_Nonce tx) l); [destruct strict|]; [by apply ordered_filter..|done].
  - by apply drop_ordered.
  - done.
Qed.

Lemma contiguous_run ops : ∀ l off l' off' outs,
  ordered l → contiguous l → all_extend ops l → spec_run true ops l off = Ok (l', off', outs) → contiguous l'.
Proof.
  induction ops as [|op ops IH]; intros l off l' off' outs Ho Hc; cbn [spec_run all_extend]; [by intros _ [= <- _ _]|].
  intros [Hex Hall]. destruct (spec_panics op); [done|].
  pose proof (ordered_step true op l Ho) as Ho'. pose proof (contiguous_step op l Ho Hc Hex) as Hc'.
  destruct (spec_step true op l) as [l1 o]. cbn [fst] in *. intros ([[l2 off2] os] & E & [= <- _ _])%res_bind_Ok.
  by apply (IH _ _ _ _ _ Ho' Hc' Hall E).
Qed.

(** A strict list, as the pool keeps for the executable transactions of an account,
    never has a gap between its nonces: Forward, Filter, Cap, Remove and Ready give back, with
    what they remove, everything that would be left behind a gap. *)
Theorem strict_list_contiguous `{GoRuntime} ops L os :
  Forall op_ok ops → all_extend ops [] → list_run ops (newList true) = Ok (L, os) →
  ∃ l, snd (list_Flatten L) = l ∧ ordered l ∧ contiguous l.
Proof.
  intros Hok Hall E. pose proof (list_run_simulates ops 0 (newList true) [] (newList_stands_for true) Hok) as Hs.
  cbn [newList strict] in Hs. unfold run_simulates in Hs. destruct (spec_run true ops [] 0) as [[[l off] outs]|] eqn:Es.
  2: { destruct Hs as [msg2 E']. by rewrite E in E'. }
  destruct Hs as (L' & os' & E' & HL & _). rewrite E in E'. injection E' as <- <-.
  destruct (flatten_holds (txs L) _ (sf_holds _ _ _ HL)) as [Ef Hf]. unfold list_Flatten, sm_Flatten.
  destruct (sm_flatten (txs L)) as [m c]. cbn [fst snd] in *. eexists. split; [done|]. subst c.
  split; [apply Hf|]. eapply (contiguous_run ops []); [apply SSorted_nil| |done|exact Es]. intros x y k Hx. set_solver.
Qed.

(** ** Witnesses *)

Module sample.
#[local] Existing Instance reference_runtime.

Definition tx (nonce value : Z) : Transaction :=
  mkTransaction (mkPanguTransaction (Some 0xAA) nonce (Some value) 21000 (Some 5) (Some 2) (Some 7) 0
    [] 0 [] 0 [] None) 0 None None None.

(** Four transactions, the third of which the account cannot pay for. *)
Definition ops : list list_op :=
  [OAdd (tx 4 10) 10; OAdd (tx 5 10) 10; OAdd (tx 6 1000000) 10; OAdd (tx 7 10) 10; OFilter 200000 100000; OForward 5; OFlatten].

Lemma ops_okay : Forall op_ok ops.
Proof. repeat constructor; vm_compute; (eexists; reflexivity) || (intros [=]). Qed.

(** The removal of a transaction that costs less than the one of its nonce that is held. *)
Definition cheaper : list list_op := ops ++ [ORemove (tx 5 3)].

Lemma cheaper_okay : Forall op_ok cheaper.
Proof. apply Forall_app. split; [apply ops_okay|]. repeat constructor; eexists; reflexivity. Qed.

Lemma ops_extend : all_extend ops [].
Proof.
  split; [by left|]. split; [right; exists (tx 4 10); split; [vm_compute; repeat constructor|by right]|].
  split; [right; exists (tx 5 10); split; [vm_compute; repeat constructor|by right]|].
  split; [right; exists (tx 6 1000000); split; [vm_compute; repeat constructor|by right]|]. by vm_compute.
Qed.
End sample.

#[local] Existing Instance reference_runtime.

Lemma list_refines_sorted_witness :
  (∃ L os, list_run sample.ops (newList true) = Ok (L, os) ∧ stands_at 0 L [sample.tx 5 10] ∧ totalcost L = total [sample.tx 5 10]) ∧
  (∃ L os, list_run sample.cheaper (newList true) = Ok (L, os) ∧ totalcost L = 7) ∧
  (∃ msg, list_run (sample.ops ++ [OCap (-1)]) (newList true) = Panic msg).
Proof.
  split_and!.
  - destruct (list_refines_sorted true sample.ops sample.ops_okay) as (L & os & E & HL & _ & Ht). exists L, os.
    split_and!; [exact E|exact HL|]. apply Ht. vm_compute. intuition discriminate.
  - destruct (list_refines_sorted true sample.cheaper sample.cheaper_okay) as (L & os & E & HL & _). exists L, os.
    split; [exact E|]. rewrite (sf_total _ _ _ HL). vm_compute. reflexivity.
  - apply (list_refines_sorted true (sample.ops ++ [OCap (-1)])). apply Forall_app. split; [apply sample.ops_okay|by repeat constructor].
Defined.

Lemma strict_list_contiguous_witness :
  ∃ L os l, list_run sample.ops (newList true) = Ok (L, os) ∧ snd (list_Flatten L) = l ∧ ordered l ∧ contiguous l.
Proof.
  eexists _, _, _. split; [vm_compute; reflexivity|].
  edestruct (strict_list_contiguous sample.ops) as (l & E & Ho & Hc);
    [apply sample.ops_okay|apply sample.ops_extend|vm_compute; reflexivity|]. split; [reflexivity|]. by rewrite E.
Defined.
