(* ===== verification/PoolAccount.v ===== *)
(** * What the operations on transaction lists take and leave

    The simulation of [PoolListRefine], operation by operation, as the accounting the pool
    needs: what was in a list is, up to order, what is left and what was returned. *)

From S2P Require Import Prelude Bytes Params Heap Types PoolList PoolListProps PoolListRefine.

Section account.
Context `{GoRuntime}.

Lemma list_Forward_account L l t :
  stands_for L l →
  ∃ L' kept removed, list_Forward L t = Ok (L', removed) ∧ strict L' = strict L ∧ stands_for L' kept ∧ l ≡ₚ kept ++ removed.
Proof.
  intros HL. destruct (list_step_simulates (OForward t) 0 L l HL I eq_refl) as (L' & o & E & Hs & H' & Ho).
  cbn [list_step spec_step fst snd] in *. apply res_bind_Ok in E as ([L1 r] & E1 & [= -> <-]). cbn in Ho. injection Ho as ->.
  exists L', (from t l), (below t l). split_and!; try done. rewrite Permutation_app_comm, below_from; [done|apply HL].
Qed.

Lemma list_Cap_account L l t :
  stands_for L l → 0 <= t →
  ∃ L' kept removed, list_Cap L t = Ok (L', removed) ∧ strict L' = strict L ∧ stands_for L' kept ∧ l ≡ₚ kept ++ removed ∧
    kept = take (Z.to_nat t) l.
Proof.
  intros HL Ht. destruct (list_step_simulates (OCap t) 0 L l HL I (proj2 (Z.ltb_ge _ _) Ht)) as (L' & o & E & Hs & H' & Ho).
  cbn [list_step spec_step fst snd] in *. apply res_bind_Ok in E as ([L1 r] & E1 & [= -> <-]). cbn in Ho. injection Ho as ->.
  eexists L', _, _. split_and!; try done. by rewrite reverse_Permutation, take_drop.
Qed.

Lemma list_Ready_account L l s :
  stands_for L l →
  ∃ L' kept removed, list_Ready L s = Ok (L', removed) ∧ strict L' = strict L ∧ stands_for L' kept ∧ l ≡ₚ kept ++ removed.
Proof.
  intros HL. destruct (list_step_simulates (OReady s) 0 L l HL I eq_refl) as (L' & o & E & Hs & H' & Ho).
  cbn [list_step spec_step fst snd] in *. apply res_bind_Ok in E as ([L1 r] & E1 & [= -> <-]). cbn in Ho. injection Ho as ->.
  exists L', (ready_rest s l), (ready s l). split_and!; try done. by rewrite Permutation_app_comm, ready_prefix.
Qed.

Lemma only_without_perm f l : l ≡ₚ only f l ++ without f l.
Proof.
  unfold only, without. induction l as [|x l IH]; [done|]. destruct (f x) eqn:E.
  - rewrite filter_cons_True, (filter_cons_False (λ tx, f tx = false)) by congruence. cbn. by rewrite <- IH.
  - rewrite filter_cons_False, (filter_cons_True (λ tx, f tx = false)) by congruence.
    rewrite <- Permutation_middle. by rewrite <- IH.
Qed.

Lemma before_account f l : l ≡ₚ before f l ++ only f l ++ without f (drop (length (before f l)) l).
Proof.
  destruct (before_prefix f l) as [r E]. assert (Forall (λ tx, ¬ f tx = true) (before f l)) as Hk.
  { clear. induction l as [|x l IH]; cbn [before]; [done|]. destruct (f x) eqn:Ef; [done|]. constructor; [congruence|done]. }
  set (k := before f l) in *. clearbody k. subst l. rewrite drop_app_length. unfold only at 1. rewrite filter_app, filter_none by done.
  by rewrite <- (only_without_perm f r).
Qed.

Lemma list_Filter_account L l c g :
  stands_for L l →
  ∃ L' kept removed invalids, list_Filter L c g = Ok (L', removed, invalids) ∧ strict L' = strict L ∧ stands_for L' kept ∧
    l ≡ₚ kept ++ removed ++ invalids ∧ (strict L = false → invalids = []).
Proof.
  intros HL. destruct (list_step_simulates (OFilter c g) 0 L l HL I eq_refl) as (L' & o & E & Hs & H' & Ho).
  cbn [list_step spec_step] in *. apply res_bind_Ok in E as ([[L1 r] i] & E1 & [= -> <-]).
  exists L', (spec_step (strict L) (OFilter c g) l).1, r, i. cbn [spec_step]. destruct (strict L) eqn:Es; cbn [fst snd out_equiv] in *;
    destruct Ho as [Hr Hi]; (split_and!; [done..| |]); try done.
  - rewrite Hr, Hi. apply before_account.
  - apply Permutation_nil_r in Hi as ->. rewrite Hr, app_nil_r, Permutation_app_comm. apply only_without_perm.
  - intros _. by apply Permutation_nil_r in Hi.
Qed.

Lemma with_nonce_Some l tx : ordered l → tx ∈ l → with_nonce (tx_Nonce tx) l = Some tx.
Proof. intros Ho Hin. rewrite <- with_nonce_lookup by done. by apply by_nonce_lookup. Qed.

Lemma with_nonce_None l n : with_nonce n l = None ↔ n ∉ tx_Nonce <$> l.
Proof.
  unfold with_nonce. rewrite list_elem_of_fmap. split.
  - intros E (x & -> & Hx). assert (x ∈ filter (λ y, tx_Nonce y = tx_Nonce x) l) as Hin by (by apply list_elem_of_filter).
    destruct (filter _ l); [set_solver|done].
  - intros Hn. destruct (filter _ l) as [|y k] eqn:E; [done|]. destruct Hn. exists y.
    assert (y ∈ filter (λ y, tx_Nonce y = n) l) as Hin by (rewrite E; set_solver).
    apply list_elem_of_filter in Hin. naive_solver.
Qed.

Lemma put_perm tx l : ordered l → put tx l ≡ₚ tx :: drop_nonce (tx_Nonce tx) l.
Proof.
  intros Ho. unfold put. rewrite <- Permutation_middle. f_equiv. unfold below, from, drop_nonce. clear Ho.
  induction l as [|x l IH]; [done|]. rewrite !filter_cons.
  destruct (Z.lt_total (tx_Nonce x) (tx_Nonce tx)) as [|[|]]; repeat case_decide; try lia; cbn; rewrite <- ?Permutation_middle, ?IH; done.
Qed.

Lemma drop_nonce_perm tx l : ordered l → tx ∈ l → l ≡ₚ tx :: drop_nonce (tx_Nonce tx) l.
Proof.
  intros Ho Hin. unfold drop_nonce. induction l as [|x l IH]; [set_solver|]. apply ordered_cons in Ho as [Hf Ho].
  rewrite Forall_forall in Hf. unfold nonce_lt in Hf. apply elem_of_cons in Hin as [<-|Hin].
  - rewrite filter_cons_False by naive_solver. rewrite filter_all; [done|].
    apply Forall_forall. intros y Hy. specialize (Hf y Hy). lia.
  - rewrite filter_cons_True by (specialize (Hf tx Hin); lia). rewrite Permutation_swap. f_equiv. by apply IH.
Qed.

Lemma list_Remove_account L l tx :
  stands_for L l → tx ∈ l →
  ∃ L' kept invalids, list_Remove L tx = Ok (L', true, invalids) ∧ strict L' = strict L ∧ stands_for L' kept ∧
    l ≡ₚ tx :: kept ++ invalids ∧ (strict L = false → invalids = []).
Proof.
  intros HL Hin. pose proof (holds_ordered _ _ (sf_holds _ _ _ HL)) as Ho. pose proof (with_nonce_Some l tx Ho Hin) as Hw.
  assert (has_amounts tx) as Ha by (eapply Forall_forall; [apply (sf_amounts _ _ _ HL)|done]).
  destruct (list_step_simulates (ORemove tx) 0 L l HL Ha eq_refl) as (L' & o & E & Hs & H' & Heq).
  rewrite held_drift in H' by (intros x Hx; congruence).
  cbn [list_step spec_step] in *. rewrite Hw in *. apply res_bind_Ok in E as ([[L1 f] i] & E1 & [= -> <-]).
  pose proof (drop_nonce_perm tx l Ho Hin) as Hd.
  destruct (strict L) eqn:Es; cbn [fst snd out_equiv] in *; destruct Heq as [-> Hi]; (eexists L', _, i; split_and!; [done..| |]); try done.
  - rewrite Hi. etrans; [exact Hd|]. f_equiv. destruct (drop_nonce_split (tx_Nonce tx) l) as [<- <-].
    rewrite Permutation_app_comm. apply only_without_perm.
  - apply Permutation_nil_r in Hi as ->. by rewrite app_nil_r.
  - intros _. by apply Permutation_nil_r in Hi.
Qed.

Lemma list_Remove_absent L l tx :
  stands_for L l → tx_Nonce tx ∉ tx_Nonce <$> l → list_Remove L tx = Ok (L, false, []).
Proof.
  intros HL Hn%with_nonce_None. unfold list_Remove, sm_Remove.
  rewrite (holds_items _ _ (sf_holds _ _ _ HL)), with_nonce_lookup by apply (holds_ordered _ _ (sf_holds _ _ _ HL)).
  by rewrite Hn.
Qed.

Lemma list_Add_new L l tx bump :
  stands_for L l → u64_ok (tx_Nonce tx) → has_amounts tx → tx_Nonce tx ∉ tx_Nonce <$> l →
  ∃ L', list_Add L tx bump = Ok (L', true, None) ∧ strict L' = strict L ∧ stands_for L' (put tx l) ∧ put tx l ≡ₚ tx :: l.
Proof.
  intros HL Hu Ha Hn%with_nonce_None. destruct (list_step_simulates (OAdd tx bump) 0 L l HL (conj Hu Ha) eq_refl) as (L' & o & E & Hs & H' & Ho).
  cbn [list_step spec_step] in *. rewrite Hn in *. apply res_bind_Ok in E as ([[L1 b] old] & E1 & [= -> <-]).
  cbn in Ho. injection Ho as -> ->. exists L'. split_and!; try done. rewrite put_perm by apply (holds_ordered _ _ (sf_holds _ _ _ HL)).
  f_equiv. unfold drop_nonce. rewrite filter_all; [done|]. apply Forall_forall. intros x Hx Heq. apply with_nonce_None in Hn.
  apply Hn. rewrite <- Heq. by apply list_elem_of_fmap_2.
Qed.

Lemma list_Add_replace L l tx bump old :
  stands_for L l → u64_ok (tx_Nonce tx) → has_amounts tx → old ∈ l → tx_Nonce old = tx_Nonce tx →
  (list_Add L tx bump = Ok (L, false, None) ∨
   ∃ L' kept, list_Add L tx bump = Ok (L', true, Some old) ∧ strict L' = strict L ∧ stands_for L' (put tx l) ∧
     l ≡ₚ old :: kept ∧ put tx l ≡ₚ tx :: kept).
Proof.
  intros HL Hu Ha Hin Hn. pose proof (holds_ordered _ _ (sf_holds _ _ _ HL)) as Hord. pose proof (with_nonce_Some l old Hord Hin) as Hw. rewrite Hn in Hw.
  destruct (list_step_simulates (OAdd tx bump) 0 L l HL (conj Hu Ha) eq_refl) as (L' & o & E & Hs & H' & Ho).
  cbn [list_step spec_step] in *. rewrite Hw in *. pose proof (proj1 (Forall_forall _ _) (sf_amounts _ _ _ HL) old Hin) as Hold. case_decide as Eu.
  - right. apply res_bind_Ok in E as ([[L1 b] old'] & E1 & [= -> <-]). cbn in Ho. injection Ho as -> ->.
    exists L', (drop_nonce (tx_Nonce tx) l). split_and!; try done; [|by apply put_perm].
    rewrite <- Hn. by apply drop_nonce_perm.
  - left. unfold list_Add. rewrite (Get_holds _ l), Hw by apply (sf_holds _ _ _ HL).
    rewrite underbids_ok, bool_decide_true by done. done.
Qed.

Lemma list_Len_account L l : stands_for L l → list_Len L = Z.of_nat (length l).
Proof. intros HL. unfold list_Len. by apply Len_holds, HL. Qed.

Lemma list_Empty_account L l : stands_for L l → list_Empty L = bool_decide (l = []).
Proof.
  intros HL. unfold list_Empty. rewrite (list_Len_account L l HL). destruct l; [done|]. rewrite bool_decide_false by done.
  apply Z.eqb_neq. cbn. lia.
Qed.

Lemma list_Flatten_account L l :
  stands_for L l → ∃ L', list_Flatten L = (L', l) ∧ strict L' = strict L ∧ stands_for L' l.
Proof.
  intros HL. destruct (list_step_simulates OFlatten 0 L l HL I eq_refl) as (L' & o & E & Hs & H' & Ho).
  cbn [list_step spec_step fst snd] in *. destruct (list_Flatten L) as [L1 c]. injection E as -> <-. cbn in Ho. injection Ho as ->. eauto.
Qed.

Lemma list_LastElement_account L l tx :
  stands_for L (l ++ [tx]) → ∃ L', list_LastElement L = Ok (L', tx) ∧ strict L' = strict L ∧ stands_for L' (l ++ [tx]).
Proof.
  intros HL. destruct (LastElement_holds (txs L) l tx (sf_holds _ _ _ HL)) as (m & E & Hm). unfold list_LastElement.
  rewrite E. cbn [mbind res_bind]. eexists. split_and!; [done|done|]. apply (stands_for_sub 0 L (l ++ [tx])); try done. apply HL.
Qed.

Lemma list_Contains_account L l n : stands_for L l → list_Contains L n = bool_decide (n ∈ tx_Nonce <$> l).
Proof.
  intros HL. unfold list_Contains. rewrite (Get_holds _ l) by apply HL. apply bool_decide_ext.
  rewrite <- not_eq_None_Some, with_nonce_None. split; [apply dec_stable|]. naive_solver.
Qed.
End account.
