(* ===== verification/PoolPrice.v ===== *)
(** * Lookup, price heaps, accounts and nonces of the pool
    (core/txpool/legacypool/list.go, legacypool.go, noncer.go)

    [lookup] finds the transactions of the pool by hash; [pricedList] keeps the remote ones
    in two heaps by price, from which the pool evicts; [accountSet] is a set of senders;
    [noncer] tracks the next nonces.  A transaction is hashed and its sender is derived when
    it enters the pool; [hash] and [sender] are the values afterwards.  The locks are not
    modelled: the callers hold the lock of the pool. *)

From S2P Require Import Prelude Bytes Params Common Heap Types PoolList.

Definition txSlotSize : Z := 32 * 1024.
Definition txMaxSize : Z := 4 * txSlotSize.

#[global] Instance Transaction_inhabited : Inhabited Transaction :=
  populate (mkTransaction (mkPanguTransaction None 0 None 0 None None None 0 [] 0 [] 0 [] None) 0 None None None).

Section pool.
Context `{Crypto} `{GoRuntime}.

Definition hash (tx : Transaction) : Hash := match tx_Hash tx with Ok (h, _) => h | Panic _ => 0 end.
Definition sender_res (signer : panguSigner) (tx : Transaction) : res (tx_error + Address) :=
  '(r, _) ← Sender signer tx; Ok r.
Definition sender (signer : panguSigner) (tx : Transaction) : Address :=
  match sender_res signer tx with Ok (inr a) => a | _ => 0 end.

Definition numSlots (tx : Transaction) : Z := (fst (tx_Size tx) + txSlotSize - 1)%u64 / txSlotSize.

(** ** accountSet *)

Record accountSet := mkAccountSet {
  accounts : gset Address;
  as_signer : panguSigner;
  as_cache : option (list Address);
}.

Definition as_contains (s : accountSet) (addr : Address) : bool := bool_decide (addr ∈ accounts s).

Definition containsTx (s : accountSet) (tx : Transaction) : bool :=
  match sender_res (as_signer s) tx with Ok (inr addr) => as_contains s addr | _ => false end.

Definition as_add (s : accountSet) (addr : Address) : accountSet :=
  mkAccountSet ({[addr]} ∪ accounts s) (as_signer s) None.

Definition newAccountSet (signer : panguSigner) (addrs : list Address) : accountSet :=
  foldl as_add (mkAccountSet ∅ signer None) addrs.

Definition addTx (s : accountSet) (tx : Transaction) : accountSet :=
  match sender_res (as_signer s) tx with Ok (inr addr) => as_add s addr | _ => s end.

Definition as_flatten (s : accountSet) : accountSet * list Address :=
  match as_cache s with
  | Some c => (s, c)
  | None => let c := range_set (accounts s) in (mkAccountSet (accounts s) (as_signer s) (Some c), c)
  end.

Definition as_merge (s other : accountSet) : accountSet :=
  mkAccountSet (foldl (λ acc addr, {[addr]} ∪ acc) (accounts s) (range_set (accounts other))) (as_signer s) None.

(** ** lookup *)

Record lookup := mkLookup {
  slots : Z;
  lk_locals : gmap Hash Transaction;
  lk_remotes : gmap Hash Transaction;
}.

Definition newLookup : lookup := mkLookup 0 ∅ ∅.

Definition lk_Get (t : lookup) (h : Hash) : option Transaction :=
  match lk_locals t !! h with Some tx => Some tx | None => lk_remotes t !! h end.
Definition GetLocal (t : lookup) (h : Hash) : option Transaction := lk_locals t !! h.
Definition GetRemote (t : lookup) (h : Hash) : option Transaction := lk_remotes t !! h.
Definition lk_Count (t : lookup) : Z := Z.of_nat (size (lk_locals t)) + Z.of_nat (size (lk_remotes t)).
Definition LocalCount (t : lookup) : Z := Z.of_nat (size (lk_locals t)).
Definition RemoteCount (t : lookup) : Z := Z.of_nat (size (lk_remotes t)).

Definition lk_Add (t : lookup) (tx : Transaction) (local : bool) : lookup :=
  let slots := slots t + numSlots tx in
  if local then mkLookup slots (<[hash tx := tx]> (lk_locals t)) (lk_remotes t)
  else mkLookup slots (lk_locals t) (<[hash tx := tx]> (lk_remotes t)).

Definition lk_Remove (t : lookup) (h : Hash) : lookup :=
  match lk_Get t h with
  | None => t (* logged *)
  | Some tx => mkLookup (slots t - numSlots tx) (delete h (lk_locals t)) (delete h (lk_remotes t))
  end.

Definition RemoteToLocals (t : lookup) (locals : accountSet) : lookup * Z :=
  let '(l, r, migrated) :=
    foldl (λ '(l, r, migrated) '(h, tx),
             if containsTx locals tx then (<[h := tx]> l, delete h r, migrated + 1) else (l, r, migrated))
          (lk_locals t, lk_remotes t, 0) (range_map (lk_remotes t)) in
  (mkLookup (slots t) l r, migrated).

(** [Range] over the remote transactions. *)
Definition range_remotes (t : lookup) : list Transaction := (range_map (lk_remotes t)).*2.

Fixpoint below_tip (threshold : Z) (l : list Transaction) : res (list Transaction) :=
  match l with
  | [] => Ok []
  | tx :: l =>
      c ← GasTipCapIntCmp tx threshold;
      found ← below_tip threshold l;
      Ok (if c <? 0 then tx :: found else found)
  end.
Definition RemotesBelowTip (t : lookup) (threshold : Z) : res (list Transaction) :=
  below_tip threshold (range_remotes t).

(** ** priceHeap *)

(** The comparisons of the heaps are functions to numbers.  The heaps hold transactions of the
    pool, all of which had their amounts read by the validation before they came in: a
    nil amount, on which the comparison would panic, does not get here. *)
Definition amount (r : res Z) : Z := match r with Ok x => x | Panic _ => 0 end.

Definition feeCap (tx : Transaction) : Z := amount (tx_GasFeeCap tx).
Definition tipCap (tx : Transaction) : Z := amount (tx_GasTipCap tx).
Definition effectiveTip (baseFee : option Z) (tx : Transaction) : Z := amount (EffectiveGasTipValue tx baseFee).

Definition price_cmp (baseFee : option Z) (a b : Transaction) : Z :=
  let c := match baseFee with Some _ => big_Cmp (effectiveTip baseFee a) (effectiveTip baseFee b) | None => 0 end in
  if negb (c =? 0) then c
  else
    let c := big_Cmp (feeCap a) (feeCap b) in
    if negb (c =? 0) then c else big_Cmp (tipCap a) (tipCap b).

Definition price_Less (baseFee : option Z) (a b : Transaction) : bool :=
  let c := price_cmp baseFee a b in
  if c =? -1 then true else if c =? 1 then false else tx_Nonce b <? tx_Nonce a.

(** ** pricedList *)

(** [floating.baseFee] is never set.  [all] is shared with the pool: an argument here. *)
Record pricedList := mkPriced {
  stales : Z;
  urgent : list Transaction;
  baseFee : option Z; (* of the urgent heap *)
  floating : list Transaction;
}.

Definition newPricedList : pricedList := mkPriced 0 [] None [].

Definition push_urgent (l : pricedList) (tx : Transaction) : pricedList :=
  mkPriced (stales l) (heap_Push (price_Less (baseFee l)) (urgent l) tx) (baseFee l) (floating l).
Definition push_floating (l : pricedList) (tx : Transaction) : pricedList :=
  mkPriced (stales l) (urgent l) (baseFee l) (heap_Push (price_Less None) (floating l) tx).

Definition priced_Put (l : pricedList) (tx : Transaction) (local : bool) : pricedList :=
  if local then l else push_urgent l tx.

Fixpoint pop_many (less : Transaction → Transaction → bool) (n : nat) (h : list Transaction) : list Transaction * list Transaction :=
  match n with
  | O => ([], h)
  | S n =>
      match heap_Pop less h with
      | Some (tx, h) => let '(out, h) := pop_many less n h in (tx :: out, h)
      | None => ([], h)
      end
  end.

Definition Reheap (all : lookup) (l : pricedList) : pricedList :=
  let urgent := heap_Init (price_Less (baseFee l)) (range_remotes all) in
  let floatingCount := (length urgent * 1 / (4 + 1))%nat in
  let '(floating, urgent) := pop_many (price_Less (baseFee l)) floatingCount urgent in
  mkPriced 0 urgent (baseFee l) (heap_Init (price_Less None) floating).

Definition priced_Removed (all : lookup) (l : pricedList) (count : Z) : pricedList :=
  let stales := stales l + count in
  let l := mkPriced stales (urgent l) (baseFee l) (floating l) in
  if stales <=? Z.of_nat (length (urgent l) + length (floating l)) / 4 then l else Reheap all l.

Definition SetBaseFee (all : lookup) (l : pricedList) (fee : option Z) : pricedList :=
  Reheap all (mkPriced (stales l) (urgent l) fee (floating l)).

(** The stale transactions at the start of a heap are dropped. *)
Fixpoint drop_stale (less : Transaction → Transaction → bool) (all : lookup) (fuel : nat) (h : list Transaction) (stales : Z)
  : list Transaction * Z :=
  match fuel, h with
  | S fuel, head :: _ =>
      match GetRemote all (hash head) with
      | None => match heap_Pop less h with
                | Some (_, h) => drop_stale less all fuel h (stales - 1)
                | None => (h, stales)
                end
      | Some _ => (h, stales)
      end
  | _, _ => (h, stales)
  end.

Definition underpriced_urgent (all : lookup) (l : pricedList) (tx : Transaction) : pricedList * bool :=
  let '(h, st) := drop_stale (price_Less (baseFee l)) all (length (urgent l)) (urgent l) (stales l) in
  (mkPriced st h (baseFee l) (floating l),
   match h with [] => false | head :: _ => 0 <=? price_cmp (baseFee l) head tx end).
Definition underpriced_floating (all : lookup) (l : pricedList) (tx : Transaction) : pricedList * bool :=
  let '(h, st) := drop_stale (price_Less None) all (length (floating l)) (floating l) (stales l) in
  (mkPriced st (urgent l) (baseFee l) h,
   match h with [] => false | head :: _ => 0 <=? price_cmp None head tx end).

Definition is_empty {A} (l : list A) : bool := match l with [] => true | _ => false end.

Definition Underpriced (all : lookup) (l : pricedList) (tx : Transaction) : pricedList * bool :=
  let '(l, u) := underpriced_urgent all l tx in
  if negb (u || is_empty (urgent l)) then (l, false)
  else
    let '(l, f) := underpriced_floating all l tx in
    if negb (f || is_empty (floating l)) then (l, false)
    else (l, negb (is_empty (urgent l)) || negb (is_empty (floating l))).

(** [Discard]: the heaps shrink or move one transaction from urgent to floating in every
    round, so twice the urgent and once the floating ones are enough rounds. *)
Fixpoint discard_loop (all : lookup) (fuel : nat) (l : pricedList) (slots : Z) (drop : list Transaction)
  : option (pricedList * Z * list Transaction) :=
  if slots <=? 0 then Some (l, slots, drop)
  else
    match fuel with
    | O => None
    | S fuel =>
        if (length (floating l) * 4 <? length (urgent l) * 1)%nat then
          match heap_Pop (price_Less (baseFee l)) (urgent l) with
          | None => None
          | Some (tx, h) =>
              match GetRemote all (hash tx) with
              | None => discard_loop all fuel (mkPriced (stales l - 1) h (baseFee l) (floating l)) slots drop
              | Some _ => discard_loop all fuel (push_floating (mkPriced (stales l) h (baseFee l) (floating l)) tx) slots drop
              end
          end
        else
          match heap_Pop (price_Less None) (floating l) with
          | None => Some (l, slots, drop) (* both heaps are empty *)
          | Some (tx, h) =>
              match GetRemote all (hash tx) with
              | None => discard_loop all fuel (mkPriced (stales l - 1) (urgent l) (baseFee l) h) slots drop
              | Some _ =>
                  discard_loop all fuel (mkPriced (stales l) (urgent l) (baseFee l) h) (slots - numSlots tx) (drop ++ [tx])
              end
          end
    end.

Definition Discard (all : lookup) (l : pricedList) (slots : Z) (force : bool)
  : option (pricedList * list Transaction * bool) :=
  match discard_loop all (S (2 * length (urgent l) + length (floating l))) l slots [] with
  | None => None
  | Some (l, slots, drop) =>
      if (0 <? slots) && negb force then Some (foldl push_urgent l drop, [], false)
      else Some (l, drop, true)
  end.
End pool.

(** ** noncer *)

(** [fallback] is a copy of the state database: its nonces do not change. *)
Record noncer := mkNoncer { fallback : Address → Z; nonces : gmap Address Z }.

Definition newNoncer (state_nonce : Address → Z) : noncer := mkNoncer state_nonce ∅.

(** The entry is made when it is missing and the state has a nonce. *)
Definition noncer_load (n : noncer) (addr : Address) : noncer :=
  match nonces n !! addr with
  | Some _ => n
  | None => let nonce := fallback n addr in
            if nonce =? 0 then n else mkNoncer (fallback n) (<[addr := nonce]> (nonces n))
  end.
Definition noncer_get (n : noncer) (addr : Address) : noncer * Z :=
  let n := noncer_load n addr in (n, default 0 (nonces n !! addr)).

Definition noncer_set (n : noncer) (addr : Address) (nonce : Z) : noncer :=
  mkNoncer (fallback n) (<[addr := nonce]> (nonces n)).

Definition setIfLower (n : noncer) (addr : Address) (nonce : Z) : noncer :=
  let n := noncer_load n addr in
  if default 0 (nonces n !! addr) <=? nonce then n else noncer_set n addr nonce.

Definition setAll (n : noncer) (all : gmap Address Z) : noncer := mkNoncer (fallback n) all.
