(* ===== verification/PoolPriceProps.v ===== *)
(** * Lookup and price heaps: correctness

    The lookup holds a list of transactions, each under its hash; the heaps stay in price
    order and cover the remote transactions, so that eviction can reach each of them. *)

From S2P Require Import Prelude Bytes Params Common Heap Types PoolList PoolPrice.

(** ** The price order *)

Lemma big_Cmp_cases x y : (x < y ∧ big_Cmp x y = -1) ∨ (x = y ∧ big_Cmp x y = 0) ∨ (y < x ∧ big_Cmp x y = 1).
Proof. unfold big_Cmp. destruct (Z.compare_spec x y); lia. Qed.

Definition first_key (fee : option Z) (tx : Transaction) : Z := match fee with Some _ => effectiveTip fee tx | None => 0 end.

Lemma price_Less_spec fee a b :
  price_Less fee a b = true ↔
  first_key fee a < first_key fee b ∨ first_key fee a = first_key fee b ∧
  (feeCap a < feeCap b ∨ feeCap a = feeCap b ∧
   (tipCap a < tipCap b ∨ tipCap a = tipCap b ∧ tx_Nonce b < tx_Nonce a)).
Proof.
  unfold price_Less, price_cmp, first_key.
  assert (∀ c x y z w n m : Z, (x < y ∧ c = -1) ∨ (x = y ∧ c = 0) ∨ (y < x ∧ c = 1) →
    let k := if negb (c =? 0) then c else if negb (big_Cmp z w =? 0) then big_Cmp z w else big_Cmp n m in
    (if k =? -1 then true else if k =? 1 then false else tx_Nonce b <? tx_Nonce a) = true ↔
    x < y ∨ x = y ∧ (z < w ∨ z = w ∧ (n < m ∨ n = m ∧ tx_Nonce b < tx_Nonce a))) as Hc.
  { intros c x y z w n m Hxy. cbv zeta. destruct Hxy as [[? ->]|[[? ->]|[? ->]]]; cbn; [intuition lia| |intuition lia].
    destruct (big_Cmp_cases z w) as [[? ->]|[[? ->]|[? ->]]]; cbn; [intuition lia| |intuition lia].
    destruct (big_Cmp_cases n m) as [[? ->]|[[? ->]|[? ->]]]; cbn; [intuition lia| |intuition lia].
    rewrite Z.ltb_lt. lia. }
  destruct fee as [fee|]; apply Hc; [apply big_Cmp_cases|lia].
Qed.

#[global] Instance price_Less_order fee : StrictWeak (price_Less fee).
Proof.
  split.
  - intros a b Hab. apply not_true_is_false. rewrite price_Less_spec in *. lia.
  - unfold le. intros a b c Hab Hbc. apply not_true_is_false. apply not_true_iff_false in Hab, Hbc.
    rewrite price_Less_spec in *. lia.
Qed.

Section props.
Context `{Crypto} `{GoRuntime}.

(** ** The lookup *)

Definition lk_txs (t : lookup) : list Transaction := (map_to_list (lk_locals t)).*2 ++ (map_to_list (lk_remotes t)).*2.
Fixpoint slots_of (l : list Transaction) : Z :=
  match l with tx :: l => numSlots tx + slots_of l | [] => 0 end.
Definition keyed (m : gmap Hash Transaction) : Prop := ∀ h tx, m !! h = Some tx → hash tx = h.

(** The lookup holds the transactions [l]. *)
Record lookup_ok (t : lookup) (l : list Transaction) : Prop := {
  lo_locals : keyed (lk_locals t);
  lo_remotes : keyed (lk_remotes t);
  lo_disjoint : lk_locals t ##ₘ lk_remotes t;
  lo_txs : lk_txs t ≡ₚ l;
  lo_slots : slots t = slots_of l;
}.

#[global] Instance slots_of_perm : Proper (Permutation ==> eq) slots_of.
Proof. induction 1; cbn [slots_of]; congruence || lia. Qed.

Lemma lookup_ok_perm t l k : l ≡ₚ k → lookup_ok t l → lookup_ok t k.
Proof. intros Hp []. split; try done; [by rewrite <- Hp|by rewrite <- Hp]. Qed.

Lemma lookup_ok_new : lookup_ok newLookup [].
Proof. by split. Qed.

Lemma elem_of_values (m : gmap Hash Transaction) tx : tx ∈ (map_to_list m).*2 ↔ ∃ h, m !! h = Some tx.
Proof.
  rewrite list_elem_of_fmap. split; [intros ([h x] & -> & Hin); exists h; by apply elem_of_map_to_list in Hin|].
  intros [h Hh]. exists (h, tx). split; [done|]. by apply elem_of_map_to_list.
Qed.

Lemma lk_Get_Some t l h tx : lookup_ok t l → lk_Get t h = Some tx ↔ tx ∈ l ∧ hash tx = h.
Proof.
  intros [Hl Hr Hd Ht _]. rewrite <- Ht. unfold lk_txs, lk_Get. rewrite elem_of_app, !elem_of_values. split.
  - destruct (lk_locals t !! h) as [x|] eqn:E.
    + intros [= ->]. split; [left; eauto|by apply Hl].
    + intros Hx. split; [right; eauto|by apply Hr].
  - intros [[[h' Hh']|[h' Hh']] <-].
    + rewrite (Hl _ _ Hh'). by rewrite Hh'.
    + rewrite (Hr _ _ Hh'). rewrite (map_disjoint_Some_r _ _ _ _ Hd Hh'). done.
Qed.

Lemma lk_Get_None t l h : lookup_ok t l → lk_Get t h = None ↔ ∀ tx, tx ∈ l → hash tx ≠ h.
Proof.
  intros Ht. split.
  - intros E tx Hin Hh. assert (lk_Get t h = Some tx) by (by apply (lk_Get_Some t l)). congruence.
  - intros Hn. destruct (lk_Get t h) as [tx|] eqn:E; [|done]. apply (lk_Get_Some t l) in E as [Hin Hh]; [|done].
    by destruct (Hn tx Hin).
Qed.

Lemma lk_Add_ok t l tx local : lookup_ok t l → lk_Get t (hash tx) = None → lookup_ok (lk_Add t tx local) (tx :: l).
Proof.
  intros [Hl Hr Hd Ht Hs] Hn. unfold lk_Get in Hn. destruct (lk_locals t !! hash tx) eqn:El; [done|].
  assert (keyed (<[hash tx := tx]> (lk_locals t)) ∧ keyed (<[hash tx := tx]> (lk_remotes t))) as [Kl Kr].
  { split; intros h x [[<- <-]|[_ ?]]%lookup_insert_Some; by auto. }
  unfold lk_Add. destruct local; split; cbn [slots lk_locals lk_remotes]; try done; unfold lk_txs in *; cbn [lk_locals lk_remotes].
  - by apply map_disjoint_insert_l.
  - rewrite map_to_list_insert by done. cbn. by rewrite Ht.
  - cbn [slots_of]. lia.
  - by apply map_disjoint_insert_r.
  - rewrite map_to_list_insert by done. cbn. rewrite <- Permutation_middle. by rewrite Ht.
  - cbn [slots_of]. lia.
Qed.

Lemma remotes_delete (m : gmap Hash Transaction) h tx :
  m !! h = Some tx → (map_to_list m).*2 ≡ₚ tx :: (map_to_list (delete h m)).*2.
Proof. intros Hh. by rewrite <- (map_to_list_delete m h tx Hh). Qed.

Lemma lk_Remove_ok t l tx : lookup_ok t (tx :: l) → lookup_ok (lk_Remove t (hash tx)) l.
Proof.
  intros Hok. pose proof (proj2 (lk_Get_Some t (tx :: l) (hash tx) tx Hok) ltac:(set_solver)) as Hg.
  destruct Hok as [Hl Hr Hd Ht Hs]. unfold lk_Remove. rewrite Hg.
  assert (∀ m, keyed m → keyed (delete (hash tx) m)) as Hk by (intros m Hm h x [_ ?]%lookup_delete_Some; by apply Hm).
  split; cbn [slots lk_locals lk_remotes]; [by apply Hk|by apply Hk| | |cbn [slots_of] in Hs; lia].
  - by apply map_disjoint_delete_l, map_disjoint_delete_r.
  - unfold lk_txs in *. cbn [lk_locals lk_remotes]. apply (Permutation_cons_inv (a := tx)). rewrite <- Ht.
    unfold lk_Get in Hg. destruct (lk_locals t !! hash tx) as [x|] eqn:E.
    + injection Hg as ->. rewrite (remotes_delete _ _ _ E). rewrite (delete_id (lk_remotes t)) by (by apply (map_disjoint_Some_l _ _ _ _ Hd E)). done.
    + rewrite (remotes_delete _ _ _ Hg), (delete_id (lk_locals t)) by done. by rewrite <- Permutation_middle.
Qed.

Lemma lk_Remove_all_ok ds : ∀ t l, lookup_ok t (ds ++ l) → lookup_ok (foldl (λ a tx, lk_Remove a (hash tx)) t ds) l.
Proof. induction ds as [|tx ds IH]; intros t l Hok; cbn [foldl]; [done|]. apply IH. by apply lk_Remove_ok. Qed.

Lemma lk_Remove_remotes t h : lk_remotes (lk_Remove t h) ⊆ lk_remotes t.
Proof. unfold lk_Remove. destruct (lk_Get t h); [apply delete_subseteq|done]. Qed.

(** Remote transactions become local; the transactions stay the same. *)
Lemma RemoteToLocals_ok t l s :
  lookup_ok t l → lookup_ok (fst (RemoteToLocals t s)) l ∧ lk_remotes (fst (RemoteToLocals t s)) ⊆ lk_remotes t.
Proof.
  intros Hok. unfold RemoteToLocals.
  assert (∀ r lo re n, NoDup r.*1 → (∀ h tx, (h, tx) ∈ r → re !! h = Some tx) →
    lookup_ok (mkLookup (slots t) lo re) l →
    let '(lo', re', _) := foldl (λ '(l, r, migrated) '(h, tx),
      if containsTx s tx then (<[h := tx]> l, delete h r, migrated + 1) else (l, r, migrated)) (lo, re, n) r in
    lookup_ok (mkLookup (slots t) lo' re') l ∧ re' ⊆ re) as Hloop.
  { induction r as [|[h tx] r IH]; intros lo re n Hnd Hr Ht; cbn [foldl]; [done|].
    cbn in Hnd. apply NoDup_cons in Hnd as [Hh Hnd]. destruct (containsTx s tx); [|apply IH; [done| |done]; set_solver].
    pose proof (Hr h tx ltac:(set_solver)) as Hre. destruct Ht as [Hl Hrm Hd Htx Hs]. cbn [slots lk_locals lk_remotes] in *.
    specialize (IH (<[h:=tx]> lo) (delete h re) (n + 1) Hnd).
    destruct (foldl _ _ r) as [[lo' re'] n']. destruct IH as [Hok' Hsub].
    - intros h' tx' Hin. rewrite lookup_delete_ne; [apply Hr; set_solver|]. intros ->. apply Hh. apply list_elem_of_fmap. by exists (h', tx').
    - pose proof (Hrm _ _ Hre) as Hh'. split; cbn [slots lk_locals lk_remotes].
      + intros h2 x [[<- <-]|[_ ?]]%lookup_insert_Some; auto.
      + intros h2 x [_ ?]%lookup_delete_Some. auto.
      + apply map_disjoint_insert_l_2; [by rewrite lookup_delete_eq|by apply map_disjoint_delete_r].
      + unfold lk_txs in *. cbn [lk_locals lk_remotes] in *. rewrite map_to_list_insert by (by apply (map_disjoint_Some_r _ _ _ _ Hd Hre)).
        cbn. rewrite <- Htx, (remotes_delete re h tx Hre). by rewrite <- Permutation_middle.
      + done.
    - split; [done|]. etrans; [done|apply delete_subseteq]. }
  specialize (Hloop (range_map (lk_remotes t)) (lk_locals t) (lk_remotes t) 0 (range_map_NoDup _)).
  destruct (foldl _ _ _) as [[lo' re'] n']. apply Hloop; [|by destruct t]. intros h tx Hin. by apply range_map_elem.
Qed.

(** ** The price heaps *)

(** Both heaps are in order, and every remote transaction but those of [D] is in one. *)
Record priced_ok (D : list Transaction) (t : lookup) (l : pricedList) : Prop := {
  pk_urgent : heap (price_Less (baseFee l)) (urgent l);
  pk_floating : heap (price_Less None) (floating l);
  pk_covers : ∀ h tx, lk_remotes t !! h = Some tx → tx ∈ urgent l ∨ tx ∈ floating l ∨ tx ∈ D;
}.

Lemma heap_nil fee : heap (price_Less fee) [].
Proof. intros p c _ Hc. cbn in Hc. lia. Qed.

Lemma priced_ok_new D : priced_ok D newLookup newPricedList.
Proof. split; [apply heap_nil|apply heap_nil|]. intros h tx. cbn. by rewrite lookup_empty. Qed.

Lemma priced_ok_sub D t t' l : lk_remotes t' ⊆ lk_remotes t → priced_ok D t l → priced_ok D t' l.
Proof. intros Hs [Hu Hf Hc]. split; try done. intros h tx Ht. apply (Hc h). by eapply lookup_weaken. Qed.

Lemma push_urgent_ok D t l tx : priced_ok (tx :: D) t l → priced_ok D t (push_urgent l tx).
Proof.
  intros [Hu Hf Hc]. destruct (heap_Push_spec _ _ tx Hu) as [Hh Hp]. split; cbn [urgent floating baseFee push_urgent]; [done|done|].
  intros h x Hx. rewrite Hp. specialize (Hc h x Hx). set_solver.
Qed.
Lemma push_floating_ok D t l tx : priced_ok (tx :: D) t l → priced_ok D t (push_floating l tx).
Proof.
  intros [Hu Hf Hc]. destruct (heap_Push_spec _ _ tx Hf) as [Hh Hp]. split; cbn [urgent floating baseFee push_floating]; [done|done|].
  intros h x Hx. rewrite Hp. specialize (Hc h x Hx). set_solver.
Qed.

Lemma priced_Put_ok D t l tx local :
  priced_ok D t l → priced_ok D (lk_Add t tx local) (priced_Put l tx local).
Proof.
  intros [Hu Hf Hc]. unfold lk_Add, priced_Put. destruct local; [by split|]. apply push_urgent_ok. split; cbn [lk_remotes]; try done.
  intros h x [[_ <-]|[_ Hx]]%lookup_insert_Some; [set_solver|]. specialize (Hc h x Hx). set_solver.
Qed.

Lemma pop_many_spec fee n : ∀ h,
  heap (price_Less fee) h →
  let '(out, h') := pop_many (price_Less fee) n h in heap (price_Less fee) h' ∧ out ++ h' ≡ₚ h.
Proof.
  induction n as [|n IH]; intros h Hh; cbn [pop_many]; [done|]. destruct h as [|x h0] eqn:E; [done|]. rewrite <- E in *.
  destruct (heap_Pop_spec _ h Hh) as (h' & -> & Hh' & Hp); [by subst|]. specialize (IH h' Hh').
  destruct (pop_many (price_Less fee) n h') as [out h2]. destruct IH as [H1 H2]. split; [done|]. cbn. by rewrite H2.
Qed.

Lemma Reheap_ok D t l : priced_ok D t (Reheap t l).
Proof.
  unfold Reheap. destruct (heap_Init_spec (price_Less (baseFee l)) (range_remotes t)) as [Hh Hp].
  set (n := (length _ * 1 / (4 + 1))%nat). pose proof (pop_many_spec (baseFee l) n _ Hh) as Hpop.
  destruct (pop_many _ n _) as [fl ur]. destruct Hpop as [Hu Hpp].
  destruct (heap_Init_spec (price_Less None) fl) as [Hf Hpf]. split; cbn [urgent floating baseFee]; [done|done|].
  intros h tx Hx. rewrite Hpf. assert (tx ∈ fl ++ ur); [|set_solver]. rewrite Hpp, Hp. unfold range_remotes.
  rewrite range_map_perm. apply elem_of_values. eauto.
Qed.

Lemma priced_Removed_ok D t l n : priced_ok D t l → priced_ok D t (priced_Removed t l n).
Proof. intros [Hu Hf Hc]. unfold priced_Removed. destruct (_ <=? _); [by split|apply Reheap_ok]. Qed.

Lemma drop_stale_ok fee t : ∀ fuel h st,
  keyed (lk_remotes t) → heap (price_Less fee) h →
  let '(h', _) := drop_stale (price_Less fee) t fuel h st in
  heap (price_Less fee) h' ∧ ∀ x, (∃ k, lk_remotes t !! k = Some x) → x ∈ h → x ∈ h'.
Proof.
  induction fuel as [|fuel IH]; intros h st Hk Hh; cbn [drop_stale]; [done|]. destruct h as [|x h0] eqn:E; [done|].
  destruct (GetRemote t (hash x)) as [y|] eqn:Eg; [done|]. rewrite <- E in *.
  destruct (heap_Pop_spec _ h Hh) as (h' & -> & Hh' & Hp); [by subst|]. specialize (IH h' (st - 1) Hk Hh').
  destruct (drop_stale _ t fuel h' _) as [h2 st2]. destruct IH as [H1 H2]. split; [done|]. intros z [k Hz] Hin. apply H2; [eauto|].
  rewrite <- Hp in Hin. apply elem_of_cons in Hin as [->|]; [|done]. subst h. cbn in Hz.
  unfold GetRemote in Eg. rewrite (Hk _ _ Hz) in Eg. congruence.
Qed.

Lemma Underpriced_ok D t l tx : keyed (lk_remotes t) → priced_ok D t l → priced_ok D t (fst (Underpriced t l tx)).
Proof.
  intros Hk Hl. unfold Underpriced, underpriced_urgent, underpriced_floating.
  assert (∀ l, priced_ok D t l → let '(h, st) := drop_stale (price_Less (baseFee l)) t (length (urgent l)) (urgent l) (stales l) in
    priced_ok D t (mkPriced st h (baseFee l) (floating l))) as HU.
  { intros l' [Hu Hf Hc]. pose proof (drop_stale_ok (baseFee l') t (length (urgent l')) (urgent l') (stales l') Hk Hu) as Hd.
    destruct (drop_stale _ _ _ _ _) as [h st]. destruct Hd as [H1 H2]. split; cbn [urgent floating baseFee]; try done.
    intros k x Hx. destruct (Hc k x Hx) as [|]; eauto. }
  assert (∀ l, priced_ok D t l → let '(h, st) := drop_stale (price_Less None) t (length (floating l)) (floating l) (stales l) in
    priced_ok D t (mkPriced st (urgent l) (baseFee l) h)) as HF.
  { intros l' [Hu Hf Hc]. pose proof (drop_stale_ok None t (length (floating l')) (floating l') (stales l') Hk Hf) as Hd.
    destruct (drop_stale _ _ _ _ _) as [h st]. destruct Hd as [H1 H2]. split; cbn [urgent floating baseFee]; try done.
    intros k x Hx. destruct (Hc k x Hx) as [|[|]]; eauto. }
  specialize (HU l Hl). destruct (drop_stale _ _ _ (urgent l) _) as [h st]. cbn [fst snd urgent floating baseFee stales] in *.
  destruct (negb _); [done|]. specialize (HF _ HU). cbn [urgent floating baseFee stales] in HF.
  destruct (drop_stale _ _ _ (floating l) _) as [h' st']. cbn [fst snd urgent floating baseFee stales] in *. by destruct (negb _).
Qed.

(** *** Discard *)

Definition remote (t : lookup) (tx : Transaction) : Prop := is_Some (GetRemote t (hash tx)).

Lemma priced_ok_pop_urgent D t l h tx st :
  priced_ok D t l → heap (price_Less (baseFee l)) h → tx :: h ≡ₚ urgent l →
  priced_ok (tx :: D) t (mkPriced st h (baseFee l) (floating l)).
Proof.
  intros [Hu Hf Hc] Hh Hp. split; cbn [urgent floating baseFee]; [done|done|]. intros k x Hx. specialize (Hc k x Hx).
  rewrite <- Hp in Hc. set_solver.
Qed.
Lemma priced_ok_pop_floating D t l h tx st :
  priced_ok D t l → heap (price_Less None) h → tx :: h ≡ₚ floating l →
  priced_ok (tx :: D) t (mkPriced st (urgent l) (baseFee l) h).
Proof.
  intros [Hu Hf Hc] Hh Hp. split; cbn [urgent floating baseFee]; [done|done|]. intros k x Hx. specialize (Hc k x Hx).
  rewrite <- Hp in Hc. set_solver.
Qed.

(** What is not in the lookup does not have to be covered. *)
Lemma priced_ok_stale D t l tx :
  keyed (lk_remotes t) → GetRemote t (hash tx) = None → priced_ok (tx :: D) t l → priced_ok D t l.
Proof.
  intros Hk Hn [Hu Hf Hc]. split; try done. intros k x Hx. destruct (Hc k x Hx) as [|[|[->|]%elem_of_cons]]; auto.
  unfold GetRemote in Hn. rewrite (Hk _ _ Hx) in Hn. congruence.
Qed.

Lemma priced_ok_perm D D' t l : D ≡ₚ D' → priced_ok D t l → priced_ok D' t l.
Proof. intros Hp [Hu Hf Hc]. split; try done. intros k x Hx. rewrite <- Hp. eauto. Qed.

Definition heap_size (l : pricedList) : nat := (2 * length (urgent l) + length (floating l))%nat.

Lemma discard_loop_spec t fuel : ∀ D l slots drop,
  keyed (lk_remotes t) → priced_ok D t l → (heap_size l < fuel)%nat →
  ∃ l' new, discard_loop t fuel l slots drop = Some (l', slots - slots_of new, drop ++ new) ∧
    priced_ok (new ++ D) t l' ∧ Forall (remote t) new ∧
    (slots - slots_of new <= 0 ∨ urgent l' = [] ∧ floating l' = []).
Proof.
  induction fuel as [|fuel IH]; intros D l slots drop Hk Hl Hf; [lia|]. cbn [discard_loop].
  destruct (Z.leb_spec slots 0) as [Hs|Hs].
  { exists l, []. cbn [slots_of app]. rewrite Z.sub_0_r, app_nil_r. split_and!; try done. by left. }
  destruct (Nat.ltb_spec (length (floating l) * 4) (length (urgent l) * 1)) as [Hu|Hu].
  - destruct (heap_Pop_spec _ (urgent l) (pk_urgent _ _ _ Hl)) as (h & E & Hh & Hp).
    { intros E. rewrite E in Hu. cbn in Hu. lia. }
    rewrite E. set (tx := urgent l !!! 0%nat) in *. clearbody tx. pose proof (Permutation_length Hp) as Hlen. cbn in Hlen.
    destruct (GetRemote t (hash tx)) as [y|] eqn:Eg.
    + apply IH; [done| |].
      * apply push_floating_ok. by apply priced_ok_pop_urgent.
      * unfold heap_size in *. cbn [urgent floating push_floating].
        destruct (heap_Push_spec _ _ tx (pk_floating _ _ _ Hl)) as [_ Hpf]. rewrite (Permutation_length Hpf). cbn. lia.
    + apply IH; [done| |unfold heap_size in *; cbn [urgent floating]; lia].
      apply (priced_ok_stale D t _ tx); [done..|]. by apply priced_ok_pop_urgent.
  - destruct (floating l) as [|x fl] eqn:Efl; [|rewrite <- Efl in *].
    { exists l, []. cbn [slots_of app]. rewrite Z.sub_0_r, app_nil_r. split_and!; try done. right. split; [|done].
      destruct (urgent l); [done|]. cbn in Hu. lia. }
    destruct (heap_Pop_spec _ (floating l) (pk_floating _ _ _ Hl)) as (h & E & Hh & Hp); [by rewrite Efl|]. rewrite E.
    set (tx := floating l !!! 0%nat) in *. clearbody tx. pose proof (Permutation_length Hp) as Hlen. cbn in Hlen.
    destruct (GetRemote t (hash tx)) as [y|] eqn:Eg.
    + destruct (IH (tx :: D) (mkPriced (stales l) (urgent l) (baseFee l) h) (slots - numSlots tx) (drop ++ [tx]) Hk)
        as (l' & new & E' & Hl' & Hnew & Hend).
      * by apply priced_ok_pop_floating.
      * unfold heap_size in *. cbn [urgent floating]. lia.
      * exists l', (tx :: new). cbn [slots_of app]. rewrite E', <- app_assoc. cbn [app].
        replace (slots - numSlots tx - slots_of new) with (slots - (numSlots tx + slots_of new)) in * by lia.
        split_and!; [done| |constructor; [by eexists|done]|done]. eapply priced_ok_perm; [|done]. by rewrite <- Permutation_middle.
    + apply IH; [done| |unfold heap_size in *; cbn [urgent floating]; lia].
      apply (priced_ok_stale D t _ tx); [done..|]. by apply priced_ok_pop_floating.
Qed.

Lemma push_all_ok t ds : ∀ l, priced_ok ds t l → priced_ok [] t (foldl push_urgent l ds).
Proof. induction ds as [|tx ds IH]; intros l Hl; cbn [foldl]; [done|]. apply IH. by apply push_urgent_ok. Qed.

Lemma Discard_spec t l slots force :
  keyed (lk_remotes t) → priced_ok [] t l →
  ∃ l' drop ok, Discard t l slots force = Some (l', drop, ok) ∧ priced_ok drop t l' ∧ Forall (remote t) drop ∧
    (if ok then slots <= slots_of drop ∨ force = true ∧ (∀ h tx, lk_remotes t !! h = Some tx → tx ∈ drop)
     else drop = [] ∧ force = false ∧
          ∃ every, slots_of every < slots ∧ ∀ h tx, lk_remotes t !! h = Some tx → tx ∈ every).
Proof.
  intros Hk Hl. unfold Discard.
  destruct (discard_loop_spec t (S (heap_size l)) [] l slots [] Hk Hl ltac:(lia)) as (l' & new & E & Hl' & Hnew & Hend).
  unfold heap_size in E. rewrite E. cbn [app]. rewrite app_nil_r in Hl'.
  assert (urgent l' = [] ∧ floating l' = [] → ∀ h tx, lk_remotes t !! h = Some tx → tx ∈ new) as Hall.
  { intros [Eu Ef] h tx Hx. destruct (pk_covers _ _ _ Hl' h tx Hx) as [Hin|[Hin|]]; [rewrite Eu in Hin|rewrite Ef in Hin|done]; set_solver. }
  destruct (Z.ltb_spec 0 (slots - slots_of new)) as [Hs|Hs]; cbn [andb].
  - destruct Hend as [|Hend]; [lia|]. destruct force; cbn [negb].
    + exists l', new, true. split_and!; [done..|]. right. split; [done|]. by apply Hall.
    + exists (foldl push_urgent l' new), [], false. split_and!; [done|by apply push_all_ok|done|done|done|].
      exists new. split; [lia|]. by apply Hall.
  - exists l', new, true. split_and!; [done..|]. left. lia.
Qed.

(** [Discard] returns after a bounded number of rounds.  Either it hands out remote
    transactions for the slots asked for (all there are, if it is forced to), and the heaps
    still cover the other ones; or it hands out nothing, the heaps cover what they covered,
    and all remote transactions together do not have the slots. *)
Theorem Discard_makes_room t l slots force :
  keyed (lk_remotes t) → priced_ok [] t l →
  ∃ l' drop ok, Discard t l slots force = Some (l', drop, ok) ∧ priced_ok drop t l' ∧ Forall (remote t) drop ∧
    (if ok then slots <= slots_of drop ∨ force = true ∧ (∀ h tx, lk_remotes t !! h = Some tx → tx ∈ drop)
     else drop = [] ∧ force = false ∧
          ∃ every, slots_of every < slots ∧ ∀ h tx, lk_remotes t !! h = Some tx → tx ∈ every).
Proof. apply Discard_spec. Qed.
End props.

(** ** Witnesses *)

#[local] Existing Instances toy_crypto reference_runtime.

Lemma Discard_makes_room_witness :
  let tx := sample_tx [] [] in let t := lk_Add newLookup tx false in let l := priced_Put newPricedList tx false in
  Discard t l 1 false = Some (mkPriced 0 [] None [], [tx], true) ∧
  ∃ l' drop ok, Discard t l 1 false = Some (l', drop, ok) ∧ priced_ok drop t l' ∧ Forall (remote t) drop ∧
    (if ok then 1 <= slots_of drop ∨ false = true ∧ (∀ h tx, lk_remotes t !! h = Some tx → tx ∈ drop)
     else drop = [] ∧ false = false ∧
          ∃ every, slots_of every < 1 ∧ ∀ h tx, lk_remotes t !! h = Some tx → tx ∈ every).
Proof.
  intros tx t l. split; [vm_compute; reflexivity|]. apply (Discard_makes_room t l 1 false).
  - intros h x. unfold t, lk_Add. cbn [lk_remotes newLookup]. rewrite insert_empty, lookup_singleton_Some. intros [<- <-]. reflexivity.
  - apply priced_Put_ok, priced_ok_new.
Defined.
