(* ===== verification/Pool.v ===== *)
(** * The transaction pool (core/txpool: validation.go, legacypool/legacypool.go)

    The pool keeps, per account, a strict list of executable transactions ([pending]) and a
    list of future ones ([queue]), a lookup by hash and the price heaps.  All operations run
    under the lock of the pool, one after another; metrics and logging are not modelled.  The
    chain is seen through its interface: heads, blocks by hash and number, and the nonces and
    balances of a state.  [now] is the clock reading of an operation.  The transactions sent to
    the scheduling loop as events are collected in a list. *)

From S2P Require Import Prelude Bytes Params Common Heap Types StateDB Blocks PoolList PoolPrice.

(** ** Configuration *)

Record Config := mkConfig {
  Locals : list Address;
  NoLocals : bool;
  Journal : string;
  Rejournal : Z;
  PriceLimit : Z;
  PriceBump : Z;
  AccountSlots : Z;
  GlobalSlots : Z;
  AccountQueue : Z;
  GlobalQueue : Z;
  Lifetime : Z;
}.

Definition Second : Z := 1000000000.
Definition DefaultConfig : Config :=
  mkConfig [] false "transactions.rlp" (3600 * Second) 1 10 16 (4096 + 1024) 64 1024 (3 * 3600 * Second).

Definition sanitize (c : Config) : Config :=
  let at_least_1 (f : Config → Z) := if f c <? 1 then f DefaultConfig else f c in
  mkConfig (Locals c) (NoLocals c) (Journal c)
    (if Rejournal c <? Second then Second else Rejournal c)
    (at_least_1 PriceLimit) (at_least_1 PriceBump) (at_least_1 AccountSlots) (at_least_1 GlobalSlots)
    (at_least_1 AccountQueue) (at_least_1 GlobalQueue) (at_least_1 Lifetime).

(** ** Errors *)

Inductive pool_error :=
| ErrAlreadyKnown | ErrInvalidSender | ErrUnderpriced | ErrReplaceUnderpriced | ErrGasLimit
| ErrNegativeValue | ErrOversizedData | ErrFutureReplacePending | ErrTxPoolOverflow
| TxError (e : tx_error).

(** ** The journal (journal.go) *)

Record txJournal := mkJournal { path : string; writer : option (list Transaction) }.
Definition newTxJournal (path : string) : txJournal := mkJournal path None.

(** Every function of the journal returns nil before its first statement. *)
Definition journal_load (j : txJournal) : txJournal * option pool_error := (j, None).
Definition journal_insert (j : txJournal) (tx : Transaction) : txJournal * option pool_error := (j, None).
Definition journal_rotate (j : txJournal) (all : gmap Address (list Transaction)) : txJournal * option pool_error := (j, None).
Definition journal_close (j : txJournal) : txJournal * option pool_error := (j, None).

(** ** State *)

(** The nonces and balances of a state database. *)
Record ChainState := mkChainState { state_nonce : Address → Z; state_balance : Address → Z }.

Definition state_view `{Crypto} `{Database} (s : StateDB) : ChainState :=
  mkChainState (λ a, fst (GetNonce s a)) (λ a, fst (GetBalance s a)).

Record LegacyPool := mkPool {
  config : Config;
  signer : panguSigner;
  gasTip : Z;
  currentHead : Header;
  currentState : ChainState;
  pendingNonces : noncer;
  locals : accountSet;
  journal : option txJournal;
  pending : gmap Address tlist;
  queue : gmap Address tlist;
  beats : gmap Address Z;
  all : lookup;
  priced : pricedList;
  events : list Transaction;
  changesSinceReorg : Z;
}.

Definition set_lists (p : LegacyPool) (pend que : gmap Address tlist) : LegacyPool :=
  mkPool (config p) (signer p) (gasTip p) (currentHead p) (currentState p) (pendingNonces p) (locals p) (journal p)
    pend que (beats p) (all p) (priced p) (events p) (changesSinceReorg p).
Definition set_pending (p : LegacyPool) (m : gmap Address tlist) : LegacyPool := set_lists p m (queue p).
Definition set_queue (p : LegacyPool) (m : gmap Address tlist) : LegacyPool := set_lists p (pending p) m.
Definition set_prices (p : LegacyPool) (a : lookup) (pr : pricedList) : LegacyPool :=
  mkPool (config p) (signer p) (gasTip p) (currentHead p) (currentState p) (pendingNonces p) (locals p) (journal p)
    (pending p) (queue p) (beats p) a pr (events p) (changesSinceReorg p).
Definition set_all (p : LegacyPool) (a : lookup) : LegacyPool := set_prices p a (priced p).
Definition set_priced (p : LegacyPool) (pr : pricedList) : LegacyPool := set_prices p (all p) pr.
Definition set_nonces (p : LegacyPool) (n : noncer) : LegacyPool :=
  mkPool (config p) (signer p) (gasTip p) (currentHead p) (currentState p) n (locals p) (journal p)
    (pending p) (queue p) (beats p) (all p) (priced p) (events p) (changesSinceReorg p).
Definition set_beats (p : LegacyPool) (b : gmap Address Z) : LegacyPool :=
  mkPool (config p) (signer p) (gasTip p) (currentHead p) (currentState p) (pendingNonces p) (locals p) (journal p)
    (pending p) (queue p) b (all p) (priced p) (events p) (changesSinceReorg p).
Definition set_logs (p : LegacyPool) (j : option txJournal) (ev : list Transaction) : LegacyPool :=
  mkPool (config p) (signer p) (gasTip p) (currentHead p) (currentState p) (pendingNonces p) (locals p) j
    (pending p) (queue p) (beats p) (all p) (priced p) ev (changesSinceReorg p).
Definition set_locals (p : LegacyPool) (s : accountSet) : LegacyPool :=
  mkPool (config p) (signer p) (gasTip p) (currentHead p) (currentState p) (pendingNonces p) s (journal p)
    (pending p) (queue p) (beats p) (all p) (priced p) (events p) (changesSinceReorg p).
Definition set_changes (p : LegacyPool) (n : Z) : LegacyPool :=
  mkPool (config p) (signer p) (gasTip p) (currentHead p) (currentState p) (pendingNonces p) (locals p) (journal p)
    (pending p) (queue p) (beats p) (all p) (priced p) (events p) n.
Definition set_head (p : LegacyPool) (h : Header) (s : ChainState) : LegacyPool :=
  mkPool (config p) (signer p) (gasTip p) h s (newNoncer (state_nonce s)) (locals p) (journal p)
    (pending p) (queue p) (beats p) (all p) (priced p) (events p) (changesSinceReorg p).
Definition set_tip (p : LegacyPool) (tip : Z) : LegacyPool :=
  mkPool (config p) (signer p) tip (currentHead p) (currentState p) (pendingNonces p) (locals p) (journal p)
    (pending p) (queue p) (beats p) (all p) (priced p) (events p) (changesSinceReorg p).

(** A loop whose body may panic. *)
Fixpoint fold_res {A S} (f : S → A → res S) (s : S) (l : list A) : res S :=
  match l with
  | [] => Ok s
  | x :: l => s ← f s x; fold_res f s l
  end.

Section pool.
Context `{Crypto} `{GoRuntime}.

(** [New] and [Init]: the configuration is made workable, the head and the state are set. *)
Definition New (c : Config) (chainID : option Z) (tip : Z) (head : Header) (s : ChainState) : LegacyPool :=
  let c := sanitize c in
  let sg := NewPanguSigner chainID in
  mkPool c sg tip head s (newNoncer (state_nonce s)) (newAccountSet sg (Locals c))
    (if negb (NoLocals c) && negb (String.eqb (Journal c) EmptyString) then Some (newTxJournal (Journal c)) else None)
    ∅ ∅ ∅ newLookup newPricedList [] 0.

(** ** Validation *)

Record ValidationOptions := mkOptions { Accept : Z; MaxSize : Z; MinTip : Z }.

(** The checks that do not need a state, in order; [None] is a nil error. *)
Definition ValidateTransaction (tx : Transaction) (head : Header) (sg : panguSigner) (opts : ValidationOptions)
  : res (option pool_error) :=
  if Z.land (Accept opts) (Z.shiftl 1 (tx_Type tx)) =? 0 then Ok (Some (TxError ErrTxTypeNotSupported))
  else if MaxSize opts <? fst (tx_Size tx) then Ok (Some ErrOversizedData)
  else if negb (tx_Type tx =? PanguTxType) then Ok (Some (TxError ErrTxTypeNotSupported))
  else if bool_decide (tx_To tx = None) && (MaxInitCodeSize <? Z.of_nat (length (tx_Data tx)))
  then Ok (Some (TxError ErrMaxInitCodeSizeExceeded))
  else
    value ← tx_Value tx;
    if value <? 0 then Ok (Some ErrNegativeValue)
    else if hd_GasLimit head <? tx_GasLimit tx then Ok (Some ErrGasLimit)
    else
      cap ← tx_GasFeeCap tx;
      if 256 <? BitLen cap then Ok (Some (TxError ErrFeeCapVeryHigh))
      else
        tip ← tx_GasTipCap tx;
        if 256 <? BitLen tip then Ok (Some (TxError ErrTipVeryHigh))
        else if big_Cmp cap tip <? 0 then Ok (Some (TxError ErrTipAboveFeeCap))
        else
          s ← sender_res sg tx;
          match s with
          | inl _ => Ok (Some ErrInvalidSender)
          | inr _ =>
              match IntrinsicGas tx with
              | inl e => Ok (Some (TxError e))
              | inr intrGas =>
                  if tx_GasLimit tx <? intrGas then Ok (Some (TxError ErrIntrinsicGas))
                  else if big_Cmp tip (MinTip opts) <? 0 then Ok (Some ErrUnderpriced)
                  else Ok None
              end
          end.

(** The checks against the state and what the account has pooled.  No pool passes
    [FirstNonceGap]. *)
Definition ValidateTransactionWithState (tx : Transaction) (sg : panguSigner) (s : ChainState)
    (ExistingExpenditure : Address → Z) (ExistingCost : Address → Z → res (option Z)) : res (option pool_error) :=
  r ← signer_Sender sg tx;
  match r with
  | inl e => Ok (Some (TxError e))
  | inr from =>
      if tx_Nonce tx <? state_nonce s from then Ok (Some (TxError ErrNonceTooLow))
      else
        cost ← tx_Cost tx;
        let balance := state_balance s from in
        if balance <? cost then Ok (Some (TxError ErrInsufficientFunds))
        else
          let spent := ExistingExpenditure from in
          prev ← ExistingCost from (tx_Nonce tx);
          let need := match (prev : option Z) with
                      | Some prev => spent + (cost - prev)
                      | None => spent + cost
                      end in
          if balance <? need then Ok (Some (TxError ErrInsufficientFunds)) else Ok None
  end.

Definition validateTxBasics (p : LegacyPool) (tx : Transaction) (local : bool) : res (option pool_error) :=
  ValidateTransaction tx (currentHead p) (signer p)
    (mkOptions (Z.shiftl 1 PanguTxType) txMaxSize (if local then 0 else gasTip p)).

Definition validateTx (p : LegacyPool) (tx : Transaction) : res (option pool_error) :=
  ValidateTransactionWithState tx (signer p) (currentState p)
    (λ addr, match pending p !! addr with Some l => totalcost l | None => 0 end)
    (λ addr nonce,
       match (l ← pending p !! addr; sm_Get (txs l) nonce) with
       | Some tx => cost ← tx_Cost tx; Ok (Some cost)
       | None => Ok None
       end).

Definition ValidateTx (p : LegacyPool) (tx : Transaction) (local : bool) : res (option pool_error) :=
  e ← validateTxBasics p tx local;
  match e with
  | Some e => Ok (Some e)
  | None => validateTx p tx
  end.

(** ** Moving transactions *)

(** [enqueueTx]: into the queue of its sender; the result is whether it replaced another. *)
Definition enqueueTx (now : Z) (p : LegacyPool) (tx : Transaction) (local addAll : bool)
  : res (LegacyPool * (pool_error + bool)) :=
  let from := sender (signer p) tx in
  let l := default (newList false) (queue p !! from) in
  '(l, inserted, old) ← list_Add l tx (PriceBump (config p));
  let p := set_queue p (<[from := l]> (queue p)) in
  if negb inserted then Ok (p, inl ErrReplaceUnderpriced)
  else
    let p := match old with
             | Some old => let a := lk_Remove (all p) (hash old) in set_prices p a (priced_Removed a (priced p) 1)
             | None => p
             end in
    let p := if addAll then set_prices p (lk_Add (all p) tx local) (priced_Put (priced p) tx local) else p in
    let p := match beats p !! from with
             | Some _ => p
             | None => set_beats p (<[from := now]> (beats p))
             end in
    Ok (p, inr (bool_decide (is_Some old))).

Definition journalTx (p : LegacyPool) (from : Address) (tx : Transaction) : LegacyPool :=
  match journal p with
  | Some j => if as_contains (locals p) from then set_logs p (Some (fst (journal_insert j tx))) (events p) else p
  | None => p
  end.

(** [promoteTx]: into the pending list of the account. *)
Definition promoteTx (now : Z) (p : LegacyPool) (addr : Address) (h : Hash) (tx : Transaction)
  : res (LegacyPool * bool) :=
  let l := default (newList true) (pending p !! addr) in
  '(l, inserted, old) ← list_Add l tx (PriceBump (config p));
  let p := set_pending p (<[addr := l]> (pending p)) in
  if negb inserted then
    let a := lk_Remove (all p) h in Ok (set_prices p a (priced_Removed a (priced p) 1), false)
  else
    let p := match old with
             | Some old => let a := lk_Remove (all p) (hash old) in set_prices p a (priced_Removed a (priced p) 1)
             | None => p
             end in
    let p := set_nonces p (noncer_set (pendingNonces p) addr (tx_Nonce tx + 1)%u64) in
    Ok (set_beats p (<[addr := now]> (beats p)), true).

(** The transactions behind a removed one go back to the queue. *)
Definition requeue (now : Z) (p : LegacyPool) (invalids : list Transaction) : res LegacyPool :=
  fold_res (λ p tx, '(p, _) ← enqueueTx now p tx false false; Ok p) p invalids.

(** [removeTx]: the number of transactions that left the pending list. *)
Definition removeTx (now : Z) (p : LegacyPool) (h : Hash) (outofbound : bool) : res (LegacyPool * Z) :=
  match lk_Get (all p) h with
  | None => Ok (p, 0)
  | Some tx =>
      let addr := sender (signer p) tx in
      let a := lk_Remove (all p) h in
      let p := set_prices p a (if outofbound then priced_Removed a (priced p) 1 else priced p) in
      let from_queue (p : LegacyPool) :=
        match queue p !! addr with
        | Some future =>
            '(future, _, _) ← list_Remove future tx;
            if list_Empty future
            then Ok (set_beats (set_queue p (delete addr (queue p))) (delete addr (beats p)), 0)
            else Ok (set_queue p (<[addr := future]> (queue p)), 0)
        | None => Ok (p, 0)
        end in
      match pending p !! addr with
      | Some l =>
          '(l, removed, invalids) ← list_Remove l tx;
          if (removed : bool) then
            let p := set_pending p (if list_Empty l then delete addr (pending p) else <[addr := l]> (pending p)) in
            p ← requeue now p invalids;
            Ok (set_nonces p (setIfLower (pendingNonces p) addr (tx_Nonce tx)), 1 + Z.of_nat (length invalids))
          else from_queue (set_pending p (<[addr := l]> (pending p)))
      | None => from_queue p
      end
  end.

(** [isGapped]: the queue does not fill the nonces up to the transaction. *)
Definition isGapped (p : LegacyPool) (from : Address) (tx : Transaction) : LegacyPool * bool :=
  let '(n, next) := noncer_get (pendingNonces p) from in
  let p := set_nonces p n in
  (p, if tx_Nonce tx <=? next then false
      else match queue p !! from with
           | None => true
           | Some q => negb (forallb (list_Contains q) (seqZ next (tx_Nonce tx - next)))
           end).

(** ** Adding *)

(** Is a transaction to be dropped in one of the pending lists? *)
Definition in_pending (p : LegacyPool) (tx : Transaction) : bool :=
  match pending p !! sender (signer p) tx with
  | Some l => list_Contains l (tx_Nonce tx)
  | None => false
  end.

(** A transaction that was discarded leaves the pool. *)
Definition evict_for_room (now : Z) (p : LegacyPool) (tx : Transaction) : res LegacyPool :=
  '(p, dropped) ← removeTx now p (hash tx) false;
  Ok (set_changes p (changesSinceReorg p + dropped)).

(** Making room in a full pool: the error for which the transaction is refused, if any. *)
Definition make_room (now : Z) (p : LegacyPool) (tx : Transaction) (isLocal : bool) : res (LegacyPool * option pool_error) :=
  let limit := (GlobalSlots (config p) + GlobalQueue (config p))%u64 in
  if slots (all p) + numSlots tx <=? limit then Ok (p, None)
  else
    let '(pr, under) := if isLocal then (priced p, false) else Underpriced (all p) (priced p) tx in
    let p := set_priced p pr in
    if under then Ok (p, Some ErrUnderpriced)
    else if GlobalSlots (config p) / 4 <? changesSinceReorg p then Ok (p, Some ErrTxPoolOverflow)
    else
      match Discard (all p) (priced p) (slots (all p) - to_int64 limit + numSlots tx) isLocal with
      | None => Panic "no more rounds"
      | Some (pr, drop, success) =>
          let p := set_priced p pr in
          if negb isLocal && negb success then Ok (p, Some ErrTxPoolOverflow)
          else
            let '(p, gapped) := if isLocal then (p, false) else isGapped p (sender (signer p) tx) tx in
            if gapped && existsb (in_pending p) drop then
              Ok (set_priced p (foldl (λ pr tx, priced_Put pr tx false) (priced p) drop), Some ErrFutureReplacePending)
            else
              p ← fold_res (evict_for_room now) p drop; Ok (p, None)
      end.

(** The end of [add]: the transaction replaces no pending one. *)
Definition add_queued (now : Z) (p : LegacyPool) (tx : Transaction) (from : Address) (local isLocal : bool)
  : res (LegacyPool * (pool_error + bool)) :=
  '(p, r) ← enqueueTx now p tx isLocal true;
  match (r : pool_error + bool) with
  | inl e => Ok (p, inl e)
  | inr replaced =>
      let p :=
        if local && negb (as_contains (locals p) from) then
          let p := set_locals p (as_add (locals p) from) in
          let '(a, migrated) := RemoteToLocals (all p) (locals p) in
          set_prices p a (priced_Removed a (priced p) migrated)
        else p in
      Ok (journalTx p from tx, inr replaced)
  end.

(** [add]: the result is whether a transaction was replaced. *)
Definition add (now : Z) (p : LegacyPool) (tx : Transaction) (local : bool) : res (LegacyPool * (pool_error + bool)) :=
  '(h, _) ← tx_Hash tx;
  if bool_decide (is_Some (lk_Get (all p) h)) then Ok (p, inl ErrAlreadyKnown)
  else
    _ ← (if local then Ok (inr 0) else sender_res (signer p) tx);
    let isLocal := local || containsTx (locals p) tx in
    e ← validateTx p tx;
    match e with
    | Some e => Ok (p, inl e)
    | None =>
        let from := sender (signer p) tx in
        '(p, e) ← make_room now p tx isLocal;
        match e with
        | Some e => Ok (p, inl e)
        | None =>
            match pending p !! from with
            | Some l =>
                if list_Contains l (tx_Nonce tx) then
                  '(l, inserted, old) ← list_Add l tx (PriceBump (config p));
                  let p := set_pending p (<[from := l]> (pending p)) in
                  if negb inserted then Ok (p, inl ErrReplaceUnderpriced)
                  else
                    let p := match old with
                             | Some old => let a := lk_Remove (all p) (hash old) in set_prices p a (priced_Removed a (priced p) 1)
                             | None => p
                             end in
                    let p := set_prices p (lk_Add (all p) tx isLocal) (priced_Put (priced p) tx isLocal) in
                    let p := journalTx p from tx in
                    let p := set_logs p (journal p) (events p ++ [tx]) in
                    Ok (set_beats p (<[from := now]> (beats p)), inr (bool_decide (is_Some old)))
                else add_queued now p tx from local isLocal
            | None => add_queued now p tx from local isLocal
            end
        end
    end.

(** One transaction of a batch: its error, and its account if the transaction is new. *)
Definition add_step (now : Z) (local : bool) (acc : LegacyPool * list (option pool_error) * accountSet) (tx : Transaction)
  : res (LegacyPool * list (option pool_error) * accountSet) :=
  let '(p, errs, dirty) := acc in
  '(p, r) ← add now p tx local;
  match (r : pool_error + bool) with
  | inl e => Ok (p, errs ++ [Some e], dirty)
  | inr replaced => Ok (p, errs ++ [None], if replaced then dirty else addTx dirty tx)
  end.

(** [addTxsLocked]: the errors, and the accounts with a transaction that is new. *)
Definition addTxsLocked (now : Z) (p : LegacyPool) (txs : list Transaction) (local : bool)
  : res (LegacyPool * list (option pool_error) * accountSet) :=
  fold_res (add_step now local) (p, [], newAccountSet (signer p) []) txs.

(** The error of a transaction that is refused before the lock is taken. *)
Definition precheck (p : LegacyPool) (tx : Transaction) (local : bool) : res (option pool_error) :=
  '(h, _) ← tx_Hash tx;
  if bool_decide (is_Some (lk_Get (all p) h)) then Ok (Some ErrAlreadyKnown) else validateTxBasics p tx local.

(** The results of the second stage fill the slots without an error. *)
Fixpoint fill (errs newErrs : list (option pool_error)) : list (option pool_error) :=
  match errs with
  | [] => []
  | Some e :: errs => Some e :: fill errs newErrs
  | None :: errs => match newErrs with e :: newErrs => e :: fill errs newErrs | [] => None :: errs end
  end.

(** [addTxs] up to the request for promotion: the errors and the dirty accounts. *)
Definition addTxs (now : Z) (p : LegacyPool) (txs : list Transaction) (local : bool)
  : res (LegacyPool * list (option pool_error) * option accountSet) :=
  errs ← mapM (λ tx, precheck p tx local) txs;
  let news := omap (λ '(tx, e), match e with None => Some tx | Some _ => None end) (zip txs errs) in
  match news with
  | [] => Ok (p, errs, None)
  | _ =>
      '(p, newErrs, dirty) ← addTxsLocked now p news local;
      Ok (p, fill errs newErrs, Some dirty)
  end.

(** ** Promotion and demotion *)

Definition remove_all (p : LegacyPool) (dropped : list Transaction) : LegacyPool :=
  set_all p (foldl (λ a tx, lk_Remove a (hash tx)) (all p) dropped).

Definition promote_step (now : Z) (addr : Address) (acc : LegacyPool * list Transaction) (tx : Transaction)
  : res (LegacyPool * list Transaction) :=
  let '(p, promoted) := acc in
  '(p, ok) ← promoteTx now p addr (hash tx) tx;
  Ok (p, if (ok : bool) then promoted ++ [tx] else promoted).

Definition promote_account (now : Z) (p : LegacyPool) (addr : Address) : res (LegacyPool * list Transaction) :=
  match queue p !! addr with
  | None => Ok (p, [])
  | Some l =>
      '(l, forwards) ← list_Forward l (state_nonce (currentState p) addr);
      let p := remove_all p forwards in
      '(l, drops, _) ← list_Filter l (state_balance (currentState p) addr) (hd_GasLimit (currentHead p));
      let p := remove_all p drops in
      let '(n, next) := noncer_get (pendingNonces p) addr in
      let p := set_nonces p n in
      '(l, readies) ← list_Ready l next;
      '(p, promoted) ← fold_res (promote_step now addr) (p, []) readies;
      '(p, l, caps) ←
        (if as_contains (locals p) addr then Ok (p, l, [])
         else '(l, caps) ← list_Cap l (to_int64 (AccountQueue (config p))); Ok (remove_all p caps, l, caps));
      let p := set_priced p (priced_Removed (all p) (priced p)
                 (Z.of_nat (length forwards + length drops + length caps))) in
      if list_Empty l
      then Ok (set_beats (set_queue p (delete addr (queue p))) (delete addr (beats p)), promoted)
      else Ok (set_queue p (<[addr := l]> (queue p)), promoted)
  end.

Definition promoteExecutables (now : Z) (p : LegacyPool) (accounts : list Address) : res (LegacyPool * list Transaction) :=
  foldl (λ (acc : res (LegacyPool * list Transaction)) addr,
    '(p, promoted) ← acc;
    '(p, more) ← promote_account now p addr; Ok (p, promoted ++ more)) (Ok (p, [])) accounts.

Definition demote_account (now : Z) (p : LegacyPool) (addr : Address) : res LegacyPool :=
  match pending p !! addr with
  | None => Ok p
  | Some l =>
      let nonce := state_nonce (currentState p) addr in
      '(l, olds) ← list_Forward l nonce;
      let p := remove_all p olds in
      '(l, drops, invalids) ← list_Filter l (state_balance (currentState p) addr) (hd_GasLimit (currentHead p));
      let p := remove_all p drops in
      p ← requeue now p invalids;
      '(p, l) ← (if (0 <? list_Len l) && bool_decide (sm_Get (txs l) nonce = None)
                 then '(l, gapped) ← list_Cap l 0; p ← requeue now p gapped; Ok (p, l)
                 else Ok (p, l));
      Ok (set_pending p (if list_Empty l then delete addr (pending p) else <[addr := l]> (pending p)))
  end.

Definition demoteUnexecutables (now : Z) (p : LegacyPool) : res LegacyPool :=
  foldl (λ (acc : res LegacyPool) addr, p ← acc; demote_account now p addr) (Ok p) (range_map (pending p)).*1.
End pool.
