(* ===== verification/PoolInv.v ===== *)
(** * The pool: what its parts agree on

    [pool_ok p P Q T D]: the pending lists of the pool are those of [P], the queues those of
    [Q], each in nonce order and with the transactions of its account; no two transactions
    have the same sender and nonce; the lookup holds exactly the transactions of [P], [Q] and
    those in transit between lists ([T]); the price heaps cover the remote ones but those
    being evicted ([D]).  Every step of an operation is shown to move transactions between
    these parts; between operations nothing is in transit. *)

From S2P Require Import Prelude Bytes Params Common Heap Types StateDB Blocks.
From S2P Require Import PoolList PoolListProps PoolListRefine PoolAccount PoolPrice PoolPriceProps Pool.

(** ** Maps of lists *)

Definition values (M : gmap Address (list Transaction)) : list Transaction := concat (map_to_list M).*2.

#[global] Instance concat_perm {A} : Proper (Permutation ==> Permutation) (@concat A).
Proof. intros l k Hp. induction Hp; cbn; [done|by rewrite IHHp|solve_Permutation|by etrans]. Qed.

Lemma values_delete M a l : M !! a = Some l → values M ≡ₚ l ++ values (delete a M).
Proof. intros Ha. unfold values. by rewrite <- (map_to_list_delete M a l Ha). Qed.

Lemma values_split M a : values M ≡ₚ default [] (M !! a) ++ values (delete a M).
Proof. destruct (M !! a) as [l|] eqn:E; [by apply values_delete|]. by rewrite delete_id. Qed.

Lemma values_insert M a l : values (<[a := l]> M) ≡ₚ l ++ values (delete a M).
Proof. rewrite (values_delete _ a l) by apply lookup_insert_eq. by rewrite delete_insert_eq. Qed.

Lemma elem_of_values_intro M a l tx : M !! a = Some l → tx ∈ l → tx ∈ values M.
Proof. intros Ha Hin. rewrite (values_delete M a l Ha). set_solver. Qed.

Lemma elem_of_list_values M tx : tx ∈ values M ↔ ∃ a l, M !! a = Some l ∧ tx ∈ l.
Proof.
  split.
  - unfold values. rewrite list_elem_of_In, in_concat. intros (l & Hl & Hin). apply list_elem_of_In in Hl, Hin.
    apply list_elem_of_fmap in Hl as ([a l'] & -> & Hl). exists a, l'. split; [|done]. by apply elem_of_map_to_list.
  - intros (a & l & Hl & Hin). by apply (elem_of_values_intro M a l).
Qed.

Section inv.
Context `{Crypto} `{GoRuntime}.

Definition slot (sg : panguSigner) (tx : Transaction) : Address * Z := (sender sg tx, tx_Nonce tx).
Definition content (P Q : gmap Address (list Transaction)) (T : list Transaction) : list Transaction :=
  T ++ values P ++ values Q.

(** A list of an account. *)
Record account_list (st : bool) (sg : panguSigner) (a : Address) (L : tlist) (l : list Transaction) : Prop := {
  al_stands : stands_for L l;
  al_strict : strict L = st;
  al_sender : Forall (λ tx, sender sg tx = a) l;
  al_nonempty : l ≠ [];
}.
Definition lists_match (st : bool) (sg : panguSigner) (m : gmap Address tlist) (M : gmap Address (list Transaction)) : Prop :=
  ∀ a, option_Forall2 (account_list st sg a) (m !! a) (M !! a).

(** The limit of a queue is converted to an [int]; [sanitize] does not bound it. *)
Definition config_ok (c : Config) : Prop :=
  1 <= AccountSlots c ∧ 0 <= AccountQueue c < 2 ^ 63 ∧ u64_ok (GlobalSlots c) ∧ u64_ok (GlobalQueue c).

(** What a list of the pool takes: a [uint64] nonce, and no nil amount. *)
Definition storable (tx : Transaction) : Prop := u64_ok (tx_Nonce tx) ∧ has_amounts tx.

Lemma stands_for_storable L l : stands_for L l → Forall storable l.
Proof. intros HL. apply Forall_and. split; [apply (sf_nonces _ _ _ HL)|apply (sf_amounts _ _ _ HL)]. Qed.

Record pool_ok (p : LegacyPool) (P Q : gmap Address (list Transaction)) (T D : list Transaction) : Prop := {
  po_config : config_ok (config p);
  po_pending : lists_match true (signer p) (pending p) P;
  po_queue : lists_match false (signer p) (queue p) Q;
  po_transit : Forall storable T;
  po_unique : NoDup (slot (signer p) <$> content P Q T);
  po_all : lookup_ok (all p) (content P Q T);
  po_priced : priced_ok D (all p) (priced p);
}.

(** Only these parts matter. *)
Lemma pool_ok_ext p p' P Q T D :
  config p' = config p → signer p' = signer p → pending p' = pending p → queue p' = queue p → all p' = all p → priced p' = priced p →
  pool_ok p P Q T D → pool_ok p' P Q T D.
Proof. intros E1 E2 E3 E4 E5 E6 []. split; by rewrite ?E1, ?E2, ?E3, ?E4, ?E5, ?E6. Qed.

Lemma lists_match_Some st sg m M a L :
  lists_match st sg m M → m !! a = Some L → ∃ l, M !! a = Some l ∧ account_list st sg a L l.
Proof. intros Hm Ha. specialize (Hm a). rewrite Ha in Hm. inversion Hm; eauto. Qed.
Lemma lists_match_None st sg m M a : lists_match st sg m M → m !! a = None → M !! a = None.
Proof. intros Hm Ha. specialize (Hm a). rewrite Ha in Hm. by inversion Hm. Qed.
Lemma lists_match_insert st sg m M a L l :
  lists_match st sg m M → account_list st sg a L l → lists_match st sg (<[a := L]> m) (<[a := l]> M).
Proof.
  intros Hm Hl b. destruct (decide (a = b)) as [<-|]; [rewrite !lookup_insert_eq; by constructor|].
  by rewrite !lookup_insert_ne.
Qed.
Lemma lists_match_delete st sg m M a : lists_match st sg m M → lists_match st sg (delete a m) (delete a M).
Proof.
  intros Hm b. destruct (decide (a = b)) as [<-|]; [rewrite !lookup_delete_eq; constructor|]. by rewrite !lookup_delete_ne.
Qed.

(** What is left of a list is put back, or the entry is deleted when nothing is. *)
Definition put_back (m : gmap Address tlist) (a : Address) (L : tlist) : gmap Address tlist :=
  if list_Empty L then delete a m else <[a := L]> m.
Definition keep (M : gmap Address (list Transaction)) (a : Address) (l : list Transaction) : gmap Address (list Transaction) :=
  match l with [] => delete a M | _ => <[a := l]> M end.

Lemma values_keep M a l : values (keep M a l) ≡ₚ l ++ values (delete a M).
Proof. destruct l as [|x l]; [done|]. apply values_insert. Qed.

Lemma put_back_match st sg m M a L l :
  lists_match st sg m M → stands_for L l → strict L = st → Forall (λ tx, sender sg tx = a) l →
  lists_match st sg (put_back m a L) (keep M a l).
Proof.
  intros Hm HL Hs Hf. unfold put_back. rewrite (list_Empty_account L l HL). destruct l as [|x l].
  - by apply lists_match_delete.
  - apply lists_match_insert; [done|]. by split.
Qed.

(** Transactions that leave a pending list are in transit. *)
Lemma pending_shrinks p P Q T D a l L' l' r :
  pool_ok p P Q T D → P !! a = Some l → stands_for L' l' → strict L' = true → l ≡ₚ l' ++ r →
  pool_ok (set_pending p (put_back (pending p) a L')) (keep P a l') Q (r ++ T) D.
Proof.
  intros [Hcfg Hp Hq HT Hu Ha Hpr] HP HL Hs Hl. pose proof (Hp a) as Hpa. rewrite HP in Hpa. inversion Hpa as [L ? HLl|]; subst.
  assert (content (keep P a l') Q (r ++ T) ≡ₚ content P Q T) as Hc.
  { unfold content. rewrite values_keep, (values_delete P a l HP), Hl. solve_Permutation. }
  destruct HLl as [HLs _ Hsend _]. rewrite Hl in Hsend. apply Forall_app in Hsend as [Hs1 Hs2].
  split; cbn; [done|by apply put_back_match|done| |by rewrite Hc|by eapply lookup_ok_perm|done].
  apply Forall_app. split; [|done]. pose proof (stands_for_storable _ _ HLs) as Hn. rewrite Hl in Hn. by apply Forall_app in Hn as [_ ?].
Qed.

Lemma queue_shrinks p P Q T D a l L' l' r :
  pool_ok p P Q T D → Q !! a = Some l → stands_for L' l' → strict L' = false → l ≡ₚ l' ++ r →
  pool_ok (set_queue p (put_back (queue p) a L')) P (keep Q a l') (r ++ T) D.
Proof.
  intros [Hcfg Hp Hq HT Hu Ha Hpr] HQ HL Hs Hl. pose proof (Hq a) as Hqa. rewrite HQ in Hqa. inversion Hqa as [L ? HLl|]; subst.
  assert (content P (keep Q a l') (r ++ T) ≡ₚ content P Q T) as Hc.
  { unfold content. rewrite values_keep, (values_delete Q a l HQ), Hl. solve_Permutation. }
  destruct HLl as [HLs _ Hsend _]. rewrite Hl in Hsend. apply Forall_app in Hsend as [Hs1 Hs2].
  split; cbn; [done|done|by apply put_back_match| |by rewrite Hc|by eapply lookup_ok_perm|done].
  apply Forall_app. split; [|done]. pose proof (stands_for_storable _ _ HLs) as Hn. rewrite Hl in Hn. by apply Forall_app in Hn as [_ ?].
Qed.

(** ** Between the lists *)

Lemma unique_slot sg (l : list Transaction) tx x :
  NoDup (slot sg <$> tx :: l) → x ∈ l → sender sg x = sender sg tx → tx_Nonce x ≠ tx_Nonce tx.
Proof.
  cbn. intros [Hn _]%NoDup_cons Hin Hs Heq. apply Hn, list_elem_of_fmap. exists x. split; [|done]. unfold slot. congruence.
Qed.

(** The nonce of a transaction in transit is free in the lists of its account. *)
Lemma transit_fresh sg st m M tx C a L l :
  lists_match st sg m M → m !! a = Some L → M !! a = Some l → account_list st sg a L l → a = sender sg tx →
  NoDup (slot sg <$> tx :: C) → values M ⊆ C → tx_Nonce tx ∉ tx_Nonce <$> l.
Proof.
  intros Hm Ha HM Hl -> Hu Hsub (x & Heq & Hx)%list_elem_of_fmap.
  apply (unique_slot sg C tx x Hu); [|by apply (proj1 (Forall_forall _ _) (al_sender _ _ _ _ _ Hl))|done].
  apply Hsub. by apply (elem_of_values_intro M (sender sg tx) l).
Qed.

(** A transaction in transit goes into the list of its account. *)
Lemma add_transit st sg m M tx C bump :
  lists_match st sg m M → NoDup (slot sg <$> tx :: C) → values M ⊆ C → storable tx →
  let a := sender sg tx in
  ∃ L' l', list_Add (default (newList st) (m !! a)) tx bump = Ok (L', true, None) ∧
    lists_match st sg (<[a := L']> m) (<[a := l']> M) ∧ values (<[a := l']> M) ≡ₚ tx :: values M.
Proof.
  intros Hm Hu Hsub [Hn Ham] a. destruct (m !! a) as [L|] eqn:Ea; cbn [default].
  - destruct (lists_match_Some _ _ _ _ _ _ Hm Ea) as (l & HM & Hl). destruct (Hl) as [HL Hs Hf _].
    destruct (list_Add_new L l tx bump HL Hn Ham) as (L' & E & Hs' & HL' & Hp);
      [by apply (transit_fresh sg st m M tx C a L l)|].
    exists L', (put tx l). split; [done|]. split.
    + apply lists_match_insert; [done|]. split; [done|congruence| |]; [rewrite Hp; by constructor|].
      intros Hnil. rewrite Hnil in Hp. by apply Permutation_nil_l in Hp.
    + rewrite values_insert, Hp, (values_delete M a l HM). done.
  - pose proof (lists_match_None _ _ _ _ _ Hm Ea) as HM.
    destruct (list_Add_new (newList st) [] tx bump (newList_stands_for st) Hn Ham) as (L' & E & Hs' & HL' & Hp); [set_solver|].
    exists L', (put tx []). split; [done|]. split.
    + apply lists_match_insert; [done|]. split; [done|done| |]; [rewrite Hp; by repeat constructor|]. intros Hnil. rewrite Hnil in Hp. by apply Permutation_nil_l in Hp.
    + rewrite values_insert, Hp, delete_id by done. done.
Qed.

Lemma enqueue_transit now p P Q T D tx :
  pool_ok p P Q (tx :: T) D →
  ∃ p' r L l, enqueueTx now p tx false false = Ok (p', r) ∧
    pool_ok p' P (<[sender (signer p) tx := l]> Q) T D ∧ queue p' = <[sender (signer p) tx := L]> (queue p) ∧
    pending p' = pending p ∧ all p' = all p ∧ signer p' = signer p.
Proof.
  intros [Hcfg Hp Hq HT Hu Ha Hpr]. inversion HT as [|? ? Hn HT']; subst. unfold enqueueTx.
  destruct (add_transit false (signer p) (queue p) Q tx (T ++ values P ++ values Q) (PriceBump (config p)) Hq Hu) as (L' & l' & E & Hq' & Hv);
    [set_solver|done|]. rewrite E. cbn [mbind res_bind negb]. eexists _, _, L', l'. split; [done|].
  assert (content P (<[sender (signer p) tx:=l']> Q) T ≡ₚ content P Q (tx :: T)) as Hc by (unfold content; rewrite Hv; solve_Permutation).
  assert (pool_ok (set_queue p (<[sender (signer p) tx:=L']> (queue p))) P (<[sender (signer p) tx:=l']> Q) T D) as Hok.
  { split; cbn; [done..|by rewrite Hc|by eapply lookup_ok_perm|done]. }
  cbn [beats set_queue set_lists]. destruct (beats p !! _); [done|]. split; [|done]. by eapply pool_ok_ext; [..|exact Hok].
Qed.

Lemma requeue_ok now txs : ∀ p P Q T D, pool_ok p P Q (txs ++ T) D →
  ∃ p' Q', requeue now p txs = Ok p' ∧
    pool_ok p' P Q' T D ∧ signer p' = signer p ∧ pending p' = pending p ∧ all p' = all p ∧
    (∀ b, (∀ tx, tx ∈ txs → sender (signer p) tx ≠ b) → queue p' !! b = queue p !! b).
Proof.
  unfold requeue. induction txs as [|tx txs IH]; intros p P Q T D Hok; cbn [fold_res app] in *; [by exists p, Q|].
  destruct (enqueue_transit now p P Q _ D tx Hok) as (p1 & r & L & l & -> & Hok1 & Eq & Ep & Ea & Es). cbn [mbind res_bind].
  destruct (IH _ _ _ _ _ Hok1) as (p2 & Q' & -> & Hok2 & Es2 & Ep2 & Ea2 & Hq). exists p2, Q'.
  split_and!; [done|done|congruence..|]. intros b Hb. rewrite Hq by (intros x Hx; rewrite Es; apply Hb; set_solver).
  rewrite Eq, lookup_insert_ne; [done|]. apply Hb. set_solver.
Qed.

(** A transaction in transit is promoted. *)
Lemma promote_transit now p P Q T D tx h :
  pool_ok p P Q (tx :: T) D →
  ∃ p' P', promoteTx now p (sender (signer p) tx) h tx = Ok (p', true) ∧
    pool_ok p' P' Q T D ∧ queue p' = queue p ∧ signer p' = signer p.
Proof.
  intros [Hcfg Hp Hq HT Hu Ha Hpr]. inversion HT as [|? ? Hn HT']; subst. unfold promoteTx.
  destruct (add_transit true (signer p) (pending p) P tx (T ++ values P ++ values Q) (PriceBump (config p)) Hp Hu) as (L' & l' & E & Hp' & Hv);
    [set_solver|done|]. rewrite E. cbn [mbind res_bind negb]. eexists _, (<[sender (signer p) tx:=l']> P). split; [done|].
  assert (content (<[sender (signer p) tx:=l']> P) Q T ≡ₚ content P Q (tx :: T)) as Hc by (unfold content; rewrite Hv; solve_Permutation).
  split; [|done]. split; cbn; [done..|by rewrite Hc|by eapply lookup_ok_perm|done].
Qed.

(** Transactions in transit are dropped. *)
Lemma remove_all_remotes ds : ∀ t, lk_remotes (foldl (λ a tx, lk_Remove a (hash tx)) t ds) ⊆ lk_remotes t.
Proof. induction ds as [|x ds IH]; intros t; cbn [foldl]; [done|]. etrans; [apply IH|apply lk_Remove_remotes]. Qed.

Lemma remove_all_ok p P Q ds T D : pool_ok p P Q (ds ++ T) D → pool_ok (remove_all p ds) P Q T D.
Proof.
  intros [Hcfg Hp Hq HT Hu Ha Hpr]. apply Forall_app in HT as [_ HT]. unfold content in *. rewrite <- app_assoc in *.
  split; cbn; try done.
  - rewrite fmap_app in Hu. by apply NoDup_app in Hu as (_ & _ & ?).
  - by apply lk_Remove_all_ok.
  - eapply priced_ok_sub; [apply remove_all_remotes|done].
Qed.

Lemma priced_step p P Q T D D' pr :
  pool_ok p P Q T D → priced_ok D' (all p) pr → pool_ok (set_priced p pr) P Q T D'.
Proof. intros [] Hpr. by split. Qed.

Lemma removed_ok p P Q T D n : pool_ok p P Q T D → pool_ok (set_priced p (priced_Removed (all p) (priced p) n)) P Q T D.
Proof. intros Hok. eapply priced_step; [done|]. apply priced_Removed_ok, Hok. Qed.

(** ** Removing a transaction *)

Lemma drop_transit p P Q tx T D ob :
  pool_ok p P Q (tx :: T) D →
  let a := lk_Remove (all p) (hash tx) in
  pool_ok (set_prices p a (if (ob : bool) then priced_Removed a (priced p) 1 else priced p)) P Q T D.
Proof.
  intros Hok. pose proof (remove_all_ok p P Q [tx] T D Hok) as Hr. cbn [remove_all foldl] in Hr.
  destruct ob; [|exact Hr]. exact (removed_ok _ _ _ _ _ 1 Hr).
Qed.

Lemma in_content_list st sg m M tx :
  lists_match st sg m M → tx ∈ values M →
  ∃ L l, m !! sender sg tx = Some L ∧ M !! sender sg tx = Some l ∧ account_list st sg (sender sg tx) L l ∧ tx ∈ l.
Proof.
  intros Hm (a & l & HM & Hin)%elem_of_list_values. pose proof (Hm a) as Ha. rewrite HM in Ha. inversion Ha as [L ? Hl E|]; subst.
  pose proof (proj1 (Forall_forall _ _) (al_sender _ _ _ _ _ Hl) tx Hin) as <-. by exists L, l.
Qed.

Definition untouched (p p' : LegacyPool) (b : Address) : Prop :=
  queue p' !! b = queue p !! b ∧ pending p' !! b = pending p !! b.

Lemma lk_Remove_gone t h : lk_Get (lk_Remove t h) h = None.
Proof.
  unfold lk_Remove. destruct (lk_Get t h) eqn:E; [|done]. unfold lk_Get. cbn [lk_locals lk_remotes]. by rewrite !lookup_delete_eq.
Qed.
Lemma lk_Remove_None t h h' : lk_Get t h' = None → lk_Get (lk_Remove t h) h' = None.
Proof.
  intros Hn. unfold lk_Remove. destruct (lk_Get t h) eqn:E; [|done]. unfold lk_Get in *. cbn [lk_locals lk_remotes].
  destruct (decide (h = h')) as [<-|]; [by rewrite !lookup_delete_eq|]. by rewrite !lookup_delete_ne.
Qed.

(** Out of the pending list of its account: what comes behind it goes back to the queue. *)
Lemma remove_pending now p P Q D tx ob L l :
  pool_ok p P Q [] D → pending p !! sender (signer p) tx = Some L → P !! sender (signer p) tx = Some l →
  account_list true (signer p) (sender (signer p) tx) L l → tx ∈ l → lk_Get (all p) (hash tx) = Some tx →
  ∃ p' n P' Q', removeTx now p (hash tx) ob = Ok (p', n) ∧ pool_ok p' P' Q' [] D ∧ signer p' = signer p ∧ all p' = lk_Remove (all p) (hash tx) ∧
    ∀ b, sender (signer p) tx ≠ b → untouched p p' b.
Proof.
  intros Hok HL HP Hl Hin Hg. set (a := sender (signer p) tx) in *. unfold removeTx. rewrite Hg.
  cbn [signer pending set_prices]. fold a. rewrite HL.
  destruct (list_Remove_account L l tx (al_stands _ _ _ _ _ Hl) Hin) as (L' & kept & inv & -> & Hs & HL' & Hp & _).
  pose proof (pending_shrinks p P Q [] D a l L' kept (tx :: inv) Hok HP HL') as H1.
  rewrite Hs, (al_strict _ _ _ _ _ Hl) in H1. specialize (H1 eq_refl). rewrite app_nil_r in H1.
  specialize (H1 ltac:(by rewrite Hp, <- Permutation_middle)).
  pose proof (drop_transit _ _ _ _ _ _ ob H1) as H2. cbn [all priced set_pending set_lists] in H2. rewrite <- (app_nil_r inv) in H2.
  destruct (requeue_ok now inv _ _ _ _ _ H2) as (p2 & Q' & E2 & H3 & Es & Ep & Ea & Hq).
  cbn [mbind res_bind]. cbn [pending set_prices] in *. fold (put_back (pending p) a L').
  change (set_pending (set_prices p ?x ?y) ?z) with (set_prices (set_pending p z) x y). rewrite E2. cbn [mbind res_bind].
  eexists _, _, (keep P a kept), Q'. split; [done|]. split; [by eapply pool_ok_ext; [..|exact H3]|].
  cbn [signer all queue pending set_nonces]. split; [exact Es|]. split; [exact Ea|]. intros b Hb. split.
  - etrans; [apply Hq|done]. intros x Hx. cbn [signer set_prices set_pending set_lists].
    rewrite (proj1 (Forall_forall _ _) (al_sender _ _ _ _ _ Hl) x); [done|]. rewrite Hp. set_solver.
  - refine (eq_trans (f_equal (λ m, m !! b) Ep) _). cbn [pending set_prices set_pending set_lists]. unfold put_back.
      destruct (list_Empty L'); [by rewrite lookup_delete_ne|by rewrite lookup_insert_ne].
Qed.

(** Out of the queue of its account. *)
Lemma remove_queued now p P Q D tx ob L l :
  pool_ok p P Q [] D → queue p !! sender (signer p) tx = Some L → Q !! sender (signer p) tx = Some l →
  account_list false (signer p) (sender (signer p) tx) L l → tx ∈ l → lk_Get (all p) (hash tx) = Some tx →
  ∃ p' n Q', removeTx now p (hash tx) ob = Ok (p', n) ∧ pool_ok p' P Q' [] D ∧ signer p' = signer p ∧ all p' = lk_Remove (all p) (hash tx) ∧
    ∀ b, sender (signer p) tx ≠ b → untouched p p' b.
Proof.
  intros Hok HL HQ Hl Hin Hg. set (a := sender (signer p) tx) in *.
  assert (∀ Lp, pending p !! a = Some Lp → list_Remove Lp tx = Ok (Lp, false, [])) as Hpend.
  { intros Lp HLp. destruct (lists_match_Some _ _ _ _ _ _ (po_pending _ _ _ _ _ Hok) HLp) as (lp & HP & Hlp).
    apply (list_Remove_absent Lp lp); [apply Hlp|]. intros (x & Heq & Hx)%list_elem_of_fmap.
    pose proof (po_unique _ _ _ _ _ Hok) as Hu. unfold content in Hu. cbn [app] in Hu.
    rewrite (values_delete Q a l HQ), (values_delete P a lp HP) in Hu. rewrite !fmap_app in Hu.
    apply NoDup_app in Hu as (_ & Hdis & _). apply (Hdis (slot (signer p) x)).
    - apply elem_of_app. left. by apply list_elem_of_fmap_2.
    - apply elem_of_app. left. apply list_elem_of_fmap. exists tx. split; [|done]. unfold slot. rewrite <- Heq. f_equal.
      by rewrite (proj1 (Forall_forall _ _) (al_sender _ _ _ _ _ Hlp) x Hx). }
  destruct (list_Remove_account L l tx (al_stands _ _ _ _ _ Hl) Hin) as (L' & kept & inv & E & Hs & HL' & Hp & Hinv).
  rewrite (al_strict _ _ _ _ _ Hl) in Hs, Hinv. specialize (Hinv eq_refl) as ->. rewrite app_nil_r in Hp.
  pose proof (queue_shrinks p P Q [] D a l L' kept [tx] Hok HQ HL' Hs ltac:(by rewrite Hp, Permutation_app_comm)) as H1.
  pose proof (drop_transit _ _ _ _ _ _ ob H1) as H2. cbn [all priced set_queue set_lists] in H2.
  unfold removeTx. rewrite Hg. cbn [signer pending set_prices]. fold a.
  assert (∀ p1, pool_ok p1 P (keep Q a kept) [] D → signer p1 = signer p → all p1 = lk_Remove (all p) (hash tx) → pending p1 = pending p →
    queue p1 = put_back (queue p) a L' →
    pool_ok p1 P (keep Q a kept) [] D ∧ signer p1 = signer p ∧ all p1 = lk_Remove (all p) (hash tx) ∧
    ∀ b, a ≠ b → untouched p p1 b) as Hend.
  { intros p1 Hp1 Es Ea Ep Eq. split_and!; [done..|].
    intros b Hb. unfold untouched. rewrite Eq, Ep. split; [|done]. unfold put_back.
    destruct (list_Empty L'); [by rewrite lookup_delete_ne|by rewrite lookup_insert_ne]. }
  assert (∀ p1, queue p1 = queue p → pending p1 = pending p → signer p1 = signer p → config p1 = config p →
    all p1 = lk_Remove (all p) (hash tx) →
    priced p1 = (if ob then priced_Removed (lk_Remove (all p) (hash tx)) (priced p) 1 else priced p) →
    ∃ p2 n Q', match queue p1 !! a with
      | Some future => '(future, _, _) ← list_Remove future tx;
          if list_Empty future then Ok (set_beats (set_queue p1 (delete a (queue p1))) (delete a (beats p1)), 0)
          else Ok (set_queue p1 (<[a := future]> (queue p1)), 0)
      | None => Ok (p1, 0) end = Ok (p2, n) ∧ pool_ok p2 P Q' [] D ∧ signer p2 = signer p ∧ all p2 = lk_Remove (all p) (hash tx) ∧ ∀ b, a ≠ b → untouched p p2 b) as Hq.
  { intros p1 Eq Ep Es Ec Ea Epr. rewrite Eq, HL, E. cbn [mbind res_bind].
    unfold put_back in *. destruct (list_Empty L'); eexists _, _, (keep Q a kept); (split; [done|]);
      apply Hend; cbn; try done; by eapply pool_ok_ext; [..|exact H2]. }
  destruct (pending p !! a) as [Lp|] eqn:ELp; [rewrite (Hpend Lp eq_refl); cbn [mbind res_bind pending set_prices]; rewrite insert_id by done|]; apply Hq; try done; by destruct ob.
Qed.

Lemma removeTx_ok now p P Q D h ob :
  pool_ok p P Q [] D →
  ∃ p' n P' Q', removeTx now p h ob = Ok (p', n) ∧ pool_ok p' P' Q' [] D ∧ signer p' = signer p ∧ all p' = lk_Remove (all p) h ∧
    ∀ b, (∀ tx, lk_Get (all p) h = Some tx → sender (signer p) tx ≠ b) → untouched p p' b.
Proof.
  intros Hok. destruct (lk_Get (all p) h) as [tx|] eqn:Hg.
  - pose proof Hg as Hg'. apply (lk_Get_Some _ _ _ _ (po_all _ _ _ _ _ Hok)) in Hg' as [Hin <-].
    unfold content in Hin. cbn [app] in Hin. apply elem_of_app in Hin as [Hin|Hin].
    + destruct (in_content_list _ _ _ _ _ (po_pending _ _ _ _ _ Hok) Hin) as (L & l & HL & HP & Hl & Htx).
      destruct (remove_pending now p P Q D tx ob L l Hok HL HP Hl Htx Hg) as (p' & n & P' & Q' & ? & ? & ? & ? & Hun).
      exists p', n, P', Q'. split_and!; try done. intros b Hb. apply Hun. by apply Hb.
    + destruct (in_content_list _ _ _ _ _ (po_queue _ _ _ _ _ Hok) Hin) as (L & l & HL & HQ & Hl & Htx).
      destruct (remove_queued now p P Q D tx ob L l Hok HL HQ Hl Htx Hg) as (p' & n & Q' & ? & ? & ? & ? & Hun).
      exists p', n, P, Q'. split_and!; try done. intros b Hb. apply Hun. by apply Hb.
  - unfold removeTx. rewrite Hg. exists p, 0, P, Q. split_and!; try done. unfold lk_Remove. by rewrite Hg.
Qed.
End inv.
