(* ===== verification/PoolAdd.v ===== *)
(** * The pool: adding transactions

    [add] and [addTxs] return for every well-formed transaction and keep the parts of the
    pool in agreement; an accepted transaction is in the pool afterwards. *)

From S2P Require Import Prelude Bytes Params Common Heap Types StateDB Blocks.
From S2P Require Import PoolList PoolListProps PoolListRefine PoolAccount PoolPrice PoolPriceProps Pool PoolInv.

Section add.
Context `{Crypto} `{GoRuntime}.

Definition pool_inv (p : LegacyPool) : Prop := ∃ P Q, pool_ok p P Q [] [].

(** ** Making room *)

Lemma evict_ok now ds : ∀ p P Q D,
  pool_ok p P Q [] (ds ++ D) →
  ∃ p' P' Q', fold_res (evict_for_room now) p ds = Ok p' ∧ pool_ok p' P' Q' [] D ∧ signer p' = signer p ∧
    (∀ h, lk_Get (all p) h = None → lk_Get (all p') h = None).
Proof.
  induction ds as [|d ds IH]; intros p P Q D Hok; cbn [fold_res app] in *; [by exists p, P, Q|].
  destruct (removeTx_ok now p P Q _ (hash d) false Hok) as (p1 & n & P1 & Q1 & E & H1 & Es & Ea & _).
  assert (evict_for_room now p d = Ok (set_changes p1 (changesSinceReorg p1 + n))) as -> by (unfold evict_for_room; by rewrite E).
  cbn [mbind res_bind].
  assert (pool_ok (set_changes p1 (changesSinceReorg p1 + n)) P1 Q1 [] (ds ++ D)) as H2.
  { eapply pool_ok_ext with (set_priced p1 (priced p1)); try done. eapply priced_step; [done|].
    apply (priced_ok_stale _ _ _ d); [apply (lo_remotes _ _ (po_all _ _ _ _ _ H1))| |apply H1].
    pose proof (lk_Remove_gone (all p) (hash d)) as Hg. rewrite <- Ea in Hg. unfold lk_Get, GetRemote in *.
    by destruct (lk_locals (all p1) !! hash d). }
  destruct (IH _ _ _ _ H2) as (p2 & P' & Q' & E2 & H3 & Es3 & Hn). exists p2, P', Q'. split; [done|]. split; [done|].
  split; [by rewrite Es3|]. intros h Hh. apply Hn. cbn [all set_changes]. rewrite Ea. by apply lk_Remove_None.
Qed.

Lemma make_room_ok now p P Q tx isLocal :
  pool_ok p P Q [] [] →
  ∃ p' e P' Q', make_room now p tx isLocal = Ok (p', e) ∧ pool_ok p' P' Q' [] [] ∧ signer p' = signer p ∧
    (∀ h, lk_Get (all p) h = None → lk_Get (all p') h = None).
Proof.
  intros Hok. unfold make_room. destruct (_ <=? _); [by eexists _, _, P, Q|].
  pose proof (lo_remotes _ _ (po_all _ _ _ _ _ Hok)) as Hk.
  assert (∃ pr u, (if isLocal then (priced p, false) else Underpriced (all p) (priced p) tx) = (pr, u) ∧ priced_ok [] (all p) pr)
    as (pr & u & E & Hpr).
  { destruct isLocal; [eexists _, _; split; [done|apply Hok]|]. pose proof (Underpriced_ok [] _ _ tx Hk (po_priced _ _ _ _ _ Hok)).
    destruct (Underpriced _ _ _). eauto. }
  rewrite E. pose proof (priced_step _ _ _ _ _ _ pr Hok Hpr) as H1. destruct u; [by eexists _, _, P, Q|].
  destruct (_ <? changesSinceReorg _); [by eexists _, _, P, Q|]. cbn [all priced set_priced set_prices].
  edestruct (Discard_spec (all p) pr) as (pr2 & drop & ok & -> & Hpr2 & _ & Hres); [done|done|].
  pose proof (priced_step _ _ _ _ _ _ pr2 H1 Hpr2) as H2.
  destruct (negb isLocal && negb ok) eqn:Eno.
  { destruct ok; [by destruct isLocal|]. destruct Hres as (-> & _). by eexists _, _, P, Q. }
  set (p2 := set_priced _ pr2) in *.
  assert (∃ p3 g, (if isLocal then (p2, false) else isGapped p2 (sender (signer p2) tx) tx) = (p3, g) ∧
    pool_ok p3 P Q [] drop ∧ signer p3 = signer p ∧ all p3 = all p) as (p3 & g & -> & H3 & Es3 & Ea3).
  { destruct isLocal; [by eexists _, _|]. unfold isGapped. destruct (noncer_get _ _) as [nn nx]. eexists _, _. split; [done|].
    split; [|done]. by eapply pool_ok_ext; [..|exact H2]. }
  destruct (g && existsb (in_pending p3) drop).
  - eexists _, _, P, Q. split; [done|]. split; [|split; [done|by intros h; rewrite <- Ea3]].
    eapply priced_step; [exact H3|]. exact (push_all_ok _ _ _ (po_priced _ _ _ _ _ H3)).
  - rewrite <- (app_nil_r drop) in H3. destruct (evict_ok now drop p3 P Q [] H3) as (p4 & P' & Q' & -> & H4 & Es4 & Hn). cbn [mbind res_bind].
    eexists _, _, P', Q'. split; [done|]. split; [done|]. split; [congruence|]. intros h Hh. apply Hn. by rewrite Ea3.
Qed.

(** ** A transaction takes the place of another *)

Lemma lookup_replace t old tx rest local :
  lookup_ok t (old :: rest) → lk_Get t (hash tx) = None →
  lookup_ok (lk_Add (lk_Remove t (hash old)) tx local) (tx :: rest).
Proof. intros Hok Hn. apply lk_Add_ok; [by apply lk_Remove_ok|]. by apply lk_Remove_None. Qed.

Lemma lk_Add_Get t l tx local : lookup_ok t l → lk_Get t (hash tx) = None → lk_Get (lk_Add t tx local) (hash tx) = Some tx.
Proof. intros Hok Hn. apply (lk_Get_Some _ (tx :: l)); [by apply lk_Add_ok|]. set_solver. Qed.

Lemma priced_replace t pr tx h local :
  priced_ok [] t pr →
  let a := lk_Remove t h in priced_ok [] (lk_Add a tx local) (priced_Put (priced_Removed a pr 1) tx local).
Proof. intros Hpr a. apply priced_Put_ok, priced_Removed_ok. by eapply priced_ok_sub; [apply lk_Remove_remotes|]. Qed.

(** The slot of a new transaction is free when its nonce is in neither list of its account. *)
Lemma fresh_slot p P Q D tx :
  pool_ok p P Q [] D →
  (∀ l, P !! sender (signer p) tx = Some l → tx_Nonce tx ∉ tx_Nonce <$> l) →
  (∀ l, Q !! sender (signer p) tx = Some l → tx_Nonce tx ∉ tx_Nonce <$> l) →
  NoDup (slot (signer p) <$> tx :: content P Q []).
Proof.
  intros Hok HP HQ. apply NoDup_cons. split; [|apply Hok]. intros (x & Heq & Hx)%list_elem_of_fmap.
  unfold slot in Heq. injection Heq as Hs Hn. unfold content in Hx. cbn [app] in Hx. apply elem_of_app in Hx as [Hx|Hx].
  - destruct (in_content_list _ _ _ _ _ (po_pending _ _ _ _ _ Hok) Hx) as (L & l & _ & Hl & _ & Hin). rewrite <- Hs in Hl.
    apply (HP l Hl). rewrite Hn. by apply list_elem_of_fmap_2.
  - destruct (in_content_list _ _ _ _ _ (po_queue _ _ _ _ _ Hok) Hx) as (L & l & _ & Hl & _ & Hin). rewrite <- Hs in Hl.
    apply (HQ l Hl). rewrite Hn. by apply list_elem_of_fmap_2.
Qed.

Lemma beats_enqueue_ok now p a P Q T D :
  pool_ok p P Q T D →
  let p' := match beats p !! a with Some _ => p | None => set_beats p (<[a := now]> (beats p)) end in
  pool_ok p' P Q T D ∧ signer p' = signer p ∧ all p' = all p.
Proof. intros Hok. destruct (beats p !! a); [done|]. split; [|done]. by eapply pool_ok_ext; [..|exact Hok]. Qed.

(** The nonce is free in the list of an account, or a transaction has it. *)
Lemma nonce_cases (M : gmap Address (list Transaction)) a n :
  (∀ l, M !! a = Some l → n ∉ tx_Nonce <$> l) ∨ ∃ l old, M !! a = Some l ∧ old ∈ l ∧ tx_Nonce old = n.
Proof.
  destruct (M !! a) as [l|]; [|by left]. destruct (decide (n ∈ tx_Nonce <$> l)) as [Hin|Hn].
  - right. apply list_elem_of_fmap in Hin as (old & -> & Hin). eauto.
  - left. by intros ? [= <-].
Qed.

(** The transaction [old] of an account's list is replaced. *)
Lemma replace_ok st sg m M a L l tx old bump :
  lists_match st sg m M → m !! a = Some L → M !! a = Some l → account_list st sg a L l → a = sender sg tx →
  storable tx → old ∈ l → tx_Nonce old = tx_Nonce tx →
  list_Add L tx bump = Ok (L, false, None) ∨
  ∃ L' l' rest, list_Add L tx bump = Ok (L', true, Some old) ∧ lists_match st sg (<[a := L']> m) (<[a := l']> M) ∧
    values M ≡ₚ old :: rest ∧ values (<[a := l']> M) ≡ₚ tx :: rest ∧ slot sg old = slot sg tx.
Proof.
  intros Hm HmL HM Hl -> [Hu Ham] Hin Hn. destruct (list_Add_replace L l tx bump old (al_stands _ _ _ _ _ Hl) Hu Ham Hin Hn)
    as [E|(L' & kept & E & Hs & HL' & H1 & H2)]; [by left|]. right.
  pose proof (al_sender _ _ _ _ _ Hl) as Hf. exists L', (put tx l), (kept ++ values (delete (sender sg tx) M)). split_and!; [done| | | |].
  - apply lists_match_insert; [done|]. split; [done|rewrite Hs; apply Hl| |].
    + rewrite H2. rewrite H1 in Hf. apply Forall_cons in Hf as [_ Hf]. by constructor.
    + intros E0. rewrite E0 in H2. by apply Permutation_nil_l in H2.
  - rewrite (values_delete _ _ _ HM), H1. done.
  - rewrite values_insert, H2. done.
  - unfold slot. rewrite Hn. f_equal. by apply (proj1 (Forall_forall _ _) Hf).
Qed.

Lemma enqueue_new now p P Q tx local :
  pool_ok p P Q [] [] → storable tx → lk_Get (all p) (hash tx) = None →
  (∀ l, P !! sender (signer p) tx = Some l → tx_Nonce tx ∉ tx_Nonce <$> l) →
  ∃ p' r Q', enqueueTx now p tx local true = Ok (p', r) ∧ pool_ok p' P Q' [] [] ∧ signer p' = signer p ∧
    match r with inr _ => lk_Get (all p') (hash tx) = Some tx | inl _ => all p' = all p end.
Proof.
  intros Hok Hu Hg HP. set (a := sender (signer p) tx) in *. unfold enqueueTx. fold a. destruct (Hok) as [Hcfg Hp Hq HT Hun Ha Hpr].
  destruct (nonce_cases Q a (tx_Nonce tx)) as [Hfree|(l & old & HQ & Hin & Hn)].
  - destruct (add_transit false (signer p) (queue p) Q tx (content P Q []) (PriceBump (config p)) Hq) as (L' & l' & E & Hq' & Hv);
      [by apply (fresh_slot p P Q [])|unfold content; set_solver|done|]. fold a in E, Hq', Hv. rewrite E. cbn [mbind res_bind negb].
    assert (pool_ok (set_prices (set_queue p (<[a := L']> (queue p))) (lk_Add (all p) tx local) (priced_Put (priced p) tx local))
              P (<[a := l']> Q) [] []) as H1.
    { assert (content P (<[a:=l']> Q) [] ≡ₚ tx :: content P Q []) as Hc by (unfold content; rewrite Hv; solve_Permutation).
      split; cbn; [done..| | |by apply priced_Put_ok]; [rewrite Hc; by apply (fresh_slot p P Q [])|].
      apply (lookup_ok_perm _ (tx :: content P Q [])); [by rewrite Hc|]. by apply lk_Add_ok. }
    cbn [all priced set_queue set_lists]. eexists _, _, (<[a := l']> Q). split; [done|].
    destruct (beats_enqueue_ok now _ a _ _ _ _ H1) as (H2 & Es & Ea). split; [done|]. split; [done|]. rewrite Ea. by eapply lk_Add_Get.
  - pose proof (Hq a) as Hqa. rewrite HQ in Hqa. inversion Hqa as [L ? Hl EL|]; subst. symmetry in EL. cbn [default from_option id].
    destruct (replace_ok false (signer p) (queue p) Q a L l tx old (PriceBump (config p)) Hq EL HQ Hl eq_refl Hu Hin Hn)
      as [E|(L' & l' & rest & E & Hq' & H1 & H2 & Hsl)]; rewrite E; cbn [mbind res_bind negb].
    + eexists _, _, Q. split; [done|]. rewrite insert_id by done. split; [|done]. by eapply pool_ok_ext; [..|exact Hok].
    + assert (content P Q [] ≡ₚ old :: values P ++ rest ∧ content P (<[a := l']> Q) [] ≡ₚ tx :: values P ++ rest) as [C1 C2]
        by (unfold content; rewrite H1, H2; split; solve_Permutation).
      cbn [all priced set_queue set_lists set_prices]. set (b := lk_Remove (all p) (hash old)).
      assert (pool_ok (set_prices (set_queue p (<[a := L']> (queue p))) (lk_Add b tx local) (priced_Put (priced_Removed b (priced p) 1) tx local))
                P (<[a := l']> Q) [] []) as H3.
      { split; cbn; [done..| | |by apply priced_replace]; [rewrite C2; rewrite C1 in Hun; cbn in *; by rewrite <- Hsl|].
        apply (lookup_ok_perm _ (tx :: values P ++ rest)); [by rewrite C2|]. apply lookup_replace; [|done]. by eapply lookup_ok_perm; [|exact Ha]. }
      eexists _, _, (<[a := l']> Q). split; [done|]. destruct (beats_enqueue_ok now _ a _ _ _ _ H3) as (H4 & Es & Ea). split; [done|]. split; [done|].
      refine (eq_trans (f_equal (λ t, lk_Get t (hash tx)) Ea) _). eapply lk_Add_Get; [apply lk_Remove_ok; by eapply lookup_ok_perm; [|exact Ha]|]. by apply lk_Remove_None.
Qed.

(** ** add *)

(** The calls on the transaction itself do not panic: its pointers are not nil and its
    signature has its length. *)
Record well_formed (sg : panguSigner) (tx : Transaction) : Prop := {
  wf_nonce : u64_ok (tx_Nonce tx);
  wf_hash : is_ok (tx_Hash tx);
  wf_sender : is_ok (Sender sg tx);
  wf_derive : is_ok (signer_Sender sg tx);
  wf_cost : is_ok (tx_Cost tx);
  wf_tip : is_ok (tx_GasTipCap tx);
}.

Lemma journalTx_ok p a tx P Q T D :
  pool_ok p P Q T D → pool_ok (journalTx p a tx) P Q T D ∧ signer (journalTx p a tx) = signer p ∧ all (journalTx p a tx) = all p.
Proof.
  intros Hok. unfold journalTx. destruct (journal p); [|done]. destruct (as_contains _ _); [|done].
  split; [|done]. by eapply pool_ok_ext; [..|exact Hok].
Qed.

(** What [add] promises: the parts agree, and an accepted transaction can be found. *)
Definition added (p : LegacyPool) (tx : Transaction) (m : res (LegacyPool * (pool_error + bool))) : Prop :=
  ∃ p' r P' Q', m = Ok (p', r) ∧ pool_ok p' P' Q' [] [] ∧ signer p' = signer p ∧
    match r with inr _ => lk_Get (all p') (hash tx) = Some tx | inl _ => True end.

Lemma RemoteToLocals_Get t l s h tx :
  lookup_ok t l → lk_Get t h = Some tx → lk_Get (fst (RemoteToLocals t s)) h = Some tx.
Proof.
  intros Hok Hg. destruct (RemoteToLocals_ok t l s Hok) as [Hok' _]. apply (lk_Get_Some _ l); [done|]. by apply (lk_Get_Some t l).
Qed.

Lemma add_queued_ok now p P Q tx local isLocal :
  pool_ok p P Q [] [] → storable tx → lk_Get (all p) (hash tx) = None →
  (∀ l, P !! sender (signer p) tx = Some l → tx_Nonce tx ∉ tx_Nonce <$> l) →
  added p tx (add_queued now p tx (sender (signer p) tx) local isLocal).
Proof.
  intros Hok Hu Hg HP. destruct (enqueue_new now p P Q tx isLocal Hok Hu Hg HP) as (p1 & r & Q1 & E & H1 & Es & Hr). unfold add_queued.
  rewrite E. cbn [mbind res_bind]. destruct r as [e|replaced].
  { by eexists _, _, P, Q1. }
  set (a := sender (signer p) tx). destruct (local && negb (as_contains (locals p1) a)).
  - cbn [all locals set_locals]. set (s2 := as_add (locals p1) a).
    destruct (RemoteToLocals_ok (all p1) _ s2 (po_all _ _ _ _ _ H1)) as [Hlk Hsub].
    pose proof (RemoteToLocals_Get _ _ s2 _ _ (po_all _ _ _ _ _ H1) Hr) as Hg2.
    destruct (RemoteToLocals (all p1) s2) as [t2 mig]. cbn [fst] in *. cbn [priced set_locals].
    assert (pool_ok (set_prices (set_locals p1 s2) t2 (priced_Removed t2 (priced p1) mig)) P Q1 [] []) as H2.
    { destruct H1. split; cbn; try done. apply priced_Removed_ok. by eapply priced_ok_sub. }
    destruct (journalTx_ok _ a tx _ _ _ _ H2) as (H3 & Es3 & Ea3). eexists _, _, P, Q1. split; [done|]. split; [done|].
    split; [by rewrite Es3|]. by rewrite Ea3.
  - destruct (journalTx_ok _ a tx _ _ _ _ H1) as (H3 & Es3 & Ea3). eexists _, _, P, Q1. split; [done|]. split; [done|].
    split; [by rewrite Es3|]. by rewrite Ea3.
Qed.

(** A pending transaction of the same nonce is replaced, when the price is right. *)
Lemma add_pending_ok now p P Q tx isLocal L :
  pool_ok p P Q [] [] → storable tx → lk_Get (all p) (hash tx) = None →
  pending p !! sender (signer p) tx = Some L → list_Contains L (tx_Nonce tx) = true →
  added p tx
    (let a := sender (signer p) tx in
     '(l, inserted, old) ← list_Add L tx (PriceBump (config p));
     let p := set_pending p (<[a := l]> (pending p)) in
     if negb inserted then Ok (p, inl ErrReplaceUnderpriced)
     else
       let p := match old with
                | Some old => let t := lk_Remove (all p) (hash old) in set_prices p t (priced_Removed t (priced p) 1)
                | None => p
                end in
       let p := set_prices p (lk_Add (all p) tx isLocal) (priced_Put (priced p) tx isLocal) in
       let p := journalTx p a tx in
       let p := set_logs p (journal p) (events p ++ [tx]) in
       Ok (set_beats p (<[a := now]> (beats p)), inr (bool_decide (is_Some old)))).
Proof.
  intros Hok Hu Hg HL Hc. set (a := sender (signer p) tx) in *. destruct (Hok) as [Hcfg Hp Hq HT Hun Ha Hpr].
  destruct (lists_match_Some _ _ _ _ _ _ Hp HL) as (l & HP & Hl).
  rewrite (list_Contains_account L l) in Hc by apply Hl. apply bool_decide_eq_true in Hc.
  apply list_elem_of_fmap in Hc as (old & Hn & Hin).
  destruct (replace_ok true (signer p) (pending p) P a L l tx old (PriceBump (config p)) Hp HL HP Hl eq_refl Hu Hin (eq_sym Hn))
    as [E|(L' & l' & rest & E & Hp' & H1 & H2 & Hsl)]; cbv zeta; rewrite E; cbn [mbind res_bind negb].
  - rewrite insert_id by done. eexists _, _, P, Q. split; [done|]. split; [|done]. by eapply pool_ok_ext; [..|exact Hok].
  - assert (content P Q [] ≡ₚ old :: rest ++ values Q ∧ content (<[a := l']> P) Q [] ≡ₚ tx :: rest ++ values Q) as [C1 C2]
      by (unfold content; rewrite H1, H2; split; solve_Permutation).
    cbn [all priced set_pending set_lists set_prices]. set (b := lk_Remove (all p) (hash old)).
    assert (pool_ok (set_prices (set_pending p (<[a := L']> (pending p))) (lk_Add b tx isLocal)
                       (priced_Put (priced_Removed b (priced p) 1) tx isLocal)) (<[a := l']> P) Q [] []) as H3.
    { split; cbn; [done..| | |by apply priced_replace]; [rewrite C2; rewrite C1 in Hun; cbn in *; by rewrite <- Hsl|].
      apply (lookup_ok_perm _ (tx :: rest ++ values Q)); [by rewrite C2|]. apply lookup_replace; [|done]. by eapply lookup_ok_perm; [|exact Ha]. }
    destruct (journalTx_ok _ a tx _ _ _ _ H3) as (H4 & Es & Ea). eexists _, _, (<[a := l']> P), Q. split; [done|].
    split; [by eapply pool_ok_ext; [..|exact H4]|]. split; [exact Es|].
    refine (eq_trans (f_equal (λ t, lk_Get t (hash tx)) Ea) _). eapply lk_Add_Get; [apply lk_Remove_ok; by eapply lookup_ok_perm; [|exact Ha]|].
    by apply lk_Remove_None.
Qed.

Lemma well_formed_storable sg tx : well_formed sg tx → storable tx.
Proof.
  intros [Hu _ _ _ [c Ec] [t Et]]. split; [done|]. unfold tx_Cost, tx_GasPrice, tx_Value in Ec.
  apply res_bind_Ok in Ec as (f & Ef & Ev). apply res_bind_Ok in Ev as (v & Ev & _). unfold tx_GasTipCap in Et.
  unfold has_amounts. destruct (pt_FeeCap _), (pt_TipCap _), (pt_Value _); naive_solver.
Qed.

Lemma validateTx_ok p P Q T D tx :
  pool_ok p P Q T D → is_ok (signer_Sender (signer p) tx) → is_ok (tx_Cost tx) → is_ok (validateTx p tx).
Proof.
  intros Hok [r Er] [c Ec]. unfold validateTx, ValidateTransactionWithState. rewrite Er. cbn [mbind res_bind].
  destruct r as [e|from]; [by eexists|]. destruct (_ <? _); [by eexists|]. rewrite Ec. cbn [mbind res_bind].
  destruct (_ <? c); [by eexists|]. destruct (pending p !! from) as [L|] eqn:EL; cbn [mbind option_bind res_bind].
  2: { destruct (_ <? _); by eexists. }
  destruct (lists_match_Some _ _ _ _ _ _ (po_pending _ _ _ _ _ Hok) EL) as (l & _ & Hl). pose proof (al_stands _ _ _ _ _ Hl) as HL.
  rewrite (Get_holds _ l) by apply (sf_holds _ _ _ HL). destruct (with_nonce _ l) as [x|] eqn:Ex; cbn [mbind res_bind].
  2: { destruct (_ <? _); by eexists. }
  apply with_nonce_elem in Ex as [Hx _]. rewrite (tx_Cost_ok x) by (by apply (proj1 (Forall_forall _ _) (sf_amounts _ _ _ HL))).
  cbn [mbind res_bind]. destruct (_ <? _); by eexists.
Qed.

Lemma add_ok now p P Q tx local :
  pool_ok p P Q [] [] → well_formed (signer p) tx → added p tx (add now p tx local).
Proof.
  intros Hok Hwf. pose proof (well_formed_storable _ _ Hwf) as Hu. destruct Hwf as [_ [[h tx'] Eh] [[r tx2] Es] Hd Hc _]. unfold add. rewrite Eh. cbn [mbind res_bind].
  assert (h = hash tx) as -> by (unfold hash; by rewrite Eh).
  destruct (lk_Get (all p) (hash tx)) as [k|] eqn:Hg; [rewrite bool_decide_true by done; by eexists _, _, P, Q|].
  rewrite bool_decide_false by (by intros []).
  assert (∃ x, (if local then Ok (inr 0) else sender_res (signer p) tx) = Ok x) as [x ->].
  { destruct local; [by eexists|]. unfold sender_res. rewrite Es. by eexists. }
  cbn [mbind res_bind]. destruct (validateTx_ok p P Q [] [] tx Hok Hd Hc) as [e ->]. cbn [mbind res_bind].
  destruct e as [e|]; [by eexists _, _, P, Q|].
  set (isLocal := local || containsTx (locals p) tx). clearbody isLocal.
  destruct (make_room_ok now p P Q tx isLocal Hok) as (p1 & e & P1 & Q1 & -> & H1 & Es1 & Hn). cbn [mbind res_bind].
  destruct e as [e|]; [by eexists _, _, P1, Q1|]. specialize (Hn _ Hg).
  assert (∀ m, added p1 tx m → added p tx m) as Hext.
  { intros m (p' & r' & P' & Q' & Em & Hm & Esm & Hr). exists p', r', P', Q'. split_and!; try done. congruence. }
  apply Hext. rewrite <- Es1. destruct (pending p1 !! sender (signer p1) tx) as [L|] eqn:EL.
  - destruct (list_Contains L (tx_Nonce tx)) eqn:Ec.
    + exact (add_pending_ok now p1 P1 Q1 tx isLocal L H1 Hu Hn EL Ec).
    + apply (add_queued_ok now p1 P1 Q1); try done. intros l HP Hin.
      destruct (lists_match_Some _ _ _ _ _ _ (po_pending _ _ _ _ _ H1) EL) as (l2 & HP2 & Hl2).
      rewrite (list_Contains_account L l2) in Ec by apply Hl2. apply bool_decide_eq_false in Ec. congruence.
  - apply (add_queued_ok now p1 P1 Q1); try done. intros l HP.
    by rewrite (lists_match_None _ _ _ _ _ (po_pending _ _ _ _ _ H1) EL) in HP.
Qed.

Lemma add_fold_ok now txs local : ∀ p e0 d0 P Q,
  pool_ok p P Q [] [] → Forall (well_formed (signer p)) txs →
  ∃ p' errs dirty P' Q', fold_res (add_step now local) (p, e0, d0) txs = Ok (p', errs, dirty) ∧ pool_ok p' P' Q' [] [] ∧
    signer p' = signer p ∧ length errs = (length e0 + length txs)%nat.
Proof.
  induction txs as [|tx txs IH]; intros p e0 d0 P Q Hok Hwf; cbn [fold_res].
  { eexists _, _, _, P, Q. split_and!; [done..|cbn; lia]. }
  apply Forall_cons in Hwf as [Htx Hwf]. destruct (add_ok now p P Q tx local Hok Htx) as (p1 & r & P1 & Q1 & E & H1 & Es & _).
  cbn [add_step]. rewrite E. cbn [mbind res_bind]. rewrite <- Es in Hwf.
  destruct r as [e|rep]; cbn [mbind res_bind];
    [destruct (IH p1 (e0 ++ [Some e]) d0 P1 Q1 H1 Hwf) as (p2 & errs & dirty & P2 & Q2 & E2 & H2 & Es2 & Hl2)
    |destruct (IH p1 (e0 ++ [None]) (if rep then d0 else addTx d0 tx) P1 Q1 H1 Hwf) as (p2 & errs & dirty & P2 & Q2 & E2 & H2 & Es2 & Hl2)];
    rewrite E2; eexists _, _, _, P2, Q2; (split_and!; [done|done|congruence|]); rewrite Hl2, length_app; cbn; lia.
Qed.

Lemma addTxsLocked_ok now txs local p P Q :
  pool_ok p P Q [] [] → Forall (well_formed (signer p)) txs →
  ∃ p' errs dirty P' Q', addTxsLocked now p txs local = Ok (p', errs, dirty) ∧ pool_ok p' P' Q' [] [] ∧ signer p' = signer p ∧
    length errs = length txs.
Proof. apply (add_fold_ok now txs local p [] (newAccountSet (signer p) [])). Qed.
End add.
