(* ===== verification/PoolReorg.v ===== *)
(** * Reorganisation of the pool (core/txpool/legacypool/legacypool.go)

    After new transactions or a new head, [runReorg] brings the pool in line with the
    chain: a reset to the new state, promotion of what became executable, demotion of what
    is not any more, and truncation to the configured limits.  The loops of the truncation
    take a number of rounds; each round shortens the list they look at.  The priority
    queue of accounts is common/prque, whose [sstack] is a slice in blocks. *)

From S2P Require Import Prelude Bytes Params Common Heap Types StateDB Blocks PoolList PoolPrice Pool.

(** ** common/prque *)

Definition prque (V : Type) : Type := list (V * Z).

Definition prque_Less {V} (a b : V * Z) : bool := b.2 <? a.2.
Definition prque_Push {V} `{!Inhabited V} (q : prque V) (data : V) (priority : Z) : prque V :=
  heap_Push prque_Less q (data, priority).
Definition prque_Pop {V} `{!Inhabited V} (q : prque V) : option ((V * Z) * prque V) := heap_Pop prque_Less q.
Definition prque_Empty {V} (q : prque V) : bool := (length q =? 0)%nat.

Section pool.
Context `{Crypto} `{GoRuntime}.

(** ** Truncation *)

Definition total_len (m : gmap Address tlist) : Z :=
  foldl (λ n '(_, l), (n + list_Len l)%u64) 0 (range_map m).

(** One transaction less for the account: the last. *)
Definition cap_one (p : LegacyPool) (addr : Address) : res LegacyPool :=
  l ← deref (pending p !! addr);
  '(l, caps) ← list_Cap l (list_Len l - 1);
  let p := set_pending p (<[addr := l]> (pending p)) in
  let p := foldl (λ p tx, set_nonces (set_all p (lk_Remove (all p) (hash tx)))
                            (setIfLower (pendingNonces p) addr (tx_Nonce tx))) p caps in
  Ok (set_priced p (priced_Removed (all p) (priced p) (Z.of_nat (length caps)))).

(** A number of rounds that is enough: the list that is looked at gets shorter. *)
Definition rounds (p : LegacyPool) (addr : Address) : nat :=
  match pending p !! addr with Some l => S (Z.to_nat (list_Len l)) | None => 1 end.

Definition pending_len (p : LegacyPool) (addr : Address) : res Z := l ← deref (pending p !! addr); Ok (list_Len l).

(** All offenders lose a transaction until the pool is small enough, or the one that is
    looked at ([last]) has no more than [threshold]. *)
Fixpoint equalize (fuel : nat) (p : LegacyPool) (offenders : list Address) (last : Address) (threshold count : Z)
  : res (LegacyPool * Z) :=
  match fuel with
  | O => Panic "no more rounds"
  | S fuel =>
      if count <=? GlobalSlots (config p) then Ok (p, count)
      else
        len ← pending_len p last;
        if len <=? threshold then Ok (p, count)
        else
          p ← foldl (λ (acc : res LegacyPool) addr, p ← acc; cap_one p addr) (Ok p) offenders;
          equalize fuel p offenders last threshold (count - Z.of_nat (length offenders))%u64
  end.

(** The offenders are taken from the queue, the longest list first. *)
Fixpoint take_offenders (fuel : nat) (p : LegacyPool) (spammers : prque Address) (offenders : list Address) (count : Z)
  : res (LegacyPool * list Address * Z) :=
  match fuel with
  | O => Ok (p, offenders, count)
  | S fuel =>
      if negb ((GlobalSlots (config p) <? count) && negb (prque_Empty spammers)) then Ok (p, offenders, count)
      else
        match prque_Pop spammers with
        | None => Ok (p, offenders, count)
        | Some ((offender, _), spammers) =>
            match list.last offenders with
            | None => take_offenders fuel p spammers [offender] count
            | Some last =>
                threshold ← pending_len p offender;
                '(p, count) ← equalize (rounds p last) p offenders last threshold count;
                take_offenders fuel p spammers (offenders ++ [offender]) count
            end
        end
  end.

Definition find_spammers (p : LegacyPool) : prque Address :=
  foldl (λ q '(addr, l), if negb (as_contains (locals p) addr) && (AccountSlots (config p) <? list_Len l)
                         then prque_Push q addr (list_Len l) else q) [] (range_map (pending p)).

Definition truncatePending (p : LegacyPool) : res LegacyPool :=
  let count := total_len (pending p) in
  if count <=? GlobalSlots (config p) then Ok p
  else
    let spammers := find_spammers p in
    '(p, offenders, count) ← take_offenders (length spammers) p spammers [] count;
    match list.last offenders with
    | None => Ok p
    | Some last =>
        if count <=? GlobalSlots (config p) then Ok p
        else
          '(p, _) ← equalize (rounds p last) p offenders last (AccountSlots (config p)) count;
          Ok p
    end.

(** [outofbound] is false where the caller reports the removals to the price heaps itself. *)
Definition remove_txs (now : Z) (outofbound : bool) (p : LegacyPool) (l : list Transaction) : res LegacyPool :=
  fold_res (λ p tx, '(p, _) ← removeTx now p (hash tx) outofbound; Ok p) p l.

(** The accounts with the oldest heartbeat come last in [addresses], and lose their
    queued transactions first. *)
Fixpoint truncate_queue_loop (now : Z) (p : LegacyPool) (addresses : list Address) (drop : Z) : res LegacyPool :=
  match addresses with
  | [] => Ok p
  | addr :: addresses =>
      if drop <=? 0 then Ok p
      else
        l ← deref (queue p !! addr);
        let size := list_Len l in
        let '(l, txs) := list_Flatten l in
        let p := set_queue p (<[addr := l]> (queue p)) in
        if size <=? drop then p ← remove_txs now true p txs; truncate_queue_loop now p addresses (drop - size)
        else p ← remove_txs now true p (take (Z.to_nat drop) (reverse txs)); truncate_queue_loop now p addresses 0
  end.

Definition truncateQueue (now : Z) (p : LegacyPool) : res LegacyPool :=
  let queued := total_len (queue p) in
  if queued <=? GlobalQueue (config p) then Ok p
  else
    let addresses := omap (λ '(addr, _), if as_contains (locals p) addr then None
                                         else Some (addr, default 0 (beats p !! addr))) (range_map (queue p)) in
    let sorted := sort_slice (λ a b, b.2 <? a.2) addresses in
    truncate_queue_loop now p (reverse sorted.*1) (queued - GlobalQueue (config p)).

(** ** Reset *)

(** The interface of the chain. *)
Record BlockChain := mkBlockChain {
  CurrentBlock : Header;
  GetBlock : Hash → Z → option Block;
  StateAt : Hash → option ChainState;
}.

Definition parent (c : BlockChain) (b : Block) : res (option Block) :=
  n ← block_NumberU64 b; Ok (GetBlock c (hd_ParentHash (b_header b)) (n - 1)%u64).

(** Down to the number [to], collecting the transactions; [None] when a block is missing. *)
Fixpoint descend (fuel : nat) (c : BlockChain) (b : Block) (to : Z) (txs : list Transaction)
  : res (option (Block * list Transaction)) :=
  match fuel with
  | O => Panic "no more rounds"
  | S fuel =>
      n ← block_NumberU64 b;
      if n <=? to then Ok (Some (b, txs))
      else
        b' ← parent c b;
        match b' with
        | None => Ok None
        | Some b' => descend fuel c b' to (txs ++ block_Transactions b)
        end
  end.

(** Both chains down to a common block. *)
Fixpoint descend_both (fuel : nat) (c : BlockChain) (rem add : Block) (discarded included : list Transaction)
  : res (option (list Transaction * list Transaction)) :=
  match fuel with
  | O => Panic "no more rounds"
  | S fuel =>
      if fst (block_Hash rem) =? fst (block_Hash add) then Ok (Some (discarded, included))
      else
        rem' ← parent c rem;
        match rem' with
        | None => Ok None
        | Some rem' =>
            add' ← parent c add;
            match add' with
            | None => Ok None
            | Some add' =>
                descend_both fuel c rem' add' (discarded ++ block_Transactions rem) (included ++ block_Transactions add)
            end
        end
  end.

(** The transactions to inject again; [None] when the reset is given up.  The depth is
    computed in floating point, exactly for numbers below 2^53. *)
Definition reinjected (c : BlockChain) (oldHead newHead : Header) : res (option (list Transaction)) :=
  if header_Hash oldHead =? hd_ParentHash newHead then Ok (Some [])
  else
    o ← deref (hd_Number oldHead); n ← deref (hd_Number newHead);
    let oldNum := u64 (Z.abs o) in let newNum := u64 (Z.abs n) in
    if 64 <? Z.abs (oldNum - newNum) then Ok (Some [])
    else
      match GetBlock c (header_Hash oldHead) oldNum with
      | None => Ok (if oldNum <=? newNum then None else Some [])
      | Some rem =>
          match GetBlock c (header_Hash newHead) newNum with
          | None => Ok None
          | Some add =>
              a ← block_NumberU64 add; r ← block_NumberU64 rem;
              d ← descend (S (Z.to_nat (r - a))) c rem a [];
              match d with
              | None => Ok None
              | Some (rem, discarded) =>
                  r ← block_NumberU64 rem;
                  d ← descend (S (Z.to_nat (a - r))) c add r [];
                  match d with
                  | None => Ok None
                  | Some (add, included) =>
                      r ← block_NumberU64 rem;
                      d ← descend_both (S (Z.to_nat r)) c rem add discarded included;
                      match d with
                      | None => Ok None
                      | Some (discarded, included) => l ← TxDifference discarded included; Ok (Some l)
                      end
                  end
              end
          end
      end.

Definition reset (now : Z) (c : BlockChain) (p : LegacyPool) (oldHead newHead : option Header) : res LegacyPool :=
  reinject ← match oldHead with
             | None => Ok (Some [])
             | Some oldHead => newHead ← deref newHead; reinjected c oldHead newHead
             end;
  match reinject with
  | None => Ok p
  | Some reinject =>
      let newHead := default (CurrentBlock c) newHead in
      match StateAt c (hd_StateRoot newHead) with
      | None => Ok p (* logged *)
      | Some s =>
          let p := set_head p newHead s in
          '(p, _, _) ← addTxsLocked now p reinject false; Ok p
      end
  end.

(** ** The run *)

Definition put_event (p : LegacyPool) (ev : gmap Address sortedMap) (tx : Transaction) : gmap Address sortedMap :=
  let addr := sender (signer p) tx in
  <[addr := sm_Put (default newSortedMap (ev !! addr)) tx]> ev.

(** The events of transactions that are included by now are dropped. *)
Definition forward_events (p : LegacyPool) (ev : gmap Address sortedMap) : res (LegacyPool * gmap Address sortedMap) :=
  foldl (λ (acc : res (LegacyPool * gmap Address sortedMap)) '(addr, m),
    '(p, ev) ← acc;
    let '(n, nonce) := noncer_get (pendingNonces p) addr in
    '(m, _) ← sm_Forward m nonce;
    Ok (set_nonces p n, if sm_Len m =? 0 then delete addr ev else <[addr := m]> ev))
    (Ok (p, ev)) (range_map ev).

(** The nonces after the pending transactions. *)
Definition pending_nonces (p : LegacyPool) : res LegacyPool :=
  '(p, ns) ← foldl (λ (acc : res (LegacyPool * gmap Address Z)) '(addr, l),
    '(p, ns) ← acc;
    '(l, tx) ← list_LastElement l;
    Ok (set_pending p (<[addr := l]> (pending p)), <[addr := (tx_Nonce tx + 1)%u64]> ns))
    (Ok (p, ∅)) (range_map (pending p));
  Ok (set_nonces p (setAll (pendingNonces p) ns)).

(** [runReorg]: the pool, and the transactions announced, sorted by nonce per account. *)
Definition runReorg (now : Z) (c : BlockChain) (p : LegacyPool) (req : option (option Header * option Header))
    (dirty : option accountSet) (ev : gmap Address sortedMap) : res (LegacyPool * list Transaction) :=
  '(p, ev, addrs) ←
    match req with
    | None => Ok (p, ev, match dirty with Some d => snd (as_flatten d) | None => [] end)
    | Some (oldHead, newHead) =>
        p ← reset now c p oldHead newHead;
        '(p, ev) ← forward_events p ev;
        Ok (p, ev, (range_map (queue p)).*1)
    end;
  '(p, promoted) ← promoteExecutables now p addrs;
  p ← match req with
      | None => Ok p
      | Some (_, newHead) =>
          p ← demoteUnexecutables now p;
          let p := match newHead with
                   | Some h => set_priced p (SetBaseFee (all p) (priced p) (hd_BaseFee h))
                   | None => p
                   end in
          pending_nonces p
      end;
  p ← truncatePending p;
  p ← truncateQueue now p;
  let p := set_changes p 0 in
  let ev := foldl (put_event p) ev promoted in
  Ok (p, concat ((λ '(_, m), snd (sm_Flatten m)) <$> range_map ev)).

(** ** Other operations *)

Definition SetGasTip (now : Z) (p : LegacyPool) (tip : Z) : res LegacyPool :=
  let old := gasTip p in
  let p := set_tip p tip in
  if old <? tip then
    drop ← RemotesBelowTip (all p) tip;
    p ← remove_txs now false p drop;
    Ok (set_priced p (priced_Removed (all p) (priced p) (Z.of_nat (length drop))))
  else Ok p.

(** The eviction tick of [loop]: accounts that were not heard of for a lifetime. *)
Definition evict_account (now : Z) (p : LegacyPool) (addr : Address) : res LegacyPool :=
  if as_contains (locals p) addr then Ok p
  else if Lifetime (config p) <? now - default 0 (beats p !! addr) then
    match queue p !! addr with
    | None => Ok p (* the entry was deleted before it was reached *)
    | Some l =>
        let '(l, txs) := list_Flatten l in
        remove_txs now true (set_queue p (<[addr := l]> (queue p))) txs
    end
  else Ok p.
Definition evict (now : Z) (p : LegacyPool) : res LegacyPool :=
  fold_res (evict_account now) p (range_map (queue p)).*1.

Definition stats (p : LegacyPool) : Z * Z :=
  let len m := foldl (λ n '(_, l), n + list_Len l) 0 (range_map m) in (len (pending p), len (queue p)).

Definition flatten_all (m : gmap Address tlist) : gmap Address tlist * gmap Address (list Transaction) :=
  foldl (λ '(m, out) '(addr, l), let '(l, txs) := list_Flatten l in (<[addr := l]> m, <[addr := txs]> out))
    (m, ∅) (range_map m).

Definition Content (p : LegacyPool) : LegacyPool * gmap Address (list Transaction) * gmap Address (list Transaction) :=
  let '(pd, pt) := flatten_all (pending p) in
  let '(qu, qt) := flatten_all (queue p) in
  (set_lists p pd qu, pt, qt).

(** Up to the first transaction with a lower tip. *)
Fixpoint enough_tip (tip : Z) (fee : option Z) (l : list Transaction) : res (list Transaction) :=
  match l with
  | [] => Ok []
  | tx :: l =>
      c ← EffectiveGasTipIntCmp tx tip fee;
      if c <? 0 then Ok [] else l ← enough_tip tip fee l; Ok (tx :: l)
  end.

Definition pending_step (p : LegacyPool) (enforceTips : bool)
    (acc : gmap Address tlist * gmap Address (list Transaction)) (e : Address * tlist)
  : res (gmap Address tlist * gmap Address (list Transaction)) :=
  let '(m, out) := acc in
  let '(addr, l) := e in
  let '(l, txs) := list_Flatten l in
  txs ← (if enforceTips && negb (as_contains (locals p) addr)
         then enough_tip (gasTip p) (baseFee (priced p)) txs else Ok txs);
  Ok (<[addr := l]> m, match txs with [] => out | _ => <[addr := txs]> out end).

Definition Pending (p : LegacyPool) (enforceTips : bool) : res (LegacyPool * gmap Address (list Transaction)) :=
  '(pd, out) ← fold_res (pending_step p enforceTips) (pending p, ∅) (range_map (pending p));
  Ok (set_pending p pd, out).

Inductive TxStatus := TxStatusUnknown | TxStatusQueued | TxStatusPending | TxStatusIncluded.

Definition Status (p : LegacyPool) (h : Hash) : TxStatus :=
  match lk_Get (all p) h with
  | None => TxStatusUnknown
  | Some tx =>
      let holds_nonce (m : gmap Address tlist) :=
        match m !! sender (signer p) tx with
        | Some l => bool_decide (is_Some (sm_Get (txs l) (tx_Nonce tx)))
        | None => false
        end in
      if holds_nonce (pending p) then TxStatusPending
      else if holds_nonce (queue p) then TxStatusQueued
      else TxStatusUnknown
  end.

Definition pool_Filter (p : LegacyPool) (tx : Transaction) : bool := tx_Type tx =? PanguTxType.

Definition pool_Nonce (p : LegacyPool) (addr : Address) : LegacyPool * Z :=
  let '(n, nonce) := noncer_get (pendingNonces p) addr in (set_nonces p n, nonce).

Definition flatten_at (m : gmap Address tlist) (addr : Address) : gmap Address tlist * list Transaction :=
  match m !! addr with
  | Some l => let '(l, txs) := list_Flatten l in (<[addr := l]> m, txs)
  | None => (m, [])
  end.
Definition ContentFrom (p : LegacyPool) (addr : Address) : LegacyPool * list Transaction * list Transaction :=
  let '(pd, pt) := flatten_at (pending p) addr in
  let '(qu, qt) := flatten_at (queue p) addr in
  (set_lists p pd qu, pt, qt).

Definition IsLocalTx (p : LegacyPool) (tx : Transaction) : bool := containsTx (locals p) tx.
Definition pool_Locals (p : LegacyPool) : LegacyPool * list Address :=
  let '(s, l) := as_flatten (locals p) in (set_locals p s, l).

(** The transactions of the local accounts, pending ones first. *)
Definition local_txs (p : LegacyPool) : LegacyPool * gmap Address (list Transaction) :=
  foldl (λ '(p, out) addr,
    match pending p !! addr, queue p !! addr with
    | None, None => (p, out)
    | _, _ => let '(p, pt, qt) := ContentFrom p addr in (p, <[addr := pt ++ qt]> out)
    end) (p, ∅) (range_set (accounts (locals p))).

Definition pool_Get (p : LegacyPool) (h : Hash) : option Transaction := lk_Get (all p) h.
Definition pool_Has (p : LegacyPool) (h : Hash) : bool := bool_decide (is_Some (lk_Get (all p) h)).
End pool.
