(* ===== verification/PoolReorgProps.v ===== *)
(** * The pool: reorganisation keeps the parts in agreement

    Promotion, demotion, truncation, reset, eviction and the whole run return, and leave a
    pool whose lists, lookup and price heaps agree. *)

From S2P Require Import Prelude Bytes Params Common Heap Types StateDB Blocks.
From S2P Require Import PoolList PoolListProps PoolListRefine PoolAccount PoolPrice PoolPriceProps Pool PoolInv PoolAdd PoolReorg.

Section reorg.
Context `{Crypto} `{GoRuntime}.

(** ** Steps on one list do not look at the other lists *)

Lemma enqueueTx_set_pending now p m tx lc aa :
  enqueueTx now (set_pending p m) tx lc aa = '(p', r) ← enqueueTx now p tx lc aa; Ok (set_pending p' m, r).
Proof.
  unfold enqueueTx. cbn [signer queue config set_pending set_lists].
  destruct (list_Add _ _ _) as [[[L b] old]|]; [|done]. cbn [mbind res_bind]. destruct b; [|done]. cbn [negb].
  destruct old, aa; cbn [beats set_prices set_queue set_pending set_lists]; by destruct (beats p !! _).
Qed.

Lemma requeue_set_pending now l : ∀ p m, requeue now (set_pending p m) l = p' ← requeue now p l; Ok (set_pending p' m).
Proof.
  unfold requeue. induction l as [|tx l IH]; intros p m; cbn [fold_res]; [done|].
  rewrite enqueueTx_set_pending. destruct (enqueueTx now p tx false false) as [[p' r]|]; [|done]. cbn [mbind res_bind]. apply IH.
Qed.

Lemma promoteTx_set_queue now p m a h tx :
  promoteTx now (set_queue p m) a h tx = '(p', r) ← promoteTx now p a h tx; Ok (set_queue p' m, r).
Proof.
  unfold promoteTx. cbn [pending config set_queue set_lists]. destruct (list_Add _ _ _) as [[[L b] old]|]; [|done].
  cbn [mbind res_bind]. destruct b; [|done]. by destruct old.
Qed.

(** ** Promotion *)

Lemma promote_fold_queue now a l : ∀ p m out,
  fold_res (promote_step now a) (set_queue p m, out) l =
  '(p', out') ← fold_res (promote_step now a) (p, out) l; Ok (set_queue p' m, out').
Proof.
  induction l as [|tx l IH]; intros p m out; cbn [fold_res]; [done|]. cbn [promote_step]. rewrite promoteTx_set_queue.
  destruct (promoteTx now p a (hash tx) tx) as [[p' ok]|]; [|done]. cbn [mbind res_bind]. apply IH.
Qed.

Definition same_queue (p p' : LegacyPool) : Prop :=
  config p' = config p ∧ signer p' = signer p ∧ locals p' = locals p ∧ queue p' = queue p.

Lemma promoteTx_env now p a h tx p' ok : promoteTx now p a h tx = Ok (p', ok) → same_queue p p'.
Proof.
  unfold promoteTx. intros ([[L b] old] & _ & E)%res_bind_Ok. destruct b; cbn [negb] in E.
  - injection E as <- <-. by destruct old.
  - injection E as <- <-. done.
Qed.

Lemma promote_fold_env now a l : ∀ p out p' out',
  fold_res (promote_step now a) (p, out) l = Ok (p', out') → same_queue p p'.
Proof.
  induction l as [|tx l IH]; intros p out p' out'; cbn [fold_res]; [by intros [= <- _]|].
  intros ([p1 out1] & E1 & E2)%res_bind_Ok. cbn [promote_step] in E1. apply res_bind_Ok in E1 as ([p2 ok] & E1 & [= <- _]).
  apply promoteTx_env in E1. apply IH in E2. unfold same_queue in *. intuition congruence.
Qed.

Lemma promote_fold_ok now a l : ∀ p P Q T D out,
  pool_ok p P Q (l ++ T) D → Forall (λ tx, sender (signer p) tx = a) l →
  ∃ p' P', fold_res (promote_step now a) (p, out) l = Ok (p', out ++ l) ∧ pool_ok p' P' Q T D.
Proof.
  induction l as [|tx l IH]; intros p P Q T D out Hok Hf; cbn [fold_res app] in *; [exists p, P; by rewrite app_nil_r|].
  apply Forall_cons in Hf as [<- Hf]. destruct (promote_transit now p P Q _ D tx (hash tx) Hok) as (p1 & P1 & E & H1 & Eq & Es).
  cbn [promote_step]. rewrite E. cbn [mbind res_bind].
  destruct (IH p1 P1 Q T D (out ++ [tx]) H1) as (p' & P' & E' & H2); [by rewrite Es|]. exists p', P'. by rewrite E', <- app_assoc.
Qed.

Lemma to_int64_small x : 0 <= x < 2 ^ 63 → to_int64 x = x.
Proof. intros Hx. unfold to_int64. by rewrite (proj2 (Z.ltb_lt _ _)) by lia. Qed.

Lemma promote_account_ok now p P Q a :
  pool_ok p P Q [] [] →
  ∃ p' promoted P' Q', promote_account now p a = Ok (p', promoted) ∧ pool_ok p' P' Q' [] [] ∧ signer p' = signer p.
Proof.
  intros Hok. unfold promote_account. destruct (queue p !! a) as [L|] eqn:EL; [|by eexists _, _, P, Q].
  destruct (lists_match_Some _ _ _ _ _ _ (po_queue _ _ _ _ _ Hok) EL) as (l & HQ & [HL Hs Hf Hne]).
  destruct (list_Forward_account L l (state_nonce (currentState p) a) HL) as (L1 & l1 & fw & -> & S1 & HL1 & P1). cbn [mbind res_bind].
  destruct (list_Filter_account L1 l1 (state_balance (currentState (remove_all p fw)) a) (hd_GasLimit (currentHead (remove_all p fw))) HL1)
    as (L2 & l2 & dr & iv & -> & S2 & HL2 & P2 & Hiv). cbn [mbind res_bind]. rewrite Hiv in P2 by congruence. clear iv Hiv. rewrite app_nil_r in P2.
  destruct (noncer_get _ a) as [nn next]. destruct (list_Ready_account L2 l2 next HL2) as (L3 & l3 & rd & -> & S3 & HL3 & P3).
  cbn [mbind res_bind]. set (p0 := set_nonces _ nn).
  assert (∃ cp l4 L4, stands_for L4 l4 ∧ strict L4 = false ∧ l3 ≡ₚ l4 ++ cp ∧ ∀ q, locals q = locals p0 → config q = config p0 →
    (if as_contains (locals q) a then Ok (q, L3, []) else '(l, caps) ← list_Cap L3 (to_int64 (AccountQueue (config q))); Ok (remove_all q caps, l, caps))
    = Ok (remove_all q cp, L4, cp)) as (cp & l4 & L4 & HL4 & S4 & P4 & Hcap).
  { destruct (as_contains (locals p0) a) eqn:Ec.
    - exists [], l3, L3. split_and!; [done|congruence|by rewrite app_nil_r|]. intros q El Ecfg. rewrite El, Ec. by destruct q.
    - pose proof (po_config _ _ _ _ _ Hok) as (_ & Haq & _).
      destruct (list_Cap_account L3 l3 (to_int64 (AccountQueue (config p0))) HL3) as (L4 & l4 & cp & E & S4 & HL4 & P4 & _);
        [change (config p0) with (config p); rewrite to_int64_small; lia|]. exists cp, l4, L4. split_and!; [done|congruence|done|]. intros q El Ecfg.
      rewrite El, Ec, Ecfg, E. done. }
  assert (l ≡ₚ l4 ++ (fw ++ dr ++ rd ++ cp)) as Hall by (rewrite P1, P2, P3, P4; solve_Permutation).
  pose proof (queue_shrinks p P Q [] [] a l L4 l4 _ Hok HQ HL4 S4 Hall) as H1. rewrite app_nil_r in H1.
  apply remove_all_ok, remove_all_ok in H1.
  assert (Forall (λ tx, sender (signer p) tx = a) rd) as Hrd.
  { rewrite Hall, !Forall_app in Hf. naive_solver. }
  set (m' := put_back (queue p) a L4) in *.
  destruct (promote_fold_ok now a rd (set_queue p0 m') P (keep Q a l4) cp [] []) as (p2 & P' & E2 & H2).
  { by eapply pool_ok_ext; [..|exact H1]. }
  { done. }
  rewrite promote_fold_queue in E2. apply res_bind_Ok in E2 as ([p3 out3] & E3 & [= <- ->]).
  destruct (promote_fold_env now a rd p0 [] p3 _ E3) as (Ec3 & Es3 & El3 & Eq3). rewrite E3. cbn [mbind res_bind app].
  rewrite Hcap by done. cbn [mbind res_bind].
  rewrite <- (app_nil_r cp) in H2. apply remove_all_ok, (removed_ok _ _ _ _ _ (Z.of_nat (length fw + length dr + length cp))) in H2.
  destruct (list_Empty L4) eqn:Ee.
  - eexists _, _, P', (keep Q a l4). split; [done|]. split; [|done]. eapply pool_ok_ext; [..|exact H2]; try done.
    cbn. unfold m', put_back. rewrite Ee. by rewrite Eq3.
  - eexists _, _, P', (keep Q a l4). split; [done|]. split; [|done]. eapply pool_ok_ext; [..|exact H2]; try done.
    cbn. unfold m', put_back. rewrite Ee. by rewrite Eq3.
Qed.


(** A pool whose parts agree, and that has the signer of [p]. *)
Definition kept (p p' : LegacyPool) : Prop := pool_inv p' ∧ signer p' = signer p.

Lemma kept_by p p1 p2 : kept p p1 → kept p1 p2 → kept p p2.
Proof. intros [_ E1] [H2 E2]. split; [done|congruence]. Qed.
Lemma kept_inv p p' : kept p p' → pool_inv p'.
Proof. by intros []. Qed.

(** A loop over operations that return and keep the parts in agreement. *)
Lemma fold_kept {A} (f : LegacyPool → A → res LegacyPool) l : ∀ p,
  (∀ p x, pool_inv p → x ∈ l → ∃ p', f p x = Ok p' ∧ kept p p') → pool_inv p →
  ∃ p', foldl (λ (acc : res LegacyPool) x, p ← acc; f p x) (Ok p) l = Ok p' ∧ kept p p'.
Proof.
  induction l as [|x l IH]; intros p Hf Hp; cbn [foldl]; [by exists p|]. cbn [mbind res_bind].
  destruct (Hf p x Hp ltac:(set_solver)) as (p1 & -> & Hk). destruct (IH p1) as (p2 & E & Hk2); [|by eapply kept_inv|].
  - intros q y Hq Hy. apply Hf; [done|set_solver].
  - exists p2. split; [done|]. by eapply kept_by.
Qed.

Lemma promoteExecutables_ok now accounts : ∀ p, pool_inv p →
  ∃ p' promoted, promoteExecutables now p accounts = Ok (p', promoted) ∧ kept p p'.
Proof.
  unfold promoteExecutables. generalize (@nil Transaction) as out.
  induction accounts as [|a accounts IH]; intros out p Hp; cbn [foldl]; [by eexists _, _|].
  destruct Hp as (P & Q & Hok). destruct (promote_account_ok now p P Q a Hok) as (p1 & more & P1 & Q1 & E & H1 & Es).
  cbn [mbind res_bind]. rewrite E. cbn [mbind res_bind].
  destruct (IH (out ++ more) p1) as (p2 & promoted & E2 & Hk); [by exists P1, Q1|]. eexists _, _. split; [exact E2|].
  eapply kept_by; [|done]. split; [by exists P1, Q1|done].
Qed.

(** ** Demotion *)

Lemma requeue_env now l : ∀ p p',
  requeue now p l = Ok p' → config p' = config p ∧ signer p' = signer p ∧ pending p' = pending p.
Proof.
  unfold requeue. induction l as [|tx l IH]; intros p p'; cbn [fold_res]; [by intros [= <-]|].
  intros (p1 & E1 & (I1 & I2 & I3)%IH)%res_bind_Ok. apply res_bind_Ok in E1 as ([p2 r] & E1 & [= ->]).
  assert (config p1 = config p ∧ signer p1 = signer p ∧ pending p1 = pending p) as (J1 & J2 & J3); [|split_and!; congruence].
  unfold enqueueTx in E1. apply res_bind_Ok in E1 as ([[L b] old] & _ & E1). destruct b; cbn [negb] in E1.
  - injection E1 as <- _. destruct old; cbn [beats set_prices set_queue set_lists]; by destruct (beats p !! _).
  - by injection E1 as <- _.
Qed.

(** The transactions behind a gap are taken out of a list. *)
Lemma gap_ok now L l nonce :
  stands_for L l →
  ∃ gp l' L', stands_for L' l' ∧ strict L' = strict L ∧ l ≡ₚ l' ++ gp ∧ ∀ q,
    (if (0 <? list_Len L) && bool_decide (sm_Get (txs L) nonce = None)
     then '(l, gapped) ← list_Cap L 0; p ← requeue now q gapped; Ok (p, l) else Ok (q, L)) =
    p ← requeue now q gp; Ok (p, L').
Proof.
  intros HL. destruct (_ && _).
  - destruct (list_Cap_account L l 0 HL) as (L3 & l3 & gp & E & S3 & HL3 & P3 & _); [done|].
    exists gp, l3, L3. split_and!; [done|congruence|done|]. intros q. by rewrite E.
  - exists [], l, L. split_and!; [done|congruence|by rewrite app_nil_r|]. by intros q.
Qed.

(** Going back to the queue does not depend on what the pending lists are set to. *)
Lemma requeue_pending now p m l P Q T D :
  pool_ok (set_pending p m) P Q (l ++ T) D →
  ∃ p' Q', requeue now p l = Ok p' ∧ pool_ok (set_pending p' m) P Q' T D ∧ pending p' = pending p ∧ signer p' = signer p.
Proof.
  intros Hok. destruct (requeue_ok now l _ _ _ _ _ Hok) as (p2 & Q2 & E2 & H2 & _).
  rewrite requeue_set_pending in E2. apply res_bind_Ok in E2 as (p1 & E1 & [= <-]).
  destruct (requeue_env now l p p1 E1) as (_ & Es & Ep). by exists p1, Q2.
Qed.

Lemma demote_account_ok now p P Q a :
  pool_ok p P Q [] [] →
  ∃ p', demote_account now p a = Ok p' ∧ kept p p'.
Proof.
  intros Hok. unfold demote_account. destruct (pending p !! a) as [L|] eqn:EL; [|exists p; split; [done|]; split; [by exists P, Q|done]].
  destruct (lists_match_Some _ _ _ _ _ _ (po_pending _ _ _ _ _ Hok) EL) as (l & HP & [HL Hs Hf Hne]).
  set (nonce := state_nonce (currentState p) a).
  destruct (list_Forward_account L l nonce HL) as (L1 & l1 & fw & -> & S1 & HL1 & P1). cbn [mbind res_bind].
  destruct (list_Filter_account L1 l1 (state_balance (currentState (remove_all p fw)) a) (hd_GasLimit (currentHead (remove_all p fw))) HL1)
    as (L2 & l2 & dr & iv & -> & S2 & HL2 & P2 & _). cbn [mbind res_bind].
  destruct (gap_ok now L2 l2 nonce HL2) as (gp & l3 & L3 & HL3 & S3 & P3 & Hgap).
  assert (l ≡ₚ l3 ++ (fw ++ dr ++ iv ++ gp)) as Hall by (rewrite P1, P2, P3; solve_Permutation).
  pose proof (pending_shrinks p P Q [] [] a l L3 l3 _ Hok HP HL3 ltac:(congruence) Hall) as H1. rewrite app_nil_r in H1.
  apply remove_all_ok, remove_all_ok in H1. set (m := put_back (pending p) a L3) in *.
  change (remove_all (remove_all (set_pending p m) fw) dr) with (set_pending (remove_all (remove_all p fw) dr) m) in H1.
  destruct (requeue_pending now _ m iv _ _ _ _ H1) as (p1 & Q2 & -> & H2 & Ep1 & Es1). cbn [mbind res_bind]. rewrite Hgap.
  rewrite <- (app_nil_r gp) in H2. destruct (requeue_pending now _ m gp _ _ _ _ H2) as (p2 & Q3 & E2 & H3 & Ep2 & Es2).
  rewrite E2. cbn [mbind res_bind].
  assert (pending p2 = pending p ∧ signer p2 = signer p) as [Ep Es] by (rewrite Ep2, Ep1, Es2, Es1; done).
  eexists. split; [done|]. split; [|exact Es]. exists (keep P a l3), Q3. rewrite Ep. exact H3.
Qed.

Lemma demoteUnexecutables_ok now p : pool_inv p → ∃ p', demoteUnexecutables now p = Ok p' ∧ kept p p'.
Proof.
  intros Hp. unfold demoteUnexecutables. apply (fold_kept (demote_account now)); [|done].
  intros q a (P & Q & Hok) _. by apply (demote_account_ok now q P Q).
Qed.

(** ** Removing many *)

Lemma lk_Remove_Some t h h' x : lk_Get (lk_Remove t h) h' = Some x → lk_Get t h' = Some x.
Proof.
  unfold lk_Remove. destruct (lk_Get t h); [|done]. unfold lk_Get. cbn [lk_locals lk_remotes].
  destruct (decide (h = h')) as [<-|]; [by rewrite !lookup_delete_eq|]. by rewrite !lookup_delete_ne.
Qed.

(** The hashes of [l] belong to transactions of the account [a], if to any. *)
Definition of_account (p : LegacyPool) (a : Address) (l : list Transaction) : Prop :=
  Forall (λ tx, ∀ x, lk_Get (all p) (hash tx) = Some x → sender (signer p) x = a) l.

Lemma remove_many now ob l : ∀ p, pool_inv p →
  ∃ p', remove_txs now ob p l = Ok p' ∧ kept p p' ∧ ∀ a, of_account p a l → ∀ b, a ≠ b → untouched p p' b.
Proof.
  unfold remove_txs. induction l as [|tx l IH]; intros p Hp; cbn [fold_res]; [by exists p|]. destruct Hp as (P & Q & Hok).
  destruct (removeTx_ok now p P Q [] (hash tx) ob Hok) as (p1 & n & P1 & Q1 & -> & H1 & Es & Ea & Hun). cbn [mbind res_bind].
  destruct (IH p1) as (p2 & -> & Hk & Hu); [by exists P1, Q1|]. exists p2. split; [done|].
  split; [eapply kept_by; [|done]; split; [by exists P1, Q1|done]|].
  intros a Hof b Hb. apply Forall_cons in Hof as [Htx Hof].
  destruct (Hu a) with b as [U1 U2]; [|done|].
  - unfold of_account in *. rewrite Forall_forall in *. intros y Hy x. rewrite Ea, Es. intros Hx%lk_Remove_Some. by eapply Hof.
  - destruct (Hun b) as [V1 V2]; [intros x Hx; by rewrite (Htx x Hx)|]. split; congruence.
Qed.

Lemma list_of_account p P Q T D a l : pool_ok p P Q T D → P !! a = Some l ∨ Q !! a = Some l → of_account p a l.
Proof.
  intros Hok Hl. apply Forall_forall. intros tx Hin x Hx.
  assert (tx ∈ content P Q T ∧ sender (signer p) tx = a) as [Hc Hs].
  { unfold content. rewrite !elem_of_app. destruct Hl as [Hl|Hl].
    - split; [right; left; by eapply elem_of_values_intro|]. pose proof (po_pending _ _ _ _ _ Hok a) as Hm. rewrite Hl in Hm.
      inversion Hm as [? ? Ha|]; subst. by apply (proj1 (Forall_forall _ _) (al_sender _ _ _ _ _ Ha)).
    - split; [right; right; by eapply elem_of_values_intro|]. pose proof (po_queue _ _ _ _ _ Hok a) as Hm. rewrite Hl in Hm.
      inversion Hm as [? ? Ha|]; subst. by apply (proj1 (Forall_forall _ _) (al_sender _ _ _ _ _ Ha)). }
  rewrite (proj2 (lk_Get_Some _ _ _ tx (po_all _ _ _ _ _ Hok)) (conj Hc eq_refl)) in Hx. congruence.
Qed.

(** Flattening the queue of an account fills its cache. *)
Lemma flatten_queue p a L :
  pool_inv p → queue p !! a = Some L →
  ∃ L' l, list_Flatten L = (L', l) ∧ kept p (set_queue p (<[a := L']> (queue p))) ∧
    of_account (set_queue p (<[a := L']> (queue p))) a l ∧ list_Len L = Z.of_nat (length l).
Proof.
  intros (P & Q & Hok) HL. destruct (lists_match_Some _ _ _ _ _ _ (po_queue _ _ _ _ _ Hok) HL) as (l & HQ & Hl).
  destruct (list_Flatten_account L l (al_stands _ _ _ _ _ Hl)) as (L' & E & Hs & HL'). exists L', l.
  assert (pool_ok (set_queue p (<[a := L']> (queue p))) P Q [] []) as H1.
  { destruct Hok as [Hcfg Hp Hq HT Hu Ha Hpr]. split; cbn; try done. rewrite <- (insert_id Q a l) by done.
    apply lists_match_insert; [done|]. destruct Hl. split; [done|congruence|done|done]. }
  split_and!; [done|split; [by exists P, Q|done]| |by apply list_Len_account, Hl]. eapply list_of_account; [exact H1|by right].
Qed.

Lemma take_of_account p a l k : of_account p a l → k ⊆ l → of_account p a k.
Proof. intros Hl Hk. unfold of_account in *. rewrite Forall_forall in *. eauto. Qed.

Lemma truncate_queue_loop_ok now addrs : ∀ p drop,
  pool_inv p → NoDup addrs → Forall (λ a, is_Some (queue p !! a)) addrs →
  ∃ p', truncate_queue_loop now p addrs drop = Ok p' ∧ kept p p'.
Proof.
  induction addrs as [|a addrs IH]; intros p drop Hp Hnd Hq; cbn [truncate_queue_loop]; [by exists p|].
  apply NoDup_cons in Hnd as [Ha Hnd]. apply Forall_cons in Hq as [[L HL] Hq].
  destruct (_ <=? 0); [by exists p|]. rewrite HL. cbn [deref mbind res_bind].
  destruct (flatten_queue p a L Hp HL) as (L' & l & E & Hk & Hof & _). rewrite E. set (p1 := set_queue p _) in *.
  assert (∀ k d, k ⊆ l → ∃ p', (p2 ← remove_txs now true p1 k; truncate_queue_loop now p2 addrs d) = Ok p' ∧ kept p p') as Hgo.
  { intros k d Hsub. destruct (remove_many now true k p1 (kept_inv _ _ Hk)) as (p2 & -> & Hk2 & Hun). cbn [mbind res_bind].
    destruct (IH p2 d) as (p' & E' & Hk'); [by eapply kept_inv|done| |].
    - apply Forall_forall. intros b Hb. rewrite Forall_forall in Hq.
      assert (a ≠ b) as Hab by (intros ->; done).
      destruct (Hun a (take_of_account _ _ _ _ Hof Hsub) b Hab) as [Hqb _]. rewrite Hqb. cbn. rewrite lookup_insert_ne by done. by apply Hq.
    - exists p'. split; [done|]. eapply kept_by; [exact Hk|]. eapply kept_by; [exact Hk2|exact Hk']. }
  destruct (_ <=? drop); apply Hgo; [done|]. etrans; [apply subseteq_take|]. intros x. by rewrite elem_of_reverse.
Qed.

Lemma truncateQueue_ok now p : pool_inv p → ∃ p', truncateQueue now p = Ok p' ∧ kept p p'.
Proof.
  intros Hp. unfold truncateQueue. destruct (_ <=? _); [by exists p|].
  set (addrs := omap _ _). assert (∀ x, x ∈ addrs.*1 → is_Some (queue p !! x)) as Hin.
  { intros x ([y t] & -> & Hy)%list_elem_of_fmap. unfold addrs in Hy. apply list_elem_of_omap in Hy as ([z L] & Hz & E).
    destruct (as_contains _ z); [done|]. injection E as <- <-. apply range_map_elem in Hz. by eexists. }
  assert (NoDup addrs.*1) as Hnd.
  { pose proof (range_map_NoDup (queue p)) as Hr. unfold addrs. clear -Hr. induction (range_map (queue p)) as [|[a L] r IH]; [constructor|].
    cbn in Hr. apply NoDup_cons in Hr as [Ha Hr]. cbn [omap list_omap]. destruct (as_contains _ a); [by apply IH|]. cbn. constructor; [|by apply IH].
    intros ([y t] & -> & Hy)%list_elem_of_fmap. apply list_elem_of_omap in Hy as ([z L'] & Hz & E).
    destruct (as_contains _ z); [done|]. injection E as <- <-. apply Ha. apply list_elem_of_fmap. by exists (z, L'). }
  apply truncate_queue_loop_ok; [done| |].
  - rewrite reverse_Permutation, sort_slice_perm. done.
  - apply Forall_forall. intros x. rewrite elem_of_reverse, sort_slice_perm. apply Hin.
Qed.

Lemma evict_account_ok now p a : pool_inv p → ∃ p', evict_account now p a = Ok p' ∧ kept p p'.
Proof.
  intros Hp. unfold evict_account. destruct (as_contains _ a); [by exists p|]. destruct (_ <? _); [|by exists p].
  destruct (queue p !! a) as [L|] eqn:EL; [|by exists p]. destruct (flatten_queue p a L Hp EL) as (L' & l & E & Hk & _).
  rewrite E. destruct (remove_many now true l _ (kept_inv _ _ Hk)) as (p' & E' & Hk' & _).
  exists p'. split; [exact E'|]. eapply kept_by; [exact Hk|exact Hk'].
Qed.

Lemma evict_all_ok now p : pool_inv p → ∃ p', evict now p = Ok p' ∧ kept p p'.
Proof.
  unfold evict. generalize (range_map (queue p)).*1 as addrs. intros addrs. revert p.
  induction addrs as [|a addrs IH]; intros p Hp; cbn [fold_res]; [by exists p|].
  destruct (evict_account_ok now p a Hp) as (p1 & -> & Hk). cbn [mbind res_bind].
  destruct (IH p1 (kept_inv _ _ Hk)) as (p2 & -> & Hk2). exists p2. split; [done|]. by eapply kept_by.
Qed.

Lemma below_tip_ok t l : Forall has_amounts l → is_ok (below_tip t l).
Proof.
  induction 1 as [|x l Hx _ [k IH]]; cbn [below_tip]; [by eexists|]. apply amounts_ok in Hx as (_ & Et & _).
  unfold GasTipCapIntCmp. rewrite Et. cbn [mbind res_bind]. rewrite IH. by eexists.
Qed.

(** Every transaction of the pool has its amounts. *)
Lemma content_amounts p P Q : pool_ok p P Q [] [] → Forall has_amounts (content P Q []).
Proof.
  intros Hok. apply Forall_forall. intros x Hx. unfold content in Hx. cbn [app] in Hx. apply elem_of_app in Hx as [Hx|Hx].
  - destruct (in_content_list _ _ _ _ _ (po_pending _ _ _ _ _ Hok) Hx) as (L & l & _ & _ & Hl & Hin).
    by apply (proj1 (Forall_forall _ _) (sf_amounts _ _ _ (al_stands _ _ _ _ _ Hl))).
  - destruct (in_content_list _ _ _ _ _ (po_queue _ _ _ _ _ Hok) Hx) as (L & l & _ & _ & Hl & Hin).
    by apply (proj1 (Forall_forall _ _) (sf_amounts _ _ _ (al_stands _ _ _ _ _ Hl))).
Qed.

Lemma SetGasTip_ok now p tip : pool_inv p → ∃ p', SetGasTip now p tip = Ok p' ∧ kept p p'.
Proof.
  intros (P & Q & Hok). unfold SetGasTip. assert (pool_ok (set_tip p tip) P Q [] []) as H1 by (by eapply pool_ok_ext; [..|exact Hok]).
  destruct (_ <? tip); [|eexists; split; [done|]; split; [by exists P, Q|done]]. cbn [all set_tip].
  destruct (below_tip_ok tip (range_remotes (all p))) as [drop Ed].
  { eapply amounts_sub; [exact (content_amounts p P Q Hok)|]. intros x Hx. unfold range_remotes in Hx.
    apply list_elem_of_fmap in Hx as ([h y] & -> & Hy). apply range_map_elem in Hy. cbn [snd].
    rewrite <- (lo_txs _ _ (po_all _ _ _ _ _ Hok)). unfold lk_txs. apply elem_of_app. right.
    apply list_elem_of_fmap. exists (h, y). split; [done|]. by apply elem_of_map_to_list. }
  unfold RemotesBelowTip. rewrite Ed. cbn [mbind res_bind].
  destruct (remove_many now false drop (set_tip p tip)) as (p2 & E2 & [(P2 & Q2 & H2) Es] & _); [by exists P, Q|].
  rewrite E2. cbn [mbind res_bind]. eexists. split; [done|]. split; [|exact Es]. exists P2, Q2. by apply removed_ok.
Qed.
End reorg.
