(* ===== verification/PoolTruncate.v ===== *)
(** * The pool: truncation of the pending lists

    The accounts with the longest pending lists lose transactions until the pool is small
    enough: their lists are made equally long, one account more at a time.  No list is cut to
    nothing, the loops end, and the parts of the pool stay in agreement. *)

From S2P Require Import Prelude Bytes Params Common Heap Types StateDB Blocks.
From S2P Require Import PoolList PoolListProps PoolListRefine PoolAccount PoolPrice PoolPriceProps Pool PoolInv PoolAdd PoolReorg PoolReorgProps.

#[global] Instance prque_Less_order {V} : StrictWeak (@prque_Less V).
Proof.
  split; unfold le, prque_Less.
  - intros a b. rewrite Z.ltb_lt, Z.ltb_ge. lia.
  - intros a b c. rewrite !Z.ltb_ge. lia.
Qed.

Section truncate.
Context `{Crypto} `{GoRuntime}.

Definition same_env (p p' : LegacyPool) : Prop := signer p' = signer p ∧ config p' = config p.
Lemma same_env_trans p p1 p2 : same_env p p1 → same_env p1 p2 → same_env p p2.
Proof. unfold same_env. intuition congruence. Qed.

(** ** One transaction less *)

Lemma cap_fold a caps : ∀ p,
  let p' := foldl (λ p tx, set_nonces (set_all p (lk_Remove (all p) (hash tx)))
                             (setIfLower (pendingNonces p) a (tx_Nonce tx))) p caps in
  config p' = config p ∧ signer p' = signer p ∧ pending p' = pending p ∧ queue p' = queue p ∧ priced p' = priced p ∧
  all p' = all (remove_all p caps).
Proof. induction caps as [|tx caps IH]; intros p; cbn [foldl]; [done|]. edestruct IH as (-> & -> & -> & -> & -> & ->). done. Qed.

Lemma cap_one_ok p P Q a l :
  pool_ok p P Q [] [] → P !! a = Some l → (2 <= length l)%nat →
  ∃ p', cap_one p a = Ok p' ∧ pool_ok p' (<[a := take (length l - 1) l]> P) Q [] [] ∧ same_env p p'.
Proof.
  intros Hok HP Hlen. pose proof (po_pending _ _ _ _ _ Hok a) as Hm. rewrite HP in Hm. inversion Hm as [L ? Hl EL|]; subst.
  unfold cap_one. rewrite <- EL. cbn [deref mbind res_bind]. rewrite (list_Len_account L l) by apply Hl.
  destruct (list_Cap_account L l (Z.of_nat (length l) - 1) (al_stands _ _ _ _ _ Hl)) as (L' & kp & caps & -> & Hs & HL' & Hp & ->); [lia|].
  replace (Z.to_nat (Z.of_nat (length l) - 1)) with (length l - 1)%nat in * by lia. cbn [mbind res_bind].
  set (k := take (length l - 1) l) in *. assert (k ≠ []) as Hk.
  { intros E. apply (f_equal length) in E. unfold k in E. rewrite length_take in E. cbn in E. lia. }
  pose proof (pending_shrinks p P Q [] [] a l L' k caps Hok HP HL') as H1. rewrite Hs, (al_strict _ _ _ _ _ Hl) in H1.
  specialize (H1 eq_refl Hp). apply remove_all_ok in H1. unfold put_back in H1. rewrite (list_Empty_account L' k HL') in H1.
  rewrite bool_decide_false in H1 by done. replace (keep P a k) with (<[a := k]> P) in H1 by (by destruct k).
  set (p1 := set_pending p (<[a := L']> (pending p))) in *. pose proof (cap_fold a caps p1) as (E1 & E2 & E3 & E4 & E5 & E6).
  set (p2 := foldl _ p1 caps) in *. eexists. split; [done|]. split; [|split; [exact E2|exact E1]].
  apply removed_ok. eapply pool_ok_ext; [..|exact H1]; done.
Qed.

(** ** A round over the offenders *)

Definition equal_lens (P : gmap Address (list Transaction)) (os : list Address) (n : nat) : Prop :=
  ∀ a, a ∈ os → ∃ l, P !! a = Some l ∧ length l = n.

Lemma round_ok Q os : ∀ p P n,
  pool_ok p P Q [] [] → NoDup os → equal_lens P os n → (2 <= n)%nat →
  ∃ p' P', foldl (λ (acc : res LegacyPool) addr, p ← acc; cap_one p addr) (Ok p) os = Ok p' ∧ pool_ok p' P' Q [] [] ∧
    same_env p p' ∧ equal_lens P' os (n - 1) ∧ ∀ b, b ∉ os → P' !! b = P !! b.
Proof.
  induction os as [|a os IH]; intros p P n Hok Hnd Heq Hn; cbn [foldl].
  { exists p, P. split_and!; try done. intros a Ha. by apply not_elem_of_nil in Ha. }
  apply NoDup_cons in Hnd as [Ha Hnd]. destruct (Heq a ltac:(set_solver)) as (l & HP & Hl). cbn [mbind res_bind].
  destruct (cap_one_ok p P Q a l Hok HP ltac:(lia)) as (p1 & -> & H1 & Henv).
  destruct (IH p1 _ n H1 Hnd) as (p2 & P2 & E & H2 & Henv2 & Heq2 & Hout); [|done|].
  { intros b Hb. rewrite lookup_insert_ne by (intros ->; done). apply Heq. set_solver. }
  exists p2, P2. split_and!; [done|done|by eapply same_env_trans| |].
  - intros b [->|Hb]%elem_of_cons; [|by apply Heq2]. rewrite (Hout a Ha), lookup_insert_eq. eexists. split; [done|].
    rewrite length_take. lia.
  - intros b [Hb1 Hb2]%not_elem_of_cons. rewrite (Hout b Hb2). by rewrite lookup_insert_ne.
Qed.

Lemma pending_len_ok p P Q T D a l :
  pool_ok p P Q T D → P !! a = Some l → pending_len p a = Ok (Z.of_nat (length l)) ∧ rounds p a = S (length l).
Proof.
  intros Hok HP. pose proof (po_pending _ _ _ _ _ Hok a) as Hm. rewrite HP in Hm. inversion Hm as [L ? Hl EL|]; subst.
  unfold pending_len, rounds. rewrite <- EL. cbn [deref mbind res_bind]. rewrite (list_Len_account L l) by apply Hl. by rewrite Nat2Z.id.
Qed.

Lemma equalize_ok Q os last threshold fuel : ∀ p P count n,
  pool_ok p P Q [] [] → NoDup os → equal_lens P os n → last ∈ os → 1 <= threshold → (n < fuel)%nat →
  ∃ p' count' P' n', equalize fuel p os last threshold count = Ok (p', count') ∧ pool_ok p' P' Q [] [] ∧ same_env p p' ∧
    equal_lens P' os n' ∧ (∀ b, b ∉ os → P' !! b = P !! b) ∧
    (threshold <= Z.of_nat n → threshold <= Z.of_nat n') ∧ (count' <= GlobalSlots (config p') ∨ Z.of_nat n' <= threshold).
Proof.
  induction fuel as [|fuel IH]; intros p P count n Hok Hnd Heq Hlast Ht Hf; [lia|]. cbn [equalize].
  destruct (Z.leb_spec count (GlobalSlots (config p))) as [Hc|Hc].
  { exists p, count, P, n. split_and!; try done. by left. }
  destruct (Heq last Hlast) as (l & HP & Hl). destruct (pending_len_ok p P Q [] [] last l Hok HP) as [-> _]. cbn [mbind res_bind].
  destruct (Z.leb_spec (Z.of_nat (length l)) threshold) as [Hle|Hgt].
  { exists p, count, P, n. split_and!; try done. right. lia. }
  destruct (round_ok Q os p P n Hok Hnd Heq ltac:(lia)) as (p1 & P1 & -> & H1 & Henv & Heq1 & Hout). cbn [mbind res_bind].
  destruct (IH p1 P1 (count - Z.of_nat (length os))%u64 (n - 1)%nat H1 Hnd Heq1 Hlast Ht ltac:(lia))
    as (p2 & c2 & P2 & n2 & E & H2 & Henv2 & Heq2 & Hout2 & Hn2 & Hend).
  exists p2, c2, P2, n2. split_and!; try done.
  - by eapply same_env_trans.
  - intros b Hb. by rewrite Hout2, Hout.
  - intros _. apply Hn2. lia.
Qed.

(** ** Taking the offenders from the queue *)

(** The entries of the queue are accounts with their lengths, above the allowance. *)
Definition spammers_ok (slots : Z) (P : gmap Address (list Transaction)) (q : prque Address) : Prop :=
  ∀ a k, (a, k) ∈ q → ∃ l, P !! a = Some l ∧ Z.of_nat (length l) = k ∧ slots < k.

(** While the pool is too large: the offenders have equally long lists, not shorter than those in the queue. *)
Definition leveled (P : gmap Address (list Transaction)) (os : list Address) (q : prque Address) (slots : Z) : Prop :=
  os = [] ∨ ∃ n, equal_lens P os n ∧ slots < Z.of_nat n ∧ ∀ a k, (a, k) ∈ q → k <= Z.of_nat n.

Lemma take_offenders_ok Q fuel : ∀ p P q os count,
  pool_ok p P Q [] [] → heap prque_Less q → NoDup (os ++ q.*1) → spammers_ok (AccountSlots (config p)) P q →
  (GlobalSlots (config p) < count → leveled P os q (AccountSlots (config p))) →
  ∃ p' os' count' P', take_offenders fuel p q os count = Ok (p', os', count') ∧ pool_ok p' P' Q [] [] ∧ same_env p p' ∧ NoDup os' ∧
    (GlobalSlots (config p') < count' → leveled P' os' [] (AccountSlots (config p'))).
Proof.
  induction fuel as [|fuel IH]; intros p P q os count Hok Hh Hnd Hq Hlev; cbn [take_offenders].
  { exists p, os, count, P. split_and!; try done; [by apply NoDup_app in Hnd as [? _]|]. intros Hc.
    destruct (Hlev Hc) as [->|(n & Hn & Hs & _)]; [by left|]. right. exists n. split_and!; [done..|]. intros a k Hin. set_solver. }
  assert (∀ c, (GlobalSlots (config p) < c → leveled P os [] (AccountSlots (config p))) →
    ∃ p' os' count' P', Ok (p, os, c) = Ok (p', os', count') ∧ pool_ok p' P' Q [] [] ∧ same_env p p' ∧ NoDup os' ∧
    (GlobalSlots (config p') < count' → leveled P' os' [] (AccountSlots (config p')))) as Hstop.
  { intros c Hc. exists p, os, c, P. split_and!; try done. by apply NoDup_app in Hnd as [? _]. }
  destruct (Z.ltb_spec (GlobalSlots (config p)) count) as [Hc|Hc]; cbn [andb negb]; [|apply Hstop; lia].
  specialize (Hlev Hc). destruct q as [|e q0] eqn:Eq; [by apply Hstop|]. rewrite <- Eq in *.
  replace (prque_Empty q) with false by (by subst). cbn [negb]. unfold prque_Pop.
  destruct (heap_Pop_spec prque_Less q Hh) as (q' & E & Hh' & Hp); [by subst|].
  assert (∀ x, x ∈ q → x.2 <= (q !!! 0%nat).2) as Hmax.
  { intros x Hx. pose proof (heap_min_elem prque_Less q x Hh Hx) as Hle. unfold le, prque_Less in Hle. by apply Z.ltb_ge in Hle. }
  rewrite E. clear E. destruct (q !!! 0%nat) as [a k]. cbn [snd] in Hmax.
  destruct (Hq a k) as (l & HP & Hlen & Hslots); [rewrite <- Hp; set_solver|].
  rewrite <- Hp in Hnd. cbn in Hnd. rewrite <- Permutation_middle in Hnd. apply NoDup_cons in Hnd as [Ha Hnd].
  assert (spammers_ok (AccountSlots (config p)) P q') as Hq' by (intros b j Hb; apply Hq; rewrite <- Hp; set_solver).
  assert (∀ b j, (b, j) ∈ q' → j <= k) as Hk by (intros b j Hb; apply (Hmax (b, j)); rewrite <- Hp; set_solver).
  destruct (list.last os) as [last|] eqn:Elast.
  - assert (last ∈ os) as Hlast by (by apply last_Some_elem_of). destruct (pending_len_ok p P Q [] [] a l Hok HP) as [-> _]. cbn [mbind res_bind].
    destruct Hlev as [->|(n & Hn & Hsn & Hle)]; [done|]. destruct (Hn last Hlast) as (ll & HPl & Hll).
    destruct (pending_len_ok p P Q [] [] last ll Hok HPl) as [_ Hr]. rewrite Hr.
    assert (k <= Z.of_nat n) as Hkn by (apply (Hle a k); rewrite <- Hp; set_solver).
    destruct (po_config _ _ _ _ _ Hok) as [Hcs _].
    destruct (equalize_ok Q os last (Z.of_nat (length l)) (S (length ll)) p P count n Hok) as (p1 & c1 & P1 & n1 & -> & H1 & Henv & Heq1 & Hout & Hn1 & Hend);
      [by apply NoDup_app in Hnd as [? _]|done|done|lia|lia|]. cbn [mbind res_bind].
    destruct Henv as [Es Ec]. destruct (IH p1 P1 q' (os ++ [a]) c1 H1 Hh') as (p2 & os2 & c2 & P2 & -> & H2 & Henv2 & Hnd2 & Hlev2).
    + rewrite <- app_assoc. cbn. rewrite <- Permutation_middle. by constructor.
    + intros b j Hb. rewrite Ec. destruct (Hq' b j Hb) as (lb & HPb & Hlb). exists lb. rewrite Hout; [done|].
      intros Hin. apply NoDup_app in Hnd as (_ & Hdis & _). apply (Hdis b Hin). apply list_elem_of_fmap. by exists (b, j).
    + intros Hc1. right. rewrite Ec in *. destruct Hend as [Hend|Hend]; [lia|]. exists (length l). split_and!; [|lia|intros b j Hb; specialize (Hk b j Hb); lia].
      intros b [Hb| ->%list_elem_of_singleton]%elem_of_app.
      * destruct (Heq1 b Hb) as (lb & HPb & Hlb). exists lb. split; [done|]. lia.
      * exists l. rewrite Hout; [done|]. intros Hin. apply Ha. set_solver.
    + exists p2, os2, c2, P2. split_and!; try done. eapply same_env_trans; [|done]. done.
  - apply last_None in Elast as ->. cbn [app] in *. apply (IH p P q' [a]); [done|done|by constructor|done|]. intros _. right. exists (length l).
    split_and!; [|lia|intros b j Hb; specialize (Hk b j Hb); lia]. intros b ->%list_elem_of_singleton. eauto.
Qed.

(** ** truncatePending *)

Lemma spammers_fold (p : LegacyPool) (loc : accountSet) (n : Z) r : ∀ q,
  heap prque_Less q →
  let q' := foldl (λ q '(addr, l), if negb (as_contains loc addr) && (n <? list_Len l) then prque_Push q addr (list_Len l) else q) q r in
  heap prque_Less q' ∧ q' ≡ₚ q ++ omap (λ '(addr, l), if negb (as_contains loc addr) && (n <? list_Len l)
                                                      then Some (addr, list_Len l) else None) r.
Proof.
  induction r as [|[a l] r IH]; intros q Hq; cbn [foldl omap list_omap]; [by rewrite app_nil_r|].
  destruct (negb _ && _); [|by apply IH]. unfold prque_Push at 2 4.
  destruct (heap_Push_spec prque_Less q (a, list_Len l) Hq) as [Hh Hp]. destruct (IH _ Hh) as [H1 H2]. split; [done|].
  rewrite H2, Hp. solve_Permutation.
Qed.

Lemma truncatePending_ok p : pool_inv p → ∃ p', truncatePending p = Ok p' ∧ kept p p'.
Proof.
  intros (P & Q & Hok). unfold truncatePending. destruct (_ <=? _); [exists p; split; [done|]; split; [by exists P, Q|done]|].
  set (count := total_len (pending p)). clearbody count.
  destruct (spammers_fold p (locals p) (AccountSlots (config p)) (range_map (pending p)) []) as [Hh Hp]; [intros i j _ Hj; cbn in Hj; lia|].
  cbn [app] in Hp. fold (find_spammers p) in Hh, Hp. set (spam := find_spammers p) in *.
  assert (spammers_ok (AccountSlots (config p)) P spam) as Hsp.
  { intros a k Hin. rewrite Hp in Hin. apply list_elem_of_omap in Hin as ([b L] & Hb & E). destruct (negb _ && _) eqn:Ec; [|done].
    injection E as -> <-. apply range_map_elem in Hb. destruct (lists_match_Some _ _ _ _ _ _ (po_pending _ _ _ _ _ Hok) Hb) as (l & HP & Hl).
    apply andb_true_iff in Ec as [_ Ec%Z.ltb_lt]. rewrite (list_Len_account L l) in * by apply Hl. eauto. }
  assert (NoDup spam.*1) as Hnd.
  { rewrite Hp. pose proof (range_map_NoDup (pending p)) as Hr. clear -Hr. induction (range_map (pending p)) as [|[a L] r IH]; [constructor|].
    cbn in Hr. apply NoDup_cons in Hr as [Ha Hr]. cbn [omap list_omap]. destruct (negb _ && _); [|by apply IH]. cbn. constructor; [|by apply IH].
    intros ([y t] & -> & Hy)%list_elem_of_fmap. apply list_elem_of_omap in Hy as ([z L'] & Hz & E).
    destruct (negb _ && _); [|done]. injection E as <- <-. apply Ha. apply list_elem_of_fmap. by exists (z, L'). }
  destruct (take_offenders_ok Q (length spam) p P spam [] count Hok Hh Hnd Hsp) as (p1 & os & c1 & P1 & -> & H1 & [Es Ec] & Hnd1 & Hlev);
    [by left|]. cbn [mbind res_bind].
  assert (kept p p1) as Hk1 by (split; [by exists P1, Q|done]).
  destruct (list.last os) as [last|] eqn:Elast; [|by exists p1]. destruct (Z.leb_spec c1 (GlobalSlots (config p1))) as [Hc1|Hc1]; [by exists p1|].
  assert (last ∈ os) as Hlast by (by apply last_Some_elem_of).
  destruct Hlev as [->|(n & Hn & Hs & _)]; [done|done|]. destruct (Hn last Hlast) as (ll & HPl & Hll).
  destruct (pending_len_ok p1 P1 Q [] [] last ll H1 HPl) as [_ ->]. destruct (po_config _ _ _ _ _ H1) as [Hcs _].
  destruct (equalize_ok Q os last (AccountSlots (config p1)) (S (length ll)) p1 P1 c1 n H1 Hnd1 Hn Hlast Hcs ltac:(lia))
    as (p2 & c2 & P2 & n2 & -> & H2 & [Es2 _] & _). cbn [mbind res_bind]. exists p2. split; [done|]. split; [by exists P2, Q|congruence].
Qed.
End truncate.
