(* ===== verification/PoolRun.v ===== *)
(** * The pool: every run keeps the parts in agreement

    The operations of the pool, in any order, return and leave a pool whose lists, lookup and
    price heaps agree.  Together with the constant transaction hash this says what the pool
    does: it never holds two transactions. *)

From S2P Require Import Prelude Bytes Params Common Heap Types StateDB Blocks.
From S2P Require Import PoolList PoolListProps PoolListRefine PoolAccount PoolPrice PoolPriceProps.
From S2P Require Import Pool PoolInv PoolAdd PoolReorg PoolReorgProps PoolTruncate.

Section run.
Context `{Crypto} `{GoRuntime}.

(** ** addTxs *)

Lemma precheck_ok p tx local : well_formed (signer p) tx → is_ok (precheck p tx local).
Proof.
  intros [_ [[h tx'] Eh] [[r tx2] Es] _ [c Ec] [tip Et]]. unfold precheck. rewrite Eh. cbn [mbind res_bind].
  destruct (bool_decide _); [by eexists|]. unfold validateTxBasics, ValidateTransaction.
  unfold tx_Cost, tx_GasPrice in Ec. apply res_bind_Ok in Ec as (cap & Ecap & Ev). apply res_bind_Ok in Ev as (v & Ev & _).
  repeat (destruct (_ : bool); [by eexists|]). rewrite Ev. cbn [mbind res_bind]. repeat (destruct (_ : bool); [by eexists|]).
  unfold tx_GasFeeCap. rewrite Ecap. cbn [mbind res_bind]. destruct (_ : bool); [by eexists|]. rewrite Et. cbn [mbind res_bind].
  repeat (destruct (_ : bool); [by eexists|]). unfold sender_res. rewrite Es. cbn [mbind res_bind].
  destruct r as [e|a]; [by eexists|]. destruct (IntrinsicGas tx) as [e|g]; [by eexists|].
  destruct (_ <? g); [by eexists|]. destruct (_ <? 0); by eexists.
Qed.

Lemma news_ok (P : Transaction → Prop) txs : ∀ errs : list (option pool_error),
  Forall P txs → Forall P (omap (λ '(tx, e), match e with None => Some tx | Some _ => None end) (zip txs errs)).
Proof.
  intros errs Hf. apply Forall_forall. intros x Hx. apply list_elem_of_omap in Hx as ([y e] & Hy & E).
  destruct e; [done|]. injection E as ->. rewrite Forall_forall in Hf. apply Hf. apply elem_of_zip_l in Hy. done.
Qed.

Lemma addTxs_ok now p txs local :
  pool_inv p → Forall (well_formed (signer p)) txs →
  ∃ p' errs dirty, addTxs now p txs local = Ok (p', errs, dirty) ∧ kept p p'.
Proof.
  intros (P & Q & Hok) Hwf. unfold addTxs.
  destruct (mapM_res_total (λ tx, precheck p tx local) txs) as [errs E].
  { eapply Forall_impl; [exact Hwf|]. intros tx Htx. by apply precheck_ok. }
  rewrite E. cbn [mbind res_bind]. pose proof (news_ok _ txs errs Hwf) as Hn.
  set (news := omap _ _) in *. destruct news as [|x news]; [eexists _, _, _; split; [done|]; split; [by exists P, Q|done]|].
  destruct (addTxsLocked_ok now (x :: news) local p P Q Hok Hn) as (p' & errs' & dirty & P' & Q' & E' & H' & Es & _).
  rewrite E'. cbn [mbind res_bind]. eexists _, _, _. split; [done|]. split; [by exists P', Q'|done].
Qed.

(** ** Reset *)

(** A hashed transaction is as well-formed. *)
Lemma well_formed_hashed sg tx h tx' : tx_Hash tx = Ok (h, tx') → well_formed sg tx → well_formed sg tx'.
Proof.
  intros E [Hu Hh Hs Hd Hc Ht]. assert (inner tx' = inner tx ∧ tx_from tx' = tx_from tx ∧ is_Some (tx_hash tx')) as (Ei & Ef & [h' Eh]).
  { unfold tx_Hash in E. destruct (tx_hash tx) as [x|] eqn:Ex; [injection E as <- <-; eauto|].
    apply res_bind_Ok in E as (cpy & _ & [= <- <-]). done. }
  assert (signer_Sender sg tx' = signer_Sender sg tx) as Esg by (by apply signer_Sender_ext).
  split.
  - unfold tx_Nonce in *. by rewrite Ei.
  - unfold tx_Hash. rewrite Eh. by eexists.
  - destruct Hs as [[r t] Er]. unfold Sender in *. rewrite Ef, Esg. destruct (tx_from tx) as [sc|]; [destruct (signer_Equal _ _); [by eexists|]|];
      (destruct (signer_Sender sg tx); [by eexists|done]).
  - by rewrite Esg.
  - unfold tx_Cost, tx_GasPrice, tx_Value, tx_GasLimit in *. by rewrite Ei.
  - unfold tx_GasTipCap in *. by rewrite Ei.
Qed.

Lemma TxDifference_ok sg a b :
  Forall (well_formed sg) a → Forall (well_formed sg) b → ∃ l, TxDifference a b = Ok l ∧ Forall (well_formed sg) l.
Proof.
  intros Ha Hb. unfold TxDifference.
  destruct (mapM_res_total tx_Hash b) as [hb Eb]; [eapply Forall_impl; [exact Hb|]; by intros x []|].
  destruct (mapM_res_total tx_Hash a) as [ha Ea]; [eapply Forall_impl; [exact Ha|]; by intros x []|].
  rewrite Eb, Ea. cbn [mbind res_bind]. eexists. split; [done|]. apply mapM_res_Ok in Ea.
  apply Forall_forall. intros x ([h y] & -> & [_ Hin]%list_elem_of_filter)%list_elem_of_fmap. cbn.
  apply list_elem_of_lookup_1 in Hin as [i Hi]. destruct (Forall2_lookup_r _ _ _ _ _ Ea Hi) as (z & Hz & E).
  eapply well_formed_hashed; [done|]. rewrite Forall_forall in Ha. apply Ha. by eapply list_elem_of_lookup_2.
Qed.

(** What the pool relies on of the chain: a block has the number it is asked for by, no block
    has the largest number, and the transactions of blocks are well-formed. *)
Record chain_ok (sg : panguSigner) (c : BlockChain) : Prop := {
  co_number : ∀ h n b, GetBlock c h n = Some b → block_NumberU64 b = Ok n;
  co_last : ∀ h, GetBlock c h MaxUint64 = None;
  co_txs : ∀ h n b, GetBlock c h n = Some b → Forall (well_formed sg) (block_Transactions b);
}.

(** A block of the chain. *)
Definition block_ok (sg : panguSigner) (b : Block) (n : Z) : Prop :=
  block_NumberU64 b = Ok n ∧ u64_ok n ∧ Forall (well_formed sg) (block_Transactions b).

Lemma NumberU64_range b n : block_NumberU64 b = Ok n → u64_ok n.
Proof. unfold block_NumberU64. intros (x & _ & [= <-])%res_bind_Ok. apply u64_range. Qed.

Lemma GetBlock_ok sg c h n b : chain_ok sg c → GetBlock c h n = Some b → block_ok sg b n.
Proof.
  intros Hc Hb. pose proof (co_number _ _ Hc _ _ _ Hb) as Hn. split; [done|]. split; [by eapply NumberU64_range|].
  by eapply co_txs.
Qed.

Lemma parent_ok sg c b n :
  chain_ok sg c → block_ok sg b n →
  ∃ r, parent c b = Ok r ∧ match r with None => True | Some b' => 0 < n ∧ block_ok sg b' (n - 1) end.
Proof.
  intros Hc (Hn & Hu & _). unfold parent. rewrite Hn. cbn [mbind res_bind]. eexists. split; [done|].
  destruct (GetBlock c _ _) as [b'|] eqn:E; [|done]. unfold u64_ok in Hu. destruct (decide (n = 0)) as [->|].
  - change ((0 - 1)%u64) with MaxUint64 in E. by rewrite (co_last _ _ Hc) in E.
  - split; [lia|]. rewrite u64_id in E by (unfold u64_ok; lia). by apply (GetBlock_ok sg c (hd_ParentHash (b_header b))).
Qed.

(** What the descents give: transactions that are well-formed. *)
Definition descended (sg : panguSigner) (r : option (Block * list Transaction)) : Prop :=
  match r with None => True | Some (b, txs) => (∃ n, block_ok sg b n) ∧ Forall (well_formed sg) txs end.

Lemma descend_S fuel c b to txs n :
  block_NumberU64 b = Ok n →
  descend (S fuel) c b to txs =
  if n <=? to then Ok (Some (b, txs))
  else b' ← parent c b; match b' with None => Ok None | Some b' => descend fuel c b' to (txs ++ block_Transactions b) end.
Proof. intros Hn. cbn [descend]. by rewrite Hn. Qed.

Lemma descend_ok sg c to fuel : ∀ b n txs,
  chain_ok sg c → block_ok sg b n → Forall (well_formed sg) txs → n - to <= Z.of_nat fuel →
  ∃ r, descend (S fuel) c b to txs = Ok r ∧ descended sg r.
Proof.
  induction fuel as [|fuel IH]; intros b n txs Hc Hb Htx Hf; destruct (Hb) as (Hn & Hu & Hbt); rewrite (descend_S _ _ _ _ _ n Hn).
  all: destruct (Z.leb_spec n to); [eexists; split; [done|]; split; [by eexists|done]|].
  - lia.
  - destruct (parent_ok sg c b n Hc Hb) as (r & -> & Hr). cbn [mbind res_bind]. destruct r as [b'|]; [|by exists None].
    destruct Hr as [_ Hb']. apply (IH b' (n - 1)); [done|done| |lia]. by apply Forall_app.
Qed.

Lemma descend_both_ok sg c fuel : ∀ rem add r a d i,
  chain_ok sg c → block_ok sg rem r → block_ok sg add a → Forall (well_formed sg) d → Forall (well_formed sg) i → r < Z.of_nat fuel →
  ∃ o, descend_both fuel c rem add d i = Ok o ∧
    match o with None => True | Some (d, i) => Forall (well_formed sg) d ∧ Forall (well_formed sg) i end.
Proof.
  induction fuel as [|fuel IH]; intros rem add r a d i Hc Hr Ha Hd Hi Hf; [destruct Hr as (_ & [? ?] & _); lia|].
  cbn [descend_both]. destruct (_ =? _); [eexists; by split|].
  destruct (parent_ok sg c rem r Hc Hr) as (o & -> & Ho). cbn [mbind res_bind]. destruct o as [rem'|]; [|by exists None].
  destruct (parent_ok sg c add a Hc Ha) as (o' & -> & Ho'). cbn [mbind res_bind]. destruct o' as [add'|]; [|by exists None].
  destruct Ho as [_ Ho], Ho' as [_ Ho']. eapply IH; [done..| | |lia]; apply Forall_app; split; try done; [apply Hr|apply Ha].
Qed.

Lemma reinjected_ok sg c o n :
  chain_ok sg c → is_Some (hd_Number o) → is_Some (hd_Number n) →
  ∃ r, reinjected c o n = Ok r ∧ Forall (well_formed sg) (default [] r).
Proof.
  intros Hc [no Eo] [nn En]. unfold reinjected. rewrite Eo, En. cbn [deref mbind res_bind].
  destruct (_ =? _); [by exists (Some [])|]. destruct (64 <? _); [by exists (Some [])|].
  destruct (GetBlock c (header_Hash o) _) as [rem|] eqn:Er; [|destruct (_ <=? _); [by exists None|by exists (Some [])]].
  destruct (GetBlock c (header_Hash n) _) as [add|] eqn:Ea; [|by exists None].
  pose proof (GetBlock_ok _ _ _ _ _ Hc Er) as Hr. pose proof (GetBlock_ok _ _ _ _ _ Hc Ea) as Ha.
  set (r := u64 (Z.abs no)) in *. set (a := u64 (Z.abs nn)) in *. clearbody r a. rewrite (proj1 Ha), (proj1 Hr). cbn [mbind res_bind].
  destruct (descend_ok sg c a (Z.to_nat (r - a)) rem r [] Hc Hr ltac:(done) ltac:(lia)) as (d1 & -> & H1).
  cbn [mbind res_bind]. destruct d1 as [[rem1 t1]|]; [|by exists None]. destruct H1 as [[r1 Hr1] Ht1]. rewrite (proj1 Hr1). cbn [mbind res_bind].
  destruct (descend_ok sg c r1 (Z.to_nat (a - r1)) add a [] Hc Ha ltac:(done) ltac:(lia)) as (d2 & -> & H2).
  cbn [mbind res_bind]. destruct d2 as [[add2 t2]|]; [|by exists None]. destruct H2 as [[a2 Ha2] Ht2].
  destruct (Hr1) as (_ & Hu & _). unfold u64_ok in Hu.
  destruct (descend_both_ok sg c (S (Z.to_nat r1)) rem1 add2 r1 a2 t1 t2 Hc Hr1 Ha2 Ht1 Ht2 ltac:(lia)) as (d3 & -> & H3).
  cbn [mbind res_bind]. destruct d3 as [[dl il]|]; [|by exists None]. destruct (TxDifference_ok sg dl il) as (l & -> & Hl); [apply H3..|].
  by exists (Some l).
Qed.

(** Heads have numbers, and a new head comes with an old one. *)
Definition heads_ok (oldHead newHead : option Header) : Prop :=
  match oldHead with
  | None => True
  | Some o => is_Some (hd_Number o) ∧ match newHead with Some n => is_Some (hd_Number n) | None => False end
  end.

Lemma reset_ok now c p oldHead newHead :
  pool_inv p → chain_ok (signer p) c → heads_ok oldHead newHead → ∃ p', reset now c p oldHead newHead = Ok p' ∧ kept p p'.
Proof.
  intros Hp Hc Hh. unfold reset.
  assert (∃ r, match oldHead with None => Ok (Some []) | Some o => n ← deref newHead; reinjected c o n end = Ok r ∧
            Forall (well_formed (signer p)) (default [] r)) as (r & E & Hr).
  { destruct oldHead as [o|]; [|by exists (Some [])]. destruct Hh as [Ho Hn]. destruct newHead as [n|]; [|done].
    by apply reinjected_ok. }
  rewrite E. cbn [mbind res_bind]. destruct r as [l|]; [|by exists p]. destruct (StateAt c _) as [s|]; [|by exists p].
  destruct Hp as (P & Q & Hok). set (p1 := set_head p _ s).
  assert (pool_ok p1 P Q [] []) as H1 by (by eapply pool_ok_ext; [..|exact Hok]).
  destruct (addTxsLocked_ok now l false p1 P Q H1 Hr) as (p' & errs & dirty & P' & Q' & E' & H' & Es & _).
  rewrite E'. cbn [mbind res_bind]. exists p'. split; [done|]. split; [by exists P', Q'|done].
Qed.

(** ** Events and nonces *)

Definition events_ok (ev : gmap Address sortedMap) : Prop := ∀ a m, ev !! a = Some m → ∃ l, holds m l.

Lemma forward_events_ok p ev :
  pool_inv p → events_ok ev → ∃ p' ev', forward_events p ev = Ok (p', ev') ∧ kept p p'.
Proof.
  intros Hp Hev. unfold forward_events.
  assert (∀ a m, (a, m) ∈ range_map ev → ∃ l, holds m l) as Hr by (intros a m Hm; apply range_map_elem in Hm; eauto).
  clear Hev. revert Hr. generalize (range_map ev) as r. intros r. revert p ev Hp.
  induction r as [|[a m] r IH]; intros p ev Hp Hr; cbn [foldl]; [by eexists _, _|].
  cbn [mbind res_bind]. destruct (noncer_get (pendingNonces p) a) as [n nonce].
  destruct (Hr a m ltac:(set_solver)) as [l Hl]. destruct (Forward_holds m l nonce Hl) as (m' & E & _). rewrite E. cbn [mbind res_bind].
  destruct (IH (set_nonces p n) (if sm_Len m' =? 0 then delete a ev else <[a := m']> ev)) as (p' & ev' & E' & Hk);
    [|intros b m0 ?; apply (Hr b); set_solver|].
  - destruct Hp as (P & Q & Hok). exists P, Q. by eapply pool_ok_ext; [..|exact Hok].
  - eexists _, _. split; [exact E'|]. exact Hk.
Qed.

(** Replacing a list by one that stands for the same transactions. *)
Lemma same_list st sg m M a L L' l :
  lists_match st sg m M → M !! a = Some l → account_list st sg a L l → stands_for L' l → strict L' = strict L →
  lists_match st sg (<[a := L']> m) M.
Proof.
  intros Hm Hl [] Hs Ht. rewrite <- (insert_id M a l Hl). apply lists_match_insert; [done|]. split; try done. congruence.
Qed.

Lemma lists_match_range st sg m M a L :
  lists_match st sg m M → (a, L) ∈ range_map m → ∃ l, M !! a = Some l ∧ account_list st sg a L l.
Proof. intros Hm HL. apply range_map_elem in HL. by apply (lists_match_Some st sg m). Qed.

Lemma pending_nonces_ok p : pool_inv p → ∃ p', pending_nonces p = Ok p' ∧ kept p p'.
Proof.
  intros (P & Q & Hok). unfold pending_nonces.
  assert (∀ a L, (a, L) ∈ range_map (pending p) → ∃ l, P !! a = Some l ∧ account_list true (signer p) a L l) as Hr.
  { intros a L. apply lists_match_range, Hok. }
  assert (∃ p' ns, foldl (λ (acc : res (LegacyPool * gmap Address Z)) '(addr, l), '(p, ns) ← acc; '(l, tx) ← list_LastElement l;
            Ok (set_pending p (<[addr := l]> (pending p)), <[addr := (tx_Nonce tx + 1)%u64]> ns)) (Ok (p, ∅)) (range_map (pending p)) = Ok (p', ns) ∧
            pool_ok p' P Q [] [] ∧ signer p' = signer p) as (p' & ns & -> & H' & Es).
  2: { cbn [mbind res_bind]. eexists. split; [done|]. split; [|done]. exists P, Q. by eapply pool_ok_ext; [..|exact H']. }
  generalize (∅ : gmap Address Z) as ns. revert Hr. generalize (range_map (pending p)) as r. intros r Hr. generalize (eq_refl (signer p)).
  revert Hok. generalize p at 1 2 4 as q.
  induction r as [|[a L] r IH]; intros q Hok Es ns; cbn [foldl]; [by eexists _, _|]. cbn [mbind res_bind].
  destruct (Hr a L ltac:(set_solver)) as (l & Hl & Ha). destruct (exists_last (al_nonempty _ _ _ _ _ Ha)) as (l0 & tx & ->).
  destruct (list_LastElement_account L l0 tx (al_stands _ _ _ _ _ Ha)) as (L' & E & Est & HL'). rewrite E. cbn [mbind res_bind].
  apply IH; [intros; apply Hr; set_solver| |done]. rewrite <- Es in Ha. destruct Hok. split; try done. by eapply same_list.
Qed.

(** ** Reading *)

Lemma flatten_fold_ok st sg M r : ∀ m (out : gmap Address (list Transaction)) (f : Address → list Transaction → gmap Address (list Transaction) → gmap Address (list Transaction)),
  lists_match st sg m M → (∀ a L, (a, L) ∈ r → ∃ l, M !! a = Some l ∧ account_list st sg a L l) →
  lists_match st sg (foldl (λ '(m, out) '(a, L), let '(L, txs) := list_Flatten L in (<[a := L]> m, f a txs out)) (m, out) r).1 M.
Proof.
  induction r as [|[a L] r IH]; intros m out f Hm Hr; cbn [foldl]; [done|].
  destruct (Hr a L ltac:(set_solver)) as (l & Hl & Ha). destruct (list_Flatten_account L l (al_stands _ _ _ _ _ Ha)) as (L' & E & Es & HL).
  rewrite E. apply IH; [by eapply same_list|]. intros b K HK. apply Hr. set_solver.
Qed.

Lemma relist_ok p P Q pd qu :
  pool_ok p P Q [] [] → lists_match true (signer p) pd P → lists_match false (signer p) qu Q → kept p (set_lists p pd qu).
Proof. intros Hok Hp Hq. split; [|done]. exists P, Q. destruct Hok. by split. Qed.

Lemma Content_ok p : pool_inv p → kept p (Content p).1.1.
Proof.
  intros (P & Q & Hok). unfold Content.
  assert (∀ st m M, lists_match st (signer p) m M → lists_match st (signer p) (flatten_all m).1 M) as Hf.
  { intros st m M Hm. apply (flatten_fold_ok st (signer p) M (range_map m) m ∅ (λ a txs out, <[a := txs]> out)); [done|].
    intros a L. by apply lists_match_range. }
  pose proof (Hf _ _ _ (po_pending _ _ _ _ _ Hok)) as Hp. pose proof (Hf _ _ _ (po_queue _ _ _ _ _ Hok)) as Hq.
  destruct (flatten_all (pending p)), (flatten_all (queue p)). by eapply relist_ok.
Qed.

Lemma EffectiveGasTipIntCmp_ok tx t base : has_amounts tx → is_ok (EffectiveGasTipIntCmp tx t base).
Proof.
  intros (Ef & Et & _)%amounts_ok. unfold EffectiveGasTipIntCmp, EffectiveGasTipValue, EffectiveGasTip, GasTipCapIntCmp.
  unfold tx_GasFeeCap, tx_GasTipCap. rewrite Ef, Et. destruct base; by eexists.
Qed.

Lemma enough_tip_ok t base l : Forall has_amounts l → is_ok (enough_tip t base l).
Proof.
  induction 1 as [|x l Hx _ [k IH]]; cbn [enough_tip]; [by eexists|].
  destruct (EffectiveGasTipIntCmp_ok x t base Hx) as [c ->]. cbn [mbind res_bind]. destruct (c <? 0); [by eexists|]. rewrite IH. by eexists.
Qed.

Lemma pending_fold_ok p enforceTips sg M r : ∀ m out,
  lists_match true sg m M → (∀ a L, (a, L) ∈ r → ∃ l, M !! a = Some l ∧ account_list true sg a L l) →
  ∃ m' out', fold_res (pending_step p enforceTips) (m, out) r = Ok (m', out') ∧ lists_match true sg m' M.
Proof.
  induction r as [|[a L] r IH]; intros m out Hm Hr; cbn [fold_res]; [by eexists _, _|].
  destruct (Hr a L ltac:(set_solver)) as (l & Hl & Ha). pose proof (al_stands _ _ _ _ _ Ha) as HL.
  destruct (list_Flatten_account L l HL) as (L' & E & Es & HL'). cbn [pending_step]. rewrite E.
  assert (is_ok (if enforceTips && negb (as_contains (locals p) a) then enough_tip (gasTip p) (baseFee (priced p)) l else Ok l)) as [k ->].
  { destruct (_ && _); [|by eexists]. apply enough_tip_ok, (sf_amounts _ _ _ HL). }
  cbn [mbind res_bind]. apply IH; [by eapply same_list|]. intros b K HK. apply Hr. set_solver.
Qed.

Lemma Pending_ok p enforceTips : pool_inv p → ∃ p' out, Pending p enforceTips = Ok (p', out) ∧ kept p p'.
Proof.
  intros (P & Q & Hok). unfold Pending.
  destruct (pending_fold_ok p enforceTips (signer p) P (range_map (pending p)) (pending p) ∅ (po_pending _ _ _ _ _ Hok)) as (pd & out & -> & Hpd).
  { intros a L. apply lists_match_range, Hok. }
  cbn [mbind res_bind]. eexists _, _. split; [done|]. eapply relist_ok; [done|exact Hpd|apply Hok].
Qed.

(** ** The run of a reorganisation *)

Lemma runReorg_ok now c p req dirty ev :
  pool_inv p → chain_ok (signer p) c → events_ok ev → (∀ o n, req = Some (o, n) → heads_ok o n) →
  ∃ p' txs, runReorg now c p req dirty ev = Ok (p', txs) ∧ kept p p'.
Proof.
  intros Hp Hc Hev Hreq. unfold runReorg.
  match goal with |- context [mbind _ ?m] => assert (∃ p1 ev1 addrs, m = Ok (p1, ev1, addrs) ∧ kept p p1) as (p1 & ev1 & addrs & E1 & K1) end.
  { destruct req as [[o n]|]; [|by eexists _, _, _].
    destruct (reset_ok now c p o n Hp Hc (Hreq o n eq_refl)) as (p1 & E1 & K1). rewrite E1. cbn [mbind res_bind].
    destruct (forward_events_ok p1 ev) as (p2 & ev2 & E2 & K2); [by eapply kept_inv|done|].
    rewrite E2. cbn [mbind res_bind]. eexists _, _, _. split; [done|]. by eapply kept_by. }
  rewrite E1. cbn [mbind res_bind].
  destruct (promoteExecutables_ok now addrs p1 (kept_inv _ _ K1)) as (p2 & promoted & E2 & K2). rewrite E2. cbn [mbind res_bind].
  match goal with |- context [mbind _ ?m] => assert (∃ p3, m = Ok p3 ∧ kept p2 p3) as (p3 & E3 & K3) end.
  { apply kept_inv in K2. destruct req as [[o n]|]; [|by exists p2].
    destruct (demoteUnexecutables_ok now p2 K2) as (p3 & E3 & K3). rewrite E3. cbn [mbind res_bind].
    set (p4 := match n with Some _ => _ | None => _ end). assert (kept p3 p4) as K4.
    { destruct (kept_inv _ _ K3) as (P & Q & Hok). unfold p4. destruct n as [h|]; [|split; [by exists P, Q|done]].
      split; [|done]. exists P, Q. eapply priced_step; [done|]. apply Reheap_ok. }
    destruct (pending_nonces_ok p4 (kept_inv _ _ K4)) as (p5 & E5 & K5). exists p5. split; [done|]. eapply kept_by; [exact K3|]. by eapply kept_by. }
  rewrite E3. cbn [mbind res_bind].
  destruct (truncatePending_ok p3 (kept_inv _ _ K3)) as (p4 & E4 & K4). rewrite E4. cbn [mbind res_bind].
  destruct (truncateQueue_ok now p4 (kept_inv _ _ K4)) as (p5 & E5 & K5). rewrite E5. cbn [mbind res_bind].
  eexists _, _. split; [done|]. eapply kept_by; [exact K1|]. eapply kept_by; [exact K2|]. eapply kept_by; [exact K3|].
  eapply kept_by; [exact K4|]. destruct K5 as [(P & Q & Hok) Es]. split; [|done]. exists P, Q. by eapply pool_ok_ext; [..|exact Hok].
Qed.
End run.
