(* ===== verification/PoolSchedule.v ===== *)
(** * The pool: the goroutines around it (legacypool.go: scheduleReorgLoop, loop)

    Callers add transactions and ask for promotion, the aggregating pool asks for resets, a
    single scheduling loop collects the requests and launches one reorganisation at a time,
    tickers evict.  The state holds the pool, the requests on their way and what the loop
    remembers; a step is one critical section of one goroutine.  Events sent while the lock of
    the pool is held are delivered by steps of their own, so that every order in which the
    loop can receive them is a run. *)

From S2P Require Import Prelude Bytes Params Common Heap Types StateDB Blocks.
From S2P Require Import PoolList PoolListProps PoolListRefine PoolAccount PoolPrice PoolPriceProps.
From S2P Require Import Pool PoolInv PoolAdd PoolReorg PoolReorgProps PoolTruncate PoolRun.

(** What a run is launched with. *)
Record job := mkJob {
  job_reset : option (option Header * option Header);
  job_dirty : option accountSet;
  job_events : gmap Address sortedMap;
}.
Definition no_job : job := mkJob None None ∅.

(** [curDone]: no run, a run that is active, a run that is over and not yet noticed. *)
Inductive activity := Idle | Running (j : job) | Finished.

Record sys := mkSys {
  pool : LegacyPool;
  outbox : list accountSet; (* callers blocked in requestPromoteExecutables *)
  curDone : activity;
  launchNextRun : bool;
  next : job; (* reset, dirtyAccounts and queuedEvents of the loop *)
}.

Definition set_pool (s : sys) (p : LegacyPool) : sys := mkSys p (outbox s) (curDone s) (launchNextRun s) (next s).

Section schedule.
Context `{Crypto} `{GoRuntime}.

(** ** The cases of the loop *)

Definition recv_reset (j : job) (oldHead newHead : option Header) : job :=
  mkJob (Some (match job_reset j with None => (oldHead, newHead) | Some (o, _) => (o, newHead) end)) (job_dirty j) (job_events j).

Definition recv_promote (j : job) (req : accountSet) : job :=
  mkJob (job_reset j) (Some (match job_dirty j with None => req | Some d => as_merge d req end)) (job_events j).

Definition recv_event (p : LegacyPool) (j : job) (tx : Transaction) : job :=
  mkJob (job_reset j) (job_dirty j) (put_event p (job_events j) tx).

(** The launch of the next run: everything collected goes with it. *)
Definition launch (s : sys) : sys := mkSys (pool s) (outbox s) (Running (next s)) false no_job.

Definition run_job (now : Z) (c : BlockChain) (p : LegacyPool) (j : job) : res (LegacyPool * list Transaction) :=
  runReorg now c p (job_reset j) (job_dirty j) (job_events j).

(** ** Steps *)

Inductive loop_step (sg : panguSigner) : sys → sys → Prop :=
| step_promote s before req after :
    outbox s = before ++ req :: after →
    loop_step sg s (mkSys (pool s) (before ++ after) (curDone s) true (recv_promote (next s) req))
| step_event s tx rest :
    events (pool s) = tx :: rest →
    loop_step sg s (mkSys (set_logs (pool s) (journal (pool s)) rest) (outbox s) (curDone s) (launchNextRun s)
                      (recv_event (pool s) (next s) tx))
| step_launch s :
    curDone s = Idle → launchNextRun s = true → loop_step sg s (launch s)
| step_run s now c j p announced :
    curDone s = Running j → chain_ok sg c → run_job now c (pool s) j = Ok (p, announced) →
    loop_step sg s (mkSys p (outbox s) Finished (launchNextRun s) (next s))
| step_done s :
    curDone s = Finished → loop_step sg s (mkSys (pool s) (outbox s) Idle (launchNextRun s) (next s)).

Inductive sys_step (sg : panguSigner) : sys → sys → Prop :=
| step_loop s s' : loop_step sg s s' → sys_step sg s s'
| step_add s now txs isLocal p errs dirty :
    Forall (well_formed sg) txs → addTxs now (pool s) txs isLocal = Ok (p, errs, dirty) →
    sys_step sg s (mkSys p (outbox s ++ option_list dirty) (curDone s) (launchNextRun s) (next s))
| step_reset s o n :
    is_Some (hd_Number o) → is_Some (hd_Number n) →
    sys_step sg s (mkSys (pool s) (outbox s) (curDone s) true (recv_reset (next s) (Some o) (Some n)))
| step_tip s now tip p : SetGasTip now (pool s) tip = Ok p → sys_step sg s (set_pool s p)
| step_evict s now p : evict now (pool s) = Ok p → sys_step sg s (set_pool s p)
| step_content s : sys_step sg s (set_pool s (Content (pool s)).1.1)
| step_pending s enforceTips p txs : Pending (pool s) enforceTips = Ok (p, txs) → sys_step sg s (set_pool s p).

(** The pool after [New] and [Init]. *)
Definition start (c : Config) (chainID : option Z) (tip : Z) (head : Header) (st : ChainState) : sys :=
  mkSys (New c chainID tip head st) [] Idle false no_job.

(** ** The invariant *)

(** The accounts of a request are not flattened before the run that promotes them. *)
Definition unflattened (d : accountSet) : Prop := as_cache d = None.

Record job_ok (j : job) : Prop := {
  jo_events : events_ok (job_events j);
  jo_heads : ∀ o n, job_reset j = Some (o, n) → heads_ok o n;
  jo_dirty : ∀ d, job_dirty j = Some d → unflattened d;
}.

Record sys_ok (sg : panguSigner) (s : sys) : Prop := {
  so_pool : pool_inv (pool s);
  so_signer : signer (pool s) = sg;
  so_outbox : Forall unflattened (outbox s);
  so_next : job_ok (next s);
  so_running : ∀ j, curDone s = Running j → job_ok j;
  so_asked : is_Some (job_reset (next s)) ∨ is_Some (job_dirty (next s)) → launchNextRun s = true;
}.

(** Fields of a configuration are unsigned; the limit of a queue is converted to an [int]. *)
Definition config_fields (c : Config) : Prop :=
  u64_ok (AccountSlots c) ∧ u64_ok (GlobalSlots c) ∧ 0 <= AccountQueue c < 2 ^ 63 ∧ u64_ok (GlobalQueue c).

Lemma sanitize_ok c : config_fields c → config_ok (sanitize c).
Proof.
  unfold config_fields, config_ok, u64_ok, sanitize. intros (? & ? & ? & ?). cbn -[Z.pow].
  repeat match goal with |- context [?x <? 1] => destruct (Z.ltb_spec x 1) end; lia.
Qed.

Lemma New_ok c chainID tip head st : config_fields c → pool_inv (New c chainID tip head st).
Proof.
  intros Hc. exists ∅, ∅. assert (content ∅ ∅ [] = []) as E by (unfold content, values; by rewrite map_to_list_empty).
  split; rewrite ?E; cbn [New config signer pending queue all priced].
  - by apply sanitize_ok.
  - intros a. rewrite !lookup_empty. constructor.
  - intros a. rewrite !lookup_empty. constructor.
  - done.
  - constructor.
  - apply lookup_ok_new.
  - apply priced_ok_new.
Qed.

Lemma no_job_ok : job_ok no_job.
Proof. split; [|done|done]. intros a m. cbn. by rewrite lookup_empty. Qed.

Lemma start_ok c chainID tip head st : config_fields c → sys_ok (NewPanguSigner chainID) (start c chainID tip head st).
Proof. intros Hc. split; cbn; [by apply New_ok|done|done|apply no_job_ok|done|]. by intros [[? ?]|[? ?]]. Qed.

Lemma set_pool_ok sg s p : sys_ok sg s → kept (pool s) p → sys_ok sg (set_pool s p).
Proof. intros [] [Hp Es]. split; try done. cbn. congruence. Qed.

Lemma put_event_ok p ev tx : events_ok ev → events_ok (put_event p ev tx).
Proof.
  intros Hev a m. unfold put_event. set (b := sender _ _). destruct (decide (b = a)) as [<-|].
  - rewrite lookup_insert_eq. intros [= <-]. destruct (ev !! b) as [m|] eqn:E; cbn [default].
    + destruct (Hev b m E) as [l Hl]. exists (put tx l). by apply Put_holds.
    + exists (put tx []). apply Put_holds. apply holds_new.
  - rewrite lookup_insert_ne by done. apply Hev.
Qed.

Lemma recv_promote_ok j req : job_ok j → unflattened req → job_ok (recv_promote j req).
Proof. intros [] Hf. split; try done. cbn. destruct (job_dirty j); by intros d [= <-]. Qed.

Lemma recv_event_ok p j tx : job_ok j → job_ok (recv_event p j tx).
Proof. intros []. split; try done. by apply put_event_ok. Qed.

Lemma recv_reset_ok j o n : job_ok j → is_Some (hd_Number o) → is_Some (hd_Number n) → job_ok (recv_reset j (Some o) (Some n)).
Proof.
  intros [He Hh Hd] Ho Hn. split; try done. cbn. intros o' n' [= E].
  destruct (job_reset j) as [[o1 n1]|] eqn:Ej; injection E as <- <-; [|done].
  specialize (Hh _ _ eq_refl). destruct o1; [|done]. by split; [apply Hh|].
Qed.

Lemma loop_step_ok sg s s' : loop_step sg s s' → sys_ok sg s → sys_ok sg s'.
Proof.
  intros Hs [Hp Eg Hf Hj Hr Ha]. destruct Hs as [s l1 req l2 E|s tx rest E|s E El|s now c j p out E Hc Er|s E].
  - rewrite E in Hf. apply Forall_app in Hf as [Hf1 [Hreq Hf2]%Forall_cons]. split; cbn; try done; [by apply Forall_app|by apply recv_promote_ok].
  - split; cbn; try done; [|by apply recv_event_ok].
    destruct Hp as (P & Q & Hok). exists P, Q. by eapply pool_ok_ext; [..|exact Hok].
  - split; cbn; [done|done|done|apply no_job_ok| |by intros [[? ?]|[? ?]]]. by intros j [= <-].
  - subst sg. destruct (Hr j E) as [He Hh Hd].
    destruct (runReorg_ok now c (pool s) (job_reset j) (job_dirty j) (job_events j) Hp Hc He Hh) as (p' & txs & E' & K & Es).
    unfold run_job in Er. rewrite E' in Er. injection Er as <- <-. by split.
  - by split.
Qed.

Lemma newAccountSet_fresh sg addrs : unflattened (newAccountSet sg addrs).
Proof.
  unfold newAccountSet. assert (unflattened (mkAccountSet ∅ sg None)) as Hf by done. revert Hf. generalize (mkAccountSet ∅ sg None).
  induction addrs as [|a addrs IH]; intros d Hd; cbn [foldl]; [done|]. by apply IH.
Qed.

Lemma addTx_fresh d tx : unflattened d → unflattened (addTx d tx).
Proof. unfold addTx. intros Hd. by destruct (sender_res _ _) as [[?|?]|]. Qed.

Lemma add_fold_fresh now local l : ∀ p e0 d0 p' errs d,
  unflattened d0 → fold_res (add_step now local) (p, e0, d0) l = Ok (p', errs, d) → unflattened d.
Proof.
  induction l as [|tx l IH]; intros p e0 d0 p' errs d Hd; cbn [fold_res]; [by intros [= _ _ <-]|].
  intros ([[p1 e1] d1] & E1 & E2)%res_bind_Ok. cbn [add_step] in E1. apply res_bind_Ok in E1 as ([p2 r] & _ & E1).
  apply (IH p1 e1 d1 p' errs d); [|done]. destruct r as [e|b]; injection E1 as _ _ <-; [done|]. destruct b; [done|]. by apply addTx_fresh.
Qed.

Lemma addTxs_fresh now p txs local p' errs d : addTxs now p txs local = Ok (p', errs, Some d) → unflattened d.
Proof.
  unfold addTxs. intros (es & _ & E)%res_bind_Ok. set (news := omap _ _) in E. destruct news as [|x news]; [done|].
  apply res_bind_Ok in E as ([[p1 e1] d1] & E & [= _ _ ->]). eapply add_fold_fresh; [|exact E]. apply newAccountSet_fresh.
Qed.

Lemma sys_step_ok sg s s' : sys_step sg s s' → sys_ok sg s → sys_ok sg s'.
Proof.
  intros Hs Hok. destruct Hs as [s s' Hs|s now txs lc p errs dirty Hw E|s o n Ho Hn|s now tip p E|s now p E|s|s e p txs E].
  - by eapply loop_step_ok.
  - destruct Hok as [Hp Eg Hf Hn Hr Ha]. subst sg. destruct (addTxs_ok now (pool s) txs lc Hp Hw) as (p' & errs' & d & E' & K & Es).
    assert (Forall unflattened (option_list dirty)) as Hd.
    { destruct dirty as [d0|]; [|done]. constructor; [by eapply addTxs_fresh|done]. }
    rewrite E' in E. injection E as <- <- <-. split; try done. by apply Forall_app.
  - destruct Hok. split; cbn; try done. by apply recv_reset_ok.
  - apply set_pool_ok; [done|]. destruct (SetGasTip_ok now (pool s) tip (so_pool _ _ Hok)) as (p' & E' & K). congruence.
  - apply set_pool_ok; [done|]. destruct (evict_all_ok now (pool s) (so_pool _ _ Hok)) as (p' & E' & K). congruence.
  - apply set_pool_ok; [done|]. apply Content_ok, Hok.
  - apply set_pool_ok; [done|]. destruct (Pending_ok (pool s) e (so_pool _ _ Hok)) as (p' & out & E' & K). congruence.
Qed.

Lemma reachable_ok sg s s' : rtc (sys_step sg) s s' → sys_ok sg s → sys_ok sg s'.
Proof. induction 1; [done|]. intros. eauto using sys_step_ok. Qed.

(** ** Safety *)

(** C6: Take a configuration whose [AccountQueue] fits an [int].  In every state the goroutines of
    the pool can reach from a unflattened pool, whatever the order of their critical sections, the
    pending lists, the queue, the lookup and the price heaps of the pool agree, and no operation
    panics there: a batch of transactions is added, a launched reorganisation returns, and so
    do an eviction, a change of the tip and a read of the pending transactions. *)
Theorem pool_reachable c chainID tip head st s :
  config_fields c → rtc (sys_step (NewPanguSigner chainID)) (start c chainID tip head st) s →
  pool_inv (pool s) ∧
  (∀ now txs isLocal, Forall (well_formed (NewPanguSigner chainID)) txs → is_ok (addTxs now (pool s) txs isLocal)) ∧
  (∀ now ch j, curDone s = Running j → chain_ok (NewPanguSigner chainID) ch → is_ok (run_job now ch (pool s) j)) ∧
  (∀ now t, is_ok (evict now (pool s)) ∧ is_ok (SetGasTip now (pool s) t)) ∧
  (∀ enforceTips, is_ok (Pending (pool s) enforceTips)).
Proof.
  intros Hc Hs. pose proof (reachable_ok _ _ _ Hs (start_ok c chainID tip head st Hc)) as [Hp Eg _ _ Hr _].
  split; [done|]. rewrite <- Eg. split_and!.
  - intros now txs lc Hw. destruct (addTxs_ok now (pool s) txs lc Hp Hw) as (p & e & d & -> & _). by eexists.
  - intros now ch j Hj Hch. destruct (Hr j Hj) as [He Hh _].
    destruct (runReorg_ok now ch (pool s) (job_reset j) (job_dirty j) (job_events j) Hp Hch He Hh) as (p & txs & E & _).
    by eexists.
  - intros now t. destruct (evict_all_ok now (pool s) Hp) as (p & -> & _), (SetGasTip_ok now (pool s) t Hp) as (p' & -> & _). split; by eexists.
  - intros e. destruct (Pending_ok (pool s) e Hp) as (p & out & -> & _). by eexists.
Qed.

(** The limit matters: with a larger [AccountQueue], which [sanitize] lets through, the
    conversion is negative, and the promotion of an account that is not local panics. *)
Lemma unbounded_queue_panics now p a L :
  queue p !! a = Some L → as_contains (locals p) a = false → 2 ^ 63 <= AccountQueue (config p) < 2 ^ 64 →
  ∃ msg, promote_account now p a = Panic msg.
Proof.
  intros HL Hl Hq. unfold promote_account. rewrite HL.
  destruct (list_Forward _ _) as [[L1 fw]|]; cbn [mbind res_bind]; [|by eexists].
  destruct (list_Filter _ _ _) as [[[L2 dr] iv]|]; cbn [mbind res_bind]; [|by eexists].
  destruct (noncer_get _ a) as [nn next]. destruct (list_Ready _ _) as [[L3 rd]|]; cbn [mbind res_bind]; [|by eexists].
  destruct (fold_res _ _ rd) as [[q out]|] eqn:E; cbn [mbind res_bind]; [|by eexists].
  apply promote_fold_env in E as (Ec & _ & El & _). cbn in Ec, El. rewrite El, Hl, Ec. unfold list_Cap.
  destruct (Cap_negative (txs L3) (to_int64 (AccountQueue (config p)))) as [msg ->]; [|by exists msg].
  unfold to_int64. rewrite (proj2 (Z.ltb_ge _ _)) by lia. lia.
Qed.

(** ** Progress *)

Definition settled (s : sys) : Prop :=
  outbox s = [] ∧ events (pool s) = [] ∧ curDone s = Idle ∧ launchNextRun s = false ∧
  job_reset (next s) = None ∧ job_dirty (next s) = None.

Lemma loop_rtc_ok sg s s' : rtc (loop_step sg) s s' → sys_ok sg s → sys_ok sg s'.
Proof. induction 1; [done|]. intros. eauto using loop_step_ok. Qed.

(** *** The loop comes to rest *)

(** What is still to be done: a request may cause a launch, a launch a run. *)
Definition work (s : sys) : nat :=
  6 * length (outbox s) + (if launchNextRun s then 3 else 0) +
  match curDone s with Idle => 0 | Running _ => 2 | Finished => 1 end.

(** A step works something off; a run may give rise to any number of events. *)
Lemma loop_step_work sg s s' :
  loop_step sg s s' →
  (work s' < work s)%nat ∨ work s' = work s ∧ (length (events (pool s')) < length (events (pool s)))%nat.
Proof.
  intros [t l1 req l2 E|t tx rest E|t E El|t now c j p out E Hc Er|t E]; unfold work; cbn [outbox launchNextRun curDone launch pool].
  - left. rewrite E, !length_app. cbn [length]. destruct (launchNextRun t), (curDone t); lia.
  - right. rewrite E. cbn. lia.
  - left. rewrite E, El. lia.
  - left. rewrite E. lia.
  - left. rewrite E. lia.
Qed.

Lemma loop_terminates sg s : sn (loop_step sg) s.
Proof.
  remember (work s) as w eqn:Ew. remember (length (events (pool s))) as n eqn:En. revert n s Ew En.
  induction (lt_wf w) as [w _ IHw]. intros n. induction (lt_wf n) as [n _ IHn]. intros s -> ->.
  constructor. intros s' Hs. destruct (loop_step_work sg s s' Hs) as [Hw|[Ew Hn]]; [by eapply IHw|].
  by eapply IHn; [exact Hn| |].
Qed.

(** A state in which the loop can do nothing has nothing left to do. *)
Lemma stuck_settled sg ch s : sys_ok sg s → chain_ok sg ch → nf (loop_step sg) s → settled s.
Proof.
  intros Hok Hch Hnf. assert (∀ s', ¬ loop_step sg s s') as Hno by (intros s' Hs; apply Hnf; by exists s').
  assert (curDone s = Idle) as Ec.
  { destruct (curDone s) as [|j|] eqn:E; [done| |].
    - destruct Hok as [Hp Eg _ _ Hr _]. subst sg. destruct (Hr j E) as [He Hh _].
      destruct (runReorg_ok 0 ch (pool s) (job_reset j) (job_dirty j) (job_events j) Hp Hch He Hh) as (p & txs & Er & _).
      destruct (Hno _ (step_run _ s 0 ch j p txs E Hch Er)).
    - destruct (Hno _ (step_done _ s E)). }
  assert (launchNextRun s = false) as El.
  { destruct (launchNextRun s) eqn:E; [|done]. destruct (Hno _ (step_launch _ s Ec E)). }
  pose proof (so_asked _ _ Hok) as Ha. rewrite El in Ha. split_and!; try done.
  - destruct (outbox s) as [|req l] eqn:E; [done|]. destruct (Hno _ (step_promote _ s [] req l E)).
  - destruct (events (pool s)) as [|tx l] eqn:E; [done|]. destruct (Hno _ (step_event _ s tx l E)).
  - destruct (job_reset (next s)); [by discriminate Ha; left|done].
  - destruct (job_dirty (next s)); [by discriminate Ha; right|done].
Qed.

(** *** No request is lost *)

(** Between [s] and [t] a run is executed whose job satisfies [P]. *)
Definition ran (sg : panguSigner) (s t : sys) (P : job → Prop) : Prop :=
  ∃ u j now c p announced,
    rtc (loop_step sg) s u ∧ curDone u = Running j ∧ P j ∧ run_job now c (pool u) j = Ok (p, announced) ∧
    rtc (loop_step sg) (mkSys p (outbox u) Finished (launchNextRun u) (next u)) t.

Lemma ran_before sg s s' t P : loop_step sg s s' → ran sg s' t P → ran sg s t P.
Proof. intros Hs (u & j & now & c & p & out & Hr & ?). exists u, j, now, c, p, out. split; [|done]. by eapply rtc_l. Qed.

(** What later requests and events do not take away from a job. *)
Definition lasting (P : job → Prop) : Prop :=
  (∀ j req, P j → P (recv_promote j req)) ∧ (∀ p j tx, P j → P (recv_event p j tx)).

Lemma lasting_ran sg P s t :
  lasting P → rtc (loop_step sg) s t → settled t → ¬ P (next t) →
  P (next s) ∨ (∃ j, curDone s = Running j ∧ P j) → ran sg s t P.
Proof.
  intros [Hp He] Hr (_ & _ & Hi & _) Hn. induction Hr as [t|s s' t Hs Hr IH].
  { intros [?|(j & E & _)]; [done|congruence]. }
  intros HP. pose proof Hs as Hs'. destruct Hs as [s l1 req l2 E|s tx rest E|s E El|s now c j p out E Hc Er|s E].
  - eapply ran_before; [done|]. apply IH; [done..|]. destruct HP as [?|?]; [left; by apply Hp|by right].
  - eapply ran_before; [done|]. apply IH; [done..|]. destruct HP as [?|?]; [left; by apply He|by right].
  - eapply ran_before; [done|]. apply IH; [done..|]. destruct HP as [?|(j & E' & _)]; [right; by eexists|congruence].
  - destruct HP as [HP|(j' & E' & HP)]; [eapply ran_before; [done|]; apply IH; [done..|by left]|].
    rewrite E in E'. injection E' as <-. by exists s, j, now, c, p, out.
  - eapply ran_before; [done|]. apply IH; [done..|]. destruct HP as [?|(j & E' & _)]; [by left|congruence].
Qed.

(** The accounts of a request are among those of a job. *)
Definition covers (req : accountSet) (j : job) : Prop := ∃ d, job_dirty j = Some d ∧ accounts req ⊆ accounts d.

Lemma merge_accounts d req : accounts (as_merge d req) = accounts d ∪ accounts req.
Proof.
  unfold as_merge. cbn [accounts]. assert (∀ l acc, foldl (λ (acc : gset Address) addr, {[addr]} ∪ acc) acc l = acc ∪ list_to_set l) as Hf.
  { induction l as [|x l IH]; intros acc; cbn [foldl list_to_set]; [set_solver|]. rewrite IH. set_solver. }
  rewrite Hf. apply set_eq. intros x. rewrite !elem_of_union, elem_of_list_to_set, range_set_elem. done.
Qed.

Lemma recv_covers j req : covers req (recv_promote j req).
Proof.
  unfold covers, recv_promote. cbn [job_dirty]. eexists. split; [done|]. destruct (job_dirty j); [|done].
  rewrite merge_accounts. set_solver.
Qed.

Lemma covers_lasting req : lasting (covers req).
Proof.
  split; [|by intros p j tx Hc]. intros j r (d & Ed & Hd). unfold covers, recv_promote. cbn [job_dirty]. rewrite Ed.
  eexists. split; [done|]. rewrite merge_accounts. set_solver.
Qed.

(** A caller that is blocked is heard before the loop is at rest. *)
Lemma outbox_ran sg req s t :
  rtc (loop_step sg) s t → settled t → req ∈ outbox s → ran sg s t (covers req).
Proof.
  intros Hr Ht. induction Hr as [t|s s' t Hs Hr IH]; intros Hin; [destruct Ht as (E & _); rewrite E in Hin; set_solver|].
  eapply ran_before; [done|]. destruct Hs as [s l1 req' l2 E|s tx rest E|s E El|s now c j p out E Hc Er|s E]; try by apply IH.
  rewrite E in Hin. apply elem_of_app in Hin as [Hin|[->|Hin]%elem_of_cons]; [apply IH; [done|cbn; set_solver]| |apply IH; [done|cbn; set_solver]].
  apply lasting_ran; [apply covers_lasting|done|done| |left; apply recv_covers].
  intros (d & Ed & _). destruct Ht as (_ & _ & _ & _ & _ & Hd). congruence.
Qed.

(** The job of a run names the accounts that the run promotes. *)
Lemma ran_promotes sg s t req :
  sys_ok sg s → ran sg s t (covers req) →
  ran sg s t (λ j, ∃ d, job_dirty j = Some d ∧ ∀ a, a ∈ accounts req → a ∈ snd (as_flatten d)).
Proof.
  intros Hok (u & j & now & c & p & out & Hr & Ej & (d & Ed & Hd) & ?). exists u, j, now, c, p, out. split_and!; [done|done| |apply H1..].
  exists d. split; [done|]. intros a Ha. pose proof (jo_dirty _ (so_running _ _ (loop_rtc_ok _ _ _ Hr Hok) j Ej) d Ed) as Hf.
  unfold as_flatten. rewrite Hf. cbn [snd]. apply range_set_elem. by apply Hd.
Qed.

(** C21: The scheduling loop serves every request.  From every state the pool can reach, the loop
    and the runs it launches take only finitely many steps, in whatever order, and when they
    can take no more, no caller is blocked, no event is undelivered, no run is active or due and
    nothing is left to do.  On the way a run was executed that promotes the accounts of each
    request that was blocked or collected, however many requests were merged with it; and a
    run with the collected reset, from the oldest old head to the newest new head. *)
Theorem requests_served ch c chainID tip head st s :
  chain_ok (NewPanguSigner chainID) ch →
  config_fields c → rtc (sys_step (NewPanguSigner chainID)) (start c chainID tip head st) s →
  let sg := NewPanguSigner chainID in
  sn (loop_step sg) s ∧
  ∀ t, rtc (loop_step sg) s t → nf (loop_step sg) t →
    settled t ∧
    (∀ req, req ∈ outbox s ∨ covers req (next s) →
       ran sg s t (λ j, ∃ d, job_dirty j = Some d ∧ ∀ a, a ∈ accounts req → a ∈ snd (as_flatten d))) ∧
    (∀ heads, job_reset (next s) = Some heads → ran sg s t (λ j, job_reset j = Some heads)).
Proof.
  intros Hch Hc Hs sg. pose proof (reachable_ok _ _ _ Hs (start_ok c chainID tip head st Hc)) as Hok. fold sg in Hok, Hch.
  split; [apply loop_terminates|]. intros t Hr Hnf. pose proof (stuck_settled sg ch t (loop_rtc_ok _ _ _ Hr Hok) Hch Hnf) as Ht.
  split; [done|]. destruct (Ht) as (_ & _ & _ & _ & Hnr & Hnd). split.
  - intros req Hreq. apply ran_promotes; [done|]. destruct Hreq as [Hin|Hcov]; [by apply outbox_ran|].
    apply lasting_ran; [apply covers_lasting|done|done| |by left]. intros (d & Ed & _). congruence.
  - intros heads Eh. apply lasting_ran; [done|done|done|congruence|by left].
Qed.
End schedule.
