(* ===== verification/PoolOne.v ===== *)
(** * The pool and the constant transaction hash

    The lookup of the pool is keyed by transaction hashes.  As every transaction has the same
    hash, a pool that holds a transaction refuses all others.  The file also runs a pool: a
    signed transaction is added, the scheduling loop is told, and the run it launches leaves
    the transaction pending. *)

From S2P Require Import Prelude Bytes Params Common AccessList Heap Types StateDB Blocks.
From S2P Require Import PoolList PoolListProps PoolListRefine PoolAccount PoolPrice PoolPriceProps.
From S2P Require Import Pool PoolInv PoolAdd PoolReorg PoolReorgProps PoolTruncate PoolRun PoolSchedule.

Section one.
Context `{Crypto} `{GoRuntime}.

Definition the_hash : Hash := be_value (Keccak256 [PanguTxType]).

(** A transaction with an access list whose hash is not cached, or was by [Hash]. *)
Definition plain (tx : Transaction) : Prop :=
  is_Some (pt_AccessList (inner tx)) ∧ ∀ h, tx_hash tx = Some h → h = the_hash.

Lemma plain_hash tx : plain tx → ∃ tx', tx_Hash tx = Ok (the_hash, tx').
Proof.
  intros [Ha Hh]. destruct (tx_hash tx) as [h|] eqn:E.
  - exists tx. unfold tx_Hash. rewrite E. by rewrite (Hh h eq_refl).
  - destruct (tx_Hash_constant tx E Ha) as [Ht _]. destruct (tx_Hash tx) as [[h tx']|]; [|done].
    cbn in Ht. injection Ht as ->. by exists tx'.
Qed.

Lemma same_NoDup {A} (l : list A) : NoDup l → l ≠ [] → (∀ x y, x ∈ l → y ∈ l → x = y) → length l = 1%nat.
Proof.
  intros Hnd Hne Hs. destruct l as [|x [|y l]]; [done|done|]. apply NoDup_cons in Hnd as [Hx _].
  destruct Hx. rewrite (Hs x y) by set_solver. set_solver.
Qed.

Lemma pool_txs_NoDup p : pool_inv p → ∃ l, lookup_ok (all p) l ∧ NoDup l ∧ lk_txs (all p) ≡ₚ l.
Proof.
  intros (P & Q & Hok). exists (content P Q []). split; [apply Hok|]. split; [|apply (po_all _ _ _ _ _ Hok)].
  eapply NoDup_fmap_1, (po_unique _ _ _ _ _ Hok).
Qed.

(** C34: A pool that holds a transaction holds no other, and refuses every batch: each
    transaction has the hash of the one it holds, so it is taken for already known. *)
Theorem second_transaction_refused p now txs isLocal :
  pool_inv p → Forall plain (lk_txs (all p)) → lk_txs (all p) ≠ [] → Forall plain txs →
  length (lk_txs (all p)) = 1%nat ∧
  addTxs now p txs isLocal = Ok (p, replicate (length txs) (Some ErrAlreadyKnown), None).
Proof.
  intros Hp Hall Hne Htx. destruct (pool_txs_NoDup p Hp) as (l & Hl & Hnd & Hperm).
  assert (∀ x, x ∈ l → lk_Get (all p) the_hash = Some x) as Hget.
  { intros x Hx. apply (lk_Get_Some _ l); [done|]. split; [done|]. rewrite <- Hperm in Hx. rewrite Forall_forall in Hall.
    destruct (plain_hash x (Hall x Hx)) as [x' E]. unfold hash. by rewrite E. }
  split.
  - rewrite Hperm. apply same_NoDup; [done|intros ->; by apply Permutation_nil_r in Hperm|].
    intros x y Hx%Hget Hy%Hget. congruence.
  - destruct (lk_txs (all p)) as [|x r] eqn:E; [done|]. assert (lk_Get (all p) the_hash = Some x) as Hx by (apply Hget; rewrite <- Hperm; set_solver).
    assert (mapM (λ tx, precheck p tx isLocal) txs = Ok (replicate (length txs) (Some ErrAlreadyKnown))) as Em.
    { apply mapM_res_Ok. clear -Htx Hx. induction Htx as [|tx txs [tx' Et]%plain_hash _ IH]; constructor; [|done].
      unfold precheck. rewrite Et. cbn [mbind res_bind]. by rewrite Hx. }
    unfold addTxs. rewrite Em. cbn [mbind res_bind].
    assert (omap (λ '(tx, e), match e with None => Some tx | Some _ => None end)
              (zip txs (replicate (length txs) (Some ErrAlreadyKnown))) = []) as ->; [|done].
    clear. induction txs as [|tx txs IH]; [done|]. exact IH.
Qed.
End one.

(** ** A run *)

Module sample.
#[local] Existing Instances toy_crypto reference_runtime.

Definition head : Header := mkHeader 0 0 (Some 5) 0 0 0 0 [] None 1000000 0 [].
Definition state : ChainState := mkChainState (λ _, 3) (λ _, 10 ^ 18).
Definition tx (data : list byte) : Transaction := sample_tx (be_bytes 32 1 ++ be_bytes 32 5 ++ [0]) data.
Definition begin : sys := start DefaultConfig (Some 7) 1 head state.
Definition chain : BlockChain := mkBlockChain head (λ _ _, None) (λ _, Some state).

(** The pool after the transaction is added, and after the run. *)
Definition added_pool : LegacyPool :=
  match addTxs 0 (pool begin) [tx []] false with Ok (p, _, _) => p | Panic _ => pool begin end.
Definition dirty : accountSet :=
  match addTxs 0 (pool begin) [tx []] false with Ok (_, _, Some d) => d | _ => newAccountSet (NewPanguSigner (Some 7)) [] end.
Definition promoted_pool : LegacyPool :=
  match run_job 1 chain added_pool (recv_promote no_job dirty) with Ok (p, _) => p | Panic _ => added_pool end.

Lemma tx_well_formed data : well_formed (NewPanguSigner (Some 7)) (tx data).
Proof. split; solve [by vm_compute | eexists; vm_compute; reflexivity]. Qed.

Lemma chain_okay : chain_ok (NewPanguSigner (Some 7)) chain.
Proof. by split. Qed.

Lemma run_reaches : rtc (sys_step (NewPanguSigner (Some 7))) begin (mkSys promoted_pool [] Finished false no_job).
Proof.
  eapply rtc_l.
  { apply (step_add _ begin 0 [tx []] false added_pool [None] (Some dirty)); [|vm_compute; reflexivity].
    apply Forall_singleton, tx_well_formed. }
  eapply rtc_l; [apply step_loop, (step_promote _ _ [] dirty []); reflexivity|].
  eapply rtc_l; [apply step_loop, step_launch; reflexivity|]. apply rtc_once, step_loop.
  refine (step_run _ (launch _) 1 chain _ promoted_pool [tx []] eq_refl chain_okay _). vm_compute. reflexivity.
Qed.

(** Two requests: an outdated transaction is refused, which asks for the promotion of no account,
    and [tx []] is added; the loop has collected the first request only. *)
Definition outdated : Transaction :=
  mkTransaction (mkPanguTransaction (Some 0xAA) 2 (Some 10) 100000 (Some 50) (Some 2) (Some 7) 0
    (be_bytes 32 1 ++ be_bytes 32 5 ++ [0]) 0 [] 0 [] (Some NewAccessList)) 0 None None None.
Definition nobody : accountSet := newAccountSet (NewPanguSigner (Some 7)) [].
Definition merged : job := recv_promote (recv_promote no_job nobody) dirty.
Definition collecting : sys := mkSys added_pool [dirty] Idle true (recv_promote no_job nobody).
Definition served_pool : LegacyPool :=
  match run_job 1 chain added_pool merged with Ok (p, _) => p | Panic _ => added_pool end.
Definition at_rest : sys := mkSys served_pool [] Idle false no_job.

Lemma outdated_well_formed : well_formed (NewPanguSigner (Some 7)) outdated.
Proof. split; solve [by vm_compute | eexists; vm_compute; reflexivity]. Qed.

#[local] Opaque added_pool served_pool dirty nobody.

Lemma collecting_reached : rtc (sys_step (NewPanguSigner (Some 7))) begin collecting.
Proof.
  eapply rtc_l.
  { apply (step_add _ begin 0 [outdated] false (pool begin) [Some (TxError ErrNonceTooLow)] (Some nobody)); [|vm_compute; reflexivity].
    apply Forall_singleton, outdated_well_formed. }
  eapply rtc_l; [apply step_loop, (step_promote _ _ [] nobody []); reflexivity|].
  eapply rtc_l; [|apply rtc_refl].
  refine (step_add _ (mkSys (pool begin) [] Idle true (recv_promote no_job nobody)) 0 [tx []] false added_pool [None] (Some dirty) _ _);
    [|vm_compute; reflexivity]. apply Forall_singleton, tx_well_formed.
Qed.

Lemma loop_rests : rtc (loop_step (NewPanguSigner (Some 7))) collecting at_rest.
Proof.
  eapply rtc_l; [apply (step_promote _ _ [] dirty []); reflexivity|].
  eapply rtc_l; [apply step_launch; reflexivity|].
  eapply rtc_l; [|exact (rtc_once _ _ (step_done _ (mkSys served_pool [] Finished false no_job) eq_refl))].
  refine (step_run _ (launch (mkSys added_pool [] Idle true merged)) 1 chain merged served_pool [tx []] eq_refl chain_okay _). vm_compute. reflexivity.
Qed.

Lemma at_rest_nf : nf (loop_step (NewPanguSigner (Some 7))) at_rest.
Proof.
  intros [s Hs]. remember at_rest as r eqn:Er.
  destruct Hs as [r l1 req l2 E|r tx0 rest E|r E El|r now c j p out E Hc Hj|r E]; rewrite Er in *; clear Er.
  - cbn [at_rest outbox] in E. destruct l1; discriminate E.
  - vm_compute in E. discriminate E.
  - cbn [at_rest launchNextRun] in El. discriminate El.
  - cbn [at_rest curDone] in E. discriminate E.
  - cbn [at_rest curDone] in E. discriminate E.
Qed.

Lemma DefaultConfig_fields : config_fields DefaultConfig.
Proof. by vm_compute. Qed.
End sample.

(** ** Witnesses *)

#[local] Existing Instances toy_crypto reference_runtime.

Lemma pool_reachable_witness : pool_inv sample.promoted_pool ∧ stats sample.promoted_pool = (1, 0).
Proof.
  split; [|vm_compute; reflexivity].
  destruct (pool_reachable DefaultConfig (Some 7) 1 sample.head sample.state (mkSys sample.promoted_pool [] Finished false no_job)) as [Hp _].
  - apply sample.DefaultConfig_fields.
  - apply sample.run_reaches.
  - exact Hp.
Defined.

Lemma requests_served_witness :
  settled sample.at_rest ∧
  ran (NewPanguSigner (Some 7)) sample.collecting sample.at_rest
    (λ j, ∃ d, job_dirty j = Some d ∧ sender (NewPanguSigner (Some 7)) (sample.tx []) ∈ snd (as_flatten d)).
Proof.
  destruct (requests_served sample.chain DefaultConfig (Some 7) 1 sample.head sample.state sample.collecting
    sample.chain_okay sample.DefaultConfig_fields sample.collecting_reached) as [_ Hall].
  destruct (Hall sample.at_rest sample.loop_rests sample.at_rest_nf) as (Hs & Hr & _). split; [exact Hs|].
  destruct (Hr sample.dirty (or_introl (list_elem_of_here _ _))) as (u & j & now & c & p & out & R1 & Ej & (d & Ed & Hd) & Rest).
  exists u, j, now, c, p, out. split; [exact R1|]. split; [exact Ej|]. split; [|exact Rest]. exists d. split; [exact Ed|].
  apply Hd. vm_compute. reflexivity.
Defined.

Lemma second_transaction_refused_witness :
  addTxs 2 sample.promoted_pool [sample.tx [1]; sample.tx [2]] true
  = Ok (sample.promoted_pool, [Some ErrAlreadyKnown; Some ErrAlreadyKnown], None).
Proof.
  apply (second_transaction_refused sample.promoted_pool 2 [sample.tx [1]; sample.tx [2]] true).
  - apply (so_pool (NewPanguSigner (Some 7)) (mkSys sample.promoted_pool [] Finished false no_job)).
    eapply reachable_ok; [apply sample.run_reaches|apply start_ok, sample.DefaultConfig_fields].
  - apply Forall_forall. intros x Hx. vm_compute in Hx. apply list_elem_of_singleton in Hx. subst x. split; [by eexists|done].
  - vm_compute. discriminate.
  - apply Forall_forall. intros x [->|[->|[]%not_elem_of_nil]%elem_of_cons]%elem_of_cons; (split; [by eexists|done]).
Defined.
