(* ===== verification/TxPool.v ===== *)
(** * The aggregating pool (core/txpool/txpool.go, subpool.go)

    A [TxPool] is a slice of subpools behind one interface.  The interface is a class with
    what the aggregator relies on: [Add] returns an error slot for every transaction.  The
    legacy pool with its scheduling loop is an instance.  The head loop of the aggregator is a
    step relation. *)

From S2P Require Import Prelude Bytes Params Common Heap Types StateDB Blocks.
From S2P Require Import PoolList PoolListProps PoolListRefine PoolAccount PoolPrice PoolPriceProps.
From S2P Require Import Pool PoolInv PoolAdd PoolReorg PoolReorgProps PoolTruncate PoolRun PoolSchedule PoolOne.

Class SubPool (T : Type) := {
  sp_Filter : T → Transaction → bool;
  sp_Init : T → Z → Header → res (T * option pool_error);
  sp_Close : T → T * option pool_error;
  sp_Reset : T → option Header → option Header → T;
  sp_SetGasTip : T → Z → res T;
  sp_Has : T → Hash → bool;
  sp_Get : T → Hash → option Transaction;
  sp_Add : T → list Transaction → bool → bool → res (T * list (option pool_error));
  sp_Pending : T → bool → res (T * gmap Address (list Transaction));
  sp_Nonce : T → Address → T * Z;
  sp_Stats : T → Z * Z;
  sp_Content : T → T * gmap Address (list Transaction) * gmap Address (list Transaction);
  sp_ContentFrom : T → Address → T * list Transaction * list Transaction;
  sp_Locals : T → T * list Address;
  sp_Status : T → Hash → TxStatus;
  sp_ValidateTx : T → Transaction → bool → res (option pool_error);
  sp_IsLocalTx : T → Transaction → bool;
  (* what the aggregator relies on *)
  sp_Add_errors s txs isLocal sync s' errs :
    sp_Add s txs isLocal sync = Ok (s', errs) → length errs = length txs;
  sp_Has_Get s h : sp_Has s h = bool_decide (is_Some (sp_Get s h));
  sp_Status_Get s h : sp_Status s h ≠ TxStatusUnknown → is_Some (sp_Get s h);
}.

Section aggregator.
Context {T : Type} `{!SubPool T} `{GoRuntime}.

(** ** Life cycle *)

(** [New]: the subpools that were started are closed, the last first, when one fails. *)
Fixpoint init_all (tip : Z) (head : Header) (opened rest : list T) : res (list T * option pool_error) :=
  match rest with
  | [] => Ok (opened, None)
  | s :: rest =>
      '(s, e) ← sp_Init s tip head;
      match e with
      | None => init_all tip head (opened ++ [s]) rest
      | Some e => Ok (reverse ((λ s, fst (sp_Close s)) <$> reverse opened) ++ s :: rest, Some e)
      end
  end.
Definition txpool_New (tip : Z) (head : Header) (subpools : list T) : res (list T * option pool_error) :=
  init_all tip head [] subpools.

(** [Close], after the head loop: the errors of the subpools. *)
Definition txpool_Close (ps : list T) : list T * list pool_error :=
  let closed := sp_Close <$> ps in (closed.*1, omap id closed.*2).

(** The resetter of the head loop. *)
Definition txpool_Reset (ps : list T) (oldHead newHead : option Header) : list T := (λ s, sp_Reset s oldHead newHead) <$> ps.

Definition txpool_SetGasTip (ps : list T) (tip : Z) : res (list T) := mapM (λ s, sp_SetGasTip s tip) ps.

(** ** Lookups *)

Fixpoint txpool_Has (ps : list T) (h : Hash) : bool :=
  match ps with [] => false | s :: ps => if sp_Has s h then true else txpool_Has ps h end.
Fixpoint txpool_Get (ps : list T) (h : Hash) : option Transaction :=
  match ps with [] => None | s :: ps => match sp_Get s h with Some tx => Some tx | None => txpool_Get ps h end end.
Fixpoint txpool_IsLocalTx (ps : list T) (tx : Transaction) : bool :=
  match ps with [] => false | s :: ps => if sp_IsLocalTx s tx then true else txpool_IsLocalTx ps tx end.
Fixpoint txpool_Status (ps : list T) (h : Hash) : TxStatus :=
  match ps with
  | [] => TxStatusUnknown
  | s :: ps => match sp_Status s h with TxStatusUnknown => txpool_Status ps h | st => st end
  end.

(** The error of the last subpool, or none if one accepts. *)
Fixpoint validate_loop (ps : list T) (tx : Transaction) (isLocal : bool) (err : option pool_error) : res (option pool_error) :=
  match ps with
  | [] => Ok err
  | s :: ps => e ← sp_ValidateTx s tx isLocal; match e with None => Ok None | Some e => validate_loop ps tx isLocal (Some e) end
  end.
Definition txpool_ValidateTx (ps : list T) (tx : Transaction) (isLocal : bool) : res (option pool_error) :=
  validate_loop ps tx isLocal None.

(** ** Add *)

(** The first subpool that takes the transaction. *)
Fixpoint accepting (ps : list T) (tx : Transaction) (j : nat) : option nat :=
  match ps with
  | [] => None
  | s :: ps => if sp_Filter s tx then Some j else accepting ps tx (j + 1)
  end.

(** The sets of transactions and where each transaction went; -1 is [None]. *)
Fixpoint split_txs (ps : list T) (txs : list Transaction) (txsets : list (list Transaction)) (splits : list (option nat))
  : list (list Transaction) * list (option nat) :=
  match txs with
  | [] => (txsets, splits)
  | tx :: txs =>
      match accepting ps tx 0 with
      | None => split_txs ps txs txsets (splits ++ [None])
      | Some j => split_txs ps txs (alter (λ l, l ++ [tx]) j txsets) (splits ++ [Some j])
      end
  end.

Fixpoint add_sets (ps : list T) (txsets : list (list Transaction)) (isLocal sync : bool) : res (list T * list (list (option pool_error))) :=
  match ps, txsets with
  | s :: ps, txs :: txsets =>
      '(s, errs) ← sp_Add s txs isLocal sync;
      '(ps, errsets) ← add_sets ps txsets isLocal sync;
      Ok (s :: ps, errs :: errsets)
  | _, _ => Ok (ps, [])
  end.

(** The errors in the order of the transactions. *)
Fixpoint join_errors (splits : list (option nat)) (errsets : list (list (option pool_error))) : res (list (option pool_error)) :=
  match splits with
  | [] => Ok []
  | None :: splits => errs ← join_errors splits errsets; Ok (Some (TxError ErrTxTypeNotSupported) :: errs)
  | Some j :: splits =>
      set ← go_index errsets (Z.of_nat j);
      e ← go_index set 0;
      errs ← join_errors splits (<[j := drop 1 set]> errsets); Ok (e :: errs)
  end.

Definition txpool_Add (ps : list T) (txs : list Transaction) (isLocal sync : bool) : res (list T * list (option pool_error)) :=
  let '(txsets, splits) := split_txs ps txs (replicate (length ps) []) [] in
  '(ps, errsets) ← add_sets ps txsets isLocal sync;
  errs ← join_errors splits errsets;
  Ok (ps, errs).

(** ** Contents *)

(** Later subpools overwrite the entries of earlier ones. *)
Definition merge_into (out m : gmap Address (list Transaction)) : gmap Address (list Transaction) :=
  foldl (λ out '(addr, set), <[addr := set]> out) out (range_map m).

Fixpoint txpool_Pending (ps : list T) (enforceTips : bool) (out : gmap Address (list Transaction))
  : res (list T * gmap Address (list Transaction)) :=
  match ps with
  | [] => Ok ([], out)
  | s :: ps =>
      '(s, m) ← sp_Pending s enforceTips;
      '(ps, out) ← txpool_Pending ps enforceTips (merge_into out m); Ok (s :: ps, out)
  end.

Fixpoint txpool_Content (ps : list T) (runnable blocked : gmap Address (list Transaction))
  : list T * gmap Address (list Transaction) * gmap Address (list Transaction) :=
  match ps with
  | [] => ([], runnable, blocked)
  | s :: ps =>
      let '(s, run, block) := sp_Content s in
      let '(ps, runnable, blocked) := txpool_Content ps (merge_into runnable run) (merge_into blocked block) in
      (s :: ps, runnable, blocked)
  end.

Fixpoint txpool_ContentFrom (ps : list T) (addr : Address) : list T * list Transaction * list Transaction :=
  match ps with
  | [] => ([], [], [])
  | s :: ps =>
      match sp_ContentFrom s addr with
      | (s, [], []) => let '(ps, run, block) := txpool_ContentFrom ps addr in (s :: ps, run, block)
      | (s, run, block) => (s :: ps, run, block)
      end
  end.

Fixpoint txpool_Nonce (ps : list T) (addr : Address) (nonce : Z) : list T * Z :=
  match ps with
  | [] => ([], nonce)
  | s :: ps =>
      let '(s, next) := sp_Nonce s addr in
      let '(ps, n) := txpool_Nonce ps addr (if nonce <? next then next else nonce) in (s :: ps, n)
  end.

Definition txpool_Stats (ps : list T) : Z * Z :=
  foldl (λ '(runnable, blocked) s, let '(run, block) := sp_Stats s in (runnable + run, blocked + block)) (0, 0) ps.

Fixpoint locals_of (ps : list T) (out : gset Address) : list T * gset Address :=
  match ps with
  | [] => ([], out)
  | s :: ps =>
      let '(s, l) := sp_Locals s in
      let '(ps, out) := locals_of ps (list_to_set l ∪ out) in (s :: ps, out)
  end.
Definition txpool_Locals (ps : list T) : list T * list Address :=
  let '(ps, out) := locals_of ps ∅ in (ps, range_set out).

(** ** Add routes every transaction and joins the errors *)

(** Subpool [j] takes the transaction and none before it does. *)
Definition first_taker (ps : list T) (tx : Transaction) (j : nat) : Prop :=
  (∃ s, ps !! j = Some s ∧ sp_Filter s tx = true) ∧
  ∀ k s, (k < j)%nat → ps !! k = Some s → sp_Filter s tx = false.

Lemma accepting_spec ps tx : ∀ k,
  match accepting ps tx k with
  | Some j => (k <= j)%nat ∧ first_taker ps tx (j - k)
  | None => Forall (λ s, sp_Filter s tx = false) ps
  end.
Proof.
  induction ps as [|s ps IH]; intros k; cbn; [constructor|].
  destruct (sp_Filter s tx) eqn:Ef.
  - split; [done|]. rewrite Nat.sub_diag. split; [by exists s|lia].
  - specialize (IH (k + 1)%nat). destruct (accepting ps tx (k + 1)) as [j|]; [|by constructor].
    destruct IH as (Hk & (s' & Hs' & Ef') & Hbefore). split; [lia|].
    replace (j - k)%nat with (S (j - (k + 1))) by lia. split; [by exists s'|].
    intros [|m] s0 Hm Hs0; [by injection Hs0 as <-|]. apply (Hbefore m); [lia|done].
Qed.

Lemma first_taker_inj ps tx j j' : first_taker ps tx j → first_taker ps tx j' → j = j'.
Proof.
  intros [(s & Hs & E) H1] [(s' & Hs' & E') H2]. destruct (lt_eq_lt_dec j j') as [[Hlt|]|Hlt]; [|done|].
  - rewrite (H2 j s Hlt Hs) in E. done.
  - rewrite (H1 j' s' Hlt Hs') in E'. done.
Qed.

Lemma accepting_Some ps tx j : accepting ps tx 0 = Some j ↔ first_taker ps tx j.
Proof.
  pose proof (accepting_spec ps tx 0) as Ha. destruct (accepting ps tx 0) as [j'|].
  - destruct Ha as [_ Ha]. rewrite Nat.sub_0_r in Ha. split; [by intros [= <-]|].
    intros Hj. f_equal. by eapply first_taker_inj.
  - split; [done|]. intros [(s & Hs & E) _]. by rewrite (Forall_lookup_1 _ _ _ _ Ha Hs) in E.
Qed.

Lemma accepting_None ps tx : accepting ps tx 0 = None ↔ Forall (λ s, sp_Filter s tx = false) ps.
Proof.
  pose proof (accepting_spec ps tx 0) as Ha. destruct (accepting ps tx 0) as [j'|]; [|done].
  split; [done|]. destruct Ha as [_ [(s & Hs & E) _]]. rewrite Nat.sub_0_r in Hs.
  intros Hall. by rewrite (Forall_lookup_1 _ _ _ _ Hall Hs) in E.
Qed.

#[global] Instance first_taker_dec ps tx j : Decision (first_taker ps tx j).
Proof. refine (cast_if (decide (accepting ps tx 0 = Some j))); by rewrite <- accepting_Some. Defined.

(** What is meant for subpool [j], in order. *)
Definition sent_to (ps : list T) (j : nat) (txs : list Transaction) : list Transaction :=
  filter (λ tx, first_taker ps tx j) txs.

Lemma accepting_range ps tx : ∀ k j, accepting ps tx k = Some j → (k <= j < k + length ps)%nat.
Proof.
  induction ps as [|s ps IH]; intros k j; cbn; [done|]. destruct (sp_Filter s tx); [intros [= ->]; lia|].
  intros E%IH. lia.
Qed.

Lemma sent_to_cons ps j tx txs :
  sent_to ps j (tx :: txs) = (if decide (accepting ps tx 0 = Some j) then [tx] else []) ++ sent_to ps j txs.
Proof.
  unfold sent_to. rewrite filter_cons.
  destruct (decide (first_taker ps tx j)) as [Hf|Hf]; rewrite <- accepting_Some in Hf;
    by destruct (decide (accepting ps tx 0 = Some j)).
Qed.

Lemma split_txs_spec ps txs : ∀ txsets splits, length txsets = length ps →
  ∃ sets, split_txs ps txs txsets splits = (sets, splits ++ ((λ tx, accepting ps tx 0) <$> txs)) ∧ length sets = length ps ∧
    ∀ j set, txsets !! j = Some set → sets !! j = Some (set ++ sent_to ps j txs).
Proof.
  induction txs as [|tx txs IH]; intros txsets splits Hl; cbn [split_txs].
  - exists txsets. cbn. rewrite app_nil_r. split_and!; [done..|]. intros j set Hj. by rewrite app_nil_r.
  - rewrite fmap_cons. destruct (accepting ps tx 0) as [k|] eqn:Ek.
    + destruct (IH (alter (λ l, l ++ [tx]) k txsets) (splits ++ [Some k])) as (sets & E & Hs & Hj); [by rewrite length_alter|].
      exists sets. rewrite E, <- app_assoc. split_and!; [done..|]. intros j set Hset. rewrite sent_to_cons, Ek.
      destruct (decide (Some k = Some j)) as [[= ->]|Hne].
      * rewrite (Hj j (set ++ [tx])); [by rewrite <- app_assoc|]. by rewrite list_lookup_alter_eq, Hset.
      * apply Hj. rewrite list_lookup_alter_ne; congruence.
    + destruct (IH txsets (splits ++ [None]) Hl) as (sets & E & Hs & Hj). exists sets. rewrite E, <- app_assoc. split_and!; [done..|].
      intros j set Hset. rewrite sent_to_cons, Ek. by apply Hj.
Qed.

Lemma add_sets_spec isLocal sync ps : ∀ sets, length sets = length ps →
  (∀ j s set, ps !! j = Some s → sets !! j = Some set → is_ok (sp_Add s set isLocal sync)) →
  ∃ ps' errsets, add_sets ps sets isLocal sync = Ok (ps', errsets) ∧ length errsets = length ps ∧
    ∀ j s set, ps !! j = Some s → sets !! j = Some set →
      ∃ s' out, sp_Add s set isLocal sync = Ok (s', out) ∧ ps' !! j = Some s' ∧ errsets !! j = Some out.
Proof.
  induction ps as [|s ps IH]; intros [|set sets] Hl Hok; try done; cbn [add_sets]; [by exists [], []|].
  destruct (Hok 0%nat s set eq_refl eq_refl) as [[s' out] E]. rewrite E. cbn [mbind res_bind].
  destruct (IH sets) as (ps' & errsets & E' & Hl' & Hj); [by injection Hl|intros j; apply (Hok (S j))|].
  rewrite E'. cbn [mbind res_bind]. eexists _, _. split; [done|]. split; [cbn; lia|].
  intros [|j] s1 set1 Hs1 Hset1; [injection Hs1 as <-; injection Hset1 as <-; eauto|]. by apply Hj.
Qed.

Lemma join_errors_spec ps txs : ∀ errsets, length errsets = length ps →
  (∀ j set, errsets !! j = Some set → length set = length (sent_to ps j txs)) →
  ∃ errs, join_errors ((λ tx, accepting ps tx 0) <$> txs) errsets = Ok errs ∧ length errs = length txs ∧
    (∀ i tx j set, txs !! i = Some tx → accepting ps tx 0 = Some j → errsets !! j = Some set →
       errs !! i = set !! length (sent_to ps j (take i txs))) ∧
    (∀ i tx, txs !! i = Some tx → accepting ps tx 0 = None → errs !! i = Some (Some (TxError ErrTxTypeNotSupported))).
Proof.
  induction txs as [|tx txs IH]; intros errsets Hl Hlen; [by exists []|].
  rewrite fmap_cons. cbn [join_errors].
  destruct (accepting ps tx 0) as [k|] eqn:Ek.
  - assert (k < length errsets)%nat as Hk by (rewrite Hl; apply accepting_range in Ek; lia).
    destruct (lookup_lt_is_Some_2 _ _ Hk) as [set Hset]. rewrite (proj2 (go_index_Ok errsets (Z.of_nat k) set)) by (split; [lia|by rewrite Nat2Z.id]). cbn [mbind res_bind].
    pose proof (Hlen k set Hset) as Hn. rewrite sent_to_cons, Ek, decide_True in Hn by done.
    destruct set as [|e set]; [done|]. change (go_index (e :: set) 0) with (Ok e). cbn [mbind res_bind]. change (drop 1 (e :: set)) with set.
    destruct (IH (<[k := set]> errsets)) as (errs & E & Hle & Hi & Hnone).
    { by rewrite length_insert. }
    { intros j set'. destruct (decide (k = j)) as [<-|].
      - rewrite list_lookup_insert_eq by done. intros [= <-]. cbn in Hn. lia.
      - rewrite list_lookup_insert_ne by done. intros Hj. rewrite (Hlen j set' Hj), sent_to_cons, Ek, decide_False by congruence. done. }
    rewrite E. cbn [mbind res_bind]. eexists. split; [done|]. split; [cbn; lia|]. split.
    + intros [|i] x j set' Hx Hj Hs.
      * injection Hx as <-. rewrite Ek in Hj. injection Hj as <-. rewrite Hset in Hs. by injection Hs as <-.
      * change (errs !! i = set' !! length (sent_to ps j (tx :: take i txs))). rewrite sent_to_cons, Ek.
        destruct (decide (Some k = Some j)) as [[= <-]|Hne].
        -- rewrite Hset in Hs. injection Hs as <-. rewrite (Hi i x k set Hx Hj); [done|by apply list_lookup_insert_eq].
        -- rewrite (Hi i x j set' Hx Hj); [done|]. rewrite list_lookup_insert_ne; [done|congruence].
    + intros [|i] x Hx; [injection Hx as <-; by rewrite Ek|]. by apply (Hnone i).
  - destruct (IH errsets Hl) as (errs & E & Hle & Hi & Hnone).
    { intros j set Hj. rewrite (Hlen j set Hj), sent_to_cons, Ek. done. }
    rewrite E. cbn [mbind res_bind]. eexists. split; [done|]. split; [cbn; lia|]. split.
    + intros [|i] x j set Hx Hj Hs; [injection Hx as <-; congruence|].
      change (errs !! i = set !! length (sent_to ps j (tx :: take i txs))). rewrite sent_to_cons, Ek. by apply (Hi i x).
    + intros [|i] x Hx; [done|]. by apply (Hnone i).
Qed.

(** C33: [Add] of the aggregating pool hands every transaction, in order, to the first subpool
    whose filter takes it, and the errors come back in the order of the transactions: the slot
    of a transaction holds what its subpool returned for it, or that the type is not
    supported when no subpool takes it. *)
Theorem txpool_Add_routes ps txs isLocal sync :
  (∀ j s, ps !! j = Some s → is_ok (sp_Add s (sent_to ps j txs) isLocal sync)) →
  ∃ ps' errs, txpool_Add ps txs isLocal sync = Ok (ps', errs) ∧ length errs = length txs ∧
    (∀ j s, ps !! j = Some s → ∃ s' out, sp_Add s (sent_to ps j txs) isLocal sync = Ok (s', out) ∧ ps' !! j = Some s' ∧
       ∀ i tx, txs !! i = Some tx → first_taker ps tx j → errs !! i = out !! length (sent_to ps j (take i txs))) ∧
    (∀ i tx, txs !! i = Some tx → Forall (λ s, sp_Filter s tx = false) ps →
       errs !! i = Some (Some (TxError ErrTxTypeNotSupported))).
Proof.
  intros Hok. unfold txpool_Add.
  destruct (split_txs_spec ps txs (replicate (length ps) []) []) as (sets & E & Hl & Hs); [by rewrite length_replicate|].
  assert (∀ j s, ps !! j = Some s → sets !! j = Some (sent_to ps j txs)) as Hset.
  { intros j s Hj. apply (Hs j []). apply lookup_replicate_2. by eapply lookup_lt_Some. }
  rewrite E. cbn [app]. destruct (add_sets_spec isLocal sync ps sets Hl) as (ps' & errsets & E' & Hle & Hj).
  { intros j s set Hps Hse. rewrite (Hset j s Hps) in Hse. injection Hse as <-. by apply Hok. }
  rewrite E'. cbn [mbind res_bind]. destruct (join_errors_spec ps txs errsets Hle) as (errs & E2 & Hle2 & Hi & Hn).
  { intros j set Hj2. assert (j < length ps)%nat as Hlt by (rewrite <- Hle; by eapply lookup_lt_Some).
    destruct (lookup_lt_is_Some_2 _ _ Hlt) as [s Hps]. destruct (Hj j s _ Hps (Hset j s Hps)) as (s' & out & Ea & _ & Eo).
    rewrite Hj2 in Eo. injection Eo as ->. by eapply sp_Add_errors. }
  rewrite E2. cbn [mbind res_bind]. eexists _, _. split_and!; [done|done| |].
  - intros j s Hps. destruct (Hj j s _ Hps (Hset j s Hps)) as (s' & out & Ea & Ep & Eo).
    exists s', out. split_and!; [done|done|]. intros i tx Htx Hacc. apply (Hi i tx j); [done| |done].
    by apply accepting_Some.
  - intros i tx Htx Hnone. apply (Hn i tx Htx). by apply accepting_None.
Qed.
End aggregator.

(** ** The legacy pool as a subpool *)

Section legacy.
Context `{Crypto} `{GoRuntime} (now : Z) (c : BlockChain).

Lemma fill_length errs : ∀ newErrs, length (fill errs newErrs) = length errs.
Proof.
  induction errs as [|[e|] errs IH]; intros newErrs; cbn [fill]; [done|cbn; by rewrite IH|].
  destruct newErrs; [done|]. cbn. by rewrite IH.
Qed.

Lemma addTxs_errors p txs isLocal p' errs dirty :
  addTxs now p txs isLocal = Ok (p', errs, dirty) → length errs = length txs.
Proof.
  intros (pre & Ep & E)%res_bind_Ok. apply mapM_res_Ok, Forall2_length in Ep.
  destruct (omap _ _) as [|x news]; [by injection E as <- <- <-|].
  apply res_bind_Ok in E as ([[p1 ne] d] & _ & [= <- <- <-]). by rewrite fill_length.
Qed.

(** The batch under the lock, and the request for promotion the caller blocks on. *)
Definition legacy_Add (s : sys) (txs : list Transaction) (isLocal sync : bool) : res (sys * list (option pool_error)) :=
  '(p, errs, dirty) ← addTxs now (pool s) txs isLocal;
  Ok (mkSys p (outbox s ++ option_list dirty) (curDone s) (launchNextRun s) (next s), errs).

Definition legacy_Init (s : sys) (tip : Z) (head : Header) : res (sys * option pool_error) :=
  p ← reset now c (set_tip (pool s) tip) None (Some head); Ok (set_pool s p, None).

Definition legacy_Reset (s : sys) (oldHead newHead : option Header) : sys :=
  mkSys (pool s) (outbox s) (curDone s) true (recv_reset (next s) oldHead newHead).

#[refine] Instance legacy_SubPool : SubPool sys := {|
  sp_Filter s tx := pool_Filter (pool s) tx;
  sp_Init := legacy_Init;
  sp_Close s := (s, None);
  sp_Reset := legacy_Reset;
  sp_SetGasTip s tip := p ← SetGasTip now (pool s) tip; Ok (set_pool s p);
  sp_Has s h := pool_Has (pool s) h;
  sp_Get s h := pool_Get (pool s) h;
  sp_Add := legacy_Add;
  sp_Pending s enforceTips := '(p, m) ← Pending (pool s) enforceTips; Ok (set_pool s p, m);
  sp_Nonce s addr := let '(p, n) := pool_Nonce (pool s) addr in (set_pool s p, n);
  sp_Stats s := stats (pool s);
  sp_Content s := let '(p, pt, qt) := Content (pool s) in (set_pool s p, pt, qt);
  sp_ContentFrom s addr := let '(p, pt, qt) := ContentFrom (pool s) addr in (set_pool s p, pt, qt);
  sp_Locals s := let '(p, l) := pool_Locals (pool s) in (set_pool s p, l);
  sp_Status s h := Status (pool s) h;
  sp_ValidateTx s tx isLocal := ValidateTx (pool s) tx isLocal;
  sp_IsLocalTx s tx := IsLocalTx (pool s) tx;
|}.
Proof.
  - intros s txs lc sync s' errs ([[p e] d] & E & [= <- <-])%res_bind_Ok. by eapply addTxs_errors.
  - done.
  - intros s h. unfold Status, pool_Get. by destruct (lk_Get _ _).
Defined.

(** A batch that goes through the aggregator is a step of the system of the legacy pool. *)
Lemma legacy_Add_step sg s txs isLocal sync s' errs :
  Forall (well_formed sg) txs → legacy_Add s txs isLocal sync = Ok (s', errs) → sys_step sg s s'.
Proof. intros Hw ([[p e] d] & E & [= <- <-])%res_bind_Ok. by econstructor. Qed.

Lemma legacy_Add_returns sg s txs isLocal sync :
  sys_ok sg s → Forall (well_formed sg) txs → is_ok (legacy_Add s txs isLocal sync).
Proof.
  intros Hok Hw. destruct Hok as [Hp Eg _ _ _ _]. subst sg.
  destruct (addTxs_ok now (pool s) txs isLocal Hp Hw) as (p & e & d & E & _). unfold legacy_Add. rewrite E. by eexists.
Qed.
End legacy.

(** ** The head loop *)

(** Heads are pointers: every event brings a header of its own. *)
Record heads := mkHeads {
  oldHead : nat;
  newHead : nat;
  resetBusy : option nat; (* the head the running resetter was given *)
  fresh : nat; (* the next header *)
}.

(** A step, with the reset it starts. *)
Inductive head_step : heads → option (nat * nat) → heads → Prop :=
| head_start s :
    newHead s ≠ oldHead s → resetBusy s = None →
    head_step s (Some (oldHead s, newHead s)) (mkHeads (oldHead s) (newHead s) (Some (newHead s)) (fresh s))
| head_event s : head_step s None (mkHeads (oldHead s) (fresh s) (resetBusy s) (fresh s + 1))
| head_done s h :
    resetBusy s = Some h → head_step s None (mkHeads h (newHead s) None (fresh s)).

Inductive head_run : heads → list (nat * nat) → heads → Prop :=
| head_refl s : head_run s [] s
| head_more s r o s' s2 : head_run s r s' → head_step s' o s2 → head_run s (r ++ option_list o) s2.

Definition loop_start (head : nat) : heads := mkHeads head head None (head + 1).

(** The resets follow one another: each starts from the head the one before ended with. *)
Fixpoint linked (from : nat) (r : list (nat * nat)) (to : nat) : Prop :=
  match r with
  | [] => to = from
  | (o, n) :: r => o = from ∧ o ≠ n ∧ linked n r to
  end.

Lemma linked_app r : ∀ a b x y, linked a r b → b ≠ y → b = x → linked a (r ++ [(x, y)]) y.
Proof. induction r as [|[o n] r IH]; intros a b x y; cbn; [intros; subst; by split_and!|]. intros (-> & Hne & Hl) Hy Hx. by eauto. Qed.

Lemma head_run_ok head r s :
  head_run (loop_start head) r s →
  linked head r (default (oldHead s) (resetBusy s)) ∧ (oldHead s < fresh s ∧ newHead s < fresh s ∧ default 0 (resetBusy s) < fresh s)%nat.
Proof.
  remember (loop_start head) as s0 eqn:E0. induction 1 as [s|s r o s' s2 Hr IH Hs].
  - subst s. cbn. split; [done|lia].
  - destruct (IH E0) as [Hl Hb]. destruct Hs as [q Hne Hbusy|q|q h Hbusy]; cbn; rewrite ?app_nil_r, ?Hbusy in *; cbn in *.
    + split; [|lia]. by apply (linked_app r _ (oldHead q)).
    + split; [done|]. lia.
    + split; [done|]. lia.
Qed.

(** The resets that the head loop of the aggregating pool starts are linked: the first
    starts from the head the pool was created with, each further one from the head the one
    before was given, and none is empty, however chain events and ends of resets interleave.
    When no reset runs, the last one ended at the head that is remembered as old. *)
Theorem resets_linked head r s :
  head_run (loop_start head) r s → linked head r (default (oldHead s) (resetBusy s)).
Proof. intros Hr. by apply head_run_ok in Hr as [Hl _]. Qed.

Lemma resets_linked_witness : linked 0%nat [(0, 1); (1, 3)]%nat 3%nat.
Proof.
  apply (resets_linked 0%nat [(0, 1); (1, 3)]%nat (mkHeads 1 3 (Some 3) 4)%nat).
  apply (head_more _ [(0, 1)]%nat (Some (1, 3)%nat) (mkHeads 1 3 None 4)%nat); [|by apply head_start].
  apply (head_more _ [(0, 1)]%nat None (mkHeads 0 3 (Some 1) 4)%nat); [|by apply (head_done (mkHeads 0 3 (Some 1) 4)%nat)].
  apply (head_more _ [(0, 1)]%nat None (mkHeads 0 2 (Some 1) 3)%nat); [|apply (head_event (mkHeads 0 2 (Some 1) 3)%nat)].
  apply (head_more _ [(0, 1)]%nat None (mkHeads 0 1 (Some 1) 2)%nat); [|apply (head_event (mkHeads 0 1 (Some 1) 2)%nat)].
  apply (head_more _ [] (Some (0, 1)%nat) (mkHeads 0 1 None 2)%nat); [|by apply head_start].
  apply (head_more _ [] None (loop_start 0%nat)); [apply head_refl|apply head_event].
Defined.

#[local] Existing Instances toy_crypto reference_runtime.

(** Two legacy pools: the first takes both transactions, the second is handed none. *)
Lemma txpool_Add_routes_witness :
  let ps := [sample.begin; sample.begin] in
  let txs := [sample.tx []; sample.tx [1]] in
  let SP := legacy_SubPool 0 sample.chain in
  let add := @txpool_Add sys SP ps txs false false in
  @sent_to sys SP ps 0 txs = txs ∧ @sent_to sys SP ps 1 txs = [] ∧
  ∃ ps', add = Ok (ps', [None; Some ErrAlreadyKnown]) ∧ ps' !! 1%nat = Some sample.begin.
Proof.
  intros ps txs SP add. split; [vm_compute; reflexivity|]. split; [vm_compute; reflexivity|].
  assert (match add with Ok (_, errs) => errs | Panic _ => [] end = [None; Some ErrAlreadyKnown]) as Eerrs by (vm_compute; reflexivity).
  destruct (@txpool_Add_routes sys SP ps txs false false) as (ps' & errs & E & Hl & Hj & _).
  - intros j s Hs. assert (s = sample.begin) as -> by (by destruct j as [|[|j]]; inversion Hs).
    apply (legacy_Add_returns 0 (NewPanguSigner (Some 7))).
    + apply start_ok, sample.DefaultConfig_fields.
    + apply Forall_forall. intros x [_ [->|[->|[]%not_elem_of_nil]%elem_of_cons]%elem_of_cons]%list_elem_of_filter; apply sample.tx_well_formed.
  - change (add = Ok (ps', errs)) in E. rewrite E in Eerrs. subst errs. exists ps'. split; [exact E|].
    destruct (Hj 1%nat sample.begin eq_refl) as (s' & out & Ea & Hs' & _). rewrite Hs'.
    assert (@sp_Add sys SP sample.begin [] false false = Ok (sample.begin, [])) as Eb
      by (vm_compute; reflexivity).
    assert (@sent_to sys SP ps 1 txs = []) as En by (vm_compute; reflexivity).
    rewrite En, Eb in Ea. injection Ea as <- <-. reflexivity.
Defined.
