(* ===== verification/Avl.v ===== *)
(** * The AVL tree of costs (core/txpool/legacypool/avl.go)

    A balanced search tree from nonces to costs in which every node carries the sum of its
    subtree, so that a search returns the sum of the costs up to a nonce.  A nil pointer is
    [Nil]; methods that follow it panic.  The sums are big integers of their own, so that the
    in-place additions are additions. *)

From S2P Require Import Prelude.

Inductive AVLNode := Nil | Node (key value sum height : Z) (left right : AVLNode).
#[global] Instance AVLNode_eq_dec : EqDecision AVLNode.
Proof. solve_decision. Defined.

Definition getHeight (n : AVLNode) : Z := match n with Nil => 0 | Node _ _ _ h _ _ => h end.
Definition sum_of (n : AVLNode) : Z := match n with Nil => 0 | Node _ _ s _ _ _ => s end.

Definition recalculateHeight (n : AVLNode) : res AVLNode :=
  match n with
  | Nil => Panic "nil pointer dereference"
  | Node k v s _ l r => Ok (Node k v s (1 + Z.max (getHeight l) (getHeight r)) l r)
  end.

(** The sum of a node from its own value and its children. *)
Definition resum (n : AVLNode) : AVLNode :=
  match n with
  | Nil => Nil
  | Node k v _ h l r => Node k v (v + sum_of l + sum_of r) h l r
  end.

Definition rotateLeft (n : AVLNode) : res AVLNode :=
  match n with
  | Node k v s h l (Node k' v' s' h' l' r') =>
      n ← recalculateHeight (Node k v (s - s' + sum_of l') h l l');
      recalculateHeight (Node k' v' s h' n r')
  | _ => Panic "nil pointer dereference"
  end.

Definition rotateRight (n : AVLNode) : res AVLNode :=
  match n with
  | Node k v s h (Node k' v' s' h' l' r') r =>
      n ← recalculateHeight (Node k v (s - s' + sum_of r') h r' r);
      recalculateHeight (Node k' v' s h' l' n)
  | _ => Panic "nil pointer dereference"
  end.

Definition left_of (n : AVLNode) : res AVLNode :=
  match n with Nil => Panic "nil pointer dereference" | Node _ _ _ _ l _ => Ok l end.
Definition right_of (n : AVLNode) : res AVLNode :=
  match n with Nil => Panic "nil pointer dereference" | Node _ _ _ _ _ r => Ok r end.

Definition rebalanceTree (n : AVLNode) : res AVLNode :=
  match n with
  | Nil => Ok Nil
  | Node k v s _ l r =>
      let h := 1 + Z.max (getHeight l) (getHeight r) in
      let balanceFactor := getHeight l - getHeight r in
      if balanceFactor =? -2 then
        rl ← left_of r; rr ← right_of r;
        r ← (if getHeight rr <? getHeight rl then rotateRight r else Ok r);
        rotateLeft (Node k v s h l r)
      else if balanceFactor =? 2 then
        lr ← right_of l; ll ← left_of l;
        l ← (if getHeight ll <? getHeight lr then rotateLeft l else Ok l);
        rotateRight (Node k v s h l r)
      else Ok (Node k v s h l r)
  end.

Fixpoint node_add (n : AVLNode) (key value : Z) : res AVLNode :=
  match n with
  | Nil => Ok (Node key value value 1 Nil Nil)
  | Node k v s h l r =>
      if key <? k then l ← node_add l key value; rebalanceTree (resum (Node k v s h l r))
      else if k <? key then r ← node_add r key value; rebalanceTree (resum (Node k v s h l r))
      else rebalanceTree (resum (Node k value s h l r))
  end.

Fixpoint findSmallest (n : AVLNode) : res AVLNode :=
  match n with
  | Nil => Panic "nil pointer dereference"
  | Node _ _ _ _ Nil _ => Ok n
  | Node _ _ _ _ l _ => findSmallest l
  end.
Fixpoint findLargest (n : AVLNode) : res AVLNode :=
  match n with
  | Nil => Panic "nil pointer dereference"
  | Node _ _ _ _ _ Nil => Ok n
  | Node _ _ _ _ _ r => findLargest r
  end.

Definition key_of (n : AVLNode) : Z := match n with Nil => 0 | Node k _ _ _ _ _ => k end.
Definition value_of (n : AVLNode) : Z := match n with Nil => 0 | Node _ v _ _ _ _ => v end.

Fixpoint node_remove (n : AVLNode) (key : Z) : res AVLNode :=
  match n with
  | Nil => Ok Nil
  | Node k v s h l r =>
      if key <? k then l ← node_remove l key; rebalanceTree (resum (Node k v s h l r))
      else if k <? key then r ← node_remove r key; rebalanceTree (resum (Node k v s h l r))
      else
        match l, r with
        | Nil, Nil => Ok Nil
        | _, Nil => rebalanceTree (resum l)
        | Nil, _ => rebalanceTree (resum r)
        | _, _ =>
            rightMin ← findSmallest r;
            r ← node_remove r (key_of rightMin);
            rebalanceTree (resum (Node (key_of rightMin) (value_of rightMin) s h l r))
        end
  end.

(** The node of a key, and the sum of the values up to the key. *)
Fixpoint node_search (n : AVLNode) (key : Z) : AVLNode * Z :=
  match n with
  | Nil => (Nil, 0)
  | Node k v _ _ l r =>
      if key <? k then node_search l key
      else if k <? key then let '(node, sum) := node_search r key in (node, sum + sum_of l + v)
      else (n, v + sum_of l)
  end.

Fixpoint displayNodesInOrder (n : AVLNode) (nodes : list AVLNode) : list AVLNode :=
  match n with
  | Nil => nodes
  | Node _ _ _ _ l r => displayNodesInOrder r (displayNodesInOrder l nodes ++ [n])
  end.

(** ** AVLTree: the tree is its root *)

Definition tree_Add (t : AVLNode) (key value : Z) : res AVLNode := node_add t key value.
Definition tree_Remove (t : AVLNode) (key : Z) : res AVLNode := node_remove t key.
Definition tree_Update (t : AVLNode) (oldKey newKey newValue : Z) : res AVLNode :=
  t ← node_remove t oldKey; node_add t newKey newValue.
Definition tree_Search (t : AVLNode) (key : Z) : AVLNode * Z := node_search t key.
Definition tree_Smallest (t : AVLNode) : res (unit + Z) :=
  match t with Nil => Ok (inl ()) | _ => n ← findSmallest t; Ok (inr (key_of n)) end.
Definition tree_Largest (t : AVLNode) : res (unit + Z) :=
  match t with Nil => Ok (inl ()) | _ => n ← findLargest t; Ok (inr (key_of n)) end.
Definition tree_Flatten (t : AVLNode) : list AVLNode := match t with Nil => [] | _ => displayNodesInOrder t [] end.

(** ** The entries of a tree in order *)

Fixpoint entries (n : AVLNode) : list (Z * Z) :=
  match n with Nil => [] | Node k v _ _ l r => entries l ++ (k, v) :: entries r end.

Fixpoint total (l : list (Z * Z)) : Z := match l with [] => 0 | (_, v) :: l => v + total l end.

(** Sums and heights are right, and siblings differ in height by at most one. *)
Fixpoint balanced (n : AVLNode) : Prop :=
  match n with
  | Nil => True
  | Node k v s h l r =>
      balanced l ∧ balanced r ∧ s = v + sum_of l + sum_of r ∧ h = 1 + Z.max (getHeight l) (getHeight r) ∧
      -1 <= getHeight l - getHeight r <= 1
  end.

Lemma height_nonneg n : balanced n → 0 <= getHeight n.
Proof. induction n as [|k v s h l IHl r IHr]; cbn; [lia|]. intros (Hl & Hr & _ & -> & ?). specialize (IHl Hl). lia. Qed.

(** What a rebalanced node is. *)
Definition rebalanced (k v : Z) (l r t : AVLNode) : Prop :=
  balanced t ∧ entries t = entries l ++ (k, v) :: entries r ∧ sum_of t = v + sum_of l + sum_of r ∧
  Z.max (getHeight l) (getHeight r) <= getHeight t <= 1 + Z.max (getHeight l) (getHeight r) ∧
  (-1 <= getHeight l - getHeight r <= 1 → getHeight t = 1 + Z.max (getHeight l) (getHeight r)).

Ltac heights := repeat match goal with H : balanced ?n |- _ =>
  lazymatch n with Node _ _ _ _ _ _ => fail | _ => lazymatch goal with _ : 0 <= getHeight n |- _ => fail | _ => pose proof (height_nonneg n H) end end end.
Ltac rotated := eexists; split; [reflexivity|]; unfold rebalanced; cbn -[Z.max Z.add Z.sub] in *; heights;
  split_and!; try done; first [lia|repeat (rewrite <- app_assoc; cbn [app]); done].

Lemma rebalance_right k v s h l r :
  balanced l → balanced r → s = v + sum_of l + sum_of r → getHeight l - getHeight r = -2 →
  ∃ t, rebalanceTree (Node k v s h l r) = Ok t ∧ rebalanced k v l r t.
Proof.
  intros Hl Hr -> Hd. cbn [rebalanceTree]. rewrite (proj2 (Z.eqb_eq _ _) Hd). pose proof (height_nonneg l Hl).
  destruct r as [|k1 v1 s1 h1 rl rr]; [cbn in Hd; lia|]. cbn [left_of right_of mbind res_bind].
  destruct Hr as (Hrl & Hrr & -> & -> & Hb). destruct (Z.ltb_spec (getHeight rr) (getHeight rl)) as [Hlt|Hge].
  - destruct rl as [|k2 v2 s2 h2 l2 r2]; [cbn in *; heights; lia|]. destruct Hrl as (Hl2 & Hr2 & -> & -> & Hb2).
    cbn [rotateRight rotateLeft recalculateHeight mbind res_bind]. rotated.
  - cbn [rotateLeft recalculateHeight mbind res_bind]. rotated.
Qed.

Lemma rebalance_left k v s h l r :
  balanced l → balanced r → s = v + sum_of l + sum_of r → getHeight l - getHeight r = 2 →
  ∃ t, rebalanceTree (Node k v s h l r) = Ok t ∧ rebalanced k v l r t.
Proof.
  intros Hl Hr -> Hd. cbn [rebalanceTree]. rewrite Hd. cbn [Z.eqb]. pose proof (height_nonneg r Hr).
  destruct l as [|k1 v1 s1 h1 ll lr]; [cbn in Hd; lia|]. cbn [left_of right_of mbind res_bind].
  destruct Hl as (Hll & Hlr & -> & -> & Hb). destruct (Z.ltb_spec (getHeight ll) (getHeight lr)) as [Hlt|Hge].
  - destruct lr as [|k2 v2 s2 h2 l2 r2]; [cbn in *; heights; lia|]. destruct Hlr as (Hl2 & Hr2 & -> & -> & Hb2).
    cbn [rotateRight rotateLeft recalculateHeight mbind res_bind]. rotated.
  - cbn [rotateRight recalculateHeight mbind res_bind]. rotated.
Qed.

Lemma rebalance_ok k v s h l r :
  balanced l → balanced r → -2 <= getHeight l - getHeight r <= 2 →
  ∃ t, rebalanceTree (resum (Node k v s h l r)) = Ok t ∧ rebalanced k v l r t.
Proof.
  intros Hl Hr Hd. cbn [resum]. destruct (decide (getHeight l - getHeight r = -2)); [by apply rebalance_right|].
  destruct (decide (getHeight l - getHeight r = 2)); [by apply rebalance_left|]. cbn [rebalanceTree].
  destruct (Z.eqb_spec (getHeight l - getHeight r) (-2)); [lia|]. destruct (Z.eqb_spec (getHeight l - getHeight r) 2); [lia|].
  eexists. split; [done|]. unfold rebalanced. cbn -[Z.max Z.add Z.sub]. split_and!; try done; lia.
Qed.

(** ** The specification: entries in the order of their keys *)

Definition entry_lt (x y : Z * Z) : Prop := x.1 < y.1.
Notation sorted := (StronglySorted entry_lt).

Fixpoint set_entry (k v : Z) (l : list (Z * Z)) : list (Z * Z) :=
  match l with
  | [] => [(k, v)]
  | (k', v') :: l => if k <? k' then (k, v) :: (k', v') :: l else if k' <? k then (k', v') :: set_entry k v l else (k, v) :: l
  end.
Fixpoint drop_entry (k : Z) (l : list (Z * Z)) : list (Z * Z) :=
  match l with
  | [] => []
  | (k', v') :: l => if k =? k' then drop_entry k l else (k', v') :: drop_entry k l
  end.
Fixpoint value_at (k : Z) (l : list (Z * Z)) : option Z :=
  match l with [] => None | (k', v) :: l => if k =? k' then Some v else value_at k l end.
(** The sum of the values with keys up to [k]. *)
Fixpoint total_upto (k : Z) (l : list (Z * Z)) : Z :=
  match l with [] => 0 | (k', v) :: l => if k' <=? k then v + total_upto k l else total_upto k l end.

(** In a sorted list around [(k', v')] the entries before are smaller, those after larger. *)
Lemma sorted_middle l k v r :
  sorted (l ++ (k, v) :: r) ↔ sorted l ∧ sorted r ∧ Forall (λ x, x.1 < k) l ∧ Forall (λ x, k < x.1) r.
Proof.
  rewrite StronglySorted_app, StronglySorted_cons, !Forall_forall. unfold entry_lt. split.
  - intros (Hlt & Hl & Hx & Hr). split_and!; [done|done| |done]. intros x Hin. apply (Hlt x (k, v)); set_solver.
  - intros (Hl & Hr & Hx & Hy). split_and!; try done. intros x y Hin [->|Hy']%elem_of_cons; [by apply Hx|].
    specialize (Hx x Hin). specialize (Hy y Hy'). cbn in *. lia.
Qed.

Lemma set_entry_left k v l x r : k < x.1 → set_entry k v (l ++ x :: r) = set_entry k v l ++ x :: r.
Proof.
  intros Hk. induction l as [|[k' v'] l IH]; cbn; [destruct x as [kx vx]; cbn in *; destruct (Z.ltb_spec k kx); [done|lia]|].
  rewrite IH. destruct (k <? k'), (k' <? k); done.
Qed.
Lemma set_entry_right k v l r : Forall (λ x, x.1 < k) l → set_entry k v (l ++ r) = l ++ set_entry k v r.
Proof.
  induction 1 as [|[k' v'] l Hx _ IH]; cbn in *; [done|]. rewrite IH. destruct (Z.ltb_spec k k'); [lia|]. destruct (Z.ltb_spec k' k); [done|lia].
Qed.
Lemma drop_entry_app k l r : drop_entry k (l ++ r) = drop_entry k l ++ drop_entry k r.
Proof. induction l as [|[k' v'] l IH]; cbn; [done|]. rewrite IH. by destruct (k =? k'). Qed.
Lemma drop_entry_absent k l : Forall (λ x, x.1 ≠ k) l → drop_entry k l = l.
Proof. induction 1 as [|[k' v'] l Hx _ IH]; cbn in *; [done|]. rewrite IH. destruct (Z.eqb_spec k k'); congruence. Qed.

Lemma sorted_drop k l : sorted l → sorted (drop_entry k l).
Proof.
  assert (∀ (P : Z * Z → Prop) l, Forall P l → Forall P (drop_entry k l)) as Hd.
  { intros P m. induction 1 as [|[k' v'] m Hx _ IH]; cbn; [done|]. destruct (k =? k'); [done|by constructor]. }
  induction 1 as [|[k' v'] l _ IH Hx]; cbn; [constructor|]. destruct (k =? k'); [done|]. constructor; [done|by apply Hd].
Qed.
Lemma sorted_set k v l : sorted l → sorted (set_entry k v l).
Proof.
  assert (∀ (P : Z * Z → Prop) l, P (k, v) → Forall P l → Forall P (set_entry k v l)) as Hd.
  { intros P m Hp. induction 1 as [|[k' v'] m Hx Hm IH]; cbn; [by constructor|]. destruct (k <? k'), (k' <? k); by repeat constructor. }
  induction 1 as [|[k' v'] l Hl IH Hx]; cbn; [by repeat constructor|]. destruct (Z.ltb_spec k k') as [Hk|Hk].
  - constructor; [by constructor|]. constructor; [done|]. eapply Forall_impl; [exact Hx|]. unfold entry_lt. cbn. intros; lia.
  - destruct (Z.ltb_spec k' k) as [Hk'|Hk']; constructor; try done; [by apply Hd|]. by replace k with k' by lia.
Qed.

(** ** Add, Remove and Search *)

Lemma add_refines k v t :
  balanced t → sorted (entries t) →
  ∃ t', node_add t k v = Ok t' ∧ balanced t' ∧ entries t' = set_entry k v (entries t) ∧
    getHeight t <= getHeight t' <= getHeight t + 1.
Proof.
  induction t as [|k' v' s h l IHl r IHr]; intros Hb Hs; [eexists; split; [done|]; cbn; split_and!; (done || lia)|].
  destruct Hb as (Hl & Hr & -> & -> & Hd). cbn [entries] in Hs. apply sorted_middle in Hs as (Sl & Sr & Fl & Fr).
  cbn [node_add entries]. destruct (Z.ltb_spec k k') as [Hk|Hk]; [|destruct (Z.ltb_spec k' k) as [Hk'|Hk']].
  - destruct (IHl Hl Sl) as (l' & -> & Hl' & El & Hh). cbn [mbind res_bind].
    destruct (rebalance_ok k' v' (v' + sum_of l + sum_of r) (1 + Z.max (getHeight l) (getHeight r)) l' r) as (t & -> & Ht & Et & _ & Hh1 & Hh2); [done|done|lia|].
    exists t. rewrite Et, El, set_entry_left by done. cbn [getHeight]. split_and!; try done; lia.
  - destruct (IHr Hr Sr) as (r' & -> & Hr' & Er & Hh). cbn [mbind res_bind].
    destruct (rebalance_ok k' v' (v' + sum_of l + sum_of r) (1 + Z.max (getHeight l) (getHeight r)) l r') as (t & -> & Ht & Et & _ & Hh1 & Hh2); [done|done|lia|].
    exists t. rewrite Et, Er. change ((k', v') :: entries r) with ([(k', v')] ++ entries r). rewrite app_assoc, set_entry_right, <- app_assoc.
    + cbn [getHeight]. split_and!; try done; lia.
    + apply Forall_app. split; [|by repeat constructor]. eapply Forall_impl; [exact Fl|]. cbn. intros; lia.
  - assert (k' = k) as -> by lia. destruct (rebalance_ok k v (v' + sum_of l + sum_of r) (1 + Z.max (getHeight l) (getHeight r)) l r) as (t & -> & Ht & Et & _ & Hh1 & Hh2); [done|done|lia|].
    exists t. rewrite Et, set_entry_right by done. cbn [set_entry getHeight]. rewrite Z.ltb_irrefl. specialize (Hh2 Hd). split_and!; try done; lia.
Qed.

Lemma smallest_ok t : t ≠ Nil → ∃ n rest, findSmallest t = Ok n ∧ entries t = (key_of n, value_of n) :: rest.
Proof.
  induction t as [|k v s h l IHl r _]; intros Hne; [done|]. destruct l as [|kl vl sl hl ll lr]; [by eexists _, _|].
  destruct IHl as (n & rest & E & El); [done|]. exists n, (rest ++ (k, v) :: entries r). split; [done|].
  remember (Node kl vl sl hl ll lr) as l eqn:E0. cbn [entries]. by rewrite El.
Qed.

Lemma largest_ok t : t ≠ Nil → ∃ n rest, findLargest t = Ok n ∧ entries t = rest ++ [(key_of n, value_of n)].
Proof.
  induction t as [|k v s h l _ r IHr]; intros Hne; [done|]. destruct r as [|kr vr sr hr rl rr]; [by eexists _, _|].
  destruct IHr as (n & rest & E & Er); [done|]. exists n, (entries l ++ (k, v) :: rest). split; [done|].
  remember (Node kr vr sr hr rl rr) as r eqn:E0. cbn [entries]. by rewrite Er, <- app_assoc.
Qed.

(** A node that is balanced stays as it is. *)
Lemma rebalance_same t : t ≠ Nil → balanced t →
  ∃ t', rebalanceTree (resum t) = Ok t' ∧ balanced t' ∧ entries t' = entries t ∧ getHeight t' = getHeight t.
Proof.
  destruct t as [|k v s h l r]; intros Hne Hb; [done|]. destruct Hb as (Hl & Hr & -> & -> & Hd).
  destruct (rebalance_ok k v (v + sum_of l + sum_of r) (1 + Z.max (getHeight l) (getHeight r)) l r Hl Hr ltac:(lia)) as (t & E & Ht & Et & _ & _ & Hh).
  exists t. split_and!; [done|done|done|by apply Hh].
Qed.

(** The node with two children takes the smallest entry of the right one. *)
Lemma drop_first k v l : sorted ((k, v) :: l) → drop_entry k ((k, v) :: l) = l.
Proof.
  intros [Hx _]%StronglySorted_cons. cbn. rewrite Z.eqb_refl. apply drop_entry_absent.
  eapply Forall_impl; [exact Hx|]. unfold entry_lt. cbn. intros; lia.
Qed.

Lemma drop_entry_middle k v l r :
  Forall (λ x, x.1 < k) l → Forall (λ x, k < x.1) r → drop_entry k (l ++ (k, v) :: r) = l ++ r.
Proof.
  intros Hl Hr. rewrite drop_entry_app. cbn. rewrite Z.eqb_refl. rewrite !drop_entry_absent; [done| |];
    (eapply Forall_impl; [eassumption|]; cbn; intros; lia).
Qed.

Definition removes (k : Z) (t t' : AVLNode) : Prop :=
  balanced t' ∧ entries t' = drop_entry k (entries t) ∧ getHeight t - 1 <= getHeight t' <= getHeight t.

Lemma remove_found k v l r s :
  balanced l → balanced r → -1 <= getHeight l - getHeight r <= 1 → sorted (entries r) →
  Forall (λ x, x.1 < k) (entries l) → Forall (λ x, k < x.1) (entries r) →
  (∀ k, ∃ r', node_remove r k = Ok r' ∧ removes k r r') →
  let h := 1 + Z.max (getHeight l) (getHeight r) in
  ∃ t', node_remove (Node k v s h l r) k = Ok t' ∧ removes k (Node k v s h l r) t'.
Proof.
  intros Hl Hr Hd Sr Fl Fr IH h. unfold removes. cbn [node_remove entries getHeight]. rewrite Z.ltb_irrefl, drop_entry_middle by done.
  pose proof (height_nonneg l Hl). pose proof (height_nonneg r Hr). destruct (decide (r = Nil)) as [->|Hnr].
  - rewrite app_nil_r. destruct (decide (l = Nil)) as [->|Hnl].
    + exists Nil. subst h. cbn. split_and!; done.
    + destruct (rebalance_same l Hnl Hl) as (t & E & Ht & Et & Hh). exists t. destruct l; [done|]. subst h. cbn [getHeight] in *. split_and!; try done; lia.
  - destruct (decide (l = Nil)) as [->|Hnl].
    + destruct (rebalance_same r Hnr Hr) as (t & E & Ht & Et & Hh). exists t. destruct r; [done|]. subst h. cbn [getHeight] in *. split_and!; try done; lia.
    + destruct (smallest_ok r Hnr) as (n & rest & En & Er). destruct (IH (key_of n)) as (r' & Er' & Hr' & Ee & Hh).
      rewrite Er, (drop_first (key_of n) (value_of n) rest) in Ee by (by rewrite <- Er).
      destruct (rebalance_ok (key_of n) (value_of n) s h l r') as (t & E & Ht & Et & _ & Hh1 & Hh2); [done|done|lia|].
      exists t. split; [destruct l; [done|]; destruct r; [done|]; rewrite En; cbn [mbind res_bind]; rewrite Er'; exact E|].
      subst h. rewrite Et, Ee, Er. split_and!; try done; lia.
Qed.

Lemma remove_refines t : balanced t → sorted (entries t) → ∀ k, ∃ t', node_remove t k = Ok t' ∧ removes k t t'.
Proof.
  induction t as [|k' v' s h l IHl r IHr]; intros Hb Hs k; [by exists Nil|].
  destruct Hb as (Hl & Hr & -> & -> & Hd). cbn [entries] in Hs. apply sorted_middle in Hs as (Sl & Sr & Fl & Fr).
  destruct (Z.lt_trichotomy k k') as [Hk|[->|Hk]]; [| by apply remove_found; auto |].
  - destruct (IHl Hl Sl k) as (l' & E & Hl' & El & Hh). cbn [node_remove]. rewrite (proj2 (Z.ltb_lt _ _) Hk), E. cbn [mbind res_bind].
    destruct (rebalance_ok k' v' (v' + sum_of l + sum_of r) (1 + Z.max (getHeight l) (getHeight r)) l' r) as (t & -> & Ht & Et & _ & Hh1 & Hh2); [done|done|lia|].
    exists t. unfold removes. cbn [entries getHeight]. rewrite Et, El, drop_entry_app. cbn [drop_entry]. destruct (Z.eqb_spec k k'); [lia|].
    rewrite (drop_entry_absent k (entries r)) by (eapply Forall_impl; [exact Fr|]; cbn; intros; lia). split_and!; try done; lia.
  - destruct (IHr Hr Sr k) as (r' & E & Hr' & Er & Hh). cbn [node_remove]. destruct (Z.ltb_spec k k'); [lia|].
    rewrite (proj2 (Z.ltb_lt _ _) Hk), E. cbn [mbind res_bind].
    destruct (rebalance_ok k' v' (v' + sum_of l + sum_of r) (1 + Z.max (getHeight l) (getHeight r)) l r') as (t & -> & Ht & Et & _ & Hh1 & Hh2); [done|done|lia|].
    exists t. unfold removes. cbn [entries getHeight]. rewrite Et, Er, drop_entry_app. cbn [drop_entry]. destruct (Z.eqb_spec k k'); [lia|].
    rewrite (drop_entry_absent k (entries l)) by (eapply Forall_impl; [exact Fl|]; cbn; intros; lia). split_and!; try done; lia.
Qed.

Lemma entries_total_app l r : total (l ++ r) = total l + total r.
Proof. induction l as [|[k v] l IH]; cbn; [done|]. rewrite IH. lia. Qed.
Lemma sum_total t : balanced t → sum_of t = total (entries t).
Proof.
  induction t as [|k v s h l IHl r IHr]; cbn; [done|]. intros (Hl & Hr & -> & _). rewrite entries_total_app. cbn. rewrite IHl, IHr by done. lia.
Qed.

Lemma total_upto_app k l r : total_upto k (l ++ r) = total_upto k l + total_upto k r.
Proof. induction l as [|[k' v] l IH]; cbn; [done|]. rewrite IH. destruct (k' <=? k); lia. Qed.
Lemma total_upto_all k l : Forall (λ x, x.1 <= k) l → total_upto k l = total l.
Proof. induction 1 as [|[k' v] l Hx _ IH]; cbn in *; [done|]. destruct (Z.leb_spec k' k); [|lia]. by rewrite IH. Qed.
Lemma total_upto_none k l : Forall (λ x, k < x.1) l → total_upto k l = 0.
Proof. induction 1 as [|[k' v] l Hx _ IH]; cbn in *; [done|]. destruct (Z.leb_spec k' k); [lia|done]. Qed.
Lemma value_at_app k l r : value_at k (l ++ r) = match value_at k l with Some v => Some v | None => value_at k r end.
Proof. induction l as [|[k' v] l IH]; cbn; [done|]. by destruct (k =? k'). Qed.
Lemma value_at_none k l : Forall (λ x, x.1 ≠ k) l → value_at k l = None.
Proof. induction 1 as [|[k' v] l Hx _ IH]; cbn in *; [done|]. by destruct (Z.eqb_spec k k'). Qed.

(** The value of the node that was found. *)
Definition found (n : AVLNode) : option Z := match n with Nil => None | Node _ v _ _ _ _ => Some v end.

Lemma search_refines k t :
  balanced t → sorted (entries t) →
  found (node_search t k).1 = value_at k (entries t) ∧ (node_search t k).2 = total_upto k (entries t).
Proof.
  induction t as [|k' v' s h l IHl r IHr]; intros Hb Hs; [done|].
  destruct Hb as (Hl & Hr & -> & -> & Hd). cbn [entries] in *. apply sorted_middle in Hs as (Sl & Sr & Fl & Fr).
  rewrite value_at_app, total_upto_app. cbn [node_search value_at total_upto].
  destruct (Z.ltb_spec k k') as [Hk|Hk]; [|destruct (Z.ltb_spec k' k) as [Hk'|Hk']].
  - destruct (IHl Hl Sl) as [-> ->]. destruct (Z.eqb_spec k k'); [lia|]. destruct (Z.leb_spec k' k); [lia|].
    rewrite (value_at_none k (entries r)), (total_upto_none k (entries r)); [split; [by destruct (value_at k _)|lia]| |];
      (eapply Forall_impl; [exact Fr|]; cbn; intros; lia).
  - destruct (IHr Hr Sr) as [Ef Es]. destruct (node_search r k) as [n s]. cbn [fst snd] in *. subst s.
    destruct (Z.eqb_spec k k'); [lia|]. destruct (Z.leb_spec k' k); [|lia]. rewrite sum_total by done.
    rewrite (value_at_none k (entries l)), (total_upto_all k (entries l)); [split; [done|lia]| |]; (eapply Forall_impl; [exact Fl|]; cbn; intros; lia).
  - assert (k' = k) as -> by lia. rewrite Z.eqb_refl, Z.leb_refl, sum_total by done. cbn [fst snd found].
    rewrite value_at_none, (total_upto_all k (entries l)), (total_upto_none k (entries r)); [split; [done|lia]|..];
      (eapply Forall_impl; [first [exact Fl|exact Fr]|]; cbn; intros; lia).
Qed.

Lemma display_entries t : ∀ nodes, (λ n, (key_of n, value_of n)) <$> displayNodesInOrder t nodes = ((λ n, (key_of n, value_of n)) <$> nodes) ++ entries t.
Proof.
  induction t as [|k v s h l IHl r IHr]; intros nodes; cbn [displayNodesInOrder entries]; [by rewrite app_nil_r|].
  rewrite IHr, fmap_app, IHl. cbn. by rewrite <- !app_assoc.
Qed.

(** ** Refinement of a map *)

Inductive avl_op :=
| AAdd (key value : Z)
| ARemove (key : Z)
| AUpdate (oldKey newKey newValue : Z)
| ASearch (key : Z)
| ASmallest
| ALargest
| AFlatten.
Inductive avl_out :=
| RDone
| RSearch (value : option Z) (sum : Z)
| RKey (key : option Z)
| RNodes (entries : list (Z * Z)).

Definition to_option (r : unit + Z) : option Z := match r with inl _ => None | inr k => Some k end.
Definition avl_step (op : avl_op) (t : AVLNode) : res (AVLNode * avl_out) :=
  match op with
  | AAdd k v => t ← tree_Add t k v; Ok (t, RDone)
  | ARemove k => t ← tree_Remove t k; Ok (t, RDone)
  | AUpdate o k v => t ← tree_Update t o k v; Ok (t, RDone)
  | ASearch k => let '(n, sum) := tree_Search t k in Ok (t, RSearch (found n) sum)
  | ASmallest => r ← tree_Smallest t; Ok (t, RKey (to_option r))
  | ALargest => r ← tree_Largest t; Ok (t, RKey (to_option r))
  | AFlatten => Ok (t, RNodes ((λ n, (key_of n, value_of n)) <$> tree_Flatten t))
  end.
Fixpoint avl_run (ops : list avl_op) (t : AVLNode) : res (AVLNode * list avl_out) :=
  match ops with
  | [] => Ok (t, [])
  | op :: ops => '(t, o) ← avl_step op t; '(t, os) ← avl_run ops t; Ok (t, o :: os)
  end.

(** The entries of a map in the order of the keys. *)
Definition entry_le (x y : Z * Z) : Prop := x.1 <= y.1.
#[global] Instance entry_le_dec x y : Decision (entry_le x y) := decide (x.1 <= y.1).
Definition in_order (m : gmap Z Z) : list (Z * Z) := merge_sort entry_le (map_to_list m).

Definition map_step (op : avl_op) (m : gmap Z Z) : gmap Z Z * avl_out :=
  match op with
  | AAdd k v => (<[k := v]> m, RDone)
  | ARemove k => (delete k m, RDone)
  | AUpdate o k v => (<[k := v]> (delete o m), RDone)
  | ASearch k => (m, RSearch (m !! k) (total_upto k (map_to_list m)))
  | ASmallest => (m, RKey (fst <$> head (in_order m)))
  | ALargest => (m, RKey (fst <$> last (in_order m)))
  | AFlatten => (m, RNodes (in_order m))
  end.
Fixpoint map_run (ops : list avl_op) (m : gmap Z Z) : gmap Z Z * list avl_out :=
  match ops with
  | [] => (m, [])
  | op :: ops => let '(m, o) := map_step op m in let '(m, os) := map_run ops m in (m, o :: os)
  end.

Record represents (t : AVLNode) (m : gmap Z Z) : Prop := {
  rp_balanced : balanced t;
  rp_sorted : sorted (entries t);
  rp_map : list_to_map (entries t) = m;
}.

Lemma list_to_map_set k v l : list_to_map (set_entry k v l) = <[k := v]> (list_to_map l : gmap Z Z).
Proof.
  induction l as [|[k' v'] l IH]; cbn; [done|]. destruct (Z.ltb_spec k k'); [done|]. destruct (Z.ltb_spec k' k).
  - cbn. rewrite IH. apply insert_insert_ne. lia.
  - cbn. replace k' with k by lia. by rewrite insert_insert_eq.
Qed.
Lemma list_to_map_drop k l : list_to_map (drop_entry k l) = delete k (list_to_map l : gmap Z Z).
Proof.
  induction l as [|[k' v'] l IH]; cbn; [by rewrite delete_empty|]. destruct (Z.eqb_spec k k') as [->|].
  - rewrite IH. by rewrite delete_insert_eq.
  - cbn. rewrite IH. by rewrite delete_insert_ne.
Qed.
Lemma value_at_map k l : value_at k l = (list_to_map l : gmap Z Z) !! k.
Proof.
  induction l as [|[k' v'] l IH]; cbn; [by rewrite lookup_empty|]. destruct (Z.eqb_spec k k') as [->|].
  - by rewrite lookup_insert_eq.
  - by rewrite lookup_insert_ne.
Qed.

#[global] Instance total_upto_perm k : Proper (Permutation ==> eq) (total_upto k).
Proof.
  induction 1 as [|[k' v] l l' _ IH|[k1 v1] [k2 v2] l|]; cbn; [done|by rewrite IH| |congruence].
  destruct (k1 <=? k), (k2 <=? k); lia.
Qed.

Lemma sorted_keys l : sorted l → NoDup l.*1.
Proof.
  induction 1 as [|[k v] l _ IH Hx]; cbn; constructor; [|done]. intros ([k' v'] & -> & Hin)%list_elem_of_fmap.
  rewrite Forall_forall in Hx. specialize (Hx _ Hin). unfold entry_lt in Hx. cbn in Hx. lia.
Qed.

Lemma entries_perm t m : represents t m → map_to_list m ≡ₚ entries t.
Proof. intros [_ Hs <-]. apply map_to_list_to_map. by apply sorted_keys. Qed.

#[global] Instance entry_le_total : Total entry_le.
Proof. intros x y. unfold entry_le. lia. Qed.
#[global] Instance entry_le_trans : Transitive entry_le.
Proof. intros x y z. unfold entry_le. lia. Qed.

Lemma entries_in_order t m : represents t m → in_order m = entries t.
Proof.
  intros Hr. pose proof (entries_perm t m Hr) as Hp. destruct Hr as [_ Hs Hm]. unfold in_order.
  apply (StronglySorted_unique_strong entry_le).
  - intros [k1 v1] [k2 v2] Hin1 Hin2 Hle1 Hle2. rewrite merge_sort_Permutation, Hp in Hin1. unfold entry_le in *. cbn in *.
    assert (k1 = k2) as -> by lia. f_equal. apply (elem_of_list_to_map_1 _ _ _ (sorted_keys _ Hs)) in Hin1, Hin2.
    congruence.
  - apply StronglySorted_merge_sort; apply _.
  - clear -Hs. induction Hs as [|x l _ IH Hx]; constructor; [done|]. eapply Forall_impl; [exact Hx|]. unfold entry_lt, entry_le. intros; lia.
  - by rewrite merge_sort_Permutation.
Qed.

Lemma step_represents op t m :
  represents t m → ∃ t', avl_step op t = Ok (t', (map_step op m).2) ∧ represents t' (map_step op m).1.
Proof.
  intros Hr. pose proof (entries_in_order t m Hr) as Eo. pose proof (entries_perm t m Hr) as Hp. destruct (Hr) as [Hb Hs Hm].
  assert (∀ t' m', balanced t' → sorted (entries t') → list_to_map (entries t') = m' → represents t' m') as mk by (intros; by split).
  destruct op as [k v|k|o k v|k| | |]; cbn [avl_step map_step fst snd].
  - destruct (add_refines k v t Hb Hs) as (t' & E & Hb' & Et & _). unfold tree_Add. rewrite E. cbn [mbind res_bind]. eexists. split; [done|].
    apply mk; [done|rewrite Et; by apply sorted_set|by rewrite Et, list_to_map_set, Hm].
  - destruct (remove_refines t Hb Hs k) as (t' & E & Hb' & Et & _). unfold tree_Remove. rewrite E. cbn [mbind res_bind]. eexists. split; [done|].
    apply mk; [done|rewrite Et; by apply sorted_drop|by rewrite Et, list_to_map_drop, Hm].
  - destruct (remove_refines t Hb Hs o) as (t1 & E & Hb1 & Et1 & _). unfold tree_Update. rewrite E. cbn [mbind res_bind].
    destruct (add_refines k v t1) as (t' & E' & Hb' & Et & _); [done|rewrite Et1; by apply sorted_drop|]. rewrite E'. cbn [mbind res_bind].
    eexists. split; [done|]. apply mk; [done|rewrite Et, Et1; by apply sorted_set, sorted_drop|].
    by rewrite Et, Et1, list_to_map_set, list_to_map_drop, Hm.
  - destruct (search_refines k t Hb Hs) as [Ef Es]. unfold tree_Search. destruct (node_search t k) as [n s]. cbn [fst snd] in *.
    exists t. rewrite Ef, Es, value_at_map, Hm, Hp. done.
  - exists t. split; [|done]. rewrite Eo. destruct (decide (t = Nil)) as [->|Hne]; [done|].
    destruct (smallest_ok t Hne) as (n & rest & E & ->). unfold tree_Smallest. destruct t; [done|]. rewrite E. done.
  - exists t. split; [|done]. rewrite Eo. destruct (decide (t = Nil)) as [->|Hne]; [done|].
    destruct (largest_ok t Hne) as (n & rest & E & ->). unfold tree_Largest. rewrite last_snoc. destruct t; [done|]. rewrite E. done.
  - exists t. split; [|done]. rewrite Eo. do 3 f_equal. unfold tree_Flatten. destruct t; [done|]. by rewrite display_entries.
Qed.

Lemma run_represents ops : ∀ t m, represents t m →
  ∃ t', avl_run ops t = Ok (t', (map_run ops m).2) ∧ represents t' (map_run ops m).1.
Proof.
  induction ops as [|op ops IH]; intros t m Hr; cbn [avl_run map_run]; [by exists t|].
  destruct (step_represents op t m Hr) as (t1 & -> & H1). cbn [mbind res_bind]. destruct (map_step op m) as [m1 o]. cbn [fst snd] in *.
  destruct (IH t1 m1 H1) as (t2 & -> & H2). cbn [mbind res_bind]. destruct (map_run ops m1) as [m2 os]. by exists t2.
Qed.

(** ** The height is logarithmic *)

Lemma height_size t : balanced t → 2 ^ getHeight t <= (Z.of_nat (length (entries t)) + 1) ^ 2.
Proof.
  induction t as [|k v s h l IHl r IHr]; intros Hb; [done|]. destruct Hb as (Hl & Hr & _ & -> & Hd). cbn [getHeight entries].
  specialize (IHl Hl). specialize (IHr Hr). pose proof (height_nonneg l Hl). pose proof (height_nonneg r Hr).
  rewrite length_app. cbn [length]. set (a := Z.of_nat (length (entries l))) in *. set (b := Z.of_nat (length (entries r))) in *.
  replace (Z.of_nat (length (entries l) + S (length (entries r))) + 1) with ((a + 1) + (b + 1)) by lia.
  assert (0 <= a ∧ 0 <= b) as [Ha Hb'] by lia. clearbody a b. rewrite Z.pow_add_r by lia.
  assert (∀ x y p q, 0 <= p → p - q <= 1 → q <= p → 0 <= q → 0 <= x → 0 <= y → 2 ^ p <= (x + 1) ^ 2 → 2 ^ q <= (y + 1) ^ 2 →
    2 ^ 1 * 2 ^ p <= ((x + 1) + (y + 1)) ^ 2) as Hgo.
  { intros x y p q Hp Hpq Hqp Hq Hx Hy Hpx Hqy. assert (2 ^ p <= 2 * 2 ^ q) as H2.
    { rewrite <- Z.pow_succ_r by lia. apply Z.pow_le_mono_r; lia. }
    assert (0 < 2 ^ q) by (apply Z.pow_pos_nonneg; lia). set (P := 2 ^ p) in *. set (X := 2 ^ q) in *. clearbody P X.
    assert (X <= (x + 1) ^ 2 ∨ P < X) as [HX|HX] by lia; nia. }
  destruct (Z.max_spec (getHeight l) (getHeight r)) as [[? ->]|[? ->]].
  - rewrite Z.add_comm. by apply (Hgo b a (getHeight r) (getHeight l)); try lia.
  - by apply (Hgo a b (getHeight l) (getHeight r)); try lia.
Qed.

(** C22: The tree of costs behaves as a map, however keys are added, removed, updated and
    searched: nothing panics, a search returns the value of the key and the sum of all values
    up to it, Smallest, Largest and Flatten follow the order of the keys; the tree that is
    left is balanced, carries the right sums, and has a height at most twice the binary
    logarithm of its size. *)
Theorem avl_refines_map ops :
  ∃ t, avl_run ops Nil = Ok (t, (map_run ops ∅).2) ∧ represents t (map_run ops ∅).1 ∧
    2 ^ getHeight t <= (Z.of_nat (size (map_run ops ∅).1) + 1) ^ 2.
Proof.
  destruct (run_represents ops Nil ∅) as (t & E & Hr); [by split; [done|constructor|]|]. exists t. split_and!; [done|done|].
  etrans; [apply height_size, Hr|]. rewrite <- (Permutation_length (entries_perm _ _ Hr)), length_map_to_list. done.
Qed.

Example avl_run_sample :
  snd <$> avl_run [AAdd 4 7; AAdd 8 8; AAdd 9 1; AAdd 6 3; ARemove 8; ASearch 8; AFlatten; ALargest] Nil
  = Ok [RDone; RDone; RDone; RDone; RDone; RSearch None 10; RNodes [(4, 7); (6, 3); (9, 1)]; RKey (Some 9)].
Proof. vm_compute. reflexivity. Qed.
