(* ===== verification/Precompiles.v ===== *)
(** * Precompiled contracts (core/evm/contracts.go)

    The gas and the input handling of the native contracts at addresses 1 to 18.  SHA-256
    is written out and the compression function of BLAKE2b is that of [Blake2b]; the curve
    packages crypto/bn256, crypto/bls12381 and RIPEMD-160 (golang.org/x/crypto) are fields
    of the class [NativeCrypto]. *)

From S2P Require Import Prelude Bytes Params RlpEncode Common EvmWord EvmBase Blake2b.
From Stdlib Require Import Zpow_facts.

Class NativeCrypto := {
  ripemd160 : list byte → list byte;
  (* crypto/bn256: [Unmarshal] fails on points that are not on the curve *)
  bnG1 : Type; bnG2 : Type;
  bnG1_Unmarshal : list byte → vm_error + bnG1; bnG2_Unmarshal : list byte → vm_error + bnG2;
  bnG1_Marshal : bnG1 → list byte; bnG1_Add : bnG1 → bnG1 → bnG1; bnG1_ScalarMult : bnG1 → Z → bnG1;
  bn_PairingCheck : list bnG1 → list bnG2 → bool;
  (* crypto/bls12381 *)
  PointG1 : Type; PointG2 : Type;
  g1_DecodePoint : list byte → vm_error + PointG1; g2_DecodePoint : list byte → vm_error + PointG2;
  g1_EncodePoint : PointG1 → list byte; g2_EncodePoint : PointG2 → list byte;
  g1_Add : PointG1 → PointG1 → PointG1; g2_Add : PointG2 → PointG2 → PointG2;
  g1_MulScalar : PointG1 → Z → PointG1; g2_MulScalar : PointG2 → Z → PointG2;
  g1_MultiExp : list PointG1 → list Z → PointG1; g2_MultiExp : list PointG2 → list Z → PointG2;
  g1_InCorrectSubgroup : PointG1 → bool; g2_InCorrectSubgroup : PointG2 → bool;
  g1_MapToCurve : list byte → vm_error + PointG1; g2_MapToCurve : list byte → vm_error + PointG2;
  bls_PairingCheck : list (PointG1 * PointG2) → bool;
  (* what these return are bytes *)
  ripemd160_ok : ∀ l, bytes_ok (ripemd160 l);
  bnG1_Marshal_ok : ∀ p, bytes_ok (bnG1_Marshal p);
  g1_EncodePoint_ok : ∀ p, bytes_ok (g1_EncodePoint p);
  g2_EncodePoint_ok : ∀ p, bytes_ok (g2_EncodePoint p);
}.

(** ** SHA-256 (crypto/sha256) *)

Module Sha256.

Definition w32 (x : Z) : Z := x mod 2 ^ 32.
Definition rotr (x n : Z) : Z := Z.lor (x ≫ n) (w32 (x ≪ (32 - n))).

(** The constants of the algorithm are the first 32 bits of the fractional parts of roots
    of primes: cube roots of the first 64 for the rounds, square roots of the first 8 for
    the initial state. *)
Definition is_prime (n : nat) : bool :=
  forallb (λ d, negb (n mod d =? 0)%nat) (seq 2 (n - 2)).
Definition primes : list nat := filter (λ n, is_prime n = true) (seq 2 310).

(** The largest [r] with [r ^ e <= x], bit by bit from bit [n - 1] down. *)
Fixpoint root (e x : Z) (n : nat) (r : Z) : Z :=
  match n with
  | O => r
  | S n => let r' := r + 2 ^ Z.of_nat n in root e x n (if r' ^ e <=? x then r' else r)
  end.
Definition root_fraction (e : Z) (p : nat) : Z :=
  w32 (root e (Z.of_nat p * 2 ^ (32 * e)) 37 0).

Definition K : list Z := Eval vm_compute in root_fraction 3 <$> primes.
Definition init : list Z := Eval vm_compute in root_fraction 2 <$> take 8 primes.

Fixpoint chunks (fuel : nat) (n : nat) (l : list Z) : list (list Z) :=
  match fuel with
  | O => []
  | S fuel => match l with [] => [] | _ => take n l :: chunks fuel n (drop n l) end
  end.

(** Padding: a one bit, zeroes, and the length in bits in eight bytes. *)
Definition pad (msg : list byte) : list byte :=
  let z := Z.to_nat ((55 - len msg) mod 64) in
  msg ++ [0x80] ++ replicate z 0 ++ be_bytes 8 (8 * len msg).

(** The message schedule, most recent word first. *)
Fixpoint schedule (rounds : nat) (w : list Z) : list Z :=
  match rounds with
  | O => w
  | S n =>
      let v1 := w !!! 1%nat in let v2 := w !!! 14%nat in
      let s1 := Z.lxor (Z.lxor (rotr v1 17) (rotr v1 19)) (v1 ≫ 10) in
      let s0 := Z.lxor (Z.lxor (rotr v2 7) (rotr v2 18)) (v2 ≫ 3) in
      schedule n (w32 (s1 + w !!! 6%nat + s0 + w !!! 15%nat) :: w)
  end.

Definition round (st : list Z) (kw : Z * Z) : list Z :=
  match st with
  | [a; b; c; d; e; f; g; h] =>
      let S1 := Z.lxor (Z.lxor (rotr e 6) (rotr e 11)) (rotr e 25) in
      let ch := Z.lxor (Z.land e f) (Z.land (2 ^ 32 - 1 - e) g) in
      let t1 := h + S1 + ch + kw.1 + kw.2 in
      let S0 := Z.lxor (Z.lxor (rotr a 2) (rotr a 13)) (rotr a 22) in
      let maj := Z.lxor (Z.lxor (Z.land a b) (Z.land a c)) (Z.land b c) in
      [w32 (t1 + S0 + maj); a; b; c; w32 (d + t1); e; f; g]
  | _ => st
  end.

Definition block (st : list Z) (p : list byte) : list Z :=
  let w := reverse (map be_value (chunks 16 4 p)) in
  let st' := foldl round st (zip K (reverse (schedule 48 w))) in
  zip_with (λ x y, w32 (x + y)) st st'.

Definition Sum256 (msg : list byte) : list byte :=
  let p := pad msg in
  foldl block init (chunks (length p) 64 p) ≫= be_bytes 4.

(** The digest of the empty message and of "abc". *)
Example Sum256_vectors :
  be_value (Sum256 []) = 0xe3b0c44298fc1c149afbf4c8996fb92427ae41e4649b934ca495991b7852b855
  ∧ be_value (Sum256 [97; 98; 99]) = 0xba7816bf8f01cfea414140de5dae2223b00361a396177a9cb410ff61f20015ad.
Proof. vm_compute. done. Qed.

Lemma Sum256_ok msg : bytes_ok (Sum256 msg).
Proof.
  unfold Sum256, bytes_ok. apply Forall_bind, Forall_true. intros x. apply be_bytes_ok.
Qed.

End Sha256.

(** ** The contracts *)

Inductive PrecompiledContract :=
| ecrecover | sha256hash | ripemd160hash | dataCopy | bigModExp (eip2565 : bool)
| bn256AddIstanbul | bn256ScalarMulIstanbul | bn256PairingIstanbul | blake2F
| bls12381G1Add | bls12381G1Mul | bls12381G1MultiExp
| bls12381G2Add | bls12381G2Mul | bls12381G2MultiExp
| bls12381Pairing | bls12381MapG1 | bls12381MapG2.

Definition PrecompiledContractsHomestead (a : Address) : option PrecompiledContract :=
  match a with
  | 1 => Some ecrecover | 2 => Some sha256hash | 3 => Some ripemd160hash | 4 => Some dataCopy
  | 5 => Some (bigModExp true) | 6 => Some bn256AddIstanbul | 7 => Some bn256ScalarMulIstanbul
  | 8 => Some bn256PairingIstanbul | 9 => Some blake2F | 10 => Some bls12381G1Add
  | 11 => Some bls12381G1Mul | 12 => Some bls12381G1MultiExp | 13 => Some bls12381G2Add
  | 14 => Some bls12381G2Mul | 15 => Some bls12381G2MultiExp | 16 => Some bls12381Pairing
  | 17 => Some bls12381MapG1 | 18 => Some bls12381MapG2
  | _ => None
  end.

(** Gas per word of the hashing contracts and of the copy. *)
Definition word_gas (input : list byte) (perWord base : Z) : Z :=
  ((len input + 31) / 32 * perWord + base)%u64.

Definition modexpMultComplexity (x : Z) : Z :=
  if x <=? 64 then x * x
  else if x <=? 1024 then x * x / 4 + (96 * x - 3072)
  else x * x / 16 + (480 * x - 199680).

(** [input[96:]], or nothing. *)
Definition after_header (input : list byte) : list byte := drop 96 input.

Definition big_data (input : list byte) (start size : Z) : res Z :=
  d ← getData input start size; Ok (be_value d).

Definition bigModExp_RequiredGas (eip2565 : bool) (input : list byte) : res Z :=
  baseLen ← big_data input 0 32;
  expLen ← big_data input 32 32;
  modLen ← big_data input 64 32;
  let input := after_header input in
  expHead ← (if len input <=? baseLen then Ok 0
             else if 32 <? expLen then big_data input (u64 baseLen) 32
             else big_data input (u64 baseLen) (u64 expLen));
  let msb := if 0 <? BitLen expHead then BitLen expHead - 1 else 0 in
  let adjExpLen := (if 32 <? expLen then 8 * (expLen - 32) else 0) + msb in
  let gas := Z.max modLen baseLen in
  if eip2565 then
    let gas := (gas + 7) / 8 in
    let gas := gas * gas * Z.max adjExpLen 1 / 3 in
    Ok (if 64 <? BitLen gas then MaxUint64 else if u64 gas <? 200 then 200 else u64 gas)
  else
    let gas := modexpMultComplexity gas * Z.max adjExpLen 1 / 20 in
    Ok (if 64 <? BitLen gas then MaxUint64 else u64 gas).

Definition bigModExp_Run (input : list byte) : res (list byte) :=
  baseLen ← big_data input 0 32;
  expLen ← big_data input 32 32;
  modLen ← big_data input 64 32;
  let baseLen := u64 baseLen in let expLen := u64 expLen in let modLen := u64 modLen in
  let input := after_header input in
  if (baseLen =? 0) && (modLen =? 0) then Ok []
  else
    base ← big_data input 0 baseLen;
    exp ← big_data input baseLen expLen;
    mod_ ← big_data input (baseLen + expLen)%u64 modLen;
    if BitLen mod_ =? 0 then Ok (LeftPadBytes [] (int64 modLen))
    else
      let v := if BitLen base =? 1 then base mod mod_ else Zpow_mod base exp mod_ in
      Ok (LeftPadBytes (big_Bytes v) (int64 modLen)).

(** The discount of a multi-exponentiation of [k] points. *)
Definition Bls12381MultiExpDiscountTable : list Z :=
  [1200; 888; 764; 641; 594; 547; 500; 453; 438; 423; 408; 394; 379; 364; 349; 334; 330; 326; 322;
   318; 314; 310; 306; 302; 298; 294; 289; 285; 281; 277; 273; 269; 268; 266; 265; 263; 262; 260;
   259; 257; 256; 254; 253; 251; 250; 248; 247; 245; 244; 242; 241; 239; 238; 236; 235; 233; 232;
   231; 229; 228; 226; 225; 223; 222; 221; 220; 219; 219; 218; 217; 216; 216; 215; 214; 213; 213;
   212; 211; 211; 210; 209; 208; 208; 207; 206; 205; 205; 204; 203; 202; 202; 201; 200; 199; 199;
   198; 197; 196; 196; 195; 194; 193; 193; 192; 191; 191; 190; 189; 188; 188; 187; 186; 185; 185;
   184; 183; 182; 182; 181; 180; 179; 179; 178; 177; 176; 176; 175; 174].

Definition multiExp_gas (input : list byte) (pair mulGas : Z) : res Z :=
  let k := len input / pair in
  if k =? 0 then Ok 0
  else
    let dLen := len Bls12381MultiExpDiscountTable in
    discount ← go_index Bls12381MultiExpDiscountTable (if k <? dLen then k - 1 else dLen - 1);
    Ok ((k * mulGas * discount)%u64 / 1000).

Definition blake2FInputLength : Z := 213.

Definition RequiredGas (p : PrecompiledContract) (input : list byte) : res Z :=
  match p with
  | ecrecover => Ok EcrecoverGas
  | sha256hash => Ok (word_gas input Sha256PerWordGas Sha256BaseGas)
  | ripemd160hash => Ok (word_gas input Ripemd160PerWordGas Ripemd160BaseGas)
  | dataCopy => Ok (word_gas input IdentityPerWordGas IdentityBaseGas)
  | bigModExp eip2565 => bigModExp_RequiredGas eip2565 input
  | bn256AddIstanbul => Ok Bn256AddGasIstanbul
  | bn256ScalarMulIstanbul => Ok Bn256ScalarMulGasIstanbul
  | bn256PairingIstanbul =>
      Ok (Bn256PairingBaseGasIstanbul + len input / 192 * Bn256PairingPerPointGasIstanbul)%u64
  | blake2F => if len input =? blake2FInputLength then Ok (u64 (be_value (take 4 input))) else Ok 0
  | bls12381G1Add => Ok Bls12381G1AddGas
  | bls12381G1Mul => Ok Bls12381G1MulGas
  | bls12381G1MultiExp => multiExp_gas input 160 Bls12381G1MulGas
  | bls12381G2Add => Ok Bls12381G2AddGas
  | bls12381G2Mul => Ok Bls12381G2MulGas
  | bls12381G2MultiExp => multiExp_gas input 288 Bls12381G2MulGas
  | bls12381Pairing => Ok (Bls12381PairingBaseGas + len input / 384 * Bls12381PairingPerPairGas)%u64
  | bls12381MapG1 => Ok Bls12381MapG1Gas
  | bls12381MapG2 => Ok Bls12381MapG2Gas
  end.

(** ** Running *)

(** A [([]byte, error)] result. *)
Definition outcome_bytes : Type := list byte * option vm_error.
Definition fail (e : vm_error) : outcome_bytes := ([], Some e).
Definition of_sum (r : vm_error + list byte) : outcome_bytes :=
  match r with inr b => (b, None) | inl e => fail e end.

Definition errBadPairingInput := errors_New "bad elliptic curve pairing size".
Definition errInvalidInputLength := errors_New "invalid input length".
Definition errBlake2FInvalidFinalFlag := errors_New "invalid final flag".
Definition errBLS12381InvalidFieldElementTopBytes := errors_New "invalid field element top bytes".
Definition errBLS12381G1PointSubgroup := errors_New "g1 point is not on correct subgroup".
Definition errBLS12381G2PointSubgroup := errors_New "g2 point is not on correct subgroup".

Definition bool32 (b : bool) : list byte := replicate 31 0 ++ [if b then 1 else 0].

(** [input[i:j]] at constant bounds the source has checked. *)
Definition sub_bytes (input : list byte) (i j : nat) : list byte := take (j - i) (drop i input).

(** The slices of [size] bytes the input consists of. *)
Fixpoint split_every (k : nat) (size : nat) (input : list byte) : list (list byte) :=
  match k with
  | O => []
  | S k => take size input :: split_every k size (drop size input)
  end.

Section run.
Context {Cr : Crypto} {NC : NativeCrypto}.

Definition ecrecover_Run (input : list byte) : list byte :=
  let input := RightPadBytes input 128 in
  let r := be_value (sub_bytes input 64 96) in
  let s := be_value (sub_bytes input 96 128) in
  let v := byte_of (input !!! 63%nat - 27) in
  if negb (allZero (sub_bytes input 32 63)) || negb (ValidateSignatureValues v r s false) then []
  else match Ecrecover (take 32 input) (sub_bytes input 64 128 ++ [v]) with
       | inl _ => []
       | inr pubKey => LeftPadBytes (drop 12 (Keccak256 (drop 1 pubKey))) 32
       end.

Definition runBn256Add (input : list byte) : res outcome_bytes :=
  d0 ← getData input 0 64;
  match bnG1_Unmarshal d0 with
  | inl e => Ok (fail e)
  | inr x =>
      d1 ← getData input 64 64;
      match bnG1_Unmarshal d1 with
      | inl e => Ok (fail e)
      | inr y => Ok (bnG1_Marshal (bnG1_Add x y), None)
      end
  end.

Definition runBn256ScalarMul (input : list byte) : res outcome_bytes :=
  d0 ← getData input 0 64;
  match bnG1_Unmarshal d0 with
  | inl e => Ok (fail e)
  | inr p => d1 ← getData input 64 32; Ok (bnG1_Marshal (bnG1_ScalarMult p (be_value d1)), None)
  end.

Definition decode_bn_pair (input : list byte) : vm_error + (bnG1 * bnG2) :=
  c ← bnG1_Unmarshal (sub_bytes input 0 64);
  t ← bnG2_Unmarshal (sub_bytes input 64 192);
  inr (c, t).

Definition runBn256Pairing (input : list byte) : outcome_bytes :=
  if 0 <? len input mod 192 then fail errBadPairingInput
  else of_sum (ps ← mapM decode_bn_pair (split_every (length input / 192) 192 input);
               inr (bool32 (bn_PairingCheck ps.*1 ps.*2))).

Definition blake2F_Run (input : list byte) : outcome_bytes :=
  if negb (len input =? blake2FInputLength) then fail errInvalidInputLength
  else
    let flag := input !!! 212%nat in
    if negb (flag =? 0) && negb (flag =? 1) then fail errBlake2FInvalidFinalFlag
    else
      let rounds := be_value (take 4 input) in
      let h := map le_Uint64 (split_every 8 8 (drop 4 input)) in
      let m := map le_Uint64 (split_every 16 8 (drop 68 input)) in
      let t := map le_Uint64 (split_every 2 8 (drop 196 input)) in
      (Blake2b.F h m t (flag =? 1) rounds ≫= le_PutUint64, None).

Definition bls12381G1Add_Run (input : list byte) : outcome_bytes :=
  if negb (len input =? 256) then fail errInvalidInputLength
  else of_sum (p0 ← g1_DecodePoint (take 128 input); p1 ← g1_DecodePoint (drop 128 input);
               inr (g1_EncodePoint (g1_Add p0 p1))).

Definition bls12381G1Mul_Run (input : list byte) : outcome_bytes :=
  if negb (len input =? 160) then fail errInvalidInputLength
  else of_sum (p0 ← g1_DecodePoint (take 128 input);
               inr (g1_EncodePoint (g1_MulScalar p0 (be_value (drop 128 input))))).

Definition bls12381G1MultiExp_Run (input : list byte) : outcome_bytes :=
  if (len input =? 0) || negb (len input mod 160 =? 0) then fail errInvalidInputLength
  else let parts := split_every (length input / 160) 160 input in
       of_sum (points ← mapM (λ p, g1_DecodePoint (take 128 p)) parts;
               inr (g1_EncodePoint (g1_MultiExp points (map (λ p, be_value (drop 128 p)) parts)))).

Definition bls12381G2Add_Run (input : list byte) : outcome_bytes :=
  if negb (len input =? 512) then fail errInvalidInputLength
  else of_sum (p0 ← g2_DecodePoint (take 256 input); p1 ← g2_DecodePoint (drop 256 input);
               inr (g2_EncodePoint (g2_Add p0 p1))).

Definition bls12381G2Mul_Run (input : list byte) : outcome_bytes :=
  if negb (len input =? 288) then fail errInvalidInputLength
  else of_sum (p0 ← g2_DecodePoint (take 256 input);
               inr (g2_EncodePoint (g2_MulScalar p0 (be_value (drop 256 input))))).

Definition bls12381G2MultiExp_Run (input : list byte) : outcome_bytes :=
  if (len input =? 0) || negb (len input mod 288 =? 0) then fail errInvalidInputLength
  else let parts := split_every (length input / 288) 288 input in
       of_sum (points ← mapM (λ p, g2_DecodePoint (take 256 p)) parts;
               inr (g2_EncodePoint (g2_MultiExp points (map (λ p, be_value (drop 256 p)) parts)))).

Definition decode_bls_pair (input : list byte) : vm_error + (PointG1 * PointG2) :=
  p1 ← g1_DecodePoint (sub_bytes input 0 128);
  p2 ← g2_DecodePoint (sub_bytes input 128 384);
  if negb (g1_InCorrectSubgroup p1) then inl errBLS12381G1PointSubgroup
  else if negb (g2_InCorrectSubgroup p2) then inl errBLS12381G2PointSubgroup
  else inr (p1, p2).

Definition bls12381Pairing_Run (input : list byte) : outcome_bytes :=
  if (len input =? 0) || negb (len input mod 384 =? 0) then fail errInvalidInputLength
  else of_sum (ps ← mapM decode_bls_pair (split_every (length input / 384) 384 input);
               inr (bool32 (bls_PairingCheck ps))).

Definition decodeBLS12381FieldElement (i : list byte) : vm_error + list byte :=
  if negb (len i =? 64) then inl (errors_New "invalid field element length")
  else if negb (allZero (take 16 i)) then inl errBLS12381InvalidFieldElementTopBytes
  else inr (drop 16 i).

Definition bls12381MapG1_Run (input : list byte) : outcome_bytes :=
  if negb (len input =? 64) then fail errInvalidInputLength
  else of_sum (fe ← decodeBLS12381FieldElement input; r ← g1_MapToCurve fe; inr (g1_EncodePoint r)).

Definition bls12381MapG2_Run (input : list byte) : outcome_bytes :=
  if negb (len input =? 128) then fail errInvalidInputLength
  else of_sum (c0 ← decodeBLS12381FieldElement (take 64 input);
               c1 ← decodeBLS12381FieldElement (drop 64 input);
               r ← g2_MapToCurve (c1 ++ c0); inr (g2_EncodePoint r)).

Definition precompiled_Run (p : PrecompiledContract) (input : list byte) : res outcome_bytes :=
  match p with
  | ecrecover => Ok (ecrecover_Run input, None)
  | sha256hash => Ok (Sha256.Sum256 input, None)
  | ripemd160hash => Ok (LeftPadBytes (ripemd160 input) 32, None)
  | dataCopy => Ok (input, None)
  | bigModExp _ => v ← bigModExp_Run input; Ok (v, None)
  | bn256AddIstanbul => runBn256Add input
  | bn256ScalarMulIstanbul => runBn256ScalarMul input
  | bn256PairingIstanbul => Ok (runBn256Pairing input)
  | blake2F => Ok (blake2F_Run input)
  | bls12381G1Add => Ok (bls12381G1Add_Run input)
  | bls12381G1Mul => Ok (bls12381G1Mul_Run input)
  | bls12381G1MultiExp => Ok (bls12381G1MultiExp_Run input)
  | bls12381G2Add => Ok (bls12381G2Add_Run input)
  | bls12381G2Mul => Ok (bls12381G2Mul_Run input)
  | bls12381G2MultiExp => Ok (bls12381G2MultiExp_Run input)
  | bls12381Pairing => Ok (bls12381Pairing_Run input)
  | bls12381MapG1 => Ok (bls12381MapG1_Run input)
  | bls12381MapG2 => Ok (bls12381MapG2_Run input)
  end.

Definition RunPrecompiledContract (p : PrecompiledContract) (input : list byte) (suppliedGas : Z)
  : res (list byte * Z * option vm_error) :=
  gasCost ← RequiredGas p input;
  if suppliedGas <? gasCost then Ok ([], 0, Some ErrOutOfGas)
  else let suppliedGas := (suppliedGas - gasCost)%u64 in
       '(output, err) ← precompiled_Run p input;
       Ok (output, suppliedGas, err).

End run.
