(* ===== verification/EvmState.v ===== *)
(** * The state of the virtual machine (core/evm: evm.go, contract.go, interpreter.go)

    What one thread of execution reads and writes, in the state monad of [Prelude].
    [Interp] holds the parts of [EVM] and [EVMInterpreter] that change, with the objects
    shared by reference between call frames: the state database, the table [jumpdests]
    that contracts of one call tree share, and the access list pointed to by
    [TrueAccessList].  [Machine] adds what is local to one call frame. *)

From S2P Require Import Prelude Bytes Params RlpEncode RlpRaw Common AccessList.
From S2P Require Import StateDB EvmWord EvmBase Precompiles.

(** ** Contexts *)

(** [BlockContext]; [CanTransfer] and [Transfer] are always the functions below. *)
Record BlockContext := mkBlockContext {
  GetHash : Z → Hash;
  Coinbase : Address;
  bc_GasLimit : Z;
  BlockNumber : Z;
  Time : Z;
  BaseFee : option Z;
  Random : option Hash;
}.

Record TxContext := mkTxContext {
  Origin : Address;
  GasPrice : Z;
  BlobHashes : list Hash;
}.

(** The fields of [EVM] that do not change during a transaction. *)
Record EVM := mkEVM {
  Context : BlockContext;
  TxCtx : TxContext;
  ChainID : Z;
  EnablePreimageRecording : bool;
  ExtraEips : list Z;
}.

(** ** Contracts (contract.go) *)

(** A [ContractRef] is an account or the contract that makes the call; of the latter
    [NewContract] and [AsDelegate] read these fields. *)
Inductive ContractRef :=
| AccountRef (a : Address)
| ContractPtr (self : Address) (callerAddress : Address) (value : option Z).

Definition ref_Address (r : ContractRef) : Address :=
  match r with AccountRef a => a | ContractPtr a _ _ => a end.

Record Contract := mkContract {
  CallerAddress : Address;
  caller : ContractRef;
  self : Address;
  analysis : option bitvec;
  Code : list byte;
  CodeHash : Hash;
  CodeAddr : option Address;
  Input : list byte;
  Gas : Z;
  value : option Z;
}.

Definition con_ref (c : Contract) : ContractRef := ContractPtr (self c) (CallerAddress c) (value c).

Definition set_analysis (c : Contract) (a : bitvec) : Contract :=
  mkContract (CallerAddress c) (caller c) (self c) (Some a) (Code c) (CodeHash c) (CodeAddr c)
    (Input c) (Gas c) (value c).
Definition set_Gas (c : Contract) (g : Z) : Contract :=
  mkContract (CallerAddress c) (caller c) (self c) (analysis c) (Code c) (CodeHash c) (CodeAddr c)
    (Input c) g (value c).
Definition set_Input (c : Contract) (i : list byte) : Contract :=
  mkContract (CallerAddress c) (caller c) (self c) (analysis c) (Code c) (CodeHash c) (CodeAddr c)
    i (Gas c) (value c).

Definition SetCallCode (c : Contract) (addr : Address) (hash : Hash) (code : list byte) : Contract :=
  mkContract (CallerAddress c) (caller c) (self c) (analysis c) code hash (Some addr)
    (Input c) (Gas c) (value c).

(** [codeAndHash]: the hash is zero until [Hash] is called. *)
Record codeAndHash := mkCodeAndHash { cah_code : list byte; cah_hash : Hash }.

Definition SetCodeOptionalHash (c : Contract) (addr : Address) (ch : codeAndHash) : Contract :=
  SetCallCode c addr (cah_hash ch) (cah_code ch).

(** [AsDelegate] panics when the caller is not a contract. *)
Definition AsDelegate (c : Contract) : res Contract :=
  match caller c with
  | ContractPtr _ callerAddress v =>
      Ok (mkContract callerAddress (caller c) (self c) (analysis c) (Code c) (CodeHash c)
            (CodeAddr c) (Input c) (Gas c) v)
  | AccountRef _ => Panic "interface conversion: evm.ContractRef is evm.AccountRef, not *evm.Contract"
  end.

(** Past its end the code reads as [STOP]. *)
Definition GetOp (c : Contract) (n : Z) : byte :=
  if n <? len (Code c) then Code c !!! Z.to_nat n else 0.

Definition UseGas (c : Contract) (gas : Z) : bool * Contract :=
  if Gas c <? gas then (false, c) else (true, set_Gas c (Gas c - gas)%u64).

Section state.
Context {Cr : Crypto} {DB : Database}.

(** ** Interpreter and call frame *)

Record Interp := mkInterp {
  evm_StateDB : StateDB;
  callGasTemp : Z;
  depth : Z;
  readOnly : bool;
  returnData : list byte;
  jumpdests : gmap Hash bitvec;
  TrueAccessList : option AccessList;
  abort : bool;
}.

Definition set_StateDB (i : Interp) s : Interp :=
  mkInterp s (callGasTemp i) (depth i) (readOnly i) (returnData i) (jumpdests i) (TrueAccessList i) (abort i).
Definition set_callGasTemp (i : Interp) g : Interp :=
  mkInterp (evm_StateDB i) g (depth i) (readOnly i) (returnData i) (jumpdests i) (TrueAccessList i) (abort i).
Definition set_depth (i : Interp) d : Interp :=
  mkInterp (evm_StateDB i) (callGasTemp i) d (readOnly i) (returnData i) (jumpdests i) (TrueAccessList i) (abort i).
Definition set_readOnly (i : Interp) b : Interp :=
  mkInterp (evm_StateDB i) (callGasTemp i) (depth i) b (returnData i) (jumpdests i) (TrueAccessList i) (abort i).
Definition set_returnData (i : Interp) r : Interp :=
  mkInterp (evm_StateDB i) (callGasTemp i) (depth i) (readOnly i) r (jumpdests i) (TrueAccessList i) (abort i).
Definition set_jumpdests (i : Interp) j : Interp :=
  mkInterp (evm_StateDB i) (callGasTemp i) (depth i) (readOnly i) (returnData i) j (TrueAccessList i) (abort i).
Definition set_TrueAccessList (i : Interp) al : Interp :=
  mkInterp (evm_StateDB i) (callGasTemp i) (depth i) (readOnly i) (returnData i) (jumpdests i) al (abort i).

(** [NewEVM] and [NewEVMInterpreter]: the state at the start. *)
Definition new_interp (s : StateDB) : Interp := mkInterp s 0 0 false [] ∅ None false.

Record Machine := mkMachine {
  m_in : Interp;
  m_mem : Memory;
  m_stack : Stack;
  m_con : Contract;
  m_pc : Z;
}.

Definition set_in (m : Machine) i : Machine := mkMachine i (m_mem m) (m_stack m) (m_con m) (m_pc m).
Definition set_mem (m : Machine) x : Machine := mkMachine (m_in m) x (m_stack m) (m_con m) (m_pc m).
Definition set_stack (m : Machine) x : Machine := mkMachine (m_in m) (m_mem m) x (m_con m) (m_pc m).
Definition set_con (m : Machine) x : Machine := mkMachine (m_in m) (m_mem m) (m_stack m) x (m_pc m).
Definition set_pc (m : Machine) x : Machine := mkMachine (m_in m) (m_mem m) (m_stack m) (m_con m) x.

(** ** Operations of the monads *)

(** A reader of the state database (it may fill caches), a writer, and one that can panic. *)
Definition db_get {A} (f : StateDB → A * StateDB) : stm Interp A := λ i,
  let '(a, s) := f (evm_StateDB i) in Done (a, set_StateDB i s).
Definition db_do (f : StateDB → StateDB) : stm Interp () := λ i,
  Done ((), set_StateDB i (f (evm_StateDB i))).
Definition db_try (f : StateDB → res StateDB) : stm Interp () := λ i,
  match f (evm_StateDB i) with
  | Ok s => Done ((), set_StateDB i s)
  | Panic msg => Crash msg
  end.

(** A step of the interpreter inside a call frame. *)
Definition interp {A} (f : stm Interp A) : stm Machine A := λ m,
  match f (m_in m) with
  | Done (a, i) => Done (a, set_in m i)
  | Crash msg => Crash msg
  | OutOfFuel => OutOfFuel
  end.

Definition pop : stm Machine Z := λ m,
  match st_pop (m_stack m) with
  | Ok (x, st) => Done (x, set_stack m st)
  | Panic msg => Crash msg
  end.
Definition push (x : Z) : stm Machine () := modify (λ m, set_stack m (st_push x (m_stack m))).
Definition peek : stm Machine Z := λ m,
  match st_peek (m_stack m) with Ok x => Done (x, m) | Panic msg => Crash msg end.
Definition set_top (x : Z) : stm Machine () := modify (λ m, set_stack m (st_set_top x (m_stack m))).

(** An operation on the memory, and a read of it. *)
Definition mem_try (f : Memory → res Memory) : stm Machine () := λ m,
  match f (m_mem m) with Ok x => Done ((), set_mem m x) | Panic msg => Crash msg end.
Definition mem_read {A} (f : Memory → res A) : stm Machine A := λ m,
  match f (m_mem m) with Ok x => Done (x, m) | Panic msg => Crash msg end.

Definition on_con (f : Contract → Contract) : stm Machine () := modify (λ m, set_con m (f (m_con m))).

(** [NewContract]: a call from an account starts a new table of analysed code, a call
    from a contract shares that of the caller. *)
Definition NewContract (caller : ContractRef) (object : Address) (v : option Z) (gas : Z)
    : stm Interp Contract :=
  _ ← match caller with
      | AccountRef _ => modify (λ i, set_jumpdests i ∅)
      | ContractPtr _ _ _ => mret ()
      end;
  mret (mkContract (ref_Address caller) caller object None [] 0 None [] gas v).

(** ** Jump destinations *)

(** [isCode]: the analysis is looked up in the contract, then by code hash in the shared
    table, and computed and remembered otherwise. *)
Definition isCode (udest : Z) : stm Machine bool :=
  c ← gets m_con;
  match analysis c with
  | Some a => lift (codeSegment a udest)
  | None =>
      if negb (CodeHash c =? 0) then
        tbl ← gets (λ m, jumpdests (m_in m));
        a ← match tbl !! CodeHash c with
            | Some a => mret a
            | None => a ← lift (codeBitmap (Code c));
                      _ ← interp (modify (λ i, set_jumpdests i (<[CodeHash c := a]> (jumpdests i))));
                      mret a
            end;
        _ ← on_con (λ c, set_analysis c a);
        lift (codeSegment a udest)
      else
        a ← lift (codeBitmap (Code c));
        _ ← on_con (λ c, set_analysis c a);
        lift (codeSegment a udest)
  end.

Definition validJumpdest `{!Uint256} (dest : Z) : stm Machine bool :=
  c ← gets m_con;
  let '(udest, overflow) := Uint64WithOverflow dest in
  if overflow || (len (Code c) <=? udest) then mret false
  else op ← lift (go_index (Code c) udest);
       if negb (op =? 0x5b) then mret false else isCode udest.

(** ** Transfers (core/pvm.go) *)

Definition CanTransfer (addr : Address) (amount : Z) (s : StateDB) : bool * StateDB :=
  let '(b, s) := GetBalance s addr in (amount <=? b, s).

Definition Transfer (sender recipient : Address) (amount : Z) (s : StateDB) : StateDB :=
  AddBalance (SubBalance s sender amount) recipient amount.

End state.
