(* ===== verification/EvmCalls.v ===== *)
(** * Calls and contract creation (core/evm/evm.go)

    The four kinds of message call and the two of contract creation.  They run code
    through the interpreter, which in turn makes calls: the interpreter is the argument
    [run] here, and EvmRun.v ties the knot. *)

From S2P Require Import Prelude Bytes Params RlpEncode RlpRaw Common AccessList.
From S2P Require Import StateDB EvmWord EvmBase Precompiles EvmState.

(** [(ret []byte, GasRemain uint64, CanParallel bool, err error)] *)
Record call_result := mkCall {
  cr_ret : list byte;
  cr_gas : Z;
  cr_CanParallel : bool;
  cr_err : option vm_error;
}.

(** The results of [Run] and the contract it ran, whose gas the callers read. *)
Record run_result := mkRun {
  rr_ret : list byte;
  rr_err : option vm_error;
  rr_CanParallel : bool;
  rr_contract : Contract;
}.

Section calls.
Context {Cr : Crypto} {NC : NativeCrypto} {DB : Database} {U : Uint256}.

(** [interpreter.Run(contract, input, readOnly, TrueAccessList, IsParallel)] *)
Definition run_fun : Type := Contract → list byte → bool → bool → stm Interp run_result.

Variable run : run_fun.

Definition precompile (addr : Address) : option PrecompiledContract :=
  PrecompiledContractsHomestead addr.

(** The end of a call: an error rolls the state back. *)
Definition finish_call (snapshot : Z) (r : call_result) : stm Interp call_result :=
  match cr_err r with
  | Some _ => _ ← db_try (λ s, RevertToSnapshot s snapshot); mret r
  | None => mret r
  end.

Definition run_precompile (p : PrecompiledContract) (input : list byte) (gas : Z) (can : bool)
    : stm Interp call_result :=
  '(ret, gas, err) ← lift (RunPrecompiledContract p input gas);
  mret (mkCall ret gas can err).

(** The contract is given the code of [addr] and run. *)
Definition run_code (contract : Contract) (addr : Address) (input : list byte) (readOnly IsParallel : bool)
    : stm Interp call_result :=
  hash ← db_get (λ s, GetCodeHash s addr);
  code ← db_get (λ s, GetCode s addr);
  r ← run (SetCallCode contract addr hash (default [] code)) input readOnly IsParallel;
  mret (mkCall (rr_ret r) (Gas (rr_contract r)) (rr_CanParallel r) (rr_err r)).

Definition Call (caller : ContractRef) (addr : Address) (input : list byte) (gas : Z) (v : Z)
    (IsParallel : bool) : stm Interp call_result :=
  d ← gets depth;
  if CallCreateDepth <? d then mret (mkCall [] gas true (Some ErrDepth))
  else
    can ← (if v =? 0 then mret true else db_get (CanTransfer (ref_Address caller) v));
    if negb can then mret (mkCall [] gas true (Some ErrInsufficientBalance))
    else
      snapshot ← db_get Snapshot;
      let p := precompile addr in
      exists_ ← db_get (λ s, Exist s addr);
      if negb exists_ && bool_decide (p = None) && (v =? 0)
      then mret (mkCall [] gas true (Some (errors_New "contract address is not exist")))
      else
        _ ← (if exists_ : bool then mret () else db_do (λ s, CreateAccount s addr));
        _ ← db_do (Transfer (ref_Address caller) addr v);
        match p with
        | Some p => r ← run_precompile p input gas false; finish_call snapshot r
        | None =>
            code ← db_get (λ s, GetCode s addr);
            if len (default [] code) =? 0 then mret (mkCall [] gas true None)
            else
              contract ← NewContract caller addr (Some v) gas;
              hash ← db_get (λ s, GetCodeHash s addr);
              r ← run (SetCallCode contract addr hash (default [] code)) input false IsParallel;
              finish_call snapshot
                (mkCall (rr_ret r) (Gas (rr_contract r)) (rr_CanParallel r) (rr_err r))
        end.

Definition CallCode (caller : ContractRef) (addr : Address) (input : list byte) (gas : Z) (v : Z)
    (IsParallel : bool) : stm Interp call_result :=
  d ← gets depth;
  if CallCreateDepth <? d then mret (mkCall [] gas true (Some ErrDepth))
  else
    can ← db_get (CanTransfer (ref_Address caller) v);
    if negb can then mret (mkCall [] gas true (Some ErrInsufficientBalance))
    else
      snapshot ← db_get Snapshot;
      r ← match precompile addr with
          | Some p => run_precompile p input gas true
          | None => contract ← NewContract caller (ref_Address caller) (Some v) gas;
                    run_code contract addr input false IsParallel
          end;
      finish_call snapshot r.

Definition DelegateCall (caller : ContractRef) (addr : Address) (input : list byte) (gas : Z)
    (IsParallel : bool) : stm Interp call_result :=
  d ← gets depth;
  if CallCreateDepth <? d then mret (mkCall [] gas true (Some ErrDepth))
  else
    snapshot ← db_get Snapshot;
    r ← match precompile addr with
        | Some p => run_precompile p input gas true
        | None => contract ← NewContract caller (ref_Address caller) None gas;
                  contract ← lift (AsDelegate contract);
                  run_code contract addr input false IsParallel
        end;
    finish_call snapshot r.

Definition StaticCall (caller : ContractRef) (addr : Address) (input : list byte) (gas : Z)
    (IsParallel : bool) : stm Interp call_result :=
  d ← gets depth;
  if CallCreateDepth <? d then mret (mkCall [] gas true (Some ErrDepth))
  else
    snapshot ← db_get Snapshot;
    _ ← db_do (λ s, AddBalance s addr 0);
    r ← match precompile addr with
        | Some p => run_precompile p input gas true
        | None => contract ← NewContract caller addr (Some 0) gas;
                  run_code contract addr input true IsParallel
        end;
    finish_call snapshot r.

(** A created contract's code; Go's nil slice is the absent code. *)
Definition code_of_ret (ret : list byte) : option (list byte) :=
  match ret with [] => None | _ => Some ret end.

(** After the run: the size limit and the price of storing the code are errors that
    return at once, without rolling the state back. *)
Definition finish_create (snapshot : Z) (address : Address) (r : run_result)
    : stm Interp (call_result * Address) :=
  match rr_err r with
  | None =>
      if MaxCodeSize <? len (rr_ret r)
      then mret (mkCall [] 0 true (Some (errors_New "max code size exceeded")), address)
      else
        let createDataGas := (len (rr_ret r) * CreateDataGas)%u64 in
        let '(ok, contract) := UseGas (rr_contract r) createDataGas in
        if ok : bool then
          _ ← db_do (λ s, SetCode s address (code_of_ret (rr_ret r)));
          mret (mkCall (rr_ret r) (Gas contract) (rr_CanParallel r) None, address)
        else mret (mkCall [] 0 true (Some (errors_New "contract creation code storage out of gas")), address)
  | Some e =>
      _ ← db_try (λ s, RevertToSnapshot s snapshot);
      mret (mkCall (rr_ret r) (Gas (rr_contract r)) (rr_CanParallel r) (Some e), address)
  end.

Definition create (caller : ContractRef) (ch : codeAndHash) (gas v : Z) (address : Address)
    (IsParallel : bool) : stm Interp (call_result * Address) :=
  d ← gets depth;
  if CallCreateDepth <? d
  then mret (mkCall [] gas true (Some (errors_New "max call depth exceeded")), address)
  else
    can ← db_get (CanTransfer (ref_Address caller) v);
    if negb can
    then mret (mkCall [] gas true (Some (errors_New "insufficient balance for transfer")), address)
    else
      nonce ← db_get (λ s, GetNonce s (ref_Address caller));
      if (nonce + 1)%u64 <? nonce
      then mret (mkCall [] gas true (Some (errors_New "nonce uint64 overflow")), address)
      else
        _ ← db_do (λ s, SetNonce s (ref_Address caller) (nonce + 1)%u64);
        contractHash ← db_get (λ s, GetCodeHash s address);
        n ← db_get (λ s, GetNonce s address);
        if negb (n =? 0) || (negb (contractHash =? 0) && negb (contractHash =? EmptyCodeHash))
        then mret (mkCall [] gas true (Some (errors_New "contract address collision")), address)
        else
          snapshot ← db_get Snapshot;
          _ ← db_do (λ s, CreateAccount s address);
          _ ← db_do (Transfer (ref_Address caller) address v);
          contract ← NewContract caller address (Some v) gas;
          r ← run (SetCodeOptionalHash contract address ch) [] false IsParallel;
          finish_create snapshot address r.

Definition Create (caller : ContractRef) (code : list byte) (gas v : Z) (IsParallel : bool)
    : stm Interp (call_result * Address) :=
  nonce ← db_get (λ s, GetNonce s (ref_Address caller));
  create caller (mkCodeAndHash code 0) gas v (CreateAddress (ref_Address caller) nonce) IsParallel.

Definition Create2 (caller : ContractRef) (code : list byte) (gas endowment salt : Z) (IsParallel : bool)
    : stm Interp (call_result * Address) :=
  let hash := Keccak256Hash code in
  create caller (mkCodeAndHash code hash) gas endowment
    (CreateAddress2 (ref_Address caller) (be_bytes 32 salt) (Hash_Bytes hash)) IsParallel.

End calls.
