(* ===== verification/EvmGas.v ===== *)
(** * Gas (core/evm: memory_table.go, gas_table.go, operations_acl.go)

    The memory an instruction needs and the gas it costs beyond its constant part.  A gas
    function may change the last memory fee, the refund counter, the gas set aside for a
    call and the access list. *)

From S2P Require Import Prelude Bytes Params RlpEncode RlpRaw Common AccessList.
From S2P Require Import StateDB EvmWord EvmBase EvmState.

Section gas.
Context {Cr : Crypto} {DB : Database} {U : Uint256}.

(** ** Memory sizes: the size and whether it overflowed *)

Definition memSizeFunc : Type := Stack → res (Z * bool).

Definition size_at (off l : Z) : memSizeFunc := λ st,
  o ← st_Back st off; n ← st_Back st l; Ok (calcMemSize64 o n).
Definition size_fixed (off n : Z) : memSizeFunc := λ st,
  o ← st_Back st off; Ok (calcMemSize64WithUint o n).

Definition memoryKeccak256 := size_at 0 1.
Definition memoryCallDataCopy := size_at 0 2.
Definition memoryReturnDataCopy := size_at 0 2.
Definition memoryCodeCopy := size_at 0 2.
Definition memoryExtCodeCopy := size_at 1 3.
Definition memoryMLoad := size_fixed 0 32.
Definition memoryMStore8 := size_fixed 0 1.
Definition memoryMStore := size_fixed 0 32.
Definition memoryCreate := size_at 1 2.
Definition memoryCreate2 := size_at 1 2.
Definition memoryReturn := size_at 0 1.
Definition memoryRevert := size_at 0 1.
Definition memoryLog := size_at 0 1.

Definition memoryMcopy : memSizeFunc := λ st,
  dst ← st_Back st 0; src ← st_Back st 1; l ← st_Back st 2;
  Ok (calcMemSize64 (if word_Gt src dst then src else dst) l).

(** The larger of the output and the input region. *)
Definition size_two (off1 l1 off2 l2 : Z) : memSizeFunc := λ st,
  '(x, overflow) ← size_at off1 l1 st;
  if overflow : bool then Ok (0, true)
  else '(y, overflow) ← size_at off2 l2 st;
       if overflow : bool then Ok (0, true) else Ok (if y <? x then x else y, false).

Definition memoryCall := size_two 5 6 3 4.
Definition memoryDelegateCall := size_two 4 5 2 3.
Definition memoryStaticCall := size_two 4 5 2 3.

(** ** Gas functions *)

(** [(uint64, error)], given the memory size in bytes. *)
Definition gasFunc : Type := Z → stm Machine (Z * option vm_error).

Definition gas_err (e : vm_error) : stm Machine (Z * option vm_error) := mret (0, Some e).
Definition gas_ok (g : Z) : stm Machine (Z * option vm_error) := mret (g, None).

(** Run [k] on the gas of [m] unless it failed. *)
Definition then_gas (m : stm Machine (Z * option vm_error)) (k : Z → stm Machine (Z * option vm_error))
    : stm Machine (Z * option vm_error) :=
  '(g, err) ← m; match err with Some e => gas_err e | None => k g end.

(** [if gas, overflow = math.SafeAdd(gas, x); overflow { return 0, ErrGasUintOverflow }] *)
Definition add_gas (g x : Z) (k : Z → stm Machine (Z * option vm_error)) : stm Machine (Z * option vm_error) :=
  let '(sum, overflow) := SafeAdd g x in
  if overflow : bool then gas_err ErrGasUintOverflow else k sum.

Definition back (n : Z) : stm Machine Z := λ m,
  match st_Back (m_stack m) n with Ok x => Done (x, m) | Panic msg => Crash msg end.

Definition self_addr : stm Machine Address := gets (λ m, self (m_con m)).

Definition memoryGasCost (newMemSize : Z) : stm Machine (Z * option vm_error) :=
  if newMemSize =? 0 then gas_ok 0
  else if 0x1FFFFFFFE0 <? newMemSize then gas_err ErrGasUintOverflow
  else
    let newMemSizeWords := toWordSize newMemSize in
    let newMemSize := (newMemSizeWords * 32)%u64 in
    mem ← gets m_mem;
    if mem_Len mem <? newMemSize then
      let square := (newMemSizeWords * newMemSizeWords)%u64 in
      let linCoef := (newMemSizeWords * MemoryGas)%u64 in
      let quadCoef := square / QuadCoeffDiv in
      let newTotalFee := (linCoef + quadCoef)%u64 in
      let fee := (newTotalFee - lastGasCost mem)%u64 in
      _ ← modify (λ m, set_mem m (mkMemory (store mem) newTotalFee));
      gas_ok fee
    else gas_ok 0.

(** A word count times a price, added to the gas for memory. *)
Definition per_word (pos price : Z) (gas : Z) : stm Machine (Z * option vm_error) :=
  size ← back pos;
  let '(words, overflow) := Uint64WithOverflow size in
  if overflow : bool then gas_err ErrGasUintOverflow
  else let '(words, overflow) := SafeMul (toWordSize words) price in
       if overflow : bool then gas_err ErrGasUintOverflow else add_gas gas words gas_ok.

Definition memoryCopierGas (stackpos : Z) : gasFunc := λ memorySize,
  then_gas (memoryGasCost memorySize) (per_word stackpos CopyGas).

Definition gasCallDataCopy := memoryCopierGas 2.
Definition gasCodeCopy := memoryCopierGas 2.
Definition gasMcopy := memoryCopierGas 2.
Definition gasExtCodeCopy := memoryCopierGas 3.
Definition gasReturnDataCopy := memoryCopierGas 2.

(** The refunds of a store to a dirty slot, shared by the three ways of metering it. *)
Definition sstore_dirty_refunds (original current value clear resetClear reset : Z) : stm Interp () :=
  _ ← (if negb (original =? 0) then
         if current =? 0 then db_try (λ s, SubRefund s clear)
         else if value =? 0 then db_do (λ s, AddRefund s clear) else mret ()
       else mret ());
  if original =? value then
    if original =? 0 then db_do (λ s, AddRefund s resetClear) else db_do (λ s, AddRefund s reset)
  else mret ().

Definition gasSStore : gasFunc := λ memorySize,
  y ← back 1; x ← back 0; addr ← self_addr;
  current ← interp (db_get (λ s, GetState s addr x));
  if current =? y then gas_ok NetSstoreNoopGas
  else
    original ← interp (db_get (λ s, GetCommittedState s addr x));
    if original =? current then
      if original =? 0 then gas_ok NetSstoreInitGas
      else _ ← (if y =? 0 then interp (db_do (λ s, AddRefund s NetSstoreClearRefund)) else mret ());
           gas_ok NetSstoreCleanGas
    else
      _ ← interp (sstore_dirty_refunds original current y NetSstoreClearRefund
                    NetSstoreResetClearRefund NetSstoreResetRefund);
      gas_ok NetSstoreDirtyGas.

Definition gasSStoreEIP2200 : gasFunc := λ memorySize,
  c ← gets m_con;
  if Gas c <=? SstoreSentryGasEIP2200 then gas_err (errors_New "not enough gas for reentrancy sentry")
  else
    y ← back 1; x ← back 0;
    current ← interp (db_get (λ s, GetState s (self c) x));
    if current =? y then gas_ok SloadGasEIP2200
    else
      original ← interp (db_get (λ s, GetCommittedState s (self c) x));
      if original =? current then
        if original =? 0 then gas_ok SstoreSetGasEIP2200
        else _ ← (if y =? 0 then interp (db_do (λ s, AddRefund s SstoreClearsScheduleRefundEIP2200))
                  else mret ());
             gas_ok SstoreResetGasEIP2200
      else
        _ ← interp (sstore_dirty_refunds original current y SstoreClearsScheduleRefundEIP2200
                      (SstoreSetGasEIP2200 - SloadGasEIP2200) (SstoreResetGasEIP2200 - SloadGasEIP2200));
        gas_ok SloadGasEIP2200.

Definition makeGasLog (n : Z) : gasFunc := λ memorySize,
  size ← back 1;
  let '(requestedSize, overflow) := Uint64WithOverflow size in
  if overflow : bool then gas_err ErrGasUintOverflow
  else then_gas (memoryGasCost memorySize) (λ gas,
    add_gas gas LogGas (λ gas,
    add_gas gas (n * LogTopicGas)%u64 (λ gas,
    let '(memorySizeGas, overflow) := SafeMul requestedSize LogDataGas in
    if overflow : bool then gas_err ErrGasUintOverflow else add_gas gas memorySizeGas gas_ok))).

Definition gasKeccak256 : gasFunc := λ memorySize,
  then_gas (memoryGasCost memorySize) (per_word 1 Keccak256WordGas).

Definition pureMemoryGascost : gasFunc := λ memorySize, memoryGasCost memorySize.

Definition gasCreate2 : gasFunc := λ memorySize,
  then_gas (memoryGasCost memorySize) (per_word 2 Keccak256WordGas).

(** EIP-3860: the price of init code per word. *)
Definition initcode_gas (price : Z) : gasFunc := λ memorySize,
  then_gas (memoryGasCost memorySize) (λ gas,
    sz ← back 2;
    let '(size, overflow) := Uint64WithOverflow sz in
    if overflow || (MaxInitCodeSize <? size) then gas_err ErrGasUintOverflow
    else add_gas gas (price * ((size + 31) / 32))%u64 gas_ok).

Definition gasCreateEip3860 := initcode_gas InitCodeWordGas.
Definition gasCreate2Eip3860 := initcode_gas (InitCodeWordGas + Keccak256WordGas).

Definition exp_gas (perByte : Z) : gasFunc := λ memorySize,
  e ← back 1;
  let expByteLen := (word_BitLen e + 7) / 8 in
  add_gas (expByteLen * perByte)%u64 ExpGas gas_ok.

Definition gasExpFrontier := exp_gas ExpByteFrontier.
Definition gasExpEIP158 := exp_gas ExpByteEIP158.

(** The gas to pass on, kept in [callGasTemp] and added to the cost. *)
Definition with_call_gas (gas : Z) : stm Machine (Z * option vm_error) :=
  available ← gets (λ m, Gas (m_con m));
  requested ← back 0;
  let '(temp, err) := callGas available gas requested in
  _ ← interp (modify (λ i, set_callGasTemp i temp));
  match err with
  | Some e => gas_err e
  | None => add_gas gas temp gas_ok
  end.

Definition gasCall : gasFunc := λ memorySize,
  v ← back 2; a ← back 1;
  let transfersValue := negb (word_IsZero v) in
  let address := word_Bytes20 a in
  empty ← (if transfersValue then interp (db_get (λ s, Empty s address)) else mret false);
  new ← (if empty : bool then mret true
         else e ← interp (db_get (λ s, Exist s address)); mret (negb e));
  let gas := (if new : bool then CallNewAccountGas else 0) + (if transfersValue then CallValueTransferGas else 0) in
  then_gas (memoryGasCost memorySize) (λ memoryGas, add_gas gas memoryGas with_call_gas).

Definition gasCallCode : gasFunc := λ memorySize,
  then_gas (memoryGasCost memorySize) (λ memoryGas,
    v ← back 2;
    add_gas (if negb (word_IsZero v) then CallValueTransferGas else 0) memoryGas with_call_gas).

Definition gasDelegateCall : gasFunc := λ memorySize, then_gas (memoryGasCost memorySize) with_call_gas.
Definition gasStaticCall : gasFunc := λ memorySize, then_gas (memoryGasCost memorySize) with_call_gas.

Definition gasSelfdestruct : gasFunc := λ memorySize,
  a ← back 0; me ← self_addr;
  let address := word_Bytes20 a in
  empty ← interp (db_get (λ s, Empty s address));
  funded ← (if empty : bool then b ← interp (db_get (λ s, GetBalance s me)); mret (negb (b =? 0)) else mret false);
  new ← (if funded : bool then mret true else e ← interp (db_get (λ s, Exist s address)); mret (negb e));
  let gas := SelfdestructGasEIP150 + (if new : bool then CreateBySelfdestructGas else 0) in
  gone ← interp (db_get (λ s, HasSelfDestructed s me));
  _ ← (if gone : bool then mret () else interp (db_do (λ s, AddRefund s SelfdestructRefundGas)));
  gas_ok gas.

(** ** Access lists (operations_acl.go) *)

Definition slot_in_list (addr : Address) (slot : Hash) : stm Machine (bool * bool) := λ m,
  match SlotInAccessList (evm_StateDB (m_in m)) addr slot with
  | Ok r => Done (r, m)
  | Panic msg => Crash msg
  end.

Definition addr_in_list (addr : Address) : stm Machine bool :=
  gets (λ m, AddressInAccessList (evm_StateDB (m_in m)) addr).

Definition makeGasSStoreFunc (clearingRefund : Z) : gasFunc := λ memorySize,
  c ← gets m_con;
  if Gas c <=? SstoreSentryGasEIP2200 then gas_err (errors_New "not enough gas for reentrancy sentry")
  else
    y ← back 1; x ← peek;
    current ← interp (db_get (λ s, GetState s (self c) x));
    '(addrPresent, slotPresent) ← slot_in_list (self c) x;
    cost ← (if slotPresent : bool then mret 0
            else _ ← interp (db_try (λ s, AddSlotToAccessList s (self c) x));
                 if addrPresent : bool then mret ColdSloadCostEIP2929
                 else lift (Panic "impossible case: address was not present in access list during sstore op"));
    if current =? y then gas_ok (cost + WarmStorageReadCostEIP2929)%u64
    else
      original ← interp (db_get (λ s, GetCommittedState s (self c) x));
      if original =? current then
        if original =? 0 then gas_ok (cost + SstoreSetGasEIP2200)%u64
        else _ ← (if y =? 0 then interp (db_do (λ s, AddRefund s clearingRefund)) else mret ());
             gas_ok (cost + (SstoreResetGasEIP2200 - ColdSloadCostEIP2929))%u64
      else
        _ ← interp (sstore_dirty_refunds original current y clearingRefund
                      (SstoreSetGasEIP2200 - WarmStorageReadCostEIP2929)
                      (SstoreResetGasEIP2200 - ColdSloadCostEIP2929 - WarmStorageReadCostEIP2929));
        gas_ok (cost + WarmStorageReadCostEIP2929)%u64.

Definition gasSLoadEIP2929 : gasFunc := λ memorySize,
  loc ← peek; me ← self_addr;
  '(_, slotPresent) ← slot_in_list me loc;
  if slotPresent : bool then gas_ok WarmStorageReadCostEIP2929
  else _ ← interp (db_try (λ s, AddSlotToAccessList s me loc)); gas_ok ColdSloadCostEIP2929.

Definition gasExtCodeCopyEIP2929 : gasFunc := λ memorySize,
  then_gas (gasExtCodeCopy memorySize) (λ gas,
    a ← peek;
    warm ← addr_in_list (word_Bytes20 a);
    if warm : bool then gas_ok gas
    else _ ← interp (db_do (λ s, AddAddressToAccessList s (word_Bytes20 a)));
         add_gas gas (ColdAccountAccessCostEIP2929 - WarmStorageReadCostEIP2929) gas_ok).

Definition gasEip2929AccountCheck : gasFunc := λ memorySize,
  a ← peek;
  warm ← addr_in_list (word_Bytes20 a);
  if warm : bool then gas_ok 0
  else _ ← interp (db_do (λ s, AddAddressToAccessList s (word_Bytes20 a)));
       gas_ok (ColdAccountAccessCostEIP2929 - WarmStorageReadCostEIP2929).

Definition makeCallVariantGasCallEIP2929 (oldCalculator : gasFunc) : gasFunc := λ memorySize,
  a ← back 1;
  let addr := word_Bytes20 a in
  warmAccess ← addr_in_list addr;
  let coldCost := ColdAccountAccessCostEIP2929 - WarmStorageReadCostEIP2929 in
  paid ← (if warmAccess : bool then mret true
          else _ ← interp (db_do (λ s, AddAddressToAccessList s addr));
               c ← gets m_con;
               let '(ok, c) := UseGas c coldCost in
               _ ← on_con (λ _, c); mret ok);
  if negb paid then gas_err ErrOutOfGas
  else
    '(gas, err) ← oldCalculator memorySize;
    if warmAccess || bool_decide (is_Some err) then mret (gas, err)
    else _ ← on_con (λ c, set_Gas c (Gas c + coldCost)%u64);
         gas_ok (gas + coldCost)%u64.

Definition gasCallEIP2929 := makeCallVariantGasCallEIP2929 gasCall.
Definition gasDelegateCallEIP2929 := makeCallVariantGasCallEIP2929 gasDelegateCall.
Definition gasStaticCallEIP2929 := makeCallVariantGasCallEIP2929 gasStaticCall.
Definition gasCallCodeEIP2929 := makeCallVariantGasCallEIP2929 gasCallCode.

Definition gasSStoreEIP2929 := makeGasSStoreFunc SstoreClearsScheduleRefundEIP2200.
Definition gasSStoreEIP3529 := makeGasSStoreFunc SstoreClearsScheduleRefundEIP3529.

Definition makeSelfdestructGasFn (refundsEnabled : bool) : gasFunc := λ memorySize,
  a ← peek; me ← self_addr;
  let address := word_Bytes20 a in
  warm ← addr_in_list address;
  cold ← (if warm : bool then mret 0
          else _ ← interp (db_do (λ s, AddAddressToAccessList s address)); mret ColdAccountAccessCostEIP2929);
  empty ← interp (db_get (λ s, Empty s address));
  funded ← (if empty : bool then b ← interp (db_get (λ s, GetBalance s me)); mret (negb (b =? 0)) else mret false);
  let gas := cold + (if funded : bool then CreateBySelfdestructGas else 0) in
  gone ← (if refundsEnabled then interp (db_get (λ s, HasSelfDestructed s me)) else mret true);
  _ ← (if gone : bool then mret () else interp (db_do (λ s, AddRefund s SelfdestructRefundGas)));
  gas_ok gas.

Definition gasSelfdestructEIP2929 := makeSelfdestructGasFn true.
Definition gasSelfdestructEIP3529 := makeSelfdestructGasFn false.

End gas.
