(* ===== verification/EvmOps.v ===== *)
(** * Instructions (core/evm: instructions.go, eips.go)

    One definition per instruction.  An instruction returns the bytes and the error of
    the Go function; those that make calls also return whether the transaction can still
    run in parallel. *)

From S2P Require Import Prelude Bytes Params RlpEncode RlpRaw Common AccessList.
From S2P Require Import StateDB EvmWord EvmBase Precompiles EvmState EvmCalls EvmGas.

Section ops.
Context {Cr : Crypto} {NC : NativeCrypto} {DB : Database} {U : Uint256}.
Variable evm : EVM.

Definition executionFunc : Type := stm Machine (list byte * option vm_error).

(** [return nil, nil] and [return nil, err]. *)
Definition ok_nil : executionFunc := mret ([], None).
Definition err_nil (e : vm_error) : executionFunc := mret ([], Some e).

(** Pop the first operand and overwrite the second, which is the new top. *)
Definition binary (f : Z → Z → Z) : executionFunc :=
  x ← pop; y ← peek; _ ← set_top (f x y); ok_nil.
Definition unary (f : Z → Z) : executionFunc :=
  x ← peek; _ ← set_top (f x); ok_nil.
Definition push_word (x : Z) : executionFunc := _ ← push x; ok_nil.

(** ** Arithmetic and comparison *)

Definition opAdd := binary word_Add.
Definition opSub := binary word_Sub.
Definition opMul := binary word_Mul.
Definition opDiv := binary word_Div.
Definition opSdiv := binary word_SDiv.
Definition opMod := binary word_Mod.
Definition opSmod := binary word_SMod.
Definition opExp := binary word_Exp.
Definition opSignExtend := binary (λ back num, word_ExtendSign num back).
Definition opNot := unary word_Not.
Definition opLt := binary (λ x y, bit (word_Lt x y)).
Definition opGt := binary (λ x y, bit (word_Gt x y)).
Definition opSlt := binary (λ x y, bit (word_Slt x y)).
Definition opSgt := binary (λ x y, bit (word_Sgt x y)).
Definition opEq := binary (λ x y, bit (word_Eq x y)).
Definition opIszero := unary (λ x, bit (word_IsZero x)).
Definition opAnd := binary word_And.
Definition opOr := binary word_Or.
Definition opXor := binary word_Xor.
Definition opByte := binary (λ th val, word_Byte val th).

Definition opAddmod : executionFunc :=
  x ← pop; y ← pop; z ← peek;
  _ ← set_top (if word_IsZero z then 0 else word_AddMod x y z); ok_nil.
Definition opMulmod : executionFunc :=
  x ← pop; y ← pop; z ← peek; _ ← set_top (word_MulMod x y z); ok_nil.

Definition opSHL := binary (λ shift value,
  if shift <? 256 then word_Lsh value (word_Uint64 shift) else 0).
Definition opSHR := binary (λ shift value,
  if shift <? 256 then word_Rsh value (word_Uint64 shift) else 0).
Definition opSAR := binary (λ shift value,
  if 256 <? shift then (if 0 <=? word_Sign value then 0 else AllOne)
  else word_SRsh value (word_Uint64 shift)).

(** ** Hashing and the environment *)

Definition opKeccak256 : executionFunc :=
  offset ← pop; size ← peek;
  data ← mem_read (λ mem, mem_GetPtr mem (int64 (word_Uint64 offset)) (int64 (word_Uint64 size)));
  let hash := Keccak256Hash data in
  _ ← (if EnablePreimageRecording evm then interp (db_do (λ s, AddPreimage s hash data)) else mret ());
  _ ← set_top (word_SetBytes (Hash_Bytes hash)); ok_nil.

(** The word of an address. *)
Definition push_address (a : Address) : executionFunc := push_word (word_SetBytes (Address_Bytes a)).

Definition opAddress : executionFunc := me ← self_addr; push_address me.
Definition opBalance : executionFunc :=
  slot ← peek;
  b ← interp (db_get (λ s, GetBalance s (word_Bytes20 slot)));
  _ ← set_top (word_SetFromBig b); ok_nil.
Definition opOrigin : executionFunc := push_address (Origin (TxCtx evm)).
Definition opCaller : executionFunc := c ← gets m_con; push_address (CallerAddress c).
Definition opCallValue : executionFunc :=
  c ← gets m_con; v ← lift (deref (value c)); push_word (word_SetFromBig v).

Definition opCallDataLoad : executionFunc :=
  x ← peek; c ← gets m_con;
  let '(offset, overflow) := Uint64WithOverflow x in
  if overflow : bool then _ ← set_top 0; ok_nil
  else data ← lift (getData (Input c) offset 32); _ ← set_top (word_SetBytes data); ok_nil.
Definition opCallDataSize : executionFunc := c ← gets m_con; push_word (len (Input c)).

(** Copy to memory from the bytes [src], starting at a word that may be too large. *)
Definition copy_from (src : list byte) (memOffset dataOffset length : Z) : executionFunc :=
  let '(off, overflow) := Uint64WithOverflow dataOffset in
  let off := if overflow : bool then 0xffffffffffffffff else off in
  data ← lift (getData src off (word_Uint64 length));
  _ ← mem_try (λ mem, mem_Set mem (word_Uint64 memOffset) (word_Uint64 length) data); ok_nil.

Definition opCallDataCopy : executionFunc :=
  memOffset ← pop; dataOffset ← pop; length ← pop; c ← gets m_con;
  copy_from (Input c) memOffset dataOffset length.

Definition opReturnDataSize : executionFunc :=
  r ← gets (λ m, returnData (m_in m)); push_word (len r).
Definition opReturnDataCopy : executionFunc :=
  memOffset ← pop; dataOffset ← pop; length ← pop;
  rd ← gets (λ m, returnData (m_in m));
  let '(offset64, overflow) := Uint64WithOverflow dataOffset in
  if overflow : bool then err_nil ErrReturnDataOutOfBounds
  else
    let '(end64, overflow) := Uint64WithOverflow (word_Add dataOffset length) in
    if overflow || (len rd <? end64) then err_nil ErrReturnDataOutOfBounds
    else data ← lift (go_slice rd offset64 end64);
         _ ← mem_try (λ mem, mem_Set mem (word_Uint64 memOffset) (word_Uint64 length) data); ok_nil.

Definition opExtCodeSize : executionFunc :=
  slot ← peek;
  n ← interp (db_get (λ s, GetCodeSize s (word_Bytes20 slot)));
  _ ← set_top (u64 n); ok_nil.
Definition opCodeSize : executionFunc := c ← gets m_con; push_word (len (Code c)).
Definition opCodeCopy : executionFunc :=
  memOffset ← pop; codeOffset ← pop; length ← pop; c ← gets m_con;
  copy_from (Code c) memOffset codeOffset length.
Definition opExtCodeCopy : executionFunc :=
  a ← pop; memOffset ← pop; codeOffset ← pop; length ← pop;
  code ← interp (db_get (λ s, GetCode s (word_Bytes20 a)));
  copy_from (default [] code) memOffset codeOffset length.
Definition opExtCodeHash : executionFunc :=
  slot ← peek;
  let address := word_Bytes20 slot in
  empty ← interp (db_get (λ s, Empty s address));
  if empty : bool then _ ← set_top 0; ok_nil
  else h ← interp (db_get (λ s, GetCodeHash s address));
       _ ← set_top (word_SetBytes (Hash_Bytes h)); ok_nil.
Definition opGasprice : executionFunc := push_word (word_SetFromBig (GasPrice (TxCtx evm))).

Definition opBlockhash : executionFunc :=
  num ← peek;
  let '(num64, overflow) := Uint64WithOverflow num in
  if overflow : bool then _ ← set_top 0; ok_nil
  else
    let upper := u64 (BlockNumber (Context evm)) in
    let lower := if upper <? 257 then 0 else upper - 256 in
    if (lower <=? num64) && (num64 <? upper)
    then _ ← set_top (word_SetBytes (Hash_Bytes (GetHash (Context evm) num64))); ok_nil
    else _ ← set_top 0; ok_nil.
Definition opCoinbase : executionFunc := push_address (Coinbase (Context evm)).
Definition opTimestamp : executionFunc := push_word (Time (Context evm)).
Definition opNumber : executionFunc := push_word (word_SetFromBig (BlockNumber (Context evm))).
Definition opDifficulty : executionFunc := push_word (word_SetFromBig 0).
Definition opRandom : executionFunc :=
  r ← lift (deref (Random (Context evm))); push_word (word_SetBytes (Hash_Bytes r)).
Definition opGasLimit : executionFunc := push_word (bc_GasLimit (Context evm)).

(** ** Stack, memory, storage and control flow *)

Definition opPop : executionFunc := _ ← pop; ok_nil.
Definition opMload : executionFunc :=
  v ← peek;
  data ← mem_read (λ mem, mem_GetPtr mem (int64 (word_Uint64 v)) 32);
  _ ← set_top (word_SetBytes data); ok_nil.
Definition opMstore : executionFunc :=
  mStart ← pop; val ← pop;
  _ ← mem_try (λ mem, mem_Set32 mem (word_Uint64 mStart) val); ok_nil.
Definition opMstore8 : executionFunc :=
  off ← pop; val ← pop;
  _ ← mem_try (λ mem, let i := word_Uint64 off in
                      _ ← go_index (store mem) i;
                      Ok (mkMemory (<[Z.to_nat i := byte_of (word_Uint64 val)]> (store mem)) (lastGasCost mem)));
  ok_nil.
Definition opSload : executionFunc :=
  loc ← peek; me ← self_addr;
  val ← interp (db_get (λ s, GetState s me loc));
  _ ← set_top (word_SetBytes (Hash_Bytes val)); ok_nil.
Definition opSstore : executionFunc :=
  ro ← gets (λ m, readOnly (m_in m));
  if ro : bool then err_nil ErrWriteProtection
  else loc ← pop; val ← pop; me ← self_addr;
       _ ← interp (db_do (λ s, SetState s me loc val)); ok_nil.

(** Jump to [pos]; the loop of the interpreter adds one. *)
Definition jump_to (pos : Z) : executionFunc :=
  valid ← validJumpdest pos;
  if negb valid then err_nil ErrInvalidJump
  else _ ← modify (λ m, set_pc m (word_Uint64 pos - 1)%u64); ok_nil.
Definition opJump : executionFunc :=
  aborted ← gets (λ m, abort (m_in m));
  if aborted : bool then err_nil errStopToken else pos ← pop; jump_to pos.
Definition opJumpi : executionFunc :=
  aborted ← gets (λ m, abort (m_in m));
  if aborted : bool then err_nil errStopToken
  else pos ← pop; cond ← pop; if word_IsZero cond then ok_nil else jump_to pos.
Definition opJumpdest : executionFunc := ok_nil.
Definition opPc : executionFunc := p ← gets m_pc; push_word p.
Definition opMsize : executionFunc := mem ← gets m_mem; push_word (mem_Len mem).
Definition opGas : executionFunc := c ← gets m_con; push_word (Gas c).

(** ** Push, duplicate, swap, log *)

Definition opPush1 : executionFunc :=
  c ← gets m_con;
  _ ← modify (λ m, set_pc m (m_pc m + 1)%u64);
  p ← gets m_pc;
  if p <? len (Code c) then x ← lift (go_index (Code c) p); push_word x else push_word 0.

Definition makePush (size pushByteSize : Z) : executionFunc :=
  c ← gets m_con; p ← gets m_pc;
  let codeLen := len (Code c) in
  let next := int64 (u64 (p + 1)) in
  let startMin := if next <? codeLen then next else codeLen in
  let endMin := if startMin + pushByteSize <? codeLen then startMin + pushByteSize else codeLen in
  data ← lift (go_slice (Code c) startMin endMin);
  _ ← push (word_SetBytes (RightPadBytes data pushByteSize));
  _ ← modify (λ m, set_pc m (m_pc m + size)%u64); ok_nil.

Definition makeDup (size : Z) : executionFunc := λ m,
  match st_dup (m_stack m) size with
  | Ok st => Done (([], None), set_stack m st)
  | Panic msg => Crash msg
  end.

Definition makeSwap (size : Z) : executionFunc := λ m,
  match st_swap (m_stack m) (size + 1) with
  | Ok st => Done (([], None), set_stack m st)
  | Panic msg => Crash msg
  end.

Fixpoint pop_topics (n : nat) : stm Machine (list Hash) :=
  match n with
  | O => mret []
  | S n => t ← pop; ts ← pop_topics n; mret (t :: ts)
  end.

Definition makeLog (size : Z) : executionFunc :=
  ro ← gets (λ m, readOnly (m_in m));
  if ro : bool then err_nil ErrWriteProtection
  else
    mStart ← pop; mSize ← pop;
    topics ← pop_topics (Z.to_nat size);
    d ← mem_read (λ mem, mem_GetCopy mem (int64 (word_Uint64 mStart)) (int64 (word_Uint64 mSize)));
    me ← self_addr;
    _ ← interp (db_do (λ s, AddLog s (mkLog me topics d (u64 (BlockNumber (Context evm))) 0 0 0 0 false)));
    ok_nil.

(** ** Halting *)

Definition opReturn : executionFunc :=
  offset ← pop; size ← pop;
  ret ← mem_read (λ mem, mem_GetPtr mem (int64 (word_Uint64 offset)) (int64 (word_Uint64 size)));
  mret (ret, Some errStopToken).
Definition opRevert : executionFunc :=
  offset ← pop; size ← pop;
  ret ← mem_read (λ mem, mem_GetPtr mem (int64 (word_Uint64 offset)) (int64 (word_Uint64 size)));
  _ ← interp (modify (λ i, set_returnData i ret));
  mret (ret, Some ErrExecutionReverted).
Definition opUndefined : executionFunc :=
  c ← gets m_con; p ← gets m_pc;
  b ← lift (go_index (Code c) p);
  err_nil (ErrInvalidOpCode b).
Definition opStop : executionFunc := err_nil errStopToken.
Definition opSelfdestruct : executionFunc :=
  ro ← gets (λ m, readOnly (m_in m));
  if ro : bool then err_nil ErrWriteProtection
  else
    beneficiary ← pop; me ← self_addr;
    balance ← interp (db_get (λ s, GetBalance s me));
    _ ← interp (db_do (λ s, AddBalance s (word_Bytes20 beneficiary) balance));
    _ ← interp (db_do (λ s, SelfDestruct s me));
    err_nil errStopToken.
Definition opSelfdestruct6780 : executionFunc :=
  ro ← gets (λ m, readOnly (m_in m));
  if ro : bool then err_nil ErrWriteProtection
  else
    beneficiary ← pop; me ← self_addr;
    balance ← interp (db_get (λ s, GetBalance s me));
    _ ← interp (db_do (λ s, SubBalance s me balance));
    _ ← interp (db_do (λ s, AddBalance s (word_Bytes20 beneficiary) balance));
    _ ← interp (db_do (λ s, Selfdestruct6780 s me));
    err_nil errStopToken.

(** ** Instructions of later forks (eips.go) *)

Definition opSelfBalance : executionFunc :=
  me ← self_addr; b ← interp (db_get (λ s, GetBalance s me)); push_word (word_SetFromBig b).
Definition opChainID : executionFunc := push_word (word_SetFromBig (ChainID evm)).
Definition opTload : executionFunc :=
  loc ← peek; me ← self_addr;
  val ← gets (λ m, GetTransientState (evm_StateDB (m_in m)) me loc);
  _ ← set_top (word_SetBytes (Hash_Bytes val)); ok_nil.
Definition opTstore : executionFunc :=
  ro ← gets (λ m, readOnly (m_in m));
  if ro : bool then err_nil ErrWriteProtection
  else loc ← pop; val ← pop; me ← self_addr;
       _ ← interp (db_do (λ s, SetTransientState s me loc val)); ok_nil.
Definition opBaseFee : executionFunc :=
  b ← lift (deref (BaseFee (Context evm))); push_word (word_SetFromBig b).
Definition opPush0 : executionFunc := push_word 0.
Definition opMcopy : executionFunc :=
  dst ← pop; src ← pop; length ← pop;
  _ ← mem_try (λ mem, mem_Copy mem (word_Uint64 dst) (word_Uint64 src) (word_Uint64 length)); ok_nil.
Definition opBlobHash : executionFunc :=
  index ← peek;
  let hashes := BlobHashes (TxCtx evm) in
  if index <? len hashes
  then h ← lift (go_index hashes (word_Uint64 index)); _ ← set_top (word_SetBytes (Hash_Bytes h)); ok_nil
  else _ ← set_top 0; ok_nil.

(** ** Calls and creation *)

Variable run : run_fun.

Definition executeALFunc : Type := bool → stm Machine (list byte * option vm_error * bool).

(** What the call instructions do with the results of a call: push the flag, copy the
    returned bytes, return the gas. *)
Definition after_call (retOffset retSize : Z) (r : call_result)
    : stm Machine (list byte * option vm_error * bool) :=
  _ ← push (bit (bool_decide (cr_err r = None)));
  _ ← match cr_err r with
      | None | Some ErrExecutionReverted =>
          mem_try (λ mem, mem_Set mem (word_Uint64 retOffset) (word_Uint64 retSize) (cr_ret r))
      | Some _ => mret ()
      end;
  _ ← on_con (λ c, set_Gas c (Gas c + cr_gas r)%u64);
  _ ← interp (modify (λ i, set_returnData i (cr_ret r)));
  mret (cr_ret r, None, cr_CanParallel r).

Definition opCall : executeALFunc := λ IsParallel,
  _ ← pop; gas ← gets (λ m, callGasTemp (m_in m));
  addr ← pop; v ← pop; inOffset ← pop; inSize ← pop; retOffset ← pop; retSize ← pop;
  args ← mem_read (λ mem, mem_GetPtr mem (int64 (word_Uint64 inOffset)) (int64 (word_Uint64 inSize)));
  ro ← gets (λ m, readOnly (m_in m));
  if ro && negb (word_IsZero v) then mret ([], Some ErrWriteProtection, true)
  else
    let gas := if word_IsZero v then gas else (gas + CallStipend)%u64 in
    c ← gets m_con;
    r ← interp (Call run (con_ref c) (word_Bytes20 addr) args gas v IsParallel);
    after_call retOffset retSize r.

Definition opCallCode : executeALFunc := λ IsParallel,
  _ ← pop; gas ← gets (λ m, callGasTemp (m_in m));
  addr ← pop; v ← pop; inOffset ← pop; inSize ← pop; retOffset ← pop; retSize ← pop;
  args ← mem_read (λ mem, mem_GetPtr mem (int64 (word_Uint64 inOffset)) (int64 (word_Uint64 inSize)));
  let gas := if word_IsZero v then gas else (gas + CallStipend)%u64 in
  c ← gets m_con;
  r ← interp (CallCode run (con_ref c) (word_Bytes20 addr) args gas v IsParallel);
  after_call retOffset retSize r.

Definition opDelegateCall : executeALFunc := λ IsParallel,
  _ ← pop; gas ← gets (λ m, callGasTemp (m_in m));
  addr ← pop; inOffset ← pop; inSize ← pop; retOffset ← pop; retSize ← pop;
  args ← mem_read (λ mem, mem_GetPtr mem (int64 (word_Uint64 inOffset)) (int64 (word_Uint64 inSize)));
  c ← gets m_con;
  r ← interp (DelegateCall run (con_ref c) (word_Bytes20 addr) args gas IsParallel);
  after_call retOffset retSize r.

Definition opStaticCall : executeALFunc := λ IsParallel,
  _ ← pop; gas ← gets (λ m, callGasTemp (m_in m));
  addr ← pop; inOffset ← pop; inSize ← pop; retOffset ← pop; retSize ← pop;
  args ← mem_read (λ mem, mem_GetPtr mem (int64 (word_Uint64 inOffset)) (int64 (word_Uint64 inSize)));
  c ← gets m_con;
  r ← interp (StaticCall run (con_ref c) (word_Bytes20 addr) args gas IsParallel);
  after_call retOffset retSize r.

(** The end of both creations. *)
Definition after_create (r : call_result) (addr : Address)
    : stm Machine (list byte * option vm_error * bool) :=
  _ ← push (match cr_err r with None => word_SetBytes (Address_Bytes addr) | Some _ => 0 end);
  _ ← on_con (λ c, set_Gas c (Gas c + cr_gas r)%u64);
  match cr_err r with
  | Some ErrExecutionReverted =>
      _ ← interp (modify (λ i, set_returnData i (cr_ret r)));
      mret (cr_ret r, None, cr_CanParallel r)
  | _ =>
      _ ← interp (modify (λ i, set_returnData i []));
      mret ([], None, cr_CanParallel r)
  end.

(** All but one 64th of the gas, taken from the contract. *)
Definition create_gas : stm Machine Z :=
  c ← gets m_con;
  let gas := (Gas c - Gas c / 64)%u64 in
  _ ← on_con (λ c, (UseGas c gas).2); mret gas.

Definition opCreate : executeALFunc := λ IsParallel,
  ro ← gets (λ m, readOnly (m_in m));
  if ro : bool then mret ([], Some ErrWriteProtection, true)
  else
    v ← pop; offset ← pop; size ← pop;
    input ← mem_read (λ mem, mem_GetCopy mem (int64 (word_Uint64 offset)) (int64 (word_Uint64 size)));
    gas ← create_gas; c ← gets m_con;
    '(r, addr) ← interp (Create run (con_ref c) input gas v IsParallel);
    after_create r addr.

Definition opCreate2 : executeALFunc := λ IsParallel,
  ro ← gets (λ m, readOnly (m_in m));
  if ro : bool then mret ([], Some ErrWriteProtection, true)
  else
    endowment ← pop; offset ← pop; size ← pop; salt ← pop;
    input ← mem_read (λ mem, mem_GetCopy mem (int64 (word_Uint64 offset)) (int64 (word_Uint64 size)));
    gas ← create_gas; c ← gets m_con;
    '(r, addr) ← interp (Create2 run (con_ref c) input gas endowment salt IsParallel);
    after_create r addr.

End ops.
