(* ===== verification/EvmTables.v ===== *)
(** * Jump tables (core/evm: jump_table.go, eips.go)

    The operation of every opcode, fork by fork.  The interpreter uses the table of the
    first fork, whatever the configuration, extended by the EIPs of the configuration. *)

From S2P Require Import Prelude Bytes Params RlpEncode RlpRaw Common AccessList.
From S2P Require Import StateDB EvmWord EvmBase Precompiles EvmState EvmCalls EvmGas EvmOps.

Section tables.
Context {Cr : Crypto} {NC : NativeCrypto} {DB : Database} {U : Uint256}.
Variable evm : EVM.
Variable run : run_fun.

(** A nil function is [None]; calling it panics. *)
Record operation := mkOperation {
  execute : option executionFunc;
  executeAL : option executeALFunc;
  constantGas : Z;
  dynamicGas : option gasFunc;
  op_minStack : Z;
  op_maxStack : Z;
  memorySize : option memSizeFunc;
}.

Definition JumpTable : Type := OpCode → operation.

(** An operation that pops [pops] words and pushes [pushes]. *)
Definition simple (f : executionFunc) (gas pops pushes : Z) : operation :=
  mkOperation (Some f) None gas None (minStack pops pushes) (maxStack pops pushes) None.
Definition metered (f : executionFunc) (gas : Z) (g : gasFunc) (pops pushes : Z) : operation :=
  mkOperation (Some f) None gas (Some g) (minStack pops pushes) (maxStack pops pushes) None.
Definition sized (f : executionFunc) (gas : Z) (g : gasFunc) (sz : memSizeFunc) (pops pushes : Z) : operation :=
  mkOperation (Some f) None gas (Some g) (minStack pops pushes) (maxStack pops pushes) (Some sz).
Definition calling (f : executeALFunc) (gas : Z) (g : gasFunc) (sz : memSizeFunc) (pops pushes : Z) : operation :=
  mkOperation None (Some f) gas (Some g) (minStack pops pushes) (maxStack pops pushes) (Some sz).

Definition undefined_op : operation :=
  mkOperation (Some opUndefined) None 0 None 0 (maxStack 0 0) None.

(** *** Frontier

    The literal of [newFrontierInstructionSet], in the order of its entries; every slot it
    leaves out holds the undefined operation. *)

(** Arithmetic, comparisons and bit operations. *)
Definition frontier_alu (op : OpCode) : option operation :=
  match op with
  | STOP => Some (simple opStop 0 0 0)
  | ADD => Some (simple opAdd GasFastestStep 2 1)
  | MUL => Some (simple opMul GasFastStep 2 1)
  | SUB => Some (simple opSub GasFastestStep 2 1)
  | DIV => Some (simple opDiv GasFastStep 2 1)
  | SDIV => Some (simple opSdiv GasFastStep 2 1)
  | MOD => Some (simple opMod GasFastStep 2 1)
  | SMOD => Some (simple opSmod GasFastStep 2 1)
  | ADDMOD => Some (simple opAddmod GasMidStep 3 1)
  | MULMOD => Some (simple opMulmod GasMidStep 3 1)
  | EXP => Some (metered opExp 0 gasExpFrontier 2 1)
  | SIGNEXTEND => Some (simple opSignExtend GasFastStep 2 1)
  | LT => Some (simple opLt GasFastestStep 2 1)
  | GT => Some (simple opGt GasFastestStep 2 1)
  | SLT => Some (simple opSlt GasFastestStep 2 1)
  | SGT => Some (simple opSgt GasFastestStep 2 1)
  | EQ => Some (simple opEq GasFastestStep 2 1)
  | ISZERO => Some (simple opIszero GasFastestStep 1 1)
  | AND => Some (simple opAnd GasFastestStep 2 1)
  | XOR => Some (simple opXor GasFastestStep 2 1)
  | OR => Some (simple opOr GasFastestStep 2 1)
  | NOT => Some (simple opNot GasFastestStep 1 1)
  | BYTE => Some (simple opByte GasFastestStep 2 1)
  | _ => None
  end.
(** Hashing and the environment. *)
Definition frontier_env (op : OpCode) : option operation :=
  match op with
  | KECCAK256 => Some (sized (opKeccak256 evm) Keccak256Gas gasKeccak256 memoryKeccak256 2 1)
  | ADDRESS => Some (simple opAddress GasQuickStep 0 1)
  | BALANCE => Some (simple opBalance BalanceGasFrontier 1 1)
  | ORIGIN => Some (simple (opOrigin evm) GasQuickStep 0 1)
  | CALLER => Some (simple opCaller GasQuickStep 0 1)
  | CALLVALUE => Some (simple opCallValue GasQuickStep 0 1)
  | CALLDATALOAD => Some (simple opCallDataLoad GasFastestStep 1 1)
  | CALLDATASIZE => Some (simple opCallDataSize GasQuickStep 0 1)
  | CALLDATACOPY => Some (sized opCallDataCopy GasFastestStep gasCallDataCopy memoryCallDataCopy 3 0)
  | CODESIZE => Some (simple opCodeSize GasQuickStep 0 1)
  | CODECOPY => Some (sized opCodeCopy GasFastestStep gasCodeCopy memoryCodeCopy 3 0)
  | GASPRICE => Some (simple (opGasprice evm) GasQuickStep 0 1)
  | EXTCODESIZE => Some (simple opExtCodeSize ExtcodeSizeGasFrontier 1 1)
  | EXTCODECOPY => Some (sized opExtCodeCopy ExtcodeCopyBaseFrontier gasExtCodeCopy memoryExtCodeCopy 4 0)
  | BLOCKHASH => Some (simple (opBlockhash evm) GasExtStep 1 1)
  | COINBASE => Some (simple (opCoinbase evm) GasQuickStep 0 1)
  | TIMESTAMP => Some (simple (opTimestamp evm) GasQuickStep 0 1)
  | NUMBER => Some (simple (opNumber evm) GasQuickStep 0 1)
  | DIFFICULTY => Some (simple opDifficulty GasQuickStep 0 1)
  | GASLIMIT => Some (simple (opGasLimit evm) GasQuickStep 0 1)
  | _ => None
  end.
(** Stack, memory, storage and jumps. *)
Definition frontier_flow (op : OpCode) : option operation :=
  match op with
  | POP => Some (simple opPop GasQuickStep 1 0)
  | MLOAD => Some (sized opMload GasFastestStep pureMemoryGascost memoryMLoad 1 1)
  | MSTORE => Some (sized opMstore GasFastestStep pureMemoryGascost memoryMStore 2 0)
  | MSTORE8 => Some (sized opMstore8 GasFastestStep pureMemoryGascost memoryMStore8 2 0)
  | SLOAD => Some (simple opSload SloadGasFrontier 1 1)
  | SSTORE => Some (metered opSstore 0 gasSStore 2 0)
  | JUMP => Some (simple opJump GasMidStep 1 0)
  | JUMPI => Some (simple opJumpi GasSlowStep 2 0)
  | PC => Some (simple opPc GasQuickStep 0 1)
  | MSIZE => Some (simple opMsize GasQuickStep 0 1)
  | GAS => Some (simple opGas GasQuickStep 0 1)
  | JUMPDEST => Some (simple opJumpdest JumpdestGas 0 0)
  | _ => None
  end.
(** The entries for the constants, copies and exchanges of each size. *)
Definition frontier_push (n : Z) : operation :=
  simple (if n =? 1 then opPush1 else makePush n n) GasFastestStep 0 1.
Definition frontier_dup (n : Z) : operation :=
  mkOperation (Some (makeDup n)) None GasFastestStep None (minDupStack n) (maxDupStack n) None.
Definition frontier_swap (n : Z) : operation :=
  mkOperation (Some (makeSwap n)) None GasFastestStep None (minSwapStack (n + 1)) (maxSwapStack (n + 1)) None.
(** Logs, calls and the end of a frame. *)
Definition frontier_system (op : OpCode) : option operation :=
  match op with
  | LOG n => Some (sized (makeLog evm n) 0 (makeGasLog n) memoryLog (n + 2) 0)
  | CREATE => Some (calling (opCreate run) CreateGas pureMemoryGascost memoryCreate 3 1)
  | CALL => Some (calling (opCall run) CallGasFrontier gasCall memoryCall 7 1)
  | CALLCODE => Some (calling (opCallCode run) CallGasFrontier gasCallCode memoryCall 7 1)
  | RETURN => Some (sized opReturn 0 pureMemoryGascost memoryReturn 2 0)
  | SELFDESTRUCT => Some (metered opSelfdestruct 0 gasSelfdestruct 1 0)
  | _ => None
  end.
Definition newFrontierInstructionSet : JumpTable := λ op,
  match op with
  | PUSH n => frontier_push n
  | DUP n => frontier_dup n
  | SWAP n => frontier_swap n
  | _ =>
      match frontier_alu op, frontier_env op, frontier_flow op, frontier_system op with
      | Some o, _, _, _ | _, Some o, _, _ | _, _, Some o, _ | _, _, _, Some o => o
      | None, None, None, None => undefined_op
      end
  end.

(** *** Changes to a table *)

Definition op_eqb (a b : OpCode) : bool :=
  match a, b with
  | EXP, EXP | SHL, SHL | SHR, SHR | SAR, SAR | BALANCE, BALANCE | EXTCODESIZE, EXTCODESIZE
  | EXTCODECOPY, EXTCODECOPY | RETURNDATASIZE, RETURNDATASIZE | RETURNDATACOPY, RETURNDATACOPY
  | EXTCODEHASH, EXTCODEHASH | DIFFICULTY, DIFFICULTY | CHAINID, CHAINID | SELFBALANCE, SELFBALANCE
  | BASEFEE, BASEFEE | BLOBHASH, BLOBHASH | SLOAD, SLOAD | SSTORE, SSTORE | TLOAD, TLOAD
  | TSTORE, TSTORE | MCOPY, MCOPY | PUSH0, PUSH0 | CREATE, CREATE | CALL, CALL | CALLCODE, CALLCODE
  | DELEGATECALL, DELEGATECALL | CREATE2, CREATE2 | STATICCALL, STATICCALL | REVERT, REVERT
  | SELFDESTRUCT, SELFDESTRUCT => true
  | _, _ => false
  end.

(** [jt[op] = &operation{...}], [jt[op].constantGas = g] and [jt[op].dynamicGas = f]. *)
Definition set_op (op : OpCode) (o : operation) (jt : JumpTable) : JumpTable :=
  λ x, if op_eqb x op then o else jt x.
Definition set_const (op : OpCode) (g : Z) (jt : JumpTable) : JumpTable :=
  λ x, if op_eqb x op
       then let o := jt x in
            mkOperation (execute o) (executeAL o) g (dynamicGas o) (op_minStack o) (op_maxStack o) (memorySize o)
       else jt x.
Definition set_dyn (op : OpCode) (f : gasFunc) (jt : JumpTable) : JumpTable :=
  λ x, if op_eqb x op
       then let o := jt x in
            mkOperation (execute o) (executeAL o) (constantGas o) (Some f) (op_minStack o) (op_maxStack o) (memorySize o)
       else jt x.

(** *** EIPs *)

Definition enable1884 (jt : JumpTable) : JumpTable :=
  set_op SELFBALANCE (simple opSelfBalance GasFastStep 0 1)
    (set_const EXTCODEHASH ExtcodeHashGasEIP1884
       (set_const BALANCE BalanceGasEIP1884 (set_const SLOAD SloadGasEIP1884 jt))).
Definition enable1344 (jt : JumpTable) : JumpTable :=
  set_op CHAINID (simple (opChainID evm) GasQuickStep 0 1) jt.
Definition enable2200 (jt : JumpTable) : JumpTable :=
  set_dyn SSTORE gasSStoreEIP2200 (set_const SLOAD SloadGasEIP2200 jt).

(** Both parts of the gas of an operation. *)
Definition set_gas (op : OpCode) (g : Z) (f : gasFunc) (jt : JumpTable) : JumpTable :=
  set_dyn op f (set_const op g jt).

Definition enable2929 (jt : JumpTable) : JumpTable :=
  let warm := WarmStorageReadCostEIP2929 in
  set_gas SELFDESTRUCT SelfdestructGasEIP150 gasSelfdestructEIP2929
  (set_gas DELEGATECALL warm gasDelegateCallEIP2929
  (set_gas STATICCALL warm gasStaticCallEIP2929
  (set_gas CALLCODE warm gasCallCodeEIP2929
  (set_gas CALL warm gasCallEIP2929
  (set_gas BALANCE warm gasEip2929AccountCheck
  (set_gas EXTCODEHASH warm gasEip2929AccountCheck
  (set_gas EXTCODESIZE warm gasEip2929AccountCheck
  (set_gas EXTCODECOPY warm gasExtCodeCopyEIP2929
  (set_gas SLOAD 0 gasSLoadEIP2929
  (set_dyn SSTORE gasSStoreEIP2929 jt)))))))))).

Definition enable3529 (jt : JumpTable) : JumpTable :=
  set_dyn SELFDESTRUCT gasSelfdestructEIP3529 (set_dyn SSTORE gasSStoreEIP3529 jt).
Definition enable3198 (jt : JumpTable) : JumpTable :=
  set_op BASEFEE (simple (opBaseFee evm) GasQuickStep 0 1) jt.
Definition enable1153 (jt : JumpTable) : JumpTable :=
  set_op TSTORE (simple opTstore WarmStorageReadCostEIP2929 2 0)
    (set_op TLOAD (simple opTload WarmStorageReadCostEIP2929 1 1) jt).
Definition enable3855 (jt : JumpTable) : JumpTable :=
  set_op PUSH0 (simple opPush0 GasQuickStep 0 1) jt.
Definition enable3860 (jt : JumpTable) : JumpTable :=
  set_dyn CREATE2 gasCreate2Eip3860 (set_dyn CREATE gasCreateEip3860 jt).
Definition enable5656 (jt : JumpTable) : JumpTable :=
  set_op MCOPY (sized opMcopy GasFastestStep gasMcopy memoryMcopy 3 0) jt.
Definition enable4844 (jt : JumpTable) : JumpTable :=
  set_op BLOBHASH (simple (opBlobHash evm) GasFastestStep 1 1) jt.
Definition enable6780 (jt : JumpTable) : JumpTable :=
  set_op SELFDESTRUCT (metered opSelfdestruct6780 SelfdestructGasEIP150 gasSelfdestructEIP3529 1 0) jt.

(** [activators] and [EnableEIP]; an unknown number is an error and changes nothing. *)
Definition EnableEIP (eipNum : Z) (jt : JumpTable) : option JumpTable :=
  if eipNum =? 5656 then Some (enable5656 jt) else
  if eipNum =? 6780 then Some (enable6780 jt) else
  if eipNum =? 3855 then Some (enable3855 jt) else
  if eipNum =? 3860 then Some (enable3860 jt) else
  if eipNum =? 3529 then Some (enable3529 jt) else
  if eipNum =? 3198 then Some (enable3198 jt) else
  if eipNum =? 2929 then Some (enable2929 jt) else
  if eipNum =? 2200 then Some (enable2200 jt) else
  if eipNum =? 1884 then Some (enable1884 jt) else
  if eipNum =? 1344 then Some (enable1344 jt) else
  if eipNum =? 1153 then Some (enable1153 jt) else None.

(** *** Later forks *)

Definition newHomesteadInstructionSet : JumpTable :=
  set_op DELEGATECALL (calling (opDelegateCall run) CallGasFrontier gasDelegateCall memoryDelegateCall 6 1)
    newFrontierInstructionSet.
Definition newTangerineWhistleInstructionSet : JumpTable :=
  set_const DELEGATECALL CallGasEIP150 (set_const CALLCODE CallGasEIP150 (set_const CALL CallGasEIP150
  (set_const EXTCODECOPY ExtcodeCopyBaseEIP150 (set_const SLOAD SloadGasEIP150
  (set_const EXTCODESIZE ExtcodeSizeGasEIP150 (set_const BALANCE BalanceGasEIP150
    newHomesteadInstructionSet)))))).
Definition newSpuriousDragonInstructionSet : JumpTable :=
  set_dyn EXP gasExpEIP158 newTangerineWhistleInstructionSet.
Definition newByzantiumInstructionSet : JumpTable :=
  set_op REVERT (sized opRevert 0 pureMemoryGascost memoryRevert 2 0)
  (set_op RETURNDATACOPY (sized opReturnDataCopy GasFastestStep gasReturnDataCopy memoryReturnDataCopy 3 0)
  (set_op RETURNDATASIZE (simple opReturnDataSize GasQuickStep 0 1)
  (set_op STATICCALL (calling (opStaticCall run) CallGasEIP150 gasStaticCall memoryStaticCall 6 1)
    newSpuriousDragonInstructionSet))).
Definition newConstantinopleInstructionSet : JumpTable :=
  set_op CREATE2 (calling (opCreate2 run) Create2Gas gasCreate2 memoryCreate2 4 1)
  (set_op EXTCODEHASH (simple opExtCodeHash ExtcodeHashGasConstantinople 1 1)
  (set_op SAR (simple opSAR GasFastestStep 2 1)
  (set_op SHR (simple opSHR GasFastestStep 2 1)
  (set_op SHL (simple opSHL GasFastestStep 2 1) newByzantiumInstructionSet)))).
Definition newIstanbulInstructionSet : JumpTable :=
  enable2200 (enable1884 (enable1344 newConstantinopleInstructionSet)).
Definition newBerlinInstructionSet : JumpTable := enable2929 newIstanbulInstructionSet.
Definition newLondonInstructionSet : JumpTable := enable3198 (enable3529 newBerlinInstructionSet).
Definition newMergeInstructionSet : JumpTable :=
  set_op DIFFICULTY (simple (opRandom evm) GasQuickStep 0 1) newLondonInstructionSet.
Definition newShanghaiInstructionSet : JumpTable := enable3860 (enable3855 newMergeInstructionSet).
Definition newCancunInstructionSet : JumpTable :=
  enable6780 (enable5656 (enable1153 (enable4844 newShanghaiInstructionSet))).

(** [NewEVMInterpreter]: the frontier table and the EIPs of the configuration that exist. *)
Definition interpreter_table : JumpTable :=
  foldl (λ jt eip, default jt (EnableEIP eip jt)) newFrontierInstructionSet (ExtraEips evm).

End tables.
