(* ===== verification/EvmRun.v ===== *)
(** * The interpreter loop (core/evm: interpreter.go, true_accesslist.go)

    [step] is one round of the loop of [Run], [loop] the loop, [Run] the whole function.
    Calls made by instructions run the loop again; the fuel bounds the rounds of a frame
    and of the frames inside it. *)

From S2P Require Import Prelude Bytes Params RlpEncode RlpRaw Common AccessList.
From S2P Require Import StateDB EvmWord EvmBase Precompiles EvmState EvmCalls EvmGas EvmOps EvmTables.

Section interpreter.
Context {Cr : Crypto} {NC : NativeCrypto} {DB : Database} {U : Uint256} {GR : GoRuntime}.
Variable evm : EVM.

(** [GetTrueAccessList]: what the instruction about to run accesses. *)
Definition GetTrueAccessList (op : OpCode) (me : Address) (st : Stack) (NewAL : AccessList)
    : res AccessList :=
  let add_address (a : Address) : AccessList :=
    if AccessListIsAddressExce NewAL a then NewAL else (AccessListAddAddress NewAL a).2 in
  match op with
  | SLOAD | SSTORE =>
      if 1 <=? st_len st then slot ← st_Back st 0; r ← AccessListAddSlot NewAL me slot; Ok r.2
      else Ok NewAL
  | EXTCODECOPY | EXTCODEHASH | EXTCODESIZE | BALANCE | SELFDESTRUCT =>
      if 1 <=? st_len st then x ← st_Back st 0; Ok (add_address (word_Bytes20 x)) else Ok NewAL
  | DELEGATECALL | CALL | STATICCALL | CALLCODE =>
      if 5 <=? st_len st then x ← st_Back st 1; Ok (add_address (word_Bytes20 x)) else Ok NewAL
  | _ => Ok NewAL
  end.

(** A method call through a pointer that may be nil: only the empty list is merged
    without looking through it. *)
Definition combine_into (p : option AccessList) (part : AccessList) : res (option AccessList) :=
  match p with
  | Some al => al ← CombineTrueAccessList al part; Ok (Some al)
  | None => if decide (Addresses part = ∅) then Ok None else Panic "nil pointer dereference"
  end.

(** The access of the instruction is compared with the list of the database, or recorded;
    the result is whether the transaction can still run in parallel. *)
Definition track_access (op : OpCode) (IsParallel can : bool) : stm Machine bool :=
  m ← gets id;
  part ← lift (GetTrueAccessList op (self (m_con m)) (m_stack m) NewAccessList);
  if IsParallel then
    c ← lift (ConflictDetection part (sdb_AccessList (evm_StateDB (m_in m))));
    mret (if c.1.1.1 : bool then can else false)
  else
    al ← lift (combine_into (TrueAccessList (m_in m)) part);
    _ ← interp (modify (λ i, set_TrueAccessList i al)); mret can.

Definition use_gas (g : Z) : stm Machine bool :=
  c ← gets m_con;
  let '(ok, c) := UseGas c g in
  _ ← on_con (λ _, c); mret ok.

(** The dynamic part of the gas, and the growth of the memory it pays for. *)
Definition charge_dynamic (o : operation) : stm Machine (option vm_error) :=
  match dynamicGas o with
  | None => mret None
  | Some gas =>
      st ← gets m_stack;
      size ← match memorySize o with
             | None => mret (0, false)
             | Some f =>
                 '(memSize, overflow) ← lift (f st);
                 if overflow : bool then mret (0, true) else mret (SafeMul (toWordSize memSize) 32)
             end;
      if size.2 : bool then mret (Some ErrGasUintOverflow)
      else
        '(cost, err) ← gas size.1;
        match err with
        | Some _ => mret (Some ErrOutOfGas)
        | None =>
            ok ← use_gas cost;
            if negb ok then mret (Some ErrOutOfGas)
            else _ ← (if 0 <? size.1 then modify (λ m, set_mem m (mem_Resize (m_mem m) size.1)) else mret ());
                 mret None
        end
  end.

(** Calling a nil function panics. *)
Definition nil_func {A} : stm Machine A :=
  lift (Panic "invalid memory address or nil pointer dereference").

Definition call_AL (o : operation) (IsParallel : bool) : stm Machine (list byte * option vm_error * bool) :=
  match executeAL o with Some f => f IsParallel | None => nil_func end.
Definition call_exec (o : operation) : stm Machine (list byte * option vm_error) :=
  match execute o with Some f => f | None => nil_func end.

Definition is_create (op : OpCode) : bool := match op with CREATE | CREATE2 => true | _ => false end.
Definition is_call (op : OpCode) : bool :=
  match op with DELEGATECALL | CALL | STATICCALL | CALLCODE => true | _ => false end.

(** The two blocks that run the instruction.  [res] is the result of an earlier one. *)
Definition perform (op : OpCode) (o : operation) (IsParallel can : bool) (res : list byte)
    : stm Machine (list byte * option vm_error * bool) :=
  '(res, err, can) ←
    (if is_create op then
       if IsParallel then mret (res, None, false)
       else '(res, err, _) ← call_AL o IsParallel; mret (res, err, false)
     else mret (res, None, can));
  if IsParallel || can then
    if is_call op then call_AL o IsParallel
    else '(res, err) ← call_exec o; mret (res, err, can)
  else mret (res, err, can).

Inductive step_out :=
| Next (can : bool) (res : list byte)
| Halt (ret : list byte) (err : option vm_error) (can : bool).

(** The stop token is not an error for the caller. *)
Definition clear_stop (e : vm_error) : option vm_error :=
  match e with errStopToken => None | _ => Some e end.

Definition step (table : JumpTable) (IsParallel can : bool) (res : list byte) : stm Machine step_out :=
  m ← gets id;
  let op := op_of_byte (GetOp (m_con m) (m_pc m)) in
  let o := table op in
  let sLen := st_len (m_stack m) in
  if sLen <? op_minStack o then mret (Halt [] (Some (ErrStackUnderflow sLen (op_minStack o))) true)
  else if op_maxStack o <? sLen then mret (Halt [] (Some (ErrStackOverflow sLen (op_maxStack o))) true)
  else
    ok ← use_gas (constantGas o);
    if negb ok then mret (Halt [] (Some ErrOutOfGas) true)
    else
      charged ← charge_dynamic o;
      match charged with
      | Some e => mret (Halt [] (Some e) true)
      | None =>
          can ← track_access op IsParallel can;
          '(res, err, can) ← perform op o IsParallel can res;
          match err with
          | Some e => mret (Halt res (clear_stop e) can)
          | None =>
              if IsParallel && negb can then mret (Halt res None can)
              else _ ← modify (λ m, set_pc m (m_pc m + 1)%u64); mret (Next can res)
          end
      end.

(** [Run] around a given loop: the depth and the read-only flag are restored at the end. *)
Definition loop_fun : Type := bool → bool → list byte → stm Machine (list byte * option vm_error * bool).

Definition enter (ro : bool) (i : Interp) : Interp :=
  let i := set_depth i (depth i + 1) in
  if ro && negb (readOnly i) then set_readOnly i true else i.
Definition leave (ro : bool) (before i : Interp) : Interp :=
  let i := set_depth i (depth i - 1) in
  if ro && negb (readOnly before) then set_readOnly i false else i.

Definition run_with (lp : loop_fun) : run_fun := λ contract input ro IsParallel i,
  let i1 := enter ro i in
  if len (Code contract) =? 0 then Done (mkRun [] None true contract, leave ro i i1)
  else
    match lp IsParallel true [] (mkMachine i1 NewMemory [] (set_Input contract input) 0) with
    | Done ((ret, err, can), m) => Done (mkRun ret err can (m_con m), leave ro i (m_in m))
    | Crash msg => Crash msg
    | OutOfFuel => OutOfFuel
    end.

(** The loop around the loop that nested calls and the next rounds run. *)
Definition loop_round (rest : loop_fun) : loop_fun := λ IsParallel can res,
  out ← step (interpreter_table evm (run_with rest)) IsParallel can res;
  match out with
  | Halt ret err can => mret (ret, err, can)
  | Next can res => rest IsParallel can res
  end.

Fixpoint loop (fuel : nat) : loop_fun :=
  match fuel with
  | O => λ _ _ _ _, OutOfFuel
  | S n => loop_round (loop n)
  end.

Definition Run (fuel : nat) : run_fun := run_with (loop fuel).

End interpreter.
