(* ===== verification/EvmSample.v ===== *)
(** * A concrete machine

    The parameters of the interpreter at concrete functions, a block and a message, and a
    state with a funded account and a few contracts: what the witnesses run on. *)

From S2P Require Import Prelude Bytes Params RlpEncode RlpRaw Common AccessList.
From S2P Require Import StateDB EvmWord EvmBase Precompiles EvmState EvmCalls EvmGas EvmOps EvmTables EvmRun.
From S2P Require Import StateRevert StateSteps StateFrame.

(** Curves of one point. *)
Definition toy_native : NativeCrypto.
Proof.
  refine {| ripemd160 _ := [];
    bnG1 := unit; bnG2 := unit; bnG1_Unmarshal _ := inr (); bnG2_Unmarshal _ := inr ();
    bnG1_Marshal _ := []; bnG1_Add _ _ := (); bnG1_ScalarMult _ _ := (); bn_PairingCheck _ _ := true;
    PointG1 := unit; PointG2 := unit; g1_DecodePoint _ := inr (); g2_DecodePoint _ := inr ();
    g1_EncodePoint _ := []; g2_EncodePoint _ := []; g1_Add _ _ := (); g2_Add _ _ := ();
    g1_MulScalar _ _ := (); g2_MulScalar _ _ := (); g1_MultiExp _ _ := (); g2_MultiExp _ _ := ();
    g1_InCorrectSubgroup _ := true; g2_InCorrectSubgroup _ := true;
    g1_MapToCurve _ := inr (); g2_MapToCurve _ := inr (); bls_PairingCheck _ := true |};
    intros; constructor.
Defined.

#[local] Existing Instances toy_crypto mem_database word_model toy_native reference_runtime.

Definition sample_evm : EVM :=
  mkEVM (mkBlockContext (λ _, 0) 99 1000000 5 0 (Some 1) None) (mkTxContext 1 1 []) 1337 false [].

(** Account 1 owns 100; account 0x77 has the given code. *)
Definition sample_state (code : list byte) : StateDB := SetCode (AddBalance mem_state 1 100) 0x77 (Some code).
Definition sample_interp (code : list byte) : Interp := new_interp (sample_state code).
Definition sample_contract (code : list byte) (gas : Z) : Contract :=
  mkContract 1 (AccountRef 1) 0x77 None code 5 (Some 0x77) [] gas (Some 0).

Lemma sample_interp_ok code : db_ok (evm_StateDB (sample_interp code)).
Proof.
  change (db_ok (sample_state code)).
  assert (db_ok mem_state) as H0 by apply fresh_db_ok.
  destruct (AddBalance_step mem_state 1 100 (proj1 H0)) as [es H1].
  destruct (SetCode_step (AddBalance mem_state 1 100) 0x77 (Some code)) as [es' H2]; [apply H1|].
  eapply frame_db_ok; [exact H0|]. eapply frame_trans; eexists; apply step_frame; eassumption.
Qed.
