(* ===== verification/EvmFrame.v ===== *)
(** * The machine changes the state only through the journal

    Every computation of the machine is a frame of the state database: what it changed
    can be undone by the journal, and the snapshots of the callers stay valid.  Together
    with the snapshots the calls take, a failed call leaves the state as it was. *)

From S2P Require Import Prelude Bytes Params RlpEncode RlpRaw Common AccessList.
From S2P Require Import StateDB StateEquiv StateRevert StateSteps StateRefine StateFrame.
From S2P Require Import EvmWord EvmBase Precompiles EvmState EvmCalls EvmGas EvmOps EvmTables EvmRun EvmSample.

(** ** Computations that respect a relation *)

Section respects.
Context {S : Type} (I : S → Prop) (R : S → S → Prop).

Definition respects {A} (m : stm S A) : Prop := ∀ s a s', I s → m s = Done (a, s') → R s s'.

(** [R] is a preorder on the states that satisfy [I], which it preserves. *)
Class Frames : Prop := {
  frames_refl : ∀ s, I s → R s s;
  frames_trans : ∀ s1 s2 s3, R s1 s2 → R s2 s3 → R s1 s3;
  frames_inv : ∀ s s', I s → R s s' → I s';
}.

Context {Fr : Frames}.

Lemma respects_ret {A} (a : A) : respects (mret a).
Proof. intros s ? s' Hi [= <- <-]. by apply frames_refl. Qed.

Lemma respects_bind {A B} (m : stm S A) (f : A → stm S B) :
  respects m → (∀ a, respects (f a)) → respects (m ≫= f).
Proof.
  intros Hm Hf s b s' Hi (a & s1 & H1 & H2)%stm_bind_Done.
  assert (R s s1) by eauto. eapply frames_trans; [done|].
  eapply Hf; [|done]. by eapply frames_inv.
Qed.

Lemma respects_gets {A} (f : S → A) : respects (gets f).
Proof. intros s a s' Hi [= <- <-]. by apply frames_refl. Qed.

Lemma respects_lift {A} (r : res A) : respects (lift r).
Proof. intros s a s' Hi H. unfold lift in H. destruct r; [|done]. injection H as <- <-. by apply frames_refl. Qed.

Lemma respects_modify (f : S → S) : (∀ s, I s → R s (f s)) → respects (modify f).
Proof. intros Hf s a s' Hi [= <- <-]. auto. Qed.

End respects.

Create HintDb keeps.

(** ** Frames of the state database *)

Section keeps.
Context {Cr : Crypto} {NC : NativeCrypto} {DB : Database} {U : Uint256} {GR : GoRuntime}.

Definition iok (i : Interp) : Prop := db_ok (evm_StateDB i).
Definition iframe (i i' : Interp) : Prop := frame (evm_StateDB i) (evm_StateDB i').
Definition mok (m : Machine) : Prop := iok (m_in m).
Definition mframe (m m' : Machine) : Prop := iframe (m_in m) (m_in m').

Abbreviation ikeeps := (respects iok iframe).
Abbreviation mkeeps := (respects mok mframe).

#[global] Instance iframes : Frames iok iframe.
Proof.
  constructor.
  - intros i [Hi _]. by apply frame_refl.
  - intros i1 i2 i3. apply frame_trans.
  - intros i i' Hi Hf. by eapply frame_db_ok.
Qed.

#[global] Instance mframes : Frames mok mframe.
Proof.
  constructor.
  - intros m Hm. by apply (frames_refl iok iframe).
  - intros m1 m2 m3. apply (frames_trans iok iframe).
  - intros m m'. apply (frames_inv iok iframe).
Qed.

Lemma keeps_get {A} (f : StateDB → A * StateDB) : (∀ s, quiet s (f s).2) → ikeeps (db_get f).
Proof.
  intros Hf i a i' [Hi _] H. unfold db_get in H. specialize (Hf (evm_StateDB i)).
  destruct (f (evm_StateDB i)) as [x s]. injection H as <- <-. by apply quiet_frame.
Qed.

Lemma keeps_read {A} (f : StateDB → A * StateDB) : reader f → ikeeps (db_get f).
Proof. intros [Hq _]. by apply keeps_get. Qed.

Lemma keeps_do f : (∀ s, sdb_wf s → ∃ es, step_ok s (f s) es) → ikeeps (db_do f).
Proof. intros Hf i a i' [Hi _] [= <- <-]. apply step_frame_ex, Hf, Hi. Qed.

Lemma keeps_try f : (∀ s s', sdb_wf s → f s = Ok s' → ∃ es, step_ok s s' es) → ikeeps (db_try f).
Proof.
  intros Hf i a i' [Hi _] H. unfold db_try in H.
  destruct (f (evm_StateDB i)) eqn:E; [|done]. injection H as <- <-. apply step_frame_ex. by eapply Hf.
Qed.

Lemma keeps_interp {A} (f : stm Interp A) : ikeeps f → mkeeps (interp f).
Proof.
  intros Hf m a m' Hm H. unfold interp in H. destruct (f (m_in m)) as [[x i]| |] eqn:E; [|done..].
  injection H as <- <-. by eapply Hf.
Qed.

(** A change that leaves the database alone. *)
Lemma keeps_imodify (f : Interp → Interp) :
  (∀ i, evm_StateDB (f i) = evm_StateDB i) → ikeeps (modify f).
Proof. intros Hf. apply respects_modify. intros i Hi. unfold iframe. rewrite Hf. by apply frame_refl, Hi. Qed.

Lemma keeps_mmodify (f : Machine → Machine) : (∀ m, m_in (f m) = m_in m) → mkeeps (modify f).
Proof. intros Hf. apply respects_modify. intros m Hm. unfold mframe. rewrite Hf. by apply frame_refl, Hm. Qed.

(** A computation of the frame that does not touch the interpreter. *)
Lemma keeps_local {A} (f : stm Machine A) :
  (∀ m a m', f m = Done (a, m') → m_in m' = m_in m) → mkeeps f.
Proof. intros Hf m a m' Hm H%Hf. unfold mframe. rewrite H. by apply frame_refl, Hm. Qed.

Lemma keeps_pop : mkeeps pop.
Proof. apply keeps_local. intros m a m'. unfold pop. by destruct (st_pop _) as [[x st]|]; intros [= <- <-]. Qed.
Lemma keeps_peek : mkeeps peek.
Proof. apply keeps_local. intros m a m'. unfold peek. by destruct (st_peek _); intros [= <- <-]. Qed.
Lemma keeps_push x : mkeeps (push x).
Proof. by apply keeps_mmodify. Qed.
Lemma keeps_set_top x : mkeeps (set_top x).
Proof. by apply keeps_mmodify. Qed.
Lemma keeps_on_con f : mkeeps (on_con f).
Proof. by apply keeps_mmodify. Qed.
Lemma keeps_mem_try f : mkeeps (mem_try f).
Proof. apply keeps_local. intros m a m'. unfold mem_try. by destruct (f _); intros [= <- <-]. Qed.
Lemma keeps_mem_read {A} (f : Memory → res A) : mkeeps (mem_read f).
Proof. apply keeps_local. intros m a m'. unfold mem_read. by destruct (f _); intros [= <- <-]. Qed.
Lemma keeps_back n : mkeeps (back n).
Proof. apply keeps_local. intros m a m'. unfold back. by destruct (st_Back _ _); intros [= <- <-]. Qed.
Lemma keeps_slot_in_list a k : mkeeps (slot_in_list a k).
Proof. apply keeps_local. intros m x m'. unfold slot_in_list. by destruct (SlotInAccessList _ _ _); intros [= <- <-]. Qed.
Lemma keeps_dup n : mkeeps (makeDup n).
Proof. apply keeps_local. intros m a m'. unfold makeDup. by destruct (st_dup _ _); intros [= <- <-]. Qed.
Lemma keeps_swap n : mkeeps (makeSwap n).
Proof. apply keeps_local. intros m a m'. unfold makeSwap. by destruct (st_swap _ _); intros [= <- <-]. Qed.

Lemma keeps_CanTransfer a v : ikeeps (db_get (CanTransfer a v)).
Proof.
  apply keeps_get. intros s. unfold CanTransfer.
  pose proof (r_quiet _ (GetBalance_reader a) s) as H. cbv beta in H. by destruct (GetBalance s a).
Qed.

Lemma keeps_Transfer a b v : ikeeps (db_do (Transfer a b v)).
Proof.
  apply keeps_do. intros s Hs. destruct (SubBalance_step s a v Hs) as [es H1].
  destruct (AddBalance_step (SubBalance s a v) b v) as [es' H2]; [apply H1|].
  eexists. by eapply step_trans.
Qed.

End keeps.

#[global] Hint Resolve keeps_pop keeps_peek keeps_push keeps_set_top keeps_on_con keeps_mem_try
  keeps_mem_read keeps_back keeps_slot_in_list keeps_dup keeps_swap keeps_CanTransfer keeps_Transfer
  GetCodeSize_quiet Exist_reader Empty_reader GetBalance_reader GetNonce_reader GetCodeHash_reader
  HasSelfDestructed_reader GetCode_reader GetState_reader GetCommittedState_reader
  AddBalance_step SubBalance_step SetNonce_step SetCode_step SetState_step SelfDestruct_step
  Selfdestruct6780_step CreateAccount_step SetTransientState_step AddPreimage_step AddRefund_step
  SubRefund_step AddLog_step AddAddressToAccessList_step AddSlotToAccessList_step : keeps.

(** Decompose a computation into its parts. *)
Ltac keeps_step :=
  match goal with
  | |- respects _ _ (mret _) => apply respects_ret; apply _
  | |- respects _ _ (gets _) => apply respects_gets; apply _
  | |- respects _ _ (lift _) => apply respects_lift; apply _
  | |- respects _ _ (_ ≫= _) => apply respects_bind; [apply _| |intros ?]
  | |- respects _ _ (interp _) => apply keeps_interp
  | |- respects _ _ (db_get _) => first [by auto with keeps | apply keeps_read; by auto with keeps
                                          | apply keeps_get; by auto with keeps]
  | |- respects _ _ (db_do _) => first [by auto with keeps | apply keeps_do; by auto with keeps]
  | |- respects _ _ (db_try _) => apply keeps_try; by eauto with keeps
  | |- respects _ _ (modify _) => first [by apply keeps_imodify | by apply keeps_mmodify]
  | |- respects _ _ (match ?x with _ => _ end) => destruct x
  | |- respects _ _ (let '(_, _) := ?x in _) => destruct x
  | |- respects _ _ _ => solve [auto with keeps]
  end.
Ltac solve_keeps := repeat keeps_step.

(** ** Instructions *)

Section instructions.
Context {Cr : Crypto} {NC : NativeCrypto} {DB : Database} {U : Uint256} {GR : GoRuntime}.
Variable evm : EVM.

Lemma keeps_gas_err e : respects mok mframe (gas_err e).
Proof. unfold gas_err. solve_keeps. Qed.
Lemma keeps_gas_ok g : respects mok mframe (gas_ok g).
Proof. unfold gas_ok. solve_keeps. Qed.
#[local] Hint Resolve keeps_gas_err keeps_gas_ok : keeps.

Lemma keeps_then_gas m k :
  respects mok mframe m → (∀ g, respects mok mframe (k g)) → respects mok mframe (then_gas m k).
Proof. intros. unfold then_gas. solve_keeps; auto. Qed.

Lemma keeps_add_gas g x k : (∀ g, respects mok mframe (k g)) → respects mok mframe (add_gas g x k).
Proof. intros. unfold add_gas. solve_keeps; auto. Qed.

Lemma keeps_memoryGasCost n : respects mok mframe (memoryGasCost n).
Proof. unfold memoryGasCost. solve_keeps. Qed.
Lemma keeps_per_word p x g : respects mok mframe (per_word p x g).
Proof. unfold per_word. solve_keeps. apply keeps_add_gas. intros. solve_keeps. Qed.
Lemma keeps_with_call_gas g : respects mok mframe (with_call_gas g).
Proof. unfold with_call_gas. solve_keeps. apply keeps_add_gas. intros. solve_keeps. Qed.
Lemma keeps_self_addr : respects mok mframe self_addr.
Proof. unfold self_addr. solve_keeps. Qed.
Lemma keeps_addr_in_list a : respects mok mframe (addr_in_list a).
Proof. unfold addr_in_list. solve_keeps. Qed.
Lemma keeps_refunds o c v x y z : respects iok iframe (sstore_dirty_refunds o c v x y z).
Proof. unfold sstore_dirty_refunds. solve_keeps. Qed.

End instructions.

#[global] Hint Resolve keeps_gas_err keeps_gas_ok keeps_memoryGasCost keeps_per_word
  keeps_with_call_gas keeps_self_addr keeps_addr_in_list keeps_refunds : keeps.

Ltac head_of t := lazymatch t with ?f _ => head_of f | _ => t end.

(** The parts of an instruction; a part that is a definition is unfolded. *)
Ltac keeps_instr :=
  first [ keeps_step
        | match goal with
          | |- respects _ _ (then_gas _ _) => apply keeps_then_gas; [|intros ?]
          | |- respects _ _ (add_gas _ _ _) => apply keeps_add_gas; intros ?
          | |- respects _ _ ?t => let h := head_of t in unfold h; cbv beta
          end ].
Ltac solve_instr := repeat keeps_instr.

(** ** Calls *)

Section calls.
Context {Cr : Crypto} {NC : NativeCrypto} {DB : Database} {U : Uint256} {GR : GoRuntime}.
Variable run : run_fun.
Hypothesis run_keeps : ∀ c input ro par, respects iok iframe (run c input ro par).
#[local] Hint Resolve run_keeps : keeps.

Abbreviation ikeeps := (respects iok iframe).
Implicit Types (s : StateDB) (i : Interp).

(** A call is a frame, and when it fails the database equals the one before. *)
Definition call_ok {A} (err : A → option vm_error) (m : stm Interp A) : Prop := ∀ i r i',
  iok i → m i = Done (r, i') →
  iframe i i' ∧ (is_Some (err r) → state_equiv (evm_StateDB i') (evm_StateDB i)).

(** The rest of a call that took its snapshot in the database [s]. *)
Definition guarded {A} (err : A → option vm_error) s (m : stm Interp A) : Prop := ∀ i r i',
  iok i → frame (Snapshot s).2 (evm_StateDB i) → m i = Done (r, i') →
  frame s (evm_StateDB i') ∧ (is_Some (err r) → state_equiv (evm_StateDB i') s).

Lemma guarded_finish s r : db_ok s → guarded cr_err s (finish_call (Snapshot s).1 r).
Proof.
  intros Hs i r' i' Hi Hf H. unfold finish_call in H. destruct (cr_err r) as [e|] eqn:E.
  - apply stm_bind_Done in H as ([] & i1 & H & [= <- <-]). unfold db_try in H.
    destruct (frame_revert s (evm_StateDB i) Hs Hf) as (s3 & Hr & Heq & Hfr & _).
    rewrite Hr in H. injection H as <-. simpl. split; [by exists []|done].
  - injection H as <- <-. split; [|rewrite E; by intros []].
    eapply frame_trans; [apply Snapshot_frame, Hs|done].
Qed.

Lemma guarded_ok {A} err s (r : A) : db_ok s → err r = None → guarded err s (mret r).
Proof.
  intros Hs He i r' i' Hi Hf [= <- <-]. split; [|rewrite He; by intros []].
  eapply frame_trans; [apply Snapshot_frame, Hs|done].
Qed.

Lemma guarded_bind {A B} err s (m : stm Interp A) (k : A → stm Interp B) :
  ikeeps m → (∀ a, guarded err s (k a)) → guarded err s (m ≫= k).
Proof.
  intros Hm Hk i r i' Hi Hf (a & i1 & H1 & H2)%stm_bind_Done.
  assert (iframe i i1) by eauto. eapply (Hk a i1); [|by eapply frame_trans|done].
  by eapply (frames_inv iok iframe).
Qed.

(** From the snapshot on. *)
Lemma call_ok_snapshot {A} err (k : Z → stm Interp A) :
  (∀ s, db_ok s → guarded err s (k (Snapshot s).1)) → call_ok err (snap ← db_get Snapshot; k snap).
Proof.
  intros Hk i r i' Hi (a & i1 & H1 & H2)%stm_bind_Done. unfold db_get in H1.
  destruct (Snapshot (evm_StateDB i)) as [id s1] eqn:E. injection H1 as <- <-.
  pose proof (Snapshot_frame _ (proj1 Hi)) as Hf. rewrite E in Hf. simpl in Hf.
  specialize (Hk _ Hi). rewrite E in Hk. assert (db_ok s1) as H1 by (by apply (frame_db_ok _ _ Hi)).
  apply (Hk (set_StateDB i s1)); [exact H1|rewrite E; exact (frame_refl s1 (proj1 H1))|done].
Qed.

(** Readers before it. *)
Lemma call_ok_read {A B} err (f : StateDB → A * StateDB) (k : A → stm Interp B) :
  (∀ s, quiet s (f s).2) → (∀ a, call_ok err (k a)) → call_ok err (a ← db_get f; k a).
Proof.
  intros Hq Hk i r i' Hi (a & i1 & H1 & H2)%stm_bind_Done. unfold db_get in H1. specialize (Hq (evm_StateDB i)).
  destruct (f (evm_StateDB i)) as [x s1]. injection H1 as <- <-. simpl in Hq.
  assert (frame (evm_StateDB i) s1) as Hf by (apply quiet_frame; [apply Hi|done]).
  destruct (Hk x (set_StateDB i s1) r i') as [H3 H4]; [by eapply frame_db_ok|done|].
  split; [by eapply frame_trans|]. intros He. etrans; [by apply H4|]. apply Hq.
Qed.

Lemma call_ok_ret {A} err (r : A) : call_ok err (mret r).
Proof. intros i r' i' Hi [= <- <-]. split; [by apply frame_refl, Hi|done]. Qed.

Lemma call_ok_gets {A B} err (f : Interp → A) (k : A → stm Interp B) :
  (∀ a, call_ok err (k a)) → call_ok err (a ← gets f; k a).
Proof. intros Hk i r i' Hi H. exact (Hk (f i) i r i' Hi H). Qed.

Lemma CanTransfer_quiet a v s : quiet s (CanTransfer a v s).2.
Proof.
  unfold CanTransfer. pose proof (r_quiet _ (GetBalance_reader a) s) as H. cbv beta in H.
  by destruct (GetBalance s a).
Qed.

Lemma keeps_NewContract c o v g : ikeeps (NewContract c o v g).
Proof. unfold NewContract. solve_keeps. Qed.
Lemma keeps_run_precompile p d g c : ikeeps (run_precompile p d g c).
Proof. unfold run_precompile. solve_keeps. Qed.
Lemma keeps_run_code c a d ro p : ikeeps (run_code run c a d ro p).
Proof. unfold run_code. solve_keeps. Qed.
#[local] Hint Resolve keeps_NewContract keeps_run_precompile keeps_run_code : keeps.

(** A snapshot, a reader, and either an immediate return or the rest of a call. *)
Lemma call_ok_snapshot_read {A} (f : StateDB → A * StateDB) (k : Z → A → stm Interp call_result) :
  (∀ s, quiet s (f s).2) →
  (∀ s a, db_ok s → (∃ r, k (Snapshot s).1 a = mret r) ∨ guarded cr_err s (k (Snapshot s).1 a)) →
  call_ok cr_err (snap ← db_get Snapshot; a ← db_get f; k snap a).
Proof.
  intros Hq Hk i r i' Hi (snap & i1 & H1 & (a & i2 & H2 & H3)%stm_bind_Done)%stm_bind_Done.
  pose proof (Snapshot_frame _ (proj1 Hi)) as Hf. specialize (Hk _ a Hi).
  assert (snap = (Snapshot (evm_StateDB i)).1 ∧ i1 = set_StateDB i (Snapshot (evm_StateDB i)).2) as [-> ->].
  { unfold db_get in H1. destruct (Snapshot (evm_StateDB i)). by injection H1 as <- <-. }
  assert (quiet (Snapshot (evm_StateDB i)).2 (evm_StateDB i2)) as Hq2.
  { unfold db_get in H2. specialize (Hq (Snapshot (evm_StateDB i)).2). simpl in H2.
    destruct (f _). by injection H2 as <- <-. }
  assert (db_ok (Snapshot (evm_StateDB i)).2) as Hok by (by eapply frame_db_ok).
  assert (frame (Snapshot (evm_StateDB i)).2 (evm_StateDB i2)) as Hf2 by (apply quiet_frame; [apply Hok|done]).
  destruct Hk as [[r' Hr]|Hg].
  - rewrite Hr in H3. injection H3 as <- <-. split; [by eapply frame_trans|]. intros _.
    etrans; [apply Hq2|]. by apply state_equiv_ext.
  - eapply Hg; [|done..]. by eapply frame_db_ok.
Qed.

(** The errors of a creation about the code it returned; the others undo its changes. *)
Definition code_error (e : vm_error) : bool :=
  match e with
  | errors_New s => String.eqb s "max code size exceeded"
                    || String.eqb s "contract creation code storage out of gas"
  | _ => false
  end.
Definition undoing_err (r : call_result * Address) : option vm_error :=
  match cr_err r.1 with Some e => if code_error e then None else Some e | None => None end.

Lemma guarded_finish_create s a r :
  db_ok s → guarded undoing_err s (finish_create (Snapshot s).1 a r).
Proof.
  intros Hs. unfold finish_create. destruct (rr_err r).
  - intros i r' i' Hi Hf ([] & i1 & H & [= <- <-])%stm_bind_Done. unfold db_try in H.
    destruct (frame_revert s (evm_StateDB i) Hs Hf) as (s3 & Hr & Heq & Hfr & _).
    rewrite Hr in H. injection H as <-. split; [by exists []|done].
  - destruct (_ <? _); [by apply guarded_ok|]. destruct (UseGas _ _) as [[] c]; [|by apply guarded_ok].
    apply guarded_bind; [solve_keeps|]. intros _. by apply guarded_ok.
Qed.

Ltac solve_guarded :=
  repeat match goal with
  | |- guarded _ _ (finish_call _ _) => by apply guarded_finish
  | |- guarded _ _ (finish_create _ _ _) => by apply guarded_finish_create
  | |- guarded _ _ (mret _) => by apply guarded_ok
  | |- guarded _ _ (_ ≫= _) => apply guarded_bind; [solve_keeps|intros ?]
  | |- guarded _ _ (match ?x with _ => _ end) => destruct x
  end.

Lemma Call_call_ok c a input g v p : call_ok cr_err (Call run c a input g v p).
Proof.
  unfold Call. apply call_ok_gets. intros d. destruct (_ <? d); [apply call_ok_ret|].
  assert (∀ can k, (∀ b, call_ok cr_err (k b)) →
    call_ok cr_err (can ← (if v =? 0 then mret can else db_get (CanTransfer (ref_Address c) v)); k can)) as Hcan.
  { intros can k Hk. destruct (v =? 0); [intros i r i' Hi H; exact (Hk can i r i' Hi H)|].
    apply call_ok_read; [apply CanTransfer_quiet|done]. }
  apply Hcan. intros can. destruct (negb can); [apply call_ok_ret|].
  apply call_ok_snapshot_read; [apply (r_quiet _ (Exist_reader a))|]. intros s ex Hs.
  destruct (negb ex && bool_decide (precompile a = None) && (v =? 0)); [left; by eexists|right].
  solve_guarded.
Qed.

Lemma CallCode_call_ok c a input g v p : call_ok cr_err (CallCode run c a input g v p).
Proof.
  unfold CallCode. apply call_ok_gets. intros d. destruct (_ <? d); [apply call_ok_ret|].
  apply call_ok_read; [apply CanTransfer_quiet|]. intros can. destruct (negb can); [apply call_ok_ret|].
  apply call_ok_snapshot. intros s Hs. solve_guarded.
Qed.

Lemma DelegateCall_call_ok c a input g p : call_ok cr_err (DelegateCall run c a input g p).
Proof.
  unfold DelegateCall. apply call_ok_gets. intros d. destruct (_ <? d); [apply call_ok_ret|].
  apply call_ok_snapshot. intros s Hs. solve_guarded.
Qed.

Lemma StaticCall_call_ok c a input g p : call_ok cr_err (StaticCall run c a input g p).
Proof.
  unfold StaticCall. apply call_ok_gets. intros d. destruct (_ <? d); [apply call_ok_ret|].
  apply call_ok_snapshot. intros s Hs. solve_guarded.
Qed.

Lemma call_ok_keeps {A} err (m : stm Interp A) : call_ok err m → ikeeps m.
Proof. intros Hm i r i' Hi H. by eapply Hm. Qed.

(** A creation from the nonce on. *)
Lemma create_tail_ok c ch g v a p : call_ok undoing_err
  (contractHash ← db_get (λ s, GetCodeHash s a);
   n ← db_get (λ s, GetNonce s a);
   if negb (n =? 0) || (negb (contractHash =? 0) && negb (contractHash =? EmptyCodeHash))
   then mret (mkCall [] g true (Some (errors_New "contract address collision")), a)
   else
     snapshot ← db_get Snapshot;
     _ ← db_do (λ s, CreateAccount s a);
     _ ← db_do (Transfer (ref_Address c) a v);
     contract ← NewContract c a (Some v) g;
     r ← run (SetCodeOptionalHash contract a ch) [] false p;
     finish_create snapshot a r).
Proof.
  apply call_ok_read; [apply (r_quiet _ (GetCodeHash_reader a))|]. intros h.
  apply call_ok_read; [apply (r_quiet _ (GetNonce_reader a))|]. intros n.
  destruct (_ || _); [apply call_ok_ret|]. apply call_ok_snapshot. intros s Hs. solve_guarded.
Qed.

Lemma db_get_done {A} (f : StateDB → A * StateDB) i a i' :
  db_get f i = Done (a, i') → a = (f (evm_StateDB i)).1 ∧ evm_StateDB i' = (f (evm_StateDB i)).2.
Proof. unfold db_get. destruct (f (evm_StateDB i)). by intros [= <- <-]. Qed.

(** The database after a creation: either as before, or with the creator's nonce counted
    up, or changed by a creation that went through or failed on its code. *)
Lemma create_cases c ch g v a p i r i' : iok i → create run c ch g v a p i = Done (r, i') →
  let s := evm_StateDB i in let s' := evm_StateDB i' in
  frame s s' ∧ (is_Some (undoing_err r) →
    state_equiv s' s
    ∨ state_equiv s' (SetNonce s (ref_Address c) (((GetNonce s (ref_Address c)).1 + 1)%u64))).
Proof.
  intros Hi H. cbv zeta. unfold create in H. apply stm_bind_Done in H as (d & i0 & [= <- <-] & H).
  destruct (_ <? _); [injection H as <- <-; split; [by apply frame_refl, Hi|by left]|].
  apply stm_bind_Done in H as (can & i1 & H1 & H).
  assert (quiet (evm_StateDB i) (evm_StateDB i1)) as Hq1.
  { apply db_get_done in H1 as [_ ->]. apply CanTransfer_quiet. }
  assert (frame (evm_StateDB i) (evm_StateDB i1)) as Hf1 by (apply quiet_frame; [apply Hi|done]).
  destruct (negb can); [injection H as <- <-; split; [done|left; apply Hq1]|].
  apply stm_bind_Done in H as (nonce & i2 & (Hn & H2)%db_get_done & H).
  assert (iok i1) as Hi1 by (by eapply frame_db_ok).
  pose proof (r_quiet _ (GetNonce_reader (ref_Address c)) (evm_StateDB i1)) as Hq2. cbv beta in Hq2.
  rewrite <- H2 in Hq2.
  assert (frame (evm_StateDB i1) (evm_StateDB i2)) as Hf2 by (apply quiet_frame; [apply Hi1|done]).
  assert (iok i2) as Hi2 by (by eapply frame_db_ok).
  assert (state_equiv (evm_StateDB i2) (evm_StateDB i)) as Heq by (etrans; [apply Hq2|apply Hq1]).
  destruct (_ <? nonce); [injection H as <- <-; split; [by eapply frame_trans|by left]|].
  apply stm_bind_Done in H as ([] & i3 & [= <-] & H).
  destruct (SetNonce_step (evm_StateDB i2) (ref_Address c) (nonce + 1)%u64 (proj1 Hi2)) as [es Hst].
  assert (frame (evm_StateDB i2) (SetNonce (evm_StateDB i2) (ref_Address c) (nonce + 1)%u64)) as Hf3
    by (eexists; by apply step_frame).
  apply create_tail_ok in H as [Hf4 Herr]; [|by eapply frame_db_ok]. unfold iframe in Hf4. simpl in *.
  split; [eapply frame_trans; [exact Hf1|eapply frame_trans; [exact Hf2|eapply frame_trans; [exact Hf3|exact Hf4]]]|].
  intros He. right. etrans; [by apply Herr|].
  rewrite (r_value _ (GetNonce_reader (ref_Address c)) _ (evm_StateDB i)) in Hn by apply Hq1. subst nonce.
  apply SetNonce_equiv; [apply Hi2|done].
Qed.

Lemma create_keeps c ch g v a p : ikeeps (create run c ch g v a p).
Proof. intros i r i' Hi H. by apply create_cases in H as [? _]. Qed.

Lemma calls_keep :
  (∀ c a d g v p, ikeeps (Call run c a d g v p)) ∧ (∀ c a d g v p, ikeeps (CallCode run c a d g v p))
  ∧ (∀ c a d g p, ikeeps (DelegateCall run c a d g p)) ∧ (∀ c a d g p, ikeeps (StaticCall run c a d g p))
  ∧ (∀ c d g v p, ikeeps (Create run c d g v p)) ∧ (∀ c d g v x p, ikeeps (Create2 run c d g v x p)).
Proof.
  split_and!; intros; try (eapply call_ok_keeps; first
    [apply Call_call_ok | apply CallCode_call_ok | apply DelegateCall_call_ok | apply StaticCall_call_ok]).
  - unfold Create. apply respects_bind; [apply _|solve_keeps|intros n; apply create_keeps].
  - apply create_keeps.
Qed.

End calls.

Section table.
Context {Cr : Crypto} {NC : NativeCrypto} {DB : Database} {U : Uint256} {GR : GoRuntime}.
Variable evm : EVM.
Variable run : run_fun.

Abbreviation ikeeps := (respects iok iframe).
Abbreviation mkeeps := (respects mok mframe).

Record op_keeps (o : operation) : Prop := {
  ok_execute : ∀ f, execute o = Some f → mkeeps f;
  ok_executeAL : ∀ f p, executeAL o = Some f → mkeeps (f p);
  ok_dynamicGas : ∀ g n, dynamicGas o = Some g → mkeeps (g n);
}.

Definition table_keeps (jt : JumpTable) : Prop := ∀ op, op_keeps (jt op).

Lemma simple_keeps f gas x y : mkeeps f → op_keeps (simple f gas x y).
Proof. intros Hf. constructor; simpl; [intros ? [= <-]; done | done..]. Qed.
Lemma metered_keeps f gas g x y : mkeeps f → (∀ n, mkeeps (g n)) → op_keeps (metered f gas g x y).
Proof. intros Hf Hg. constructor; simpl; [intros ? [= <-]; done | done | intros ? n [= <-]; auto]. Qed.
Lemma sized_keeps f gas g sz x y : mkeeps f → (∀ n, mkeeps (g n)) → op_keeps (sized f gas g sz x y).
Proof. intros Hf Hg. constructor; simpl; [intros ? [= <-]; done | done | intros ? n [= <-]; auto]. Qed.
Lemma calling_keeps f gas g sz x y :
  (∀ p, mkeeps (f p)) → (∀ n, mkeeps (g n)) → op_keeps (calling f gas g sz x y).
Proof. intros Hf Hg. constructor; simpl; [done | intros ? p [= <-]; auto | intros ? n [= <-]; auto]. Qed.

Lemma undefined_keeps : op_keeps undefined_op.
Proof. constructor; simpl; [intros ? [= <-]; solve_instr | done..]. Qed.

Lemma pop_topics_keeps n : mkeeps (pop_topics n).
Proof. induction n; simpl; solve_instr. Qed.
#[local] Hint Resolve pop_topics_keeps : keeps.

(** The instructions that call need the interpreter to respect the journal. *)
Hypothesis run_keeps : ∀ c input ro par, ikeeps (run c input ro par).
#[local] Hint Resolve run_keeps : keeps.

Lemma frontier_keeps : table_keeps (newFrontierInstructionSet evm run).
Proof.
  destruct (calls_keep run run_keeps) as (?&?&?&?&?&?).
  intros op. destruct op; simpl;
    first [ apply simple_keeps | apply metered_keeps; [|intros ?] | apply sized_keeps; [|intros ?]
          | apply calling_keeps; [intros ?|intros ?] | apply undefined_keeps
          | constructor; simpl; [intros ? [= <-] | done..] ];
    solve_instr.
Qed.

Lemma set_op_keeps op o jt : op_keeps o → table_keeps jt → table_keeps (set_op op o jt).
Proof. intros Ho Hj x. unfold set_op. by destruct (op_eqb x op). Qed.
Lemma set_const_keeps op g jt : table_keeps jt → table_keeps (set_const op g jt).
Proof. intros Hj x. unfold set_const. destruct (Hj x). by destruct (op_eqb x op). Qed.
Lemma set_dyn_keeps op g jt : (∀ n, mkeeps (g n)) → table_keeps jt → table_keeps (set_dyn op g jt).
Proof.
  intros Hg Hj x. unfold set_dyn. destruct (Hj x). destruct (op_eqb x op); [|done].
  constructor; simpl; [done|done|intros ? n [= <-]; auto].
Qed.

Lemma old_gas_keeps g : (∀ n, mkeeps (g n)) → ∀ n, mkeeps (makeCallVariantGasCallEIP2929 g n).
Proof. intros Hg n. unfold makeCallVariantGasCallEIP2929. solve_instr. Qed.

Lemma EnableEIP_keeps n jt jt' : EnableEIP evm n jt = Some jt' → table_keeps jt → table_keeps jt'.
Proof.
  intros H Hj. unfold EnableEIP in H.
  repeat match type of H with (if ?b then _ else _) = _ => destruct b; [injection H as <-|] end; [..|done].
  all: unfold enable5656, enable6780, enable3855, enable3860, enable3529, enable3198, enable2929,
         enable2200, enable1884, enable1344, enable1153, set_gas.
  all: repeat first [ apply set_op_keeps | apply set_const_keeps | apply set_dyn_keeps; [intros ?|] | done ].
  all: try first [ apply simple_keeps | apply metered_keeps; [|intros ?] | apply sized_keeps; [|intros ?] ].
  all: try (apply old_gas_keeps; intros ?).
  all: solve_instr.
Qed.

Lemma interpreter_table_keeps : table_keeps (interpreter_table evm run).
Proof.
  unfold interpreter_table. generalize frontier_keeps. generalize (newFrontierInstructionSet evm run).
  induction (ExtraEips evm) as [|e es IH]; intros jt Hj; simpl; [done|]. apply IH.
  destruct (EnableEIP evm e jt) eqn:E; simpl; [|done]. by eapply EnableEIP_keeps.
Qed.

(** ** The loop *)

Lemma track_access_keeps op p c : mkeeps (track_access op p c).
Proof. unfold track_access. solve_instr. Qed.

Lemma charge_dynamic_keeps o : op_keeps o → mkeeps (charge_dynamic o).
Proof.
  intros [_ _ Hg]. unfold charge_dynamic. destruct (dynamicGas o) as [g|] eqn:E; [|solve_instr].
  assert (∀ n, mkeeps (g n)) by eauto. solve_instr.
Qed.

Lemma perform_keeps op o p c r : op_keeps o → mkeeps (perform op o p c r).
Proof.
  intros [He Ha _].
  assert (mkeeps (call_exec o)) by (unfold call_exec; destruct (execute o); [auto|solve_instr]).
  assert (∀ p, mkeeps (call_AL o p)) by (intros; unfold call_AL; destruct (executeAL o); [auto|solve_instr]).
  unfold perform. solve_instr.
Qed.

Lemma step_keeps jt p c r : table_keeps jt → mkeeps (step jt p c r).
Proof.
  intros Hj. unfold step. apply respects_bind; [apply _|solve_instr|intros m].
  assert (op_keeps (jt (op_of_byte (GetOp (m_con m) (m_pc m))))) as Ho by apply Hj.
  pose proof (charge_dynamic_keeps _ Ho). pose proof (λ op p c r, perform_keeps op _ p c r Ho).
  pose proof track_access_keeps. solve_instr.
Qed.

End table.

Section run.
Context {Cr : Crypto} {NC : NativeCrypto} {DB : Database} {U : Uint256} {GR : GoRuntime}.
Variable evm : EVM.

Lemma run_with_keeps lp : (∀ p c r, respects mok mframe (lp p c r)) →
  ∀ c input ro p, respects iok iframe (run_with lp c input ro p).
Proof.
  intros Hl c input ro p i r i' Hi H. unfold run_with in H.
  assert (∀ j, evm_StateDB (enter ro j) = evm_StateDB j) as Henter
    by (intros; unfold enter; by destruct (ro && _)).
  assert (∀ b j, evm_StateDB (leave ro b j) = evm_StateDB j) as Hleave
    by (intros; unfold leave; by destruct (ro && _)).
  destruct (_ =? 0).
  - injection H as <- <-. unfold iframe. rewrite Hleave, Henter. by apply frame_refl, Hi.
  - destruct (lp _ _ _ _) as [[[[ret err] can] m]| |] eqn:E; [|done..]. injection H as <- <-.
    unfold iframe. rewrite Hleave. apply Hl in E; [|unfold mok, iok; simpl; by rewrite Henter].
    unfold mframe, iframe in E. simpl in E. by rewrite Henter in E.
Qed.

Lemma loop_keeps n : ∀ p c r, respects mok mframe (loop evm n p c r).
Proof.
  induction n as [|n IH]; intros p c r; simpl; [done|]. unfold loop_round.
  apply respects_bind; [apply _| |].
  - apply step_keeps, interpreter_table_keeps, run_with_keeps, IH.
  - intros [c' r'|ret err c']; [apply IH|solve_instr].
Qed.

Lemma Run_keeps n c input ro p : respects iok iframe (Run evm n c input ro p).
Proof. apply run_with_keeps, loop_keeps. Qed.

End run.

(** ** Failed calls *)

Section failed.
Context {Cr : Crypto} {NC : NativeCrypto} {DB : Database} {U : Uint256} {GR : GoRuntime}.

(** C2: [EVM.Call] of the real interpreter, with any value, input, gas and contract code, at
    any depth of nested calls and creations: when it returns an error, every observation of
    the state database (accounts, storage, code, logs, refund counter, access list, transient
    storage) is what it was before the call, including the value that was transferred; and
    in any case the outer snapshots stay valid. *)
Theorem failed_Call_restores evm fuel caller addr input gas v par i r i' :
  db_ok (evm_StateDB i) →
  Call (Run evm fuel) caller addr input gas v par i = Done (r, i') →
  frame (evm_StateDB i) (evm_StateDB i')
  ∧ (is_Some (cr_err r) → state_equiv (evm_StateDB i') (evm_StateDB i)).
Proof. apply Call_call_ok, Run_keeps. Qed.

(** The same holds of the three other kinds of call: [CallCode], [DelegateCall] and
    [StaticCall]. *)
Theorem failed_code_calls_restore evm fuel caller addr input gas v par i r i' :
  db_ok (evm_StateDB i) →
  CallCode (Run evm fuel) caller addr input gas v par i = Done (r, i')
  ∨ DelegateCall (Run evm fuel) caller addr input gas par i = Done (r, i')
  ∨ StaticCall (Run evm fuel) caller addr input gas par i = Done (r, i') →
  frame (evm_StateDB i) (evm_StateDB i')
  ∧ (is_Some (cr_err r) → state_equiv (evm_StateDB i') (evm_StateDB i)).
Proof.
  intros Hi [H|[H|H]]; revert Hi H.
  - apply CallCode_call_ok, Run_keeps.
  - apply DelegateCall_call_ok, Run_keeps.
  - apply StaticCall_call_ok, Run_keeps.
Qed.

(** A creation that returns an error leaves the state as it was, or with the creator's
    nonce counted up and nothing else changed; except for the two errors about the returned
    code, its size and the price of storing it. *)
Theorem failed_create_restores evm fuel caller ch gas v address par i r a i' e :
  db_ok (evm_StateDB i) →
  create (Run evm fuel) caller ch gas v address par i = Done ((r, a), i') →
  cr_err r = Some e → code_error e = false →
  state_equiv (evm_StateDB i') (evm_StateDB i)
  ∨ state_equiv (evm_StateDB i')
      (SetNonce (evm_StateDB i) (ref_Address caller)
         (((GetNonce (evm_StateDB i) (ref_Address caller)).1 + 1)%u64)).
Proof.
  intros Hi H He Hc. apply create_cases in H as [_ H]; [|intros; apply Run_keeps|done].
  apply H. unfold undoing_err. simpl. rewrite He, Hc. by eexists.
Qed.

End failed.

#[local] Existing Instances toy_crypto mem_database word_model toy_native reference_runtime.

(** A transfer of 5 to a contract that stops at an invalid instruction. *)
Lemma failed_Call_restores_witness :
  match Call (Run sample_evm 10) (AccountRef 1) 0x77 [] 100000 5 true (sample_interp [0xfe]) with
  | Done (r, i') => is_Some (cr_err r) ∧ state_equiv (evm_StateDB i') (sample_state [0xfe])
  | _ => False
  end.
Proof.
  assert (H : match Call (Run sample_evm 10) (AccountRef 1) 0x77 [] 100000 5 true (sample_interp [0xfe]) with
              | Done (r, _) => bool_decide (is_Some (cr_err r)) = true | _ => False end)
    by (vm_compute; reflexivity).
  destruct (Call _ _ _ _ _ _ _ _) as [[r i']| |] eqn:E; [|done..].
  apply bool_decide_eq_true in H.
  pose proof (failed_Call_restores _ _ _ _ _ _ _ _ _ _ _ (sample_interp_ok [0xfe]) E) as [_ Hr].
  split; [exact H|exact (Hr H)].
Defined.

Lemma failed_code_calls_restore_witness :
  match DelegateCall (Run sample_evm 10) (ContractPtr 1 1 (Some 5)) 0x77 [] 100000 true
          (sample_interp [0xfe]) with
  | Done (r, i') => is_Some (cr_err r) ∧ state_equiv (evm_StateDB i') (sample_state [0xfe])
  | _ => False
  end.
Proof.
  assert (H : match DelegateCall (Run sample_evm 10) (ContractPtr 1 1 (Some 5)) 0x77 [] 100000 true
                      (sample_interp [0xfe]) with
              | Done (r, _) => bool_decide (is_Some (cr_err r)) = true | _ => False end)
    by (vm_compute; reflexivity).
  destruct (DelegateCall _ _ _ _ _ _ _) as [[r i']| |] eqn:E; [|done..].
  apply bool_decide_eq_true in H.
  pose proof (failed_code_calls_restore sample_evm 10 _ _ _ _ 0 _ _ _ _ (sample_interp_ok [0xfe])
    (or_intror (or_introl E))) as [_ Hr].
  split; [exact H|exact (Hr H)].
Defined.

(** Init code that stops at an invalid instruction. *)
Lemma failed_create_restores_witness :
  match create (Run sample_evm 10) (AccountRef 1) (mkCodeAndHash [0xfe] 0) 100000 5 0x99 true (sample_interp []) with
  | Done ((r, _), i') =>
      is_Some (cr_err r) ∧
      (state_equiv (evm_StateDB i') (sample_state [])
       ∨ state_equiv (evm_StateDB i') (SetNonce (sample_state []) 1 (((GetNonce (sample_state []) 1).1 + 1)%u64)))
  | _ => False
  end.
Proof.
  assert (H : match create (Run sample_evm 10) (AccountRef 1) (mkCodeAndHash [0xfe] 0) 100000 5 0x99 true
                      (sample_interp []) with
              | Done ((r, _), _) => match cr_err r with Some e => negb (code_error e) | None => false end
              | _ => false end = true) by (vm_compute; reflexivity).
  destruct (create _ _ _ _ _ _ _ _) as [[[r a] i']| |] eqn:E; [|discriminate H..].
  destruct (cr_err r) as [e|] eqn:Er; [|discriminate H]. apply negb_true_iff in H.
  split; [by eexists|].
  exact (failed_create_restores _ _ _ _ _ _ _ _ _ _ _ _ e (sample_interp_ok []) E Er H).
Defined.

(** A creation whose code is too large returns an error and keeps its changes: the
    value stays with the account of the contract that was not created. *)
Theorem oversized_creation_keeps_value :
  match Create (Run sample_evm 10) (AccountRef 1) [0x61; 0x60; 0x01; 0x60; 0; 0xf3] 100000 5 true
          (sample_interp []) with
  | Done ((r, address), i') =>
      (∃ e, cr_err r = Some e ∧ code_error e = true)
      ∧ (GetBalance (evm_StateDB i') 1).1 = 95 ∧ (GetBalance (evm_StateDB i') address).1 = 5
  | _ => False
  end.
Proof.
  assert (H : match Create (Run sample_evm 10) (AccountRef 1) [0x61; 0x60; 0x01; 0x60; 0; 0xf3] 100000 5 true
                      (sample_interp []) with
              | Done ((r, address), i') =>
                  match cr_err r with Some e => code_error e | None => false end
                  && ((GetBalance (evm_StateDB i') 1).1 =? 95)
                  && ((GetBalance (evm_StateDB i') address).1 =? 5)
              | _ => false
              end = true) by (vm_compute; reflexivity).
  destruct (Create _ _ _ _ _ _ _) as [[[r a] i']| |]; [|discriminate H..].
  apply andb_prop in H as [[H1 H2%Z.eqb_eq]%andb_prop H3%Z.eqb_eq].
  destruct (cr_err r) as [e|]; [|discriminate H1]. split; [by exists e|done].
Qed.
