(* ===== verification/EvmMeter.v ===== *)
(** * Gas: no frame gains any, and a parallel run ends when it is spent

    Every round of the interpreter's loop is charged before the instruction runs, the gas
    handed to a call is part of what the caller paid, and what comes back is no more than
    that.  So the gas of a frame never grows; and when the loop runs in parallel mode each
    round that does not halt costs at least one unit, so a run returns or panics within as
    many rounds as it has gas.  In serial mode this fails: an instruction that clears
    [CanParallel] leaves a loop that no longer executes anything. *)

From S2P Require Import Prelude Bytes Params RlpEncode RlpRaw Common AccessList.
From S2P Require Import StateDB EvmWord EvmBase Precompiles EvmState EvmCalls EvmGas EvmOps EvmTables EvmRun.
From S2P Require Import EvmSample EvmFrame.

(** ** A judgement on computations

    [judge R Q m]: [m] returns or panics; when it returns, the states are related by [R]
    and the result satisfies [Q]. *)

Section judge.
Context {S : Type} (R : S → S → Prop) `{!PreOrder R}.

Definition judge {A} (Q : A → Prop) (m : stm S A) : Prop := ∀ s,
  match m s with Done (a, s') => R s s' ∧ Q a | Crash _ => True | OutOfFuel => False end.

Lemma judge_ret {A} (Q : A → Prop) a : Q a → judge Q (mret a).
Proof. intros H s. split; [reflexivity|done]. Qed.
Lemma judge_lift {A} (r : res A) : judge (λ _, True) (lift r).
Proof. intros s. unfold lift. destruct r; [split; [reflexivity|done]|done]. Qed.
Lemma judge_gets {A} (f : S → A) : judge (λ _, True) (gets f).
Proof. intros s. split; [reflexivity|done]. Qed.
Lemma judge_modify (f : S → S) : (∀ s, R s (f s)) → judge (λ _, True) (modify f).
Proof. intros H s. split; [apply H|done]. Qed.

Lemma judge_bind {A B} (P : A → Prop) (Q : B → Prop) (m : stm S A) k :
  judge P m → (∀ a, P a → judge Q (k a)) → judge Q (m ≫= k).
Proof.
  intros Hm Hk s. specialize (Hm s). unfold mbind, stm_bind.
  destruct (m s) as [[a s1]| |]; [|done..]. destruct Hm as [HR HP]. specialize (Hk a HP s1).
  destruct (k a s1) as [[b s2]| |]; [|done..]. split; [etrans; [done|apply Hk]|apply Hk].
Qed.

(** The value of the first part does not matter. *)
Lemma judge_seq {A B} (Q : B → Prop) (m : stm S A) k :
  judge (λ _, True) m → (∀ a, judge Q (k a)) → judge Q (m ≫= k).
Proof. intros Hm Hk. eapply judge_bind; eauto. Qed.

Lemma judge_weaken {A} (P Q : A → Prop) m : (∀ a, P a → Q a) → judge P m → judge Q m.
Proof. intros H Hm s. specialize (Hm s). destruct (m s) as [[]| |]; naive_solver. Qed.

(** Run the first part of a computation. *)
Lemma judge_run {A B} (P : A → Prop) (Post : outcome (B * S) → Prop) (m : stm S A) k s :
  judge P m → (∀ msg, Post (Crash msg)) → (∀ a s1, R s s1 → P a → Post (k a s1)) → Post ((m ≫= k) s).
Proof.
  intros Hm Hc Hk. specialize (Hm s). unfold mbind, stm_bind.
  destruct (m s) as [[a s1]| |]; [|done..]. apply Hk; apply Hm.
Qed.

End judge.

Ltac judge_run R :=
  match goal with
  | |- context [@mbind ?M ?I ?A ?B ?k ?m ?s] =>
      pattern (@mbind M I A B k m s); apply (judge_run R (λ _, True)); [|done|intros ? ? ? _; cbv beta]
  end.

(** ** Computations of the interpreter that make no calls *)

Section metering.
Context {Cr : Crypto} {NC : NativeCrypto} {DB : Database} {U : Uint256} {GR : GoRuntime}.

(** Always related: only the absence of divergence is judged. *)
Definition any {A} (_ _ : A) : Prop := True.
#[global] Instance any_preorder {A} : PreOrder (@any A).
Proof. split; done. Qed.

Abbreviation returns := (judge any (λ _, True)).

Lemma returns_get {A} (f : StateDB → A * StateDB) : returns (db_get f).
Proof. intros i. unfold db_get. by destruct (f _). Qed.
Lemma returns_do f : returns (db_do f).
Proof. done. Qed.
Lemma returns_try f : returns (db_try f).
Proof. intros i. unfold db_try. by destruct (f _). Qed.
Lemma returns_modify (f : Interp → Interp) : returns (modify f).
Proof. done. Qed.

Lemma u64_nonneg x : 0 <= u64 x.
Proof. apply u64_range. Qed.

(** *** The fee for memory

    The fee charged so far is never more than the fee of the memory there is. *)
Definition fee (words : Z) : Z := words * MemoryGas + words * words / QuadCoeffDiv.
Definition mem_paid (mem : Memory) : Prop := 0 <= lastGasCost mem <= fee (mem_Len mem / 32).
Definition same_mem (mem mem' : Memory) : Prop :=
  lastGasCost mem' = lastGasCost mem ∧ mem_Len mem' = mem_Len mem.

Lemma fee_mono w w' : 0 <= w <= w' → 0 <= fee w <= fee w'.
Proof.
  intros H. unfold fee. assert (0 <= w * w <= w' * w') by nia.
  pose proof (Z.div_pos (w * w) QuadCoeffDiv). pose proof (Z.div_le_mono (w * w) (w' * w') QuadCoeffDiv). lia.
Qed.

Lemma len_copy_at {A} (l : list A) i v : len (go_copy_at l i v) = len l.
Proof.
  unfold len, go_copy_at. rewrite !length_app, !length_drop, !length_take. lia.
Qed.

Lemma mem_Set_same mem o n v mem' : mem_Set mem o n v = Ok mem' → same_mem mem mem'.
Proof.
  unfold mem_Set. destruct (_ <? _); [|by intros [= <-]]. destruct (_ <? _); [done|].
  destruct (go_slice _ _ _); [|done]. intros [= <-]. split; [done|apply len_copy_at].
Qed.
Lemma mem_Set32_same mem o v mem' : mem_Set32 mem o v = Ok mem' → same_mem mem mem'.
Proof.
  unfold mem_Set32. destruct (_ <? _); [done|].
  destruct (go_slice _ _ _); [|done]. intros [= <-]. split; [done|apply len_copy_at].
Qed.
Lemma mem_Copy_same mem d x n mem' : mem_Copy mem d x n = Ok mem' → same_mem mem mem'.
Proof.
  unfold mem_Copy. destruct (_ =? _); [by intros [= <-]|].
  intros (b & _ & (? & _ & [= <-])%res_bind_Ok)%res_bind_Ok. split; [done|apply len_copy_at].
Qed.
Lemma mem_byte_same mem i b mem' :
  (_ ← go_index (store mem) i; Ok (mkMemory (<[Z.to_nat i := b]> (store mem)) (lastGasCost mem))) = Ok mem' →
  same_mem mem mem'.
Proof.
  destruct (go_index _ _); [|done]. intros [= <-]. split; [done|]. unfold mem_Len, len. simpl.
  by rewrite length_insert.
Qed.

(** What the machine keeps: an instruction, the gas and the fee; a gas function for the
    memory size [n], the gas, the stack and the bytes in memory. *)
Definition mgas (m : Machine) : Z := Gas (m_con m).
Definition same_gas (m m' : Machine) : Prop := mgas m' = mgas m ∧ same_mem (m_mem m) (m_mem m').
Definition charged (n : Z) (m m' : Machine) : Prop :=
  m_stack m' = m_stack m ∧ mgas m' = mgas m ∧ store (m_mem m') = store (m_mem m)
  ∧ (lastGasCost (m_mem m') = lastGasCost (m_mem m) ∨ lastGasCost (m_mem m') = fee (toWordSize n)).

#[global] Instance same_gas_preorder : PreOrder same_gas.
Proof. split; [done|]. unfold same_gas, same_mem. intros ???. intuition congruence. Qed.
#[global] Instance charged_preorder n : PreOrder (charged n).
Proof. split; [intros m; split_and!; auto|]. unfold charged. intros ???. intuition congruence. Qed.

Lemma gas_interp {A} (f : stm Interp A) : returns f → judge same_gas (λ _, True) (interp f).
Proof. intros H m. specialize (H (m_in m)). unfold interp. by destruct (f _) as [[]| |]. Qed.
Lemma gas_pop : judge same_gas (λ _, True) pop.
Proof. intros m. unfold pop. by destruct (st_pop _) as [[]|]. Qed.
Lemma gas_mem_try f :
  (∀ mem mem', f mem = Ok mem' → same_mem mem mem') → judge same_gas (λ _, True) (mem_try f).
Proof.
  intros Hf m. unfold mem_try. destruct (f _) eqn:E; [|done].
  split; [split; [done|by apply Hf]|done].
Qed.
Lemma gas_mem_read {A} (f : Memory → res A) : judge same_gas (λ _, True) (mem_read f).
Proof. intros m. unfold mem_read. by destruct (f _). Qed.
Lemma gas_peek : judge same_gas (λ _, True) peek.
Proof. intros m. unfold peek. by destruct (st_peek _). Qed.
Lemma gas_dup n : judge same_gas (λ _, True) (makeDup n).
Proof. intros m. unfold makeDup. by destruct (st_dup _ _). Qed.
Lemma gas_swap n : judge same_gas (λ _, True) (makeSwap n).
Proof. intros m. unfold makeSwap. by destruct (st_swap _ _). Qed.

Lemma charged_same n m m' :
  m_stack m' = m_stack m → mgas m' = mgas m → m_mem m' = m_mem m → charged n m m'.
Proof. intros ?? Hm. split_and!; rewrite ?Hm; auto. Qed.

Lemma charged_interp {A} n (f : stm Interp A) : returns f → judge (charged n) (λ _, True) (interp f).
Proof.
  intros H m. specialize (H (m_in m)). unfold interp. destruct (f _) as [[]| |]; [|done..].
  split; [by apply charged_same|done].
Qed.
Lemma charged_back n k : judge (charged n) (λ _, True) (back k).
Proof. intros m. unfold back. destruct (st_Back _ _); [|done]. by split; [apply charged_same|]. Qed.
Lemma charged_peek n : judge (charged n) (λ _, True) peek.
Proof. intros m. unfold peek. destruct (st_peek _); [|done]. by split; [apply charged_same|]. Qed.
Lemma charged_slot_in_list n a k : judge (charged n) (λ _, True) (slot_in_list a k).
Proof.
  intros m. unfold slot_in_list. destruct (SlotInAccessList _ _ _); [|done]. by split; [apply charged_same|].
Qed.

End metering.

Create HintDb meter.
#[global] Hint Resolve returns_get returns_do returns_try returns_modify gas_pop gas_mem_read
  gas_peek gas_dup gas_swap
  charged_back charged_peek charged_slot_in_list : meter.
#[global] Hint Extern 1 (PreOrder _) => apply _ : meter.

(** Decompose a computation whose value does not matter; definitions are unfolded. *)
Ltac meter_step :=
  match goal with
  | |- judge _ _ (mret _) => apply judge_ret; [apply _|]
  | |- judge _ _ (gets _) => apply judge_gets; apply _
  | |- judge _ _ (lift _) => apply judge_lift; apply _
  | |- judge _ _ (modify _) => by apply judge_modify
  | |- judge _ _ (interp _) => first [apply gas_interp | apply charged_interp]
  | |- judge _ _ (mem_try _) =>
      apply gas_mem_try; intros ? ?;
      first [apply mem_Set_same | apply mem_Set32_same | apply mem_Copy_same | apply mem_byte_same]
  | |- judge _ _ (_ ≫= _) => apply judge_seq; [apply _| |intros ?]
  | |- judge _ _ (match ?x with _ => _ end) => destruct x
  | |- judge _ _ (let '(_, _) := ?x in _) => destruct x
  | |- judge _ _ _ => solve [auto with meter]
  | |- judge _ _ ?t => let h := head_of t in unfold h; cbv beta
  | |- True => exact I
  end.
Ltac meter := repeat meter_step.

(** ** Gas functions *)

Section costs.
Context {Cr : Crypto} {NC : NativeCrypto} {DB : Database} {U : Uint256} {GR : GoRuntime}.

(** The result of a gas function: never negative, and at least [lo] unless it is an error. *)
Definition cost (lo : Z) (r : Z * option vm_error) : Prop := 0 <= r.1 ∧ (r.2 = None → lo <= r.1).
Abbreviation costs n lo := (judge (charged n) (cost lo)).

Lemma cost_err n lo e : costs n lo (gas_err e).
Proof. apply judge_ret; [apply _|]. by split. Qed.
Lemma cost_ok n lo g : 0 <= g → lo <= g → costs n lo (gas_ok g).
Proof. intros. apply judge_ret; [apply _|]. by split. Qed.

Lemma cost_then n lo m k : costs n 0 m → (∀ g, 0 <= g → costs n lo (k g)) → costs n lo (then_gas m k).
Proof.
  intros Hm Hk. apply (judge_bind _ (cost 0)); [done|]. intros [g e] [Hg _].
  destruct e; [apply cost_err|by apply Hk].
Qed.

Lemma cost_add n lo g x k :
  0 <= g → 0 <= x → (∀ s, s = g + x → costs n lo (k s)) → costs n lo (add_gas g x k).
Proof.
  intros Hg Hx Hk. unfold add_gas, SafeAdd. destruct (Z.leb_spec (2 ^ 64) (g + x)); [apply cost_err|].
  apply Hk. apply u64_id. unfold u64_ok. lia.
Qed.

(** The words of a size within the limit, and the fee they cost. *)
Lemma toWordSize_range n : 0 <= n <= 0x1FFFFFFFE0 → toWordSize n = (n + 31) / 32 ∧ 0 <= toWordSize n < 2 ^ 32.
Proof.
  intros Hn. unfold toWordSize. destruct (Z.ltb_spec (MaxUint64 - 31) n); [unfold MaxUint64 in *; lia|].
  rewrite u64_id by (unfold u64_ok; lia). split; [done|].
  split; [apply Z.div_pos; lia|apply Z.div_lt_upper_bound; lia].
Qed.

Lemma fee_u64 w : 0 <= w < 2 ^ 32 →
  u64 (u64 (w * MemoryGas) + u64 (w * w) / QuadCoeffDiv) = fee w ∧ 0 <= fee w < 2 ^ 56.
Proof.
  intros Hw. assert (0 <= w * w < 2 ^ 64) by nia.
  rewrite (u64_id (w * _)), (u64_id (w * w)) by (unfold u64_ok; lia). unfold fee.
  pose proof (Z.div_pos (w * w) QuadCoeffDiv). pose proof (Z.div_lt_upper_bound (w * w) QuadCoeffDiv (2 ^ 55)).
  rewrite u64_id; unfold u64_ok; lia.
Qed.

(** What [memoryGasCost] does when it does not fail. *)
Lemma memoryGasCost_done n m g e m' : 0 <= n → memoryGasCost n m = Done ((g, e), m') →
  charged n m m' ∧ 0 <= g
  ∧ (mem_paid (m_mem m) → g < 2 ^ 56).
Proof.
  intros Hn. unfold memoryGasCost.
  destruct (Z.eqb_spec n 0) as [->|Hn0]; [intros [= <- <- <-]; split; [done|lia]|].
  destruct (Z.ltb_spec 0x1FFFFFFFE0 n) as [|Hlim]; [intros [= <- <- <-]; split; [done|lia]|].
  destruct (toWordSize_range n) as [Hw Hr]; [lia|]. destruct (fee_u64 _ Hr) as [Hf Hfr].
  unfold mbind, stm_bind, gets. destruct (Z.ltb_spec (mem_Len (m_mem m)) (u64 (toWordSize n * 32))) as [Hl|];
    [|intros [= <- <- <-]; split; [done|lia]].
  rewrite Hf. intros [= <- <- <-].
  split; [split_and!; auto|]. split; [apply u64_nonneg|]. intros [Hp1 Hp2].
  assert (fee (mem_Len (m_mem m) / 32) <= fee (toWordSize n)).
  { apply fee_mono. rewrite u64_id in Hl by (unfold u64_ok; lia). split; [apply Z.div_pos; unfold mem_Len, len; lia|].
    apply Z.div_le_upper_bound; lia. }
  rewrite u64_id; unfold u64_ok; lia.
Qed.

Lemma cost_memory n : 0 <= n → costs n 0 (memoryGasCost n).
Proof.
  intros Hn m. destruct (memoryGasCost n m) as [[[g e] m']| |] eqn:E; [|done|].
  - apply memoryGasCost_done in E as (?&?&_); [|done]. split; [done|by split].
  - revert E. unfold memoryGasCost. do 2 (case_match; [done|]). unfold mbind, stm_bind, gets. by case_match.
Qed.

Lemma cost_per_word n pos price g : 0 <= g → costs n 0 (per_word pos price g).
Proof.
  intros Hg. unfold per_word. apply judge_seq; [apply _|meter|intros size].
  unfold Uint64WithOverflow, SafeMul. destruct (negb _); [apply cost_err|].
  destruct (_ <=? _); [apply cost_err|]. apply cost_add; [done|apply u64_nonneg|].
  intros s ->. pose proof (u64_nonneg (toWordSize (word_Uint64 size) * price)). apply cost_ok; lia.
Qed.

End costs.

#[global] Hint Resolve cost_err cost_memory cost_per_word u64_nonneg : meter.

Ltac nonneg := first [lia | repeat case_match; lia | apply u64_nonneg | match goal with |- context [u64 ?x] => pose proof (u64_nonneg x); lia end].

(** Decompose a gas function. *)
Ltac cost_step :=
  match goal with
  | |- judge _ (cost _) (gas_ok _) => apply cost_ok; [nonneg|nonneg]
  | |- judge _ (cost _) (then_gas _ _) => apply cost_then; [|intros ? ?]
  | |- judge _ (cost _) (add_gas _ _ _) => apply cost_add; [nonneg|nonneg|intros ? ->]
  | |- judge _ (cost _) (_ ≫= _) => apply judge_seq; [apply _|by meter|intros ?]
  | |- judge _ (cost _) (match ?x with _ => _ end) => destruct x
  | |- judge _ (cost _) (let '(_, _) := ?x in _) => destruct x
  | |- judge _ (cost _) _ => solve [auto with meter]
  | |- judge _ (cost _) ?t => let h := head_of t in unfold h; cbv beta
  end.
Ltac solve_cost := repeat cost_step.

Section gas_functions.
Context {Cr : Crypto} {NC : NativeCrypto} {DB : Database} {U : Uint256} {GR : GoRuntime}.
Abbreviation costs n lo := (judge (charged n) (cost lo)).

Lemma memoryCopierGas_cost p n : 0 <= n → costs n 0 (memoryCopierGas p n).
Proof. intros. solve_cost. Qed.
Lemma gasKeccak256_cost n : 0 <= n → costs n 0 (gasKeccak256 n).
Proof. intros. solve_cost. Qed.
Lemma makeGasLog_cost k n : 0 <= n → costs n 1 (makeGasLog k n).
Proof.
  intros Hn. unfold makeGasLog. apply judge_seq; [apply _|meter|intros size]. unfold Uint64WithOverflow, SafeMul.
  destruct (negb _); [apply cost_err|]. apply cost_then; [by apply cost_memory|intros g Hg].
  pose proof (u64_nonneg (k * LogTopicGas)). pose proof (u64_nonneg (word_Uint64 size * LogDataGas)).
  apply cost_add; [lia|lia|intros ? ->]. apply cost_add; [lia|lia|intros ? ->].
  destruct (_ <=? _); [apply cost_err|]. apply cost_add; [lia|lia|intros ? ->]. apply cost_ok; lia.
Qed.
Lemma initcode_gas_cost p n : 0 <= n → costs n 0 (initcode_gas p n).
Proof.
  intros Hn. unfold initcode_gas. apply cost_then; [by apply cost_memory|intros g Hg].
  apply judge_seq; [apply _|meter|intros size]. unfold Uint64WithOverflow. destruct (_ || _); [apply cost_err|].
  apply cost_add; [lia|apply u64_nonneg|intros ? ->]. pose proof (u64_nonneg (p * ((word_Uint64 size + 31) / 32))).
  apply cost_ok; lia.
Qed.
Lemma exp_gas_cost p n : costs n 1 (exp_gas p n).
Proof. solve_cost. Qed.
Lemma gasSStore_cost n : costs n 1 (gasSStore n).
Proof. solve_cost. Qed.
Lemma gasSStoreEIP2200_cost n : costs n 1 (gasSStoreEIP2200 n).
Proof. solve_cost. Qed.
Lemma gasSLoadEIP2929_cost n : costs n 1 (gasSLoadEIP2929 n).
Proof. solve_cost. Qed.
Lemma gasExtCodeCopyEIP2929_cost n : 0 <= n → costs n 0 (gasExtCodeCopyEIP2929 n).
Proof. intros. solve_cost. Qed.
Lemma gasEip2929AccountCheck_cost n : costs n 0 (gasEip2929AccountCheck n).
Proof. solve_cost. Qed.
Lemma gasSelfdestruct_cost n : costs n 0 (gasSelfdestruct n).
Proof. solve_cost. Qed.

(** The price of a cold access is an amount of its own. *)
Lemma cold_price {A} n (b : bool) (m : stm Machine A) (k : stm Machine Z) x :
  0 <= x → judge (charged n) (λ _, True) m → judge (charged n) (λ c, 0 <= c <= x) k →
  judge (charged n) (λ c, 0 <= c <= x) (if b then mret 0 else _ ← m; k).
Proof.
  intros Hx Hm Hk. destruct b; [apply judge_ret; [apply _|lia]|]. by apply judge_seq; [apply _|..].
Qed.

Lemma makeSelfdestructGasFn_cost b n : costs n 0 (makeSelfdestructGasFn b n).
Proof.
  unfold makeSelfdestructGasFn. do 3 cost_step. eapply judge_bind.
  - apply _.
  - apply (cold_price _ _ _ _ ColdAccountAccessCostEIP2929); [lia|meter|]. apply judge_ret; [apply _|lia].
  - intros c Hc. cbv beta in Hc. solve_cost.
Qed.

Lemma makeGasSStoreFunc_cost r n : costs n 1 (makeGasSStoreFunc r n).
Proof.
  unfold makeGasSStoreFunc. do 6 cost_step. destruct a3 as [addrPresent slotPresent].
  eapply judge_bind.
  - apply _.
  - apply (cold_price _ _ _ _ ColdSloadCostEIP2929); [lia|meter|]. destruct addrPresent.
    + apply judge_ret; [apply _|lia].
    + intros s. done.
  - intros c Hc. cbv beta in Hc. assert (∀ x, 1 <= x <= 2 ^ 32 → u64 (c + x) = c + x) as Hu.
    { intros x Hx. apply u64_id. unfold u64_ok. lia. }
    rewrite !Hu by lia. solve_cost.
Qed.

End gas_functions.

(** *** The gas of calls *)

Section call_gas.
Context {Cr : Crypto} {NC : NativeCrypto} {DB : Database} {U : Uint256} {GR : GoRuntime}.

(** What a gas function promises the interpreter: the stack and the memory are kept; the
    gas of the contract can only be lower after an error; and the cost is as [need] says. *)
Definition pays (need : Machine → Z → Prop) (G : gasFunc) : Prop := ∀ n m,
  0 <= n → u64_ok (mgas m) → mem_paid (m_mem m) →
  match G n m with
  | Done ((g, e), m') =>
      m_stack m' = m_stack m ∧ store (m_mem m') = store (m_mem m)
      ∧ (lastGasCost (m_mem m') = lastGasCost (m_mem m) ∨ lastGasCost (m_mem m') = fee (toWordSize n))
      ∧ u64_ok (mgas m') ∧ mgas m' <= mgas m ∧ 0 <= g ∧ (e = None → mgas m' = mgas m ∧ need m' g)
  | Crash _ => True
  | OutOfFuel => False
  end.

Lemma costs_pays lo (G : gasFunc) :
  (∀ n, 0 <= n → judge (charged n) (cost lo) (G n)) → pays (λ _ g, lo <= g) G.
Proof.
  intros HG n m Hn Hm _. specialize (HG n Hn m). destruct (G n m) as [[[g e] m']| |]; [|done..].
  destruct HG as [(?&Hg&?&?) [??]]. rewrite Hg. split_and!; auto with lia.
Qed.

Lemma pays_weaken (P Q : Machine → Z → Prop) G : (∀ m g, P m g → Q m g) → pays P G → pays Q G.
Proof.
  intros H HG n m Hn Hm Hp. specialize (HG n m Hn Hm Hp). destruct (G n m) as [[[g e] m']| |]; [|done..].
  destruct HG as (?&?&?&?&?&?&He). split_and!; try done. intros E. destruct (He E). auto.
Qed.

(** The price of moving value along with a call. *)
Definition surcharge (valued : bool) (st : list Z) : Z :=
  match st !! 2%nat with
  | Some v => if valued && negb (word_IsZero v) then CallValueTransferGas else 0
  | None => 0
  end.

(** The cost of a call covers the gas set aside for the callee, and the surcharge. *)
Definition call_need (valued : bool) (bound : Z) (m : Machine) (g : Z) : Prop :=
  0 <= callGasTemp (m_in m) ∧ callGasTemp (m_in m) + surcharge valued (m_stack m) <= g < bound.

Lemma callGas_range a base req : 0 <= (callGas a base req).1 <= 2 ^ 64 - 2 ^ 58.
Proof.
  unfold callGas. pose proof (u64_range (a - base)) as Ha. unfold u64_ok in Ha.
  set (x := u64 (a - base)) in *.
  assert (0 <= x / 64 <= x) by (split; [apply Z.div_pos; lia|apply Z.div_le_upper_bound; lia]).
  rewrite (u64_id (x - x / 64)) by (unfold u64_ok; lia).
  assert (x - x / 64 <= 2 ^ 64 - 2 ^ 58) by (pose proof (Z.div_mod x 64); pose proof (Z.mod_pos_bound x 64); lia).
  pose proof (word_Uint64_range req) as [Hr _].
  destruct (word_IsUint64 req); simpl; [|lia]. destruct (Z.ltb_spec (x - x / 64) (word_Uint64 req)); simpl; lia.
Qed.

(** The value of the last three instructions of the gas of a call. *)
Lemma with_call_gas_done base m g m' : 0 <= base →
  with_call_gas base m = Done ((g, None), m') →
  g = base + callGasTemp (m_in m') ∧ 0 <= callGasTemp (m_in m') <= 2 ^ 64 - 2 ^ 58 ∧ m_stack m' = m_stack m.
Proof.
  intros Hb. unfold with_call_gas. intros (a & m1 & [= <- <-] & H)%stm_bind_Done.
  apply stm_bind_Done in H as (req & m1 & Hr & H).
  assert (m1 = m) as -> by (unfold back in Hr; destruct (st_Back _ _); congruence).
  pose proof (callGas_range (Gas (m_con m)) base req) as Ht.
  destruct (callGas _ _ _) as [t err]. simpl in Ht. apply stm_bind_Done in H as ([] & m1 & [= <-] & H).
  destruct err; [discriminate H|]. unfold add_gas, SafeAdd in H.
  destruct (Z.leb_spec (2 ^ 64) (base + t)); [discriminate H|]. injection H as <- <-.
  simpl. rewrite u64_id by (unfold u64_ok; lia). auto.
Qed.

Lemma with_call_gas_cost n base : 0 <= base → judge (charged n) (cost 0) (with_call_gas base).
Proof.
  intros Hb. unfold with_call_gas. do 2 cost_step.
  pose proof (callGas_range a base a0) as Ht. destruct (callGas _ _ _) as [t err]. simpl in Ht.
  cost_step. destruct err; [apply cost_err|]. apply cost_add; [lia|lia|intros ? ->]. apply cost_ok; lia.
Qed.

End call_gas.

#[global] Hint Resolve with_call_gas_cost : meter.

Ltac solve_call_cost := repeat first [apply with_call_gas_cost; nonneg | cost_step].

Section call_gas_functions.
Context {Cr : Crypto} {NC : NativeCrypto} {DB : Database} {U : Uint256} {GR : GoRuntime}.

(** The total before the callee's gas is added. *)
Definition reaches_call_gas (lo : Z) (m : Machine) (r : (Z * option vm_error) * Machine) : Prop :=
  ∃ total m1, lo <= total < 2 ^ 57 ∧ m_stack m1 = m_stack m ∧ with_call_gas total m1 = Done r.

Lemma base_price_done base n m r :
  0 <= base <= 2 ^ 32 → 0 <= n → mem_paid (m_mem m) → r.1.2 = None →
  then_gas (memoryGasCost n) (λ memoryGas, add_gas base memoryGas with_call_gas) m = Done r →
  reaches_call_gas base m r.
Proof.
  intros Hb Hn Hp Hr. unfold then_gas.
  intros ([mg e] & m1 & (Hc & Hg & Hlt)%memoryGasCost_done & H)%stm_bind_Done; [|done].
  specialize (Hlt Hp). destruct e; [by injection H as <-|]. unfold add_gas, SafeAdd in H.
  destruct (Z.leb_spec (2 ^ 64) (base + mg)); [by injection H as <-|].
  rewrite u64_id in H by (unfold u64_ok; lia). exists (base + mg), m1. split_and!; [lia..|apply Hc|done].
Qed.

(** A function whose total covers the surcharge. *)
Lemma call_pays valued (G : gasFunc) :
  (∀ n, 0 <= n → judge (charged n) (cost 0) (G n)) →
  (∀ n m r, 0 <= n → mem_paid (m_mem m) → r.1.2 = None → G n m = Done r →
     reaches_call_gas (surcharge valued (m_stack m)) m r) →
  pays (call_need valued (2 ^ 64 - 2 ^ 57)) G.
Proof.
  intros HG Hd n m Hn Hm Hp. pose proof (costs_pays 0 G HG n m Hn Hm Hp) as H.
  destruct (G n m) as [[[g e] m']| |] eqn:E; [|done..]. destruct H as (Hs&?&?&?&?&?&He).
  split_and!; try done. intros ->. split; [by apply He|].
  apply Hd in E as (total & m1 & Hb & Hs1 & Hw); [|done..].
  assert (0 <= surcharge valued (m_stack m)) by (unfold surcharge; repeat case_match; lia).
  apply with_call_gas_done in Hw as (Hg & Ht & _); [|lia]. unfold call_need. rewrite Hs. lia.
Qed.

Lemma surcharge_back st v : st_Back st 2 = Ok v →
  surcharge true st = if negb (word_IsZero v) then CallValueTransferGas else 0.
Proof. unfold surcharge. intros (_ & H)%go_index_Ok. change (Z.to_nat 2) with 2%nat in H. by rewrite H. Qed.
Lemma surcharge_none st : surcharge false st = 0.
Proof. unfold surcharge. by case_match. Qed.

Lemma back_done k m v m' : back k m = Done (v, m') → st_Back (m_stack m) k = Ok v ∧ m' = m.
Proof. unfold back. destruct (st_Back _ _); [|done]. by intros [= <- <-]. Qed.

Lemma unvalued_pays : pays (call_need false (2 ^ 64 - 2 ^ 57))
  (λ n, then_gas (memoryGasCost n) with_call_gas).
Proof.
  apply call_pays; [intros; solve_call_cost|]. intros n m r Hn Hp Hr. rewrite surcharge_none. unfold then_gas.
  intros ([mg e] & m1 & (Hc & Hg & Hlt)%memoryGasCost_done & H)%stm_bind_Done; [|done].
  specialize (Hlt Hp). destruct e; [by injection H as <-|]. exists mg, m1. split_and!; [lia..|apply Hc|done].
Qed.

Lemma interp_done {A} (f : stm Interp A) m a m' : interp f m = Done (a, m') → ∃ i, m' = set_in m i.
Proof. unfold interp. destruct (f _) as [[x i]| |]; [|done..]. intros [= <- <-]. by exists i. Qed.

Lemma gasCallCode_pays : pays (call_need true (2 ^ 64 - 2 ^ 57)) gasCallCode.
Proof.
  apply call_pays; [intros; solve_call_cost|]. intros n m r Hn Hp Hr. unfold gasCallCode, then_gas.
  intros ([mg e] & m1 & Hmem & H)%stm_bind_Done. destruct e; [by injection H as <-|].
  apply stm_bind_Done in H as (v & m2 & (Hv & ->)%back_done & H).
  assert (m_stack m1 = m_stack m) as Hs by (apply memoryGasCost_done in Hmem as [Hc _]; [apply Hc|done]).
  rewrite Hs in Hv. rewrite (surcharge_back _ _ Hv).
  apply (base_price_done _ n); [repeat case_match; lia|done..|]. unfold then_gas.
  apply stm_bind_Done. by exists (mg, None), m1.
Qed.

Lemma gasCall_pays : pays (call_need true (2 ^ 64 - 2 ^ 57)) gasCall.
Proof.
  apply call_pays; [intros; solve_call_cost|]. intros n m r Hn Hp Hr. unfold gasCall.
  intros (v & m1 & (Hv & ->)%back_done & H)%stm_bind_Done.
  apply stm_bind_Done in H as (a & m1 & (_ & ->)%back_done & H).
  apply stm_bind_Done in H as (empty & m1 & He & (new & m2 & Hnew & H)%stm_bind_Done).
  assert (m_stack m2 = m_stack m ∧ m_mem m2 = m_mem m) as [Hs Hm].
  { assert (∃ i, m1 = set_in m i) as [i ->].
    { destruct (negb _); [by eapply interp_done|]. injection He as <- <-. exists (m_in m). by destruct m. }
    destruct empty; [by injection Hnew as <- <-|].
    apply stm_bind_Done in Hnew as (ex & m3 & (j & ->)%interp_done & [= <- <-]). done. }
  rewrite (surcharge_back _ _ Hv).
  apply base_price_done in H as (total & m3 & Ht & Hs3 & Hw); [|repeat case_match; lia|done|by rewrite Hm|done].
  exists total, m3. split_and!; [repeat case_match; lia..|congruence|done].
Qed.

(** The cold access is paid first, given back, and added to the cost. *)
Lemma makeCallVariant_pays valued G :
  pays (call_need valued (2 ^ 64 - 2 ^ 57)) G →
  pays (call_need valued (2 ^ 64)) (makeCallVariantGasCallEIP2929 G).
Proof.
  intros HG n m Hn Hm Hp. unfold makeCallVariantGasCallEIP2929, mbind, stm_bind.
  destruct (back 1 m) as [[a m1]| |] eqn:Eb; [|done|by unfold back in Eb; case_match].
  apply back_done in Eb as [_ ->]. unfold addr_in_list, gets.
  destruct (AddressInAccessList _ _).
  - simpl. specialize (HG n m Hn Hm Hp). destruct (G n m) as [[[g e] m']| |]; [|done..].
    destruct HG as (?&?&?&?&?&?&He). split_and!; try done. intros E. destruct (He E) as [? Hc].
    split; [done|]. unfold call_need in *. lia.
  - unfold db_do, interp, UseGas, on_con, modify, mret, stm_ret. simpl.
    destruct (Z.ltb_spec (Gas (m_con m)) (2600 - 100)); simpl; [by split_and!; auto with lia|].
    change (Gas (m_con m)) with (mgas m) in *.
    match goal with |- context [G n ?x] => specialize (HG n x Hn); set (mx := x) in * end.
    assert (mgas mx = mgas m - 2500) as Hgx by (apply u64_id; unfold u64_ok in *; lia).
    rewrite Hgx in HG. unfold u64_ok in *. specialize (HG ltac:(lia) Hp).
    destruct (G n mx) as [[[g e] m']| |]; [|done..]. destruct HG as (?&?&?&?&?&?&He).
    destruct (bool_decide_reflect (is_Some e)) as [[x ->]|Hne]; simpl.
    + split_and!; try done; lia.
    + destruct e; [by destruct Hne; eexists|]. destruct (He eq_refl) as [Hg' (? & ?)].
      pose proof (u64_nonneg (g + 2500)). unfold mgas at 1 2 3. simpl. change (Gas (m_con m')) with (mgas m').
      rewrite !u64_id by (unfold u64_ok; lia). split_and!; try done; [lia..|].
      intros _. unfold call_need, mgas at 1. simpl. split; [lia|]. split; lia.
Qed.

End call_gas_functions.

(** ** Calls

    [enough g] says that the interpreter returns on a contract with gas [g]. *)

Section callees.
Context {Cr : Crypto} {NC : NativeCrypto} {DB : Database} {U : Uint256} {GR : GoRuntime}.
Variable run : run_fun.
Variable par : bool.
Variable enough : Z → Prop.

(** The interpreter gives back no more gas than the contract has. *)
Definition run_meters : Prop := ∀ c input ro i, u64_ok (Gas c) →
  match run c input ro par i with
  | Done (r, _) => u64_ok (Gas (rr_contract r)) ∧ Gas (rr_contract r) <= Gas c
  | Crash _ => True
  | OutOfFuel => ¬ enough (Gas c)
  end.

(** A call that is given the gas [g], and where the result carries the gas left. *)
Definition callee {A} (left : A → Z) (g : Z) (C : stm Interp A) : Prop := ∀ i,
  match C i with
  | Done (r, _) => u64_ok (left r) ∧ left r <= g
  | Crash _ => True
  | OutOfFuel => ¬ enough g
  end.

Abbreviation returns_with := (judge any).

Hypothesis run_ok : run_meters.

Lemma callee_ret {A} (left : A → Z) g r : u64_ok (left r) → left r <= g → callee left g (mret r).
Proof. intros ?? i. by split. Qed.

Lemma callee_bind {A B} (left : B → Z) (Q : A → Prop) g (m : stm Interp A) k :
  returns_with Q m → (∀ a, Q a → callee left g (k a)) → callee left g (m ≫= k).
Proof.
  intros Hm Hk i. specialize (Hm i). unfold mbind, stm_bind.
  destruct (m i) as [[a i1]| |]; [|done..]. apply Hk, Hm.
Qed.

Lemma callee_seq {A B} (left : B → Z) g (m : stm Interp A) k :
  returns_with (λ _, True) m → (∀ a, callee left g (k a)) → callee left g (m ≫= k).
Proof. intros. eapply callee_bind; eauto. Qed.

Lemma callee_run {B} (left : B → Z) g c input ro (k : run_result → stm Interp B) :
  Gas c = g → u64_ok g →
  (∀ r, u64_ok (Gas (rr_contract r)) → Gas (rr_contract r) <= g → callee left g (k r)) →
  callee left g (run c input ro par ≫= k).
Proof.
  intros <- Hg Hk i. pose proof (run_ok c input ro i Hg) as H. unfold mbind, stm_bind.
  destruct (run c input ro par i) as [[r i1]| |]; [|done..]. apply Hk; apply H.
Qed.

Lemma callee_finish snap r g : u64_ok (cr_gas r) → cr_gas r <= g → callee cr_gas g (finish_call snap r).
Proof.
  intros. unfold finish_call. destruct (cr_err r); [|by apply callee_ret].
  apply callee_seq; [apply returns_try|intros _; by apply callee_ret].
Qed.

Lemma callee_sub {A B} (left : A → Z) (left' : B → Z) g (m : stm Interp A) k :
  callee left g m → (∀ a, u64_ok (left a) → left a <= g → callee left' g (k a)) →
  callee left' g (m ≫= k).
Proof.
  intros Hm Hk i. specialize (Hm i). unfold mbind, stm_bind.
  destruct (m i) as [[a i1]| |]; [|done..]. apply Hk; apply Hm.
Qed.

Lemma NewContract_gas c a v g : returns_with (λ x, Gas x = g) (NewContract c a v g).
Proof. intros i. unfold NewContract. by destruct c; split. Qed.

Lemma AsDelegate_gas c : @judge Interp any Contract (λ x, Gas x = Gas c) (lift (AsDelegate c)).
Proof. intros i. unfold AsDelegate, lift. destruct (caller c); [done|by split]. Qed.

Lemma RequiredGas_nonneg p input g : RequiredGas p input = Ok g → 0 <= g.
Proof.
  destruct p; simpl; try (intros [= <-]; first [apply u64_nonneg | lia]).
  - unfold bigModExp_RequiredGas.
    do 4 (intros H; apply res_bind_Ok in H as (? & _ & H); revert H). cbv zeta.
    pose proof u64_nonneg. destruct eip2565; intros [= <-]; repeat case_match; unfold MaxUint64; auto with lia.
  - destruct (_ =? _); intros [= <-]; [apply u64_nonneg|done].
  - unfold multiExp_gas. destruct (_ =? _); [by intros [= <-]|].
    intros (d & _ & [= <-])%res_bind_Ok. apply Z.div_pos; [apply u64_nonneg|lia].
  - unfold multiExp_gas. destruct (_ =? _); [by intros [= <-]|].
    intros (d & _ & [= <-])%res_bind_Ok. apply Z.div_pos; [apply u64_nonneg|lia].
Qed.

Lemma run_precompile_callee p input g can : u64_ok g → callee cr_gas g (run_precompile p input g can).
Proof.
  intros Hg i. unfold run_precompile, RunPrecompiledContract, mbind, stm_bind, lift.
  destruct (RequiredGas p input) as [c|] eqn:E; [|done]. apply RequiredGas_nonneg in E. simpl.
  unfold u64_ok in *. destruct (Z.ltb_spec g c); simpl; [lia|].
  destruct (precompiled_Run p input) as [[out err]|]; simpl; [|done].
  rewrite u64_id by (unfold u64_ok; lia). lia.
Qed.

Lemma run_code_callee c a input ro g :
  Gas c = g → u64_ok g → callee cr_gas g (run_code run c a input ro par).
Proof.
  intros Hc Hg. unfold run_code. do 2 (apply callee_seq; [apply returns_get|intros ?]).
  apply callee_run; [done..|]. intros r ??. by apply callee_ret.
Qed.

Ltac callee_step :=
  match goal with
  | |- callee _ _ (mret _) => apply callee_ret; cbn [cr_gas fst compose]; [done|first [done | lia]]
  | |- callee _ _ (finish_call _ _) => apply callee_finish; cbn [cr_gas]; assumption
  | |- callee _ _ (run _ _ _ par ≫= _) => apply callee_run; [done|done|intros ???]
  | |- callee _ _ (NewContract _ _ _ _ ≫= _) => eapply callee_bind; [apply NewContract_gas|intros ??; cbv beta in *]
  | |- callee _ _ (lift (AsDelegate _) ≫= _) => eapply callee_bind; [apply AsDelegate_gas|intros ??; cbv beta in *]
  | |- callee _ _ (run_precompile _ _ _ _ ≫= _) =>
      eapply callee_sub; [by apply run_precompile_callee|intros ???]
  | |- callee _ _ (match precompile ?a with _ => _ end ≫= _) =>
      eapply (callee_sub cr_gas); [destruct (precompile a)|intros ???]
  | |- callee _ _ (run_precompile _ _ _ _) => by apply run_precompile_callee
  | |- callee _ _ (run_code _ _ _ _ _ _) => apply run_code_callee; [congruence|done]
  | |- callee _ _ (_ ≫= _) => apply callee_seq; [by meter|intros ?]
  | |- callee _ _ (match ?x with _ => _ end) => destruct x
  end.
Ltac solve_callee := repeat callee_step.

Lemma Call_callee c a input g v : u64_ok g → callee cr_gas g (Call run c a input g v par).
Proof. intros Hg. unfold Call. solve_callee. Qed.

Lemma CallCode_callee c a input g v : u64_ok g → callee cr_gas g (CallCode run c a input g v par).
Proof. intros Hg. unfold CallCode. solve_callee. Qed.
Lemma DelegateCall_callee c a input g : u64_ok g → callee cr_gas g (DelegateCall run c a input g par).
Proof. intros Hg. unfold DelegateCall. solve_callee. Qed.
Lemma StaticCall_callee c a input g : u64_ok g → callee cr_gas g (StaticCall run c a input g par).
Proof. intros Hg. unfold StaticCall. solve_callee. Qed.

Lemma finish_create_callee snap a r g : u64_ok (Gas (rr_contract r)) → Gas (rr_contract r) <= g →
  0 <= g → callee (cr_gas ∘ fst) g (finish_create snap a r).
Proof.
  intros Hr Hg H0. unfold finish_create. destruct (rr_err r).
  - apply callee_seq; [apply returns_try|intros _]. by apply callee_ret.
  - destruct (_ <? _); [by apply callee_ret|]. unfold UseGas.
    destruct (Z.ltb_spec (Gas (rr_contract r)) (u64 (len (rr_ret r) * CreateDataGas))); [by apply callee_ret|].
    pose proof (u64_nonneg (len (rr_ret r) * CreateDataGas)).
    apply callee_seq; [apply returns_do|intros _]. unfold u64_ok in *.
    apply callee_ret; simpl; rewrite u64_id; unfold u64_ok; lia.
Qed.

Lemma create_callee c ch g v a : u64_ok g → callee (cr_gas ∘ fst) g (create run c ch g v a par).
Proof.
  intros Hg. unfold create. solve_callee. apply finish_create_callee; [done..|apply Hg].
Qed.
Lemma Create_callee c code g v : u64_ok g → callee (cr_gas ∘ fst) g (Create run c code g v par).
Proof. intros Hg. unfold Create. callee_step. by apply create_callee. Qed.
Lemma Create2_callee c code g v x : u64_ok g → callee (cr_gas ∘ fst) g (Create2 run c code g v x par).
Proof. intros Hg. by apply create_callee. Qed.

(** *** Instructions that call

    The gas of the contract grows by what the callee leaves: at most what was set aside
    and, when value moves, the stipend, which the surcharge covers. *)
Definition calls_with (bound : Machine → Z) (f : stm Machine (list byte * option vm_error * bool)) : Prop :=
  ∀ m, u64_ok (mgas m) → 0 <= callGasTemp (m_in m) → 0 <= bound m < 2 ^ 64 →
  match f m with
  | Done (_, m') => u64_ok (mgas m') ∧ mgas m' <= mgas m + bound m ∧ same_mem (m_mem m) (m_mem m')
  | Crash _ => True
  | OutOfFuel => ∃ g, ¬ enough g ∧ g <= bound m
  end.

Definition call_bound (valued : bool) (m : Machine) : Z :=
  callGasTemp (m_in m) + surcharge valued (m_stack m).

Lemma u64_le x : 0 <= x → u64 x <= x.
Proof. intros. by apply Z.mod_le. Qed.

Lemma call_tail C g ro rs m : u64_ok (mgas m) → 0 <= g → callee cr_gas g C →
  match (r ← interp C; after_call ro rs r) m with
  | Done (_, m') => u64_ok (mgas m') ∧ mgas m' <= mgas m + g ∧ same_mem (m_mem m) (m_mem m')
  | Crash _ => True
  | OutOfFuel => ¬ enough g
  end.
Proof.
  intros Hm Hg HC. specialize (HC (m_in m)). unfold mbind at 1, stm_bind at 1, interp at 1.
  destruct (C (m_in m)) as [[r i]| |]; [|done..]. destruct HC as [Hr1 Hr2]. unfold after_call.
  judge_run same_gas; [meter|]. judge_run same_gas; [meter|].
  simpl. destruct H as [Hg1 Hm1], H0 as [Hg2 Hm2]. unfold mgas in *. simpl in *.
  split; [apply u64_range|]. rewrite Hg2, Hg1. unfold u64_ok in *.
  split; [|unfold same_mem in *; intuition congruence].
  etrans; [apply u64_le; lia|lia].
Qed.

Lemma surcharge_cons valued (g a v : Z) (st : list Z) :
  surcharge valued (g :: a :: v :: st) = if valued && negb (word_IsZero v) then CallValueTransferGas else 0.
Proof. done. Qed.

Lemma call_tail_le C g ro rs m B : u64_ok (mgas m) → 0 <= g <= B → callee cr_gas g C →
  match (r ← interp C; after_call ro rs r) m with
  | Done (_, m') => u64_ok (mgas m') ∧ mgas m' <= mgas m + B ∧ same_mem (m_mem m) (m_mem m')
  | Crash _ => True
  | OutOfFuel => ∃ g, ¬ enough g ∧ g <= B
  end.
Proof.
  intros Hm Hg HC. pose proof (call_tail C g ro rs m Hm (proj1 Hg) HC) as H.
  destruct ((interp C ≫= _) m) as [[r m']| |]; [|done|exists g; split; [done|lia]].
  destruct H as (?&?&?). split_and!; [done|lia|done].
Qed.

(** Pop the arguments of a call. *)
Ltac pops :=
  repeat match goal with
  | |- context [(pop ≫= ?k) ?m] =>
      unfold mbind at 1, stm_bind at 1, pop at 1; cbn [m_stack set_stack];
      match goal with |- context [st_pop ?st] => destruct st; cbn [st_pop]; [exact I|] end
  | |- context [(gets _ ≫= ?k) ?m] => unfold mbind at 1, stm_bind at 1, gets at 1; cbn [m_in set_stack]
  | |- context [(mem_read ?f ≫= ?k) ?m] =>
      unfold mbind at 1, stm_bind at 1, mem_read at 1;
      match goal with |- context [match ?x with Ok _ => _ | Panic _ => _ end] =>
        destruct x; [|exact I] end
  end.

Ltac call_instr l :=
  match goal with |- context [(interp _ ≫= _) ?m] =>
    eapply (call_tail_le _ _ _ _ m); [done| |apply l]; unfold u64_ok in *
  end.

(** The gas passed on. *)
Lemma passed_le t v : 0 <= t → let g := if word_IsZero v then t else u64 (t + CallStipend) in
  0 <= t + (if negb (word_IsZero v) then CallValueTransferGas else 0) < 2 ^ 64 →
  u64_ok g ∧ 0 <= g <= t + (if negb (word_IsZero v) then CallValueTransferGas else 0).
Proof.
  intros Ht g. subst g. unfold u64_ok. destruct (word_IsZero v); simpl; [lia|].
  intros. rewrite u64_id; unfold u64_ok; lia.
Qed.

Lemma opCall_calls : calls_with (call_bound true) (opCall run par).
Proof.
  intros m Hm Ht Hb. unfold opCall, call_bound in *. destruct m as [i mem st c pc].
  cbn [m_in m_stack] in *. pops. rewrite surcharge_cons in *. cbn [andb] in *.
  destruct (_ && _); [split_and!; [done|unfold mgas; simpl in *; lia|done]|]. pops.
  destruct (passed_le _ z1 Ht Hb). call_instr Call_callee; done.
Qed.
Lemma opCallCode_calls : calls_with (call_bound true) (opCallCode run par).
Proof.
  intros m Hm Ht Hb. unfold opCallCode, call_bound in *. destruct m as [i mem st c pc].
  cbn [m_in m_stack] in *. pops. rewrite surcharge_cons in *. cbn [andb] in *.
  destruct (passed_le _ z1 Ht Hb). call_instr CallCode_callee; done.
Qed.
Lemma opDelegateCall_calls : calls_with (call_bound false) (opDelegateCall run par).
Proof.
  intros m Hm Ht Hb. unfold opDelegateCall, call_bound in *. destruct m as [i mem st c pc].
  cbn [m_in m_stack] in *. pops. rewrite surcharge_cons in *. cbn [andb] in *.
  call_instr DelegateCall_callee; lia.
Qed.
Lemma opStaticCall_calls : calls_with (call_bound false) (opStaticCall run par).
Proof.
  intros m Hm Ht Hb. unfold opStaticCall, call_bound in *. destruct m as [i mem st c pc].
  cbn [m_in m_stack] in *. pops. rewrite surcharge_cons in *. cbn [andb] in *.
  call_instr StaticCall_callee; lia.
Qed.

(** A creation takes its gas from the contract itself. *)
Definition creates (f : stm Machine (list byte * option vm_error * bool)) : Prop := ∀ m,
  u64_ok (mgas m) →
  match f m with
  | Done (_, m') => u64_ok (mgas m') ∧ mgas m' <= mgas m ∧ same_mem (m_mem m) (m_mem m')
  | Crash _ => True
  | OutOfFuel => ∃ g, ¬ enough g ∧ g <= mgas m
  end.

Lemma create_tail (C : stm Interp (call_result * Address)) g m B :
  u64_ok (mgas m) → 0 <= g → mgas m + g <= B → callee (cr_gas ∘ fst) g C →
  match ('(r, addr) ← interp C; after_create r addr) m with
  | Done (_, m') => u64_ok (mgas m') ∧ mgas m' <= B ∧ same_mem (m_mem m) (m_mem m')
  | Crash _ => True
  | OutOfFuel => ∃ g, ¬ enough g ∧ g <= B
  end.
Proof.
  intros Hm Hg HB HC. specialize (HC (m_in m)). unfold mbind at 1, stm_bind at 1, interp at 1.
  unfold u64_ok in *.
  destruct (C (m_in m)) as [[[r a] i]| |]; [|done|exists g; split; [done|lia]]. destruct HC as [Hr1 Hr2].
  simpl in Hr1, Hr2. unfold after_create. judge_run same_gas; [meter|]. destruct H as [Hg1 Hm1].
  assert (0 <= u64 (mgas s1 + cr_gas r) < 2 ^ 64 ∧ u64 (mgas s1 + cr_gas r) <= B).
  { split; [apply u64_range|]. rewrite Hg1. unfold mgas in *. simpl in *. etrans; [apply u64_le; lia|lia]. }
  destruct (cr_err r) as [[]|]; (split; [apply H|split; [apply H|done]]).
Qed.

Lemma create_gas_run {B} (k : Z → stm Machine B) m : u64_ok (mgas m) →
  ∃ g m1, (create_gas ≫= k) m = k g m1 ∧ u64_ok g ∧ u64_ok (mgas m1) ∧ mgas m1 + g <= mgas m
    ∧ m_mem m1 = m_mem m.
Proof.
  intros Hm. unfold create_gas, mbind, stm_bind, gets, on_con, modify, mret, stm_ret.
  change (Gas (m_con m)) with (mgas m). unfold u64_ok in *.
  assert (0 <= mgas m / 64 <= mgas m) by (split; [apply Z.div_pos; lia|apply Z.div_le_upper_bound; lia]).
  eexists _, _. split; [reflexivity|]. rewrite (u64_id (mgas m - _)) by (unfold u64_ok; lia).
  unfold UseGas. change (Gas (m_con m)) with (mgas m).
  destruct (Z.ltb_spec (mgas m) (mgas m - mgas m / 64)); [lia|]. unfold mgas in *. simpl.
  rewrite u64_id by (unfold u64_ok; lia). split_and!; [lia..|done].
Qed.

Lemma opCreate_creates : creates (opCreate run par).
Proof.
  intros m Hm. unfold opCreate. destruct m as [i mem st c pc]. pops.
  destruct (readOnly i); [by split_and!; auto with lia|]. pops.
  match goal with |- context [(create_gas ≫= ?k) ?x] =>
    destruct (create_gas_run k x Hm) as (g & m1 & -> & Hg & Hm1 & Hle & Hmem) end.
  pops. match goal with |- context [(interp ?C ≫= _) m1] =>
    pose proof (create_tail C g m1 _ Hm1 (proj1 Hg) Hle ltac:(by apply Create_callee)) as H end.
  rewrite Hmem in H. exact H.
Qed.
Lemma opCreate2_creates : creates (opCreate2 run par).
Proof.
  intros m Hm. unfold opCreate2. destruct m as [i mem st c pc]. pops.
  destruct (readOnly i); [by split_and!; auto with lia|]. pops.
  match goal with |- context [(create_gas ≫= ?k) ?x] =>
    destruct (create_gas_run k x Hm) as (g & m1 & -> & Hg & Hm1 & Hle & Hmem) end.
  pops. match goal with |- context [(interp ?C ≫= _) m1] =>
    pose proof (create_tail C g m1 _ Hm1 (proj1 Hg) Hle ltac:(by apply Create2_callee)) as H end.
  rewrite Hmem in H. exact H.
Qed.

End callees.
