(* ===== verification/EvmTerminate.v ===== *)
(** * Runs end when the gas is spent

    The metering lemmas put together: what the operations of every table promise, one
    round of the loop, the loop, and the calls at the top. *)

From S2P Require Import Prelude Bytes Params RlpEncode RlpRaw Common AccessList.
From S2P Require Import StateDB EvmWord EvmBase Precompiles EvmState EvmCalls EvmGas EvmOps EvmTables EvmRun.
From S2P Require Import EvmSample EvmFrame EvmMeter.

Section tables.
Context {Cr : Crypto} {NC : NativeCrypto} {DB : Database} {U : Uint256} {GR : GoRuntime}.
Variable evm : EVM.
Variable run : run_fun.
Variable par : bool.
Variable enough : Z → Prop.

Implicit Types (o : operation) (op : OpCode).

Definition valued op : bool := match op with CALL | CALLCODE => true | _ => false end.

(** The operations whose only price is the dynamic one. *)
Definition dynamic_price op : bool := match op with EXP | SSTORE | SLOAD | LOG _ => true | _ => false end.

(** An operation that ends the frame when it runs. *)
Definition halting o : Prop :=
  executeAL o = None ∧ ∀ f, execute o = Some f → judge same_gas (λ r, is_Some r.2) f.

Record op_meters op o : Prop := {
  om_const : 0 <= constantGas o;
  om_dyn : ∀ g, dynamicGas o = Some g → pays (λ _ _, True) g;
  om_exec : ∀ f, execute o = Some f → judge same_gas (λ _, True) f;
  om_call : is_call op = true → ∀ f, executeAL o = Some f →
    calls_with enough (call_bound (valued op)) (f par) ∧ is_Some (dynamicGas o) ∧ 1 <= constantGas o;
  om_call_dyn : is_call op = true → ∀ g, dynamicGas o = Some g → pays (call_need (valued op) (2 ^ 64)) g;
  om_create : is_create op = true → ∀ f, executeAL o = Some f → creates enough (f par);
  om_price : 1 <= constantGas o ∨
    if dynamic_price op then ∃ g, dynamicGas o = Some g ∧ pays (λ _ c, 1 <= c) g else halting o;
}.

Definition table_meters (jt : JumpTable) : Prop := ∀ op, op_meters op (jt op).

Lemma pays_any need G : pays need G → pays (λ _ _, True) G.
Proof. by apply pays_weaken. Qed.
Lemma pays_cost lo (G : gasFunc) : (∀ n, 0 <= n → judge (charged n) (cost lo) (G n)) → pays (λ _ _, True) G.
Proof. intros H. eapply pays_any, costs_pays, H. Qed.

(** Operations that are neither calls nor creations. *)
Lemma simple_meters op f gas x y :
  judge same_gas (λ _, True) f → 0 <= gas →
  (1 <= gas ∨ dynamic_price op = false ∧ judge same_gas (λ r, is_Some r.2) f) →
  op_meters op (simple f gas x y).
Proof.
  intros Hf Hg Hp. constructor; simpl; try done.
  - by intros ? [= <-].
  - destruct Hp as [|[-> Hh]]; [by left|right]. split; [done|by intros ? [= <-]].
Qed.

Lemma metered_meters op f gas g sz x y :
  judge same_gas (λ _, True) f → 0 <= gas → is_call op = false → pays (λ _ _, True) g →
  (1 <= gas ∨ if dynamic_price op then pays (λ _ c, 1 <= c) g else judge same_gas (λ r, is_Some r.2) f) →
  op_meters op (mkOperation (Some f) None gas (Some g) x y sz).
Proof.
  intros Hf Hg Hc Hd Hp. constructor; simpl; try done.
  - by intros ? [= <-].
  - by intros ? [= <-].
  - by rewrite Hc.
  - destruct Hp as [|Hp]; [by left|right]. destruct (dynamic_price op); [by eexists|].
    split; [done|by intros ? [= <-]].
Qed.

Lemma create_meters op f gas g sz x y :
  is_call op = false → 1 <= gas → pays (λ _ _, True) g → creates enough (f par) →
  op_meters op (calling f gas g sz x y).
Proof.
  intros Hc Hg Hd Hf. constructor; simpl; try done; [lia|by intros ? [= <-]|by rewrite Hc|by rewrite Hc| |by left].
  by intros _ ? [= <-].
Qed.

Lemma calling_meters op f gas g sz x y :
  is_create op = false → 1 <= gas → pays (call_need (valued op) (2 ^ 64)) g →
  calls_with enough (call_bound (valued op)) (f par) → op_meters op (calling f gas g sz x y).
Proof.
  intros Hc Hg Hd Hf. constructor; simpl; try done; [lia|..|by rewrite Hc|by left].
  - intros ? [= <-]. by eapply pays_any.
  - intros _ ? [= <-]. by split_and!; [|eexists|].
  - by intros _ ? [= <-].
Qed.

Lemma opUndefined_halts : judge same_gas (λ r, is_Some r.2) opUndefined.
Proof.
  unfold opUndefined. do 3 (apply judge_seq; [apply _|meter|intros ?]). apply judge_ret; [apply _|by eexists].
Qed.

Lemma undefined_meters op : dynamic_price op = false → op_meters op undefined_op.
Proof.
  intros Hd. constructor; simpl; try done.
  - intros ? [= <-]. meter.
  - right. rewrite Hd. split; [done|]. intros ? [= <-]. apply opUndefined_halts.
Qed.

Lemma pop_topics_gas n : judge same_gas (λ _, True) (pop_topics n).
Proof. induction n; simpl; meter. Qed.
#[local] Hint Resolve pop_topics_gas : meter.

Ltac plain := solve [meter; try by eexists].

(** The metering lemma of a gas function. *)
Ltac cost_lemma :=
  first [ apply exp_gas_cost | apply gasSStore_cost | apply gasSStoreEIP2200_cost | apply gasSLoadEIP2929_cost
        | apply makeGasSStoreFunc_cost | apply gasEip2929AccountCheck_cost | apply gasSelfdestruct_cost
        | apply makeSelfdestructGasFn_cost | apply cost_memory | apply memoryCopierGas_cost
        | apply gasKeccak256_cost | apply makeGasLog_cost | apply initcode_gas_cost
        | apply gasExtCodeCopyEIP2929_cost ].
Ltac pay :=
  match goal with
  | |- pays (λ _ _, True) _ => eapply pays_cost; intros; cost_lemma; assumption
  | |- pays (λ _ c, 1 <= c) _ => apply costs_pays; intros; cost_lemma; assumption
  end.

Lemma pays_bound valued G : pays (call_need valued (2 ^ 64 - 2 ^ 57)) G → pays (call_need valued (2 ^ 64)) G.
Proof. apply pays_weaken. intros m g. unfold call_need. lia. Qed.

Hypothesis run_ok : run_meters run par enough.

Lemma frontier_meters : table_meters (newFrontierInstructionSet evm run).
Proof.
  intros op. destruct op; simpl.
  all: try (apply undefined_meters; reflexivity).
  all: try (apply simple_meters; [plain|lia|first [left; lia | right; split; [done|plain]]]).
  all: try (apply metered_meters; [plain|lia|done|pay|first [left; lia | right; simpl; first [pay | plain]]]).
  - apply create_meters; [done|lia|pay|by apply opCreate_creates].
  - apply calling_meters; [done|lia|apply pays_bound, gasCall_pays|by apply opCall_calls].
  - apply calling_meters; [done|lia|apply pays_bound, gasCallCode_pays|by apply opCallCode_calls].
Qed.

(** *** Changes to a table *)

Lemma op_eqb_eq op op' : op_eqb op op' = true → op = op'.
Proof. destruct op, op'; simpl; congruence. Qed.

Lemma set_op_meters op o jt : op_meters op o → table_meters jt → table_meters (set_op op o jt).
Proof. intros Ho Hj x. unfold set_op. destruct (op_eqb x op) eqn:E; [|done]. by apply op_eqb_eq in E as ->. Qed.

Lemma set_const_meters op g jt : 1 <= g → table_meters jt → table_meters (set_const op g jt).
Proof.
  intros Hg Hj x. unfold set_const. destruct (Hj x). destruct (op_eqb x op); [|done].
  constructor; simpl; try done; [lia| |by left].
  intros Hc f Hf. destruct (om_call0 Hc f Hf) as (?&?&?). done.
Qed.

Lemma set_dyn_meters op g jt :
  pays (λ _ _, True) g →
  (if is_call op then pays (call_need (valued op) (2 ^ 64)) g
   else if dynamic_price op then pays (λ _ c, 1 <= c) g else True) →
  table_meters jt → table_meters (set_dyn op g jt).
Proof.
  intros Hg Hp Hj x. unfold set_dyn. destruct (op_eqb x op) eqn:E; [|done]. apply op_eqb_eq in E as ->.
  destruct (Hj op). constructor; simpl; try done.
  - by intros ? [= <-].
  - intros Hc f Hf. destruct (om_call0 Hc f Hf) as (?&?&?). by split_and!; [|eexists|].
  - intros Hc ? [= <-]. by rewrite Hc in Hp.
  - destruct om_price0 as [|H]; [by left|right]. destruct (dynamic_price op) eqn:Ed; [|done].
    exists g. split; [done|]. destruct (is_call op) eqn:Ec; [by destruct op|done].
Qed.

Lemma set_gas_meters op c g jt :
  0 <= c → pays (λ _ _, True) g →
  (if is_call op then 1 <= c ∧ pays (call_need (valued op) (2 ^ 64)) g
   else 1 <= c ∨ dynamic_price op = true ∧ pays (λ _ c, 1 <= c) g) →
  table_meters jt → table_meters (set_gas op c g jt).
Proof.
  intros Hc Hg Hp Hj x. unfold set_gas, set_dyn, set_const. destruct (op_eqb x op) eqn:E; [|done].
  apply op_eqb_eq in E as ->. destruct (Hj op). constructor; simpl; try done.
  - by intros ? [= <-].
  - intros Hi f Hf. destruct (om_call0 Hi f Hf) as (?&?&?). rewrite Hi in Hp.
    split_and!; [done|by eexists|apply Hp].
  - intros Hi ? [= <-]. rewrite Hi in Hp. apply Hp.
  - destruct (is_call op); [left; apply Hp|]. destruct Hp as [|[-> ?]]; [by left|right; by eexists].
Qed.

Lemma call_2929 op G :
  is_call op = true → pays (call_need (valued op) (2 ^ 64 - 2 ^ 57)) G → ∀ jt,
  table_meters jt → table_meters (set_gas op WarmStorageReadCostEIP2929 (makeCallVariantGasCallEIP2929 G) jt).
Proof.
  intros Hc HG jt. pose proof (makeCallVariant_pays _ _ HG). apply set_gas_meters; [lia|by eapply pays_any|].
  rewrite Hc. split; [lia|done].
Qed.

Lemma enable2929_meters jt : table_meters jt → table_meters (enable2929 jt).
Proof.
  intros Hj. unfold enable2929. cbv zeta.
  apply set_gas_meters; [lia|pay|left; lia|].
  apply call_2929; [done|apply unvalued_pays|]. apply call_2929; [done|apply unvalued_pays|].
  apply call_2929; [done|apply gasCallCode_pays|]. apply call_2929; [done|apply gasCall_pays|].
  do 4 (apply set_gas_meters; [lia|pay|left; lia|]).
  apply set_gas_meters; [lia|pay|right; split; [done|pay]|]. apply set_dyn_meters; [pay|simpl; pay|done].
Qed.

Ltac table_update :=
  first [ apply set_const_meters; [lia|] | apply set_dyn_meters; [pay|simpl; first [done | pay]|]
        | apply set_op_meters; [first [apply simple_meters; [plain|lia|left; lia]
                                      | apply metered_meters; [plain|lia|done|pay|left; lia]]|] ].

Lemma EnableEIP_meters n jt jt' : EnableEIP evm n jt = Some jt' → table_meters jt → table_meters jt'.
Proof.
  intros H Hj. unfold EnableEIP in H.
  repeat match type of H with (if ?b then _ else _) = _ => destruct b; [injection H as <-|] end; [..|done].
  all: try (by apply enable2929_meters).
  all: unfold enable5656, enable6780, enable3855, enable3860, enable3529, enable3198,
         enable2200, enable1884, enable1344, enable1153.
  all: repeat table_update; done.
Qed.

Lemma interpreter_table_meters : table_meters (interpreter_table evm run).
Proof.
  unfold interpreter_table. generalize frontier_meters. generalize (newFrontierInstructionSet evm run).
  induction (ExtraEips evm) as [|e es IH]; intros jt Hj; simpl; [done|]. apply IH.
  destruct (EnableEIP evm e jt) eqn:E; simpl; [|done]. by eapply EnableEIP_meters.
Qed.

End tables.

(** ** One round of the loop *)

Section step.
Context {Cr : Crypto} {NC : NativeCrypto} {DB : Database} {U : Uint256} {GR : GoRuntime}.
Variable par : bool.
Variable enough : Z → Prop.

(** Nothing of the frame changes but what the state database holds. *)
Definition kept (m m' : Machine) : Prop :=
  m_stack m' = m_stack m ∧ m_con m' = m_con m ∧ m_mem m' = m_mem m
  ∧ callGasTemp (m_in m') = callGasTemp (m_in m).
#[global] Instance kept_preorder : PreOrder kept.
Proof. split; [done|]. unfold kept. intros ???. intuition congruence. Qed.

Lemma track_access_kept op can : judge kept (λ _, True) (track_access op par can).
Proof.
  unfold track_access. do 2 (apply judge_seq; [apply _|first [apply judge_gets | apply judge_lift]; apply _|intros ?]).
  destruct par; (apply judge_seq; [apply _|apply judge_lift; apply _|intros ?]).
  - by apply judge_ret; [apply _|].
  - apply judge_seq; [apply _|by intros m|intros _; by apply judge_ret; [apply _|]].
Qed.

Lemma use_gas_run {B} g (k : bool → stm Machine B) m : u64_ok (mgas m) → 0 <= g →
  (use_gas g ≫= k) m =
    if mgas m <? g then k false m else k true (set_con m (set_Gas (m_con m) (mgas m - g))).
Proof.
  intros Hm Hg. unfold use_gas, mbind, stm_bind, gets, UseGas, on_con, modify, mret, stm_ret.
  change (Gas (m_con m)) with (mgas m). unfold u64_ok in *.
  destruct (Z.ltb_spec (mgas m) g); [by destruct m|]. by rewrite u64_id by (unfold u64_ok; lia).
Qed.

Lemma resize_paid mem n : mem_Len mem <= mem_Len (mem_Resize mem n) ∧ n <= mem_Len (mem_Resize mem n)
  ∧ lastGasCost (mem_Resize mem n) = lastGasCost mem.
Proof.
  unfold mem_Resize. destruct (Z.ltb_spec (mem_Len mem) n); [|by split_and!; try lia].
  unfold mem_Len, len, zeroes in *. simpl. rewrite length_app, length_replicate. split_and!; [lia..|done].
Qed.

(** The size the memory must have: whole words. *)
Lemma memory_size_run {B} o st (k : Z * bool → stm Machine B) (Post : outcome (B * Machine) → Prop) m :
  (∀ msg, Post (Crash msg)) → (∀ x, Post (k (x, true) m)) →
  (∀ n, 0 <= n < 2 ^ 64 → (32 | n) → Post (k (n, false) m)) →
  Post ((size ← match memorySize o with
                | None => mret (0, false)
                | Some f =>
                    '(memSize, overflow) ← lift (f st);
                    if overflow : bool then mret (0, true) else mret (SafeMul (toWordSize memSize) 32)
                end; k size) m).
Proof.
  intros Hc Ho Hn. unfold mbind at 1, stm_bind at 1.
  destruct (memorySize o) as [f|]; [|apply Hn; [lia|by exists 0]].
  unfold mbind, stm_bind, lift. destruct (f st) as [[ms ov]|]; [|apply Hc]. destruct ov; [apply Ho|].
  unfold mret, stm_ret, SafeMul. assert (0 <= toWordSize ms).
  { unfold toWordSize. destruct (_ <? _); [done|]. apply Z.div_pos; [apply u64_nonneg|lia]. }
  destruct (Z.leb_spec (2 ^ 64) (toWordSize ms * 32)); [apply Ho|].
  rewrite u64_id by (unfold u64_ok; lia). apply Hn; [lia|]. by exists (toWordSize ms).
Qed.

Lemma toWordSize_words n : 0 <= n < 2 ^ 64 → (32 | n) → toWordSize n = n / 32.
Proof.
  intros Hn [k ->]. unfold toWordSize, MaxUint64. destruct (Z.ltb_spec (2 ^ 64 - 1 - 31) (k * 32)); [lia|].
  rewrite u64_id by (unfold u64_ok; lia). rewrite Z.div_add_l, Z.div_mul by lia. change (31 / 32) with 0. lia.
Qed.

Lemma fee_bytes a b : 0 <= a <= b → 0 <= fee (a / 32) <= fee (b / 32).
Proof. intros. apply fee_mono. split; [apply Z.div_pos; lia|apply Z.div_le_mono; lia]. Qed.

(** The fee is covered once the memory has its new size. *)
Lemma resized_paid m m1 n : 0 <= n < 2 ^ 64 → (32 | n) → mem_paid (m_mem m) →
  store (m_mem m1) = store (m_mem m) →
  lastGasCost (m_mem m1) = lastGasCost (m_mem m) ∨ lastGasCost (m_mem m1) = fee (toWordSize n) →
  mem_paid (mem_Resize (m_mem m1) n).
Proof.
  intros Hn Hd [Hp1 Hp2] Hs Hl. destruct (resize_paid (m_mem m1) n) as (H1 & H2 & H3).
  unfold mem_paid. rewrite H3. rewrite (toWordSize_words n) in Hl by done.
  assert (mem_Len (m_mem m1) = mem_Len (m_mem m)) as Hlen by (unfold mem_Len; by rewrite Hs).
  assert (0 <= mem_Len (m_mem m)) by (unfold mem_Len, len; lia).
  pose proof (fee_bytes (mem_Len (m_mem m)) (mem_Len (mem_Resize (m_mem m1) n))).
  pose proof (fee_bytes n (mem_Len (mem_Resize (m_mem m1) n))). lia.
Qed.

(** The state after the dynamic gas is charged: the cost is what any promise about the gas
    function says. *)
Definition after_charge o m (e : option vm_error) m' : Prop :=
  u64_ok (mgas m') ∧ mgas m' <= mgas m
  ∧ (e = None → m_stack m' = m_stack m ∧ mem_paid (m_mem m')
     ∧ ∀ G need, dynamicGas o = Some G → pays need G →
       ∃ c m1, need m1 c ∧ mgas m' + c = mgas m ∧ m_in m1 = m_in m' ∧ m_stack m1 = m_stack m').

Lemma after_charge_ok o m G n g m1 m' :
  dynamicGas o = Some G → 0 <= n → u64_ok (mgas m) → mem_paid (m_mem m) →
  G n m = Done ((g, None), m1) → 0 <= g <= mgas m1 → m_stack m1 = m_stack m → mgas m1 = mgas m →
  m_stack m' = m_stack m1 → m_in m' = m_in m1 → mgas m' = mgas m1 - g → mem_paid (m_mem m') →
  after_charge o m None m'.
Proof.
  intros HG Hn Hm Hp EG Hg Hs Heq Hx1 Hx2 Hx3 Hx4. unfold u64_ok in *. split_and!; [unfold u64_ok; lia|lia|].
  intros _. split_and!; [congruence|done|]. intros G' need HG' Hn'.
  rewrite HG in HG'. injection HG' as <-. specialize (Hn' n m Hn Hm Hp). rewrite EG in Hn'.
  destruct Hn' as (_&_&_&_&_&_&Hn'). destruct (Hn' eq_refl) as [_ Hneed].
  exists g, m1. split_and!; [done|lia|done..].
Qed.

Lemma charge_dynamic_spec o m :
  (∀ g, dynamicGas o = Some g → pays (λ _ _, True) g) → u64_ok (mgas m) → mem_paid (m_mem m) →
  match charge_dynamic o m with
  | Done (e, m') => after_charge o m e m'
  | Crash _ => True
  | OutOfFuel => False
  end.
Proof.
  intros Hd Hm Hp. unfold charge_dynamic.
  destruct (dynamicGas o) as [G|] eqn:EG; [|split_and!; [done|lia|intros _; split_and!; [done..|congruence]]].
  specialize (Hd G eq_refl). unfold mbind at 1, stm_bind at 1, gets.
  match goal with |- context [(match memorySize o with _ => _ end ≫= ?k) m] =>
    pattern ((match memorySize o with
              | None => mret (0, false)
              | Some f => '(memSize, overflow) ← lift (f (m_stack m));
                  if overflow : bool then mret (0, true) else mret (SafeMul (toWordSize memSize) 32)
              end ≫= k) m); apply memory_size_run end; [done|intros x; split_and!; [done|simpl; lia|done]|].
  intros n Hn Hdiv. cbn [snd fst]. pose proof (Hd n m (proj1 Hn) Hm Hp) as HG.
  unfold mbind at 1, stm_bind at 1. destruct (G n m) as [[[g e] m1]| |] eqn:ED; [|done..].
  destruct HG as (Hst & Hstore & Hlast & Hm1 & Hle & Hg & He).
  destruct e; [by split_and!; auto with lia|]. destruct (He eq_refl) as [Heq _].
  rewrite use_gas_run by done. destruct (Z.ltb_spec (mgas m1) g); [by split_and!; auto with lia|].
  pose proof (resized_paid m m1 n Hn Hdiv Hp Hstore Hlast) as Hpaid. cbn [negb].
  destruct (Z.ltb_spec 0 n) as [|Hn0]; (eapply after_charge_ok; [done|apply Hn|done|done|exact ED|lia|done..|]).
  - exact Hpaid.
  - simpl. revert Hpaid. unfold mem_Resize. destruct (Z.ltb_spec (mem_Len (m_mem m1)) n); [|done].
    unfold mem_Len, len in *. lia.
Qed.

Lemma same_mem_paid mem mem' : same_mem mem mem' → mem_paid mem → mem_paid mem'.
Proof. intros [H1 H2]. unfold mem_paid. by rewrite H1, H2. Qed.

Section perform.
Variables (op : OpCode) (o : operation).
Hypothesis Ho : op_meters par enough op o.

Lemma call_exec_spec m : u64_ok (mgas m) → mem_paid (m_mem m) →
  match call_exec o m with
  | Done ((_, e), m') => mgas m' = mgas m ∧ mem_paid (m_mem m') ∧ (halting o → is_Some e)
  | Crash _ => True
  | OutOfFuel => False
  end.
Proof.
  intros Hm Hp. unfold call_exec. destruct (execute o) as [f|] eqn:E; [|done].
  pose proof (om_exec _ _ _ _ Ho f E m) as H. destruct (f m) as [[[r e] m']| |] eqn:Ef; [|done..].
  destruct H as [[? Hmem] _]. split_and!; [done|by eapply same_mem_paid|].
  intros [_ Hh]. specialize (Hh f E m). rewrite Ef in Hh. apply Hh.
Qed.

(** The state after the instruction; [B] is the gas before the dynamic charge. *)
Definition after_perform (B : Z) (m : Machine) (e : option vm_error) (m' : Machine) : Prop :=
  u64_ok (mgas m') ∧ mem_paid (m_mem m') ∧ mgas m' <= (if is_call op then B else mgas m)
  ∧ (par = true → halting o → is_Some e).

Lemma call_AL_spec m B : is_call op = true → u64_ok (mgas m) → mem_paid (m_mem m) → u64_ok B →
  (is_Some (dynamicGas o) → 0 <= callGasTemp (m_in m) ∧ call_bound (valued op) m + mgas m <= B) →
  match call_AL o par m with
  | Done ((_, e, _), m') => after_perform B m e m'
  | Crash _ => True
  | OutOfFuel => ∃ g, ¬ enough g ∧ g <= B ∧ 1 <= constantGas o
  end.
Proof.
  intros Hc Hm Hp HB Hdyn. unfold call_AL. destruct (executeAL o) as [f|] eqn:E; [|done].
  destruct (om_call _ _ _ _ Ho Hc f E) as (Hf & Hd & H1). destruct (Hdyn Hd) as [Ht Hb].
  unfold u64_ok in *. assert (0 <= call_bound (valued op) m < 2 ^ 64).
  { unfold call_bound, surcharge in *. repeat case_match; lia. }
  specialize (Hf m Hm Ht H). destruct (f par m) as [[[[r e] c] m']| |]; [|done|].
  - destruct Hf as (?&?&?). split_and!; [done|by eapply same_mem_paid|rewrite Hc; lia|].
    intros _ [Hn _]. congruence.
  - destruct Hf as (g & ? & ?). exists g. split_and!; [done|lia..].
Qed.

(** The outcome of the two blocks that run the instruction. *)
Definition performed (B : Z) (m : Machine)
    (out : outcome (list byte * option vm_error * bool * Machine)) : Prop :=
  match out with
  | Done ((_, e, _), m') => after_perform B m e m'
  | Crash _ => True
  | OutOfFuel => ∃ g, ¬ enough g ∧ g <= B ∧ (par = true → 1 <= constantGas o)
  end.

Lemma exec_performed m B (can : bool) : u64_ok (mgas m) → mem_paid (m_mem m) → is_call op = false →
  performed B m (('(res, err) ← call_exec o; mret (res, err, can)) m).
Proof.
  intros Hm Hp Hc. pose proof (call_exec_spec m Hm Hp) as H. unfold mbind, stm_bind.
  destruct (call_exec o m) as [[[r e] m']| |]; [|done..]. destruct H as (He&?&?). simpl.
  unfold after_perform. rewrite Hc, He. split_and!; [done..|lia|done].
Qed.

Lemma perform_spec can res m B : u64_ok (mgas m) → mem_paid (m_mem m) → u64_ok B → mgas m <= B →
  (is_call op = true → is_Some (dynamicGas o) →
   0 <= callGasTemp (m_in m) ∧ call_bound (valued op) m + mgas m <= B) →
  performed B m (perform op o par can res m).
Proof.
  intros Hm Hp HB Hle Hcall. unfold perform.
  destruct (is_create op) eqn:Ecr.
  - assert (is_call op = false) as Hc by (by destruct op). case_eq par; intros Ep.
    + unfold mbind at 1, stm_bind at 1, mret at 1, stm_ret at 1. simpl. rewrite Hc. by apply exec_performed.
    + unfold call_AL. destruct (executeAL o) as [f|] eqn:E; [|done].
      pose proof (om_create _ _ _ _ Ho Ecr f E m Hm) as H. rewrite Ep in H.
      unfold mbind, stm_bind. destruct (f false m) as [[[[r e] c] m']| |]; [|done|].
      * simpl. unfold after_perform. rewrite Hc. destruct H as (?&?&?). split_and!; [done|by eapply same_mem_paid|done|].
        by rewrite Ep.
      * destruct H as (g&?&?). exists g. split_and!; [done|lia|by rewrite Ep].
  - unfold mbind at 1, stm_bind at 1, mret at 1, stm_ret at 1. destruct (par || can) eqn:Epc.
    + destruct (is_call op) eqn:Hc; [|by apply exec_performed].
      pose proof (call_AL_spec m B Hc Hm Hp HB (Hcall eq_refl)) as H.
      destruct (call_AL o par m) as [[[[r e] c] m']| |]; [done..|]. destruct H as (g&?&?&?). by exists g.
    + apply orb_false_iff in Epc as [Ep _]. unfold mret, stm_ret, performed, after_perform. rewrite Ep.
      split_and!; [done|done|case_match; lia|done].
Qed.

End perform.

(** One round: the gas does not grow, and in parallel mode a round that goes on costs gas. *)
Definition stepped (m : Machine) (out : outcome (step_out * Machine)) : Prop :=
  match out with
  | Done (Next _ _, m') =>
      u64_ok (mgas m') ∧ mem_paid (m_mem m') ∧ mgas m' <= mgas m ∧ (par = true → mgas m' < mgas m)
  | Done (Halt _ _ _, m') => u64_ok (mgas m') ∧ mgas m' <= mgas m
  | Crash _ => True
  | OutOfFuel => ∃ g, ¬ enough g ∧ g <= mgas m ∧ (par = true → g < mgas m)
  end.

Lemma step_tail op o m m1 m2 can res : op_meters par enough op o →
  mgas m1 = mgas m - constantGas o → u64_ok (mgas m1) → after_charge o m1 None m2 →
  stepped m ((can ← track_access op par can;
              '(res, err, can) ← perform op o par can res;
              match err with
              | Some e => mret (Halt res (clear_stop e) can)
              | None =>
                  if par && negb can then mret (Halt res None can)
                  else _ ← modify (λ m, set_pc m (m_pc m + 1)%u64); mret (Next can res)
              end) m2).
Proof.
  intros Ho Hm1 Hm1ok (Hm2ok & Hle & Hch). destruct (Hch eq_refl) as (Hst & Hp & Hneed).
  pose proof (om_const _ _ _ _ Ho) as Hc0.
  judge_run kept; [apply track_access_kept|]. rename s1 into m3, H into Hk.
  destruct Hk as (Hk1 & Hk2 & Hk3 & Hk4). assert (mgas m3 = mgas m2) as Hk5 by (unfold mgas; by rewrite Hk2).
  pose proof (perform_spec op o Ho a res m3 (mgas m1)) as Hpf. rewrite Hk3, Hk5 in Hpf.
  specialize (Hpf Hm2ok Hp Hm1ok Hle). unfold mbind at 1, stm_bind at 1.
  assert (performed op o (mgas m1) m3 (perform op o par a res m3)) as Hpd.
  { apply Hpf. intros Hic [G HG]. destruct (Hneed G _ HG (om_call_dyn _ _ _ _ Ho Hic G HG))
      as (c & mx & [Ht Hb] & Hg & Hin & Hs). unfold call_bound. rewrite Hk4, Hk1, <- Hin, <- Hs. lia. }
  clear Hpf. destruct (perform op o par a res m3) as [[[[r e] c] m4]| |]; simpl in Hpd; [|done|].
  - destruct Hpd as (Hm4 & Hp4 & Hle4 & Hh). assert (mgas m4 <= mgas m1) by (destruct (is_call op); lia).
    destruct e as [e|]; [split; [done|simpl; lia]|].
    case_eq par; intros Ep; [destruct c|]; simpl; try (by split_and!; auto with lia).
    2: { split_and!; [done|done|change (mgas m4 <= mgas m); lia|by rewrite Ep]. }
    split_and!; [done|done|change (mgas m4 <= mgas m); lia|]. intros _. change (mgas (set_pc m4 _)) with (mgas m4).
    destruct (om_price _ _ _ _ Ho) as [|Hpr]; [lia|]. destruct (dynamic_price op) eqn:Ed.
    + destruct Hpr as (G & HG & Hpay). destruct (Hneed G _ HG Hpay) as (k & mx & Hk & Hg & _).
      destruct (is_call op) eqn:Eic; [by destruct op|]. lia.
    + destruct (Hh Ep Hpr) as [? [=]].
  - destruct Hpd as (g & ? & ? & Hs). exists g. split_and!; [done|lia|]. intros Ep. specialize (Hs Ep). lia.
Qed.

Lemma step_spec jt can res m : table_meters par enough jt → u64_ok (mgas m) → mem_paid (m_mem m) →
  stepped m (step jt par can res m).
Proof.
  intros Hj Hm Hp. unfold step. unfold mbind at 1, stm_bind at 1, gets.
  set (op := op_of_byte _). pose proof (Hj op) as Ho. set (o := jt op) in *. cbv zeta.
  destruct (_ <? op_minStack o); [split; [done|simpl; lia]|].
  destruct (op_maxStack o <? _); [split; [done|simpl; lia]|].
  rewrite use_gas_run by (done || apply (om_const _ _ _ _ Ho)).
  destruct (Z.ltb_spec (mgas m) (constantGas o)) as [|Hc]; [split; [done|simpl; lia]|]. cbn [negb].
  pose proof (om_const _ _ _ _ Ho) as Hc0.
  set (m1 := set_con m _). assert (mgas m1 = mgas m - constantGas o) as Hm1 by done.
  assert (u64_ok (mgas m1)) as Hm1ok by (unfold u64_ok in *; lia).
  pose proof (charge_dynamic_spec o m1 (om_dyn _ _ _ _ Ho) Hm1ok Hp) as Hch.
  unfold mbind at 1, stm_bind at 1. destruct (charge_dynamic o m1) as [[e m2]| |]; [|done..].
  destruct e; [destruct Hch as (? & ? & _); split; [done|simpl; lia]|]. by eapply step_tail.
Qed.

End step.

(** ** The loop *)

Section loop.
Context {Cr : Crypto} {NC : NativeCrypto} {DB : Database} {U : Uint256} {GR : GoRuntime}.
Variable evm : EVM.

(** A loop with [n] rounds: the gas never grows, and in parallel mode more rounds than gas
    are enough. *)
Definition loop_meters (par : bool) (n : nat) (lp : loop_fun) : Prop := ∀ can res m,
  u64_ok (mgas m) → mem_paid (m_mem m) →
  match lp par can res m with
  | Done (_, m') => u64_ok (mgas m') ∧ mgas m' <= mgas m
  | Crash _ => True
  | OutOfFuel => par = true → Z.of_nat n <= mgas m
  end.

Lemma run_with_meters par n lp : loop_meters par n lp →
  run_meters (run_with lp) par (λ g, par = true ∧ g < Z.of_nat n).
Proof.
  intros Hl c input ro i Hc. unfold run_with. destruct (_ =? 0); [split; [done|simpl; lia]|].
  match goal with |- context [lp par true [] ?m] => pose proof (Hl true [] m Hc) as H end.
  assert (mem_paid NewMemory) as Hp by (split; vm_compute; discriminate). specialize (H Hp).
  destruct (lp par true [] _) as [[[[ret err] can] m']| |]; [done..|].
  intros [Ep Hlt]. specialize (H Ep). unfold mgas in H. simpl in H. lia.
Qed.

Lemma loop_ok par n : loop_meters par n (loop evm n).
Proof.
  induction n as [|n IH]; intros can res m Hm Hp; simpl; [intros _; unfold u64_ok in *; lia|].
  unfold loop_round, mbind, stm_bind.
  pose proof (step_spec par _ _ can res m
    (interpreter_table_meters evm _ par _ (run_with_meters par n _ IH)) Hm Hp) as Hs.
  destruct (step _ par can res m) as [[[can' res'|ret err can'] m']| |]; simpl in Hs; [|done|done|].
  - destruct Hs as (Hm' & Hp' & Hle & Hlt). specialize (IH can' res' m' Hm' Hp').
    destruct (loop evm n par can' res' m') as [[r m2]| |]; [|done|].
    + destruct IH. split; [done|lia].
    + intros Ep. specialize (IH Ep). specialize (Hlt Ep). lia.
  - intros Ep. destruct Hs as (g & Hg & Hle & Hlt). specialize (Hlt Ep).
    assert (¬ (g < Z.of_nat n)) by naive_solver. lia.
Qed.

Lemma Run_meters par n : run_meters (Run evm n) par (λ g, par = true ∧ g < Z.of_nat n).
Proof. apply run_with_meters, loop_ok. Qed.

End loop.

(** ** The theorems *)

Section theorems.
Context {Cr : Crypto} {NC : NativeCrypto} {DB : Database} {U : Uint256} {GR : GoRuntime}.

Lemma Call_meters evm fuel caller addr input gas v par :
  u64_ok gas →
  callee (λ g, par = true ∧ g < Z.of_nat fuel) cr_gas gas (Call (Run evm fuel) caller addr input gas v par).
Proof. apply Call_callee, Run_meters. Qed.

(** C13: A call never returns more gas than it was given, in serial and in parallel mode,
    through any nesting of calls, creations and precompiled contracts, with any of the
    optional instruction sets enabled: the stipend of a call that moves value is covered by
    the surcharge its caller paid, and no intermediate sum wraps around. *)
Theorem Call_gas_bounded evm fuel caller addr input gas v par i r i' :
  u64_ok gas →
  Call (Run evm fuel) caller addr input gas v par i = Done (r, i') →
  0 <= cr_gas r <= gas.
Proof.
  intros Hg H. pose proof (Call_meters evm fuel caller addr input gas v par Hg i) as Hm.
  rewrite H in Hm. unfold u64_ok in Hm. lia.
Qed.

(** C4: In parallel mode a call returns or panics whatever the code does: every round of
    the interpreter that does not end its frame costs gas, so a number of rounds above the
    gas given is enough, for the frame and for every frame nested in it. *)
Theorem parallel_Call_returns evm fuel caller addr input gas v i :
  u64_ok gas → gas < Z.of_nat fuel →
  (∃ r i', Call (Run evm fuel) caller addr input gas v true i = Done (r, i'))
  ∨ (∃ msg, Call (Run evm fuel) caller addr input gas v true i = Crash msg).
Proof.
  intros Hg Hf. pose proof (Call_meters evm fuel caller addr input gas v true Hg i) as Hm.
  destruct (Call _ _ _ _ _ _ _ i) as [[r i']|msg|]; [by left; eexists _, _|by right; eexists|].
  by destruct Hm.
Qed.

(** *** Serial mode *)

Lemma table_STOP evm run : interpreter_table evm run STOP = simple opStop 0 0 0.
Proof.
  unfold interpreter_table. assert (newFrontierInstructionSet evm run STOP = simple opStop 0 0 0) as H by done.
  revert H. generalize (newFrontierInstructionSet evm run).
  induction (ExtraEips evm) as [|e es IH]; intros jt Hj; simpl; [done|]. apply IH.
  unfold EnableEIP. by repeat (case_match; [done|]).
Qed.

Lemma range_map_empty {K V} `{Countable K} : range_map (∅ : gmap K V) = [].
Proof. apply Permutation_nil_r. rewrite range_map_perm. by rewrite map_to_list_empty. Qed.

Lemma combine_into_empty p : combine_into p NewAccessList = Ok p.
Proof.
  destruct p as [al|]; simpl; [|by rewrite decide_True].
  unfold CombineTrueAccessList. simpl. by rewrite range_map_empty.
Qed.

(** A round at the end of the code when [CanParallel] was cleared: [STOP] is fetched,
    costs nothing, and is not executed. *)
Lemma STOP_unexecuted evm run m res :
  len (Code (m_con m)) <= m_pc m < 2 ^ 64 - 1 → len (m_stack m) <= 1024 → u64_ok (mgas m) →
  ∃ m', step (interpreter_table evm run) false false res m = Done (Next false res, m')
    ∧ Code (m_con m') = Code (m_con m) ∧ m_pc m' = m_pc m + 1 ∧ m_stack m' = m_stack m ∧ mgas m' = mgas m.
Proof.
  intros Hpc Hst Hm. unfold step. unfold mbind at 1, stm_bind at 1, gets, id.
  assert (GetOp (m_con m) (m_pc m) = 0) as ->.
  { unfold GetOp. destruct (Z.ltb_spec (m_pc m) (len (Code (m_con m)))); [lia|done]. }
  change (op_of_byte 0) with STOP. rewrite table_STOP. cbv zeta. cbn [op_minStack op_maxStack simple constantGas].
  unfold st_len, minStack, maxStack. destruct (Z.ltb_spec (len (m_stack m)) 0); [unfold len in *; lia|].
  destruct (Z.ltb_spec (1024 + 0 - 0) (len (m_stack m))); [lia|]. unfold u64_ok in *.
  rewrite use_gas_run by (done || lia). destruct (Z.ltb_spec (mgas m) 0); [lia|]. cbn [negb].
  unfold charge_dynamic. cbn [dynamicGas simple]. unfold track_access, mbind, stm_bind, gets, id, mret, stm_ret, lift.
  cbn [GetTrueAccessList m_in set_con]. rewrite combine_into_empty. eexists. split; [reflexivity|].
  simpl. unfold mgas. simpl. rewrite u64_id by (unfold u64_ok, len in *; lia). split_and!; try done. lia.
Qed.

Lemma serial_loop_spins evm n : ∀ res m,
  len (Code (m_con m)) <= m_pc m → m_pc m + Z.of_nat n < 2 ^ 64 → len (m_stack m) <= 1024 → u64_ok (mgas m) →
  loop evm n false false res m = OutOfFuel.
Proof.
  induction n as [|n IH]; intros res m Hpc Hn Hst Hm; [done|]. simpl. unfold loop_round, mbind, stm_bind.
  destruct (STOP_unexecuted evm (run_with (loop evm n)) m res) as (m' & -> & Hc & Hp & Hs & Hg); [lia|done..|].
  unfold u64_ok in *. apply IH; rewrite ?Hc, ?Hp, ?Hs, ?Hg; unfold u64_ok; lia.
Qed.

(** *** Instructions without a function *)

Lemma free_op_unfold evm run op par can res m :
  op_of_byte (GetOp (m_con m) (m_pc m)) = op → interpreter_table evm run op = undefined_op →
  len (m_stack m) <= 1024 → u64_ok (mgas m) →
  step (interpreter_table evm run) par can res m
  = (can ← track_access op par can;
     '(res, err, can) ← perform op undefined_op par can res;
     match err with
     | Some e => mret (Halt res (clear_stop e) can)
     | None =>
         if par && negb can then mret (Halt res None can)
         else _ ← modify (λ m, set_pc m (m_pc m + 1)%u64); mret (Next can res)
     end) (set_con m (set_Gas (m_con m) (mgas m - 0))).
Proof.
  intros Hop Ht Hst Hm. unfold step. unfold mbind at 1, stm_bind at 1, gets, id. rewrite Hop, Ht. cbv zeta.
  cbn [undefined_op op_minStack op_maxStack constantGas]. unfold st_len, maxStack, u64_ok in *.
  destruct (Z.ltb_spec (len (m_stack m)) 0); [unfold len in *; lia|].
  destruct (Z.ltb_spec (1024 + 0 - 0) (len (m_stack m))); [lia|].
  rewrite use_gas_run by (done || lia). destruct (Z.ltb_spec (mgas m) 0); [lia|done].
Qed.

(** The instructions [DELEGATECALL] and [STATICCALL] are in no table the interpreter
    uses; the slots are filled with an operation that reports an invalid instruction, but
    the loop runs calls through another function field, which is nil there.  Executing one
    of them panics, whatever the state, the mode and the gas. *)
Theorem missing_call_panics evm n par can res m :
  ExtraEips evm = [] →
  op_of_byte (GetOp (m_con m) (m_pc m)) ∈ [DELEGATECALL; STATICCALL] →
  len (m_stack m) <= 1024 → u64_ok (mgas m) → par || can = true →
  ∃ msg, loop evm (S n) par can res m = Crash msg.
Proof.
  intros He Hop Hst Hm Hpc. simpl. unfold loop_round, mbind at 1, stm_bind at 1.
  set (run := run_with (loop evm n)). set (op := op_of_byte _) in *.
  assert (interpreter_table evm run op = undefined_op) as Ht.
  { unfold interpreter_table. rewrite He. set_unfold in Hop. by destruct Hop as [->|[->|[]]]. }
  rewrite (free_op_unfold evm run op) by done. unfold mbind at 1, stm_bind at 1.
  destruct (track_access op par can _) as [[can' m']|msg|] eqn:E; [|by eexists|].
  - assert (is_create op = false ∧ is_call op = true) as [H1 H2]
      by (set_unfold in Hop; by destruct Hop as [->|[->|[]]]).
    unfold perform. rewrite H1, H2. unfold mbind, stm_bind, mret, stm_ret.
    destruct (par || can') eqn:E2; [by eexists|].
    apply orb_false_iff in E2 as [-> ->]. simpl in Hpc. subst can. exfalso. revert E.
    unfold track_access, mbind, stm_bind, gets, lift, mret, stm_ret. by repeat case_match.
  - exfalso. pose proof (track_access_kept par op can (set_con m (set_Gas (m_con m) (mgas m - 0)))) as H.
    by rewrite E in H.
Qed.

(** The first [k] rounds of a loop of [k + n], when none of them halts. *)
Fixpoint rounds (evm : EVM) (n k : nat) (par can : bool) (res : list byte) (m : Machine)
    : option (bool * list byte * Machine) :=
  match k with
  | O => Some (can, res, m)
  | S k =>
      match step (interpreter_table evm (run_with (loop evm (k + n)))) par can res m with
      | Done (Next can res, m) => rounds evm n k par can res m
      | _ => None
      end
  end.

Lemma rounds_loop evm n k par : ∀ can res m can' res' m',
  rounds evm n k par can res m = Some (can', res', m') →
  loop evm (k + n) par can res m = loop evm n par can' res' m'.
Proof.
  induction k as [|k IH]; intros can res m can' res' m' H; simpl in *; [by injection H as <- <- <-|].
  unfold loop_round, mbind, stm_bind. destruct (step _ _ _ _ _) as [[[c r|] m1]| |]; [|done..]. by apply IH.
Qed.

(** C40: In serial mode the interpreter does not return once [CanParallel] has been cleared
    and the end of the code is reached: [STOP] is fetched again and again, free of charge,
    and never executed, for as many rounds as the program counter has values. *)
Theorem serial_run_spins evm n res m :
  len (Code (m_con m)) <= m_pc m → m_pc m + Z.of_nat n < 2 ^ 64 → len (m_stack m) <= 1024 → u64_ok (mgas m) →
  loop evm n false false res m = OutOfFuel.
Proof. apply serial_loop_spins. Qed.

End theorems.

#[local] Existing Instances toy_crypto mem_database word_model toy_native reference_runtime.

(** A call that recurses into itself until the gas is spent. *)
Definition recursion : list byte :=
  [0x60; 0; 0x60; 0; 0x60; 0; 0x60; 0; 0x60; 0; 0x60; 0x77; 0x5a; 0xf1; 0x00].

Lemma Call_gas_bounded_witness :
  match Call (Run sample_evm 200) (AccountRef 1) 0x77 [] 1000 0 true (sample_interp recursion) with
  | Done (r, _) => 0 <= cr_gas r <= 1000
  | _ => False
  end.
Proof.
  assert (H : match Call (Run sample_evm 200) (AccountRef 1) 0x77 [] 1000 0 true (sample_interp recursion) with
              | Done _ => true | _ => false end = true) by (vm_compute; reflexivity).
  destruct (Call _ _ _ _ _ _ _ _) as [[r i']| |] eqn:E; [|discriminate H..].
  eapply Call_gas_bounded; [|exact E]. split; reflexivity || lia.
Defined.

Lemma parallel_Call_returns_witness :
  (∃ r i', Call (Run sample_evm 1001) (AccountRef 1) 0x77 [] 1000 0 true (sample_interp recursion) = Done (r, i'))
  ∨ (∃ msg, Call (Run sample_evm 1001) (AccountRef 1) 0x77 [] 1000 0 true (sample_interp recursion) = Crash msg).
Proof. apply parallel_Call_returns; [split; lia|lia]. Defined.

(** A serial run of a contract that creates another one. *)
Definition creator : list byte := [0x60; 0; 0x60; 0; 0x60; 0; 0xf0].

Lemma serial_run_spins_witness :
  Run sample_evm (4 + Z.to_nat (2 ^ 60)) (sample_contract creator 100000) [] false false (sample_interp [])
    = OutOfFuel.
Proof.
  assert (Hn : Z.of_nat (Z.to_nat (2 ^ 60)) = 2 ^ 60) by lia.
  revert Hn. generalize (Z.to_nat (2 ^ 60)). intros n Hn.
  set (m0 := mkMachine (enter false (sample_interp [])) NewMemory []
               (set_Input (sample_contract creator 100000) []) 0).
  assert (H : match rounds sample_evm n 4 false true [] m0 with
              | Some (can, _, m) => negb can && (len (Code (m_con m)) =? 7) && (m_pc m =? 7)
                  && (len (m_stack m) =? 1) && (0 <=? mgas m) && (mgas m <=? 100000)
              | None => false
              end = true) by (vm_compute; reflexivity).
  destruct (rounds sample_evm n 4 false true [] m0) as [[[[] res] m]|] eqn:E; [discriminate H| |discriminate H].
  apply rounds_loop in E. repeat apply andb_prop in H as [H ?].
  unfold Run, run_with. change (len (Code (sample_contract creator 100000)) =? 0) with false. cbv iota zeta.
  fold m0. rewrite E, (serial_run_spins sample_evm n res m); [reflexivity|unfold u64_ok; lia..].
Defined.

(** A contract of one byte. *)
Lemma missing_call_panics_witness :
  ∃ msg, loop sample_evm 2 true true []
    (mkMachine (sample_interp []) NewMemory [] (sample_contract [0xf4] 100000) 0) = Crash msg.
Proof.
  apply missing_call_panics; [reflexivity|left|vm_compute; discriminate|split; vm_compute; congruence|reflexivity].
Defined.
