(* ===== verification/Transition.v ===== *)
(** * Applying a transaction (core/transition.go)

    The checks before a transaction, the purchase of its gas, the intrinsic gas, the call
    of the virtual machine, and the settlement after it.  The state is that of the
    virtual machine, [Interp]; [run] is its interpreter. *)

From S2P Require Import Prelude Bytes Params RlpEncode RlpRaw Common AccessList Types.
From S2P Require Import StateDB EvmWord EvmBase Precompiles EvmState EvmCalls EvmRun.

(** An error made here, one of the virtual machine, or one of the signature check. *)
Inductive core_error :=
| core_New (msg : string)
| core_evm (e : vm_error)
| core_sender (e : tx_error).

Record TxMessage := mkTxMessage {
  msg_To : option Address;
  msg_From : Address;
  msg_Nonce : Z;
  msg_Value : Z;
  msg_GasLimit : Z;
  msg_GasPrice : Z;
  msg_GasFeeCap : Z;
  msg_GasTipCap : Z;
  msg_Data : list byte;
  msg_AccessList : option AccessList;
  msg_BlobHashes : list Hash;
  msg_IsParallel : bool;
  msg_CanParallel : bool;
  msg_SkipAccountChecks : bool;
}.

Definition set_CanParallel (m : TxMessage) (b : bool) : TxMessage :=
  mkTxMessage (msg_To m) (msg_From m) (msg_Nonce m) (msg_Value m) (msg_GasLimit m) (msg_GasPrice m)
    (msg_GasFeeCap m) (msg_GasTipCap m) (msg_Data m) (msg_AccessList m) (msg_BlobHashes m)
    (msg_IsParallel m) b (msg_SkipAccountChecks m).

Record ExecutionResult := NewExecutionResult {
  er_UsedGas : Z;
  er_Err : option core_error;
  er_ReturnData : list byte;
  er_IsParallelError : bool;
  er_TrueAccessList : option AccessList;
}.

(** ** Intrinsic gas *)

Definition toWordSize (size : Z) : Z :=
  if MaxUint64 - 31 <? size then MaxUint64 / 32 + 1 else (size + 31)%u64 / 32.

(** The price of the data. *)
Definition data_price (data : list byte) (isContractCreation : bool) : core_error + Z :=
  let gas := if isContractCreation then TxGasContractCreation else TxGas in
  let dataLen := u64 (len data) in
  if 0 <? dataLen then
    let nz := count_nonzero data in
    let nonZeroGas := TxDataNonZeroGasFrontier in
    if (MaxUint64 - gas) / nonZeroGas <? nz then inl (core_New "gas uint64 overflow")
    else
      let gas := (gas + nz * nonZeroGas)%u64 in
      let z := (dataLen - nz)%u64 in
      if (MaxUint64 - gas) / TxDataZeroGas <? z then inl (core_New "gas uint64 overflow")
      else
        let gas := (gas + z * TxDataZeroGas)%u64 in
        if isContractCreation then
          let lenWords := toWordSize dataLen in
          if (MaxUint64 - gas) / InitCodeWordGas <? lenWords then inl (core_New "gas uint64 overflow")
          else inr (gas + lenWords * InitCodeWordGas)%u64
        else inr gas
  else inr gas.

(** A nil list is dereferenced; the map of a list is never nil. *)
Definition IntrinsicGas (data : list byte) (accessList : option AccessList) (isContractCreation : bool)
    : res (core_error + Z) :=
  match data_price data isContractCreation with
  | inl e => Ok (inl e)
  | inr gas =>
      al ← deref accessList;
      let gas := (gas + u64 (Len al) * TxAccessListAddressGas)%u64 in
      let gas := (gas + u64 (StorageKeys al) * TxAccessListStorageKeyGas)%u64 in
      Ok (inr gas)
  end.

Section transition.
Context {Cr : Crypto} {NC : NativeCrypto} {DB : Database} {U : Uint256}.
Variable evm : EVM.
Variable run : run_fun.

(** ** Checks *)

Definition BuyGas (msg : TxMessage) : stm Interp (option core_error) :=
  let BalanceGas := msg_GasLimit msg * msg_GasPrice msg + msg_Value msg in
  have ← db_get (λ s, GetBalance s (msg_From msg));
  if have <? BalanceGas then mret (Some (core_New "insufficient funds for gas * price + value"))
  else _ ← db_do (λ s, SubBalance s (msg_From msg) BalanceGas); mret None.

(** The checks of EIP-1559. *)
Definition fee_check (msg : TxMessage) : res (option core_error) :=
  if (0 <? BitLen (msg_GasFeeCap msg)) || (0 <? BitLen (msg_GasTipCap msg)) then
    if 256 <? BitLen (msg_GasFeeCap msg) then Ok (Some (core_New "max fee per gas higher than 2^256-1"))
    else if 256 <? BitLen (msg_GasTipCap msg)
    then Ok (Some (core_New "max priority fee per gas higher than 2^256-1"))
    else if msg_GasFeeCap msg <? msg_GasTipCap msg
    then Ok (Some (core_New "max priority fee per gas higher than max fee per gas"))
    else
      baseFee ← deref (BaseFee (Context evm));
      if msg_GasFeeCap msg <? baseFee then Ok (Some (core_New "max fee per gas less than block base fee"))
      else Ok None
  else Ok None.

Definition PreCheck (msg : TxMessage) : stm Interp (option core_error) :=
  txNonce ← db_get (λ s, GetNonce s (msg_From msg));
  if txNonce <? msg_Nonce msg then mret (Some (core_New "nonce too high"))
  else if msg_Nonce msg <? txNonce then mret (Some (core_New "nonce too low"))
  else if (txNonce + 1)%u64 <? txNonce then mret (Some (core_New "nonce has max value"))
  else
    codeHash ← db_get (λ s, GetCodeHash s (msg_From msg));
    if negb (codeHash =? 0) && negb (codeHash =? EmptyCodeHash)
    then mret (Some (core_New "sender not an eoa"))
    else
      err ← lift (fee_check msg);
      match err with
      | Some e => mret (Some e)
      | None => BuyGas msg
      end.

(** ** Settlement *)

Definition RefundGas (GasUsed GasRemain : Z) (msg : TxMessage) : stm Interp () :=
  counter ← gets (λ i, refund (evm_StateDB i));
  let amount := if counter <? GasUsed / 2 then counter else GasUsed / 2 in
  let GasRemain := (GasRemain + amount)%u64 in
  db_do (λ s, AddBalance s (msg_From msg) (GasRemain * msg_GasPrice msg)).

Definition pay_coinbase (gas : Z) (msg : TxMessage) : stm Interp () :=
  db_do (λ s, AddBalance s (Coinbase (Context evm)) (gas * msg_GasTipCap msg)).

(** ** The transaction *)

(** An error before the virtual machine is called. *)
Definition refused (e : core_error) (msg : TxMessage) : ExecutionResult * TxMessage :=
  (NewExecutionResult 0 (Some e) [] false None, msg).

(** The call of the virtual machine; the access list it is handed is nil. *)
Definition execute_message (msg : TxMessage) (gas : Z) : stm Interp call_result :=
  let Sender := AccountRef (msg_From msg) in
  _ ← modify (λ i, set_TrueAccessList i None);
  match msg_To msg with
  | None =>
      '(r, _) ← Create run Sender (msg_Data msg) gas (msg_Value msg) (msg_IsParallel msg);
      mret r
  | Some to =>
      nonce ← db_get (λ s, GetNonce s (msg_From msg));
      _ ← db_do (λ s, SetNonce s (msg_From msg) (nonce + 1)%u64);
      Call run Sender to (msg_Data msg) gas (msg_Value msg) (msg_IsParallel msg)
  end.

(** After the call: roll back, or pay and return what is left. *)
Definition settle (SnapShot ExpenseGasBase GasRemainBefore : Z) (r : call_result) (msg : TxMessage)
    : stm Interp (ExecutionResult * TxMessage) :=
  let IsParallel := msg_IsParallel msg in
  let msg := set_CanParallel msg (cr_CanParallel r) in
  match cr_err r with
  | None =>
      if IsParallel && negb (cr_CanParallel r) then
        _ ← db_try (λ s, RevertToSnapshot s SnapShot);
        mret (NewExecutionResult 0 None [] true None, msg)
      else
        let used := (ExpenseGasBase + GasRemainBefore - cr_gas r)%u64 in
        _ ← RefundGas used (cr_gas r) msg;
        _ ← pay_coinbase used msg;
        mret (NewExecutionResult used None (cr_ret r) false None, msg)
  | Some e =>
      let bought := (ExpenseGasBase + GasRemainBefore)%u64 in
      _ ← pay_coinbase bought msg;
      mret (NewExecutionResult bought (Some (core_evm e)) [] false None, msg)
  end.

Definition ApplyTransaction (msg : TxMessage) : stm Interp (ExecutionResult * TxMessage) :=
  SnapShot ← db_get Snapshot;
  err ← PreCheck msg;
  match err with
  | Some e => mret (refused e msg)
  | None =>
      let ContractCreation := bool_decide (msg_To msg = None) in
      base ← lift (IntrinsicGas (msg_Data msg) (msg_AccessList msg) ContractCreation);
      match base with
      | inl e => mret (refused e msg)
      | inr ExpenseGasBase =>
          if msg_GasLimit msg <? ExpenseGasBase
          then mret (refused (core_New "gas is not enough in ExpenseGas_Base") msg)
          else
            let GasRemainBefore := (msg_GasLimit msg - ExpenseGasBase)%u64 in
            can ← (if 0 <? msg_Value msg then db_get (CanTransfer (msg_From msg) (msg_Value msg)) else mret true);
            if negb can then mret (refused (core_New "insufficient funds for transfer") msg)
            else if ContractCreation && (MaxInitCodeSize <? len (msg_Data msg))
            then mret (refused (core_New "max init-code size exceeded") msg)
            else
              r ← execute_message msg GasRemainBefore;
              settle SnapShot ExpenseGasBase GasRemainBefore r msg
      end
  end.

End transition.
