(* ===== verification/TransitionProps.v ===== *)
(** * What applying a transaction does to the accounts

    A refusal in parallel mode restores the state; a transaction that fails in the virtual
    machine, or is refused after its gas was bought, keeps what it paid; and a transfer
    that succeeds charges its value twice. *)

From S2P Require Import Prelude Bytes Params RlpEncode RlpRaw Common AccessList Types.
From S2P Require Import StateDB StateEquiv StateRevert StateSteps StateRefine StateFrame StateValues.
From S2P Require Import EvmWord EvmBase Precompiles EvmState EvmCalls EvmRun EvmSample EvmFrame.
From S2P Require Import EvmMeter EvmTerminate Transition.

Section transition.
Context {Cr : Crypto} {NC : NativeCrypto} {DB : Database} {U : Uint256} {GR : GoRuntime}.
Variable evm : EVM.
Implicit Types (msg : TxMessage) (i : Interp).

Abbreviation keeps := (respects iok iframe).

Lemma BuyGas_keeps msg : keeps (BuyGas msg).
Proof. unfold BuyGas. solve_keeps. Qed.
Lemma PreCheck_keeps msg : keeps (PreCheck evm msg).
Proof. pose proof BuyGas_keeps. unfold PreCheck. solve_keeps; auto. Qed.
Lemma RefundGas_keeps used remain msg : keeps (RefundGas used remain msg).
Proof. unfold RefundGas. solve_keeps. Qed.
Lemma pay_coinbase_keeps g msg : keeps (pay_coinbase evm g msg).
Proof. unfold pay_coinbase. solve_keeps. Qed.

Section run.
Variable run : run_fun.
Hypothesis run_keeps : ∀ c input ro par, keeps (run c input ro par).

Lemma execute_message_keeps msg g : keeps (execute_message run msg g).
Proof.
  unfold execute_message. destruct (calls_keep run run_keeps) as (HC&_&_&_&HCr&_).
  apply respects_bind; [apply _|by apply keeps_imodify|intros _]. destruct (msg_To msg).
  - do 2 (apply respects_bind; [apply _|solve_keeps|intros ?]). apply HC.
  - apply respects_bind; [apply _|apply HCr|intros [r a]]. solve_keeps.
Qed.

(** *** Refusals in parallel mode *)

Definition parallel_error (r : ExecutionResult * TxMessage) : option vm_error :=
  if er_IsParallelError r.1 then Some ErrExecutionReverted else None.

Lemma settle_guarded s base before r msg : db_ok s →
  guarded parallel_error s (settle evm (Snapshot s).1 base before r msg).
Proof.
  intros Hs. unfold settle. destruct (cr_err r) as [e|].
  - apply guarded_bind; [apply pay_coinbase_keeps|intros _]. by apply guarded_ok.
  - destruct (_ && _).
    + intros i r' i' Hi Hf ([] & i1 & H & [= <- <-])%stm_bind_Done. unfold db_try in H.
      destruct (frame_revert s (evm_StateDB i) Hs Hf) as (s3 & Hr & Heq & Hfr & _).
      rewrite Hr in H. injection H as <-. split; [by exists []|done].
    + apply guarded_bind; [apply RefundGas_keeps|intros _].
      apply guarded_bind; [apply pay_coinbase_keeps|intros _]. by apply guarded_ok.
Qed.

Lemma ApplyTransaction_ok msg : call_ok parallel_error (ApplyTransaction evm run msg).
Proof.
  unfold ApplyTransaction. apply call_ok_snapshot. intros s Hs.
  apply guarded_bind; [apply PreCheck_keeps|intros [e|]]; [by apply guarded_ok|].
  apply guarded_bind; [solve_keeps|intros [e|base]]; [by apply guarded_ok|].
  destruct (_ <? _); [by apply guarded_ok|].
  apply guarded_bind; [solve_keeps|intros can]. destruct (negb can); [by apply guarded_ok|].
  destruct (_ && _); [by apply guarded_ok|].
  apply guarded_bind; [apply execute_message_keeps|intros r]. by apply settle_guarded.
Qed.

End run.

(** C14: A transaction of a parallel group that turns out not to be parallel leaves no
    trace: whatever it executed, every observation of the state is as before, including
    the sender's balance and nonce, so that it can run again in the serial queue.  And
    in any case [ApplyTransaction] keeps the snapshots of its callers valid. *)
Theorem parallel_refusal_restores fuel msg i r i' :
  db_ok (evm_StateDB i) →
  ApplyTransaction evm (Run evm fuel) msg i = Done (r, i') →
  frame (evm_StateDB i) (evm_StateDB i')
  ∧ (er_IsParallelError r.1 = true → state_equiv (evm_StateDB i') (evm_StateDB i)).
Proof.
  intros Hi H. apply ApplyTransaction_ok in H as [Hf He]; [|apply Run_keeps|done].
  split; [done|]. intros Hp. apply He. unfold parallel_error. rewrite Hp. by eexists.
Qed.

(** *** The checks *)

(** What the gas and the value of a message cost. *)
Definition purchase msg : Z := msg_GasLimit msg * msg_GasPrice msg + msg_Value msg.

(** The database after a reader. *)
Lemma read_done {A} (f : StateDB → A * StateDB) i a i' : reader f → iok i → db_get f i = Done (a, i') →
  a = (f (evm_StateDB i)).1 ∧ iok i' ∧ state_equiv (evm_StateDB i') (evm_StateDB i).
Proof.
  intros Hr Hi H. assert (iok i') as Hi'.
  { eapply frame_db_ok; [exact Hi|]. by apply (keeps_read f Hr) in H. }
  apply db_get_done in H as [-> H]. split_and!; [done..|]. rewrite H. apply Hr.
Qed.

(** Passing the checks means: the nonce matches, the purchase is covered and was paid. *)
Lemma PreCheck_passed msg i i' : iok i → PreCheck evm msg i = Done (None, i') →
  iok i' ∧ nonce (evm_StateDB i) (msg_From msg) = msg_Nonce msg
  ∧ purchase msg <= balance (evm_StateDB i) (msg_From msg)
  ∧ state_equiv (evm_StateDB i') (SubBalance (evm_StateDB i) (msg_From msg) (purchase msg)).
Proof.
  intros Hi H. assert (iok i') as Hi' by (eapply frame_db_ok; [exact Hi|by apply PreCheck_keeps in H]).
  split; [done|]. unfold PreCheck in H. apply stm_bind_Done in H as (n & i1 & Hn & H).
  apply read_done in Hn as (Hn & Hi1 & He1); [|apply GetNonce_reader|done]. rewrite GetNonce_value in Hn.
  destruct (Z.ltb_spec n (msg_Nonce msg)); [done|]. destruct (Z.ltb_spec (msg_Nonce msg) n); [done|].
  destruct (_ <? n); [done|]. apply stm_bind_Done in H as (h & i2 & Hh & H).
  apply read_done in Hh as (_ & Hi2 & He2); [|apply GetCodeHash_reader|done].
  destruct (_ && _); [done|]. apply stm_bind_Done in H as (e & i3 & He & H).
  assert (i3 = i2) as -> by (unfold lift in He; destruct (fee_check _ _); congruence).
  destruct e; [done|]. unfold BuyGas in H. apply stm_bind_Done in H as (have & i4 & Hb & H).
  apply read_done in Hb as (Hb & Hi4 & He4); [|apply GetBalance_reader|done]. rewrite GetBalance_value in Hb.
  assert (state_equiv (evm_StateDB i4) (evm_StateDB i)) as Heq by (etrans; [exact He4|]; by etrans).
  destruct (Z.ltb_spec have (msg_GasLimit msg * msg_GasPrice msg + msg_Value msg)); [done|].
  apply stm_bind_Done in H as ([] & i5 & [= <-] & [= <-]). unfold purchase.
  rewrite (balance_equiv _ (evm_StateDB i)) in Hb by (by etrans). split_and!; [lia..|].
  simpl. apply SubBalance_equiv; [apply Hi4|done].
Qed.

(** *** The state at the call *)

Lemma intrinsic_error data al cr e : IntrinsicGas data al cr = Ok (inl e) → ∃ m, e = core_New m.
Proof.
  unfold IntrinsicGas. destruct (data_price data cr) as [e'|g] eqn:E.
  - intros [= <-]. unfold data_price in E. repeat case_match; simplify_eq; by eexists.
  - intros (a & _ & [=])%res_bind_Ok.
Qed.

(** The interpreter once the snapshot of the transaction is taken. *)
Definition with_snapshot i : Interp := set_StateDB i (Snapshot (evm_StateDB i)).2.

Lemma with_snapshot_ok i : iok i →
  iok (with_snapshot i) ∧ state_equiv (evm_StateDB (with_snapshot i)) (evm_StateDB i).
Proof.
  intros Hi. split; [|by apply state_equiv_ext].
  eapply frame_db_ok; [exact Hi|]. apply Snapshot_frame, Hi.
Qed.

(** The state when the gas and the value have been paid. *)
Definition paid msg i : StateDB := SubBalance (evm_StateDB i) (msg_From msg) (purchase msg).

(** After the checks a transaction is refused with its purchase paid, or executed. *)
Definition refused_paid msg i (r : ExecutionResult * TxMessage) i' : Prop :=
  (∃ m, r = refused (core_New m) msg) ∧ state_equiv (evm_StateDB i') (paid msg i).

Definition executed run msg i (r : ExecutionResult * TxMessage) i' : Prop := ∃ base i1 c i2,
  base <= msg_GasLimit msg
  ∧ IntrinsicGas (msg_Data msg) (msg_AccessList msg) (bool_decide (msg_To msg = None)) = Ok (inr base)
  ∧ iok i1 ∧ state_equiv (evm_StateDB i1) (paid msg i)
  ∧ execute_message run msg (msg_GasLimit msg - base)%u64 i1 = Done (c, i2)
  ∧ settle evm (Snapshot (evm_StateDB i)).1 base (msg_GasLimit msg - base)%u64 c msg i2 = Done (r, i').

Lemma can_transfer_done msg i can i' : iok i →
  (if 0 <? msg_Value msg then db_get (CanTransfer (msg_From msg) (msg_Value msg)) else mret true) i
    = Done (can, i') →
  iok i' ∧ state_equiv (evm_StateDB i') (evm_StateDB i).
Proof.
  intros Hi H. destruct (_ <? _); [|by injection H as <- <-].
  pose proof (keeps_CanTransfer (msg_From msg) (msg_Value msg) _ _ _ Hi H) as Hk.
  apply db_get_done in H as [_ H]. split; [by eapply frame_db_ok|]. rewrite H. apply CanTransfer_quiet.
Qed.

Lemma ApplyTransaction_cases run msg i r i' : iok i → ApplyTransaction evm run msg i = Done (r, i') →
  (∃ e, PreCheck evm msg (with_snapshot i) = Done (Some e, i') ∧ r = refused e msg)
  ∨ nonce (evm_StateDB i) (msg_From msg) = msg_Nonce msg
    ∧ purchase msg <= balance (evm_StateDB i) (msg_From msg)
    ∧ (refused_paid msg i r i' ∨ executed run msg i r i').
Proof.
  intros Hi H. destruct (with_snapshot_ok i Hi) as [Hi1 He1].
  unfold ApplyTransaction in H. apply stm_bind_Done in H as (snap & i1 & [= <- <-] & H).
  change (set_StateDB i _) with (with_snapshot i) in H.
  apply stm_bind_Done in H as ([e|] & i2 & Hp & H); [left; injection H as <- <-; by eexists|right].
  apply PreCheck_passed in Hp as (Hi2 & Hn & Hb & He2); [|done].
  rewrite (nonce_equiv _ (evm_StateDB i)) in Hn by done. rewrite (balance_equiv _ (evm_StateDB i)) in Hb by done.
  split_and!; [done..|].
  assert (state_equiv (evm_StateDB i2) (paid msg i)) as Heq.
  { etrans; [exact He2|]. apply SubBalance_equiv; [apply Hi1|done]. }
  apply stm_bind_Done in H as (base & i3 & Hg & H). unfold lift in Hg.
  destruct (IntrinsicGas _ _ _) as [[e|g]|] eqn:EI; [..|done]; injection Hg as <- <-.
  { left. injection H as <- <-. apply intrinsic_error in EI as [m ->]. split; [by eexists|done]. }
  destruct (Z.ltb_spec (msg_GasLimit msg) g); [left; injection H as <- <-; split; [by eexists|done]|].
  apply stm_bind_Done in H as (can & i3 & Hcan & H).
  apply can_transfer_done in Hcan as [Hi3 He3]; [|done].
  assert (state_equiv (evm_StateDB i3) (paid msg i)) as Heq3 by (by etrans).
  destruct (negb can); [left; injection H as <- <-; split; [by eexists|done]|].
  destruct (_ && _); [left; injection H as <- <-; split; [by eexists|done]|].
  right. apply stm_bind_Done in H as (c & i4 & Hx & H). by exists g, i3, c, i4.
Qed.

(** *** Transactions that fail *)

(** The price of a purchase and its effect on the balances. *)
Definition charged_balance msg s (b : Address) : Z :=
  balance s b - if decide (msg_From msg = b) then purchase msg else 0.

(** C38: A transaction that passes the checks and is then refused, for too little gas, an
    overflow of the intrinsic gas, an uncovered transfer or too large an init code, keeps
    the sender's payment of the whole gas limit and of the value, and does not count up
    the nonce: nothing is returned and nobody receives it. *)
Theorem refused_transaction_keeps_payment run msg i r i' e :
  db_ok (evm_StateDB i) →
  ApplyTransaction evm run msg i = Done (r, i') → er_Err r.1 = Some (core_New e) →
  (∀ x i1, PreCheck evm msg (with_snapshot i) ≠ Done (Some x, i1)) →
  ∀ b, balance (evm_StateDB i') b = charged_balance msg (evm_StateDB i) b
    ∧ nonce (evm_StateDB i') b = nonce (evm_StateDB i) b.
Proof.
  intros Hi H He Hp b. apply ApplyTransaction_cases in H as [(x & Hx & _)|(_ & _ & [[_ Heq]|Hex])]; [..|done].
  - by destruct (Hp x i').
  - rewrite (balance_equiv _ _ b Heq), (nonce_equiv _ _ b Heq). unfold paid, charged_balance.
    by rewrite balance_SubBalance, nonce_SubBalance.
  - destruct Hex as (base & i1 & c & i2 & _ & _ & _ & _ & _ & Hs). unfold settle in Hs.
    destruct (cr_err c) as [x|]; [apply stm_bind_Done in Hs as (? & ? & _ & [= <- <-]); discriminate He|].
    destruct (_ && _); [apply stm_bind_Done in Hs as (? & ? & _ & [= <- <-]); discriminate He|].
    apply stm_bind_Done in Hs as (? & ? & _ & (? & ? & _ & [= <- <-])%stm_bind_Done). discriminate He.
Qed.

Lemma fee_check_error msg e : fee_check evm msg = Ok (Some e) → ∃ m, e = core_New m.
Proof.
  unfold fee_check. destruct (_ || _); [|done]. do 3 (case_match; [intros [= <-]; by eexists|]).
  intros (b & _ & Hb)%res_bind_Ok. case_match; [injection Hb as <-; by eexists|done].
Qed.

Lemma PreCheck_error msg i e i' : PreCheck evm msg i = Done (Some e, i') → ∃ m, e = core_New m.
Proof.
  unfold PreCheck, BuyGas. intros (n & i1 & _ & H)%stm_bind_Done.
  do 3 (case_match; [injection H as <- <-; by eexists|]).
  apply stm_bind_Done in H as (h & i2 & _ & H). case_match; [injection H as <- <-; by eexists|].
  apply stm_bind_Done in H as (x & i3 & Hx & H). unfold lift in Hx. destruct x as [x|].
  - injection H as <- <-. destruct (fee_check evm msg) as [o|] eqn:E; [|done]. injection Hx as -> <-.
    by eapply fee_check_error.
  - apply stm_bind_Done in H as (v & i4 & _ & H). case_match; [injection H as <- <-; by eexists|].
    by apply stm_bind_Done in H as (? & ? & _ & H).
Qed.

Lemma intrinsic_range data al cr g : IntrinsicGas data al cr = Ok (inr g) → u64_ok g.
Proof.
  unfold IntrinsicGas. destruct (data_price data cr); [done|].
  intros (a & _ & [= <-])%res_bind_Ok. apply u64_range.
Qed.

(** The call of a message: the nonce is counted up first. *)
Lemma execute_call run msg to g i c i2 : iok i → msg_To msg = Some to →
  execute_message run msg g i = Done (c, i2) →
  ∃ i0, iok i0
    ∧ state_equiv (evm_StateDB i0)
        (SetNonce (evm_StateDB i) (msg_From msg) (nonce (evm_StateDB i) (msg_From msg) + 1)%u64)
    ∧ Call run (AccountRef (msg_From msg)) to (msg_Data msg) g (msg_Value msg) (msg_IsParallel msg) i0
      = Done (c, i2).
Proof.
  intros Hi Hto H. unfold execute_message in H. rewrite Hto in H.
  apply stm_bind_Done in H as ([] & i1 & [= <-] & H). apply stm_bind_Done in H as (n & i3 & Hn & H).
  apply read_done in Hn as (Hn & Hi3 & He3); [|apply GetNonce_reader|done]. rewrite GetNonce_value in Hn.
  apply stm_bind_Done in H as ([] & i4 & [= <-] & H). eexists. split_and!; [..|exact H].
  - destruct (SetNonce_step (evm_StateDB i3) (msg_From msg) (n + 1)%u64 (proj1 Hi3)) as [es Hst].
    eapply (frame_db_ok (evm_StateDB i3)); [exact Hi3|]. eexists. by apply step_frame.
  - simpl. subst n. apply SetNonce_equiv; [apply Hi3|done].
Qed.

(** The gas of a failed transaction is the whole limit. *)
Lemma settle_failed snap base msg c i r i' e : u64_ok (msg_GasLimit msg) → u64_ok base →
  base <= msg_GasLimit msg → er_Err r.1 = Some (core_evm e) →
  settle evm snap base (msg_GasLimit msg - base)%u64 c msg i = Done (r, i') →
  cr_err c = Some e
  ∧ evm_StateDB i' = AddBalance (evm_StateDB i) (Coinbase (Context evm)) (msg_GasLimit msg * msg_GasTipCap msg).
Proof.
  intros Hlim Hb Hle He H. unfold settle in H. destruct (cr_err c) as [x|].
  - apply stm_bind_Done in H as ([] & i1 & [= <-] & [= <- <-]). simpl in *. injection He as ->. split; [done|].
    unfold u64_ok in *. rewrite (u64_id (_ - _)) by (unfold u64_ok; lia).
    replace (base + (msg_GasLimit msg - base)) with (msg_GasLimit msg) by lia. by rewrite u64_id.
  - destruct (_ && _); [apply stm_bind_Done in H as (? & ? & _ & [= <- <-]); discriminate He|].
    apply stm_bind_Done in H as (? & ? & _ & (? & ? & _ & [= <- <-])%stm_bind_Done). discriminate He.
Qed.

(** A message call that fails in the virtual machine, at any depth and for any reason:
    the sender has paid the whole gas limit and the value, which nobody receives; the
    nonce is counted up; the coinbase is paid the tip for the gas limit; no other account
    has changed its balance or nonce. *)
Theorem failed_transaction_effect fuel msg to i r i' e :
  db_ok (evm_StateDB i) → u64_ok (msg_GasLimit msg) → msg_To msg = Some to →
  ApplyTransaction evm (Run evm fuel) msg i = Done (r, i') → er_Err r.1 = Some (core_evm e) →
  ∀ b, balance (evm_StateDB i') b
       = charged_balance msg (evm_StateDB i) b
         + (if decide (Coinbase (Context evm) = b) then msg_GasLimit msg * msg_GasTipCap msg else 0)
    ∧ nonce (evm_StateDB i') b
       = if decide (msg_From msg = b) then (msg_Nonce msg + 1)%u64 else nonce (evm_StateDB i) b.
Proof.
  intros Hi Hlim Hto H He b.
  apply ApplyTransaction_cases in H as [(x & Hx & ->)|(Hn & _ & [[[m ->] _]|Hex])]; [| | |done].
  - apply PreCheck_error in Hx as [m ->]. discriminate He.
  - discriminate He.
  - destruct Hex as (base & i1 & c & i2 & Hbase & HI & Hi1 & He1 & Hx & Hs).
    apply intrinsic_range in HI. eapply settle_failed in Hs as [Hc Hs]; [|done..].
    apply (execute_call _ _ to) in Hx as (i0 & Hi0 & He0 & Hcall); [|done..].
    apply Call_call_ok in Hcall as [_ Hr]; [|intros; apply Run_keeps|done]. rewrite Hc in Hr.
    assert (state_equiv (evm_StateDB i2) (evm_StateDB i0)) as Heq by (by apply Hr).
    rewrite Hs, balance_AddBalance, nonce_AddBalance.
    rewrite (balance_equiv _ _ b Heq), (balance_equiv _ _ b He0), balance_SetNonce, (balance_equiv _ _ b He1).
    rewrite (nonce_equiv _ _ b Heq), (nonce_equiv _ _ b He0), nonce_SetNonce, !(nonce_equiv _ _ _ He1).
    unfold paid, charged_balance. by rewrite balance_SubBalance, !nonce_SubBalance, Hn.
Qed.

(** *** Transfers *)

(** A call of an account without code that succeeds only moves the value. *)
Lemma Call_plain run c to input g v par i r i' : iok i →
  is_Some (account (evm_StateDB i) to) → len (default [] (code (evm_StateDB i) to)) = 0 → precompile to = None →
  Call run c to input g v par i = Done (r, i') → cr_err r = None →
  r = mkCall [] g true None ∧ state_equiv (evm_StateDB i') (Transfer (ref_Address c) to v (evm_StateDB i)).
Proof.
  intros Hi Hex Hcode Hpre H He. unfold Call in H. apply stm_bind_Done in H as (d & i0 & [= <- <-] & H).
  destruct (_ <? _); [injection H as <- <-; discriminate He|].
  apply stm_bind_Done in H as (can & i1 & Hcan & H).
  assert (iok i1 ∧ state_equiv (evm_StateDB i1) (evm_StateDB i)) as [Hi1 He1].
  { destruct (v =? 0); [by injection Hcan as <- <-|].
    pose proof (keeps_CanTransfer (ref_Address c) v _ _ _ Hi Hcan) as Hk.
    apply db_get_done in Hcan as [_ Hc]. split; [by eapply frame_db_ok|]. rewrite Hc. apply CanTransfer_quiet. }
  destruct (negb can); [injection H as <- <-; discriminate He|].
  apply stm_bind_Done in H as (snap & i2 & [= <- <-] & H). change (set_StateDB i1 _) with (with_snapshot i1) in H.
  destruct (with_snapshot_ok i1 Hi1) as [Hi2 He2]. apply stm_bind_Done in H as (ex & i3 & Hx & H).
  apply read_done in Hx as (-> & Hi3 & He3); [|apply Exist_reader|done]. rewrite Exist_value in H.
  assert (state_equiv (evm_StateDB i3) (evm_StateDB i)) as Heq by (etrans; [exact He3|]; by etrans).
  assert (state_equiv (evm_StateDB (with_snapshot i1)) (evm_StateDB i)) as Heq2 by (by etrans).
  rewrite (account_equiv _ _ to Heq2), (bool_decide_true _ Hex), Hpre in H. simpl in H.
  apply stm_bind_Done in H as ([] & i4 & [= <-] & H). apply stm_bind_Done in H as ([] & i5 & [= <-] & H).
  assert (state_equiv (Transfer (ref_Address c) to v (evm_StateDB i3)) (Transfer (ref_Address c) to v (evm_StateDB i)))
    as Ht by (apply AddBalance_equiv; [|apply SubBalance_equiv; [apply Hi3|done]];
              destruct (SubBalance_step (evm_StateDB i3) (ref_Address c) v (proj1 Hi3)) as [es Hs]; apply Hs).
  apply stm_bind_Done in H as (cd & i6 & Hc & H). apply db_get_done in Hc as [-> Hi6]. simpl in *.
  rewrite GetCode_value in H. unfold Transfer at 1 in H.
  rewrite code_AddBalance, code_SubBalance, (code_equiv _ _ to Heq), Hcode in H. simpl in H.
  injection H as <- <-. split; [done|]. rewrite Hi6. etrans; [apply (GetCode_reader to)|exact Ht].
Qed.

(** The gas a plain transfer gives back. *)
Definition given_back (used : Z) s : Z := Z.min (used / 2) (refund s).

Lemma settle_plain snap base msg i r i' : u64_ok (msg_GasLimit msg) → u64_ok base → base <= msg_GasLimit msg →
  0 <= refund (evm_StateDB i) →
  settle evm snap base (msg_GasLimit msg - base)%u64 (mkCall [] (msg_GasLimit msg - base)%u64 true None) msg i
    = Done (r, i') →
  er_UsedGas r.1 = base
  ∧ evm_StateDB i' = AddBalance (AddBalance (evm_StateDB i) (msg_From msg)
        ((msg_GasLimit msg - base + given_back base (evm_StateDB i)) * msg_GasPrice msg))
      (Coinbase (Context evm)) (base * msg_GasTipCap msg).
Proof.
  intros Hlim Hb Hle Href H. unfold u64_ok in *. unfold settle in H. cbn [cr_err cr_CanParallel cr_gas negb] in H.
  rewrite andb_false_r in H. rewrite (u64_id (msg_GasLimit msg - base)) in H by (unfold u64_ok; lia).
  replace (base + (msg_GasLimit msg - base) - (msg_GasLimit msg - base)) with base in H by lia.
  rewrite (u64_id base) in H by done.
  apply stm_bind_Done in H as ([] & i1 & Hr & ([] & i2 & [= <-] & [= <- <-])%stm_bind_Done).
  unfold RefundGas in Hr. apply stm_bind_Done in Hr as (counter & i3 & [= <- <-] & [= <-]). simpl.
  split; [done|]. do 3 f_equal. unfold given_back.
  assert (0 <= base / 2 <= base) by (split; [apply Z.div_pos; lia|apply Z.div_le_upper_bound; lia]).
  destruct (Z.ltb_spec (refund (evm_StateDB i)) (base / 2)); rewrite u64_id by (unfold u64_ok; lia); lia.
Qed.

Definition at_address (a b : Address) (amount : Z) : Z := if decide (a = b) then amount else 0.

(** The settlement of an executed call leaves no error only when the call had none. *)
Lemma settle_ok snap base before c msg i r i' :
  settle evm snap base before c msg i = Done (r, i') → er_Err r.1 = None → cr_err c = None.
Proof.
  unfold settle. destruct (cr_err c) as [e|]; [|done].
  intros ([] & i1 & _ & [= <- <-])%stm_bind_Done. by intros [=].
Qed.

(** C37: The effect of a successful transfer to an existing account without code on every
    balance: the purchase already contains the value, and the virtual machine moves the
    value once more.  The sender pays the value twice and the recipient receives it once;
    the gas left and at most half of the gas used come back, and the coinbase receives the
    tip on the gas used before that refund. *)
Theorem transfer_charges_value_twice fuel msg to i r i' :
  db_ok (evm_StateDB i) → u64_ok (msg_GasLimit msg) → 0 <= refund (evm_StateDB i) →
  msg_To msg = Some to → precompile to = None →
  is_Some (account (evm_StateDB i) to) → len (default [] (code (evm_StateDB i) to)) = 0 →
  ApplyTransaction evm (Run evm fuel) msg i = Done (r, i') → er_Err r.1 = None →
  let used := er_UsedGas r.1 in
  ∀ b, balance (evm_StateDB i') b
       = balance (evm_StateDB i) b
         - at_address (msg_From msg) b (msg_GasLimit msg * msg_GasPrice msg + msg_Value msg)
         - at_address (msg_From msg) b (msg_Value msg) + at_address to b (msg_Value msg)
         + at_address (msg_From msg) b
             ((msg_GasLimit msg - used + given_back used (evm_StateDB i)) * msg_GasPrice msg)
         + at_address (Coinbase (Context evm)) b (used * msg_GasTipCap msg).
Proof.
  intros Hi Hlim Href Hto Hpre Hex Hcode H Hok used b.
  apply ApplyTransaction_cases in H as [(x & _ & ->)|(Hn & _ & [[[m ->] _]|Hx])]; [discriminate Hok..| |done].
  destruct Hx as (base & i1 & c & i2 & Hbase & HI & Hi1 & He1 & Hx & Hs). apply intrinsic_range in HI.
  pose proof (settle_ok _ _ _ _ _ _ _ _ Hs Hok) as Hc.
  apply (execute_call _ _ to) in Hx as (i0 & Hi0 & He0 & Hcall); [|done..].
  assert (∀ x, account (evm_StateDB i0) x = account (SetNonce (evm_StateDB i1) (msg_From msg)
    (nonce (evm_StateDB i1) (msg_From msg) + 1)%u64) x) as Hacc by (intros; by apply account_equiv).
  assert (refund (evm_StateDB i0) = refund (evm_StateDB i)) as Hrf.
  { rewrite (se_refund _ _ He0), refund_SetNonce, (se_refund _ _ He1). apply refund_SubBalance. }
  apply Call_plain in Hcall as [-> Het]; [|done| | |done..].
  - apply settle_plain in Hs as [Hu Hs]; [|done..|].
    + subst used. rewrite Hu, Hs, !balance_AddBalance, (balance_equiv _ _ b Het). unfold Transfer. simpl.
      rewrite balance_AddBalance, balance_SubBalance, (balance_equiv _ _ b He0), balance_SetNonce,
        (balance_equiv _ _ b He1). unfold paid, given_back.
      rewrite balance_SubBalance, (se_refund _ _ Het). unfold Transfer, purchase, at_address.
      rewrite refund_AddBalance, refund_SubBalance, Hrf. lia.
    + rewrite (se_refund _ _ Het). unfold Transfer. by rewrite refund_AddBalance, refund_SubBalance, Hrf.
  - rewrite Hacc. apply exists_SetNonce. rewrite (account_equiv _ _ to He1). by apply exists_SubBalance.
  - rewrite (code_equiv _ _ to He0), code_SetNonce, (code_equiv _ _ to He1). unfold paid. by rewrite code_SubBalance.
Qed.

End transition.

(** ** Intrinsic gas in the pool and in execution *)

(** The price of data that is too short for the checks to matter. *)
Lemma data_price_spec data cr : len data < 2 ^ 50 →
  data_price data cr
  = inr ((if cr then 53000 else 21000) + nonzeros data * 68 + (len data - nonzeros data) * 4
         + if cr then (len data + 31) / 32 * 2 else 0).
Proof.
  intros Hn. pose proof (nonzeros_range data) as Hr. unfold data_price, len in *.
  rewrite u64_id by (unfold u64_ok; lia). rewrite count_nonzero_spec by lia.
  change Transition.toWordSize with Types.toWordSize. rewrite Types.toWordSize_spec by (unfold u64_ok; lia).
  set (n := Z.of_nat (length data)) in *. set (nz := nonzeros data) in *.
  assert (0 <= (n + 31) / 32 <= n + 31) by (split; [apply Z.div_pos; lia|apply Z.div_le_upper_bound; lia]).
  change TxGas with 21000. change TxDataZeroGas with 4. change InitCodeWordGas with 2.
  rewrite !gas_check by lia. set (base := if cr then 53000 else 21000).
  assert (0 <= base <= 53000) by (subst base; destruct cr; lia).
  destruct (Z.ltb_spec 0 n) as [Hlen|Hlen].
  2: { assert (n = 0) as -> by lia. assert (nz = 0) as -> by lia. destruct cr; subst base; done. }
  u64_norm. rewrite !(u64_id (n - nz)) by (unfold u64_ok; lia).
  rewrite !(u64_id (base + nz * 68)) by (unfold u64_ok; lia).
  rewrite !(u64_id (base + nz * 68 + (n - nz) * 4)) by (unfold u64_ok; lia).
  rewrite !(u64_id (base + nz * 68 + (n - nz) * 4 + (n + 31) / 32 * 2)) by (unfold u64_ok; lia).
  destruct (Z.leb_spec (2 ^ 64) (base + nz * 68)); [lia|].
  destruct (Z.leb_spec (2 ^ 64) (base + nz * 68 + (n - nz) * 4)); [lia|].
  destruct cr; [|f_equal; lia].
  destruct (Z.leb_spec (2 ^ 64) (base + nz * 68 + (n - nz) * 4 + (n + 31) / 32 * 2)); [lia|done].
Qed.

(** The pool and the execution disagree on the intrinsic gas.  The pool admits a
    transaction that covers [Transaction.IntrinsicGas]; execution demands 52 more per
    non-zero byte of data, and 32000 more for a creation, from a gas limit that was
    already paid. *)
Theorem execution_gas_exceeds_pool_gas tx al p :
  len (tx_Data tx) < 2 ^ 50 → tx_AccessList tx = Some al → Types.IntrinsicGas tx = inr p →
  IntrinsicGas (tx_Data tx) (Some al) (bool_decide (tx_To tx = None))
  = Ok (inr (u64 (p + 52 * nonzeros (tx_Data tx) + match tx_To tx with Some _ => 0 | None => 32000 end))).
Proof.
  intros Hn Hal Hp. unfold Types.IntrinsicGas in Hp. rewrite payload_gas_spec, Hal in Hp by (unfold len in *; lia).
  destruct (Z.leb_spec (2 ^ 64) (data_gas tx)); [done|]. injection Hp as <-.
  unfold IntrinsicGas. rewrite data_price_spec by done. simpl. unfold data_gas, len in *.
  change TxGas with 21000. change TxDataNonZeroGasEIP2028 with 16. change TxDataZeroGas with 4.
  change InitCodeWordGas with 2. do 2 f_equal. u64_norm. rewrite <- (Z.add_assoc (u64 _)), u64_add_l. f_equal.
  destruct (tx_To tx); [rewrite bool_decide_false by done|rewrite bool_decide_true by done]; lia.
Qed.

Lemma execution_gas_exceeds_pool_gas_witness :
  IntrinsicGas (tx_Data (sample_tx [] [0; 1; 2])) (Some NewAccessList) false = Ok (inr (21036 + 52 * 2)).
Proof.
  apply (execution_gas_exceeds_pool_gas (sample_tx [] [0; 1; 2]) NewAccessList 21036);
    [vm_compute; reflexivity|reflexivity|vm_compute; reflexivity].
Defined.

(** ** Samples *)

#[local] Existing Instances toy_crypto mem_database word_model toy_native reference_runtime.

(** Account 1 is rich, account 0x77 has code, account 0x55 has none. *)
Definition rich_interp (cd : list byte) : Interp :=
  new_interp (AddBalance (AddBalance (sample_state cd) 1 10000000) 0x55 7).

Lemma rich_interp_ok cd : db_ok (evm_StateDB (rich_interp cd)).
Proof.
  change (db_ok (AddBalance (AddBalance (sample_state cd) 1 10000000) 0x55 7)).
  pose proof (sample_interp_ok cd) as H0. change (db_ok (sample_state cd)) in H0.
  destruct (AddBalance_step (sample_state cd) 1 10000000 (proj1 H0)) as [es H1].
  destruct (AddBalance_step (AddBalance (sample_state cd) 1 10000000) 0x55 7) as [es' H2]; [apply H1|].
  eapply frame_db_ok; [exact H0|]. eapply frame_trans; eexists; apply step_frame; eassumption.
Qed.

Definition sample_msg (to : Address) (limit : Z) : TxMessage :=
  mkTxMessage (Some to) 1 0 5 limit 3 3 1 [] (Some NewAccessList) [] true true false.

Abbreviation apply_sample cd to limit :=
  (ApplyTransaction sample_evm (Run sample_evm 10) (sample_msg to limit) (rich_interp cd)).

(** A contract that reads a balance is not parallel: no account was declared. *)
Lemma parallel_refusal_restores_witness :
  match apply_sample [0x60; 0x01; 0x31] 0x77 50000 with
  | Done (r, i') => er_IsParallelError r.1 = true
      ∧ state_equiv (evm_StateDB i') (evm_StateDB (rich_interp [0x60; 0x01; 0x31]))
  | _ => False
  end.
Proof.
  assert (H : match apply_sample [0x60; 0x01; 0x31] 0x77 50000 with
              | Done (r, _) => er_IsParallelError r.1 | _ => false end = true) by (vm_compute; reflexivity).
  destruct (apply_sample _ _ _) as [[r i']| |] eqn:E; [|discriminate H..]. split; [exact H|].
  apply parallel_refusal_restores in E as [_ E]; [exact (E H)|apply rich_interp_ok].
Defined.

Lemma failed_transaction_effect_witness :
  match apply_sample [0xfe] 0x77 50000 with
  | Done (r, i') => balance (evm_StateDB i') 1 = 10000100 - (50000 * 3 + 5)
      ∧ nonce (evm_StateDB i') 1 = 1 ∧ balance (evm_StateDB i') 99 = 50000
  | _ => False
  end.
Proof.
  assert (H : match apply_sample [0xfe] 0x77 50000 with
              | Done (r, _) => match er_Err r.1 with Some (core_evm _) => true | _ => false end
              | _ => false end = true) by (vm_compute; reflexivity).
  destruct (apply_sample _ _ _) as [[r i']| |] eqn:E; [|discriminate H..].
  destruct (er_Err r.1) as [[m|e|x]|] eqn:Er; try discriminate H.
  pose proof (failed_transaction_effect sample_evm 10 (sample_msg 0x77 50000) 0x77 _ r i' e
    (rich_interp_ok [0xfe]) ltac:(split; reflexivity || (cbn; lia)) eq_refl E Er) as Hb.
  split; [|split].
  - rewrite (proj1 (Hb 1)). vm_compute. reflexivity.
  - rewrite (proj2 (Hb 1)). reflexivity.
  - rewrite (proj1 (Hb 99)). vm_compute. reflexivity.
Defined.

(** A gas limit below the intrinsic gas. *)
Lemma refused_transaction_keeps_payment_witness :
  match apply_sample [] 0x55 20000 with
  | Done (r, i') => balance (evm_StateDB i') 1 = 10000100 - (20000 * 3 + 5) ∧ nonce (evm_StateDB i') 1 = 0
  | _ => False
  end.
Proof.
  assert (H : match apply_sample [] 0x55 20000 with
              | Done (r, _) => match er_Err r.1 with Some (core_New _) => true | _ => false end
              | _ => false end = true) by (vm_compute; reflexivity).
  assert (Hp : match PreCheck sample_evm (sample_msg 0x55 20000) (with_snapshot (rich_interp [])) with
               | Done (Some _, _) => false | _ => true end = true) by (vm_compute; reflexivity).
  destruct (apply_sample _ _ _) as [[r i']| |] eqn:E; [|discriminate H..].
  destruct (er_Err r.1) as [[m|e|x]|] eqn:Er; try discriminate H.
  pose proof (refused_transaction_keeps_payment sample_evm _ (sample_msg 0x55 20000) _ r i' m
    (rich_interp_ok []) E Er ltac:(intros x i1 Hx; rewrite Hx in Hp; discriminate Hp)) as Hb.
  split.
  - rewrite (proj1 (Hb 1)). vm_compute. reflexivity.
  - rewrite (proj2 (Hb 1)). vm_compute. reflexivity.
Defined.

Lemma transfer_charges_value_twice_witness :
  match apply_sample [] 0x55 30000 with
  | Done (r, i') => balance (evm_StateDB i') 1 = 10000100 - 21000 * 3 - 5 - 5
      ∧ balance (evm_StateDB i') 0x55 = 7 + 5
  | _ => False
  end.
Proof.
  assert (H : match apply_sample [] 0x55 30000 with
              | Done (r, _) => match er_Err r.1 with None => er_UsedGas r.1 =? 21000 | _ => false end
              | _ => false end = true) by (vm_compute; reflexivity).
  destruct (apply_sample _ _ _) as [[r i']| |] eqn:E; [|discriminate H..].
  destruct (er_Err r.1) as [e|] eqn:Er; [discriminate H|]. apply Z.eqb_eq in H.
  pose proof (transfer_charges_value_twice sample_evm 10 (sample_msg 0x55 30000) 0x55 (rich_interp []) r i'
    (rich_interp_ok []) ltac:(split; reflexivity || (cbn; lia)) ltac:(vm_compute; discriminate) eq_refl eq_refl
    ltac:(vm_compute; eexists; reflexivity) ltac:(vm_compute; reflexivity) E Er) as Hb.
  cbv zeta in Hb. rewrite H in Hb. split.
  - rewrite (Hb 1). vm_compute. reflexivity.
  - rewrite (Hb 0x55). vm_compute. reflexivity.
Defined.
