(* ===== verification/Process.v ===== *)
(** * Executing a block: core/process.go, core/process_types.go and core/pvm.go

    A block's transactions come in groups.  [Process] runs every group in a thread of its
    own over one shared state, collects what the threads return, runs the transactions
    that could not run in parallel in a serial thread, and commits the state.  The threads
    are run one after another, in an order [schedule] chooses; the results arrive in the
    channel in that order.  Every thread has an interpreter of its own; the state, the gas
    counter and the base fee in the block's header are shared, the last because
    [TransactionToMessage] computes in place. *)

From S2P Require Import Prelude Bytes Params RlpEncode RlpRaw Common AccessList Types.
From S2P Require Import StateDB StateCommit Blocks EvmWord EvmBase Precompiles EvmState EvmCalls EvmRun.
From S2P Require Import Transition.

(** ** process_types.go *)

Record TxErrorMessage := NewTxErrorMessage {
  em_Tx : Transaction;
  em_Result : string;
  em_ErrorMsg : option core_error;
}.

Record TxAccessListMessage := mkTxAccessListMessage {
  am_Tx : Transaction;
  am_TrueAccessList : option AccessList;
}.

Record MessageReturn := mkMessageReturn {
  NewReceipt : list Receipt;
  NewLogs : list Log;
  TxSerial : list Transaction;
  TxError : list TxErrorMessage;
  TxAccessList : list TxAccessListMessage;
}.

Record ProcessReturnMsg := NewProcessReturnMsg {
  pr_Receipt : list Receipt;
  pr_Logs : list Log;
  pr_ErrTx : list TxErrorMessage;
  pr_AlTx : list TxAccessListMessage;
  pr_UsedGas : Z;
  pr_RootHash : Hash;
}.

Definition empty_return : MessageReturn := mkMessageReturn [] [] [] [] [].
Definition add_error (m : MessageReturn) (e : TxErrorMessage) : MessageReturn :=
  mkMessageReturn (NewReceipt m) (NewLogs m) (TxSerial m) (TxError m ++ [e]) (TxAccessList m).
Definition add_serial (m : MessageReturn) (txs : list Transaction) : MessageReturn :=
  mkMessageReturn (NewReceipt m) (NewLogs m) (TxSerial m ++ txs) (TxError m) (TxAccessList m).
Definition add_receipt (m : MessageReturn) (r : Receipt) : MessageReturn :=
  mkMessageReturn (NewReceipt m ++ [r]) (NewLogs m ++ rc_Logs r) (TxSerial m) (TxError m) (TxAccessList m).
Definition add_access (m : MessageReturn) (a : TxAccessListMessage) : MessageReturn :=
  mkMessageReturn (NewReceipt m) (NewLogs m) (TxSerial m) (TxError m) (TxAccessList m ++ [a]).

Section process.
Context {Cr : Crypto} {NC : NativeCrypto} {DB : Database} {U : Uint256} {GR : GoRuntime}.

(** [TransactionToMessage]: [baseFee.Add(baseFee, tipfee)] stores the sum in the base fee
    it was given and returns that same number, which the second [Add] overwrites again;
    the new base fee is returned, with the transaction whose sender is now cached.
    [cmath.BigMin] returns the smaller of its arguments. *)
Definition TransactionToMessage (tx : Transaction) (s : panguSigner) (baseFee : option Z)
    (IsParallel : bool) : res ((tx_error + TxMessage) * Transaction * option Z) :=
  tipfee ← tx_GasTipCap tx;
  base ← deref baseFee;
  let base := base + tipfee in
  feeCap ← tx_GasFeeCap tx;
  value ← tx_Value tx;
  let base := tipfee + base in
  let price := if feeCap <? base then feeCap else base in
  '(from, tx) ← Sender s tx;
  let msg := match from with
             | inl err => inl err
             | inr from =>
                 inr (mkTxMessage (tx_To tx) from (tx_Nonce tx) value (tx_GasLimit tx) price
                        feeCap tipfee (tx_Data tx) (tx_AccessList tx) [] IsParallel IsParallel false)
             end in
  Ok (msg, tx, Some base).

(** [SortSerialTX]: by nonce, then by falling gas price, then by hash.  The transactions it
    is given went through [TransactionToMessage], so their fee cap is not nil. *)
Definition serial_less (x y : Z * Z * Hash * Transaction) : bool :=
  let '(n1, p1, h1, _) := x in
  let '(n2, p2, h2, _) := y in
  if n1 <? n2 then true
  else if n1 =? n2 then
    if p2 <? p1 then true else if p1 =? p2 then h1 <? h2 else false
  else false.
Definition serial_key (tx : Transaction) : res (Z * Z * Hash * Transaction) :=
  price ← tx_GasPrice tx;
  '(h, tx) ← tx_Hash tx;
  Ok (tx_Nonce tx, price, h, tx).
Definition SortSerialTX (l : list Transaction) : res (list Transaction) :=
  match l with
  | [] | [_] => Ok l
  | _ => keyed ← mapM serial_key l; Ok ((sort_slice serial_less keyed).*2)
  end.

(** ** pvm.go *)

Definition NewEVMBlockContext (header : Header) (getHash : Z → Hash) : res BlockContext :=
  number ← deref (hd_Number header);
  Ok (mkBlockContext getHash (hd_Coinbase header) (hd_GasLimit header) number (hd_Time header)
        (hd_BaseFee header) None).

Definition NewEVMTxContext (msg : TxMessage) : TxContext :=
  mkTxContext (msg_From msg) (msg_GasPrice msg) [].

Definition set_TxContext (evm : EVM) (c : TxContext) : EVM :=
  mkEVM (Context evm) c (ChainID evm) (EnablePreimageRecording evm) (ExtraEips evm).

(** The closure [GetHashFn] returns: the cache is its state.  [GetHeader] ignores the hash
    and indexes the blocks.  The loop reads the headers backwards from the last known
    one. *)
Definition GetHeader (blocks : list Block) (h : Hash) (i : Z) : res Header :=
  b_header <$> go_index blocks i.

Fixpoint hash_loop (fuel : nat) (blocks : list Block) (n : Z) (cache : list Hash)
    (lastKnownHash : Hash) (lastKnownNumber : Z) : outcome (Hash * list Hash) :=
  match fuel with
  | O => OutOfFuel
  | S fuel =>
      match GetHeader blocks lastKnownHash lastKnownNumber with
      | Panic m => Crash m
      | Ok header =>
          let cache := cache ++ [hd_ParentHash header] in
          let lastKnownHash := hd_ParentHash header in
          match deref (hd_Number header) with
          | Panic m => Crash m
          | Ok number =>
              let lastKnownNumber := (u64 (Z.abs number) - 1)%u64 in
              if n =? lastKnownNumber then Done (lastKnownHash, cache)
              else hash_loop fuel blocks n cache lastKnownHash lastKnownNumber
          end
      end
  end.

Definition GetHashFn (fuel : nat) (ref : Header) (blocks : list Block) (n : Z) (cache : list Hash)
    : outcome (Hash * list Hash) :=
  match deref (hd_Number ref) with
  | Panic m => Crash m
  | Ok number =>
      let number := u64 (Z.abs number) in
      if number <=? n then Done (0, cache)
      else
        let cache := match cache with [] => [hd_ParentHash ref] | _ => cache end in
        let idx := (number - n - 1)%u64 in
        match (if idx <? len cache then cache !! Z.to_nat idx else None) with
        | Some h => Done (h, cache)
        | None =>
            hash_loop fuel blocks n cache (default 0 (last cache)) (number - len cache)%u64
        end
  end.

(** ** process.go *)

(** What a thread works on: its interpreter over the shared state, the gas counter
    [UsedGas] and the base fee of the block's header. *)
Record Thread := mkThread {
  t_in : Interp;
  t_UsedGas : Z;
  t_BaseFee : option Z;
}.

Definition on_interp {A} (m : stm Interp A) : stm Thread A := λ t,
  match m (t_in t) with
  | Done (a, i) => Done (a, mkThread i (t_UsedGas t) (t_BaseFee t))
  | Crash msg => Crash msg
  | OutOfFuel => OutOfFuel
  end.
Definition add_UsedGas (g : Z) : stm Thread Z := λ t,
  let used := (t_UsedGas t + g)%u64 in Done (used, mkThread (t_in t) used (t_BaseFee t)).
Definition to_message (tx : Transaction) (s : panguSigner) (IsParallel : bool)
    : stm Thread ((tx_error + TxMessage) * Transaction) := λ t,
  match TransactionToMessage tx s (t_BaseFee t) IsParallel with
  | Ok (m, tx, base) => Done (m, tx, mkThread (t_in t) (t_UsedGas t) base)
  | Panic msg => Crash msg
  end.

(** The fields of [ThreadMessage] that stay as they are, and the rounds an interpreter
    may run. *)
Section threads.
Variable BlockNumber : Z.
Variable BlockHash : Hash.
Variable EVMenv : EVM.
Variable Signer : panguSigner.
Variable fuel : nat.

(** [ExecuteTx]: the receipt, the true access list and the error.  A transaction refused
    in parallel mode gives neither receipt nor error. *)
Definition ExecuteTx (msg : TxMessage) (tx : Transaction)
    : stm Thread (option Receipt * option AccessList * option core_error * Transaction) :=
  let evm := set_TxContext EVMenv (NewEVMTxContext msg) in
  '(hash, tx) ← lift (tx_Hash tx);
  _ ← on_interp (db_do (λ s, SetTxContext s hash));
  '(r, msg) ← on_interp (ApplyTransaction evm (Run evm fuel) msg);
  if er_IsParallelError r then mret (None, None, None, tx)
  else
    match er_Err r with
    | Some e => mret (None, None, Some e, tx)
    | None =>
        used ← add_UsedGas (er_UsedGas r);
        let contract := match msg_To msg with
                        | None => CreateAddress (Origin (TxCtx evm)) (tx_Nonce tx)
                        | Some _ => 0
                        end in
        logs ← on_interp (db_get (λ s, GetLogs s hash (u64 (Z.abs BlockNumber)) BlockHash));
        let receipt bloom :=
          mkReceipt (tx_Type tx) [] ReceiptStatusSuccessful used bloom logs hash contract
            (er_UsedGas r) None BlockHash (Some BlockNumber) 0 in
        mret (Some (receipt (CreateBloom [receipt empty_bloom])), er_TrueAccessList r, None, tx)
    end.

(** [Signer.Sender] with the error dropped: the zero address. *)
Definition sender_or_zero (tx : Transaction) : res Address :=
  r ← signer_Sender Signer tx; Ok (match r with inr a => a | inl _ => 0 end).

(** The inner loop: the transactions that follow with the same sender, and the rest. *)
Fixpoint same_sender (tempAddress : Address) (txs : list Transaction)
    : res (list Transaction * list Transaction) :=
  match txs with
  | [] => Ok ([], [])
  | tx :: rest =>
      tempAddressNext ← sender_or_zero tx;
      if tempAddress =? tempAddressNext then
        '(same, rest) ← same_sender tempAddress rest; Ok (tx :: same, rest)
      else Ok ([], txs)
  end.

(** The loop of [TxThread]; [n] bounds its rounds, the number of transactions is
    enough. *)
Fixpoint thread_loop (n : nat) (IsParallel : bool) (txs : list Transaction) (acc : MessageReturn)
    : stm Thread MessageReturn :=
  match txs, n with
  | [], _ => mret acc
  | _ :: _, O => λ _, OutOfFuel
  | tx :: rest, S n =>
      '(m, tx) ← to_message tx Signer IsParallel;
      match m with
      | inl err =>
          let e := NewTxErrorMessage tx "function TransactionToMessage err" (Some (core_sender err)) in
          thread_loop n IsParallel rest (add_error acc e)
      | inr msg =>
          '(receipt, al, err, tx) ← ExecuteTx msg tx;
          match err, receipt with
          | Some _, _ =>
              thread_loop n IsParallel rest (add_error acc (NewTxErrorMessage tx "function ExecuteTx err" err))
          | None, None =>
              let acc := add_error acc (NewTxErrorMessage tx "TX can not execute in parallel thread" None) in
              tempAddress ← lift (sender_or_zero tx);
              '(same, rest) ← lift (same_sender tempAddress rest);
              thread_loop n IsParallel rest (add_serial acc (tx :: same))
          | None, Some r =>
              let acc := add_receipt acc r in
              thread_loop n IsParallel rest
                (if negb (msg_IsParallel msg) then add_access acc (mkTxAccessListMessage tx al) else acc)
          end
      end
  end.

Definition TxThread (txs : list Transaction) (IsParallel : bool) : stm Thread MessageReturn :=
  thread_loop (length txs) IsParallel txs empty_return.

(** A thread of its own interpreter over the shared state. *)
Definition go_TxThread (txs : list Transaction) (IsParallel : bool)
    : stm (StateDB * Z * option Z) MessageReturn := λ sh,
  let '(db, used, base) := sh in
  match TxThread txs IsParallel (mkThread (new_interp db) used base) with
  | Done (m, t) => Done (m, (evm_StateDB (t_in t), t_UsedGas t, t_BaseFee t))
  | Crash msg => Crash msg
  | OutOfFuel => OutOfFuel
  end.

(** The threads of the groups, one after another. *)
Fixpoint go_threads (groups : list (list Transaction))
    : stm (StateDB * Z * option Z) (list MessageReturn) :=
  match groups with
  | [] => mret []
  | txs :: groups => m ← go_TxThread txs true; ms ← go_threads groups; mret (m :: ms)
  end.

End threads.

(** After the threads: finalise once per virtual machine; the pending objects are those of
    the same state. *)
Definition merge_state (db : StateDB) : StateDB :=
  let db := Finalise db true in
  let '(spo, so) := GetPendingObj db in
  UpdateStateObj (SetPendingObj db spo) so.

(** The state [Process] threads through: the database, [UsedGas], the header's base fee. *)
Abbreviation Shared := (StateDB * Z * option Z)%type.
Definition on_db (f : StateDB → StateDB) : stm Shared () := modify (λ '(db, used, base), (f db, used, base)).
Definition commit_db : stm Shared (commit_error + Hash) := λ '(db, used, base),
  match Commit db true with
  | Ok (r, _, db) => Done (r, (db, used, base))
  | Panic msg => Crash msg
  end.

(** The serial stage: what the serial thread returns, or nothing when no transaction was
    left over. *)
Definition serial_stage (run_thread : list Transaction → stm Shared MessageReturn)
    (SerialTxList : list Transaction) : stm Shared MessageReturn :=
  match SerialTxList with
  | [] => mret empty_return
  | _ =>
      sorted ← lift (SortSerialTX SerialTxList);
      value ← run_thread sorted;
      _ ← on_db (λ db, Finalise db true);
      mret value
  end.

(** [Process] over the order in which the threads run. *)
Definition process_block (schedule : list (list Transaction) → list (list Transaction))
    (chainID : option Z) (preimages : bool) (extraEips : list Z) (getHash : Z → Hash) (fuel : nat)
    (block : Block) : stm Shared (string + ProcessReturnMsg) :=
  let TXS := b_transactions block in
  let header := b_header block in
  let BlockHash := fst (block_Hash block) in
  BlockNumber ← lift (block_Number block);
  EvmContext ← lift (NewEVMBlockContext header getHash);
  let Signer := NewPanguSigner chainID in
  match TXS with
  | [] => mret (inl "no Return Message in Parallel Channel"%string)
  | _ =>
      chain ← lift (deref chainID);
      let evm := mkEVM EvmContext (mkTxContext 0 0 []) chain preimages extraEips in
      let run_thread txs par := go_TxThread BlockNumber BlockHash evm Signer fuel txs par in
      values ← go_threads BlockNumber BlockHash evm Signer fuel (schedule TXS);
      _ ← on_db (λ db, Nat.iter (length TXS) merge_state db);
      value ← serial_stage (λ txs, run_thread txs false) (values ≫= TxSerial);
      root ← commit_db;
      match root with
      | inl _ => mret (inl "commit函数出错"%string)
      | inr RootHash =>
          used ← gets (λ sh, sh.1.2);
          mret (inr (NewProcessReturnMsg ((values ≫= NewReceipt) ++ NewReceipt value)
                       ((values ≫= NewLogs) ++ NewLogs value)
                       ((values ≫= TxError) ++ TxError value) (TxAccessList value) used RootHash))
      end
  end.

Definition Process (schedule : list (list Transaction) → list (list Transaction))
    (chainID : option Z) (preimages : bool) (extraEips : list Z) (getHash : Z → Hash) (fuel : nat)
    (block : Block) (statedb : StateDB) : outcome ((string + ProcessReturnMsg) * Shared) :=
  process_block schedule chainID preimages extraEips getHash fuel block
    (statedb, 0, hd_BaseFee (b_header block)).

End process.
