(* ===== verification/ProcessProps.v ===== *)
(** * Executing a block: no transaction is lost, and what it costs

    The closure that answers BLOCKHASH agrees with the list of ancestors whatever its
    cache holds; every transaction of a block ends with exactly one receipt or error; and
    the price a message carries is not the effective gas price of the transaction. *)

From S2P Require Import Prelude Bytes Params RlpEncode RlpRaw Common AccessList Types.
From S2P Require Import StateDB StateCommit Blocks EvmWord EvmBase Precompiles EvmState EvmCalls EvmRun.
From S2P Require Import EvmSample Transition Process.

(** ** The hashes of ancestors *)

Section ancestors.
Context {Cr : Crypto}.
Variable blocks : list Block.
Variable ref : Header.
Variable N : nat.

(** The chain below the block: block [i] is at index [i]. *)
Definition chain_ok : Prop :=
  hd_Number ref = Some (Z.of_nat N) ∧ (N <= length blocks)%nat ∧ Z.of_nat N < 2 ^ 64 ∧
  ∀ i b, blocks !! i = Some b → hd_Number (b_header b) = Some (Z.of_nat i).

(** The parent hash of the block at height [i]. *)
Definition parent_at (i : nat) : Hash :=
  if decide (i = N) then hd_ParentHash ref
  else match blocks !! i with Some b => hd_ParentHash (b_header b) | None => 0 end.

(** The hash of the block at height [n] is the parent hash of the next one. *)
Definition ancestors : list Hash := (λ k, parent_at (N - k)) <$> seq 0 N.

Lemma ancestors_lookup k : (k < N)%nat → ancestors !! k = Some (parent_at (N - k)).
Proof. intros Hk. unfold ancestors. by rewrite list_lookup_fmap, lookup_seq_lt. Qed.

Lemma take_ancestors k :
  (k < N)%nat → take (S k) ancestors = take k ancestors ++ [parent_at (N - k)].
Proof. intros Hk. apply take_S_r. by apply ancestors_lookup. Qed.

Lemma hash_loop_spec fuel n k h :
  chain_ok → (0 < k)%nat → (n + k < N)%nat → (N - k - n < fuel)%nat →
  hash_loop fuel blocks (Z.of_nat n) (take k ancestors) h (Z.of_nat (N - k)) =
  Done (parent_at (S n), take (N - n) ancestors).
Proof.
  intros (Href & HN & H64 & Hb). revert k h. induction fuel as [|fuel IH]; intros k h Hk Hn Hf; [lia|].
  cbn [hash_loop]. unfold GetHeader, go_index.
  destruct (Z.ltb_spec (Z.of_nat (N - k)) 0); [lia|]. rewrite Nat2Z.id.
  destruct (lookup_lt_is_Some_2 blocks (N - k)) as [b Hbk]; [lia|]. rewrite Hbk. simpl.
  rewrite (Hb _ _ Hbk). simpl.
  assert (hd_ParentHash (b_header b) = parent_at (N - k)) as ->.
  { unfold parent_at. rewrite decide_False by lia. by rewrite Hbk. }
  rewrite <- take_ancestors by lia.
  assert ((u64 (Z.abs (Z.of_nat (N - k))) - 1)%u64 = Z.of_nat (N - S k)) as ->.
  { rewrite Z.abs_eq, u64_sub_l, u64_id by (lia || split; lia). lia. }
  destruct (Z.eqb_spec (Z.of_nat n) (Z.of_nat (N - S k))) as [E|E].
  - assert (n = (N - S k)%nat) as -> by lia.
    replace (S (N - S k)) with (N - k)%nat by lia. by replace (N - (N - S k))%nat with (S k) by lia.
  - apply IH; lia.
Qed.

(** The memoised BLOCKHASH closure is the plain list of ancestors.  On a chain whose
    blocks are stored by height, with a cache that holds any number of the nearest
    ancestors, the closure returns the hash of block [n] for every [n] below the block and
    the zero hash otherwise, and leaves such a cache; the loop needs at most as many
    rounds as there are ancestors. *)
Theorem GetHashFn_ancestors fuel cache n :
  chain_ok → prefix cache ancestors → (N < fuel)%nat →
  ∃ cache',
    GetHashFn fuel ref blocks (Z.of_nat n) cache =
      Done (if decide (n < N)%nat then nth (N - 1 - n) ancestors 0 else 0, cache') ∧
    prefix cache' ancestors.
Proof.
  intros Hc [tl Hpre] Hf. pose proof Hc as (Href & HN & H64 & Hb).
  assert (cache = take (length cache) ancestors) as Hcache by (by rewrite Hpre, take_app_length).
  assert (length ancestors = N) as Hlen by (unfold ancestors; by rewrite length_fmap, length_seq).
  assert (length cache <= N)%nat as Hle by (rewrite <- Hlen, Hpre, length_app; lia).
  unfold GetHashFn. rewrite Href. simpl deref. cbv iota beta.
  rewrite Z.abs_eq, (u64_id (Z.of_nat N)) by (lia || split; lia).
  destruct (Z.leb_spec (Z.of_nat N) (Z.of_nat n)) as [Hn|Hn].
  { exists cache. rewrite decide_False by lia. split; [done | by exists tl]. }
  rewrite decide_True by lia.
  assert (∃ k, (0 < k <= N)%nat ∧
    match cache with [] => [hd_ParentHash ref] | _ => cache end = take k ancestors) as (k & Hk & ->).
  { destruct cache as [|h cache]; [exists 1%nat|exists (length (h :: cache)); by simpl in *; split; [lia|]].
    split; [lia|]. rewrite (take_ancestors 0), take_0 by lia. simpl. unfold parent_at.
    by rewrite Nat.sub_0_r, decide_True. }
  assert (len (take k ancestors) = Z.of_nat k) as ->
    by (unfold len; rewrite length_take_le by lia; done).
  rewrite (u64_id (_ - _ - 1)) by (split; lia).
  replace (Z.of_nat N - Z.of_nat n - 1) with (Z.of_nat (N - 1 - n)) by lia. rewrite Nat2Z.id.
  assert (nth (N - 1 - n) ancestors 0 = parent_at (S n)) as ->.
  { erewrite nth_lookup_Some by (apply ancestors_lookup; lia). f_equal. lia. }
  destruct (Z.ltb_spec (Z.of_nat (N - 1 - n)) (Z.of_nat k)).
  - rewrite lookup_take_lt, ancestors_lookup by lia.
    replace (N - (N - 1 - n))%nat with (S n) by lia. eexists. split; [done|]. apply prefix_take.
  - rewrite u64_id, <- Nat2Z.inj_sub, hash_loop_spec by (done || lia || split; lia).
    eexists. split; [done|]. apply prefix_take.
Qed.
End ancestors.

(** ** Every transaction is accounted for *)

Definition yields {S A} (Q : A → Prop) (m : stm S A) : Prop := ∀ s a s', m s = Done (a, s') → Q a.

Lemma yields_ret {S A} (Q : A → Prop) (a : A) : Q a → yields Q (mret (M := stm S) a).
Proof. by intros HQ s a' s' [= <- <-]. Qed.
Lemma yields_bind {S A B} (Q : B → Prop) (m : stm S A) (f : A → stm S B) :
  (∀ a, yields Q (f a)) → yields Q (m ≫= f).
Proof. intros Hf s b s' (a & s1 & _ & H)%stm_bind_Done. by eapply Hf. Qed.

Lemma lift_Done {S A} (r : res A) (s : S) a s' : lift r s = Done (a, s') → r = Ok a ∧ s' = s.
Proof. unfold lift. destruct r; intros; by simplify_eq. Qed.

Ltac solve_yields :=
  repeat first
    [ apply yields_ret; done
    | apply yields_bind; let x := fresh "x" in intros x; try destruct x
    | case_match ].

Section accounts.
Context {Cr : Crypto} {NC : NativeCrypto} {DB : Database} {U : Uint256} {GR : GoRuntime}.

(** Outside the parallel stage no transaction is refused for running in parallel. *)
Lemma serial_no_parallel_error evm run msg :
  msg_IsParallel msg = false →
  yields (λ r, er_IsParallelError r.1 = false) (ApplyTransaction evm run msg).
Proof. intros Hp. unfold ApplyTransaction, settle. rewrite Hp. solve_yields. Qed.

(** The errors that end a transaction; the others send it to the serial stage. *)
Definition final_error (e : TxErrorMessage) : Prop := is_Some (em_ErrorMsg e).
#[global] Instance final_error_dec e : Decision (final_error e).
Proof. unfold final_error. apply _. Defined.

Definition failed (es : list TxErrorMessage) : list Transaction := em_Tx <$> filter final_error es.

(** The receipt of a transaction carries its hash. *)
Definition receipt_of (tx : Transaction) (r : Receipt) : Prop := fst <$> tx_Hash tx = Ok (rc_TxHash r).

(** The receipts, final errors and serial transactions of a thread add up to [txs]; the
    gas counter grows by the gas of the receipts. *)
Definition accounts (m : MessageReturn) (txs : list Transaction) : Prop :=
  ∃ succ, Forall2 receipt_of succ (NewReceipt m) ∧
    inner <$> (succ ++ failed (TxError m) ++ TxSerial m) ≡ₚ inner <$> txs.

Definition gas_of (rs : list Receipt) : Z := foldr (λ r g, rc_GasUsed r + g) 0 rs.

Lemma gas_of_app rs rs' : gas_of (rs ++ rs') = gas_of rs + gas_of rs'.
Proof. induction rs as [|r rs IH]; simpl; [done|]. unfold gas_of in *. lia. Qed.

Lemma tx_Hash_inner tx h tx' :
  tx_Hash tx = Ok (h, tx') → inner tx' = inner tx ∧ fst <$> tx_Hash tx' = Ok h.
Proof.
  unfold tx_Hash. destruct (tx_hash tx) as [h0|] eqn:Eh.
  - intros [= -> ->]. rewrite Eh. done.
  - destruct (copy (inner tx)); simpl; [|done]. intros [= <- <-]. done.
Qed.

Lemma Sender_inner s tx r tx' : Sender s tx = Ok (r, tx') → inner tx' = inner tx.
Proof.
  unfold Sender. destruct (signer_Sender s tx) as [[e|a]|]; simpl; repeat case_match;
    intros; simplify_eq/=; done.
Qed.

Lemma to_message_spec tx s par t m tx' t' :
  to_message tx s par t = Done ((m, tx'), t') →
  inner tx' = inner tx ∧ t_UsedGas t' = t_UsedGas t ∧
  (∀ msg, m = inr msg → msg_IsParallel msg = par).
Proof.
  unfold to_message, TransactionToMessage. intros H.
  destruct (tx_GasTipCap tx), (deref (t_BaseFee t)), (tx_GasFeeCap tx), (tx_Value tx); simplify_eq/=.
  destruct (Sender s tx) as [[r tx1]|] eqn:Es; simplify_eq/=.
  split; [by eapply Sender_inner|]. split; [done|]. intros msg. by destruct r; intros; simplify_eq/=.
Qed.

Lemma on_interp_Done {A} (m : stm Interp A) t a t' :
  on_interp m t = Done (a, t') →
  (∃ i', m (t_in t) = Done (a, i')) ∧ t_UsedGas t' = t_UsedGas t.
Proof. unfold on_interp. destruct (m (t_in t)) as [[a' i']| |]; intros; simplify_eq/=. eauto. Qed.

Section threads.
Variable BlockNumber : Z.
Variable BlockHash : Hash.
Variable EVMenv : EVM.
Variable Signer : panguSigner.
Variable fuel : nat.

Lemma ExecuteTx_spec msg tx t r al err tx' t' :
  ExecuteTx BlockNumber BlockHash EVMenv fuel msg tx t = Done ((r, al, err, tx'), t') →
  inner tx' = inner tx ∧
  match err, r with
  | Some _, _ => t_UsedGas t' = t_UsedGas t
  | None, None => t_UsedGas t' = t_UsedGas t ∧ msg_IsParallel msg = true
  | None, Some rc => receipt_of tx' rc ∧ t_UsedGas t' = (t_UsedGas t + rc_GasUsed rc)%u64
  end.
Proof.
  intros ([h tx1] & t1 & [Eh ->]%lift_Done & H)%stm_bind_Done.
  destruct (tx_Hash_inner _ _ _ Eh) as [Hin Hh].
  apply stm_bind_Done in H as (u & t2 & [_ E2]%on_interp_Done & H).
  apply stm_bind_Done in H as ([res msg'] & t3 & [[i3 HA] E3]%on_interp_Done & H).
  destruct (er_IsParallelError res) eqn:Ep.
  { injection H as <- <- <- <- <-. split; [done|]. split; [congruence|].
    destruct (msg_IsParallel msg) eqn:Em; [done|].
    pose proof (serial_no_parallel_error _ _ _ Em _ _ _ HA) as Hn. simpl in Hn. congruence. }
  destruct (er_Err res); [injection H as <- <- <- <- <-; split; [done|]; congruence|].
  apply stm_bind_Done in H as (used & t4 & [= <- <-] & H).
  apply stm_bind_Done in H as (logs & t5 & [_ E5]%on_interp_Done & H).
  injection H as <- <- <- <- <-.
  split; [done|]. split; [exact Hh|]. rewrite E5. simpl. congruence.
Qed.

Lemma same_sender_app a txs same rest :
  same_sender Signer a txs = Ok (same, rest) → txs = same ++ rest.
Proof.
  revert same rest. induction txs as [|tx txs IH]; intros same rest; simpl; [by intros [= <- <-]|].
  destruct (sender_or_zero Signer tx) as [b|]; simpl; [|done].
  destruct (a =? b); [|by intros [= <- <-]].
  destruct (same_sender Signer a txs) as [[s r]|]; simpl; [|done]. intros [= <- <-]. simpl.
  f_equal. by apply IH.
Qed.

Lemma accounts_error m done tx e :
  accounts m done → final_error e → inner (em_Tx e) = inner tx →
  accounts (add_error m e) (done ++ [tx]).
Proof.
  intros (succ & Hs & Hp) He Hi. exists succ. split; [done|]. simpl.
  unfold failed in *. rewrite filter_app, fmap_app, filter_cons_True, filter_nil by done. simpl.
  rewrite !fmap_app in *. simpl. rewrite Hi, <- Hp. solve_Permutation.
Qed.

Lemma accounts_receipt m done tx tx' r :
  accounts m done → receipt_of tx' r → inner tx' = inner tx →
  accounts (add_receipt m r) (done ++ [tx]).
Proof.
  intros (succ & Hs & Hp) Hr Hi. exists (succ ++ [tx']). split; [by apply Forall2_app; [|constructor]|].
  simpl. rewrite !fmap_app in *. simpl. rewrite Hi, <- Hp. solve_Permutation.
Qed.

Lemma accounts_serial m done e tx tx' same :
  accounts m done → em_ErrorMsg e = None → inner tx' = inner tx →
  accounts (add_serial (add_error m e) (tx' :: same)) (done ++ tx :: same).
Proof.
  intros (succ & Hs & Hp) He Hi. exists succ. split; [done|]. simpl.
  unfold failed in *. rewrite filter_app, filter_cons_False, filter_nil, app_nil_r
    by (unfold final_error; rewrite He; by intros [? ?]).
  rewrite !fmap_app in *. simpl. rewrite Hi, <- Hp. by rewrite <- !(assoc_L (++)).
Qed.

Lemma thread_loop_spec n par txs acc done t m t' :
  u64_ok (t_UsedGas t) → accounts acc done →
  thread_loop BlockNumber BlockHash EVMenv Signer fuel n par txs acc t = Done (m, t') →
  accounts m (done ++ txs) ∧
  t_UsedGas t' = (t_UsedGas t + (gas_of (NewReceipt m) - gas_of (NewReceipt acc)))%u64 ∧
  (par = false → TxSerial m = TxSerial acc).
Proof.
  revert txs acc done t. induction n as [|n IH]; intros [|tx txs] acc done t Hu Ha H; cbn [thread_loop] in H.
  1,3: injection H as <- <-; rewrite app_nil_r, Z.sub_diag, Z.add_0_r, u64_id by done; done.
  { discriminate H. }
  apply stm_bind_Done in H as ([mm tx1] & t1 & (Hi1 & Hu1 & Hpar)%to_message_spec & H).
  rewrite cons_middle, (assoc_L (++)), <- Hu1.
  destruct mm as [e|msg].
  { apply (IH _ _ (done ++ [tx])) in H; [done|by rewrite Hu1|].
    by apply accounts_error; [|eexists|]. }
  apply stm_bind_Done in H as ([[[r al] err] tx2] & t2 & [Hi2 HE]%ExecuteTx_spec & H).
  assert (inner tx2 = inner tx) as Hi by congruence.
  destruct err as [e|].
  { rewrite <- HE. apply (IH _ _ (done ++ [tx])) in H; [done|congruence|].
    by apply accounts_error; [|eexists|]. }
  destruct r as [r|].
  - destruct HE as [Hr HE]. apply (IH _ _ (done ++ [tx])) in H.
    + destruct H as (HA & HG & HS). split; [done|]. split.
      * rewrite HG, HE, u64_add_l. f_equal. rewrite (Hpar msg eq_refl).
        destruct par; simpl; rewrite gas_of_app; simpl; lia.
      * intros ->. rewrite HS by done. by rewrite (Hpar msg eq_refl).
    + rewrite HE. apply u64_range.
    + pose proof (accounts_receipt _ _ _ _ _ Ha Hr Hi). by destruct (negb _).
  - destruct HE as [HE Hmp].
    apply stm_bind_Done in H as (a & t3 & [_ ->]%lift_Done & H).
    apply stm_bind_Done in H as ([same rest] & t4 & [Es ->]%lift_Done & H).
    apply same_sender_app in Es as ->. rewrite <- HE.
    apply (IH _ _ (done ++ tx :: same)) in H; [|congruence|by apply accounts_serial].
    rewrite <- !(assoc_L (++)) in *. simpl in *.
    destruct H as (HA & HG & HS). split_and!; [done|done|].
    intros ->. rewrite (Hpar msg eq_refl) in Hmp. done.
Qed.

Lemma go_TxThread_spec txs par db used base m sh :
  u64_ok used →
  go_TxThread BlockNumber BlockHash EVMenv Signer fuel txs par (db, used, base) = Done (m, sh) →
  accounts m txs ∧ sh.1.2 = (used + gas_of (NewReceipt m))%u64 ∧ (par = false → TxSerial m = []).
Proof.
  intros Hu H. unfold go_TxThread, TxThread in H.
  destruct (thread_loop _ _ _ _ _ _ _ _ _ _) as [[m' t']| |] eqn:E; simplify_eq/=.
  apply (thread_loop_spec _ _ _ _ []) in E; [|done|by exists []].
  simpl in E. by rewrite Z.sub_0_r in E.
Qed.

Lemma go_threads_spec groups db used base ms sh :
  u64_ok used →
  go_threads BlockNumber BlockHash EVMenv Signer fuel groups (db, used, base) = Done (ms, sh) →
  Forall2 accounts ms groups ∧ sh.1.2 = (used + gas_of (ms ≫= NewReceipt))%u64.
Proof.
  revert db used base ms. induction groups as [|txs groups IH]; intros db used base ms Hu H.
  { injection H as <- <-. simpl. split; [constructor|]. by rewrite Z.add_0_r, u64_id. }
  cbn [go_threads] in H.
  apply stm_bind_Done in H as (m & [[db1 used1] base1] & (Ha & Hg & _)%go_TxThread_spec & H); [|done].
  apply stm_bind_Done in H as (ms' & sh1 & H1 & H). injection H as <- <-. simpl in Hg. subst used1.
  apply IH in H1 as [Hf Hs]; [|apply u64_range]. split; [by constructor|].
  rewrite Hs, u64_add_l. f_equal. rewrite bind_cons, gas_of_app. lia.
Qed.
End threads.

Lemma serial_keys_inner l keyed :
  mapM serial_key l = Ok keyed → inner <$> keyed.*2 = inner <$> l.
Proof.
  revert keyed. induction l as [|tx l IH]; intros keyed; simpl; [by intros [= <-]|].
  destruct (serial_key tx) as [k|] eqn:Ek; simpl; [|done].
  destruct (mapM serial_key l) as [ks|]; simpl; [|done]. intros [= <-].
  rewrite !fmap_cons, (IH ks eq_refl). f_equal. unfold serial_key in Ek.
  destruct (tx_GasPrice tx); simpl in Ek; [|done].
  destruct (tx_Hash tx) as [[h tx']|] eqn:Eh; simpl in Ek; [|done]. injection Ek as <-.
  by destruct (tx_Hash_inner _ _ _ Eh).
Qed.

(** The serial queue is a permutation of what the threads left over, by nonce, then by
    falling price, then by hash. *)
Lemma SortSerialTX_spec l l' :
  SortSerialTX l = Ok l' →
  inner <$> l' ≡ₚ inner <$> l ∧
  ((2 <= length l)%nat → ∃ keyed, l' = keyed.*2 ∧ Sorted (λ x y, serial_less y x = false) keyed).
Proof.
  intros H. destruct l as [|t1 [|t2 l]]; [by injection H as <-; split; [|simpl; lia]..|].
  cbn [SortSerialTX] in H. destruct (mapM serial_key (t1 :: t2 :: l)) as [ks|] eqn:Ek; [|done].
  injection H as <-. split.
  - rewrite <- (serial_keys_inner _ _ Ek). by rewrite sort_slice_perm.
  - intros _. eexists. split; [done|]. apply sort_slice_sorted.
    + intros [[[n1 p1] h1] x1] [[[n2 p2] h2] x2]. unfold serial_less.
      repeat case_match; intros; try done; lia.
    + intros [[[n1 p1] h1] x1] [[[n2 p2] h2] x2] [[[n3 p3] h3] x3]. unfold serial_less.
      repeat case_match; intros; try done; lia.
Qed.

Lemma failed_app es es' : failed (es ++ es') = failed es ++ failed es'.
Proof. unfold failed. by rewrite filter_app, fmap_app. Qed.

Lemma accounts_concat ms groups :
  Forall2 accounts ms groups →
  ∃ succ, Forall2 receipt_of succ (ms ≫= NewReceipt) ∧
    inner <$> (succ ++ failed (ms ≫= TxError) ++ (ms ≫= TxSerial)) ≡ₚ inner <$> concat groups.
Proof.
  induction 1 as [|m txs ms groups (s1 & Hs1 & Hp1) _ (s2 & Hs2 & Hp2)]; [by exists []|].
  exists (s1 ++ s2). rewrite !bind_cons. split; [by apply Forall2_app|].
  rewrite failed_app. simpl. rewrite !fmap_app in *. rewrite <- Hp1, <- Hp2. solve_Permutation.
Qed.

(** What the serial stage returns for the transactions [left]. *)
Lemma serial_stage_spec bn bh evm signer fuel left db used base v sh :
  u64_ok used →
  serial_stage (λ txs, go_TxThread bn bh evm signer fuel txs false) left (db, used, base) = Done (v, sh) →
  ∃ succ, Forall2 receipt_of succ (NewReceipt v) ∧
    inner <$> (succ ++ failed (TxError v)) ≡ₚ inner <$> left ∧
    sh.1.2 = (used + gas_of (NewReceipt v))%u64.
Proof.
  intros Hu H. destruct left as [|t l].
  { injection H as <- <-. exists []. simpl. by rewrite Z.add_0_r, u64_id. }
  cbn [serial_stage] in H.
  apply stm_bind_Done in H as (sorted & sh1 & [[Hp _]%SortSerialTX_spec ->]%lift_Done & H).
  apply stm_bind_Done in H as (v' & [[db2 used2] base2] & (Ha & Hg & Hser)%go_TxThread_spec & H); [|done].
  apply stm_bind_Done in H as ([] & [[db3 used3] base3] & [= <- <- <-] & H). injection H as <- <-.
  destruct Ha as (succ & Hs & Hpa). exists succ. rewrite Hser, app_nil_r in Hpa by done.
  split; [done|]. split; [by rewrite Hpa|done].
Qed.


(** The price a message carries.  [TransactionToMessage] adds the tip twice and stores
    the sum in the block's header: the base fee of the header grows by twice the tip with
    every transaction, and the price is the fee cap or that sum, above the effective gas
    price (base fee plus tip) that receipts report. *)
Theorem TransactionToMessage_price tx s base par msg tx' base' cap tip :
  pt_FeeCap (inner tx) = Some cap → pt_TipCap (inner tx) = Some tip →
  TransactionToMessage tx s (Some base) par = Ok (inr msg, tx', base') →
  base' = Some (base + 2 * tip) ∧
  msg_GasPrice msg = Z.min cap (base + 2 * tip) ∧
  effectiveGasPrice (inner tx) (Some base) = Ok (Z.min cap (base + tip)).
Proof.
  intros Hc Ht H. unfold TransactionToMessage, tx_GasTipCap, tx_GasFeeCap in H.
  rewrite Hc, Ht in H. simpl in H.
  destruct (tx_Value tx); simpl in H; [|done].
  destruct (Sender s tx) as [[[e|from] tx1]|]; simplify_eq/=. split_and!.
  - f_equal. lia.
  - destruct (Z.ltb_spec cap (tip + (base + tip))); lia.
  - unfold effectiveGasPrice. rewrite Hc, Ht. simpl. f_equal.
    destruct (Z.ltb_spec tip (cap - base)); lia.
Qed.
End accounts.

(** ** Witnesses *)

#[local] Existing Instances toy_crypto mem_database word_model toy_native reference_runtime.

(** Two blocks below block 2, and a cache that already holds the parent. *)
Definition sample_block (n : Z) : Block :=
  InitBlock (mkHeader (100 + n) 0 (Some n) 0 0 0 0 [] None 0 0 []) [].

Lemma GetHashFn_ancestors_witness :
  ∃ cache', GetHashFn 3 (b_header (sample_block 2)) [sample_block 0; sample_block 1] 0 [102]
    = Done (101, cache') ∧ prefix cache' [102; 101].
Proof.
  apply (GetHashFn_ancestors [sample_block 0; sample_block 1] (b_header (sample_block 2)) 2 3 [102] 0).
  - split_and!; [reflexivity|simpl; lia|lia|].
    intros [|[|i]] b Hb; [injection Hb as <-; reflexivity..|discriminate Hb].
  - exists [101]. reflexivity.
  - lia.
Defined.

(** Three signed transfers of two senders; the second one calls a precompiled contract,
    which is never parallel, and takes the third with it. *)
Definition signed_tx (key nonce to : Z) : Transaction :=
  mkTransaction (mkPanguTransaction (Some to) nonce (Some 1) 60000 (Some 50) (Some 2) (Some 7) 0
    (be_bytes 32 1 ++ be_bytes 32 key ++ [0]) 0 [] 0 [] (Some NewAccessList)) 0 None None None.
Definition account_of (key : Z) : Address := pubkey_address (4 :: be_bytes 32 1 ++ be_bytes 32 key).
Definition funded_state : StateDB :=
  AddBalance (AddBalance mem_state (account_of 5) 10000000) (account_of 6) 20000000.
Definition three_txs : Block :=
  InitBlock (mkHeader 0 0 (Some 1) 99 0 0 0 [] (Some 1) 1000000 0 [])
    [[signed_tx 5 0 0x55]; [signed_tx 6 0 2; signed_tx 6 1 0x55]].
Abbreviation run_three := (Process reverse (Some 7) false [] (λ _, 0) 10 three_txs funded_state).


Lemma TransactionToMessage_price_witness :
  match TransactionToMessage (signed_tx 5 0 0x55) (mkSigner 7 14) (Some 40) true with
  | Ok (inr msg, _, base') => base' = Some 44 ∧ msg_GasPrice msg = 44
  | _ => False
  end ∧ effectiveGasPrice (inner (signed_tx 5 0 0x55)) (Some 40) = Ok 42.
Proof.
  assert (H : match TransactionToMessage (signed_tx 5 0 0x55) (mkSigner 7 14) (Some 40) true with
              | Ok (inr _, _, _) => true | _ => false end = true) by (vm_compute; reflexivity).
  destruct (TransactionToMessage _ _ _ _) as [[[[e|msg] tx'] base']|] eqn:E; [discriminate H| |discriminate H].
  apply (TransactionToMessage_price _ _ _ _ _ _ _ 50 2) in E as (Hb & Hp & He); [|reflexivity..].
  split; [split; [exact Hb | exact Hp] | exact He].
Defined.
